(* ===== verification/_CoqProject ===== *)
-Q . S2P
Prelude.v
RingBuffer.v
RingLog.v
RingTheorems.v
RingConcurrent.v
BrokerCommon.v
OldBroker.v
BrokerInvariant.v
BrokerSafety.v
BrokerVisit.v
BrokerActions.v
BrokerDestroy.v
BrokerRun.v
BrokerSpec.v
BrokerRefinement.v
Typed.v
BrokerTheorems.v
Allocators.v
AllocatorTheorems.v
BrokerTyping.v
TypingTheorems.v
Lifetime.v
Expected.v
ExpectedOps.v
ExpectedClass.v
ExpectedMonadic.v
ExpectedTheorems.v
ExpectedChaining.v
InplaceFunction.v
InplaceTheorems.v
MpmcQueue.v
MpmcTheorems.v
MpmcConcurrent.v
MpmcInvariant.v
MpmcConcurrentTheorems.v
ReaderWriterQueue.v
RwqBlocks.v
RwqRing.v
RwqOps.v
RwqConsumer.v
RwqLifecycle.v
RwqTheorems.v
Semaphore.v
SemaphoreTheorems.v
BlockingQueue.v
BlockingTheorems.v
RwqConcurrent.v
RwqView.v
RwqProducer.v
RwqConsumerThread.v
RwqThreads.v
RwqConcurrentTheorems.v
FreeList.v
FreeListInvariant.v
FreeListSteps.v
FreeListTheorems.v
FreeListStack.v
CqBlock.v
CqPool.v
CqExplicit.v
CqExplicitBulk.v
CqImplicit.v
CqFacts.v
CqPoolFacts.v
CqRing.v
CqExplicitInv.v
CqExplicitOps.v
CqCalls.v
CqLifecycle.v
CqProducer.v
CqExplicitTheorems.v
CqImplicitIndex.v
CqImplicitOps.v
CqImplicitTheorems.v
CqQueue.v
CqHash.v
CqQueueInv.v
CqQueueOps.v
CqQueueSetup.v
CqQueueTheorems.v
