(* ===== verification/Prelude.v ===== *)
(** * Keryx: a verification development

    Keryx is an event distribution library in C++ (src/).  It has two parts
    that work: a ring buffer that carries messages from one writer to readers
    that may lag behind (src/lib/ring_buffer/ring_buffer.h), and a publish /
    subscribe broker for one process (src/lib/broker/).  src/main.cpp drives the
    broker.  src/lib/utils/ holds the allocator helpers both use.  A third
    part, the distributed router (src/lib/router/), is a sketch that does not
    compile yet.  The repository carries the header-only libraries it builds on
    (src/externals/include): tl::expected, inplace_function, a bounded queue for
    many producers and consumers, and the queues of moodycamel.

    ** Shared conventions (Prelude.v, Lifetime.v)

    A C++ function is a function into [result]: it returns, or goes wrong in one
    of the ways of [fault].  Unsigned integers are [Z] with the wrap-around
    written out ([u32], [u64]).  [ndebug] says whether the build defines NDEBUG,
    which removes [assert].  Loops without a structural bound take fuel, and
    [out_of_fuel] is a fault of its own; for each of them there is a theorem
    about the fuel that is enough, or that none is.

    Lifetime.v is for the libraries in which objects are constructed, moved and
    destroyed by hand and any of that may throw: [CppType] says what the copy and
    move operations of a type do, [completion] is a return or an exception, [M]
    the monad of state, exceptions and faults, and [runs m s P Pt F] the triple:
    [m] returns in [P], throws in [Pt], or goes wrong in one of the ways of [F].

    ** The ring buffer

    - RingBuffer.v translates ring_buffer.h: [update] is [Slot::update],
      [write]/[write_loop]/[move_next] the members of [RingBuffer],
      [read_next]/[read_loop] those of [RingBufferReader]; the [ReadResult] and
      [WriteResult] modules are the classes of these names.  [write] runs its
      loop with fuel [S (length sview)], which is enough since an iteration
      copies at least a byte.  [read_next] needs fuel 1 on every buffer a writer
      can produce ([read_next_terminates]), and no fuel is enough on a slot of size 0
      ([continuation_slot_diverges]).
    - RingLog.v is the specification: the buffer is a log of chunks of which the
      last [n] are retained ([repr]), a reader is a position in the log
      ([reader_at]), [log_write] and [log_read] are the operations on the log.
      The lemmas show that [write] and [read_next] implement them.
    - RingTheorems.v: the refinement (C1, C2) and the round trip (C3), in builds with and
      without assertions; termination, and the places where the code does less than it seems to intend:
      long messages come back in pieces, full slots trip the assertion,
      a reader that is up to date is told LOSS from the second lap on, an
      overtaken reader never recovers, the chunk whose sequence number wraps
      to 0 is unreadable, the continuation path loops.
    - RingConcurrent.v splits both members at their accesses to shared memory
      and interleaves a writer and a reader thread, one access at a time, bytes
      of a payload in any order ([conc_step]).  A writer whose assertion fails
      aborts, and with it both threads end.  Its theorems: reads
      are never torn and are a prefix of what was written (C11), the sequential
      functions are runs of the threads (C12), neither thread waits for the other,
      and the writer aborts exactly on a full chunk in a build with assertions (C13).  Accesses are sequentially consistent; that the payload is accessed
      without atomics, which C++ calls a data race, is not modelled.

    ** The broker

    - BrokerCommon.v: the data of broker_common.h, TopicImpl.h, ConsumerImpl.h,
      SnapshotHandler.h, the variant [Action] of OldBroker.cpp, and the state
      [World]: the heap of producer and consumer objects by address (with the
      global counter [current_stream_id]), the members [me] of the broker, and
      the client.  What a client chooses (events, stream types, its own state,
      snapshot handlers) is the class [KeryxTypes].  Code of the client is a
      [Prog]: it computes on its state and calls the entry points of [OldBroker];
      a notification handler is a function from notifications to [Prog], so a
      handler may publish, make and destroy producers and consumers (itself
      included).  It may not call [do_work] or delete the broker, and it does not throw;
      filters are total functions without effects.
    - OldBroker.v: OldBroker.cpp and ProducerImpl.cpp, a definition per member
      ([make_producer], [publish], ..., [maybe_add], [producer_publish]), the
      visitor ([visit]), [do_work] (fuel: one more than the actions executed) and
      the destructor ([destroy_broker]).  Addresses are not reused; access to an
      object that is gone is [use_after_free].  [for_each] runs over the list as
      it is when the loop starts: notifications cannot change the lists that are
      being iterated, because handlers only append to the queue (the lemmas on
      [kept]).
    - BrokerInvariant.v: [winv] (the queue only names objects that will be there;
      the open handles are what is left when it is worked off) and [tinv] (the
      START EVENT* STOP protocol), preserved by client code.  BrokerSafety.v: a
      Hoare-style triple [safe], and what client code leaves alone ([kept],
      [stable], [ext]).  BrokerVisit.v, BrokerActions.v, BrokerDestroy.v: each of
      the five actions preserves [inv].  BrokerRun.v: [do_work], programs as lists
      of calls ([run_calls], [reachable]), the outcome of the destructor.
    - BrokerSpec.v is the specification: a registry of streams and consumers and
      a function [spec_step] that says who is told what, from the filters alone.
      BrokerRefinement.v: [do_work] implements it.
    - BrokerTheorems.v: safety (C14), the refinement (C15), subscriptions follow
      the filters (C16), the protocol (C17), silence after destruction (C18),
      every event that is queued is delivered, also those that handlers publish (C19),
      divergence with an echoing handler,
      no leaks (C21), the destructor (C22).
    - Typed.v: the templates of Producer.h and Consumer.h over a class [Stream].
      BrokerTyping.v: the discipline they impose on client code ([typed_prog]) and
      the invariant it maintains ([typed]).  TypingTheorems.v: the wrappers follow
      it (C30), and consumers get events of their own type only, never a null
      pointer (C31).
    - Typed.v also has the types and the two programs of main.cpp that use a broker;
      BrokerTheorems.v says what becomes of them.

    ** Utilities

    - Allocators.v: allocators.h, the factories of main.cpp, the loops of the
      allocation benchmarks, against a class [MemoryResource] with its laws.
      AllocatorTheorems.v: exception safety (C26), the loops return what they
      take, the leak of the hand-written factories.
      It also has the type-list search of mp_utils.h and its theorem.

    ** tl::expected

    - Expected.v: the union and its flag, the storage and operation bases;
      ExpectedOps.v: [construct], [assign] in all its overloads, the special
      members; ExpectedClass.v: the class itself (assignment, emplace, swap,
      the accessors); ExpectedMonadic.v: map, and_then, map_error and or_else, every
      overload of both dialects.  An object is [Alive] or dead, so that a
      construction over a live object and an access to a dead one show.
    - ExpectedTheorems.v: the special members copy (C23), with and without exceptions and
      for void; any sequence of operations keeps flag and union in agreement, as long as
      the errors and the construction of values do not throw (C24); what swap (C28) and the
      replacement of an error do wrong.
      ExpectedChaining.v: the chaining members compute the operations on sums
      (C29) and obey their laws.

    ** inplace_function

    - InplaceFunction.v: the buffer, the table of functions for a closure type and
      every member.  InplaceTheorems.v: an object is an optional closure, if copies and
      moves of closures do not throw (C36), and what happens if a closure throws when it is copied or moved.

    ** The bounded queue for many threads (mpmc_bounded_queue.h)

    - MpmcQueue.v, MpmcTheorems.v: the members on one thread, a bounded FIFO (C38).
      Fuel 1 is enough for the loops there.
    - MpmcConcurrent.v: the members split at their atomic accesses, any number of
      threads.  MpmcInvariant.v: the invariant of the machine;
      MpmcConcurrentTheorems.v: each position is written once and read once, in
      order (C39), without races (C40), both while the positions are below the sign bit.

    ** moodycamel::ReaderWriterQueue

    - ReaderWriterQueue.v: readerwriterqueue.h, the members on one thread, over a
      heap of blocks; the loops of the destructor and of [size_approx] run with one
      unit of fuel per block, those over elements with one per slot.  A block has room for
      its capacity: that its size in bytes wraps (for enormous blocks or elements) is
      left out.
    - RwqBlocks.v: a block as a circular buffer ([block_at]).  RwqRing.v: the ring of
      blocks ([ring_at], [holds]).  RwqOps.v, RwqConsumer.v, RwqLifecycle.v: what the
      enqueuing and dequeuing members, the constructor and the destructor do to it.
      RwqTheorems.v: the queue is a FIFO that can be full only if it holds what it
      was made for (C34), the destructor frees everything but the blocks of
      constructors that threw (C35), and the sizes for which [ceilToPow2]
      wraps.
    - RwqConcurrent.v: a producer and a consumer thread, the members split at their
      accesses to shared memory ([producer_step], [consumer_step]), and the machine
      that interleaves them ([rwq_step]) with a history of what was sent and received.
      RwqView.v: its invariant.  The [view] of a state is the queue without the changes
      that are not published yet; it satisfies the invariant of the sequential queue.
      What one thread knows survives the steps of the other.
      RwqProducer.v, RwqConsumerThread.v: every step preserves the invariant;
      RwqThreads.v: so does the machine.  RwqConcurrentTheorems.v: the threads see a
      FIFO (C5), no access is unsound (C7), calls are wait-free (C33).  The witnesses
      run the machine on schedules ([execute]).
    - Semaphore.v: the semaphores of atomicops.h as a machine of a waiting and a
      signalling thread over the POSIX calls, whose documented behaviour is a class of
      laws.  SemaphoreTheorems.v: no unit is acquired that was not signalled (C25), if
      the deadlines are ones [sem_timedwait] accepts, [signal] is called with positive
      numbers and fewer than 2^63 units are signalled; what happens otherwise.
    - BlockingQueue.v: the queue with a semaphore, on one thread; waiting for
      what no one will send is the fault [blocked].  BlockingTheorems.v: its answers
      are those of a counted FIFO, up to the first deadline that [sem_timedwait] refuses,
      and what happens then (C10).

    ** moodycamel::ConcurrentQueue

    - FreeList.v: the lock-free free list of concurrentqueue.h.  A node is anything
      with the two atomics [freeListRefs] and [freeListNext] ([FreeListNode]); [add],
      [try_get] and [add_knowing_refcount_is_zero] are given twice, as functions
      for one thread and split at their atomic accesses for any number of
      threads ([fl_step], [fl_any]).  FreeListInvariant.v: what every step
      preserves, and the measure that decreases.  FreeListSteps.v:
      every step preserves it.
    - FreeListTheorems.v: no thread gets a node another holds, no assertion fails
      (C4); a node is with a thread, on the list, or on its way there (C8); in
      every state some thread can finish a call, whatever the others do
      (C6); [try_get] answers that there is none only if the list was empty.
      FreeListStack.v: on one thread the list is a stack.
    - CqBlock.v, CqPool.v: blocks, the memory they are in and the pool the queue takes
      them from.  The traits of the queue, the sizes of its types and what malloc answers
      are the class [Traits].  CqExplicit.v: producers with a token, CqExplicitBulk.v their
      bulk operations.  All of these are the members as one thread executes them; the
      loops over the ring of a producer have a unit of fuel for every block there is,
      those over a block and over an index one for each element or entry.
    - CqFacts.v: powers of two, indices that wrap, what compiler and allocator promise
      ([TraitsOk]), the members of [Block].  CqPoolFacts.v: who has which block
      ([pool_inv]).  CqRing.v: rings of blocks, and a block as a part of a sequence of
      elements ([block_at]); the block index ([header_at]).  CqExplicitInv.v:
      the invariant of a producer ([explicit_at]), and what the steps of its members do to
      it.  CqExplicitOps.v, CqCalls.v, CqLifecycle.v: the members keep it.  A producer is [clean] as long
      as no constructor has thrown.
    - CqExplicitTheorems.v: a producer is a FIFO within the size limit (C27), and its
      end destroys the elements that are left and frees everything, unless a
      constructor has thrown; what bulk operations that fail break.
    - CqProducer.v: the interface of a producer ([ProducerOps]) and its laws
      ([ProducerLaws]): it represents the list of its elements.  What one thread does with
      a queue of one producer, from construction to destruction, is proved from the laws.
    - CqImplicit.v: producers for threads without a token, bulk operations included.
      CqImplicitIndex.v: their block index, a circular array of pointers to entries, which
      may be replaced by a larger one with pointers to the same entries ([index_ok]).
      CqImplicitOps.v: the invariant ([implicit_at]) and the members.  CqImplicitTheorems.v:
      destruction; an implicit producer satisfies the laws: it is a FIFO within the size
      limit (C20) and its end frees everything, whatever has thrown.
    - CqQueue.v: the queue that puts the producers together: the list of producers, which
      recycles those that are inactive, tokens of producers and of consumers, the hash
      table that gives every thread an implicit producer and grows by linking a larger
      table in front of the old one, every member to enqueue and dequeue, construction,
      moving, swapping and destruction.  A [Store] is the memory with the producers, tables,
      queues and tokens in it, by address; [explicit_with], [implicit_with] run a member of a
      producer on its part of the store.  Loops over the list and over the tables have one
      unit of fuel for each producer or table there is, those over a table one for each entry.
      A thread is a number that is not 0, as the address that identifies it.
    - CqHash.v: hash tables as finite maps ([table_ok]: open addressing with linear probing,
      growing when they are half full), chains of tables ([chain], [threads_ok]).
      CqQueueInv.v: the invariant of a queue, from the interface of its producers:
      [heap_at] for the producers, of either kind, and the blocks they own, [desk_at] for tokens
      and threads, [queue_at] for both.  CqQueueOps.v: dequeuing, with and without a token,
      sizes, and the rotation of the consumers.  CqQueueSetup.v: producers that are created and
      reused, tables that grow, tokens, enqueuing.
    - CqQueueTheorems.v: the specification is a set of FIFO streams ([Queue], [queue_step]).
      Any sequence of fewer than 2^32 calls (there is a 32-bit counter of producers) of the
      members for single elements, sizes and tokens, on a queue whose initial blocks fit the
      address space, follows it and goes wrong in no way (C9); what is seen adds up: sizes are
      enqueues less dequeues, do not wrap, and a dequeue fails only at 0 (C37); the destructor frees everything and
      invalidates the tokens (C32).  Which stream a call reads from is left open.

    ** Not modelled

    src/lib/router: the sources refer to members and functions that exist
    nowhere ([stream.kind], [routes_to], [clear_parent]) and do not compile.
    The queue and the producers of concurrentqueue.h on several threads at once (its free
    list is, [FreeList]), its debug code and is_lock_free.  The bulk members of producers and
    queues, and moving and swapping whole queues, are defined, but there are only examples of
    bulk operations and no theorems.  The benchmark library.  The semaphores for Windows and
    Mach.  Memory orders: all interleavings are sequentially consistent, so fences
    have no effect.  The class names that are
    only declared ([StreamDescriptor], [StreamDescriptorRegistry], [Error]).  Timing and the
    registration of benchmarks.  That replacing [notify] while the handler runs
    destroys the closure that is executing is not modelled; nor are references
    to a topic that a handler keeps after it has returned.  Events are values: who
    owns the memory of an [EventPtr] while it travels through the queue to the
    snapshot handler is not tracked. *)
From stdpp Require Export base list numbers option relations.
From Stdlib Require Export Lia.
From Stdlib Require Import Init.Byte.

#[global] Open Scope Z_scope.

(** ** Outcomes of a computation

    A C++ function either returns or goes wrong; the ways of going wrong the
    sources can reach are listed in [fault]. *)
Inductive fault :=
  | assert_failed    (* a failing assert / keryx_assert in a build without NDEBUG *)
  | out_of_bounds    (* an access outside an array, a vector or a buffer *)
  | use_after_free   (* a member access or a call through a dangling pointer *)
  | bad_erase        (* std::vector::erase at end() *)
  | client_misuse    (* the caller of the library broke its side of the contract *)
  | dead_object      (* an access to an object whose lifetime has not begun or has ended *)
  | division_by_zero
  | signed_overflow  (* arithmetic on a signed integer left its range *)
  | terminated       (* std::terminate: an exception left a function that is noexcept *)
  | blocked          (* a thread waits for something only it could do *)
  | out_of_fuel.     (* the model ran out of loop iterations *)

#[global] Instance fault_eq_dec : EqDecision fault.
Proof. solve_decision. Defined.

Inductive result (A : Type) : Type :=
  | Ok (a : A)
  | Err (f : fault).
Arguments Ok {A} _.
Arguments Err {A} _.

#[global] Instance result_ret : MRet result := fun A => Ok.
#[global] Instance result_bind : MBind result :=
  fun A B k m => match m with Ok a => k a | Err f => Err f end.

Lemma bind_Ok {A B} (a : A) (k : A → result B) : (x ← Ok a; k x) = k a.
Proof. reflexivity. Qed.

Lemma bind_Ok_inv {A B} (m : result A) (k : A → result B) b :
  (x ← m; k x) = Ok b → ∃ a, m = Ok a ∧ k a = Ok b.
Proof. destruct m; simpl; [eauto | discriminate]. Qed.

(** [assert(b)]: checked unless the build defines NDEBUG (CMakeLists.txt does
    so for the release build only). *)
Definition cassert (ndebug : bool) (b : bool) : result unit :=
  if ndebug || b then Ok tt else Err assert_failed.

(** [std::vector::operator[]]: an index past the end is undefined behaviour. *)
Definition vector_at {A} (v : list A) (i : Z) : result A :=
  match v !! Z.to_nat i with
  | Some a => Ok a
  | None => Err out_of_bounds
  end.

Lemma vector_at_Some {A} (v : list A) i a :
  v !! Z.to_nat i = Some a → vector_at v i = Ok a.
Proof. unfold vector_at. by intros ->. Qed.

(** ** Machine integers

    An unsigned w-bit integer is a [Z] in [0, 2^w); every operation that can
    leave the range is wrapped explicitly. *)
Definition u32 (z : Z) : Z := z mod 2 ^ 32.
Definition u64 (z : Z) : Z := z mod 2 ^ 64.
Abbreviation size_t := u64 (only parsing).

Lemma u32_small z : 0 ≤ z < 2 ^ 32 → u32 z = z.
Proof. apply Z.mod_small. Qed.

Lemma u64_small z : 0 ≤ z < 2 ^ 64 → u64 z = z.
Proof. apply Z.mod_small. Qed.

Lemma u32_bound z : 0 ≤ u32 z < 2 ^ 32.
Proof. by apply Z.mod_pos_bound. Qed.

Lemma u64_bound z : 0 ≤ u64 z < 2 ^ 64.
Proof. by apply Z.mod_pos_bound. Qed.

Lemma u32_succ z : u32 (u32 z + 1) = u32 (z + 1).
Proof. unfold u32. by rewrite Zplus_mod_idemp_l. Qed.

Lemma u64_add a b : u64 (u64 a + b) = u64 (a + b).
Proof. unfold u64. by rewrite Zplus_mod_idemp_l. Qed.

(** Incrementing a cursor and resetting it at [n] is counting modulo [n]. *)
Lemma mod_succ_wrap (m n : Z) :
  0 < n →
  (if m mod n + 1 =? n then 0 else m mod n + 1) = (m + 1) mod n.
Proof.
  intros Hn. pose proof (Z.mod_pos_bound m n Hn) as Hb.
  pose proof (Z.div_mod m n ltac:(lia)) as Hd.
  destruct (Z.eqb_spec (m mod n + 1) n) as [He|He].
  - symmetry. apply Z.mod_divide; [lia|]. exists (m / n + 1). lia.
  - apply Z.mod_unique with (q := m / n); lia.
Qed.

(** The same for a 32-bit cursor into at most 2^32 places. *)
Lemma u32_cursor_succ (m : Z) (n : nat) :
  (0 < n)%nat → Z.of_nat n ≤ 2 ^ 32 →
  (if u32 (m mod Z.of_nat n + 1) =? Z.of_nat n then 0 else u32 (m mod Z.of_nat n + 1))
    = (m + 1) mod Z.of_nat n.
Proof.
  intros Hn Hb. pose proof (Z.mod_pos_bound m (Z.of_nat n) ltac:(lia)).
  rewrite <- mod_succ_wrap by lia.
  destruct (decide (m mod Z.of_nat n + 1 = 2 ^ 32)) as [He|He].
  - assert (Hn32 : Z.of_nat n = 2 ^ 32) by lia. rewrite He, Hn32. reflexivity.
  - by rewrite u32_small by lia.
Qed.

(** Two indices of the same residue that are less than [n] apart are equal. *)
Lemma mod_window_inj (n a b : nat) :
  (0 < n)%nat → (a mod n = b mod n)%nat → (a ≤ b < a + n)%nat → a = b.
Proof.
  intros Hn Hm Hw.
  pose proof (Nat.div_mod_eq a n). pose proof (Nat.div_mod_eq b n).
  assert (b / n = a / n)%nat by nia. nia.
Qed.

(** ** Lists *)
Definition zlen {A} (l : list A) : Z := Z.of_nat (length l).

Lemma zlen_nonneg {A} (l : list A) : 0 ≤ zlen l.
Proof. unfold zlen. lia. Qed.

Lemma zlen_app {A} (l k : list A) : zlen (l ++ k) = zlen l + zlen k.
Proof. unfold zlen. rewrite length_app. lia. Qed.

Lemma take_app_exact {A} (l k : list A) : take (length l) (l ++ k) = l.
Proof. by rewrite take_app_length. Qed.

Lemma prefix_lookup_Some {A} (l k : list A) i a :
  l !! i = Some a → l `prefix_of` k → k !! i = Some a.
Proof. intros Hl [m ->]. by apply lookup_app_l_Some. Qed.

(** A prefix can be extended by the element that follows it. *)
Lemma prefix_app_lookup {A} (l k : list A) a :
  l `prefix_of` k → k !! length l = Some a → l ++ [a] `prefix_of` k.
Proof.
  intros [m ->] Hk. rewrite lookup_app_r, Nat.sub_diag in Hk by done.
  destruct m as [|b m]; simplify_eq/=. exists m. by rewrite <- app_assoc.
Qed.

Lemma app_cons_assoc {A} (l k : list A) a : l ++ a :: k = (l ++ [a]) ++ k.
Proof. by rewrite <- app_assoc. Qed.

(** Copying [l] over the beginning of [m], one element at a time. *)
Lemma insert_take_drop {A} (l m : list A) j b :
  l !! j = Some b → (j < length m)%nat →
  <[j := b]> (take j l ++ drop j m) = take (S j) l ++ drop (S j) m.
Proof.
  intros Hl Hm. pose proof (lookup_lt_Some _ _ _ Hl).
  destruct (lookup_lt_is_Some_2 m j Hm) as [c Hc].
  rewrite (drop_S m c j Hc), (take_S_r l j b Hl), <- app_assoc.
  rewrite insert_app_r_alt by (rewrite length_take; lia).
  rewrite length_take, Nat.min_l, Nat.sub_diag by lia. done.
Qed.

(** Filtering looks at the elements of the list only. *)
Lemma list_filter_iff_in {A} (P Q : A → Prop) `{!∀ x, Decision (P x), !∀ x, Decision (Q x)}
    (l : list A) :
  (∀ x, x ∈ l → P x ↔ Q x) → filter P l = filter Q l.
Proof.
  induction l as [|x l IH]; intros Heq; [done|].
  rewrite !filter_cons, IH by (intros; apply Heq; by right).
  pose proof (Heq x ltac:(by left)). destruct (decide (P x)), (decide (Q x)); tauto.
Qed.

(** ** Relations *)
Lemma rtc_preserves {A} (R : relation A) (P : A → Prop) x y :
  (∀ a b, R a b → P a → P b) → rtc R x y → P x → P y.
Proof. intros HR Hxy. induction Hxy; eauto. Qed.

(** ** Automation *)
Create HintDb keryx discriminated.
Create Rewrite HintDb keryx_rw.
#[export] Hint Resolve zlen_nonneg : keryx.
#[export] Hint Rewrite @zlen_app @app_nil_r : keryx_rw.

(** Open every successful bind among the hypotheses. *)
Ltac bind_inv :=
  repeat match goal with
  | H : (mbind _ _) = Ok _ |- _ =>
      let x := fresh "r" in let E := fresh "E" in
      apply bind_Ok_inv in H as (x & E & H)
  | H : Ok _ = Ok _ |- _ => injection H as H
  | H : Err _ = Ok _ |- _ => discriminate H
  end.

Ltac zlia := unfold zlen in *; lia.
