(* ===== verification/RingBuffer.v ===== *)
(** * src/lib/ring_buffer/ring_buffer.h, executed sequentially

    [Slot], [RingBuffer] (the single writer) and [RingBufferReader], one
    definition per member function.  [ndebug] says whether the build defines
    NDEBUG.  The theorems about these definitions are in RingLog.v (the
    abstract log they implement); RingConcurrent.v interleaves the same steps
    of a writer and a reader thread. *)
From S2P Require Import Prelude.
From Stdlib Require Import Init.Byte.

(** ** Slots *)

(** [std::array<uint8_t, 56>] *)
Definition sizeof_SlotData : Z := 56.

Record SlotHeader := mkSlotHeader { sn : Z; sz : Z }.

Record Slot := mkSlot { slot_header : SlotHeader; slot_data : list byte }.

#[global] Instance SlotHeader_eq_dec : EqDecision SlotHeader.
Proof. solve_decision. Defined.

(** [Slot()]: both members are zeroed. *)
Definition Slot_new : Slot :=
  mkSlot (mkSlotHeader 0 0) (replicate (Z.to_nat sizeof_SlotData) x00).

(** [memcpy(&dst[0], src.data(), src.size())] into an array. *)
Definition memcpy (dst src : list byte) : result (list byte) :=
  if zlen src <=? zlen dst
  then Ok (src ++ drop (length src) dst)
  else Err out_of_bounds.

(** The three effects of [Slot::update]: invalidate the header, copy the
    payload, publish the new header. *)
Definition store_header (h : SlotHeader) (s : Slot) : Slot :=
  mkSlot h (slot_data s).

Definition update (ndebug : bool) (d : list byte) (n : Z) (s : Slot) : result Slot :=
  _ ← cassert ndebug (zlen d <? sizeof_SlotData);
  let s1 := store_header (mkSlotHeader 0 0) s in
  data' ← memcpy (slot_data s1) d;
  let s2 := mkSlot (slot_header s1) data' in
  Ok (store_header (mkSlotHeader n (u32 (zlen d))) s2).

(** ** The writer *)
Module WriteResult.
Inductive t := OK | MSG_TOO_BIG | EMPTY_MSG.
End WriteResult.

Record RingBuffer := mkRingBuffer {
  current_slot : Z;   (* uint32_t *)
  current_sn : Z;     (* uint32_t *)
  slots : list Slot
}.

Definition RingBuffer_new (ndebug : bool) (n_slots : Z) : result RingBuffer :=
  let rb := mkRingBuffer 0 1 (replicate (Z.to_nat n_slots) Slot_new) in
  _ ← cassert ndebug (0 <? n_slots);
  Ok rb.

Definition move_next (rb : RingBuffer) : RingBuffer :=
  let n := u32 (current_sn rb + 1) in
  let c := u32 (current_slot rb + 1) in
  mkRingBuffer (if c =? zlen (slots rb) then 0 else c) n (slots rb).

(** [std::string_view(&sview[pos], len)] *)
Definition substr (sview : list byte) (pos len : Z) : list byte :=
  take (Z.to_nat len) (drop (Z.to_nat pos) sview).

Definition set_slot (i : Z) (s : Slot) (rb : RingBuffer) : RingBuffer :=
  mkRingBuffer (current_slot rb) (current_sn rb) (<[Z.to_nat i := s]> (slots rb)).

(** [while (current_byte != sview.size()) ...] *)
Fixpoint write_loop (fuel : nat) (ndebug : bool) (sview : list byte)
    (current_byte : Z) (rb : RingBuffer) : result RingBuffer :=
  match fuel with
  | O => Err out_of_fuel
  | S fuel =>
      if current_byte =? zlen sview then Ok rb
      else
        let remaining := size_t (zlen sview - current_byte) in
        let to_write := Z.min sizeof_SlotData remaining in
        cslot ← vector_at (slots rb) (current_slot rb);
        cslot' ← update ndebug (substr sview current_byte to_write) (current_sn rb) cslot;
        write_loop fuel ndebug sview (size_t (current_byte + to_write))
          (move_next (set_slot (current_slot rb) cslot' rb))
  end.

Definition write (ndebug : bool) (sview : list byte) (rb : RingBuffer)
    : result (WriteResult.t * RingBuffer) :=
  if size_t (zlen (slots rb) * sizeof_SlotData) <? zlen sview
  then Ok (WriteResult.MSG_TOO_BIG, rb)
  else if zlen sview =? 0
  then Ok (WriteResult.EMPTY_MSG, rb)
  else
    rb' ← write_loop (S (length sview)) ndebug sview 0 rb;
    Ok (WriteResult.OK, rb').

(** ** The reader *)
Module ReadResult.
Inductive Result := OK | NO_DATA | LOSS.

Record t := mk { result : Result; data : list byte }.

#[global] Instance Result_eq_dec : EqDecision Result.
Proof. solve_decision. Defined.

Definition clear (r : t) : t := mk (result r) [].
Definition set_result (x : Result) (r : t) : t := mk x (data r).

(** [std::string::append(const char*, size_t)] from a slot's array. *)
Definition append (d : list byte) (n : Z) (r : t) : Prelude.result t :=
  let count := if negb (n =? 0) then n else sizeof_SlotData in
  if count <=? zlen d
  then Ok (mk (result r) (data r ++ take (Z.to_nat count) d))
  else Err out_of_bounds.
End ReadResult.

Record RingBufferReader := mkReader {
  expected_sn : Z;    (* uint32_t *)
  rd_slot : Z;        (* uint32_t _current_slot *)
  rd_result : ReadResult.t
}.

(** The constructor leaves [_result._result] indeterminate: [r0] is its
    arbitrary initial value. *)
Definition RingBufferReader_new (r0 : ReadResult.Result) : RingBufferReader :=
  mkReader 1 0 (ReadResult.mk r0 []).

Definition reader_move_next (rb : RingBuffer) (p : Z * Z) : Z * Z :=
  let n := u32 (p.1 + 1) in
  let c := u32 (p.2 + 1) in
  (n, if c =? zlen (slots rb) then 0 else c).

Definition finish (x : ReadResult.Result) (r : ReadResult.t) (rdr : RingBufferReader)
    : RingBufferReader :=
  mkReader (expected_sn rdr) (rd_slot rdr) (ReadResult.set_result x r).

(** The [for (;;)] of [read_next]; [res] is the member [_result] and [w] the
    pair (w_esn, w_cs).  Nothing writes the buffer meanwhile, so both header
    loads of an iteration read the same slot. *)
Fixpoint read_loop (fuel : nat) (rb : RingBuffer) (w : Z * Z) (res : ReadResult.t)
    (rdr : RingBufferReader) : result RingBufferReader :=
  match fuel with
  | O => Err out_of_fuel
  | S fuel =>
      cslot ← vector_at (slots rb) (rd_slot rdr);
      let h := slot_header cslot in
      if sn h =? 0 then Ok (finish ReadResult.NO_DATA res rdr)
      else if negb (sn h =? expected_sn rdr) then Ok (finish ReadResult.LOSS res rdr)
      else
        res' ← ReadResult.append (slot_data cslot) (sz h) res;
        let w' := reader_move_next rb w in
        let h_now := slot_header cslot in
        if negb (sn h =? sn h_now) then Ok (finish ReadResult.LOSS res' rdr)
        else if negb (sz h_now =? 0)
        then Ok (mkReader w'.1 w'.2 (ReadResult.set_result ReadResult.OK res'))
        else read_loop fuel rb w' res' rdr
  end.

Definition read_next (fuel : nat) (rb : RingBuffer) (rdr : RingBufferReader)
    : result RingBufferReader :=
  read_loop fuel rb (expected_sn rdr, rd_slot rdr) (ReadResult.clear (rd_result rdr)) rdr.

(** What the caller sees of a finished [read_next]. *)
Definition outcome (rdr : RingBufferReader) : ReadResult.Result * list byte :=
  (ReadResult.result (rd_result rdr), ReadResult.data (rd_result rdr)).
