(* ===== verification/RingLog.v ===== *)
(** * The log a ring buffer implements

    The abstract view of a [RingBuffer] is the list [L] of all the chunks ever
    written to it, oldest first; of these the buffer retains the last [n].
    [log_write] and [log_read] are the abstract operations, [repr] and
    [reader_at] the representation invariants, and the theorems show that
    [write] and [read_next] implement the abstract operations. *)
From S2P Require Import Prelude RingBuffer.
From Stdlib Require Import Init.Byte.

(** ** Specification *)

(** The pieces of at most one slot in which a message is stored. *)
Fixpoint chunk_list (fuel : nat) (l : list byte) : list (list byte) :=
  match fuel, l with
  | S fuel, _ :: _ =>
      take (Z.to_nat sizeof_SlotData) l
        :: chunk_list fuel (drop (Z.to_nat sizeof_SlotData) l)
  | _, _ => []
  end.

Definition chunks (l : list byte) : list (list byte) := chunk_list (length l) l.

Definition chunk_ok (c : list byte) : Prop := 0 < zlen c ≤ sizeof_SlotData.

#[global] Instance chunk_ok_dec c : Decision (chunk_ok c).
Proof. unfold chunk_ok. apply _. Defined.

Definition log_write (n : nat) (L : list (list byte)) (msg : list byte)
    : WriteResult.t * list (list byte) :=
  if Z.of_nat n * sizeof_SlotData <? zlen msg then (WriteResult.MSG_TOO_BIG, L)
  else if zlen msg =? 0 then (WriteResult.EMPTY_MSG, L)
  else (WriteResult.OK, L ++ chunks msg).

(** One read at position [p] of the log: the outcome and the next position.
    An unwritten position is reported as NO_DATA on the first lap of the
    reader only; a position that was overwritten is reported as LOSS and the
    reader stays where it is. *)
Definition log_read (n : nat) (L : list (list byte)) (p : nat)
    : (ReadResult.Result * list byte) * nat :=
  match L !! p with
  | Some c =>
      if decide (length L ≤ p + n)%nat then ((ReadResult.OK, c), S p)
      else ((ReadResult.LOSS, []), p)
  | None =>
      if decide (p < n)%nat then ((ReadResult.NO_DATA, []), p)
      else ((ReadResult.LOSS, []), p)
  end.

(** What slot [i] of a buffer of [n] slots holds once [L] has been written:
    nothing yet, or the newest chunk whose index is [i] modulo [n], followed by
    stale bytes. *)
Inductive holds (n : nat) (L : list (list byte)) (i : nat) (s : Slot) : Prop :=
  | holds_nothing :
      (length L ≤ i)%nat →
      slot_header s = mkSlotHeader 0 0 →
      holds n L i s
  | holds_chunk (j : nat) (c : list byte) :
      L !! j = Some c →
      (j mod n = i)%nat →
      (length L ≤ j + n)%nat →
      slot_header s = mkSlotHeader (u32 (Z.of_nat j + 1)) (zlen c) →
      take (length c) (slot_data s) = c →
      holds n L i s.

Record repr (n : nat) (L : list (list byte)) (rb : RingBuffer) : Prop := {
  repr_size : length (slots rb) = n;
  repr_pos : (0 < n)%nat;
  repr_bound : Z.of_nat n ≤ 2 ^ 32;
  repr_slot : current_slot rb = zlen L mod Z.of_nat n;
  repr_sn : current_sn rb = u32 (zlen L + 1);
  repr_chunks : Forall chunk_ok L;
  repr_data : Forall (λ s, zlen (slot_data s) = sizeof_SlotData) (slots rb);
  repr_slots : ∀ i s, slots rb !! i = Some s → holds n L i s
}.

Record reader_at (n : nat) (p : nat) (rdr : RingBufferReader) : Prop := {
  reader_sn : expected_sn rdr = u32 (Z.of_nat p + 1);
  reader_slot : rd_slot rdr = Z.of_nat p mod Z.of_nat n
}.

(** [k] consecutive calls of [read_next], with what each of them returned. *)
Fixpoint read_many (k : nat) (rb : RingBuffer) (rdr : RingBufferReader)
    : result (list (ReadResult.Result * list byte) * RingBufferReader) :=
  match k with
  | O => Ok ([], rdr)
  | S k =>
      rdr' ← read_next 1 rb rdr;
      '(l, rdr'') ← read_many k rb rdr';
      Ok (outcome rdr' :: l, rdr'')
  end.

(** Consecutive messages written by one writer. *)
Fixpoint write_many (ndebug : bool) (msgs : list (list byte)) (rb : RingBuffer)
    : result (list WriteResult.t * RingBuffer) :=
  match msgs with
  | [] => Ok ([], rb)
  | m :: msgs =>
      '(r, rb') ← write ndebug m rb;
      '(rs, rb'') ← write_many ndebug msgs rb';
      Ok (r :: rs, rb'')
  end.

(** ** Chunks *)
Lemma chunk_list_fuel f l :
  (length l ≤ f)%nat → chunk_list f l = chunk_list (length l) l.
Proof.
  revert l. induction f as [f IH] using (well_founded_induction lt_wf).
  intros [|b l] Hf; [by destruct f|].
  destruct f as [|f]; [simpl in Hf; lia|]. cbn [chunk_list length]. f_equal.
  assert (Hd : (length (drop (Z.to_nat sizeof_SlotData) (b :: l)) ≤ length l)%nat)
    by (rewrite length_drop; simpl; lia).
  destruct (decide (f = length l)) as [->|]; [done|].
  simpl in Hf. rewrite (IH f), (IH (length l)); auto; lia.
Qed.

Lemma chunks_nil : chunks [] = [].
Proof. reflexivity. Qed.

Lemma chunks_unfold l :
  l ≠ [] →
  chunks l = take (Z.to_nat sizeof_SlotData) l :: chunks (drop (Z.to_nat sizeof_SlotData) l).
Proof.
  intros Hl. destruct l as [|b l]; [done|].
  unfold chunks at 1. cbn [length chunk_list]. f_equal.
  apply chunk_list_fuel. rewrite length_drop. simpl. lia.
Qed.

(** Induction along the chunks of a message. *)
Lemma chunks_ind (P : list byte → Prop) :
  P [] →
  (∀ l, l ≠ [] → P (drop (Z.to_nat sizeof_SlotData) l) → P l) →
  ∀ l, P l.
Proof.
  intros H0 HS l. induction l as [l IH] using (induction_ltof1 _ (@length byte)).
  destruct (decide (l = [])) as [->|Hl]; [done|].
  apply HS; [done|]. apply IH. unfold ltof, sizeof_SlotData. rewrite length_drop.
  destruct l; [done|cbn [length]; lia].
Qed.

Lemma concat_chunks l : concat (chunks l) = l.
Proof.
  induction l as [|l Hl IH] using chunks_ind; [done|].
  rewrite chunks_unfold by done. simpl. rewrite IH. apply take_drop.
Qed.

Lemma chunk_ok_take l : l ≠ [] → chunk_ok (take (Z.to_nat sizeof_SlotData) l).
Proof.
  unfold chunk_ok, zlen, sizeof_SlotData. rewrite length_take. destruct l; [done|cbn [length]; lia].
Qed.

Lemma chunks_small l : chunk_ok l → chunks l = [l].
Proof.
  unfold chunk_ok, zlen, sizeof_SlotData. intros H.
  rewrite chunks_unfold by (intros ->; simpl in H; lia).
  rewrite take_ge, drop_ge by (unfold sizeof_SlotData; lia). done.
Qed.

Lemma length_chunks_bound n l :
  zlen l ≤ Z.of_nat n * sizeof_SlotData → (length (chunks l) ≤ n)%nat.
Proof.
  revert n. induction l as [|l Hl IH] using chunks_ind; intros n Hn; [simpl; lia|].
  rewrite chunks_unfold by done. simpl.
  destruct n as [|n]; [destruct l; [done|unfold zlen in Hn; cbn [length] in Hn; lia]|].
  enough (length (chunks (drop (Z.to_nat sizeof_SlotData) l)) ≤ n)%nat by lia.
  apply IH. unfold zlen, sizeof_SlotData in *. rewrite length_drop. lia.
Qed.

(** ** One slot *)
Lemma update_release d n s :
  zlen d ≤ sizeof_SlotData →
  zlen (slot_data s) = sizeof_SlotData →
  update true d n s =
    Ok (mkSlot (mkSlotHeader n (zlen d)) (d ++ drop (length d) (slot_data s))).
Proof.
  intros Hd Hs. unfold update, memcpy, cassert. simpl.
  rewrite Hs, (proj2 (Z.leb_le _ _) Hd). simpl.
  unfold store_header. simpl. rewrite u32_small; [done|].
  unfold zlen, sizeof_SlotData in *. lia.
Qed.

(** A checked build agrees with a release build on payloads below 56 bytes and
    stops on the others. *)
Lemma update_checked d n s :
  update false d n s =
    if zlen d <? sizeof_SlotData then update true d n s else Err assert_failed.
Proof. unfold update, cassert. simpl. by destruct (zlen d <? sizeof_SlotData). Qed.

Lemma update_data_length d (s : Slot) :
  zlen d ≤ sizeof_SlotData →
  zlen (slot_data s) = sizeof_SlotData →
  zlen (d ++ drop (length d) (slot_data s)) = sizeof_SlotData.
Proof.
  unfold zlen, sizeof_SlotData. rewrite length_app, length_drop. lia.
Qed.

(** ** One step of the writer *)

(** Slot [i] after chunk [c] has been appended at another position. *)
Lemma holds_other n L c i s :
  (0 < n)%nat → (i < n)%nat → i ≠ (length L mod n)%nat →
  holds n L i s → holds n (L ++ [c]) i s.
Proof.
  intros Hn Hi Hne [Hle Hh|j d Hj Hm Hw Hh Hd].
  - apply holds_nothing; [|done]. rewrite length_app. simpl.
    destruct (decide (length L = i)) as [<-|]; [|lia].
    by rewrite Nat.mod_small in Hne by lia.
  - pose proof (lookup_lt_Some _ _ _ Hj) as Hlt.
    eapply holds_chunk; eauto using lookup_app_l_Some.
    rewrite length_app. simpl.
    destruct (decide (length L = j + n)%nat) as [He|]; [|lia].
    destruct Hne. rewrite He, <- Hm. rewrite <- (Nat.mul_1_l n) at 2.
    by rewrite Nat.Div0.mod_add.
Qed.

Lemma holds_new n L c (s : Slot) :
  (0 < n)%nat →
  slot_header s = mkSlotHeader (u32 (zlen L + 1)) (zlen c) →
  take (length c) (slot_data s) = c →
  holds n (L ++ [c]) (length L mod n) s.
Proof.
  intros Hn Hh Hd. apply holds_chunk with (j := length L) (c := c); auto.
  - by rewrite lookup_app_r, Nat.sub_diag by lia.
  - rewrite length_app. simpl. lia.
Qed.

Lemma repr_slot_data n L rb i s :
  repr n L rb → slots rb !! i = Some s → zlen (slot_data s) = sizeof_SlotData.
Proof. intros HR Hs. exact (Forall_lookup_1 _ _ _ _ (repr_data _ _ _ HR) Hs). Qed.

Lemma repr_chunk_ok n L rb j c : repr n L rb → L !! j = Some c → chunk_ok c.
Proof. intros HR Hj. exact (Forall_lookup_1 _ _ _ _ (repr_chunks _ _ _ HR) Hj). Qed.

(** The slot at the writer's cursor, and the state after writing [c] there. *)
Lemma repr_cursor n L rb :
  repr n L rb →
  Z.to_nat (current_slot rb) = (length L mod n)%nat ∧ (length L mod n < n)%nat.
Proof.
  intros H. pose proof (repr_pos _ _ _ H). split.
  - rewrite (repr_slot _ _ _ H). unfold zlen. rewrite <- Nat2Z.inj_mod. lia.
  - apply Nat.mod_upper_bound. lia.
Qed.

Lemma repr_step n L rb c new :
  repr n L rb → chunk_ok c →
  slot_header new = mkSlotHeader (current_sn rb) (zlen c) →
  zlen (slot_data new) = sizeof_SlotData →
  take (length c) (slot_data new) = c →
  repr n (L ++ [c]) (move_next (set_slot (current_slot rb) new rb)).
Proof.
  intros HR Hc Hh Hdat Hd. destruct (repr_cursor _ _ _ HR) as [Hcur Hlt].
  pose proof HR as [Hsize Hn Hb Hslot Hsn HC HD HS].
  assert (Hz : zlen (<[(length L mod n)%nat := new]> (slots rb)) = Z.of_nat n)
    by (unfold zlen; rewrite length_insert; lia).
  unfold move_next, set_slot.
  split; cbn [slots current_slot current_sn]; rewrite ?Hcur; auto.
  - by rewrite length_insert.
  - rewrite Hz, zlen_app, Hslot. change (zlen [c]) with 1. by apply u32_cursor_succ.
  - rewrite Hsn, u32_succ, zlen_app. f_equal.
  - apply Forall_app. auto.
  - by apply Forall_insert.
  - intros i s Hi.
    destruct (decide (i = (length L mod n)%nat)) as [->|Hne].
    + rewrite list_lookup_insert_eq in Hi by lia. injection Hi as <-.
      apply holds_new; [done|by rewrite Hh, Hsn|done].
    + rewrite list_lookup_insert_ne in Hi by done.
      apply holds_other; eauto. apply lookup_lt_Some in Hi. lia.
Qed.

Lemma repr_cursor_lookup n L rb :
  repr n L rb → ∃ s, slots rb !! (length L mod n)%nat = Some s.
Proof.
  intros H. destruct (repr_cursor _ _ _ H) as [_ Hlt].
  apply lookup_lt_is_Some_2. rewrite (repr_size _ _ _ H). done.
Qed.

(** ** The write loop *)
Lemma substr_chunk (msg : list byte) (k : nat) :
  (k < length msg)%nat →
  substr msg (Z.of_nat k) (Z.min sizeof_SlotData (zlen msg - Z.of_nat k))
    = take (Z.to_nat sizeof_SlotData) (drop k msg).
Proof.
  intros Hk. unfold substr, zlen. rewrite Nat2Z.id.
  destruct (decide (sizeof_SlotData ≤ Z.of_nat (length msg) - Z.of_nat k)).
  - by rewrite Z.min_l by lia.
  - rewrite Z.min_r by lia. rewrite !take_ge; rewrite ?length_drop; auto; lia.
Qed.

(** The cursor arithmetic of one iteration. *)
Lemma length_take_drop_chunk (msg : list byte) (k : nat) :
  length (take (Z.to_nat sizeof_SlotData) (drop k msg))
    = Nat.min (Z.to_nat sizeof_SlotData) (length msg - k).
Proof. by rewrite length_take, length_drop. Qed.

Lemma next_byte (msg : list byte) (k : nat) :
  zlen msg < 2 ^ 64 → (k ≤ length msg)%nat →
  size_t (Z.of_nat k + Z.min sizeof_SlotData (zlen msg - Z.of_nat k)) =
    Z.of_nat (k + length (take (Z.to_nat sizeof_SlotData) (drop k msg))).
Proof.
  intros Hm Hk. rewrite length_take_drop_chunk.
  unfold sizeof_SlotData, zlen in *. rewrite u64_small; lia.
Qed.

Lemma drop_next (msg : list byte) (k : nat) :
  drop (k + length (take (Z.to_nat sizeof_SlotData) (drop k msg))) msg
    = drop (Z.to_nat sizeof_SlotData) (drop k msg).
Proof.
  rewrite drop_drop, length_take_drop_chunk.
  destruct (decide (Z.to_nat sizeof_SlotData ≤ length msg - k)%nat);
    [f_equal; lia|rewrite !drop_ge by lia; done].
Qed.

(** One iteration writes one chunk and goes on. *)
Lemma write_loop_iteration n L rb msg fuel k :
  repr n L rb → zlen msg < 2 ^ 64 → (k < length msg)%nat →
  let c := take (Z.to_nat sizeof_SlotData) (drop k msg) in
  ∃ rb', repr n (L ++ [c]) rb' ∧
    write_loop (S fuel) true msg (Z.of_nat k) rb
      = write_loop fuel true msg (Z.of_nat (k + length c)) rb'.
Proof.
  intros HR Hm Hlt c.
  assert (Hc : chunk_ok c).
  { apply chunk_ok_take. intros E%(f_equal length).
    rewrite length_drop in E. simpl in E. lia. }
  destruct (repr_cursor_lookup _ _ _ HR) as [s Hs].
  destruct (repr_cursor _ _ _ HR) as [Hcur _].
  pose proof (repr_slot_data _ _ _ _ _ HR Hs) as Hdat.
  set (new := mkSlot (mkSlotHeader (current_sn rb) (zlen c)) (c ++ drop (length c) (slot_data s))).
  exists (move_next (set_slot (current_slot rb) new rb)). split.
  { apply repr_step; simpl; auto using take_app_exact.
    apply update_data_length; [unfold chunk_ok in Hc; lia|done]. }
  cbn [write_loop]. destruct (Z.eqb_spec (Z.of_nat k) (zlen msg)) as [He|He]; [zlia|].
  rewrite (u64_small (zlen msg - Z.of_nat k)) by zlia.
  rewrite (vector_at_Some _ _ s) by (by rewrite Hcur). rewrite bind_Ok.
  rewrite substr_chunk by done. fold c.
  rewrite update_release by (unfold chunk_ok in Hc; lia || done). rewrite bind_Ok.
  by rewrite next_byte by (done || lia).
Qed.

Lemma write_loop_refines n msg :
  zlen msg < 2 ^ 64 →
  ∀ fuel k L rb,
    repr n L rb → (k ≤ length msg)%nat → (length msg < fuel + k)%nat →
    ∃ rb', write_loop fuel true msg (Z.of_nat k) rb = Ok rb' ∧
           repr n (L ++ chunks (drop k msg)) rb'.
Proof.
  intros Hm. induction fuel as [|fuel IH]; intros k L rb HR Hk Hf; [lia|].
  destruct (decide (k = length msg)) as [->|Hne].
  { exists rb. cbn [write_loop]. rewrite drop_all, chunks_nil, app_nil_r.
    unfold zlen. by rewrite Z.eqb_refl. }
  destruct (write_loop_iteration n L rb msg fuel k) as (rb1 & HR1 & ->); auto with lia.
  destruct (IH (k + length (take (Z.to_nat sizeof_SlotData) (drop k msg)))%nat
              _ _ HR1) as (rb' & Hrun & HR').
  - rewrite length_take_drop_chunk. lia.
  - rewrite length_take_drop_chunk. unfold sizeof_SlotData. lia.
  - exists rb'. split; [exact Hrun|].
    rewrite drop_next, <- app_assoc in HR'. rewrite chunks_unfold; [exact HR'|].
    intros E%(f_equal length). rewrite length_drop in E. simpl in E. lia.
Qed.

Lemma write_branch n L rb :
  repr n L rb →
  size_t (zlen (slots rb) * sizeof_SlotData) = Z.of_nat n * sizeof_SlotData.
Proof.
  intros H. pose proof (repr_bound _ _ _ H). pose proof (repr_size _ _ _ H).
  unfold zlen, sizeof_SlotData in *. rewrite u64_small; lia.
Qed.

Lemma write_refines_log n L rb msg :
  repr n L rb →
  ∃ rb', write true msg rb = Ok ((log_write n L msg).1, rb') ∧
         repr n (log_write n L msg).2 rb'.
Proof.
  intros HR. unfold write, log_write. rewrite (write_branch n L) by done.
  destruct (Z.ltb_spec (Z.of_nat n * sizeof_SlotData) (zlen msg)) as [|Hle]; [by exists rb|].
  destruct (Z.eqb_spec (zlen msg) 0) as [|Hne]; [by exists rb|].
  pose proof (repr_bound _ _ _ HR).
  destruct (write_loop_refines n msg ltac:(unfold sizeof_SlotData in *; lia)
    (S (length msg)) 0 L rb HR ltac:(lia) ltac:(lia)) as (rb' & Hrun & HR').
  change (Z.of_nat 0) with 0 in Hrun. rewrite Hrun. simpl.
  rewrite drop_0 in HR'. eauto.
Qed.

(** ** The reader *)

(** A reader that is not ahead of the writer, in a log whose sequence numbers
    have not wrapped around, tells the chunks apart by their numbers. *)
Lemma sn_of_index (j : nat) : Z.of_nat j + 1 < 2 ^ 32 → u32 (Z.of_nat j + 1) = Z.of_nat j + 1.
Proof. intros. apply u32_small. lia. Qed.

Lemma u32_index_ne (j p : nat) :
  j ≠ p → Z.of_nat j + 1 < 2 ^ 32 → Z.of_nat p + 1 ≤ 2 ^ 32 →
  Z.of_nat j + 1 ≠ u32 (Z.of_nat p + 1).
Proof.
  intros Hne Hj Hp. destruct (decide (Z.of_nat p + 1 = 2 ^ 32)) as [->|].
  - change (u32 (2 ^ 32)) with 0. lia.
  - rewrite u32_small by lia. lia.
Qed.

Lemma reader_cursor n L rb p rdr :
  repr n L rb → reader_at n p rdr →
  Z.to_nat (rd_slot rdr) = (p mod n)%nat ∧
  ∃ s, slots rb !! (p mod n)%nat = Some s ∧
       zlen (slot_data s) = sizeof_SlotData ∧ holds n L (p mod n) s.
Proof.
  intros HR [_ Hs]. pose proof (repr_pos _ _ _ HR). split.
  - rewrite Hs, <- Nat2Z.inj_mod. lia.
  - destruct (lookup_lt_is_Some_2 (slots rb) (p mod n)%nat) as [s Hl].
    { rewrite (repr_size _ _ _ HR). apply Nat.mod_upper_bound. lia. }
    exists s. split_and!; eauto using repr_slot_data, repr_slots.
Qed.

(** The reader's cursor advances along the log. *)
Lemma reader_at_succ n rb p rdr res :
  length (slots rb) = n → (0 < n)%nat → Z.of_nat n ≤ 2 ^ 32 →
  reader_at n p rdr →
  reader_at n (S p)
    (mkReader (reader_move_next rb (expected_sn rdr, rd_slot rdr)).1
              (reader_move_next rb (expected_sn rdr, rd_slot rdr)).2 res).
Proof.
  intros Hz Hn Hb [Hsn Hs].
  split; cbn [reader_move_next fst snd expected_sn rd_slot].
  - rewrite Hsn, u32_succ. f_equal. lia.
  - unfold zlen. rewrite Hz, Hs. replace (Z.of_nat (S p)) with (Z.of_nat p + 1) by lia.
    by apply u32_cursor_succ.
Qed.

(** The three ways in which one iteration ends, by the header it finds. *)
Lemma read_next_header n L rb p rdr fuel s :
  repr n L rb → reader_at n p rdr → slots rb !! (p mod n)%nat = Some s →
  sn (slot_header s) = 0 →
  read_next (S fuel) rb rdr
    = Ok (finish ReadResult.NO_DATA (ReadResult.clear (rd_result rdr)) rdr).
Proof.
  intros HR HP Hs H0. destruct (reader_cursor _ _ _ _ _ HR HP) as [Hc _].
  unfold read_next. cbn [read_loop].
  rewrite (vector_at_Some _ _ s) by (by rewrite Hc). rewrite bind_Ok.
  by rewrite H0.
Qed.

Lemma read_next_mismatch n L rb p rdr fuel s :
  repr n L rb → reader_at n p rdr → slots rb !! (p mod n)%nat = Some s →
  sn (slot_header s) ≠ 0 → sn (slot_header s) ≠ u32 (Z.of_nat p + 1) →
  read_next (S fuel) rb rdr
    = Ok (finish ReadResult.LOSS (ReadResult.clear (rd_result rdr)) rdr).
Proof.
  intros HR HP Hs H0 Hne. destruct (reader_cursor _ _ _ _ _ HR HP) as [Hc _].
  unfold read_next. cbn [read_loop].
  rewrite (vector_at_Some _ _ s) by (by rewrite Hc). rewrite bind_Ok.
  rewrite (reader_sn _ _ _ HP).
  rewrite (proj2 (Z.eqb_neq _ _) H0), (proj2 (Z.eqb_neq _ _) Hne). done.
Qed.

Lemma read_next_match n L rb p rdr fuel s c :
  repr n L rb → reader_at n p rdr → slots rb !! (p mod n)%nat = Some s →
  slot_header s = mkSlotHeader (u32 (Z.of_nat p + 1)) (zlen c) →
  u32 (Z.of_nat p + 1) ≠ 0 →
  take (length c) (slot_data s) = c → chunk_ok c →
  ∃ rdr', read_next (S fuel) rb rdr = Ok rdr' ∧
          reader_at n (S p) rdr' ∧ outcome rdr' = (ReadResult.OK, c).
Proof.
  intros HR HP Hs Hh H0 Hd Hc. destruct (reader_cursor _ _ _ _ _ HR HP) as (Hcur & s' & Hs' & Hdat & _).
  rewrite Hs in Hs'. injection Hs' as <-.
  unfold read_next. cbn [read_loop].
  rewrite (vector_at_Some _ _ s) by (by rewrite Hcur). rewrite bind_Ok.
  rewrite Hh. cbn [sn sz]. rewrite <- (reader_sn _ _ _ HP) in H0 |- *.
  rewrite (proj2 (Z.eqb_neq _ _) H0), Z.eqb_refl. cbn [negb].
  unfold ReadResult.append, chunk_ok in *.
  rewrite (proj2 (Z.eqb_neq (zlen c) 0)) by lia. cbn [negb].
  rewrite Hdat, (proj2 (Z.leb_le (zlen c) sizeof_SlotData)) by lia. rewrite bind_Ok.
  eexists. split; [reflexivity|]. split; [apply reader_at_succ; [apply HR..|done]|].
  unfold outcome. cbn. unfold zlen. by rewrite Nat2Z.id, Hd.
Qed.

Lemma read_next_refines_log n L rb p rdr fuel :
  repr n L rb → reader_at n p rdr →
  (p ≤ length L)%nat → zlen L < 2 ^ 32 →
  ∃ rdr', read_next (S fuel) rb rdr = Ok rdr' ∧
          outcome rdr' = (log_read n L p).1 ∧
          reader_at n (log_read n L p).2 rdr'.
Proof.
  intros HR HP Hp HL.
  destruct (reader_cursor _ _ _ _ _ HR HP) as (_ & s & Hs & _ & Hh).
  pose proof (repr_pos _ _ _ HR) as Hn.
  pose proof (Nat.mod_upper_bound p n ltac:(lia)) as Hmod.
  assert (Hstay : ∀ x, reader_at n p (finish x (ReadResult.clear (rd_result rdr)) rdr))
    by (intros; destruct HP; by split).
  unfold log_read. destruct Hh as [Hle Hh|j c Hj Hm Hw Hh Hd].
  - pose proof (Nat.Div0.mod_le p n).
    rewrite (lookup_ge_None_2 L p), decide_True by lia.
    eexists. split; [eapply read_next_header; eauto; by rewrite Hh|]. by split.
  - pose proof (lookup_lt_Some _ _ _ Hj) as Hjl.
    assert (Hsn : u32 (Z.of_nat j + 1) = Z.of_nat j + 1) by (apply sn_of_index; zlia).
    destruct (decide (j = p)) as [->|Hne].
    + rewrite Hj, decide_True by done.
      pose proof (repr_chunk_ok _ _ _ _ _ HR Hj).
      destruct (read_next_match n L rb p rdr fuel s c) as (rdr' & ? & ? & ?); eauto with lia.
    + eexists. split; [eapply read_next_mismatch; eauto; rewrite Hh; cbn [sn]; rewrite Hsn|].
      * lia.
      * apply u32_index_ne; zlia.
      * destruct (L !! p) as [c'|] eqn:Hlp.
        -- apply lookup_lt_Some in Hlp. rewrite decide_False; [by split|]. intros Hle.
           destruct (le_lt_dec j p);
             [apply Hne, (mod_window_inj n); lia|apply Hne; symmetry; apply (mod_window_inj n); lia].
        -- apply lookup_ge_None in Hlp. rewrite decide_False; [by split|]. intros Hpn.
           rewrite (Nat.mod_small p) in Hm by done. rewrite Nat.mod_small in Hm by lia. lia.
Qed.

(** ** Fresh buffers and readers *)
Lemma new_repr ndebug n_slots :
  0 < n_slots ≤ 2 ^ 32 →
  ∃ rb, RingBuffer_new ndebug n_slots = Ok rb ∧ repr (Z.to_nat n_slots) [] rb.
Proof.
  intros Hn. eexists. split.
  - unfold RingBuffer_new, cassert.
    rewrite (proj2 (Z.ltb_lt 0 n_slots)) by lia. rewrite orb_true_r. reflexivity.
  - split; cbn [slots current_slot current_sn]; auto with lia.
    + by rewrite length_replicate.
    + apply Forall_replicate. reflexivity.
    + intros i s [-> Hi]%lookup_replicate. apply holds_nothing; [simpl; lia|done].
Qed.

Lemma new_reader_at n r0 : reader_at n 0 (RingBufferReader_new r0).
Proof. by split. Qed.

(** ** Sequences of operations *)
Definition log_write_many (n : nat) (L : list (list byte)) (msgs : list (list byte))
    : list WriteResult.t * list (list byte) :=
  foldl (λ acc m, let r := log_write n acc.2 m in (acc.1 ++ [r.1], r.2)) ([], L) msgs.

Lemma log_write_many_acc n msgs rs L :
  foldl (λ acc m, let r := log_write n acc.2 m in (acc.1 ++ [r.1], r.2)) (rs, L) msgs
    = (rs ++ (log_write_many n L msgs).1, (log_write_many n L msgs).2).
Proof.
  revert rs L. unfold log_write_many.
  induction msgs as [|m msgs IH]; intros rs L; simpl; [by rewrite app_nil_r|].
  rewrite (IH (rs ++ _)), (IH [_]). simpl. by rewrite <- app_assoc.
Qed.

Lemma log_write_many_cons n m msgs L :
  log_write_many n L (m :: msgs) =
    ((log_write n L m).1 :: (log_write_many n (log_write n L m).2 msgs).1,
     (log_write_many n (log_write n L m).2 msgs).2).
Proof. unfold log_write_many at 1. simpl. by rewrite log_write_many_acc. Qed.

Lemma write_many_refines_log n msgs L rb :
  repr n L rb →
  ∃ rb', write_many true msgs rb = Ok ((log_write_many n L msgs).1, rb') ∧
         repr n (log_write_many n L msgs).2 rb'.
Proof.
  revert L rb. induction msgs as [|m msgs IH]; intros L rb HR; [by exists rb|].
  destruct (write_refines_log n L rb m HR) as (rb1 & Hw & HR1).
  destruct (IH _ _ HR1) as (rb2 & Hws & HR2).
  exists rb2. rewrite log_write_many_cons. simpl. rewrite Hw. simpl. by rewrite Hws.
Qed.

(** Messages of at most one slot each are appended as they are. *)
Lemma log_write_many_small n L msgs :
  (0 < n)%nat → Forall chunk_ok msgs →
  log_write_many n L msgs = (replicate (length msgs) WriteResult.OK, L ++ msgs).
Proof.
  intros Hn HF. revert L. induction HF as [|m msgs Hm HF IH]; intros L.
  { unfold log_write_many. simpl. by rewrite app_nil_r. }
  rewrite log_write_many_cons. unfold log_write. unfold chunk_ok, sizeof_SlotData in Hm.
  rewrite (proj2 (Z.ltb_ge _ _)) by (unfold sizeof_SlotData; lia).
  rewrite (proj2 (Z.eqb_neq _ _)) by lia. cbn [fst snd].
  rewrite IH, chunks_small by done. simpl. by rewrite <- app_assoc.
Qed.

(** Reading inside the window that the buffer still retains. *)
Lemma read_many_window n L rb :
  repr n L rb → zlen L < 2 ^ 32 →
  ∀ k p rdr,
    reader_at n p rdr → (p + k ≤ length L)%nat → (length L ≤ p + n)%nat →
    ∃ rdr', read_many k rb rdr = Ok (map (pair ReadResult.OK) (take k (drop p L)), rdr') ∧
            reader_at n (p + k) rdr'.
Proof.
  intros HR HL. induction k as [|k IH]; intros p rdr HP Hk Hw.
  { exists rdr. rewrite Nat.add_0_r. done. }
  destruct (read_next_refines_log n L rb p rdr 0 HR HP) as (rdr1 & Hr & Ho & HP1); [lia|done|].
  destruct (lookup_lt_is_Some_2 L p) as [c Hc]; [lia|].
  unfold log_read in Ho, HP1. rewrite Hc, decide_True in Ho, HP1 by done.
  destruct (IH (S p) rdr1 HP1) as (rdr2 & Hr2 & HP2); [lia|lia|].
  exists rdr2. split; [|by replace (p + S k)%nat with (S p + k)%nat by lia].
  cbn [read_many]. rewrite Hr, bind_Ok, Hr2. cbn.
  by rewrite Ho, (drop_S L c p Hc).
Qed.

(** ** Builds with assertions *)
Lemma zlen_substr (msg : list byte) k len : zlen (substr msg k len) ≤ zlen msg.
Proof. unfold zlen, substr. rewrite length_take, length_drop. lia. Qed.

Lemma write_loop_checked_small msg :
  zlen msg < sizeof_SlotData →
  ∀ fuel k rb, write_loop fuel false msg k rb = write_loop fuel true msg k rb.
Proof.
  intros Hm. induction fuel as [|fuel IH]; intros k rb; [done|]. cbn [write_loop].
  destruct (k =? zlen msg); [done|].
  destruct (vector_at _ _) as [s|f]; [|done]. rewrite !bind_Ok.
  rewrite update_checked, (proj2 (Z.ltb_lt _ _)).
  - destruct (update _ _ _ _) as [s'|f]; [|done]. rewrite !bind_Ok. apply IH.
  - eapply Z.le_lt_trans; [apply zlen_substr|done].
Qed.

Lemma write_loop_checked_stop n L rb msg fuel :
  repr n L rb → sizeof_SlotData ≤ zlen msg < 2 ^ 64 →
  write_loop (S fuel) false msg 0 rb = Err assert_failed.
Proof.
  intros HR Hm. cbn [write_loop].
  rewrite (proj2 (Z.eqb_neq _ _)) by (unfold sizeof_SlotData in *; lia).
  destruct (repr_cursor_lookup _ _ _ HR) as [s Hs]. destruct (repr_cursor _ _ _ HR) as [Hcur _].
  rewrite (vector_at_Some _ _ s), bind_Ok by (by rewrite Hcur).
  pose proof (substr_chunk msg 0) as Hc. change (Z.of_nat 0) with 0 in Hc.
  rewrite (u64_small (zlen msg - 0)), Hc by (unfold zlen, sizeof_SlotData in *; lia).
  rewrite update_checked, drop_0, (proj2 (Z.ltb_ge _ _)); [done|].
  unfold zlen, sizeof_SlotData in *. rewrite length_take. lia.
Qed.

(** Writing only ever extends the log. *)
Lemma log_write_many_prefix n L msgs :
  ∃ K, (log_write_many n L msgs).2 = L ++ K.
Proof.
  revert L. induction msgs as [|m msgs IH]; intros L.
  { exists []. unfold log_write_many. simpl. by rewrite app_nil_r. }
  rewrite log_write_many_cons. cbn [snd].
  destruct (IH (log_write n L m).2) as [K ->].
  unfold log_write. destruct (_ <? _); [by exists K|]. destruct (_ =? _); [by exists K|].
  exists (chunks m ++ K). simpl. by rewrite app_assoc.
Qed.

(** The slot of the newest chunk carries its number. *)
Lemma holds_last_sn n L c s :
  (0 < n)%nat → holds n (L ++ [c]) (length L mod n) s → u32 (zlen L + 1) = 0 →
  sn (slot_header s) = 0.
Proof.
  intros Hn [_ ->|j d Hj Hm Hw -> _] H0; [done|]. cbn [sn].
  apply lookup_lt_Some in Hj. rewrite length_app in Hj, Hw. simpl in Hj, Hw.
  by rewrite (mod_window_inj n j (length L)) by lia.
Qed.

(** ** The reader's loop on a slot *)
Lemma read_next_one_iteration rb rdr s :
  slots rb !! Z.to_nat (rd_slot rdr) = Some s →
  zlen (slot_data s) = sizeof_SlotData →
  sn (slot_header s) = 0 ∨ 0 < sz (slot_header s) ≤ sizeof_SlotData →
  ∃ rdr', ∀ fuel, read_next (S fuel) rb rdr = Ok rdr'.
Proof.
  intros Hs Hd Hh. unfold read_next. cbn [read_loop].
  rewrite (vector_at_Some _ _ _ Hs). setoid_rewrite bind_Ok.
  destruct (Z.eqb_spec (sn (slot_header s)) 0) as [|Hne]; [eauto|].
  destruct Hh as [|Hsz]; [done|].
  destruct (negb _); [eauto|]. unfold ReadResult.append.
  rewrite (proj2 (Z.eqb_neq (sz _) 0)) by lia. cbn [negb].
  rewrite Hd, (proj2 (Z.leb_le (sz _) _)) by lia. setoid_rewrite bind_Ok.
  rewrite Z.eqb_refl. cbn [negb]. eauto.
Qed.

Lemma read_loop_zero_size fuel rb rdr s :
  slots rb !! Z.to_nat (rd_slot rdr) = Some s →
  zlen (slot_data s) = sizeof_SlotData →
  slot_header s = mkSlotHeader (expected_sn rdr) 0 → expected_sn rdr ≠ 0 →
  ∀ w res, read_loop fuel rb w res rdr = Err out_of_fuel.
Proof.
  intros Hs Hd Hh H0. induction fuel as [|fuel IH]; intros w res; [done|].
  cbn [read_loop]. rewrite (vector_at_Some _ _ _ Hs), bind_Ok, Hh. cbn [sn sz].
  rewrite (proj2 (Z.eqb_neq _ _) H0), Z.eqb_refl. cbn [negb].
  unfold ReadResult.append. cbn [negb Z.eqb].
  rewrite Hd, Z.leb_refl, bind_Ok. apply IH.
Qed.
