(* ===== verification/RingTheorems.v ===== *)
(** * Properties of the ring buffer, executed sequentially

    Each theorem is followed by a witness at a concrete buffer. *)
From S2P Require Import Prelude RingBuffer RingLog.
From Stdlib Require Import Init.Byte.

(** A buffer of two slots, just constructed. *)
Definition buffer2 : RingBuffer := mkRingBuffer 0 1 (replicate 2 Slot_new).
Definition reader0 : RingBufferReader := RingBufferReader_new ReadResult.OK.
Definition bytes (k : nat) : list byte := replicate k x41.

Lemma buffer2_repr : repr 2 [] buffer2.
Proof.
  destruct (new_repr true 2 ltac:(lia)) as (rb & [= <-] & H). exact H.
Qed.

(** In a build with assertions, a message of 56 bytes or more (that fits
    the buffer) stops the program in [Slot::update], whose assertion demands
    strictly less than a full slot; shorter messages behave as in a release
    build. *)
Theorem checked_build_stops_on_full_slot n L rb msg :
  repr n L rb →
  write false msg rb =
    if (sizeof_SlotData <=? zlen msg) && (zlen msg <=? Z.of_nat n * sizeof_SlotData)
    then Err assert_failed
    else write true msg rb.
Proof.
  intros HR. destruct (Z.leb_spec sizeof_SlotData (zlen msg)) as [Hbig|Hsmall].
  - unfold write. rewrite (write_branch n L) by done.
    rewrite Z.leb_antisym.
    destruct (Z.ltb_spec (Z.of_nat n * sizeof_SlotData) (zlen msg)) as [|Hle]; [done|]. cbn [negb andb].
    rewrite (proj2 (Z.eqb_neq _ _)) by (unfold sizeof_SlotData in *; lia).
    pose proof (repr_bound _ _ _ HR).
    rewrite (write_loop_checked_stop n L) by (done || unfold sizeof_SlotData in *; lia). done.
  - cbn [andb]. unfold write. f_equal. destruct (_ <? _); [done|]. destruct (_ =? _); [done|].
    by rewrite write_loop_checked_small by done.
Qed.

Lemma checked_build_stops_on_full_slot_witness :
  write false (bytes 56) buffer2 = Err assert_failed.
Proof. exact (checked_build_stops_on_full_slot 2 [] buffer2 (bytes 56) buffer2_repr). Defined.

(** Whether the assertion of [Slot::update] stops the program when [msg] is written into [n]
    slots: in a build with assertions, if the message is accepted and has a full chunk. *)
Definition trips_assertion (ndebug : bool) (n : nat) (msg : list byte) : bool :=
  negb ndebug && ((sizeof_SlotData <=? zlen msg) && (zlen msg <=? Z.of_nat n * sizeof_SlotData)).

(** C1. [write] implements the append to the abstract log: from any buffer
    that represents a log it terminates without leaving the slots' bounds,
    answers MSG_TOO_BIG, EMPTY_MSG or OK exactly as [log_write] does, and
    leaves a buffer that represents the extended log (and the very same buffer
    when the message is refused).  Only a build without NDEBUG that accepts a message
    of 56 bytes or more fails the assertion of [Slot::update] instead. *)
Theorem write_implements_append ndebug n L rb msg :
  repr n L rb →
  if trips_assertion ndebug n msg then write ndebug msg rb = Err assert_failed
  else ∃ rb', write ndebug msg rb = Ok ((log_write n L msg).1, rb') ∧
         repr n (log_write n L msg).2 rb' ∧
         ((log_write n L msg).1 ≠ WriteResult.OK → rb' = rb).
Proof.
  intros HR. unfold trips_assertion.
  destruct ndebug; [|rewrite (checked_build_stops_on_full_slot n L) by done; destruct (_ && _); [done|]];
    cbn [negb andb]; (destruct (write_refines_log n L rb msg HR) as (rb' & Hw & HR');
    exists rb'; split_and!; auto; intros Hne; revert Hw Hne;
    unfold write, log_write; rewrite (write_branch n L) by done;
    destruct (_ <? _); [by intros [= ->]|]; destruct (_ =? _); [by intros [= ->]|done]).
Qed.

Lemma write_implements_append_witness :
  (∃ rb', write true (bytes 60) buffer2 = Ok (WriteResult.OK, rb') ∧
          repr 2 [bytes 56; bytes 4] rb' ∧ (WriteResult.OK ≠ WriteResult.OK → rb' = buffer2)) ∧
  (∃ rb', write false (bytes 55) buffer2 = Ok (WriteResult.OK, rb') ∧
          repr 2 [bytes 55] rb' ∧ (WriteResult.OK ≠ WriteResult.OK → rb' = buffer2)) ∧
  write false (bytes 60) buffer2 = Err assert_failed.
Proof.
  split_and!.
  - exact (write_implements_append true 2 [] buffer2 (bytes 60) buffer2_repr).
  - exact (write_implements_append false 2 [] buffer2 (bytes 55) buffer2_repr).
  - exact (write_implements_append false 2 [] buffer2 (bytes 60) buffer2_repr).
Defined.

(** C2. [read_next] implements [log_read]: a reader at position [p] of the log
    gets the chunk at [p] with OK when the buffer retains it, LOSS when it was
    overwritten, and NO_DATA (on the first lap) or LOSS (afterwards) when
    nothing was written there yet; it moves on exactly when the answer is OK.
    One iteration of its loop is always enough. *)
Theorem read_next_implements_log n L rb p rdr fuel :
  repr n L rb → reader_at n p rdr →
  (p ≤ length L)%nat → zlen L < 2 ^ 32 →
  ∃ rdr', read_next (S fuel) rb rdr = Ok rdr' ∧
          outcome rdr' = (log_read n L p).1 ∧
          reader_at n (log_read n L p).2 rdr'.
Proof. apply read_next_refines_log. Qed.

Lemma read_next_implements_log_witness :
  ∃ rdr', read_next 1 buffer2 reader0 = Ok rdr' ∧
          outcome rdr' = (ReadResult.NO_DATA, []) ∧ reader_at 2 0 rdr'.
Proof.
  apply (read_next_implements_log 2 [] buffer2 0 reader0 0);
    [exact buffer2_repr | by apply new_reader_at | simpl; lia | reflexivity].
Defined.

(** The message passes the assertion of [Slot::update]. *)
Definition passes_assertion (ndebug : bool) (msg : list byte) : Prop :=
  ndebug = true ∨ zlen msg < sizeof_SlotData.

Lemma write_many_passes ndebug msgs : Forall (passes_assertion ndebug) msgs →
  ∀ rb, write_many ndebug msgs rb = write_many true msgs rb.
Proof.
  induction 1 as [|m msgs Hm _ IH]; intros rb; [done|]. cbn [write_many].
  assert (write ndebug m rb = write true m rb) as ->.
  { destruct Hm as [->|Hm]; [done|]. destruct ndebug; [done|]. unfold write.
    destruct (_ <? _); [done|]. destruct (_ =? _); [done|]. by rewrite write_loop_checked_small. }
  destruct (write true m rb) as [[r rb1]|]; [|done]. rewrite !bind_Ok. by rewrite IH.
Qed.

(** C3. Round trip: messages of 1 to 56 bytes, or 1 to 55 in a build with assertions, no
    more of them than there are slots, are all accepted by a fresh buffer, and a reader
    gets them back one by one, unchanged and in order. *)
Theorem write_read_roundtrip ndebug n rb msgs r0 :
  RingBuffer_new ndebug (Z.of_nat n) = Ok rb → Z.of_nat n ≤ 2 ^ 32 →
  Forall chunk_ok msgs → Forall (passes_assertion ndebug) msgs →
  (length msgs ≤ n)%nat → zlen msgs < 2 ^ 32 → (0 < n)%nat →
  ∃ rb' rdr',
    write_many ndebug msgs rb = Ok (replicate (length msgs) WriteResult.OK, rb') ∧
    read_many (length msgs) rb' (RingBufferReader_new r0)
      = Ok (map (pair ReadResult.OK) msgs, rdr').
Proof.
  intros Hnew Hb HF Hpass Hlen Hz Hn.
  destruct (new_repr ndebug (Z.of_nat n) ltac:(lia)) as (rb0 & Hnew' & HR).
  rewrite Hnew in Hnew'. injection Hnew' as <-. rewrite Nat2Z.id in HR.
  destruct (write_many_refines_log n msgs [] rb HR) as (rb' & Hw & HR').
  rewrite log_write_many_small in Hw, HR' by done.
  destruct (read_many_window n msgs rb' HR' Hz (length msgs) 0 (RingBufferReader_new r0)
    (new_reader_at n r0)) as (rdr' & Hr & _); [lia|lia|].
  exists rb', rdr'. split; [by rewrite write_many_passes|]. by rewrite drop_0, take_ge in Hr by done.
Qed.

Lemma write_read_roundtrip_witness :
  (∃ rb' rdr',
    write_many true [[x01; x02]; bytes 56] buffer2
      = Ok ([WriteResult.OK; WriteResult.OK], rb') ∧
    read_many 2 rb' reader0
      = Ok ([(ReadResult.OK, [x01; x02]); (ReadResult.OK, bytes 56)], rdr')) ∧
  ∃ rb' rdr',
    write_many false [[x01; x02]; bytes 55] buffer2
      = Ok ([WriteResult.OK; WriteResult.OK], rb') ∧
    read_many 2 rb' reader0
      = Ok ([(ReadResult.OK, [x01; x02]); (ReadResult.OK, bytes 55)], rdr').
Proof.
  split.
  - apply (write_read_roundtrip true 2 buffer2 [[x01; x02]; bytes 56] ReadResult.OK);
      [reflexivity | lia | by apply (bool_decide_eq_true_1 _) | repeat constructor | simpl; lia
      | reflexivity | lia].
  - apply (write_read_roundtrip false 2 buffer2 [[x01; x02]; bytes 55] ReadResult.OK);
      [reflexivity | lia | by apply (bool_decide_eq_true_1 _) | repeat constructor; by right
      | simpl; lia | reflexivity | lia].
Defined.

(** A message of more than 56 bytes never comes back as one read: the
    writer stores it as slots with a nonzero size each, the reader returns
    after each of them, so the first read answers OK with the first 56 bytes
    only; as many reads as there are chunks give the message piecewise. *)
Theorem long_message_is_split n L rb rdr msg :
  repr n L rb → reader_at n (length L) rdr →
  sizeof_SlotData < zlen msg ≤ Z.of_nat n * sizeof_SlotData →
  zlen (L ++ chunks msg) < 2 ^ 32 →
  ∃ rb' rdr1 rdr',
    write true msg rb = Ok (WriteResult.OK, rb') ∧
    read_next 1 rb' rdr = Ok rdr1 ∧
    outcome rdr1 = (ReadResult.OK, take (Z.to_nat sizeof_SlotData) msg) ∧
    (outcome rdr1).2 ≠ msg ∧
    read_many (length (chunks msg)) rb' rdr
      = Ok (map (pair ReadResult.OK) (chunks msg), rdr') ∧
    concat (chunks msg) = msg.
Proof.
  intros HR HP [Hlo Hhi] Hz.
  assert (Hne : msg ≠ []) by (intros ->; unfold zlen, sizeof_SlotData in Hlo; simpl in Hlo; lia).
  destruct (write_refines_log n L rb msg HR) as (rb' & Hw & HR').
  unfold log_write in Hw, HR'.
  rewrite (proj2 (Z.ltb_ge _ _) Hhi), (proj2 (Z.eqb_neq _ _)) in Hw, HR'
    by (unfold sizeof_SlotData in *; lia). cbn [fst snd] in Hw, HR'.
  pose proof (length_chunks_bound n msg Hhi) as Hcb.
  destruct (read_many_window n _ rb' HR' Hz (length (chunks msg)) (length L) rdr HP)
    as (rdr' & Hr & _); [rewrite length_app; lia|rewrite length_app; lia|].
  destruct (read_next_refines_log n _ rb' (length L) rdr 0 HR' HP) as (rdr1 & Hr1 & Ho & _);
    [rewrite length_app; lia|done|].
  unfold log_read in Ho.
  rewrite lookup_app_r, Nat.sub_diag, (chunks_unfold msg Hne) in Ho by done. cbn in Ho.
  rewrite decide_True in Ho.
  2:{ rewrite <- (chunks_unfold msg Hne), length_app. lia. }
  rewrite drop_app_length, take_ge in Hr by done.
  exists rb', rdr1, rdr'. split_and!; auto using concat_chunks.
  rewrite Ho. cbn. intros E%(f_equal length). rewrite length_take in E.
  unfold zlen, sizeof_SlotData in *. lia.
Qed.

Lemma long_message_is_split_witness :
  ∃ rb' rdr1 rdr',
    write true (bytes 100) buffer2 = Ok (WriteResult.OK, rb') ∧
    read_next 1 rb' reader0 = Ok rdr1 ∧
    outcome rdr1 = (ReadResult.OK, take (Z.to_nat sizeof_SlotData) (bytes 100)) ∧
    (outcome rdr1).2 ≠ bytes 100 ∧
    read_many 2 rb' reader0
      = Ok ([(ReadResult.OK, bytes 56); (ReadResult.OK, bytes 44)], rdr') ∧
    concat (chunks (bytes 100)) = bytes 100.
Proof.
  apply (long_message_is_split 2 [] buffer2 reader0 (bytes 100));
    [exact buffer2_repr | by apply new_reader_at | vm_compute; split; [done | discriminate]
    | reflexivity].
Defined.

(** A reader that has received everything gets NO_DATA only while it is on
    its first lap.  Once the log is at least as long as the ring it is told
    LOSS although nothing was lost: the chunk written next is delivered to it
    with OK. *)
Theorem caught_up_reader_reports_loss n L rb rdr c :
  repr n L rb → reader_at n (length L) rdr → zlen L + 1 < 2 ^ 32 → chunk_ok c →
  ∃ rdr1 rb' rdr2,
    read_next 1 rb rdr = Ok rdr1 ∧
    outcome rdr1 = (if decide (length L < n)%nat then ReadResult.NO_DATA
                    else ReadResult.LOSS, []) ∧
    write true c rb = Ok (WriteResult.OK, rb') ∧
    read_next 1 rb' rdr1 = Ok rdr2 ∧
    outcome rdr2 = (ReadResult.OK, c).
Proof.
  intros HR HP HL Hc. pose proof (repr_pos _ _ _ HR) as Hn.
  destruct (read_next_refines_log n L rb _ rdr 0 HR HP) as (rdr1 & Hr1 & Ho1 & HP1); [lia|lia|].
  destruct (write_many_refines_log n [c] L rb HR) as (rb' & Hw & HR').
  rewrite log_write_many_small in Hw, HR' by (auto using Forall_cons, Forall_nil).
  cbn [write_many length replicate fst snd] in Hw, HR'.
  assert (Hpos : (log_read n L (length L)).2 = length L ∧
    (log_read n L (length L)).1 =
      (if decide (length L < n)%nat then ReadResult.NO_DATA else ReadResult.LOSS, [])).
  { unfold log_read. rewrite lookup_ge_None_2 by lia. by destruct (decide _). }
  destruct Hpos as [Hpos Hout]. rewrite Hpos in HP1. rewrite Hout in Ho1.
  destruct (read_next_refines_log n _ rb' _ rdr1 0 HR' HP1) as (rdr2 & Hr2 & Ho2 & _);
    [rewrite length_app; lia|rewrite zlen_app; change (zlen [c]) with 1; lia|].
  unfold log_read in Ho2. rewrite lookup_app_r, Nat.sub_diag in Ho2 by done. cbn in Ho2.
  rewrite decide_True in Ho2 by (rewrite length_app; simpl; lia).
  exists rdr1, rb', rdr2. split_and!; auto.
  destruct (write true c rb) as [[w rb1]|]; [|done]. by injection Hw as -> ->.
Qed.

(** A two-slot ring into which two chunks were written and read. *)
Definition ring_lap : result (RingBuffer * RingBufferReader) :=
  '(_, rb) ← write_many true [[x01]; [x02]] buffer2;
  '(_, rdr) ← read_many 2 rb reader0;
  Ok (rb, rdr).

Lemma ring_lap_ok :
  match ring_lap with
  | Ok (rb, rdr) => repr 2 [[x01]; [x02]] rb ∧ reader_at 2 2 rdr
  | Err _ => False
  end.
Proof.
  destruct (write_many_refines_log 2 [[x01]; [x02]] [] buffer2 buffer2_repr) as (rb & Hw & HR).
  vm_compute in Hw. injection Hw as <-. split; [exact HR|by split].
Qed.

Lemma caught_up_reader_reports_loss_witness :
  match ring_lap with
  | Ok (rb, rdr) =>
      ∃ rdr1 rb' rdr2,
        read_next 1 rb rdr = Ok rdr1 ∧ outcome rdr1 = (ReadResult.LOSS, []) ∧
        write true [x03] rb = Ok (WriteResult.OK, rb') ∧
        read_next 1 rb' rdr1 = Ok rdr2 ∧ outcome rdr2 = (ReadResult.OK, [x03])
  | Err _ => False
  end.
Proof.
  destruct ring_lap_ok as [HR HP].
  apply (caught_up_reader_reports_loss 2 [[x01]; [x02]] _ _ [x03] HR HP);
    [reflexivity | by apply (bool_decide_eq_true_1 _)].
Defined.

(** A reader that was overtaken never recovers: whatever is written
    afterwards (as long as the sequence numbers do not wrap around), each
    [read_next] answers LOSS and leaves the reader at the lost position. *)
Theorem overtaken_reader_is_stuck n L rb p rdr msgs :
  repr n L rb → reader_at n p rdr → (p + n < length L)%nat →
  zlen (log_write_many n L msgs).2 < 2 ^ 32 →
  ∃ rb' rdr',
    write_many true msgs rb = Ok ((log_write_many n L msgs).1, rb') ∧
    read_next 1 rb' rdr = Ok rdr' ∧
    outcome rdr' = (ReadResult.LOSS, []) ∧ reader_at n p rdr'.
Proof.
  intros HR HP Hlost Hz.
  destruct (write_many_refines_log n msgs L rb HR) as (rb' & Hw & HR').
  destruct (log_write_many_prefix n L msgs) as [K HK].
  assert (Hlen : (length L ≤ length (log_write_many n L msgs).2)%nat)
    by (rewrite HK, length_app; lia).
  destruct (read_next_refines_log n _ rb' p rdr 0 HR' HP) as (rdr' & Hr & Ho & HP'); [lia|done|].
  exists rb', rdr'. split_and!; auto; revert Ho HP'; unfold log_read;
    (destruct (lookup_lt_is_Some_2 (log_write_many n L msgs).2 p) as [c ->]; [lia|]);
    by rewrite decide_False by lia.
Qed.

(** Three chunks in a ring of two slots; the reader has read nothing. *)
Definition ring_over : result RingBuffer :=
  '(_, rb) ← write_many true [[x01]; [x02]; [x03]] buffer2; Ok rb.

Lemma ring_over_ok :
  match ring_over with Ok rb => repr 2 [[x01]; [x02]; [x03]] rb | Err _ => False end.
Proof.
  destruct (write_many_refines_log 2 [[x01]; [x02]; [x03]] [] buffer2 buffer2_repr)
    as (rb & Hw & HR).
  vm_compute in Hw. injection Hw as <-. exact HR.
Qed.

Lemma overtaken_reader_is_stuck_witness :
  match ring_over with
  | Ok rb => ∃ rb' rdr',
      write_many true [[x04]; []] rb = Ok ([WriteResult.OK; WriteResult.EMPTY_MSG], rb') ∧
      read_next 1 rb' reader0 = Ok rdr' ∧
      outcome rdr' = (ReadResult.LOSS, []) ∧ reader_at 2 0 rdr'
  | Err _ => False
  end.
Proof.
  pose proof ring_over_ok as HR.
  apply (overtaken_reader_is_stuck 2 [[x01]; [x02]; [x03]] _ 0 reader0 [[x04]; []] HR);
    [by apply new_reader_at | simpl; lia | reflexivity].
Defined.

(** The chunk whose 32-bit sequence number comes out as 0 cannot be read:
    0 is also the number of an unwritten slot, so a reader that has followed
    the writer up to there is told NO_DATA and stays behind. *)
Theorem wrapped_sequence_number_hides_chunk n L rb rdr c :
  repr n L rb → reader_at n (length L) rdr → u32 (zlen L + 1) = 0 → chunk_ok c →
  ∃ rb' rdr',
    write true c rb = Ok (WriteResult.OK, rb') ∧
    repr n (L ++ [c]) rb' ∧
    read_next 1 rb' rdr = Ok rdr' ∧
    outcome rdr' = (ReadResult.NO_DATA, []) ∧ reader_at n (length L) rdr'.
Proof.
  intros HR HP H0 Hc. pose proof (repr_pos _ _ _ HR) as Hn.
  destruct (write_many_refines_log n [c] L rb HR) as (rb' & Hw & HR').
  rewrite log_write_many_small in Hw, HR' by (auto using Forall_cons, Forall_nil).
  cbn [write_many length replicate fst snd] in Hw, HR'.
  destruct (reader_cursor _ _ _ _ _ HR' HP) as (_ & s & Hs & _ & Hh).
  exists rb'. eexists. split_and!; [|done|..].
  - destruct (write true c rb) as [[w rb1]|]; [|done]. by injection Hw as -> ->.
  - eapply read_next_header; eauto. by apply (holds_last_sn n L c).
  - done.
  - destruct HP. by split.
Qed.

Lemma wrapped_sequence_number_hides_chunk_witness :
  let L := replicate (Z.to_nat (2 ^ 32 - 1)) [x41] in
  ∃ rb rb' rdr rdr',
    write true [x42] rb = Ok (WriteResult.OK, rb') ∧ repr 2 (L ++ [[x42]]) rb' ∧
    read_next 1 rb' rdr = Ok rdr' ∧
    outcome rdr' = (ReadResult.NO_DATA, []) ∧ reader_at 2 (length L) rdr'.
Proof.
  intros L. destruct (write_many_refines_log 2 L [] buffer2 buffer2_repr) as (rb & _ & HR).
  rewrite log_write_many_small in HR
    by (lia || by apply Forall_replicate, (bool_decide_eq_true_1 _)).
  set (rdr := mkReader (u32 (zlen L + 1)) (zlen L mod 2) (ReadResult.mk ReadResult.OK [])).
  assert (HP : reader_at 2 (length L) rdr) by by split.
  assert (H0 : u32 (zlen L + 1) = 0).
  { unfold zlen, L. rewrite length_replicate, Z2Nat.id by lia. reflexivity. }
  destruct (wrapped_sequence_number_hides_chunk 2 L rb rdr [x42] HR HP H0) as (rb' & rdr' & H);
    [by apply (bool_decide_eq_true_1 _)|].
  exists rb, rb', rdr, rdr'. exact H.
Defined.

(** In every buffer a writer can produce, [read_next] finishes in the first
    iteration of its loop, whatever the position of the reader and however
    often the sequence numbers have wrapped around. *)
Theorem read_next_terminates n L rb p rdr :
  repr n L rb → reader_at n p rdr →
  ∃ rdr', ∀ fuel, read_next (S fuel) rb rdr = Ok rdr'.
Proof.
  intros HR HP. destruct (reader_cursor _ _ _ _ _ HR HP) as (Hcur & s & Hs & Hdat & Hh).
  apply (read_next_one_iteration rb rdr s); [by rewrite Hcur|done|].
  destruct Hh as [_ Hh|j c Hj _ _ Hh _]; rewrite Hh; cbn [sn sz]; [auto|right].
  exact (repr_chunk_ok _ _ _ _ _ HR Hj).
Qed.

Lemma read_next_terminates_witness :
  ∃ rdr', ∀ fuel, read_next (S fuel) buffer2 reader0 = Ok rdr'.
Proof.
  exact (read_next_terminates 2 [] buffer2 0 reader0 buffer2_repr (new_reader_at 2 _)).
Defined.

(** The continuation mark that [read_next] has code for, a matching slot
    of size 0, would make it loop for ever: it looks at the same slot again
    instead of the next one.  (No writer produces such a slot, see [read_next_terminates].) *)
Theorem continuation_slot_diverges rb rdr s fuel :
  slots rb !! Z.to_nat (rd_slot rdr) = Some s →
  zlen (slot_data s) = sizeof_SlotData →
  slot_header s = mkSlotHeader (expected_sn rdr) 0 → expected_sn rdr ≠ 0 →
  read_next fuel rb rdr = Err out_of_fuel.
Proof. intros Hs Hd Hh H0. by apply (read_loop_zero_size fuel rb rdr s). Qed.

Lemma continuation_slot_diverges_witness :
  read_next 1000 (mkRingBuffer 0 1 [mkSlot (mkSlotHeader 1 0) (bytes 56)]) reader0
    = Err out_of_fuel.
Proof.
  apply (continuation_slot_diverges _ reader0 (mkSlot (mkSlotHeader 1 0) (bytes 56)));
    done.
Defined.
