(* ===== verification/RingConcurrent.v ===== *)
(** * src/lib/ring_buffer/ring_buffer.h, a writer and a reader interleaved

    [RingBuffer::write] and [RingBufferReader::read_next] are split at their
    accesses to shared memory: the two header stores of [Slot::update] and the
    single-byte assignments of its memcpy, the two header loads of [read_next]
    and the single-byte reads of [ReadResult::append].  The steps of the two
    threads interleave arbitrarily, until the assertion of [update] fails, if it is checked
    ([ndebug]): that aborts the program (sequential consistency: the header is a
    [std::atomic] with the default ordering; the payload accesses are taken
    byte by byte, in any order and any number of times).  [c_log] and
    [c_delivered] are ghost state. *)
From Stdlib Require Import Init.Byte.
From S2P Require Import Prelude RingBuffer RingLog RingTheorems.

(** ** Threads *)

(** Where the writer is: outside [write], at the head of its loop, in the
    memcpy of [update] with payload [d], or in [abort] after the assertion of [update]
    has failed, which ends the program. *)
Inductive writer_pc :=
  | WIdle
  | WLoop (sview : list byte) (current_byte : Z)
  | WCopy (sview : list byte) (current_byte : Z) (d : list byte)
  | WAborted.

(** Where the reader is: outside [read_next], before the first header load of
    an iteration, or in the append that follows it, with the header [h] it
    loaded and the bytes copied so far. *)
Inductive reader_pc :=
  | RIdle
  | RLoad (w : Z * Z) (res : ReadResult.t)
  | RCopy (w : Z * Z) (res : ReadResult.t) (h : SlotHeader) (buf : list (option byte)).

Record conc := mkConc {
  c_buf : RingBuffer;
  c_wpc : writer_pc;
  c_rdr : RingBufferReader;
  c_rpc : reader_pc;
  c_log : list (list byte);
  c_delivered : list (list byte)
}.

Definition append_count (n : Z) : Z := if negb (n =? 0) then n else sizeof_SlotData.

(** *** Writer steps

    What the loop passes to [update] is [next_chunk]. *)
Definition next_chunk (msg : list byte) (k : Z) : list byte :=
  substr msg k (Z.min sizeof_SlotData (size_t (zlen msg - k))).

Inductive writer_step (ndebug : bool) : conc → conc → Prop :=
  | w_call rb r rp L D msg :
      zlen msg ≤ size_t (zlen (slots rb) * sizeof_SlotData) → zlen msg ≠ 0 →
      writer_step ndebug (mkConc rb WIdle r rp L D) (mkConc rb (WLoop msg 0) r rp L D)
  | w_begin rb r rp L D msg k s :
      k ≠ zlen msg → slots rb !! Z.to_nat (current_slot rb) = Some s →
      cassert ndebug (zlen (next_chunk msg k) <? sizeof_SlotData) = Ok tt →
      writer_step ndebug (mkConc rb (WLoop msg k) r rp L D)
        (mkConc (set_slot (current_slot rb) (store_header (mkSlotHeader 0 0) s) rb)
           (WCopy msg k (next_chunk msg k)) r rp L D)
  | w_abort rb r rp L D msg k s :
      k ≠ zlen msg → slots rb !! Z.to_nat (current_slot rb) = Some s →
      cassert ndebug (zlen (next_chunk msg k) <? sizeof_SlotData) = Err assert_failed →
      writer_step ndebug (mkConc rb (WLoop msg k) r rp L D) (mkConc rb WAborted r rp L D)
  | w_copy rb r rp L D msg k d s i b :
      slots rb !! Z.to_nat (current_slot rb) = Some s →
      d !! i = Some b →
      writer_step ndebug (mkConc rb (WCopy msg k d) r rp L D)
        (mkConc (set_slot (current_slot rb)
                   (mkSlot (slot_header s) (<[i := b]> (slot_data s))) rb)
           (WCopy msg k d) r rp L D)
  | w_commit rb r rp L D msg k d s :
      slots rb !! Z.to_nat (current_slot rb) = Some s →
      take (length d) (slot_data s) = d →
      writer_step ndebug (mkConc rb (WCopy msg k d) r rp L D)
        (mkConc (move_next (set_slot (current_slot rb)
                   (store_header (mkSlotHeader (current_sn rb) (u32 (zlen d))) s) rb))
           (WLoop msg (size_t (k + zlen d))) r rp (L ++ [d]) D)
  | w_return rb r rp L D msg k :
      k = zlen msg →
      writer_step ndebug (mkConc rb (WLoop msg k) r rp L D) (mkConc rb WIdle r rp L D).

(** *** Reader steps *)
Inductive reader_step : conc → conc → Prop :=
  | r_call rb wp r L D :
      reader_step (mkConc rb wp r RIdle L D)
        (mkConc rb wp r
           (RLoad (expected_sn r, rd_slot r) (ReadResult.clear (rd_result r))) L D)
  | r_no_data rb wp r w res L D s :
      slots rb !! Z.to_nat (rd_slot r) = Some s →
      sn (slot_header s) = 0 →
      reader_step (mkConc rb wp r (RLoad w res) L D)
        (mkConc rb wp (finish ReadResult.NO_DATA res r) RIdle L D)
  | r_mismatch rb wp r w res L D s :
      slots rb !! Z.to_nat (rd_slot r) = Some s →
      sn (slot_header s) ≠ 0 → sn (slot_header s) ≠ expected_sn r →
      reader_step (mkConc rb wp r (RLoad w res) L D)
        (mkConc rb wp (finish ReadResult.LOSS res r) RIdle L D)
  | r_match rb wp r w res L D s :
      slots rb !! Z.to_nat (rd_slot r) = Some s →
      sn (slot_header s) ≠ 0 → sn (slot_header s) = expected_sn r →
      reader_step (mkConc rb wp r (RLoad w res) L D)
        (mkConc rb wp r
           (RCopy w res (slot_header s)
              (replicate (Z.to_nat (append_count (sz (slot_header s)))) None)) L D)
  | r_copy rb wp r w res h buf L D s i b :
      slots rb !! Z.to_nat (rd_slot r) = Some s →
      (i < length buf)%nat → slot_data s !! i = Some b →
      reader_step (mkConc rb wp r (RCopy w res h buf) L D)
        (mkConc rb wp r (RCopy w res h (<[i := Some b]> buf)) L D)
  | r_torn rb wp r w res h bs L D s :
      slots rb !! Z.to_nat (rd_slot r) = Some s →
      sn h ≠ sn (slot_header s) →
      reader_step (mkConc rb wp r (RCopy w res h (map Some bs)) L D)
        (mkConc rb wp
           (finish ReadResult.LOSS
              (ReadResult.mk (ReadResult.result res) (ReadResult.data res ++ bs)) r) RIdle L D)
  | r_deliver rb wp r w res h bs L D s :
      slots rb !! Z.to_nat (rd_slot r) = Some s →
      sn h = sn (slot_header s) → sz (slot_header s) ≠ 0 →
      reader_step (mkConc rb wp r (RCopy w res h (map Some bs)) L D)
        (mkConc rb wp
           (mkReader (reader_move_next rb w).1 (reader_move_next rb w).2
              (ReadResult.mk ReadResult.OK (ReadResult.data res ++ bs))) RIdle
           L (D ++ [ReadResult.data res ++ bs]))
  | r_again rb wp r w res h bs L D s :
      slots rb !! Z.to_nat (rd_slot r) = Some s →
      sn h = sn (slot_header s) → sz (slot_header s) = 0 →
      reader_step (mkConc rb wp r (RCopy w res h (map Some bs)) L D)
        (mkConc rb wp r
           (RLoad (reader_move_next rb w)
              (ReadResult.mk (ReadResult.result res) (ReadResult.data res ++ bs))) L D).

(** Once the program has been aborted no thread takes a step. *)
Definition conc_step (ndebug : bool) (x y : conc) : Prop :=
  writer_step ndebug x y ∨ c_wpc x ≠ WAborted ∧ reader_step x y.

Definition conc_init (rb : RingBuffer) (r0 : ReadResult.Result) : conc :=
  mkConc rb WIdle (RingBufferReader_new r0) RIdle [] [].

(** ** Invariant *)

(** The writer's side: between updates the buffer represents the log; inside
    an update it does so up to the slot under the cursor, whose header is 0. *)
Definition writer_inv (n : nat) (x : conc) : Prop :=
  match c_wpc x with
  | WIdle | WAborted => repr n (c_log x) (c_buf x)
  | WLoop msg k =>
      repr n (c_log x) (c_buf x) ∧ zlen msg < 2 ^ 64 ∧ 0 ≤ k ≤ zlen msg
  | WCopy msg k d =>
      zlen msg < 2 ^ 64 ∧ 0 ≤ k ∧ k + zlen d ≤ zlen msg ∧ chunk_ok d ∧
      ∃ rb0 s, repr n (c_log x) rb0 ∧ c_buf x = set_slot (current_slot rb0) s rb0 ∧
        slot_header s = mkSlotHeader 0 0 ∧ zlen (slot_data s) = sizeof_SlotData
  end.

(** The slot under the reader's cursor still carries the number [h]. *)
Definition unchanged (n : nat) (rb : RingBuffer) (p : nat) (h : SlotHeader) : Prop :=
  ∃ s, slots rb !! (p mod n)%nat = Some s ∧ sn (slot_header s) = sn h.

(** The reader's side: what was delivered is an initial part of the log; while
    a chunk is being copied, every byte copied so far is right as long as the
    slot's number has not changed. *)
Definition copy_inv (n : nat) (x : conc) (h : SlotHeader) (buf : list (option byte)) : Prop :=
  let p := length (c_delivered x) in
  ∃ c, c_log x !! p = Some c ∧ h = mkSlotHeader (u32 (Z.of_nat p + 1)) (zlen c) ∧
    sn h ≠ 0 ∧ length buf = length c ∧
    (unchanged n (c_buf x) p h → ∀ i b, buf !! i = Some (Some b) → c !! i = Some b).

Definition reader_inv (n : nat) (x : conc) : Prop :=
  reader_at n (length (c_delivered x)) (c_rdr x) ∧
  c_delivered x `prefix_of` c_log x ∧
  match c_rpc x with
  | RIdle => True
  | RLoad w res => w = (expected_sn (c_rdr x), rd_slot (c_rdr x)) ∧ ReadResult.data res = []
  | RCopy w res h buf =>
      w = (expected_sn (c_rdr x), rd_slot (c_rdr x)) ∧ ReadResult.data res = [] ∧
      copy_inv n x h buf
  end.

(** ** The writer preserves it *)
Lemma set_slot_lookup n L rb s i t :
  repr n L rb →
  slots (set_slot (current_slot rb) s rb) !! i = Some t →
  (i = length L mod n ∧ t = s)%nat ∨ (i ≠ length L mod n ∧ slots rb !! i = Some t)%nat.
Proof.
  intros HR. destruct (repr_cursor _ _ _ HR) as [Hcur Hlt].
  unfold set_slot. cbn [slots]. rewrite Hcur.
  destruct (decide (i = length L mod n)%nat) as [->|Hne].
  - rewrite list_lookup_insert_eq by (by rewrite (repr_size _ _ _ HR)).
    intros [= ->]. auto.
  - rewrite list_lookup_insert_ne by done. auto.
Qed.

Lemma set_slot_set_slot rb s t :
  set_slot (current_slot rb) t (set_slot (current_slot rb) s rb)
    = set_slot (current_slot rb) t rb.
Proof. unfold set_slot. cbn. by rewrite list_insert_insert_eq. Qed.

Lemma set_slot_cursor_lookup n L rb s :
  repr n L rb →
  slots (set_slot (current_slot rb) s rb) !! Z.to_nat (current_slot rb) = Some s.
Proof.
  intros HR. destruct (repr_cursor _ _ _ HR) as [Hcur Hlt]. unfold set_slot. cbn [slots].
  rewrite list_lookup_insert_eq; [done|]. by rewrite Hcur, (repr_size _ _ _ HR).
Qed.

Lemma zlen_substr_exact (msg : list byte) k len :
  0 ≤ k → 0 ≤ len → k + len ≤ zlen msg → zlen (substr msg k len) = len.
Proof. unfold zlen, substr. rewrite length_take, length_drop. lia. Qed.

Lemma writer_step_inv ndebug n x y :
  writer_step ndebug x y → writer_inv n x → writer_inv n y.
Proof.
  unfold writer_inv.
  intros [rb r rp L D msg Hm H0|rb r rp L D msg k s Hk Hs Ha|rb r rp L D msg k s Hk Hs Ha
         |rb r rp L D msg k d s i b Hs Hb|rb r rp L D msg k d s Hs Hd|rb r rp L D msg k ->];
    cbn [c_wpc c_log c_buf].
  - intros HR. split_and!; [done| |done|auto with keryx].
    pose proof (u64_bound (zlen (slots rb) * sizeof_SlotData)). lia.
  - intros (HR & Hm & Hk0). unfold next_chunk.
    rewrite (u64_small (zlen msg - k)) by lia.
    assert (Hz : zlen (substr msg k (Z.min sizeof_SlotData (zlen msg - k)))
                 = Z.min sizeof_SlotData (zlen msg - k))
      by (apply zlen_substr_exact; unfold sizeof_SlotData; lia).
    unfold chunk_ok. rewrite Hz. unfold sizeof_SlotData in *.
    split_and!; try lia. exists rb, (store_header (mkSlotHeader 0 0) s).
    split_and!; auto. exact (repr_slot_data _ _ _ _ _ HR Hs).
  - tauto.
  - intros (Hm & Hk & Hkd & Hc & rb0 & s0 & HR & -> & Hh & Hdat).
    change (current_slot (set_slot (current_slot rb0) s0 rb0)) with (current_slot rb0) in *.
    rewrite (set_slot_cursor_lookup _ _ _ _ HR) in Hs. injection Hs as <-.
    split_and!; auto. exists rb0, (mkSlot (slot_header s0) (<[i:=b]> (slot_data s0))).
    split_and!; auto using set_slot_set_slot.
    unfold zlen in *. cbn [slot_data]. by rewrite length_insert.
  - intros (Hm & Hk & Hkd & Hc & rb0 & s0 & HR & -> & Hh & Hdat).
    change (current_slot (set_slot (current_slot rb0) s0 rb0)) with (current_slot rb0) in *.
    change (current_sn (set_slot (current_slot rb0) s0 rb0)) with (current_sn rb0) in *.
    rewrite (set_slot_cursor_lookup _ _ _ _ HR) in Hs. injection Hs as <-.
    rewrite set_slot_set_slot. unfold chunk_ok, sizeof_SlotData in Hc.
    rewrite (u64_small (k + zlen d)) by lia. split_and!; try lia.
    apply repr_step; auto. cbn. by rewrite u32_small by lia.
  - tauto.
Qed.

(** ** What the reader may rely on *)

Lemma writer_inv_size n x :
  writer_inv n x →
  length (slots (c_buf x)) = n ∧ (0 < n)%nat ∧ Z.of_nat n ≤ 2 ^ 32.
Proof.
  unfold writer_inv. destruct (c_wpc x) as [|msg k|msg k d|].
  - intros HR. split_and!; apply HR.
  - intros [HR _]. split_and!; apply HR.
  - intros (_ & _ & _ & _ & rb0 & s & HR & -> & _). cbn.
    rewrite length_insert. split_and!; apply HR.
  - intros HR. split_and!; apply HR.
Qed.

(** At any moment a slot is either being rewritten (its header is 0) or holds
    the newest chunk of its residue. *)
Lemma slot_view n x i s :
  writer_inv n x → slots (c_buf x) !! i = Some s →
  slot_header s = mkSlotHeader 0 0 ∨ holds n (c_log x) i s.
Proof.
  unfold writer_inv. destruct (c_wpc x) as [|msg k|msg k d|].
  - intros HR Hs. right. by eapply repr_slots.
  - intros [HR _] Hs. right. by eapply repr_slots.
  - intros (_ & _ & _ & _ & rb0 & t & HR & -> & Hh & _) Hs.
    apply (set_slot_lookup n _ _ _ _ _ HR) in Hs as [[_ ->]|[_ Hs]]; [by left|right].
    by eapply repr_slots.
  - intros HR Hs. right. by eapply repr_slots.
Qed.

Lemma writer_inv_chunk n x j c :
  writer_inv n x → c_log x !! j = Some c → chunk_ok c.
Proof.
  unfold writer_inv. destruct (c_wpc x).
  - apply repr_chunk_ok.
  - intros [HR _]. by apply (repr_chunk_ok _ _ _ _ _ HR).
  - intros (_ & _ & _ & _ & ? & ? & HR & _). by apply (repr_chunk_ok _ _ _ _ _ HR).
  - apply repr_chunk_ok.
Qed.

(** A number that matches the reader's identifies the chunk. *)
Lemma slot_view_match n x p s :
  writer_inv n x → zlen (c_log x) < 2 ^ 32 → (p ≤ length (c_log x))%nat →
  slots (c_buf x) !! (p mod n)%nat = Some s →
  sn (slot_header s) ≠ 0 → sn (slot_header s) = u32 (Z.of_nat p + 1) →
  ∃ c, c_log x !! p = Some c ∧ chunk_ok c ∧
    slot_header s = mkSlotHeader (u32 (Z.of_nat p + 1)) (zlen c) ∧
    take (length c) (slot_data s) = c.
Proof.
  intros HW HL Hp Hs H0 Hsn.
  destruct (slot_view n x _ s HW Hs) as [E|[_ E|j c Hj Hm _ Hh Hd]];
    [by rewrite E in H0|by rewrite E in H0|].
  assert (Hjl : (j < length (c_log x))%nat) by (by eapply lookup_lt_Some).
  rewrite Hh in Hsn. cbn [sn] in Hsn. rewrite sn_of_index in Hsn by zlia.
  assert (Hjp : j = p).
  { destruct (decide (j = p)) as [|Hne]; [done|]. exfalso.
    apply (u32_index_ne j p Hne); zlia. }
  subst j. exists c. split_and!; auto. by eapply writer_inv_chunk.
Qed.

(** A writer step never makes a changed slot look unchanged. *)
Lemma unchanged_back ndebug n x y p h :
  writer_step ndebug x y → writer_inv n x → zlen (c_log y) < 2 ^ 32 →
  (p < length (c_log x))%nat → sn h = u32 (Z.of_nat p + 1) → sn h ≠ 0 →
  unchanged n (c_buf y) p h → unchanged n (c_buf x) p h.
Proof.
  intros Hstep HW HL Hp Hh H0. revert Hstep HW HL Hp. unfold writer_inv.
  intros [rb r rp L D msg Hm ?|rb r rp L D msg k s Hk Hs Ha|rb r rp L D msg k s Hk Hs Ha
         |rb r rp L D msg k d s i b Hs Hb|rb r rp L D msg k d s Hs Hd|rb r rp L D msg k ->];
    cbn [c_wpc c_log c_buf]; auto.
  - intros (HR & _) _ _ (t & Ht & Hsn).
    apply (set_slot_lookup n _ _ _ _ _ HR) in Ht as [[_ ->]|[_ Ht]]; [|by exists t].
    by rewrite <- Hsn in H0.
  - intros (_ & _ & _ & _ & rb0 & s0 & HR & -> & E & _) _ _ (t & Ht & Hsn).
    change (current_slot (set_slot (current_slot rb0) s0 rb0)) with (current_slot rb0) in *.
    rewrite (set_slot_cursor_lookup _ _ _ _ HR) in Hs. injection Hs as <-.
    rewrite set_slot_set_slot in Ht.
    apply (set_slot_lookup n _ _ _ _ _ HR) in Ht as [[_ ->]|[Hne Ht]].
    + cbn in Hsn. rewrite E in Hsn. by rewrite <- Hsn in H0.
    + exists t. split; [|done]. destruct (repr_cursor _ _ _ HR) as [Hcur _].
      unfold set_slot. cbn [slots]. rewrite Hcur. by rewrite list_lookup_insert_ne.
  - intros (_ & _ & _ & _ & rb0 & s0 & HR & -> & E & _) HL Hp (t & Ht & Hsn).
    change (current_slot (set_slot (current_slot rb0) s0 rb0)) with (current_slot rb0) in *.
    change (current_sn (set_slot (current_slot rb0) s0 rb0)) with (current_sn rb0) in *.
    rewrite (set_slot_cursor_lookup _ _ _ _ HR) in Hs. injection Hs as <-.
    rewrite set_slot_set_slot in Ht.
    apply (set_slot_lookup n _ _ _ _ _ HR) in Ht as [[_ ->]|[Hne Ht]].
    + exfalso. cbn in Hsn. rewrite (repr_sn _ _ _ HR), Hh in Hsn.
      autorewrite with keryx_rw in HL. change (zlen [d]) with 1 in HL.
      rewrite !u32_small in Hsn by zlia. zlia.
    + exists t. split; [|done]. destruct (repr_cursor _ _ _ HR) as [Hcur _].
      unfold set_slot. cbn [slots]. rewrite Hcur. by rewrite list_lookup_insert_ne.
Qed.

(** ** Preservation of the reader's side *)
Lemma writer_step_frame ndebug x y :
  writer_step ndebug x y →
  c_rdr y = c_rdr x ∧ c_rpc y = c_rpc x ∧ c_delivered y = c_delivered x ∧
  c_log x `prefix_of` c_log y.
Proof. intros []; cbn; split_and!; auto; by eexists. Qed.

Lemma writer_step_reader_inv ndebug n x y :
  writer_step ndebug x y → writer_inv n x → zlen (c_log y) < 2 ^ 32 →
  reader_inv n x → reader_inv n y.
Proof.
  intros Hstep HW HL (HP & Hpre & Hpc).
  destruct (writer_step_frame _ _ _ Hstep) as (Er & Ep & Ed & Hext).
  unfold reader_inv. rewrite Er, Ep, Ed. split; [done|]. split; [by etrans|].
  destruct (c_rpc x) as [|w res|w res h buf]; [done|done|].
  destruct Hpc as (Hw & Hres & c & Hc & Hh & H0 & Hlen & Hcopy). split_and!; auto.
  exists c. rewrite Ed. split_and!; auto.
  - by eapply prefix_lookup_Some.
  - intros Hun. apply Hcopy. eapply unchanged_back; eauto.
    + by eapply lookup_lt_Some.
    + by rewrite Hh.
Qed.

(** All bytes copied and the slot unchanged: the copy is the chunk. *)
Lemma copy_complete n x h bs :
  copy_inv n x h (map Some bs) → unchanged n (c_buf x) (length (c_delivered x)) h →
  c_log x !! length (c_delivered x) = Some bs.
Proof.
  intros (c & Hc & _ & _ & Hlen & Hcopy) Hun. rewrite Hc. f_equal.
  rewrite length_map in Hlen. specialize (Hcopy Hun).
  apply list_eq. intros i. destruct (bs !! i) as [b|] eqn:Hb.
  - apply Hcopy. by rewrite list_lookup_fmap, Hb.
  - apply lookup_ge_None in Hb. apply lookup_ge_None. lia.
Qed.

Lemma copy_inv_step n x h buf s i b :
  writer_inv n x → zlen (c_log x) < 2 ^ 32 →
  slots (c_buf x) !! (length (c_delivered x) mod n)%nat = Some s →
  slot_data s !! i = Some b → (i < length buf)%nat →
  copy_inv n x h buf → copy_inv n x h (<[i := Some b]> buf).
Proof.
  intros HW HL Hs Hb Hi (c & Hc & Hh & H0 & Hlen & Hcopy).
  exists c. rewrite length_insert. split_and!; auto.
  intros Hun k b' Hk. destruct (decide (i = k)) as [<-|Hne].
  - rewrite list_lookup_insert_eq in Hk by done. injection Hk as <-.
    destruct Hun as (s' & Hs' & Hsn). rewrite Hs in Hs'. injection Hs' as <-.
    destruct (slot_view_match n x (length (c_delivered x)) s HW HL) as (c' & Hc' & _ & _ & Hd);
      rewrite ?Hsn; auto.
    + apply lookup_lt_Some in Hc. lia.
    + by rewrite Hh.
    + rewrite Hc in Hc'. injection Hc' as <-. rewrite <- Hd, lookup_take. by rewrite decide_True by lia.
  - rewrite list_lookup_insert_ne in Hk by done. eauto.
Qed.

Lemma reader_step_inv n x y :
  reader_step x y → writer_inv n x → zlen (c_log x) < 2 ^ 32 →
  reader_inv n x → reader_inv n y.
Proof.
  intros Hstep HW HL (HP & Hpre & Hpc).
  destruct (writer_inv_size n x HW) as (Hsz & Hn & Hb).
  pose proof (prefix_length _ _ Hpre) as Hple.
  assert (Hcur : Z.to_nat (rd_slot (c_rdr x)) = (length (c_delivered x) mod n)%nat)
    by (rewrite (reader_slot _ _ _ HP), <- Nat2Z.inj_mod; lia).
  assert (Hfin : ∀ z res, reader_at n (length (c_delivered x)) (finish z res (c_rdr x)))
    by (intros; destruct HP; by split).
  destruct Hstep; unfold reader_inv;
    cbn [c_buf c_wpc c_rdr c_rpc c_log c_delivered] in *; rewrite ?Hcur in *;
    try (split_and!; [apply Hfin | assumption | exact I]).
  - split_and!; done.
  - destruct Hpc as [-> Hres]. split_and!; auto.
    destruct (slot_view_match n _ (length D) s HW HL) as (c & Hc & Hok & Hh & Hd); auto.
    { by rewrite (reader_sn _ _ _ HP) in H1. }
    exists c. split_and!; auto.
    + rewrite length_replicate, Hh. cbn [sz]. unfold append_count, chunk_ok, zlen in *.
      rewrite (proj2 (Z.eqb_neq _ _)) by lia. cbn [negb]. lia.
    + intros _ i b [Hno _]%lookup_replicate. discriminate.
  - destruct Hpc as (-> & Hres & Hc). split_and!; auto.
    change (copy_inv n (mkConc rb wp r (RCopy (expected_sn r, rd_slot r) res h buf) L D) h
      (<[i := Some b]> buf)).
    eapply copy_inv_step; eauto.
  - destruct Hpc as (-> & Hres & Hc). rewrite Hres. cbn [app].
    apply copy_complete in Hc; [|by exists s]. cbn [c_log c_delivered] in Hc.
    split_and!; [|by apply prefix_app_lookup|done].
    rewrite length_app, Nat.add_1_r. by apply reader_at_succ.
  - exfalso. destruct Hpc as (_ & _ & c & Hc & Hh & H0' & _).
    destruct (slot_view_match n _ (length D) s HW HL) as (c' & Hc' & Hok & Hh' & _); auto.
    + congruence.
    + by rewrite <- H0, Hh.
    + rewrite Hh' in H1. cbn [sz] in H1. unfold chunk_ok in Hok. lia.
Qed.

(** ** Reachable states *)
Lemma conc_step_log ndebug x y : conc_step ndebug x y → zlen (c_log x) ≤ zlen (c_log y).
Proof.
  intros [Hw|[_ Hr]].
  - apply writer_step_frame in Hw as (_ & _ & _ & Hp%prefix_length). zlia.
  - destruct Hr; cbn; lia.
Qed.

Lemma reader_step_frame x y :
  reader_step x y → c_buf y = c_buf x ∧ c_wpc y = c_wpc x ∧ c_log y = c_log x.
Proof. by intros []. Qed.

Definition conc_inv (n : nat) (x : conc) : Prop := writer_inv n x ∧ reader_inv n x.

Lemma conc_step_inv ndebug n x y :
  conc_step ndebug x y → zlen (c_log y) < 2 ^ 32 → conc_inv n x → conc_inv n y.
Proof.
  intros Hstep HL [HW HR]. pose proof (conc_step_log _ _ _ Hstep).
  destruct Hstep as [Hw|[_ Hr]]; split.
  - by eapply writer_step_inv.
  - by eapply writer_step_reader_inv.
  - destruct (reader_step_frame _ _ Hr) as (Eb & Ew & El).
    unfold writer_inv in *. by rewrite Eb, Ew, El.
  - eapply reader_step_inv; eauto. lia.
Qed.

Lemma conc_reachable_inv ndebug n rb r0 x :
  repr n [] rb → rtc (conc_step ndebug) (conc_init rb r0) x → zlen (c_log x) < 2 ^ 32 →
  conc_inv n x.
Proof.
  intros HR. revert x. apply (rtc_ind_r (λ x, zlen (c_log x) < 2 ^ 32 → conc_inv n x)).
  - intros _. split; [done|]. split; [by apply new_reader_at|]. by split.
  - intros x y _ Hstep IH HL. eapply conc_step_inv; eauto.
    apply IH. pose proof (conc_step_log _ _ _ Hstep). lia.
Qed.

(** ** Sequential runs are schedules of the threads *)
Lemma memcpy_steps ndebug rb s msg k d r rp L D :
  (Z.to_nat (current_slot rb) < length (slots rb))%nat →
  zlen d ≤ zlen (slot_data s) →
  rtc (writer_step ndebug)
    (mkConc (set_slot (current_slot rb) s rb) (WCopy msg k d) r rp L D)
    (mkConc (set_slot (current_slot rb)
               (mkSlot (slot_header s) (d ++ drop (length d) (slot_data s))) rb)
       (WCopy msg k d) r rp L D).
Proof.
  intros Hcur Hd.
  enough (∀ j, (j ≤ length d)%nat → rtc (writer_step ndebug)
    (mkConc (set_slot (current_slot rb) s rb) (WCopy msg k d) r rp L D)
    (mkConc (set_slot (current_slot rb)
               (mkSlot (slot_header s) (take j d ++ drop j (slot_data s))) rb)
       (WCopy msg k d) r rp L D)) as H.
  { specialize (H (length d) ltac:(lia)). by rewrite take_ge in H by lia. }
  induction j as [|j IH]; intros Hj; [by destruct s|].
  eapply rtc_r; [apply IH; lia|].
  destruct (lookup_lt_is_Some_2 d j) as [b Hb]; [lia|].
  rewrite <- (insert_take_drop d (slot_data s) j b) by (done || zlia).
  pose proof (w_copy ndebug (set_slot (current_slot rb)
     (mkSlot (slot_header s) (take j d ++ drop j (slot_data s))) rb) r rp L D msg k d
     (mkSlot (slot_header s) (take j d ++ drop j (slot_data s))) j b) as Hstep.
  change (current_slot (set_slot _ ?t rb)) with (current_slot rb) in Hstep.
  rewrite set_slot_set_slot in Hstep. apply Hstep; [|done].
  unfold set_slot. cbn [slots]. by apply list_lookup_insert_eq.
Qed.

(** From the memcpy to the head of the loop: copy, then publish. *)
Lemma commit_steps ndebug rb s msg k d r rp L D :
  (Z.to_nat (current_slot rb) < length (slots rb))%nat →
  zlen d ≤ zlen (slot_data s) →
  rtc (writer_step ndebug)
    (mkConc (set_slot (current_slot rb) s rb) (WCopy msg k d) r rp L D)
    (mkConc (move_next (set_slot (current_slot rb)
               (mkSlot (mkSlotHeader (current_sn rb) (u32 (zlen d)))
                  (d ++ drop (length d) (slot_data s))) rb))
       (WLoop msg (size_t (k + zlen d))) r rp (L ++ [d]) D).
Proof.
  intros Hcur Hle. eapply rtc_r; [by apply memcpy_steps|].
  set (t := mkSlot (slot_header s) _).
  pose proof (w_commit ndebug (set_slot (current_slot rb) t rb) r rp L D msg k d t) as Hstep.
  change (current_slot (set_slot _ t rb)) with (current_slot rb) in Hstep.
  change (current_sn (set_slot _ t rb)) with (current_sn rb) in Hstep.
  rewrite set_slot_set_slot in Hstep. apply Hstep.
  - unfold set_slot. cbn [slots]. by apply list_lookup_insert_eq.
  - apply take_app_exact.
Qed.

(** [update] as steps: invalidate, copy, publish. *)
Lemma update_steps ndebug rb s s' msg k d r rp L D :
  k ≠ zlen msg →
  d = next_chunk msg k →
  slots rb !! Z.to_nat (current_slot rb) = Some s →
  update ndebug d (current_sn rb) s = Ok s' →
  rtc (writer_step ndebug) (mkConc rb (WLoop msg k) r rp L D)
    (mkConc (move_next (set_slot (current_slot rb) s' rb))
       (WLoop msg (size_t (k + zlen d))) r rp (L ++ [d]) D).
Proof.
  intros Hk Hd Hs Hu. pose proof (lookup_lt_Some _ _ _ Hs) as Hcur.
  apply bind_Ok_inv in Hu as ([] & Ha & Hu). unfold memcpy in Hu. cbn in Hu.
  destruct (Z.leb_spec (zlen d) (zlen (slot_data s))) as [Hle|]; [|done].
  cbn in Hu. injection Hu as <-.
  rewrite Hd in Ha. eapply rtc_l; [by eapply w_begin|]. rewrite <- Hd.
  exact (commit_steps ndebug rb (store_header (mkSlotHeader 0 0) s) msg k d r rp L D Hcur Hle).
Qed.

Lemma write_loop_schedule ndebug msg fuel k rb rb' r rp L D :
  zlen msg < 2 ^ 64 → (k ≤ length msg)%nat →
  write_loop fuel ndebug msg (Z.of_nat k) rb = Ok rb' →
  rtc (writer_step ndebug) (mkConc rb (WLoop msg (Z.of_nat k)) r rp L D)
    (mkConc rb' (WLoop msg (zlen msg)) r rp (L ++ chunks (drop k msg)) D).
Proof.
  intros Hm. revert k rb L. induction fuel as [|fuel IH]; intros k rb L Hk Hrun; [done|].
  cbn [write_loop] in Hrun. destruct (Z.eqb_spec (Z.of_nat k) (zlen msg)) as [He|Hne].
  { injection Hrun as <-. rewrite He, drop_ge, chunks_nil, app_nil_r by zlia. done. }
  assert (Hlt : (k < length msg)%nat) by zlia.
  apply bind_Ok_inv in Hrun as (s & Hs & Hrun). apply bind_Ok_inv in Hrun as (s' & Hu & Hrun).
  unfold vector_at in Hs. destruct (slots rb !! _) as [s0|] eqn:Hlook; [|done].
  injection Hs as ->.
  rewrite (u64_small (zlen msg - Z.of_nat k)), substr_chunk, next_byte in * by zlia.
  eapply (transitivity (R := rtc _)); [eapply update_steps; [exact Hne| |exact Hlook|exact Hu]|].
  { unfold next_chunk. by rewrite u64_small, substr_chunk by zlia. }
  rewrite (chunks_unfold (drop k msg)), <- drop_next, (app_cons_assoc L (chunks _)).
  2:{ intros E%(f_equal length). rewrite length_drop in E. simpl in E. lia. }
  replace (size_t (Z.of_nat k + zlen (take (Z.to_nat sizeof_SlotData) (drop k msg))))
    with (Z.of_nat (k + length (take (Z.to_nat sizeof_SlotData) (drop k msg)))).
  2:{ pose proof (length_take_drop_chunk msg k). unfold zlen in *. rewrite u64_small; lia. }
  apply IH; [|exact Hrun]. rewrite length_take_drop_chunk. lia.
Qed.

Lemma write_schedule ndebug msg rb rb' r rp L D :
  write ndebug msg rb = Ok (WriteResult.OK, rb') →
  rtc (writer_step ndebug) (mkConc rb WIdle r rp L D) (mkConc rb' WIdle r rp (L ++ chunks msg) D).
Proof.
  unfold write. destruct (Z.ltb_spec (size_t (zlen (slots rb) * sizeof_SlotData)) (zlen msg));
    [done|]. destruct (Z.eqb_spec (zlen msg) 0); [done|].
  intros (rb1 & Hrun & [= ->])%bind_Ok_inv.
  pose proof (u64_bound (zlen (slots rb) * sizeof_SlotData)).
  eapply rtc_l; [by apply w_call|]. eapply rtc_r; [|by apply w_return].
  apply (write_loop_schedule ndebug msg (S (length msg)) 0); [lia|lia|exact Hrun].
Qed.

(** Reading all the bytes of the slot under the reader's cursor. *)
Lemma copy_steps rb wp r w res h L D s bs buf :
  slots rb !! Z.to_nat (rd_slot r) = Some s →
  bs = take (length buf) (slot_data s) → (length buf ≤ length (slot_data s))%nat →
  rtc reader_step (mkConc rb wp r (RCopy w res h buf) L D)
    (mkConc rb wp r (RCopy w res h (map Some bs)) L D).
Proof.
  intros Hs Hbs Hd.
  assert (Hlen : length bs = length buf) by (rewrite Hbs, length_take; lia).
  enough (∀ j, (j ≤ length buf)%nat → rtc reader_step
    (mkConc rb wp r (RCopy w res h buf) L D)
    (mkConc rb wp r (RCopy w res h (take j (map Some bs) ++ drop j buf)) L D)) as H.
  { specialize (H (length buf) ltac:(lia)).
    by rewrite take_ge, drop_all, app_nil_r in H by (rewrite length_map; lia). }
  induction j as [|j IH]; intros Hj; [done|].
  eapply rtc_r; [apply IH; lia|].
  destruct (lookup_lt_is_Some_2 bs j) as [b Hb]; [lia|].
  rewrite <- (insert_take_drop (map Some bs) buf j (Some b)).
  - eapply r_copy; eauto.
    + rewrite length_app, length_take, length_drop, length_map. lia.
    + rewrite Hbs in Hb. by apply lookup_take_Some in Hb as [Hb _].
  - by rewrite list_lookup_fmap, Hb.
  - lia.
Qed.

Definition delivery (rdr : RingBufferReader) : list (list byte) :=
  match ReadResult.result (rd_result rdr) with
  | ReadResult.OK => [ReadResult.data (rd_result rdr)]
  | _ => []
  end.

Lemma read_schedule rb wp r r' L D :
  read_next 1 rb r = Ok r' →
  rtc reader_step (mkConc rb wp r RIdle L D)
    (mkConc rb wp r' RIdle L (D ++ delivery r')).
Proof.
  unfold read_next. cbn [read_loop]. intros (s & Hs & H)%bind_Ok_inv.
  unfold vector_at in Hs. destruct (slots rb !! _) as [s0|] eqn:Hlook; [|done].
  injection Hs as ->. eapply rtc_l; [apply r_call|].
  destruct (Z.eqb_spec (sn (slot_header s)) 0) as [H0|H0].
  { injection H as <-. cbn. rewrite app_nil_r. apply rtc_once. by eapply r_no_data. }
  destruct (Z.eqb_spec (sn (slot_header s)) (expected_sn r)) as [He|He]; cbn [negb] in H.
  2:{ injection H as <-. cbn. rewrite app_nil_r. apply rtc_once. by eapply r_mismatch. }
  apply bind_Ok_inv in H as (res & Happ & H). rewrite Z.eqb_refl in H. cbn [negb] in H.
  destruct (Z.eqb_spec (sz (slot_header s)) 0) as [|Hsz]; [done|]. cbn [negb] in H.
  injection H as <-. unfold ReadResult.append in Happ. fold (append_count (sz (slot_header s))) in Happ.
  destruct (Z.leb_spec (append_count (sz (slot_header s))) (zlen (slot_data s))); [|done].
  injection Happ as <-. cbn.
  eapply rtc_l; [by eapply r_match|].
  eapply (transitivity (R := rtc _)).
  { eapply copy_steps; [exact Hlook|reflexivity|]. rewrite length_replicate. zlia. }
  apply rtc_once. rewrite length_replicate. by eapply r_deliver.
Qed.

(** While the program runs, the steps of the reader are steps of the machine. *)
Lemma reader_alone ndebug x y :
  c_wpc x ≠ WAborted → rtc reader_step x y → rtc (conc_step ndebug) x y.
Proof.
  intros Hx Hr. induction Hr as [|x y z Hstep _ IH]; [done|].
  destruct (reader_step_frame _ _ Hstep) as (_ & Ew & _).
  eapply rtc_l; [right; by split|]. apply IH. by rewrite Ew.
Qed.

(** ** Either thread can finish its call on its own

    In a build with assertions a full chunk that is still to be written aborts the program. *)
Definition will_abort (ndebug : bool) (x : conc) : bool :=
  match c_wpc x with
  | WIdle => false
  | WLoop msg k => negb ndebug && (sizeof_SlotData <=? zlen msg - k)
  | WCopy msg k d => negb ndebug && (sizeof_SlotData <=? zlen msg - (k + zlen d))
  | WAborted => true
  end.

Definition writer_end (ndebug : bool) (x : conc) : writer_pc :=
  if will_abort ndebug x then WAborted else WIdle.

Lemma zlen_next_chunk msg k : zlen msg < 2 ^ 64 → 0 ≤ k ≤ zlen msg →
  zlen (next_chunk msg k) = Z.min sizeof_SlotData (zlen msg - k).
Proof.
  intros Hm Hk. unfold next_chunk. rewrite u64_small by lia.
  apply zlen_substr_exact; unfold sizeof_SlotData; lia.
Qed.

Lemma writer_copy_steps ndebug n x msg k d :
  writer_inv n x → c_wpc x = WCopy msg k d →
  ∃ y, rtc (writer_step ndebug) x y ∧ c_wpc y = WLoop msg (k + zlen d).
Proof.
  destruct x as [rb wp r rp L D]. intros HW Hwp. cbn in Hwp. subst wp.
  pose proof HW as (Hm & Hk & Hkd & Hc & rb0 & s & HR & E & _ & Hdat). unfold chunk_ok in Hc.
  cbn in E, HR. subst rb. destruct (repr_cursor _ _ _ HR) as [Hcur Hlt].
  pose proof (commit_steps ndebug rb0 s msg k d r rp L D) as Hsteps.
  rewrite Hcur, (repr_size _ _ _ HR), Hdat in Hsteps.
  eexists. split; [by apply Hsteps; [|lia]|]. cbn. by rewrite u64_small by lia.
Qed.

Lemma writer_loop_finishes ndebug n N : ∀ x msg k,
  writer_inv n x → c_wpc x = WLoop msg k → zlen msg - k < Z.of_nat N →
  ∃ y, rtc (writer_step ndebug) x y ∧ c_wpc y = writer_end ndebug x.
Proof.
  induction N as [|N IH]; intros x msg k HW Hwp HN; destruct x as [rb wp r rp L D];
    cbn in Hwp; subst wp; pose proof HW as (HR & Hm & Hk); cbn in HR; [lia|].
  unfold writer_end, will_abort. cbn [c_wpc].
  destruct (decide (k = zlen msg)) as [Hend|Hne].
  { eexists. split; [by apply rtc_once, w_return|]. rewrite Hend, Z.sub_diag. by rewrite andb_false_r. }
  destruct (repr_cursor_lookup _ _ _ HR) as [s Hs]. destruct (repr_cursor _ _ _ HR) as [Hcur _].
  rewrite <- Hcur in Hs. pose proof (zlen_next_chunk msg k Hm Hk) as Hz.
  destruct (cassert ndebug (zlen (next_chunk msg k) <? sizeof_SlotData)) as [[]|f] eqn:Ha.
  - pose proof (w_begin ndebug rb r rp L D msg k s Hne Hs Ha) as Hbegin.
    pose proof (writer_step_inv _ n _ _ Hbegin HW) as HW1.
    destruct (writer_copy_steps ndebug n _ _ _ _ HW1 eq_refl) as (y1 & Hy1 & Hpc1).
    pose proof (rtc_preserves _ (writer_inv n) _ _ (writer_step_inv ndebug n) Hy1 HW1) as HW2.
    destruct (IH y1 msg _ HW2 Hpc1) as (y & Hy & Hpc); [rewrite Hz; unfold sizeof_SlotData; lia|].
    exists y. split; [by eapply rtc_l; [|etrans]|]. rewrite Hpc. unfold writer_end, will_abort.
    rewrite Hpc1, Hz. f_equal. unfold cassert in Ha. destruct ndebug; [done|]. cbn [orb negb andb] in *.
    destruct (Z.ltb_spec (zlen (next_chunk msg k)) sizeof_SlotData); [|done].
    unfold sizeof_SlotData in *. by rewrite !(proj2 (Z.leb_gt _ _)) by lia.
  - assert (f = assert_failed ∧ ndebug = false ∧ sizeof_SlotData ≤ zlen (next_chunk msg k)) as (-> & -> & Hfull).
    { unfold cassert in Ha. destruct ndebug; [done|]. cbn in Ha.
      destruct (Z.ltb_spec (zlen (next_chunk msg k)) sizeof_SlotData); [done|]. by injection Ha as <-. }
    eexists. split; [by eapply rtc_once, w_abort|].
    cbn [negb andb]. by rewrite (proj2 (Z.leb_le _ _)) by lia.
Qed.

Lemma writer_finishes ndebug n x :
  writer_inv n x → ∃ y, rtc (writer_step ndebug) x y ∧ c_wpc y = writer_end ndebug x.
Proof.
  intros HW. destruct (c_wpc x) as [|msg k|msg k d|] eqn:Hwp.
  - exists x. by unfold writer_end, will_abort; rewrite Hwp.
  - by apply (writer_loop_finishes ndebug n (S (Z.to_nat (zlen msg - k))) x msg k); [| |lia].
  - destruct (writer_copy_steps ndebug n x msg k d HW Hwp) as (y1 & Hy1 & Hpc1).
    pose proof (rtc_preserves _ (writer_inv n) _ _ (writer_step_inv ndebug n) Hy1 HW) as HW1.
    destruct (writer_loop_finishes ndebug n (S (Z.to_nat (zlen msg - (k + zlen d)))) y1 _ _ HW1 Hpc1)
      as (y & Hy & Hpc); [lia|].
    exists y. split; [by etrans|]. rewrite Hpc. unfold writer_end, will_abort. by rewrite Hpc1, Hwp.
  - exists x. by unfold writer_end, will_abort; rewrite Hwp.
Qed.

Lemma writer_inv_data n x i s :
  writer_inv n x → slots (c_buf x) !! i = Some s → zlen (slot_data s) = sizeof_SlotData.
Proof.
  unfold writer_inv. destruct (c_wpc x) as [|msg k|msg k d|].
  - apply repr_slot_data.
  - intros [HR _]. by apply (repr_slot_data _ _ _ _ _ HR).
  - intros (_ & _ & _ & _ & rb0 & t & HR & -> & _ & Hdat) Hs.
    apply (set_slot_lookup n _ _ _ _ _ HR) in Hs as [[_ ->]|[_ Hs]]; [done|].
    exact (repr_slot_data _ _ _ _ _ HR Hs).
  - apply repr_slot_data.
Qed.

Lemma reader_copy_finishes n x w res h buf :
  conc_inv n x → zlen (c_log x) < 2 ^ 32 → c_rpc x = RCopy w res h buf →
  ∃ y, rtc reader_step x y ∧ c_rpc y = RIdle.
Proof.
  destruct x as [rb wp r rp L D]. intros [HW (HP & Hpre & Hpc)] HL E. cbn in *. subst rp.
  destruct Hpc as (_ & _ & c & Hc & Hh & H0 & Hlen & _). cbn in *.
  destruct (writer_inv_size _ _ HW) as (Hsz & Hn & _). cbn in Hsz.
  assert (Hcur : Z.to_nat (rd_slot r) = (length D mod n)%nat)
    by (rewrite (reader_slot _ _ _ HP), <- Nat2Z.inj_mod; lia).
  destruct (lookup_lt_is_Some_2 (slots rb) (length D mod n)%nat) as [s Hs].
  { rewrite Hsz. apply Nat.mod_upper_bound. lia. }
  pose proof (writer_inv_data _ _ _ _ HW Hs) as Hdat.
  assert (Hok : chunk_ok c) by (eapply writer_inv_chunk; eauto).
  pose proof (copy_steps rb wp r w res h L D s (take (length buf) (slot_data s)) buf) as Hsteps.
  rewrite Hcur in Hsteps.
  specialize (Hsteps Hs eq_refl ltac:(unfold chunk_ok, zlen in *; lia)).
  destruct (decide (sn h = sn (slot_header s))) as [He|Hne].
  - destruct (slot_view_match n _ (length D) s HW HL) as (c' & Hc' & Hok' & Hh' & _);
      [by apply prefix_length|done|by rewrite <- He|by rewrite <- He, Hh|].
    eexists. split; [eapply rtc_r; [exact Hsteps|eapply r_deliver; rewrite ?Hcur; eauto]|done].
    rewrite Hh'. cbn. unfold chunk_ok in Hok'. lia.
  - eexists. split; [eapply rtc_r; [exact Hsteps|eapply r_torn; rewrite ?Hcur; eauto]|done].
Qed.

Lemma reader_step_inv_conc n x y :
  reader_step x y → zlen (c_log x) < 2 ^ 32 → conc_inv n x → conc_inv n y.
Proof.
  intros Hr HL [HW HR]. split; [|by eapply reader_step_inv].
  destruct (reader_step_frame _ _ Hr) as (Eb & Ew & El). unfold writer_inv in *. by rewrite Eb, Ew, El.
Qed.

Lemma reader_finishes n x :
  conc_inv n x → zlen (c_log x) < 2 ^ 32 →
  ∃ y, rtc reader_step x y ∧ c_rpc y = RIdle.
Proof.
  destruct x as [rb wp r [|w res|w res h buf] L D]; intros Hinv HL.
  - by eexists.
  - pose proof Hinv as [HW (HP & Hpre & Hpc)]. cbn in *.
    destruct (writer_inv_size _ _ HW) as (Hsz & Hn & _). cbn in Hsz.
    destruct (lookup_lt_is_Some_2 (slots rb) (Z.to_nat (rd_slot r))) as [s Hs].
    { rewrite (reader_slot _ _ _ HP), Hsz, <- Nat2Z.inj_mod, Nat2Z.id.
      apply Nat.mod_upper_bound. lia. }
    destruct (decide (sn (slot_header s) = 0)) as [|H0].
    { eexists. split; [apply rtc_once; by eapply r_no_data|done]. }
    destruct (decide (sn (slot_header s) = expected_sn r)) as [He|Hne].
    2:{ eexists. split; [apply rtc_once; by eapply r_mismatch|done]. }
    pose proof (r_match rb wp r w res L D s Hs H0 He) as Hstep.
    destruct (reader_copy_finishes n _ w res _ _
      (reader_step_inv_conc n _ _ Hstep HL Hinv) HL eq_refl) as (y & Hy & Hidle).
    exists y. split; [by eapply rtc_l|done].
  - by eapply reader_copy_finishes.
Qed.

(** ** Properties of the ring buffer under interleaving

    A writer thread and a reader thread take turns in any order, one shared
    memory access at a time (RingConcurrent.v). *)
(** C11. No torn reads: in every interleaving of a writer and a reader, as long
    as fewer than 2^32 chunks are written, what [read_next] has returned with
    OK so far is an initial part of the sequence of chunks the writer
    published: no chunk is mixed with another one, skipped, repeated or
    reordered. *)
Theorem concurrent_reads_are_prefix n_slots ndebug rb r0 x :
  0 < n_slots ≤ 2 ^ 32 → RingBuffer_new ndebug n_slots = Ok rb →
  rtc (conc_step ndebug) (conc_init rb r0) x → zlen (c_log x) < 2 ^ 32 →
  c_delivered x `prefix_of` c_log x.
Proof.
  intros Hn Hnew Hx HL. destruct (new_repr ndebug n_slots Hn) as (rb' & Hnew' & HR).
  rewrite Hnew in Hnew'. injection Hnew' as <-.
  by destruct (conc_reachable_inv ndebug _ rb r0 x HR Hx HL) as [_ (_ & Hpre & _)].
Qed.

(** A state in which a message was written and read. *)
Lemma one_delivery :
  ∃ x, rtc (conc_step true) (conc_init buffer2 ReadResult.OK) x ∧
       c_log x = [[x41; x42]] ∧ c_delivered x = [[x41; x42]].
Proof.
  assert (∃ rb' r', write true [x41; x42] buffer2 = Ok (WriteResult.OK, rb') ∧
    read_next 1 rb' reader0 = Ok r' ∧ delivery r' = [[x41; x42]]) as (rb' & r' & Hw & Hr & Hd).
  { do 2 eexists. split; [reflexivity|]. split; reflexivity. }
  eexists. split; [eapply (transitivity (R := rtc _))|].
  - eapply rtc_subrel; [by left|exact (write_schedule _ _ _ _ _ _ [] [] Hw)].
  - eapply reader_alone; [done|exact (read_schedule _ _ reader0 _ _ [] Hr)].
  - cbn. by rewrite Hd.
Qed.

Lemma concurrent_reads_are_prefix_witness :
  ∃ x, c_log x = [[x41; x42]] ∧ c_delivered x = [[x41; x42]] ∧
       c_delivered x `prefix_of` c_log x.
Proof.
  destruct one_delivery as (x & Hx & HL & HD). exists x. split_and!; auto.
  apply (concurrent_reads_are_prefix 2 true buffer2 ReadResult.OK x);
    [lia | reflexivity | exact Hx | rewrite HL; reflexivity].
Defined.

(** C12. The sequential functions are runs of the threads: an accepting
    [write] is a sequence of steps of the writer thread that publishes exactly
    the chunks of the message, and a [read_next] is a sequence of steps of the
    reader thread that delivers exactly what it returns with OK, wherever the
    other thread happens to be.  So it is in every build. *)
Theorem sequential_calls_are_schedules ndebug rb rb' wp r r' rp msg L D :
  write ndebug msg rb = Ok (WriteResult.OK, rb') → read_next 1 rb r = Ok r' →
  rtc (writer_step ndebug) (mkConc rb WIdle r rp L D) (mkConc rb' WIdle r rp (L ++ chunks msg) D) ∧
  rtc reader_step (mkConc rb wp r RIdle L D) (mkConc rb wp r' RIdle L (D ++ delivery r')).
Proof. split; [by apply write_schedule|by apply read_schedule]. Qed.

Lemma sequential_calls_are_schedules_witness :
  match write true (bytes 60) buffer2, read_next 1 buffer2 reader0 with
  | Ok (_, rb'), Ok r' =>
      rtc (writer_step true) (mkConc buffer2 WIdle reader0 RIdle [] [])
        (mkConc rb' WIdle reader0 RIdle [bytes 56; bytes 4] []) ∧
      rtc reader_step (mkConc buffer2 WIdle reader0 RIdle [] [])
        (mkConc buffer2 WIdle r' RIdle [] [])
  | _, _ => False
  end.
Proof.
  exact (sequential_calls_are_schedules true buffer2 _ WIdle reader0 _ RIdle (bytes 60) [] []
           eq_refl eq_refl).
Defined.

(** C13. Neither thread waits for the other: from every reachable state the
    writer can finish its current [write], and the reader its current
    [read_next], by its own steps alone, wherever the other one was stopped.  In a build
    with assertions the writer ends in [abort] exactly if a full chunk is left to write,
    and then no thread takes another step. *)
Theorem threads_finish_alone n_slots ndebug rb r0 x :
  0 < n_slots ≤ 2 ^ 32 → RingBuffer_new ndebug n_slots = Ok rb →
  rtc (conc_step ndebug) (conc_init rb r0) x → zlen (c_log x) < 2 ^ 32 →
  (∃ y, rtc (writer_step ndebug) x y ∧
     c_wpc y = if will_abort ndebug x then WAborted else WIdle) ∧
  (c_wpc x = WAborted → ∀ y, ¬ conc_step ndebug x y) ∧
  (c_wpc x ≠ WAborted →
     ∃ y, rtc reader_step x y ∧ rtc (conc_step ndebug) x y ∧ c_rpc y = RIdle).
Proof.
  intros Hn Hnew Hx HL. destruct (new_repr ndebug n_slots Hn) as (rb' & Hnew' & HR).
  rewrite Hnew in Hnew'. injection Hnew' as <-.
  pose proof (conc_reachable_inv ndebug _ rb r0 x HR Hx HL) as Hinv. split_and!.
  - eapply writer_finishes. apply Hinv.
  - intros Hab y [Hw|[? _]]; [|done]. by destruct Hw.
  - intros Hrun. destruct (reader_finishes _ x Hinv HL) as (y & Hy & Hidle).
    exists y. split_and!; [done|by apply reader_alone|done].
Qed.

(** A writer in the middle of a byte, and one that is about to write 56 bytes. *)
Lemma threads_finish_alone_witness :
  let x := mkConc (set_slot 0 Slot_new buffer2) (WCopy [x41] 0 [x41]) reader0
             (RLoad (1, 0) (ReadResult.mk ReadResult.OK [])) [] [] in
  ((∃ y, rtc (writer_step true) x y ∧ c_wpc y = WIdle) ∧
   (∃ y, rtc reader_step x y ∧ rtc (conc_step true) x y ∧ c_rpc y = RIdle)) ∧
  ∃ y, rtc (writer_step false) (mkConc buffer2 (WLoop (bytes 56) 0) reader0 RIdle [] []) y ∧
    c_wpc y = WAborted.
Proof.
  split.
  - destruct (threads_finish_alone 2 true buffer2 ReadResult.OK
      (mkConc (set_slot 0 Slot_new buffer2) (WCopy [x41] 0 [x41]) reader0
         (RLoad (1, 0) (ReadResult.mk ReadResult.OK [])) [] [])) as (Hw & _ & Hr);
      [lia | reflexivity | | reflexivity | split; [exact Hw|by apply Hr]].
    eapply rtc_l; [left; by apply (w_call _ _ _ _ _ _ [x41])|].
    eapply rtc_l; [left; by apply (w_begin _ _ _ _ _ _ [x41] 0 Slot_new)|].
    apply rtc_once. right. split; [done|]. apply r_call.
  - apply (threads_finish_alone 2 false buffer2 ReadResult.OK); [lia | reflexivity | | reflexivity].
    apply rtc_once. left. by apply (w_call _ _ _ _ _ _ (bytes 56)).
Defined.
