(* ===== verification/BrokerCommon.v ===== *)
(** * src/lib/broker: broker_common.h, TopicImpl.h, SnapshotHandler.h, ConsumerImpl.h

    The data the broker, its producers and its consumers exchange, and the
    code the library's clients write against it.  The types a client chooses
    (events, stream types, its own state, its snapshot handlers) are the
    fields of the class [KeryxTypes]. *)
From S2P Require Import Prelude.
From stdpp Require Export gmap strings.
#[global] Open Scope Z_scope.

(** ** Interfaces the client implements *)

(** [class SnapshotHandler]: the three virtual members, on the states [S] of
    the handlers and the events [E] they own. *)
Class SnapshotHandler (S E : Type) := {
  init : S → list E → S;
  add_new_event : S → E → S;
  get_snapshot : S → list E
}.

(** [class NullSnapshotHandler]: keeps nothing. *)
Inductive NullSnapshot := null_snapshot.

#[export] Instance NullSnapshotHandler E : SnapshotHandler NullSnapshot E := {
  init s _ := s;
  add_new_event s _ := s;
  get_snapshot _ := []
}.

Class KeryxTypes := {
  Event : Type;                                   (* subclasses of class Event *)
  StreamTypeID : Type;                            (* std::type_info, compared with == *)
  StreamTypeID_eq_dec :: EqDecision StreamTypeID;
  UserState : Type;                               (* what the client's closures share *)
  SnapshotState : Type;                           (* its snapshot handlers *)
  SnapshotState_handler :: SnapshotHandler SnapshotState Event
}.

Abbreviation StreamName := string (only parsing).
Abbreviation StreamID := Z (only parsing).        (* uint64_t *)
Abbreviation ptr := nat (only parsing).           (* addresses of broker objects *)

Inductive NotificationKind := START_PRODUCER | EVENT | STOP_PRODUCER.

#[export] Instance NotificationKind_eq_dec : EqDecision NotificationKind.
Proof. solve_decision. Defined.

Section Common.
Context {T : KeryxTypes}.

Record TopicImpl := mkTopic {
  stream_type_id : StreamTypeID;
  stream_name : StreamName
}.

Record NotificationImpl := mkNotification {
  kind : NotificationKind;
  events : list Event;
  stream_id : StreamID;
  topic : TopicImpl
}.

Record StreamFilterImpl := mkFilter {
  filter_type_id : StreamTypeID;
  name_match : StreamName → bool
}.

(** Code of the client, as the broker sees it: it computes on its own state and
    calls the entry points of [OldBroker].  A handler is such code, run when it
    is notified; what it captured is part of the function. *)
Inductive Prog : Type :=
  | Return
  | User (f : UserState → UserState) (k : UserState → Prog)
  | MakeProducer (s : SnapshotState) (t : TopicImpl) (initial_snapshot : list Event)
      (k : ptr → Prog)
  | DoPublish (p : ptr) (ev : Event) (k : Prog)
  | DoDestroyProducer (p : ptr) (k : Prog)
  | MakeConsumer (f : StreamFilterImpl) (h : NotificationImpl → Prog) (k : ptr → Prog)
  | DoDestroyConsumer (c : ptr) (k : Prog).

(** The target of a [std::function<void(NotificationImpl const &)>]: a closure
    of the client, or the empty lambda that [destroy_consumer] installs. *)
Inductive NotificationHandlerImpl :=
  | user_handler (h : NotificationImpl → Prog)
  | no_handler.

Record ConsumerImpl := mkConsumer {
  c_filter : StreamFilterImpl;
  c_notify : NotificationHandlerImpl
}.

(** [ProducerImpl::PImpl] *)
Record ProducerImpl := mkProducer {
  p_id : StreamID;
  p_topic : TopicImpl;
  snapshot_handler : SnapshotState;
  p_consumers : list ptr
}.

(** The [std::variant] of OldBroker.cpp. *)
Inductive Action :=
  | InitProducer (producer : ptr)
  | DestroyProducer (producer : ptr)
  | Publish (producer : ptr) (event : Event)
  | InitConsumer (consumer : ptr)
  | DestroyConsumer (consumer : ptr).

(** ** The state *)

(** Objects of the broker, by address; the global stream counter. *)
Record Heap := mkHeap {
  producer_objs : gmap ptr ProducerImpl;
  consumer_objs : gmap ptr ConsumerImpl;
  next_ptr : ptr;
  current_stream_id : Z
}.

(** [OldBroker::PImpl] *)
Record PImpl := mkPImpl {
  producers : list ptr;
  consumers : list ptr;
  pending_actions : list Action
}.

(** What is outside the library: the client's state; the handles it holds (made
    and not destroyed yet), and the notifications its handlers have received. *)
Record Client := mkClient {
  user : UserState;
  open_producers : gset ptr;
  open_consumers : gset ptr;
  trace : list (ptr * NotificationImpl)
}.

Record World := mkWorld { heap : Heap; me : PImpl; client : Client }.

Definition set_heap (f : Heap → Heap) (w : World) : World :=
  mkWorld (f (heap w)) (me w) (client w).
Definition set_me (f : PImpl → PImpl) (w : World) : World :=
  mkWorld (heap w) (f (me w)) (client w).
Definition set_client (f : Client → Client) (w : World) : World :=
  mkWorld (heap w) (me w) (f (client w)).

Definition put_producer (p : ptr) (o : ProducerImpl) : World → World :=
  set_heap (λ h, mkHeap (<[p := o]> (producer_objs h)) (consumer_objs h)
                   (next_ptr h) (current_stream_id h)).
Definition put_consumer (c : ptr) (o : ConsumerImpl) : World → World :=
  set_heap (λ h, mkHeap (producer_objs h) (<[c := o]> (consumer_objs h))
                   (next_ptr h) (current_stream_id h)).
Definition free_producer (p : ptr) : World → World :=
  set_heap (λ h, mkHeap (delete p (producer_objs h)) (consumer_objs h)
                   (next_ptr h) (current_stream_id h)).
Definition free_consumer (c : ptr) : World → World :=
  set_heap (λ h, mkHeap (producer_objs h) (delete c (consumer_objs h))
                   (next_ptr h) (current_stream_id h)).
Definition set_user (u : UserState) : World → World :=
  set_client (λ k, mkClient u (open_producers k) (open_consumers k) (trace k)).
Definition log (c : ptr) (m : NotificationImpl) : World → World :=
  set_client (λ k, mkClient (user k) (open_producers k) (open_consumers k)
                     (trace k ++ [(c, m)])).
End Common.

(** A state with its components spelled out. *)
Abbreviation W po co np cid ps cs q u op oc tr :=
  (mkWorld (mkHeap po co np cid) (mkPImpl ps cs q) (mkClient u op oc tr)).
