(* ===== verification/OldBroker.v ===== *)
(** * src/lib/broker: OldBroker.cpp and ProducerImpl.cpp

    The entry points of [OldBroker], which only queue actions; the visitor that
    executes an action; the members of [ProducerImpl] it calls; [do_work]; the
    destructor.  Objects live at addresses that are never reused; a member
    access through the address of an object that is gone is [use_after_free].
    The theorems are in BrokerInvariant.v and the files after it. *)
From S2P Require Import Prelude BrokerCommon.

Section Broker.
Context {T : KeryxTypes}.

(** ** State and errors *)
Definition M (A : Type) : Type := World → result (World * A).

#[global] Instance M_ret : MRet M := λ A a w, Ok (w, a).
#[global] Instance M_bind : MBind M :=
  λ A B k m w, match m w with Ok (w', a) => k a w' | Err f => Err f end.

Definition modify (f : World → World) : M unit := λ w, Ok (f w, tt).
Definition gets {A} (f : World → A) : M A := λ w, Ok (w, f w).
Definition fail {A} (f : fault) : M A := λ _, Err f.

Definition deref_producer (p : ptr) : M ProducerImpl :=
  λ w, match producer_objs (heap w) !! p with
       | Some o => Ok (w, o)
       | None => Err use_after_free
       end.

Definition deref_consumer (c : ptr) : M ConsumerImpl :=
  λ w, match consumer_objs (heap w) !! c with
       | Some o => Ok (w, o)
       | None => Err use_after_free
       end.

Fixpoint for_each {A} (l : list A) (f : A → M unit) : M unit :=
  match l with
  | [] => mret tt
  | a :: l => _ ← f a; for_each l f
  end.

(** ** Entry points of [OldBroker] *)
Definition enqueue (a : Action) : M unit :=
  modify (set_me (λ b, mkPImpl (producers b) (consumers b) (pending_actions b ++ [a]))).

(** The constructor of [ProducerImpl]: takes the next stream id, copies the
    topic and hands the initial snapshot to the handler. *)
Definition new_producer (s : SnapshotState) (t : TopicImpl) (initial_snapshot : list Event)
    : M ptr :=
  λ w,
    let h := heap w in
    let n := u64 (current_stream_id h + 1) in
    let o := mkProducer n t (init s initial_snapshot) [] in
    Ok (mkWorld (mkHeap (<[next_ptr h := o]> (producer_objs h)) (consumer_objs h)
                   (S (next_ptr h)) n) (me w) (client w),
        next_ptr h).

Definition make_producer (s : SnapshotState) (t : TopicImpl) (initial_snapshot : list Event)
    : M ptr :=
  p ← new_producer s t initial_snapshot;
  _ ← enqueue (InitProducer p);
  mret p.

Definition publish (p : ptr) (ev : Event) : M unit := enqueue (Publish p ev).

Definition destroy_producer (p : ptr) : M unit := enqueue (DestroyProducer p).

Definition new_consumer (f : StreamFilterImpl) (h : NotificationImpl → Prog) : M ptr :=
  λ w,
    let hp := heap w in
    let o := mkConsumer f (user_handler h) in
    Ok (mkWorld (mkHeap (producer_objs hp) (<[next_ptr hp := o]> (consumer_objs hp))
                   (S (next_ptr hp)) (current_stream_id hp)) (me w) (client w),
        next_ptr hp).

Definition make_consumer (f : StreamFilterImpl) (h : NotificationImpl → Prog) : M ptr :=
  c ← new_consumer f h;
  _ ← enqueue (InitConsumer c);
  mret c.

Definition destroy_consumer (c : ptr) : M unit :=
  o ← deref_consumer c;
  _ ← modify (put_consumer c (mkConsumer (c_filter o) no_handler));
  enqueue (DestroyConsumer c).

(** ** Client code

    The entry points take references; the client must pass handles it obtained
    and has not destroyed ([client_misuse] otherwise).  The wrappers [Producer]
    and [Consumer] see to that by destroying in their destructors. *)
Definition holds_producer (p : ptr) : M unit :=
  λ w, if decide (p ∈ open_producers (client w)) then Ok (w, tt) else Err client_misuse.
Definition holds_consumer (c : ptr) : M unit :=
  λ w, if decide (c ∈ open_consumers (client w)) then Ok (w, tt) else Err client_misuse.

Definition set_open (f g : gset ptr → gset ptr) : World → World :=
  set_client (λ k, mkClient (user k) (f (open_producers k)) (g (open_consumers k)) (trace k)).

Fixpoint run_prog (k : Prog) : M unit :=
  match k with
  | Return => mret tt
  | User f k =>
      u ← gets (λ w, f (user (client w)));
      _ ← modify (set_user u);
      run_prog (k u)
  | MakeProducer s t init k =>
      p ← make_producer s t init;
      _ ← modify (set_open (union {[p]}) (λ C, C));
      run_prog (k p)
  | DoPublish p ev k =>
      _ ← holds_producer p;
      _ ← publish p ev;
      run_prog k
  | DoDestroyProducer p k =>
      _ ← holds_producer p;
      _ ← destroy_producer p;
      _ ← modify (set_open (λ P, P ∖ {[p]}) (λ C, C));
      run_prog k
  | MakeConsumer f h k =>
      c ← make_consumer f h;
      _ ← modify (set_open (λ P, P) (union {[c]}));
      run_prog (k c)
  | DoDestroyConsumer c k =>
      _ ← holds_consumer c;
      _ ← destroy_consumer c;
      _ ← modify (set_open (λ P, P) (λ C, C ∖ {[c]}));
      run_prog k
  end.

(** ** [ProducerImpl] *)

(** [c->notify(m)] *)
Definition call_notify (c : ptr) (m : NotificationImpl) : M unit :=
  o ← deref_consumer c;
  match c_notify o with
  | user_handler h => _ ← modify (log c m); run_prog (h m)
  | no_handler => mret tt
  end.

Definition is_match (t : TopicImpl) (f : StreamFilterImpl) : bool :=
  bool_decide (filter_type_id f = stream_type_id t) && name_match f (stream_name t).

Definition push_consumer (c : ptr) (o : ProducerImpl) : ProducerImpl :=
  mkProducer (p_id o) (p_topic o) (snapshot_handler o) (p_consumers o ++ [c]).

Definition maybe_add (p c : ptr) : M unit :=
  o ← deref_producer p;
  oc ← deref_consumer c;
  if is_match (p_topic o) (c_filter oc) then
    _ ← modify (put_producer p (push_consumer c o));
    call_notify c (mkNotification START_PRODUCER [] (p_id o) (p_topic o))
  else mret tt.

Definition producer_init (p : ptr) (cs : list ptr) : M unit :=
  for_each cs (maybe_add p).

(** [find_if] followed by [erase]: the first element equal to [c]. *)
Fixpoint erase_first (c : ptr) (l : list ptr) : list ptr :=
  match l with
  | [] => []
  | x :: l => if decide (x = c) then l else x :: erase_first c l
  end.

Definition maybe_remove (p c : ptr) : M unit :=
  o ← deref_producer p;
  modify (put_producer p
    (mkProducer (p_id o) (p_topic o) (snapshot_handler o) (erase_first c (p_consumers o)))).

Definition producer_publish (p : ptr) (ev : Event) : M unit :=
  o ← deref_producer p;
  let m := mkNotification EVENT [ev] (p_id o) (p_topic o) in
  _ ← for_each (p_consumers o) (λ c, call_notify c m);
  o' ← deref_producer p;
  modify (put_producer p
    (mkProducer (p_id o') (p_topic o') (add_new_event (snapshot_handler o') ev) (p_consumers o'))).

(** [~ProducerImpl], then the memory is returned. *)
Definition delete_producer (p : ptr) : M unit :=
  o ← deref_producer p;
  let m := mkNotification STOP_PRODUCER [] (p_id o) (p_topic o) in
  _ ← for_each (p_consumers o) (λ c, call_notify c m);
  modify (free_producer p).

Definition delete_consumer (c : ptr) : M unit :=
  _ ← deref_consumer c;
  modify (free_consumer c).

(** ** The visitor of [OldBroker::PImpl] *)
Definition set_producers (f : list ptr → list ptr) : World → World :=
  set_me (λ b, mkPImpl (f (producers b)) (consumers b) (pending_actions b)).
Definition set_consumers (f : list ptr → list ptr) : World → World :=
  set_me (λ b, mkPImpl (producers b) (f (consumers b)) (pending_actions b)).

(** [ndebug]: whether [keryx_assert] is compiled out; [erase(end())] follows. *)
Definition visit (ndebug : bool) (a : Action) : M unit :=
  match a with
  | InitProducer p =>
      _ ← modify (set_producers (λ l, l ++ [p]));
      cs ← gets (λ w, consumers (me w));
      producer_init p cs
  | Publish p ev => producer_publish p ev
  | DestroyProducer p =>
      ps ← gets (λ w, producers (me w));
      if decide (p ∈ ps) then
        _ ← modify (set_producers (erase_first p));
        delete_producer p
      else fail (if ndebug then bad_erase else assert_failed)
  | InitConsumer c =>
      _ ← modify (set_consumers (λ l, l ++ [c]));
      ps ← gets (λ w, producers (me w));
      for_each ps (λ p, maybe_add p c)
  | DestroyConsumer c =>
      ps ← gets (λ w, producers (me w));
      _ ← for_each ps (λ p, maybe_remove p c);
      cs ← gets (λ w, consumers (me w));
      if decide (c ∈ cs) then
        _ ← modify (set_consumers (erase_first c));
        delete_consumer c
      else fail bad_erase
  end.

(** ** [OldBroker::do_work] *)
Definition pop_front (w : World) : option (Action * World) :=
  match pending_actions (me w) with
  | [] => None
  | a :: q => Some (a, set_me (λ b, mkPImpl (producers b) (consumers b) q) w)
  end.

Fixpoint do_work (fuel : nat) (ndebug : bool) : M unit :=
  match fuel with
  | O => fail out_of_fuel
  | S fuel => λ w,
      match pop_front w with
      | None => Ok (w, tt)
      | Some (a, w') => (_ ← visit ndebug a; do_work fuel ndebug) w'
      end
  end.

(** ** [OldBroker::~OldBroker]

    The members of [PImpl] go in reverse order of their declaration: the queue
    with the objects its actions own, then [consumers], then [producers]. *)
Definition delete_action (a : Action) : M unit :=
  match a with
  | InitProducer p => delete_producer p
  | InitConsumer c => delete_consumer c
  | _ => mret tt
  end.

Definition destroy_broker : M unit :=
  q ← gets (λ w, pending_actions (me w));
  _ ← for_each q delete_action;
  cs ← gets (λ w, consumers (me w));
  _ ← for_each cs delete_consumer;
  ps ← gets (λ w, producers (me w));
  for_each ps delete_producer.

(** A broker just constructed, in a program that has made no producer yet. *)
Definition new_world (u : UserState) : World :=
  mkWorld (mkHeap ∅ ∅ 0 0) (mkPImpl [] [] []) (mkClient u ∅ ∅ []).
End Broker.
