(* ===== verification/BrokerInvariant.v ===== *)
(** * The invariants of the broker

    [winv]: the queue only names objects that exist when its turn comes, and
    the handles of the client are exactly the objects alive after the queue has
    been worked off.  [tinv]: what each handler has received about each stream
    so far follows the protocol START EVENT* STOP.  Both are preserved by every
    step of client code ([client_step]); BrokerVisit.v shows that the visitor
    preserves them too. *)
From S2P Require Import Prelude BrokerCommon OldBroker.
#[local] Open Scope Z_scope.

(** ** The subscription protocol *)
Inductive sub_state := Idle | Active | Ended.

Definition sub_next (s : sub_state) (k : NotificationKind) : option sub_state :=
  match s, k with
  | Idle, START_PRODUCER => Some Active
  | Active, EVENT => Some Active
  | Active, STOP_PRODUCER => Some Ended
  | _, _ => None
  end.

Section Invariant.
Context {T : KeryxTypes}.

Definition protocol_step (c : ptr) (i : Z) (s : option sub_state)
    (d : ptr * NotificationImpl) : option sub_state :=
  if decide (d.1 = c ∧ stream_id d.2 = i)
  then s ≫= (λ s, sub_next s (kind d.2)) else s.

(** Where consumer [c] is with the stream [i] after the deliveries [tr]; [None]
    if they violate the protocol. *)
Definition protocol (c : ptr) (i : Z) (tr : list (ptr * NotificationImpl)) : option sub_state :=
  foldl (protocol_step c i) (Some Idle) tr.

(** ** The queue *)
Definition init_p_of (a : Action) : option ptr :=
  match a with
  | InitProducer p => Some p
  | _ => None
  end.
Definition init_c_of (a : Action) : option ptr :=
  match a with
  | InitConsumer c => Some c
  | _ => None
  end.
Definition inits_p (q : list Action) : list ptr := omap init_p_of q.
Definition inits_c (q : list Action) : list ptr := omap init_c_of q.

(** Working off [q] from the initialised producers [P] and consumers [C] meets
    every object it needs, and ends with [OP] and [OC]. *)
Fixpoint queue_ok (q : list Action) (P C OP OC : gset ptr) : Prop :=
  match q with
  | [] => OP = P ∧ OC = C
  | InitProducer p :: q => (p ∉ P) ∧ queue_ok q (P ∪ {[p]}) C OP OC
  | DestroyProducer p :: q => p ∈ P ∧ queue_ok q (P ∖ {[p]}) C OP OC
  | Publish p _ :: q => p ∈ P ∧ queue_ok q P C OP OC
  | InitConsumer c :: q => (c ∉ C) ∧ queue_ok q P (C ∪ {[c]}) OP OC
  | DestroyConsumer c :: q => c ∈ C ∧ queue_ok q P (C ∖ {[c]}) OP OC
  end.

(** Producers and consumers whose objects the broker owns. *)
Definition live_p (w : World) : list ptr :=
  producers (me w) ++ inits_p (pending_actions (me w)).
Definition live_c (w : World) : list ptr :=
  consumers (me w) ++ inits_c (pending_actions (me w)).

Definition pobj (w : World) (p : ptr) : option ProducerImpl := producer_objs (heap w) !! p.
Definition cobj (w : World) (c : ptr) : option ConsumerImpl := consumer_objs (heap w) !! c.

Record winv (w : World) : Prop := {
  wi_queue : queue_ok (pending_actions (me w))
    (list_to_set (producers (me w))) (list_to_set (consumers (me w)))
    (open_producers (client w)) (open_consumers (client w));
  wi_nodup_p : NoDup (live_p w);
  wi_nodup_c : NoDup (live_c w);
  wi_heap_p : ∀ p, p ∈ live_p w → is_Some (pobj w p);
  wi_heap_c : ∀ c, c ∈ live_c w → is_Some (cobj w c);
  wi_fresh_p : ∀ p, is_Some (pobj w p) → (p < next_ptr (heap w))%nat;
  wi_fresh_c : ∀ c, is_Some (cobj w c) → (c < next_ptr (heap w))%nat;
  wi_sub : ∀ p o c, p ∈ live_p w → pobj w p = Some o → c ∈ p_consumers o →
    c ∈ consumers (me w);
  wi_uninit : ∀ p o, p ∈ inits_p (pending_actions (me w)) → pobj w p = Some o →
    p_consumers o = [];
  wi_muted : ∀ c o, cobj w c = Some o →
    c_notify o = no_handler ↔ c ∉ open_consumers (client w)
}.

Record tinv (w : World) : Prop := {
  ti_ok : ∀ c i, is_Some (protocol c i (trace (client w)));
  ti_active : ∀ p o c, p ∈ live_p w → pobj w p = Some o → c ∈ p_consumers o →
    c ∈ open_consumers (client w) → protocol c (p_id o) (trace (client w)) = Some Active;
  ti_idle : ∀ p o c, p ∈ live_p w → pobj w p = Some o → c ∈ live_c w →
    c ∉ p_consumers o → protocol c (p_id o) (trace (client w)) = Some Idle;
  ti_fresh : ∀ c m, (c, m) ∈ trace (client w) →
    stream_id m ≤ current_stream_id (heap w) ∧ (c < next_ptr (heap w))%nat;
  ti_ids : ∀ p p' o o', pobj w p = Some o → pobj w p' = Some o' → p_id o = p_id o' → p = p';
  ti_id_bound : ∀ p o, pobj w p = Some o → p_id o ≤ current_stream_id (heap w);
  ti_counter : 0 ≤ current_stream_id (heap w) ≤ Z.of_nat (next_ptr (heap w))
}.

(** The protocol part is claimed while the stream counter has not wrapped. *)
Definition no_wrap (w : World) : Prop := Z.of_nat (next_ptr (heap w)) < 2 ^ 64.
Definition binv (w : World) : Prop := winv w ∧ (no_wrap w → tinv w).

(** ** Client code, one call at a time *)
Inductive client_step : World → World → Prop :=
  | cs_user po co np cid ps cs q u op oc tr u' :
      client_step (W po co np cid ps cs q u op oc tr) (W po co np cid ps cs q u' op oc tr)
  | cs_make_producer po co np cid ps cs q u op oc tr t s :
      client_step (W po co np cid ps cs q u op oc tr)
        (W (<[np := mkProducer (u64 (cid + 1)) t s []]> po) co (S np) (u64 (cid + 1))
           ps cs (q ++ [InitProducer np]) u ({[np]} ∪ op) oc tr)
  | cs_publish po co np cid ps cs q u op oc tr p ev :
      p ∈ op →
      client_step (W po co np cid ps cs q u op oc tr)
        (W po co np cid ps cs (q ++ [Publish p ev]) u op oc tr)
  | cs_destroy_producer po co np cid ps cs q u op oc tr p :
      p ∈ op →
      client_step (W po co np cid ps cs q u op oc tr)
        (W po co np cid ps cs (q ++ [DestroyProducer p]) u (op ∖ {[p]}) oc tr)
  | cs_make_consumer po co np cid ps cs q u op oc tr f h :
      client_step (W po co np cid ps cs q u op oc tr)
        (W po (<[np := mkConsumer f (user_handler h)]> co) (S np) cid
           ps cs (q ++ [InitConsumer np]) u op ({[np]} ∪ oc) tr)
  | cs_destroy_consumer po co np cid ps cs q u op oc tr c o :
      c ∈ oc → co !! c = Some o →
      client_step (W po co np cid ps cs q u op oc tr)
        (W po (<[c := mkConsumer (c_filter o) no_handler]> co) np cid
           ps cs (q ++ [DestroyConsumer c]) u op (oc ∖ {[c]}) tr).

(** ** Lemmas on the queue *)
Lemma queue_ok_app q1 q2 P C P1 C1 P2 C2 :
  queue_ok q1 P C P1 C1 → queue_ok q2 P1 C1 P2 C2 → queue_ok (q1 ++ q2) P C P2 C2.
Proof.
  revert P C. induction q1 as [|a q1 IH]; intros P C H1 H2; [by destruct H1 as [<- <-]|].
  destruct a; destruct H1 as [? H1]; (split; [done|by apply IH]).
Qed.

Lemma inits_p_app q1 q2 : inits_p (q1 ++ q2) = inits_p q1 ++ inits_p q2.
Proof. apply omap_app. Qed.
Lemma inits_c_app q1 q2 : inits_c (q1 ++ q2) = inits_c q1 ++ inits_c q2.
Proof. apply omap_app. Qed.

(** What the broker owns is registered or waits in the queue. *)
Lemma live_p_registered w p : p ∈ producers (me w) → p ∈ live_p w.
Proof. unfold live_p. set_solver. Qed.
Lemma live_p_queued w p : p ∈ inits_p (pending_actions (me w)) → p ∈ live_p w.
Proof. unfold live_p. set_solver. Qed.
Lemma live_c_registered w c : c ∈ consumers (me w) → c ∈ live_c w.
Proof. unfold live_c. set_solver. Qed.
Lemma live_c_queued w c : c ∈ inits_c (pending_actions (me w)) → c ∈ live_c w.
Proof. unfold live_c. set_solver. Qed.

(** What is open in the end is initialised now or later. *)
Lemma queue_ok_open q P C OP OC :
  queue_ok q P C OP OC →
  (∀ p, p ∈ OP → p ∈ P ∨ p ∈ inits_p q) ∧ (∀ c, c ∈ OC → c ∈ C ∨ c ∈ inits_c q).
Proof.
  revert P C. induction q as [|a q IH]; intros P C H.
  - destruct H as [-> ->]. auto.
  - destruct a; destruct H as [? [IHp IHc]%IH];
      (split; [intros p Hp; apply IHp in Hp|intros c Hc; apply IHc in Hc]);
      unfold inits_p, inits_c in *; simpl; set_solver.
Qed.

(** ** Lemmas on the protocol *)
Lemma protocol_snoc c i tr d :
  protocol c i (tr ++ [d]) = protocol_step c i (protocol c i tr) d.
Proof. unfold protocol. by rewrite foldl_app. Qed.

Lemma protocol_snoc_other c i tr d :
  ¬ (d.1 = c ∧ stream_id d.2 = i) → protocol c i (tr ++ [d]) = protocol c i tr.
Proof. intros H. rewrite protocol_snoc. unfold protocol_step. by rewrite decide_False. Qed.

Lemma protocol_snoc_same c i tr m s :
  stream_id m = i → protocol c i tr = Some s →
  protocol c i (tr ++ [(c, m)]) = sub_next s (kind m).
Proof.
  intros Hi Hs. rewrite protocol_snoc, Hs. unfold protocol_step. by rewrite decide_True.
Qed.

Lemma protocol_fresh c i tr :
  (∀ m, (c, m) ∈ tr → stream_id m ≠ i) → protocol c i tr = Some Idle.
Proof.
  induction tr as [|[c' m] tr IH] using rev_ind; intros H; [done|].
  rewrite protocol_snoc_other.
  - apply IH. intros m' Hm'. apply H. set_solver.
  - cbn. intros [-> Hi]. apply (H m); [set_solver|done].
Qed.

(** ** Client code preserves the invariants *)
Lemma winv_fresh w :
  winv w → (next_ptr (heap w) ∉ live_p w) ∧ (next_ptr (heap w) ∉ live_c w).
Proof.
  intros Hw. split; intros Hin.
  - pose proof (wi_fresh_p _ Hw _ (wi_heap_p _ Hw _ Hin)). lia.
  - pose proof (wi_fresh_c _ Hw _ (wi_heap_c _ Hw _ Hin)). lia.
Qed.

Lemma winv_open_live w :
  winv w →
  (∀ p, p ∈ open_producers (client w) → p ∈ live_p w) ∧
  (∀ c, c ∈ open_consumers (client w) → c ∈ live_c w).
Proof.
  intros Hw. destruct (queue_ok_open _ _ _ _ _ (wi_queue _ Hw)) as [Hp Hc].
  unfold live_p, live_c. split; intros x Hx; apply elem_of_app.
  - destruct (Hp x Hx); set_solver.
  - destruct (Hc x Hx); set_solver.
Qed.

End Invariant.

#[export] Hint Resolve live_p_registered live_p_queued live_c_registered live_c_queued : keryx.
#[export] Hint Rewrite @inits_p_app @inits_c_app : keryx_rw.

(** Unfold the components of an explicit world. *)
Ltac world_simpl :=
  unfold live_p, live_c, pobj, cobj, no_wrap in *;
  cbn [heap me client producer_objs consumer_objs next_ptr current_stream_id
       producers consumers pending_actions user open_producers open_consumers trace] in *.

Section Preservation.
Context {T : KeryxTypes}.

Lemma make_producer_winv po co np cid ps cs q u op oc tr t s :
  let w := W po co np cid ps cs q u op oc tr in
  winv w →
  winv (W (<[np := mkProducer (u64 (cid + 1)) t s []]> po) co (S np) (u64 (cid + 1))
          ps cs (q ++ [InitProducer np]) u ({[np]} ∪ op) oc tr).
Proof.
  intros w Hw. pose proof (winv_fresh _ Hw) as [Hfp Hfc].
  pose proof (winv_open_live _ Hw) as [Hop Hoc].
  destruct Hw as [Hq Hnp Hnc Hhp Hhc Hfrp Hfrc Hsub Hun Hmut]. unfold w in *. world_simpl.
  assert (Hnil : inits_c (q ++ [InitProducer np]) = inits_c q)
    by (rewrite inits_c_app; apply app_nil_r).
  constructor; world_simpl; rewrite ?inits_p_app, ?Hnil in *; auto.
  + eapply queue_ok_app; [exact Hq|].
    split; [intros Hin; by apply Hfp, Hop|]. split; [set_solver|done].
  + rewrite app_assoc. apply NoDup_app. split_and!; [done| |apply NoDup_singleton].
    intros x Hx Hx'. set_solver.
  + intros p Hp. rewrite app_assoc in Hp. destruct (decide (p = np)) as [->|].
    * rewrite lookup_insert_eq. by eexists.
    * rewrite lookup_insert_ne by done. apply Hhp. set_solver.
  + intros p Hp. destruct (decide (p = np)) as [->|]; [lia|].
    rewrite lookup_insert_ne in Hp by done. pose proof (Hfrp p Hp). lia.
  + intros c Hc. pose proof (Hfrc c Hc). lia.
  + intros p o c Hp Ho Hc. destruct (decide (p = np)) as [->|].
    * rewrite lookup_insert_eq in Ho. injection Ho as <-. set_solver.
    * rewrite lookup_insert_ne in Ho by done. eapply Hsub; eauto. set_solver.
  + intros p o Hp Ho. destruct (decide (p = np)) as [->|].
    * rewrite lookup_insert_eq in Ho. by injection Ho as <-.
    * rewrite lookup_insert_ne in Ho by done. eapply Hun; eauto. set_solver.
Qed.

Lemma make_consumer_winv po co np cid ps cs q u op oc tr f h :
  let w := W po co np cid ps cs q u op oc tr in
  winv w →
  winv (W po (<[np := mkConsumer f (user_handler h)]> co) (S np) cid
          ps cs (q ++ [InitConsumer np]) u op ({[np]} ∪ oc) tr).
Proof.
  intros w Hw. pose proof (winv_fresh _ Hw) as [Hfp Hfc].
  pose proof (winv_open_live _ Hw) as [Hop Hoc].
  destruct Hw as [Hq Hnp Hnc Hhp Hhc Hfrp Hfrc Hsub Hun Hmut]. unfold w in *. world_simpl.
  assert (Hnil : inits_p (q ++ [InitConsumer np]) = inits_p q)
    by (rewrite inits_p_app; apply app_nil_r).
  constructor; world_simpl; rewrite ?inits_c_app, ?Hnil in *; auto.
  + eapply queue_ok_app; [exact Hq|].
    split; [intros Hin; by apply Hfc, Hoc|]. split; [done|set_solver].
  + rewrite app_assoc. apply NoDup_app. split_and!; [done| |apply NoDup_singleton].
    intros x Hx Hx'. set_solver.
  + intros c Hc. rewrite app_assoc in Hc. destruct (decide (c = np)) as [->|].
    * rewrite lookup_insert_eq. by eexists.
    * rewrite lookup_insert_ne by done. apply Hhc. set_solver.
  + intros p Hp. pose proof (Hfrp p Hp). lia.
  + intros c Hc. destruct (decide (c = np)) as [->|]; [lia|].
    rewrite lookup_insert_ne in Hc by done. pose proof (Hfrc c Hc). lia.
  + intros c o Ho. destruct (decide (c = np)) as [->|].
    * rewrite lookup_insert_eq in Ho. injection Ho as <-. cbn. set_solver.
    * rewrite lookup_insert_ne in Ho by done. rewrite (Hmut c o Ho). set_solver.
Qed.

Lemma client_step_winv w w' : client_step w w' → winv w → winv w'.
Proof.
  intros Hstep Hw. destruct Hstep.
  - by destruct Hw.
  - by apply make_producer_winv.
  - destruct Hw. constructor; world_simpl; autorewrite with keryx_rw; auto.
    eapply queue_ok_app; [done|]. by split.
  - destruct Hw. constructor; world_simpl; autorewrite with keryx_rw; auto.
    eapply queue_ok_app; [done|]. by split.
  - by apply make_consumer_winv.
  - destruct Hw as [Hq Hnp Hnc Hhp Hhc Hfrp Hfrc Hsub Hun Hmut]. world_simpl.
    constructor; world_simpl; autorewrite with keryx_rw; auto.
    + eapply queue_ok_app; [exact Hq|]. by split.
    + intros c' Hc'. apply lookup_insert_is_Some'. auto.
    + intros c' [->|Hc']%lookup_insert_is_Some'; auto.
    + intros c' o' Ho'. destruct (decide (c' = c)) as [->|].
      * rewrite lookup_insert_eq in Ho'. injection Ho' as <-. cbn. set_solver.
      * rewrite lookup_insert_ne in Ho' by done. rewrite (Hmut c' o' Ho'). set_solver.
Qed.

(** Nothing has been delivered yet about a stream or to a consumer whose number
    is beyond the counters. *)
Lemma tinv_unknown w c i :
  tinv w → current_stream_id (heap w) < i ∨ (next_ptr (heap w) ≤ c)%nat →
  protocol c i (trace (client w)) = Some Idle.
Proof.
  intros Ht Hnew. apply protocol_fresh. intros m Hm.
  destruct (ti_fresh _ Ht c m Hm). lia.
Qed.

Lemma client_step_next w w' :
  client_step w w' → (next_ptr (heap w) ≤ next_ptr (heap w'))%nat.
Proof. intros []; cbn; lia. Qed.

(** Steps that touch neither the heap nor the trace. *)
Lemma tinv_frame po co np cid ps cs q u op oc tr q' u' op' oc' :
  inits_p q' = inits_p q → inits_c q' = inits_c q → oc' ⊆ oc →
  tinv (W po co np cid ps cs q u op oc tr) → tinv (W po co np cid ps cs q' u' op' oc' tr).
Proof.
  intros Hp Hc Hoc [H1 H2 H3 H4 H5 H6 H7].
  constructor; world_simpl; rewrite ?Hp, ?Hc in *; auto. eauto.
Qed.

Lemma make_producer_tinv po co np cid ps cs q u op oc tr t s :
  let w := W po co np cid ps cs q u op oc tr in
  winv w → tinv w → Z.of_nat (S np) < 2 ^ 64 →
  tinv (W (<[np := mkProducer (u64 (cid + 1)) t s []]> po) co (S np) (u64 (cid + 1))
          ps cs (q ++ [InitProducer np]) u ({[np]} ∪ op) oc tr).
Proof.
  intros w Hw Ht Hnw. pose proof (winv_fresh _ Hw) as [Hfp Hfc].
  pose proof (λ c i, tinv_unknown w c i Ht) as Hunk.
  destruct Ht as [H1 H2 H3 H4 H5 H6 H7]. unfold w in *. world_simpl.
  assert (Hid : u64 (cid + 1) = cid + 1) by (apply u64_small; lia).
  assert (Hlive : ∀ p, p ∈ ps ++ inits_p (q ++ [InitProducer np]) →
    p = np ∨ p ≠ np ∧ p ∈ ps ++ inits_p q).
  { intros p. rewrite inits_p_app, app_assoc, elem_of_app. simpl.
    destruct (decide (p = np)); set_solver. }
  assert (Hc : inits_c (q ++ [InitProducer np]) = inits_c q)
    by (rewrite inits_c_app; apply app_nil_r).
  constructor; world_simpl; rewrite ?Hid, ?Hc; auto.
  - intros p o c [->|[Hne Hp]]%Hlive Ho Hc' Hop.
    + rewrite lookup_insert_eq in Ho. injection Ho as <-. set_solver.
    + rewrite lookup_insert_ne in Ho by done. eauto.
  - intros p o c [->|[Hne Hp]]%Hlive Ho Hlc Hc'.
    + rewrite lookup_insert_eq in Ho. injection Ho as <-. cbn. apply Hunk. lia.
    + rewrite lookup_insert_ne in Ho by done. eauto.
  - intros c m Hm. destruct (H4 c m Hm). lia.
  - intros p p' o o' Ho Ho' Hii.
    apply lookup_insert_Some in Ho as [[<- <-]|[Hne Ho]], Ho' as [[<- <-]|[Hne' Ho']]; cbn in Hii.
    + done.
    + pose proof (H6 _ _ Ho'). lia.
    + pose proof (H6 _ _ Ho). lia.
    + eauto.
  - intros p o [[<- <-]|[Hne Ho]]%lookup_insert_Some; [done|].
    pose proof (H6 _ _ Ho). lia.
  - lia.
Qed.

Lemma make_consumer_tinv po co np cid ps cs q u op oc tr f h :
  let w := W po co np cid ps cs q u op oc tr in
  winv w → tinv w →
  tinv (W po (<[np := mkConsumer f (user_handler h)]> co) (S np) cid
          ps cs (q ++ [InitConsumer np]) u op ({[np]} ∪ oc) tr).
Proof.
  intros w Hw Ht. pose proof (winv_fresh _ Hw) as [Hfp Hfc].
  pose proof (λ c i, tinv_unknown w c i Ht) as Hunk.
  pose proof (wi_sub _ Hw) as Hsub.
  destruct Ht as [H1 H2 H3 H4 H5 H6 H7]. unfold w in *. world_simpl.
  assert (Hp : inits_p (q ++ [InitConsumer np]) = inits_p q)
    by (rewrite inits_p_app; apply app_nil_r).
  constructor; world_simpl; rewrite ?Hp; auto.
  - intros p o c Hlp Ho Hc Hop. apply H2 with p; auto.
    pose proof (Hsub p o c Hlp Ho Hc). assert (c ≠ np) by set_solver. set_solver.
  - intros p o c Hlp Ho Hlc Hc.
    destruct (decide (c = np)) as [->|Hne]; [apply Hunk; lia|].
    apply H3 with p; auto. rewrite inits_c_app in Hlc. set_solver.
  - intros c m Hm. destruct (H4 c m Hm). lia.
  - lia.
Qed.

Lemma client_step_tinv w w' :
  client_step w w' → winv w → no_wrap w' → tinv w → tinv w'.
Proof.
  intros Hstep Hw Hnw Ht. destruct Hstep.
  - eapply tinv_frame; [..|exact Ht]; done.
  - by apply make_producer_tinv.
  - eapply tinv_frame; [..|exact Ht]; by autorewrite with keryx_rw.
  - eapply tinv_frame; [..|exact Ht]; by autorewrite with keryx_rw.
  - by apply make_consumer_tinv.
  - assert (Ht' : tinv (W po co np cid ps cs (q ++ [DestroyConsumer c]) u op (oc ∖ {[c]}) tr)).
    { eapply tinv_frame; [..|exact Ht]; autorewrite with keryx_rw; set_solver. }
    by destruct Ht'.
Qed.

Lemma client_step_binv w w' : client_step w w' → binv w → binv w'.
Proof.
  intros Hstep [Hw Ht]. split; [by eapply client_step_winv|].
  intros Hnw. eapply client_step_tinv; eauto. apply Ht.
  unfold no_wrap in *. pose proof (client_step_next _ _ Hstep). lia.
Qed.
End Preservation.
