(* ===== verification/BrokerSafety.v ===== *)
(** * Running client code inside the broker

    [safe]: a computation meets no fault but those its caller tolerates, and
    ends in a state with the given property.  [stable]: what client code leaves
    alone, in particular the lists the broker is iterating over when it calls a
    handler.  [ext]: how the trace may grow. *)
From S2P Require Import Prelude BrokerCommon OldBroker BrokerInvariant.
#[local] Open Scope Z_scope.

Section Safe.
Context {T : KeryxTypes}.

Definition safe (E : fault → Prop) {A} (m : M A) (Q : A → World → Prop) (w : World) : Prop :=
  match m w with
  | Ok (w', a) => Q a w'
  | Err f => E f
  end.

(** The only fault the broker's own code may run into. *)
Definition misuse (f : fault) : Prop := f = client_misuse.

Lemma safe_mono E {A} (m : M A) (Q Q' : A → World → Prop) w :
  safe E m Q w → (∀ a w', Q a w' → Q' a w') → safe E m Q' w.
Proof. unfold safe. destruct (m w) as [[w' a]|f]; auto. Qed.

Lemma safe_bind E {A B} (m : M A) (k : A → M B) Q w :
  safe E m (λ a w', safe E (k a) Q w') w → safe E (a ← m; k a) Q w.
Proof. unfold safe, mbind, M_bind. by destruct (m w) as [[w' a]|f]. Qed.

(** A loop, with the elements already visited as the index of its invariant. *)
Lemma safe_for_each E {A} (l : list A) (f : A → M unit) (I : list A → World → Prop) w :
  (∀ done a rest w, l = done ++ a :: rest → I done w →
     safe E (f a) (λ _, I (done ++ [a])) w) →
  I [] w → safe E (for_each l f) (λ _, I l) w.
Proof.
  intros Hstep H0.
  enough (∀ rest done w, l = done ++ rest → I done w →
    safe E (for_each rest f) (λ _, I l) w) as H by by apply (H l []).
  clear w H0. intros rest. induction rest as [|a rest IH]; intros done w Hl HI.
  - rewrite app_nil_r in Hl. by subst done.
  - cbn [for_each]. apply safe_bind. eapply safe_mono; [by eapply Hstep|].
    intros [] w' HI'. apply (IH (done ++ [a])); [|done].
    by rewrite <- app_assoc.
Qed.

(** ** What client code leaves alone *)

(** The lists the broker iterates over, the filters, and the producers outside
    [X] (of those in [X], the identity and the topic). *)
Record kept (X : gset ptr) (w w' : World) : Prop := {
  st_producers : producers (me w') = producers (me w);
  st_consumers : consumers (me w') = consumers (me w);
  st_pending : pending_actions (me w) `prefix_of` pending_actions (me w');
  st_pobj : ∀ p o, pobj w p = Some o →
    ∃ o', pobj w' p = Some o' ∧ p_id o' = p_id o ∧ p_topic o' = p_topic o ∧ (p ∉ X → o' = o);
  st_pnew : ∀ p, is_Some (pobj w' p) → is_Some (pobj w p) ∨ p ∈ inits_p (pending_actions (me w'));
  st_cobj : ∀ c o, cobj w c = Some o →
    ∃ o', cobj w' c = Some o' ∧ c_filter o' = c_filter o;
  st_cnew : ∀ c, is_Some (cobj w' c) → is_Some (cobj w c) ∨ c ∈ inits_c (pending_actions (me w'));
  st_inits : ∀ p, p ∈ inits_p (pending_actions (me w')) →
    p ∈ inits_p (pending_actions (me w)) ∨ (next_ptr (heap w) ≤ p)%nat;
  st_next : (next_ptr (heap w) ≤ next_ptr (heap w'))%nat;
  st_open : ∀ c, c ∈ open_consumers (client w') →
    c ∈ open_consumers (client w) ∨ (next_ptr (heap w) ≤ c)%nat
}.

Definition stable (w w' : World) : Prop :=
  kept ∅ w w' ∧ trace (client w') = trace (client w).

Lemma inits_p_prefix q q' p : q `prefix_of` q' → p ∈ inits_p q → p ∈ inits_p q'.
Proof. intros [k ->]. rewrite inits_p_app. set_solver. Qed.
Lemma inits_c_prefix q q' c : q `prefix_of` q' → c ∈ inits_c q → c ∈ inits_c q'.
Proof. intros [k ->]. rewrite inits_c_app. set_solver. Qed.

#[export] Instance kept_preorder X : PreOrder (kept X).
Proof.
  split.
  - intros w. constructor; eauto 10.
  - intros w1 w2 w3 [] []. constructor; try (by etrans); eauto.
    + intros p o Ho. destruct (st_pobj0 p o Ho) as (o' & Ho' & Ei & Et & Es).
      destruct (st_pobj1 p o' Ho') as (o'' & Ho'' & Ei' & Et' & Es').
      exists o''. split_and!; [done|congruence|congruence|].
      intros Hp. by rewrite (Es' Hp), (Es Hp).
    + intros p [Hp|Hp]%st_pnew1; [|auto].
      destruct (st_pnew0 p Hp); eauto using inits_p_prefix.
    + intros c o Ho. destruct (st_cobj0 c o Ho) as (o' & Ho' & E).
      destruct (st_cobj1 c o' Ho') as (o'' & Ho'' & E'). exists o''. by rewrite E', E.
    + intros c [Hc|Hc]%st_cnew1; [|auto].
      destruct (st_cnew0 c Hc); eauto using inits_c_prefix.
    + intros p [Hp|Hp]%st_inits1; [by apply st_inits0|]. lia.
    + intros c [Hc|Hc]%st_open1; [by apply st_open0|]. lia.
Qed.

Lemma kept_mono X Y w w' : X ⊆ Y → kept X w w' → kept Y w w'.
Proof.
  intros HXY []. constructor; auto. intros p o Ho.
  destruct (st_pobj0 p o Ho) as (o' & ? & ? & ? & Es). exists o'. split_and!; auto.
Qed.

#[export] Instance stable_preorder : PreOrder stable.
Proof.
  split; [by intros w; split|]. intros w1 w2 w3 [H1 E1] [H2 E2].
  split; [by etrans|congruence].
Qed.

Lemma client_step_stable w w' : client_step w w' → winv w → stable w w'.
Proof.
  intros Hstep Hw.
  pose proof (wi_fresh_p _ Hw) as Hfp. pose proof (wi_fresh_c _ Hw) as Hfc.
  destruct Hstep; split; try done; world_simpl; constructor; world_simpl; auto;
    try (by eexists); try (by eauto 10); try lia; try set_solver;
    try (intros ?; rewrite inits_p_app; simpl; rewrite ?app_nil_r; by left).
  - intros p o Ho. exists o. split_and!; auto. rewrite lookup_insert_ne; [done|]. intros ->.
    specialize (Hfp p (mk_is_Some _ _ Ho)). lia.
  - intros p [->|Hp]%lookup_insert_is_Some'; [right|by left].
    rewrite inits_p_app. set_solver.
  - intros p. rewrite inits_p_app. intros [Hp|Hp]%elem_of_app; [by left|right].
    apply list_elem_of_singleton in Hp. lia.
  - intros c o Ho. exists o. split; [|done]. rewrite lookup_insert_ne; [done|]. intros ->.
    specialize (Hfc c (mk_is_Some _ _ Ho)). lia.
  - intros c [->|Hc]%lookup_insert_is_Some'; [right|by left].
    rewrite inits_c_app. set_solver.
  - intros c' o' Ho'. destruct (decide (c' = c)) as [->|Hne].
    + rewrite lookup_insert_eq. eexists. split; [done|]. cbn. congruence.
    + rewrite lookup_insert_ne by done. eauto.
  - intros c' [->|Hc']%lookup_insert_is_Some'; left; [by eexists|done].
Qed.

Lemma client_steps w w' :
  rtc client_step w w' → winv w → winv w' ∧ (binv w → binv w') ∧ stable w w'.
Proof.
  intros Hsteps. induction Hsteps as [w|w1 w2 w3 Hstep _ IH]; intros Hw; [by split_and!|].
  destruct (IH (client_step_winv _ _ Hstep Hw)) as (Hw3 & Hb & Hst).
  split_and!; [done|eauto using client_step_binv|].
  etrans; [by apply client_step_stable|done].
Qed.

(** ** The meaning of a program is a sequence of client steps *)
Lemma run_prog_steps k w :
  winv w → safe misuse (run_prog k) (λ _ w', rtc client_step w w') w.
Proof.
  revert w. induction k as [|f k IH|s t ini k IH|p ev k IH|p k IH|f h _ k IH|c k IH]; intros w Hw.
  - apply rtc_refl.
  - destruct w as [[po co np cid] [ps cs q] [u op oc tr]].
    pose proof (cs_user po co np cid ps cs q u op oc tr (f u)) as Hs.
    eapply safe_mono; [apply (IH (f u)), (client_step_winv _ _ Hs Hw)|].
    intros [] w' H. by eapply rtc_l.
  - destruct w as [[po co np cid] [ps cs q] [u op oc tr]].
    pose proof (cs_make_producer po co np cid ps cs q u op oc tr t (init s ini)) as Hs.
    eapply safe_mono; [apply (IH np), (client_step_winv _ _ Hs Hw)|].
    intros [] w' H. by eapply rtc_l.
  - destruct w as [[po co np cid] [ps cs q] [u op oc tr]].
    unfold safe. cbn [run_prog]. unfold mbind, M_bind, holds_producer at 1. cbn [client open_producers].
    destruct (decide (p ∈ op)) as [Hp|]; [|done].
    pose proof (cs_publish po co np cid ps cs q u op oc tr p ev Hp) as Hs.
    eapply safe_mono; [apply IH, (client_step_winv _ _ Hs Hw)|].
    intros [] w' H. by eapply rtc_l.
  - destruct w as [[po co np cid] [ps cs q] [u op oc tr]].
    unfold safe. cbn [run_prog]. unfold mbind, M_bind, holds_producer at 1. cbn [client open_producers].
    destruct (decide (p ∈ op)) as [Hp|]; [|done].
    pose proof (cs_destroy_producer po co np cid ps cs q u op oc tr p Hp) as Hs.
    eapply safe_mono; [apply IH, (client_step_winv _ _ Hs Hw)|].
    intros [] w' H. by eapply rtc_l.
  - destruct w as [[po co np cid] [ps cs q] [u op oc tr]].
    pose proof (cs_make_consumer po co np cid ps cs q u op oc tr f h) as Hs.
    eapply safe_mono; [apply (IH np), (client_step_winv _ _ Hs Hw)|].
    intros [] w' H. by eapply rtc_l.
  - destruct w as [[po co np cid] [ps cs q] [u op oc tr]].
    unfold safe. cbn [run_prog]. unfold mbind, M_bind, holds_consumer at 1. cbn [client open_consumers].
    destruct (decide (c ∈ oc)) as [Hc|]; [|done].
    destruct (wi_heap_c _ Hw c) as [o Ho]; [by apply (winv_open_live _ Hw)|].
    unfold cobj in Ho. cbn in Ho. unfold destroy_consumer, deref_consumer, mbind, M_bind.
    cbn [heap consumer_objs]. rewrite Ho.
    pose proof (cs_destroy_consumer po co np cid ps cs q u op oc tr c o Hc Ho) as Hs.
    eapply safe_mono; [apply IH, (client_step_winv _ _ Hs Hw)|].
    intros [] w' H. by eapply rtc_l.
Qed.

Lemma run_prog_safe k w :
  binv w → safe misuse (run_prog k) (λ _ w', binv w' ∧ stable w w') w.
Proof.
  intros Hb. eapply safe_mono; [apply run_prog_steps, Hb|].
  intros [] w' H. destruct (client_steps _ _ H (proj1 Hb)) as (_ & Hb' & Hst). auto.
Qed.

(** ** Notifications *)

(** The ghost entry of a notification: only a consumer whose handle the client
    still holds has a handler that receives it. *)
Definition logged (c : ptr) (m : NotificationImpl) (w : World) : World :=
  if decide (c ∈ open_consumers (client w)) then log c m w else w.

Lemma logged_fields c m w :
  heap (logged c m w) = heap w ∧ me (logged c m w) = me w ∧
  open_producers (client (logged c m w)) = open_producers (client w) ∧
  open_consumers (client (logged c m w)) = open_consumers (client w).
Proof. unfold logged. by destruct (decide _). Qed.

Lemma logged_kept X c m w : kept X w (logged c m w).
Proof. unfold logged. destruct (decide _); [|done]. constructor; eauto 10. Qed.

Lemma logged_winv c m w : winv w → winv (logged c m w).
Proof. unfold logged. destruct (decide _); [|done]. intros []. by constructor. Qed.

Lemma call_notify_safe c m w :
  winv w → c ∈ live_c w → binv (logged c m w) →
  safe misuse (call_notify c m) (λ _ w', binv w' ∧ stable (logged c m w) w') w.
Proof.
  intros Hw Hc Hb. destruct (wi_heap_c _ Hw c Hc) as [o Ho].
  pose proof (wi_muted _ Hw c o Ho) as Hmut. unfold cobj in Ho.
  unfold safe, call_notify, deref_consumer, mbind, M_bind. rewrite Ho.
  unfold logged in *. destruct (c_notify o) as [h|] eqn:Hn.
  - rewrite decide_True in *.
    2,3: destruct (decide (c ∈ open_consumers (client w))) as [|Hno]; [done|];
      by rewrite <- Hmut in Hno.
    apply (run_prog_safe (h m) (log c m w) Hb).
  - rewrite decide_False in * by by apply Hmut. by split.
Qed.

(** How deliveries may grow while the broker works. *)
Record ext (w w' : World) : Prop := {
  ex_next : (next_ptr (heap w) ≤ next_ptr (heap w'))%nat;
  ex_open : ∀ c, c ∈ open_consumers (client w') →
    c ∈ open_consumers (client w) ∨ (next_ptr (heap w) ≤ c)%nat;
  ex_trace : ∃ tr, trace (client w') = trace (client w) ++ tr ∧
    ∀ c m, (c, m) ∈ tr → c ∈ open_consumers (client w) ∨ (next_ptr (heap w) ≤ c)%nat
}.

#[export] Instance ext_preorder : PreOrder ext.
Proof.
  split.
  - intros w. constructor; auto. exists []. rewrite app_nil_r. split; [done|set_solver].
  - intros w1 w2 w3 [N1 O1 (tr1 & E1 & T1)] [N2 O2 (tr2 & E2 & T2)]. constructor; [lia| |].
    + intros c [Hc|Hc]%O2; [auto|lia].
    + exists (tr1 ++ tr2). split; [by rewrite E2, E1, app_assoc|].
      intros c m [Hm|Hm]%elem_of_app; [eauto|].
      destruct (T2 c m Hm) as [Hc|Hc]; [auto|lia].
Qed.

Lemma stable_ext w w' : stable w w' → ext w w'.
Proof.
  intros [[] E]. constructor; auto. exists []. rewrite app_nil_r. split; [done|set_solver].
Qed.

Lemma logged_ext c m w : ext w (logged c m w).
Proof.
  unfold logged. destruct (decide _) as [Hc|]; [|done]. constructor; auto.
  exists [(c, m)]. split; [done|]. intros c' m' Hm.
  apply list_elem_of_singleton in Hm. injection Hm as -> ->. auto.
Qed.
End Safe.
