(* ===== verification/BrokerVisit.v ===== *)
(** * The visitor preserves the invariants

    [inv] adds to [binv] what holds between two actions: each initialised
    producer's list of consumers is the list of the initialised consumers whose
    filter it matches, in order of their registration, and no object leaks. *)
From S2P Require Import Prelude BrokerCommon OldBroker BrokerInvariant BrokerSafety.
#[local] Open Scope Z_scope.

Section Visit.
Context {T : KeryxTypes}.

Definition matches (w : World) (t : TopicImpl) (c : ptr) : Prop :=
  match cobj w c with
  | Some o => is_match t (c_filter o) = true
  | None => False
  end.

#[export] Instance matches_dec w t c : Decision (matches w t c).
Proof. unfold matches. destruct (cobj w c); apply _. Defined.

(** The subscribers of a stream with topic [t], by definition of the filters. *)
Definition subscribers (w : World) (t : TopicImpl) (cs : list ptr) : list ptr :=
  filter (matches w t) cs.

Record inv (w : World) : Prop := {
  inv_b : binv w;
  inv_subs : ∀ p o, p ∈ producers (me w) → pobj w p = Some o →
    p_consumers o = subscribers w (p_topic o) (consumers (me w));
  inv_leak_p : ∀ p, is_Some (pobj w p) → p ∈ live_p w;
  inv_leak_c : ∀ c, is_Some (cobj w c) → c ∈ live_c w
}.

(** ** Deliveries and the protocol *)
Lemma logged_trace c m w :
  trace (client (logged c m w)) =
    if decide (c ∈ open_consumers (client w)) then trace (client w) ++ [(c, m)]
    else trace (client w).
Proof. unfold logged. by destruct (decide _). Qed.

(** A delivery of an event changes no protocol state. *)
Lemma protocol_event c m tr :
  kind m = EVENT → protocol c (stream_id m) tr = Some Active →
  ∀ c' i', protocol c' i' (tr ++ [(c, m)]) = protocol c' i' tr.
Proof.
  intros Hk Ha c' i'. destruct (decide (c = c' ∧ stream_id m = i')) as [[<- <-]|Hne].
  - by rewrite (protocol_snoc_same c _ tr m Active), Hk, Ha.
  - by apply protocol_snoc_other.
Qed.

Lemma logged_event_tinv w p o c m :
  tinv w → p ∈ live_p w → pobj w p = Some o → c ∈ p_consumers o → (c < next_ptr (heap w))%nat →
  kind m = EVENT → stream_id m = p_id o → tinv (logged c m w).
Proof.
  intros Ht Hp Ho Hc Hlt Hk Hi. unfold logged. destruct (decide _) as [Hop|]; [|done].
  pose proof (ti_active _ Ht p o c Hp Ho Hc Hop) as Ha. rewrite <- Hi in Ha.
  pose proof (protocol_event c m _ Hk Ha) as Hsame.
  pose proof (ti_id_bound _ Ht p o Ho) as Hb.
  destruct Ht. constructor; unfold log, set_client; world_simpl; auto.
  - intros c' i. rewrite Hsame. auto.
  - intros p' o' c' ????. rewrite Hsame. eauto.
  - intros p' o' c' ????. rewrite Hsame. eauto.
  - intros c' m' [Hm|Hm]%elem_of_app; [auto|].
    apply list_elem_of_singleton in Hm. injection Hm as -> ->. rewrite Hi. lia.
Qed.

(** The notification of the end of a stream that is not live any more. *)
Lemma logged_stop_tinv w c m :
  tinv w → (c < next_ptr (heap w))%nat → stream_id m ≤ current_stream_id (heap w) →
  (∀ p o, p ∈ live_p w → pobj w p = Some o → p_id o ≠ stream_id m) →
  kind m = STOP_PRODUCER →
  (c ∈ open_consumers (client w) →
     protocol c (stream_id m) (trace (client w)) = Some Active) →
  tinv (logged c m w).
Proof.
  intros Ht Hlt Hb Hdead Hk Ha. unfold logged. destruct (decide _) as [Hop|]; [|done].
  specialize (Ha Hop).
  destruct Ht. constructor; unfold log, set_client; world_simpl; auto.
  - intros c' i. destruct (decide (c = c' ∧ stream_id m = i)) as [[<- <-]|Hne].
    + rewrite (protocol_snoc_same c _ _ m Active), Hk by done. by eexists.
    + by rewrite protocol_snoc_other.
  - intros p o c' Hp Ho ??. rewrite protocol_snoc_other; [eauto|]. cbn. intros [_ E].
    by apply (Hdead p o).
  - intros p o c' Hp Ho ??. rewrite protocol_snoc_other; [eauto|]. cbn. intros [_ E].
    by apply (Hdead p o).
  - intros c' m' [Hm|Hm]%elem_of_app; [auto|].
    apply list_elem_of_singleton in Hm. injection Hm as -> ->. lia.
Qed.

(** ** Subscribing *)
Lemma producer_not_uninit w p : winv w → p ∈ producers (me w) → p ∉ inits_p (pending_actions (me w)).
Proof.
  intros Hw Hp Hin. pose proof (wi_nodup_p _ Hw) as Hnd. unfold live_p in Hnd.
  apply NoDup_app in Hnd as (_ & Hd & _). by apply (Hd p).
Qed.

Lemma put_producer_lookup w p o p' :
  pobj (put_producer p o w) p' = if decide (p = p') then Some o else pobj w p'.
Proof. unfold pobj, put_producer, set_heap. cbn. by rewrite lookup_insert. Qed.

Lemma push_winv w p c o :
  winv w → p ∈ producers (me w) → c ∈ consumers (me w) → pobj w p = Some o →
  winv (put_producer p (push_consumer c o) w).
Proof.
  intros Hw Hp Hc Ho. pose proof (producer_not_uninit w p Hw Hp) as Hni.
  destruct Hw. constructor; auto.
  - intros p' Hp'. rewrite put_producer_lookup. destruct (decide _); [by eexists|auto].
  - intros p'. rewrite put_producer_lookup. destruct (decide _) as [<-|]; [|apply wi_fresh_p].
    intros _. by apply wi_fresh_p; eexists.
  - intros p' o' c' Hp'. rewrite put_producer_lookup. destruct (decide _) as [<-|]; [|by apply wi_sub].
    intros [= <-] [Hc'| ->%list_elem_of_singleton]%elem_of_app; [|done].
    eapply wi_sub; eauto.
  - intros p' o' Hp'. rewrite put_producer_lookup. destruct (decide _) as [<-|]; [done|].
    by apply wi_uninit.
Qed.

(** The state after a subscription and its START notification. *)
Definition started (c : ptr) (m : NotificationImpl) (p : ptr) (o : ProducerImpl) (w : World) : World :=
  logged c m (put_producer p (push_consumer c o) w).

Lemma started_pobj c m p o w p' :
  pobj (started c m p o w) p' = if decide (p = p') then Some (push_consumer c o) else pobj w p'.
Proof.
  rewrite <- put_producer_lookup. unfold started, pobj.
  by destruct (logged_fields c m (put_producer p (push_consumer c o) w)) as [-> _].
Qed.

Lemma started_trace c m p o w :
  trace (client (started c m p o w)) =
    if decide (c ∈ open_consumers (client w)) then trace (client w) ++ [(c, m)]
    else trace (client w).
Proof. exact (logged_trace c m (put_producer p (push_consumer c o) w)). Qed.

Lemma started_delivery c m p o w c' m' :
  (c', m') ∈ trace (client (started c m p o w)) →
  (c', m') ∈ trace (client w) ∨ c' = c ∧ m' = m.
Proof.
  rewrite started_trace. destruct (decide _); [|by left].
  intros [|Hm]%elem_of_app; [by left|].
  apply list_elem_of_singleton in Hm. injection Hm as -> ->. by right.
Qed.

(** It concerns this consumer and this stream only. *)
Lemma started_protocol c m p o w p' o' c' :
  tinv w → pobj w p = Some o → stream_id m = p_id o →
  p' ∈ live_p w → pobj w p' = Some o' → p ≠ p' ∨ c ≠ c' →
  protocol c' (p_id o') (trace (client (started c m p o w)))
    = protocol c' (p_id o') (trace (client w)).
Proof.
  intros Ht Ho Hi Hp' Ho' Hne. rewrite started_trace.
  destruct (decide _); [|done]. apply protocol_snoc_other. cbn. intros [-> E].
  destruct Hne as [Hne|]; [|done]. apply Hne, (ti_ids _ Ht p p' o o'); congruence.
Qed.

Lemma start_tinv w p c o m :
  winv w → tinv w → p ∈ producers (me w) → c ∈ consumers (me w) → pobj w p = Some o →
  c ∉ p_consumers o → kind m = START_PRODUCER → stream_id m = p_id o →
  tinv (started c m p o w).
Proof.
  intros Hw Ht Hp Hc Ho Hnew Hk Hi.
  assert (Hlp : p ∈ live_p w) by (auto with keryx).
  assert (Hlc : c ∈ live_c w) by (auto with keryx).
  pose proof (ti_idle _ Ht p o c Hlp Ho Hlc Hnew) as Hidle. rewrite <- Hi in Hidle.
  pose proof (wi_fresh_c _ Hw c (wi_heap_c _ Hw c Hlc)) as Hlt.
  pose proof (started_pobj c m p o w) as Hsame.
  pose proof (λ p' o' c', started_protocol c m p o w p' o' c' Ht Ho Hi) as Hother.
  destruct (logged_fields c m (put_producer p (push_consumer c o) w)) as (Eh & Em & _ & Eo).
  constructor; unfold started, live_p, live_c; rewrite ?Em, ?Eo, ?Eh; fold (started c m p o w).
  - intros c' i. rewrite started_trace. destruct (decide _); [|apply (ti_ok _ Ht)].
    destruct (decide (c = c' ∧ stream_id m = i)) as [[<- <-]|Hne].
    + rewrite (protocol_snoc_same c _ _ m Idle), Hk by done. by eexists.
    + rewrite protocol_snoc_other by done. apply (ti_ok _ Ht).
  - intros p' o' c' Hp'. rewrite Hsame. destruct (decide _) as [<-|Hne].
    + intros [= <-] Hc' Hop. cbn [push_consumer p_id p_consumers] in *.
      destruct (decide (c = c')) as [<-|Hne'].
      * rewrite started_trace, decide_True by done. rewrite <- Hi.
        by rewrite (protocol_snoc_same c _ _ m Idle), Hk.
      * rewrite (Hother p o c') by auto. apply (ti_active _ Ht p o); auto. set_solver.
    + intros Ho' Hc' Hop. rewrite (Hother p' o' c') by auto. by apply (ti_active _ Ht p' o').
  - intros p' o' c' Hp'. rewrite Hsame. destruct (decide _) as [<-|Hne].
    + intros [= <-] Hlc' Hc'. cbn [push_consumer p_id p_consumers] in *.
      rewrite (Hother p o c') by (auto; set_solver). apply (ti_idle _ Ht p o); auto. set_solver.
    + intros Ho' Hlc' Hc'. rewrite (Hother p' o' c') by auto. by apply (ti_idle _ Ht p' o').
  - intros c' m' [H|[-> ->]]%started_delivery; [by apply (ti_fresh _ Ht)|].
    rewrite Hi. split; [by apply (ti_id_bound _ Ht p)|done].
  - intros p1 p2 o1 o2. rewrite !Hsame.
    intros Ho1 Ho2 E. apply (ti_ids _ Ht p1 p2
      (if decide (p = p1) then o else o1) (if decide (p = p2) then o else o2)); auto.
    all: repeat destruct (decide _); subst; simplify_eq; auto.
  - intros p' o'. rewrite Hsame. destruct (decide _) as [<-|]; [|by apply (ti_id_bound _ Ht)].
    intros [= <-]. by apply (ti_id_bound _ Ht p o).
  - apply (ti_counter _ Ht).
Qed.

Lemma put_kept w p o o' :
  pobj w p = Some o → p_id o' = p_id o → p_topic o' = p_topic o →
  kept {[p]} w (put_producer p o' w).
Proof.
  intros Ho Hi Ht. constructor; auto; try (by eauto).
  - intros p' o1 Ho1. rewrite put_producer_lookup. destruct (decide _) as [<-|Hne].
    + rewrite Ho in Ho1. injection Ho1 as <-. exists o'. split_and!; auto. set_solver.
    + exists o1. by split_and!.
  - intros p'. rewrite put_producer_lookup. destruct (decide _) as [<-|]; [|auto].
    rewrite Ho. by left; eexists.
Qed.

Lemma put_ext w p o : ext w (put_producer p o w).
Proof. constructor; auto. exists []. rewrite app_nil_r. split; [done|set_solver]. Qed.

Lemma pobj_deref w p o : pobj w p = Some o → deref_producer p w = Ok (w, o).
Proof. unfold pobj, deref_producer. by intros ->. Qed.
Lemma cobj_deref w c o : cobj w c = Some o → deref_consumer c w = Ok (w, o).
Proof. unfold cobj, deref_consumer. by intros ->. Qed.

(** After a notification: nothing but the trace and the client moved. *)
Lemma call_notify_kept c m w :
  winv w → c ∈ live_c w → binv (logged c m w) →
  safe misuse (call_notify c m)
    (λ _ w', binv w' ∧ kept ∅ w w' ∧ ext w w' ∧
             trace (client w') = trace (client (logged c m w))) w.
Proof.
  intros Hw Hc Hb. eapply safe_mono; [by apply call_notify_safe|].
  intros [] w' (Hb' & Hst). destruct (Hst) as [Hk Htr]. split_and!; auto.
  - etrans; [apply logged_kept|exact Hk].
  - etrans; [apply logged_ext|by apply stable_ext].
Qed.

Lemma maybe_add_safe p c w o oc :
  binv w → p ∈ producers (me w) → c ∈ consumers (me w) →
  pobj w p = Some o → cobj w c = Some oc → c ∉ p_consumers o →
  safe misuse (maybe_add p c)
    (λ _ w', binv w' ∧ kept {[p]} w w' ∧ ext w w' ∧
       ∃ o', pobj w' p = Some o' ∧ p_topic o' = p_topic o ∧
         p_consumers o' = p_consumers o ++ (if is_match (p_topic o) (c_filter oc) then [c] else []))
    w.
Proof.
  intros [Hw Ht] Hp Hc Ho Hoc Hnew. unfold maybe_add.
  apply safe_bind. unfold safe at 1. rewrite (pobj_deref _ _ _ Ho).
  apply safe_bind. unfold safe at 1. rewrite (cobj_deref _ _ _ Hoc).
  destruct (is_match (p_topic o) (c_filter oc)).
  - apply safe_bind. cbn [safe modify]. unfold safe at 1, modify.
    set (w1 := put_producer p (push_consumer c o) w).
    pose proof (push_winv w p c o Hw Hp Hc Ho) as Hw1. fold w1 in Hw1.
    assert (Hlc : c ∈ live_c w1) by (auto with keryx).
    eapply safe_mono; [apply call_notify_kept; [done|done|]|].
    + split; [by apply logged_winv|]. intros Hnw. apply start_tinv; auto. apply Ht.
      unfold no_wrap in *. by destruct (logged_fields c
        (mkNotification START_PRODUCER [] (p_id o) (p_topic o)) w1) as [E _]; rewrite E in Hnw.
    + intros [] w' (Hb' & Hk & He & _). split_and!; auto.
      * transitivity w1; [by apply (put_kept w p o (push_consumer c o))|].
        eapply kept_mono; [|exact Hk]. set_solver.
      * transitivity w1; [apply put_ext|done].
      * destruct (st_pobj _ _ _ Hk p (push_consumer c o)) as (o' & Ho' & _ & _ & Es).
        { unfold w1. rewrite put_producer_lookup. by rewrite decide_True. }
        exists o'. rewrite (Es ltac:(set_solver)) in Ho' |- *. done.
  - split_and!; try done. exists o. by rewrite app_nil_r.
Qed.

(** Reading the registry through a change that keeps the filters. *)
Lemma matches_kept X w w' t c :
  kept X w w' → is_Some (cobj w c) → matches w' t c ↔ matches w t c.
Proof.
  intros Hk [o Ho]. destruct (st_cobj _ _ _ Hk c o Ho) as (o' & Ho' & Ef).
  unfold matches. by rewrite Ho, Ho', Ef.
Qed.

Lemma subscribers_kept X w w' t cs :
  kept X w w' → (∀ c, c ∈ cs → is_Some (cobj w c)) →
  subscribers w' t cs = subscribers w t cs.
Proof.
  intros Hk Hcs. unfold subscribers. apply list_filter_iff_in.
  intros c Hc. apply (matches_kept X); auto.
Qed.

Lemma subscribers_snoc w t cs c oc :
  cobj w c = Some oc →
  subscribers w t (cs ++ [c]) =
    subscribers w t cs ++ (if is_match t (c_filter oc) then [c] else []).
Proof.
  intros Hoc. unfold subscribers. rewrite filter_app. f_equal.
  rewrite filter_cons. unfold matches at 1. destruct (decide _) as [Hm|Hm];
    unfold matches in Hm; rewrite Hoc in Hm; destruct (is_match _ _); done.
Qed.

Lemma kept_leak_p X w w' p :
  kept X w w' → (is_Some (pobj w p) → p ∈ live_p w) → is_Some (pobj w' p) → p ∈ live_p w'.
Proof.
  intros Hk Hp. unfold live_p in *. rewrite (st_producers _ _ _ Hk).
  intros [H|H]%(st_pnew _ _ _ Hk); [|set_solver].
  specialize (Hp H). apply elem_of_app in Hp as [|]; [set_solver|].
  apply elem_of_app. right. eapply inits_p_prefix; [apply Hk|done].
Qed.

Lemma kept_leak_c X w w' c :
  kept X w w' → (is_Some (cobj w c) → c ∈ live_c w) → is_Some (cobj w' c) → c ∈ live_c w'.
Proof.
  intros Hk Hc. unfold live_c in *. rewrite (st_consumers _ _ _ Hk).
  intros [H|H]%(st_cnew _ _ _ Hk); [|set_solver].
  specialize (Hc H). apply elem_of_app in Hc as [|]; [set_solver|].
  apply elem_of_app. right. eapply inits_c_prefix; [apply Hk|done].
Qed.
End Visit.
