(* ===== verification/BrokerActions.v ===== *)
(** * Each action preserves the invariants *)
From S2P Require Import Prelude BrokerCommon OldBroker BrokerInvariant BrokerSafety BrokerVisit.
#[local] Open Scope Z_scope.

Lemma list_to_set_snoc (l : list ptr) x :
  list_to_set (l ++ [x]) = (list_to_set l ∪ {[x]} : gset ptr).
Proof. set_solver. Qed.

Section Actions.
Context {T : KeryxTypes}.

(** The state in which an action is visited: it has left the queue. *)
Definition popped (q : list Action) (w : World) : World :=
  set_me (λ b, mkPImpl (producers b) (consumers b) q) w.

(** Only the registry and the queue change: what has to be checked. *)
Lemma binv_advance w w1 :
  binv w → heap w1 = heap w → client w1 = client w →
  live_p w1 `sublist_of` live_p w → live_c w1 `sublist_of` live_c w →
  consumers (me w) ⊆ consumers (me w1) →
  inits_p (pending_actions (me w1)) ⊆ inits_p (pending_actions (me w)) →
  queue_ok (pending_actions (me w1))
    (list_to_set (producers (me w1))) (list_to_set (consumers (me w1)))
    (open_producers (client w)) (open_consumers (client w)) →
  binv w1.
Proof.
  intros [Hw Ht] Hh Hcl Hlp Hlc Hcs Hin Hq.
  assert (Hpo : ∀ p, pobj w1 p = pobj w p) by (intros; unfold pobj; by rewrite Hh).
  assert (Hco : ∀ c, cobj w1 c = cobj w c) by (intros; unfold cobj; by rewrite Hh).
  assert (Hsp : ∀ p, p ∈ live_p w1 → p ∈ live_p w) by (intros; by eapply elem_of_sublist).
  assert (Hsc : ∀ c, c ∈ live_c w1 → c ∈ live_c w) by (intros; by eapply elem_of_sublist).
  split.
  - destruct Hw. constructor; rewrite ?Hcl, ?Hh; auto.
    + eauto using sublist_NoDup.
    + eauto using sublist_NoDup.
    + intros p Hp. rewrite Hpo. auto.
    + intros c Hc. rewrite Hco. auto.
    + intros p. rewrite Hpo. auto.
    + intros c. rewrite Hco. auto.
    + intros p o c Hp. rewrite Hpo. intros Ho Hc. apply Hcs. eapply wi_sub; eauto.
    + intros p o Hp. rewrite Hpo. eauto.
    + intros c o. rewrite Hco. auto.
  - unfold no_wrap. rewrite Hh. intros Hnw. destruct (Ht Hnw).
    constructor; rewrite ?Hcl, ?Hh; auto.
    + intros p o c Hp. rewrite Hpo. eauto.
    + intros p o c Hp. rewrite Hpo. intros. eapply ti_idle; eauto.
    + intros p p' o o'. rewrite !Hpo. eauto.
    + intros p o. rewrite Hpo. eauto.
Qed.

Lemma ext_from w w1 w2 :
  heap w1 = heap w → client w1 = client w → ext w1 w2 → ext w w2.
Proof. intros Hh Hc []. constructor; by rewrite <- ?Hh, <- ?Hc. Qed.

(** A producer replaced by one with the same identity and consumers. *)
Lemma put_same_binv w p o o' :
  binv w → pobj w p = Some o → p_id o' = p_id o → p_consumers o' = p_consumers o →
  binv (put_producer p o' w).
Proof.
  intros [Hw Ht] Ho Hi Hc.
  assert (Hback : ∀ p1 o1, pobj (put_producer p o' w) p1 = Some o1 →
    ∃ o2, pobj w p1 = Some o2 ∧ p_id o1 = p_id o2 ∧ p_consumers o1 = p_consumers o2).
  { intros p1 o1. rewrite put_producer_lookup. destruct (decide _) as [<-|]; [|by eauto].
    intros [= <-]. by exists o. }
  split.
  - destruct Hw. constructor; auto.
    + intros p1 Hp. rewrite put_producer_lookup. destruct (decide _); [by eexists|auto].
    + intros p1 [o1 (o2 & H2 & _)%Hback]. by apply wi_fresh_p; eexists.
    + intros p1 o1 c Hp (o2 & H2 & _ & ->)%Hback. eauto.
    + intros p1 o1 Hp (o2 & H2 & _ & ->)%Hback. eauto.
  - intros Hnw. destruct (Ht Hnw). constructor; auto.
    + intros p1 o1 c Hp (o2 & H2 & -> & ->)%Hback. eauto.
    + intros p1 o1 c Hp (o2 & H2 & -> & ->)%Hback. eauto.
    + intros p1 p2 o1 o2 (o3 & H3 & -> & _)%Hback (o4 & H4 & -> & _)%Hback. eauto.
    + intros p1 o1 (o2 & H2 & -> & _)%Hback. eauto.
Qed.

Lemma live_p_obj X w w' p o' :
  kept X w w' → is_Some (pobj w p) → p ∉ X → pobj w' p = Some o' → pobj w p = Some o'.
Proof.
  intros Hk [o Ho] Hp Ho'. destruct (st_pobj _ _ _ Hk p o Ho) as (o2 & H2 & _ & _ & Es).
  rewrite Ho' in H2. injection H2 as <-. by rewrite (Es Hp).
Qed.

(** The subscriptions an action left alone are still right afterwards. *)
Lemma subs_kept X w w' p o' :
  winv w → kept X w w' → consumers (me w') = consumers (me w) →
  (∀ o, pobj w p = Some o → p_consumers o = subscribers w (p_topic o) (consumers (me w))) →
  is_Some (pobj w p) → p ∉ X → pobj w' p = Some o' →
  p_consumers o' = subscribers w' (p_topic o') (consumers (me w')).
Proof.
  intros Hw Hk Hcs Hsub Hp HX Ho'.
  rewrite Hcs, (subscribers_kept X w) by (auto; intros c Hc; apply (wi_heap_c _ Hw); auto with keryx).
  apply Hsub. by eapply live_p_obj.
Qed.

(** ** InitProducer *)
Lemma init_producer_start p q w :
  inv w → pending_actions (me w) = InitProducer p :: q →
  let w1 := set_producers (λ l, l ++ [p]) (popped q w) in
  binv w1 ∧ (∃ o, pobj w1 p = Some o ∧ p_consumers o = []) ∧ p ∉ producers (me w).
Proof.
  intros Hi Hq w1. destruct (inv_b _ Hi) as [Hw Ht].
  pose proof (wi_queue _ Hw) as Hqok. rewrite Hq in Hqok. destruct Hqok as [Hnew Hqok].
  assert (Hin : p ∈ inits_p (pending_actions (me w))) by (rewrite Hq; by left).
  split_and!.
  - apply (binv_advance w); [by split|done|done|..]; unfold live_p, live_c; rewrite ?Hq; cbn.
    + by rewrite <- app_assoc.
    + done.
    + done.
    + set_solver.
    + by rewrite list_to_set_snoc.
  - destruct (wi_heap_p _ Hw p) as [o Ho]; [auto with keryx|].
    exists o. split; [done|]. by apply (wi_uninit _ Hw p).
  - set_solver.
Qed.

Lemma registered_obj w c : winv w → c ∈ consumers (me w) → is_Some (cobj w c).
Proof. intros Hw Hc. apply (wi_heap_c _ Hw). auto with keryx. Qed.

Lemma nodup_consumers w : winv w → NoDup (consumers (me w)).
Proof. intros Hw. pose proof (wi_nodup_c _ Hw) as (? & _)%NoDup_app. done. Qed.

Lemma nodup_producers w : winv w → NoDup (producers (me w)).
Proof. intros Hw. pose proof (wi_nodup_p _ Hw) as (? & _)%NoDup_app. done. Qed.

(** In a list without duplicates the element in the middle is at no other place. *)
Lemma nodup_middle (l k : list ptr) x : NoDup (l ++ x :: k) → (x ∉ l) ∧ (x ∉ k).
Proof.
  intros (_ & Hd & Hn)%NoDup_app. apply NoDup_cons in Hn as [Hn _].
  split; [|done]. intros Hx. apply (Hd x Hx). by left.
Qed.

Lemma producer_init_loop p o w1 :
  binv w1 → p ∈ producers (me w1) → pobj w1 p = Some o → p_consumers o = [] →
  safe misuse (producer_init p (consumers (me w1))) (λ _ w', binv w' ∧ kept {[p]} w1 w' ∧
    ext w1 w' ∧ ∃ o', pobj w' p = Some o' ∧ p_topic o' = p_topic o ∧
      p_consumers o' = subscribers w1 (p_topic o) (consumers (me w1))) w1.
Proof.
  intros Hb1 Hp Ho Hnil.
  apply (safe_for_each _ _ _ (λ done w', binv w' ∧ kept {[p]} w1 w' ∧
    ext w1 w' ∧ ∃ o', pobj w' p = Some o' ∧ p_topic o' = p_topic o ∧
      p_consumers o' = subscribers w1 (p_topic o) done)).
  - intros cs1 c cs2 w2 Hcs (Hb2 & Hk & He & o' & Ho' & Htop & Hsub).
    pose proof (nodup_consumers _ (proj1 Hb1)) as Hnd. rewrite Hcs in Hnd.
    apply nodup_middle in Hnd as [Hnew _].
    assert (Hc : c ∈ consumers (me w1)) by (rewrite Hcs; set_solver).
    destruct (registered_obj _ c (proj1 Hb1) Hc) as [oc Hoc].
    destruct (st_cobj _ _ _ Hk c oc Hoc) as (oc' & Hoc' & Ef).
    eapply safe_mono; [apply (maybe_add_safe p c w2 o' oc'); auto|].
    + by rewrite (st_producers _ _ _ Hk).
    + by rewrite (st_consumers _ _ _ Hk).
    + rewrite Hsub. unfold subscribers. rewrite list_elem_of_filter. tauto.
    + intros [] w3 (Hb3 & Hk3 & He3 & o3 & Ho3 & Htop3 & Hsub3).
      split_and!; [done|by etrans|by etrans|]. exists o3. split_and!; [done|congruence|].
      by rewrite Hsub3, Hsub, Htop, Ef, (subscribers_snoc w1 _ cs1 c oc Hoc).
  - split_and!; try done. exists o. by split_and!.
Qed.

Lemma visit_init_producer nd p q w :
  inv w → pending_actions (me w) = InitProducer p :: q →
  safe misuse (visit nd (InitProducer p)) (λ _ w', inv w' ∧ ext w w') (popped q w).
Proof.
  intros Hi Hq. destruct (init_producer_start p q w Hi Hq) as (Hb1 & (o & Ho & Hnil) & Hnew).
  pose proof (inv_b _ Hi) as [Hw _].
  set (w1 := set_producers (λ l, l ++ [p]) (popped q w)) in *. cbn [visit].
  apply safe_bind. unfold safe at 1, modify. fold w1.
  apply safe_bind. unfold safe at 1, gets.
  eapply safe_mono; [apply (producer_init_loop p o w1); auto; cbn; set_solver|].
  intros [] w2 (Hb2 & Hk & He & o' & Ho' & Htop & Hsub).
  split; [|by apply (ext_from w w1)].
  constructor; [done| |intros p1; apply (kept_leak_p _ _ _ _ Hk)|intros c; apply (kept_leak_c _ _ _ _ Hk)].
  2:{ intros Hp1. pose proof (inv_leak_p _ Hi p1 Hp1) as H.
    unfold live_p in *. rewrite Hq in H. cbn in *. set_solver. }
  2:{ intros Hc. pose proof (inv_leak_c _ Hi c Hc) as H. unfold live_c in *. by rewrite Hq in H. }
  intros p1 o1 Hp1 Ho1.
  rewrite (st_producers _ _ _ Hk) in Hp1. cbn in Hp1.
  apply elem_of_app in Hp1 as [Hp1|Hp1].
  - apply (subs_kept {[p]} w1 w2 p1); auto; [apply Hb1|apply Hk| | |set_solver].
    + intros o2 Ho2. exact (inv_subs _ Hi p1 o2 Hp1 Ho2).
    + apply (wi_heap_p _ Hw p1). auto with keryx.
  - apply list_elem_of_singleton in Hp1 as ->. rewrite Ho' in Ho1. injection Ho1 as <-.
    rewrite (st_consumers _ _ _ Hk), (subscribers_kept {[p]} w1), Htop; auto.
    intros c Hc. by apply registered_obj; [apply Hb1|].
Qed.

(** ** InitConsumer *)
Lemma init_consumer_start c q w :
  inv w → pending_actions (me w) = InitConsumer c :: q →
  let w1 := set_consumers (λ l, l ++ [c]) (popped q w) in
  binv w1 ∧ is_Some (cobj w1 c) ∧ c ∉ consumers (me w).
Proof.
  intros Hi Hq w1. destruct (inv_b _ Hi) as [Hw Ht].
  pose proof (wi_queue _ Hw) as Hqok. rewrite Hq in Hqok. destruct Hqok as [Hnew Hqok].
  split_and!.
  - apply (binv_advance w); [by split|done|done|..]; unfold live_p, live_c; rewrite ?Hq; cbn.
    + done.
    + by rewrite <- app_assoc.
    + set_solver.
    + done.
    + by rewrite list_to_set_snoc.
  - apply (wi_heap_c _ Hw c). unfold live_c. rewrite Hq. cbn. set_solver.
  - set_solver.
Qed.

Lemma init_consumer_loop c oc cs w1 :
  binv w1 → consumers (me w1) = cs ++ [c] → cobj w1 c = Some oc →
  (∀ p o, p ∈ producers (me w1) → pobj w1 p = Some o →
     p_consumers o = subscribers w1 (p_topic o) cs) →
  safe misuse (for_each (producers (me w1)) (λ p, maybe_add p c))
    (λ _ w', binv w' ∧ kept (list_to_set (producers (me w1))) w1 w' ∧ ext w1 w' ∧
       ∀ p o', p ∈ producers (me w1) → pobj w' p = Some o' →
         p_consumers o' = subscribers w1 (p_topic o') (cs ++ [c])) w1.
Proof.
  intros Hb1 Hcs Hoc Hsubs.
  apply (safe_for_each _ _ _ (λ done w', binv w' ∧ kept (list_to_set done) w1 w' ∧
    ext w1 w' ∧ ∀ p o', p ∈ done → pobj w' p = Some o' →
      p_consumers o' = subscribers w1 (p_topic o') (cs ++ [c]))).
  2:{ split_and!; try done. intros p o' Hp. by apply not_elem_of_nil in Hp. }
  intros ps1 p ps2 w2 Hps (Hb2 & Hk & He & Hdone).
  pose proof (nodup_producers _ (proj1 Hb1)) as Hnd. rewrite Hps in Hnd.
  apply nodup_middle in Hnd as [Hnew _].
  assert (Hp : p ∈ producers (me w1)) by (rewrite Hps; set_solver).
  destruct (wi_heap_p _ (proj1 Hb1) p) as [o Ho]; [auto with keryx|].
  destruct (st_pobj _ _ _ Hk p o Ho) as (o2 & Ho2 & _ & _ & Es).
  rewrite Es in Ho2 by set_solver.
  destruct (st_cobj _ _ _ Hk c oc Hoc) as (oc' & Hoc' & Ef).
  pose proof (nodup_consumers _ (proj1 Hb1)) as Hndc. rewrite Hcs in Hndc.
  apply nodup_middle in Hndc as [Hnewc _].
  eapply safe_mono; [apply (maybe_add_safe p c w2 o oc'); auto|].
  - by rewrite (st_producers _ _ _ Hk).
  - rewrite (st_consumers _ _ _ Hk), Hcs. set_solver.
  - rewrite (Hsubs p o Hp Ho). unfold subscribers. rewrite list_elem_of_filter. tauto.
  - intros [] w3 (Hb3 & Hk3 & He3 & o3 & Ho3 & Htop3 & Hsub3).
    rewrite list_to_set_snoc. split_and!; [done| |by etrans|].
    { etrans; eapply kept_mono; [|exact Hk| |exact Hk3]; set_solver. }
    intros p' o' [Hp'|Hp']%elem_of_app Ho'.
    + apply (Hdone p' o' Hp'). apply (live_p_obj {[p]} w2 w3); auto; [|set_solver].
      apply (wi_heap_p _ (proj1 Hb2)). unfold live_p.
      rewrite (st_producers _ _ _ Hk), Hps. set_solver.
    + apply list_elem_of_singleton in Hp' as ->. rewrite Ho3 in Ho'. injection Ho' as <-.
      by rewrite Hsub3, (Hsubs p o Hp Ho), Htop3, Ef, (subscribers_snoc w1 _ cs c oc Hoc).
Qed.

Lemma visit_init_consumer nd c q w :
  inv w → pending_actions (me w) = InitConsumer c :: q →
  safe misuse (visit nd (InitConsumer c)) (λ _ w', inv w' ∧ ext w w') (popped q w).
Proof.
  intros Hi Hq. destruct (init_consumer_start c q w Hi Hq) as (Hb1 & (oc & Hoc) & Hnew).
  set (w1 := set_consumers (λ l, l ++ [c]) (popped q w)) in *. cbn [visit].
  apply safe_bind. unfold safe at 1, modify. fold w1.
  apply safe_bind. unfold safe at 1, gets.
  eapply safe_mono; [apply (init_consumer_loop c oc (consumers (me w)) w1); auto|].
  { exact (inv_subs _ Hi). }
  intros [] w2 (Hb2 & Hk & He & Hsub). split; [|by apply (ext_from w w1)].
  constructor; [done| |intros p; apply (kept_leak_p _ _ _ _ Hk)|intros c'; apply (kept_leak_c _ _ _ _ Hk)].
  2:{ intros Hp. pose proof (inv_leak_p _ Hi p Hp) as H. unfold live_p in *. by rewrite Hq in H. }
  2:{ intros Hc'. pose proof (inv_leak_c _ Hi c' Hc') as H.
    unfold live_c in *. rewrite Hq in H. cbn in *. set_solver. }
  intros p o Hp Ho. rewrite (st_producers _ _ _ Hk) in Hp.
  rewrite (st_consumers _ _ _ Hk).
  rewrite (subscribers_kept _ w1) by (done || intros; by apply registered_obj; [apply Hb1|]).
  by apply Hsub with p.
Qed.

(** ** Publish *)

(** Notifying consumers one after the other; [P] is what the caller maintains
    about the trace. *)
Lemma notify_loop m cs w1 (P : list ptr → World → Prop) :
  binv w1 → (∀ c, c ∈ cs → c ∈ consumers (me w1)) → P [] w1 →
  (∀ done c rest w, cs = done ++ c :: rest → binv w → kept ∅ w1 w → ext w1 w →
     P done w → (no_wrap w → tinv (logged c m w)) ∧
     (∀ w', binv w' → kept ∅ w w' → trace (client w') = trace (client (logged c m w)) →
        P (done ++ [c]) w')) →
  safe misuse (for_each cs (λ c, call_notify c m))
    (λ _ w', binv w' ∧ kept ∅ w1 w' ∧ ext w1 w' ∧ P cs w') w1.
Proof.
  intros Hb1 Hcs HP0 Hstep.
  apply (safe_for_each _ _ _ (λ done w', binv w' ∧ kept ∅ w1 w' ∧ ext w1 w' ∧ P done w')).
  2:{ by split_and!. }
  intros cs1 c cs2 w2 E ([Hw2 Ht2] & Hk & He & HP).
  destruct (Hstep cs1 c cs2 w2 E (conj Hw2 Ht2) Hk He HP) as [Htl Hnext].
  assert (Hc : c ∈ consumers (me w2)).
  { rewrite (st_consumers _ _ _ Hk). apply Hcs. rewrite E. set_solver. }
  eapply safe_mono; [apply call_notify_kept; [done|auto with keryx|]|].
  - split; [by apply logged_winv|]. intros Hnw. apply Htl. unfold no_wrap in *.
    destruct (logged_fields c m w2) as [Eh _]. by rewrite Eh in Hnw.
  - intros [] w3 (Hb3 & Hk3 & He3 & Htr). split_and!; [done|by etrans|by etrans|]. eauto.
Qed.

Lemma popped_binv a q w :
  binv w → pending_actions (me w) = a :: q → init_p_of a = None → init_c_of a = None →
  queue_ok q (list_to_set (producers (me w))) (list_to_set (consumers (me w)))
    (open_producers (client w)) (open_consumers (client w)) →
  binv (popped q w).
Proof.
  intros Hb Hq Hp Hc Hqok.
  assert (Ep : inits_p (a :: q) = inits_p q) by (unfold inits_p; cbn; by rewrite Hp).
  assert (Ec : inits_c (a :: q) = inits_c q) by (unfold inits_c; cbn; by rewrite Hc).
  apply (binv_advance w); auto; unfold live_p, live_c; rewrite Hq, ?Ep, ?Ec; done.
Qed.

(** What [ProducerImpl::publish] does: the event goes to consumers of the list in
    its order, to all that are still wanted in the end, and to the snapshot. *)
Record published (p : ptr) (o : ProducerImpl) (ev : Event) (w w' : World) : Prop := {
  pb_trace : ∃ cs,
    trace (client w') = trace (client w) ++
      ((λ c, (c, mkNotification EVENT [ev] (p_id o) (p_topic o))) <$> cs) ∧
    cs `sublist_of` p_consumers o ∧
    ∀ c, c ∈ p_consumers o → c ∈ open_consumers (client w') → c ∈ cs;
  pb_snapshot : ∃ o', pobj w' p = Some o' ∧
    snapshot_handler o' = add_new_event (snapshot_handler o) ev
}.

(** The consumers reached among those of a list. *)
Definition reached (m : NotificationImpl) (w : World) (done : list ptr) (w' : World) : Prop :=
  ∃ cs, trace (client w') = trace (client w) ++ ((λ c, (c, m)) <$> cs) ∧
    cs `sublist_of` done ∧ ∀ c, c ∈ done → c ∈ open_consumers (client w') → c ∈ cs.

Lemma reached_snoc m w done c w1 w2 :
  reached m w done w1 → (∀ c', c' ∈ done ++ [c] → (c' < next_ptr (heap w1))%nat) →
  kept ∅ w1 w2 → trace (client w2) = trace (client (logged c m w1)) →
  reached m w (done ++ [c]) w2.
Proof.
  intros (cs & Htr & Hsub & Hall) Hlt Hk Ht2. rewrite logged_trace in Ht2.
  assert (Hold : ∀ c', c' ∈ done ++ [c] → c' ∈ open_consumers (client w2) →
    c' ∈ open_consumers (client w1)).
  { intros c' Hc' [|Hge]%(st_open _ _ _ Hk); [done|].
    pose proof (Hlt c' ltac:(set_solver)). lia. }
  destruct (decide _) as [Hop|Hop].
  - exists (cs ++ [c]). rewrite fmap_app, app_assoc, <- Htr. split_and!; [done| |].
    + by apply sublist_app.
    + intros c' [Hc'|Hc']%elem_of_app Ho; [|set_solver].
      apply elem_of_app. left. apply Hall, Hold; set_solver.
  - exists cs. split_and!; [congruence|by apply sublist_inserts_r|].
    intros c' [Hc'|Hc']%elem_of_app Ho; [apply Hall, Hold; set_solver|].
    apply list_elem_of_singleton in Hc' as ->. destruct Hop. apply Hold; set_solver.
Qed.

Lemma publish_loop p o ev w1 :
  binv w1 → p ∈ producers (me w1) → pobj w1 p = Some o →
  let m := mkNotification EVENT [ev] (p_id o) (p_topic o) in
  safe misuse (for_each (p_consumers o) (λ c, call_notify c m))
    (λ _ w', binv w' ∧ kept ∅ w1 w' ∧ ext w1 w' ∧ reached m w1 (p_consumers o) w') w1.
Proof.
  intros Hb1 Hp Ho m. assert (Hlp : p ∈ live_p w1) by (auto with keryx).
  apply (notify_loop m (p_consumers o) w1 (reached m w1)); auto.
  { intros c Hc. exact (wi_sub _ (proj1 Hb1) p o c Hlp Ho Hc). }
  { exists []. rewrite app_nil_r. split_and!; [done|done|set_solver]. }
  intros cs1 c cs2 w2 E Hb2 Hk He HP.
  destruct (st_pobj _ _ _ Hk p o Ho) as (o2 & Ho2 & _ & _ & Es). rewrite Es in Ho2 by set_solver.
  assert (Hlt : ∀ c, c ∈ p_consumers o → (c < next_ptr (heap w2))%nat).
  { intros c' Hc'. apply (wi_fresh_c _ (proj1 Hb2)), registered_obj; [apply Hb2|].
    rewrite (st_consumers _ _ _ Hk). exact (wi_sub _ (proj1 Hb1) p o c' Hlp Ho Hc'). }
  rewrite E in Hlt. split.
  - intros Hnw. apply (logged_event_tinv w2 p o c m); auto.
    + by apply Hb2.
    + unfold live_p. rewrite (st_producers _ _ _ Hk). set_solver.
    + rewrite E. set_solver.
    + apply Hlt. set_solver.
  - intros w' _ Hk' Htr. apply (reached_snoc m w1 cs1 c w2 w'); auto. intros c' Hc'.
    apply Hlt. set_solver.
Qed.

Lemma visit_publish nd p ev q w o :
  inv w → pending_actions (me w) = Publish p ev :: q → pobj w p = Some o →
  safe misuse (visit nd (Publish p ev))
    (λ _ w', inv w' ∧ ext w w' ∧ published p o ev w w') (popped q w).
Proof.
  intros Hi Hq Ho. pose proof (inv_b _ Hi) as Hb. pose proof (wi_queue _ (proj1 Hb)) as Hqok.
  rewrite Hq in Hqok. destruct Hqok as [Hp%elem_of_list_to_set Hqok].
  pose proof (popped_binv _ _ _ Hb Hq eq_refl eq_refl Hqok) as Hb1.
  set (w1 := popped q w) in *.
  cbn [visit]. unfold producer_publish. apply safe_bind. unfold safe at 1.
  rewrite (pobj_deref w1 p o) by done. apply safe_bind.
  eapply safe_mono; [by apply (publish_loop p o ev w1)|].
  intros [] w2 (Hb2 & Hk & He & Hre).
  destruct (st_pobj _ _ _ Hk p o Ho) as (o2 & Ho2 & _ & _ & Es). rewrite Es in Ho2 by set_solver.
  apply safe_bind. unfold safe at 1. rewrite (pobj_deref _ _ _ Ho2). unfold safe, modify.
  set (o3 := mkProducer _ _ _ _). set (w3 := put_producer p o3 w2).
  assert (Hk3 : kept {[p]} w1 w3).
  { etrans; [eapply kept_mono; [|exact Hk]; set_solver|by apply (put_kept w2 p o o3)]. }
  assert (Hp3 : pobj w3 p = Some o3) by (unfold w3; by rewrite put_producer_lookup, decide_True).
  assert (Hsubs : ∀ p' o', p' ∈ producers (me w) → pobj w3 p' = Some o' →
    p_consumers o' = subscribers w3 (p_topic o') (consumers (me w3))).
  { intros p' o' Hp' Ho'. rewrite (st_consumers _ _ _ Hk3), (subscribers_kept {[p]} w1)
      by (done || intros; by apply registered_obj; [apply Hb1|]).
    destruct (decide (p' = p)) as [->|Hne].
    - rewrite Hp3 in Ho'. injection Ho' as <-. exact (inv_subs _ Hi p o Hp Ho).
    - apply (inv_subs _ Hi p' o' Hp'). apply (live_p_obj {[p]} w1 w3); auto; [|set_solver].
      apply (wi_heap_p _ (proj1 Hb1)). auto with keryx. }
  split_and!; [|apply (ext_from w w1); auto; etrans; [exact He|apply put_ext]|].
  2:{ constructor; [exact Hre|]. by exists o3. }
  constructor; [by apply (put_same_binv w2 p o)| |
    intros p'; apply (kept_leak_p _ _ _ _ Hk3)|intros c; apply (kept_leak_c _ _ _ _ Hk3)].
  - intros p' o' Hp'. rewrite (st_producers _ _ _ Hk3) in Hp'. by apply Hsubs.
  - intros Hp'. pose proof (inv_leak_p _ Hi p' Hp') as H. unfold live_p in *. by rewrite Hq in H.
  - intros Hc. pose proof (inv_leak_c _ Hi c Hc) as H. unfold live_c in *. by rewrite Hq in H.
Qed.

Lemma pending_publish_obj p ev q w :
  inv w → pending_actions (me w) = Publish p ev :: q →
  p ∈ producers (me w) ∧ is_Some (pobj w p).
Proof.
  intros Hi Hq. pose proof (wi_queue _ (proj1 (inv_b _ Hi))) as Hqok.
  rewrite Hq in Hqok. destruct Hqok as [Hp%elem_of_list_to_set _]. split; [done|].
  apply (wi_heap_p _ (proj1 (inv_b _ Hi))). auto with keryx.
Qed.
End Actions.
