(* ===== verification/BrokerDestroy.v ===== *)
(** * DestroyProducer and DestroyConsumer preserve the invariants *)
From S2P Require Import Prelude BrokerCommon OldBroker BrokerInvariant BrokerSafety BrokerVisit BrokerActions.
#[local] Open Scope Z_scope.

Section Destroy.
Context {T : KeryxTypes}.

(** ** DestroyProducer *)
Lemma erase_first_elem l (p x : ptr) : NoDup l → x ∈ erase_first p l ↔ x ∈ l ∧ x ≠ p.
Proof.
  induction 1 as [|y l Hy Hl IH]; cbn; [set_solver|].
  destruct (decide (y = p)) as [->|]; [|set_solver].
  split; [intros Hx; split; [by right|by intros ->]|].
  intros [Hx Hne]. by apply elem_of_cons in Hx as [->|Hx].
Qed.

Lemma erase_first_sublist l (p : ptr) : erase_first p l `sublist_of` l.
Proof.
  induction l as [|y l IH]; cbn; [done|]. destruct (decide _).
  - by apply sublist_cons.
  - by apply sublist_skip.
Qed.

Lemma erase_first_set l (p : ptr) :
  NoDup l → list_to_set (erase_first p l) = (list_to_set l ∖ {[p]} : gset ptr).
Proof.
  intros Hl. apply set_eq. intros x.
  rewrite elem_of_difference, !elem_of_list_to_set, erase_first_elem by done. set_solver.
Qed.

Lemma free_producer_lookup w p p' :
  pobj (free_producer p w) p' = if decide (p = p') then None else pobj w p'.
Proof. unfold pobj, free_producer, set_heap. cbn. by rewrite lookup_delete. Qed.

Lemma free_producer_binv w p : binv w → p ∉ live_p w → binv (free_producer p w).
Proof.
  intros [Hw Ht] Hp.
  assert (Hsub : ∀ p' o, pobj (free_producer p w) p' = Some o → pobj w p' = Some o).
  { intros p' o. rewrite free_producer_lookup. by destruct (decide _). }
  split.
  - destruct Hw. constructor; auto.
    + intros p' Hp'. rewrite free_producer_lookup. destruct (decide _) as [->|]; [done|auto].
    + intros p' [o Ho%Hsub]. by apply wi_fresh_p; eexists.
    + intros p' o c Hp' Ho%Hsub. by eapply wi_sub.
    + intros p' o Hp' Ho%Hsub. by eapply wi_uninit.
  - intros Hnw. destruct (Ht Hnw). constructor; auto.
    + intros p' o c Hp' Ho%Hsub. by eapply ti_active.
    + intros p' o c Hp' Ho%Hsub. by eapply ti_idle.
    + intros p1 p2 o1 o2 H1%Hsub H2%Hsub. by eapply ti_ids.
    + intros p' o Ho%Hsub. by eapply ti_id_bound.
Qed.

Lemma destroy_producer_start p q w :
  inv w → pending_actions (me w) = DestroyProducer p :: q →
  let w1 := set_producers (erase_first p) (popped q w) in
  binv w1 ∧ p ∈ producers (me w) ∧ p ∉ live_p w1.
Proof.
  intros Hi Hq w1. pose proof (inv_b _ Hi) as Hb. pose proof (wi_queue _ (proj1 Hb)) as Hqok.
  rewrite Hq in Hqok. destruct Hqok as [Hp%elem_of_list_to_set Hqok].
  pose proof (nodup_producers _ (proj1 Hb)) as Hnd.
  split_and!.
  - apply (binv_advance w); [done|done|done|..]; unfold live_p, live_c; rewrite ?Hq; cbn; try done.
    + apply sublist_app; [apply erase_first_sublist|done].
    + by rewrite erase_first_set.
  - done.
  - unfold live_p. cbn. intros [Hx|Hx]%elem_of_app.
    + apply erase_first_elem in Hx as [_ ?]; done.
    + apply (producer_not_uninit w p (proj1 Hb) Hp). by rewrite Hq.
Qed.

(** The farewell of a producer that has left the registry. *)
Lemma stop_loop p o w1 :
  binv w1 → p ∉ live_p w1 → pobj w1 p = Some o → NoDup (p_consumers o) →
  (∀ c, c ∈ p_consumers o → c ∈ consumers (me w1)) →
  (no_wrap w1 → ∀ c, c ∈ p_consumers o → c ∈ open_consumers (client w1) →
     protocol c (p_id o) (trace (client w1)) = Some Active) →
  safe misuse (for_each (p_consumers o)
      (λ c, call_notify c (mkNotification STOP_PRODUCER [] (p_id o) (p_topic o))))
    (λ _ w', binv w' ∧ kept ∅ w1 w' ∧ ext w1 w') w1.
Proof.
  intros Hb1 Hdead Ho Hnd Hreg Hact. set (m := mkNotification _ _ _ _).
  eapply safe_mono; [apply (notify_loop m (p_consumers o) w1 (λ done w', no_wrap w' →
    ∀ c, c ∈ p_consumers o → c ∉ done → c ∈ open_consumers (client w') →
      protocol c (p_id o) (trace (client w')) = Some Active)); auto|].
  2:{ intros [] w' (? & ? & ? & _). auto. }
  intros cs1 c cs2 w2 E Hb2 Hk He HP.
  rewrite E in Hnd. apply nodup_middle in Hnd as [Hc1 Hc2].
  assert (Hc : c ∈ p_consumers o) by (rewrite E; set_solver).
  assert (Hlive : ∀ c', c' ∈ p_consumers o → (c' < next_ptr (heap w2))%nat).
  { intros c' Hc'. apply (wi_fresh_c _ (proj1 Hb2)), registered_obj; [apply Hb2|].
    rewrite (st_consumers _ _ _ Hk). auto. }
  destruct (st_pobj _ _ _ Hk p o Ho) as (o2 & Ho2 & _ & _ & Es). rewrite Es in Ho2 by set_solver.
  split.
  - intros Hnw. pose proof (proj2 Hb2 Hnw) as Ht. apply logged_stop_tinv; auto.
    + by apply (ti_id_bound _ Ht p o).
    + intros p' o' Hp' Ho' Ei. cbn in Ei. assert (p' = p) as -> by by apply (ti_ids _ Ht p' p o' o).
      apply elem_of_app in Hp' as [Hp'|Hp'].
      * rewrite (st_producers _ _ _ Hk) in Hp'. apply Hdead. auto with keryx.
      * destruct (st_inits _ _ _ Hk p Hp') as [H|H]; [apply Hdead; auto with keryx|].
        pose proof (wi_fresh_p _ (proj1 Hb1) p (mk_is_Some _ _ Ho)). lia.
  - intros w3 Hb3 Hk3 Htr Hnw3 c' Hc' Hnin Hop. rewrite Htr, logged_trace.
    assert (Hne : c ≠ c') by set_solver.
    assert (Hop2 : c' ∈ open_consumers (client w2)).
    { apply (st_open _ _ _ Hk3) in Hop as [|Hge]; [done|]. specialize (Hlive c' Hc'). lia. }
    assert (Hold : protocol c' (p_id o) (trace (client w2)) = Some Active).
    { apply HP; auto; [|set_solver]. unfold no_wrap in *. pose proof (st_next _ _ _ Hk3). lia. }
    destruct (decide _); [|done]. rewrite protocol_snoc_other; [done|]. cbn. tauto.
Qed.

Lemma visit_destroy_producer nd p q w :
  inv w → pending_actions (me w) = DestroyProducer p :: q →
  safe misuse (visit nd (DestroyProducer p)) (λ _ w', inv w' ∧ ext w w') (popped q w).
Proof.
  intros Hi Hq. destruct (destroy_producer_start p q w Hi Hq) as (Hb1 & Hp & Hdead).
  pose proof (inv_b _ Hi) as [Hw Ht].
  assert (Hlp : p ∈ live_p w) by (auto with keryx).
  destruct (wi_heap_p _ Hw p Hlp) as [o Ho].
  cbn [visit]. apply safe_bind. unfold safe at 1, gets. cbn [me popped set_me producers].
  rewrite decide_True by done. apply safe_bind. unfold safe at 1, modify.
  set (w1 := set_producers (erase_first p) (popped q w)) in *.
  unfold delete_producer. apply safe_bind. unfold safe at 1.
  rewrite (pobj_deref w1 p o) by done. apply safe_bind.
  eapply safe_mono; [apply (stop_loop p o w1); auto|].
  - rewrite (inv_subs _ Hi p o Hp Ho). by apply NoDup_filter, nodup_consumers.
  - intros c Hc. exact (wi_sub _ Hw p o c Hlp Ho Hc).
  - intros Hnw c Hc Hop. exact (ti_active _ (Ht Hnw) p o c Hlp Ho Hc Hop).
  - intros [] w2 (Hb2 & Hk & He). unfold safe, modify.
    assert (Hdead2 : p ∉ live_p w2).
    { intros [Hx|Hx]%elem_of_app.
      - rewrite (st_producers _ _ _ Hk) in Hx. apply Hdead. auto with keryx.
      - destruct (st_inits _ _ _ Hk p Hx) as [H|H]; [apply Hdead; auto with keryx|].
        pose proof (wi_fresh_p _ Hw p (mk_is_Some _ _ Ho)). cbn in H. lia. }
    split; [|apply (ext_from w w1); auto; destruct He; by constructor].
    pose proof (nodup_producers _ Hw) as Hnd.
    constructor; [by apply free_producer_binv| | |].
    + intros p' o' Hp'. cbn [me free_producer set_heap] in *. rewrite (st_producers _ _ _ Hk) in Hp'.
      cbn in Hp'. apply erase_first_elem in Hp' as [Hp' Hne]; [|done].
      rewrite free_producer_lookup, decide_False by done. intros Ho'.
      apply (subs_kept ∅ w1 w2 p'); auto; [apply Hb1|apply Hk| | |set_solver].
      * intros o2 Ho2. exact (inv_subs _ Hi p' o2 Hp' Ho2).
      * apply (wi_heap_p _ Hw p'). auto with keryx.
    + intros p'. rewrite free_producer_lookup. destruct (decide _) as [|Hne]; [by intros []|].
      apply (kept_leak_p ∅ w1 w2 p' Hk). intros Hp'.
      pose proof (inv_leak_p _ Hi p' Hp') as H. unfold live_p in *. rewrite Hq in H. cbn in *.
      apply elem_of_app in H as [H|H]; [|set_solver].
      apply elem_of_app. left. by apply erase_first_elem.
    + intros c. apply (kept_leak_c ∅ w1 w2 c Hk). intros Hc.
      pose proof (inv_leak_c _ Hi c Hc) as H. unfold live_c in *. by rewrite Hq in H.
Qed.
(** ** DestroyConsumer *)
Definition unsubscribe (c : ptr) (o : ProducerImpl) : ProducerImpl :=
  mkProducer (p_id o) (p_topic o) (snapshot_handler o) (erase_first c (p_consumers o)).

(** The state after the consumer has been removed everywhere and deleted. *)
Record consumer_gone (c : ptr) (q : list Action) (w w' : World) : Prop := {
  cg_me : me w' = mkPImpl (producers (me w)) (erase_first c (consumers (me w))) q;
  cg_client : client w' = client w;
  cg_next : next_ptr (heap w') = next_ptr (heap w);
  cg_id : current_stream_id (heap w') = current_stream_id (heap w);
  cg_cobj : ∀ c', cobj w' c' = if decide (c = c') then None else cobj w c';
  cg_pobj : ∀ p, pobj w' p = unsubscribe c <$> pobj w p
}.

Lemma erase_first_not_in l (c : ptr) : c ∉ l → erase_first c l = l.
Proof.
  induction l as [|x l IH]; intros Hc; cbn; [done|].
  rewrite decide_False, IH by set_solver. done.
Qed.

Lemma erase_first_keeps l (c x : ptr) : x ∈ l → x ≠ c → x ∈ erase_first c l.
Proof.
  induction l as [|y l IH]; intros Hx Hne; cbn; [done|].
  apply elem_of_cons in Hx as [->|Hx]; destruct (decide _); try done; set_solver.
Qed.

Lemma erase_first_filter (P : ptr → Prop) `{!∀ x, Decision (P x)} l c :
  NoDup l → erase_first c (filter P l) = filter P (erase_first c l).
Proof.
  induction 1 as [|y l Hy Hl IH]; [done|]. rewrite filter_cons. cbn [erase_first].
  destruct (decide (P y)) as [HP|HP], (decide (y = c)) as [->|]; cbn [erase_first].
  - by rewrite decide_True.
  - by rewrite decide_False, filter_cons_True, IH by done.
  - rewrite erase_first_not_in; [done|]. rewrite list_elem_of_filter. tauto.
  - by rewrite IH, filter_cons_False.
Qed.

(** The producers [done] have dropped the consumer, nothing else has changed. *)
Definition unsubscribed (c : ptr) (w1 : World) (done : list ptr) (w' : World) : Prop :=
  me w' = me w1 ∧ client w' = client w1 ∧ next_ptr (heap w') = next_ptr (heap w1) ∧
  current_stream_id (heap w') = current_stream_id (heap w1) ∧
  (∀ c', cobj w' c' = cobj w1 c') ∧
  ∀ p, pobj w' p = if decide (p ∈ done) then unsubscribe c <$> pobj w1 p else pobj w1 p.

Lemma unsubscribe_loop c w1 :
  NoDup (producers (me w1)) → (∀ p, p ∈ producers (me w1) → is_Some (pobj w1 p)) →
  safe misuse (for_each (producers (me w1)) (λ p, maybe_remove p c))
    (λ _, unsubscribed c w1 (producers (me w1))) w1.
Proof.
  intros Hnd Hall. apply (safe_for_each _ _ _ (unsubscribed c w1)); [|by split_and!].
  intros ps1 p ps2 w2 E (Hm & Hcl & Hn & Hi & Hco & Hpo).
  rewrite E in Hnd. apply nodup_middle in Hnd as [Hnew _].
  destruct (Hall p) as [o Ho]; [rewrite E; set_solver|].
  assert (Ho2 : pobj w2 p = Some o) by (by rewrite Hpo, decide_False).
  unfold maybe_remove. apply safe_bind. unfold safe at 1.
  rewrite (pobj_deref _ _ _ Ho2). unfold safe, modify.
  split_and!; auto. intros p'. rewrite put_producer_lookup.
  destruct (decide (p = p')) as [<-|Hne].
  - rewrite decide_True by set_solver. by rewrite Ho.
  - rewrite Hpo. destruct (decide (p' ∈ ps1)).
    + by rewrite decide_True by set_solver.
    + rewrite decide_False; [done|]. set_solver.
Qed.

(** The list of consumers of any producer still allocated is sorted out. *)
Lemma pobj_consumers w p o :
  inv w → pobj w p = Some o →
  p ∈ producers (me w) ∧ p_consumers o = subscribers w (p_topic o) (consumers (me w)) ∨
  p_consumers o = [].
Proof.
  intros Hi Ho. pose proof (inv_leak_p _ Hi p (mk_is_Some _ _ Ho)) as [Hp|Hp]%elem_of_app.
  - left. split; [done|]. by apply (inv_subs _ Hi p).
  - right. by apply (wi_uninit _ (proj1 (inv_b _ Hi)) p).
Qed.

Lemma pobj_nodup w p o : inv w → pobj w p = Some o → NoDup (p_consumers o).
Proof.
  intros Hi Ho. destruct (pobj_consumers w p o Hi Ho) as [[_ ->]| ->]; [|constructor].
  apply NoDup_filter, nodup_consumers, Hi.
Qed.

Lemma gone_live c q w w' :
  inv w → pending_actions (me w) = DestroyConsumer c :: q → consumer_gone c q w w' →
  live_p w' = live_p w ∧ (∀ c', c' ∈ live_c w' ↔ c' ∈ live_c w ∧ c' ≠ c) ∧
  live_c w' `sublist_of` live_c w.
Proof.
  intros Hi Hq Hg. unfold live_p, live_c. rewrite (cg_me _ _ _ _ Hg), Hq. cbn.
  pose proof (wi_nodup_c _ (proj1 (inv_b _ Hi))) as Hnd. unfold live_c in Hnd. rewrite Hq in Hnd.
  cbn in Hnd. apply NoDup_app in Hnd as (Hnd & Hd & _).
  pose proof (wi_queue _ (proj1 (inv_b _ Hi))) as Hqok. rewrite Hq in Hqok.
  destruct Hqok as [Hc%elem_of_list_to_set _].
  split_and!; [done| |by apply sublist_app; [apply erase_first_sublist|]].
  intros c'. rewrite !elem_of_app, erase_first_elem by done. split; [|tauto].
  intros [[? ?]|Hin]; [tauto|]. split; [by right|]. intros ->. by apply (Hd c).
Qed.

Lemma gone_binv c q w w' :
  inv w → pending_actions (me w) = DestroyConsumer c :: q → consumer_gone c q w w' → binv w'.
Proof.
  intros Hi Hq Hg. destruct (gone_live c q w w' Hi Hq Hg) as (Hlp & Hlc & Hls).
  assert (Hback : ∀ p o', pobj w' p = Some o' → ∃ o, pobj w p = Some o ∧ p_id o' = p_id o ∧
    ∀ x, x ∈ p_consumers o' ↔ x ∈ p_consumers o ∧ x ≠ c).
  { intros p o'. rewrite (cg_pobj _ _ _ _ Hg). intros (o & Ho & ->)%fmap_Some.
    exists o. split_and!; [done|done|]. intros x. apply erase_first_elem. by eapply pobj_nodup. }
  assert (Hcb : ∀ c' o, cobj w' c' = Some o → cobj w c' = Some o).
  { intros c' o. rewrite (cg_cobj _ _ _ _ Hg). by destruct (decide _). }
  pose proof (wi_queue _ (proj1 (inv_b _ Hi))) as Hqok. rewrite Hq in Hqok.
  destruct Hqok as [Hc%elem_of_list_to_set Hqok].
  pose proof (nodup_consumers _ (proj1 (inv_b _ Hi))) as Hnc.
  destruct (inv_b _ Hi) as [Hw Ht]. split.
  - constructor; rewrite ?(cg_client _ _ _ _ Hg), ?(cg_next _ _ _ _ Hg), ?Hlp.
    + rewrite (cg_me _ _ _ _ Hg). cbn. rewrite erase_first_set by done. exact Hqok.
    + apply Hw.
    + eapply sublist_NoDup; [apply (wi_nodup_c _ Hw)|exact Hls].
    + intros p Hp. rewrite (cg_pobj _ _ _ _ Hg). destruct (wi_heap_p _ Hw p Hp) as [o ->]. by eexists.
    + intros c' [Hc' Hne]%Hlc. rewrite (cg_cobj _ _ _ _ Hg), decide_False by done. by apply Hw.
    + intros p [o' (o & Ho & _)%Hback]. by apply (wi_fresh_p _ Hw); eexists.
    + intros c' [o Ho%Hcb]. by apply (wi_fresh_c _ Hw); eexists.
    + intros p o' c' Hp (o & Ho & _ & Hx)%Hback [Hc' Hne]%Hx. rewrite (cg_me _ _ _ _ Hg). cbn.
      apply erase_first_keeps; [|done]. by apply (wi_sub _ Hw p o).
    + intros p o'. rewrite (cg_me _ _ _ _ Hg), (cg_pobj _ _ _ _ Hg). cbn.
      intros Hp (o & Ho & ->)%fmap_Some. cbn. rewrite (wi_uninit _ Hw p o); [done|by rewrite Hq|done].
    + intros c' o Ho%Hcb. by apply (wi_muted _ Hw).
  - unfold no_wrap. rewrite (cg_next _ _ _ _ Hg). intros Hnw. specialize (Ht Hnw).
    constructor; rewrite ?(cg_client _ _ _ _ Hg), ?(cg_next _ _ _ _ Hg), ?(cg_id _ _ _ _ Hg), ?Hlp;
      try apply Ht.
    + intros p o' c' Hp (o & Ho & -> & Hx)%Hback [Hc' Hne]%Hx Hop. by apply (ti_active _ Ht p o).
    + intros p o' c' Hp (o & Ho & -> & Hx)%Hback [Hc' Hne]%Hlc Hnin.
      apply (ti_idle _ Ht p o); auto. rewrite Hx in Hnin. tauto.
    + intros p p' o1 o2 (o3 & H3 & -> & _)%Hback (o4 & H4 & -> & _)%Hback. by apply (ti_ids _ Ht).
    + intros p o1 (o & Ho & -> & _)%Hback. by apply (ti_id_bound _ Ht p).
Qed.

Lemma gone_inv c q w w' :
  inv w → pending_actions (me w) = DestroyConsumer c :: q → consumer_gone c q w w' → inv w'.
Proof.
  intros Hi Hq Hg. destruct (gone_live c q w w' Hi Hq Hg) as (Hlp & Hlc & _).
  pose proof (nodup_consumers _ (proj1 (inv_b _ Hi))) as Hnc.
  constructor; [by eapply gone_binv| | |].
  - intros p o'. rewrite (cg_me _ _ _ _ Hg), (cg_pobj _ _ _ _ Hg). cbn.
    intros Hp (o & Ho & ->)%fmap_Some. cbn. rewrite (inv_subs _ Hi p o Hp Ho).
    unfold subscribers. rewrite erase_first_filter by done. apply list_filter_iff_in.
    intros c' [_ Hne]%erase_first_elem; [|done]. unfold matches.
    by rewrite (cg_cobj _ _ _ _ Hg), decide_False.
  - intros p. rewrite (cg_pobj _ _ _ _ Hg), Hlp, fmap_is_Some. apply Hi.
  - intros c'. rewrite (cg_cobj _ _ _ _ Hg), Hlc. destruct (decide _) as [|Hne]; [by intros []|].
    intros Hc'. split; [by apply Hi|done].
Qed.

Lemma visit_destroy_consumer nd c q w :
  inv w → pending_actions (me w) = DestroyConsumer c :: q →
  safe misuse (visit nd (DestroyConsumer c)) (λ _ w', inv w' ∧ ext w w') (popped q w).
Proof.
  intros Hi Hq. pose proof (inv_b _ Hi) as Hb. pose proof (wi_queue _ (proj1 Hb)) as Hqok.
  rewrite Hq in Hqok. destruct Hqok as [Hc%elem_of_list_to_set Hqok].
  set (w1 := popped q w) in *. cbn [visit]. apply safe_bind. unfold safe at 1, gets.
  apply safe_bind. eapply safe_mono; [apply (unsubscribe_loop c w1)|].
  { exact (nodup_producers _ (proj1 Hb)). }
  { intros p Hp. apply (wi_heap_p _ (proj1 Hb) p). auto with keryx. }
  intros [] w2 (Em & Ecl & En & Ei & Eco & Epo).
  assert (Hcs : consumers (me w2) = consumers (me w)) by (by rewrite Em).
  assert (Hlc : c ∈ live_c w) by (auto with keryx).
  destruct (wi_heap_c _ (proj1 Hb) c Hlc) as [oc Hoc].
  apply safe_bind. unfold safe at 1. rewrite Hcs, decide_True by done.
  apply safe_bind. unfold safe at 1, modify. unfold delete_consumer. apply safe_bind.
  unfold safe at 1. rewrite (cobj_deref _ c oc) by (unfold cobj in *; cbn; by rewrite Eco).
  unfold safe, modify. set (w3 := free_consumer c _).
  assert (Hg : consumer_gone c q w w3).
  { constructor; auto.
    - cbn. by rewrite Em.
    - intros c'. unfold cobj, w3, free_consumer, set_heap. cbn. rewrite lookup_delete.
      destruct (decide (c = c')); [done|]. exact (Eco c').
    - intros p. change (pobj w3 p) with (pobj w2 p). rewrite Epo.
      destruct (decide (p ∈ producers (me w1))) as [|Hp]; [done|].
      change (pobj w1 p) with (pobj w p). destruct (pobj w p) as [o|] eqn:Ho; [|done].
      destruct (pobj_consumers w p o Hi Ho) as [[? _]|E]; [done|].
      cbn. unfold unsubscribe. rewrite E. cbn. by destruct o; cbn in *; subst. }
  split; [by eapply gone_inv|]. constructor.
  - by rewrite (cg_next _ _ _ _ Hg).
  - rewrite (cg_client _ _ _ _ Hg). auto.
  - rewrite (cg_client _ _ _ _ Hg). exists []. rewrite app_nil_r. split; [done|set_solver].
Qed.

(** ** Any action *)
Lemma visit_safe nd a q w :
  inv w → pending_actions (me w) = a :: q →
  safe misuse (visit nd a) (λ _ w', inv w' ∧ ext w w') (popped q w).
Proof.
  destruct a as [p|p|p ev|c|c].
  - apply visit_init_producer.
  - apply visit_destroy_producer.
  - intros Hi Hq. destruct (pending_publish_obj p ev q w Hi Hq) as [_ [o Ho]].
    eapply safe_mono; [by apply visit_publish|]. by intros [] w' (? & ? & _).
  - apply visit_init_consumer.
  - apply visit_destroy_consumer.
Qed.
End Destroy.
