(* ===== verification/BrokerRun.v ===== *)
(** * Runs of the broker

    [do_work_safe]: the loop, from [visit_safe].  A program that uses a broker
    is a list of [Call]s: pieces of client code and calls of [do_work]. *)
From S2P Require Import Prelude BrokerCommon OldBroker BrokerInvariant BrokerSafety BrokerVisit BrokerActions BrokerDestroy.
#[local] Open Scope Z_scope.

(** ** Programs *)
Section Run.
Context {T : KeryxTypes}.

Inductive Call :=
  | Code (k : Prog)
  | Work.

Definition run_call (fuel : nat) (nd : bool) (a : Call) : M unit :=
  match a with
  | Code k => run_prog k
  | Work => do_work fuel nd
  end.

Definition run_calls (fuel : nat) (nd : bool) (l : list Call) : M unit :=
  for_each l (run_call fuel nd).

(** States a program can be in between two calls. *)
Definition reachable (nd : bool) (w : World) : Prop :=
  ∃ u fuel l, run_calls fuel nd l (new_world u) = Ok (w, tt).

(** A fault of the client, or a run longer than the fuel. *)
Definition misuse_or_fuel (f : fault) : Prop := f = client_misuse ∨ f = out_of_fuel.

Lemma safe_weaken (E E' : fault → Prop) {A} (m : M A) Q w :
  (∀ f, E f → E' f) → safe E m Q w → safe E' m Q w.
Proof. unfold safe. destruct (m w) as [[w' a]|f]; auto. Qed.

Lemma safe_Ok E {A} (m : M A) Q w w' a : safe E m Q w → m w = Ok (w', a) → Q a w'.
Proof. unfold safe. by intros H E'; rewrite E' in H. Qed.

Lemma safe_Err E {A} (m : M A) Q w f : safe E m Q w → m w = Err f → E f.
Proof. unfold safe. by intros H E'; rewrite E' in H. Qed.

Lemma new_world_inv u : inv (new_world u).
Proof.
  assert (Hp : ∀ p, pobj (new_world u) p = None) by (intros; apply lookup_empty).
  assert (Hc : ∀ c, cobj (new_world u) c = None) by (intros; apply lookup_empty).
  constructor; [split; [constructor|intros _; constructor]|..];
    try (intros *; rewrite ?Hp, ?Hc); try done; try (by intros []);
    first [apply NoDup_nil_2 | by intros ?%not_elem_of_nil | by eexists].
Qed.

Lemma stable_inv w w' : inv w → binv w' → stable w w' → inv w'.
Proof.
  intros Hi Hb [Hk _]. constructor; [done| | |].
  - intros p o. rewrite (st_producers _ _ _ Hk). intros Hp.
    apply (subs_kept ∅ w w' p); [apply Hi|done|apply Hk| | |set_solver].
    { intros o1 Ho1. by apply (inv_subs _ Hi p). }
    apply (wi_heap_p _ (proj1 (inv_b _ Hi))). auto with keryx.
  - intros p. apply (kept_leak_p ∅ w w' p Hk), Hi.
  - intros c. apply (kept_leak_c ∅ w w' c Hk), Hi.
Qed.

Lemma run_prog_inv k w :
  inv w → safe misuse (run_prog k) (λ _ w', inv w' ∧ stable w w') w.
Proof.
  intros Hi. eapply safe_mono; [apply run_prog_safe, Hi|].
  intros [] w' [Hb Hst]. split; [by eapply stable_inv|done].
Qed.

Lemma popped_of w a q : pending_actions (me w) = a :: q → pop_front w = Some (a, popped q w).
Proof. unfold pop_front. by intros ->. Qed.

Lemma do_work_safe fuel nd w :
  inv w →
  safe misuse_or_fuel (do_work fuel nd)
    (λ _ w', inv w' ∧ ext w w' ∧ pending_actions (me w') = []) w.
Proof.
  revert w. induction fuel as [|fuel IH]; intros w Hi; [by right|].
  destruct (pending_actions (me w)) as [|a q] eqn:Hq.
  - unfold safe. cbn [do_work]. unfold pop_front. rewrite Hq. by split_and!.
  - unfold safe. cbn [do_work]. rewrite (popped_of _ _ _ Hq).
    apply safe_bind. apply (safe_weaken misuse); [by left|].
    eapply safe_mono; [by apply visit_safe|]. intros [] w' [Hi' He].
    eapply safe_mono; [by apply IH|]. intros [] w'' (Hi'' & He' & Hn).
    split_and!; [done| |done]. by transitivity w'.
Qed.

(** ** The iterations of [do_work] *)
Definition work_step (nd : bool) (w w' : World) : Prop :=
  ∃ a w1, pop_front w = Some (a, w1) ∧ visit nd a w1 = Ok (w', tt).

Lemma do_work_steps fuel nd : ∀ w w',
  do_work fuel nd w = Ok (w', tt) → rtc (work_step nd) w w' ∧ pending_actions (me w') = [].
Proof.
  induction fuel as [|fuel IH]; intros w w' Hrun; [done|]. cbn [do_work] in Hrun.
  destruct (pop_front w) as [[a w1]|] eqn:Hpop.
  - unfold mbind, M_bind in Hrun. destruct (visit nd a w1) as [[w2 []]|] eqn:Hv; [|done].
    destruct (IH _ _ Hrun) as [Hrtc Hend]. split; [|done]. eapply rtc_l; [by exists a, w1|done].
  - injection Hrun as ->. split; [done|]. unfold pop_front in Hpop.
    by destruct (pending_actions (me w')).
Qed.

Lemma work_step_det nd w w1 w2 : work_step nd w w1 → work_step nd w w2 → w1 = w2.
Proof. intros (a & v & Hp & Hv) (a' & v' & Hp' & Hv'). congruence. Qed.

Lemma work_step_inv nd w w' : work_step nd w w' → inv w → inv w'.
Proof.
  intros (a & w1 & Hpop & Hv) Hi. destruct (pending_actions (me w)) as [|a' q] eqn:Hq;
    [unfold pop_front in Hpop; by rewrite Hq in Hpop|].
  rewrite (popped_of _ _ _ Hq) in Hpop. injection Hpop as <- <-.
  by destruct (safe_Ok _ _ _ _ _ _ (visit_safe nd a' q w Hi Hq) Hv).
Qed.

(** What is on the way to the end of the loop leads to the end. *)
Lemma on_the_way nd w v e :
  rtc (work_step nd) w v → rtc (work_step nd) w e → pending_actions (me e) = [] →
  rtc (work_step nd) v e.
Proof.
  intros Hv He Hend. induction Hv as [|w w1 v Hstep _ IH]; [done|]. apply IH.
  destruct He as [e|w w2 e Hstep' He]; [|by rewrite (work_step_det _ _ _ _ Hstep Hstep')].
  destruct Hstep as (a & w2 & Hpop & _). unfold pop_front in Hpop. by rewrite Hend in Hpop.
Qed.

(** *** Nothing is taken from the queue but by the loop *)
Definition appends {A} (m : M A) : Prop := ∀ w w' a,
  m w = Ok (w', a) → pending_actions (me w) `prefix_of` pending_actions (me w').

Lemma appends_ret {A} (a : A) : appends (mret a).
Proof. by intros w w' a' [= -> _]. Qed.

Lemma appends_bind {A B} (m : M A) (k : A → M B) :
  appends m → (∀ a, appends (k a)) → appends (m ≫= k).
Proof.
  intros Hm Hk w w' b Hrun. unfold mbind, M_bind in Hrun.
  destruct (m w) as [[w1 a]|] eqn:E; [|done]. etrans; [by eapply Hm|by eapply Hk].
Qed.

Lemma appends_modify f :
  (∀ w, pending_actions (me w) `prefix_of` pending_actions (me (f w))) → appends (modify f).
Proof. intros Hf w w' [] [= <-]. apply Hf. Qed.

Lemma appends_pure {A} (m : M A) : (∀ w w' a, m w = Ok (w', a) → w' = w) → appends m.
Proof. intros Hm w w' a Hrun. by rewrite (Hm _ _ _ Hrun). Qed.

Lemma appends_for_each {A} (l : list A) f : (∀ a, appends (f a)) → appends (for_each l f).
Proof. intros Hf. induction l as [|a l IH]; [apply appends_ret|]. by apply appends_bind. Qed.

Create HintDb appending.
#[local] Hint Resolve appends_ret appends_bind appends_for_each : appending.
#[local] Hint Extern 1 (appends (gets _)) => by apply appends_pure; intros ? ? ? [= <-] : appending.
#[local] Hint Extern 1 (appends (fail _)) => by apply appends_pure : appending.
#[local] Hint Extern 1 (appends (modify _)) => by apply appends_modify; intros w : appending.
#[local] Hint Extern 1 (appends (enqueue _)) => apply appends_modify; intros w; by eexists : appending.

Ltac appending :=
  repeat first [solve [eauto with appending] | apply appends_bind; [|intros ?] | case_match].

Lemma deref_producer_appends p : appends (deref_producer p).
Proof.
  apply appends_pure. intros w w' o. unfold deref_producer. destruct (_ !! p); [by intros [= ->]|done].
Qed.

Lemma deref_consumer_appends c : appends (deref_consumer c).
Proof.
  apply appends_pure. intros w w' o. unfold deref_consumer. destruct (_ !! c); [by intros [= ->]|done].
Qed.

Lemma holds_appends p c : appends (holds_producer p) ∧ appends (holds_consumer c).
Proof.
  split; apply appends_pure; intros w w' o; unfold holds_producer, holds_consumer;
    (destruct (decide _); [by intros [= ->]|done]).
Qed.

#[local] Hint Resolve deref_producer_appends deref_consumer_appends : appending.

Lemma run_prog_appends k : appends (run_prog k).
Proof.
  induction k as [|f k IH|s t i k IH|p ev k IH|p k IH|f h _ k IH|c k IH]; cbn [run_prog];
    unfold make_producer, make_consumer, publish, destroy_producer, destroy_consumer;
    try (apply appends_bind; [apply holds_appends|intros _]); appending;
    by intros w w' p [= <- _].
Qed.

Lemma call_notify_appends c m : appends (call_notify c m).
Proof.
  apply appends_bind; [appending|]. intros o. destruct (c_notify o); [|appending].
  apply appends_bind; [appending|]. intros _. apply run_prog_appends.
Qed.
#[local] Hint Resolve call_notify_appends : appending.

Lemma visit_appends nd a : appends (visit nd a).
Proof.
  assert (Hadd : ∀ p c, appends (maybe_add p c)).
  { intros p c. unfold maybe_add. appending. }
  assert (Hrem : ∀ p c, appends (maybe_remove p c)) by (intros; unfold maybe_remove; appending).
  destruct a; cbn [visit]; unfold producer_init, producer_publish, delete_producer, delete_consumer;
    appending.
Qed.

(** Every action in the queue is executed before [do_work] returns, and what was behind it
    is still behind it then. *)
Lemma queued_is_executed nd a e : pending_actions (me e) = [] → ∀ v, rtc (work_step nd) v e →
  ∀ q1 q2, pending_actions (me v) = q1 ++ a :: q2 →
  ∃ w k w', rtc (work_step nd) v w ∧ pending_actions (me w) = a :: q2 ++ k ∧
    visit nd a (popped (q2 ++ k) w) = Ok (w', tt) ∧ rtc (work_step nd) w' e.
Proof.
  intros Hend v Hv. induction Hv as [e|v v1 e Hstep Hrest IH]; intros q1 q2 Hq.
  { rewrite Hend in Hq. by destruct q1. }
  pose proof Hstep as (b & w1 & Hpop & Hvis). destruct q1 as [|b' q1]; simpl in Hq;
    rewrite (popped_of _ _ _ Hq) in Hpop; injection Hpop as <- <-.
  - exists v, [], v1. rewrite app_nil_r. by split_and!.
  - destruct (visit_appends _ _ _ _ _ Hvis) as [k Hk]. cbn in Hk. rewrite <- app_assoc in Hk.
    destruct (IH Hend q1 (q2 ++ k) Hk) as (w & k' & w' & Hw & Hqw & Hvw & He).
    rewrite <- app_assoc in Hqw, Hvw. exists w, (k ++ k'), w'. split_and!; [|done..].
    by eapply rtc_l.
Qed.

Lemma run_call_safe fuel nd a w :
  inv w → safe misuse_or_fuel (run_call fuel nd a) (λ _ w', inv w' ∧ ext w w') w.
Proof.
  intros Hi. destruct a as [k|]; cbn [run_call].
  - apply (safe_weaken misuse); [by left|]. eapply safe_mono; [by apply run_prog_inv|].
    intros [] w' [Hi' Hst]. split; [done|by apply stable_ext].
  - eapply safe_mono; [by apply do_work_safe|]. by intros [] w' (? & ? & _).
Qed.

Lemma run_calls_safe fuel nd l w :
  inv w → safe misuse_or_fuel (run_calls fuel nd l) (λ _ w', inv w' ∧ ext w w') w.
Proof.
  intros Hi. apply (safe_for_each _ _ _ (λ _ w', inv w' ∧ ext w w')); [|done].
  intros _ a _ w' _ [Hi' He]. eapply safe_mono; [by apply run_call_safe|].
  intros [] w'' [Hi'' He']. split; [done|by transitivity w'].
Qed.

Lemma reachable_inv nd w : reachable nd w → inv w.
Proof.
  intros (u & fuel & l & H).
  by apply (safe_Ok _ _ _ _ _ _ (run_calls_safe fuel nd l (new_world u) (new_world_inv u)) H).
Qed.

(** ** The destructor *)

(** Deleting a list of distinct consumers that all exist. *)
Lemma delete_consumers cs w :
  NoDup cs → (∀ c, c ∈ cs → is_Some (cobj w c)) →
  safe (λ _, False) (for_each cs delete_consumer)
    (λ _ w', me w' = me w ∧ client w' = client w ∧ (∀ p, pobj w' p = pobj w p) ∧
       ∀ c, is_Some (cobj w' c) ↔ is_Some (cobj w c) ∧ c ∉ cs) w.
Proof.
  intros Hnd Hall.
  apply (safe_for_each _ _ _ (λ done w', me w' = me w ∧ client w' = client w ∧
    (∀ p, pobj w' p = pobj w p) ∧ ∀ c, is_Some (cobj w' c) ↔ is_Some (cobj w c) ∧ c ∉ done)).
  2:{ split_and!; try done. intros c. set_solver. }
  intros cs1 c cs2 w' E (Hm & Hcl & Hp & Hc).
  rewrite E in Hnd. apply nodup_middle in Hnd as [Hnew _].
  assert (is_Some (cobj w' c)) as [o Ho] by (apply Hc; split; [apply Hall; set_solver|done]).
  unfold delete_consumer. apply safe_bind. unfold safe at 1.
  rewrite (cobj_deref _ _ _ Ho). unfold safe, modify. split_and!; auto.
  intros c'. unfold cobj at 1, free_consumer, set_heap. cbn.
  rewrite lookup_delete_is_Some, (Hc c'). set_solver.
Qed.

(** The queue goes first, with the objects its actions own; nobody is told
    about streams that never started. *)
Definition dropped (w : World) (done : list Action) (w' : World) : Prop :=
  me w' = me w ∧ client w' = client w ∧
  (∀ p, pobj w' p = if decide (p ∈ inits_p done) then None else pobj w p) ∧
  ∀ c, cobj w' c = if decide (c ∈ inits_c done) then None else cobj w c.

Lemma delete_actions w :
  winv w →
  safe (λ _, False) (for_each (pending_actions (me w)) delete_action)
    (λ _, dropped w (pending_actions (me w))) w.
Proof.
  intros Hw. apply (safe_for_each _ _ _ (dropped w)); [|by split_and!].
  intros q1 a q2 w' E (Hm & Hcl & Hp & Hc).
  assert (Hsnoc : init_p_of a = None → init_c_of a = None → dropped w (q1 ++ [a]) w').
  { intros Ea Eb. unfold dropped. rewrite inits_p_app, inits_c_app. unfold inits_p at 2, inits_c at 2.
    cbn. rewrite Ea, Eb. by rewrite !app_nil_r. }
  destruct a as [p|p|p ev|c|c]; cbn [delete_action]; try by apply Hsnoc.
  - destruct (wi_heap_p _ Hw p) as [o Ho].
    { unfold live_p. rewrite E, inits_p_app. set_solver. }
    pose proof (wi_nodup_p _ Hw) as (_ & _ & Hnd)%NoDup_app.
    rewrite E, inits_p_app in Hnd. apply nodup_middle in Hnd as [Hnew _].
    pose proof (Hp p) as Ho'. rewrite decide_False, Ho in Ho' by done.
    unfold delete_producer. apply safe_bind. unfold safe at 1. rewrite (pobj_deref _ _ _ Ho').
    rewrite (wi_uninit _ Hw p o) by (rewrite ?E, ?inits_p_app; set_solver).
    apply safe_bind. unfold safe, for_each, mret, M_ret, modify. split_and!; try done.
    + intros p'. rewrite free_producer_lookup, Hp, inits_p_app.
      repeat destruct (decide _); try done; set_solver.
    + intros c. rewrite inits_c_app. cbn. rewrite app_nil_r. apply Hc.
  - destruct (wi_heap_c _ Hw c) as [o Ho].
    { unfold live_c. rewrite E, inits_c_app. set_solver. }
    pose proof (wi_nodup_c _ Hw) as (_ & _ & Hnd)%NoDup_app.
    rewrite E, inits_c_app in Hnd. apply nodup_middle in Hnd as [Hnew _].
    pose proof (Hc c) as Ho'. rewrite decide_False, Ho in Ho' by done.
    unfold delete_consumer. apply safe_bind. unfold safe at 1. rewrite (cobj_deref _ _ _ Ho').
    unfold safe, modify. split_and!; try done.
    + intros p. rewrite inits_p_app. cbn. rewrite app_nil_r. apply Hp.
    + intros c'. unfold cobj, free_consumer, set_heap. cbn. rewrite lookup_delete.
      change (consumer_objs (heap w') !! c') with (cobj w' c'). rewrite Hc, inits_c_app.
      repeat destruct (decide _); try done; set_solver.
Qed.

(** What is left when [producers] is destroyed: no consumer at all. *)
Record stranded (w w' : World) : Prop := {
  sd_me : me w' = me w;
  sd_client : client w' = client w;
  sd_cobj : ∀ c, cobj w' c = None;
  sd_pobj : ∀ p, pobj w' p = if decide (p ∈ producers (me w)) then pobj w p else None
}.

Lemma destroy_to_producers w :
  inv w →
  safe (λ _, False)
    (_ ← for_each (pending_actions (me w)) delete_action;
     cs ← gets (λ w, consumers (me w)); for_each cs delete_consumer)
    (λ _, stranded w) w.
Proof.
  intros Hi. pose proof (proj1 (inv_b _ Hi)) as Hw. apply safe_bind.
  eapply safe_mono; [by apply delete_actions|]. intros [] w1 (Hm & Hcl & Hp & Hc).
  pose proof (wi_nodup_c _ Hw) as (Hnd & Hd & _)%NoDup_app.
  apply safe_bind. unfold safe at 1, gets. rewrite Hm.
  eapply safe_mono; [apply delete_consumers; [done|]|].
  { intros c Hin. rewrite Hc, decide_False by (intros ?; by apply (Hd c)).
    by apply registered_obj. }
  intros [] w2 (Hm2 & Hcl2 & Hp2 & Hc2). constructor; [congruence|congruence| |].
  - intros c. destruct (cobj w2 c) as [o|] eqn:Ho; [|done].
    destruct (proj1 (Hc2 c) (mk_is_Some _ _ Ho)) as [[o1 Ho1] Hnin].
    rewrite Hc in Ho1. destruct (decide (c ∈ inits_c _)) as [|Hni]; [done|].
    pose proof (inv_leak_c _ Hi c (mk_is_Some _ _ Ho1)) as Hl. unfold live_c in Hl. set_solver.
  - intros p. rewrite Hp2, Hp.
    destruct (decide (p ∈ inits_p _)) as [Hin|Hnin], (decide (p ∈ producers (me w))) as [Hin'|Hnin'];
      try done.
    + by destruct (producer_not_uninit w p Hw).
    + destruct (pobj w p) as [o|] eqn:Ho; [|done].
      pose proof (inv_leak_p _ Hi p (mk_is_Some _ _ Ho)) as Hl. unfold live_p in Hl. set_solver.
Qed.

Definition deaf (w : World) (p : ptr) : Prop :=
  match pobj w p with
  | Some o => p_consumers o = []
  | None => True
  end.

Lemma delete_producer_deaf p w o :
  pobj w p = Some o → p_consumers o = [] → delete_producer p w = Ok (free_producer p w, tt).
Proof.
  intros Ho E. unfold delete_producer, mbind, M_bind. by rewrite (pobj_deref _ _ _ Ho), E.
Qed.

Lemma delete_producer_heard p w o c cs :
  pobj w p = Some o → p_consumers o = c :: cs → cobj w c = None →
  delete_producer p w = Err use_after_free.
Proof.
  intros Ho E Ec. unfold delete_producer, mbind, M_bind. rewrite (pobj_deref _ _ _ Ho), E.
  cbn [for_each]. unfold mbind, M_bind, call_notify, mbind, M_bind, deref_consumer.
  unfold cobj in Ec. by rewrite Ec.
Qed.

(** Without consumers a producer can be deleted if it has nobody to tell. *)
Lemma delete_producers w ps :
  (∀ c, cobj w c = None) → NoDup ps → (∀ p, p ∈ ps → is_Some (pobj w p)) →
  match for_each ps delete_producer w with
  | Ok (w', _) => (∀ p, p ∈ ps → deaf w p) ∧ (∀ p, is_Some (pobj w' p) ↔ is_Some (pobj w p) ∧ p ∉ ps) ∧
      client w' = client w ∧ ∀ c, cobj w' c = None
  | Err f => f = use_after_free ∧ ∃ p, p ∈ ps ∧ ¬ deaf w p
  end.
Proof.
  intros Hc Hnd. revert w Hc. induction Hnd as [|p ps Hnew Hnd IH]; intros w Hc Hall.
  { cbn. split_and!; try done; set_solver. }
  destruct (Hall p) as [o Ho]; [by left|]. cbn [for_each]. unfold mbind, M_bind.
  destruct (p_consumers o) as [|c cs] eqn:Ecs.
  2:{ rewrite (delete_producer_heard p w o c cs) by done. split; [done|].
    exists p. split; [by left|]. unfold deaf. by rewrite Ho, Ecs. }
  rewrite (delete_producer_deaf p w o) by done.
  assert (Hsame : ∀ p', p' ∈ ps → pobj (free_producer p w) p' = pobj w p').
  { intros p' Hp'. rewrite free_producer_lookup, decide_False; [done|]. by intros ->. }
  assert (Hdeaf : ∀ p', p' ∈ ps → deaf (free_producer p w) p' ↔ deaf w p').
  { intros p' Hp'. unfold deaf. by rewrite Hsame. }
  specialize (IH (free_producer p w) Hc).
  destruct (for_each ps delete_producer (free_producer p w)) as [[w' []]|f].
  - destruct IH as (Hd & Hp & Hcl & Hc').
    { intros p' Hp'. rewrite Hsame by done. apply Hall. by right. }
    split_and!; [| |done|done].
    + intros p' [->|Hp']%elem_of_cons; [unfold deaf; by rewrite Ho|]. by apply Hdeaf, Hd.
    + intros p'. rewrite Hp, free_producer_lookup. destruct (decide (p = p')) as [<-|].
      * split; [by intros [[] _]|]. set_solver.
      * set_solver.
  - destruct IH as (-> & p' & Hp' & Hd).
    { intros p' Hp'. rewrite Hsame by done. apply Hall. by right. }
    split; [done|]. exists p'. split; [by right|]. by rewrite <- Hdeaf.
Qed.

(** The outcome of the destructor. *)
Lemma destroy_broker_outcome w :
  inv w →
  match destroy_broker w with
  | Ok (w', _) => (∀ p, p ∈ producers (me w) → deaf w p) ∧
      (∀ p, pobj w' p = None) ∧ (∀ c, cobj w' c = None) ∧ trace (client w') = trace (client w)
  | Err f => f = use_after_free ∧ ∃ p, p ∈ producers (me w) ∧ ¬ deaf w p
  end.
Proof.
  intros Hi. pose proof (proj1 (inv_b _ Hi)) as Hw. pose proof (destroy_to_producers w Hi) as Hs.
  unfold destroy_broker. unfold safe in Hs. unfold mbind, M_bind, gets in *.
  destruct (for_each (pending_actions (me w)) delete_action w) as [[w1 []]|]; [|done].
  destruct (for_each (consumers (me w1)) delete_consumer w1) as [[w2 []]|]; [|done].
  destruct Hs as [Hm Hcl Hc Hp]. rewrite Hm.
  assert (Hdeaf : ∀ p, p ∈ producers (me w) → deaf w2 p ↔ deaf w p).
  { intros p Hin. unfold deaf. by rewrite Hp, decide_True. }
  pose proof (delete_producers w2 (producers (me w)) Hc (nodup_producers _ Hw)) as H.
  destruct (for_each (producers (me w)) delete_producer w2) as [[w3 []]|f].
  - destruct H as (Hd & Hp3 & Hcl3 & Hc3).
    { intros p Hin. rewrite Hp, decide_True by done. apply (wi_heap_p _ Hw). auto with keryx. }
    split_and!; [|intros p|done|congruence].
    + intros p Hin. by apply Hdeaf, Hd.
    + destruct (pobj w3 p) as [o|] eqn:Ho; [|done].
      destruct (proj1 (Hp3 p) (mk_is_Some _ _ Ho)) as [Hs Hnin].
      rewrite Hp, decide_False in Hs by done. by destruct Hs.
  - destruct H as (-> & p & Hin & Hd).
    { intros p Hin. rewrite Hp, decide_True by done. apply (wi_heap_p _ Hw). auto with keryx. }
    split; [done|]. exists p. split; [done|]. by rewrite <- Hdeaf.
Qed.
End Run.
