(* ===== verification/BrokerSpec.v ===== *)
(** * What the broker promises, without its data structures

    [Registry]: the streams and the consumers in order of registration, and the
    notifications delivered; who receives what is computed from the filters.
    [spec_step] executes an action on it.  [do_work_spec]: for handlers that do
    not call the library, [do_work] executes the queued actions on the
    registry one after the other and returns. *)
From S2P Require Import Prelude BrokerCommon OldBroker BrokerInvariant BrokerSafety BrokerVisit BrokerActions BrokerDestroy BrokerRun.
#[local] Open Scope Z_scope.

Section Spec.
Context {T : KeryxTypes}.

(** What is fixed about the objects: streams, filters, and who listens. *)
Record Directory := mkDirectory {
  d_stream : ptr → option (Z * TopicImpl);
  d_filter : ptr → option StreamFilterImpl;
  d_open : gset ptr
}.

Record Registry := mkRegistry {
  r_producers : list ptr;
  r_consumers : list ptr;
  r_trace : list (ptr * NotificationImpl)
}.

Definition wants (D : Directory) (t : TopicImpl) (c : ptr) : bool :=
  match d_filter D c with
  | Some f => is_match t f && bool_decide (c ∈ d_open D)
  | None => false
  end.

(** The notifications about [p] for those of [cs] that want its stream. *)
Definition announce (D : Directory) (k : NotificationKind) (evs : list Event) (p : ptr)
    (cs : list ptr) : list (ptr * NotificationImpl) :=
  match d_stream D p with
  | Some (i, t) => (λ c, (c, mkNotification k evs i t)) <$> filter (λ c, wants D t c = true) cs
  | None => []
  end.

Definition announce_all (D : Directory) (k : NotificationKind) (ps : list ptr) (c : ptr) :=
  ps ≫= λ p, announce D k [] p [c].

Definition spec_step (D : Directory) (r : Registry) (a : Action) : Registry :=
  let '(mkRegistry ps cs tr) := r in
  match a with
  | InitProducer p => mkRegistry (ps ++ [p]) cs (tr ++ announce D START_PRODUCER [] p cs)
  | DestroyProducer p => mkRegistry (erase_first p ps) cs (tr ++ announce D STOP_PRODUCER [] p cs)
  | Publish p ev => mkRegistry ps cs (tr ++ announce D EVENT [ev] p cs)
  | InitConsumer c => mkRegistry ps (cs ++ [c]) (tr ++ announce_all D START_PRODUCER ps c)
  | DestroyConsumer c => mkRegistry ps (erase_first c cs) tr
  end.

Definition spec_run (D : Directory) (q : list Action) (r : Registry) : Registry :=
  foldl (spec_step D) r q.

(** ** Abstraction *)
Definition registry (w : World) : Registry :=
  mkRegistry (producers (me w)) (consumers (me w)) (trace (client w)).

Record describes (D : Directory) (w : World) : Prop := {
  ds_stream : ∀ p o, pobj w p = Some o → d_stream D p = Some (p_id o, p_topic o);
  ds_filter : ∀ c o, cobj w c = Some o → d_filter D c = Some (c_filter o);
  ds_open : d_open D = open_consumers (client w)
}.

Definition directory (w : World) : Directory :=
  mkDirectory (λ p, o ← pobj w p; Some (p_id o, p_topic o))
              (λ c, o ← cobj w c; Some (c_filter o))
              (open_consumers (client w)).

Lemma directory_describes w : describes (directory w) w.
Proof. constructor; cbn; [intros p o ->|intros c o ->|]; done. Qed.

(** ** Handlers that only compute *)
Fixpoint quiet_prog (k : Prog) : Prop :=
  match k with
  | Return => True
  | User f k => ∀ u, quiet_prog (k u)
  | _ => False
  end.

Definition quiet_handler (h : NotificationHandlerImpl) : Prop :=
  match h with
  | user_handler h => ∀ m, quiet_prog (h m)
  | no_handler => True
  end.

Definition quiet (w : World) : Prop :=
  ∀ c o, cobj w c = Some o → quiet_handler (c_notify o).

(** From [w] to [w'] only the objects' lists and states and the state of the
    user have changed, and the notifications [ds] have been delivered. *)
Record calm (ds : list (ptr * NotificationImpl)) (w w' : World) : Prop := {
  cm_me : me w' = me w;
  cm_open : open_consumers (client w') = open_consumers (client w);
  cm_pobj : ∀ p o', pobj w' p = Some o' →
    ∃ o, pobj w p = Some o ∧ p_id o' = p_id o ∧ p_topic o' = p_topic o;
  cm_cobj : ∀ c o, cobj w' c = Some o → cobj w c = Some o;
  cm_trace : trace (client w') = trace (client w) ++ ds
}.

Lemma calm_refl w : calm [] w w.
Proof. constructor; eauto. by rewrite app_nil_r. Qed.

Lemma calm_trans ds ds' w1 w2 w3 : calm ds w1 w2 → calm ds' w2 w3 → calm (ds ++ ds') w1 w3.
Proof.
  intros [] []. constructor; [congruence|congruence| |auto|].
  - intros p o (o2 & H2 & E2 & T2)%cm_pobj1.
    destruct (cm_pobj0 p o2 H2) as (o1 & H1 & E1 & T1). exists o1. split_and!; congruence.
  - by rewrite cm_trace1, cm_trace0, app_assoc.
Qed.

Record ready (D : Directory) (w : World) : Prop := {
  rd_describes : describes D w;
  rd_quiet : quiet w;
  rd_muted : ∀ c o, cobj w c = Some o →
    c_notify o = no_handler ↔ c ∉ open_consumers (client w)
}.

(** Being ready depends on the objects and the handles only. *)
Lemma ready_frame D w w' :
  open_consumers (client w') = open_consumers (client w) →
  (∀ p o', pobj w' p = Some o' →
     ∃ o, pobj w p = Some o ∧ p_id o' = p_id o ∧ p_topic o' = p_topic o) →
  (∀ c o, cobj w' c = Some o → cobj w c = Some o) → ready D w → ready D w'.
Proof.
  intros Ho Hp Hc [[] Hq Hm]. constructor; [constructor| |].
  - intros p o' Ho'. destruct (Hp p o' Ho') as (o & Hpo & -> & ->). auto.
  - auto.
  - congruence.
  - intros c o Hco. by apply (Hq c), Hc.
  - intros c o Hco. rewrite Ho. by apply Hm, Hc.
Qed.

Lemma calm_ready ds D w w' : calm ds w w' → ready D w → ready D w'.
Proof. intros []. by apply ready_frame. Qed.

(** Faults other than misuse are excluded by [visit_safe]. *)
Definition no_misuse (f : fault) : Prop := f ≠ client_misuse.

Definition calmly (D : Directory) (ds : list (ptr * NotificationImpl)) (m : M unit) : Prop :=
  ∀ w, ready D w → safe no_misuse m (λ _ w', calm ds w w') w.

Lemma calmly_ret D : calmly D [] (mret tt).
Proof. intros w _. apply calm_refl. Qed.

Lemma calmly_bind D ds ds' m k :
  calmly D ds m → calmly D ds' (k tt) → calmly D (ds ++ ds') (a ← m; k a).
Proof.
  intros Hm Hk w Hr. apply safe_bind. eapply safe_mono; [by apply Hm|]. intros [] w1 Hc.
  eapply safe_mono; [by eapply Hk, calm_ready|]. intros [] w2 Hc'. by eapply calm_trans.
Qed.

Lemma calmly_for_each D {A} (g : A → list (ptr * NotificationImpl)) l f :
  (∀ a, calmly D (g a) (f a)) → calmly D (l ≫= g) (for_each l f).
Proof.
  intros Hf. induction l as [|a l IH]; [apply calmly_ret|].
  cbn [for_each]. change ((a :: l) ≫= g) with (g a ++ (l ≫= g)). by apply calmly_bind.
Qed.

(** A member access, and a computation on what it returns. *)
Lemma calmly_deref_producer D ds p (k : ProducerImpl → M unit) :
  (∀ w o, ready D w → pobj w p = Some o → safe no_misuse (k o) (λ _ w', calm ds w w') w) →
  calmly D ds (o ← deref_producer p; k o).
Proof.
  intros Hk w Hr. apply safe_bind. unfold safe at 1, deref_producer.
  destruct (producer_objs (heap w) !! p) as [o|] eqn:Ho; [by apply Hk|done].
Qed.

Lemma calmly_deref_consumer D ds c (k : ConsumerImpl → M unit) :
  (∀ w o, ready D w → cobj w c = Some o → safe no_misuse (k o) (λ _ w', calm ds w w') w) →
  calmly D ds (o ← deref_consumer c; k o).
Proof.
  intros Hk w Hr. apply safe_bind. unfold safe at 1, deref_consumer.
  destruct (consumer_objs (heap w) !! c) as [o|] eqn:Ho; [by apply Hk|done].
Qed.

Lemma calmly_run_prog D k : quiet_prog k → calmly D [] (run_prog k).
Proof.
  induction k as [|f k IH| | | | |]; intros Hq; try done; [apply calmly_ret|].
  intros w Hr. cbn [run_prog]. apply safe_bind. unfold safe at 1, gets.
  apply safe_bind. unfold safe at 1, modify. set (w1 := set_user _ w).
  assert (Hc : calm [] w w1) by (constructor; eauto; by rewrite app_nil_r).
  eapply safe_mono; [eapply IH, calm_ready; eauto; apply Hq|].
  intros [] w2 Hc2. exact (calm_trans [] [] _ _ _ Hc Hc2).
Qed.

Definition received (D : Directory) (m : NotificationImpl) (c : ptr) : list (ptr * NotificationImpl) :=
  if decide (c ∈ d_open D) then [(c, m)] else [].

Lemma calmly_notify D c m : calmly D (received D m c) (call_notify c m).
Proof.
  apply calmly_deref_consumer. intros w o Hr Ho. unfold received.
  pose proof (rd_muted _ _ Hr c o Ho) as Hm. rewrite (ds_open _ _ (rd_describes _ _ Hr)).
  destruct (c_notify o) as [h|] eqn:Hh.
  - rewrite decide_True by (destruct (decide (c ∈ open_consumers (client w))) as [|Hn]; [done|];
      by rewrite <- Hm in Hn).
    apply safe_bind. unfold safe at 1, modify. set (w1 := log c m w).
    assert (Hc : calm [(c, m)] w w1) by (constructor; eauto).
    eapply safe_mono; [eapply calmly_run_prog, calm_ready; eauto|].
    { pose proof (rd_quiet _ _ Hr c o Ho) as Hq. rewrite Hh in Hq. apply Hq. }
    intros [] w2 Hc2. exact (calm_trans [(c, m)] [] _ _ _ Hc Hc2).
  - rewrite decide_False by by apply Hm. apply calm_refl.
Qed.

Lemma put_calm w p o o' :
  pobj w p = Some o → p_id o' = p_id o → p_topic o' = p_topic o → calm [] w (put_producer p o' w).
Proof.
  intros Ho Hi Ht. constructor; eauto; [|by rewrite app_nil_r].
  intros p1 o1. rewrite put_producer_lookup. destruct (decide _) as [<-|]; [|by eauto].
  intros [= <-]. eauto.
Qed.

Lemma free_producer_calm w p : calm [] w (free_producer p w).
Proof.
  constructor; eauto; [|by rewrite app_nil_r].
  intros p1 o1. rewrite free_producer_lookup. destruct (decide _); [done|by eauto].
Qed.

Lemma free_consumer_calm w c : calm [] w (free_consumer c w).
Proof.
  constructor; eauto; [|by rewrite app_nil_r].
  intros c1 o1. unfold cobj at 1, free_consumer, set_heap. cbn.
  rewrite lookup_delete. by destruct (decide _).
Qed.

(** ** [announce] and the lists of consumers *)
Lemma announce_one D k evs p c i t :
  d_stream D p = Some (i, t) →
  announce D k evs p [c] = if wants D t c then [(c, mkNotification k evs i t)] else [].
Proof.
  intros Hs. unfold announce. rewrite Hs, filter_cons.
  destruct (decide (wants D t c = true)) as [E|E]; [by rewrite E|].
  by destruct (wants D t c).
Qed.

Lemma announce_app D k evs p cs cs' :
  announce D k evs p (cs ++ cs') = announce D k evs p cs ++ announce D k evs p cs'.
Proof.
  unfold announce. destruct (d_stream D p) as [[i t]|]; [|done]. by rewrite filter_app, fmap_app.
Qed.

Lemma announce_bind D k evs p cs :
  announce D k evs p cs = cs ≫= λ c, announce D k evs p [c].
Proof.
  induction cs as [|c cs IH].
  - unfold announce. by destruct (d_stream D p) as [[i t]|].
  - change (c :: cs) with ([c] ++ cs). rewrite announce_app, bind_app, IH. cbn.
    by rewrite app_nil_r.
Qed.

(** Telling the subscribers one by one is the announcement. *)
Lemma announce_subscribers D w k evs p o cs :
  describes D w → pobj w p = Some o → (∀ c, c ∈ cs → is_Some (cobj w c)) →
  announce D k evs p cs =
    subscribers w (p_topic o) cs ≫= received D (mkNotification k evs (p_id o) (p_topic o)).
Proof.
  intros Hd Ho Hcs. rewrite announce_bind. induction cs as [|c cs IH]; [done|].
  destruct (Hcs c) as [oc Hoc]; [by left|].
  rewrite bind_cons, IH by (intros; apply Hcs; by right).
  rewrite (announce_one _ _ _ _ _ _ _ (ds_stream _ _ Hd p o Ho)).
  unfold wants. rewrite (ds_filter _ _ Hd c oc Hoc). unfold subscribers. rewrite filter_cons.
  unfold matches at 2. destruct (decide _) as [Hm|Hm]; unfold matches in Hm; rewrite Hoc in Hm.
  - rewrite Hm, bind_cons. cbn. unfold received at 2, bool_decide.
    by destruct (decide_rel _ _ _).
  - by destruct (is_match _ _).
Qed.
End Spec.
