(* ===== verification/BrokerRefinement.v ===== *)
(** * [do_work] implements the registry *)
From S2P Require Import Prelude BrokerCommon OldBroker BrokerInvariant BrokerSafety BrokerVisit BrokerActions BrokerDestroy BrokerRun BrokerSpec.
#[local] Open Scope Z_scope.

Lemma bind_nothing {A B} (l : list A) : (l ≫= λ _, []) = ([] : list B).
Proof. by induction l. Qed.

Section Refinement.
Context {T : KeryxTypes}.

Lemma calmly_maybe_add D p c : calmly D (announce D START_PRODUCER [] p [c]) (maybe_add p c).
Proof.
  apply calmly_deref_producer. intros w o Hr Ho.
  apply safe_bind. unfold safe at 1, deref_consumer.
  destruct (consumer_objs (heap w) !! c) as [oc|] eqn:Hoc; [|done].
  pose proof (rd_describes _ _ Hr) as Hd.
  rewrite (announce_one _ _ _ _ _ _ _ (ds_stream _ _ Hd p o Ho)).
  unfold wants. rewrite (ds_filter _ _ Hd c oc Hoc).
  destruct (is_match (p_topic o) (c_filter oc)); [|apply calm_refl].
  apply safe_bind. unfold safe at 1, modify. set (w1 := put_producer p _ w).
  assert (Hc1 : calm [] w w1) by by apply (put_calm w p o (push_consumer c o)).
  pose proof (calm_ready _ _ _ _ Hc1 Hr) as Hr1.
  eapply safe_mono; [by apply (calmly_notify D)|]. intros [] w2 Hc2.
  pose proof (calm_trans _ _ _ _ _ Hc1 Hc2) as Hc. unfold received in Hc. cbn [andb].
  unfold bool_decide. destruct (decide_rel _ _ _) as [Hin|Hin]; destruct (decide _); done.
Qed.

Lemma calmly_maybe_remove D p c : calmly D [] (maybe_remove p c).
Proof. apply calmly_deref_producer. intros w o Hr Ho. unfold safe, modify. by eapply put_calm. Qed.

Lemma calmly_delete_consumer D c : calmly D [] (delete_consumer c).
Proof.
  apply calmly_deref_consumer. intros w o Hr Ho. unfold safe, modify. apply free_consumer_calm.
Qed.

(** Telling the list of a producer about it. *)
Lemma calmly_announce D w k evs p o :
  inv w → describes D w → pobj w p = Some o → p ∈ producers (me w) →
  calmly D (announce D k evs p (consumers (me w)))
    (for_each (p_consumers o) (λ c, call_notify c (mkNotification k evs (p_id o) (p_topic o)))).
Proof.
  intros Hi Hd Ho Hp. rewrite (announce_subscribers D w k evs p o); auto.
  2:{ intros c. apply registered_obj, Hi. }
  rewrite (inv_subs _ Hi p o Hp Ho). apply calmly_for_each. intros c. apply calmly_notify.
Qed.

(** ** One action *)
Definition visited (D : Directory) (w : World) (a : Action) (q : list Action) (w' : World) : Prop :=
  ready D w' ∧ pending_actions (me w') = q ∧ registry w' = spec_step D (registry w) a.

Lemma popped_ready D q w : ready D w → ready D (popped q w).
Proof. apply ready_frame; eauto. Qed.

(** The registry is changed, then only notifications are sent. *)
Lemma calm_registry ds w w' ps cs q :
  calm ds w w' → me w = mkPImpl ps cs q →
  pending_actions (me w') = q ∧ registry w' = mkRegistry ps cs (trace (client w) ++ ds).
Proof. intros [Hm _ _ _ Ht] E. unfold registry. by rewrite Hm, E, Ht. Qed.

Lemma visited_calm D w a q w1 w' ds :
  ready D w1 → calm ds w1 w' → pending_actions (me w1) = q →
  mkRegistry (producers (me w1)) (consumers (me w1)) (trace (client w1) ++ ds)
    = spec_step D (registry w) a →
  visited D w a q w'.
Proof.
  intros Hr Hc Hq Hreg. destruct (me w1) as [ps cs q1] eqn:E. cbn in *. subst q1.
  destruct (calm_registry _ _ _ _ _ _ Hc E) as [Hp Hg].
  split_and!; [by eapply calm_ready|done|]. by rewrite Hg.
Qed.

Lemma visited_init_producer nd D p q w :
  inv w → ready D w → pending_actions (me w) = InitProducer p :: q →
  safe no_misuse (visit nd (InitProducer p)) (λ _ w', visited D w (InitProducer p) q w') (popped q w).
Proof.
  intros Hi Hr Hq. pose proof (popped_ready D q w Hr) as Hr0. pose proof (rd_describes _ _ Hr) as Hd.
  pose proof (wi_queue _ (proj1 (inv_b _ Hi))) as Hqok. rewrite Hq in Hqok.
  cbn [visit queue_ok] in *.
  apply safe_bind. unfold safe at 1, modify. set (w1 := set_producers _ _).
  assert (Hr1 : ready D w1) by (revert Hr0; apply ready_frame; eauto).
  apply safe_bind. unfold safe at 1, gets.
  eapply safe_mono; [apply (calmly_for_each D _ _ _ (calmly_maybe_add D p) w1 Hr1)|].
  intros [] w2 Hc. eapply (visited_calm D w _ q w1); eauto.
  cbn. by rewrite (announce_bind D START_PRODUCER [] p).
Qed.

Lemma visited_destroy_producer nd D p q w :
  inv w → ready D w → pending_actions (me w) = DestroyProducer p :: q →
  safe no_misuse (visit nd (DestroyProducer p)) (λ _ w', visited D w (DestroyProducer p) q w') (popped q w).
Proof.
  intros Hi Hr Hq. pose proof (popped_ready D q w Hr) as Hr0. pose proof (rd_describes _ _ Hr) as Hd.
  pose proof (wi_queue _ (proj1 (inv_b _ Hi))) as Hqok. rewrite Hq in Hqok.
  cbn [visit queue_ok] in *.
  apply safe_bind. unfold safe at 1, gets. destruct Hqok as [Hp%elem_of_list_to_set Hqok].
  cbn [me popped set_me producers]. rewrite decide_True by done.
  apply safe_bind. unfold safe at 1, modify. set (w1 := set_producers _ _).
  assert (Hr1 : ready D w1) by (revert Hr0; apply ready_frame; eauto).
  destruct (wi_heap_p _ (proj1 (inv_b _ Hi)) p) as [o Ho]; [auto with keryx|].
  unfold delete_producer. apply safe_bind. unfold safe at 1. rewrite (pobj_deref w1 p o) by done.
  apply safe_bind. eapply safe_mono; [apply (calmly_announce D w STOP_PRODUCER [] p o); auto|].
  intros [] w2 Hc. unfold safe, modify.
  pose proof (calm_trans _ _ _ _ _ Hc (free_producer_calm w2 p)) as Hc2.
  eapply (visited_calm D w _ q w1); eauto. cbn. by rewrite app_nil_r.
Qed.

Lemma visited_publish nd D p ev q w :
  inv w → ready D w → pending_actions (me w) = Publish p ev :: q →
  safe no_misuse (visit nd (Publish p ev)) (λ _ w', visited D w (Publish p ev) q w') (popped q w).
Proof.
  intros Hi Hr Hq. pose proof (popped_ready D q w Hr) as Hr0. pose proof (rd_describes _ _ Hr) as Hd.
  pose proof (wi_queue _ (proj1 (inv_b _ Hi))) as Hqok. rewrite Hq in Hqok.
  cbn [visit queue_ok] in *.
  destruct Hqok as [Hp%elem_of_list_to_set Hqok].
  destruct (wi_heap_p _ (proj1 (inv_b _ Hi)) p) as [o Ho]; [auto with keryx|].
  unfold producer_publish. apply safe_bind. unfold safe at 1.
  rewrite (pobj_deref (popped q w) p o) by done. apply safe_bind.
  eapply safe_mono; [apply (calmly_announce D w EVENT [ev] p o); auto|].
  intros [] w2 Hc. apply safe_bind. unfold safe at 1, deref_producer.
  destruct (producer_objs (heap w2) !! p) as [o2|] eqn:Ho2; [|done]. unfold safe, modify.
  pose proof (calm_trans _ _ _ _ _ Hc (put_calm w2 p o2 (mkProducer (p_id o2) (p_topic o2)
    (add_new_event (snapshot_handler o2) ev) (p_consumers o2)) Ho2 eq_refl eq_refl)) as Hc2.
  eapply (visited_calm D w _ q (popped q w)); eauto. cbn. by rewrite app_nil_r.
Qed.

Lemma visited_init_consumer nd D c q w :
  inv w → ready D w → pending_actions (me w) = InitConsumer c :: q →
  safe no_misuse (visit nd (InitConsumer c)) (λ _ w', visited D w (InitConsumer c) q w') (popped q w).
Proof.
  intros Hi Hr Hq. pose proof (popped_ready D q w Hr) as Hr0. pose proof (rd_describes _ _ Hr) as Hd.
  pose proof (wi_queue _ (proj1 (inv_b _ Hi))) as Hqok. rewrite Hq in Hqok.
  cbn [visit queue_ok] in *.
  apply safe_bind. unfold safe at 1, modify. set (w1 := set_consumers _ _).
  assert (Hr1 : ready D w1) by (revert Hr0; apply ready_frame; eauto).
  apply safe_bind. unfold safe at 1, gets.
  eapply safe_mono; [apply (calmly_for_each D _ _ _ (λ p, calmly_maybe_add D p c) w1 Hr1)|].
  intros [] w2 Hc. by eapply (visited_calm D w _ q w1); eauto.
Qed.

Lemma visited_destroy_consumer nd D c q w :
  inv w → ready D w → pending_actions (me w) = DestroyConsumer c :: q →
  safe no_misuse (visit nd (DestroyConsumer c)) (λ _ w', visited D w (DestroyConsumer c) q w') (popped q w).
Proof.
  intros Hi Hr Hq. pose proof (popped_ready D q w Hr) as Hr0. pose proof (rd_describes _ _ Hr) as Hd.
  pose proof (wi_queue _ (proj1 (inv_b _ Hi))) as Hqok. rewrite Hq in Hqok.
  cbn [visit queue_ok] in *.
  destruct Hqok as [Hc%elem_of_list_to_set Hqok]. apply safe_bind. unfold safe at 1, gets.
  apply safe_bind.
  eapply safe_mono; [apply (calmly_for_each D _ _ _ (λ p, calmly_maybe_remove D p c) _ Hr0)|].
  intros [] w1 Hc1. apply safe_bind. unfold safe at 1. rewrite (cm_me _ _ _ Hc1).
  cbn [me popped set_me consumers]. rewrite decide_True by done.
  apply safe_bind. unfold safe at 1, modify. set (w2 := set_consumers _ _).
  assert (Hr2 : ready D w2) by (generalize (calm_ready _ _ _ _ Hc1 Hr0); apply ready_frame; eauto).
  eapply safe_mono; [by apply (calmly_delete_consumer D)|]. intros [] w3 Hc3.
  eapply (visited_calm D w _ q w2); eauto; cbn; rewrite (cm_me _ _ _ Hc1); [done|].
  rewrite (cm_trace _ _ _ Hc1), app_nil_r. cbn [client popped set_me me producers consumers].
  by rewrite bind_nothing, app_nil_r.
Qed.

Lemma visit_visited nd D a q w :
  inv w → ready D w → pending_actions (me w) = a :: q →
  safe no_misuse (visit nd a) (λ _ w', visited D w a q w') (popped q w).
Proof.
  destruct a.
  - apply visited_init_producer.
  - apply visited_destroy_producer.
  - apply visited_publish.
  - apply visited_init_consumer.
  - apply visited_destroy_consumer.
Qed.

Lemma visit_refines nd D a q w :
  inv w → ready D w → pending_actions (me w) = a :: q →
  ∃ w', visit nd a (popped q w) = Ok (w', tt) ∧ inv w' ∧ visited D w a q w'.
Proof.
  intros Hi Hr Hq. pose proof (visit_safe nd a q w Hi Hq) as Hs.
  pose proof (visit_visited nd D a q w Hi Hr Hq) as Hv. unfold safe in *.
  destruct (visit nd a (popped q w)) as [[w' []]|f]; [|by destruct Hv].
  exists w'. by destruct Hs.
Qed.

(** ** The loop *)
Lemma do_work_refines nd D w :
  inv w → ready D w →
  ∃ w', do_work (S (length (pending_actions (me w)))) nd w = Ok (w', tt) ∧ inv w' ∧
    pending_actions (me w') = [] ∧
    registry w' = spec_run D (pending_actions (me w)) (registry w).
Proof.
  remember (pending_actions (me w)) as q eqn:Hq. revert w Hq.
  induction q as [|a q IH]; intros w Hq Hi Hr.
  - exists w. cbn [length do_work]. unfold pop_front. by rewrite <- Hq.
  - destruct (visit_refines nd D a q w Hi Hr (eq_sym Hq)) as (w1 & Hv & Hi1 & Hr1 & Hq1 & Hg1).
    destruct (IH w1 (eq_sym Hq1) Hi1 Hr1) as (w2 & Hw2 & Hi2 & Hq2 & Hg2).
    exists w2. split_and!; auto.
    + cbn [length]. cbn [do_work]. rewrite (popped_of _ _ _ (eq_sym Hq)).
      unfold mbind, M_bind. by rewrite Hv.
    + unfold spec_run. cbn [foldl]. by rewrite <- Hg1.
Qed.

Lemma quiet_ready w : inv w → quiet w → ready (directory w) w.
Proof.
  intros Hi Hq. constructor; [apply directory_describes|done|].
  apply (wi_muted _ (proj1 (inv_b _ Hi))).
Qed.
End Refinement.
