(* ===== verification/Typed.v ===== *)
(** * src/lib/broker: Producer.h and Consumer.h; src/main.cpp

    The typed wrappers of the broker.  Their constructors and destructors are
    pieces of client code ([Prog]) followed by the code [k] that comes next. *)
From S2P Require Import Prelude BrokerCommon OldBroker BrokerInvariant BrokerSafety BrokerVisit.
From S2P Require Import BrokerActions BrokerDestroy BrokerRun.

#[local] Open Scope Z_scope.

(** ** The requirements on the template parameter [Stream]

    [dynamic_cast] stands for the language's [dynamic_cast<EventType const *>]. *)
Class Stream {T : KeryxTypes} := {
  EventType : Type;
  stream_type : StreamTypeID;                       (* typeid(Stream) *)
  clone_event : EventType → Event;
  dynamic_cast : Event → option EventType;
  make_snapshot_handler : SnapshotState
}.

(** A clone is an object of the event type with the value of the original. *)
Class StreamLaws {T : KeryxTypes} (S : Stream) := {
  dynamic_cast_clone : ∀ ev, dynamic_cast (clone_event ev) = Some ev
}.

Section Typed.
Context {T : KeryxTypes} {S : Stream}.

(** [Notification<Stream>]; a null pointer among the events is [None]. *)
Record Notification := mkTyped {
  n_kind : NotificationKind;
  n_events : list (option EventType);
  n_stream_id : Z;
  n_name : string
}.

(** ** [Producer<Stream>] *)
Definition convert_snapshot (snapshot : list EventType) : list Event := clone_event <$> snapshot.

Definition Producer_ctor (name : string) (initial_snapshot : list EventType) (k : ptr → Prog) : Prog :=
  MakeProducer make_snapshot_handler (mkTopic stream_type name) (convert_snapshot initial_snapshot) k.

Definition Producer_dtor (producer : ptr) (k : Prog) : Prog := DoDestroyProducer producer k.

Definition Producer_publish (producer : ptr) (ev : EventType) (k : Prog) : Prog :=
  DoPublish producer (clone_event ev) k.

(** ** [Consumer<Stream>] *)
Definition make_untyped_handler (h : Notification → Prog) (m : NotificationImpl) : Prog :=
  h (mkTyped (kind m) (dynamic_cast <$> events m) (stream_id m) (stream_name (topic m))).

Definition Consumer_filter (f : string → bool) (h : Notification → Prog) (k : ptr → Prog) : Prog :=
  MakeConsumer (mkFilter stream_type f) (make_untyped_handler h) k.

Definition Consumer_name (name : string) (h : Notification → Prog) (k : ptr → Prog) : Prog :=
  MakeConsumer (mkFilter stream_type (λ n, bool_decide (name = n))) (make_untyped_handler h) k.

Definition Consumer_all (h : Notification → Prog) (k : ptr → Prog) : Prog :=
  MakeConsumer (mkFilter stream_type (λ _, true)) (make_untyped_handler h) k.

Definition Consumer_dtor (consumer : ptr) (k : Prog) : Prog := DoDestroyConsumer consumer k.
End Typed.

(** ** src/main.cpp: the benchmarks of the broker

    The event and stream types of the benchmark program, and its two functions
    that use a broker as sequences of calls.  The theorems about them are in
    BrokerTheorems.v. *)
(** [SimpleEvent]: a time stamp. *)
Record SimpleEvent := mkSimpleEvent { ts : Z }.

(** The types the program gives a type id. *)
Inductive TypeInfo := typeid_SimpleStream.

#[export] Instance TypeInfo_eq_dec : EqDecision TypeInfo.
Proof. solve_decision. Defined.

#[export] Instance bm_types : KeryxTypes := {
  Event := SimpleEvent;
  StreamTypeID := TypeInfo;
  UserState := unit;
  SnapshotState := NullSnapshot
}.

(** [SimpleStream<SimpleEvent>]; the copy constructor copies the time stamp. *)
#[export] Instance SimpleStream : Stream := {
  EventType := SimpleEvent;
  stream_type := typeid_SimpleStream;
  clone_event sev := mkSimpleEvent (ts sev);
  dynamic_cast ev := Some ev;
  make_snapshot_handler := null_snapshot
}.

#[export] Instance SimpleStream_laws : StreamLaws SimpleStream.
Proof. constructor. by intros []. Qed.

(** [[](auto const &) {}] *)
Definition ignore (n : Notification) : Prog := Return.

(** The locals: [Producer<Stream> p{b}; Consumer<Stream> c{b, ...};]. *)
Definition bm_setup : Prog := Producer_ctor EmptyString [] (λ _, Consumer_all ignore (λ _, Return)).
Definition bm_p : ptr := 0%nat.
Definition bm_c : ptr := 1%nat.

(** [p.publish(ev); b.do_work();], [n] times. *)
Fixpoint bm_loop (n : nat) (ev : SimpleEvent) : list Call :=
  match n with
  | O => []
  | S n => Code (Producer_publish bm_p ev Return) :: Work :: bm_loop n ev
  end.

(** The end of the scope: [c], then [p]; then the broker. *)
Definition bm_exit : Prog := Consumer_dtor bm_c (Producer_dtor bm_p Return).

(** [publish], with [n] iterations of the benchmark loop. *)
Definition bm_publish (fuel n : nat) (nd : bool) (ev : SimpleEvent) : M unit :=
  _ ← run_calls fuel nd (Code bm_setup :: bm_loop n ev ++ [Code bm_exit]);
  destroy_broker.

(** [n] iterations of the endless loop of [vg_workout]. *)
Definition vg_workout (fuel n : nat) (nd : bool) (ev : SimpleEvent) : M unit :=
  run_calls fuel nd (Code bm_setup :: bm_loop n ev).
