(* ===== verification/BrokerTheorems.v ===== *)
(** * Properties of the broker

    About every program that uses a broker: client code, which may react to
    notifications by any calls of the library, and calls of [do_work], in any
    order (BrokerRun.v).  The last ones are about the programs of main.cpp. *)
From S2P Require Import Prelude BrokerCommon OldBroker Typed BrokerInvariant BrokerSafety BrokerVisit BrokerActions BrokerDestroy BrokerRun BrokerSpec BrokerRefinement.
#[local] Open Scope Z_scope.

(** ** A concrete program, for the witnesses *)
Definition ev1 : SimpleEvent := mkSimpleEvent 17.
Definition ev2 : SimpleEvent := mkSimpleEvent 18.
Definition ev3 : SimpleEvent := mkSimpleEvent 19.
Definition all_streams : StreamFilterImpl := mkFilter typeid_SimpleStream (λ _, true).
Definition topic1 : TopicImpl := mkTopic typeid_SimpleStream "".

Definition after (r : result (World * unit)) : World :=
  match r with
  | Ok (w, _) => w
  | Err _ => new_world tt
  end.

(** A producer and a consumer, registered, and one event in the queue. *)
Definition demo_calls : list Call := [Code bm_setup; Work; Code (Producer_publish bm_p ev1 Return)].
Definition demo : World := after (run_calls 5 true demo_calls (new_world tt)).

Lemma demo_reachable : reachable true demo.
Proof. exists tt, 5%nat, demo_calls. vm_compute. reflexivity. Defined.

(** A property of all consumers can be read off the list of them. *)
Lemma quiet_list {T : KeryxTypes} (w : World) :
  Forall (λ x, quiet_handler (c_notify x.2)) (map_to_list (consumer_objs (heap w))) → quiet w.
Proof.
  intros HF c o Ho. unfold cobj in Ho. apply elem_of_map_to_list in Ho.
  rewrite Forall_forall in HF. by apply (HF (c, o)).
Qed.

Lemma demo_quiet : quiet demo.
Proof. apply quiet_list. vm_compute. repeat constructor. Defined.

(** ** Safety *)

(** C14. No use of a deleted object, no failing assertion and no erase of a
    missing element: whatever calls a client makes between and, in its
    handlers, during [do_work], a run can only be stopped by the client using
    a handle it does not hold, or go on for ever. *)
Theorem broker_never_faults {T : KeryxTypes} fuel nd u calls f :
  run_calls fuel nd calls (new_world u) = Err f → f = client_misuse ∨ f = out_of_fuel.
Proof. apply (safe_Err _ _ _ _ _ (run_calls_safe fuel nd calls _ (new_world_inv u))). Qed.

Lemma broker_never_faults_witness :
  run_calls 5 true (demo_calls ++ [Code bm_exit; Code bm_exit]) (new_world tt) = Err client_misuse ∧
  (client_misuse = client_misuse ∨ client_misuse = out_of_fuel).
Proof.
  assert (H : run_calls 5 true (demo_calls ++ [Code bm_exit; Code bm_exit]) (new_world tt)
    = Err client_misuse) by (vm_compute; reflexivity).
  split; [exact H|]. exact (broker_never_faults _ _ _ _ _ H).
Defined.

(** C15. The broker implements its registry: with handlers that do not call the
    library, [do_work] returns, with the queue empty, and the registered
    producers and consumers and the notifications delivered, in this order,
    are those of executing the queued actions on the registry of streams and
    filters. *)
Theorem do_work_implements_registry {T : KeryxTypes} nd nd' w :
  reachable nd w → quiet w →
  ∃ w', do_work (S (length (pending_actions (me w)))) nd' w = Ok (w', tt) ∧
    pending_actions (me w') = [] ∧
    registry w' = spec_run (directory w) (pending_actions (me w)) (registry w).
Proof.
  intros Hr Hq. pose proof (reachable_inv _ _ Hr) as Hi.
  destruct (do_work_refines nd' (directory w) w Hi (quiet_ready w Hi Hq)) as (w' & ? & _ & ? & ?).
  by exists w'.
Qed.

Lemma do_work_implements_registry_witness :
  length (pending_actions (me demo)) = 1%nat ∧
  ∃ w', do_work 2 false demo = Ok (w', tt) ∧ pending_actions (me w') = [] ∧
    registry w' = spec_run (directory demo) (pending_actions (me demo)) (registry demo).
Proof.
  split; [vm_compute; reflexivity|].
  exact (do_work_implements_registry true false demo demo_reachable demo_quiet).
Defined.

(** C16. Subscriptions follow the filters: between two actions the consumers a
    registered producer notifies are exactly the registered consumers whose
    filter accepts its type and name, each once, in order of registration. *)
Theorem subscriptions_follow_filters {T : KeryxTypes} nd w p o :
  reachable nd w → p ∈ producers (me w) → pobj w p = Some o →
  p_consumers o = subscribers w (p_topic o) (consumers (me w)) ∧ NoDup (p_consumers o).
Proof.
  intros Hr%reachable_inv Hp Ho. split; [by apply (inv_subs _ Hr p)|by eapply pobj_nodup].
Qed.

Lemma subscriptions_follow_filters_witness :
  ∃ o, pobj demo 0%nat = Some o ∧ p_consumers o = [1%nat] ∧
    p_consumers o = subscribers demo (p_topic o) (consumers (me demo)) ∧ NoDup (p_consumers o).
Proof.
  assert (∃ o, pobj demo 0%nat = Some o ∧ p_consumers o = [1%nat]) as (o & Ho & Hc).
  { eexists. split; vm_compute; reflexivity. }
  exists o. split; [exact Ho|]. split; [exact Hc|].
  apply (subscriptions_follow_filters true demo 0%nat o demo_reachable); [|exact Ho].
  apply (bool_decide_unpack _). vm_compute. exact I.
Defined.

(** C17. Every handler sees each stream as START, then EVENTs, then at most one
    STOP, with nothing before and nothing after (as long as fewer than 2^64
    streams and consumers have been made), even if handlers make and destroy
    producers and consumers. *)
Theorem notifications_follow_protocol {T : KeryxTypes} nd w c i :
  reachable nd w → no_wrap w → is_Some (protocol c i (trace (client w))).
Proof. intros Hr%reachable_inv Hnw. by apply ti_ok, (inv_b _ Hr). Qed.

Lemma notifications_follow_protocol_witness :
  no_wrap demo ∧ is_Some (protocol 1%nat 1 (trace (client demo))) ∧
  protocol 1%nat 1 (trace (client demo)) = Some Active.
Proof.
  assert (Hn : no_wrap demo) by (vm_compute; reflexivity).
  split; [exact Hn|]. split; [|vm_compute; reflexivity].
  exact (notifications_follow_protocol true demo 1%nat 1 demo_reachable Hn).
Defined.

(** C18. A consumer that has been destroyed is never notified again, whatever
    is still in the queue and whatever the client does next. *)
Theorem destroyed_consumer_is_silent {T : KeryxTypes} nd w c fuel nd' calls w' :
  reachable nd w → (c < next_ptr (heap w))%nat → c ∉ open_consumers (client w) →
  run_calls fuel nd' calls w = Ok (w', tt) →
  ∃ tr, trace (client w') = trace (client w) ++ tr ∧ (∀ m, (c, m) ∉ tr) ∧
    c ∉ open_consumers (client w').
Proof.
  intros Hr%reachable_inv Hlt Hc Hrun.
  destruct (safe_Ok _ _ _ _ _ _ (run_calls_safe fuel nd' calls w Hr) Hrun) as [_ [_ Ho (tr & E & Htr)]].
  exists tr. split_and!; [done| |].
  - intros m [|]%Htr; [done|lia].
  - intros [|]%Ho; [done|lia].
Qed.

(** The consumer destroyed while an event is in the queue. *)
Definition demo_destroyed : World :=
  after (run_calls 5 true (demo_calls ++ [Code (Consumer_dtor bm_c Return)]) (new_world tt)).

Lemma destroyed_consumer_is_silent_witness :
  ∃ w', run_calls 5 true [Work] demo_destroyed = Ok (w', tt) ∧
    ∃ tr, trace (client w') = trace (client demo_destroyed) ++ tr ∧ (∀ m, (1%nat, m) ∉ tr) ∧
      1%nat ∉ open_consumers (client w').
Proof.
  assert (Hr : reachable true demo_destroyed).
  { exists tt, 5%nat, (demo_calls ++ [Code (Consumer_dtor bm_c Return)]). vm_compute. reflexivity. }
  assert (∃ w', run_calls 5 true [Work] demo_destroyed = Ok (w', tt)) as [w' Hw].
  { eexists. vm_compute. reflexivity. }
  exists w'. split; [exact Hw|].
  apply (destroyed_consumer_is_silent true demo_destroyed 1%nat 5 true [Work] w' Hr); [| |exact Hw].
  - apply (bool_decide_unpack _). vm_compute. exact I.
  - apply (bool_decide_unpack _). vm_compute. exact I.
Defined.

(** ** What one event does *)

(** An event of the producer [p] is delivered between [w] and [w']: in registration order
    to registered consumers whose filter accepts the stream, to every such consumer that is
    still wanted at the end, and to the snapshot handler. *)
Definition delivered {T : KeryxTypes} (p : ptr) (ev : Event) (w w' : World) : Prop :=
  ∃ o, pobj w p = Some o ∧
    (∃ cs, trace (client w') = trace (client w) ++
         ((λ c, (c, mkNotification EVENT [ev] (p_id o) (p_topic o))) <$> cs) ∧
       cs `sublist_of` subscribers w (p_topic o) (consumers (me w)) ∧
       ∀ c, c ∈ subscribers w (p_topic o) (consumers (me w)) →
         c ∈ open_consumers (client w') → c ∈ cs) ∧
    ∃ o', pobj w' p = Some o' ∧ snapshot_handler o' = add_new_event (snapshot_handler o) ev.

Lemma publish_delivers {T : KeryxTypes} nd p ev q w :
  inv w → pending_actions (me w) = Publish p ev :: q →
  safe misuse (visit nd (Publish p ev)) (λ _ w', delivered p ev w w') (popped q w).
Proof.
  intros Hi Hq. destruct (pending_publish_obj p ev q w Hi Hq) as [Hp [o Ho]].
  eapply safe_mono; [by apply (visit_publish nd p ev q w o)|]. intros [] w' (_ & _ & [Ht Hs]).
  exists o. split; [done|]. by rewrite (inv_subs _ Hi p o Hp Ho) in Ht.
Qed.

(** C19. Take any state [v] the loop of [do_work] goes through, and any event in the queue
    then: queued by a [publish] before the call, or by one in a handler meanwhile, behind
    whatever other actions.  If it is at the front, executing it delivers it, whatever the
    handlers do, unless they use a handle the client does not hold.  If
    [do_work] returns it has been delivered once it gets to the front, which it does, with
    what was behind it in the queue still behind it. *)
Theorem publish_reaches_subscribers {T : KeryxTypes} nd nd' w v q1 p ev q2 :
  reachable nd w → rtc (work_step nd') w v → pending_actions (me v) = q1 ++ Publish p ev :: q2 →
  (q1 = [] →
     match visit nd' (Publish p ev) (popped q2 v) with
     | Ok (v', _) => work_step nd' v v' ∧ delivered p ev v v'
     | Err f => f = client_misuse
     end) ∧
  ∀ fuel w', do_work fuel nd' w = Ok (w', tt) →
    ∃ u k u', rtc (work_step nd') v u ∧ pending_actions (me u) = Publish p ev :: q2 ++ k ∧
      work_step nd' u u' ∧ delivered p ev u u' ∧ rtc (work_step nd') u' w'.
Proof.
  intros Hi%reachable_inv Hv Hq.
  assert (Hsteps : ∀ v', rtc (work_step nd') w v' → inv v').
  { intros v' H. exact (rtc_preserves _ inv _ _ (work_step_inv nd') H Hi). }
  split.
  - intros ->. simpl in Hq. pose proof (publish_delivers nd' p ev q2 v (Hsteps _ Hv) Hq) as Hs.
    unfold safe in Hs. destruct (visit nd' (Publish p ev) (popped q2 v)) as [[v' []]|f] eqn:Hvis; [|exact Hs].
    split; [|done]. exists (Publish p ev), (popped q2 v). split; [by apply popped_of|done].
  - intros fuel w' Hrun. destruct (do_work_steps _ _ _ _ Hrun) as [Hw' Hend].
    destruct (queued_is_executed nd' (Publish p ev) w' Hend v (on_the_way _ _ _ _ Hv Hw' Hend) q1 q2 Hq)
      as (u & k & u' & Hu & Hqu & Hvis & Hu').
    exists u, k, u'. split_and!; [done|done| | |done].
    + exists (Publish p ev), (popped (q2 ++ k) u). split; [by apply popped_of|done].
    + assert (Hiu : inv u) by (apply Hsteps; etrans; [exact Hv|exact Hu]).
      exact (safe_Ok _ _ _ _ _ _ (publish_delivers nd' p ev _ u Hiu Hqu) Hvis).
Qed.

(** A handler that publishes a second event when it gets the first. *)
Definition relay (p : ptr) (m : NotificationImpl) : Prog :=
  match kind m, events m with
  | EVENT, [e] => if ts e =? 17 then DoPublish p ev2 Return else Return
  | _, _ => Return
  end.

Definition relay_calls : list Call :=
  [Code (MakeProducer null_snapshot topic1 [] (λ p, MakeConsumer all_streams (relay p) (λ _,
     DoPublish p ev1 (DoPublish p ev3 Return))))].
Definition demo_relay : World := after (run_calls 9 true relay_calls (new_world tt)).

(** An iteration of the loop. *)
Definition one_more (w : World) : World :=
  match pop_front w with Some (a, w) => after (visit true a w) | None => w end.

Lemma one_more_step w :
  match pop_front w with
  | Some (a, w) => match visit true a w with Ok _ => True | Err _ => False end
  | None => False
  end → work_step true w (one_more w).
Proof.
  unfold one_more. destruct (pop_front w) as [[a w1]|] eqn:Hpop; [|done].
  destruct (visit true a w1) as [[w2 []]|] eqn:Hv; [|done]. intros _. by exists a, w1.
Qed.

(** The state in which the handler has published, with another event before its own. *)
Definition relayed : World := one_more (one_more (one_more demo_relay)).

Lemma relay_reachable : reachable true demo_relay.
Proof. exists tt, 9%nat, relay_calls. vm_compute. reflexivity. Defined.

Lemma relayed_reachable : rtc (work_step true) demo_relay relayed.
Proof.
  do 3 (eapply rtc_l; [apply one_more_step; vm_compute; exact I|]). apply rtc_refl.
Defined.

Lemma publish_reaches_subscribers_witness :
  pending_actions (me relayed) = [Publish 0%nat ev3; Publish 0%nat ev2] ∧
  ∃ u k u', rtc (work_step true) relayed u ∧
    pending_actions (me u) = Publish 0%nat ev2 :: [] ++ k ∧
    work_step true u u' ∧ delivered 0%nat ev2 u u' ∧
    rtc (work_step true) u' (after (do_work 9 true demo_relay)).
Proof.
  split; [vm_compute; reflexivity|].
  refine (proj2 (publish_reaches_subscribers true true demo_relay relayed [_] _ _ []
    relay_reachable relayed_reachable _) 9%nat _ _); vm_compute; reflexivity.
Defined.

(** A handler that answers every event of a stream with another one. *)
Definition echo {T : KeryxTypes} (p : ptr) (ev : Event) (m : NotificationImpl) : Prog :=
  match kind m with
  | EVENT => DoPublish p ev Return
  | _ => Return
  end.

(** [do_work] works off what handlers queue while it runs: with a consumer
    that publishes on the stream it is notified about, it never returns. *)
Theorem echo_diverges {T : KeryxTypes} fuel nd w p c o oc ev ev' :
  pending_actions (me w) = [Publish p ev'] → pobj w p = Some o → p_consumers o = [c] →
  cobj w c = Some oc → c_notify oc = user_handler (echo p ev) → p ∈ open_producers (client w) →
  do_work fuel nd w = Err out_of_fuel.
Proof.
  revert w o ev'. induction fuel as [|fuel IH]; intros w o ev' Hq Ho Hcs Hoc Hn Hop; [done|].
  cbn [do_work]. rewrite (popped_of _ _ _ Hq). unfold mbind at 1, M_bind at 1.
  cbn [visit]. unfold producer_publish, mbind, M_bind. rewrite (pobj_deref (popped [] w) p o) by done.
  rewrite Hcs. cbn [for_each]. unfold mbind, M_bind, call_notify, mbind, M_bind.
  rewrite (cobj_deref (popped [] w) c oc) by done. rewrite Hn. unfold modify at 1. cbn [echo kind].
  cbn [run_prog]. unfold mbind, M_bind, holds_producer at 1, publish, enqueue, modify.
  cbn [client popped set_me log set_client open_producers]. rewrite decide_True by done.
  cbn [run_prog]. unfold mret, M_ret. set (w1 := set_me _ _).
  rewrite (pobj_deref w1 p o) by done.
  eapply (IH _ _ ev); [done|by rewrite put_producer_lookup, decide_True|done|done|done|done].
Qed.

Definition demo_echo : World :=
  after (run_calls 5 true
    [Code (MakeProducer null_snapshot topic1 [] (λ p, MakeConsumer all_streams (echo p ev1) (λ _, Return)));
     Work; Code (DoPublish 0%nat ev1 Return)] (new_world tt)).

Lemma echo_diverges_witness :
  pending_actions (me demo_echo) = [Publish 0%nat ev1] ∧
  ∀ fuel, do_work fuel true demo_echo = Err out_of_fuel.
Proof.
  split; [vm_compute; reflexivity|]. intros fuel.
  eapply (echo_diverges fuel true demo_echo 0%nat 1%nat).
  - vm_compute. reflexivity.
  - vm_compute. reflexivity.
  - reflexivity.
  - vm_compute. reflexivity.
  - reflexivity.
  - apply (bool_decide_unpack _). vm_compute. exact I.
Defined.

(** ** Resources *)

(** C21. Nothing leaks and nothing is freed early: when the queue is empty the
    producers and consumers that exist are those whose handles the client
    holds. *)
Theorem nothing_leaks {T : KeryxTypes} nd w :
  reachable nd w → pending_actions (me w) = [] →
  (∀ p, is_Some (pobj w p) ↔ p ∈ open_producers (client w)) ∧
  (∀ c, is_Some (cobj w c) ↔ c ∈ open_consumers (client w)).
Proof.
  intros Hi%reachable_inv Hq. pose proof (proj1 (inv_b _ Hi)) as Hw.
  pose proof (wi_queue _ Hw) as Hqok. rewrite Hq in Hqok. destruct Hqok as [-> ->].
  assert (Hlp : live_p w = producers (me w)) by (unfold live_p; rewrite Hq; apply app_nil_r).
  assert (Hlc : live_c w = consumers (me w)) by (unfold live_c; rewrite Hq; apply app_nil_r).
  split; intros x; rewrite elem_of_list_to_set; split.
  - rewrite <- Hlp. apply Hi.
  - rewrite <- Hlp. apply Hw.
  - rewrite <- Hlc. apply (inv_leak_c _ Hi).
  - rewrite <- Hlc. apply (wi_heap_c _ Hw).
Qed.

Definition demo_done : World :=
  after (run_calls 5 true (demo_calls ++ [Work; Code bm_exit; Work]) (new_world tt)).

Lemma nothing_leaks_witness :
  pending_actions (me demo_done) = [] ∧ open_producers (client demo_done) = ∅ ∧
  (∀ p, is_Some (pobj demo_done p) ↔ p ∈ open_producers (client demo_done)) ∧
  (∀ c, is_Some (cobj demo_done c) ↔ c ∈ open_consumers (client demo_done)).
Proof.
  assert (Hr : reachable true demo_done).
  { exists tt, 5%nat, (demo_calls ++ [Work; Code bm_exit; Work]). vm_compute. reflexivity. }
  assert (Hq : pending_actions (me demo_done) = []) by (vm_compute; reflexivity).
  split; [exact Hq|]. split; [vm_compute; reflexivity|].
  exact (nothing_leaks true demo_done Hr Hq).
Defined.

(** C22. The destructor of the broker is correct exactly when no registered
    producer has a registered consumer: it deletes the consumers before the
    producers, which then notify them of the end of their streams. *)
Theorem destructor_outcome {T : KeryxTypes} nd w :
  reachable nd w →
  (destroy_broker w = Err use_after_free ↔
     ∃ p o, p ∈ producers (me w) ∧ pobj w p = Some o ∧
            subscribers w (p_topic o) (consumers (me w)) ≠ []) ∧
  (∀ f, destroy_broker w = Err f → f = use_after_free) ∧
  (∀ w', destroy_broker w = Ok (w', tt) → (∀ p, pobj w' p = None) ∧ ∀ c, cobj w' c = None).
Proof.
  intros Hi%reachable_inv. pose proof (destroy_broker_outcome w Hi) as Hd.
  assert (Hiff : (∃ p, p ∈ producers (me w) ∧ ¬ deaf w p) ↔
    ∃ p o, p ∈ producers (me w) ∧ pobj w p = Some o ∧ subscribers w (p_topic o) (consumers (me w)) ≠ []).
  { split.
    - intros (p & Hp & Hn). unfold deaf in Hn. destruct (pobj w p) as [o|] eqn:Ho; [|done].
      exists p, o. by rewrite <- (inv_subs _ Hi p o Hp Ho).
    - intros (p & o & Hp & Ho & Hn). exists p. split; [done|]. unfold deaf. rewrite Ho.
      by rewrite (inv_subs _ Hi p o Hp Ho). }
  rewrite <- Hiff. destruct (destroy_broker w) as [[w' []]|f].
  - destruct Hd as (Hdeaf & Hp & Hc & _). split_and!; [|done|by intros ? [= <-]].
    split; [done|]. intros (p & Hin & Hn). by destruct Hn; apply Hdeaf.
  - destruct Hd as [-> Hex]. split_and!; [done|by intros ? [= <-]|done].
Qed.

Lemma destructor_outcome_witness :
  destroy_broker demo = Err use_after_free ∧
  (destroy_broker demo = Err use_after_free ↔
     ∃ p o, p ∈ producers (me demo) ∧ pobj demo p = Some o ∧
            subscribers demo (p_topic o) (consumers (me demo)) ≠ []).
Proof.
  split; [vm_compute; reflexivity|].
  exact (proj1 (destructor_outcome true demo demo_reachable)).
Defined.

(** Streams that exist together have different ids (before the counter
    wraps). *)
Theorem stream_ids_are_distinct {T : KeryxTypes} nd w p p' o o' :
  reachable nd w → no_wrap w → pobj w p = Some o → pobj w p' = Some o' →
  p_id o = p_id o' → p = p'.
Proof. intros Hr%reachable_inv Hnw. apply ti_ids, (inv_b _ Hr), Hnw. Qed.

Lemma stream_ids_are_distinct_witness :
  ∃ o, pobj demo 0%nat = Some o ∧ (p_id o = p_id o → 0%nat = 0%nat).
Proof.
  assert (∃ o, pobj demo 0%nat = Some o) as [o Ho] by (eexists; vm_compute; reflexivity).
  exists o. split; [exact Ho|].
  refine (stream_ids_are_distinct true demo 0%nat 0%nat o o demo_reachable _ Ho Ho).
  vm_compute. reflexivity.
Defined.

(** ** main.cpp *)
Definition bm_topic : TopicImpl := mkTopic typeid_SimpleStream "".
Definition bm_event (ev : SimpleEvent) : ptr * NotificationImpl :=
  (bm_c, mkNotification EVENT [mkSimpleEvent (ts ev)] 1 bm_topic).

(** The state between two iterations. *)
Definition bm_world (tr : list (ptr * NotificationImpl)) : World :=
  W {[bm_p := mkProducer 1 bm_topic null_snapshot [bm_c]]}
    {[bm_c := mkConsumer (mkFilter typeid_SimpleStream (λ _, true))
                (user_handler (make_untyped_handler ignore))]}
    2%nat 1 [bm_p] [bm_c] [] tt {[bm_p]} {[bm_c]} tr.

Lemma bm_iterations fuel n nd ev rest tr :
  (2 ≤ fuel)%nat →
  run_calls fuel nd (bm_loop n ev ++ rest) (bm_world tr) =
  run_calls fuel nd rest (bm_world (tr ++ repeat (bm_event ev) n)).
Proof.
  intros Hf. destruct fuel as [|[|fuel]]; [lia|lia|]. revert tr.
  induction n as [|n IH]; intros tr; [by rewrite app_nil_r|].
  cbn [repeat]. rewrite app_cons_assoc, <- IH. reflexivity.
Qed.

Lemma bm_start fuel n nd ev rest :
  (4 ≤ fuel)%nat →
  run_calls fuel nd (Code bm_setup :: bm_loop (S n) ev ++ rest) (new_world tt) =
  run_calls fuel nd rest (bm_world
    ((bm_c, mkNotification START_PRODUCER [] 1 bm_topic) :: repeat (bm_event ev) (S n))).
Proof.
  intros Hf.
  transitivity (run_calls fuel nd (bm_loop n ev ++ rest)
    (bm_world [(bm_c, mkNotification START_PRODUCER [] 1 bm_topic); bm_event ev])).
  - destruct fuel as [|[|[|[|fuel]]]]; [lia..|]. reflexivity.
  - apply (bm_iterations fuel n nd ev rest [_; _]). lia.
Qed.

(** [vg_workout] runs for ever: after any number of iterations every event
    has been delivered once, in order after the START notification, the queue
    is empty and the broker holds one producer and one consumer. *)
Theorem vg_workout_never_stops fuel n nd ev :
  (4 ≤ fuel)%nat →
  ∃ w, vg_workout fuel (S n) nd ev (new_world tt) = Ok (w, tt) ∧
    trace (client w) =
      (bm_c, mkNotification START_PRODUCER [] 1 bm_topic) :: repeat (bm_event ev) (S n) ∧
    pending_actions (me w) = [] ∧ size (producer_objs (heap w)) = 1%nat ∧
    size (consumer_objs (heap w)) = 1%nat.
Proof.
  intros Hf. pose proof (bm_start fuel n nd ev [] Hf) as H. rewrite app_nil_r in H.
  eexists. split; [exact H|]. split_and!; reflexivity.
Qed.

Lemma vg_workout_never_stops_witness :
  (4 ≤ 4)%nat ∧ ∃ w, vg_workout 4 1000 false ev1 (new_world tt) = Ok (w, tt) ∧
    trace (client w) =
      (bm_c, mkNotification START_PRODUCER [] 1 bm_topic) :: repeat (bm_event ev1) 1000 ∧
    pending_actions (me w) = [] ∧ size (producer_objs (heap w)) = 1%nat ∧
    size (consumer_objs (heap w)) = 1%nat.
Proof. split; [lia|]. apply (vg_workout_never_stops 4 999 false ev1). lia. Defined.

(** The [publish] benchmark ends in a use after free, after any number of
    iterations: at the end of the scope the requests of the destructors of [c]
    and [p] are still queued, and the destructor of the broker has the producer
    notify the consumer it has just deleted. *)
Theorem publish_benchmark_uses_freed_consumer fuel n nd ev :
  (4 ≤ fuel)%nat → bm_publish fuel (S n) nd ev (new_world tt) = Err use_after_free.
Proof.
  intros Hf. unfold bm_publish, mbind, M_bind.
  rewrite (bm_start fuel n nd ev [Code bm_exit] Hf). reflexivity.
Qed.

Lemma publish_benchmark_uses_freed_consumer_witness :
  (4 ≤ 4)%nat ∧ bm_publish 4 1 true ev1 (new_world tt) = Err use_after_free.
Proof. split; [lia|]. apply (publish_benchmark_uses_freed_consumer 4 0 true ev1). lia. Defined.
