(* ===== verification/Allocators.v ===== *)
(** * src/lib/utils/allocators.h, and the code that allocates by hand

    [keryx_allocate_unique] and the deleter of [keryx_unique_ptr]; the event and
    snapshot factories of main.cpp; the loops of the allocation benchmarks.
    Memory resources are boost's: the class [MemoryResource] is what the code
    calls, [ResourceLaws] what it relies on. *)
From S2P Require Import Prelude.
From stdpp Require Import gmap.
#[local] Open Scope Z_scope.

(** ** [boost::container::pmr::memory_resource]

    [allocate] throws ([None]) when it has no memory.  A block is returned with
    the size it was asked for. *)
Class MemoryResource (R : Type) := {
  allocate : Z → R → option (nat * R);
  deallocate : nat → Z → R → R
}.

(** [blocks]: the blocks a resource has handed out, with their sizes. *)
Class ResourceLaws (R : Type) `{MemoryResource R} := {
  blocks : R → gmap nat Z;
  allocate_blocks n r p r' :
    allocate n r = Some (p, r') → blocks r !! p = None ∧ blocks r' = <[p := n]> (blocks r);
  deallocate_blocks p n r :
    blocks r !! p = Some n → blocks (deallocate p n r) = delete p (blocks r)
}.

(** A call that can end with an exception. *)
Inductive outcome (A : Type) :=
  | Returned (a : A)
  | Thrown.
Arguments Returned {A} _.
Arguments Thrown {A}.

Section Allocators.
Context {R : Type} `{MemoryResource R}.

(** The part of a class the allocator code uses: its size, its constructor (for
    given arguments) and its destructor.  Both may use the resource. *)
Record Object := mkObject {
  object_size : Z;
  construct : nat → R → outcome unit * R;
  destroy : nat → R → R
}.

(** [polymorphic_allocator<T>::allocate(n)] and [deallocate(p, n)]: [n] objects. *)
Definition pmr_allocate (sizeof n : Z) (r : R) : option (nat * R) := allocate (n * sizeof) r.
Definition pmr_deallocate (sizeof : Z) (p : nat) (n : Z) (r : R) : R := deallocate p (n * sizeof) r.

Definition keryx_allocate_unique (T : Object) (r : R) : outcome nat * R :=
  match pmr_allocate (object_size T) 1 r with
  | None => (Thrown, r)
  | Some (p, r1) =>
      match construct T p r1 with
      | (Returned _, r2) => (Returned p, r2)
      | (Thrown, r2) => (Thrown, pmr_deallocate (object_size T) p 1 r2)
      end
  end.

(** [alloc_deleter::operator()] *)
Definition alloc_deleter (T : Object) (p : nat) (r : R) : R :=
  pmr_deallocate (object_size T) p 1 (destroy T p r).

(** ** main.cpp: [SimpleStream::clone_event], [make_snapshot_handler]

    Raw allocation and placement new, without a handler for an exception of the
    constructor. *)
Definition placement_new (T : Object) (r : R) : outcome nat * R :=
  match allocate (object_size T) r with
  | None => (Thrown, r)
  | Some (buffer, r1) =>
      match construct T buffer r1 with
      | (Returned _, r2) => (Returned buffer, r2)
      | (Thrown, r2) => (Thrown, r2)
      end
  end.

(** The lambda given to the [std::function] deleter. *)
Definition placement_delete (T : Object) (p : nat) (r : R) : R :=
  deallocate p (object_size T) (destroy T p r).

(** ** The benchmark loops *)

(** main.cpp, [alloc]: clone and reset, [n] times. *)
Fixpoint bm_alloc (T : Object) (n : nat) (r : R) : outcome unit * R :=
  match n with
  | O => (Returned tt, r)
  | S n =>
      match placement_new T r with
      | (Returned p, r1) => bm_alloc T n (placement_delete T p r1)
      | (Thrown, r1) => (Thrown, r1)
      end
  end.

(** alloc_bm.cpp, [alloc_monotonic] and the three like it:
    [alloc.deallocate(alloc.allocate(sizeof(Item)), sizeof(Item))]. *)
Fixpoint bm_allocator (sizeof_Item : Z) (n : nat) (r : R) : outcome unit * R :=
  match n with
  | O => (Returned tt, r)
  | S n =>
      match pmr_allocate sizeof_Item sizeof_Item r with
      | Some (p, r1) => bm_allocator sizeof_Item n (pmr_deallocate sizeof_Item p sizeof_Item r1)
      | None => (Thrown, r)
      end
  end.

(** ** Lemmas *)
Context {L : ResourceLaws R}.

(** An object whose constructor cleans up when it throws, and whose destructor
    returns what the constructor has allocated (the blocks [own]). *)
Record well_behaved (T : Object) : Prop := {
  wb_construct p r n r1 x : blocks r !! p = Some n → construct T p r = (x, r1) →
    blocks r ⊆ blocks r1 ∧ (x = Thrown → blocks r1 = blocks r);
  wb_destroy p r n r1 r2 : blocks r !! p = Some n → construct T p r = (Returned tt, r1) →
    blocks r1 ⊆ blocks r2 → blocks (destroy T p r2) = blocks r2 ∖ (blocks r1 ∖ blocks r)
}.

Lemma blocks_allocated n r p r' :
  allocate n r = Some (p, r') → blocks r' !! p = Some n ∧ delete p (blocks r') = blocks r.
Proof.
  intros Ha. destruct (allocate_blocks _ _ _ _ Ha) as [Hp ->].
  rewrite lookup_insert_eq. split; [done|]. by rewrite delete_insert_id.
Qed.

(** Destroying right after constructing, and deallocating, restores the blocks. *)
Lemma destroy_blocks T p r r1 r2 :
  well_behaved T → allocate (object_size T) r = Some (p, r1) →
  construct T p r1 = (Returned tt, r2) →
  blocks (deallocate p (object_size T) (destroy T p r2)) = blocks r.
Proof.
  intros Hwb Ha Hc. destruct (blocks_allocated _ _ _ _ Ha) as [Hp Hd].
  destruct (wb_construct _ Hwb _ _ _ _ _ Hp Hc) as [Hsub _].
  pose proof (wb_destroy _ Hwb _ _ _ _ r2 Hp Hc (reflexivity _)) as Hb.
  assert (Hb2 : blocks (destroy T p r2) = blocks r1).
  { rewrite Hb. apply map_eq. intros i. rewrite lookup_difference.
    rewrite (lookup_difference (blocks r2) (blocks r1)).
    destruct (blocks r1 !! i) as [m|] eqn:Hi.
    - by rewrite (lookup_weaken _ _ _ _ Hi Hsub).
    - by destruct (blocks r2 !! i). }
  rewrite deallocate_blocks by by rewrite Hb2. by rewrite Hb2.
Qed.
End Allocators.
