(* ===== verification/AllocatorTheorems.v ===== *)
(** * Properties of the allocator helpers; the type lists of mp_utils.h *)
From stdpp Require Import gmap.
From S2P Require Import Prelude Allocators.

#[local] Open Scope Z_scope.

(** ** A resource for the witnesses: the least free address, no limit *)
Definition Arena : Type := gmap nat Z.

#[export] Instance Arena_resource : MemoryResource Arena := {
  allocate n r := let p := fresh (dom r : gset nat) in Some (p, <[p := n]> r);
  deallocate p n r := delete p r
}.

#[export] Instance Arena_laws : ResourceLaws Arena.
Proof.
  refine {| blocks := λ r, r |}.
  - intros n r p r' [= <- <-]. split; [|done]. apply not_elem_of_dom, is_fresh.
  - done.
Defined.

(** [SimpleEvent]: 16 bytes, nothing in the constructor, nothing in the destructor. *)
Definition plain (n : Z) : Object (R := Arena) := mkObject n (λ _ r, (Returned tt, r)) (λ _ r, r).

(** A class whose constructor always throws. *)
Definition throwing (n : Z) : Object (R := Arena) := mkObject n (λ _ r, (Thrown, r)) (λ _ r, r).

Lemma difference_self (m : gmap nat Z) : m ∖ m = ∅.
Proof. apply map_difference_diag. Qed.

Lemma plain_well_behaved n : well_behaved (plain n).
Proof.
  constructor.
  - intros p r k r1 x _ [= <- <-]. done.
  - intros p r k r1 r2 _ [= <-] _. cbn. by rewrite difference_self, map_difference_empty.
Defined.

Lemma throwing_well_behaved n : well_behaved (throwing n).
Proof.
  constructor.
  - intros p r k r1 x _ [= <- <-]. done.
  - intros p r k r1 r2 _ H. discriminate H.
Defined.

(** ** [keryx_allocate_unique] *)

(** C26. [keryx_allocate_unique] is exception safe and its deleter undoes it:
    if it throws, every block it took has been returned; otherwise it owns a
    block of the right size, and deleting the pointer at any later time, while
    what it owns is still there, returns exactly what it took. *)
Theorem allocate_unique_is_exception_safe {R} `{ResourceLaws R} (T : Object) r x r' :
  well_behaved T → keryx_allocate_unique T r = (x, r') →
  match x with
  | Thrown => blocks r' = blocks r
  | Returned p => blocks r !! p = None ∧ blocks r' !! p = Some (object_size T) ∧
      blocks r ⊆ blocks r' ∧
      ∀ r2, blocks r' ⊆ blocks r2 →
        blocks (alloc_deleter T p r2) = blocks r2 ∖ (blocks r' ∖ blocks r)
  end.
Proof.
  intros Hwb. unfold keryx_allocate_unique, pmr_allocate, pmr_deallocate, alloc_deleter, pmr_deallocate.
  rewrite Z.mul_1_l. destruct (allocate (object_size T) r) as [[p r1]|] eqn:Ha; [|by intros [= <- <-]].
  destruct (allocate_blocks _ _ _ _ Ha) as [Hfree Hr1].
  destruct (blocks_allocated _ _ _ _ Ha) as [Hp Hd].
  destruct (construct T p r1) as [[[]|] r2] eqn:Hc; intros [= <- <-].
  2:{ destruct (wb_construct _ Hwb _ _ _ _ _ Hp Hc) as [_ Hsame]. specialize (Hsame eq_refl).
    by rewrite deallocate_blocks; rewrite Hsame. }
  destruct (wb_construct _ Hwb _ _ _ _ _ Hp Hc) as [Hsub _].
  split_and!; [done|by eapply lookup_weaken| |].
  { etrans; [|exact Hsub]. rewrite Hr1. by apply insert_subseteq. }
  intros r3 Hr3. pose proof (wb_destroy _ Hwb _ _ _ _ r3 Hp Hc Hr3) as Hb.
  assert (Hp2 : blocks r2 !! p = Some (object_size T)) by by eapply lookup_weaken.
  rewrite deallocate_blocks; rewrite Hb.
  2:{ apply lookup_difference_Some. split; [by eapply lookup_weaken|].
    by apply lookup_difference_None; right; eexists. }
  apply map_eq. intros i. rewrite lookup_delete, !lookup_difference, Hr1, lookup_insert.
  destruct (decide (p = i)) as [<-|Hne]; [|done].
  by rewrite Hfree, Hp2.
Qed.

Lemma allocate_unique_is_exception_safe_witness :
  keryx_allocate_unique (plain 16) (∅ : Arena) = (Returned 0%nat, {[0%nat := 16]}) ∧
  (∅ : Arena) !! 0%nat = None ∧
  (∀ r2, ({[0%nat := 16]} : Arena) ⊆ r2 →
     blocks (alloc_deleter (plain 16) 0 r2) = r2 ∖ ({[0%nat := 16]} ∖ ∅)) ∧
  keryx_allocate_unique (throwing 16) (∅ : Arena) = (Thrown, ∅) ∧ blocks (∅ : Arena) = ∅.
Proof.
  assert (E1 : keryx_allocate_unique (plain 16) (∅ : Arena) = (Returned 0%nat, {[0%nat := 16]}))
    by (vm_compute; reflexivity).
  assert (E2 : keryx_allocate_unique (throwing 16) (∅ : Arena) = (Thrown, ∅))
    by (vm_compute; reflexivity).
  pose proof (allocate_unique_is_exception_safe _ _ _ _ (plain_well_behaved 16) E1) as (Hn & _ & _ & Hd).
  pose proof (allocate_unique_is_exception_safe _ _ _ _ (throwing_well_behaved 16) E2) as Ht.
  split; [exact E1|]. split; [exact Hn|]. split; [exact Hd|]. split; [exact E2|exact Ht].
Defined.

(** ** The benchmark loops *)

(** The allocation benchmarks return every block they take, with the size
    they asked for, after any number of iterations; as long as the resource has
    memory and copying an event does not throw they run to the end. *)
Theorem allocation_loops_balance {R} `{ResourceLaws R} (T : Object) sizeof_Item n (r : R) :
  well_behaved T → (∀ p r, (construct T p r).1 = Returned tt) → (∀ k r, is_Some (allocate k r)) →
  (∃ r', bm_alloc T n r = (Returned tt, r') ∧ blocks r' = blocks r) ∧
  (∃ r', bm_allocator sizeof_Item n r = (Returned tt, r') ∧ blocks r' = blocks r).
Proof.
  intros Hwb Hnt Hmem. split; revert r; induction n as [|n IH]; intros r; try by exists r.
  - cbn [bm_alloc]. unfold placement_new, placement_delete.
    destruct (Hmem (object_size T) r) as [[p r1] Ha]. rewrite Ha.
    pose proof (Hnt p r1) as Hret. destruct (construct T p r1) as [x r2] eqn:Hc. cbn in Hret. subst x.
    destruct (IH (deallocate p (object_size T) (destroy T p r2))) as (r' & -> & Hb).
    exists r'. split; [done|]. rewrite Hb. by eapply destroy_blocks.
  - cbn [bm_allocator]. unfold pmr_allocate, pmr_deallocate.
    destruct (Hmem (sizeof_Item * sizeof_Item) r) as [[p r1] Ha]. rewrite Ha.
    destruct (IH (deallocate p (sizeof_Item * sizeof_Item) r1)) as (r' & -> & Hb).
    exists r'. split; [done|]. destruct (blocks_allocated _ _ _ _ Ha) as [Hp Hd].
    rewrite Hb. by rewrite deallocate_blocks.
Qed.

Lemma allocation_loops_balance_witness :
  (∃ r', bm_alloc (plain 16) 100 (∅ : Arena) = (Returned tt, r') ∧ blocks r' = blocks (∅ : Arena)) ∧
  (∃ r', bm_allocator 8 100 (∅ : Arena) = (Returned tt, r') ∧ blocks r' = blocks (∅ : Arena)).
Proof.
  apply (allocation_loops_balance (plain 16) 8 100 ∅ (plain_well_behaved 16)).
  - reflexivity.
  - intros k r. eexists. reflexivity.
Defined.

(** Unlike [keryx_allocate_unique], the factories of main.cpp lose their
    block when the constructor throws. *)
Theorem placement_new_leaks_on_throw {R} `{ResourceLaws R} (T : Object) (r r1 r2 : R) p :
  well_behaved T → allocate (object_size T) r = Some (p, r1) → construct T p r1 = (Thrown, r2) →
  placement_new T r = (Thrown, r2) ∧ blocks r2 = <[p := object_size T]> (blocks r) ∧
  blocks r2 ≠ blocks r.
Proof.
  intros Hwb Ha Hc. destruct (allocate_blocks _ _ _ _ Ha) as [Hfree Hr1].
  destruct (blocks_allocated _ _ _ _ Ha) as [Hp _].
  destruct (wb_construct _ Hwb _ _ _ _ _ Hp Hc) as [_ Hsame]. specialize (Hsame eq_refl).
  unfold placement_new. rewrite Ha, Hc. split_and!; [done|congruence|].
  rewrite Hsame. intros E. rewrite E in Hp. congruence.
Qed.

Lemma placement_new_leaks_on_throw_witness :
  placement_new (throwing 16) (∅ : Arena) = (Thrown, {[0%nat := 16]}) ∧
  blocks ({[0%nat := 16]} : Arena) ≠ blocks (∅ : Arena).
Proof.
  destruct (placement_new_leaks_on_throw (throwing 16) (∅ : Arena) {[0%nat := 16]} {[0%nat := 16]} 0%nat
    (throwing_well_behaved 16)) as (H1 & _ & H3); [vm_compute; reflexivity..|].
  split; [exact H1|exact H3].
Defined.

(** ** src/lib/utils/mp_utils.h: the position of a type in a list of types

    Types are the values of a type with decidable equality ([std::is_same]);
    [None] means that the template has no member [value]. *)
Section MpUtils.
Context {Ty : Type} `{EqDecision Ty}.

Fixpoint GetTypeIdxImp (N : Z) (Target : Ty) (TypeList : list Ty) : option Z :=
  match TypeList with
  | [] => None
  | First :: Rest => if decide (Target = First) then Some N else GetTypeIdxImp (N + 1) Target Rest
  end.

Definition GetTypeIdx (Target : Ty) (TypeList : list Ty) : option Z := GetTypeIdxImp 0 Target TypeList.

(** [std::tuple<TypeList...>] is a list of types. *)
Definition GetTypeIdxInTuple (Target : Ty) (TypeList : list Ty) : option Z :=
  GetTypeIdxImp 0 Target TypeList.

Lemma GetTypeIdxImp_find N Target TypeList :
  GetTypeIdxImp N Target TypeList = (λ x, N + Z.of_nat x.1) <$> list_find (Target =.) TypeList.
Proof.
  revert N. induction TypeList as [|x l IH]; intros N; [done|]. cbn.
  destruct (decide (Target = x)); cbn.
  - by rewrite Z.add_0_r.
  - rewrite IH. destruct (list_find _ l) as [[i y]|]; [|done]. cbn. f_equal. lia.
Qed.

(** [GetTypeIdx] is the position of the first occurrence of the type in the
    list, and does not exist for a type that is not in the list. *)
Theorem GetTypeIdx_first (Target : Ty) TypeList :
  match GetTypeIdx Target TypeList with
  | Some i => 0 ≤ i ∧ TypeList !! Z.to_nat i = Some Target ∧
      ∀ j, (j < Z.to_nat i)%nat → TypeList !! j ≠ Some Target
  | None => Target ∉ TypeList
  end.
Proof.
  unfold GetTypeIdx. rewrite GetTypeIdxImp_find.
  destruct (list_find _ _) as [[i y]|] eqn:Hf; cbn -[Z.add]; rewrite ?Z.add_0_l.
  - apply list_find_Some in Hf as (Hi & <- & Hmin). rewrite Nat2Z.id.
    split_and!; [lia|done|]. intros j Hj Hl. by apply (Hmin j Target).
  - apply list_find_None in Hf. rewrite Forall_forall in Hf. intros Hin. by apply (Hf Target).
Qed.
End MpUtils.
