(* ===== verification/BrokerTyping.v ===== *)
(** * What the wrappers of Producer.h and Consumer.h guarantee

    The broker handles events of all types alike; the templates see to it that
    a producer only publishes events of its stream type.  [typed_prog] is their
    discipline, as a type system for client code; [typed] is the invariant it
    maintains: queued and delivered events have the type of their stream, and a
    consumer is only told about streams of the type it asked for. *)
From S2P Require Import Prelude BrokerCommon OldBroker BrokerInvariant BrokerSafety BrokerRun Typed.
#[local] Open Scope Z_scope.

Section Typing.
Context {T : KeryxTypes}.

(** The events of a stream type, and the handles kept in the client's state with
    the stream types of their wrappers. *)
Variable has_type : StreamTypeID → Event → Prop.
Variable handles : UserState → gmap ptr StreamTypeID.

Definition typed_note (m : NotificationImpl) : Prop :=
  Forall (has_type (stream_type_id (topic m))) (events m).

(** Client code that may use the producers [G] as producers of these types.  A
    handler may count on well-typed notifications of the type it filters for. *)
Fixpoint typed_prog (G : gmap ptr StreamTypeID) (k : Prog) : Prop :=
  match k with
  | Return => True
  | User f k => ∀ D u, G ⊆ D → handles u ⊆ D →
      handles (f u) ⊆ D ∧ ∃ G', G' ⊆ D ∧ typed_prog G' (k (f u))
  | MakeProducer s t _ k => ∀ p, G !! p = None → typed_prog (<[p := stream_type_id t]> G) (k p)
  | DoPublish p ev k => (∃ st, G !! p = Some st ∧ has_type st ev) ∧ typed_prog G k
  | DoDestroyProducer p k => typed_prog G k
  | MakeConsumer f h k =>
      (∀ m, typed_note m → stream_type_id (topic m) = filter_type_id f → typed_prog G (h m)) ∧
      ∀ c, typed_prog G (k c)
  | DoDestroyConsumer c k => typed_prog G k
  end.

(** [D]: the stream type of every producer ever made. *)
Record typed (D : gmap ptr StreamTypeID) (w : World) : Prop := {
  ty_obj : ∀ p o, pobj w p = Some o → D !! p = Some (stream_type_id (p_topic o));
  ty_fresh : ∀ p st, D !! p = Some st → (p < next_ptr (heap w))%nat;
  ty_cfresh : ∀ c oc, cobj w c = Some oc → (c < next_ptr (heap w))%nat;
  ty_queue : ∀ p ev, Publish p ev ∈ pending_actions (me w) →
    ∃ st, D !! p = Some st ∧ has_type st ev;
  ty_user : handles (user (client w)) ⊆ D;
  ty_handler : ∀ c oc h m, cobj w c = Some oc → c_notify oc = user_handler h →
    typed_note m → stream_type_id (topic m) = filter_type_id (c_filter oc) →
    ∃ G, G ⊆ D ∧ typed_prog G (h m);
  ty_subs : ∀ p o c, pobj w p = Some o → c ∈ p_consumers o →
    (c < next_ptr (heap w))%nat ∧
    ∀ oc, cobj w c = Some oc → filter_type_id (c_filter oc) = stream_type_id (p_topic o);
  ty_trace : ∀ c m, (c, m) ∈ trace (client w) → typed_note m ∧ (c < next_ptr (heap w))%nat ∧
    ∀ oc, cobj w c = Some oc → filter_type_id (c_filter oc) = stream_type_id (topic m)
}.

(** Objects keep their topic and their filter as long as they live. *)
Record grows (w w' : World) : Prop := {
  gr_next : (next_ptr (heap w) ≤ next_ptr (heap w'))%nat;
  gr_pobj : ∀ p o', pobj w' p = Some o' → (p < next_ptr (heap w))%nat →
    ∃ o, pobj w p = Some o ∧ p_topic o' = p_topic o;
  gr_cobj : ∀ c o', cobj w' c = Some o' → (c < next_ptr (heap w))%nat →
    ∃ o, cobj w c = Some o ∧ c_filter o' = c_filter o
}.

#[export] Instance grows_preorder : PreOrder grows.
Proof.
  split.
  - intros w. constructor; eauto.
  - intros w1 w2 w3 [N1 P1 C1] [N2 P2 C2]. constructor; [lia| |].
    + intros p o3 H3 Hp. destruct (P2 p o3 H3 ltac:(lia)) as (o2 & H2 & E2).
      destruct (P1 p o2 H2 Hp) as (o1 & H1 & E1). exists o1. split; congruence.
    + intros c o3 H3 Hc. destruct (C2 c o3 H3 ltac:(lia)) as (o2 & H2 & E2).
      destruct (C1 c o2 H2 Hc) as (o1 & H1 & E1). exists o1. split; congruence.
Qed.

(** Every way a computation can end keeps the state well typed. *)
Definition typed_by {A} (m : M A) (Q : A → gmap ptr StreamTypeID → World → Prop)
    (D : gmap ptr StreamTypeID) (w : World) : Prop :=
  ∀ w' a, m w = Ok (w', a) → ∃ D', D ⊆ D' ∧ typed D' w' ∧ grows w w' ∧ Q a D' w'.

Lemma typed_by_ret {A} (a : A) (Q : A → gmap ptr StreamTypeID → World → Prop) D w :
  typed D w → Q a D w → typed_by (mret a) Q D w.
Proof. intros Ht HQ w' a' [= <- <-]. by exists D. Qed.

Lemma typed_by_bind {A B} (m : M A) (k : A → M B) P Q D w :
  typed_by m P D w →
  (∀ a D' w', D ⊆ D' → typed D' w' → grows w w' → P a D' w' → typed_by (k a) Q D' w') →
  typed_by (a ← m; k a) Q D w.
Proof.
  intros Hm Hk w2 b. unfold mbind, M_bind. destruct (m w) as [[w1 a]|f] eqn:E; [|done].
  intros Hb. destruct (Hm w1 a E) as (D1 & HD1 & Ht1 & Hg1 & HP).
  destruct (Hk a D1 w1 HD1 Ht1 Hg1 HP w2 b Hb) as (D2 & HD2 & Ht2 & Hg2 & HQ).
  exists D2. split_and!; [by etrans|done|by etrans|done].
Qed.

Lemma typed_by_mono {A} (m : M A) P Q D w :
  typed_by m P D w → (∀ a D' w', P a D' w' → Q a D' w') → typed_by m Q D w.
Proof.
  intros Hm HPQ w' a E. destruct (Hm w' a E) as (D' & ? & ? & ? & ?). exists D'. auto.
Qed.

(** A loop whose body is fine in every later state. *)
Lemma typed_by_for_each {A} (l : list A) (f : A → M unit) D w :
  typed D w →
  (∀ a D' w', a ∈ l → D ⊆ D' → typed D' w' → grows w w' → typed_by (f a) (λ _ _ _, True) D' w') →
  typed_by (for_each l f) (λ _ _ _, True) D w.
Proof.
  revert D w. induction l as [|a l IH]; intros D w Ht Hf; [by apply typed_by_ret|].
  cbn [for_each]. eapply typed_by_bind; [apply Hf; [by left|done|done|done]|].
  intros _ D1 w1 HD1 Ht1 Hg1 _. apply IH; [done|].
  intros b D2 w2 Hb HD2 Ht2 Hg2. apply Hf; [by right|by etrans|done|by etrans].
Qed.

(** Reading the state. *)
Lemma typed_by_read {A B} (m : M A) (k : A → M B) Q D w :
  typed D w → (∀ w' a, m w = Ok (w', a) → w' = w ∧ typed_by (k a) Q D w) →
  typed_by (a ← m; k a) Q D w.
Proof.
  intros Ht Hm w2 b. unfold mbind, M_bind. destruct (m w) as [[w1 a]|f] eqn:E; [|done].
  destruct (Hm w1 a eq_refl) as [-> Hk]. apply Hk.
Qed.

Lemma typed_by_deref_producer {B} p (k : ProducerImpl → M B) Q D w :
  typed D w → (∀ o, pobj w p = Some o → typed_by (k o) Q D w) →
  typed_by (o ← deref_producer p; k o) Q D w.
Proof.
  intros Ht Hk. apply typed_by_read; [done|]. intros w' o. unfold deref_producer.
  destruct (producer_objs (heap w) !! p) as [o1|] eqn:Ho; [|done]. intros [= <- <-]. auto.
Qed.

Lemma typed_by_deref_consumer {B} c (k : ConsumerImpl → M B) Q D w :
  typed D w → (∀ o, cobj w c = Some o → typed_by (k o) Q D w) →
  typed_by (o ← deref_consumer c; k o) Q D w.
Proof.
  intros Ht Hk. apply typed_by_read; [done|]. intros w' o. unfold deref_consumer.
  destruct (consumer_objs (heap w) !! c) as [o1|] eqn:Ho; [|done]. intros [= <- <-]. auto.
Qed.

Lemma typed_by_modify (f : World → World) D w :
  typed D (f w) → grows w (f w) → typed_by (modify f) (λ _ D' w', D' = D ∧ w' = f w) D w.
Proof. intros Ht Hg w' a [= <- <-]. by exists D. Qed.

(** ** State changes *)

(** From [w] to [w'] objects may have lost consumers or their handler, or gone;
    only actions that publish nothing have been queued. *)
Record shrinks (w w' : World) : Prop := {
  sh_next : next_ptr (heap w') = next_ptr (heap w);
  sh_pobj : ∀ p o', pobj w' p = Some o' → ∃ o, pobj w p = Some o ∧ p_topic o' = p_topic o ∧
    ∀ c, c ∈ p_consumers o' → c ∈ p_consumers o;
  sh_cobj : ∀ c o', cobj w' c = Some o' → ∃ o, cobj w c = Some o ∧ c_filter o' = c_filter o ∧
    (c_notify o' = c_notify o ∨ c_notify o' = no_handler);
  sh_queue : ∀ p ev, Publish p ev ∈ pending_actions (me w') → Publish p ev ∈ pending_actions (me w);
  sh_user : user (client w') = user (client w);
  sh_trace : trace (client w') = trace (client w)
}.

Lemma shrinks_grows w w' : shrinks w w' → grows w w'.
Proof.
  intros []. constructor; [lia| |].
  - intros p o' Ho' _. destruct (sh_pobj0 p o' Ho') as (o & ? & ? & _). eauto.
  - intros c o' Ho' _. destruct (sh_cobj0 c o' Ho') as (o & ? & ? & _). eauto.
Qed.

Lemma shrinks_typed D w w' : shrinks w w' → typed D w → typed D w'.
Proof.
  intros [] []. constructor; rewrite ?sh_next0, ?sh_user0, ?sh_trace0; auto.
  - intros p o' Ho'. destruct (sh_pobj0 p o' Ho') as (o & ? & -> & _). auto.
  - intros c o' Ho'. destruct (sh_cobj0 c o' Ho') as (o & ? & _). eauto.
  - intros c o' h m Ho' Hn Hm Hf. destruct (sh_cobj0 c o' Ho') as (o & Ho & Ef & [E|E]); [|congruence].
    apply (ty_handler0 c o h m); congruence.
  - intros p o' c Ho' Hc. destruct (sh_pobj0 p o' Ho') as (o & Ho & -> & Hsub).
    destruct (ty_subs0 p o c Ho (Hsub c Hc)) as [Hlt Hf]. split; [done|].
    intros oc' Hoc'. destruct (sh_cobj0 c oc' Hoc') as (oc & Hoc & -> & _). auto.
  - intros c m Hm. destruct (ty_trace0 c m Hm) as (? & ? & Hf). split_and!; [done|done|].
    intros oc' Hoc'. destruct (sh_cobj0 c oc' Hoc') as (oc & Hoc & -> & _). auto.
Qed.

Lemma typed_by_shrink (f : World → World) D w :
  typed D w → shrinks w (f w) → typed_by (modify f) (λ _ D' w', D' = D ∧ w' = f w) D w.
Proof.
  intros Ht Hs. apply typed_by_modify; [by eapply shrinks_typed|by apply shrinks_grows].
Qed.

(** Changes that leave the objects alone. *)
Lemma shrinks_frame w w' :
  heap w' = heap w → user (client w') = user (client w) → trace (client w') = trace (client w) →
  (∀ p ev, Publish p ev ∈ pending_actions (me w') → Publish p ev ∈ pending_actions (me w)) →
  shrinks w w'.
Proof.
  intros Hh Hu Ht Hq. constructor; unfold pobj, cobj; rewrite ?Hh; auto; eauto 10.
Qed.

Lemma put_shrinks w p o o' :
  pobj w p = Some o → p_topic o' = p_topic o → (∀ c, c ∈ p_consumers o' → c ∈ p_consumers o) →
  shrinks w (put_producer p o' w).
Proof.
  intros Ho Ht Hc. constructor; auto; [|eauto 10].
  intros p1 o1. unfold pobj at 1, put_producer, set_heap. cbn. rewrite lookup_insert.
  destruct (decide (p = p1)) as [<-|]; [|by eauto]. intros [= <-]. eauto.
Qed.

Lemma free_producer_shrinks w p : shrinks w (free_producer p w).
Proof.
  constructor; auto; [|eauto 10].
  intros p1 o1. unfold pobj at 1, free_producer, set_heap. cbn. rewrite lookup_delete.
  destruct (decide (p = p1)); [done|by eauto].
Qed.

Lemma free_consumer_shrinks w c : shrinks w (free_consumer c w).
Proof.
  constructor; auto; [by eauto|].
  intros c1 o1. unfold cobj at 1, free_consumer, set_heap. cbn. rewrite lookup_delete.
  destruct (decide (c = c1)); [done|by eauto].
Qed.

Lemma mute_shrinks w c o :
  cobj w c = Some o → shrinks w (put_consumer c (mkConsumer (c_filter o) no_handler) w).
Proof.
  intros Ho. constructor; auto; [by eauto|].
  intros c1 o1. unfold cobj at 1, put_consumer, set_heap. cbn. rewrite lookup_insert.
  destruct (decide (c = c1)) as [<-|]; [|by eauto]. intros [= <-]. eauto.
Qed.

(** *** Changes that add something *)
Lemma enqueue_typed D w a :
  typed D w → (∀ p ev, a = Publish p ev → ∃ st, D !! p = Some st ∧ has_type st ev) →
  typed_by (enqueue a) (λ _ D' _, D' = D) D w.
Proof.
  intros Ht Ha. eapply typed_by_mono; [apply typed_by_modify|by intros _ D' w' [-> _]].
  - destruct Ht. constructor; auto. cbn. intros p ev [Hp|Hp]%elem_of_app; [by auto|].
    apply list_elem_of_singleton in Hp. by apply Ha.
  - constructor; eauto.
Qed.

Lemma log_typed D w c m :
  typed D w → typed_note m → (c < next_ptr (heap w))%nat →
  (∀ oc, cobj w c = Some oc → filter_type_id (c_filter oc) = stream_type_id (topic m)) →
  typed D (log c m w).
Proof.
  intros [] Hm Hlt Hf. constructor; auto. cbn. intros c' m' [Hin|Hin]%elem_of_app; [by auto|].
  apply list_elem_of_singleton in Hin. injection Hin as -> ->. auto.
Qed.

Lemma push_typed D w p o c oc :
  typed D w → pobj w p = Some o → cobj w c = Some oc →
  filter_type_id (c_filter oc) = stream_type_id (p_topic o) →
  typed D (put_producer p (push_consumer c o) w).
Proof.
  intros [] Ho Hoc Hf.
  assert (Hback : ∀ p1 o1, pobj (put_producer p (push_consumer c o) w) p1 = Some o1 →
    pobj w p1 = Some o1 ∨ p1 = p ∧ o1 = push_consumer c o).
  { intros p1 o1. unfold pobj at 1, put_producer, set_heap. cbn. rewrite lookup_insert.
    destruct (decide (p = p1)) as [<-|]; [|by auto]. intros [= <-]. auto. }
  constructor; auto.
  - intros p1 o1 [H1|[-> ->]]%Hback; [by auto|]. by apply (ty_obj0 p o).
  - intros p1 o1 c1 [H1|[-> ->]]%Hback Hc1; [by eapply ty_subs0|].
    apply elem_of_app in Hc1 as [Hc1| ->%list_elem_of_singleton].
    + by apply (ty_subs0 p o c1).
    + split; [by eapply ty_cfresh0|]. intros oc1 Hoc1. change (cobj w c = Some oc1) in Hoc1.
      rewrite Hoc in Hoc1. by injection Hoc1 as <-.
Qed.

Lemma new_producer_typed D w s t ini :
  typed D w →
  typed_by (new_producer s t ini)
    (λ p D' _, D !! p = None ∧ D' = <[p := stream_type_id t]> D) D w.
Proof.
  intros Ht w' p [= <- <-]. set (p := next_ptr (heap w)).
  assert (Hnew : D !! p = None).
  { destruct (D !! p) eqn:E; [|done]. pose proof (ty_fresh _ _ Ht p _ E). unfold p in *. lia. }
  assert (HD : D ⊆ <[p := stream_type_id t]> D) by by apply insert_subseteq.
  exists (<[p := stream_type_id t]> D). split_and!; [done| | |done|done].
  - destruct Ht. constructor; world_simpl; auto.
    + intros p1 o1 [[<- <-]|[Hne Ho]]%lookup_insert_Some; [by rewrite lookup_insert_eq|].
      rewrite lookup_insert_ne by done. by apply ty_obj0.
    + intros p1 st [[<- _]|[Hne Hp1]]%lookup_insert_Some; [unfold p; lia|].
      pose proof (ty_fresh0 p1 st Hp1). lia.
    + intros c oc Hoc. pose proof (ty_cfresh0 c oc Hoc). lia.
    + intros p1 ev Hin. destruct (ty_queue0 p1 ev Hin) as (st & Hst & Hev).
      exists st. split; [by eapply lookup_weaken|done].
    + by etrans.
    + intros c oc h m Hoc Hn Hm Hf. destruct (ty_handler0 c oc h m Hoc Hn Hm Hf) as (G & HG & Hk).
      exists G. split; [by etrans|done].
    + intros p1 o1 c [[<- <-]|[Hne Ho]]%lookup_insert_Some Hc; [by apply not_elem_of_nil in Hc|].
      destruct (ty_subs0 p1 o1 c Ho Hc). split; [lia|done].
    + intros c m Hm. destruct (ty_trace0 c m Hm) as (? & ? & ?). split_and!; [done|lia|done].
  - constructor; world_simpl; [lia| |by eauto].
    intros p1 o1 [[<- _]|[Hne Ho]]%lookup_insert_Some Hlt; [unfold p in Hlt; lia|]. eauto.
Qed.

Lemma new_consumer_typed D w f h G :
  typed D w → G ⊆ D →
  (∀ m, typed_note m → stream_type_id (topic m) = filter_type_id f → typed_prog G (h m)) →
  typed_by (new_consumer f h) (λ _ D' _, D' = D) D w.
Proof.
  intros Ht HG Hh w' c [= <- <-]. set (c := next_ptr (heap w)).
  assert (Hnew : cobj w c = None).
  { destruct (cobj w c) eqn:E; [|done]. pose proof (ty_cfresh _ _ Ht c _ E). unfold c in *. lia. }
  exists D. split_and!; [done| | |done].
  - destruct Ht. constructor; world_simpl; auto.
    + intros p st Hp. pose proof (ty_fresh0 p st Hp). lia.
    + intros c1 o1 [[<- _]|[Hne Ho]]%lookup_insert_Some; [unfold c; lia|].
      pose proof (ty_cfresh0 c1 o1 Ho). lia.
    + intros c1 o1 h1 m [[<- <-]|[Hne Ho]]%lookup_insert_Some Hn Hm Hf; [|by eapply ty_handler0].
      injection Hn as <-. eauto.
    + intros p o c1 Ho Hc1. destruct (ty_subs0 p o c1 Ho Hc1) as [Hlt Hf]. split; [lia|].
      intros oc [[<- _]|[Hne Hoc]]%lookup_insert_Some; [unfold c in Hlt; lia|auto].
    + intros c1 m Hm. destruct (ty_trace0 c1 m Hm) as (? & Hlt & Hf). split_and!; [done|lia|].
      intros oc [[<- _]|[Hne Hoc]]%lookup_insert_Some; [unfold c in Hlt; lia|auto].
  - constructor; world_simpl; [lia|by eauto|].
    intros c1 o1 [[<- _]|[Hne Ho]]%lookup_insert_Some Hlt; [unfold c in Hlt; lia|]. eauto.
Qed.

(** ** Client code *)
Definition any {A} : A → gmap ptr StreamTypeID → World → Prop := λ _ _ _, True.

Lemma typed_by_any {A} (m : M A) P D w : typed_by m P D w → typed_by m any D w.
Proof. intros H. by eapply typed_by_mono. Qed.

(** After a step that left [D] alone. *)
Lemma typed_by_seq (m : M unit) (k : M unit) D w :
  typed_by m (λ _ D' _, D' = D) D w →
  (∀ w', typed D w' → grows w w' → typed_by k any D w') →
  typed_by (_ ← m; k) any D w.
Proof.
  intros Hm Hk. eapply typed_by_bind; [exact Hm|].
  intros a D' w' _ Ht Hg ->. by apply Hk.
Qed.

Lemma typed_by_seq_shrink (f : World → World) (k : M unit) D w :
  typed D w → shrinks w (f w) → (∀ w', typed D w' → grows w w' → typed_by k any D w') →
  typed_by (_ ← modify f; k) any D w.
Proof.
  intros Ht Hs Hk. apply typed_by_seq; [|done].
  eapply typed_by_mono; [by apply typed_by_shrink|]. by intros _ D' w' [-> _].
Qed.

Lemma set_open_shrinks f g w : shrinks w (set_open f g w).
Proof. by apply shrinks_frame. Qed.

Lemma typed_by_holds_producer p (k : M unit) D w :
  typed D w → typed_by k any D w → typed_by (_ ← holds_producer p; k) any D w.
Proof.
  intros Ht Hk. apply typed_by_read; [done|]. intros w' []. unfold holds_producer.
  destruct (decide _); [|done]. by intros [= <-].
Qed.

Lemma typed_by_holds_consumer c (k : M unit) D w :
  typed D w → typed_by k any D w → typed_by (_ ← holds_consumer c; k) any D w.
Proof.
  intros Ht Hk. apply typed_by_read; [done|]. intros w' []. unfold holds_consumer.
  destruct (decide _); [|done]. by intros [= <-].
Qed.

Lemma set_user_typed D w u : typed D w → handles u ⊆ D → typed D (set_user u w).
Proof. intros [] Hu. by constructor. Qed.

Lemma destroy_consumer_typed D w c : typed D w → typed_by (destroy_consumer c) (λ _ D' _, D' = D) D w.
Proof.
  intros Ht. apply typed_by_deref_consumer; [done|]. intros o Ho.
  eapply typed_by_bind; [apply typed_by_shrink; [done|by apply mute_shrinks]|].
  intros _ D' w' _ Ht' _ [-> _]. by apply enqueue_typed.
Qed.

Lemma make_producer_typed D w s t ini :
  typed D w →
  typed_by (make_producer s t ini)
    (λ p D' _, D !! p = None ∧ D' = <[p := stream_type_id t]> D) D w.
Proof.
  intros Ht. eapply typed_by_bind; [by apply new_producer_typed|].
  intros p D' w' _ Ht' _ [Hn ->].
  eapply typed_by_bind; [by apply enqueue_typed|].
  intros _ D'' w'' _ Ht'' _ ->. by apply typed_by_ret.
Qed.

Lemma make_consumer_typed D w f h G :
  typed D w → G ⊆ D →
  (∀ m, typed_note m → stream_type_id (topic m) = filter_type_id f → typed_prog G (h m)) →
  typed_by (make_consumer f h) (λ _ D' _, D' = D) D w.
Proof.
  intros Ht HG Hh. eapply typed_by_bind; [by eapply new_consumer_typed|].
  intros c D' w' _ Ht' _ ->. eapply typed_by_bind; [by apply enqueue_typed|].
  intros _ D'' w'' _ Ht'' _ ->. by apply typed_by_ret.
Qed.

Lemma run_prog_typed k G D w :
  typed D w → G ⊆ D → typed_prog G k → typed_by (run_prog k) any D w.
Proof.
  revert G D w. induction k as [|f k IH|s t ini k IH|p ev k IH|p k IH|f h _ k IH|c k IH];
    intros G D w Ht HG Hk; cbn [run_prog typed_prog] in *.
  - by apply typed_by_ret.
  - destruct (Hk D (user (client w)) HG (ty_user _ _ Ht)) as (Hu & G' & HG' & Hk').
    apply typed_by_read; [done|]. intros w' u [= -> <-]. split; [done|].
    apply typed_by_seq.
    + eapply typed_by_mono; [apply typed_by_modify|by intros _ D' w2 [-> _]].
      * by apply set_user_typed.
      * constructor; eauto.
    + intros w2 Ht2 _. by apply (IH _ G').
  - eapply typed_by_bind; [by apply make_producer_typed|].
    intros p D' w' _ Ht' _ [Hn ->]. apply typed_by_seq_shrink; [done|apply set_open_shrinks|].
    intros w2 Ht2 _. apply (IH p (<[p := stream_type_id t]> G)); [done|by apply insert_mono|].
    apply Hk. by eapply lookup_weaken_None.
  - destruct Hk as [(st & Hst & Hev) Hk]. apply typed_by_holds_producer; [done|].
    apply typed_by_seq; [|intros w2 Ht2 _; by apply (IH G)].
    apply enqueue_typed; [done|]. intros p' ev' [= <- <-]. exists st.
    split; [by eapply lookup_weaken|done].
  - apply typed_by_holds_producer; [done|]. apply typed_by_seq; [by apply enqueue_typed|].
    intros w2 Ht2 _. apply typed_by_seq_shrink; [done|apply set_open_shrinks|].
    intros w3 Ht3 _. by apply (IH G).
  - destruct Hk as [Hh Hk]. eapply typed_by_bind; [by eapply make_consumer_typed|].
    intros c D' w' _ Ht' _ ->. apply typed_by_seq_shrink; [done|apply set_open_shrinks|].
    intros w2 Ht2 _. by apply (IH c G).
  - apply typed_by_holds_consumer; [done|]. apply typed_by_seq; [by apply destroy_consumer_typed|].
    intros w2 Ht2 _. apply typed_by_seq_shrink; [done|apply set_open_shrinks|].
    intros w3 Ht3 _. by apply (IH G).
Qed.

(** ** The broker *)

(** [c], if it is still there, wants the type [st]. *)
Definition wants_type (st : StreamTypeID) (c : ptr) (w : World) : Prop :=
  (c < next_ptr (heap w))%nat ∧
  ∀ oc, cobj w c = Some oc → filter_type_id (c_filter oc) = st.

Lemma wants_type_grows st c w w' : wants_type st c w → grows w w' → wants_type st c w'.
Proof.
  intros [Hlt Hf] []. split; [lia|]. intros oc Hoc.
  destruct (gr_cobj0 c oc Hoc Hlt) as (o & Ho & ->). auto.
Qed.

Lemma call_notify_typed D w c m :
  typed D w → typed_note m → wants_type (stream_type_id (topic m)) c w →
  typed_by (call_notify c m) any D w.
Proof.
  intros Ht Hm [Hlt Hf]. apply typed_by_deref_consumer; [done|]. intros oc Hoc.
  destruct (c_notify oc) as [h|] eqn:Hn; [|by apply typed_by_ret].
  destruct (ty_handler _ _ Ht c oc h m Hoc Hn Hm) as (G & HG & Hk); [by symmetry; apply Hf|].
  apply typed_by_seq.
  - eapply typed_by_mono; [apply typed_by_modify|by intros _ D' w2 [-> _]].
    + by apply log_typed.
    + constructor; eauto.
  - intros w2 Ht2 _. by eapply run_prog_typed.
Qed.

Lemma notify_all_typed D w m cs :
  typed D w → typed_note m → (∀ c, c ∈ cs → wants_type (stream_type_id (topic m)) c w) →
  typed_by (for_each cs (λ c, call_notify c m)) any D w.
Proof.
  intros Ht Hm Hcs. apply typed_by_for_each; [done|].
  intros c D' w' Hc _ Ht' Hg. apply call_notify_typed; [done|done|].
  eapply wants_type_grows; [by apply Hcs|done].
Qed.

Lemma maybe_add_typed D w p c : typed D w → typed_by (maybe_add p c) any D w.
Proof.
  intros Ht. apply typed_by_deref_producer; [done|]. intros o Ho.
  apply typed_by_deref_consumer; [done|]. intros oc Hoc.
  destruct (is_match (p_topic o) (c_filter oc)) eqn:Hm; [|by apply typed_by_ret].
  unfold is_match in Hm. apply andb_prop in Hm as [Hf%bool_decide_eq_true _].
  apply typed_by_seq.
  - eapply typed_by_mono; [apply typed_by_modify|by intros _ D' w2 [-> _]].
    + by eapply push_typed.
    + constructor; [done| |by eauto]. intros p1 o1. unfold pobj at 1, put_producer, set_heap.
      cbn. rewrite lookup_insert. destruct (decide (p = p1)) as [<-|]; [|by eauto].
      intros [= <-] _. by exists o.
  - intros w2 Ht2 Hg. apply call_notify_typed; [done|by constructor|].
    eapply wants_type_grows; [|exact Hg]. split; [by eapply ty_cfresh|].
    intros oc1 Hoc1. rewrite Hoc in Hoc1. by injection Hoc1 as <-.
Qed.

Lemma maybe_remove_typed D w p c : typed D w → typed_by (maybe_remove p c) any D w.
Proof.
  intros Ht. apply typed_by_deref_producer; [done|]. intros o Ho.
  eapply typed_by_any, typed_by_shrink; [done|]. apply (put_shrinks w p o); [done|done|].
  cbn. intros c'. generalize (p_consumers o) as l. induction l as [|x l IH]; [done|]. cbn.
  destruct (decide (x = c)); set_solver.
Qed.

Lemma delete_producer_typed D w p : typed D w → typed_by (delete_producer p) any D w.
Proof.
  intros Ht. apply typed_by_deref_producer; [done|]. intros o Ho.
  eapply typed_by_bind; [apply notify_all_typed; [done|by constructor|]|].
  { intros c Hc. exact (ty_subs _ _ Ht p o c Ho Hc). }
  intros _ D' w' _ Ht' _ _. eapply typed_by_any, typed_by_shrink; [done|apply free_producer_shrinks].
Qed.

Lemma delete_consumer_typed D w c : typed D w → typed_by (delete_consumer c) any D w.
Proof.
  intros Ht. apply typed_by_deref_consumer; [done|]. intros o Ho.
  eapply typed_by_any, typed_by_shrink; [done|apply free_consumer_shrinks].
Qed.

Lemma producer_publish_typed D w p ev st :
  typed D w → D !! p = Some st → has_type st ev → typed_by (producer_publish p ev) any D w.
Proof.
  intros Ht Hst Hev. apply typed_by_deref_producer; [done|]. intros o Ho.
  pose proof (ty_obj _ _ Ht p o Ho) as Hst'. rewrite Hst in Hst'. injection Hst' as ->.
  eapply typed_by_bind; [apply notify_all_typed; [done|by repeat constructor|]|].
  { intros c Hc. exact (ty_subs _ _ Ht p o c Ho Hc). }
  intros _ D' w' _ Ht' _ _. apply typed_by_deref_producer; [done|]. intros o' Ho'.
  eapply typed_by_any, typed_by_shrink; [done|by eapply put_shrinks].
Qed.

Lemma visit_typed nd a D w :
  typed D w → (∀ p ev, a = Publish p ev → ∃ st, D !! p = Some st ∧ has_type st ev) →
  typed_by (visit nd a) any D w.
Proof.
  intros Ht Ha. destruct a as [p|p|p ev|c|c]; cbn [visit].
  - apply typed_by_seq_shrink; [done|by apply shrinks_frame|]. intros w1 Ht1 _.
    apply typed_by_read; [done|]. intros w2 cs [= -> <-]. split; [done|].
    apply typed_by_for_each; [done|]. intros c D' w' _ _ Ht' _. by apply maybe_add_typed.
  - apply typed_by_read; [done|]. intros w2 ps [= -> <-]. split; [done|].
    destruct (decide _); [|by intros ??].
    apply typed_by_seq_shrink; [done|by apply shrinks_frame|]. intros w1 Ht1 _.
    by apply delete_producer_typed.
  - destruct (Ha p ev eq_refl) as (st & Hst & Hev). by eapply producer_publish_typed.
  - apply typed_by_seq_shrink; [done|by apply shrinks_frame|]. intros w1 Ht1 _.
    apply typed_by_read; [done|]. intros w2 ps [= -> <-]. split; [done|].
    apply typed_by_for_each; [done|]. intros p D' w' _ _ Ht' _. by apply maybe_add_typed.
  - apply typed_by_read; [done|]. intros w2 ps [= -> <-]. split; [done|].
    eapply typed_by_bind.
    { apply typed_by_for_each; [done|]. intros p D' w' _ _ Ht' _. by apply maybe_remove_typed. }
    intros _ D1 w1 _ Ht1 _ _. apply typed_by_read; [done|]. intros w3 cs [= -> <-]. split; [done|].
    destruct (decide _); [|by intros ??].
    apply typed_by_seq_shrink; [done|by apply shrinks_frame|]. intros w4 Ht4 _.
    by apply delete_consumer_typed.
Qed.

Lemma do_work_typed fuel nd D w : typed D w → typed_by (do_work fuel nd) any D w.
Proof.
  revert D w. induction fuel as [|fuel IH]; intros D w Ht; [by intros ??|].
  intros w2 a. cbn [do_work]. unfold pop_front.
  destruct (pending_actions (me w)) as [|x q] eqn:Hq.
  { intros [= <- <-]. by exists D. }
  intros Hrun. set (w1 := set_me _ w) in Hrun.
  assert (Hs : shrinks w w1).
  { apply shrinks_frame; [done..|]. cbn. rewrite Hq. intros p ev Hp. by right. }
  pose proof (shrinks_typed _ _ _ Hs Ht) as Ht1.
  enough (Hm : typed_by (_ ← visit nd x; do_work fuel nd) any D w1).
  { destruct (Hm w2 a Hrun) as (D2 & ? & ? & Hg & ?). exists D2. split_and!; [done|done| |done].
    etrans; [by apply shrinks_grows|done]. }
  eapply typed_by_bind; [apply visit_typed; [done|]|by intros; apply IH].
  intros p ev ->. apply (ty_queue _ _ Ht). rewrite Hq. by left.
Qed.

(** ** Programs *)
Definition typed_call (a : Call) : Prop :=
  match a with
  | Code k => typed_prog ∅ k
  | Work => True
  end.

Lemma run_calls_typed fuel nd l D w :
  typed D w → Forall typed_call l → typed_by (run_calls fuel nd l) any D w.
Proof.
  intros Ht Hl. rewrite Forall_forall in Hl. apply typed_by_for_each; [done|].
  intros a D' w' Ha _ Ht' _. specialize (Hl a Ha). destruct a as [k|]; cbn.
  - eapply run_prog_typed; [done|apply map_empty_subseteq|done].
  - by apply do_work_typed.
Qed.

Lemma new_world_typed u : handles u ⊆ ∅ → typed ∅ (new_world u).
Proof.
  intros Hu. constructor; try done; try (intros * H; by rewrite lookup_empty in H).
  - intros p ev H. by apply not_elem_of_nil in H.
  - intros c m H. by apply not_elem_of_nil in H.
Qed.
End Typing.
