(* ===== verification/TypingTheorems.v ===== *)
(** * Properties of the typed wrappers *)
From S2P Require Import Prelude BrokerCommon OldBroker BrokerInvariant BrokerSafety BrokerRun Typed BrokerTyping.
#[local] Open Scope Z_scope.

(** ** Two streams with different events, for the witnesses *)
Inductive AnEvent := Temperature (z : Z) | Door (is_open : bool).
Inductive AType := TemperatureStream | DoorStream.

#[export] Instance AType_eq_dec : EqDecision AType.
Proof. solve_decision. Defined.

(** The state keeps the handle of one producer of temperatures. *)
#[local] Instance two_types : KeryxTypes := {|
  Event := AnEvent;
  StreamTypeID := AType;
  UserState := option ptr;
  SnapshotState := NullSnapshot
|}.

Definition Temperatures : Stream := {|
  EventType := Z : Type;
  stream_type := TemperatureStream;
  clone_event := Temperature;
  dynamic_cast ev := match ev with
                     | Temperature z => Some z
                     | Door _ => None
                     end;
  make_snapshot_handler := null_snapshot
|}.

Definition two_types_has (st : AType) (ev : AnEvent) : Prop :=
  match st, ev with
  | TemperatureStream, Temperature _ => True
  | DoorStream, Door _ => True
  | _, _ => False
  end.

Definition two_types_handles (u : option ptr) : gmap ptr AType :=
  match u with
  | Some p => {[p := TemperatureStream]}
  | None => ∅
  end.

Lemma Temperatures_laws : StreamLaws Temperatures.
Proof. by constructor. Defined.

(** ** The wrappers *)

(** C30. The wrappers follow the discipline: making a producer gives a handle of
    the stream's type, its [publish] sends events of that type, and the handler
    of a consumer, however it filters names, only has to cope with
    notifications without null pointers. *)
Theorem wrappers_are_well_typed {T : KeryxTypes} {S : Stream} {L : StreamLaws S}
    (has_type : StreamTypeID → Event → Prop) (handles : UserState → gmap ptr StreamTypeID) G :
  (∀ ev, has_type stream_type ev ↔ is_Some (dynamic_cast ev)) →
  (∀ name snapshot k, (∀ p, G !! p = None → typed_prog has_type handles (<[p := stream_type]> G) (k p)) →
     typed_prog has_type handles G (Producer_ctor name snapshot k)) ∧
  (∀ p ev k, G !! p = Some stream_type → typed_prog has_type handles G k →
     typed_prog has_type handles G (Producer_publish p ev k)) ∧
  (∀ f name h k,
     (∀ n, Forall is_Some (n_events n) → typed_prog has_type handles G (h n)) →
     (∀ c, typed_prog has_type handles G (k c)) →
     typed_prog has_type handles G (Consumer_filter f h k) ∧
     typed_prog has_type handles G (Consumer_name name h k) ∧
     typed_prog has_type handles G (Consumer_all h k)).
Proof.
  intros Hcast. split_and!.
  - done.
  - intros p ev k Hp Hk. split; [|done]. exists stream_type. split; [done|].
    apply Hcast. rewrite dynamic_cast_clone. by eexists.
  - intros f name h k Hh Hk.
    assert (Hun : ∀ m, typed_note has_type m → stream_type_id (topic m) = stream_type →
      typed_prog has_type handles G (make_untyped_handler h m)).
    { intros m Hm E. apply Hh. cbn. unfold typed_note in Hm. rewrite E in Hm.
      apply Forall_fmap. eapply Forall_impl; [exact Hm|]. intros ev. apply Hcast. }
    by split_and!.
Qed.

Lemma two_types_cast ev :
  two_types_has TemperatureStream ev ↔ is_Some (dynamic_cast (Stream := Temperatures) ev).
Proof.
  destruct ev as [z|b]; cbn; (split; [intros H|intros [x H]]).
  - by exists z.
  - exact I.
  - destruct H.
  - discriminate H.
Defined.

(** A handler that would be stuck on a null pointer: it ends the program on one. *)
Definition on_temperature (n : Notification (S := Temperatures)) : Prog :=
  match n_events n with
  | [None] => DoPublish 99%nat (Door true) Return
  | _ => Return
  end.

Lemma on_temperature_typed (G : gmap ptr AType) (n : Notification (S := Temperatures)) :
  Forall is_Some (n_events n) → typed_prog (T := two_types) two_types_has two_types_handles G (on_temperature n).
Proof.
  unfold on_temperature. destruct (n_events n) as [|[z|] [|? ?]]; intros H; try exact I.
  apply Forall_cons in H as [[x Hx] _]. discriminate Hx.
Defined.

Lemma wrappers_are_well_typed_witness :
  typed_prog (T := two_types) two_types_has two_types_handles ∅
    (Consumer_filter (S := Temperatures) (λ _, true) on_temperature (λ _, Return)) ∧
  typed_prog (T := two_types) two_types_has two_types_handles {[0%nat := TemperatureStream]}
    (Producer_publish (S := Temperatures) 0%nat 20 Return).
Proof.
  pose proof (λ G, wrappers_are_well_typed (L := Temperatures_laws)
    two_types_has two_types_handles G two_types_cast) as H. split.
  - destruct (H ∅) as (_ & _ & Hc).
    exact (proj1 (Hc (λ _, true) EmptyString on_temperature (λ _, Return) (on_temperature_typed ∅) (λ _, I))).
  - destruct (H {[0%nat := TemperatureStream]}) as (_ & Hp & _).
    exact (Hp 0%nat 20 Return eq_refl I).
Defined.

(** ** The programs *)

(** C31. A program that goes through the wrappers delivers typed events only:
    whatever its handlers do, all events of a notification have the type of
    their stream, so the [dynamic_cast] of the consumer's wrapper succeeds on
    each of them; and consumers are only told about streams of the type they
    were made for. *)
Theorem consumers_get_typed_events {T : KeryxTypes} {S : Stream}
    (has_type : StreamTypeID → Event → Prop) (handles : UserState → gmap ptr StreamTypeID)
    fuel nd l u w c m :
  (∀ ev, has_type stream_type ev ↔ is_Some (dynamic_cast ev)) → handles u = ∅ →
  Forall (typed_call has_type handles) l → run_calls fuel nd l (new_world u) = Ok (w, tt) →
  (c, m) ∈ trace (client w) →
  (∀ oc, cobj w c = Some oc → filter_type_id (c_filter oc) = stream_type_id (topic m)) ∧
  (stream_type_id (topic m) = stream_type →
     Forall (λ ev, is_Some (dynamic_cast ev)) (events m)).
Proof.
  intros Hcast Hu Hl Hrun Hm.
  assert (H0 : typed has_type handles ∅ (new_world u)) by (apply new_world_typed; by rewrite Hu).
  destruct (run_calls_typed has_type handles fuel nd l ∅ _ H0 Hl w tt Hrun) as (D & _ & Ht & _).
  destruct (ty_trace _ _ _ _ Ht c m Hm) as (Hty & _ & Hf). split; [done|].
  intros E. unfold typed_note in Hty. rewrite E in Hty.
  eapply Forall_impl; [exact Hty|]. intros ev. apply Hcast.
Qed.

(** A producer and a consumer of temperatures; the handle of the producer is
    kept in the state of the client. *)
Definition two_types_calls : list (Call) :=
  [Code (Producer_ctor (S := Temperatures) "room" [] (λ p,
           User (λ _, Some p) (λ _,
             Consumer_all (S := Temperatures) on_temperature (λ _, Return))));
   Code (User (λ u, u) (λ u, match u with
                             | Some p => Producer_publish (S := Temperatures) p 20 Return
                             | None => Return
                             end));
   Work].

Lemma two_types_calls_typed : Forall (typed_call (T := two_types) two_types_has two_types_handles) two_types_calls.
Proof.
  repeat apply Forall_cons_2; [| |exact I|apply Forall_nil_2].
  - intros p _ D u HD Hu. split; [exact HD|]. exists ∅. split; [apply map_empty_subseteq|].
    split; [|intros c; exact I]. intros m Hm E. apply on_temperature_typed. cbn.
    unfold typed_note in Hm. rewrite E in Hm. apply Forall_fmap.
    eapply Forall_impl; [exact Hm|]. intros ev. apply two_types_cast.
  - intros D u HD Hu. split; [exact Hu|]. exists (two_types_handles u). split; [exact Hu|].
    destruct u as [p|]; [|exact I]. split; [|exact I]. exists TemperatureStream.
    split; [apply lookup_singleton_eq|exact I].
Defined.

Lemma consumers_get_typed_events_witness :
  ∃ w m, run_calls 5 true two_types_calls (new_world None) = Ok (w, tt) ∧
    (1%nat, m) ∈ trace (client w) ∧
    events m = [Temperature 20] ∧
    (∀ oc, cobj w 1%nat = Some oc → filter_type_id (c_filter oc) = stream_type_id (topic m)) ∧
    (stream_type_id (topic m) = stream_type (Stream := Temperatures) →
       Forall (λ ev, is_Some (dynamic_cast (Stream := Temperatures) ev)) (events m)).
Proof.
  assert (∃ w m, run_calls 5 true two_types_calls (new_world None) = Ok (w, tt) ∧
    trace (client w) !! 1%nat = Some (1%nat, m) ∧ events m = [Temperature 20])
    as (w & m & Hw & Hm & He).
  { do 2 eexists. split; [vm_compute; reflexivity|]. split; vm_compute; reflexivity. }
  apply list_elem_of_lookup_2 in Hm. exists w, m.
  split; [exact Hw|]. split; [exact Hm|]. split; [exact He|].
  exact (consumers_get_typed_events (T := two_types) (S := Temperatures) two_types_has two_types_handles 5 true two_types_calls None w 1%nat m
    two_types_cast eq_refl two_types_calls_typed Hw Hm).
Defined.
