(* ===== verification/Lifetime.v ===== *)
(** * Objects of client types, and functions that may throw

    The containers of src/externals hold objects of types they know nothing
    about.  What such a type offers is the class [CppType]: its constructors and
    assignment operators, which may throw, and its type traits.  [CppLaws] says
    what the standard requires of them (a copy equals the original, a function
    declared noexcept does not throw, a trivial one copies the bytes).

    A member function is a computation of the monad [M]: it acts on a state (the
    object itself and the objects it is given by reference) and returns, throws,
    or goes wrong. *)
From S2P Require Import Prelude.

(** ** Returning and throwing *)
Inductive completion (X A : Type) : Type :=
  | Returns (a : A)
  | Throws (x : X).
Arguments Returns {X A} _.
Arguments Throws {X A} _.

Definition M (X S A : Type) : Type := S → result (S * completion X A).

#[global] Instance M_ret X S : MRet (M X S) := fun A a s => Ok (s, Returns a).
#[global] Instance M_bind X S : MBind (M X S) :=
  fun A B k m s =>
    match m s with
    | Ok (s', Returns a) => k a s'
    | Ok (s', Throws x) => Ok (s', Throws x)
    | Err f => Err f
    end.

Section monad.
Context {X S A : Type}.

Definition fail (f : fault) : M X S A := fun _ => Err f.

Definition gets (f : S → A) : M X S A := fun s => Ok (s, Returns (f s)).

Definition modify (f : S → S) : M X S unit := fun s => Ok (f s, Returns tt).

(** [try { m } catch (...) { h; throw; }]; an exception of the handler
    replaces the one it handles. *)
Definition on_throw (h : M X S unit) (m : M X S A) : M X S A := fun s =>
  match m s with
  | Ok (s', Throws x) =>
      match h s' with
      | Ok (s'', Returns _) => Ok (s'', Throws x)
      | Ok (s'', Throws y) => Ok (s'', Throws y)
      | Err f => Err f
      end
  | r => r
  end.

(** A function declared noexcept: an exception that would leave it terminates
    the program. *)
Definition noexcept (m : M X S A) : M X S A := fun s =>
  match m s with
  | Ok (_, Throws _) => Err terminated
  | r => r
  end.

Definition noexcept_if (b : bool) (m : M X S A) : M X S A := if b then noexcept m else m.
End monad.

(** A computation on one part of the state. *)
Definition on_fst {X S R A} (m : M X S A) : M X (S * R) A := fun '(s, r) =>
  match m s with
  | Ok (s', c) => Ok ((s', r), c)
  | Err f => Err f
  end.

Definition on_snd {X S R A} (m : M X S A) : M X (R * S) A := fun '(r, s) =>
  match m s with
  | Ok (s', c) => Ok ((r, s'), c)
  | Err f => Err f
  end.

(** ** Running a computation

    [m] started in [s] satisfies [Q] when it returns, [Q_throw] when it throws,
    and may only go wrong with a fault in [F]. *)
Definition runs {X S A} (m : M X S A) (s : S) (Q : A → S → Prop) (Q_throw : X → S → Prop)
    (F : fault → Prop) : Prop :=
  match m s with
  | Ok (s', Returns a) => Q a s'
  | Ok (s', Throws x) => Q_throw x s'
  | Err f => F f
  end.

Section runs.
Context {X S A B : Type}.
Implicit Types (m : M X S A) (F : fault → Prop).

Lemma runs_ret (a : A) s Q Qt F : Q a s → runs (mret a : M X S A) s Q Qt F.
Proof. done. Qed.

Lemma runs_bind m (k : A → M X S B) s Q Qt F :
  runs m s (λ a s', runs (k a) s' Q Qt F) Qt F → runs (mbind k m) s Q Qt F.
Proof.
  unfold runs, mbind, M_bind. destruct (m s) as [[s' [a|x]]|f]; done.
Qed.

Lemma runs_bind_assoc {C} m (k : A → M X S B) (k' : B → M X S C) s Q Qt F :
  runs (mbind k' (mbind k m)) s Q Qt F → runs (mbind (λ a, mbind k' (k a)) m) s Q Qt F.
Proof. unfold runs, mbind, M_bind. destruct (m s) as [[s' [a|x]]|f]; done. Qed.

Lemma runs_mono m s Q Q' Qt Qt' F F' :
  runs m s Q Qt F → (∀ a s', Q a s' → Q' a s') → (∀ x s', Qt x s' → Qt' x s') →
  (∀ f, F f → F' f) → runs m s Q' Qt' F'.
Proof. unfold runs. destruct (m s) as [[s' [a|x]]|f]; auto. Qed.

Lemma runs_noexcept m s Q Qt Qt' F :
  runs m s Q Qt F → (∀ x s', Qt x s' → F terminated) → runs (noexcept m) s Q Qt' F.
Proof. unfold runs, noexcept. destruct (m s) as [[s' [a|x]]|f]; eauto. Qed.

Lemma runs_noexcept_if b m s Q Qt F :
  runs m s Q Qt F → (∀ x s', Qt x s' → F terminated) → runs (noexcept_if b m) s Q Qt F.
Proof. destruct b; [apply runs_noexcept|done]. Qed.

Lemma runs_on_throw h m s Q Qt F :
  runs m s Q (λ x s', runs h s' (λ _ s'', Qt x s'') Qt F) F → runs (on_throw h m) s Q Qt F.
Proof.
  unfold runs, on_throw. destruct (m s) as [[s' [a|x]]|f]; try done.
  destruct (h s') as [[s'' [u|y]]|g]; done.
Qed.

Lemma runs_gets (f : S → A) s Q Qt F : Q (f s) s → runs (gets f : M X S A) s Q Qt F.
Proof. done. Qed.

Lemma runs_modify (f : S → S) s Q Qt F : Q tt (f s) → runs (modify f : M X S unit) s Q Qt F.
Proof. done. Qed.
End runs.

Lemma runs_on_fst {X S R A} (m : M X S A) (s : S) (r : R) Q Qt F :
  runs m s (λ a s', Q a (s', r)) (λ x s', Qt x (s', r)) F → runs (on_fst m) (s, r) Q Qt F.
Proof. unfold runs, on_fst. destruct (m s) as [[s' [a|x]]|f]; done. Qed.

(** ** The type traits the templates ask for *)
Record type_traits := {
  is_void : bool;
  default_constructible : bool;
  copy_constructible : bool;
  move_constructible : bool;
  copy_assignable : bool;
  move_assignable : bool;
  nothrow_copy_constructible : bool;
  nothrow_move_constructible : bool;
  nothrow_copy_assignable : bool;
  nothrow_move_assignable : bool;
  trivially_copy_constructible : bool;
  trivially_move_constructible : bool;
  trivially_copy_assignable : bool;
  trivially_move_assignable : bool;
  trivially_destructible : bool
}.

(** ** Object types

    A constructor returns the object it makes or throws.  The move operations
    also say what they leave in their source, and assignments what they leave in
    their target when they throw. *)
Class CppType (X A : Type) := {
  traits : type_traits;
  copy_ctor : A → completion X A;
  move_ctor : A → A * completion X A;
  copy_assign : A → A → A * completion X unit;
  move_assign : A → A → A * A * completion X unit;
  swap_objects : A → A → A * A * completion X unit
}.
Arguments traits {X} A {_}.
#[global] Hint Mode CppType - ! : typeclass_instances.

Class CppLaws (X A : Type) `{CppType X A} := {
  copy_ctor_eq (a b : A) : copy_ctor a = Returns b → b = a;
  move_ctor_eq (a a' b : A) : move_ctor a = (a', Returns b) → b = a;
  copy_assign_eq (a b a' : A) : copy_assign a b = (a', Returns tt) → a' = b;
  move_assign_eq (a b a' b' : A) : move_assign a b = (a', b', Returns tt) → a' = b;
  swap_objects_eq (a b a' b' : A) :
    swap_objects a b = (a', b', Returns tt) → a' = b ∧ b' = a;
  nothrow_copy_ok (a : A) :
    nothrow_copy_constructible (traits A) = true → ∃ b, copy_ctor a = Returns b;
  nothrow_move_ok (a : A) :
    nothrow_move_constructible (traits A) = true → ∃ a' b, move_ctor a = (a', Returns b);
  nothrow_copy_assign_ok (a b : A) :
    nothrow_copy_assignable (traits A) = true → ∃ a', copy_assign a b = (a', Returns tt);
  nothrow_move_assign_ok (a b : A) :
    nothrow_move_assignable (traits A) = true → ∃ a' b', move_assign a b = (a', b', Returns tt);
  trivial_copy_ok (a : A) :
    trivially_copy_constructible (traits A) = true → copy_ctor a = Returns a;
  trivial_move_ok (a : A) :
    trivially_move_constructible (traits A) = true → move_ctor a = (a, Returns a);
  trivial_copy_assign_ok (a b : A) :
    trivially_copy_assignable (traits A) = true → copy_assign a b = (b, Returns tt);
  trivial_move_assign_ok (a b : A) :
    trivially_move_assignable (traits A) = true → move_assign a b = (b, b, Returns tt)
}.

(** Nothing a type does to copy, move or assign its objects throws. *)
Definition nothrow_all (t : type_traits) : bool :=
  nothrow_copy_constructible t && nothrow_move_constructible t &&
  nothrow_copy_assignable t && nothrow_move_assignable t.

(** ** Value categories

    A function template that takes [Rhs &&] is instantiated for lvalues and for
    rvalues; a const rvalue binds to the functions that copy. *)
Inductive category := Lvalue | Rvalue.

(** [A(std::forward<A>(a))] *)
Definition forward_ctor {X A} `{CppType X A} (c : category) (a : A) : A * completion X A :=
  match c with
  | Lvalue => (a, copy_ctor a)
  | Rvalue => move_ctor a
  end.

(** [this = std::forward<A>(a)] *)
Definition forward_assign {X A} `{CppType X A} (c : category) (this a : A) :
    A * A * completion X unit :=
  match c with
  | Lvalue => let '(this', r) := copy_assign this a in (this', a, r)
  | Rvalue => move_assign this a
  end.

Section laws.
Context {X A : Type} `{CL : CppLaws X A}.

Lemma forward_ctor_eq c (a a' b : A) : forward_ctor c a = (a', Returns b) → b = a.
Proof.
  destruct c; simpl; intros Heq; [|by eapply move_ctor_eq].
  apply copy_ctor_eq. congruence.
Qed.

Lemma forward_ctor_nothrow c (a a' : A) x :
  nothrow_all (traits A) = true → forward_ctor c a ≠ (a', Throws x).
Proof.
  intros (((Hc & Hm)%andb_true_iff & _)%andb_true_iff & _)%andb_true_iff.
  destruct c; simpl.
  - destruct (nothrow_copy_ok a Hc) as [b ->]. congruence.
  - destruct (nothrow_move_ok a Hm) as (a1 & b & ->). congruence.
Qed.

Lemma forward_assign_nothrow c (this a this' a' : A) x :
  nothrow_all (traits A) = true → forward_assign c this a ≠ (this', a', Throws x).
Proof.
  intros (((_ & _)%andb_true_iff & Hc)%andb_true_iff & Hm)%andb_true_iff.
  destruct c; simpl.
  - destruct (nothrow_copy_assign_ok this a Hc) as [b ->]. congruence.
  - destruct (nothrow_move_assign_ok this a Hm) as (t & b & ->). congruence.
Qed.

Lemma copy_ctor_nothrow (a : A) x :
  nothrow_all (traits A) = true → copy_ctor a ≠ Throws x.
Proof. intros Ht Hc. apply (forward_ctor_nothrow Lvalue a a x Ht). simpl. congruence. Qed.

Lemma move_ctor_nothrow (a a' : A) x :
  nothrow_all (traits A) = true → move_ctor a ≠ (a', Throws x).
Proof. apply (forward_ctor_nothrow Rvalue). Qed.

Lemma move_assign_nothrow (this a this' a' : A) x :
  nothrow_all (traits A) = true → move_assign this a ≠ (this', a', Throws x).
Proof. apply (forward_assign_nothrow Rvalue). Qed.

Lemma forward_ctor_lvalue (a a' : A) r : forward_ctor Lvalue a = (a', r) → a' = a.
Proof. simpl. congruence. Qed.

Lemma forward_assign_eq c (this a this' a' : A) :
  forward_assign c this a = (this', a', Returns tt) → this' = a.
Proof.
  destruct c; simpl; [|by apply move_assign_eq].
  destruct (copy_assign this a) as [t r] eqn:E. intros [= -> -> ->].
  by apply copy_assign_eq in E.
Qed.

Lemma forward_assign_lvalue (this a this' a' : A) r :
  forward_assign Lvalue this a = (this', a', r) → a' = a.
Proof. simpl. destruct (copy_assign this a). congruence. Qed.
End laws.

(** What the laws say about the calls among the hypotheses. *)
Ltac object_facts :=
  repeat match goal with
  | H : forward_ctor Lvalue _ = (?a', _) |- _ =>
      lazymatch type of H with forward_ctor _ a' = _ => fail | _ =>
        pose proof (forward_ctor_lvalue _ _ _ H); progress simplify_eq end
  | H : forward_assign Lvalue _ _ = (_, ?a', _) |- _ =>
      lazymatch type of H with forward_assign _ _ a' = _ => fail | _ =>
        pose proof (forward_assign_lvalue _ _ _ _ _ H); progress simplify_eq end
  | H : forward_ctor _ ?a = (_, Returns ?b) |- _ =>
      lazymatch b with a => fail | _ =>
        pose proof (forward_ctor_eq _ _ _ _ H); progress simplify_eq end
  | H : forward_assign _ _ ?a = (?this', _, Returns _) |- _ =>
      lazymatch this' with a => fail | _ =>
        destruct_unit; pose proof (forward_assign_eq _ _ _ _ _ H); progress simplify_eq end
  | H : copy_ctor ?a = Returns ?b |- _ =>
      lazymatch b with a => fail | _ =>
        pose proof (copy_ctor_eq _ _ H); progress simplify_eq end
  | H : move_ctor ?a = (_, Returns ?b) |- _ =>
      lazymatch b with a => fail | _ =>
        pose proof (move_ctor_eq _ _ _ H); progress simplify_eq end
  | H : move_assign _ ?a = (?this', _, Returns _) |- _ =>
      lazymatch this' with a => fail | _ =>
        destruct_unit; pose proof (move_assign_eq _ _ _ _ H); progress simplify_eq end
  | H : copy_assign _ ?a = (?this', Returns _) |- _ =>
      lazymatch this' with a => fail | _ =>
        destruct_unit; pose proof (copy_assign_eq _ _ _ H); progress simplify_eq end
  | G : @forward_ctor ?X ?A _ _ _ = (_, Throws _) |- _ =>
      exfalso; eapply (forward_ctor_nothrow (X := X) (A := A)); [eassumption|exact G]
  | G : @forward_assign ?X ?A _ _ _ _ = (_, _, Throws _) |- _ =>
      exfalso; eapply (forward_assign_nothrow (X := X) (A := A)); [eassumption|exact G]
  | G : @copy_ctor ?X ?A _ _ = Throws _ |- _ =>
      exfalso; eapply (copy_ctor_nothrow (X := X) (A := A)); [eassumption|exact G]
  | G : @move_ctor ?X ?A _ _ = (_, Throws _) |- _ =>
      exfalso; eapply (move_ctor_nothrow (X := X) (A := A)); [eassumption|exact G]
  | G : @move_assign ?X ?A _ _ _ = (_, _, Throws _) |- _ =>
      exfalso; eapply (move_assign_nothrow (X := X) (A := A)); [eassumption|exact G]
  end
with destruct_unit :=
  repeat match goal with u : () |- _ => destruct u end.

(** Split on a stuck match of the goal, the innermost one first. *)
Ltac split_match :=
  match goal with
  | |- context [match ?x with _ => _ end] =>
      lazymatch x with
      | context [match _ with _ => _ end] => fail
      | _ => destruct x eqn:?; simplify_eq
      end
  end.
