(* ===== verification/Expected.v ===== *)
(** * tl::expected: storage and operations (src/externals/include/expected.hpp)

    An [expected<T, E>] holds, in one union, a [T] or an [unexpected<E>], and a
    flag that says which.  Here the union is [storage]: which member is alive.
    Reading, assigning or destroying a member that is not alive is
    [dead_object].  Constructing an object over a live one is allowed by the
    language, but nobody will destroy the old one; [lost] counts how often that
    has happened.  The operations act on [this], the first component of the
    state; the second one is whatever else they are given by reference. *)
From S2P Require Import Prelude Lifetime.

(** ** unexpected<E> *)
Record unexpected (E : Type) := Unexpected { m_unex : E }.
Arguments Unexpected {E} _.
Arguments m_unex {E} _.

Module Unexpected.
Section unexpected.
Context {X E : Type} `{!CppType X E}.

(** The two constructors: from a const reference and from an rvalue. *)
Definition make (c : category) (e : E) : E * completion X (unexpected E) :=
  let '(e', r) := forward_ctor c e in
  (e', match r with Returns v => Returns (Unexpected v) | Throws x => Throws x end).

Definition value (u : unexpected E) : E := m_unex u.

(** [make_unexpected] *)
Definition make_unexpected (c : category) (e : E) : E * completion X (unexpected E) :=
  make c e.

(** The relational operators, from those of E. *)
Definition relop (op : E → E → bool) (lhs rhs : unexpected E) : bool :=
  op (value lhs) (value rhs).
End unexpected.
End Unexpected.

Definition lift_unex {X E} (r : completion X E) : completion X (unexpected E) :=
  match r with Returns v => Returns (Unexpected v) | Throws x => Throws x end.

(** The copy, move and assignment functions of [unexpected<E>] are the implicit
    ones: those of its member. *)
#[global] Instance unexpected_CppType {X E} `{!CppType X E} : CppType X (unexpected E) := {|
  traits := traits E;
  copy_ctor u := lift_unex (copy_ctor (m_unex u));
  move_ctor u := let '(e, r) := move_ctor (m_unex u) in (Unexpected e, lift_unex r);
  copy_assign u v :=
    let '(e, r) := copy_assign (m_unex u) (m_unex v) in (Unexpected e, r);
  move_assign u v :=
    let '(e, e', r) := move_assign (m_unex u) (m_unex v) in (Unexpected e, Unexpected e', r);
  swap_objects u v :=
    let '(e, e', r) := swap_objects (m_unex u) (m_unex v) in (Unexpected e, Unexpected e', r)
|}.

#[global] Instance unexpected_CppLaws {X E} `{CppLaws X E} : CppLaws X (unexpected E).
Proof.
  split; simpl.
  - intros [a] [b]; simpl. destruct (copy_ctor a) eqn:F; simpl; intros [=].
    subst. f_equal. by eapply copy_ctor_eq.
  - intros [a] [a'] [b]; simpl. destruct (move_ctor a) as [? [|]] eqn:F; simpl; intros [=].
    subst. f_equal. by eapply move_ctor_eq.
  - intros [a] [b] [a']; simpl. destruct (copy_assign a b) eqn:F. intros [=]; subst.
    f_equal. by eapply copy_assign_eq.
  - intros [a] [b] [a'] [b']; simpl. destruct (move_assign a b) as [[??]?] eqn:F.
    intros [=]; subst. f_equal. by eapply move_assign_eq.
  - intros [a] [b] [a'] [b']; simpl. destruct (swap_objects a b) as [[??]?] eqn:F.
    intros [=]; subst. apply swap_objects_eq in F as [-> ->]. done.
  - intros [a] Ht; simpl. destruct (nothrow_copy_ok a Ht) as [b ->]. by eexists.
  - intros [a] Ht; simpl. destruct (nothrow_move_ok a Ht) as (a' & b & ->). by do 2 eexists.
  - intros [a] [b] Ht; simpl. destruct (nothrow_copy_assign_ok a b Ht) as (a' & ->).
    by eexists.
  - intros [a] [b] Ht; simpl. destruct (nothrow_move_assign_ok a b Ht) as (a' & b' & ->).
    by do 2 eexists.
  - intros [a] Ht; simpl. by rewrite (trivial_copy_ok a Ht).
  - intros [a] Ht; simpl. by rewrite (trivial_move_ok a Ht).
  - intros [a] [b] Ht; simpl. by rewrite (trivial_copy_assign_ok a b Ht).
  - intros [a] [b] Ht; simpl. by rewrite (trivial_move_assign_ok a b Ht).
Qed.

(** ** The traits machinery (namespace detail) *)
Module Detail.
(** [std::conjunction]: the first false member, or the last one. *)
Fixpoint conjunction (l : list bool) : bool :=
  match l with
  | [] => true
  | [b] => b
  | b :: l => if b then conjunction l else b
  end.

(** [invoke]: a pointer to a member is called through [std::mem_fn], anything
    else is called directly. *)
Definition invoke {F A} (is_member_pointer : bool) (mem_fn call : F → A) (f : F) : A :=
  if is_member_pointer then mem_fn f else call f.

(** Whether [expected(U &&v)] takes part in overload resolution. *)
Definition expected_enable_forward_value
    (t_constructible_from_u u_is_in_place_t u_is_expected u_is_unexpected : bool) : bool :=
  t_constructible_from_u && negb u_is_in_place_t && negb u_is_expected
    && negb u_is_unexpected.

(** Whether [expected(expected<U, G>)] does; the lists hold the four reference
    types of expected<U, G>: T must not be constructible or convertible from any. *)
Definition expected_enable_from_other
    (t_constructible_from_ur e_constructible_from_gr : bool)
    (t_constructible_from_expected expected_convertible_to_t : list bool) : bool :=
  t_constructible_from_ur && e_constructible_from_gr
    && forallb negb t_constructible_from_expected
    && forallb negb expected_convertible_to_t.

Definition is_void_or (t : type_traits) (b : bool) : bool := if is_void t then true else b.

Definition is_copy_constructible_or_void (t : type_traits) : bool :=
  is_void_or t (copy_constructible t).
Definition is_move_constructible_or_void (t : type_traits) : bool :=
  is_void_or t (move_constructible t).
Definition is_copy_assignable_or_void (t : type_traits) : bool :=
  is_void_or t (copy_assignable t).
Definition is_move_assignable_or_void (t : type_traits) : bool :=
  is_void_or t (move_assignable t).
End Detail.

(** ** Storage *)
Inductive storage (T E : Type) :=
  | NoInit                     (* m_no_init, or nothing *)
  | Val (v : T)                (* m_val *)
  | Unex (e : unexpected E).   (* m_unexpect *)
Arguments NoInit {T E}.
Arguments Val {T E} _.
Arguments Unex {T E} _.

Record expected (T E : Type) := Expected {
  active : storage T E;
  m_has_val : bool;
  lost : nat
}.
Arguments Expected {T E} _ _ _.
Arguments active {T E} _.
Arguments m_has_val {T E} _.
Arguments lost {T E} _.

(** The objects a destructor destroys. *)
Inductive destroyed (T E : Type) :=
  | DestroyedVal (v : T)
  | DestroyedUnex (e : unexpected E).
Arguments DestroyedVal {T E} _.
Arguments DestroyedUnex {T E} _.

(** Constructors and destructor of a storage base.  A constructor is given the
    construction of the member it initialises. *)
Record storage_base (X R T E : Type) := StorageBase {
  sb_default : M X R T → M X R (expected T E);            (* m_val(T{}) *)
  sb_no_init : M X R (expected T E);
  sb_in_place : M X R T → M X R (expected T E);
  sb_unexpect : M X R (unexpected E) → M X R (expected T E);
  sb_dtor : expected T E → result (list (destroyed T E))
}.
Arguments sb_default {X R T E} _ _.
Arguments sb_no_init {X R T E} _.
Arguments sb_in_place {X R T E} _ _.
Arguments sb_unexpect {X R T E} _ _.
Arguments sb_dtor {X R T E} _ _.

Section storage.
Context {X R T E : Type}.

Definition init_val (init : M X R T) : M X R (expected T E) :=
  v ← init; mret (Expected (Val v) true 0).

Definition init_unex (init : M X R (unexpected E)) : M X R (expected T E) :=
  e ← init; mret (Expected (Unex e) false 0).

Definition init_nothing : M X R (expected T E) := mret (Expected NoInit false 0).

(** [m_val.~T()] and [m_unexpect.~unexpected<E>()] *)
Definition dtor_val (x : expected T E) : result (list (destroyed T E)) :=
  match active x with Val v => Ok [DestroyedVal v] | _ => Err dead_object end.

Definition dtor_unex (x : expected T E) : result (list (destroyed T E)) :=
  match active x with Unex e => Ok [DestroyedUnex e] | _ => Err dead_object end.

(** Neither T nor E is trivially destructible. *)
Definition storage_base_general : storage_base X R T E := {|
  sb_default := init_val;
  sb_no_init := init_nothing;
  sb_in_place := init_val;
  sb_unexpect := init_unex;
  sb_dtor x := if m_has_val x then dtor_val x else dtor_unex x
|}.

(** Both are. *)
Definition storage_base_both_trivial : storage_base X R T E := {|
  sb_default := init_val;
  sb_no_init := init_nothing;
  sb_in_place := init_val;
  sb_unexpect := init_unex;
  sb_dtor x := Ok []
|}.

(** T is, E is not. *)
Definition storage_base_val_trivial : storage_base X R T E := {|
  sb_default := init_val;
  sb_no_init := init_nothing;
  sb_in_place := init_val;
  sb_unexpect := init_unex;
  sb_dtor x := if negb (m_has_val x) then dtor_unex x else Ok []
|}.

(** E is, T is not. *)
Definition storage_base_unex_trivial : storage_base X R T E := {|
  sb_default := init_val;
  sb_no_init := init_nothing;
  sb_in_place := init_val;
  sb_unexpect := init_unex;
  sb_dtor x := if m_has_val x then dtor_val x else Ok []
|}.

(** The selection of the specialisation by the last two template arguments. *)
Definition expected_storage_base (t e : type_traits) : storage_base X R T E :=
  match trivially_destructible t, trivially_destructible e with
  | false, false => storage_base_general
  | true, true => storage_base_both_trivial
  | true, false => storage_base_val_trivial
  | false, true => storage_base_unex_trivial
  end.
End storage.

(** T is void: there is no value to hold, so the union is a dummy unless it holds
    an unexpected. *)
Section storage_void.
Context {X R E : Type}.

Definition init_void (init : M X R unit) : M X R (expected unit E) :=
  mret (Expected NoInit true 0).

(** E is trivially destructible. *)
Definition storage_base_void_trivial : storage_base X R unit E := {|
  sb_default := init_void;
  sb_no_init := init_nothing;
  sb_in_place := init_void;
  sb_unexpect := init_unex;
  sb_dtor x := Ok []
|}.

(** E is not. *)
Definition storage_base_void_general : storage_base X R unit E := {|
  sb_default := init_void;
  sb_no_init := init_nothing;
  sb_in_place := init_void;
  sb_unexpect := init_unex;
  sb_dtor x := if negb (m_has_val x) then dtor_unex x else Ok []
|}.
End storage_void.
