(* ===== verification/ExpectedOps.v ===== *)
(** * tl::expected: construction and assignment of the contained object

    [expected_operations_base] and the bases that give [expected] its special
    members.  [R] is the rest of the state; where the operation has an argument
    [rhs] of the same type, [R] is [expected T E].  The argument of [construct]
    is the construction of the object that is placed: which constructor of T runs
    is decided by the arguments that are forwarded to it. *)
From S2P Require Import Prelude Lifetime Expected.

Section operations.
Context {X T E : Type} `{!CppType X T, !CppType X E}.

#[local] Abbreviation exp := (expected T E).

(** ** Access to the members of the union *)

(** [get()] and [geterr()] *)
Definition get (x : exp) : result T :=
  match active x with Val v => Ok v | _ => Err dead_object end.

Definition geterr (x : exp) : result (unexpected E) :=
  match active x with Unex e => Ok e | _ => Err dead_object end.

Definition has_value (x : exp) : bool := m_has_val x.

Definition set_active (s : storage T E) (x : exp) : exp :=
  Expected s (m_has_val x) (lost x).

Definition set_has_val (b : bool) (x : exp) : exp := Expected (active x) b (lost x).

(** The storage is reused: a member that is alive is lost. *)
Definition reuse (x : exp) : exp :=
  Expected NoInit (m_has_val x)
    (match active x with NoInit => lost x | _ => S (lost x) end).

(** The object itself, and the rest of the state. *)
Definition this_get {R} (f : exp → result T) : M X (exp * R) T := fun '(x, r) =>
  match f x with Ok v => Ok ((x, r), Returns v) | Err g => Err g end.

Definition this_has_value {R} : M X (exp * R) bool := gets (fun s => has_value s.1).

Definition this_modify {R} (f : exp → exp) : M X (exp * R) unit :=
  modify (fun s => (f s.1, s.2)).

(** [new (addressof(m_val)) T(...)] and [new (addressof(m_unexpect)) ...] *)
Definition placement_new_val {R} (init : M X (exp * R) T) : M X (exp * R) unit :=
  this_modify reuse ;;
  v ← init;
  this_modify (set_active (Val v)).

Definition placement_new_unex {R} (init : M X (exp * R) (unexpected E)) :
    M X (exp * R) unit :=
  this_modify reuse ;;
  e ← init;
  this_modify (set_active (Unex e)).

(** [get().~T()] and [geterr().~unexpected<E>()] *)
Definition destroy_val {R} : M X (exp * R) unit := fun '(x, r) =>
  match get x with
  | Ok _ => Ok ((set_active NoInit x, r), Returns tt)
  | Err f => Err f
  end.

Definition destroy_unex {R} : M X (exp * R) unit := fun '(x, r) =>
  match geterr x with
  | Ok _ => Ok ((set_active NoInit x, r), Returns tt)
  | Err f => Err f
  end.

(** ** construct, construct_with, construct_error: all noexcept *)
Definition construct {R} (init : M X (exp * R) T) : M X (exp * R) unit :=
  noexcept (placement_new_val init ;; this_modify (set_has_val true)).

Definition construct_error {R} (init : M X (exp * R) (unexpected E)) : M X (exp * R) unit :=
  noexcept (placement_new_unex init ;; this_modify (set_has_val false)).

(** ** Temporaries

    [auto tmp = std::move(geterr())], an object made from a local variable, and
    [geterr() = std::move(tmp)]. *)
Definition take_unex {R} : M X (exp * R) (unexpected E) := fun '(x, r) =>
  match geterr x with
  | Ok e => let '(e', c) := move_ctor e in Ok ((set_active (Unex e') x, r), c)
  | Err f => Err f
  end.

Definition from_local {A S} `{!CppType X A} (tmp : A) : M X S A := fun s =>
  Ok (s, (move_ctor tmp).2).

Definition restore_unex {R} (tmp : unexpected E) : M X (exp * R) unit := fun '(x, r) =>
  match geterr x with
  | Ok e => let '(e', _, c) := move_assign e tmp in Ok ((set_active (Unex e') x, r), c)
  | Err f => Err f
  end.

(** ** Taking from rhs *)

(** T made from [std::forward<Rhs>(rhs).get()], unexpected<E> made from
    [std::forward<Rhs>(rhs).geterr()] *)
Definition rhs_val {S} (c : category) : M X (S * exp) T := fun '(s, y) =>
  match get y with
  | Ok w => let '(w', r) := forward_ctor c w in Ok ((s, set_active (Val w') y), r)
  | Err f => Err f
  end.

Definition rhs_unex {S} (c : category) : M X (S * exp) (unexpected E) := fun '(s, y) =>
  match geterr y with
  | Ok e => let '(e', r) := forward_ctor c e in Ok ((s, set_active (Unex e') y), r)
  | Err f => Err f
  end.

(** [construct_with(std::forward<Rhs>(rhs))] *)
Definition construct_with (c : category) : M X (exp * exp) unit :=
  construct (rhs_val c).

Definition rhs_has_value {S} : M X (S * exp) bool := gets (fun s => has_value s.2).

(** [get() = std::forward<Rhs>(rhs).get()] and the same for the errors *)
Definition assign_val (c : category) : M X (exp * exp) unit := fun '(x, y) =>
  match get x, get y with
  | Ok v, Ok w =>
      let '(v', w', r) := forward_assign c v w in
      Ok ((set_active (Val v') x, set_active (Val w') y), r)
  | _, _ => Err dead_object
  end.

Definition assign_unex (c : category) : M X (exp * exp) unit := fun '(x, y) =>
  match geterr x, geterr y with
  | Ok e, Ok f =>
      let '(e', f', r) := forward_assign c e f in
      Ok ((set_active (Unex e') x, set_active (Unex f') y), r)
  | _, _ => Err dead_object
  end.

(** ** Assignment *)
Definition assign_common (c : category) : M X (exp * exp) unit :=
  this ← this_has_value;
  rhs ← rhs_has_value;
  if (this : bool) then
    if (rhs : bool) then assign_val c
    else destroy_val ;; construct_error (rhs_unex c)
  else
    if (rhs : bool) then mret tt
    else assign_unex c.

(** The common shape of the overloads: [install] is what they do when rhs has a
    value and [*this] does not. *)
Definition assign_with (install rest : M X (exp * exp) unit) : M X (exp * exp) unit :=
  this ← this_has_value;
  rhs ← rhs_has_value;
  if negb this && rhs then install else rest.

(** T is nothrow copy constructible. *)
Definition assign_copy_direct : M X (exp * exp) unit :=
  noexcept (assign_with
    (destroy_unex ;; construct (rhs_val Lvalue))
    (assign_common Lvalue)).

(** It is not, but it is nothrow move constructible. *)
Definition assign_copy_via_tmp : M X (exp * exp) unit :=
  noexcept (assign_with
    (tmp ← rhs_val Lvalue; destroy_unex ;; construct (from_local tmp))
    (assign_common Lvalue)).

(** It is neither. *)
Definition assign_copy_rollback : M X (exp * exp) unit :=
  assign_with
    (tmp ← take_unex;
     destroy_unex ;;
     on_throw (restore_unex tmp) (construct (rhs_val Lvalue)))
    (assign_common Lvalue).

(** The overloads for rvalues. *)
Definition assign_move_direct : M X (exp * exp) unit :=
  noexcept (assign_with
    (destroy_unex ;; construct (rhs_val Rvalue))
    (assign_common Rvalue)).

Definition assign_move_rollback : M X (exp * exp) unit :=
  assign_with
    (tmp ← take_unex;
     destroy_unex ;;
     on_throw (restore_unex tmp) (construct (rhs_val Rvalue)))
    (assign_common Rvalue).

(** Without exceptions.  The second one passes [rhs] on as an lvalue. *)
Definition assign_copy_noexc : M X (exp * exp) unit :=
  noexcept (assign_with
    (destroy_unex ;; construct (rhs_val Lvalue))
    (assign_common Lvalue)).

Definition assign_move_noexc : M X (exp * exp) unit :=
  noexcept (assign_with
    (destroy_unex ;; construct (rhs_val Rvalue))
    (assign_common Lvalue)).

(** Overload resolution, in a build with exceptions. *)
Definition assign (c : category) : M X (exp * exp) unit :=
  match c with
  | Lvalue =>
      if nothrow_copy_constructible (traits T) then assign_copy_direct
      else if nothrow_move_constructible (traits T) then assign_copy_via_tmp
      else assign_copy_rollback
  | Rvalue =>
      if nothrow_move_constructible (traits T) then assign_move_direct
      else assign_move_rollback
  end.

(** ** The special members

    A trivial function copies the bytes of the object, whichever member of the
    union is alive. *)
Definition trivial_copy : M X (exp * exp) unit := fun '(x, y) =>
  Ok ((Expected (active y) (m_has_val y) (lost x), y), Returns tt).

(** [: expected_operations_base<T, E>(no_init)] *)
Definition init_no_init {R} : M X (exp * R) unit :=
  this_modify (fun _ => Expected NoInit false 0).

Definition expected_copy_base_copy (trivial : bool) : M X (exp * exp) unit :=
  init_no_init ;;
  if trivial then trivial_copy
  else
    rhs ← rhs_has_value;
    if (rhs : bool) then construct_with Lvalue else construct_error (rhs_unex Lvalue).

Definition expected_move_base_move (trivial : bool) : M X (exp * exp) unit :=
  init_no_init ;;
  if trivial then trivial_copy
  else noexcept_if (nothrow_move_constructible (traits T))
    (rhs ← rhs_has_value;
     if (rhs : bool) then construct_with Rvalue else construct_error (rhs_unex Rvalue)).

Definition expected_copy_assign_base_assign (trivial : bool) : M X (exp * exp) unit :=
  if trivial then trivial_copy else assign Lvalue.

Definition expected_move_assign_base_assign (trivial : bool) : M X (exp * exp) unit :=
  if trivial then trivial_copy
  else noexcept_if
    (nothrow_move_constructible (traits T) && nothrow_move_assignable (traits T))
    (assign Rvalue).

(** The default arguments of the templates: which specialisation is used. *)
Definition copy_base_trivial (t e : type_traits) : bool :=
  Detail.is_void_or t (trivially_copy_constructible t) && trivially_copy_constructible e.

Definition move_base_trivial (t e : type_traits) : bool :=
  Detail.is_void_or t (trivially_move_constructible t) && trivially_move_constructible e.

Definition copy_assign_base_trivial (t e : type_traits) : bool :=
  Detail.is_void_or t (Detail.conjunction [trivially_copy_assignable t;
    trivially_copy_constructible t; trivially_destructible t])
  && trivially_copy_assignable e && trivially_copy_constructible e
  && trivially_destructible e.

Definition move_assign_base_trivial (t e : type_traits) : bool :=
  Detail.is_void_or t (Detail.conjunction [trivially_destructible t;
    trivially_move_constructible t; trivially_move_assignable t])
  && trivially_destructible e && trivially_move_constructible e
  && trivially_move_assignable e.

(** The copy and move constructors and assignments of [expected], which are all
    defaulted. *)
Definition expected_copy_ctor : M X (exp * exp) unit :=
  expected_copy_base_copy (copy_base_trivial (traits T) (traits E)).
Definition expected_move_ctor : M X (exp * exp) unit :=
  expected_move_base_move (move_base_trivial (traits T) (traits E)).
Definition expected_copy_assign : M X (exp * exp) unit :=
  expected_copy_assign_base_assign (copy_assign_base_trivial (traits T) (traits E)).
Definition expected_move_assign : M X (exp * exp) unit :=
  expected_move_assign_base_assign (move_assign_base_trivial (traits T) (traits E)).
End operations.

(** ** T is void

    There is no value to construct, copy or destroy: [construct] sets the flag. *)
Section operations_void.
Context {X E : Type} `{!CppType X E}.

#[local] Abbreviation exp := (expected unit E).

Definition construct_void {R} : M X (exp * R) unit := this_modify (set_has_val true).

Definition construct_with_void {R} : M X (exp * R) unit := this_modify (set_has_val true).

Definition destroy_val_void {R} : M X (exp * R) unit := mret tt.

Definition assign_void (c : category) : M X (exp * exp) unit :=
  noexcept (
    this ← this_has_value;
    rhs ← rhs_has_value;
    if negb this then
      if (rhs : bool) then destroy_unex ;; construct_void
      else assign_unex c
    else
      if negb rhs then construct_error (rhs_unex c)
      else mret tt).

Definition expected_copy_base_copy_void (trivial : bool) : M X (exp * exp) unit :=
  init_no_init ;;
  if trivial then trivial_copy
  else
    rhs ← rhs_has_value;
    if (rhs : bool) then construct_with_void else construct_error (rhs_unex Lvalue).

Definition expected_move_base_move_void (trivial : bool) : M X (exp * exp) unit :=
  init_no_init ;;
  if trivial then trivial_copy
  else
    rhs ← rhs_has_value;
    if (rhs : bool) then construct_with_void else construct_error (rhs_unex Rvalue).
End operations_void.

(** ** Which special members exist

    The bases whose only purpose is to delete special members. *)
Record special_members := {
  has_default_ctor : bool;
  has_copy_ctor : bool;
  has_move_ctor : bool;
  has_copy_assign : bool;
  has_move_assign : bool
}.

Definition expected_delete_ctor_base (enable_copy enable_move : bool) : special_members :=
  match enable_copy, enable_move with
  | true, true => Build_special_members true true true true true
  | true, false => Build_special_members true true false true true
  | false, true => Build_special_members true false true true true
  | false, false => Build_special_members true false false true true
  end.

Definition expected_delete_assign_base (enable_copy enable_move : bool) : special_members :=
  match enable_copy, enable_move with
  | true, true => Build_special_members true true true true true
  | true, false => Build_special_members true true true true false
  | false, true => Build_special_members true true true false true
  | false, false => Build_special_members true true true false false
  end.

Definition expected_default_ctor_base (enable : bool) : special_members :=
  if enable then Build_special_members true true true true true
  else Build_special_members false true true true true.

(** The class itself defaults all five: a member exists if it exists in every
    base. *)
Definition special_members_and (a b : special_members) : special_members := {|
  has_default_ctor := has_default_ctor a && has_default_ctor b;
  has_copy_ctor := has_copy_ctor a && has_copy_ctor b;
  has_move_ctor := has_move_ctor a && has_move_ctor b;
  has_copy_assign := has_copy_assign a && has_copy_assign b;
  has_move_assign := has_move_assign a && has_move_assign b
|}.

Definition expected_special_members (t e : type_traits) : special_members :=
  let copy := Detail.is_copy_constructible_or_void t && copy_constructible e in
  let move := Detail.is_move_constructible_or_void t && move_constructible e in
  special_members_and (expected_delete_ctor_base copy move)
    (special_members_and
      (expected_delete_assign_base
        (copy && Detail.is_copy_assignable_or_void t && copy_assignable e)
        (move && Detail.is_move_assignable_or_void t && move_assignable e))
      (expected_default_ctor_base (default_constructible t || is_void t))).
