(* ===== verification/ExpectedClass.v ===== *)
(** * tl::expected: the class

    Constructors, the assignments that are not special members, emplace, swap,
    the observers and the comparison operators. *)
From S2P Require Import Prelude Lifetime Expected ExpectedOps.

(** [bad_expected_access<E>], what [value()] throws *)
Record bad_expected_access (E : Type) := BadExpectedAccess { bad_val : E }.
Arguments BadExpectedAccess {E} _.
Arguments bad_val {E} _.

(** What T does with an argument of type U: [T(std::forward<U>(v))],
    [T(std::move(v))] and [t = std::forward<U>(v)], and whether the first is
    noexcept.  An argument of several values is one of a product type. *)
Class FromArg (X T U : Type) := {
  arg_ctor : U → U * completion X T;
  arg_move_ctor : U → U * completion X T;
  arg_assign : T → U → T * U * completion X unit;
  arg_nothrow : bool
}.
Arguments arg_nothrow {X} T U {_}.

Class FromArgLaws (X T U : Type) `{FromArg X T U} := {
  arg_nothrow_ok (u : U) : arg_nothrow (X:=X) T U = true → ∃ u' v, arg_ctor u = (u', Returns v)
}.

Section class.
Context {X T E : Type} `{!CppType X T, !CppType X E}.

#[local] Abbreviation exp := (expected T E).

(** ** Constructors

    The new object is the first component of the state. *)
Definition construct_as {R} (b : M X R exp) : M X (exp * R) unit := fun '(x, r) =>
  match b r with
  | Ok (r', Returns y) => Ok ((y, r'), Returns tt)
  | Ok (r', Throws e) => Ok ((x, r'), Throws e)
  | Err f => Err f
  end.

(** [expected()]: T must be default constructible. *)
Definition expected_default {R} (t_init : completion X T) : M X (exp * R) unit :=
  construct_as (sb_default (expected_storage_base (traits T) (traits E))
    (fun r => Ok (r, t_init))).

Definition arg_init {A U} `{!FromArg X A U} : M X U A := fun u =>
  let '(u', c) := arg_ctor u in Ok (u', c).

(** [expected(in_place_t, Args &&...)], with or without an initializer list *)
Definition expected_in_place {U} `{!FromArg X T U} : M X (exp * U) unit :=
  construct_as (sb_in_place (expected_storage_base (traits T) (traits E)) arg_init).

(** [expected(unexpect_t, Args &&...)]: the arguments construct the E inside. *)
Definition unex_init {U} `{!FromArg X E U} : M X U (unexpected E) := fun u =>
  let '(u', c) := arg_ctor u in Ok (u', lift_unex c).

Definition expected_unexpect {U} `{!FromArg X E U} : M X (exp * U) unit :=
  construct_as (sb_unexpect (expected_storage_base (traits T) (traits E)) unex_init).

(** [expected(unexpected<G>)]: four overloads, by category and explicitness; they
    pass [e.value()] on. *)
Definition expected_from_unexpected {G} `{!FromArg X E G} : M X (exp * unexpected G) unit :=
  fun '(x, u) =>
    match expected_unexpect (x, Unexpected.value u) with
    | Ok ((x', g'), c) => Ok ((x', Unexpected g'), c)
    | Err f => Err f
    end.

(** [expected(U &&v)], explicit or not *)
Definition expected_from_value {U} `{!FromArg X T U} : M X (exp * U) unit :=
  expected_in_place.

(** [*rhs] and [rhs.error()] of an expected of other types, as arguments *)
Definition other_val {U G S} `{!FromArg X T U} : M X (S * expected U G) T := fun '(s, y) =>
  match active y with
  | Val w => let '(w', c) := arg_ctor w in Ok ((s, set_active (Val w') y), c)
  | _ => Err dead_object
  end.

Definition other_unex {U G S} `{!FromArg X E G} : M X (S * expected U G) (unexpected E) :=
  fun '(s, y) =>
    match active y with
    | Unex e =>
        let '(g, c) := arg_ctor (m_unex e) in
        Ok ((s, set_active (Unex (Unexpected g)) y), lift_unex c)
    | _ => Err dead_object
    end.

(** The converting constructors from [expected<U, G>], four overloads: their
    initialiser list names [ctor_base] only, so [impl_base] is default
    constructed, and the body constructs the object they are to hold.  If that
    throws, the bases that are complete are destroyed, but it is noexcept. *)
Definition expected_converting {U G} `{!FromArg X T U, !FromArg X E G}
    (t_init : completion X T) : M X (exp * expected U G) unit :=
  expected_default t_init ;;
  rhs ← gets (fun s => m_has_val s.2);
  if (rhs : bool) then construct other_val else construct_error other_unex.

(** ** Assignment from a value *)
Definition arg_assign_val {U} `{!FromArg X T U} : M X (exp * U) unit := fun '(x, u) =>
  match get x with
  | Ok v => let '(v', u', c) := arg_assign v u in Ok ((set_active (Val v') x, u'), c)
  | Err f => Err f
  end.

Definition from_arg {A R U} `{!FromArg X A U} : M X (R * U) A := fun '(r, u) =>
  let '(u', c) := arg_ctor u in Ok ((r, u'), c).

Definition from_moved_arg {A R U} `{!FromArg X A U} : M X (R * U) A := fun '(r, u) =>
  let '(u', c) := arg_move_ctor u in Ok ((r, u'), c).

(** [::new (valptr()) T(...); m_has_val = true;], which may throw *)
Definition place_val {R} (init : M X (exp * R) T) : M X (exp * R) unit :=
  placement_new_val init ;; this_modify (set_has_val true).

(** The part of [operator=] and [emplace] for an expected without value, when
    the construction may throw. *)
Definition replace_unex {R} (init : M X (exp * R) T) : M X (exp * R) unit :=
  tmp ← take_unex;
  destroy_unex ;;
  on_throw (restore_unex tmp) (place_val init).

(** T is nothrow constructible from U. *)
Definition assign_value_nothrow {U} `{!FromArg X T U} : M X (exp * U) unit :=
  this ← this_has_value;
  if (this : bool) then arg_assign_val
  else destroy_unex ;; place_val from_arg.

(** It is not: the argument is moved from, whatever it is. *)
Definition assign_value_throwing {U} `{!FromArg X T U} : M X (exp * U) unit :=
  this ← this_has_value;
  if (this : bool) then arg_assign_val
  else replace_unex from_moved_arg.

Definition assign_value {U} `{!FromArg X T U} : M X (exp * U) unit :=
  if arg_nothrow (X:=X) T U then assign_value_nothrow else assign_value_throwing.

(** [operator=(const unexpected<G> &)] and [operator=(unexpected<G> &&)]; the
    second one is noexcept. *)
Definition arg_unex {S} (c : category) : M X (S * unexpected E) (unexpected E) :=
  fun '(s, u) => let '(u', r) := forward_ctor c u in Ok ((s, u'), r).

Definition assign_err (c : category) : M X (exp * unexpected E) unit := fun '(x, u) =>
  match geterr x with
  | Ok e =>
      let '(e', u', r) := forward_assign c e u in Ok ((set_active (Unex e') x, u'), r)
  | Err f => Err f
  end.

Definition assign_unexpected (c : category) : M X (exp * unexpected E) unit :=
  noexcept_if (match c with Lvalue => false | Rvalue => true end) (
    this ← this_has_value;
    if negb this then assign_err c
    else
      destroy_val ;;
      placement_new_unex (arg_unex c) ;;
      this_modify (set_has_val false)).

(** ** emplace *)

(** [val() = T(args...)]: a temporary is made and moved from. *)
Definition move_assign_val {R} (tmp : T) : M X (exp * R) unit := fun '(x, r) =>
  match get x with
  | Ok v => let '(v', _, c) := move_assign v tmp in Ok ((set_active (Val v') x, r), c)
  | Err f => Err f
  end.

Definition assign_val_from {R} (init : M X (exp * R) T) : M X (exp * R) unit :=
  tmp ← init;
  move_assign_val tmp.

Definition emplace_nothrow {U} `{!FromArg X T U} : M X (exp * U) unit :=
  this ← this_has_value;
  if (this : bool) then assign_val_from from_arg
  else destroy_unex ;; place_val from_arg.

Definition emplace_throwing {U} `{!FromArg X T U} : M X (exp * U) unit :=
  this ← this_has_value;
  if (this : bool) then assign_val_from from_arg
  else replace_unex from_arg.

Definition emplace {U} `{!FromArg X T U} : M X (exp * U) unit :=
  if arg_nothrow (X:=X) T U then emplace_nothrow else emplace_throwing.

(** The overloads that take an initializer list: [T t(il, args...);
    val() = std::move(t);] does what [val() = T(...)] does. *)
Definition emplace_il_nothrow {U} `{!FromArg X T U} : M X (exp * U) unit :=
  this ← this_has_value;
  if (this : bool) then assign_val_from from_arg
  else destroy_unex ;; place_val from_arg.

Definition emplace_il_throwing {U} `{!FromArg X T U} : M X (exp * U) unit :=
  this ← this_has_value;
  if (this : bool) then assign_val_from from_arg
  else replace_unex from_arg.

(** ** swap *)

(** A computation on rhs as the object itself. *)
Definition on_rhs {A} (m : M X (exp * exp) A) : M X (exp * exp) A := fun '(x, y) =>
  match m (y, x) with
  | Ok ((y', x'), c) => Ok ((x', y'), c)
  | Err f => Err f
  end.

Definition swap_vals : M X (exp * exp) unit := fun '(x, y) =>
  match get x, get y with
  | Ok v, Ok w =>
      let '(v', w', c) := swap_objects v w in
      Ok ((set_active (Val v') x, set_active (Val w') y), c)
  | _, _ => Err dead_object
  end.

Definition swap_errs : M X (exp * exp) unit := fun '(x, y) =>
  match geterr x, geterr y with
  | Ok e, Ok f =>
      let '(e', f', c) := swap_objects e f in
      Ok ((set_active (Unex e') x, set_active (Unex f') y), c)
  | _, _ => Err dead_object
  end.

Definition swap_flags : M X (exp * exp) unit :=
  modify (fun '(x, y) => (set_has_val (m_has_val y) x, set_has_val (m_has_val x) y)).

(** The noexcept specification is true when the moves and the swaps of T and E
    are noexcept. *)
Definition swap (swaps_noexcept : bool) : M X (exp * exp) unit :=
  noexcept_if (nothrow_move_constructible (traits T) &&
               nothrow_move_constructible (traits E) && swaps_noexcept) (
    this ← this_has_value;
    rhs ← rhs_has_value;
    if this && rhs then swap_vals
    else if negb this && rhs then swap_errs
    else if (this : bool) then
      temp ← on_rhs take_unex;
      on_rhs (placement_new_val (rhs_val Lvalue)) ;;
      placement_new_unex (from_local temp) ;;
      swap_flags
    else
      temp ← take_unex;
      placement_new_val (rhs_val Lvalue) ;;
      placement_new_unex (from_local temp) ;;
      swap_flags).

(** [swap(lhs, rhs)] *)
Definition free_swap (swaps_noexcept : bool) : M X (exp * exp) unit :=
  noexcept_if (nothrow_move_constructible (traits T) &&
               nothrow_move_constructible (traits E) && swaps_noexcept)
    (swap swaps_noexcept).

(** ** Observers

    [operator->] is the address of the value and [operator*] the value itself;
    both are only defined when there is one. *)
Definition deref (x : exp) : result T := get x.

Definition explicit_bool (x : exp) : bool := m_has_val x.

(** [error()] *)
Definition error (x : exp) : result E := e ← geterr x; Ok (Unexpected.value e).

(** [value()]: the exception is constructed from a copy of the error. *)
Definition value (x : exp) : result (completion (X + bad_expected_access E) T) :=
  if negb (m_has_val x) then
    e ← geterr x;
    match copy_ctor (Unexpected.value e) with
    | Throws exn => Ok (Throws (inl exn))
    | Returns e1 =>
        match move_ctor e1 with      (* the constructor moves its parameter *)
        | (_, Throws exn) => Ok (Throws (inl exn))
        | (_, Returns e2) => Ok (Throws (inr (BadExpectedAccess e2)))
        end
    end
  else v ← get x; Ok (Returns v).

(** [value_or(U &&)]: lvalues copy the value, rvalues move it. *)
Definition own_val {R} (c : category) : M X (exp * R) T := fun '(x, r) =>
  match get x with
  | Ok v => let '(v', k) := forward_ctor c v in Ok ((set_active (Val v') x, r), k)
  | Err f => Err f
  end.

Definition value_or {U} `{!FromArg X T U} (c : category) : M X (exp * U) T :=
  b ← gets (fun s => explicit_bool s.1);
  if (b : bool) then own_val c else from_arg.
End class.

(** ** Comparison *)
Section comparison.
Context {T E U F : Type}.

Definition expected_eq (eq_val : T → U → bool) (eq_err : E → F → bool)
    (lhs : expected T E) (rhs : expected U F) : result bool :=
  if negb (Bool.eqb (has_value lhs) (has_value rhs)) then Ok false
  else if negb (has_value lhs)
  then a ← error lhs; b ← error rhs; Ok (eq_err a b)
  else a ← deref lhs; b ← deref rhs; Ok (eq_val a b).

Definition expected_ne (ne_val : T → U → bool) (ne_err : E → F → bool)
    (lhs : expected T E) (rhs : expected U F) : result bool :=
  if negb (Bool.eqb (has_value lhs) (has_value rhs)) then Ok true
  else if negb (has_value lhs)
  then a ← error lhs; b ← error rhs; Ok (ne_err a b)
  else a ← deref lhs; b ← deref rhs; Ok (ne_val a b).

(** With a value, on either side. *)
Definition expected_eq_value (eq_val : T → U → bool) (x : expected T E) (v : U) :
    result bool :=
  if has_value x then a ← deref x; Ok (eq_val a v) else Ok false.

Definition expected_ne_value (ne_val : T → U → bool) (x : expected T E) (v : U) :
    result bool :=
  if has_value x then a ← deref x; Ok (ne_val a v) else Ok true.

(** With an unexpected, on either side. *)
Definition expected_eq_unexpected (eq_err : E → E → bool) (x : expected T E)
    (e : unexpected E) : result bool :=
  if has_value x then Ok false else a ← error x; Ok (eq_err a (Unexpected.value e)).

Definition expected_ne_unexpected (ne_err : E → E → bool) (x : expected T E)
    (e : unexpected E) : result bool :=
  if has_value x then Ok true else a ← error x; Ok (ne_err a (Unexpected.value e)).
End comparison.
