(* ===== verification/ExpectedMonadic.v ===== *)
(** * tl::expected: and_then, map, map_error, or_else

    The member functions have an overload for each way of referring to the object
    and call a function template that has an overload for each combination of
    void types, written twice: with a deduced return type for C++14, and for
    C++11 ([..._cxx11]).  The function that is passed in acts on the value (or the
    error) it is given by reference and on the rest of the state; through a
    reference to const it cannot change the value. *)
From S2P Require Import Prelude Lifetime Expected ExpectedOps ExpectedClass.

Inductive qualifier := Lref | Rref | CLref | CRref.

Definition is_const (q : qualifier) : bool :=
  match q with CLref | CRref => true | _ => false end.

(** What constructing an object from [std::forward<Exp>(exp)]'s member does. *)
Definition forwards (q : qualifier) : category :=
  match q with Rref => Rvalue | _ => Lvalue end.

(** [class monostate {}] *)
Inductive monostate := Monostate.

Section calls.
Context {X T E R : Type} `{!CppType X T, !CppType X E}.

#[local] Abbreviation exp := (expected T E).

(** [invoke(f, *std::forward<Exp>(exp))] *)
Definition call_val {Y} (q : qualifier) (f : M X (T * R) Y) : M X (exp * R) Y :=
  fun '(x, r) =>
    match get x with
    | Err e => Err e
    | Ok v =>
        match f (v, r) with
        | Ok ((v', r'), c) =>
            Ok ((set_active (Val (if is_const q then v else v')) x, r'), c)
        | Err e => Err e
        end
    end.

(** [invoke(f, std::forward<Exp>(exp).error())] *)
Definition call_err {Y} (q : qualifier) (f : M X (E * R) Y) : M X (exp * R) Y :=
  fun '(x, r) =>
    match geterr x with
    | Err e => Err e
    | Ok u =>
        match f (Unexpected.value u, r) with
        | Ok ((e', r'), c) =>
            let e'' := if is_const q then Unexpected.value u else e' in
            Ok ((set_active (Unex (Unexpected e'')) x, r'), c)
        | Err e => Err e
        end
    end.

(** An unexpected made from [std::forward<Exp>(exp).error()], a T made from
    [*std::forward<Exp>(exp)] *)
Definition own_unex (q : qualifier) : M X (exp * R) (unexpected E) := fun '(x, r) =>
  match geterr x with
  | Ok e => let '(e', c) := forward_ctor (forwards q) e in
            Ok ((set_active (Unex e') x, r), c)
  | Err f => Err f
  end.

(** A new expected made from [std::forward<Exp>(exp)]; [copy] and [move] are the
    constructors. *)
Definition own_copy (copy move : M X (exp * exp) unit) (q : qualifier) :
    M X (exp * R) exp := fun '(x, r) =>
  match (if forwards q is Rvalue then move else copy) (Expected NoInit false 0, x) with
  | Ok ((n, x'), Returns _) => Ok ((x', r), Returns n)
  | Ok ((_, x'), Throws e) => Ok ((x', r), Throws e)
  | Err f => Err f
  end.
End calls.

(** [invoke(f)], for an expected without value type *)
Definition call_nothing {X S R Y} (f : M X R Y) : M X (S * R) Y := on_snd f.

(** The object a function returned, moved to where it belongs. *)
Definition move_unex {X S E} `{!CppType X E} (e : E) : M X S (unexpected E) := fun s =>
  Ok (s, (Unexpected.make Rvalue e).2).

(** ** and_then *)
Section and_then.
Context {X T E U R : Type} `{!CppType X T, !CppType X E}.

Definition and_then_impl (q : qualifier) (f : M X (T * R) (expected U E)) :
    M X (expected T E * R) (expected U E) :=
  b ← this_has_value;
  if (b : bool) then call_val q f else init_unex (own_unex q).

Definition and_then_impl_void (q : qualifier) (f : M X R (expected U E)) :
    M X (expected unit E * R) (expected U E) :=
  b ← this_has_value;
  if (b : bool) then call_nothing f else init_unex (own_unex q).

Definition and_then_impl_cxx11 (q : qualifier) (f : M X (T * R) (expected U E)) :
    M X (expected T E * R) (expected U E) :=
  b ← this_has_value;
  if (b : bool) then call_val q f else init_unex (own_unex q).

Definition and_then_impl_void_cxx11 (q : qualifier) (f : M X R (expected U E)) :
    M X (expected unit E * R) (expected U E) :=
  b ← this_has_value;
  if (b : bool) then call_nothing f else init_unex (own_unex q).

(** The members, by qualifier. *)
Definition and_then (cxx14 : bool) (q : qualifier) (f : M X (T * R) (expected U E)) :
    M X (expected T E * R) (expected U E) :=
  if cxx14 then and_then_impl q f else and_then_impl_cxx11 q f.
End and_then.

(** ** map *)
Section map.
Context {X T E U R : Type} `{!CppType X T, !CppType X E, !CppType X U}.

Definition expected_map_impl (q : qualifier) (f : M X (T * R) U) :
    M X (expected T E * R) (expected U E) :=
  b ← this_has_value;
  if (b : bool) then u ← call_val q f; init_val (from_local u)
  else init_unex (own_unex q).

(** f returns nothing: the result is an [expected<void, E>]. *)
Definition expected_map_impl_ret_void (q : qualifier) (f : M X (T * R) unit) :
    M X (expected T E * R) (expected unit E) :=
  b ← this_has_value;
  if (b : bool) then call_val q f ;; init_void (mret tt)
  else init_unex (own_unex q).

(** The expected is an [expected<void, E>]. *)
Definition expected_map_impl_void (q : qualifier) (f : M X R U) :
    M X (expected unit E * R) (expected U E) :=
  b ← this_has_value;
  if (b : bool) then u ← call_nothing f; init_val (from_local u)
  else init_unex (own_unex q).

Definition expected_map_impl_void_ret_void (q : qualifier) (f : M X R unit) :
    M X (expected unit E * R) (expected unit E) :=
  b ← this_has_value;
  if (b : bool) then call_nothing f ;; init_void (mret tt)
  else init_unex (own_unex q).

(** For C++11.  The two that return an [expected<void, E>] make an
    [unexpected<E>] and convert it, which moves the error once more. *)
Definition expected_map_impl_cxx11 (q : qualifier) (f : M X (T * R) U) :
    M X (expected T E * R) (expected U E) :=
  b ← this_has_value;
  if (b : bool) then u ← call_val q f; init_val (from_local u)
  else init_unex (own_unex q).

Definition expected_map_impl_ret_void_cxx11 (q : qualifier) (f : M X (T * R) unit) :
    M X (expected T E * R) (expected unit E) :=
  b ← this_has_value;
  if (b : bool) then call_val q f ;; init_void (mret tt)
  else u ← own_unex q; init_unex (move_unex (Unexpected.value u)).

Definition expected_map_impl_void_cxx11 (q : qualifier) (f : M X R U) :
    M X (expected unit E * R) (expected U E) :=
  b ← this_has_value;
  if (b : bool) then u ← call_nothing f; init_val (from_local u)
  else init_unex (own_unex q).

Definition expected_map_impl_void_ret_void_cxx11 (q : qualifier) (f : M X R unit) :
    M X (expected unit E * R) (expected unit E) :=
  b ← this_has_value;
  if (b : bool) then call_nothing f ;; init_void (mret tt)
  else u ← own_unex q; init_unex (move_unex (Unexpected.value u)).

Definition map (cxx14 : bool) (q : qualifier) (f : M X (T * R) U) :
    M X (expected T E * R) (expected U E) :=
  if cxx14 then expected_map_impl q f else expected_map_impl_cxx11 q f.
End map.

(** ** map_error *)
Section map_error.
Context {X T E F R : Type} `{!CppType X T, !CppType X E, !CppType X F}.

Definition map_error_impl (q : qualifier) (f : M X (E * R) F) :
    M X (expected T E * R) (expected T F) :=
  b ← this_has_value;
  if (b : bool) then init_val (own_val (forwards q))
  else e ← call_err q f; init_unex (move_unex e).

(** f returns nothing: the error becomes a [monostate]. *)
Definition map_error_impl_ret_void (q : qualifier) (f : M X (E * R) unit) :
    M X (expected T E * R) (expected T monostate) :=
  b ← this_has_value;
  if (b : bool) then init_val (own_val (forwards q))
  else call_err q f ;; init_unex (mret (Unexpected Monostate)).

Definition map_error_impl_void (q : qualifier) (f : M X (E * R) F) :
    M X (expected unit E * R) (expected unit F) :=
  b ← this_has_value;
  if (b : bool) then init_void (mret tt)
  else e ← call_err q f; init_unex (move_unex e).

Definition map_error_impl_void_ret_void (q : qualifier) (f : M X (E * R) unit) :
    M X (expected unit E * R) (expected unit monostate) :=
  b ← this_has_value;
  if (b : bool) then init_void (mret tt)
  else call_err q f ;; init_unex (mret (Unexpected Monostate)).

(** For C++11. *)
Definition map_error_impl_cxx11 (q : qualifier) (f : M X (E * R) F) :
    M X (expected T E * R) (expected T F) :=
  b ← this_has_value;
  if (b : bool) then init_val (own_val (forwards q))
  else e ← call_err q f; init_unex (move_unex e).

Definition map_error_impl_ret_void_cxx11 (q : qualifier) (f : M X (E * R) unit) :
    M X (expected T E * R) (expected T monostate) :=
  b ← this_has_value;
  if (b : bool) then init_val (own_val (forwards q))
  else call_err q f ;; init_unex (mret (Unexpected Monostate)).

Definition map_error_impl_void_cxx11 (q : qualifier) (f : M X (E * R) F) :
    M X (expected unit E * R) (expected unit F) :=
  b ← this_has_value;
  if (b : bool) then init_void (mret tt)
  else e ← call_err q f; init_unex (move_unex e).

Definition map_error_impl_void_ret_void_cxx11 (q : qualifier) (f : M X (E * R) unit) :
    M X (expected unit E * R) (expected unit monostate) :=
  b ← this_has_value;
  if (b : bool) then init_void (mret tt)
  else call_err q f ;; init_unex (mret (Unexpected Monostate)).

Definition map_error (cxx14 : bool) (q : qualifier) (f : M X (E * R) F) :
    M X (expected T E * R) (expected T F) :=
  if cxx14 then map_error_impl q f else map_error_impl_cxx11 q f.
End map_error.

(** ** or_else *)
Section or_else.
Context {X T E R : Type} `{!CppType X E}.
(** The copy and move constructors of [expected<T, E>]; T may be void. *)
Context (copy move : M X (expected T E * expected T E) unit).

Definition or_else_impl (q : qualifier) (f : M X (E * R) (expected T E)) :
    M X (expected T E * R) (expected T E) :=
  b ← this_has_value;
  if (b : bool) then own_copy copy move q else call_err q f.

Definition or_else_impl_ret_void (q : qualifier) (f : M X (E * R) unit) :
    M X (expected T E * R) (expected T E) :=
  b ← this_has_value;
  if (b : bool) then own_copy copy move q
  else call_err q f ;; own_copy copy move q.

Definition or_else_impl_cxx11 (q : qualifier) (f : M X (E * R) (expected T E)) :
    M X (expected T E * R) (expected T E) :=
  b ← this_has_value;
  if (b : bool) then own_copy copy move q else call_err q f.

Definition or_else_impl_ret_void_cxx11 (q : qualifier) (f : M X (E * R) unit) :
    M X (expected T E * R) (expected T E) :=
  b ← this_has_value;
  if (b : bool) then own_copy copy move q
  else call_err q f ;; own_copy copy move q.

Definition or_else (cxx14 : bool) (q : qualifier) (f : M X (E * R) (expected T E)) :
    M X (expected T E * R) (expected T E) :=
  if cxx14 then or_else_impl q f else or_else_impl_cxx11 q f.
End or_else.
