(* ===== verification/ExpectedTheorems.v ===== *)
(** * tl::expected: what the operations do to objects that are well formed, and the theorems

    The abstract value of an expected is a [T + E].  [of_sum n s] is the object
    that holds [s] and has lost [n] objects. *)
From S2P Require Import Prelude Lifetime Expected ExpectedOps ExpectedClass ExpectedMonadic.

Definition of_sum {T E} (n : nat) (s : T + E) : expected T E :=
  match s with
  | inl v => Expected (Val v) true n
  | inr e => Expected (Unex (Unexpected e)) false n
  end.

(** The flag agrees with the union. *)
Definition wf {T E} (x : expected T E) : Prop :=
  match active x with
  | Val _ => m_has_val x = true
  | Unex _ => m_has_val x = false
  | NoInit => False
  end.

Lemma wf_of_sum {T E} n (s : T + E) : wf (of_sum n s).
Proof. by destruct s. Qed.

(** An [expected<void, E>] that holds [s]. *)
Definition of_void {E} (n : nat) (s : unit + E) : expected unit E :=
  match s with
  | inl _ => Expected NoInit true n
  | inr e => Expected (Unex (Unexpected e)) false n
  end.

Lemma wf_inv {T E} (x : expected T E) : wf x → ∃ s, x = of_sum (lost x) s.
Proof.
  destruct x as [[|v|[e]] h n]; simpl; intros H; unfold wf in H; simpl in H; subst; [done| |].
  - by exists (inl v).
  - by exists (inr e).
Qed.

#[export] Hint Resolve wf_of_sum : keryx.

(** Two objects hold the same kind of thing. *)
Definition same_side {T E} (s t : T + E) : Prop :=
  match s, t with inl _, inl _ | inr _, inr _ => True | _, _ => False end.

(** ** Copying and moving *)
Section assignment.
Context {X T E : Type} `{CLT : CppLaws X T, CLE : CppLaws X E}.
#[local] Abbreviation exp := (expected T E).

(** What an assignment from [y], which held [t], leaves: [x] holds [t]; [y] holds
    something of the same kind, and still [t] if it was passed as an lvalue. *)
Definition assigned (c : category) (n k : nat) (t : T + E) (x y : exp) : Prop :=
  x = of_sum n t ∧ ∃ t', y = of_sum k t' ∧ same_side t t' ∧ (c = Lvalue → t' = t).

(** The same when it throws: [x] is well formed. *)
Definition interrupted (c : category) (n k : nat) (t : T + E) (x y : exp) : Prop :=
  ∃ s' t', x = of_sum n s' ∧ y = of_sum k t' ∧ same_side t t' ∧ (c = Lvalue → t' = t).

Definition nothrow : bool := nothrow_all (traits T) && nothrow_all (traits E).

(** The outcomes of an assignment between two objects that are well formed. *)
Definition assigns (m : M X (exp * exp) unit) (c : category) (n k : nat) (t : T + E)
    (s : exp * exp) : Prop :=
  runs m s (λ _ '(x, y), assigned c n k t x y)
    (λ _ '(x, y), interrupted c n k t x y ∧ nothrow = false)
    (λ f, f = terminated ∧ nothrow = false).

Lemma assigned_intro c n k (t t' s' : T + E) :
  s' = t → same_side t t' → (c = Lvalue → t' = t) →
  assigned c n k t (of_sum n s') (of_sum k t').
Proof. intros ->. unfold assigned; eauto. Qed.

Lemma interrupted_intro c n k (t t' s' : T + E) :
  same_side t t' → (c = Lvalue → t' = t) →
  interrupted c n k t (of_sum n s') (of_sum k t').
Proof. unfold interrupted; eauto 8. Qed.

End assignment.
Arguments nothrow {X} T E {_ _}.

Lemma nothrow_false_intro {X T E} `{!CppType X T, !CppType X E} :
  (nothrow (X := X) T E = true → False) → nothrow (X := X) T E = false.
Proof. destruct (nothrow T E); [intros []|]; done. Qed.

(** ** Symbolic execution

    [run_open] computes everything but the operations of the objects; [run] also
    splits on their outcomes and closes the goals about [assigned]. *)
Ltac run_open :=
  cbn [of_sum];
  cbv -[copy_ctor move_ctor copy_assign move_assign swap_objects traits forward_ctor
        forward_assign unexpected_CppType arg_ctor arg_move_ctor arg_assign arg_nothrow
        of_sum nothrow_all nothrow assigned interrupted nothrow_copy_constructible
        nothrow_move_constructible nothrow_copy_assignable nothrow_move_assignable
        copy_base_trivial move_base_trivial].

Ltac open_unex := repeat match goal with u : unexpected _ |- _ => destruct u end.

Ltac side_of S a :=
  lazymatch a with
  | Val ?v => constr:(inl v : S)
  | Unex (Unexpected ?e) => constr:(inr e : S)
  end.

Ltac nothrow_contra :=
  apply nothrow_false_intro; let H := fresh in intros H;
  apply andb_true_iff in H as [? ?]; object_facts.

Ltac close_assigned :=
  lazymatch goal with
  | |- assigned ?c ?n ?k ?t (Expected ?a _ _) (Expected ?b _ _) =>
      let S := type of t in
      let s' := side_of S a in
      let t' := side_of S b in
      apply (assigned_intro c n k t t' s'); simpl;
        [object_facts; try done|done|intros ?; simplify_eq; object_facts; try done]
  | |- interrupted ?c ?n ?k ?t (Expected ?a _ _) (Expected ?b _ _) =>
      let S := type of t in
      let s' := side_of S a in
      let t' := side_of S b in
      apply (interrupted_intro c n k t t' s'); simpl;
        [try done|intros ?; simplify_eq; object_facts; try done]
  | |- _ ∧ nothrow _ _ = false => split; [first [done|close_assigned]|nothrow_contra]
  end.

Ltac run := run_open; repeat split_match; try done; open_unex; try close_assigned.

Section assign_lemmas.
Context {X T E : Type} `{CLT : CppLaws X T, CLE : CppLaws X E}.

Lemma assign_common_runs c n k (s t : T + E) :
  negb (m_has_val (of_sum n s)) && m_has_val (of_sum k t) = false →
  assigns (assign_common c) c n k t (of_sum n s, of_sum k t).
Proof using All.
  intros Hc. unfold assigns, runs.
  destruct s as [v|e], t as [w|f]; try discriminate; run.
Qed.

Lemma assign_runs c n k (s t : T + E) :
  assigns (assign c) c n k t (of_sum n s, of_sum k t).
Proof using All. unfold assigns, runs. destruct s as [v|e], t as [w|f], c; run. Qed.

Lemma trivial_copy_runs c n k raw (t : T + E) :
  lost raw = n → assigns trivial_copy c n k t (raw, of_sum k t).
Proof. intros <-. unfold assigns, runs. destruct t as [w|f]; run. Qed.

Lemma copy_base_runs b k raw (t : T + E) :
  assigns (expected_copy_base_copy b) Lvalue 0 k t (raw, of_sum k t).
Proof using All. unfold assigns, runs. destruct t as [w|f], b; run. Qed.

Lemma move_base_runs b k raw (t : T + E) :
  assigns (expected_move_base_move b) Rvalue 0 k t (raw, of_sum k t).
Proof using All. unfold assigns, runs. destruct t as [w|f], b; run. Qed.

Lemma copy_assign_base_runs b n k (s t : T + E) :
  assigns (expected_copy_assign_base_assign b) Lvalue n k t (of_sum n s, of_sum k t).
Proof using All. destruct b; [by apply trivial_copy_runs; destruct s|apply assign_runs]. Qed.

Lemma move_assign_base_runs b n k (s t : T + E) :
  assigns (expected_move_assign_base_assign b) Rvalue n k t (of_sum n s, of_sum k t).
Proof using All.
  destruct b; [by apply trivial_copy_runs; destruct s|].
  apply runs_noexcept_if; [apply assign_runs|]. by intros x [] [].
Qed.
End assign_lemmas.

(** The overloads of a build without exceptions. *)
Definition assign_noexc {X T E} `{!CppType X T, !CppType X E} (c : category) :
    M X (expected T E * expected T E) unit :=
  match c with Lvalue => assign_copy_noexc | Rvalue => assign_move_noexc end.

Lemma assign_noexc_runs {X T E} `{CLT : CppLaws X T, CLE : CppLaws X E} c n k (s t : T + E) :
  assigns (assign_noexc c) c n k t (of_sum n s, of_sum k t).
Proof. unfold assigns, runs, assign_noexc. destruct s as [v|e], t as [w|f], c; run. Qed.

(** The one for rvalues only moves a value that replaces an error: otherwise it copies, and
    the source is as it was. *)
Theorem move_without_exceptions_copies {X T E} `{CLT : CppLaws X T, CLE : CppLaws X E}
    n k (s t : T + E) x y :
  assign_move_noexc (of_sum n s, of_sum k t) = Ok ((x, y), Returns tt) →
  (∀ e v, s = inr e → t ≠ inl v) → y = of_sum k t.
Proof.
  intros Hrun Hno. destruct s as [v|e], t as [w|f]; [| |by destruct (Hno e w)|];
    revert Hrun; run_open; repeat split_match; try done; open_unex; intros; simplify_eq; object_facts; try done.
Qed.

(** T is void: the same for the bases of [expected<void, E>]. *)
Section void.
Context {X E : Type} `{CLE : CppLaws X E}.
#[local] Abbreviation exp := (expected unit E).

Definition assigns_void (m : M X (exp * exp) unit) (c : category) (n k : nat) (t : unit + E)
    (s : exp * exp) : Prop :=
  runs m s (λ _ '(x, y), x = of_void n t ∧
      ∃ t', y = of_void k t' ∧ same_side t t' ∧ (c = Lvalue → t' = t))
    (λ _ _, False)
    (λ f, f = terminated ∧ nothrow_all (traits E) = false).

Definition void_ctor (c : category) (trivial : bool) : M X (exp * exp) unit :=
  match c with
  | Lvalue => expected_copy_base_copy_void trivial
  | Rvalue => expected_move_base_move_void trivial
  end.

Definition void_assign (c : category) (trivial : bool) : M X (exp * exp) unit :=
  if trivial then trivial_copy else assign_void c.

(** The end of a symbolic execution: what the source holds then can be read off. *)
Ltac finish_void :=
  destruct_unit; object_facts;
  lazymatch goal with
  | |- _ ∧ nothrow_all _ = false => split; [done|apply not_true_is_false; intros ?; object_facts; done]
  | |- _ ∧ ∃ _, _ =>
      split; [done|];
      first [exists (inl tt); by split_and!|eexists (inr _); split_and!; [reflexivity|done|intros; simplify_eq; object_facts; done]]
  end.

Lemma void_ctor_runs c b k raw (t : unit + E) : assigns_void (void_ctor c b) c 0 k t (raw, of_void k t).
Proof. unfold assigns_void, runs. destruct t as [w|f], b, c; run_open; repeat split_match; try done; open_unex; finish_void. Qed.

Lemma void_assign_runs c b n k (s t : unit + E) :
  assigns_void (void_assign c b) c n k t (of_void n s, of_void k t).
Proof.
  unfold assigns_void, runs.
  destruct s as [v|e], t as [w|f], b, c; run_open; repeat split_match; try done; open_unex; finish_void.
Qed.
End void.

(** The destructor destroys what is there, unless that is trivial. *)
Lemma destructor_destroys {X R T E} (t e : type_traits) n (s : T + E) :
  sb_dtor (expected_storage_base (X := X) (R := R) t e) (of_sum n s) =
    Ok match s with
       | inl v => if trivially_destructible t then [] else [DestroyedVal v]
       | inr f => if trivially_destructible e then [] else [DestroyedUnex (Unexpected f)]
       end.
Proof.
  unfold expected_storage_base.
  destruct s, (trivially_destructible t), (trivially_destructible e); reflexivity.
Qed.

(** ** tl::expected: the properties *)
(** ** A type of objects to try the theorems on

    Numbers, whose constructors throw on the numbers of a list; no function is
    trivial. *)
Module Demo.
Definition demo_traits (nothrow_copy nothrow_move : bool) : type_traits := {|
  is_void := false; default_constructible := true;
  copy_constructible := true; move_constructible := true;
  copy_assignable := true; move_assignable := true;
  nothrow_copy_constructible := nothrow_copy; nothrow_move_constructible := nothrow_move;
  nothrow_copy_assignable := nothrow_copy; nothrow_move_assignable := nothrow_move;
  trivially_copy_constructible := false; trivially_move_constructible := false;
  trivially_copy_assignable := false; trivially_move_assignable := false;
  trivially_destructible := false |}.

Definition val (v : nat) : nat + nat := inl v.
Definition err (e : nat) : nat + nat := inr e.

Definition attempt (throws : bool) (a : nat) : completion nat nat :=
  if throws then Throws a else Returns a.

(** Copying 13 throws, moving leaves 0 behind. *)
Definition fragile : CppType nat nat := {|
  traits := demo_traits false true;
  copy_ctor a := attempt (a =? 13)%nat a;
  move_ctor a := (0%nat, Returns a);
  copy_assign a b := if (b =? 13)%nat then (a, Throws b) else (b, Returns tt);
  move_assign a b := (b, 0%nat, Returns tt);
  swap_objects a b := (b, a, Returns tt) |}.

(** Nothing throws. *)
Definition solid : CppType nat nat := {|
  traits := demo_traits true true;
  copy_ctor a := Returns a;
  move_ctor a := (0%nat, Returns a);
  copy_assign a b := (b, Returns tt);
  move_assign a b := (b, 0%nat, Returns tt);
  swap_objects a b := (b, a, Returns tt) |}.

Lemma solid_laws : @CppLaws nat nat solid.
Proof. split; simpl; try congruence; eauto. intros. by simplify_eq. Qed.

Lemma fragile_laws : @CppLaws nat nat fragile.
Proof.
  split; simpl; try congruence; eauto.
  - intros a b. unfold attempt. case_match; congruence.
  - intros a b a'. case_match; congruence.
  - intros. by simplify_eq.
Qed.

(** An argument of the same type, from which construction throws on 13. *)
Definition from_nat (nothrow : bool) : FromArg nat nat nat := {|
  arg_ctor u := (u, if nothrow then Returns u else attempt (u =? 13)%nat u);
  arg_move_ctor u := (0%nat, attempt (u =? 13)%nat u);
  arg_assign t u := (u, u, Returns tt);
  arg_nothrow := nothrow |}.

Lemma from_nat_laws b : @FromArgLaws nat nat nat (from_nat b).
Proof. split. intros u. destruct b; [by do 2 eexists|done]. Qed.
End Demo.

(** The copy or the move constructor, the copy or the move assignment. *)
Definition special_ctor {X T E} `{!CppType X T, !CppType X E} (c : category) :
    M X (expected T E * expected T E) unit :=
  match c with Lvalue => expected_copy_ctor | Rvalue => expected_move_ctor end.

Definition special_assign {X T E} `{!CppType X T, !CppType X E} (c : category) :
    M X (expected T E * expected T E) unit :=
  match c with Lvalue => expected_copy_assign | Rvalue => expected_move_assign end.

(** C23: The special members of [expected] copy.  Whatever T and E are, whichever of
    the overloads of [assign] is chosen, in a build with exceptions or without them, whether
    the trivial base is used or the other one, and for the bases of [expected<void, E>]
    as well: constructing or assigning from an expected that holds [t] gives
    an expected that holds [t]; the source keeps its kind of content, and its
    content if it was passed as an lvalue; no object is lost, no dead object is
    touched.  An exception leaves the target well formed, or terminates the
    program; neither happens if T and E do not throw.  (Without exceptions the overload for
    rvalues copies: [move_without_exceptions_copies].) *)
Theorem special_members_copy {X T E} `{CLT : CppLaws X T, CLE : CppLaws X E}
    (c : category) (n k : nat) (raw : expected T E) (s t : T + E)
    (trivial : bool) (raw_void : expected unit E) (s_void t_void : unit + E) :
  assigns (special_ctor c) c 0 k t (raw, of_sum k t) ∧
  assigns (special_assign c) c n k t (of_sum n s, of_sum k t) ∧
  assigns (assign_noexc c) c n k t (of_sum n s, of_sum k t) ∧
  assigns_void (void_ctor c trivial) c 0 k t_void (raw_void, of_void k t_void) ∧
  assigns_void (void_assign c trivial) c n k t_void (of_void n s_void, of_void k t_void).
Proof.
  split_and!; [..|apply assign_noexc_runs|apply void_ctor_runs|apply void_assign_runs]; destruct c.
  - apply copy_base_runs.
  - apply move_base_runs.
  - apply copy_assign_base_runs.
  - apply move_assign_base_runs.
Qed.

Lemma special_members_copy_witness :
  let _ := Demo.fragile in
  assigns (special_ctor (X := nat) Lvalue) Lvalue 0 1 (Demo.val 7)
    (Expected NoInit false 0, of_sum 1 (Demo.val 7)) ∧
  assigns (assign_noexc (X := nat) Rvalue) Rvalue 0 1 (Demo.val 7)
    (of_sum 0 (Demo.err 5), of_sum 1 (Demo.val 7)) ∧
  special_assign (X := nat) Lvalue (of_sum 0 (Demo.err 5), of_sum 0 (Demo.val 7))
    = Ok ((of_sum 0 (Demo.val 7), of_sum 0 (Demo.val 7)), Returns tt) ∧
  special_assign (X := nat) Lvalue (of_sum 0 (Demo.err 5), of_sum 0 (Demo.val 13))
    = Err terminated ∧
  assign_noexc (X := nat) Rvalue (of_sum 0 (Demo.val 5), of_sum 0 (Demo.val 7))
    = Ok ((of_sum 0 (Demo.val 7), of_sum 0 (Demo.val 7)), Returns tt) ∧
  void_assign (X := nat) Rvalue false (of_void 0 (inl tt), of_void 0 (inr 4%nat))
    = Ok ((of_void 0 (inr 4%nat), of_void 0 (inr 0%nat)), Returns tt).
Proof.
  split_and!; [..|reflexivity|reflexivity|reflexivity|reflexivity].
  - exact (proj1 (special_members_copy (CLT := Demo.fragile_laws) (CLE := Demo.fragile_laws)
      Lvalue 0 1 (Expected NoInit false 0) (Demo.val 7) (Demo.val 7) true (Expected NoInit false 0) (inl tt) (inl tt))).
  - apply (special_members_copy (CLT := Demo.fragile_laws) (CLE := Demo.fragile_laws)
      Rvalue 0 1 (Expected NoInit false 0) (Demo.err 5) (Demo.val 7) true (Expected NoInit false 0) (inl tt) (inl tt)).
Defined.

(** ** Sequences of operations *)
Section sequences.
Context {X T E U : Type} `{CLT : CppLaws X T, CLE : CppLaws X E, FL : FromArgLaws X T U}.
#[local] Abbreviation exp := (expected T E).

(** What a program does with two objects [a] and [b]. *)
Inductive op :=
  | OpAssign (c : category)                          (* a = b, a = std::move(b) *)
  | OpAssignBack (c : category)                      (* b = a, b = std::move(a) *)
  | OpValue (u : U)                                  (* a = u *)
  | OpEmplace (u : U)                                (* a.emplace(u) *)
  | OpUnexpected (c : category) (e : unexpected E)   (* a = e, a = std::move(e) *)
  | OpSwap.                                          (* if (a && b) a.swap(b) *)

Definition with_arg {A} (u : A) (m : M X (exp * A) unit) : M X (exp * exp) unit :=
  fun '(a, b) =>
    match m (a, u) with
    | Ok ((a', _), c) => Ok ((a', b), c)
    | Err f => Err f
    end.

Definition run_op (o : op) : M X (exp * exp) unit :=
  match o with
  | OpAssign c => special_assign c
  | OpAssignBack c => on_rhs (special_assign c)
  | OpValue u => with_arg u assign_value
  | OpEmplace u => with_arg u emplace
  | OpUnexpected c e => with_arg e (assign_unexpected c)
  | OpSwap =>
      a ← this_has_value;
      b ← rhs_has_value;
      if a && b then swap false else mret tt
  end.

(** Exceptions are caught between the operations. *)
Fixpoint run_ops (l : list op) (s : exp * exp) : result (exp * exp) :=
  match l with
  | [] => Ok s
  | o :: l =>
      match run_op o s with
      | Ok (s', _) => run_ops l s'
      | Err f => Err f
      end
  end.

Definition both_wf (n k : nat) (s : exp * exp) : Prop :=
  ∃ a b, s = (of_sum n a, of_sum k b).

Definition op_ok (n k : nat) (m : M X (exp * exp) unit) (s : exp * exp) : Prop :=
  runs m s (λ _, both_wf n k) (λ _, both_wf n k) (eq terminated).

Lemma both_wf_intro n k (x y : exp) :
  wf x → lost x = n → wf y → lost y = k → both_wf n k (x, y).
Proof. intros (a & Ha)%wf_inv <- (b & Hb)%wf_inv <-. exists a, b. congruence. Qed.

Lemma assigns_op_ok n k c (s t : T + E) m :
  assigns m c n k t (of_sum n s, of_sum k t) → op_ok n k m (of_sum n s, of_sum k t).
Proof.
  intros Ha. eapply runs_mono; [exact Ha| | |].
  - intros _ [x y] (-> & t' & -> & _). by exists t, t'.
  - intros _ [x y] ((s' & t' & -> & -> & _) & _). by exists s', t'.
  - by intros f [-> _].
Qed.

Lemma special_assign_runs c n k (s t : T + E) :
  assigns (special_assign c) c n k t (of_sum n s, of_sum k t).
Proof using CLT CLE. destruct c; [apply copy_assign_base_runs|apply move_assign_base_runs]. Qed.

Lemma op_assign_back c n k (a b : T + E) :
  op_ok n k (on_rhs (special_assign c)) (of_sum n a, of_sum k b).
Proof using CLT CLE.
  pose proof (special_assign_runs c k n b a) as Ha. apply assigns_op_ok in Ha.
  revert Ha. unfold op_ok, runs, on_rhs.
  destruct (special_assign c _) as [[[y x] [?|?]]|f]; [| |done];
    intros (t & s & [= -> ->]); by exists s, t.
Qed.

Context (Harg : arg_nothrow (X := X) T U = true).
Context (Hcopy : nothrow_copy_constructible (traits E) = true).
Context (Hmove : nothrow_move_constructible (traits E) = true).

Lemma forward_unex_ok c (e : unexpected E) : ∃ e1 e2, forward_ctor c e = (e1, Returns e2).
Proof using Hcopy Hmove CLE.
  destruct c; simpl.
  - destruct (nothrow_copy_ok (m_unex e) Hcopy) as [b ->]. by do 2 eexists.
  - destruct (nothrow_move_ok (m_unex e) Hmove) as (a & b & ->). by do 2 eexists.
Qed.

(** [HP] says that well formed objects satisfy the invariant. *)
Ltac run_wf HP :=
  unfold op_ok, runs; run_open; repeat split_match; try done;
  try (by apply HP); try (by apply HP; [|apply wf_of_sum|]).

Lemma run_op_ok o n k (s : exp * exp) : both_wf n k s → op_ok n k (run_op o) s.
Proof using CLT CLE FL Harg Hcopy Hmove.
  intros (a & b & ->).
  destruct o as [c|c|u|u|c e|]; simpl;
    [apply assigns_op_ok with c, special_assign_runs|apply op_assign_back| | | |];
    unfold op_ok; pose proof (both_wf_intro n k) as HP; revert HP;
    generalize (both_wf n k); intros P HP.
  - unfold assign_value. rewrite Harg. destruct (arg_nothrow_ok u Harg) as (u' & v & Hu).
    destruct a as [w|e], b; run_wf HP.
  - unfold emplace. rewrite Harg. destruct (arg_nothrow_ok u Harg) as (u' & v & Hu).
    destruct a as [w|e], b; run_wf HP.
  - destruct (forward_unex_ok c e) as (e1 & e2 & He). destruct a as [w|f], b, c; run_wf HP.
  - unfold swap. destruct a, b; run_wf HP.
Qed.
End sequences.
Arguments op E U : clear implicits.

(** C24: Whatever sequence of assignments (from each other, from values, from
    unexpecteds), emplacements and swaps of values a program runs on two expected
    objects, catching exceptions in between: the flags always agree with the
    unions, no object is lost and no dead object is touched, as long as T is
    nothrow constructible from the arguments and E can be copied and moved without
    throwing; at worst an exception meets a noexcept. *)
Theorem operations_preserve_wf {X T E U} `{CLT : CppLaws X T, CLE : CppLaws X E}
    `{FL : FromArgLaws X T U} (Harg : arg_nothrow (X := X) T U = true)
    (Hcopy : nothrow_copy_constructible (traits E) = true)
    (Hmove : nothrow_move_constructible (traits E) = true)
    (l : list (op E U)) (n k : nat) (a b : T + E) :
  run_ops l (of_sum n a, of_sum k b) = Err terminated ∨
  ∃ a' b', run_ops l (of_sum n a, of_sum k b) = Ok (of_sum n a', of_sum k b').
Proof.
  revert a b. induction l as [|o l IH]; intros a b; simpl; [by right; exists a, b|].
  pose proof (run_op_ok Harg Hcopy Hmove o n k (of_sum n a, of_sum k b)) as Ho.
  unfold op_ok, runs in Ho.
  destruct (run_op o _) as [[s' [?|?]]|f];
    [destruct Ho as (a' & b' & ->); [by exists a, b|apply IH]..|].
  left. by rewrite <- Ho by (by exists a, b).
Qed.

Lemma operations_preserve_wf_witness :
  let _ := Demo.solid in
  let _ := Demo.from_nat true in
  let l := [OpEmplace 4%nat; OpAssignBack Rvalue; OpSwap; OpUnexpected Lvalue (Unexpected 2%nat)] in
  (run_ops (X := nat) l (of_sum 0 (Demo.err 1), of_sum 0 (Demo.err 3)) = Err terminated ∨
   ∃ a' b', run_ops (X := nat) l (of_sum 0 (Demo.err 1), of_sum 0 (Demo.err 3))
            = Ok (of_sum 0 a', of_sum 0 b')) ∧
  run_ops (X := nat) l (of_sum 0 (Demo.err 1), of_sum 0 (Demo.err 3))
    = Ok (of_sum 0 (Demo.err 2), of_sum 0 (Demo.val 0)).
Proof.
  split; [|reflexivity].
  apply (operations_preserve_wf (CLT := Demo.solid_laws) (CLE := Demo.solid_laws)
    (FL := Demo.from_nat_laws true) eq_refl eq_refl eq_refl).
Defined.

(** ** Assignment from a value, emplace *)

(** What replaces an error by a value constructed by [ctor]. *)
Definition replace_spec {X T E U} `{!CppType X T, !CppType X E, !FromArg X T U}
    (ctor : U → U * completion X T) (n : nat) (e : E) (u : U) :
    result (expected T E * U * completion X unit) :=
  match move_ctor e with
  | (e', Throws x) => Ok ((of_sum n (inr e'), u), Throws x)
  | (_, Returns _) =>
      match ctor u with
      | (u', Returns v) => Ok ((of_sum n (inl v), u'), Returns tt)
      | (_, Throws _) => Err dead_object
      end
  end.

(** Assigning a value to, or emplacing one in, an expected that holds an error.
    If T is nothrow constructible from the argument, the expected then holds the
    value and nothing is lost.  Otherwise the error is moved out of the way first;
    when the construction throws, the handler that should put it back assigns to
    the [unexpected] that has been destroyed.  [operator=] then moves from its
    argument even if that is an lvalue, while [emplace] forwards it. *)
Theorem replacing_an_error {X T E U} `{CLT : CppLaws X T, CLE : CppLaws X E}
    `{FL : FromArgLaws X T U} (n : nat) (e : E) (u : U) :
  if arg_nothrow (X := X) T U then
    ∃ u' v, arg_ctor (X := X) u = (u', Returns v) ∧
      assign_value (of_sum n (inr e), u) = Ok ((of_sum n (inl v), u'), Returns tt) ∧
      emplace (of_sum n (inr e), u) = Ok ((of_sum n (inl v), u'), Returns tt)
  else
    assign_value (of_sum n (inr e), u) = replace_spec arg_move_ctor n e u ∧
    emplace (of_sum n (inr e), u) = replace_spec arg_ctor n e u.
Proof.
  pose proof (arg_nothrow_ok u) as Hn. unfold replace_spec, assign_value, emplace.
  destruct (arg_nothrow T U).
  - destruct (Hn eq_refl) as (u' & v & Hu). exists u', v. split; [done|].
    unfold assign_value_nothrow, emplace_nothrow. split; run_open; by rewrite Hu.
  - split; run_open; simpl; repeat split_match; by simplify_eq/=.
Qed.

Lemma replacing_an_error_witness :
  let _ := Demo.solid in
  let _ := Demo.from_nat false in
  (assign_value (X := nat) (of_sum 0 (Demo.err 1), 13%nat)
     = replace_spec (E := nat) arg_move_ctor 0 1%nat 13%nat ∧
   emplace (X := nat) (of_sum 0 (Demo.err 1), 13%nat)
     = replace_spec (E := nat) arg_ctor 0 1%nat 13%nat) ∧
  emplace (X := nat) (of_sum 0 (Demo.err 1), 13%nat) = Err dead_object ∧
  assign_value (X := nat) (of_sum 0 (Demo.err 1), 5%nat)
    = Ok ((of_sum 0 (Demo.val 5), 0%nat), Returns tt).
Proof.
  split; [|split; reflexivity].
  apply (replacing_an_error (CLT := Demo.solid_laws) (CLE := Demo.solid_laws)
    (FL := Demo.from_nat_laws false) 0 1%nat 13%nat).
Defined.

(** ** swap *)

(** C28: What swapping does, for T and E that do not throw.  Two values are swapped.
    A value and an error are swapped, but both objects are constructed over the
    ones that are there: each side loses one.  If the left-hand side holds an
    error, swap reads an object that does not exist: the error of a right-hand side
    that has a value, or the value of one that has an error. *)
Theorem swap_outcomes {X T E} `{CLT : CppLaws X T, CLE : CppLaws X E}
    (b : bool) (n k : nat) (s t : T + E) (Hn : nothrow (X := X) T E = true)
    (Hs : ∀ v w : T, ∃ v' w', swap_objects v w = (v', w', Returns tt)) :
  free_swap b (of_sum n s, of_sum k t) =
    match s, t with
    | inl v, inl w => Ok ((of_sum n (inl w), of_sum k (inl v)), Returns tt)
    | inl v, inr f => Ok ((of_sum (S n) (inr f), of_sum (S k) (inl v)), Returns tt)
    | inr _, _ => Err dead_object
    end.
Proof.
  apply andb_true_iff in Hn as [HT HE]. unfold free_swap, swap.
  destruct s as [v|e], t as [w|f]; [|run_open; repeat split_match; object_facts; done..].
  destruct (Hs v w) as (v' & w' & Hsw). destruct (swap_objects_eq _ _ _ _ Hsw) as [-> ->].
  run_open. repeat split_match; rewrite ?Hsw in *; by simplify_eq/=.
Qed.

Lemma swap_outcomes_witness :
  let _ := Demo.solid in
  free_swap (X := nat) true (of_sum 0 (Demo.val 3), of_sum 0 (Demo.err 4))
    = Ok ((of_sum 1 (Demo.err 4), of_sum 1 (Demo.val 3)), Returns tt).
Proof.
  refine (swap_outcomes (CLT := Demo.solid_laws) (CLE := Demo.solid_laws) true 0 0
    (Demo.val 3) (Demo.err 4) eq_refl _).
  intros v w. by exists w, v.
Defined.

(** ** Conversion *)

(** The constructors from an expected of other types first make a default value
    and then construct what they are to hold over it: the new object has lost an
    object, whatever it is made from. *)
Theorem converting_loses_default {X T E U G} `{CLT : CppLaws X T, CLE : CppLaws X E}
    `{!FromArg X T U, !FromArg X E G} (raw : expected T E) (d : T) (k : nat) (t : U + G) :
  expected_converting (Returns d) (raw, of_sum k t) =
    match t with
    | inl w =>
        match arg_ctor w with
        | (w', Returns v) => Ok ((of_sum 1 (inl v), of_sum k (inl w')), Returns tt)
        | (_, Throws _) => Err terminated
        end
    | inr g =>
        match arg_ctor g with
        | (g', Returns e) => Ok ((of_sum 1 (inr e), of_sum k (inr g')), Returns tt)
        | (_, Throws _) => Err terminated
        end
    end.
Proof.
  unfold expected_converting, expected_default, expected_storage_base.
  destruct t as [w|g];
    destruct (trivially_destructible (traits T)), (trivially_destructible (traits E));
    run_open; simpl; repeat split_match; done.
Qed.

Lemma converting_loses_default_witness :
  let _ := Demo.solid in
  let _ := Demo.from_nat true in
  expected_converting (X := nat) (T := nat) (E := nat) (U := nat) (G := nat) (Returns 0%nat)
    (Expected NoInit false 0, of_sum 0 (Demo.val 8))
    = Ok ((of_sum 1 (Demo.val 8), of_sum 0 (Demo.val 8)), Returns tt).
Proof.
  exact (converting_loses_default (CLT := Demo.solid_laws) (CLE := Demo.solid_laws)
    (H := Demo.solid) (H0 := Demo.solid) (FromArg0 := Demo.from_nat true) (FromArg1 := Demo.from_nat true)
    (Expected NoInit false 0) 0%nat 0 (Demo.val 8)).
Defined.
