(* ===== verification/ExpectedChaining.v ===== *)
(** * tl::expected: and_then, map, map_error and or_else are what they should be

    Against the operations on sums, and the laws that hold for functions with
    effects. *)
From S2P Require Import Prelude Lifetime Expected ExpectedOps ExpectedClass ExpectedMonadic.
From S2P Require Import ExpectedTheorems.

(** ** The operations on sums *)
Definition sum_and_then {T E U} (f : T → U + E) (s : T + E) : U + E :=
  match s with inl v => f v | inr e => inr e end.
Definition sum_map {T E U} (f : T → U) (s : T + E) : U + E :=
  match s with inl v => inl (f v) | inr e => inr e end.
Definition sum_map_error {T E F} (f : E → F) (s : T + E) : T + F :=
  match s with inl v => inl v | inr e => inr (f e) end.
Definition sum_or_else {T E} (f : E → T + E) (s : T + E) : T + E :=
  match s with inl v => inl v | inr e => f e end.

(** A function without effects, of the object it is called with. *)
Definition pure {X V R Y} (g : V → Y) : M X (V * R) Y := fun s => Ok (s, Returns (g s.1)).

(** [m] on the object [x] returns [y]; it leaves the rest of the state alone, and
    the object too unless it was passed as an rvalue. *)
Definition returns {X S E Y R} (m : M X (expected S E * R) Y) (q : qualifier)
    (x : expected S E) (r : R) (y : Y) : Prop :=
  runs m (x, r)
    (λ y' '(x', r'), y' = y ∧ r' = r ∧ m_has_val x' = m_has_val x ∧ lost x' = lost x ∧
                     (forwards q = Lvalue → x' = x))
    (λ _ _, False) (λ _, False).

(** The overload for the dialect. *)
Definition dialect {A} (cxx14 : bool) (a14 a11 : A) : A := if cxx14 then a14 else a11.

Ltac run_returns :=
  unfold returns, runs; run_open;
  repeat (split_match; object_facts); try done; open_unex; split_and?; try done;
  intros ?; object_facts; try done.

Section refinement.
Context {X T E U F R : Type} `{CLT : CppLaws X T, CLE : CppLaws X E}.
Context `{CLU : CppLaws X U, CLF : CppLaws X F}.
Context (HT : nothrow_all (traits T) = true) (HE : nothrow_all (traits E) = true).
Context (HU : nothrow_all (traits U) = true) (HF : nothrow_all (traits F) = true).
Implicit Types (d : bool) (q : qualifier) (n : nat) (r : R).

Lemma and_then_refines d q n (s : T + E) r (f : T → U + E) :
  returns (and_then d q (pure (of_sum 0 ∘ f))) q (of_sum n s) r
    (of_sum 0 (sum_and_then f s)).
Proof using CLE HE. destruct s as [v|e], d, q; run_returns. Qed.

Lemma map_refines d q n (s : T + E) r (f : T → U) :
  returns (map d q (pure f)) q (of_sum n s) r (of_sum 0 (sum_map f s)).
Proof using CLE HE CLU HU. destruct s as [v|e], d, q; run_returns. Qed.

Lemma map_error_refines d q n (s : T + E) r (f : E → F) :
  returns (map_error d q (pure f)) q (of_sum n s) r (of_sum 0 (sum_map_error f s)).
Proof using CLT HT CLF HF. destruct s as [v|e], d, q; run_returns. Qed.

Lemma or_else_refines d q n (s : T + E) r (f : E → T + E) :
  returns (or_else expected_copy_ctor expected_move_ctor d q (pure (of_sum 0 ∘ f))) q
    (of_sum n s) r (of_sum 0 (sum_or_else f s)).
Proof using CLT HT CLE HE. destruct s as [v|e], d, q; run_returns. Qed.

(** Functions that return nothing. *)
Lemma map_ret_void_refines d q n (s : T + E) r (f : T → unit) :
  returns (X := X) (dialect d (expected_map_impl_ret_void q (pure f))
                     (expected_map_impl_ret_void_cxx11 q (pure f))) q
    (of_sum n s) r (of_void 0 (sum_map f s)).
Proof using CLE HE. destruct s as [v|e], d, q; run_returns. Qed.

Lemma map_error_ret_void_refines d q n (s : T + E) r (f : E → unit) :
  returns (X := X) (dialect d (map_error_impl_ret_void q (pure f))
                     (map_error_impl_ret_void_cxx11 q (pure f))) q
    (of_sum n s) r (of_sum 0 (sum_map_error (λ _, Monostate) s)).
Proof using CLT HT. destruct s as [v|e], d, q; run_returns. Qed.

Lemma or_else_ret_void_refines d q n (s : T + E) r (f : E → unit) :
  returns
    (dialect d (or_else_impl_ret_void expected_copy_ctor expected_move_ctor q (pure f))
               (or_else_impl_ret_void_cxx11 expected_copy_ctor expected_move_ctor q (pure f)))
    q (of_sum n s) r (of_sum 0 s).
Proof using CLT HT CLE HE. destruct s as [v|e], d, q; run_returns. Qed.

(** An [expected<void, E>]: the function has no argument. *)
Lemma and_then_void_refines d q n (s : unit + E) r (y : U + E) :
  returns (X := X) (dialect d (and_then_impl_void q (mret (of_sum 0 y)))
                     (and_then_impl_void_cxx11 q (mret (of_sum 0 y)))) q
    (of_void n s) r (of_sum 0 (sum_and_then (λ _, y) s)).
Proof using CLE HE. destruct s as [[]|e], d, q; cbn [of_void]; run_returns. Qed.

Lemma map_void_refines d q n (s : unit + E) r (u : U) :
  returns (X := X) (dialect d (expected_map_impl_void q (mret u))
                     (expected_map_impl_void_cxx11 q (mret u))) q
    (of_void n s) r (of_sum 0 (sum_map (λ _, u) s)) ∧
  returns (X := X) (dialect d (expected_map_impl_void_ret_void q (mret tt))
                     (expected_map_impl_void_ret_void_cxx11 q (mret tt))) q
    (of_void n s) r (of_void 0 s).
Proof using CLE HE CLU HU.
  split; destruct s as [[]|e], d, q; cbn [of_void]; run_returns.
Qed.

Lemma map_error_void_refines d q n (s : unit + E) r (f : E → F) (g : E → unit) :
  returns (X := X) (dialect d (map_error_impl_void q (pure f)) (map_error_impl_void_cxx11 q (pure f)))
    q (of_void n s) r (of_void 0 (sum_map_error f s)) ∧
  returns (X := X) (dialect d (map_error_impl_void_ret_void q (pure g))
                     (map_error_impl_void_ret_void_cxx11 q (pure g)))
    q (of_void n s) r (of_void 0 (sum_map_error (λ _, Monostate) s)).
Proof using CLF HF.
  split; destruct s as [[]|e], d, q; cbn [of_void]; run_returns.
Qed.
End refinement.

(** C29: On objects that hold a value or an error, and for functions without effects,
    [and_then], [map], [map_error] and [or_else] compute the operations on sums, in
    both dialects and for all four ways of referring to the object; they leave the
    object alone unless they were given an rvalue. *)
Theorem chaining_refines_sums {X T E U F R} `{CLT : CppLaws X T, CLE : CppLaws X E}
    `{CLU : CppLaws X U, CLF : CppLaws X F}
    (HT : nothrow_all (traits T) = true) (HE : nothrow_all (traits E) = true)
    (HU : nothrow_all (traits U) = true) (HF : nothrow_all (traits F) = true)
    (d : bool) (q : qualifier) (n : nat) (s : T + E) (r : R)
    (f : T → U + E) (g : T → U) (h : E → F) (k : E → T + E) :
  returns (and_then d q (pure (of_sum 0 ∘ f))) q (of_sum n s) r (of_sum 0 (sum_and_then f s)) ∧
  returns (map d q (pure g)) q (of_sum n s) r (of_sum 0 (sum_map g s)) ∧
  returns (map_error d q (pure h)) q (of_sum n s) r (of_sum 0 (sum_map_error h s)) ∧
  returns (or_else expected_copy_ctor expected_move_ctor d q (pure (of_sum 0 ∘ k))) q
    (of_sum n s) r (of_sum 0 (sum_or_else k s)).
Proof.
  split_and!; [by apply and_then_refines|by apply map_refines|by apply map_error_refines
              |by apply or_else_refines].
Qed.

Lemma chaining_refines_sums_witness :
  let _ := Demo.solid in
  and_then (X := nat) true Lref (pure (of_sum 0 ∘ λ v, Demo.val (S v)))
    (of_sum 0 (Demo.val 4), tt) = Ok ((of_sum 0 (Demo.val 4), tt), Returns (of_sum 0 (Demo.val 5))) ∧
  returns (X := nat) (and_then true Lref (pure (of_sum 0 ∘ λ v, Demo.val (S v)))) Lref
    (of_sum 0 (Demo.val 4)) tt (of_sum 0 (Demo.val 5)).
Proof.
  split; [reflexivity|].
  exact (proj1 (chaining_refines_sums (CLT := Demo.solid_laws) (CLE := Demo.solid_laws)
    (CLU := Demo.solid_laws) (CLF := Demo.solid_laws) eq_refl eq_refl eq_refl eq_refl
    true Lref 0 (Demo.val 4) tt (λ v, Demo.val (S v)) S S Demo.val)).
Defined.

(** The same for the overloads that deal with void: the functions that return
    nothing, and the operations of [expected<void, E>]. *)
Theorem void_chaining_refines_sums {X T E U F R} `{CLT : CppLaws X T, CLE : CppLaws X E}
    `{CLU : CppLaws X U, CLF : CppLaws X F}
    (HT : nothrow_all (traits T) = true) (HE : nothrow_all (traits E) = true)
    (HU : nothrow_all (traits U) = true) (HF : nothrow_all (traits F) = true)
    (d : bool) (q : qualifier) (n : nat) (s : T + E) (t : unit + E) (r : R)
    (f : T → unit) (g : E → unit) (h : E → F) (u : U) (y : U + E) :
  returns (X := X) (dialect d (expected_map_impl_ret_void q (pure f))
                     (expected_map_impl_ret_void_cxx11 q (pure f))) q
    (of_sum n s) r (of_void 0 (sum_map f s)) ∧
  returns (X := X) (dialect d (map_error_impl_ret_void q (pure g))
                     (map_error_impl_ret_void_cxx11 q (pure g))) q
    (of_sum n s) r (of_sum 0 (sum_map_error (λ _, Monostate) s)) ∧
  returns
    (dialect d (or_else_impl_ret_void expected_copy_ctor expected_move_ctor q (pure g))
               (or_else_impl_ret_void_cxx11 expected_copy_ctor expected_move_ctor q (pure g)))
    q (of_sum n s) r (of_sum 0 s) ∧
  returns (X := X) (dialect d (and_then_impl_void q (mret (of_sum 0 y)))
                     (and_then_impl_void_cxx11 q (mret (of_sum 0 y)))) q
    (of_void n t) r (of_sum 0 (sum_and_then (λ _, y) t)) ∧
  (returns (X := X) (dialect d (expected_map_impl_void q (mret u))
                      (expected_map_impl_void_cxx11 q (mret u))) q
     (of_void n t) r (of_sum 0 (sum_map (λ _, u) t)) ∧
   returns (X := X) (dialect d (expected_map_impl_void_ret_void q (mret tt))
                      (expected_map_impl_void_ret_void_cxx11 q (mret tt))) q
     (of_void n t) r (of_void 0 t)) ∧
  returns (X := X) (dialect d (map_error_impl_void q (pure h)) (map_error_impl_void_cxx11 q (pure h)))
    q (of_void n t) r (of_void 0 (sum_map_error h t)) ∧
  returns (X := X) (dialect d (map_error_impl_void_ret_void q (pure g))
                     (map_error_impl_void_ret_void_cxx11 q (pure g)))
    q (of_void n t) r (of_void 0 (sum_map_error (λ _, Monostate) t)).
Proof.
  refine (conj _ (conj _ (conj _ (conj _ (conj _ _))))).
  - by apply map_ret_void_refines.
  - by apply map_error_ret_void_refines.
  - by apply or_else_ret_void_refines.
  - by apply and_then_void_refines.
  - by apply map_void_refines.
  - by apply map_error_void_refines.
Qed.

Lemma void_chaining_refines_sums_witness :
  let _ := Demo.solid in
  returns (X := nat) (dialect false (expected_map_impl_ret_void Rref (pure (λ _ : nat, tt)))
    (expected_map_impl_ret_void_cxx11 Rref (pure (λ _ : nat, tt)))) Rref
    (of_sum 0 (Demo.err 4)) tt (of_void 0 (inr 4%nat)).
Proof.
  exact (proj1 (void_chaining_refines_sums (CLT := Demo.solid_laws) (CLE := Demo.solid_laws)
    (CLU := Demo.solid_laws) (CLF := Demo.solid_laws) eq_refl eq_refl eq_refl eq_refl
    false Rref 0 (Demo.err 4) (inl tt) tt (λ _, tt) (λ _, tt) S 0%nat (Demo.val 0))).
Defined.

(** ** Laws, for functions that may throw and change the state *)

(** A computation on a temporary, which is destroyed afterwards. *)
Definition with_temp {X S R Y A} (y : Y) (m : M X (Y * R) A) : M X (S * R) A := fun '(s, r) =>
  match m (y, r) with
  | Ok ((_, r'), c) => Ok ((s, r'), c)
  | Err f => Err f
  end.

Section laws.
Context {X T E U V R : Type} `{CLT : CppLaws X T, CLE : CppLaws X E}.
Context `{CLU : CppLaws X U, !CppType X V}.
Context (HE : nothrow_all (traits E) = true).
Context (HU : nothrow_all (traits U) = true).

Lemma and_then_assoc d q (f : M X (T * R) (expected U E)) (g : M X (U * R) (expected V E))
    n (s : T + E) r :
  (y ← and_then d q f; with_temp y (and_then d Rref g)) (of_sum n s, r) =
  and_then d q (y ← f; with_temp y (and_then d Rref g)) (of_sum n s, r).
Proof using CLE HE.
  destruct s as [v|e], d; run_open; [by repeat split_match..| |];
    repeat split_match; by object_facts.
Qed.

Lemma map_compose d q (f : M X (T * R) U) (g : M X (U * R) V) n (s : T + E) r :
  (y ← map d q f; with_temp y (map d Rref g)) (of_sum n s, r) =
  map d q (u ← f; with_temp u g) (of_sum n s, r).
Proof using CLE HE CLU HU.
  destruct s as [v|e], d; run_open; [by repeat (split_match; object_facts)..| |];
    repeat split_match; by object_facts.
Qed.

Lemma map_is_and_then d q (f : M X (T * R) U) (x : expected T E) r :
  map d q f (x, r) = and_then d q (u ← f; init_val (from_local u)) (x, r).
Proof. destruct x as [[|v|e] [] n], d; run_open; repeat split_match; done. Qed.
End laws.

(** The laws of chaining, for functions that may throw, fail and change the
    state: chaining twice is chaining with the composition, mapping twice is mapping
    the composition (the intermediate results are temporaries), and mapping is
    chaining with the constructor. *)
Theorem chaining_laws {X T E U V R} `{CLT : CppLaws X T, CLE : CppLaws X E}
    `{CLU : CppLaws X U, !CppType X V} (HE : nothrow_all (traits E) = true)
    (HU : nothrow_all (traits U) = true) (d : bool) (q : qualifier)
    (f : M X (T * R) (expected U E)) (g : M X (U * R) (expected V E))
    (f' : M X (T * R) U) (g' : M X (U * R) V) (n : nat) (s : T + E) (r : R) :
  (y ← and_then d q f; with_temp y (and_then d Rref g)) (of_sum n s, r) =
    and_then d q (y ← f; with_temp y (and_then d Rref g)) (of_sum n s, r) ∧
  (y ← map d q f'; with_temp y (map d Rref g')) (of_sum n s, r) =
    map d q (u ← f'; with_temp u g') (of_sum n s, r) ∧
  map d q f' (of_sum n s, r) =
    and_then d q (u ← f'; init_val (from_local u)) (of_sum n s, r).
Proof.
  split_and!; [by apply and_then_assoc|by apply map_compose|apply map_is_and_then].
Qed.

Lemma chaining_laws_witness :
  let _ := Demo.solid in
  let f : M nat (nat * nat) nat := fun '(v, r) => Ok ((v, S r), Returns (v + 1)%nat) in
  let g : M nat (nat * nat) nat := fun '(v, r) => Ok ((v, S r), Throws v) in
  (y ← map true Lref f; with_temp y (map true Rref g)) (of_sum 0 (Demo.val 4), 0%nat) =
    map true Lref (u ← f; with_temp u g) (of_sum 0 (Demo.val 4), 0%nat) ∧
  map true Lref (u ← f; with_temp u g) (of_sum 0 (Demo.val 4), 0%nat) =
    Ok ((of_sum 0 (Demo.val 4), 2%nat), Throws 5%nat).
Proof.
  split; [|reflexivity].
  exact (proj1 (proj2 (chaining_laws (CLT := Demo.solid_laws) (CLE := Demo.solid_laws)
    (CLU := Demo.solid_laws) (CppType0 := Demo.solid) eq_refl eq_refl true Lref
    (fun '(v, r) => Ok ((v, S r), Returns (of_sum 0 (Demo.val (v + 1)))))
    (fun '(v, r) => Ok ((v, S r), Returns (of_sum 0 (Demo.val (v + 1)))))
    (fun '(v, r) => Ok ((v, S r), Returns (v + 1)%nat))
    (fun '(v, r) => Ok ((v, S r), Throws v)) 0 (Demo.val 4) 0%nat))).
Defined.
