(* ===== verification/InplaceFunction.v ===== *)
(** * stdext::inplace_function (src/externals/include/inplace_function.h)

    A function object that keeps its closure in a buffer of its own.  What can be
    done with a closure is known through a table of four functions; the type of the
    closure is [kind_of].  [storage_] says whether a closure is alive in the buffer.
    Calling a function of the table on a buffer that does not hold a closure of its
    type is [dead_object]; [lost] counts the closures that were overwritten without
    having been destroyed.  The object itself is the first component of the
    state. *)
From S2P Require Import Prelude Lifetime.

(** ** Closure types *)
Class Closures (X W A R K Clo : Type) := {
  kind_of : Clo → K;
  clo_traits : K → type_traits;
  clo_copy : Clo → completion X Clo;
  clo_move : Clo → Clo * completion X Clo;
  (** A call may change the closure and the world; [A] are the arguments. *)
  clo_call : Clo → A → W → Clo * W * completion X R;
  kind_eq_dec :: EqDecision K;
  (** std::bad_function_call is an exception. *)
  bad_function_call : X
}.

Class ClosureLaws (X W A R K Clo : Type) `{Closures X W A R K Clo} := {
  clo_copy_eq c d : clo_copy c = Returns d → d = c;
  clo_move_eq c c' d : clo_move c = (c', Returns d) → d = c;
  clo_move_kind c c' r : clo_move c = (c', r) → kind_of c' = kind_of c;
  clo_nothrow_copy_ok c :
    nothrow_copy_constructible (clo_traits (kind_of c)) = true → ∃ d, clo_copy c = Returns d;
  clo_nothrow_move_ok c :
    nothrow_move_constructible (clo_traits (kind_of c)) = true →
    ∃ c' d, clo_move c = (c', Returns d)
}.

(** ** The alignment of the buffer

    [aligned_storage_helper<Cap>]: the strictest alignment of the types of a list
    that fit; a type that does not fit is replaced by char. *)
Definition maybe (cap size align : Z) : Z := if size <=? cap then align else 1.

Definition aligned_storage_helper (types : list (Z * Z)) (cap : Z) : Z :=
  fold_right (fun '(size, align) a => Z.max (maybe cap size align) a) 1 types.

(** [is_valid_inplace_dst]: the assertions about a conversion. *)
Definition is_valid_inplace_dst (dst_cap dst_align src_cap src_align : Z) : bool :=
  (src_cap <=? dst_cap) && (dst_align mod src_align =? 0).

(** The assertions of the constructor from a closure. *)
Definition closure_fits (callable copyable : bool) (size align capacity alignment : Z) : bool :=
  callable && copyable && (size <=? capacity) && (alignment mod align =? 0).

Section inplace_function.
Context {X W A R K Clo : Type} `{CC : !Closures X W A R K Clo}.

Inductive storage := Raw | Obj (c : Clo).

(** A pointer to a vtable: [None] is [empty_vtable]. *)
Definition vtable_ptr_t : Type := option K.

Record inplace_function := InplaceFunction {
  vtable_ptr_ : vtable_ptr_t;
  storage_ : storage;
  lost : nat
}.

(** ** The table

    The pointers are to buffers; [process_ptr] functions get the destination and
    the source.  The state of the invocation is the buffer and the world. *)
Record vtable := Vtable {
  invoke_ptr : A → M X (storage * W) R;
  copy_ptr : M X ((storage * nat) * storage) unit;
  relocate_ptr : M X ((storage * nat) * storage) unit;
  destructor_ptr : storage → result storage
}.

Definition empty_vtable : vtable := {|
  invoke_ptr _ := fun s => Ok (s, Throws bad_function_call);
  copy_ptr := mret tt;
  relocate_ptr := mret tt;
  destructor_ptr s := Ok s
|}.

(** [static_cast<C*>(ptr)], then used *)
Definition as_kind (k : K) (s : storage) : result Clo :=
  match s with
  | Obj c => if decide (kind_of c = k) then Ok c else Err dead_object
  | Raw => Err dead_object
  end.

(** [::new (dst) C{...}]: the buffer is reused; a closure in it is lost. *)
Definition place (dst : storage * nat) (r : completion X Clo) :
    (storage * nat) * completion X unit :=
  let n := match dst.1 with Raw => dst.2 | Obj _ => S dst.2 end in
  match r with
  | Returns c => ((Obj c, n), Returns tt)
  | Throws x => ((Raw, n), Throws x)
  end.

Definition closure_vtable (k : K) : vtable := {|
  invoke_ptr a := fun '(s, w) =>
    match as_kind k s with
    | Ok c => let '(c', w', r) := clo_call c a w in Ok ((Obj c', w'), r)
    | Err f => Err f
    end;
  copy_ptr := noexcept_if (nothrow_copy_constructible (clo_traits k)) (fun '(dst, src) =>
    match as_kind k src with
    | Ok c => let '(dst', r) := place dst (clo_copy c) in Ok ((dst', src), r)
    | Err f => Err f
    end);
  relocate_ptr := noexcept_if (nothrow_move_constructible (clo_traits k)) (fun '(dst, src) =>
    match as_kind k src with
    | Ok c =>
        let '(c', r) := clo_move c in
        let '(dst', u) := place dst r in
        match u with
        | Returns _ => Ok ((dst', Raw), Returns tt)
        | Throws x => Ok ((dst', Obj c'), Throws x)
        end
    | Err f => Err f
    end);
  destructor_ptr s :=
    match as_kind k s with Ok _ => Ok Raw | Err f => Err f end
|}.

Definition vtable_at (p : vtable_ptr_t) : vtable :=
  match p with None => empty_vtable | Some k => closure_vtable k end.

(** ** Access to the parts of the state *)
#[local] Abbreviation fn := inplace_function.

Definition set_vtable (p : vtable_ptr_t) (f : fn) : fn := InplaceFunction p (storage_ f) (lost f).

Definition set_storage (s : storage * nat) (f : fn) : fn :=
  InplaceFunction (vtable_ptr_ f) s.1 s.2.

(** [process(std::addressof(storage_), std::addressof(other.storage_))] *)
Definition process (p : M X ((storage * nat) * storage) unit) : M X (fn * fn) unit :=
  fun '(f, g) =>
    match p ((storage_ f, lost f), storage_ g) with
    | Ok ((dst, src), r) => Ok ((set_storage dst f, set_storage (src, lost g) g), r)
    | Err e => Err e
    end.

(** [vtable_ptr_->destructor_ptr(std::addressof(storage_))] *)
Definition destroy_storage {S} : M X (fn * S) unit := fun '(f, s) =>
  match destructor_ptr (vtable_at (vtable_ptr_ f)) (storage_ f) with
  | Ok s' => Ok ((set_storage (s', lost f) f, s), Returns tt)
  | Err e => Err e
  end.

Definition set_this_vtable {S} (p : vtable_ptr_t) : M X (fn * S) unit :=
  modify (fun s => (set_vtable p s.1, s.2)).

(** [std::exchange(other.vtable_ptr_, std::addressof(empty_vtable))] *)
Definition take_other_vtable : M X (fn * fn) vtable_ptr_t := fun '(f, g) =>
  Ok ((f, set_vtable None g), Returns (vtable_ptr_ g)).

Definition other_vtable : M X (fn * fn) vtable_ptr_t := gets (fun s => vtable_ptr_ s.2).

(** A new object: nothing in its buffer. *)
Definition fresh (p : vtable_ptr_t) : fn := InplaceFunction p Raw 0.

(** ** Constructors *)
Definition inplace_function_default : fn := fresh None.

Definition inplace_function_nullptr : fn := fresh None.

(** From a closure, forwarded as [c] says. *)
Definition inplace_function_closure {S} (k : K) (init : M X S Clo) : M X (fn * S) unit :=
  fun '(_, s) =>
    match init s with
    | Ok (s', r) =>
        let '(dst, u) := place (Raw, 0%nat) r in
        Ok ((InplaceFunction (Some k) dst.1 dst.2, s'), u)
    | Err e => Err e
    end.

Definition inplace_function_copy : M X (fn * fn) unit :=
  p ← other_vtable;
  modify (fun s => (fresh p, s.2)) ;;
  process (copy_ptr (vtable_at p)).

Definition inplace_function_move : M X (fn * fn) unit :=
  p ← take_other_vtable;
  modify (fun s => (fresh p, s.2)) ;;
  process (relocate_ptr (vtable_at p)).

(** ** Assignments; [self] says whether [this == std::addressof(other)] *)
Definition assign_nullptr {S} : M X (fn * S) unit :=
  destroy_storage ;;
  set_this_vtable None.

Definition assign_copy (self : bool) : M X (fn * fn) unit :=
  if negb self then
    destroy_storage ;;
    p ← other_vtable;
    set_this_vtable p ;;
    process (copy_ptr (vtable_at p))
  else mret tt.

Definition assign_move (self : bool) : M X (fn * fn) unit :=
  if negb self then
    destroy_storage ;;
    p ← take_other_vtable;
    set_this_vtable p ;;
    process (relocate_ptr (vtable_at p))
  else mret tt.

(** [~inplace_function]: what is left in the buffer. *)
Definition destructor (f : fn) : result storage :=
  destructor_ptr (vtable_at (vtable_ptr_ f)) (storage_ f).

(** ** Calling and testing *)
Definition call (a : A) : M X (fn * W) R := fun '(f, w) =>
  match invoke_ptr (vtable_at (vtable_ptr_ f)) a (storage_ f, w) with
  | Ok ((s, w'), r) => Ok ((set_storage (s, lost f) f, w'), r)
  | Err e => Err e
  end.

Definition explicit_bool (f : fn) : bool := bool_decide (vtable_ptr_ f ≠ None).

Definition eq_nullptr (f : fn) : bool := negb (explicit_bool f).

Definition ne_nullptr (f : fn) : bool := explicit_bool f.

(** ** Conversion to a larger buffer

    The private constructor, given a table, a function of it and a buffer. *)
Definition inplace_function_process (p : vtable_ptr_t)
    (proc : M X ((storage * nat) * storage) unit) : M X (fn * fn) unit :=
  modify (fun s => (fresh p, s.2)) ;;
  process proc.

Definition convert_copy : M X (fn * fn) unit :=
  p ← other_vtable;
  inplace_function_process p (copy_ptr (vtable_at p)).

Definition convert_move : M X (fn * fn) unit :=
  p ← take_other_vtable;
  inplace_function_process p (relocate_ptr (vtable_at p)).

(** ** swap *)
Definition relocate (p : vtable_ptr_t) (dst : storage * nat) (src : storage) :
    result ((storage * nat) * storage * completion X unit) :=
  relocate_ptr (vtable_at p) (dst, src).

Definition swap (self : bool) : M X (fn * fn) unit := fun '(f, g) =>
  if self then Ok ((f, g), Returns tt) else
  match relocate (vtable_ptr_ f) (Raw, 0%nat) (storage_ f) with
  | Err e => Err e
  | Ok (((tmp, _), s1), Throws x) => Ok ((set_storage (s1, lost f) f, g), Throws x)
  | Ok (((tmp, _), s1), Returns _) =>
      match relocate (vtable_ptr_ g) (s1, lost f) (storage_ g) with
      | Err e => Err e
      | Ok ((d2, s2), Throws x) =>
          Ok ((set_storage d2 f, set_storage (s2, lost g) g), Throws x)
      | Ok ((d2, s2), Returns _) =>
          match relocate (vtable_ptr_ f) (s2, lost g) tmp with
          | Err e => Err e
          | Ok ((d3, _), Throws x) => Ok ((set_storage d2 f, set_storage d3 g), Throws x)
          | Ok ((d3, _), Returns _) =>
              Ok ((set_vtable (vtable_ptr_ g) (set_storage d2 f),
                   set_vtable (vtable_ptr_ f) (set_storage d3 g)), Returns tt)
          end
      end
  end.

(** The friend [swap(lhs, rhs)] *)
Definition friend_swap (self : bool) : M X (fn * fn) unit := swap self.
End inplace_function.
Arguments storage : clear implicits.
Arguments inplace_function : clear implicits.
#[global] Arguments as_kind : simpl never.
