(* ===== verification/InplaceTheorems.v ===== *)
(** * stdext::inplace_function: the properties *)
From S2P Require Import Prelude Lifetime InplaceFunction.

Section lemmas.
Context {X W A R K Clo : Type} `{CL : ClosureLaws X W A R K Clo}.
#[local] Abbreviation fn := (inplace_function K Clo).

(** The function object that holds the closure [o], or none. *)
Definition of_closure (n : nat) (o : option Clo) : fn :=
  InplaceFunction (kind_of <$> o) (match o with Some c => Obj c | None => Raw end) n.

(** Copying and moving a closure does not throw. *)
Definition quiet (o : option Clo) : Prop :=
  ∀ c, o = Some c →
    clo_copy c = Returns c ∧ ∃ c', clo_move c = (c', Returns c) ∧ kind_of c' = kind_of c.

Lemma as_kind_self (c : Clo) : as_kind (kind_of c) (Obj c) = Ok c.
Proof. unfold as_kind. by rewrite decide_True. Qed.

Lemma relocate_quiet (o : option Clo) n :
  quiet o →
  relocate (kind_of <$> o) (Raw, n) (storage_ (of_closure 0 o)) =
    Ok ((storage_ (of_closure 0 o), n), Raw, Returns tt).
Proof using CL.
  intros Hq. destruct o as [c|]; [|done]. destruct (Hq c eq_refl) as (_ & c' & Hm & _).
  unfold relocate, vtable_at. simpl. unfold noexcept_if, noexcept.
  destruct (nothrow_move_constructible _); rewrite as_kind_self, Hm; done.
Qed.

Lemma copy_quiet (o : option Clo) n :
  quiet o →
  copy_ptr (vtable_at (kind_of <$> o)) ((Raw, n), storage_ (of_closure 0 o)) =
    Ok (((storage_ (of_closure 0 o), n), storage_ (of_closure 0 o)), Returns tt).
Proof using CL.
  intros Hq. destruct o as [c|]; [|done]. destruct (Hq c eq_refl) as (Hc & _).
  simpl. unfold noexcept_if, noexcept.
  destruct (nothrow_copy_constructible _); rewrite as_kind_self, Hc; done.
Qed.

Lemma destructor_of_closure (o : option Clo) n : destructor (of_closure n o) = Ok Raw.
Proof using. destruct o as [c|]; [|done]. unfold destructor. simpl. by rewrite as_kind_self. Qed.

Lemma destroy_of_closure {S} (o : option Clo) n (s : S) :
  destroy_storage (X := X) (of_closure n o, s) =
    Ok ((InplaceFunction (kind_of <$> o) Raw n, s), Returns tt).
Proof using.
  pose proof (destructor_of_closure o n) as Hd. unfold destructor in Hd.
  unfold destroy_storage. by rewrite Hd.
Qed.

Lemma process_copy_quiet (o : option Clo) n k :
  quiet o →
  process (copy_ptr (vtable_at (kind_of <$> o)))
    (InplaceFunction (kind_of <$> o) Raw n, of_closure k o) =
    Ok ((of_closure n o, of_closure k o), Returns tt).
Proof using CL.
  intros Hq. unfold process. pose proof (copy_quiet o n Hq) as Hc. simpl in *.
  by rewrite Hc.
Qed.

Lemma process_relocate_quiet (o : option Clo) n k :
  quiet o →
  process (relocate_ptr (vtable_at (kind_of <$> o)))
    (InplaceFunction (kind_of <$> o) Raw n, set_vtable None (of_closure k o)) =
    Ok ((of_closure n o, of_closure k None), Returns tt).
Proof using CL.
  intros Hq. unfold process. pose proof (relocate_quiet o n Hq) as Hc.
  unfold relocate in Hc. simpl in *. by rewrite Hc.
Qed.

Lemma swap_quiet (o p : option Clo) n k :
  quiet o → quiet p →
  swap false (of_closure n o, of_closure k p) =
    Ok ((of_closure n p, of_closure k o), Returns tt).
Proof using CL.
  intros Ho Hp. unfold swap. simpl.
  pose proof (relocate_quiet o 0 Ho) as H1. pose proof (relocate_quiet p n Hp) as H2.
  pose proof (relocate_quiet o k Ho) as H3. simpl in *.
  by rewrite H1, H2, H3.
Qed.
End lemmas.

(** C36: A function object is an optional closure.  It is made empty, or with the closure
    its argument gives; if making that throws, so does the constructor and no closure is
    left in the object.  If the closures [o] and [p], where there are any, are of kinds
    whose copies and moves do not throw ([quiet]), then: copying gives an object with the
    same closure, moving leaves an empty one behind, assignment replaces the old closure and
    self-assignment does nothing, [nullptr] empties it, swap exchanges, conversion to another
    capacity copies or moves; the destructor leaves no closure; a call reaches the
    closure, or throws bad_function_call if there is none.  Nothing is said about how
    often a closure is moved on the way: a swap moves one of them twice. *)
Theorem function_is_optional_closure {X W A R K Clo} `{CL : ClosureLaws X W A R K Clo}
    (raw : inplace_function K Clo) (n k : nat) (o p : option Clo) (Ho : quiet o) (Hp : quiet p)
    (a : A) (w : W) :
  inplace_function_default = of_closure 0 None ∧
  inplace_function_nullptr = of_closure 0 None ∧
  (∀ (S : Type) (init : M X S Clo) (s s' : S) (c : Clo), init s = Ok (s', Returns c) →
     inplace_function_closure (kind_of c) init (raw, s) =
       Ok ((of_closure 0 (Some c), s'), Returns tt)) ∧
  (∀ (S : Type) (init : M X S Clo) (s s' : S) (kd : K) (x : X), init s = Ok (s', Throws x) →
     inplace_function_closure kd init (raw, s) =
       Ok ((InplaceFunction (Some kd) Raw 0, s'), Throws x)) ∧
  inplace_function_copy (raw, of_closure k p) =
    Ok ((of_closure 0 p, of_closure k p), Returns tt) ∧
  inplace_function_move (raw, of_closure k p) =
    Ok ((of_closure 0 p, of_closure k None), Returns tt) ∧
  (∀ self, assign_copy self (of_closure n o, of_closure k p) =
    Ok ((of_closure n (if self then o else p), of_closure k p), Returns tt)) ∧
  (∀ self, assign_move self (of_closure n o, of_closure k p) =
    Ok ((of_closure n (if self then o else p), of_closure k (if self then p else None)),
        Returns tt)) ∧
  assign_nullptr (X := X) (of_closure n o, w) = Ok ((of_closure n None, w), Returns tt) ∧
  (∀ self, friend_swap self (of_closure n o, of_closure k p) =
    Ok ((if self then of_closure n o else of_closure n p,
         if self then of_closure k p else of_closure k o), Returns tt)) ∧
  convert_copy (raw, of_closure k p) =
    Ok ((of_closure 0 p, of_closure k p), Returns tt) ∧
  convert_move (raw, of_closure k p) =
    Ok ((of_closure 0 p, of_closure k None), Returns tt) ∧
  destructor (of_closure n o) = Ok Raw ∧
  explicit_bool (of_closure n o) = bool_decide (is_Some o) ∧
  eq_nullptr (of_closure n o) = bool_decide (o = None) ∧
  ne_nullptr (of_closure n o) = bool_decide (o ≠ None) ∧
  call a (of_closure n o, w) =
    match o with
    | None => Ok ((of_closure n None, w), Throws bad_function_call)
    | Some c =>
        let '(c', w', r) := clo_call c a w in
        Ok ((InplaceFunction (Some (kind_of c)) (Obj c') n, w'), r)
    end.
Proof.
  split_and!.
  - done.
  - done.
  - intros S init s s' c Hinit. unfold inplace_function_closure. by rewrite Hinit.
  - intros S init s s' kd x Hinit. unfold inplace_function_closure. by rewrite Hinit.
  - exact (process_copy_quiet p 0 k Hp).
  - exact (process_relocate_quiet p 0 k Hp).
  - intros []; [done|]. unfold assign_copy; simpl. unfold mbind, M_bind.
    rewrite destroy_of_closure. by apply process_copy_quiet.
  - intros []; [done|]. unfold assign_move; simpl. unfold mbind, M_bind.
    rewrite destroy_of_closure. by apply process_relocate_quiet.
  - unfold assign_nullptr, mbind, M_bind. by rewrite destroy_of_closure.
  - intros []; [done|]. by apply swap_quiet.
  - exact (process_copy_quiet p 0 k Hp).
  - exact (process_relocate_quiet p 0 k Hp).
  - apply destructor_of_closure.
  - by destruct o.
  - by destruct o.
  - by destruct o.
  - destruct o as [c|]; [|done]. unfold call, vtable_at. simpl.
    rewrite as_kind_self. by destruct (clo_call c a w) as [[??]?].
Qed.

(** ** Closures that count their calls, and one whose copies throw *)
Module Demo.
(** A closure is its kind and its number of calls; those of kind 13 throw when
    they are copied or moved. *)
Definition closure : Type := nat * nat.

Definition traits_of (k : nat) : type_traits :=
  let b := negb (k =? 13)%nat in {|
  is_void := false; default_constructible := true;
  copy_constructible := true; move_constructible := true;
  copy_assignable := true; move_assignable := true;
  nothrow_copy_constructible := b; nothrow_move_constructible := b;
  nothrow_copy_assignable := b; nothrow_move_assignable := b;
  trivially_copy_constructible := false; trivially_move_constructible := false;
  trivially_copy_assignable := false; trivially_move_assignable := false;
  trivially_destructible := false |}.

Definition duplicate (c : closure) : completion nat closure :=
  if (c.1 =? 13)%nat then Throws 13%nat else Returns c.

#[local] Instance closures : Closures nat nat nat nat nat closure := {|
  kind_of := fst;
  clo_traits := traits_of;
  clo_copy := duplicate;
  clo_move c := (c, duplicate c);
  clo_call c a w := ((c.1, S c.2), (w + a)%nat, Returns c.2);
  kind_eq_dec := _;
  bad_function_call := 0%nat |}.

#[local] Instance closure_laws : ClosureLaws nat nat nat nat nat closure.
Proof.
  split; simpl; unfold duplicate.
  - intros c d. case_match; congruence.
  - intros c c' d. case_match; congruence.
  - congruence.
  - intros c ->%negb_true_iff. eauto.
  - intros c ->%negb_true_iff. eauto.
Qed.

Lemma quiet_none : quiet (None : option closure).
Proof. by intros c. Qed.

Lemma quiet_example : quiet (Some (5, 0)%nat).
Proof. intros c [= <-]. split; [done|]. by eexists. Qed.
End Demo.

Lemma function_is_optional_closure_witness :
  let _ := Demo.closures in
  inplace_function_closure (X := nat) (Clo := Demo.closure) 5%nat (λ s : nat, Ok (S s, Returns (5, 0)%nat)) (InplaceFunction None Raw 0, 7%nat) =
    Ok ((of_closure 0 (Some (5, 0)%nat), 8%nat), Returns tt) ∧
  inplace_function_closure (X := nat) (Clo := Demo.closure) 13%nat (λ s : nat, Ok (S s, Throws 13%nat)) (InplaceFunction None Raw 0, 7%nat) =
    Ok ((InplaceFunction (Some 13%nat) Raw 0, 8%nat), Throws 13%nat) ∧
  swap false (of_closure 0 (Some (5, 0)%nat), of_closure 0 None) =
    Ok ((of_closure 0 None, of_closure 0 (Some (5, 0)%nat)), Returns tt) ∧
  call 2%nat (of_closure 0 (Some (5, 0)%nat), 1%nat) =
    Ok ((of_closure 0 (Some (5, 1)%nat), 3%nat), Returns 0%nat).
Proof.
  destruct (function_is_optional_closure (CL := Demo.closure_laws) (InplaceFunction None Raw 0) 0 0
    (Some (5, 0)%nat) None Demo.quiet_example Demo.quiet_none 2%nat 1%nat)
    as (_ & _ & Hmade & Hthrown & _ & _ & _ & _ & _ & Hswap & _ & _ & _ & _ & _ & _ & Hcall).
  split_and!; [exact (Hmade nat (λ s, Ok (S s, Returns (5, 0)%nat)) 7%nat 8%nat (5, 0)%nat eq_refl)
    |exact (Hthrown nat (λ s, Ok (S s, Throws 13%nat)) 7%nat 8%nat 13%nat 13%nat eq_refl)|exact (Hswap false)|exact Hcall].
Defined.

(** What is left when copying or moving a closure throws.  An assignment has
    destroyed the old closure and taken over the table by then: the target claims a
    closure it does not have, and destroying it (or assigning to it again) destroys
    a dead object.  The moves have also taken the table of the source, whose
    closure is still there: its destructor no longer destroys it. *)
Theorem throwing_closures_break {X W A R K Clo} `{CL : ClosureLaws X W A R K Clo}
    (raw : inplace_function K Clo) (n k : nat) (o : option Clo) (c : Clo) :
  (∀ x, clo_copy c = Throws x →
    ∃ f, assign_copy false (of_closure n o, of_closure k (Some c)) =
           Ok ((f, of_closure k (Some c)), Throws x) ∧
         explicit_bool f = true ∧ destructor f = Err dead_object ∧
         assign_nullptr (X := X) (f, tt) = Err dead_object) ∧
  (∀ c' x, clo_move c = (c', Throws x) →
    ∃ f g, assign_move false (of_closure n o, of_closure k (Some c)) = Ok ((f, g), Throws x) ∧
           destructor f = Err dead_object ∧ destructor g = Ok (Obj c')) ∧
  (∀ c' x, clo_move c = (c', Throws x) →
    ∃ f g, inplace_function_move (raw, of_closure k (Some c)) = Ok ((f, g), Throws x) ∧
           destructor g = Ok (Obj c')).
Proof.
  assert (Hcopy : ∀ x, clo_copy c = Throws x →
    nothrow_copy_constructible (clo_traits (kind_of c)) = false).
  { intros x Hx. apply not_true_iff_false. intros (d & Hd)%clo_nothrow_copy_ok. congruence. }
  assert (Hmove : ∀ c' x, clo_move c = (c', Throws x) →
    nothrow_move_constructible (clo_traits (kind_of c)) = false).
  { intros c' x Hx. apply not_true_iff_false. intros (d & ? & Hd)%clo_nothrow_move_ok. congruence. }
  split_and!.
  - intros x Hx. eexists. unfold assign_copy; simpl. unfold mbind, M_bind.
    rewrite destroy_of_closure. unfold process. simpl.
    rewrite (Hcopy x Hx). simpl. by rewrite as_kind_self, Hx.
  - intros c' x Hx. eexists _, _. unfold assign_move; simpl. unfold mbind, M_bind.
    rewrite destroy_of_closure. unfold process. simpl.
    rewrite (Hmove c' x Hx). simpl. rewrite as_kind_self, Hx. done.
  - intros c' x Hx. do 2 eexists. unfold inplace_function_move; simpl. unfold mbind, M_bind, process.
    simpl. rewrite (Hmove c' x Hx). simpl. by rewrite as_kind_self, Hx.
Qed.

Lemma throwing_closures_break_witness :
  let _ := Demo.closures in
  ∃ f, assign_copy false (of_closure 0 (Some (5, 0)%nat), of_closure 0 (Some (13, 0)%nat)) =
         Ok ((f, of_closure 0 (Some (13, 0)%nat)), Throws 13%nat) ∧
       explicit_bool f = true ∧ destructor f = Err dead_object ∧
       assign_nullptr (X := nat) (f, tt) = Err dead_object.
Proof.
  exact (proj1 (throwing_closures_break (CL := Demo.closure_laws) (InplaceFunction None Raw 0) 0 0
    (Some (5, 0)%nat) (13, 0)%nat) 13%nat eq_refl).
Defined.
