(* ===== verification/MpmcQueue.v ===== *)
(** * The bounded MPMC queue (src/externals/include/mpmc_bounded_queue.h)

    An array of cells with a sequence number each, and two positions that only
    grow.  A cell may be written at position [p] when its number is [p], and read
    when it is [p + 1].  [w] is the width of size_t.  Here each member function
    runs alone; MpmcConcurrent.v interleaves the accesses of several threads. *)
From S2P Require Import Prelude.

Section mpmc.
Context (w : Z) {T : Type}.

(** ** Machine words *)
Definition wrap (z : Z) : Z := z mod 2 ^ w.

(** [(intptr_t)x] *)
Definition to_intptr (z : Z) : Z := if z <? 2 ^ (w - 1) then z else z - 2 ^ w.

(** [(intptr_t)a - (intptr_t)b]: undefined when it leaves the range. *)
Definition intptr_sub (a b : Z) : result Z :=
  let d := to_intptr a - to_intptr b in
  if (- 2 ^ (w - 1) <=? d) && (d <? 2 ^ (w - 1)) then Ok d else Err signed_overflow.

(** ** Data *)
Record cell_t := Cell { sequence_ : Z; data_ : T }.

Record mpmc_bounded_queue := Mpmc {
  max_size_ : Z;
  buffer_ : list cell_t;
  buffer_mask_ : Z;
  enqueue_pos_ : Z;
  dequeue_pos_ : Z
}.

Definition set_buffer (b : list cell_t) (q : mpmc_bounded_queue) : mpmc_bounded_queue :=
  Mpmc (max_size_ q) b (buffer_mask_ q) (enqueue_pos_ q) (dequeue_pos_ q).
Definition set_enqueue_pos (p : Z) (q : mpmc_bounded_queue) : mpmc_bounded_queue :=
  Mpmc (max_size_ q) (buffer_ q) (buffer_mask_ q) p (dequeue_pos_ q).
Definition set_dequeue_pos (p : Z) (q : mpmc_bounded_queue) : mpmc_bounded_queue :=
  Mpmc (max_size_ q) (buffer_ q) (buffer_mask_ q) (enqueue_pos_ q) p.

(** The constructor; [junk] is the data of a new cell. *)
Definition mpmc_make (ndebug : bool) (junk : T) (buffer_size : Z) :
    result mpmc_bounded_queue :=
  _ ← (if negb ((2 <=? buffer_size) &&
                (Z.land buffer_size (wrap (buffer_size - 1)) =? 0))
       then cassert ndebug false else Ok tt);
  Ok (Mpmc buffer_size (map (fun i => Cell i junk) (seqZ 0 buffer_size))
        (wrap (buffer_size - 1)) 0 0).

(** [buffer_[pos & buffer_mask_]] *)
Definition cell_index (q : mpmc_bounded_queue) (pos : Z) : Z := Z.land pos (buffer_mask_ q).

Definition cell_at (q : mpmc_bounded_queue) (pos : Z) : result cell_t :=
  vector_at (buffer_ q) (cell_index q pos).

(** Stores to the members of a cell *)
Definition store_data (pos : Z) (x : T) (q : mpmc_bounded_queue) : mpmc_bounded_queue :=
  set_buffer (alter (fun c => Cell (sequence_ c) x) (Z.to_nat (cell_index q pos)) (buffer_ q)) q.

Definition store_sequence (pos s : Z) (q : mpmc_bounded_queue) : mpmc_bounded_queue :=
  set_buffer (alter (fun c => Cell s (data_ c)) (Z.to_nat (cell_index q pos)) (buffer_ q)) q.

(** ** enqueue

    The loop claims a position, or finds that there is none. *)
Fixpoint enqueue_claim (fuel : nat) (q : mpmc_bounded_queue) (pos : Z) :
    result (mpmc_bounded_queue * option Z) :=
  match fuel with
  | O => Err out_of_fuel
  | S fuel =>
      cell ← cell_at q pos;
      dif ← intptr_sub (sequence_ cell) pos;
      if dif =? 0 then
        if enqueue_pos_ q =? pos then Ok (set_enqueue_pos (wrap (pos + 1)) q, Some pos)
        else enqueue_claim fuel q (enqueue_pos_ q)
      else if dif <? 0 then Ok (q, None)
      else enqueue_claim fuel q (enqueue_pos_ q)
  end.

Definition enqueue (fuel : nat) (q : mpmc_bounded_queue) (data : T) :
    result (mpmc_bounded_queue * bool) :=
  '(q, claim) ← enqueue_claim fuel q (enqueue_pos_ q);
  match claim with
  | None => Ok (q, false)
  | Some pos => Ok (store_sequence pos (wrap (pos + 1)) (store_data pos data q), true)
  end.

(** ** dequeue *)
Fixpoint dequeue_claim (fuel : nat) (q : mpmc_bounded_queue) (pos : Z) :
    result (mpmc_bounded_queue * option Z) :=
  match fuel with
  | O => Err out_of_fuel
  | S fuel =>
      cell ← cell_at q pos;
      dif ← intptr_sub (sequence_ cell) (wrap (pos + 1));
      if dif =? 0 then
        if dequeue_pos_ q =? pos then Ok (set_dequeue_pos (wrap (pos + 1)) q, Some pos)
        else dequeue_claim fuel q (dequeue_pos_ q)
      else if dif <? 0 then Ok (q, None)
      else dequeue_claim fuel q (dequeue_pos_ q)
  end.

(** [None] when it returns false, and [data] is not written. *)
Definition dequeue (fuel : nat) (q : mpmc_bounded_queue) :
    result (mpmc_bounded_queue * option T) :=
  '(q, claim) ← dequeue_claim fuel q (dequeue_pos_ q);
  match claim with
  | None => Ok (q, None)
  | Some pos =>
      cell ← cell_at q pos;
      Ok (store_sequence pos (wrap (wrap (pos + buffer_mask_ q) + 1)) q, Some (data_ cell))
  end.

(** ** approx_size *)
Definition approx_size (q : mpmc_bounded_queue) : Z :=
  let first_pos := dequeue_pos_ q in
  let last_pos := enqueue_pos_ q in
  if last_pos <=? first_pos then 0
  else
    let size := wrap (last_pos - first_pos) in
    if size <? max_size_ q then size else max_size_ q.
End mpmc.
Arguments cell_t : clear implicits.
Arguments mpmc_bounded_queue : clear implicits.
