(* ===== verification/MpmcTheorems.v ===== *)
(** * The bounded MPMC queue, used by one thread, is a bounded FIFO *)
From S2P Require Import Prelude MpmcQueue.

(** ** Words *)
Section words.
Context (w : Z) (Hw : 1 ≤ w).

Lemma pow_split : 2 ^ w = 2 * 2 ^ (w - 1).
Proof using Hw. rewrite <- Z.pow_succ_r by lia. f_equal. lia. Qed.

Lemma half_pos : 1 ≤ 2 ^ (w - 1).
Proof using Hw. pose proof (Z.pow_pos_nonneg 2 (w - 1)). lia. Qed.

Lemma wrap_bound z : 0 ≤ wrap w z < 2 ^ w.
Proof using Hw. apply Z.mod_pos_bound. pose proof pow_split. pose proof half_pos. lia. Qed.

Lemma wrap_small z : 0 ≤ z < 2 ^ w → wrap w z = z.
Proof using. apply Z.mod_small. Qed.

Lemma wrap_add z d : wrap w (wrap w z + d) = wrap w (z + d).
Proof using. apply Zplus_mod_idemp_l. Qed.

(** The words of [a] and of [a + e] lie on the same side of the sign bit, or on
    different sides in the order of unsigned words. *)
Definition crosses (a e : Z) : bool :=
  negb (bool_decide (to_intptr w (wrap w (a + e)) = to_intptr w (wrap w a) + e)).

Lemma intptr_sub_wrap a e :
  - 2 ^ (w - 1) ≤ e < 2 ^ (w - 1) →
  intptr_sub w (wrap w (a + e)) (wrap w a) =
    if crosses a e then Err signed_overflow else Ok e.
Proof using Hw.
  intros He. unfold crosses, intptr_sub. pose proof pow_split. pose proof half_pos.
  pose proof (wrap_bound a). pose proof (wrap_bound (a + e)).
  assert (Hq : ∃ q, wrap w (a + e) = wrap w a + e + q * 2 ^ w).
  { exists (a / 2 ^ w - (a + e) / 2 ^ w). unfold wrap. rewrite !Z.mod_eq by lia. lia. }
  destruct Hq as [q Hq].
  assert (q = -1 ∨ q = 0 ∨ q = 1) as Hcase by nia.
  generalize dependent (wrap w (a + e)). intros v Hv Hq.
  generalize dependent (wrap w a). intros u Hu Hq.
  unfold to_intptr.
  destruct Hcase as [-> | [-> | ->]]; case_bool_decide as Hb; simpl;
    destruct (Z.ltb_spec u (2 ^ (w - 1))), (Z.ltb_spec v (2 ^ (w - 1)));
    repeat match goal with
      | |- context [?x <=? ?y] => destruct (Z.leb_spec x y)
      | |- context [?x <? ?y] => destruct (Z.ltb_spec x y)
      end; simpl; first [f_equal; lia|exfalso; lia].
Qed.

Lemma crosses_0 a : crosses a 0 = false.
Proof using.
  unfold crosses. rewrite !Z.add_0_r. by rewrite bool_decide_eq_true_2.
Qed.
End words.

(** ** The abstraction: a list of items, and how many have been dequeued *)
Section refinement.
Context (w : Z) {T : Type}.
Implicit Types (q : mpmc_bounded_queue T) (items : list T) (h p : Z).

(** What the cell of position [p] holds. *)
Definition cell_repr items h p (c : cell_t T) : Prop :=
  if p <? h + zlen items
  then sequence_ c = wrap w (p + 1) ∧ items !! Z.to_nat (p - h) = Some (data_ c)
  else sequence_ c = wrap w p.

(** [q] has [2 ^ k] cells, holds [items], and [h] items have left it. *)
Record repr (k : Z) items h q : Prop := {
  repr_size : 1 ≤ k < w;
  repr_max : max_size_ q = 2 ^ k;
  repr_mask : buffer_mask_ q = 2 ^ k - 1;
  repr_length : length (buffer_ q) = Z.to_nat (2 ^ k);
  repr_head : 0 ≤ h;
  repr_items : zlen items ≤ 2 ^ k;
  repr_dequeue : dequeue_pos_ q = wrap w h;
  repr_enqueue : enqueue_pos_ q = wrap w (h + zlen items);
  repr_cells p : h ≤ p < h + 2 ^ k →
    ∃ c, buffer_ q !! Z.to_nat (p mod 2 ^ k) = Some c ∧ cell_repr items h p c
}.

Lemma repr_capacity k items h q : repr k items h q → 2 ≤ 2 ^ k ≤ 2 ^ (w - 1).
Proof.
  intros [Hk _ _ _ _ _ _ _ _]. split.
  - change 2 with (2 ^ 1) at 1. apply Z.pow_le_mono_r; lia.
  - apply Z.pow_le_mono_r; lia.
Qed.

Lemma cell_index_wrap k q p :
  0 ≤ k ≤ w → buffer_mask_ q = 2 ^ k - 1 → cell_index q (wrap w p) = p mod 2 ^ k.
Proof.
  intros Hk Hm. unfold cell_index. rewrite Hm.
  replace (2 ^ k - 1) with (Z.ones k) by (rewrite Z.ones_equiv; lia).
  rewrite Z.land_ones by lia. unfold wrap. apply Z.mod_mod_divide.
  exists (2 ^ (w - k)). rewrite <- Z.pow_add_r by lia. f_equal. lia.
Qed.

Lemma repr_cell_at k items h q p :
  repr k items h q → h ≤ p < h + 2 ^ k →
  ∃ c, cell_at q (wrap w p) = Ok c ∧ cell_repr items h p c.
Proof.
  intros Hr Hp. destruct (repr_cells _ _ _ _ Hr p Hp) as (c & Hc & Hcr).
  exists c. split; [|done]. unfold cell_at.
  rewrite (cell_index_wrap k) by (first [apply Hr|destruct Hr; lia]).
  by apply vector_at_Some.
Qed.

(** Two positions of the window have different cells. *)
Lemma window_cells k h p p' :
  0 < 2 ^ k → h ≤ p < h + 2 ^ k → h ≤ p' < h + 2 ^ k →
  p mod 2 ^ k = p' mod 2 ^ k → p = p'.
Proof.
  intros Hk Hp Hp' Hm. rewrite !Z.mod_eq in Hm by lia.
  assert (p / 2 ^ k = p' / 2 ^ k) by nia. nia.
Qed.

(** Changing the cell of position [p] leaves those of the others alone. *)
Lemma alter_cells k (b : list (cell_t T)) f h p p' :
  0 < 2 ^ k → h ≤ p < h + 2 ^ k → h ≤ p' < h + 2 ^ k →
  alter f (Z.to_nat (p mod 2 ^ k)) b !! Z.to_nat (p' mod 2 ^ k) =
    if decide (p = p') then f <$> b !! Z.to_nat (p' mod 2 ^ k)
    else b !! Z.to_nat (p' mod 2 ^ k).
Proof.
  intros Hk Hp Hp'. destruct (decide (p = p')) as [->|Hne].
  - by rewrite list_lookup_alter_eq.
  - rewrite list_lookup_alter_ne; [done|]. intros Heq. apply Hne.
    apply (window_cells k h); [done..|].
    pose proof (Z.mod_pos_bound p (2 ^ k) Hk). pose proof (Z.mod_pos_bound p' (2 ^ k) Hk). lia.
Qed.

Lemma enqueue_room k items h q x fuel :
  repr k items h q → zlen items < 2 ^ k → (0 < fuel)%nat →
  ∃ q', enqueue w fuel q x = Ok (q', true) ∧ repr k (items ++ [x]) h q'.
Proof.
  intros Hr Hroom Hf. destruct fuel as [|fuel]; [lia|].
  pose proof (repr_capacity _ _ _ _ Hr) as Hcap.
  destruct (repr_cell_at _ _ _ _ (h + zlen items) Hr) as (c & Hc & Hcr).
  { pose proof (zlen_nonneg items). lia. }
  unfold cell_repr in Hcr. rewrite Z.ltb_irrefl in Hcr.
  unfold enqueue. simpl. rewrite (repr_enqueue _ _ _ _ Hr), Hc. simpl.
  pose proof (intptr_sub_wrap w ltac:(destruct Hr; lia) (h + zlen items) 0) as Hs.
  rewrite Z.add_0_r, crosses_0 in Hs. rewrite Hcr, Hs by lia. simpl.
  rewrite Z.eqb_refl. simpl.
  eexists. split; [reflexivity|].
  assert (Hidx : ∀ q', buffer_mask_ q' = buffer_mask_ q →
    cell_index q' (wrap w (h + zlen items)) = (h + zlen items) mod 2 ^ k).
  { intros q' Hm. apply (cell_index_wrap k); [destruct Hr; lia|]. rewrite Hm. apply Hr. }
  unfold store_sequence, store_data, set_buffer, set_enqueue_pos. simpl.
  rewrite !Hidx by done.
  destruct Hr as [Hk Hmax Hmask Hlen Hh Hit Hd He Hcells]. split; simpl; try done.
  - by rewrite !length_alter.
  - rewrite zlen_app. change (zlen [x]) with 1. lia.
  - rewrite wrap_add, zlen_app. change (zlen [x]) with 1. f_equal. lia.
  - intros p Hp. pose proof (zlen_nonneg items) as Hnn.
    rewrite !(alter_cells k _ _ h) by lia.
    destruct (Hcells p Hp) as (c' & Hc' & Hcr'). rewrite Hc'. simpl.
    unfold cell_repr in *. rewrite zlen_app. change (zlen [x]) with 1.
    destruct (decide (h + zlen items = p)) as [<-|Hne]; eexists; (split; [reflexivity|]); simpl.
    + rewrite (proj2 (Z.ltb_lt _ _)) by lia. split; [by rewrite wrap_add|].
      rewrite lookup_app_r by (unfold zlen; lia).
      replace (_ - _)%nat with O by (unfold zlen; lia). done.
    + destruct (Z.ltb_spec p (h + zlen items)).
      * rewrite (proj2 (Z.ltb_lt _ _)) by lia. destruct Hcr' as [-> Hi]. split; [done|].
        by apply lookup_app_l_Some.
      * rewrite (proj2 (Z.ltb_ge _ _)) by lia. done.
Qed.

Lemma enqueue_full k items h q x fuel :
  repr k items h q → zlen items = 2 ^ k → (0 < fuel)%nat →
  enqueue w fuel q x =
    if crosses w (h + 2 ^ k) (1 - 2 ^ k) then Err signed_overflow else Ok (q, false).
Proof.
  intros Hr Hfull Hf. destruct fuel as [|fuel]; [lia|].
  pose proof (repr_capacity _ _ _ _ Hr) as Hcap.
  destruct (repr_cell_at _ _ _ _ h Hr ltac:(lia)) as (c & Hc & Hcr).
  unfold cell_repr in Hcr. rewrite (proj2 (Z.ltb_lt _ _)) in Hcr by lia.
  destruct Hcr as [Hseq _].
  assert (Hc' : cell_at q (wrap w (h + 2 ^ k)) = Ok c).
  { rewrite <- Hc. unfold cell_at. f_equal.
    rewrite !(cell_index_wrap k) by (first [apply Hr|destruct Hr; lia]).
    rewrite <- (Z.mul_1_l (2 ^ k)) at 1. apply Z_mod_plus_full. }
  unfold enqueue. simpl. rewrite (repr_enqueue _ _ _ _ Hr), Hfull, Hc'. simpl.
  pose proof (intptr_sub_wrap w ltac:(destruct Hr; lia) (h + 2 ^ k) (1 - 2 ^ k)) as Hs.
  replace (h + 2 ^ k + (1 - 2 ^ k)) with (h + 1) in Hs by lia.
  rewrite Hseq, Hs by lia. destruct (crosses _ _ _); [done|]. simpl.
  rewrite (proj2 (Z.eqb_neq _ _)), (proj2 (Z.ltb_lt _ _)) by lia. done.
Qed.

Lemma dequeue_item k x items h q fuel :
  repr k (x :: items) h q → (0 < fuel)%nat →
  ∃ q', dequeue w fuel q = Ok (q', Some x) ∧ repr k items (h + 1) q'.
Proof.
  intros Hr Hf. destruct fuel as [|fuel]; [lia|].
  pose proof (repr_capacity _ _ _ _ Hr) as Hcap. pose proof (zlen_nonneg items) as Hnn.
  assert (Hlen : zlen (x :: items) = 1 + zlen items) by (unfold zlen; simpl; lia).
  destruct (repr_cell_at _ _ _ _ h Hr ltac:(lia)) as (c & Hc & Hcr).
  unfold cell_repr in Hcr. rewrite (proj2 (Z.ltb_lt _ _)) in Hcr by lia.
  destruct Hcr as [Hseq Hx]. rewrite Z.sub_diag in Hx. injection Hx as Hx.
  unfold dequeue. simpl. rewrite (repr_dequeue _ _ _ _ Hr), Hc. simpl.
  pose proof (intptr_sub_wrap w ltac:(destruct Hr; lia) (h + 1) 0) as Hs.
  rewrite Z.add_0_r, crosses_0 in Hs. rewrite wrap_add, Hseq, Hs by lia. simpl.
  rewrite Z.eqb_refl. simpl.
  replace (cell_at (set_dequeue_pos _ q) _) with (cell_at q (wrap w h)) by done.
  rewrite Hc. simpl. rewrite <- Hx. eexists. split; [reflexivity|].
  assert (Hidx : ∀ q', buffer_mask_ q' = buffer_mask_ q →
    cell_index q' (wrap w h) = h mod 2 ^ k).
  { intros q' Hm. apply (cell_index_wrap k); [destruct Hr; lia|]. rewrite Hm. apply Hr. }
  unfold store_sequence, set_buffer, set_dequeue_pos. simpl. rewrite !Hidx by done.
  destruct Hr as [Hk Hmax Hmask Hlen' Hh Hit Hd He Hcells]. split; simpl; try done; try lia.
  - by rewrite length_alter.
  - rewrite He. f_equal. lia.
  - intros p Hp. unfold cell_repr.
    destruct (decide (p = h + 2 ^ k)) as [->|Hne].
    + assert (Hsame : (h + 2 ^ k) mod 2 ^ k = h mod 2 ^ k).
      { rewrite <- (Z.mul_1_l (2 ^ k)) at 1. apply Z_mod_plus_full. }
      rewrite Hsame, list_lookup_alter_eq.
      destruct (Hcells h ltac:(lia)) as (c' & Hc' & _). rewrite Hc'. simpl.
      eexists; split; [reflexivity|]. rewrite (proj2 (Z.ltb_ge _ _)) by lia. simpl.
      rewrite Hmask, (wrap_add w h), wrap_add. f_equal. lia.
    + rewrite (alter_cells k _ _ h), decide_False by lia.
      destruct (Hcells p ltac:(lia)) as (c' & Hc' & Hcr'). exists c'. split; [done|].
      unfold cell_repr in Hcr'. rewrite Hlen in Hcr'.
      destruct (Z.ltb_spec p (h + 1 + zlen items)).
      * rewrite (proj2 (Z.ltb_lt _ _)) in Hcr' by lia. destruct Hcr' as [-> Hi].
        split; [done|]. revert Hi.
        by replace (Z.to_nat (p - h)) with (S (Z.to_nat (p - (h + 1)))) by lia.
      * rewrite (proj2 (Z.ltb_ge _ _)) in Hcr' by lia. done.
Qed.

Lemma dequeue_empty k h q fuel :
  repr k [] h q → (0 < fuel)%nat →
  dequeue w fuel q = if crosses w (h + 1) (-1) then Err signed_overflow else Ok (q, None).
Proof.
  intros Hr Hf. destruct fuel as [|fuel]; [lia|].
  pose proof (repr_capacity _ _ _ _ Hr) as Hcap.
  destruct (repr_cell_at _ _ _ _ h Hr ltac:(lia)) as (c & Hc & Hcr).
  unfold cell_repr in Hcr. change (zlen (@nil T)) with 0 in Hcr.
  rewrite Z.add_0_r, Z.ltb_irrefl in Hcr.
  unfold dequeue. simpl. rewrite (repr_dequeue _ _ _ _ Hr), Hc. simpl.
  pose proof (intptr_sub_wrap w ltac:(destruct Hr; lia) (h + 1) (-1)) as Hs.
  replace (h + 1 + -1) with h in Hs by lia.
  rewrite wrap_add, Hcr, Hs by lia. destruct (crosses _ _ _); done.
Qed.

Lemma make_repr ndebug junk k :
  1 ≤ k < w → ∃ q, mpmc_make w ndebug junk (2 ^ k) = Ok q ∧ repr k [] 0 q.
Proof.
  intros Hk. assert (Hpow : 2 ^ 1 ≤ 2 ^ k) by (apply Z.pow_le_mono_r; lia).
  assert (Hlt : 2 ^ k < 2 ^ w) by (apply Z.pow_lt_mono_r; lia).
  change (2 ^ 1) with 2 in Hpow.
  unfold mpmc_make. rewrite (wrap_small w (2 ^ k - 1)) by lia.
  replace (Z.land (2 ^ k) (2 ^ k - 1)) with 0.
  2: { replace (2 ^ k - 1) with (Z.ones k) by (rewrite Z.ones_equiv; lia).
       rewrite Z.land_ones by lia. by rewrite Z.mod_same by lia. }
  rewrite (proj2 (Z.leb_le _ _)) by lia. simpl. eexists. split; [reflexivity|].
  split; simpl; try done.
  - by rewrite length_map, length_seqZ.
  - change (zlen (@nil T)) with 0. lia.
  - intros p Hp. rewrite Z.mod_small by lia. exists (Cell p junk). split.
      change (map ?f ?l) with (f <$> l). rewrite list_lookup_fmap, lookup_seqZ_lt by lia.
      simpl. do 2 f_equal. lia.
    + unfold cell_repr. change (zlen (@nil T)) with 0.
      rewrite (proj2 (Z.ltb_ge _ _)) by lia. simpl. rewrite wrap_small; [done|lia].
Qed.
End refinement.

(** ** Sequences of operations *)
Inductive queue_op (T : Type) := Enqueue (x : T) | Dequeue.
Arguments Enqueue {T} _.
Arguments Dequeue {T}.

(** What an operation returns: the bool of enqueue, the item of dequeue. *)
Definition reply (T : Type) : Type := bool + option T.

Section sequences.
Context (w : Z) {T : Type}.
Implicit Types (q : mpmc_bounded_queue T) (items : list T) (l : list (queue_op T)).

Definition run_op (q : mpmc_bounded_queue T) (o : queue_op T) :
    result (mpmc_bounded_queue T * reply T) :=
  match o with
  | Enqueue x => '(q, b) ← enqueue w 1 q x; Ok (q, inl b)
  | Dequeue => '(q, r) ← dequeue w 1 q; Ok (q, inr r)
  end.

Fixpoint run_ops (q : mpmc_bounded_queue T) (l : list (queue_op T)) :
    result (mpmc_bounded_queue T * list (reply T)) :=
  match l with
  | [] => Ok (q, [])
  | o :: l =>
      '(q, r) ← run_op q o;
      '(q, rs) ← run_ops q l;
      Ok (q, r :: rs)
  end.

(** The bounded FIFO *)
Definition fifo_op (capacity : Z) (items : list T) (o : queue_op T) : list T * reply T :=
  match o with
  | Enqueue x =>
      if zlen items <? capacity then (items ++ [x], inl true) else (items, inl false)
  | Dequeue =>
      match items with
      | [] => ([], inr None)
      | x :: items => (items, inr (Some x))
      end
  end.

Fixpoint fifo_ops (capacity : Z) (items : list T) (l : list (queue_op T)) :
    list T * list (reply T) :=
  match l with
  | [] => (items, [])
  | o :: l =>
      let '(items, r) := fifo_op capacity items o in
      let '(items, rs) := fifo_ops capacity items l in
      (items, r :: rs)
  end.

Lemma crosses_small a e :
  1 ≤ w → 0 ≤ a < 2 ^ (w - 1) → 0 ≤ a + e < 2 ^ (w - 1) → crosses w a e = false.
Proof.
  intros Hw Ha He. pose proof (pow_split w Hw). unfold crosses, to_intptr.
  rewrite !wrap_small by lia. rewrite !(proj2 (Z.ltb_lt _ _)) by lia.
  by rewrite bool_decide_eq_true_2.
Qed.

(** An operation does what it does on the FIFO, or overflows. *)
Lemma run_op_refines k items h q o :
  repr w k items h q →
  (run_op q o = Err signed_overflow ∧ 2 ^ (w - 1) ≤ h + 2 ^ k) ∨
  ∃ q' h', run_op q o = Ok (q', (fifo_op (2 ^ k) items o).2) ∧
    repr w k (fifo_op (2 ^ k) items o).1 h' q' ∧ h ≤ h' ≤ h + 1.
Proof.
  intros Hr. pose proof (repr_capacity _ _ _ _ _ Hr) as Hcap.
  pose proof (repr_items _ _ _ _ _ Hr) as Hit. pose proof (repr_head _ _ _ _ _ Hr) as Hh.
  assert (Hw : 1 ≤ w) by (destruct Hr; lia).
  destruct o as [x|]; simpl.
  - destruct (Z.ltb_spec (zlen items) (2 ^ k)).
    + destruct (enqueue_room w k items h q x 1 Hr ltac:(lia) ltac:(lia)) as (q' & -> & Hr').
      right. exists q', h. simpl. split_and!; [done|done|lia..].
    + rewrite (enqueue_full w k items h q x 1 Hr ltac:(lia) ltac:(lia)).
      destruct (crosses _ _ _) eqn:Hx; [left|right].
      * split; [done|]. apply Znot_gt_le. intros Hlt.
        rewrite crosses_small in Hx by lia. done.
      * exists q, h. simpl. split_and!; [done|done|lia..].
  - destruct items as [|x items].
    + rewrite (dequeue_empty w k h q 1 Hr ltac:(lia)).
      destruct (crosses _ _ _) eqn:Hx; [left|right].
      * split; [done|]. apply Znot_gt_le. intros Hlt.
        rewrite crosses_small in Hx by lia. done.
      * exists q, h. simpl. split_and!; [done|done|lia..].
    + destruct (dequeue_item w k x items h q 1 Hr ltac:(lia)) as (q' & -> & Hr').
      right. exists q', (h + 1). simpl. split_and!; [done|done|lia..].
Qed.

Lemma run_ops_refines k l items h q :
  repr w k items h q →
  (run_ops q l = Err signed_overflow ∧ 2 ^ (w - 1) ≤ h + zlen l + 2 ^ k) ∨
  ∃ q' h', run_ops q l = Ok (q', (fifo_ops (2 ^ k) items l).2) ∧
    repr w k (fifo_ops (2 ^ k) items l).1 h' q'.
Proof.
  revert items h q. induction l as [|o l IH]; intros items h q Hr; [right; by exists q, h|].
  assert (Hl : zlen (o :: l) = 1 + zlen l) by (unfold zlen; simpl; lia).
  pose proof (zlen_nonneg l). cbn [run_ops fifo_ops].
  destruct (run_op_refines k items h q o Hr) as [[-> Hb]|(q1 & h1 & -> & Hr1 & Hh1)].
  - left. split; [done|lia].
  - destruct (fifo_op (2 ^ k) items o) as [items1 r]. simpl in *.
    destruct (IH items1 h1 q1 Hr1) as [[-> Hb]|(q2 & h2 & -> & Hr2)].
    + left. split; [done|lia].
    + destruct (fifo_ops (2 ^ k) items1 l) as [items2 rs]. right. by exists q2, h2.
Qed.

(** As long as the positions have not wrapped, the size is exact. *)
Lemma approx_size_exact k items h q :
  repr w k items h q → h + zlen items < 2 ^ w → approx_size w q = zlen items.
Proof.
  intros Hr Hb. pose proof (zlen_nonneg items). destruct Hr. unfold approx_size.
  rewrite repr_dequeue0, repr_enqueue0, repr_max0, (wrap_small w h),
    (wrap_small w (h + _)) by lia.
  destruct (Z.leb_spec (h + zlen items) h); [lia|].
  rewrite wrap_small by lia. replace (h + zlen items - h) with (zlen items) by lia.
  destruct (Z.ltb_spec (zlen items) (2 ^ k)); lia.
Qed.
End sequences.

(** C38: Used by one thread, a queue of [2 ^ k] cells is a FIFO of this capacity, also
    when the positions wrap around: every reply is the one of the specification, and
    one iteration of the loops is enough.  The only way to go wrong is that the
    signed difference of the sequence number and the position overflows, in a full
    or an empty queue; this takes about [2 ^ (w - 1)] operations. *)
Theorem mpmc_sequential_fifo (w : Z) {T : Type} (k : Z) (ndebug : bool) (junk : T)
    (l : list (queue_op T)) (Hk : 1 ≤ k < w) :
  ∃ q, mpmc_make w ndebug junk (2 ^ k) = Ok q ∧
    ((run_ops w q l = Err signed_overflow ∧ 2 ^ (w - 1) ≤ zlen l + 2 ^ k) ∨
     ∃ q' h, run_ops w q l = Ok (q', (fifo_ops (2 ^ k) [] l).2) ∧
       repr w k (fifo_ops (2 ^ k) [] l).1 h q').
Proof.
  destruct (make_repr w ndebug junk k Hk) as (q & Hq & Hr). exists q. split; [done|].
  destruct (run_ops_refines w k l [] 0 q Hr) as [?|?]; [by left|by right].
Qed.

(** With words of 3 bits and 2 cells, the third attempt to dequeue from an empty queue
    overflows, since the positions are at the sign bit by then. *)
Lemma mpmc_sequential_fifo_witness :
  let pair := [Enqueue 7%nat; Dequeue] in
  (∃ q, mpmc_make 64 false 0%nat (2 ^ 2) = Ok q ∧
     ((run_ops 64 q pair = Err signed_overflow ∧ 2 ^ (64 - 1) ≤ zlen pair + 2 ^ 2) ∨
      ∃ q' h, run_ops 64 q pair = Ok (q', [inl true; inr (Some 7%nat)]) ∧
        repr 64 2 [] h q')) ∧
  (q ← mpmc_make 3 false 0%nat 2; run_ops 3 q (pair ++ pair ++ pair ++ [Dequeue]))
    = Err signed_overflow.
Proof.
  split; [|reflexivity].
  exact (mpmc_sequential_fifo 64 2 false 0%nat [Enqueue 7%nat; Dequeue] ltac:(lia)).
Defined.
