(* ===== verification/MpmcConcurrent.v ===== *)
(** * The bounded MPMC queue, used by many threads

    The member functions of mpmc_bounded_queue.h split at their accesses to shared
    memory: a load or store of a position or a sequence number, a compare-exchange,
    an access to the data of a cell.  A step of the machine is one access of one
    thread.  Accesses are sequentially consistent.  The compare-exchange is the weak
    one, which may fail for no reason.

    The machine also keeps what has happened: [pushed], the items by position, in
    the order in which the positions were claimed; [claims], how many positions have
    been claimed for dequeuing; [popped], the items that were returned, with the
    position they were taken from. *)
From stdpp Require Import functions.
From S2P Require Import Prelude MpmcQueue.

Section concurrent.
Context (w : Z) {T : Type}.

(** Where a thread is in [enqueue] or [dequeue]. *)
Inductive thread :=
  | Idle
  | EnqLoad (x : T)               (* pos = enqueue_pos_.load() *)
  | EnqCell (x : T) (pos : Z)     (* seq = cell->sequence_.load() and the test of dif *)
  | EnqCas (x : T) (pos : Z)      (* enqueue_pos_.compare_exchange_weak(pos, pos + 1) *)
  | EnqWrite (x : T) (pos : Z)    (* cell->data_ = data *)
  | EnqPublish (x : T) (pos : Z)  (* cell->sequence_.store(pos + 1) *)
  | EnqDone (b : bool)
  | DeqLoad                       (* pos = dequeue_pos_.load() *)
  | DeqCell (pos : Z)
  | DeqCas (pos : Z)
  | DeqRead (pos : Z)             (* data = cell->data_ *)
  | DeqRelease (pos : Z) (v : T)  (* cell->sequence_.store(pos + buffer_mask_ + 1) *)
  | DeqDone (r : option T).

(** One access of [enqueue]. *)
Definition enqueue_step (spurious : bool) (q : mpmc_bounded_queue T) (t : thread) :
    result (mpmc_bounded_queue T * thread) :=
  match t with
  | EnqLoad x => Ok (q, EnqCell x (enqueue_pos_ q))
  | EnqCell x pos =>
      cell ← cell_at q pos;
      dif ← intptr_sub w (sequence_ cell) pos;
      if dif =? 0 then Ok (q, EnqCas x pos)
      else if dif <? 0 then Ok (q, EnqDone false)
      else Ok (q, EnqLoad x)
  | EnqCas x pos =>
      if negb spurious && (enqueue_pos_ q =? pos)
      then Ok (set_enqueue_pos (wrap w (pos + 1)) q, EnqWrite x pos)
      else Ok (q, EnqCell x (enqueue_pos_ q))
  | EnqWrite x pos => Ok (store_data pos x q, EnqPublish x pos)
  | EnqPublish x pos => Ok (store_sequence pos (wrap w (pos + 1)) q, EnqDone true)
  | _ => Err client_misuse
  end.

(** One access of [dequeue]. *)
Definition dequeue_step (spurious : bool) (q : mpmc_bounded_queue T) (t : thread) :
    result (mpmc_bounded_queue T * thread) :=
  match t with
  | DeqLoad => Ok (q, DeqCell (dequeue_pos_ q))
  | DeqCell pos =>
      cell ← cell_at q pos;
      dif ← intptr_sub w (sequence_ cell) (wrap w (pos + 1));
      if dif =? 0 then Ok (q, DeqCas pos)
      else if dif <? 0 then Ok (q, DeqDone None)
      else Ok (q, DeqLoad)
  | DeqCas pos =>
      if negb spurious && (dequeue_pos_ q =? pos)
      then Ok (set_dequeue_pos (wrap w (pos + 1)) q, DeqRead pos)
      else Ok (q, DeqCell (dequeue_pos_ q))
  | DeqRead pos => cell ← cell_at q pos; Ok (q, DeqRelease pos (data_ cell))
  | DeqRelease pos v =>
      Ok (store_sequence pos (wrap w (wrap w (pos + buffer_mask_ q) + 1)) q, DeqDone (Some v))
  | _ => Err client_misuse
  end.

Definition thread_step (spurious : bool) (q : mpmc_bounded_queue T) (t : thread) :
    result (mpmc_bounded_queue T * thread) :=
  match t with
  | EnqLoad _ | EnqCell _ _ | EnqCas _ _ | EnqWrite _ _ | EnqPublish _ _ =>
      enqueue_step spurious q t
  | _ => dequeue_step spurious q t
  end.

(** Whether the thread is between two accesses of a member function. *)
Definition running (t : thread) : bool :=
  match t with Idle | EnqDone _ | DeqDone _ => false | _ => true end.

Record machine := Machine {
  queue : mpmc_bounded_queue T;
  threads : nat → thread;
  pushed : list T;
  claims : Z;
  popped : list (Z * T)
}.

(** What a step adds to the history. *)
Definition newly_pushed (t t' : thread) : list T :=
  match t, t' with EnqCas x _, EnqWrite _ _ => [x] | _, _ => [] end.
Definition newly_claimed (t t' : thread) : Z :=
  match t, t' with DeqCas _, DeqRead _ => 1 | _, _ => 0 end.
Definition newly_popped (t t' : thread) : list (Z * T) :=
  match t, t' with DeqRelease p v, DeqDone _ => [(p, v)] | _, _ => [] end.

Definition set_thread (i : nat) (t : thread) (m : machine) : machine :=
  Machine (queue m) (<[i := t]> (threads m)) (pushed m) (claims m) (popped m).

Definition after_access (i : nat) (t t' : thread) (q' : mpmc_bounded_queue T) (m : machine) :
    machine :=
  Machine q' (<[i := t']> (threads m)) (pushed m ++ newly_pushed t t')
    (claims m + newly_claimed t t') (popped m ++ newly_popped t t').

Inductive mpmc_step : machine → machine → Prop :=
  | step_call_enqueue m i x :
      threads m i = Idle → mpmc_step m (set_thread i (EnqLoad x) m)
  | step_call_dequeue m i :
      threads m i = Idle → mpmc_step m (set_thread i DeqLoad m)
  | step_return m i :
      running (threads m i) = false → mpmc_step m (set_thread i Idle m)
  | step_access m i spurious q' t' :
      running (threads m i) = true →
      thread_step spurious (queue m) (threads m i) = Ok (q', t') →
      mpmc_step m (after_access i (threads m i) t' q' m).

(** No thread has called anything yet. *)
Definition mpmc_initial (q : mpmc_bounded_queue T) : machine :=
  Machine q (λ _, Idle) [] 0 [].

(** The position a thread has claimed and not released. *)
Definition holds (t : thread) : option Z :=
  match t with
  | EnqWrite _ p | EnqPublish _ p | DeqRead p | DeqRelease p _ => Some p
  | _ => None
  end.

(** The thread is about to access the data of the cell at this index. *)
Definition accesses_data (q : mpmc_bounded_queue T) (t : thread) : option Z :=
  match t with
  | EnqWrite _ p | DeqRead p => Some (cell_index q p)
  | _ => None
  end.
End concurrent.
Arguments thread : clear implicits.
Arguments machine : clear implicits.
