(* ===== verification/MpmcInvariant.v ===== *)
(** * The invariant of the concurrent MPMC queue

    Every cell has a turn: the position it serves next, or is serving, and how far
    that has got.  A thread that has claimed a position is the only one that may
    change the cell whose turn it is. *)
From stdpp Require Import functions.
From S2P Require Import Prelude MpmcQueue MpmcConcurrent MpmcTheorems.

Inductive phase :=
  | Free      (* may be claimed for writing *)
  | Claimed   (* a thread is writing it *)
  | Full      (* may be claimed for reading *)
  | Taken.    (* a thread is reading it *)

Section invariant.
Context (w k : Z) {T : Type} (Hk : 1 ≤ k < w).
#[local] Abbreviation n := (2 ^ k).
Implicit Types (q : mpmc_bounded_queue T) (ps : list T) (D p : Z) (t : thread T)
  (tn : Z → Z * phase) (m : machine T) (c : cell_t T).

Lemma capacity_bounds : 2 ≤ n ≤ 2 ^ (w - 1) ∧ 2 ^ w = 2 * 2 ^ (w - 1).
Proof using Hk.
  split; [|apply pow_split; lia]. split.
  - change 2 with (2 ^ 1) at 1. apply Z.pow_le_mono_r; lia.
  - apply Z.pow_le_mono_r; lia.
Qed.

(** The cell of a position. *)
Definition cell_of q p : option (cell_t T) := buffer_ q !! Z.to_nat (p mod n).

(** The cell [c] with index [i] has the turn [u], when [ps] has been pushed and [D]
    positions have been claimed for dequeuing. *)
Definition cell_ok ps D (i : Z) (u : Z * phase) c : Prop :=
  u.1 mod n = i ∧ 0 ≤ u.1 ∧ zlen ps ≤ u.1 + n ∧
  match u.2 with
  | Free => sequence_ c = u.1 ∧ zlen ps ≤ u.1 < D + n
  | Claimed => sequence_ c = u.1 ∧ D ≤ u.1 < zlen ps
  | Full => sequence_ c = u.1 + 1 ∧ D ≤ u.1 < zlen ps ∧ ps !! Z.to_nat u.1 = Some (data_ c)
  | Taken => sequence_ c = u.1 + 1 ∧ u.1 < D ∧ ps !! Z.to_nat u.1 = Some (data_ c)
  end.

(** What a thread knows. *)
Definition thread_ok tn q ps D t : Prop :=
  match t with
  | EnqCell _ p => 0 ≤ p ≤ zlen ps
  | EnqCas _ p => 0 ≤ p ≤ zlen ps ∧ ∃ c, cell_of q p = Some c ∧ p ≤ sequence_ c
  | EnqWrite x p => tn (p mod n) = (p, Claimed) ∧ ps !! Z.to_nat p = Some x
  | EnqPublish x p =>
      tn (p mod n) = (p, Claimed) ∧ ps !! Z.to_nat p = Some x ∧
      ∃ c, cell_of q p = Some c ∧ data_ c = x
  | DeqCell p => 0 ≤ p ≤ D
  | DeqCas p => 0 ≤ p ≤ D ∧ ∃ c, cell_of q p = Some c ∧ p + 1 ≤ sequence_ c
  | DeqRead p => tn (p mod n) = (p, Taken)
  | DeqRelease p v => tn (p mod n) = (p, Taken) ∧ ps !! Z.to_nat p = Some v
  | _ => True
  end.

Record minv tn m : Prop := {
  i_mask : buffer_mask_ (queue m) = n - 1;
  i_length : length (buffer_ (queue m)) = Z.to_nat n;
  i_enqueue : enqueue_pos_ (queue m) = zlen (pushed m);
  i_dequeue : dequeue_pos_ (queue m) = claims m;
  i_bounds : 0 ≤ claims m ≤ zlen (pushed m) ∧ zlen (pushed m) ≤ claims m + n;
  i_small : zlen (pushed m) + n ≤ 2 ^ (w - 1);
  i_cells i : 0 ≤ i < n →
    ∃ c, buffer_ (queue m) !! Z.to_nat i = Some c ∧
         cell_ok (pushed m) (claims m) i (tn i) c;
  i_threads i : thread_ok tn (queue m) (pushed m) (claims m) (threads m i);
  i_unique i j p : holds (threads m i) = Some p → holds (threads m j) = Some p → i = j;
  i_popped p v : (p, v) ∈ popped m →
    0 ≤ p < claims m ∧ pushed m !! Z.to_nat p = Some v ∧
    ∀ i, holds (threads m i) ≠ Some p;
  i_nodup : NoDup (popped m).*1;
  i_all p : 0 ≤ p < claims m →
    (∃ v, (p, v) ∈ popped m) ∨ ∃ i, holds (threads m i) = Some p
}.

Lemma mod_in_range p : 0 ≤ p mod n < n.
Proof using Hk. apply Z.mod_pos_bound. pose proof capacity_bounds. lia. Qed.

(** The cell of any position, and its turn. *)
Lemma i_cell tn m p :
  minv tn m →
  ∃ c, cell_of (queue m) p = Some c ∧ cell_ok (pushed m) (claims m) (p mod n) (tn (p mod n)) c.
Proof using Hk. intros Hi. apply (i_cells _ _ Hi), mod_in_range. Qed.

Lemma same_residue p p' : p mod n = p' mod n → p < p' + n → p' < p + n → p = p'.
Proof using Hk.
  pose proof capacity_bounds. intros Hm ? ?. rewrite !Z.mod_eq in Hm by lia.
  assert (p / n = p' / n) by nia. nia.
Qed.

Lemma cell_at_cell_of tn m p c :
  minv tn m → 0 ≤ p < 2 ^ w → cell_of (queue m) p = Some c → cell_at (queue m) p = Ok c.
Proof using Hk.
  intros Hi Hp Hc. unfold cell_at. rewrite <- (wrap_small w p Hp).
  rewrite (cell_index_wrap w k) by (first [apply Hi|lia]). by apply vector_at_Some.
Qed.

(** A thread that holds a position has its turn. *)
Lemma holds_turn tn q ps D t p :
  thread_ok tn q ps D t → holds t = Some p →
  tn (p mod n) = (p, Claimed) ∨ tn (p mod n) = (p, Taken).
Proof using Hk. destruct t; simpl; intros Ht [=]; subst; naive_solver. Qed.

Lemma no_holder_at tn m p u :
  minv tn m → tn (p mod n) = (p, u) → u = Free ∨ u = Full →
  ∀ i p', holds (threads m i) = Some p' → p' mod n ≠ p mod n.
Proof using Hk.
  intros Hi Htn Hu i p' Hp' Heq.
  pose proof (holds_turn _ _ _ _ _ _ (i_threads _ _ Hi i) Hp') as Ht.
  rewrite Heq, Htn in Ht. destruct Ht, Hu; congruence.
Qed.

Lemma other_holder_at tn m i p :
  minv tn m → holds (threads m i) = Some p →
  ∀ j p', j ≠ i → holds (threads m j) = Some p' → p' mod n ≠ p mod n.
Proof using Hk.
  intros Hi Hp j p' Hj Hp' Heq. apply Hj.
  pose proof (holds_turn _ _ _ _ _ _ (i_threads _ _ Hi i) Hp) as H1.
  pose proof (holds_turn _ _ _ _ _ _ (i_threads _ _ Hi j) Hp') as H2.
  rewrite Heq in H2. assert (p' = p) as -> by (destruct H1, H2; congruence).
  by apply (i_unique _ _ Hi j i p).
Qed.

(** What a thread knows stays true when others act. *)
Lemma thread_ok_stable tn tn' q q' ps ps' D D' t :
  thread_ok tn q ps D t → ps `prefix_of` ps' → D ≤ D' →
  (∀ p c, cell_of q p = Some c → ∃ c', cell_of q' p = Some c' ∧ sequence_ c ≤ sequence_ c') →
  (∀ p, holds t = Some p → tn' (p mod n) = tn (p mod n) ∧ cell_of q' p = cell_of q p) →
  thread_ok tn' q' ps' D' t.
Proof using Hk.
  intros Ht Hps HD Hseq Hheld.
  assert (Hlen : zlen ps ≤ zlen ps').
  { unfold zlen. apply prefix_length in Hps. lia. }
  assert (Hlk : ∀ i x, ps !! i = Some x → ps' !! i = Some x).
  { intros i x Hx. by eapply prefix_lookup_Some. }
  destruct t as [| |x p|x p|x p|x p| | |p|p|p|p v|]; simpl in *; try done; try lia.
  - destruct Ht as (? & c & Hc & ?). destruct (Hseq _ _ Hc) as (c' & ? & ?).
    split; [lia|]. exists c'. split; [done|lia].
  - destruct (Hheld p eq_refl) as [-> _]. naive_solver.
  - destruct (Hheld p eq_refl) as [-> ->]. naive_solver.
  - destruct Ht as (? & c & Hc & ?). destruct (Hseq _ _ Hc) as (c' & ? & ?).
    split; [lia|]. exists c'. split; [done|lia].
  - by destruct (Hheld p eq_refl) as [-> _].
  - destruct (Hheld p eq_refl) as [-> _]. naive_solver.
Qed.

(** A step that changes nothing but where thread [i] is. *)
Lemma minv_local tn m i t :
  minv tn m → holds t = holds (threads m i) →
  thread_ok tn (queue m) (pushed m) (claims m) t → minv tn (set_thread i t m).
Proof using Hk.
  intros Hi Hh Ht.
  assert (Hholds : ∀ j, holds (threads (set_thread i t m) j) = holds (threads m j)).
  { intros j. simpl. destruct (decide (i = j)) as [<-|Hne];
      [by rewrite fn_lookup_insert|by rewrite fn_lookup_insert_ne]. }
  destruct Hi. split; simpl; try done.
  - intros j. destruct (decide (i = j)) as [<-|Hne];
      [by rewrite fn_lookup_insert|by rewrite fn_lookup_insert_ne].
  - intros a b p Ha Hb. pose proof (Hholds a) as Ea. pose proof (Hholds b) as Eb.
    simpl in *. rewrite Ea in Ha. rewrite Eb in Hb. by eapply i_unique0.
  - intros p v Hp. destruct (i_popped0 p v Hp) as (? & ? & Hn). split_and!; [lia..|done|].
    intros j. pose proof (Hholds j) as Ej. simpl in Ej. rewrite Ej. apply Hn.
  - intros p Hp. destruct (i_all0 p Hp) as [?|[j Hj]]; [by left|right].
    exists j. pose proof (Hholds j) as Ej. simpl in Ej. by rewrite Ej.
Qed.

(** A step of thread [i] that changes the cell with index [j], whose turn no other
    thread has. *)
Lemma minv_update tn m i j t' q' ps' D' pop' u' f :
  minv tn m → 0 ≤ j < n →
  buffer_mask_ q' = n - 1 → enqueue_pos_ q' = zlen ps' → dequeue_pos_ q' = D' →
  buffer_ q' = alter f (Z.to_nat j) (buffer_ (queue m)) →
  (0 ≤ D' ≤ zlen ps' ∧ zlen ps' ≤ D' + n) → zlen ps' + n ≤ 2 ^ (w - 1) →
  pushed m `prefix_of` ps' → claims m ≤ D' →
  (∀ c, buffer_ (queue m) !! Z.to_nat j = Some c → cell_ok (pushed m) (claims m) j (tn j) c →
        cell_ok ps' D' j u' (f c) ∧ sequence_ c ≤ sequence_ (f c)) →
  (∀ l u c, l ≠ j → cell_ok (pushed m) (claims m) l u c → cell_ok ps' D' l u c) →
  (∀ a p, a ≠ i → holds (threads m a) = Some p → p mod n ≠ j) →
  thread_ok (<[j := u']> tn) q' ps' D' t' →
  (∀ p, holds t' = Some p → p mod n = j) →
  (∀ p v, (p, v) ∈ pop' → 0 ≤ p < D' ∧ ps' !! Z.to_nat p = Some v ∧ holds t' ≠ Some p ∧
     ∀ a, a ≠ i → holds (threads m a) ≠ Some p) →
  NoDup pop'.*1 →
  (∀ p, 0 ≤ p < D' → (∃ v, (p, v) ∈ pop') ∨ holds t' = Some p ∨
     ∃ a, a ≠ i ∧ holds (threads m a) = Some p) →
  minv (<[j := u']> tn) (Machine q' (<[i := t']> (threads m)) ps' D' pop').
Proof using Hk.
  intros Hi Hj Hmask He Hd Hbuf Hb Hsmall Hps HD Hc Hothers Hfree Ht' Hheld Hpop Hnd Hall.
  assert (Hcells : ∀ l, 0 ≤ l < n → l ≠ j →
    buffer_ q' !! Z.to_nat l = buffer_ (queue m) !! Z.to_nat l).
  { intros l Hl Hne. rewrite Hbuf, list_lookup_alter_ne; [done|lia]. }
  assert (Hcellj : ∃ c, buffer_ (queue m) !! Z.to_nat j = Some c ∧
    buffer_ q' !! Z.to_nat j = Some (f c) ∧ cell_ok ps' D' j u' (f c) ∧
    sequence_ c ≤ sequence_ (f c)).
  { destruct (i_cells _ _ Hi j Hj) as (c & Hcj & Hok). exists c.
    rewrite Hbuf, list_lookup_alter_eq, Hcj. destruct (Hc c Hcj Hok). by split_and!. }
  destruct Hcellj as (cj & Hcj & Hcj' & Hokj & Hseqj).
  split; simpl; try done.
  - rewrite Hbuf, length_alter. apply Hi.
  - intros l Hl. destruct (decide (l = j)) as [->|Hne].
    + rewrite fn_lookup_insert. by exists (f cj).
    + rewrite fn_lookup_insert_ne, Hcells by done.
      destruct (i_cells _ _ Hi l Hl) as (c & Hl' & Hok). exists c. split; [done|].
      by apply Hothers.
  - intros a. destruct (decide (i = a)) as [<-|Hne]; [by rewrite fn_lookup_insert|].
    rewrite fn_lookup_insert_ne by done.
    apply (thread_ok_stable tn _ (queue m) _ (pushed m) _ (claims m)); [apply Hi|done|done| |].
    + intros p c Hpc. unfold cell_of in *. destruct (decide (p mod n = j)) as [Hpj|Hpj].
      * rewrite Hpj in *. simplify_eq. by exists (f cj).
      * rewrite Hcells by (try apply mod_in_range; done). by exists c.
    + intros p Hp. pose proof (Hfree a p ltac:(done) Hp) as Hpj.
      rewrite fn_lookup_insert_ne by done. unfold cell_of.
      by rewrite Hcells by (try apply mod_in_range; done).
  - intros a b p Ha Hb'.
    destruct (decide (i = a)) as [<-|Hia], (decide (i = b)) as [<-|Hib]; [done|..];
      rewrite ?fn_lookup_insert, ?fn_lookup_insert_ne in * by done.
    + destruct (Hfree b p ltac:(done) Hb'). by apply Hheld.
    + destruct (Hfree a p ltac:(done) Ha). by apply Hheld.
    + by apply (i_unique _ _ Hi a b p).
  - intros p v Hpv. destruct (Hpop p v Hpv) as (? & ? & H1 & H2). split_and!; [lia..|done|].
    intros a. destruct (decide (i = a)) as [<-|Hne].
    + by rewrite fn_lookup_insert.
    + rewrite fn_lookup_insert_ne by done. by apply H2.
  - intros p Hp. destruct (Hall p Hp) as [?|[?|(a & Hne & Ha)]]; [by left|right..].
    + exists i. by rewrite fn_lookup_insert.
    + exists a. by rewrite fn_lookup_insert_ne.
Qed.

(** Another position of the same cell is at least a lap away. *)
Lemma cell_ok_push ps D l u c x :
  l ≠ zlen ps mod n → cell_ok ps D l u c → cell_ok (ps ++ [x]) D l u c.
Proof using Hk.
  intros Hl (Hmod & Hnn & Hnext & Hu).
  assert (Hlen : zlen (ps ++ [x]) = zlen ps + 1) by (rewrite zlen_app; done).
  assert (zlen ps ≠ u.1 + n).
  { intros Heq. apply Hl. rewrite Heq, <- Hmod.
    rewrite <- (Z.mul_1_l n) at 2. symmetry. apply Z_mod_plus_full. }
  unfold cell_ok. rewrite Hlen. split_and!; [done|done|lia|]. destruct u as [p []]; simpl in *.
  - destruct Hu as [? Hp]. split; [done|].
    assert (p ≠ zlen ps) by (intros ->; congruence). lia.
  - lia.
  - destruct Hu as (? & ? & ?). split_and!; [lia..|]. by apply lookup_app_l_Some.
  - destruct Hu as (? & ? & ?). split_and!; [lia..|]. by apply lookup_app_l_Some.
Qed.

Lemma cell_ok_claim ps D l u c :
  l ≠ D mod n → cell_ok ps D l u c → cell_ok ps (D + 1) l u c.
Proof using Hk.
  intros Hl (Hmod & Hnn & Hnext & Hu). split_and!; [done..|]. destruct u as [p []]; simpl in *.
  - lia.
  - assert (p ≠ D) by (intros ->; congruence). lia.
  - assert (p ≠ D) by (intros ->; congruence). naive_solver lia.
  - naive_solver lia.
Qed.

Lemma turn_of_push ps D c u :
  cell_ok ps D (zlen ps mod n) u c → zlen ps ≤ sequence_ c → D ≤ zlen ps →
  u = (zlen ps, Free).
Proof using Hk.
  pose proof capacity_bounds. intros (Hmod & Hnn & Hnext & Hu) Hseq HD.
  destruct u as [p []]; simpl in *.
  - destruct Hu. f_equal. apply same_residue; [done|lia..].
  - lia.
  - destruct Hu as (? & ? & _). assert (p = zlen ps) by (apply same_residue; [done|lia..]). lia.
  - destruct Hu as (? & ? & _). assert (p = zlen ps) by (apply same_residue; [done|lia..]). lia.
Qed.

Lemma turn_of_claim ps D c u :
  cell_ok ps D (D mod n) u c → D + 1 ≤ sequence_ c → zlen ps ≤ D + n → u = (D, Full).
Proof using Hk.
  pose proof capacity_bounds. intros (Hmod & Hnn & Hnext & Hu) Hseq HE.
  destruct u as [p []]; simpl in *.
  - destruct Hu. assert (p = D) by (apply same_residue; [done|lia..]). lia.
  - destruct Hu. assert (p = D) by (apply same_residue; [done|lia..]). lia.
  - destruct Hu as (? & ? & _). f_equal. apply same_residue; [done|lia..].
  - lia.
Qed.

(** Below the sign bit, differences are exact. *)
Lemma intptr_sub_small a b :
  0 ≤ a < 2 ^ (w - 1) → 0 ≤ b < 2 ^ (w - 1) → intptr_sub w a b = Ok (a - b).
Proof using Hk.
  intros Ha Hb. unfold intptr_sub, to_intptr. rewrite !(proj2 (Z.ltb_lt _ _)) by lia.
  by rewrite (proj2 (Z.leb_le _ _)) by lia.
Qed.

Lemma cell_ok_sequence ps D i u c :
  cell_ok ps D i u c → D ≤ zlen ps → zlen ps + n ≤ 2 ^ (w - 1) →
  0 ≤ sequence_ c < 2 ^ (w - 1).
Proof using Hk.
  pose proof capacity_bounds. intros (Hmod & Hnn & Hnext & Hu) HD Hs.
  destruct u as [p []]; simpl in *; naive_solver lia.
Qed.
End invariant.

(** ** Every access preserves the invariant of the MPMC queue *)
Section preservation.
Context (w k : Z) {T : Type} (Hk : 1 ≤ k < w).
#[local] Abbreviation n := (2 ^ k).
Implicit Types (q : mpmc_bounded_queue T) (t : thread T) (tn : Z → Z * phase)
  (m : machine T) (p : Z).

(** Numbers that are small enough. *)
Lemma minv_small tn m p :
  minv w k tn m → 0 ≤ p ≤ zlen (pushed m) →
  p < 2 ^ (w - 1) ∧ p + 1 < 2 ^ (w - 1) ∧ p < 2 ^ w ∧ wrap w p = p ∧ wrap w (p + 1) = p + 1.
Proof using Hk.
  intros Hi Hp. pose proof (capacity_bounds w k Hk). pose proof (i_small _ _ _ _ Hi).
  rewrite !wrap_small by lia. lia.
Qed.

Lemma holds_bounds tn m i p :
  minv w k tn m → holds (threads m i) = Some p →
  0 ≤ p < zlen (pushed m) ∧
  ∃ c u, cell_of k (queue m) p = Some c ∧ tn (p mod n) = (p, u) ∧
         (u = Claimed ∨ u = Taken) ∧
         cell_ok k (pushed m) (claims m) (p mod n) (p, u) c.
Proof using Hk.
  intros Hi Hp. destruct (i_cell w k Hk tn m p Hi) as (c & Hc & Hok).
  pose proof (i_bounds _ _ _ _ Hi) as Hb.
  destruct (holds_turn w k Hk _ _ _ _ _ _ (i_threads _ _ _ _ Hi i) Hp) as [Ht|Ht];
    rewrite Ht in Hok; pose proof Hok as (? & ? & ? & Hu); simpl in *;
    (split; [lia|]); eexists c, _; eauto.
Qed.

(** What the loops read is a difference of small numbers. *)
Lemma enq_cell_step tn m i x p sp :
  minv w k tn m → threads m i = EnqCell x p →
  ∃ c t', cell_of k (queue m) p = Some c ∧
    thread_step w sp (queue m) (EnqCell x p) = Ok (queue m, t') ∧
    (t' = EnqCas x p ∧ sequence_ c = p ∨ t' = EnqDone false ∧ sequence_ c < p ∨ t' = EnqLoad x).
Proof using Hk.
  intros Hi Ht. pose proof (i_threads _ _ _ _ Hi i) as Hok. rewrite Ht in Hok. simpl in Hok.
  destruct (minv_small tn m p Hi Hok) as (? & ? & ? & ? & ?).
  destruct (i_cell w k Hk tn m p Hi) as (c & Hc & Hcok). exists c.
  pose proof (cell_ok_sequence w k Hk _ _ _ _ _ Hcok ltac:(apply Hi) ltac:(apply Hi)).
  simpl. rewrite (cell_at_cell_of w k Hk tn m p c Hi ltac:(lia) Hc). simpl.
  rewrite (intptr_sub_small w k Hk) by lia. simpl.
  destruct (Z.eqb_spec (sequence_ c - p) 0); [eexists; split_and!; [done..|left; split; [done|lia]]|].
  destruct (Z.ltb_spec (sequence_ c - p) 0); eexists; split_and!; [done..| |done|done|].
  - right; left. split; [done|lia].
  - by right; right.
Qed.

Lemma deq_cell_step tn m i p sp :
  minv w k tn m → threads m i = DeqCell p →
  ∃ c t', cell_of k (queue m) p = Some c ∧
    thread_step w sp (queue m) (DeqCell p) = Ok (queue m, t') ∧
    (t' = DeqCas p ∧ sequence_ c = p + 1 ∨ t' = DeqDone None ∧ sequence_ c ≤ p ∨ t' = DeqLoad).
Proof using Hk.
  intros Hi Ht. pose proof (i_threads _ _ _ _ Hi i) as Hok. rewrite Ht in Hok. simpl in Hok.
  pose proof (i_bounds _ _ _ _ Hi).
  destruct (minv_small tn m p Hi ltac:(lia)) as (? & ? & ? & ? & Hwrap).
  destruct (i_cell w k Hk tn m p Hi) as (c & Hc & Hcok). exists c.
  pose proof (cell_ok_sequence w k Hk _ _ _ _ _ Hcok ltac:(apply Hi) ltac:(apply Hi)).
  simpl. rewrite (cell_at_cell_of w k Hk tn m p c Hi ltac:(lia) Hc). simpl.
  rewrite Hwrap, (intptr_sub_small w k Hk) by lia. simpl.
  destruct (Z.eqb_spec (sequence_ c - (p + 1)) 0);
    [eexists; split_and!; [done..|left; split; [done|lia]]|].
  destruct (Z.ltb_spec (sequence_ c - (p + 1)) 0); eexists; split_and!; [done..| |done|done|].
  - right; left. split; [done|lia].
  - by right; right.
Qed.

(** Claiming a position for writing *)
Lemma minv_push tn m i x p :
  minv w k tn m → threads m i = EnqCas x p → enqueue_pos_ (queue m) = p →
  zlen (pushed m ++ [x]) + n ≤ 2 ^ (w - 1) →
  minv w k (<[p mod n := (p, Claimed)]> tn)
    (Machine (set_enqueue_pos (wrap w (p + 1)) (queue m)) (<[i := EnqWrite x p]> (threads m))
       (pushed m ++ [x]) (claims m) (popped m)).
Proof using Hk.
  intros Hi Ht Hp Hsmall. rewrite (i_enqueue _ _ _ _ Hi) in Hp. subst p.
  set (p := zlen (pushed m)) in *.
  pose proof (i_threads _ _ _ _ Hi i) as Hok. rewrite Ht in Hok.
  destruct Hok as (Hp & c & Hc & Hseq).
  pose proof (i_bounds _ _ _ _ Hi) as Hb. pose proof (capacity_bounds w k Hk).
  destruct (minv_small tn m p Hi ltac:(lia)) as (_ & _ & _ & _ & Hwrap).
  destruct (i_cell w k Hk tn m p Hi) as (c' & Hc' & Hcok). rewrite Hc in Hc'.
  injection Hc' as <-.
  pose proof (turn_of_push w k Hk _ _ _ _ Hcok Hseq ltac:(lia)) as Hturn.
  assert (Hlen : zlen (pushed m ++ [x]) = p + 1) by (rewrite zlen_app; done).
  rewrite Hturn in Hcok. destruct Hcok as (_ & _ & _ & Hs & Hroom). simpl in Hs, Hroom.
  assert (Hlk : (pushed m ++ [x]) !! Z.to_nat p = Some x).
  { rewrite lookup_app_r by (unfold p, zlen; lia).
    by replace (_ - _)%nat with O by (unfold p, zlen; lia). }
  apply (minv_update w k Hk tn m i (p mod n) _ _ _ _ _ _ (λ c, c)); try done.
  - by apply mod_in_range with w.
  - apply Hi.
  - simpl. lia.
  - simpl. apply Hi.
  - simpl. by rewrite list_alter_id.
  - lia.
  - by eexists.
  - intros c1 Hc1 _. unfold cell_of in Hc. rewrite Hc in Hc1. injection Hc1 as <-.
    split; [|done]. repeat split; simpl; lia.
  - intros l u c1 Hl. by apply cell_ok_push with w.
  - intros a p' _ Hp'. by apply (no_holder_at w k Hk tn m p Free Hi Hturn ltac:(by left) a).
  - simpl. by rewrite fn_lookup_insert.
  - simpl. congruence.
  - intros p' v Hpv. destruct (i_popped _ _ _ _ Hi p' v Hpv) as (? & ? & Hn).
    split_and!; [lia..|by apply lookup_app_l_Some| |done]. simpl. intros [=]. lia.
  - apply Hi.
  - intros p' Hp'. destruct (i_all _ _ _ _ Hi p' Hp') as [?|[a Ha]]; [by left|].
    right. right. exists a. split; [|done]. intros ->. by rewrite Ht in Ha.
Qed.

(** Claiming a position for reading *)
Lemma minv_claim tn m i p :
  minv w k tn m → threads m i = DeqCas p → dequeue_pos_ (queue m) = p →
  minv w k (<[p mod n := (p, Taken)]> tn)
    (Machine (set_dequeue_pos (wrap w (p + 1)) (queue m)) (<[i := DeqRead p]> (threads m))
       (pushed m) (claims m + 1) (popped m)).
Proof using Hk.
  intros Hi Ht Hp. rewrite (i_dequeue _ _ _ _ Hi) in Hp. subst p.
  set (p := claims m) in *.
  pose proof (i_threads _ _ _ _ Hi i) as Hok. rewrite Ht in Hok.
  destruct Hok as (Hp & c & Hc & Hseq).
  pose proof (i_bounds _ _ _ _ Hi) as Hb. pose proof (capacity_bounds w k Hk).
  destruct (minv_small tn m p Hi ltac:(lia)) as (_ & _ & _ & _ & Hwrap).
  destruct (i_cell w k Hk tn m p Hi) as (c' & Hc' & Hcok). rewrite Hc in Hc'.
  injection Hc' as <-.
  pose proof (turn_of_claim w k Hk _ _ _ _ Hcok Hseq ltac:(lia)) as Hturn.
  rewrite Hturn in Hcok. destruct Hcok as (_ & _ & Hnext & Hs & Hroom & Hdata).
  simpl in Hnext, Hs, Hroom, Hdata.
  apply (minv_update w k Hk tn m i (p mod n) _ _ _ _ _ _ (λ c, c)); try done.
  - by apply mod_in_range with w.
  - apply Hi.
  - simpl. apply Hi.
  - simpl. by rewrite list_alter_id.
  - lia.
  - apply Hi.
  - lia.
  - intros c1 Hc1 _. unfold cell_of in Hc. rewrite Hc in Hc1. injection Hc1 as <-.
    split; [|done]. repeat split; simpl; first [lia|done].
  - intros l u c1 Hl. by apply cell_ok_claim with w.
  - intros a p' _ Hp'. by apply (no_holder_at w k Hk tn m p Full Hi Hturn ltac:(by right) a).
  - simpl. by rewrite fn_lookup_insert.
  - simpl. congruence.
  - intros p' v Hpv. destruct (i_popped _ _ _ _ Hi p' v Hpv) as (? & ? & Hn).
    split_and!; [lia..|done| |done]. simpl. intros [=]. lia.
  - apply Hi.
  - intros p' Hp'. destruct (decide (p' = p)) as [->|Hne]; [by right; left|].
    destruct (i_all _ _ _ _ Hi p' ltac:(lia)) as [?|[a Ha]]; [by left|].
    right. right. exists a. split; [|done]. intros ->. by rewrite Ht in Ha.
Qed.

(** Stores to the cell of a position that is held *)
Lemma buffer_store q p f :
  buffer_mask_ q = n - 1 → 0 ≤ p < 2 ^ w →
  alter f (Z.to_nat (cell_index q p)) (buffer_ q) = alter f (Z.to_nat (p mod n)) (buffer_ q).
Proof using Hk.
  intros Hm Hp. rewrite <- (wrap_small w p Hp) at 1. by rewrite (cell_index_wrap w k) by (done || lia).
Qed.

(** A thread that goes on to hold its position, and changes its cell with [f]. *)
Lemma minv_store tn m i t' q' p f u' :
  minv w k tn m → holds (threads m i) = Some p → holds t' = Some p ∨ holds t' = None →
  (holds t' = None → u' = (p, Full)) →
  q' = set_buffer (alter f (Z.to_nat (p mod n)) (buffer_ (queue m))) (queue m) →
  (∀ c, cell_of k (queue m) p = Some c →
        cell_ok k (pushed m) (claims m) (p mod n) (tn (p mod n)) c →
        cell_ok k (pushed m) (claims m) (p mod n) u' (f c) ∧ sequence_ c ≤ sequence_ (f c)) →
  thread_ok k (<[p mod n := u']> tn) q' (pushed m) (claims m) t' →
  minv w k (<[p mod n := u']> tn)
    (Machine q' (<[i := t']> (threads m)) (pushed m) (claims m) (popped m)).
Proof using Hk.
  intros Hi Hh Hh' Hfull Hq' Hc Ht'.
  destruct (holds_bounds tn m i p Hi Hh) as (Hp & c & u & Hcell & Htn & Hu & Hcok).
  apply (minv_update w k Hk tn m i (p mod n) _ _ _ _ _ _ f);
    try (subst q'; by apply Hi); try done.
  - by apply mod_in_range with w.
  - by subst q'.
  - intros a p' Ha Hp'. by apply (other_holder_at w k Hk tn m i p Hi Hh a p').
  - intros p' Hp'. destruct Hh'; congruence.
  - intros p' v Hpv. destruct (i_popped _ _ _ _ Hi p' v Hpv) as (? & ? & Hn).
    split_and!; [lia..|done| |done]. intros Heq. apply (Hn i). destruct Hh'; congruence.
  - intros p' Hp'. destruct (decide (p' = p)) as [->|Hne].
    + destruct Hh' as [Hh'|Hh']; [by right; left|].
      rewrite (Hfull Hh') in *. destruct (Hc c Hcell) as [(_ & _ & _ & _ & Hbad & _) _].
      * by rewrite Htn.
      * simpl in Hbad. lia.
    + destruct (i_all _ _ _ _ Hi p' Hp') as [?|[a Ha]]; [by left|].
      right. right. exists a. split; [|done]. intros ->. congruence.
Qed.

Lemma minv_write tn m i x p :
  minv w k tn m → threads m i = EnqWrite x p →
  minv w k (<[p mod n := (p, Claimed)]> tn)
    (Machine (store_data p x (queue m)) (<[i := EnqPublish x p]> (threads m))
       (pushed m) (claims m) (popped m)).
Proof using Hk.
  intros Hi Ht. pose proof (i_threads _ _ _ _ Hi i) as Hok. rewrite Ht in Hok.
  assert (Hh : holds (threads m i) = Some p) by (by rewrite Ht).
  destruct Hok as [Htn Hx]. destruct (holds_bounds tn m i p Hi Hh) as (Hp & c & u & Hc & _).
  destruct (minv_small tn m p Hi ltac:(lia)) as (_ & _ & Hw & _).
  apply (minv_store tn m i _ _ p (λ c, Cell (sequence_ c) x)); try done.
  - by left.
  - unfold store_data. by rewrite buffer_store by (first [apply Hi|lia]).
  - intros c1 _. rewrite Htn. intros (? & ? & ? & ? & ?). split; [|done].
    repeat split; simpl in *; lia.
  - simpl. rewrite fn_lookup_insert. split_and!; [done..|].
    unfold cell_of, store_data, set_buffer. simpl.
    rewrite buffer_store by (first [apply Hi|lia]).
    unfold cell_of in Hc. rewrite list_lookup_alter_eq, Hc. by eexists.
Qed.

Lemma minv_publish tn m i x p :
  minv w k tn m → threads m i = EnqPublish x p →
  minv w k (<[p mod n := (p, Full)]> tn)
    (Machine (store_sequence p (wrap w (p + 1)) (queue m)) (<[i := EnqDone true]> (threads m))
       (pushed m) (claims m) (popped m)).
Proof using Hk.
  intros Hi Ht. pose proof (i_threads _ _ _ _ Hi i) as Hok. rewrite Ht in Hok.
  assert (Hh : holds (threads m i) = Some p) by (by rewrite Ht).
  destruct Hok as (Htn & Hx & c & Hc & Hdata).
  destruct (holds_bounds tn m i p Hi Hh) as (Hp & _).
  destruct (minv_small tn m p Hi ltac:(lia)) as (_ & _ & Hw & _ & Hwrap).
  apply (minv_store tn m i _ _ p (λ c, Cell (p + 1) (data_ c))); try done.
  - by right.
  - unfold store_sequence. by rewrite buffer_store, Hwrap by (first [apply Hi|lia]).
  - intros c1 Hc1. rewrite Htn. rewrite Hc in Hc1. injection Hc1 as <-.
    intros (? & ? & ? & Hs & ?). simpl in *. split; [|lia].
    repeat split; simpl; try lia. by rewrite Hdata.
Qed.

(** Releasing a cell for the next lap *)
Lemma minv_release tn m i p v :
  minv w k tn m → threads m i = DeqRelease p v →
  minv w k (<[p mod n := (p + n, Free)]> tn)
    (Machine (store_sequence p (wrap w (wrap w (p + buffer_mask_ (queue m)) + 1)) (queue m))
       (<[i := DeqDone (Some v)]> (threads m))
       (pushed m) (claims m) (popped m ++ [(p, v)])).
Proof using Hk.
  intros Hi Ht. pose proof (i_threads _ _ _ _ Hi i) as Hok. rewrite Ht in Hok.
  assert (Hh : holds (threads m i) = Some p) by (by rewrite Ht).
  destruct Hok as (Htn & Hv). pose proof (capacity_bounds w k Hk).
  pose proof (i_bounds _ _ _ _ Hi) as Hb. pose proof (i_small _ _ _ _ Hi) as Hsm.
  destruct (holds_bounds tn m i p Hi Hh) as (Hp & c & u & Hc & Htn' & Hu & Hcok).
  assert (u = Taken) as -> by congruence.
  destruct Hcok as (_ & _ & Hnext & Hseq & HD & Hdata). simpl in Hnext, Hseq, HD, Hdata.
  destruct (minv_small tn m p Hi ltac:(lia)) as (_ & _ & Hw & _ & _).
  assert (Hs : wrap w (wrap w (p + buffer_mask_ (queue m)) + 1) = p + n).
  { rewrite (i_mask _ _ _ _ Hi), wrap_add. rewrite wrap_small; lia. }
  assert (Hlap : (p + n) mod n = p mod n).
  { rewrite <- (Z.mul_1_l n) at 1. apply Z_mod_plus_full. }
  apply (minv_update w k Hk tn m i (p mod n) _ _ _ _ _ _ (λ c, Cell (p + n) (data_ c)));
    try (by apply Hi); try done.
  - by apply mod_in_range with w.
  - unfold store_sequence. simpl. by rewrite buffer_store, Hs by (first [apply Hi|lia]).
  - intros c1 Hc1 _. unfold cell_of in Hc. rewrite Hc in Hc1. injection Hc1 as <-.
    simpl. split; [|lia]. repeat split; simpl; lia.
  - intros a p' Ha Hp'. by apply (other_holder_at w k Hk tn m i p Hi Hh a p').
  - intros p' v' [Hin|Hin%list_elem_of_singleton]%elem_of_app.
    + destruct (i_popped _ _ _ _ Hi p' v' Hin) as (? & ? & Hn). by split_and!; [lia..|done| |].
    + injection Hin as -> ->. split_and!; [lia..|done|done|].
      intros a Ha Hp'. apply Ha. by apply (i_unique _ _ _ _ Hi a i p).
  - rewrite fmap_app. apply NoDup_app. split_and!; [apply Hi| |apply NoDup_singleton].
    intros p' Hin Hin'. apply list_elem_of_singleton in Hin' as ->.
    apply list_elem_of_fmap in Hin as ([p' v'] & Heq & Hin). simpl in Heq. subst p'.
    destruct (i_popped _ _ _ _ Hi p v' Hin) as (_ & _ & Hn). by apply (Hn i).
  - intros p' Hp'. destruct (decide (p' = p)) as [->|Hne].
    + left. exists v. apply elem_of_app. right. by left.
    + destruct (i_all _ _ _ _ Hi p' Hp') as [[v' Hin]|[a Ha]].
      * left. exists v'. apply elem_of_app. by left.
      * right. right. exists a. split; [|done]. intros ->. congruence.
Qed.

Lemma after_access_local m i t' :
  newly_pushed (threads m i) t' = [] → newly_claimed (threads m i) t' = 0 →
  newly_popped (threads m i) t' = [] →
  after_access i (threads m i) t' (queue m) m = set_thread i t' m.
Proof using Hk.
  intros H1 H2 H3. unfold after_access, set_thread.
  by rewrite H1, H2, H3, !app_nil_r, Z.add_0_r.
Qed.

(** Accesses that only move the thread *)
Lemma minv_move tn m i t' :
  minv w k tn m → holds t' = holds (threads m i) →
  newly_pushed (threads m i) t' = [] → newly_claimed (threads m i) t' = 0 →
  newly_popped (threads m i) t' = [] →
  thread_ok k tn (queue m) (pushed m) (claims m) t' →
  minv w k tn (after_access i (threads m i) t' (queue m) m).
Proof using Hk.
  intros Hi Hh H1 H2 H3 Hok. rewrite after_access_local by done. by apply minv_local.
Qed.

Lemma access_preserves tn m i sp q' t' :
  minv w k tn m → running (threads m i) = true →
  thread_step w sp (queue m) (threads m i) = Ok (q', t') →
  zlen (pushed (after_access i (threads m i) t' q' m)) + n ≤ 2 ^ (w - 1) →
  ∃ tn', minv w k tn' (after_access i (threads m i) t' q' m).
Proof using Hk.
  intros Hi Hrun Hstep Hsmall. pose proof (i_threads _ _ _ _ Hi i) as Hok.
  pose proof (i_bounds _ _ _ _ Hi) as Hb. pose proof (zlen_nonneg (pushed m)) as Hnn.
  destruct (threads m i) as [|x|x p|x p|x p|x p|b| |p|p|p|p v|r] eqn:Ht; try done.
  - injection Hstep as <- <-. exists tn. rewrite <- Ht. apply minv_move; rewrite ?Ht; try done.
    simpl. rewrite (i_enqueue _ _ _ _ Hi). lia.
  - destruct (enq_cell_step tn m i x p sp Hi Ht) as (c & t1 & Hc & Hs & Hcase).
    rewrite Hs in Hstep. injection Hstep as <- <-. exists tn. rewrite <- Ht.
    destruct Hcase as [[-> Hseq]|[[-> _]| ->]]; apply minv_move; rewrite ?Ht; try done.
    split; [exact Hok|]. exists c. split; [done|lia].
  - simpl in Hstep. destruct (negb sp && (enqueue_pos_ (queue m) =? p)) eqn:Hcas;
      injection Hstep as <- <-.
    + apply andb_true_iff in Hcas as [_ Hcas%Z.eqb_eq]. eexists. unfold after_access. simpl.
      rewrite Z.add_0_r, app_nil_r. by apply minv_push.
    + exists tn. rewrite <- Ht. apply minv_move; rewrite ?Ht; try done.
      simpl. rewrite (i_enqueue _ _ _ _ Hi). lia.
  - injection Hstep as <- <-. eexists. unfold after_access. simpl.
    rewrite Z.add_0_r, !app_nil_r. by apply minv_write.
  - injection Hstep as <- <-. eexists. unfold after_access. simpl.
    rewrite Z.add_0_r, !app_nil_r. eapply minv_publish; eassumption.
  - injection Hstep as <- <-. exists tn. rewrite <- Ht. apply minv_move; rewrite ?Ht; try done.
    simpl. rewrite (i_dequeue _ _ _ _ Hi). lia.
  - destruct (deq_cell_step tn m i p sp Hi Ht) as (c & t1 & Hc & Hs & Hcase).
    rewrite Hs in Hstep. injection Hstep as <- <-. exists tn. rewrite <- Ht.
    destruct Hcase as [[-> Hseq]|[[-> _]| ->]]; apply minv_move; rewrite ?Ht; try done.
    split; [exact Hok|]. exists c. split; [done|lia].
  - simpl in Hstep. destruct (negb sp && (dequeue_pos_ (queue m) =? p)) eqn:Hcas;
      injection Hstep as <- <-.
    + apply andb_true_iff in Hcas as [_ Hcas%Z.eqb_eq]. eexists. unfold after_access. simpl.
      rewrite !app_nil_r. by apply minv_claim.
    + exists tn. rewrite <- Ht. apply minv_move; rewrite ?Ht; try done.
      simpl. rewrite (i_dequeue _ _ _ _ Hi). lia.
  - assert (Hh : holds (threads m i) = Some p) by (by rewrite Ht).
    destruct (holds_bounds tn m i p Hi Hh) as (Hp & c & u & Hc & Htn & Hu & Hcok).
    destruct (minv_small tn m p Hi ltac:(lia)) as (_ & _ & Hw & _).
    simpl in Hstep, Hok. rewrite (cell_at_cell_of w k Hk tn m p c Hi ltac:(lia) Hc) in Hstep.
    injection Hstep as <- <-. exists tn. rewrite <- Ht. apply minv_move; rewrite ?Ht; try done.
    assert (u = Taken) as -> by congruence. split; [done|]. apply Hcok.
  - injection Hstep as <- <-. eexists. unfold after_access. simpl.
    rewrite Z.add_0_r, !app_nil_r. by apply minv_release.
Qed.

(** No access goes wrong. *)
Lemma access_safe tn m i sp :
  minv w k tn m → running (threads m i) = true →
  ∃ q' t', thread_step w sp (queue m) (threads m i) = Ok (q', t').
Proof using Hk.
  intros Hi Hrun. destruct (threads m i) as [|x|x p|x p|x p|x p|b| |p|p|p|p v|r] eqn:Ht;
    try done; simpl; try (by do 2 eexists); try (case_match; by do 2 eexists).
  - destruct (enq_cell_step tn m i x p sp Hi Ht) as (c & t1 & Hc & Hs & _). simpl in Hs.
    rewrite Hs. by do 2 eexists.
  - destruct (deq_cell_step tn m i p sp Hi Ht) as (c & t1 & Hc & Hs & _). simpl in Hs.
    rewrite Hs. by do 2 eexists.
  - assert (Hh : holds (threads m i) = Some p) by (by rewrite Ht).
    destruct (holds_bounds tn m i p Hi Hh) as (Hp & c & u & Hc & _).
    destruct (minv_small tn m p Hi ltac:(lia)) as (_ & _ & Hw & _).
    rewrite (cell_at_cell_of w k Hk tn m p c Hi ltac:(lia) Hc). by do 2 eexists.
Qed.

Lemma mpmc_step_pushed m m' : mpmc_step w m m' → zlen (pushed m) ≤ zlen (pushed m').
Proof using Hk.
  intros Hs. destruct Hs as [| | |m i sp q' t' Hrun Hs]; simpl; try lia.
  rewrite zlen_app. pose proof (zlen_nonneg (newly_pushed (threads m i) t')). lia.
Qed.

Lemma mpmc_step_preserves tn m m' :
  minv w k tn m → mpmc_step w m m' → zlen (pushed m') + n ≤ 2 ^ (w - 1) →
  ∃ tn', minv w k tn' m'.
Proof using Hk.
  intros Hi Hs Hb. destruct Hs as [m i x Ht|m i Ht|m i Ht|m i sp q' t' Hrun Hs].
  - exists tn. apply minv_local; [done|done|by rewrite Ht|done].
  - exists tn. apply minv_local; [done|done|by rewrite Ht|done].
  - exists tn. apply minv_local; [done|done| |done].
    by destruct (threads m i).
  - by apply (access_preserves tn m i sp q' t').
Qed.

Lemma mpmc_reachable_inv ndebug junk q m :
  mpmc_make w ndebug junk n = Ok q → rtc (mpmc_step w) (mpmc_initial q) m →
  zlen (pushed m) + n ≤ 2 ^ (w - 1) → ∃ tn, minv w k tn m.
Proof using Hk.
  intros Hq Hrun. destruct (make_repr w ndebug junk k Hk) as (q0 & Hq0 & Hr).
  assert (q0 = q) as -> by congruence.
  assert (Hinit : ∃ tn, minv w k tn (mpmc_initial q)).
  { pose proof (capacity_bounds w k Hk). destruct Hr. exists (λ i, (i, Free)).
    change (zlen (@nil T)) with 0 in *.
    assert (Hlen0 : zlen (@nil T) = 0) by done.
    split; simpl; rewrite ?Hlen0; try done; try lia.
    - intros i Hi. destruct (repr_cells i ltac:(lia)) as (c & Hc & Hcr).
      rewrite Z.mod_small in Hc by lia. exists c. split; [done|].
      unfold cell_repr in Hcr. rewrite Hlen0, (proj2 (Z.ltb_ge _ _)), wrap_small in Hcr by lia.
      repeat split; simpl; rewrite ?Hlen0; try lia. by rewrite Z.mod_small.
    - intros p v Hin. by apply elem_of_nil in Hin.
    - apply NoDup_nil_2. }
  revert Hinit Hrun. generalize (mpmc_initial q). intros m0 Hinit Hrun.
  induction Hrun as [|m0 m1 m2 Hs Hrun IH]; [done|]. intros Hb. apply IH; [|done].
  destruct Hinit as [tn Hi]. apply (mpmc_step_preserves tn m0); [done|done|].
  enough (zlen (pushed m1) ≤ zlen (pushed m2)) by lia.
  clear -Hrun Hk. induction Hrun as [|m1 m3 m2 Hs Hrun IH]; [done|].
  apply mpmc_step_pushed in Hs. lia.
Qed.
End preservation.
