(* ===== verification/MpmcConcurrentTheorems.v ===== *)
(** * The concurrent MPMC queue: the properties *)
From stdpp Require Import functions.
From S2P Require Import Prelude MpmcQueue MpmcConcurrent MpmcTheorems MpmcInvariant.

(** [m] can be reached with a queue of [2 ^ k] cells, and the positions are still
    below the sign bit. *)
Definition mpmc_reachable (w k : Z) {T} (ndebug : bool) (junk : T) (m : machine T) : Prop :=
  (∃ q, mpmc_make w ndebug junk (2 ^ k) = Ok q ∧ rtc (mpmc_step w) (mpmc_initial q) m) ∧
  zlen (pushed m) + 2 ^ k ≤ 2 ^ (w - 1).

Lemma queue_reachable_inv w k {T} (Hk : 1 ≤ k < w) ndebug (junk : T) m :
  mpmc_reachable w k ndebug junk m → ∃ tn, minv w k tn m.
Proof. intros [(q & Hq & Hrun) Hb]. by apply (mpmc_reachable_inv w k Hk ndebug junk q). Qed.

(** The items with their positions. *)
Definition with_positions {T} (l : list T) : list (Z * T) :=
  imap (λ j v, (Z.of_nat j, v)) l.

Lemma with_positions_snd {T} (l : list T) : (with_positions l).*2 = l.
Proof.
  unfold with_positions. rewrite fmap_imap.
  rewrite (imap_ext _ (const id)) by done. by rewrite imap_const, list_fmap_id.
Qed.

Lemma with_positions_elem {T} (l : list T) p v :
  (p, v) ∈ with_positions l ↔ 0 ≤ p ∧ l !! Z.to_nat p = Some v.
Proof.
  unfold with_positions. rewrite elem_of_lookup_imap. split.
  - intros (j & y & [= -> ->] & Hy). rewrite Nat2Z.id. split; [lia|done].
  - intros [Hp Hv]. exists (Z.to_nat p), v. split; [|done]. f_equal. lia.
Qed.

Lemma with_positions_nodup {T} (l : list T) : NoDup (with_positions l).
Proof.
  apply NoDup_alt. intros i j x Hi Hj. unfold with_positions in *.
  rewrite list_lookup_imap_Some in Hi, Hj.
  destruct Hi as (y & _ & ->), Hj as (z & _ & [= Heq ->]). lia.
Qed.

(** C39: Whatever number of threads enqueue and dequeue, in whatever interleaving, each
    item is delivered exactly once: an item that was returned is the one that was
    pushed at the position it was taken from, no position is taken twice, and every
    position claimed for dequeuing has been returned or is held by the thread that
    is about to return it.  Positions are taken in order, never before they have
    been pushed, and at most [2 ^ k] are pending.  When no thread is inside a
    member function, the items returned are the first ones pushed. *)
Theorem mpmc_exactly_once (w k : Z) {T : Type} (Hk : 1 ≤ k < w) (ndebug : bool) (junk : T)
    (m : machine T) (Hm : mpmc_reachable w k ndebug junk m) :
  (∀ p v, (p, v) ∈ popped m → 0 ≤ p ∧ pushed m !! Z.to_nat p = Some v) ∧
  NoDup (popped m).*1 ∧
  (∀ p, 0 ≤ p < claims m →
     (∃ v, (p, v) ∈ popped m) ∨ ∃ i, holds (threads m i) = Some p) ∧
  0 ≤ claims m ≤ zlen (pushed m) ∧ zlen (pushed m) ≤ claims m + 2 ^ k ∧
  ((∀ i, running (threads m i) = false) →
     (popped m).*2 ≡ₚ take (Z.to_nat (claims m)) (pushed m)).
Proof.
  destruct (queue_reachable_inv w k Hk ndebug junk m Hm) as [tn Hi].
  pose proof (i_bounds _ _ _ _ Hi) as [Hb1 Hb2]. split_and!; try apply Hi; try lia.
  - intros p v Hpv. destruct (i_popped _ _ _ _ Hi p v Hpv) as (? & ? & _). split; [lia|done].
  - intros Hidle. rewrite <- (with_positions_snd (take _ _)). apply fmap_Permutation.
    apply NoDup_Permutation.
    + eapply NoDup_fmap_1, (i_nodup _ _ _ _ Hi).
    + apply with_positions_nodup.
    + intros [p v]. rewrite with_positions_elem, lookup_take_Some. split.
      * intros Hpv. destruct (i_popped _ _ _ _ Hi p v Hpv) as (? & ? & _).
        split_and!; [lia|done|lia].
      * intros (Hp & Hv & Hlt). destruct (i_all _ _ _ _ Hi p ltac:(lia)) as [[v' Hin]|[i Hh]].
        -- destruct (i_popped _ _ _ _ Hi p v' Hin) as (_ & Hv' & _). by simplify_eq.
        -- specialize (Hidle i). by destruct (threads m i).
Qed.

(** C40: As long as the positions stay below the sign bit (the items that have been pushed
    and the cells together are at most [2 ^ (w - 1)], which is a part of [mpmc_reachable]),
    the data of a cell is never accessed by two threads at once, and no step of a thread goes
    wrong: the cell it accesses exists.  Beyond that bound the signed difference may overflow:
    see [mpmc_sequential_fifo]. *)
Theorem mpmc_no_races (w k : Z) {T : Type} (Hk : 1 ≤ k < w) (ndebug : bool) (junk : T)
    (m : machine T) (Hm : mpmc_reachable w k ndebug junk m) :
  (∀ i j c, accesses_data (queue m) (threads m i) = Some c →
     accesses_data (queue m) (threads m j) = Some c → i = j) ∧
  (∀ i sp, running (threads m i) = true →
     ∃ q' t', thread_step w sp (queue m) (threads m i) = Ok (q', t')).
Proof.
  destruct (queue_reachable_inv w k Hk ndebug junk m Hm) as [tn Hi].
  split; [|intros i sp; by apply (access_safe w k Hk tn)].
  assert (Hdata : ∀ i c, accesses_data (queue m) (threads m i) = Some c →
    ∃ p, holds (threads m i) = Some p ∧ c = p mod 2 ^ k).
  { intros i c Hc. assert (Hp : ∃ p, holds (threads m i) = Some p ∧ c = cell_index (queue m) p).
    { destruct (threads m i); simplify_eq/=; eauto. }
    destruct Hp as (p & Hp & ->). exists p. split; [done|].
    destruct (holds_bounds w k Hk tn m i p Hi Hp) as [Hb _].
    destruct (minv_small w k Hk tn m p Hi ltac:(lia)) as (_ & _ & Hw & <- & _).
    rewrite (cell_index_wrap w k) by (first [apply Hi|lia]).
    by rewrite wrap_small by lia. }
  intros i j c Hci Hcj.
  destruct (Hdata i c Hci) as (p & Hp & ->), (Hdata j _ Hcj) as (p' & Hp' & Heq).
  destruct (decide (j = i)) as [->|Hne]; [done|].
  exfalso. by apply (other_holder_at w k Hk tn m i p Hi Hp j p' Hne Hp').
Qed.

(** ** A run of two threads

    In [example_run] thread 0 enqueues 7, thread 1 takes it and both are back; in
    [example_writers] both are enqueuing. *)
Section example.
#[local] Abbreviation q0 := (Mpmc 2 [Cell 0 0%nat; Cell 1 0%nat] 1 0 0).

Fixpoint run_thread (fuel : nat) (i : nat) (m : machine nat) : machine nat :=
  match fuel with
  | O => m
  | S fuel =>
      match thread_step 64 false (queue m) (threads m i) with
      | Ok (q', t') =>
          if running (threads m i)
          then run_thread fuel i (after_access i (threads m i) t' q' m) else m
      | Err _ => m
      end
  end.

Lemma run_thread_steps fuel i m : rtc (mpmc_step 64) m (run_thread fuel i m).
Proof.
  revert m. induction fuel as [|fuel IH]; intros m; simpl; [done|].
  destruct (thread_step 64 false (queue m) (threads m i)) as [[q' t']|] eqn:Hs; [|done].
  destruct (running (threads m i)) eqn:Hr; [|done].
  eapply rtc_l; [by apply (step_access 64 m i false q' t')|apply IH].
Qed.

Definition example_run : machine nat :=
  let m1 := run_thread 9 0%nat (set_thread 0%nat (EnqLoad 7%nat) (mpmc_initial q0)) in
  run_thread 9 1%nat (set_thread 1%nat DeqLoad m1).

Lemma example_reachable : mpmc_reachable 64 1 false 0%nat example_run.
Proof.
  split; [|by vm_compute]. exists q0. split; [reflexivity|].
  eapply rtc_l; [by apply (step_call_enqueue 64 (mpmc_initial q0) 0%nat 7%nat)|].
  etrans; [apply (run_thread_steps 9 0%nat)|].
  eapply rtc_l; [by apply (step_call_dequeue 64 _ 1%nat)|].
  apply (run_thread_steps 9 1%nat).
Qed.

Definition example_writers : machine nat :=
  let m1 := run_thread 3 0%nat (set_thread 0%nat (EnqLoad 7%nat) (mpmc_initial q0)) in
  run_thread 3 1%nat (set_thread 1%nat (EnqLoad 8%nat) m1).

Lemma writers_reachable : mpmc_reachable 64 1 false 0%nat example_writers.
Proof.
  split; [|by vm_compute]. exists q0. split; [reflexivity|].
  eapply rtc_l; [by apply (step_call_enqueue 64 (mpmc_initial q0) 0%nat 7%nat)|].
  etrans; [apply (run_thread_steps 3 0%nat)|].
  eapply rtc_l; [by apply (step_call_enqueue 64 _ 1%nat 8%nat)|].
  apply (run_thread_steps 3 1%nat).
Qed.
End example.

Lemma mpmc_exactly_once_witness :
  popped example_run = [(0, 7%nat)] ∧
  (popped example_run).*2 ≡ₚ take (Z.to_nat (claims example_run)) (pushed example_run).
Proof.
  split; [reflexivity|].
  destruct (mpmc_exactly_once 64 1 ltac:(lia) false 0%nat example_run example_reachable)
    as (_ & _ & _ & _ & _ & Hq).
  apply Hq. intros [|[|i]]; reflexivity.
Defined.

(** Threads 0 and 1 have claimed positions 0 and 1 and are about to write. *)
Lemma mpmc_no_races_witness :
  accesses_data (queue example_writers) (threads example_writers 0%nat) = Some 0 ∧
  (¬ accesses_data (queue example_writers) (threads example_writers 1%nat) = Some 0) ∧
  ∃ q' t', thread_step 64 false (queue example_writers) (threads example_writers 1%nat)
    = Ok (q', t').
Proof.
  destruct (mpmc_no_races 64 1 ltac:(lia) false 0%nat example_writers writers_reachable)
    as [Hrace Hstep].
  split_and!; [reflexivity| |by apply Hstep].
  intros H. discriminate (Hrace 0%nat 1%nat 0 eq_refl H).
Defined.
