(* ===== verification/ReaderWriterQueue.v ===== *)
(** * moodycamel::ReaderWriterQueue (src/externals/include/moodycamel/readerwriterqueue.h)

    A queue of queues: a ring of blocks, each a circular buffer.  [heap] holds the
    blocks of the queue by address; addresses are not reused, 0 is nullptr, and
    [malloc n] says whether the n-th request for memory succeeds.  A slot of a block
    is [None] when no object lives in it; [lost] counts the objects whose memory was
    used for another one or freed while they lived.  An access to a block that does
    not exist is [use_after_free], to an object that does not exist [dead_object].

    The loads and stores of the atomics are those of one thread; the fences have no
    effect on it. *)
From stdpp Require Import gmap.
From S2P Require Import Prelude Lifetime.

#[local] Open Scope Z_scope.

(** ** Arithmetic on size_t *)

(** The loop of [ceilToPow2]: for (i = 1; i < sizeof(size_t); i <<= 1). *)
Fixpoint smear_bytes (fuel : nat) (i x : Z) : Z :=
  match fuel with
  | O => x
  | S fuel =>
      if i <? 8 then smear_bytes fuel (u64 (Z.shiftl i 1)) (Z.lor x (Z.shiftr x (Z.shiftl i 3)))
      else x
  end.

Definition ceilToPow2 (x : Z) : Z :=
  let x := u64 (x - 1) in
  let x := Z.lor x (Z.shiftr x 1) in
  let x := Z.lor x (Z.shiftr x 2) in
  let x := Z.lor x (Z.shiftr x 4) in
  let x := smear_bytes 4 1 x in
  u64 (x + 1).

(** [align_for<U>]: the first address from [ptr] on that is a multiple of the
    alignment. *)
Definition align_for (alignment ptr : Z) : Z :=
  ptr + (alignment - ptr mod alignment) mod alignment.

(** Where [make_block] puts things in the memory it gets: the number of bytes it asks
    for, and the addresses of the block and of its elements. *)
Definition block_bytes (sizeof_Block alignof_Block sizeof_T alignof_T capacity : Z) : Z :=
  u64 (u64 (sizeof_Block + alignof_Block - 1) + u64 (sizeof_T * capacity) + alignof_T - 1).

Definition block_layout (sizeof_Block alignof_Block alignof_T raw : Z) : Z * Z :=
  let aligned := align_for alignof_Block raw in
  (aligned, align_for alignof_T (aligned + sizeof_Block)).

(** ** Blocks *)
Record Block (T : Type) := mkBlock {
  front : Z;         (* elements are read from here *)
  localTail : Z;     (* the consumer's copy of tail *)
  tail : Z;          (* elements are enqueued here *)
  localFront : Z;    (* the producer's copy of front *)
  next : nat;
  data : list (option T);
  sizeMask : Z
}.
Arguments mkBlock {T} _ _ _ _ _ _ _.
Arguments front {T} _.
Arguments localTail {T} _.
Arguments tail {T} _.
Arguments localFront {T} _.
Arguments next {T} _.
Arguments data {T} _.
Arguments sizeMask {T} _.

(** [Block::Block]; its buffer is raw memory. *)
Definition Block_new {T} (size : Z) : Block T :=
  mkBlock 0 0 0 0 0%nat (replicate (Z.to_nat size) None) (u64 (size - 1)).

Definition set_front {T} (z : Z) (b : Block T) : Block T :=
  mkBlock z (localTail b) (tail b) (localFront b) (next b) (data b) (sizeMask b).
Definition set_localTail {T} (z : Z) (b : Block T) : Block T :=
  mkBlock (front b) z (tail b) (localFront b) (next b) (data b) (sizeMask b).
Definition set_tail {T} (z : Z) (b : Block T) : Block T :=
  mkBlock (front b) (localTail b) z (localFront b) (next b) (data b) (sizeMask b).
Definition set_localFront {T} (z : Z) (b : Block T) : Block T :=
  mkBlock (front b) (localTail b) (tail b) z (next b) (data b) (sizeMask b).
Definition set_next {T} (p : nat) (b : Block T) : Block T :=
  mkBlock (front b) (localTail b) (tail b) (localFront b) p (data b) (sizeMask b).
Definition set_data {T} (d : list (option T)) (b : Block T) : Block T :=
  mkBlock (front b) (localTail b) (tail b) (localFront b) (next b) d (sizeMask b).

(** ** The queue *)
Record ReaderWriterQueue (T : Type) := mkQueue {
  frontBlock : nat;
  tailBlock : nat;
  largestBlockSize : Z;
  enqueuing : bool;
  dequeuing : bool;
  heap : gmap nat (Block T);
  mallocs : nat;
  lost : nat
}.
Arguments mkQueue {T} _ _ _ _ _ _ _ _.
Arguments frontBlock {T} _.
Arguments tailBlock {T} _.
Arguments largestBlockSize {T} _.
Arguments enqueuing {T} _.
Arguments dequeuing {T} _.
Arguments heap {T} _.
Arguments mallocs {T} _.
Arguments lost {T} _.

(** The memory of a queue that is about to be constructed. *)
Definition raw_queue {T} : ReaderWriterQueue T := mkQueue 0 0 0 false false ∅ 0 0.

Definition set_frontBlock {T} (p : nat) (q : ReaderWriterQueue T) : ReaderWriterQueue T :=
  mkQueue p (tailBlock q) (largestBlockSize q) (enqueuing q) (dequeuing q) (heap q) (mallocs q)
    (lost q).
Definition set_tailBlock {T} (p : nat) (q : ReaderWriterQueue T) : ReaderWriterQueue T :=
  mkQueue (frontBlock q) p (largestBlockSize q) (enqueuing q) (dequeuing q) (heap q) (mallocs q)
    (lost q).
Definition set_largest {T} (z : Z) (q : ReaderWriterQueue T) : ReaderWriterQueue T :=
  mkQueue (frontBlock q) (tailBlock q) z (enqueuing q) (dequeuing q) (heap q) (mallocs q)
    (lost q).
Definition set_enqueuing {T} (b : bool) (q : ReaderWriterQueue T) : ReaderWriterQueue T :=
  mkQueue (frontBlock q) (tailBlock q) (largestBlockSize q) b (dequeuing q) (heap q) (mallocs q)
    (lost q).
Definition set_dequeuing {T} (b : bool) (q : ReaderWriterQueue T) : ReaderWriterQueue T :=
  mkQueue (frontBlock q) (tailBlock q) (largestBlockSize q) (enqueuing q) b (heap q) (mallocs q)
    (lost q).
Definition set_heap {T} (h : gmap nat (Block T)) (q : ReaderWriterQueue T) :
    ReaderWriterQueue T :=
  mkQueue (frontBlock q) (tailBlock q) (largestBlockSize q) (enqueuing q) (dequeuing q) h
    (mallocs q) (lost q).
Definition set_mallocs {T} (n : nat) (q : ReaderWriterQueue T) : ReaderWriterQueue T :=
  mkQueue (frontBlock q) (tailBlock q) (largestBlockSize q) (enqueuing q) (dequeuing q) (heap q)
    n (lost q).
Definition set_lost {T} (n : nat) (q : ReaderWriterQueue T) : ReaderWriterQueue T :=
  mkQueue (frontBlock q) (tailBlock q) (largestBlockSize q) (enqueuing q) (dequeuing q) (heap q)
    (mallocs q) n.

Section memory.
Context {X T : Type}.
#[local] Abbreviation Q := (ReaderWriterQueue T).

(** *ptr *)
Definition load_block (p : nat) : M X Q (Block T) := fun q =>
  match heap q !! p with
  | Some b => Ok (q, Returns b)
  | None => Err use_after_free
  end.

(** ptr->member = ... *)
Definition modify_block (p : nat) (f : Block T → Block T) : M X Q unit := fun q =>
  match heap q !! p with
  | Some b => Ok (set_heap (<[p := f b]> (heap q)) q, Returns tt)
  | None => Err use_after_free
  end.

(** [assert], which a release build does not check. *)
Definition massert (ndebug b : bool) : M X Q unit := fun q =>
  match cassert ndebug b with Ok _ => Ok (q, Returns tt) | Err f => Err f end.

(** The slot of a block at an index. *)
Definition slot_at (i : Z) (b : Block T) : result (option T) := vector_at (data b) i.

(** An object has been constructed in the slot. *)
Definition place_at (p : nat) (i : Z) (x : T) : M X Q unit := fun q =>
  match heap q !! p with
  | None => Err use_after_free
  | Some b =>
      match slot_at i b with
      | Ok o =>
          Ok (set_lost (lost q + match o with Some _ => 1 | None => 0 end)%nat
                (set_heap (<[p := set_data (<[Z.to_nat i := Some x]> (data b)) b]> (heap q)) q),
              Returns tt)
      | Err f => Err f
      end
  end.

(** The object in the slot, *element. *)
Definition element_at (p : nat) (i : Z) : M X Q T := fun q =>
  match heap q !! p with
  | None => Err use_after_free
  | Some b =>
      match slot_at i b with
      | Ok (Some x) => Ok (q, Returns x)
      | Ok None => Err dead_object
      | Err f => Err f
      end
  end.

(** The object a pointer from [peek] points to. *)
Definition pointee (q : Q) (a : nat * Z) : option T :=
  b ← heap q !! a.1; match slot_at a.2 b with Ok o => o | Err _ => None end.

(** The object in the slot has a new value, or has been destroyed. *)
Definition set_slot (p : nat) (i : Z) (o : option T) : M X Q unit :=
  modify_block p (fun b => set_data (<[Z.to_nat i := o]> (data b)) b).

(** element->~T() *)
Definition destroy_at (p : nat) (i : Z) : M X Q unit :=
  element_at p i ;; set_slot p i None.

(** The destructor of a [ReentrantGuard] runs however the function is left. *)
Definition ReentrantGuard (ndebug : bool) (flag : Q → bool) (set : bool → Q → Q)
    {R A : Type} (m : M X (Q * R) A) : M X (Q * R) A :=
  if ndebug then m
  else
    b ← gets (fun '(q, _) => flag q);
    on_fst (massert ndebug (negb b)) ;;
    modify (fun '(q, r) => (set true q, r)) ;;
    a ← on_throw (modify (fun '(q, r) => (set false q, r))) m;
    modify (fun '(q, r) => (set false q, r)) ;;
    mret a.
End memory.

Section queue.
Context {X T : Type} `{!CppType X T}.
(** MAX_BLOCK_SIZE, the build, the memory allocator and the exception it is answered
    with; the sizes and alignments the compiler chooses. *)
Context (MAX_BLOCK_SIZE : Z) (ndebug : bool) (malloc : nat → Z → bool) (bad_alloc : X).
Context (sizeof_Block alignof_Block sizeof_T alignof_T : Z).
#[local] Abbreviation Q := (ReaderWriterQueue T).

(** [make_block]: the address of the new block, 0 if there is no memory.  The block has room
    for [capacity] elements, which is so if its size in bytes does not wrap
    ([block_layout_fits]): the theorems are about types and block sizes for which it does not. *)
Definition make_block (capacity : Z) : M X Q nat := fun q =>
  let size := block_bytes sizeof_Block alignof_Block sizeof_T alignof_T capacity in
  let p := S (mallocs q) in
  if malloc (mallocs q) size
  then Ok (set_mallocs p (set_heap (<[p := Block_new capacity]> (heap q)) q), Returns p)
  else Ok (set_mallocs p q, Returns 0%nat).

Definition throw_bad_alloc {A} : M X Q A := fun q => Ok (q, Throws bad_alloc).

(** The loop of the constructor; the first argument counts what is left to do. *)
Fixpoint initial_blocks (n : nat) (firstBlock lastBlock : nat) : M X Q nat :=
  match n with
  | O => mret firstBlock
  | S n =>
      size ← gets largestBlockSize;
      block ← make_block size;
      if bool_decide (block = 0%nat) then throw_bad_alloc
      else
        firstBlock ← (if bool_decide (firstBlock = 0%nat) then mret block
                      else modify_block lastBlock (set_next block) ;; mret firstBlock);
        modify_block block (set_next firstBlock) ;;
        initial_blocks n firstBlock block
  end.

Definition initialBlockCount (maxSize : Z) : Z :=
  u64 (u64 (maxSize + u64 (MAX_BLOCK_SIZE * 2)) - 3) / u64 (MAX_BLOCK_SIZE - 1).

Definition queue_ctor (maxSize : Z) : M X Q unit :=
  massert ndebug (0 <? maxSize) ;;
  massert ndebug (MAX_BLOCK_SIZE =? ceilToPow2 MAX_BLOCK_SIZE) ;;
  massert ndebug (2 <=? MAX_BLOCK_SIZE) ;;
  modify (set_largest (ceilToPow2 (u64 (maxSize + 1)))) ;;
  size ← gets largestBlockSize;
  firstBlock ←
    (if u64 (MAX_BLOCK_SIZE * 2) <? size then
       if MAX_BLOCK_SIZE =? 1 then fail division_by_zero
       else
         modify (set_largest MAX_BLOCK_SIZE) ;;
         initial_blocks (Z.to_nat (initialBlockCount maxSize)) 0 0
     else
       firstBlock ← make_block size;
       if bool_decide (firstBlock = 0%nat) then throw_bad_alloc
       else modify_block firstBlock (set_next firstBlock) ;; mret firstBlock);
  modify (set_frontBlock firstBlock) ;;
  modify (set_tailBlock firstBlock).

(** ** Destruction *)
Fixpoint destroy_elements (fuel : nat) (p : nat) (i blockTail : Z) : M X Q unit :=
  if i =? blockTail then mret tt
  else
    match fuel with
    | O => fail out_of_fuel
    | S fuel =>
        destroy_at p i ;;
        b ← load_block p;
        destroy_elements fuel p (Z.land (u64 (i + 1)) (sizeMask b)) blockTail
    end.

(** The objects that live in a block. *)
Definition live_objects (b : Block T) : list T := omap id (data b).

(** block->~Block(); std::free(rawBlock); *)
Definition free_block (p : nat) : M X Q unit := fun q =>
  match heap q !! p with
  | Some b =>
      Ok (set_lost (lost q + length (live_objects b))%nat (set_heap (delete p (heap q)) q),
          Returns tt)
  | None => Err use_after_free
  end.

(** do ... while (block != frontBlock_) *)
Fixpoint destroy_blocks (fuel : nat) (block frontBlock_ : nat) : M X Q unit :=
  match fuel with
  | O => fail out_of_fuel
  | S fuel =>
      b ← load_block block;
      destroy_elements (length (data b)) block (front b) (tail b) ;;
      free_block block ;;
      if bool_decide (next b = frontBlock_) then mret tt
      else destroy_blocks fuel (next b) frontBlock_
  end.

Definition queue_dtor : M X Q unit :=
  frontBlock_ ← gets frontBlock;
  n ← gets (fun q => size (heap q));
  destroy_blocks n frontBlock_ frontBlock_.

(** ** Enqueuing *)

(** new (location) T(std::forward<U>(element)) *)
Definition construct_from (c : category) (p : nat) (i : Z) : M X (Q * T) unit := fun '(q, x) =>
  match forward_ctor c x with
  | (x', Returns y) =>
      match place_at (X := X) p i y q with
      | Ok (q', r) => Ok ((q', x'), r)
      | Err f => Err f
      end
  | (x', Throws e) => Ok ((q, x'), Throws e)
  end.

(** There is room in the tail block. *)
Definition enqueue_here (c : category) (tailBlock_ : nat) (blockTail nextBlockTail : Z) :
    M X (Q * T) bool :=
  construct_from c tailBlock_ blockTail ;;
  on_fst (modify_block tailBlock_ (set_tail nextBlockTail)) ;;
  mret true.

(** The tail block is full, but there is a free block ahead. *)
Definition enqueue_next (c : category) (tailBlockNext : nat) : M X (Q * T) bool :=
  b ← on_fst (load_block tailBlockNext);
  let nextBlockFront := front b in
  on_fst (modify_block tailBlockNext (set_localFront nextBlockFront)) ;;
  let nextBlockTail := tail b in
  on_fst (massert ndebug (nextBlockFront =? nextBlockTail)) ;;
  on_fst (modify_block tailBlockNext (set_localFront nextBlockFront)) ;;
  construct_from c tailBlockNext nextBlockTail ;;
  on_fst (modify_block tailBlockNext
            (set_tail (Z.land (u64 (nextBlockTail + 1)) (sizeMask b)))) ;;
  modify (fun '(q, x) => (set_tailBlock tailBlockNext q, x)) ;;
  mret true.

(** The tail block is full and there is no free block ahead: create a new block. *)
Definition enqueue_new (c : category) (tailBlock_ : nat) : M X (Q * T) bool :=
  largest ← gets (fun '(q, _) => largestBlockSize q);
  let newBlockSize := if MAX_BLOCK_SIZE <=? largest then largest else u64 (largest * 2) in
  newBlock ← on_fst (make_block newBlockSize);
  if bool_decide (newBlock = 0%nat) then mret false
  else
    modify (fun '(q, x) => (set_largest newBlockSize q, x)) ;;
    construct_from c newBlock 0 ;;
    b ← on_fst (load_block newBlock);
    on_fst (massert ndebug (front b =? 0)) ;;
    on_fst (modify_block newBlock (fun b => set_tail 1 (set_localTail 1 b))) ;;
    b ← on_fst (load_block tailBlock_);
    on_fst (modify_block newBlock (set_next (next b))) ;;
    on_fst (modify_block tailBlock_ (set_next newBlock)) ;;
    modify (fun '(q, x) => (set_tailBlock newBlock q, x)) ;;
    mret true.

(** What [inner_enqueue] does under its guard. *)
Definition enqueue_element (canAlloc : bool) (c : category) : M X (Q * T) bool :=
  tailBlock_ ← gets (fun '(q, _) => tailBlock q);
  b ← on_fst (load_block tailBlock_);
  let blockTail := tail b in
  let nextBlockTail := Z.land (u64 (blockTail + 1)) (sizeMask b) in
  room ← (if negb (nextBlockTail =? localFront b) then mret true
          else on_fst (modify_block tailBlock_ (set_localFront (front b))) ;;
               mret (negb (nextBlockTail =? front b)));
  if (room : bool) then enqueue_here c tailBlock_ blockTail nextBlockTail
  else
    frontBlock_ ← gets (fun '(q, _) => frontBlock q);
    if bool_decide (next b ≠ frontBlock_) then enqueue_next c (next b)
    else if canAlloc then enqueue_new c tailBlock_
    else mret false.

Definition inner_enqueue (canAlloc : bool) (c : category) : M X (Q * T) bool :=
  ReentrantGuard ndebug enqueuing set_enqueuing (enqueue_element canAlloc c).

Definition try_enqueue (c : category) : M X (Q * T) bool := inner_enqueue false c.

Definition enqueue (c : category) : M X (Q * T) bool := inner_enqueue true c.
End queue.

(** ** Dequeuing

    [U] is the type of the variable that takes the result, and [assign_result] its
    assignment from a [T &&]: what the two objects are afterwards, and whether it
    returned. *)
Section consumer.
Context {X T U : Type} (ndebug : bool) (assign_result : U → T → U * T * completion X unit).
#[local] Abbreviation Q := (ReaderWriterQueue T).

(** blockFront != blockTail || blockFront != (frontBlock_->localTail =
    frontBlock_->tail.load()) *)
Definition non_empty_front {R} (frontBlock_ : nat) (b : Block T) : M X (Q * R) bool :=
  if negb (front b =? localTail b) then mret true
  else
    on_fst (modify_block frontBlock_ (set_localTail (tail b))) ;;
    mret (negb (front b =? tail b)).

(** blockTail = frontBlock_->localTail = frontBlock_->tail.load(), and the comparison
    of blockFront with blockTail. *)
Definition reload_front {R} (frontBlock_ : nat) : M X (Q * R) (Block T) :=
  b ← on_fst (load_block frontBlock_);
  on_fst (modify_block frontBlock_ (set_localTail (tail b))) ;;
  mret b.

(** result = std::move( *element); element->~T(); *)
Definition move_result (p : nat) (i : Z) : M X (Q * U) unit :=
  x ← on_fst (element_at p i);
  (fun '(q, r) =>
     let '(r', x', c) := assign_result r x in
     match set_slot (X := X) p i (Some x') q with
     | Ok (q', _) => Ok ((q', r'), c)
     | Err f => Err f
     end) ;;
  on_fst (destroy_at p i).

(** frontBlock_->front = (blockFront + 1) & frontBlock_->sizeMask *)
Definition advance_front {R} (p : nat) (blockFront : Z) : M X (Q * R) unit :=
  b ← on_fst (load_block p);
  on_fst (modify_block p (set_front (Z.land (u64 (blockFront + 1)) (sizeMask b)))).

(** [try_dequeue] and [pop] under their guards; they differ in how they take the
    element. *)
Definition consume {R} (take : nat → Z → M X (Q * R) unit) : M X (Q * R) bool :=
  frontBlock_ ← gets (fun '(q, _) => frontBlock q);
  b ← on_fst (load_block frontBlock_);
  ne ← non_empty_front frontBlock_ b;
  if (ne : bool) then
    take frontBlock_ (front b) ;;
    advance_front frontBlock_ (front b) ;;
    mret true
  else
    tailBlock_ ← gets (fun '(q, _) => tailBlock q);
    if bool_decide (frontBlock_ ≠ tailBlock_) then
      frontBlock_ ← gets (fun '(q, _) => frontBlock q);
      b ← reload_front frontBlock_;
      if negb (front b =? tail b) then
        take frontBlock_ (front b) ;;
        advance_front frontBlock_ (front b) ;;
        mret true
      else
        let nextBlock := next b in
        b' ← on_fst (load_block nextBlock);
        let nextBlockFront := front b' in
        let nextBlockTail := tail b' in
        on_fst (modify_block nextBlock (set_localTail nextBlockTail)) ;;
        on_fst (massert ndebug (negb (nextBlockFront =? nextBlockTail))) ;;
        modify (fun '(q, r) => (set_frontBlock nextBlock q, r)) ;;
        take nextBlock nextBlockFront ;;
        advance_front nextBlock nextBlockFront ;;
        mret true
    else mret false.

Definition try_dequeue : M X (Q * U) bool :=
  ReentrantGuard ndebug dequeuing set_dequeuing (consume move_result).

Definition pop {R} : M X (Q * R) bool :=
  ReentrantGuard ndebug dequeuing set_dequeuing (consume (fun p i => on_fst (destroy_at p i))).

(** A pointer to an element: its block and its index. *)
Definition peek_element {R} : M X (Q * R) (option (nat * Z)) :=
  frontBlock_ ← gets (fun '(q, _) => frontBlock q);
  b ← on_fst (load_block frontBlock_);
  ne ← non_empty_front frontBlock_ b;
  if (ne : bool) then mret (Some (frontBlock_, front b))
  else
    tailBlock_ ← gets (fun '(q, _) => tailBlock q);
    if bool_decide (frontBlock_ ≠ tailBlock_) then
      frontBlock_ ← gets (fun '(q, _) => frontBlock q);
      b ← reload_front frontBlock_;
      if negb (front b =? tail b) then mret (Some (frontBlock_, front b))
      else
        let nextBlock := next b in
        b' ← on_fst (load_block nextBlock);
        let nextBlockFront := front b' in
        on_fst (massert ndebug (negb (nextBlockFront =? tail b'))) ;;
        mret (Some (nextBlock, nextBlockFront))
    else mret None.

Definition peek {R} : M X (Q * R) (option (nat * Z)) :=
  ReentrantGuard ndebug dequeuing set_dequeuing peek_element.

(** do ... while (block != frontBlock_) *)
Fixpoint count_blocks (fuel : nat) (result : Z) (block frontBlock_ : nat) : M X Q Z :=
  match fuel with
  | O => fail out_of_fuel
  | S fuel =>
      b ← load_block block;
      let result := u64 (result + Z.land (u64 (tail b - front b)) (sizeMask b)) in
      if bool_decide (next b = frontBlock_) then mret result
      else count_blocks fuel result (next b) frontBlock_
  end.

Definition size_approx : M X Q Z :=
  frontBlock_ ← gets frontBlock;
  n ← gets (fun q => size (heap q));
  count_blocks n 0 frontBlock_ frontBlock_.
End consumer.
