(* ===== verification/RwqBlocks.v ===== *)
(** * The blocks of a ReaderWriterQueue

    Bit tricks of ceilToPow2, alignment, and circular buffers: [block_at] says that
    a block is a buffer of [cap] slots that holds a list.  Positions are counted
    without wrapping; [F] is the position of the first element, [LT] and [LF] those
    the consumer and the producer have last seen of the other one's index. *)
From stdpp Require Import gmap.
From S2P Require Import Prelude Lifetime ReaderWriterQueue.

#[local] Open Scope Z_scope.

(** A power of two that fits a size_t, and at least 2. *)
Definition cap_ok (cap : Z) : Prop := ∃ k, 1 ≤ k < 64 ∧ cap = 2 ^ k.

Lemma cap_ok_bounds cap : cap_ok cap → 2 ≤ cap ≤ 2 ^ 63.
Proof.
  intros (k & Hk & ->). split.
  - change 2 with (2 ^ 1) at 1. apply Z.pow_le_mono_r; lia.
  - apply Z.pow_le_mono_r; lia.
Qed.

Lemma land_mask cap z : cap_ok cap → Z.land (u64 z) (cap - 1) = z mod cap.
Proof.
  intros (k & Hk & ->). replace (2 ^ k - 1) with (Z.ones k) by (rewrite Z.ones_equiv; lia).
  rewrite Z.land_ones by lia. unfold u64. apply Z.mod_mod_divide.
  exists (2 ^ (64 - k)). rewrite <- Z.pow_add_r by lia. f_equal. lia.
Qed.

Lemma next_index cap p : cap_ok cap → Z.land (u64 (p mod cap + 1)) (cap - 1) = (p + 1) mod cap.
Proof.
  intros Hc. pose proof (cap_ok_bounds cap Hc). rewrite (land_mask _ _ Hc).
  by rewrite Zplus_mod_idemp_l.
Qed.

Lemma index_difference cap p r : cap_ok cap → 0 ≤ r - p < cap →
  Z.land (u64 (r mod cap - p mod cap)) (cap - 1) = r - p.
Proof.
  intros Hc Hb. rewrite (land_mask _ _ Hc), <- Zminus_mod. by apply Z.mod_small.
Qed.

(** Positions less than [cap] apart are equal if their indices are. *)
Lemma index_inj cap p r : 0 < cap → p ≤ r < p + cap → p mod cap = r mod cap → p = r.
Proof.
  intros Hc Hb Hm. pose proof (Z.div_mod p cap ltac:(lia)).
  pose proof (Z.div_mod r cap ltac:(lia)).
  assert (r / cap = p / cap) by nia. nia.
Qed.

Lemma index_eqb cap p r : 0 < cap → p ≤ r < p + cap → (p mod cap =? r mod cap) = (p =? r).
Proof.
  intros Hc Hb. apply eq_bool_prop_intro. rewrite !Is_true_true, !Z.eqb_eq.
  split; [by apply index_inj|by intros ->].
Qed.

(** ** ceilToPow2

    [y] is [x] smeared over [k] bits: a bit of [y] is set if one of the [k] bits of [x]
    from there on is. *)
Definition smeared (k x y : Z) : Prop :=
  0 ≤ y ∧ ∀ i, 0 ≤ i → Z.testbit y i = true ↔ ∃ j, 0 ≤ j < k ∧ Z.testbit x (i + j) = true.

Lemma smeared_start x : 0 ≤ x → smeared 1 x x.
Proof.
  intros Hx. split; [done|]. intros i Hi. split.
  - intros Hb. exists 0. rewrite Z.add_0_r. auto with lia.
  - intros (j & Hj & Hb). by replace j with 0 in Hb by lia; rewrite Z.add_0_r in Hb.
Qed.

Lemma smear_step k x y : 0 ≤ k → smeared k x y → smeared (2 * k) x (Z.lor y (Z.shiftr y k)).
Proof.
  intros Hk [Hy Hs]. split.
  - apply Z.lor_nonneg. split; [done|by apply Z.shiftr_nonneg].
  - intros i Hi. rewrite Z.lor_spec, Z.shiftr_spec, orb_true_iff by lia.
    rewrite (Hs i), (Hs (i + k)) by lia. split.
    + intros [(j & Hj & Hb)|(j & Hj & Hb)]; [exists j; auto with lia|].
      exists (k + j). rewrite Z.add_assoc. auto with lia.
    + intros (j & Hj & Hb). destruct (decide (j < k)); [left; exists j; auto with lia|].
      right. exists (j - k). split; [lia|]. by replace (i + k + (j - k)) with (i + j) by lia.
Qed.

Lemma smeared_all x y : 0 < x < 2 ^ 64 → smeared 64 x y → y = 2 ^ (Z.log2 x + 1) - 1.
Proof.
  intros Hx [Hy Hs]. pose proof (Z.log2_nonneg x).
  assert (Hlog : Z.log2 x < 64) by (apply Z.log2_lt_pow2; lia).
  transitivity (Z.ones (Z.log2 x + 1)); [|rewrite Z.ones_equiv; lia].
  apply Z.bits_inj'. intros i Hi.
  apply eq_bool_prop_intro. rewrite !Is_true_true, Hs, Z.ones_spec_iff by lia. split.
  - intros (j & Hj & Hb). destruct (decide (i + j ≤ Z.log2 x)); [lia|].
    rewrite Z.bits_above_log2 in Hb by lia. done.
  - intros Hle. exists (Z.log2 x - i). split; [lia|].
    replace (i + (Z.log2 x - i)) with (Z.log2 x) by lia. by apply Z.bit_log2; lia.
Qed.

Lemma smear_bytes_spec x y : smeared 8 x y → smeared 64 x (smear_bytes 4 1 y).
Proof.
  intros Hs. apply (smear_step 8) in Hs; [|done]. apply (smear_step (2 * 8)) in Hs; [|done].
  apply (smear_step (2 * (2 * 8))) in Hs; [|done]. exact Hs.
Qed.

Lemma ceilToPow2_eq x : 1 ≤ x ≤ 2 ^ 63 → ceilToPow2 x = 2 ^ Z.log2_up x.
Proof.
  intros Hx. unfold ceilToPow2. rewrite (u64_small (x - 1)) by lia.
  destruct (decide (x = 1)) as [->|Hne]; [reflexivity|].
  assert (Hs : smeared 64 (x - 1) (smear_bytes 4 1
    (let y := Z.lor (x - 1) (Z.shiftr (x - 1) 1) in
     let y := Z.lor y (Z.shiftr y 2) in Z.lor y (Z.shiftr y 4)))).
  { apply smear_bytes_spec. apply (smear_step 4); [done|]. apply (smear_step 2); [done|].
    apply (smear_step 1); [done|]. apply smeared_start. lia. }
  apply smeared_all in Hs; [|lia]. cbv zeta in Hs |- *. rewrite Hs.
  rewrite Z.log2_up_eqn by lia.
  assert (Z.log2 (x - 1) < 63) by (apply Z.log2_lt_pow2; lia).
  pose proof (Z.log2_nonneg (x - 1)).
  replace (Z.pred x) with (x - 1) by lia. rewrite Z.sub_add.
  apply u64_small. split; [apply Z.pow_nonneg; lia|].
  change (Z.succ (Z.log2 (x - 1))) with (Z.log2 (x - 1) + 1).
  apply Z.pow_lt_mono_r; lia.
Qed.

(** ** Alignment *)
Lemma align_for_spec a p : 0 < a → align_for a p mod a = 0 ∧ p ≤ align_for a p < p + a.
Proof.
  intros Ha. unfold align_for. pose proof (Z.mod_pos_bound p a Ha).
  pose proof (Z.mod_pos_bound (a - p mod a) a Ha). split; [|lia].
  rewrite Zplus_mod_idemp_r, Z.add_sub_assoc, Zminus_mod_idemp_r.
  replace (p + a - p) with (1 * a) by lia. apply Z.mod_mul. lia.
Qed.

(** The block and its elements are aligned and fit into what [make_block] asks for, if
    the number of bytes does not overflow. *)
Lemma block_layout_fits sizeof_B alignof_B sizeof_T alignof_T cap raw :
  0 ≤ sizeof_B → 0 < alignof_B → 0 ≤ sizeof_T → 0 < alignof_T → 0 ≤ cap →
  sizeof_B + alignof_B + sizeof_T * cap + alignof_T ≤ 2 ^ 64 →
  let '(block, elements) := block_layout sizeof_B alignof_B alignof_T raw in
  raw ≤ block ∧ block mod alignof_B = 0 ∧
  block + sizeof_B ≤ elements ∧ elements mod alignof_T = 0 ∧
  elements + sizeof_T * cap ≤ raw + block_bytes sizeof_B alignof_B sizeof_T alignof_T cap.
Proof.
  intros ? Hb ? Ht ? Hfit. unfold block_layout, block_bytes. cbv zeta.
  assert (0 ≤ sizeof_T * cap) by nia.
  rewrite (u64_small (sizeof_B + alignof_B - 1)), (u64_small (sizeof_T * cap)), u64_small by lia.
  pose proof (align_for_spec alignof_B raw Hb).
  pose proof (align_for_spec alignof_T (align_for alignof_B raw + sizeof_B) Ht).
  split_and!; try tauto; lia.
Qed.

Section blocks.
Context {T : Type}.

(** A slot after it has been changed. *)
Lemma slot_at_set i (b : Block T) (o : option T) y :
  slot_at i b = Ok o → slot_at i (set_data (<[Z.to_nat i := y]> (data b)) b) = Ok y.
Proof.
  unfold slot_at, vector_at. simpl. destruct (data b !! Z.to_nat i) eqn:E; [|done]. intros _.
  rewrite list_lookup_insert_eq; [done|]. by eapply lookup_lt_Some.
Qed.

Record block_at (cap : Z) (xs : list T) (F LT LF : Z) (b : Block T) : Prop := BlockAt {
  ba_cap : cap_ok cap;
  ba_mask : sizeMask b = cap - 1;
  ba_data : zlen (data b) = cap;
  ba_front : front b = F mod cap;
  ba_localTail : localTail b = LT mod cap;
  ba_tail : tail b = (F + zlen xs) mod cap;
  ba_localFront : localFront b = LF mod cap;
  ba_LT : F ≤ LT ≤ F + zlen xs;
  ba_LF : LF ≤ F;
  ba_room : F + zlen xs - LF < cap;
  ba_slots p : F ≤ p < F + cap →
    data b !! Z.to_nat (p mod cap) = Some (xs !! Z.to_nat (p - F))
}.

Definition block_repr (cap : Z) (xs : list T) (b : Block T) : Prop :=
  ∃ F LT LF, block_at cap xs F LT LF b.

Lemma block_at_repr cap xs F LT LF b : block_at cap xs F LT LF b → block_repr cap xs b.
Proof. unfold block_repr. eauto. Qed.

Lemma block_at_bounds cap xs F LT LF b :
  block_at cap xs F LT LF b → 2 ≤ cap ≤ 2 ^ 63 ∧ 0 ≤ zlen xs < cap.
Proof.
  intros Hb. pose proof (cap_ok_bounds cap (ba_cap _ _ _ _ _ _ Hb)).
  pose proof (ba_LF _ _ _ _ _ _ Hb). pose proof (ba_room _ _ _ _ _ _ Hb).
  pose proof (zlen_nonneg xs). lia.
Qed.

Lemma Block_new_repr cap : cap_ok cap → block_at cap [] 0 0 0 (Block_new (T := T) cap).
Proof.
  intros Hc. pose proof (cap_ok_bounds cap Hc). constructor; simpl; try done; try lia.
  - apply u64_small. lia.
  - unfold zlen. rewrite length_replicate. lia.
  - unfold zlen. simpl. lia.
  - intros p Hp. rewrite lookup_replicate_2; [by rewrite lookup_nil|].
    pose proof (Z.mod_pos_bound p cap). lia.
Qed.

(** ** Emptiness *)
Lemma block_empty cap xs F LT LF b :
  block_at cap xs F LT LF b → (front b =? tail b) = bool_decide (xs = []).
Proof.
  intros Hb. pose proof (block_at_bounds _ _ _ _ _ _ Hb) as [? ?]. destruct Hb.
  rewrite ba_front0, ba_tail0, index_eqb by lia. destruct xs as [|x xs].
  - rewrite bool_decide_eq_true_2 by done. apply Z.eqb_eq. unfold zlen. simpl. lia.
  - rewrite bool_decide_eq_false_2 by done. apply Z.eqb_neq. unfold zlen in *. simpl in *. lia.
Qed.

Lemma block_seen_nonempty cap xs F LT LF b :
  block_at cap xs F LT LF b → (front b =? localTail b) = (F =? LT).
Proof.
  intros Hb. pose proof (block_at_bounds _ _ _ _ _ _ Hb) as [? ?]. destruct Hb.
  rewrite ba_front0, ba_localTail0, index_eqb by lia. done.
Qed.

(** The consumer looks at the tail again. *)
Lemma block_reload_tail cap xs F LT LF b :
  block_at cap xs F LT LF b →
  block_at cap xs F (F + zlen xs) LF (set_localTail (tail b) b).
Proof.
  intros Hb. pose proof (block_at_bounds _ _ _ _ _ _ Hb) as [? ?]. destruct Hb.
  constructor; simpl; try done; lia.
Qed.

(** ** Room *)
Lemma block_seen_room cap xs F LT LF b :
  block_at cap xs F LT LF b →
  (Z.land (u64 (tail b + 1)) (sizeMask b) =? localFront b) = (F + zlen xs + 1 - LF =? cap).
Proof.
  intros Hb. pose proof (block_at_bounds _ _ _ _ _ _ Hb) as [? ?]. destruct Hb.
  rewrite ba_tail0, ba_mask0, next_index, ba_localFront0 by done.
  rewrite <- (Z.mod_add LF 1 cap), Z.mul_1_l, index_eqb by lia. lia.
Qed.

(** The producer looks at the front again, which may have been at [F'] when it did. *)
Lemma block_reload_past cap xs F LT LF F' b :
  block_at cap xs F LT LF b → LF ≤ F' ≤ F →
  block_at cap xs F LT F' (set_localFront (F' mod cap) b) ∧
  (Z.land (u64 (tail b + 1)) (sizeMask b) =? F' mod cap) = (F + zlen xs + 1 - F' =? cap).
Proof.
  intros Hb HF. pose proof (block_at_bounds _ _ _ _ _ _ Hb) as [? ?]. split.
  - destruct Hb. constructor; simpl; try done; lia.
  - destruct Hb. rewrite ba_tail0, ba_mask0, next_index by done.
    rewrite <- (Z.mod_add F' 1 cap), Z.mul_1_l, index_eqb by lia. lia.
Qed.

Lemma block_reload_front cap xs F LT LF b :
  block_at cap xs F LT LF b →
  block_at cap xs F LT F (set_localFront (front b) b) ∧
  (Z.land (u64 (tail b + 1)) (sizeMask b) =? front b) = (zlen xs + 1 =? cap).
Proof.
  intros Hb. pose proof (ba_LF _ _ _ _ _ _ Hb). rewrite (ba_front _ _ _ _ _ _ Hb).
  destruct (block_reload_past _ _ _ _ _ F _ Hb ltac:(lia)) as [? ->]. split; [done|].
  f_equal. lia.
Qed.

(** ** Putting an element in *)
Lemma block_tail_slot cap xs F LT LF b :
  block_at cap xs F LT LF b → slot_at (tail b) b = Ok None.
Proof.
  intros Hb. pose proof (block_at_bounds _ _ _ _ _ _ Hb) as [? ?]. destruct Hb.
  unfold slot_at. apply vector_at_Some. rewrite ba_tail0, ba_slots0 by lia.
  f_equal. apply lookup_ge_None. unfold zlen in *. lia.
Qed.

Lemma block_push cap xs F LT LF b x :
  block_at cap xs F LT LF b → F + zlen xs + 1 - LF < cap →
  block_at cap (xs ++ [x]) F LT LF
    (set_tail (Z.land (u64 (tail b + 1)) (sizeMask b))
       (set_data (<[Z.to_nat (tail b) := Some x]> (data b)) b)).
Proof.
  intros Hb Hroom. pose proof (block_at_bounds _ _ _ _ _ _ Hb) as [? ?]. destruct Hb.
  assert (Hlen : zlen (xs ++ [x]) = zlen xs + 1) by (unfold zlen; rewrite length_app; simpl; lia).
  constructor; simpl; try done; try lia.
  - unfold zlen. by rewrite length_insert.
  - rewrite ba_tail0, ba_mask0, next_index, Hlen by done. f_equal. lia.
  - intros p Hp. rewrite ba_tail0.
    pose proof (Z.mod_pos_bound p cap). pose proof (Z.mod_pos_bound (F + zlen xs) cap).
    destruct (decide (p = F + zlen xs)) as [->|Hne].
    + rewrite list_lookup_insert_eq by (unfold zlen in *; lia).
      replace (Z.to_nat (F + zlen xs - F)) with (length xs) by (unfold zlen; lia).
      by rewrite lookup_app_r, Nat.sub_diag by lia.
    + rewrite list_lookup_insert_ne, ba_slots0 by
        (first [lia | intros Heq; apply Hne;
         assert (Hm : p mod cap = (F + zlen xs) mod cap) by lia;
         destruct (Z.le_gt_cases p (F + zlen xs));
         [apply (index_inj cap); lia|symmetry; apply (index_inj cap); lia]]).
      f_equal. destruct (decide (p < F + zlen xs)).
      * rewrite lookup_app_l by (unfold zlen in *; lia). done.
      * rewrite !(proj2 (lookup_ge_None _ _)) by
          (rewrite ?length_app; simpl; unfold zlen in *; lia). done.
Qed.

(** The first element of a new block. *)
Lemma Block_new_push cap y nx : cap_ok cap →
  block_repr cap [y] (set_next nx (set_tail 1 (set_localTail 1
    (set_data (<[Z.to_nat 0 := Some y]> (data (Block_new cap))) (Block_new cap))))).
Proof.
  intros Hc. pose proof (cap_ok_bounds cap Hc). exists 0, 1, 0.
  pose proof (Block_new_repr cap Hc) as Hnew.
  apply (block_push _ _ _ _ _ _ y), block_reload_tail in Hnew;
    [|unfold zlen; simpl length; lia].
  assert (Hone : Z.land (u64 1) (u64 (cap - 1)) = 1).
  { rewrite (u64_small (cap - 1)), land_mask by first [done|lia]. apply Z.mod_small. lia. }
  simpl in Hnew. change (0 + 1) with 1 in Hnew. rewrite Hone in Hnew.
  destruct Hnew. by constructor.
Qed.

(** ** Taking an element out *)
Lemma block_front_slot cap x xs F LT LF b :
  block_at cap (x :: xs) F LT LF b → slot_at (front b) b = Ok (Some x).
Proof.
  intros Hb. pose proof (block_at_bounds _ _ _ _ _ _ Hb) as [? ?]. destruct Hb.
  unfold slot_at. apply vector_at_Some. rewrite ba_front0, ba_slots0 by lia.
  by replace (Z.to_nat (F - F)) with 0%nat by lia.
Qed.

(** The element is assigned to in its place. *)
Lemma block_replace cap x xs F LT LF b y :
  block_at cap (x :: xs) F LT LF b →
  block_at cap (y :: xs) F LT LF (set_data (<[Z.to_nat (front b) := Some y]> (data b)) b).
Proof.
  intros Hb. pose proof (block_at_bounds _ _ _ _ _ _ Hb) as [? ?]. destruct Hb.
  constructor; simpl; try done.
  - unfold zlen. by rewrite length_insert.
  - intros p Hp. rewrite ba_front0.
    pose proof (Z.mod_pos_bound p cap). pose proof (Z.mod_pos_bound F cap).
    destruct (decide (p = F)) as [->|Hne].
    + rewrite list_lookup_insert_eq by (unfold zlen in *; lia).
      by replace (Z.to_nat (F - F)) with 0%nat by lia.
    + rewrite list_lookup_insert_ne, ba_slots0 by
        (first [lia | intros Heq; apply Hne; symmetry; apply (index_inj cap); lia]).
      f_equal. by replace (Z.to_nat (p - F)) with (S (Z.to_nat (p - F - 1))) by lia.
Qed.

Lemma block_pop cap x xs F LT LF b :
  block_at cap (x :: xs) F LT LF b → F < LT →
  block_at cap xs (F + 1) LT LF
    (set_front (Z.land (u64 (front b + 1)) (sizeMask b))
       (set_data (<[Z.to_nat (front b) := None]> (data b)) b)).
Proof.
  intros Hb Hseen. pose proof (block_at_bounds _ _ _ _ _ _ Hb) as [? ?]. destruct Hb.
  assert (Hlen : zlen (x :: xs) = zlen xs + 1) by (unfold zlen; simpl; lia).
  pose proof (zlen_nonneg xs).
  constructor; simpl; try done; try lia.
  - unfold zlen. by rewrite length_insert.
  - by rewrite ba_front0, ba_mask0, next_index by done.
  - rewrite ba_tail0, Hlen. f_equal. lia.
  - intros p Hp. rewrite ba_front0.
    pose proof (Z.mod_pos_bound p cap). pose proof (Z.mod_pos_bound F cap).
    destruct (decide (p = F + cap)) as [->|Hne].
    + replace ((F + cap) mod cap) with (F mod cap)
        by (rewrite <- (Z.mod_add F 1 cap), Z.mul_1_l by lia; done).
      rewrite list_lookup_insert_eq by (unfold zlen in *; lia).
      f_equal. symmetry. apply lookup_ge_None. unfold zlen in *. lia.
    + rewrite list_lookup_insert_ne, ba_slots0 by
        (first [lia | intros Heq; assert (F = p) by (apply (index_inj cap); lia); lia]).
      f_equal. by replace (Z.to_nat (p - F)) with (S (Z.to_nat (p - (F + 1)))) by lia.
Qed.
End blocks.

(** ** The ring

    A block in the ring, with its size and its contents. *)
Record seg (T : Type) := Seg { s_id : nat; s_cap : Z; s_items : list T }.
Arguments Seg {T} _ _ _.
Arguments s_id {T} _.
Arguments s_cap {T} _.
Arguments s_items {T} _.

Section ring.
Context {T : Type}.
Implicit Types (h : gmap nat (Block T)) (s : seg T) (l : list (seg T)).

Definition seg_at h s (nx : nat) : Prop :=
  ∃ b, h !! s_id s = Some b ∧ next b = nx ∧ block_repr (s_cap s) (s_items s) b.

(** The block that follows: the first one of the list, or [stop]. *)
Definition follows l (stop : nat) : nat := hd stop (s_id <$> l).

Fixpoint chain h l (stop : nat) : Prop :=
  match l with
  | [] => True
  | s :: l => seg_at h s (follows l stop) ∧ chain h l stop
  end.

Lemma follows_app l l' stop : follows (l ++ l') stop = follows l (follows l' stop).
Proof. by destruct l. Qed.

Lemma chain_app h l l' stop :
  chain h (l ++ l') stop ↔ chain h l (follows l' stop) ∧ chain h l' stop.
Proof.
  induction l as [|s l IH]; simpl; [tauto|]. rewrite follows_app, IH. tauto.
Qed.

(** A block that is not in the ring may change. *)
Lemma chain_frame h l stop p b : p ∉ s_id <$> l → chain h l stop → chain (<[p := b]> h) l stop.
Proof.
  revert stop. induction l as [|s l IH]; intros stop; [done|].
  rewrite fmap_cons, not_elem_of_cons. intros [Hne Hp] [(b' & Hb' & Hrest) Hl].
  split; [|by apply IH]. exists b'. by rewrite lookup_insert_ne by congruence.
Qed.

Lemma chain_frame_delete h l stop p : p ∉ s_id <$> l → chain h l stop → chain (delete p h) l stop.
Proof.
  revert stop. induction l as [|s l IH]; intros stop; [done|].
  rewrite fmap_cons, not_elem_of_cons. intros [Hne Hp] [(b' & Hb' & Hrest) Hl].
  split; [|by apply IH]. exists b'. by rewrite lookup_delete_ne by congruence.
Qed.

(** Looking up a block of the ring, and changing it. *)
Lemma chain_middle h l s l' stop :
  chain h (l ++ s :: l') stop → seg_at h s (follows l' stop).
Proof. rewrite chain_app. simpl. tauto. Qed.

Lemma chain_update h l s s' l' stop b' :
  chain h (l ++ s :: l') stop → NoDup (s_id <$> l ++ s :: l') →
  s_id s' = s_id s → next b' = follows l' stop → block_repr (s_cap s') (s_items s') b' →
  chain (<[s_id s := b']> h) (l ++ s' :: l') stop.
Proof.
  rewrite fmap_app, fmap_cons, NoDup_app, NoDup_cons, !chain_app.
  intros (Hl & Hs & Hl') (_ & Hn & Hn' & _) Hid Hnext Hrepr. simpl in *.
  split_and!.
  - unfold follows in *. simpl in *. rewrite Hid. apply chain_frame; [|done].
    intros Hin. apply (Hn _ Hin). by left.
  - exists b'. rewrite Hid, lookup_insert_eq. done.
  - by apply chain_frame.
Qed.

(** Linking the last block to another one. *)
Lemma chain_update_last h l s b stop p :
  chain h (l ++ [s]) stop → NoDup (s_id <$> l ++ [s]) → h !! s_id s = Some b →
  chain (<[s_id s := set_next p b]> h) (l ++ [s]) p.
Proof.
  rewrite fmap_app, NoDup_app, !chain_app. simpl. intros [Hl [Hs _]] (_ & Hn & _) Hb.
  split; [|split; [|done]].
  - apply chain_frame; [|done]. intros Hin. exact (Hn (s_id s) Hin ltac:(by left)).
  - destruct Hs as (b1 & Hb1 & Hnext & F & LT & LF & Hba). simplify_eq.
    eexists. rewrite lookup_insert_eq. split_and!; [done|done|].
    exists F, LT, LF. destruct Hba. by constructor.
Qed.

(** The address of a block of the ring. *)
Lemma chain_lookup h l stop s : s ∈ l → chain h l stop → is_Some (h !! s_id s).
Proof.
  intros (l1 & l2 & ->)%list_elem_of_split (b & Hb & _)%chain_middle. eauto.
Qed.

Lemma seg_block_at h s nx :
  seg_at h s nx →
  ∃ b F LT LF, h !! s_id s = Some b ∧ next b = nx ∧ block_at (s_cap s) (s_items s) F LT LF b.
Proof. intros (b & Hb & Hn & F & LT & LF & Hr). naive_solver. Qed.
End ring.
