(* ===== verification/RwqRing.v ===== *)
(** * ReaderWriterQueue: the representation invariant

    [ring_at]: the ring of a queue, from the front block on, is [pre], then the tail
    block [t], then the blocks [idle] that are free.  Only the front block may be
    empty if there are others in use, and those between the front and the tail are
    full. *)
From stdpp Require Import gmap.
From S2P Require Import Prelude Lifetime ReaderWriterQueue RwqBlocks.

#[local] Open Scope Z_scope.

Section ring.
Context {T : Type} (c0 n0 : Z).
#[local] Abbreviation Q := (ReaderWriterQueue T).
Implicit Types (q : Q) (t s : seg T) (pre idle l : list (seg T)).

Definition full s : Prop := zlen (s_items s) = s_cap s - 1.

Definition contents pre t : list T := concat (s_items <$> pre) ++ s_items t.

(** [leaked] is the number of blocks that are in nobody's ring. *)
Record ring_at q (leaked : nat) pre t idle : Prop := RingAt {
  r_front : frontBlock q = follows pre (s_id t);
  r_tail : tailBlock q = s_id t;
  r_nodup : NoDup (s_id <$> pre ++ t :: idle);
  r_chain : chain (heap q) (pre ++ t :: idle) (frontBlock q);
  r_idle : Forall (λ s, s_items s = []) idle;
  r_nonempty : pre ≠ [] → s_items t ≠ [];
  r_full : Forall full (list.tail pre);
  r_fresh p : is_Some (heap q !! p) → (0 < p ≤ mallocs q)%nat;
  r_size : size (heap q) = (length (pre ++ t :: idle) + leaked)%nat;
  r_largest : cap_ok (largestBlockSize q) ∧ c0 ≤ largestBlockSize q;
  r_caps : Forall (λ s, c0 ≤ s_cap s) (pre ++ t :: idle);
  r_count : n0 ≤ zlen (pre ++ t :: idle);
  r_lost : lost q = 0%nat
}.

(** The queue holds [items], and is not inside a member function. *)
Definition holds q (leaked : nat) (items : list T) : Prop :=
  ∃ pre t idle, ring_at q leaked pre t idle ∧ items = contents pre t.

Lemma ring_at_ext q q' leaked pre t idle :
  ring_at q leaked pre t idle →
  frontBlock q' = frontBlock q → tailBlock q' = tailBlock q →
  largestBlockSize q' = largestBlockSize q → heap q' = heap q → mallocs q' = mallocs q →
  lost q' = lost q → ring_at q' leaked pre t idle.
Proof. intros [] H1 H2 H3 H4 H5 H6. by constructor; rewrite ?H1, ?H2, ?H3, ?H4, ?H5, ?H6. Qed.

Lemma r_tail_lookup q leaked pre t idle :
  ring_at q leaked pre t idle →
  ∃ b F LT LF, heap q !! tailBlock q = Some b ∧ next b = follows idle (frontBlock q) ∧
    block_at (s_cap t) (s_items t) F LT LF b.
Proof.
  intros Hr. rewrite (r_tail _ _ _ _ _ Hr). eapply seg_block_at, chain_middle, r_chain; done.
Qed.

Definition with_items (xs : list T) s : seg T := Seg (s_id s) (s_cap s) xs.

Lemma fresh_none q leaked pre t idle p :
  ring_at q leaked pre t idle → (mallocs q < p)%nat → heap q !! p = None.
Proof.
  intros Hr Hp. destruct (heap q !! p) eqn:E; [|done].
  pose proof (r_fresh _ _ _ _ _ Hr p ltac:(eauto)). lia.
Qed.

(** ** Changing one block *)
Lemma size_insert_some {A} (h : gmap nat A) p b b' : h !! p = Some b → size (<[p := b']> h) = size h.
Proof. intros Hp. apply map_size_insert_Some. eauto. Qed.

Lemma fresh_insert_some {A} (h : gmap nat A) p b b' n :
  h !! p = Some b → (∀ r, is_Some (h !! r) → (0 < r ≤ n)%nat) →
  ∀ r, is_Some (<[p := b']> h !! r) → (0 < r ≤ n)%nat.
Proof.
  intros Hp Hf r. destruct (decide (r = p)) as [->|Hne].
  - intros _. apply Hf. eauto.
  - rewrite lookup_insert_ne by done. apply Hf.
Qed.

Lemma r_tail_update q leaked pre t idle b b' xs :
  ring_at q leaked pre t idle → heap q !! tailBlock q = Some b →
  next b' = next b → block_repr (s_cap t) xs b' → (pre ≠ [] → xs ≠ []) →
  ring_at (set_heap (<[tailBlock q := b']> (heap q)) q) leaked pre (with_items xs t) idle.
Proof.
  intros Hr Hb Hn Hrepr Hne.
  pose proof (r_tail_lookup _ _ _ _ _ Hr) as (b1 & _ & _ & _ & Hb1 & Hn1 & _). simplify_eq.
  destruct Hr. constructor; simpl; try done.
  - by rewrite fmap_app, fmap_cons in r_nodup0 |- *.
  - rewrite r_tail0. eapply chain_update; try done. simpl. congruence.
  - by apply (fresh_insert_some _ _ b).
  - rewrite (size_insert_some _ _ b) by done. by rewrite !length_app in r_size0 |- *.
  - rewrite Forall_app, Forall_cons in r_caps0 |- *. done.
  - unfold zlen in *. by rewrite !length_app in r_count0 |- *.
Qed.

(** ** The front block *)
Definition front_items pre t : list T :=
  match pre with [] => s_items t | s :: _ => s_items s end.

Definition front_cap pre t : Z :=
  match pre with [] => s_cap t | s :: _ => s_cap s end.

Definition set_front_items (xs : list T) pre t : list (seg T) * seg T :=
  match pre with
  | [] => ([], with_items xs t)
  | s :: pre => (with_items xs s :: pre, t)
  end.

Lemma r_front_lookup q leaked pre t idle :
  ring_at q leaked pre t idle →
  ∃ b F LT LF, heap q !! frontBlock q = Some b ∧
    next b = follows (list.tail (pre ++ t :: idle)) (frontBlock q) ∧
    block_at (front_cap pre t) (front_items pre t) F LT LF b.
Proof.
  intros Hr. pose proof (r_chain _ _ _ _ _ Hr) as Hc. pose proof (r_front _ _ _ _ _ Hr) as Hf.
  destruct pre as [|s pre]; simpl in Hc, Hf; destruct Hc as [Hs _]; apply seg_block_at in Hs;
    unfold follows in Hf at 1; simpl in Hf; rewrite <- Hf in Hs; exact Hs.
Qed.

Lemma r_front_update q leaked pre t idle b b' xs :
  ring_at q leaked pre t idle → heap q !! frontBlock q = Some b →
  block_repr (front_cap pre t) xs b' → next b' = next b →
  let '(pre', t') := set_front_items xs pre t in
  ring_at (set_heap (<[frontBlock q := b']> (heap q)) q) leaked pre' t' idle.
Proof.
  intros Hr Hb Hrepr Hn. destruct pre as [|s pre]; simpl in *.
  - assert (Hft : frontBlock q = tailBlock q).
    { by rewrite (r_front _ _ _ _ _ Hr), (r_tail _ _ _ _ _ Hr). }
    rewrite Hft in Hb |- *. by apply (r_tail_update q leaked [] t idle b).
  - pose proof (r_front_lookup _ _ _ _ _ Hr) as (b1 & _ & _ & _ & Hb1 & Hn1 & _). simplify_eq.
    destruct Hr. simpl in *. constructor; simpl; try done.
    + unfold follows in r_front0. simpl in r_front0. rewrite r_front0 in Hn1 |- *.
      rewrite r_front0 in r_chain0.
      apply (chain_update (heap q) [] s (with_items xs s) (pre ++ t :: idle)); try done.
      congruence.
    + intros _. by apply r_nonempty0.
    + by apply (fresh_insert_some _ _ b).
    + by rewrite (size_insert_some _ _ b) by done.
    + rewrite Forall_cons in r_caps0 |- *. done.
Qed.

Definition back_items pre t : list T :=
  match pre with [] => [] | _ :: pre => contents pre t end.

Lemma contents_front pre t : contents pre t = front_items pre t ++ back_items pre t.
Proof.
  destruct pre; unfold contents; simpl; [by rewrite app_nil_r|]. by rewrite <- app_assoc.
Qed.

Lemma contents_set_front xs pre t :
  contents (set_front_items xs pre t).1 (set_front_items xs pre t).2 = xs ++ back_items pre t.
Proof.
  destruct pre; unfold contents; simpl; [by rewrite app_nil_r|]. by rewrite <- app_assoc.
Qed.

Lemma set_front_items_id pre t : set_front_items (front_items pre t) pre t = (pre, t).
Proof. destruct pre as [|[] ?]; simpl; [by destruct t|done]. Qed.

(** The consumer looks at the front block. *)
Lemma r_front_refresh q leaked pre t idle b b' :
  ring_at q leaked pre t idle → heap q !! frontBlock q = Some b →
  block_repr (front_cap pre t) (front_items pre t) b' → next b' = next b →
  ring_at (set_heap (<[frontBlock q := b']> (heap q)) q) leaked pre t idle.
Proof.
  intros Hr Hb Hrepr Hn.
  pose proof (r_front_update q leaked pre t idle b b' _ Hr Hb Hrepr Hn) as H.
  by rewrite set_front_items_id in H.
Qed.

Lemma r_front_is_tail q leaked pre t idle :
  ring_at q leaked pre t idle → frontBlock q = tailBlock q ↔ pre = [].
Proof.
  intros Hr. rewrite (r_front _ _ _ _ _ Hr), (r_tail _ _ _ _ _ Hr).
  destruct pre as [|s pre]; [done|]. split; [|done]. intros Heq.
  pose proof (r_nodup _ _ _ _ _ Hr) as Hnd. simpl in Hnd. apply NoDup_cons in Hnd as [Hin _].
  unfold follows in Heq. simpl in Heq. exfalso. apply Hin. rewrite Heq.
  change (s_id t ∈ s_id <$> pre ++ t :: idle). rewrite fmap_app, elem_of_app. right. by left.
Qed.

(** The block after the front block has elements, if it is in use. *)
Lemma r_next_nonempty q leaked s pre t idle :
  ring_at q leaked (s :: pre) t idle → front_items pre t ≠ [].
Proof.
  intros Hr. destruct pre as [|s' pre]; [by apply Hr|]. simpl.
  pose proof (Forall_inv (r_full _ _ _ _ _ Hr)) as Hfull. unfold full in Hfull.
  pose proof (r_chain _ _ _ _ _ Hr) as (_ & (b & _ & _ & F & LT & LF & Hba) & _).
  pose proof (block_at_bounds _ _ _ _ _ _ Hba). intros Heq. rewrite Heq in Hfull.
  unfold zlen in Hfull. simpl in Hfull. lia.
Qed.

(** The consumer leaves the front block: it becomes the last of the free ones. *)
Lemma r_rotate q leaked s pre t idle :
  ring_at q leaked (s :: pre) t idle → s_items s = [] →
  ring_at (set_frontBlock (follows pre (s_id t)) q) leaked pre t (idle ++ [s]).
Proof.
  intros Hr Hs. destruct Hr.
  assert (Hperm : pre ++ t :: idle ++ [s] ≡ₚ (s :: pre) ++ t :: idle)
    by (rewrite app_comm_cons, app_assoc; apply (Permutation_app_comm _ [s])).
  constructor; simpl; try done.
  - by rewrite Hperm.
  - destruct r_chain0 as [Hs' Hc]. change (frontBlock q = s_id s) in r_front0.
    rewrite follows_app in Hs'. rewrite app_comm_cons, app_assoc. apply chain_app.
    split; [|by split]. by rewrite r_front0 in Hc.
  - rewrite Forall_app, Forall_singleton. done.
  - intros _. by apply r_nonempty0.
  - destruct pre; [done|]. by inversion r_full0.
  - by rewrite Hperm.
  - by rewrite Hperm.
  - unfold zlen. by rewrite Hperm.
Qed.

Lemma full_snoc pre t :
  Forall full (list.tail pre) → (pre ≠ [] → full t) → Forall full (list.tail (pre ++ [t])).
Proof.
  intros Hp Ht. destruct pre as [|s pre]; simpl in *; [done|].
  rewrite Forall_app, Forall_singleton. auto.
Qed.

Lemma ring_shift pre t idle : (pre ++ [t]) ++ idle = pre ++ t :: idle.
Proof. by rewrite <- app_assoc. Qed.

Lemma contents_snoc pre t s : contents (pre ++ [t]) s = contents pre t ++ s_items s.
Proof.
  unfold contents. rewrite fmap_app, concat_app. simpl. by rewrite app_nil_r, <- app_assoc.
Qed.

Lemma follows_snoc pre t p : follows (pre ++ [t]) p = follows pre (s_id t).
Proof. by destruct pre. Qed.

(** The producer goes on to the next free block. *)
Lemma r_take_idle q leaked pre t s idle b b' xs :
  ring_at q leaked pre t (s :: idle) → (pre ≠ [] → full t) → heap q !! s_id s = Some b →
  next b' = next b → block_repr (s_cap s) xs b' → xs ≠ [] →
  ring_at (set_tailBlock (s_id s) (set_heap (<[s_id s := b']> (heap q)) q)) leaked
    (pre ++ [t]) (with_items xs s) idle.
Proof.
  intros Hr Hfull Hb Hn Hrepr Hxs. destruct Hr.
  rewrite <- ring_shift in r_nodup0, r_chain0, r_size0, r_caps0, r_count0.
  pose proof (chain_middle _ _ _ _ _ r_chain0) as (b1 & Hb1 & Hn1 & _). simplify_eq.
  constructor; simpl; try done.
  - by rewrite follows_snoc.
  - by rewrite fmap_app, fmap_cons in r_nodup0 |- *.
  - eapply chain_update; try done. simpl. congruence.
  - by rewrite Forall_cons in r_idle0; destruct r_idle0.
  - by apply full_snoc.
  - by apply (fresh_insert_some _ _ b).
  - rewrite (size_insert_some _ _ b) by done. by rewrite !length_app in r_size0 |- *.
  - rewrite Forall_app, Forall_cons in r_caps0 |- *. done.
  - unfold zlen in *. by rewrite !length_app in r_count0 |- *.
Qed.

(** A free block is not the front block. *)
Lemma r_idle_not_front q leaked pre t s idle :
  ring_at q leaked pre t (s :: idle) → s_id s ≠ frontBlock q.
Proof.
  intros Hr Heq. pose proof (r_nodup _ _ _ _ _ Hr) as Hnd.
  rewrite (r_front _ _ _ _ _ Hr) in Heq.
  destruct pre as [|s' pre]; unfold follows in Heq; simpl in *;
    apply NoDup_cons in Hnd as [Hin _]; apply Hin.
  - rewrite <- Heq. by left.
  - rewrite <- Heq. change (s_id s ∈ s_id <$> pre ++ t :: s :: idle).
    rewrite fmap_app, elem_of_app. right. right. by left.
Qed.

(** A block of the ring changes, but not what it holds. *)
Lemma r_refresh q leaked pre t idle s b b' :
  ring_at q leaked pre t idle → s ∈ pre ++ t :: idle → heap q !! s_id s = Some b →
  next b' = next b → block_repr (s_cap s) (s_items s) b' →
  ring_at (set_heap (<[s_id s := b']> (heap q)) q) leaked pre t idle.
Proof.
  intros Hr Hin Hb Hn Hrepr. destruct Hr. constructor; simpl; try done.
  - apply list_elem_of_split in Hin as (l & l' & Hl). rewrite Hl in *.
    pose proof (chain_middle _ _ _ _ _ r_chain0) as (b1 & Hb1 & Hn1 & _). simplify_eq.
    apply (chain_update _ _ s s); try done. congruence.
  - by apply (fresh_insert_some _ _ b).
  - by erewrite size_insert_some.
Qed.

(** The producer looks at the next free block, and leaves it. *)
Lemma r_idle_update q leaked pre t s idle b b' :
  ring_at q leaked pre t (s :: idle) → heap q !! s_id s = Some b →
  next b' = next b → block_repr (s_cap s) [] b' →
  ring_at (set_heap (<[s_id s := b']> (heap q)) q) leaked pre t (s :: idle).
Proof.
  intros Hr Hb Hn Hrepr.
  assert (Hs : s_items s = []) by apply (Forall_inv (r_idle _ _ _ _ _ Hr)).
  apply (r_refresh q leaked pre t (s :: idle) s b); try done.
  - apply elem_of_app. right. right. by left.
  - by rewrite Hs.
Qed.

(** A block that was allocated in vain. *)
Lemma r_leak q leaked pre t idle p cap b ow :
  ring_at q leaked pre t idle → p = S (mallocs q) → cap_ok cap → c0 ≤ cap → ow = 0%nat →
  ring_at (mkQueue (frontBlock q) (tailBlock q) cap (enqueuing q) (dequeuing q)
             (<[p := b]> (heap q)) p ow) (S leaked) pre t idle.
Proof.
  intros Hr -> Hcap Hc0 How.
  pose proof (fresh_none _ _ _ _ _ (S (mallocs q)) Hr ltac:(lia)) as Hnone. destruct Hr.
  constructor; simpl; try done.
  - apply chain_frame; [|done]. intros (s & Hs & Hin)%list_elem_of_fmap.
    destruct (chain_lookup _ _ _ _ Hin r_chain0) as [b' Hb']. congruence.
  - intros r. destruct (decide (r = S (mallocs q))) as [->|]; [lia|].
    rewrite lookup_insert_ne by done. intros Hr%r_fresh0. lia.
  - rewrite map_size_insert_None by done. rewrite r_size0. lia.
Qed.

(** A block that is in nobody's ring may change. *)
Lemma r_outside q leaked pre t idle p b b' :
  ring_at q leaked pre t idle → p ∉ s_id <$> pre ++ t :: idle → heap q !! p = Some b →
  ring_at (set_heap (<[p := b']> (heap q)) q) leaked pre t idle.
Proof.
  intros Hr Hp Hb. destruct Hr. constructor; simpl; try done.
  - by apply chain_frame.
  - by apply (fresh_insert_some _ _ b).
  - by rewrite (size_insert_some _ _ b).
Qed.

(** More requests for memory have been made. *)
Lemma r_mallocs q leaked pre t idle n :
  ring_at q leaked pre t idle → (mallocs q ≤ n)%nat → ring_at (set_mallocs n q) leaked pre t idle.
Proof.
  intros [] Hn. constructor; simpl; try done. intros p Hp%r_fresh0. lia.
Qed.

(** The producer appends such a block behind the tail block. *)
Lemma r_link_block q leaked pre t idle bt b' p cap xs :
  ring_at q (S leaked) pre t idle → (pre ≠ [] → full t) → p ∉ s_id <$> pre ++ t :: idle →
  heap q !! s_id t = Some bt → heap q !! p = Some b' → next b' = next bt →
  block_repr cap xs b' → xs ≠ [] → c0 ≤ cap →
  ring_at (set_tailBlock p (set_heap (<[s_id t := set_next p bt]> (heap q)) q)) leaked
    (pre ++ [t]) (Seg p cap xs) idle.
Proof.
  intros Hr Hfull Hp Hbt Hb' Hn Hrepr Hxs Hc0. destruct Hr.
  assert (Hne : s_id t ≠ p).
  { intros <-. apply Hp. rewrite fmap_app, elem_of_app. right. by left. }
  rewrite <- ring_shift, fmap_app, elem_of_app in Hp.
  rewrite <- ring_shift in r_chain0, r_nodup0. apply chain_app in r_chain0 as [Hpre Hidle].
  pose proof r_nodup0 as Hnd. rewrite fmap_app in Hnd. apply NoDup_app in Hnd as (Hnd & Hd & Hndi).
  constructor; simpl; try done.
  - by rewrite follows_snoc.
  - rewrite fmap_app. simpl. apply NoDup_app. split_and!; [done| |].
    + intros r Hin [->|Hr]%elem_of_cons; [tauto|by apply (Hd r)].
    + apply NoDup_cons. tauto.
  - apply chain_app. split; [|split].
    + unfold follows at 1. simpl. by eapply chain_update_last.
    + exists b'. simpl. rewrite lookup_insert_ne by done. split_and!; [done| |done].
      apply chain_app in Hpre as [_ [(b1 & Hb1 & Hn1 & _) _]].
      unfold follows in Hn1 at 1. simpl in Hn1. congruence.
    + apply chain_frame; [|done]. intros Hin. apply (Hd (s_id t)); [|done].
      rewrite fmap_app, elem_of_app. right. by left.
  - by apply full_snoc.
  - by apply (fresh_insert_some _ _ bt).
  - rewrite (size_insert_some _ _ bt) by done. rewrite r_size0, !length_app. simpl. lia.
  - rewrite <- ring_shift in r_caps0. rewrite Forall_app in r_caps0 |- *.
    rewrite Forall_cons. naive_solver.
  - unfold zlen in *. rewrite !length_app in *. simpl in *. lia.
Qed.

(** The same for a block that has just been made. *)
Lemma r_new_block q leaked pre t bt b' p cap xs ow :
  ring_at q leaked pre t [] → full t → heap q !! s_id t = Some bt →
  p = S (mallocs q) → next b' = next bt → block_repr cap xs b' → xs ≠ [] →
  cap_ok cap → c0 ≤ cap → ow = 0%nat →
  ring_at (mkQueue (frontBlock q) p cap (enqueuing q) (dequeuing q)
             (<[s_id t := set_next p bt]> (<[p := b']> (heap q))) p ow) leaked
    (pre ++ [t]) (Seg p cap xs) [].
Proof.
  intros Hr Hfull Hbt Hp Hn Hrepr Hxs Hcap Hc0 How.
  assert (Hnone : heap q !! p = None) by (eapply fresh_none; [done|lia]).
  assert (Hne : p ≠ s_id t) by congruence.
  pose proof (r_leak q leaked pre t [] p cap b' ow Hr Hp Hcap Hc0 How) as Hr'.
  eapply ring_at_ext; [apply (r_link_block _ _ _ _ _ bt b' p cap xs Hr')|..]; simpl; try done.
  - intros (s & Hs & Hin)%list_elem_of_fmap.
    destruct (chain_lookup _ _ _ _ Hin (r_chain _ _ _ _ _ Hr)) as [b Hb]. congruence.
  - by rewrite lookup_insert_ne.
  - by rewrite lookup_insert_eq.
Qed.

(** ** Capacity *)
Lemma full_contents l :
  Forall full l → Forall (λ s, c0 ≤ s_cap s) l → (c0 - 1) * zlen l ≤ zlen (concat (s_items <$> l)).
Proof.
  induction l as [|s l IH]; [unfold zlen; simpl; lia|].
  rewrite !Forall_cons, fmap_cons. simpl. intros [Hs Hl] [Hcs Hcl]. specialize (IH Hl Hcl).
  rewrite zlen_app. unfold full in Hs. unfold zlen at 1. simpl length.
  rewrite Nat2Z.inj_succ. fold (zlen l). lia.
Qed.

(** How many elements are in a queue that has no room. *)
Lemma full_ring q leaked pre t :
  ring_at q leaked pre t [] → full t → 1 ≤ c0 →
  (c0 - 1) * Z.max 1 (n0 - 1) ≤ zlen (contents pre t).
Proof.
  intros [] Hfull Hc0. rewrite contents_front.
  assert (Hall : Forall full (list.tail (pre ++ [t]))) by by apply full_snoc.
  assert (Hcaps : Forall (λ s, c0 ≤ s_cap s) (list.tail (pre ++ [t])))
    by (destruct pre; [done|]; simpl in *; by rewrite Forall_cons in r_caps0; destruct r_caps0).
  pose proof (full_contents _ Hall Hcaps) as Hl.
  destruct pre as [|s pre]; simpl in *.
  - unfold full in Hfull. rewrite Forall_singleton in r_caps0. rewrite app_nil_r.
    unfold zlen in r_count0. simpl in r_count0. rewrite Z.max_l by lia. lia.
  - rewrite zlen_app. pose proof (zlen_nonneg (s_items s)).
    replace (concat (s_items <$> pre ++ [t])) with (contents pre t) in Hl
      by (unfold contents; rewrite fmap_app, concat_app; simpl; by rewrite app_nil_r).
    unfold zlen in r_count0, Hl at 1. simpl in *. rewrite length_app in *. simpl in *. nia.
Qed.
End ring.
