(* ===== verification/RwqOps.v ===== *)
(** * ReaderWriterQueue: what the member functions do

    Each operation on a queue that [holds] a list, by symbolic execution with the
    rules of [runs]. *)
From stdpp Require Import gmap.
From S2P Require Import Prelude Lifetime ReaderWriterQueue RwqBlocks RwqRing.

#[local] Open Scope Z_scope.

Abbreviation never := (λ _ : fault, False).

(** ** Steps *)
Section steps.
Context {X T R : Type}.
#[local] Abbreviation Q := (ReaderWriterQueue T).
Implicit Types (q : Q) (r : R).

Lemma runs_load q r p b (P : Block T → Q * R → Prop) (Pt : X → Q * R → Prop) (F : fault → Prop) :
  heap q !! p = Some b → P b (q, r) → runs (on_fst (load_block p)) (q, r) P Pt F.
Proof. intros Hb. unfold runs, on_fst, load_block. by rewrite Hb. Qed.

Lemma runs_modify_block q r p b f (P : unit → Q * R → Prop) (Pt : X → Q * R → Prop) (F : fault → Prop) :
  heap q !! p = Some b → P tt (set_heap (<[p := f b]> (heap q)) q, r) →
  runs (on_fst (modify_block p f)) (q, r) P Pt F.
Proof. intros Hb. unfold runs, on_fst, modify_block. by rewrite Hb. Qed.

Lemma runs_massert nd b q r (P : unit → Q * R → Prop) (Pt : X → Q * R → Prop) (F : fault → Prop) :
  b = true → P tt (q, r) → runs (on_fst (massert nd b)) (q, r) P Pt F.
Proof. intros ->. unfold runs, on_fst, massert, cassert. by rewrite orb_true_r. Qed.

Lemma runs_massert_fst nd b q (P : unit → Q → Prop) (Pt : X → Q → Prop) (F : fault → Prop) :
  b = true → P tt q → runs (massert nd b) q P Pt F.
Proof. intros ->. unfold runs, massert, cassert. by rewrite orb_true_r. Qed.

Lemma runs_element_at q r p b i x (P : T → Q * R → Prop) (Pt : X → Q * R → Prop) (F : fault → Prop) :
  heap q !! p = Some b → slot_at i b = Ok (Some x) → P x (q, r) →
  runs (on_fst (element_at p i)) (q, r) P Pt F.
Proof. intros Hb Hi. unfold runs, on_fst, element_at. by rewrite Hb, Hi. Qed.

Lemma runs_destroy_at q r p b i x (P : unit → Q * R → Prop) (Pt : X → Q * R → Prop) (F : fault → Prop) :
  heap q !! p = Some b → slot_at i b = Ok (Some x) →
  P tt (set_heap (<[p := set_data (<[Z.to_nat i := None]> (data b)) b]> (heap q)) q, r) →
  runs (on_fst (destroy_at p i)) (q, r) P Pt F.
Proof.
  intros Hb Hi Hp. apply runs_on_fst, runs_bind. unfold runs at 1, element_at.
  rewrite Hb, Hi. unfold runs, set_slot, modify_block. by rewrite Hb.
Qed.

Lemma set_heap_id q : set_heap (heap q) q = q.
Proof. by destruct q. Qed.

(** The two ways in which a member function leaves its guard. *)
Lemma runs_guard {A} (nd : bool) (flag : Q → bool) (set : bool → Q → Q) (m : M X (Q * R) A) q r
    (P : A → Q * R → Prop) (Pt : X → Q * R → Prop) (F : fault → Prop) :
  flag q = false →
  runs m (if nd then q else set true q, r)
    (λ a s, P a (if nd then s.1 else set false s.1, s.2))
    (λ x s, Pt x (if nd then s.1 else set false s.1, s.2)) F →
  runs (ReentrantGuard nd flag set m) (q, r) P Pt F.
Proof.
  intros Hq Hm. unfold ReentrantGuard. destruct nd.
  - eapply runs_mono; [done|..]; [| |done]; intros ? [??] ?; done.
  - apply runs_bind, runs_gets, runs_bind, runs_massert; [by rewrite Hq|].
    apply runs_bind, runs_modify, runs_bind, runs_on_throw.
    eapply runs_mono; [done|..]; [| |done]; intros ? [??] ?; [|done].
    by apply runs_bind, runs_modify.
Qed.
End steps.

(** ** A queue that is not inside a member function *)
Section ready.
Context {T : Type} (c0 n0 : Z).
Implicit Types (q : ReaderWriterQueue T).

Definition ready q (leaked : nat) (items : list T) : Prop :=
  holds c0 n0 q leaked items ∧ enqueuing q = false ∧ dequeuing q = false.

Definition same_flags q' q : Prop :=
  enqueuing q' = enqueuing q ∧ dequeuing q' = dequeuing q.

Lemma holds_ext q q' leaked items :
  holds c0 n0 q leaked items → frontBlock q' = frontBlock q → tailBlock q' = tailBlock q →
  largestBlockSize q' = largestBlockSize q → heap q' = heap q → mallocs q' = mallocs q →
  lost q' = lost q → holds c0 n0 q' leaked items.
Proof.
  intros (pre & t & idle & Hr & ->) **. exists pre, t, idle.
  split; [by eapply ring_at_ext|done].
Qed.

Lemma holds_set_enqueuing b q leaked items :
  holds c0 n0 q leaked items → holds c0 n0 (set_enqueuing b q) leaked items.
Proof. intros H. by eapply holds_ext. Qed.

Lemma holds_set_dequeuing b q leaked items :
  holds c0 n0 q leaked items → holds c0 n0 (set_dequeuing b q) leaked items.
Proof. intros H. by eapply holds_ext. Qed.

(** Leaving a member function. *)
Lemma ready_enqueued (nd : bool) q q' leaked items :
  enqueuing q = false → dequeuing q = false →
  same_flags q' (if nd then q else set_enqueuing true q) → holds c0 n0 q' leaked items →
  ready (if nd then q' else set_enqueuing false q') leaked items.
Proof.
  intros He Hd [H1 H2] Hq'. destruct nd; simpl in H1, H2.
  - split; [done|]. by rewrite H1, H2.
  - split; [by apply holds_set_enqueuing|]. by rewrite <- Hd, <- H2.
Qed.

Lemma ready_dequeued (nd : bool) q q' leaked items :
  enqueuing q = false → dequeuing q = false →
  same_flags q' (if nd then q else set_dequeuing true q) → holds c0 n0 q' leaked items →
  ready (if nd then q' else set_dequeuing false q') leaked items.
Proof.
  intros He Hd [H1 H2] Hq'. destruct nd; simpl in H1, H2.
  - split; [done|]. by rewrite H1, H2.
  - split; [by apply holds_set_dequeuing|]. by rewrite <- He, <- H1.
Qed.

(** Entering one. *)
Lemma holds_entered_enqueue (nd : bool) q leaked items :
  holds c0 n0 q leaked items →
  holds c0 n0 (if nd then q else set_enqueuing true q) leaked items.
Proof. destruct nd; [done|]. apply holds_set_enqueuing. Qed.

Lemma holds_entered_dequeue (nd : bool) q leaked items :
  holds c0 n0 q leaked items →
  holds c0 n0 (if nd then q else set_dequeuing true q) leaked items.
Proof. destruct nd; [done|]. apply holds_set_dequeuing. Qed.
End ready.

(** ** Enqueuing *)
Section enqueue.
Context {X T : Type} `{!CppType X T}.
Context (MAX_BLOCK_SIZE : Z) (ndebug : bool) (malloc : nat → Z → bool).
Context (sizeof_Block alignof_Block sizeof_T alignof_T : Z).
Context (c0 n0 : Z) (Hmax : cap_ok MAX_BLOCK_SIZE) (Hc0 : 1 ≤ c0).
#[local] Abbreviation Q := (ReaderWriterQueue T).
#[local] Abbreviation enqueue_new :=
  (enqueue_new (X := X) (T := T) MAX_BLOCK_SIZE ndebug malloc sizeof_Block alignof_Block
     sizeof_T alignof_T).
#[local] Abbreviation enqueue_element :=
  (enqueue_element (X := X) (T := T) MAX_BLOCK_SIZE ndebug malloc sizeof_Block alignof_Block
     sizeof_T alignof_T).
#[local] Abbreviation inner_enqueue :=
  (inner_enqueue (X := X) (T := T) MAX_BLOCK_SIZE ndebug malloc sizeof_Block alignof_Block
     sizeof_T alignof_T).
Implicit Types (q : Q) (x : T).

Lemma runs_construct c q x p b i (P : unit → Q * T → Prop) (Pt : X → Q * T → Prop) :
  heap q !! p = Some b → slot_at i b = Ok None →
  (∀ x' y, forward_ctor c x = (x', Returns y) →
     P tt (set_heap (<[p := set_data (<[Z.to_nat i := Some y]> (data b)) b]> (heap q)) q, x')) →
  (∀ x' e, forward_ctor c x = (x', Throws e) → Pt e (q, x')) →
  runs (construct_from c p i) (q, x) P Pt never.
Proof.
  intros Hb Hi Hret Hthrow. unfold runs, construct_from, place_at.
  destruct (forward_ctor c x) as [x' [y|e]]; [|by apply Hthrow].
  rewrite Hb, Hi. specialize (Hret x' y eq_refl). by destruct q; rewrite Nat.add_0_r.
Qed.

(** Whether [malloc] answers the request or not. *)
Lemma runs_make_block q x cap (P : nat → Q * T → Prop) (Pt : X → Q * T → Prop) :
  P (S (mallocs q)) (set_mallocs (S (mallocs q))
       (set_heap (<[S (mallocs q) := Block_new cap]> (heap q)) q), x) →
  ((∃ n size, malloc n size = false) → P 0%nat (set_mallocs (S (mallocs q)) q, x)) →
  runs (on_fst (make_block malloc sizeof_Block alignof_Block sizeof_T alignof_T cap)) (q, x)
    P Pt never.
Proof.
  intros Hok Hno. unfold runs, on_fst, make_block.
  destruct (malloc _ _) eqn:E; [exact Hok|eauto].
Qed.

(** How many elements the queue has room for without further allocations. *)
Definition capacity : Z := (c0 - 1) * Z.max 1 (n0 - 1).

Definition enqueued (canAlloc : bool) (c : category) q leaked items x (ok : bool)
    (s : Q * T) : Prop :=
  same_flags s.1 q ∧
  if ok then ∃ y, forward_ctor c x = (s.2, Returns y) ∧ holds c0 n0 s.1 leaked (items ++ [y])
  else s.2 = x ∧ holds c0 n0 s.1 leaked items ∧ capacity ≤ zlen items ∧
       (canAlloc = true → ∃ n size, malloc n size = false).

Definition enqueue_failed (canAlloc : bool) (c : category) q (leaked : nat) items x (e : X)
    (s : Q * T) : Prop :=
  same_flags s.1 q ∧ forward_ctor c x = (s.2, Throws e) ∧
  ∃ leaked', holds c0 n0 s.1 leaked' items ∧ (leaked ≤ leaked')%nat ∧
    (leaked' ≤ leaked + if canAlloc then 1 else 0)%nat.

(** The room in the tail block, as the producer finds out about it. *)
Lemma runs_room q leaked pre t idle b F LT LF x (P : bool → Q * T → Prop) (Pt : X → Q * T → Prop) :
  ring_at c0 n0 q leaked pre t idle → heap q !! tailBlock q = Some b →
  block_at (s_cap t) (s_items t) F LT LF b →
  (∀ h b' F' LT' LF',
     h !! tailBlock q = Some b' → tail b' = tail b → sizeMask b' = sizeMask b →
     block_at (s_cap t) (s_items t) F' LT' LF' b' →
     F' + zlen (s_items t) + 1 - LF' < s_cap t →
     ring_at c0 n0 (set_heap h q) leaked pre t idle → P true (set_heap h q, x)) →
  (∀ h, full t → ring_at c0 n0 (set_heap h q) leaked pre t idle → P false (set_heap h q, x)) →
  runs (if negb (Z.land (u64 (tail b + 1)) (sizeMask b) =? localFront b) then mret true
        else on_fst (modify_block (tailBlock q) (set_localFront (front b))) ;;
             mret (negb (Z.land (u64 (tail b + 1)) (sizeMask b) =? front b))) (q, x) P Pt never.
Proof.
  intros Hr Hb Hba Hroom Hfull. pose proof (block_at_bounds _ _ _ _ _ _ Hba) as [? ?].
  rewrite (block_seen_room _ _ _ _ _ _ Hba).
  assert (Hlf := ba_LF _ _ _ _ _ _ Hba). assert (Hrm := ba_room _ _ _ _ _ _ Hba).
  destruct (Z.eqb_spec (F + zlen (s_items t) + 1 - LF) (s_cap t)) as [He|He]; simpl.
  - apply runs_bind, (runs_modify_block _ _ _ b); [done|]. apply runs_ret.
    destruct (block_reload_front _ _ _ _ _ _ Hba) as [Hba' ->].
    assert (Hr' : ring_at c0 n0 (set_heap (<[tailBlock q:=set_localFront (front b) b]> (heap q)) q)
      leaked pre t idle).
    { destruct t as [i cap xs]. apply (r_tail_update c0 n0 q leaked pre (Seg i cap xs) idle b);
        [done..|by exists F, LT, F|apply Hr]. }
    destruct (Z.eqb_spec (zlen (s_items t) + 1) (s_cap t)); simpl.
    + apply Hfull; [|done]. unfold full. lia.
    + apply (Hroom _ (set_localFront (front b) b) F LT F);
        [apply lookup_insert_eq|done..| |done]. lia.
  - replace q with (set_heap (heap q) q) in Hr |- * by (by destruct q).
    apply (Hroom _ b F LT LF); try done. lia.
Qed.

Lemma enqueue_here_runs q leaked pre t idle b F LT LF canAlloc c x :
  ring_at c0 n0 q leaked pre t idle → heap q !! tailBlock q = Some b →
  block_at (s_cap t) (s_items t) F LT LF b → F + zlen (s_items t) + 1 - LF < s_cap t →
  runs (enqueue_here c (tailBlock q) (tail b) (Z.land (u64 (tail b + 1)) (sizeMask b))) (q, x)
    (enqueued canAlloc c q leaked (contents pre t) x)
    (enqueue_failed canAlloc c q leaked (contents pre t) x) never.
Proof.
  intros Hr Hb Hba Hroom. unfold enqueue_here. apply runs_bind.
  eapply runs_construct; [done|by eapply block_tail_slot| |].
  - intros x' y Hy. eapply runs_bind, runs_modify_block; [apply lookup_insert_eq|].
    apply runs_ret. simpl. rewrite insert_insert_eq. split; [done|]. exists y. split; [done|].
    exists pre, (with_items (s_items t ++ [y]) t), idle.
    split; [|by unfold contents; rewrite <- app_assoc].
    eapply ring_at_ext; [|done..].
    apply (r_tail_update c0 n0 q leaked pre t idle b (set_tail _ (set_data _ b))); try done.
    + eexists _, _, _. by apply block_push.
    + intros _. by destruct (s_items t).
  - intros x' e He. split_and!; [done..|]. exists leaked. split_and!; [|lia..].
    by exists pre, t, idle.
Qed.

Lemma enqueue_next_runs q leaked pre t s idle canAlloc c x :
  ring_at c0 n0 q leaked pre t (s :: idle) → full t →
  runs (enqueue_next ndebug c (s_id s)) (q, x)
    (enqueued canAlloc c q leaked (contents pre t) x)
    (enqueue_failed canAlloc c q leaked (contents pre t) x) never.
Proof.
  intros Hr Hfull.
  assert (Hseg : seg_at (heap q) s (follows idle (frontBlock q))).
  { pose proof (r_chain _ _ _ _ _ _ _ Hr) as Hc. rewrite <- ring_shift in Hc.
    by apply chain_middle in Hc. }
  destruct (seg_block_at _ _ _ Hseg) as (b & F & LT & LF & Hb & Hn & Hba).
  assert (Hs : s_items s = []) by apply (Forall_inv (r_idle _ _ _ _ _ _ _ Hr)).
  rewrite Hs in Hba. destruct (block_reload_front _ _ _ _ _ _ Hba) as [Hba' _].
  unfold enqueue_next. eapply runs_bind, runs_load; [done|].
  eapply runs_bind, runs_modify_block; [done|].
  apply runs_bind, runs_massert; [by rewrite (block_empty _ _ _ _ _ _ Hba)|].
  eapply runs_bind, runs_modify_block; [apply lookup_insert_eq|]. simpl. rewrite insert_insert_eq.
  apply runs_bind. eapply runs_construct; [apply lookup_insert_eq| | |].
  - change (tail b) with (tail (set_localFront (front b) b)). by eapply block_tail_slot.
  - intros x' y Hy. simpl. rewrite insert_insert_eq.
    eapply runs_bind, runs_modify_block; [apply lookup_insert_eq|]. simpl. rewrite insert_insert_eq.
    apply runs_bind, runs_modify, runs_ret. split; [done|]. exists y. split; [done|].
    exists (pre ++ [t]), (with_items [y] s), idle. split; [|by rewrite contents_snoc].
    eapply ring_at_ext.
    { eapply (r_take_idle c0 n0 q leaked pre t s idle b _ [y]); [done|done|done| | |done].
      2: { exists F, LT, F. apply (block_push _ _ _ _ _ _ y Hba').
           pose proof (block_at_bounds _ _ _ _ _ _ Hba). unfold zlen; simpl; lia. }
      done. }
    all: done.
  - intros x' e He. split_and!; [done..|]. exists leaked. split_and!; [|lia..].
    exists pre, t, (s :: idle). split; [|done].
    eapply ring_at_ext; [|done..].
    apply (r_idle_update c0 n0 q leaked pre t s idle b (set_localFront (front b) b)); try done.
    by exists F, LT, F.
Qed.

(** The size of the next block. *)
Lemma new_size_ok size : cap_ok size → c0 ≤ size →
  let size' := if MAX_BLOCK_SIZE <=? size then size else u64 (size * 2) in
  cap_ok size' ∧ c0 ≤ size'.
Proof using Hmax.
  intros Hs Hc. pose proof (cap_ok_bounds _ Hmax). pose proof (cap_ok_bounds _ Hs).
  destruct (Z.leb_spec MAX_BLOCK_SIZE size) as [|Hlt]; [done|]. cbv zeta.
  destruct Hs as (k & Hk & ->), Hmax as (m & Hm & ->).
  pose proof Hlt as Hkm. apply Z.pow_lt_mono_r_iff in Hkm; [|lia..].
  rewrite u64_small by lia. split; [|lia]. exists (k + 1). split; [lia|].
  rewrite Z.pow_add_r by lia. lia.
Qed.

Lemma enqueue_new_runs q leaked pre t c x :
  ring_at c0 n0 q leaked pre t [] → full t →
  runs (enqueue_new c (tailBlock q)) (q, x)
    (enqueued true c q leaked (contents pre t) x)
    (enqueue_failed true c q leaked (contents pre t) x) never.
Proof using Hmax Hc0.
  intros Hr Hfull. destruct (r_tail_lookup _ _ _ _ _ _ _ Hr) as (b & F & LT & LF & Hb & Hn & Hba).
  destruct (r_largest _ _ _ _ _ _ _ Hr) as [Hcap Hc].
  destruct (new_size_ok _ Hcap Hc) as [Hcap' Hc'].
  unfold enqueue_new. apply runs_bind, runs_gets.
  set (size' := if _ <=? _ then _ else _) in *. clearbody size'. cbv zeta.
  pose proof (Block_new_repr (T := T) size' Hcap') as Hnew.
  pose proof (cap_ok_bounds _ Hcap').
  apply runs_bind, runs_make_block.
  - simpl. apply runs_bind, runs_modify.
    apply runs_bind. eapply runs_construct; [apply lookup_insert_eq|by apply (block_tail_slot _ _ _ _ _ _ Hnew)| |].
    + intros x' y Hy. simpl. rewrite insert_insert_eq.
      eapply runs_bind, runs_load; [apply lookup_insert_eq|].
      apply runs_bind, runs_massert; [done|].
      eapply runs_bind, runs_modify_block; [apply lookup_insert_eq|]. simpl. rewrite insert_insert_eq.
      assert (Hne : S (mallocs q) ≠ tailBlock q).
      { intros Heq. pose proof (r_fresh _ _ _ _ _ _ _ Hr (tailBlock q) ltac:(eauto)). lia. }
      eapply runs_bind, runs_load; [simpl; by rewrite lookup_insert_ne|].
      eapply runs_bind, runs_modify_block; [apply lookup_insert_eq|]. simpl. rewrite insert_insert_eq.
      eapply runs_bind, runs_modify_block; [simpl; by rewrite lookup_insert_ne|].
      apply runs_bind, runs_modify, runs_ret. simpl. split; [done|]. exists y. split; [done|].
      exists (pre ++ [t]), (Seg (S (mallocs q)) size' [y]), [].
      split; [|by rewrite contents_snoc].
      pose proof (r_tail _ _ _ _ _ _ _ Hr) as Ht.
      pose proof (Block_new_push size' y (next b) Hcap') as Hb'. simpl in Hb'.
      rewrite Ht in Hb |- *.
      by eapply ring_at_ext; [eapply (r_new_block c0 n0 q); [done| |done|done| |exact Hb'|done..]|..];
        try done; apply Hr.
    + intros x' e He. split_and!; [done..|]. exists (S leaked). split_and!; [|lia..].
      exists pre, t, []. split; [|done].
      eapply ring_at_ext; [eapply (r_leak c0 n0 q leaked pre t [] _ size'); try done|..]; try done.
      apply (r_lost _ _ _ _ _ _ _ Hr).
  - intros Hno. apply runs_ret. split; [done|]. split_and!; [done| |by eapply full_ring|done].
    exists pre, t, []. split; [|done]. apply r_mallocs; [done|lia].
Qed.

Lemma enqueue_element_runs canAlloc c q leaked items x :
  holds c0 n0 q leaked items →
  runs (enqueue_element canAlloc c) (q, x) (enqueued canAlloc c q leaked items x)
    (enqueue_failed canAlloc c q leaked items x) never.
Proof using Hmax Hc0.
  intros (pre & t & idle & Hr & ->).
  destruct (r_tail_lookup _ _ _ _ _ _ _ Hr) as (b & F & LT & LF & Hb & Hn & Hba).
  unfold enqueue_element. apply runs_bind, runs_gets. eapply runs_bind, runs_load; [done|].
  apply runs_bind. eapply runs_room; [done..| |].
  - intros h b' F' LT' LF' Hb' <- <- Hba' Hroom Hr'.
    by apply (enqueue_here_runs (set_heap h q) leaked pre t idle b' F' LT' LF').
  - intros h Hfull Hr'. apply runs_bind, runs_gets. simpl. rewrite Hn.
    destruct idle as [|s idle]; unfold follows; simpl.
    + rewrite bool_decide_eq_false_2 by auto. destruct canAlloc.
      * by apply (enqueue_new_runs (set_heap h q) leaked pre t).
      * apply runs_ret. split; [done|]. split_and!; [done| |by eapply full_ring|done].
        by exists pre, t, [].
    + rewrite bool_decide_eq_true_2 by (by eapply r_idle_not_front).
      by apply (enqueue_next_runs (set_heap h q) leaked pre t s idle).
Qed.

Lemma inner_enqueue_runs canAlloc c q leaked items x :
  ready c0 n0 q leaked items →
  runs (inner_enqueue canAlloc c) (q, x)
    (λ ok s,
       if (ok : bool)
       then ∃ y, forward_ctor c x = (s.2, Returns y) ∧ ready c0 n0 s.1 leaked (items ++ [y])
       else s.2 = x ∧ ready c0 n0 s.1 leaked items ∧ capacity ≤ zlen items ∧
            (canAlloc = true → ∃ n size, malloc n size = false))
    (λ e s, forward_ctor c x = (s.2, Throws e) ∧
       ∃ leaked', ready c0 n0 s.1 leaked' items ∧ (leaked ≤ leaked')%nat ∧
         (leaked' ≤ leaked + if canAlloc then 1 else 0)%nat) never.
Proof using Hmax Hc0.
  intros (Hh & He & Hd). apply runs_guard; [done|].
  eapply runs_mono;
    [apply (enqueue_element_runs canAlloc c _ leaked items x), holds_entered_enqueue, Hh|..];
    [| |done].
  - intros [|] [q' x'] [Hf Hpost]; simpl in *; naive_solver eauto using ready_enqueued.
  - intros e [q' x'] (Hf & Hx & k & Hk & ?); simpl in *; naive_solver eauto using ready_enqueued.
Qed.
End enqueue.
