(* ===== verification/RwqConsumer.v ===== *)
(** * ReaderWriterQueue: dequeuing, looking and counting *)
From stdpp Require Import gmap.
From S2P Require Import Prelude Lifetime ReaderWriterQueue RwqBlocks RwqRing RwqOps.

#[local] Open Scope Z_scope.

Section consumer.
Context {X T R : Type} (ndebug : bool) (c0 n0 : Z).
#[local] Abbreviation Q := (ReaderWriterQueue T).
#[local] Abbreviation ring_at := (ring_at c0 n0).
#[local] Abbreviation holds := (holds c0 n0).
Implicit Types (q : Q) (r : R).

(** How an element [x] is taken out, with what effect on the variable of the caller:
    [taken] when this returns, [broken] when it throws and leaves another element in
    the queue. *)
Context (take : nat → Z → M X (Q * R) unit).
Context (taken : R → T → R → Prop) (broken : R → T → R → T → X → Prop).
Context (runs_take : ∀ q r p b i x (P : unit → Q * R → Prop) (Pt : X → Q * R → Prop),
  heap q !! p = Some b → slot_at i b = Ok (Some x) →
  (∀ r', taken r x r' →
     P tt (set_heap (<[p := set_data (<[Z.to_nat i := None]> (data b)) b]> (heap q)) q, r')) →
  (∀ r' x' e, broken r x r' x' e →
     Pt e (set_heap (<[p := set_data (<[Z.to_nat i := Some x']> (data b)) b]> (heap q)) q, r')) →
  runs (take p i) (q, r) P Pt never).

(** The outcomes of taking an element out of [items]. *)
Definition consumed q (leaked : nat) (items : list T) r (ok : bool) (s : Q * R) : Prop :=
  same_flags s.1 q ∧
  if ok then ∃ x rest, items = x :: rest ∧ taken r x s.2 ∧ holds s.1 leaked rest
  else items = [] ∧ s.2 = r ∧ holds s.1 leaked [].

Definition consume_failed q (leaked : nat) (items : list T) r (e : X) (s : Q * R) : Prop :=
  same_flags s.1 q ∧
  ∃ x rest x', items = x :: rest ∧ broken r x s.2 x' e ∧ holds s.1 leaked (x' :: rest).

(** The consumer knows that the front block has an element. *)
Lemma take_front q leaked pre t idle b F LT LF x xs r :
  ring_at q leaked pre t idle → heap q !! frontBlock q = Some b →
  front_items pre t = x :: xs → block_at (front_cap pre t) (x :: xs) F LT LF b → F < LT →
  runs (take (frontBlock q) (front b) ;; advance_front (frontBlock q) (front b) ;; mret true)
    (q, r) (consumed q leaked (contents pre t) r) (consume_failed q leaked (contents pre t) r)
    never.
Proof using runs_take.
  intros Hr Hb Hx Hba Hseen. rewrite contents_front, Hx. simpl. apply runs_bind.
  eapply runs_take; [done|by eapply block_front_slot| |].
  - intros r' Hr'. apply runs_bind. unfold advance_front.
    eapply runs_bind, runs_load; [apply lookup_insert_eq|].
    eapply runs_modify_block; [apply lookup_insert_eq|]. simpl. rewrite insert_insert_eq.
    apply runs_ret. split; [done|]. exists x, (xs ++ back_items pre t). split_and!; [done..|].
    pose proof (contents_set_front xs pre t) as Hc.
    pose proof (block_at_repr _ _ _ _ _ _ (block_pop _ _ _ _ _ _ _ Hba Hseen)) as Hba'.
    pose proof (r_front_update c0 n0 q leaked pre t idle b _ xs Hr Hb Hba' eq_refl) as Hr2.
    destruct (set_front_items xs pre t) as [pre' t']. exists pre', t', idle.
    split; [|done]. by eapply ring_at_ext.
  - intros r' x' e He. split; [done|]. exists x, (xs ++ back_items pre t), x'.
    split_and!; [done..|]. pose proof (contents_set_front (x' :: xs) pre t) as Hc.
    pose proof (block_at_repr _ _ _ _ _ _ (block_replace _ _ _ _ _ _ _ x' Hba)) as Hba'.
    pose proof (r_front_update c0 n0 q leaked pre t idle b _ (x' :: xs) Hr Hb Hba' eq_refl) as Hr2.
    destruct (set_front_items (x' :: xs) pre t) as [pre' t']. exists pre', t', idle. done.
Qed.

(** What the consumer finds out about the front block. *)
Lemma runs_non_empty_front {S} q leaked pre t idle b F LT LF (r : S)
    (P : bool → Q * S → Prop) (Pt : X → Q * S → Prop) :
  ring_at q leaked pre t idle → heap q !! frontBlock q = Some b →
  block_at (front_cap pre t) (front_items pre t) F LT LF b →
  (∀ h b' LT' x xs,
     front_items pre t = x :: xs → h !! frontBlock q = Some b' → front b' = front b →
     block_at (front_cap pre t) (x :: xs) F LT' LF b' → F < LT' →
     ring_at (set_heap h q) leaked pre t idle → P true (set_heap h q, r)) →
  (∀ h b', h !! frontBlock q = Some b' → next b' = next b → tail b' = front b' →
     front_items pre t = [] → ring_at (set_heap h q) leaked pre t idle →
     P false (set_heap h q, r)) →
  runs (non_empty_front (frontBlock q) b) (q, r) P Pt never.
Proof.
  intros Hr Hb Hba Htrue Hfalse. unfold non_empty_front.
  rewrite (block_seen_nonempty _ _ _ _ _ _ Hba). pose proof (ba_LT _ _ _ _ _ _ Hba).
  destruct (Z.eqb_spec F LT) as [->|Hne]; simpl.
  - eapply runs_bind, runs_modify_block; [done|]. apply runs_ret.
    pose proof (block_reload_tail _ _ _ _ _ _ Hba) as Hba'.
    pose proof (r_front_refresh c0 n0 q leaked pre t idle b _ Hr Hb
      (block_at_repr _ _ _ _ _ _ Hba') eq_refl) as Hr'.
    rewrite (block_empty _ _ _ _ _ _ Hba). destruct (front_items pre t) as [|x xs] eqn:Hx; simpl.
    + eapply Hfalse; [apply lookup_insert_eq|done| |done|done].
      pose proof (block_empty _ _ _ _ _ _ Hba) as He%Z.eqb_eq. done.
    + eapply Htrue; [done|apply lookup_insert_eq|done|done| |done]. unfold zlen. simpl. lia.
  - replace q with (set_heap (heap q) q) in Hr |- * by (by destruct q).
    destruct (front_items pre t) as [|x xs] eqn:Hx; [unfold zlen in *; simpl in *; lia|].
    eapply Htrue; try done. lia.
Qed.

(** The consumer looks at the tail of the front block once more. *)
Lemma r_front_reload q leaked pre t idle b :
  ring_at q leaked pre t idle → heap q !! frontBlock q = Some b →
  ring_at (set_heap (<[frontBlock q := set_localTail (tail b) b]> (heap q)) q) leaked pre t idle.
Proof.
  intros Hr Hb. pose proof (r_front_lookup _ _ _ _ _ _ _ Hr) as (b' & F & LT & LF & Hb' & _ & Hba).
  simplify_eq. apply (r_front_refresh c0 n0 q leaked pre t idle b); [done..| |done].
  by eapply block_at_repr, block_reload_tail.
Qed.

(** The front block is empty and there is another one ahead. *)
Lemma take_next q leaked s pre t idle b F LT LF r :
  ring_at q leaked (s :: pre) t idle → s_items s = [] →
  heap q !! follows pre (s_id t) = Some b →
  block_at (front_cap pre t) (front_items pre t) F LT LF b →
  runs (on_fst (modify_block (follows pre (s_id t)) (set_localTail (tail b))) ;;
        on_fst (massert ndebug (negb (front b =? tail b))) ;;
        modify (fun '(q, r) => (set_frontBlock (follows pre (s_id t)) q, r)) ;;
        take (follows pre (s_id t)) (front b) ;;
        advance_front (follows pre (s_id t)) (front b) ;; mret true)
    (q, r) (consumed q leaked (contents pre t) r) (consume_failed q leaked (contents pre t) r)
    never.
Proof using runs_take.
  intros Hr Hs Hb Hba. pose proof (r_next_nonempty _ _ _ _ _ _ _ _ Hr) as Hne.
  eapply runs_bind, runs_modify_block; [done|].
  apply runs_bind, runs_massert; [by rewrite (block_empty _ _ _ _ _ _ Hba), bool_decide_eq_false_2|].
  apply runs_bind, runs_modify. apply r_rotate in Hr; [|done].
  pose proof (block_reload_tail _ _ _ _ _ _ Hba) as Hba'.
  pose proof (r_front_refresh c0 n0 _ leaked pre t _ b _ Hr Hb
    (block_at_repr _ _ _ _ _ _ Hba') eq_refl) as Hr'.
  destruct (front_items pre t) as [|x xs] eqn:Hx; [done|].
  apply (take_front _ leaked pre t (idle ++ [s]) (set_localTail (tail b) b) F
    (F + zlen (x :: xs)) LF x xs r Hr'); [apply lookup_insert_eq|done|done|].
  unfold zlen. simpl. lia.
Qed.

Lemma consume_runs q leaked items r :
  holds q leaked items →
  runs (consume ndebug take) (q, r) (consumed q leaked items r) (consume_failed q leaked items r)
    never.
Proof using runs_take.
  intros (pre & t & idle & Hr & ->).
  destruct (r_front_lookup _ _ _ _ _ _ _ Hr) as (b & F & LT & LF & Hb & Hn & Hba).
  unfold consume. apply runs_bind, runs_gets. eapply runs_bind, runs_load; [done|].
  apply runs_bind. eapply runs_non_empty_front; [done..| |].
  - intros h b' LT' x xs Hx Hb' <- Hba' Hseen Hr'.
    by apply (take_front (set_heap h q) leaked pre t idle b' F LT' LF x xs r Hr').
  - intros h b' Hb' Hnext He Hx Hr'. apply runs_bind, runs_gets. simpl.
    pose proof (r_front_is_tail _ _ _ _ _ _ _ Hr) as Hft. destruct pre as [|s pre].
    + rewrite bool_decide_eq_false_2 by tauto. apply runs_ret. split; [done|]. simpl in *.
      assert (Hitems : contents [] t = []) by (unfold contents; simpl; by rewrite Hx).
      rewrite Hitems. split_and!; [done..|]. exists [], t, idle. by rewrite Hitems.
    + rewrite bool_decide_eq_true_2 by (intros Heq; by apply Hft in Heq).
      apply runs_bind, runs_gets, runs_bind. unfold reload_front.
      eapply runs_bind, runs_load; [done|]. eapply runs_bind, runs_modify_block; [done|].
      apply runs_ret. rewrite He, Z.eqb_refl. simpl. rewrite Hnext, Hn. simpl.
      rewrite follows_app. apply (r_front_reload _ _ _ _ _ b') in Hr'; [|done].
      rewrite He in Hr'.
      pose proof (r_rotate _ _ _ _ _ _ _ _ Hr' Hx) as Hrot.
      destruct (r_front_lookup _ _ _ _ _ _ _ Hrot) as (b2 & F2 & LT2 & LF2 & Hb2 & _ & Hba2).
      eapply runs_bind, runs_load; [exact Hb2|].
      replace (contents (s :: pre) t) with (contents pre t)
        by (unfold contents; simpl in *; by rewrite Hx).
      exact (take_next _ leaked s pre t idle b2 _ _ _ r Hr' Hx Hb2 Hba2).
Qed.

Lemma guarded_consume_runs q leaked items r :
  ready c0 n0 q leaked items →
  runs (ReentrantGuard ndebug dequeuing set_dequeuing (consume ndebug take)) (q, r)
    (λ ok s,
       if (ok : bool)
       then ∃ x rest, items = x :: rest ∧ taken r x s.2 ∧ ready c0 n0 s.1 leaked rest
       else items = [] ∧ s.2 = r ∧ ready c0 n0 s.1 leaked [])
    (λ e s, ∃ x rest x', items = x :: rest ∧ broken r x s.2 x' e ∧
       ready c0 n0 s.1 leaked (x' :: rest)) never.
Proof using runs_take.
  intros (Hh & He & Hd). apply runs_guard; [done|].
  eapply runs_mono; [apply (consume_runs _ leaked items r), holds_entered_dequeue, Hh|..];
    [| |done].
  - intros [|] [q' r'] [Hf Hpost]; simpl in *; naive_solver eauto using ready_dequeued.
  - intros e [q' r'] [Hf Hpost]; simpl in *; naive_solver eauto using ready_dequeued.
Qed.
End consumer.

Section members.
Context {X T : Type} (ndebug : bool) (c0 n0 : Z).
#[local] Abbreviation Q := (ReaderWriterQueue T).
#[local] Abbreviation ring_at := (ring_at c0 n0).
#[local] Abbreviation ready := (ready c0 n0).
Implicit Types (q : Q).

Lemma runs_move_result {U} (assign_result : U → T → U * T * completion X unit) q r p b i x
    (P : unit → Q * U → Prop) (Pt : X → Q * U → Prop) :
  heap q !! p = Some b → slot_at i b = Ok (Some x) →
  (∀ r', (∃ x', assign_result r x = (r', x', Returns tt)) →
     P tt (set_heap (<[p := set_data (<[Z.to_nat i := None]> (data b)) b]> (heap q)) q, r')) →
  (∀ r' x' e, assign_result r x = (r', x', Throws e) →
     Pt e (set_heap (<[p := set_data (<[Z.to_nat i := Some x']> (data b)) b]> (heap q)) q, r')) →
  runs (move_result assign_result p i) (q, r) P Pt never.
Proof.
  intros Hb Hi Hret Hthrow. unfold move_result.
  eapply runs_bind, runs_element_at; [done..|]. apply runs_bind.
  unfold runs at 1, set_slot, modify_block. rewrite Hb.
  destruct (assign_result r x) as [[r' x'] [[]|e]] eqn:E; [|by apply Hthrow].
  eapply runs_destroy_at; [apply lookup_insert_eq|by eapply slot_at_set|]. simpl.
  rewrite insert_insert_eq, list_insert_insert_eq. eapply Hret. eauto.
Qed.

Lemma try_dequeue_runs {U} (assign_result : U → T → U * T * completion X unit) q leaked items r :
  ready q leaked items →
  runs (try_dequeue ndebug assign_result) (q, r)
    (λ ok s,
       if (ok : bool)
       then ∃ x rest, items = x :: rest ∧ (∃ x', assign_result r x = (s.2, x', Returns tt)) ∧
              ready s.1 leaked rest
       else items = [] ∧ s.2 = r ∧ ready s.1 leaked [])
    (λ e s, ∃ x rest x', items = x :: rest ∧ assign_result r x = (s.2, x', Throws e) ∧
       ready s.1 leaked (x' :: rest)) never.
Proof.
  intros Hq. apply (guarded_consume_runs ndebug c0 n0 _ (λ r x r', ∃ x', assign_result r x = (r', x', Returns tt))
    (λ r x r' x' e, assign_result r x = (r', x', Throws e))); [|done].
  apply runs_move_result.
Qed.

Lemma pop_runs {R} q leaked items (r : R) :
  ready q leaked items →
  runs (pop (X := X) ndebug) (q, r)
    (λ ok s, s.2 = r ∧
       if (ok : bool) then ∃ x rest, items = x :: rest ∧ ready s.1 leaked rest
       else items = [] ∧ ready s.1 leaked [])
    (λ _ _, False) never.
Proof.
  intros Hq. eapply runs_mono;
    [apply (guarded_consume_runs ndebug c0 n0 _ (λ r _ r', r' = r) (λ _ _ _ _ _, False) ) with (2 := Hq)|..];
    [| | |done].
  - intros. eapply runs_destroy_at; eauto.
  - intros [|] s; naive_solver.
  - naive_solver.
Qed.

Definition peeked q leaked items {R} (r : R) (a : option (nat * Z)) (s : Q * R) : Prop :=
  same_flags s.1 q ∧ s.2 = r ∧ holds c0 n0 s.1 leaked items ∧ (a ≫= pointee s.1) = head items.

Lemma peeked_front q leaked pre t idle b F LT LF x xs {R} (r : R) :
  ring_at q leaked pre t idle → heap q !! frontBlock q = Some b →
  block_at (front_cap pre t) (x :: xs) F LT LF b → front_items pre t = x :: xs →
  peeked q leaked (contents pre t) r (Some (frontBlock q, front b)) (q, r).
Proof.
  intros Hr Hb Hba Hx. split_and!; [done|done|by exists pre, t, idle|]. simpl.
  unfold pointee. simpl. rewrite Hb. simpl. rewrite (block_front_slot _ _ _ _ _ _ _ Hba).
  by rewrite contents_front, Hx.
Qed.

Lemma peek_element_runs q leaked items {R} (r : R) :
  holds c0 n0 q leaked items →
  runs (peek_element (X := X) ndebug) (q, r) (peeked q leaked items r) (λ _ _, False) never.
Proof.
  intros (pre & t & idle & Hr & ->).
  destruct (r_front_lookup _ _ _ _ _ _ _ Hr) as (b & F & LT & LF & Hb & Hn & Hba).
  unfold peek_element. apply runs_bind, runs_gets. eapply runs_bind, runs_load; [done|].
  apply runs_bind. eapply runs_non_empty_front; [done..| |].
  - intros h b' LT' x xs Hx Hb' <- Hba' Hseen Hr'. apply runs_ret.
    by apply (peeked_front (set_heap h q) leaked pre t idle b' F LT' LF x xs r Hr').
  - intros h b' Hb' Hnext He Hx Hr'. apply runs_bind, runs_gets. simpl.
    pose proof (r_front_is_tail _ _ _ _ _ _ _ Hr) as Hft. destruct pre as [|s pre].
    + rewrite bool_decide_eq_false_2 by tauto. apply runs_ret.
      split_and!; [done|done|by exists [], t, idle|]. unfold contents. simpl in *. by rewrite Hx.
    + rewrite bool_decide_eq_true_2 by (intros Heq; by apply Hft in Heq).
      apply runs_bind, runs_gets, runs_bind. unfold reload_front.
      eapply runs_bind, runs_load; [done|]. eapply runs_bind, runs_modify_block; [done|].
      apply runs_ret. rewrite He, Z.eqb_refl. simpl. rewrite Hnext, Hn. simpl.
      rewrite follows_app. apply (r_front_reload _ _ _ _ _ _ _ b') in Hr'; [|done].
      rewrite He in Hr'. pose proof (r_rotate _ _ _ _ _ _ _ _ Hr' Hx) as Hrot.
      destruct (r_front_lookup _ _ _ _ _ _ _ Hrot) as (b2 & F2 & LT2 & LF2 & Hb2 & _ & Hba2).
      pose proof (r_next_nonempty _ _ _ _ _ _ _ _ Hr') as Hne.
      eapply runs_bind, runs_load; [exact Hb2|].
      apply runs_bind, runs_massert;
        [by rewrite (block_empty _ _ _ _ _ _ Hba2), bool_decide_eq_false_2|].
      apply runs_ret. destruct (front_items pre t) as [|x xs] eqn:Hxs; [done|].
      assert (Hc : contents (s :: pre) t = contents pre t)
        by (unfold contents; simpl in *; by rewrite Hx).
      pose proof (peeked_front _ _ _ _ _ _ _ _ _ x xs r Hrot Hb2 Hba2 Hxs) as (_ & _ & _ & Hp).
      rewrite Hc. split_and!; [done|done| |exact Hp]. rewrite <- Hc. by exists (s :: pre), t, idle.
Qed.

Lemma peek_runs q leaked items {R} (r : R) :
  ready q leaked items →
  runs (peek (X := X) ndebug) (q, r)
    (λ a s, s.2 = r ∧ ready s.1 leaked items ∧ (a ≫= pointee s.1) = head items)
    (λ _ _, False) never.
Proof.
  intros (Hh & He & Hd). apply runs_guard; [done|].
  eapply runs_mono; [apply (peek_element_runs _ leaked items r), holds_entered_dequeue, Hh|..];
    [|done|done].
  intros a [q' r'] (Hf & Hr & Hq' & Ha); simpl in *. split_and!; [done|by eapply ready_dequeued|].
  by destruct ndebug.
Qed.
End members.
