(* ===== verification/RwqLifecycle.v ===== *)
(** * ReaderWriterQueue: construction, destruction and size *)
From stdpp Require Import gmap.
From S2P Require Import Prelude Lifetime ReaderWriterQueue RwqBlocks RwqRing RwqOps.

#[local] Open Scope Z_scope.

(** ** Counting *)
Section size.
Context {X T : Type} (c0 n0 : Z).
#[local] Abbreviation Q := (ReaderWriterQueue T).
Implicit Types (q : Q) (l : list (seg T)).

(** The last block of a ring is the one that is followed by the first one. *)
Lemma ring_end l stop : NoDup (stop :: (s_id <$> l)) → follows l stop = stop ↔ l = [].
Proof.
  destruct l as [|s' l]; [done|]. intros [Hin _]%NoDup_cons. split; [|done].
  unfold follows. simpl. intros Heq. exfalso. apply Hin. rewrite <- Heq. by left.
Qed.

Lemma ring_rest s l stop :
  NoDup (stop :: (s_id <$> s :: l)) → NoDup (stop :: (s_id <$> l)).
Proof.
  rewrite fmap_cons, !NoDup_cons, not_elem_of_cons. intros [[_ H1] [_ H2]]. by split.
Qed.

Lemma block_size cap xs F LT LF (b : Block T) :
  block_at cap xs F LT LF b → Z.land (u64 (tail b - front b)) (sizeMask b) = zlen xs.
Proof.
  intros Hb. pose proof (block_at_bounds _ _ _ _ _ _ Hb) as [? ?].
  rewrite (ba_tail _ _ _ _ _ _ Hb), (ba_front _ _ _ _ _ _ Hb), (ba_mask _ _ _ _ _ _ Hb).
  rewrite index_difference by (first [by eapply ba_cap|lia]). lia.
Qed.

Lemma count_blocks_runs q stop l : ∀ fuel s z (P : Z → Q → Prop) (Pt : X → Q → Prop),
  chain (heap q) (s :: l) stop → NoDup (stop :: (s_id <$> l)) → (length l < fuel)%nat →
  P (u64 (z + zlen (concat (s_items <$> s :: l)))) q →
  runs (count_blocks fuel (u64 z) (s_id s) stop) q P Pt never.
Proof.
  induction l as [|s' l IH]; intros [|fuel] s z P Pt [Hs Hl] Hnd Hfuel HP; try (simpl in *; lia);
    apply seg_block_at in Hs as (b & F & LT & LF & Hb & Hn & Hba); simpl;
    (apply runs_bind; unfold runs at 1, load_block; rewrite Hb);
    rewrite (block_size _ _ _ _ _ _ Hba), Hn, u64_add.
  - rewrite bool_decide_eq_true_2 by done. apply runs_ret. simpl in HP.
    by rewrite app_nil_r in HP.
  - rewrite bool_decide_eq_false_2 by (rewrite (ring_end _ _ Hnd); discriminate).
    unfold follows. simpl. apply IH; [done| |simpl in *; lia|].
    + by eapply ring_rest.
    + revert HP. simpl. by rewrite !zlen_app, !Z.add_assoc.
Qed.

Lemma idle_contents l : Forall (λ s, s_items s = []) l → concat (s_items <$> l) = [].
Proof. induction 1 as [|s l Hs Hl IH]; [done|]. by rewrite fmap_cons, concat_cons, Hs, IH. Qed.

Lemma ring_contents pre (t : seg T) idle : Forall (λ s, s_items s = []) idle →
  concat (s_items <$> pre ++ t :: idle) = contents pre t.
Proof.
  intros Hidle. unfold contents. rewrite fmap_app, concat_app, fmap_cons, concat_cons.
  by rewrite (idle_contents idle Hidle), app_nil_r.
Qed.

(** The ring as a list of which the front block is the first element. *)
Lemma ring_from_front q leaked pre t idle : ring_at c0 n0 q leaked pre t idle →
  ∃ s l, pre ++ t :: idle = s :: l ∧ frontBlock q = s_id s ∧ NoDup (s_id s :: (s_id <$> l)) ∧
    chain (heap q) (s :: l) (s_id s) ∧ size (heap q) = (S (length l) + leaked)%nat ∧
    concat (s_items <$> s :: l) = contents pre t.
Proof.
  intros Hr. pose proof (ring_contents pre t idle (r_idle _ _ _ _ _ _ _ Hr)) as Hc.
  pose proof (r_front _ _ _ _ _ _ _ Hr) as Hf. pose proof (r_chain _ _ _ _ _ _ _ Hr) as Hch.
  pose proof (r_nodup _ _ _ _ _ _ _ Hr) as Hnd. pose proof (r_size _ _ _ _ _ _ _ Hr) as Hs.
  assert (Hl : ∃ s l, pre ++ t :: idle = s :: l ∧ frontBlock q = s_id s).
  { destruct pre as [|s pre]; [by exists t, idle|by exists s, (pre ++ t :: idle)]. }
  destruct Hl as (s & l & Hl & Hfs). rewrite Hl in *. rewrite Hfs in Hch.
  exists s, l. split_and!; done.
Qed.

Lemma size_approx_runs q leaked items :
  holds c0 n0 q leaked items →
  size_approx (X := X) q = Ok (q, Returns (u64 (zlen items))).
Proof.
  intros (pre & t & idle & Hr & ->).
  destruct (ring_from_front _ _ _ _ _ Hr) as (s & l & Hl & Hf & Hnd & Hc & Hs & Hitems).
  assert (Hrun : runs (size_approx (X := X)) q (λ z q', z = u64 (zlen (contents pre t)) ∧ q' = q)
    (λ _ _, False) never).
  { unfold size_approx. apply runs_bind, runs_gets, runs_bind, runs_gets. rewrite Hf.
    change 0 with (u64 0). apply count_blocks_runs with (l := l); [done..|lia|].
    by rewrite Hitems. }
  unfold runs in Hrun. destruct (size_approx q) as [[q' [z|?]]|]; [|done..].
  by destruct Hrun as [-> ->].
Qed.
End size.

(** ** Destruction *)
Section destruction.
Context {X T : Type} (c0 n0 : Z).
#[local] Abbreviation Q := (ReaderWriterQueue T).
Implicit Types (q : Q) (l : list (seg T)).

(** No object lives in a block that is empty. *)
Lemma empty_block_dead cap F LT LF (b : Block T) :
  block_at cap [] F LT LF b → live_objects b = [].
Proof.
  intros Hb. pose proof (block_at_bounds _ _ _ _ _ _ Hb) as [? _].
  assert (Hnone : Forall (.= None) (data b)).
  { apply Forall_lookup. intros i o Hi. pose proof (lookup_lt_Some _ _ _ Hi) as Hlt.
    pose proof (ba_data _ _ _ _ _ _ Hb) as Hlen. unfold zlen in Hlen.
    pose proof (Z.mod_pos_bound (Z.of_nat i - F) cap ltac:(lia)).
    set (p := F + (Z.of_nat i - F) mod cap).
    assert (Hp : p mod cap = Z.of_nat i).
    { unfold p. rewrite Zplus_mod_idemp_r.
      replace (F + (Z.of_nat i - F)) with (Z.of_nat i) by lia. apply Z.mod_small. lia. }
    pose proof (ba_slots _ _ _ _ _ _ Hb p ltac:(lia)) as Hs.
    rewrite Hp, Nat2Z.id, lookup_nil in Hs. congruence. }
  unfold live_objects. induction Hnone as [|o d -> Hd IH]; [done|]. simpl. done.
Qed.

(** The loop over the elements of a block; [b] as it would be with its indices
    updated. *)
Lemma destroy_elements_runs xs : ∀ fuel q p (b : Block T) cap F LF i
    (P : unit → Q → Prop) (Pt : X → Q → Prop),
  heap q !! p = Some b →
  block_at cap xs F (F + zlen xs) LF (set_front i (set_localTail (tail b) b)) →
  (length xs ≤ fuel)%nat →
  (∀ b', next b' = next b → live_objects b' = [] →
     P tt (set_heap (<[p := b']> (heap q)) q)) →
  runs (destroy_elements fuel p i (tail b)) q P Pt never.
Proof.
  induction xs as [|x xs IH]; intros fuel q p b cap F LF i P Pt Hb Hba Hfuel HP;
    pose proof (block_empty _ _ _ _ _ _ Hba) as Hempty; simpl in Hempty;
    destruct fuel as [|fuel]; simpl; rewrite Hempty; try (simpl in Hfuel; lia).
  1, 2: apply runs_ret; specialize (HP b eq_refl (empty_block_dead _ _ _ _ _ Hba));
    by rewrite (insert_id (heap q) p b Hb), set_heap_id in HP.
  pose proof (block_front_slot _ _ _ _ _ _ _ Hba) as Hslot.
  apply runs_bind. unfold runs at 1, destroy_at, element_at, set_slot, modify_block.
  unfold mbind, M_bind. rewrite Hb. change (slot_at i b = Ok (Some x)) in Hslot.
  rewrite Hslot, Hb. apply runs_bind. unfold runs at 1, load_block. simpl.
  rewrite lookup_insert_eq.
  assert (Hlt : F < F + zlen (x :: xs)) by (unfold zlen; simpl; lia).
  pose proof (block_pop _ _ _ _ _ _ _ Hba Hlt) as Hba'.
  replace (F + zlen (x :: xs)) with (F + 1 + zlen xs) in Hba' by (unfold zlen; simpl; lia).
  apply (IH fuel _ p (set_data (<[Z.to_nat i := None]> (data b)) b) cap (F + 1) LF _ P Pt
    (lookup_insert_eq _ _ _) Hba'); [simpl in *; lia|].
  intros b' Hn Hd. simpl. rewrite insert_insert_eq. by apply HP.
Qed.

(** A block and its elements. *)
Lemma destroy_block_runs q p (b : Block T) cap xs F LT LF (P : unit → Q → Prop)
    (Pt : X → Q → Prop) :
  heap q !! p = Some b → block_at cap xs F LT LF b → P tt (set_heap (delete p (heap q)) q) →
  runs (destroy_elements (length (data b)) p (front b) (tail b) ;; free_block p) q P Pt never.
Proof.
  intros Hb Hba HP. apply runs_bind.
  pose proof (block_at_bounds _ _ _ _ _ _ Hba). pose proof (ba_data _ _ _ _ _ _ Hba).
  apply (destroy_elements_runs xs _ q p b cap F LF (front b) _ _ Hb);
    [exact (block_reload_tail _ _ _ _ _ _ Hba)|unfold zlen in *; lia|].
  intros b' _ Hd. unfold runs, free_block. simpl.
  rewrite lookup_insert_eq, Hd, delete_insert_eq. simpl. by destruct q; rewrite Nat.add_0_r.
Qed.

Lemma size_delete_some (h : gmap nat (Block T)) p b :
  h !! p = Some b → size h = S (size (delete p h)).
Proof.
  intros Hp. rewrite map_size_delete_Some by eauto.
  pose proof (map_size_ne_0_lookup_2 h p ltac:(eauto)). lia.
Qed.

(** The loop over the blocks, from [s] on. *)
Lemma destroy_blocks_runs stop l : ∀ fuel q s (P : unit → Q → Prop) (Pt : X → Q → Prop),
  chain (heap q) (s :: l) stop → NoDup (s_id s :: (s_id <$> l)) →
  NoDup (stop :: (s_id <$> l)) → (length l < fuel)%nat →
  (∀ h, size (heap q) = (size h + S (length l))%nat → P tt (set_heap h q)) →
  runs (destroy_blocks fuel (s_id s) stop) q P Pt never.
Proof.
  induction l as [|s' l IH]; intros [|fuel] q s P Pt [Hs Hl] Hnd Hstop Hfuel HP;
    try (simpl in *; lia); apply seg_block_at in Hs as (b & F & LT & LF & Hb & Hn & Hba); simpl;
    (apply runs_bind; unfold runs at 1, load_block; rewrite Hb);
    pose proof (size_delete_some _ _ _ Hb) as Hsize;
    rewrite Hn; apply runs_bind_assoc, runs_bind;
    (eapply destroy_block_runs; [done..|]).
  - rewrite bool_decide_eq_true_2 by done. apply runs_ret, HP. simpl. lia.
  - rewrite bool_decide_eq_false_2 by (rewrite (ring_end _ _ Hstop); discriminate).
    unfold follows. simpl. apply NoDup_cons in Hnd as [Hin Hnd]. apply IH; try done.
    + by apply chain_frame_delete.
    + by eapply ring_rest.
    + simpl in *. lia.
    + intros h Hh. apply (HP h). simpl in *. lia.
Qed.

Lemma queue_dtor_runs q leaked items :
  holds c0 n0 q leaked items →
  ∃ q', queue_dtor (X := X) q = Ok (q', Returns tt) ∧ size (heap q') = leaked ∧ lost q' = 0%nat.
Proof.
  intros (pre & t & idle & Hr & ->).
  destruct (ring_from_front _ _ _ _ _ _ _ Hr) as (s & l & Hl & Hf & Hnd & Hc & Hs & Hitems).
  assert (Hrun : runs (queue_dtor (X := X)) q
    (λ _ q', size (heap q') = leaked ∧ lost q' = 0%nat) (λ _ _, False) never).
  { unfold queue_dtor. apply runs_bind, runs_gets, runs_bind, runs_gets. rewrite Hf.
    apply (destroy_blocks_runs (s_id s) l); [done..|lia|]. intros h Hh. simpl.
    split; [lia|]. by apply Hr. }
  unfold runs in Hrun. destruct (queue_dtor q) as [[q' [[]|?]]|]; [|done..]. by exists q'.
Qed.
End destruction.

(** ** Construction *)
Section construction.
Context {X T : Type}.
Context (MAX_BLOCK_SIZE : Z) (ndebug : bool) (malloc : nat → Z → bool) (bad_alloc : X).
Context (sizeof_Block alignof_Block sizeof_T alignof_T : Z).
Context (Hmax : cap_ok MAX_BLOCK_SIZE) (Hmax_fits : MAX_BLOCK_SIZE ≤ 2 ^ 61).
#[local] Abbreviation Q := (ReaderWriterQueue T).
#[local] Abbreviation make_block :=
  (make_block (X := X) (T := T) malloc sizeof_Block alignof_Block sizeof_T alignof_T).
#[local] Abbreviation initial_blocks :=
  (initial_blocks (X := X) (T := T) malloc bad_alloc sizeof_Block alignof_Block sizeof_T alignof_T).
#[local] Abbreviation queue_ctor :=
  (queue_ctor (X := X) (T := T) MAX_BLOCK_SIZE ndebug malloc bad_alloc sizeof_Block alignof_Block
     sizeof_T alignof_T).
Implicit Types (q : Q) (l : list (seg T)).

(** The ring under construction: the blocks of [l], then [s]. *)
Record building q (cap : Z) l s : Prop := {
  bu_nodup : NoDup (s_id <$> l ++ [s]);
  bu_chain : chain (heap q) (l ++ [s]) (follows l (s_id s));
  bu_segs : Forall (λ s, s_cap s = cap ∧ s_items s = []) (l ++ [s]);
  bu_fresh p : is_Some (heap q !! p) → (0 < p ≤ mallocs q)%nat;
  bu_size : size (heap q) = length (l ++ [s]);
  bu_largest : largestBlockSize q = cap;
  bu_cap : cap_ok cap;
  bu_clean : lost q = 0%nat ∧ enqueuing q = false ∧ dequeuing q = false
}.

(** A request for memory that was turned down. *)
Definition out_of_memory : Prop := ∃ n size, malloc n size = false.

Lemma make_block_cases cap q :
  make_block cap q = Ok (set_mallocs (S (mallocs q))
    (set_heap (<[S (mallocs q) := Block_new cap]> (heap q)) q), Returns (S (mallocs q))) ∨
  make_block cap q = Ok (set_mallocs (S (mallocs q)) q, Returns 0%nat) ∧ out_of_memory.
Proof.
  unfold make_block. destruct (malloc _ _) eqn:E; [by left|right].
  unfold out_of_memory. eauto.
Qed.

(** The first block, linked to itself. *)
Lemma building_start q cap :
  heap q = ∅ → mallocs q = 0%nat → largestBlockSize q = cap → cap_ok cap →
  lost q = 0%nat ∧ enqueuing q = false ∧ dequeuing q = false →
  building (set_heap {[1%nat := set_next 1 (Block_new cap)]} (set_mallocs 1 q)) cap []
    (Seg 1 cap []).
Proof.
  intros Hh Hm Hl Hcap Hclean. pose proof (Block_new_repr (T := T) cap Hcap) as Hnew.
  constructor; simpl; try done.
  - apply NoDup_singleton.
  - split; [|done]. eexists. rewrite lookup_singleton_eq. split_and!; [done|done|].
    exists 0, 0, 0. destruct Hnew. by constructor.
  - by apply Forall_singleton.
  - intros p [b [<- _]%lookup_singleton_Some]. lia.
Qed.

(** One more block behind the last one. *)
Lemma building_add q cap l s b p :
  building q cap l s → heap q !! s_id s = Some b → p = S (mallocs q) →
  building (set_heap (<[p := set_next (follows l (s_id s)) (Block_new cap)]>
                        (<[s_id s := set_next p b]> (heap q))) (set_mallocs p q))
    cap (l ++ [s]) (Seg p cap []).
Proof.
  intros Hbu Hb ->.
  assert (Hnone : heap q !! S (mallocs q) = None).
  { destruct (heap q !! S (mallocs q)) eqn:E; [|done].
    pose proof (bu_fresh _ _ _ _ Hbu (S (mallocs q)) ltac:(eauto)). lia. }
  assert (Hp : S (mallocs q) ∉ s_id <$> l ++ [s]).
  { intros (s' & Hs & Hin)%list_elem_of_fmap.
    destruct (chain_lookup _ _ _ _ Hin (bu_chain _ _ _ _ Hbu)) as [b' Hb']. congruence. }
  assert (Hne : s_id s ≠ S (mallocs q)) by (intros Heq; rewrite Heq in Hb; congruence).
  pose proof (Block_new_repr (T := T) cap (bu_cap _ _ _ _ Hbu)) as Hnew.
  destruct Hbu. rename bu_nodup0 into Hnd, bu_chain0 into Hch.
  constructor; simpl; try done.
  - rewrite fmap_app. apply NoDup_app. split_and!; [done| |apply NoDup_singleton].
    intros r Hr Heq%list_elem_of_singleton. simpl in Heq. congruence.
  - rewrite follows_snoc. apply chain_app. split.
    + apply chain_frame; [done|]. by eapply chain_update_last.
    + split; [|done]. eexists. rewrite lookup_insert_eq. split_and!; [done|done|].
      exists 0, 0, 0. destruct Hnew. by constructor.
  - rewrite Forall_app, Forall_singleton. done.
  - intros r. destruct (decide (r = S (mallocs q))) as [->|]; [lia|].
    rewrite lookup_insert_ne by done. destruct (decide (r = s_id s)) as [->|].
    + intros _. pose proof (bu_fresh0 (s_id s) ltac:(eauto)). lia.
    + rewrite lookup_insert_ne by done. intros Hr%bu_fresh0. lia.
  - rewrite map_size_insert_None by (by rewrite lookup_insert_ne).
    rewrite (size_insert_some _ _ b) by done. rewrite bu_size0, !length_app. simpl. lia.
Qed.

Lemma building_last q cap l s : building q cap l s → ∃ b, heap q !! s_id s = Some b.
Proof.
  intros Hbu. apply (chain_lookup (heap q) (l ++ [s]) (follows l (s_id s))); [|apply Hbu].
  apply elem_of_app. right. by left.
Qed.

Lemma building_first q cap l s : building q cap l s → follows l (s_id s) ≠ 0%nat.
Proof.
  intros Hbu. assert (Hin : ∃ s', s' ∈ l ++ [s] ∧ s_id s' = follows l (s_id s)).
  { destruct l as [|s' l]; eexists; (split; [by left|done]). }
  destruct Hin as (s' & Hin & <-).
  pose proof (chain_lookup _ _ _ _ Hin (bu_chain _ _ _ _ Hbu)) as Hb.
  pose proof (bu_fresh _ _ _ _ Hbu _ Hb). lia.
Qed.

Lemma initial_blocks_runs cap n : ∀ q l s,
  building q cap l s →
  runs (initial_blocks n (follows l (s_id s)) (s_id s)) q
    (λ p q', ∃ l' s', building q' cap l' s' ∧ length l' = (length l + n)%nat ∧
       p = follows l' (s_id s'))
    (λ e _, e = bad_alloc ∧ out_of_memory) never.
Proof.
  induction n as [|n IH]; intros q l s Hbu; simpl.
  - apply runs_ret. exists l, s. split_and!; [done|lia|done].
  - apply runs_bind, runs_gets, runs_bind. rewrite (bu_largest _ _ _ _ Hbu).
    unfold runs at 1. destruct (make_block_cases cap q) as [->|[-> Hno]]; [|done]. simpl.
    rewrite bool_decide_eq_false_2 by (by eapply building_first).
    destruct (building_last _ _ _ _ Hbu) as [b Hb].
    assert (Hne : S (mallocs q) ≠ s_id s).
    { intros Heq. pose proof (bu_fresh _ _ _ _ Hbu (s_id s) ltac:(eauto)). lia. }
    apply runs_bind, runs_bind. unfold runs at 1, modify_block. simpl.
    rewrite lookup_insert_ne, Hb by done. apply runs_ret, runs_bind.
    unfold runs at 1. simpl. rewrite lookup_insert_ne, lookup_insert_eq by done.
    rewrite (insert_insert_ne _ (s_id s) (S (mallocs q))), insert_insert_eq by done.
    pose proof (building_add q cap l s b (S (mallocs q)) Hbu Hb eq_refl) as Hadd.
    pose proof (IH _ _ _ Hadd) as Hrun. rewrite follows_snoc in Hrun. simpl in Hrun.
    eapply runs_mono; [exact Hrun| |done|done].
    intros p q' (l' & s' & Hbu' & Hl' & ->). exists l', s'. split_and!; [done| |done].
    rewrite Hl', length_app. simpl. lia.
Qed.

Lemma building_done q cap l s :
  building q cap l s →
  ready cap (zlen (l ++ [s])) (set_tailBlock (follows l (s_id s)) (set_frontBlock (follows l (s_id s)) q))
    0 [].
Proof.
  intros Hbu. destruct (bu_clean _ _ _ _ Hbu) as (Hlost & He & Hd). split; [|done].
  assert (Hring : ∃ t idle, l ++ [s] = t :: idle ∧ s_id t = follows l (s_id s)).
  { destruct l as [|t l]; [by exists s, []|by exists t, (l ++ [s])]. }
  destruct Hring as (t & idle & Hl & Ht). destruct Hbu. rewrite Hl in *.
  apply Forall_cons in bu_segs0 as Hsegs. destruct Hsegs as [[_ Hitems] Hidle].
  exists [], t, idle. split; [|by unfold contents; simpl; rewrite Hitems].
  constructor; simpl; try done.
  - eapply Forall_impl; [exact Hidle|]. by intros ? [].
  - rewrite bu_size0. simpl; lia.
  - by rewrite bu_largest0.
  - eapply (Forall_impl _ _ (t :: idle)); [exact bu_segs0|]. intros ? [<- _]. done.
Qed.

(** How many blocks of MAX_BLOCK_SIZE are enough for [maxSize] elements. *)
Lemma initial_count maxSize : 1 ≤ maxSize ≤ 2 ^ 62 →
  let n := initialBlockCount MAX_BLOCK_SIZE maxSize in
  1 ≤ n ∧ maxSize ≤ capacity MAX_BLOCK_SIZE n.
Proof using Hmax Hmax_fits.
  intros Hs. pose proof (cap_ok_bounds _ Hmax). unfold initialBlockCount, capacity. cbv zeta.
  rewrite (u64_small (MAX_BLOCK_SIZE * 2)), (u64_small (maxSize + _)), (u64_small (_ - 3)),
    (u64_small (_ - 1)) by lia.
  set (m := MAX_BLOCK_SIZE - 1). replace MAX_BLOCK_SIZE with (m + 1) in * by lia.
  replace (maxSize + (m + 1) * 2 - 3) with (maxSize + m - 1 + 1 * m) by lia.
  rewrite Z.div_add by lia. pose proof (Z.div_mod (maxSize + m - 1) m ltac:(lia)).
  pose proof (Z.mod_pos_bound (maxSize + m - 1) m ltac:(lia)).
  assert (1 ≤ (maxSize + m - 1) / m) by (apply Z.div_le_lower_bound; lia).
  split; [lia|]. rewrite Z.max_r by lia. nia.
Qed.

(** The size of a single initial block. *)
Lemma initial_size maxSize : 1 ≤ maxSize ≤ 2 ^ 62 →
  let size := ceilToPow2 (u64 (maxSize + 1)) in cap_ok size ∧ maxSize ≤ capacity size 1.
Proof.
  intros Hs. cbv zeta. rewrite u64_small, ceilToPow2_eq by lia. unfold capacity.
  assert (Hup : 2 ^ Z.pred (Z.log2_up (maxSize + 1)) < maxSize + 1 ≤ 2 ^ Z.log2_up (maxSize + 1))
    by (apply Z.log2_up_spec; lia).
  assert (1 ≤ Z.log2_up (maxSize + 1)) by (apply (Z.log2_up_le_mono 2); lia).
  assert (Z.log2_up (maxSize + 1) ≤ Z.log2_up (2 ^ 63)) by (apply Z.log2_up_le_mono; lia).
  rewrite Z.log2_up_pow2 in * by lia. split; [|simpl; lia]. eexists. split; [|done]. lia.
Qed.

(** The queue after construction, or the exception. *)
Definition constructed (maxSize : Z) (q : Q) : Prop :=
  ∃ c0 n0, 1 ≤ c0 ∧ maxSize ≤ capacity c0 n0 ∧ ready c0 n0 q 0 [].

Lemma constructed_intro maxSize q cap l s n :
  building q cap l s → zlen (l ++ [s]) = n → maxSize ≤ capacity cap n →
  constructed maxSize
    (set_tailBlock (follows l (s_id s)) (set_frontBlock (follows l (s_id s)) q)).
Proof.
  intros Hbu <- Hmaxs. exists cap, (zlen (l ++ [s])). split_and!; [|done|by apply building_done].
  pose proof (cap_ok_bounds _ (bu_cap _ _ _ _ Hbu)). lia.
Qed.

Lemma queue_ctor_runs maxSize : 1 ≤ maxSize ≤ 2 ^ 62 →
  runs (queue_ctor maxSize) raw_queue (λ _ q, constructed maxSize q)
    (λ e _, e = bad_alloc ∧ out_of_memory) never.
Proof using Hmax Hmax_fits.
  intros Hs. pose proof (cap_ok_bounds _ Hmax) as Hm. unfold queue_ctor.
  assert (Hpow : MAX_BLOCK_SIZE = ceilToPow2 MAX_BLOCK_SIZE).
  { rewrite ceilToPow2_eq by lia. destruct Hmax as (k & Hk & ->). by rewrite Z.log2_up_pow2 by lia. }
  do 3 (apply runs_bind, runs_massert_fst; [lia|]).
  apply runs_bind, runs_modify, runs_bind, runs_gets. simpl.
  destruct (initial_size maxSize Hs) as [Hcap Hroom].
  revert Hcap Hroom. generalize (ceilToPow2 (u64 (maxSize + 1))). intros size0 Hcap Hroom.
  destruct (Z.ltb_spec (u64 (MAX_BLOCK_SIZE * 2)) size0).
  - rewrite (proj2 (Z.eqb_neq _ _)) by lia. apply runs_bind, runs_bind, runs_modify.
    destruct (initial_count maxSize Hs) as [Hn Hroom'].
    destruct (Z.to_nat (initialBlockCount MAX_BLOCK_SIZE maxSize)) as [|n] eqn:En; [lia|]. simpl.
    apply runs_bind, runs_gets, runs_bind. unfold runs at 1.
    change (largestBlockSize (set_largest MAX_BLOCK_SIZE _)) with MAX_BLOCK_SIZE.
    destruct (make_block_cases MAX_BLOCK_SIZE (set_largest MAX_BLOCK_SIZE
      (set_largest size0 raw_queue))) as [->|[-> Hno]]; [|done].
    simpl. apply runs_bind, runs_ret, runs_bind. unfold runs at 1, modify_block. simpl.
    rewrite lookup_insert_eq, insert_insert_eq.
    pose proof (building_start (set_largest MAX_BLOCK_SIZE raw_queue) MAX_BLOCK_SIZE
      eq_refl eq_refl eq_refl Hmax ltac:(done)) as Hbu.
    eapply runs_mono; [exact (initial_blocks_runs _ n _ _ _ Hbu)| |done|done].
    intros p q (l & s & Hbu' & Hl & ->). apply runs_bind, runs_modify, runs_modify.
    eapply constructed_intro; [done| |exact Hroom'].
    unfold zlen. rewrite length_app, Hl. simpl. lia.
  - apply runs_bind, runs_bind. unfold runs at 1.
    destruct (make_block_cases size0 (set_largest size0 raw_queue)) as [->|[-> Hno]]; [|done].
    simpl. apply runs_bind. unfold runs at 1, modify_block. simpl.
    rewrite lookup_insert_eq, insert_insert_eq.
    apply runs_ret, runs_bind, runs_modify, runs_modify.
    pose proof (building_start (set_largest size0 raw_queue) _
      eq_refl eq_refl eq_refl Hcap ltac:(done)) as Hbu.
    exact (constructed_intro maxSize _ _ [] _ 1 Hbu eq_refl Hroom).
Qed.
End construction.
