(* ===== verification/RwqTheorems.v ===== *)
(** * ReaderWriterQueue: it is a FIFO queue

    Sequences of calls by one thread, against a specification that only knows the
    list of the elements. *)
From stdpp Require Import gmap.
From S2P Require Import Prelude Lifetime ReaderWriterQueue RwqBlocks RwqRing.
From S2P Require Import RwqOps RwqConsumer RwqLifecycle.

#[local] Open Scope Z_scope.

Section calls.
Context {X T U : Type} `{!CppType X T}.
Context (MAX_BLOCK_SIZE : Z) (ndebug : bool) (malloc : nat → Z → bool) (bad_alloc : X).
Context (sizeof_Block alignof_Block sizeof_T alignof_T : Z).
Context (assign_result : U → T → U * T * completion X unit).
#[local] Abbreviation Q := (ReaderWriterQueue T).
#[local] Abbreviation inner_enqueue :=
  (inner_enqueue (X := X) (T := T) MAX_BLOCK_SIZE ndebug malloc sizeof_Block alignof_Block
     sizeof_T alignof_T).
#[local] Abbreviation queue_ctor :=
  (queue_ctor (X := X) (T := T) MAX_BLOCK_SIZE ndebug malloc bad_alloc sizeof_Block alignof_Block
     sizeof_T alignof_T).
#[local] Abbreviation out_of_memory := (out_of_memory malloc).

(** Calls, with the arguments that are passed by reference; and what comes back, with
    what has become of the arguments.  A pointer from [peek] is looked at at once. *)
Inductive call :=
  | Enqueue (canAlloc : bool) (c : category) (x : T)
  | Dequeue (r : U)
  | Peek
  | Pop
  | Size.

Inductive reply :=
  | Enqueued (x' : T) (a : completion X bool)
  | Dequeued (r' : U) (a : completion X bool)
  | Peeked (o : option T)
  | Popped (a : bool)
  | Counted (z : Z)
  | Thrown (e : X).

Definition run_call (o : call) (q : Q) : result (Q * reply) :=
  match o with
  | Enqueue canAlloc c x =>
      '((q', x'), a) ← inner_enqueue canAlloc c (q, x); Ok (q', Enqueued x' a)
  | Dequeue r => '((q', r'), a) ← try_dequeue ndebug assign_result (q, r); Ok (q', Dequeued r' a)
  | Peek =>
      '((q', _), a) ← peek (X := X) ndebug (q, tt);
      Ok (q', match a with Returns p => Peeked (p ≫= pointee q') | Throws e => Thrown e end)
  | Pop =>
      '((q', _), a) ← pop (X := X) ndebug (q, tt);
      Ok (q', match a with Returns b => Popped b | Throws e => Thrown e end)
  | Size =>
      '(q', a) ← size_approx (X := X) q;
      Ok (q', match a with Returns z => Counted z | Throws e => Thrown e end)
  end.

Fixpoint run_calls (l : list call) (q : Q) : result (Q * list reply) :=
  match l with
  | [] => Ok (q, [])
  | o :: l => '(q, a) ← run_call o q; '(q, k) ← run_calls l q; Ok (q, a :: k)
  end.

(** The specification: what a queue made for [maxSize] elements may answer. *)
Inductive fifo_step (maxSize : Z) : list T → call → reply → list T → Prop :=
  | fifo_enqueue items b c x x' y :
      forward_ctor c x = (x', Returns y) →
      fifo_step maxSize items (Enqueue b c x) (Enqueued x' (Returns true)) (items ++ [y])
  | fifo_enqueue_throws items b c x x' e :
      forward_ctor c x = (x', Throws e) →
      fifo_step maxSize items (Enqueue b c x) (Enqueued x' (Throws e)) items
  | fifo_full items b c x :
      maxSize ≤ zlen items → (b = true → out_of_memory) →
      fifo_step maxSize items (Enqueue b c x) (Enqueued x (Returns false)) items
  | fifo_dequeue items x r r' x' :
      assign_result r x = (r', x', Returns tt) →
      fifo_step maxSize (x :: items) (Dequeue r) (Dequeued r' (Returns true)) items
  | fifo_dequeue_throws items x r r' x' e :
      assign_result r x = (r', x', Throws e) →
      fifo_step maxSize (x :: items) (Dequeue r) (Dequeued r' (Throws e)) (x' :: items)
  | fifo_dequeue_empty r :
      fifo_step maxSize [] (Dequeue r) (Dequeued r (Returns false)) []
  | fifo_peek items : fifo_step maxSize items Peek (Peeked (head items)) items
  | fifo_pop items x : fifo_step maxSize (x :: items) Pop (Popped true) items
  | fifo_pop_empty : fifo_step maxSize [] Pop (Popped false) []
  | fifo_size items : fifo_step maxSize items Size (Counted (u64 (zlen items))) items.

Inductive fifo_steps (maxSize : Z) : list T → list call → list reply → list T → Prop :=
  | fifo_none items : fifo_steps maxSize items [] [] items
  | fifo_some items items' items'' o a l k :
      fifo_step maxSize items o a items' → fifo_steps maxSize items' l k items'' →
      fifo_steps maxSize items (o :: l) (a :: k) items''.

(** The calls that leave a block behind when they throw. *)
Definition may_leak (o : call) (a : reply) : nat :=
  match o, a with Enqueue true _ _, Enqueued _ (Throws _) => 1 | _, _ => 0 end.

Fixpoint leaks (l : list call) (k : list reply) : nat :=
  match l, k with o :: l, a :: k => may_leak o a + leaks l k | _, _ => 0 end.

Section correctness.
Context (c0 n0 maxSize : Z) (Hmax : cap_ok MAX_BLOCK_SIZE) (Hc0 : 1 ≤ c0).
Context (Hroom : maxSize ≤ capacity c0 n0).
#[local] Abbreviation ready := (ready c0 n0).

Lemma run_call_refines o q leaked items :
  ready q leaked items →
  ∃ q' a items' leaked', run_call o q = Ok (q', a) ∧ fifo_step maxSize items o a items' ∧
    ready q' leaked' items' ∧ (leaked' ≤ leaked + may_leak o a)%nat.
Proof using Hmax Hc0 Hroom.
  intros Hq. destruct o as [b c x|r| | |]; simpl.
  - pose proof (inner_enqueue_runs MAX_BLOCK_SIZE ndebug malloc sizeof_Block alignof_Block
      sizeof_T alignof_T c0 n0 Hmax Hc0 b c q leaked items x Hq) as Hrun.
    unfold runs in Hrun. destruct (inner_enqueue b c (q, x)) as [[[q' x'] [[]|e]]|f]; simpl in *.
    + destruct Hrun as (y & Hy & Hq'). do 4 eexists.
      split_and!; [done|eapply fifo_enqueue, Hy|done|destruct b; simpl; lia].
    + destruct Hrun as (-> & Hq' & Hcap & Hmem). do 4 eexists.
      split_and!; [done| |done|destruct b; simpl; lia]. constructor; [lia|exact Hmem].
    + destruct Hrun as (He & leaked' & Hq' & _ & Hle). exists q'. do 3 eexists.
      split_and!; [done|eapply fifo_enqueue_throws, He|done|]. destruct b; simpl in *; lia.
    + done.
  - pose proof (try_dequeue_runs ndebug c0 n0 assign_result q leaked items r Hq) as Hrun.
    unfold runs in Hrun. destruct (try_dequeue _ _ (q, r)) as [[[q' r'] [[]|e]]|f]; simpl in *.
    + destruct Hrun as (x & rest & -> & [x' Hx] & Hq'). do 4 eexists.
      split_and!; [done|eapply fifo_dequeue, Hx|done|lia].
    + destruct Hrun as (-> & -> & Hq'). do 4 eexists. split_and!; [done|constructor|done|lia].
    + destruct Hrun as (x & rest & x' & -> & Hx & Hq'). do 4 eexists.
      split_and!; [done|eapply fifo_dequeue_throws, Hx|done|lia].
    + done.
  - pose proof (peek_runs (X := X) ndebug c0 n0 q leaked items tt Hq) as Hrun.
    unfold runs in Hrun. destruct (peek _ (q, tt)) as [[[q' u] [a|e]]|f]; simpl in *; [|done..].
    destruct Hrun as (_ & Hq' & Ha). do 4 eexists. split_and!; [done| |done|lia].
    rewrite Ha. constructor.
  - pose proof (pop_runs (X := X) ndebug c0 n0 q leaked items tt Hq) as Hrun.
    unfold runs in Hrun. destruct (pop _ (q, tt)) as [[[q' u] [[]|e]]|f]; simpl in *; [| |done..].
    + destruct Hrun as (_ & x & rest & -> & Hq'). do 4 eexists.
      split_and!; [done|constructor|done|lia].
    + destruct Hrun as (_ & -> & Hq'). do 4 eexists. split_and!; [done|constructor|done|lia].
  - rewrite (size_approx_runs c0 n0 q leaked items) by apply Hq. simpl. do 4 eexists.
    split_and!; [done|constructor|done|lia].
Qed.

Lemma run_calls_refine l : ∀ q leaked items,
  ready q leaked items →
  ∃ q' k items' leaked', run_calls l q = Ok (q', k) ∧ fifo_steps maxSize items l k items' ∧
    ready q' leaked' items' ∧ (leaked' ≤ leaked + leaks l k)%nat.
Proof using Hmax Hc0 Hroom.
  induction l as [|o l IH]; intros q leaked items Hq; simpl.
  - do 4 eexists. split_and!; [done|constructor|done|simpl; lia].
  - destruct (run_call_refines o q leaked items Hq) as (q1 & a & items1 & leaked1 & -> & Ha & Hq1 & Hl1).
    destruct (IH q1 leaked1 items1 Hq1) as (q2 & k & items2 & leaked2 & Hk & Hs & Hq2 & Hl2).
    simpl. rewrite Hk. simpl. do 4 eexists. split_and!; [done|eapply fifo_some; [exact Ha|exact Hs]|exact Hq2|simpl; lia].
Qed.
End correctness.
End calls.

(** ** The theorems *)

(** C34: Whatever a thread does with a queue made for [maxSize] elements, it gets the
    answers of a FIFO list: nothing goes wrong, an enqueue returns false only if
    [maxSize] elements are there already (and, when it may allocate, malloc has
    refused), an exception of the element leaves the list as it was (up to what a
    failed move does to the element), [peek] sees the first element, the size is
    exact.  Construction succeeds unless malloc refuses. *)
Theorem rwq_implements_fifo {X T U : Type} `{!CppType X T} (MAX_BLOCK_SIZE : Z)
    (Hmax : cap_ok MAX_BLOCK_SIZE) (Hfits : MAX_BLOCK_SIZE ≤ 2 ^ 61) (ndebug : bool)
    (malloc : nat → Z → bool) (bad_alloc : X) (sizeof_B alignof_B sizeof_T alignof_T : Z)
    (assign_result : U → T → U * T * completion X unit) (maxSize : Z)
    (Hsize : 1 ≤ maxSize ≤ 2 ^ 62) (l : list call) :
  let make := queue_ctor (T := T) MAX_BLOCK_SIZE ndebug malloc bad_alloc sizeof_B alignof_B
                sizeof_T alignof_T maxSize in
  let run := run_calls MAX_BLOCK_SIZE ndebug malloc sizeof_B alignof_B sizeof_T alignof_T
               assign_result in
  (∃ q, make raw_queue = Ok (q, Throws bad_alloc) ∧ out_of_memory malloc) ∨
  (∃ q q' k items, make raw_queue = Ok (q, Returns tt) ∧ run l q = Ok (q', k) ∧
     fifo_steps malloc assign_result maxSize [] l k items).
Proof.
  cbv zeta. pose proof (queue_ctor_runs (T := T) MAX_BLOCK_SIZE ndebug malloc bad_alloc sizeof_B
    alignof_B sizeof_T alignof_T Hmax Hfits maxSize Hsize) as Hctor. unfold runs in Hctor.
  destruct (queue_ctor _ _ _ _ _ _ _ _ _ _) as [[q [[]|e]]|f]; [right| |done].
  - destruct Hctor as (c0 & n0 & Hc0 & Hroom & Hq).
    destruct (run_calls_refine MAX_BLOCK_SIZE ndebug malloc sizeof_B alignof_B sizeof_T
      alignof_T assign_result c0 n0 maxSize Hmax Hc0 Hroom l q 0%nat [] Hq)
      as (q' & k & items & leaked & Hrun & Hsteps & _).
    by exists q, q', k, items.
  - left. exists q. destruct Hctor as [-> Hmem]. done.
Qed.

(** C35: The destructor of such a queue, run after any sequence of calls, destroys
    every element that is left and frees every block of the ring, once each: no
    object is lost, and all memory is returned unless an enqueue that had allocated
    a block was left by an exception of the element, which leaves that block behind. *)
Theorem rwq_destructor_frees_all {X T U : Type} `{!CppType X T} (MAX_BLOCK_SIZE : Z)
    (Hmax : cap_ok MAX_BLOCK_SIZE) (Hfits : MAX_BLOCK_SIZE ≤ 2 ^ 61) (ndebug : bool)
    (malloc : nat → Z → bool) (bad_alloc : X) (sizeof_B alignof_B sizeof_T alignof_T : Z)
    (assign_result : U → T → U * T * completion X unit) (maxSize : Z)
    (Hsize : 1 ≤ maxSize ≤ 2 ^ 62) (l : list call) (q q' : ReaderWriterQueue T) (k : list reply)
    (Hmake : queue_ctor MAX_BLOCK_SIZE ndebug malloc bad_alloc sizeof_B alignof_B
               sizeof_T alignof_T maxSize raw_queue = Ok (q, Returns tt))
    (Hrun : run_calls MAX_BLOCK_SIZE ndebug malloc sizeof_B alignof_B sizeof_T alignof_T
              assign_result l q = Ok (q', k)) :
  ∃ q'', queue_dtor (X := X) q' = Ok (q'', Returns tt) ∧ lost q'' = 0%nat ∧
    (size (heap q'') ≤ leaks l k)%nat ∧ (leaks l k = 0%nat → heap q'' = ∅).
Proof.
  pose proof (queue_ctor_runs (T := T) MAX_BLOCK_SIZE ndebug malloc bad_alloc sizeof_B
    alignof_B sizeof_T alignof_T Hmax Hfits maxSize Hsize) as Hctor.
  unfold runs in Hctor. rewrite Hmake in Hctor. destruct Hctor as (c0 & n0 & Hc0 & Hroom & Hq).
  destruct (run_calls_refine MAX_BLOCK_SIZE ndebug malloc sizeof_B alignof_B sizeof_T
    alignof_T assign_result c0 n0 maxSize Hmax Hc0 Hroom l q 0%nat [] Hq)
    as (q2 & k2 & items & leaked & Hrun' & _ & Hq2 & Hleak).
  rewrite Hrun in Hrun'. injection Hrun' as <- <-.
  destruct (queue_dtor_runs (X := X) c0 n0 q' leaked items ltac:(apply Hq2))
    as (q'' & Hd & Hs & Hl).
  exists q''. split_and!; [done|done|lia|]. intros Hz. apply map_size_empty_iff. lia.
Qed.

(** ceilToPow2 overflows to 0. *)
Lemma ceilToPow2_overflow x : 2 ^ 63 < x ≤ 2 ^ 64 → ceilToPow2 (u64 x) = 0.
Proof.
  intros Hx. unfold ceilToPow2. replace (u64 (u64 x - 1)) with (x - 1).
  2: { unfold u64. rewrite Zminus_mod_idemp_l. symmetry. apply Z.mod_small. lia. }
  assert (Hs : smeared 64 (x - 1) (smear_bytes 4 1
    (let y := Z.lor (x - 1) (Z.shiftr (x - 1) 1) in
     let y := Z.lor y (Z.shiftr y 2) in Z.lor y (Z.shiftr y 4)))).
  { apply smear_bytes_spec. apply (smear_step 4); [done|]. apply (smear_step 2); [done|].
    apply (smear_step 1); [done|]. apply smeared_start. lia. }
  apply smeared_all in Hs; [|lia]. cbv zeta in Hs |- *. rewrite Hs.
  replace (Z.log2 (x - 1)) with 63; [done|]. symmetry. apply Z.log2_unique; lia.
Qed.

(** Enqueuing into a block without slots that claims to have room. *)
Lemma enqueue_no_slots {X T : Type} `{!CppType X T} MAX_BLOCK_SIZE ndebug malloc sizeof_B
    alignof_B sizeof_T alignof_T c (x x' y : T) (q : ReaderWriterQueue T) b :
  forward_ctor c x = (x', Returns y) → enqueuing q = false →
  heap q !! tailBlock q = Some b → data b = [] →
  (Z.land (u64 (tail b + 1)) (sizeMask b) =? localFront b) = false →
  try_enqueue (X := X) MAX_BLOCK_SIZE ndebug malloc sizeof_B alignof_B sizeof_T alignof_T c (q, x)
    = Err out_of_bounds.
Proof.
  intros Hx He Hb Hd Hroom.
  assert (Hrun : runs (try_enqueue (X := X) MAX_BLOCK_SIZE ndebug malloc sizeof_B alignof_B
    sizeof_T alignof_T c) (q, x) (λ _ _, False) (λ _ _, False) (λ f, f = out_of_bounds)).
  { apply runs_guard; [done|]. unfold enqueue_element. apply runs_bind, runs_gets.
    eapply runs_bind, runs_load; [by destruct ndebug|]. rewrite Hroom.
    apply runs_bind, runs_ret, runs_bind. unfold runs, construct_from, place_at, slot_at, vector_at.
    rewrite Hx. destruct ndebug; simpl; by rewrite Hb, Hd. }
  unfold runs in Hrun. destruct (try_enqueue _ _ _ _ _ _ _ _ _) as [[? []]|]; [done..|congruence].
Qed.

(** A queue for 2^63 elements or more gets a single block without slots whose mask
    admits every index (the block size has overflowed to 0): the first enqueue writes
    outside the block. *)
Theorem rwq_huge_size_overflows {X T : Type} `{!CppType X T} (MAX_BLOCK_SIZE : Z)
    (Hmax : cap_ok MAX_BLOCK_SIZE) (Hfits : MAX_BLOCK_SIZE ≤ 2 ^ 61) (ndebug : bool)
    (malloc : nat → Z → bool) (bad_alloc : X) (sizeof_B alignof_B sizeof_T alignof_T : Z)
    (maxSize : Z) (Hsize : 2 ^ 63 ≤ maxSize < 2 ^ 64)
    (Hmem : ∀ n size, malloc n size = true) (c : category) (x x' y : T)
    (Hx : forward_ctor c x = (x', Returns y)) :
  ∃ q, queue_ctor MAX_BLOCK_SIZE ndebug malloc bad_alloc sizeof_B alignof_B sizeof_T
         alignof_T maxSize raw_queue = Ok (q, Returns tt) ∧
       try_enqueue MAX_BLOCK_SIZE ndebug malloc sizeof_B alignof_B sizeof_T alignof_T c (q, x)
         = Err out_of_bounds.
Proof.
  pose proof (cap_ok_bounds _ Hmax).
  assert (Hpow : (MAX_BLOCK_SIZE =? ceilToPow2 MAX_BLOCK_SIZE) = true).
  { apply Z.eqb_eq. rewrite ceilToPow2_eq by lia. destruct Hmax as (k & Hk & ->).
    by rewrite Z.log2_up_pow2 by lia. }
  assert (Hz : ceilToPow2 (u64 (maxSize + 1)) = 0) by (apply ceilToPow2_overflow; lia).
  eexists. split.
  - unfold queue_ctor, mbind, M_bind, massert, cassert, modify, gets.
    rewrite Hpow, (proj2 (Z.ltb_lt 0 maxSize)), (proj2 (Z.leb_le 2 MAX_BLOCK_SIZE)) by lia.
    rewrite !orb_true_r. simpl. rewrite Hz, (proj2 (Z.ltb_ge _ 0)) by apply u64_bound.
    unfold make_block. rewrite Hmem. simpl. unfold modify_block. simpl.
    rewrite lookup_insert_eq. simpl. reflexivity.
  - eapply enqueue_no_slots; [exact Hx|reflexivity|apply lookup_insert_eq|reflexivity..].
Qed.

(** ** A queue of numbers

    13 cannot be copied. *)
Module Demo.
Definition copy (x : nat) : completion nat nat :=
  if bool_decide (x = 13%nat) then Throws 13%nat else Returns x.

#[export] Instance number : CppType nat nat := {|
  traits := Build_type_traits false true true true true true false false true true false false
              false false true;
  copy_ctor := copy;
  move_ctor x := (x, copy x);
  copy_assign _ y := (y, Returns tt);
  move_assign _ y := (y, 0%nat, Returns tt);
  swap_objects x y := (y, x, Returns tt)
|}.

Definition plenty (n : nat) (size : Z) : bool := true.

#[local] Abbreviation calls_of_numbers := (list (call (T := nat) (U := nat))).

Definition make (malloc : nat → Z → bool) (maxSize : Z) :=
  queue_ctor (X := nat) (T := nat) 4 false malloc 99%nat 64 8 4 4 maxSize.

Definition run (l : calls_of_numbers) :=
  run_calls (X := nat) (T := nat) 4 false plenty 64 8 4 4 move_assign l.

Definition fresh : ReaderWriterQueue nat :=
  match make plenty 3 raw_queue with Ok (q, _) => q | Err _ => raw_queue end.

Definition after (l : calls_of_numbers) : 
    ReaderWriterQueue nat * list (reply (X := nat) (T := nat) (U := nat)) :=
  match run l fresh with Ok r => r | Err _ => (raw_queue, []) end.

(** Three elements fit; a fourth one needs another block. *)
Definition calls : calls_of_numbers :=
  [Enqueue false Lvalue 1%nat; Enqueue false Lvalue 2%nat; Enqueue false Lvalue 3%nat;
   Enqueue false Lvalue 4%nat; Enqueue true Rvalue 5%nat; Size; Peek; Dequeue 0%nat; Pop;
   Dequeue 0%nat; Dequeue 0%nat; Pop; Enqueue true Lvalue 6%nat].

(** The element that is to go into the new block cannot be copied. *)
Definition throwing_calls : calls_of_numbers :=
  [Enqueue true Lvalue 1%nat; Enqueue true Lvalue 2%nat; Enqueue true Lvalue 3%nat;
   Enqueue true Lvalue 13%nat].

Lemma four_ok : cap_ok 4.
Proof. by exists 2. Qed.
End Demo.
#[local] Existing Instance Demo.number.

Lemma rwq_implements_fifo_witness :
  (∃ q q' k items, Demo.make Demo.plenty 3 raw_queue = Ok (q, Returns tt) ∧
     Demo.run Demo.calls q = Ok (q', k) ∧
     fifo_steps Demo.plenty move_assign 3 [] Demo.calls k items) ∧
  (Demo.after Demo.calls).2 =
    [Enqueued 1 (Returns true); Enqueued 2 (Returns true); Enqueued 3 (Returns true);
     Enqueued 4 (Returns false); Enqueued 5 (Returns true); Counted 4%Z; Peeked (Some 1);
     Dequeued 1 (Returns true); Popped true; Dequeued 3 (Returns true);
     Dequeued 5 (Returns true); Popped false; Enqueued 6 (Returns true)]%nat.
Proof.
  split; [|vm_compute; reflexivity].
  destruct (rwq_implements_fifo (X := nat) 4 Demo.four_ok ltac:(lia) false Demo.plenty 99%nat
    64 8 4 4 move_assign 3 ltac:(lia) Demo.calls) as [(q & _ & n & size & Hno)|H]; [|exact H].
  discriminate Hno.
Defined.

Lemma rwq_destructor_frees_all_witness :
  (∃ q'', queue_dtor (X := nat) (Demo.after Demo.calls).1 = Ok (q'', Returns tt) ∧
     lost q'' = 0%nat ∧ heap q'' = ∅) ∧
  (∃ q'', queue_dtor (X := nat) (Demo.after Demo.throwing_calls).1 = Ok (q'', Returns tt) ∧
     size (heap q'') = 1%nat).
Proof.
  split; [|by eexists; split; [vm_compute; reflexivity|]].
  destruct (rwq_destructor_frees_all (X := nat) 4 Demo.four_ok ltac:(lia) false Demo.plenty 99%nat
    64 8 4 4 move_assign 3 ltac:(lia) Demo.calls Demo.fresh (Demo.after Demo.calls).1
    (Demo.after Demo.calls).2 ltac:(vm_compute; reflexivity) ltac:(vm_compute; reflexivity))
    as (q'' & Hd & Hl & _ & He).
  exists q''. split_and!; [exact Hd|exact Hl|]. apply He. vm_compute. reflexivity.
Defined.

Lemma rwq_huge_size_overflows_witness :
  ∃ q, Demo.make Demo.plenty (2 ^ 63) raw_queue = Ok (q, Returns tt) ∧
    try_enqueue 4 false Demo.plenty 64 8 4 4 Lvalue (q, 1%nat) = Err out_of_bounds.
Proof.
  exact (rwq_huge_size_overflows 4 Demo.four_ok ltac:(lia) false Demo.plenty 99%nat 64 8 4 4
    (2 ^ 63) ltac:(lia) (λ _ _, eq_refl) Lvalue 1%nat 1%nat 1%nat eq_refl).
Defined.
