(* ===== verification/Semaphore.v ===== *)
(** * The semaphores of moodycamel (src/externals/include/moodycamel/atomicops.h)

    [Semaphore] is the wrapper around the POSIX semaphores (the one for Linux; those
    for Windows and Mach are not modelled), [LightweightSemaphore] a counter in front
    of it, for one thread that signals and one that waits.  The functions of
    <semaphore.h> are a parameter, with the documented behaviour as laws.  A step of
    the machine is one access to the counter or one call of the operating system.
    The counter is an atomic [ssize_t] of 64 bits, which wraps. *)
From S2P Require Import Prelude.

(** ** The operating system *)
Inductive errno := EINTR | EAGAIN | ETIMEDOUT | EINVAL.

Inductive os_result := Success | Failed (e : errno).

#[global] Instance errno_eq_dec : EqDecision errno.
Proof. solve_decision. Defined.
#[global] Instance os_result_eq_dec : EqDecision os_result.
Proof. solve_decision. Defined.

Record timespec := Timespec { tv_sec : Z; tv_nsec : Z }.

Definition timespec_ok (ts : timespec) : Prop := 0 ≤ tv_nsec ts < 1000000000.

#[global] Instance timespec_ok_dec ts : Decision (timespec_ok ts).
Proof. unfold timespec_ok. apply _. Defined.

(** The calls on a semaphore of a value: how it may answer and the value it leaves. *)
Class PosixSemaphore := {
  sem_wait : nat → os_result → nat → Prop;
  sem_trywait : nat → os_result → nat → Prop;
  sem_timedwait : timespec → nat → os_result → nat → Prop;
  sem_post : nat → nat → Prop
}.

Class PosixLaws `{PosixSemaphore} := {
  sem_post_up v v' : sem_post v v' → v' = S v;
  sem_wait_down v v' : sem_wait v Success v' → v = S v';
  sem_wait_failed v v' e : sem_wait v (Failed e) v' → v' = v ∧ e = EINTR;
  sem_trywait_down v v' : sem_trywait v Success v' → v = S v';
  sem_trywait_failed v v' e :
    sem_trywait v (Failed e) v' → v' = v ∧ (e = EINTR ∨ e = EAGAIN);
  sem_timedwait_down ts v v' : sem_timedwait ts v Success v' → v = S v';
  sem_timedwait_failed ts v v' e :
    sem_timedwait ts v (Failed e) v' →
    v' = v ∧ (e = EINTR ∨ e = ETIMEDOUT ∨ (e = EINVAL ∧ ¬ timespec_ok ts))
}.

(** ** Semaphore *)

(** do { rc = ...; } while (rc == -1 && errno == EINTR): whether the answer ends the
    loop. *)
Definition final (r : os_result) : bool := bool_decide (r ≠ Failed EINTR).

(** What [try_wait] and [timed_wait] make of it. *)
Definition try_wait_result (r : os_result) : bool := bool_decide (r ≠ Failed EAGAIN).
Definition timed_wait_result (r : os_result) : bool := bool_decide (r ≠ Failed ETIMEDOUT).

(** The point in time [timed_wait] gives to [sem_timedwait]. *)
Definition deadline (now : timespec) (usecs : Z) : timespec :=
  let sec := tv_sec now + usecs / 1000000 in
  let nsec := tv_nsec now + (usecs mod 1000000) * 1000 in
  if 1000000000 <? nsec then Timespec (sec + 1) (nsec - 1000000000) else Timespec sec nsec.

(** [signal(count)]: while (count-- > 0) sem_post(&m_sema); *)
Inductive posts `{PosixSemaphore} : Z → nat → nat → Prop :=
  | posts_none count v : count ≤ 0 → posts count v v
  | posts_one count v v' v'' :
      0 < count → sem_post v v' → posts (count - 1) v' v'' → posts count v v''.

(** ** LightweightSemaphore *)
Record LightweightSemaphore := Sema { m_count : Z; m_sema : nat }.

(** What the waiting thread has called: [tryWait()] or [wait(timeout_usecs)], the
    latter with -1 for [wait()]. *)
Inductive request := TryWait | Wait (timeout_usecs : Z).

(** Where the waiting thread is. *)
Inductive waiter :=
  | WIdle
  | WTryLoad (r : request)            (* m_count.load() > 0 in tryWait *)
  | WTryTake (r : request)            (* m_count.fetch_add_acquire(-1) in tryWait *)
  | WSpin (timeout_usecs spin : Z)    (* --spin >= 0, m_count.load() > 0 *)
  | WSpinTake                         (* m_count.fetch_add_acquire(-1) in the loop *)
  | WTake (timeout_usecs : Z)         (* oldCount = m_count.fetch_add_acquire(-1) *)
  | WSemWait                          (* m_sema.wait() *)
  | WSemTimed (ts : timespec)         (* m_sema.timed_wait(timeout_usecs) *)
  | WRestore                          (* oldCount = m_count.fetch_add_release(1) *)
  | WRetake                           (* oldCount = m_count.fetch_add_acquire(-1) *)
  | WSemTry                           (* m_sema.try_wait() *)
  | WDone (b : bool).

(** What an [ssize_t] makes of an integer. *)
Definition ssize (z : Z) : Z := (z + 2 ^ 63) mod 2 ^ 64 - 2 ^ 63.

Lemma ssize_small z : - 2 ^ 63 ≤ z < 2 ^ 63 → ssize z = z.
Proof. intros Hz. unfold ssize. rewrite Z.mod_small by lia. lia. Qed.

Definition add_count (k : Z) (s : LightweightSemaphore) : LightweightSemaphore :=
  Sema (ssize (m_count s + k)) (m_sema s).

Section lightweight.
Context `{PosixSemaphore}.
(** Which deadlines occur, and what [signal] is called with. *)
Context (usable : timespec → Prop) (signals : Z → Prop).

(** [tryWait] and [wait]. *)
Inductive try_step (s : LightweightSemaphore) : waiter → LightweightSemaphore → waiter → Prop :=
  | try_available r : 0 < m_count s → try_step s (WTryLoad r) s (WTryTake r)
  | try_failed : m_count s ≤ 0 → try_step s (WTryLoad TryWait) s (WDone false)
  | try_wait_longer t : m_count s ≤ 0 → try_step s (WTryLoad (Wait t)) s (WSpin t 10000)
  | try_take r : try_step s (WTryTake r) (add_count (-1) s) (WDone true).

(** [waitWithPartialSpinning] *)
Inductive wait_step (s : LightweightSemaphore) : waiter → LightweightSemaphore → waiter → Prop :=
  | spin_available t n : 0 ≤ n - 1 → 0 < m_count s → wait_step s (WSpin t n) s WSpinTake
  | spin_again t n : 0 ≤ n - 1 → m_count s ≤ 0 → wait_step s (WSpin t n) s (WSpin t (n - 1))
  | spin_over t n : n - 1 < 0 → wait_step s (WSpin t n) s (WTake t)
  | spin_take : wait_step s WSpinTake (add_count (-1) s) (WDone true)
  | take_available t :
      0 < m_count s → wait_step s (WTake t) (add_count (-1) s) (WDone true)
  | take_forever t :
      m_count s ≤ 0 → t < 0 → wait_step s (WTake t) (add_count (-1) s) WSemWait
  | take_timed t now :
      m_count s ≤ 0 → 0 ≤ t → timespec_ok now → usable (deadline now t) →
      wait_step s (WTake t) (add_count (-1) s) (WSemTimed (deadline now t))
  | sem_waits r v :
      sem_wait (m_sema s) r v →
      wait_step s WSemWait (Sema (m_count s) v) (if final r then WDone true else WSemWait)
  | sem_waits_timed ts r v :
      sem_timedwait ts (m_sema s) r v →
      wait_step s (WSemTimed ts) (Sema (m_count s) v)
        (if final r then if timed_wait_result r then WDone true else WRestore
         else WSemTimed ts)
  | restore_done :
      m_count s < 0 → wait_step s WRestore (add_count 1 s) (WDone false)
  | restore_late : 0 ≤ m_count s → wait_step s WRestore (add_count 1 s) WRetake
  | retake_available : 0 < m_count s → wait_step s WRetake (add_count (-1) s) WSemTry
  | retake_again : m_count s ≤ 0 → wait_step s WRetake (add_count (-1) s) WRestore
  | sem_tries r v :
      sem_trywait (m_sema s) r v →
      wait_step s WSemTry (Sema (m_count s) v)
        (if final r then if try_wait_result r then WDone true else WRestore else WSemTry).

(** [signal] *)
Inductive signaller :=
  | SIdle
  | SAdd (count : Z)    (* oldCount = m_count.fetch_add_release(count) *)
  | SPost               (* m_sema.signal(1) *)
  | SDone.

Inductive signal_step (s : LightweightSemaphore) :
    signaller → LightweightSemaphore → signaller → Prop :=
  | signal_add count :
      signal_step s (SAdd count) (add_count count s) (if m_count s <? 0 then SPost else SDone)
  | signal_post v :
      posts 1 (m_sema s) v → signal_step s SPost (Sema (m_count s) v) SDone.

(** ** Two threads

    [signalled] is what has been added to the counter by [signal], [acquired] how often
    a wait has returned true. *)
Record machine := Machine {
  sema : LightweightSemaphore;
  waiting : waiter;
  signalling : signaller;
  signalled : Z;
  acquired : Z
}.

Definition newly_acquired (w' : waiter) : Z := match w' with WDone true => 1 | _ => 0 end.

Definition newly_signalled (p : signaller) : Z := match p with SAdd count => count | _ => 0 end.

Inductive sema_step : machine → machine → Prop :=
  | step_call_wait m r :
      waiting m = WIdle →
      sema_step m (Machine (sema m) (WTryLoad r) (signalling m) (signalled m) (acquired m))
  | step_wait m s' w' :
      try_step (sema m) (waiting m) s' w' ∨ wait_step (sema m) (waiting m) s' w' →
      sema_step m (Machine s' w' (signalling m) (signalled m) (acquired m + newly_acquired w'))
  | step_wait_returns m b :
      waiting m = WDone b →
      sema_step m (Machine (sema m) WIdle (signalling m) (signalled m) (acquired m))
  | step_call_signal m count :
      signalling m = SIdle → signals count → 0 ≤ count < 2 ^ 63 →   (* assert(count >= 0) *)
      sema_step m (Machine (sema m) (waiting m) (SAdd count) (signalled m) (acquired m))
  | step_signal m s' p' :
      signal_step (sema m) (signalling m) s' p' →
      sema_step m
        (Machine s' (waiting m) p' (signalled m + newly_signalled (signalling m)) (acquired m))
  | step_signal_returns m :
      signalling m = SDone →
      sema_step m (Machine (sema m) (waiting m) SIdle (signalled m) (acquired m)).

(** [LightweightSemaphore(initialCount)]; [assert(initialCount >= 0)]. *)
Definition initial_sema (initialCount : Z) : machine :=
  Machine (Sema initialCount 0) WIdle SIdle initialCount 0.
End lightweight.

(** [availableApprox] *)
Definition availableApprox (s : LightweightSemaphore) : Z :=
  if 0 <? m_count s then m_count s else 0.
