(* ===== verification/SemaphoreTheorems.v ===== *)
(** * The lightweight semaphore is a semaphore *)
From S2P Require Import Prelude Semaphore.

(** The waiting thread has taken a unit from the counter that was not there. *)
Definition ticket (w : waiter) : Z :=
  match w with WSemWait | WSemTimed _ | WRestore | WSemTry => 1 | _ => 0 end.

(** A post that is still to come. *)
Definition pending (p : signaller) : Z := match p with SPost => 1 | _ => 0 end.

(** What the semaphore of the operating system owes to the waiting thread. *)
Definition owed (w : waiter) (count : Z) : Z :=
  match w with
  | WRetake => 1
  | _ => if (ticket w =? 1) && (0 <=? count) then 1 else 0
  end.

(** The waiting thread has seen a positive counter. *)
Definition sees_unit (w : waiter) : bool :=
  match w with WTryTake _ | WSpinTake | WRetake => true | _ => false end.

Record sinv (m : machine) : Prop := Sinv {
  s_count : m_count (sema m) = signalled m - acquired m - ticket (waiting m);
  s_sema : Z.of_nat (m_sema (sema m)) + pending (signalling m)
             = owed (waiting m) (m_count (sema m));
  s_bound : 0 ≤ m_count (sema m) + ticket (waiting m);
  s_unit : sees_unit (waiting m) = true → 0 < m_count (sema m);
  s_signal : match signalling m with SAdd count => 0 < count | _ => True end;
  s_deadline ts : waiting m = WSemTimed ts → timespec_ok ts;
  s_acquired : 0 ≤ acquired m;
  s_signalled : 0 ≤ signalled m
}.

Lemma initial_sinv n : 0 ≤ n → sinv (initial_sema n).
Proof. intros Hn. constructor; simpl; try done; lia. Qed.

(** The deadline is one [sem_timedwait] accepts, except when the nanoseconds add up to
    a second exactly. *)
Lemma deadline_ok now usecs : timespec_ok now → 0 ≤ usecs →
  timespec_ok (deadline now usecs) ↔
  tv_nsec now + (usecs mod 1000000) * 1000 ≠ 1000000000.
Proof.
  unfold timespec_ok, deadline. intros Hn Hu.
  pose proof (Z.mod_pos_bound usecs 1000000 ltac:(lia)).
  destruct (Z.ltb_spec 1000000000 (tv_nsec now + usecs mod 1000000 * 1000)); simpl; lia.
Qed.

Section machine.
Context `{HP : PosixSemaphore} {PL : PosixLaws}.
Context (usable : timespec → Prop) (Hok : ∀ ts, usable ts → timespec_ok ts).
Context (signals : Z → Prop) (Hpos : ∀ count, signals count → 0 < count).

Ltac sema_solve :=
  unfold add_count; rewrite ?ssize_small by (simpl in *; lia); constructor; simpl; try done; try lia; try (unfold owed; simpl; repeat case_match; lia).

Lemma try_step_sinv m s' w' :
  sinv m → signalled m < 2 ^ 63 → try_step (sema m) (waiting m) s' w' →
  sinv (Machine s' w' (signalling m) (signalled m) (acquired m + newly_acquired w')).
Proof.
  intros [Hc Hs Hb Hu Hp Hd Ha Hg] Hmax Hstep. destruct m as [s w p g a]; simpl in *.
  inversion Hstep; subst; simpl in *; sema_solve; specialize (Hu eq_refl); lia.
Qed.

(** The answers of the operating system. *)
Lemma sem_wait_sinv s r v p g a :
  sinv (Machine s WSemWait p g a) → sem_wait (m_sema s) r v →
  let w' := if final r then WDone true else WSemWait in
  sinv (Machine (Sema (m_count s) v) w' p g (a + newly_acquired w')).
Proof using PL.
  intros [Hc Hs Hb Hu Hp Hd Ha Hg] Hr. simpl in *. destruct r as [|e].
  - apply sem_wait_down in Hr. cbv zeta. simpl. unfold owed in Hs. simpl in Hs.
    destruct (Z.leb_spec 0 (m_count s)); simpl in Hs; [|destruct p; simpl in *; lia].
    sema_solve.
  - apply sem_wait_failed in Hr as [-> ->]. cbv zeta. destruct s as [c u]; simpl in *. sema_solve.
Qed.

Lemma sem_timedwait_sinv s ts r v p g a :
  sinv (Machine s (WSemTimed ts) p g a) → sem_timedwait ts (m_sema s) r v →
  let w' := if final r then if timed_wait_result r then WDone true else WRestore
            else WSemTimed ts in
  sinv (Machine (Sema (m_count s) v) w' p g (a + newly_acquired w')).
Proof using PL.
  intros [Hc Hs Hb Hu Hp Hd Ha Hg] Hr. simpl in *. destruct r as [|e].
  - apply sem_timedwait_down in Hr. cbv zeta. simpl. unfold owed in Hs. simpl in Hs.
    destruct (Z.leb_spec 0 (m_count s)); simpl in Hs; [|destruct p; simpl in *; lia].
    sema_solve.
  - apply sem_timedwait_failed in Hr as [-> [->|[->|[-> Hno]]]]; cbv zeta; destruct s as [c u]; simpl in *;
      [sema_solve; by intros ? [= <-]; apply Hd|sema_solve|]. by destruct Hno; apply Hd.
Qed.

Lemma sem_trywait_sinv s r v p g a :
  sinv (Machine s WSemTry p g a) → sem_trywait (m_sema s) r v →
  let w' := if final r then if try_wait_result r then WDone true else WRestore else WSemTry in
  sinv (Machine (Sema (m_count s) v) w' p g (a + newly_acquired w')).
Proof using PL.
  intros [Hc Hs Hb Hu Hp Hd Ha Hg] Hr. simpl in *. destruct r as [|e].
  - apply sem_trywait_down in Hr. cbv zeta. simpl. unfold owed in Hs. simpl in Hs.
    destruct (Z.leb_spec 0 (m_count s)); simpl in Hs; [|destruct p; simpl in *; lia].
    sema_solve.
  - apply sem_trywait_failed in Hr as [-> [->| ->]]; cbv zeta; destruct s as [c u]; simpl in *; sema_solve.
Qed.

Lemma wait_step_sinv m s' w' :
  sinv m → signalled m < 2 ^ 63 → wait_step usable (sema m) (waiting m) s' w' →
  sinv (Machine s' w' (signalling m) (signalled m) (acquired m + newly_acquired w')).
Proof using Hok PL.
  intros Hm Hmax Hstep. destruct m as [[c u] w p g a]; simpl in *.
  inversion Hstep; subst; try (by eapply sem_wait_sinv); try (by eapply sem_timedwait_sinv);
    try (by eapply sem_trywait_sinv); destruct Hm as [Hc Hs Hb Hu Hp Hd Ha Hg]; simpl in *;
    unfold owed in Hs; simpl in Hs;
    try (specialize (Hu eq_refl)); sema_solve. intros ? [= <-]. by apply Hok.
Qed.

Lemma signal_step_sinv m s' p' :
  sinv m → signalled m + newly_signalled (signalling m) < 2 ^ 63 → signal_step (sema m) (signalling m) s' p' →
  sinv (Machine s' (waiting m) p' (signalled m + newly_signalled (signalling m)) (acquired m)).
Proof using PL.
  intros [Hc Hs Hb Hu Hp Hd Ha Hg] Hmax Hstep. destruct m as [[c u] w p g a]; simpl in *.
  assert (Hw : sees_unit w = true → 0 < c) by done. clear Hu.
  assert (Hc' : c + 0 = g - a - ticket w) by lia. clear Hc.
  assert (0 ≤ ticket w ≤ 1) by (destruct w; simpl; lia).
  inversion Hstep as [count|v Hv]; subst; simpl in *.
  - assert (owed w (c + count) = Z.of_nat u + pending (if c <? 0 then SPost else SDone)).
    { unfold owed in *. destruct (Z.ltb_spec c 0); simpl in *; destruct w; simpl in *;
        repeat case_match; lia. }
    unfold add_count. rewrite ssize_small by (simpl; lia).
    constructor; simpl; try done; try lia; [intros Hs1; specialize (Hw Hs1); lia|by case_match].
  - inversion Hv as [|? ? v1 ? _ Hpost Hrest]; subst; [lia|]. apply sem_post_up in Hpost.
    inversion Hrest; subst; [|lia]. constructor; simpl; try done; lia.
Qed.

(** What has been signalled only grows. *)
Definition adds_units (p : signaller) : Prop := match p with SAdd count => 0 < count | _ => True end.

Lemma sema_step_signalled m m' : sema_step usable signals m m' → adds_units (signalling m) →
  adds_units (signalling m') ∧ signalled m ≤ signalled m'.
Proof using Hpos.
  intros Hstep Hp. destruct Hstep as [| | |m count _ Hc|m s' p' Hs|]; simpl; try (split; [done|lia]).
  - split; [by apply Hpos|lia].
  - inversion Hs as [count Heq|v _ Heq]; subst; simpl; rewrite <- Heq in *; simpl in *;
      (split; [by repeat case_match|lia]).
Qed.

Lemma sema_step_sinv m m' : sema_step usable signals m m' → signalled m' < 2 ^ 63 → sinv m → sinv m'.
Proof using Hok Hpos PL.
  intros Hstep Hmax Hm. destruct Hstep as [m r Hw|m s' w' [Hs|Hs]|m b Hw|m count Hp Hc Hr|m s' p' Hs|m Hp].
  2: by apply try_step_sinv. 2: by apply wait_step_sinv. 4: by apply signal_step_sinv.
  all: try (apply Hpos in Hc); destruct Hm as [Hcount Hsem Hb Hu Hsig Hd]; rewrite ?Hw, ?Hp in *; simpl in *;
    constructor; simpl; try done; try lia.
Qed.

Lemma sema_reachable_sinv n m : 0 ≤ n → rtc (sema_step usable signals) (initial_sema n) m →
  signalled m < 2 ^ 63 → sinv m.
Proof using Hok Hpos PL.
  intros Hn Hm. enough (adds_units (signalling m) ∧ (signalled m < 2 ^ 63 → sinv m)) as [_ H] by exact H.
  revert m Hm. apply (rtc_ind_r (λ m, adds_units (signalling m) ∧ (signalled m < 2 ^ 63 → sinv m))).
  - split; [done|]. intros _. by apply initial_sinv.
  - intros m m' _ Hstep [Hadd IH]. destruct (sema_step_signalled _ _ Hstep Hadd) as [Hadd' Hle].
    split; [done|]. intros Hmax. eapply sema_step_sinv; [exact Hstep|done|]. apply IH. lia.
Qed.
End machine.

(** C25: One thread signals and one waits, in any interleaving, with and without
    timeouts.  If [sem_timedwait] accepts the deadlines that occur, [signal] is called with
    positive numbers, and fewer than 2^63 units are signalled in all: waits are granted at
    most as often as units have been signalled; the assertion of [signal] holds and the
    counter does not wrap; when the waiting thread is outside of a wait, the counter is what
    is left and the semaphore of the operating system is empty (a timeout restores both); a thread that sleeps in the operating system while a unit
    is left is woken up.  (For the other deadlines and for [signal(0)] see
    [timed_wait_returns_without_unit] and [signal_nothing_posts].) *)
Theorem semaphore_counts `{PL : PosixLaws} (usable : timespec → Prop) (signals : Z → Prop)
    (Hok : ∀ ts, usable ts → timespec_ok ts) (Hpos : ∀ count, signals count → 0 < count)
    (n : Z) (Hn : 0 ≤ n) (m : machine)
    (Hm : rtc (sema_step usable signals) (initial_sema n) m) (Hmax : signalled m < 2 ^ 63) :
  acquired m ≤ signalled m ∧
  -1 ≤ m_count (sema m) < 2 ^ 63 ∧
  (waiting m = WIdle →
     m_count (sema m) = signalled m - acquired m ∧
     availableApprox (sema m) = signalled m - acquired m ∧
     m_sema (sema m) = 0%nat ∧ signalling m ≠ SPost) ∧
  (waiting m = WSemWait → signalling m ≠ SPost → acquired m < signalled m →
     (0 < m_sema (sema m))%nat).
Proof.
  destruct (sema_reachable_sinv usable Hok signals Hpos n m Hn Hm Hmax) as [Hc Hs Hb Hu Hp Hd Ha Hg].
  assert (0 ≤ ticket (waiting m) ≤ 1) by (destruct (waiting m); simpl; lia).
  assert (0 ≤ pending (signalling m)) by (destruct (signalling m); simpl; lia).
  split_and!; [lia|lia|lia| |].
  - intros Hw. rewrite Hw in *. simpl in *. unfold availableApprox.
    split_and!; [lia| |lia|by intros Heq; rewrite Heq in Hs; simpl in Hs; lia].
    destruct (Z.ltb_spec 0 (m_count (sema m))); lia.
  - intros Hw Hpost Hleft. rewrite Hw in *. unfold owed in Hs. simpl in *.
    rewrite (proj2 (Z.leb_le 0 (m_count (sema m)))) in Hs by lia. simpl in Hs.
    destruct (signalling m); simpl in *; try done; lia.
Qed.

(** ** Runs *)
Section runs.
Context `{HP : PosixSemaphore} (usable : timespec → Prop) (signals : Z → Prop).

Lemma wait_one s w s' w' p g a :
  wait_step usable s w s' w' → newly_acquired w' = 0 →
  sema_step usable signals (Machine s w p g a) (Machine s' w' p g a).
Proof.
  intros Hs Hw. pose proof (step_wait usable signals (Machine s w p g a) s' w' (or_intror Hs)) as H.
  simpl in H. by rewrite Hw, Z.add_0_r in H.
Qed.

(** Spinning until the loop ends. *)
Lemma spin_run s t n p g a : m_count s ≤ 0 →
  rtc (sema_step usable signals) (Machine s (WSpin t (Z.of_nat n)) p g a) (Machine s (WTake t) p g a).
Proof.
  intros Hs. induction n as [|n IH].
  - apply rtc_once, wait_one; [|done]. apply spin_over. lia.
  - eapply rtc_l; [|exact IH]. apply wait_one; [|done].
    replace (Z.of_nat n) with (Z.of_nat (S n) - 1) by lia. apply spin_again; [lia|done].
Qed.

(** A call of [wait(t)] on a counter that is not positive gets to the last attempt. *)
Lemma wait_run s t p g a : m_count s ≤ 0 →
  rtc (sema_step usable signals) (Machine s WIdle p g a) (Machine s (WTake t) p g a).
Proof.
  intros Hs. eapply rtc_l; [by apply (step_call_wait usable signals (Machine s WIdle p g a) (Wait t))|].
  simpl. eapply rtc_l.
  { apply (step_wait usable signals (Machine s _ p g a)). left. by apply try_wait_longer. }
  simpl. rewrite Z.add_0_r. pose proof (spin_run s t (Z.to_nat 10000) p g a Hs) as Hrun.
  by rewrite Z2Nat.id in Hrun by lia.
Qed.
End runs.

(** The deadline [sem_timedwait] does not accept makes a timed wait return true although
    nothing has been signalled: [timed_wait] takes every error but ETIMEDOUT for
    success. *)
Theorem timed_wait_returns_without_unit `{HP : PosixSemaphore} (now : timespec) (t : Z)
    (Hnow : timespec_ok now) (Ht : 0 ≤ t)
    (Hsum : tv_nsec now + (t mod 1000000) * 1000 = 1000000000)
    (Hinval : sem_timedwait (deadline now t) 0 (Failed EINVAL) 0) :
  ¬ timespec_ok (deadline now t) ∧
  ∃ m, rtc (sema_step (λ _, True) (λ _, True)) (initial_sema 0) m ∧
    waiting m = WDone true ∧ signalled m = 0 ∧ acquired m = 1.
Proof.
  split; [rewrite deadline_ok by done; lia|].
  exists (Machine (Sema (-1) 0) (WDone true) SIdle 0 1). split; [|done].
  etrans; [by apply (wait_run (λ _, True) (λ _, True) _ t)|].
  eapply rtc_l; [apply step_wait; right; by apply (take_timed _ _ t now)|].
  apply rtc_once. apply (step_wait _ _ (Machine (Sema (-1) 0) _ SIdle 0 0)). right.
  by apply (sem_waits_timed _ (Sema (-1) 0) _ (Failed EINVAL) 0).
Qed.

(** [signal(0)], which its assertion admits, wakes a sleeping thread: the semaphore is
    posted whenever the counter was negative. *)
Lemma signal_nothing_posts `{HP : PosixSemaphore} v v' : sem_post v v' →
  signal_step (Sema (-1) v) (SAdd 0) (Sema (-1) v) SPost ∧
  signal_step (Sema (-1) v) SPost (Sema (-1) v') SDone.
Proof.
  intros Hv. split; [apply (signal_add (Sema (-1) v) 0)|].
  apply (signal_post (Sema (-1) v)). by eapply posts_one; [lia|done|apply posts_none; lia].
Qed.

(** ** A semaphore that behaves as documented *)
Module Posix.
Definition take (v : nat) (v' : nat) : Prop := v = S v'.
Definition same (v v' : nat) : Prop := v' = v.

#[export] Instance posix : PosixSemaphore := {|
  sem_wait v r v' :=
    match r with Success => take v v' | Failed EINTR => same v v' | Failed _ => False end;
  sem_trywait v r v' :=
    match r with
    | Success => take v v'
    | Failed EINTR => same v v'
    | Failed EAGAIN => v = 0%nat ∧ v' = 0%nat
    | Failed _ => False
    end;
  sem_timedwait ts v r v' :=
    match r with
    | Success => take v v'
    | Failed EINTR => same v v'
    | Failed ETIMEDOUT => v = 0%nat ∧ v' = 0%nat
    | Failed EINVAL => v = 0%nat ∧ v' = 0%nat ∧ ¬ timespec_ok ts
    | Failed EAGAIN => False
    end;
  sem_post v v' := v' = S v
|}.

#[export] Instance posix_laws : PosixLaws.
Proof.
  split; unfold take, same; simpl; try done; intros; repeat case_match; naive_solver.
Qed.
End Posix.
#[local] Existing Instance Posix.posix.
#[local] Existing Instance Posix.posix_laws.

(** The thread has gone to sleep; then a unit is signalled. *)
Definition woken : machine := Machine (Sema 0 1) WSemWait SDone 1 0.

Lemma woken_reachable : rtc (sema_step timespec_ok (λ count, 0 < count)) (initial_sema 0) woken.
Proof.
  etrans; [by apply (wait_run timespec_ok _ _ (-1))|].
  eapply rtc_l; [apply step_wait; right; by apply take_forever|]. simpl.
  eapply rtc_l; [by apply (step_call_signal _ _ _ 1)|]. simpl.
  eapply rtc_l; [apply step_signal, signal_add|]. simpl.
  apply rtc_once. apply (step_signal timespec_ok _ (Machine (Sema 0 0) WSemWait SPost 1 0)).
  apply signal_post. by eapply posts_one; [lia|done|apply posts_none; lia].
Qed.

Lemma semaphore_counts_witness :
  waiting woken = WSemWait ∧ (0 < m_sema (sema woken))%nat.
Proof.
  split; [reflexivity|].
  destruct (semaphore_counts timespec_ok (λ count, 0 < count) (λ _ H, H) (λ _ H, H) 0 ltac:(lia)
    woken woken_reachable eq_refl)
    as (_ & _ & _ & Hwake).
  by apply Hwake.
Defined.

(** At half a second past the full second, waiting for half a second. *)
Lemma timed_wait_returns_without_unit_witness :
  ∃ m, rtc (sema_step (λ _, True) (λ _, True)) (initial_sema 0) m ∧
    waiting m = WDone true ∧ signalled m = 0 ∧ acquired m = 1.
Proof.
  refine (proj2 (timed_wait_returns_without_unit (Timespec 0 500000000) 500000 _ _ _ _));
    [unfold timespec_ok; simpl; lia|lia|reflexivity|].
  simpl. split_and!; [done|done|]. intros [_ Hlt]. vm_compute in Hlt. discriminate Hlt.
Defined.
