(* ===== verification/BlockingQueue.v ===== *)
(** * moodycamel::BlockingReaderWriterQueue (readerwriterqueue.h), used by one thread

    The queue with a semaphore that counts its elements.  What [tryWait], [wait] and
    [signal] of Semaphore.v come to when no other thread interferes: spinning changes
    nothing, and who has to wait for a unit waits for ever ([blocked]) or until
    [sem_timedwait] gives up.  A timed wait reads the clock, so [now], what the clock
    shows then, is an argument of it. *)
From stdpp Require Import gmap.
From S2P Require Import Prelude Lifetime Semaphore ReaderWriterQueue.

#[local] Open Scope Z_scope.

Record BlockingQueue (T : Type) := mkBlocking {
  inner : ReaderWriterQueue T;
  sema : LightweightSemaphore
}.
Arguments mkBlocking {T} _ _.
Arguments inner {T} _.
Arguments sema {T} _.

Section blocking.
Context {X T U : Type} `{!CppType X T}.
Context (MAX_BLOCK_SIZE : Z) (ndebug : bool) (malloc : nat → Z → bool) (bad_alloc : X).
Context (sizeof_Block alignof_Block sizeof_T alignof_T : Z).
Context (assign_result : U → T → U * T * completion X unit).
(** With what [sem_timedwait] fails on a semaphore of value 0 that nobody posts, interruptions
    ([EINTR]) apart. *)
Context (expired : timespec → errno).
#[local] Abbreviation B := (BlockingQueue T).

Definition on_inner {R A} (m : M X (ReaderWriterQueue T * R) A) : M X (B * R) A :=
  fun '(b, r) =>
    match m (inner b, r) with
    | Ok ((q, r'), a) => Ok ((mkBlocking q (sema b), r'), a)
    | Err f => Err f
    end.

(** [BlockingReaderWriterQueue(maxSize)]; [sema] starts at 0. *)
Definition blocking_ctor (maxSize : Z) : M X (ReaderWriterQueue T) unit :=
  queue_ctor MAX_BLOCK_SIZE ndebug malloc bad_alloc sizeof_Block alignof_Block sizeof_T alignof_T
    maxSize.

Definition blocking_new (q : ReaderWriterQueue T) : B := mkBlocking q (Sema 0 0).

Definition get_count {R} : M X (B * R) Z := gets (fun '(b, _) => m_count (sema b)).

(** [m_count.fetch_add(k)]: the value before. *)
Definition fetch_add {R} (k : Z) : M X (B * R) Z :=
  oldCount ← get_count;
  modify (fun '(b, r) => (mkBlocking (inner b) (add_count k (sema b)), r)) ;;
  mret oldCount.

Definition bassert {R} (b : bool) : M X (B * R) unit := on_inner (on_fst (massert ndebug b)).

(** [LightweightSemaphore::tryWait] *)
Definition tryWait {R} : M X (B * R) bool :=
  n ← get_count;
  if 0 <? n then fetch_add (-1) ;; mret true else mret false.

(** The semaphore of the operating system, if it is not 0, is decremented. *)
Definition sem_down {R} : M X (B * R) bool :=
  v ← gets (fun '(b, _) => m_sema (sema b));
  match v with
  | S v =>
      modify (fun '(b, r) => (mkBlocking (inner b) (Sema (m_count (sema b)) v), r)) ;; mret true
  | O => mret false
  end.

(** [Semaphore::wait], [Semaphore::try_wait] and [Semaphore::timed_wait] *)
Definition sem_waits {R} : M X (B * R) unit :=
  ok ← sem_down; if (ok : bool) then mret tt else fail blocked.

Definition try_wait {R} : M X (B * R) bool :=
  ok ← sem_down; mret (try_wait_result (if (ok : bool) then Success else Failed EAGAIN)).

Definition timed_wait {R} (now : timespec) (usecs : Z) : M X (B * R) bool :=
  ok ← sem_down;
  mret (timed_wait_result (if (ok : bool) then Success else Failed (expired (deadline now usecs)))).

(** The loop after the time is up: the unit is given back, unless it has arrived. *)
Fixpoint restore_count {R} (fuel : nat) : M X (B * R) bool :=
  match fuel with
  | O => fail out_of_fuel
  | S fuel =>
      oldCount ← fetch_add 1;
      if oldCount <? 0 then mret false
      else
        oldCount ← fetch_add (-1);
        ok ← (if 0 <? oldCount then try_wait else mret false);
        if (ok : bool) then mret true else restore_count fuel
  end.

(** [LightweightSemaphore::waitWithPartialSpinning] *)
Definition waitWithPartialSpinning {R} (now : timespec) (timeout_usecs : Z) : M X (B * R) bool :=
  oldCount ← fetch_add (-1);
  if 0 <? oldCount then mret true
  else if timeout_usecs <? 0 then sem_waits ;; mret true
  else
    ok ← timed_wait now timeout_usecs;
    if (ok : bool) then mret true else restore_count 1.

(** [LightweightSemaphore::wait] *)
Definition wait {R} (now : timespec) (timeout_usecs : Z) : M X (B * R) bool :=
  ok ← tryWait;
  if (ok : bool) then mret true else waitWithPartialSpinning now timeout_usecs.

(** [LightweightSemaphore::signal] *)
Definition signal {R} (count : Z) : M X (B * R) unit :=
  bassert (0 <=? count) ;;
  oldCount ← fetch_add count;
  bassert (-1 <=? oldCount) ;;
  if oldCount <? 0
  then modify (fun '(b, r) => (mkBlocking (inner b) (Sema (m_count (sema b)) (S (m_sema (sema b)))), r))
  else mret tt.

(** ** The members *)
Definition blocking_enqueue (m : M X (ReaderWriterQueue T * T) bool) : M X (B * T) bool :=
  ok ← on_inner m;
  if (ok : bool) then signal 1 ;; mret true else mret false.

Definition blocking_try_enqueue (c : category) : M X (B * T) bool :=
  blocking_enqueue (try_enqueue MAX_BLOCK_SIZE ndebug malloc sizeof_Block alignof_Block sizeof_T
                      alignof_T c).

Definition blocking_enqueue_alloc (c : category) : M X (B * T) bool :=
  blocking_enqueue (enqueue MAX_BLOCK_SIZE ndebug malloc sizeof_Block alignof_Block sizeof_T
                      alignof_T c).

(** bool success = inner.try_dequeue(result); assert(success); *)
Definition dequeue_present : M X (B * U) unit :=
  success ← on_inner (try_dequeue ndebug assign_result);
  bassert success.

Definition blocking_try_dequeue : M X (B * U) bool :=
  ok ← tryWait;
  if (ok : bool) then dequeue_present ;; mret true else mret false.

(** [wait()] does not look at the clock. *)
Definition wait_dequeue : M X (B * U) unit := wait (Timespec 0 0) (-1) ;; dequeue_present.

Definition wait_dequeue_timed (now : timespec) (timeout_usecs : Z) : M X (B * U) bool :=
  ok ← wait now timeout_usecs;
  if negb ok then mret false else dequeue_present ;; mret true.

Definition blocking_peek {R} : M X (B * R) (option (nat * Z)) := on_inner (peek ndebug).

Definition blocking_pop {R} : M X (B * R) bool :=
  ok ← tryWait;
  if (ok : bool) then result ← on_inner (pop ndebug); bassert result ;; mret true
  else mret false.

Definition blocking_size_approx (b : B) : Z := availableApprox (sema b).
End blocking.
