(* ===== verification/BlockingTheorems.v ===== *)
(** * BlockingReaderWriterQueue: the semaphore counts the elements *)
From stdpp Require Import gmap.
From S2P Require Import Prelude Lifetime Semaphore SemaphoreTheorems ReaderWriterQueue RwqBlocks.
From S2P Require Import RwqRing RwqOps RwqConsumer RwqLifecycle RwqTheorems BlockingQueue.

#[local] Open Scope Z_scope.

Section calls.
Context {X T U : Type} `{!CppType X T}.
Context (MAX_BLOCK_SIZE : Z) (ndebug : bool) (malloc : nat → Z → bool).
Context (sizeof_Block alignof_Block sizeof_T alignof_T : Z).
Context (assign_result : U → T → U * T * completion X unit) (expired : timespec → errno).
#[local] Abbreviation B := (BlockingQueue T).
#[local] Abbreviation reply := (reply (X := X) (T := T) (U := U)).
Implicit Types (b : B).

Inductive bcall :=
  | BEnqueue (canAlloc : bool) (c : category) (x : T)
  | BTryDequeue (r : U)
  | BWaitDequeue (r : U)
  | BWaitTimed (r : U) (now : timespec) (timeout_usecs : Z)
  | BPeek
  | BPop
  | BSize.

Definition run_bcall (o : bcall) b : result (B * reply) :=
  match o with
  | BEnqueue canAlloc c x =>
      '((b', x'), a) ←
        (if canAlloc
         then blocking_enqueue_alloc MAX_BLOCK_SIZE ndebug malloc sizeof_Block alignof_Block
                sizeof_T alignof_T c
         else blocking_try_enqueue MAX_BLOCK_SIZE ndebug malloc sizeof_Block alignof_Block
                sizeof_T alignof_T c) (b, x);
      Ok (b', Enqueued x' a)
  | BTryDequeue r =>
      '((b', r'), a) ← blocking_try_dequeue ndebug assign_result (b, r); Ok (b', Dequeued r' a)
  | BWaitDequeue r =>
      '((b', r'), a) ← wait_dequeue ndebug assign_result expired (b, r);
      Ok (b', Dequeued r' (match a with Returns _ => Returns true | Throws e => Throws e end))
  | BWaitTimed r now t =>
      '((b', r'), a) ← wait_dequeue_timed ndebug assign_result expired now t (b, r);
      Ok (b', Dequeued r' a)
  | BPeek =>
      '((b', _), a) ← blocking_peek (X := X) ndebug (b, tt);
      Ok (b', match a with Returns p => Peeked (p ≫= pointee (inner b')) | Throws e => Thrown e end)
  | BPop =>
      '((b', _), a) ← blocking_pop (X := X) ndebug (b, tt);
      Ok (b', match a with Returns a => Popped a | Throws e => Thrown e end)
  | BSize => Ok (b, Counted (blocking_size_approx b))
  end.

Fixpoint run_bcalls (l : list bcall) b : result (B * list reply) :=
  match l with
  | [] => Ok (b, [])
  | o :: l => '(b, a) ← run_bcall o b; '(b, k) ← run_bcalls l b; Ok (b, a :: k)
  end.

(** The variable a dequeuing call fills, and whether it waits for ever. *)
Definition dequeues (o : bcall) : option U :=
  match o with BTryDequeue r | BWaitDequeue r | BWaitTimed r _ _ => Some r | _ => None end.

Definition waits_forever (o : bcall) : bool :=
  match o with BWaitDequeue _ => true | BWaitTimed _ _ t => t <? 0 | _ => false end.

(** The specification.  Of the elements, [k] cannot be dequeued any more: each time
    the assignment to the result throws, the semaphore has been decremented, but the
    element stays. *)
Inductive bstep (maxSize : Z) : list T → Z → bcall → reply → list T → Z → Prop :=
  | b_enqueue items k a c x x' y :
      forward_ctor c x = (x', Returns y) →
      bstep maxSize items k (BEnqueue a c x) (Enqueued x' (Returns true)) (items ++ [y]) k
  | b_enqueue_throws items k a c x x' e :
      forward_ctor c x = (x', Throws e) →
      bstep maxSize items k (BEnqueue a c x) (Enqueued x' (Throws e)) items k
  | b_full items k a c x :
      maxSize ≤ zlen items → (a = true → out_of_memory malloc) →
      bstep maxSize items k (BEnqueue a c x) (Enqueued x (Returns false)) items k
  | b_dequeue items k x o r r' x' :
      dequeues o = Some r → k ≤ zlen items → assign_result r x = (r', x', Returns tt) →
      bstep maxSize (x :: items) k o (Dequeued r' (Returns true)) items k
  | b_dequeue_throws items k x o r r' x' e :
      dequeues o = Some r → k ≤ zlen items → assign_result r x = (r', x', Throws e) →
      bstep maxSize (x :: items) k o (Dequeued r' (Throws e)) (x' :: items) (k + 1)
  | b_dequeue_none items k o r :
      dequeues o = Some r → k = zlen items → waits_forever o = false →
      bstep maxSize items k o (Dequeued r (Returns false)) items k
  | b_peek items k : bstep maxSize items k BPeek (Peeked (head items)) items k
  | b_pop items k x :
      k ≤ zlen items → bstep maxSize (x :: items) k BPop (Popped true) items k
  | b_pop_none items k : k = zlen items → bstep maxSize items k BPop (Popped false) items k
  | b_size items k : bstep maxSize items k BSize (Counted (zlen items - k)) items k.

Inductive bsteps (maxSize : Z) :
    list T → Z → list bcall → list reply → list T → Z → Prop :=
  | b_none items k : bsteps maxSize items k [] [] items k
  | b_some items k items' k' items'' k'' o a l rs :
      bstep maxSize items k o a items' k' → bsteps maxSize items' k' l rs items'' k'' →
      bsteps maxSize items k (o :: l) (a :: rs) items'' k''.

Section correctness.
Context (c0 n0 maxSize : Z) (Hmax : cap_ok MAX_BLOCK_SIZE) (Hc0 : 1 ≤ c0).
Context (Hroom : maxSize ≤ capacity c0 n0).
(** [sem_timedwait] only refuses a deadline whose nanoseconds are out of range. *)
Context (Hos : ∀ ts, expired ts = ETIMEDOUT ∨ ¬ timespec_ok ts).

(** After at most [n] calls. *)
Definition counted b (leaked : nat) (items : list T) (k n : Z) : Prop :=
  ready c0 n0 (inner b) leaked items ∧ sema b = Sema (zlen items - k) 0 ∧ 0 ≤ k ≤ zlen items ∧
  zlen items ≤ n.

Lemma counted_more b leaked items k n : counted b leaked items k n → counted b leaked items k (n + 1).
Proof using Type. intros (? & ? & ? & ?). split_and!; [done|done|lia..]. Qed.

Lemma runs_on_inner {R A} (m : M X (ReaderWriterQueue T * R) A) b r
    (P : A → B * R → Prop) (Pt : X → B * R → Prop) (F : fault → Prop) :
  runs m (inner b, r) (λ a s, P a (mkBlocking s.1 (sema b), s.2))
    (λ e s, Pt e (mkBlocking s.1 (sema b), s.2)) F →
  runs (on_inner m) (b, r) P Pt F.
Proof. unfold runs, on_inner. destruct (m (inner b, r)) as [[[q r'] [a|e]]|f]; done. Qed.

Lemma runs_bassert {R} x b (r : R) (P : unit → B * R → Prop) (Pt : X → B * R → Prop) F :
  x = true → P tt (b, r) → runs (bassert ndebug x) (b, r) P Pt F.
Proof. intros Hx HP. apply runs_on_inner, runs_massert; [done|]. by destruct b. Qed.

Lemma runs_count_add {R} d b (r : R) n v (P : Z → B * R → Prop) (Pt : X → B * R → Prop) F :
  sema b = Sema n v → - 2 ^ 63 ≤ n + d < 2 ^ 63 →
  P n (mkBlocking (inner b) (Sema (n + d) v), r) → runs (fetch_add d) (b, r) P Pt F.
Proof.
  intros Hs Hd HP. apply runs_bind, runs_gets, runs_bind, runs_modify, runs_ret.
  unfold add_count. rewrite Hs. simpl. by rewrite ssize_small.
Qed.

(** A unit is taken if there is one. *)
Lemma runs_tryWait {R} b (r : R) n (P : bool → B * R → Prop) (Pt : X → B * R → Prop) F :
  sema b = Sema n 0 → n < 2 ^ 63 →
  (0 < n → P true (mkBlocking (inner b) (Sema (n - 1) 0), r)) → (n ≤ 0 → P false (b, r)) →
  runs tryWait (b, r) P Pt F.
Proof.
  intros Hs Hbig Htrue Hfalse. unfold tryWait. apply runs_bind, runs_gets. rewrite Hs. simpl.
  destruct (Z.ltb_spec 0 n).
  - apply runs_bind. eapply runs_count_add; [exact Hs|lia|]. apply runs_ret. auto.
  - apply runs_ret. auto.
Qed.

Lemma runs_sem_down {R} b (r : R) n (P : bool → B * R → Prop) (Pt : X → B * R → Prop) F :
  sema b = Sema n 0 → P false (b, r) → runs sem_down (b, r) P Pt F.
Proof. intros Hs HP. apply runs_bind, runs_gets. rewrite Hs. by apply runs_ret. Qed.

Lemma runs_wait {R} now t b (r : R) n (P : bool → B * R → Prop) (Pt : X → B * R → Prop) :
  sema b = Sema n 0 → 0 ≤ n < 2 ^ 63 →
  (0 < n → P true (mkBlocking (inner b) (Sema (n - 1) 0), r)) →
  (n = 0 → 0 ≤ t → if bool_decide (expired (deadline now t) = ETIMEDOUT) then P false (b, r)
     else P true (mkBlocking (inner b) (Sema (-1) 0), r)) →
  runs (wait expired now t) (b, r) P Pt (λ f, f = blocked ∧ n = 0 ∧ t < 0).
Proof.
  intros Hs Hn Htrue Hfalse. unfold wait. apply runs_bind.
  apply (runs_tryWait b r n); [done|lia|intros; apply runs_ret; auto|]. intros Hz.
  assert (n = 0) as -> by lia. unfold waitWithPartialSpinning. apply runs_bind.
  eapply runs_count_add; [exact Hs|lia|]. rewrite (proj2 (Z.ltb_ge 0 0)) by lia.
  destruct (Z.ltb_spec t 0).
  { apply runs_bind, runs_bind. eapply runs_sem_down; [done|]. by split_and!. }
  apply runs_bind, runs_bind. eapply runs_sem_down; [done|]. apply runs_ret.
  specialize (Hfalse eq_refl ltac:(lia)). unfold timed_wait_result.
  destruct (decide (expired (deadline now t) = ETIMEDOUT)) as [He|He].
  - rewrite bool_decide_eq_true_2 in Hfalse by done. rewrite He, bool_decide_eq_false_2 by (intros []; done).
    apply runs_bind. eapply runs_count_add; [done|simpl; lia|].
    rewrite (proj2 (Z.ltb_lt _ 0)) by lia. apply runs_ret. destruct b as [q0 s0]. simpl in *. by subst s0.
  - rewrite bool_decide_eq_false_2 in Hfalse by done. rewrite bool_decide_eq_true_2 by congruence.
    by apply runs_ret.
Qed.

(** The unit of an element that has been enqueued. *)
Lemma runs_signal {R} q n (r : R) (P : unit → B * R → Prop) (Pt : X → B * R → Prop) F :
  0 ≤ n → n + 1 < 2 ^ 63 → P tt (mkBlocking q (Sema (n + 1) 0), r) →
  runs (signal ndebug 1) (mkBlocking q (Sema n 0), r) P Pt F.
Proof.
  intros Hn Hbig HP. unfold signal. apply runs_bind, runs_bassert; [done|].
  apply runs_bind. eapply runs_count_add; [done|lia|]. apply runs_bind, runs_bassert; [lia|].
  by rewrite (proj2 (Z.ltb_ge n 0)) by lia.
Qed.

Lemma blocking_enqueue_runs canAlloc c b leaked items k n x :
  counted b leaked items k n → n + 1 < 2 ^ 63 →
  runs (blocking_enqueue ndebug (inner_enqueue MAX_BLOCK_SIZE ndebug malloc sizeof_Block
          alignof_Block sizeof_T alignof_T canAlloc c)) (b, x)
    (λ ok s, ∃ items', bstep maxSize items k (BEnqueue canAlloc c x)
       (Enqueued s.2 (Returns ok)) items' k ∧ ∃ leaked', counted s.1 leaked' items' k (n + 1))
    (λ e s, bstep maxSize items k (BEnqueue canAlloc c x) (Enqueued s.2 (Throws e)) items k ∧
       ∃ leaked', counted s.1 leaked' items k (n + 1)) never.
Proof using Hmax Hc0 Hroom.
  intros (Hq & Hs & Hk & Hle) Hbig. unfold blocking_enqueue. apply runs_bind, runs_on_inner.
  eapply runs_mono; [by apply (inner_enqueue_runs MAX_BLOCK_SIZE ndebug malloc sizeof_Block
    alignof_Block sizeof_T alignof_T c0 n0 Hmax Hc0)|..]; [| |done].
  - intros [|] [q x'].
    + intros (y & Hy & Hq'). simpl in *. rewrite Hs. apply runs_bind, runs_signal; [lia|lia|].
      apply runs_ret. exists (items ++ [y]). split; [by eapply b_enqueue|]. exists leaked.
      assert (zlen (items ++ [y]) = zlen items + 1) by (rewrite zlen_app; done).
      split_and!; [done|simpl; f_equal; lia|lia..].
    + intros (-> & Hq' & Hcap & Hmem). simpl in *. apply runs_ret. exists items.
      split; [by apply b_full; [lia|]|]. exists leaked. apply counted_more. split_and!; [done|done|lia..].
  - intros e [q x'] (He & leaked' & Hq' & _). simpl in *.
    split; [by eapply b_enqueue_throws|]. exists leaked'. apply counted_more. split_and!; [done|done|lia..].
Qed.

(** Taking an element after its unit. *)
Lemma dequeue_present_runs o q leaked items k n r :
  ready c0 n0 q leaked items → 0 ≤ k < zlen items → zlen items ≤ n → dequeues o = Some r →
  runs (dequeue_present ndebug assign_result) (mkBlocking q (Sema (zlen items - k - 1) 0), r)
    (λ _ s, ∃ items', bstep maxSize items k o (Dequeued s.2 (Returns true)) items' k ∧
       ∃ leaked', counted s.1 leaked' items' k (n + 1))
    (λ e s, ∃ items', bstep maxSize items k o (Dequeued s.2 (Throws e)) items' (k + 1) ∧
       ∃ leaked', counted s.1 leaked' items' (k + 1) (n + 1)) never.
Proof.
  intros Hq Hk Hle Ho. unfold dequeue_present. apply runs_bind, runs_on_inner.
  eapply runs_mono; [by apply (try_dequeue_runs ndebug c0 n0 assign_result)|..]; [| |done].
  - intros [|] [q' r'].
    + intros (x & rest & -> & [x' Hx] & Hq'). simpl in *. apply runs_bassert; [done|].
      assert (zlen (x :: rest) = zlen rest + 1) by (unfold zlen; simpl; lia).
      exists rest. split; [eapply b_dequeue; [done|lia|done]|]. exists leaked.
      split_and!; [done|simpl; f_equal; lia|lia..].
    + intros (-> & _). unfold zlen in Hk. simpl in Hk. lia.
  - intros e [q' r'] (x & rest & x' & -> & Hx & Hq'). simpl in *.
    assert (zlen (x :: rest) = zlen rest + 1) by (unfold zlen; simpl; lia).
    assert (zlen (x' :: rest) = zlen rest + 1) by (unfold zlen; simpl; lia).
    exists (x' :: rest). split; [eapply b_dequeue_throws; [done|lia|done]|]. exists leaked.
    split_and!; [done|simpl; f_equal; lia|lia..].
Qed.

(** The outcome of a call.  A timed wait for which there is no unit and whose deadline
    [sem_timedwait] refuses goes on as if it had got one. *)
Definition refused (o : bcall) b (items : list T) k : Prop :=
  ∃ r now t, o = BWaitTimed r now t ∧ 0 ≤ t ∧ (¬ timespec_ok (deadline now t)) ∧ k = zlen items ∧
    (items = [] → if ndebug then ∃ b', run_bcall o b = Ok (b', Dequeued r (Returns true))
                  else run_bcall o b = Err assert_failed).

Definition answers (o : bcall) b items k n : Prop :=
  (∃ b' a items' k' leaked', run_bcall o b = Ok (b', a) ∧ bstep maxSize items k o a items' k' ∧
     counted b' leaked' items' k' (n + 1)) ∨
  (run_bcall o b = Err blocked ∧ waits_forever o = true ∧ k = zlen items) ∨
  refused o b items k.

(** From the rules of [runs] to the results of a call with a boolean answer. *)
Lemma runs_result {R A} (m : M X (B * R) A) b r items k n o (f : R → completion X A → reply)
    (F : fault → Prop) :
  runs m (b, r)
    (λ a s, ∃ items' k' leaked', bstep maxSize items k o (f s.2 (Returns a)) items' k' ∧
       counted s.1 leaked' items' k' (n + 1))
    (λ e s, ∃ items' k' leaked', bstep maxSize items k o (f s.2 (Throws e)) items' k' ∧
       counted s.1 leaked' items' k' (n + 1)) F →
  (∃ b' a items' k' leaked', ('((b', r'), a) ← m (b, r); Ok (b', f r' a)) = Ok (b', a) ∧
     bstep maxSize items k o a items' k' ∧ counted b' leaked' items' k' (n + 1)) ∨
  ∃ e, ('((b', r'), a) ← m (b, r); Ok (b', f r' a)) = Err e ∧ F e.
Proof.
  unfold runs. destruct (m (b, r)) as [[[b' r'] [a|e]]|e]; simpl.
  - intros (items' & k' & leaked' & ? & ?). left. by exists b', (f r' (Returns a)), items', k', leaked'.
  - intros (items' & k' & leaked' & ? & ?). left. by exists b', (f r' (Throws e)), items', k', leaked'.
  - intros He. right. by exists e.
Qed.

(** What waiting for a unit comes to. *)
Definition unit_taken b (items : list T) k (r : U) (patient : Prop) (ok : bool) (s : B * U) : Prop :=
  if ok then 0 < zlen items - k ∧ s = (mkBlocking (inner b) (Sema (zlen items - k - 1) 0), r)
  else zlen items - k = 0 ∧ patient ∧ s = (b, r).

Lemma dequeue_call_runs (w : M X (B * U) bool) (cont : bool → M X (B * U) bool) patient F
    b leaked items k n r o :
  counted b leaked items k n → dequeues o = Some r → (patient → waits_forever o = false) →
  (cont true = (dequeue_present ndebug assign_result ;; mret true)) →
  (cont false = mret false) →
  runs w (b, r) (unit_taken b items k r patient) (λ _ _, False) F →
  runs (ok ← w; cont ok) (b, r)
    (λ a s, ∃ items' k' leaked', bstep maxSize items k o (Dequeued s.2 (Returns a)) items' k' ∧
       counted s.1 leaked' items' k' (n + 1))
    (λ e s, ∃ items' k' leaked', bstep maxSize items k o (Dequeued s.2 (Throws e)) items' k' ∧
       counted s.1 leaked' items' k' (n + 1)) F.
Proof.
  intros Hc Ho Hp Htrue Hfalse Hw. pose proof Hc as (Hq & Hs & Hk & Hle). apply runs_bind.
  eapply runs_mono; [exact Hw| |done|done]. intros [|] s; simpl.
  - intros [Hpos ->]. rewrite Htrue. apply runs_bind. eapply runs_mono;
      [by apply (dequeue_present_runs o _ leaked items k n r Hq); [lia|..]|..]; [| |done].
    + intros u s (items' & Hb & leaked' & Hc'). apply runs_ret. by exists items', k, leaked'.
    + intros e s (items' & Hb & leaked' & Hc'). by exists items', (k + 1), leaked'.
  - intros (Hz & Ht & ->). rewrite Hfalse. apply runs_ret. exists items, k, leaked.
    split; [apply b_dequeue_none; [done|lia|auto]|by apply counted_more].
Qed.

Lemma wait_unit now t b leaked items k n r :
  counted b leaked items k n → n + 1 < 2 ^ 63 →
  (zlen items = k → 0 ≤ t → expired (deadline now t) = ETIMEDOUT) →
  runs (X := X) (wait expired now t) (b, r) (unit_taken b items k r (0 ≤ t)) (λ _ _, False)
    (λ f, f = blocked ∧ zlen items - k = 0 ∧ t < 0).
Proof.
  intros (Hq & Hs & Hk & Hle) Hbig Htime. apply (runs_wait now t b r (zlen items - k)); [done|lia|done|].
  intros Hz Ht. rewrite bool_decide_eq_true_2 by (apply Htime; lia). by split_and!.
Qed.

Lemma tryWait_unit b leaked items k n r :
  counted b leaked items k n → n + 1 < 2 ^ 63 →
  runs (X := X) tryWait (b, r) (unit_taken b items k r True) (λ _ _, False) never.
Proof.
  intros (Hq & Hs & Hk & Hle) Hbig. apply (runs_tryWait b r (zlen items - k)); [done|lia|done|].
  intros. split_and!; [lia|done|done].
Qed.

(** The deadline is refused: there is no element, but the wait was granted. *)
Lemma refused_runs now t b leaked n r :
  counted b leaked [] 0 n → 0 ≤ t → expired (deadline now t) ≠ ETIMEDOUT →
  runs (wait_dequeue_timed ndebug assign_result expired now t) (b, r)
    (λ ok s, ok = true ∧ s.2 = r ∧ ndebug = true) (λ _ _, False)
    (λ f, f = assert_failed ∧ ndebug = false).
Proof.
  intros (Hq & Hs & _) Ht He. apply runs_bind.
  eapply runs_mono with (Q := λ ok s, ok = true ∧ s = (mkBlocking (inner b) (Sema (-1) 0), r))
      (Qt := λ _ _, False);
    [apply (runs_wait now t b r 0); [exact Hs|lia|lia|]| |by intros e s []|intros f (_ & _ & ?); lia].
  { intros _ _. by rewrite bool_decide_eq_false_2. }
  intros ok s [-> ->]. apply runs_bind, runs_bind, runs_on_inner.
  eapply runs_mono; [by apply (try_dequeue_runs ndebug c0 n0 assign_result)| | |done]; simpl.
  - intros [|] [q' r'] Hr; simpl in *; [by destruct Hr as (x & rest & ? & _)|].
    destruct Hr as (_ & -> & _). unfold runs, bassert, on_inner, on_fst, massert, cassert. simpl.
    by destruct ndebug.
  - intros e [q' r'] (x & rest & x' & ? & _). done.
Qed.

Lemma pop_call_runs b leaked items k n :
  counted b leaked items k n → n + 1 < 2 ^ 63 →
  runs (blocking_pop (X := X) ndebug) (b, tt)
    (λ a s, ∃ items' k' leaked', bstep maxSize items k BPop (Popped a) items' k' ∧
       counted s.1 leaked' items' k' (n + 1)) (λ _ _, False) never.
Proof.
  intros Hc Hbig. pose proof Hc as (Hq & Hs & Hk & Hle). unfold blocking_pop. apply runs_bind.
  apply (runs_tryWait b tt (zlen items - k)); [done|lia| |].
  - intros Hpos. apply runs_bind, runs_on_inner.
    eapply runs_mono; [by apply (pop_runs (X := X) ndebug c0 n0)|..]; [|done|done].
    intros [|] [q u]; simpl.
    + intros (_ & x & rest & -> & Hq'). apply runs_bind, runs_bassert; [done|]. apply runs_ret.
      assert (zlen (x :: rest) = zlen rest + 1) by (unfold zlen; simpl; lia).
      exists rest, k, leaked. split; [apply b_pop; lia|].
      split_and!; [done|simpl; f_equal; lia|lia..].
    + intros (_ & -> & _). unfold zlen in Hpos. simpl in Hpos. lia.
  - intros Hz. apply runs_ret. exists items, k, leaked. split; [apply b_pop_none; lia|by apply counted_more].
Qed.

Lemma timed_call_answers r now t b leaked items k n :
  counted b leaked items k n → n + 1 < 2 ^ 63 → answers (BWaitTimed r now t) b items k n.
Proof using Hos.
  intros Hc Hbig. pose proof Hc as (Hq & Hs & Hk & Hle).
  destruct (decide (zlen items = k ∧ 0 ≤ t ∧ expired (deadline now t) ≠ ETIMEDOUT)) as [(Hz & Ht & He)|Hno].
  - right. right. exists r, now, t. split_and!; [done|done|by destruct (Hos (deadline now t))|done|].
    intros ->. assert (k = 0) as -> by (unfold zlen in *; simpl in *; lia).
    pose proof (refused_runs now t b leaked n r Hc Ht He) as Hr. unfold runs in Hr. simpl.
    destruct (wait_dequeue_timed _ _ _ _ _ _) as [[[b' r'] [ok|e]]|f]; simpl in *; [|done|].
    + destruct Hr as (-> & -> & ->). eauto.
    + by destruct Hr as [-> ->].
  - assert (Htime : zlen items = k → 0 ≤ t → expired (deadline now t) = ETIMEDOUT).
    { intros Hz Ht. destruct (decide (expired (deadline now t) = ETIMEDOUT)); [done|]. by destruct Hno. }
    destruct (runs_result (wait_dequeue_timed ndebug assign_result expired now t) b r items k n
      (BWaitTimed r now t) Dequeued (λ f, f = blocked ∧ zlen items - k = 0 ∧ t < 0))
      as [H|(e & He & -> & Hz & Ht)]; [|by left|].
    + eapply dequeue_call_runs; [exact Hc|done| |done|done|by eapply wait_unit]. simpl. lia.
    + right. left. split_and!; [done|simpl; lia|lia].
Qed.

Lemma run_bcall_refines o b leaked items k n :
  counted b leaked items k n → n + 1 < 2 ^ 63 → answers o b items k n.
Proof using Hmax Hc0 Hroom Hos.
  intros Hc Hbig. destruct o as [a c x|r|r|r now t| | |].
  - destruct (runs_result (blocking_enqueue ndebug (inner_enqueue MAX_BLOCK_SIZE ndebug malloc
      sizeof_Block alignof_Block sizeof_T alignof_T a c)) b x items k n (BEnqueue a c x) Enqueued never)
      as [H|(e & _ & [])]; [|left; by destruct a].
    eapply runs_mono; [by apply (blocking_enqueue_runs a c b leaked items k n x)|..]; [| |done].
    + intros ok s (items' & Hb & leaked' & Hc'). by exists items', k, leaked'.
    + intros e s (Hb & leaked' & Hc'). by exists items, k, leaked'.
  - destruct (runs_result (blocking_try_dequeue ndebug assign_result) b r items k n (BTryDequeue r)
      Dequeued never) as [H|(e & _ & [])]; [|by left].
    by eapply dequeue_call_runs; [..|by eapply tryWait_unit].
  - destruct (runs_result (wait_dequeue ndebug assign_result expired) b r items k n
      (BWaitDequeue r)
      (λ r' a, Dequeued r' (match a with Returns _ => Returns true | Throws e => Throws e end))
      (λ f, f = blocked ∧ zlen items - k = 0))
      as [H|(e & He & -> & Hz)]; [|by left|right; left; split_and!; [done|done|lia]].
    apply runs_bind. eapply runs_mono;
      [by apply (wait_unit (Timespec 0 0) (-1) b leaked items k n r); [..|lia]|..];
      [|done|by intros f (? & ? & ?)].
    intros [|] s; [intros [Hpos ->]|simpl; lia]. destruct Hc as (Hq & Hs & Hk & Hle).
    eapply runs_mono;
      [by apply (dequeue_present_runs (BWaitDequeue r) _ leaked items k n r Hq); [lia|..]|..]; [| |done].
    + intros u s (items' & Hb & leaked' & Hc). by exists items', k, leaked'.
    + intros e s (items' & Hb & leaked' & Hc). by exists items', (k + 1), leaked'.
  - by eapply timed_call_answers.
  - left. pose proof Hc as (Hq & Hs & Hk & Hle).
    pose proof (peek_runs (X := X) ndebug c0 n0 (inner b) leaked items tt Hq) as Hrun.
    unfold runs in Hrun. simpl. unfold blocking_peek, on_inner.
    destruct (peek _ (inner b, tt)) as [[[q u] [a|e]]|f]; simpl in *; [|done..].
    destruct Hrun as (_ & Hq' & Ha). do 5 eexists. split_and!; [done|rewrite Ha; constructor|].
    split; [exact Hq'|split_and!; [exact Hs|lia..]].
  - destruct (runs_result (blocking_pop ndebug) b tt items k n BPop
      (λ _ a, match a with Returns a => Popped a | Throws e => Thrown e end) never)
      as [H|(e & _ & [])]; [|by left].
    eapply runs_mono; [by apply (pop_call_runs b leaked items k n)|done|done|done].
  - left. pose proof Hc as (Hq & Hs & Hk & Hle). exists b, (Counted (zlen items - k)), items, k, leaked.
    split_and!; [|constructor|by apply counted_more]. simpl.
    unfold blocking_size_approx, availableApprox. rewrite Hs. simpl.
    destruct (Z.ltb_spec 0 (zlen items - k)); [done|]. do 3 f_equal. lia.
Qed.

(** Calls that do not return, and calls after which the semaphore is wrong. *)
Definition blocks l b (items : list T) k : Prop :=
  ∃ l1 o l2 b' rs items', l = l1 ++ o :: l2 ∧ run_bcalls l1 b = Ok (b', rs) ∧
    bsteps maxSize items k l1 rs items' (zlen items') ∧ waits_forever o = true ∧
    run_bcalls l b = Err blocked.

Definition goes_wrong l b (items : list T) k : Prop :=
  ∃ l1 r now t l2 b' rs items', l = l1 ++ BWaitTimed r now t :: l2 ∧ run_bcalls l1 b = Ok (b', rs) ∧
    bsteps maxSize items k l1 rs items' (zlen items') ∧ 0 ≤ t ∧ (¬ timespec_ok (deadline now t)) ∧
    (items' = [] →
       if ndebug
       then ∃ b'', run_bcalls (l1 ++ [BWaitTimed r now t]) b = Ok (b'', rs ++ [Dequeued r (Returns true)])
       else run_bcalls l b = Err assert_failed).

Lemma run_bcalls_refine l : ∀ b leaked items k n,
  counted b leaked items k n → n + zlen l < 2 ^ 63 →
  (∃ b' rs items' k', run_bcalls l b = Ok (b', rs) ∧ bsteps maxSize items k l rs items' k') ∨
  blocks l b items k ∨ goes_wrong l b items k.
Proof using Hmax Hc0 Hroom Hos.
  induction l as [|o l IH]; intros b leaked items k n Hc Hbig.
  { left. do 4 eexists. split; [done|constructor]. }
  assert (Hlen : zlen (o :: l) = 1 + zlen l) by (unfold zlen; simpl; lia). pose proof (zlen_nonneg l).
  destruct (run_bcall_refines o b leaked items k n Hc ltac:(lia))
    as [(b1 & a & items1 & k1 & leaked1 & Ho & Ha & Hc1)|[(Ho & Hw & ->)|(r & now & t & -> & Ht & Hts & -> & Hemp)]].
  - destruct (IH b1 leaked1 items1 k1 (n + 1) Hc1 ltac:(lia)) as [(b2 & rs & items2 & k2 & Hl & Hrs)|[Hbl|Hwr]].
    + left. exists b2, (a :: rs), items2, k2. simpl. rewrite Ho. simpl. rewrite Hl.
      split; [done|by econstructor].
    + destruct Hbl as (l1 & o' & l2 & b2 & rs & items2 & -> & Hl & Hrs & Hw & He).
      right. left. exists (o :: l1), o', l2, b2, (a :: rs), items2. simpl. rewrite Ho. simpl.
      rewrite Hl, He. split_and!; [done|done|by econstructor|done|done].
    + destruct Hwr as (l1 & r & now & t & l2 & b2 & rs & items2 & -> & Hl & Hrs & Ht & Hts & Hemp).
      right. right. exists (o :: l1), r, now, t, l2, b2, (a :: rs), items2. simpl. rewrite Ho. simpl.
      rewrite Hl. split_and!; [done|done|by econstructor|done|done|].
      intros Hnil. specialize (Hemp Hnil). destruct ndebug; [|by rewrite Hemp].
      destruct Hemp as [b3 Hemp]. exists b3. by rewrite Hemp.
  - right. left. exists [], o, l, b, [], items. simpl. rewrite Ho.
    split_and!; [done|done|constructor|done|done].
  - right. right. exists [], r, now, t, l, b, [], items. simpl app.
    split_and!; [done|done|constructor|done|done|]. intros Hnil. specialize (Hemp Hnil).
    destruct ndebug; [destruct Hemp as [b' Hemp]; exists b'|]; cbn [run_bcalls]; by rewrite Hemp.
Qed.
End correctness.
End calls.

(** C10: Whatever one thread does with a blocking queue, it gets the answers of a FIFO
    list whose semaphore counts the elements that can still be dequeued: all of them,
    less one for every time the assignment to the result has thrown.  The assertions
    that a dequeue succeeds after its wait hold; [size_approx] is the count.  The only
    call that does not return is a wait without timeout while nothing can be dequeued.
    This is so up to the first timed wait for an element that is not there with a deadline
    [sem_timedwait] refuses: such a wait is granted, and on an empty queue either the
    assertion fails or, without assertions, true is returned with no element. *)
Theorem blocking_queue_counts {X T U : Type} `{!CppType X T} `{PL : PosixLaws} (MAX_BLOCK_SIZE : Z)
    (Hmax : cap_ok MAX_BLOCK_SIZE) (Hfits : MAX_BLOCK_SIZE ≤ 2 ^ 61) (ndebug : bool)
    (malloc : nat → Z → bool) (bad_alloc : X) (sizeof_B alignof_B sizeof_T alignof_T : Z)
    (assign_result : U → T → U * T * completion X unit) (expired : timespec → errno)
    (Hexpired : ∀ ts, sem_timedwait ts 0 (Failed (expired ts)) 0 ∧ expired ts ≠ EINTR) (maxSize : Z)
    (Hsize : 1 ≤ maxSize ≤ 2 ^ 62) (l : list bcall) (Hcalls : zlen l < 2 ^ 63) (q : ReaderWriterQueue T)
    (Hmake : blocking_ctor MAX_BLOCK_SIZE ndebug malloc bad_alloc sizeof_B alignof_B
               sizeof_T alignof_T maxSize raw_queue = Ok (q, Returns tt)) :
  let run := run_bcalls MAX_BLOCK_SIZE ndebug malloc sizeof_B alignof_B sizeof_T alignof_T
               assign_result expired in
  (∃ b rs items k, run l (blocking_new q) = Ok (b, rs) ∧
     bsteps malloc assign_result maxSize [] 0 l rs items k) ∨
  (∃ l1 o l2 b rs items, l = l1 ++ o :: l2 ∧ run l1 (blocking_new q) = Ok (b, rs) ∧
     bsteps malloc assign_result maxSize [] 0 l1 rs items (zlen items) ∧
     waits_forever o = true ∧ run l (blocking_new q) = Err blocked) ∨
  (∃ l1 r now t l2 b rs items, l = l1 ++ BWaitTimed r now t :: l2 ∧
     run l1 (blocking_new q) = Ok (b, rs) ∧
     bsteps malloc assign_result maxSize [] 0 l1 rs items (zlen items) ∧
     0 ≤ t ∧ (¬ timespec_ok (deadline now t)) ∧
     (items = [] →
        if ndebug
        then ∃ b', run (l1 ++ [BWaitTimed r now t]) (blocking_new q)
                     = Ok (b', rs ++ [Dequeued r (Returns true)])
        else run l (blocking_new q) = Err assert_failed)).
Proof.
  pose proof (queue_ctor_runs (T := T) MAX_BLOCK_SIZE ndebug malloc bad_alloc sizeof_B
    alignof_B sizeof_T alignof_T Hmax Hfits maxSize Hsize) as Hctor.
  unfold blocking_ctor in Hmake. unfold runs in Hctor. rewrite Hmake in Hctor.
  destruct Hctor as (c0 & n0 & Hc0 & Hroom & Hq).
  apply (run_bcalls_refine MAX_BLOCK_SIZE ndebug malloc sizeof_B alignof_B sizeof_T alignof_T
    assign_result expired c0 n0 maxSize Hmax Hc0 Hroom) with (leaked := 0%nat) (n := 0); [|by split_and!|done].
  intros ts. destruct (Hexpired ts) as [[_ Hts]%sem_timedwait_failed Hne].
  destruct Hts as [?|[?|[_ ?]]]; [done|by left|by right].
Qed.

#[local] Existing Instances Demo.number Posix.posix Posix.posix_laws.

(** What the manual says. *)
Definition bdemo_expired (ts : timespec) : errno :=
  if bool_decide (timespec_ok ts) then ETIMEDOUT else EINVAL.

Definition bdemo_run (l : list (bcall (T := nat) (U := nat))) :=
  run_bcalls (X := nat) 4 false Demo.plenty 64 8 4 4 move_assign bdemo_expired l
    (blocking_new Demo.fresh).

Definition bdemo_calls : list (bcall (T := nat) (U := nat)) :=
  [BEnqueue true Lvalue 1%nat; BEnqueue false Lvalue 2%nat; BSize; BWaitDequeue 0%nat;
   BTryDequeue 0%nat; BTryDequeue 0%nat; BWaitTimed 0%nat (Timespec 7 5) 100].

Lemma bdemo_expired_ok ts :
  sem_timedwait ts 0 (Failed (bdemo_expired ts)) 0 ∧ bdemo_expired ts ≠ EINTR.
Proof. unfold bdemo_expired. by destruct (bool_decide_reflect (timespec_ok ts)). Qed.

(** The calls return; with one more wait the thread waits for ever, and with a timed wait whose
    nanoseconds add up to a second the assertion fails. *)
Lemma blocking_queue_counts_witness :
  (∃ b rs items k, bdemo_run bdemo_calls = Ok (b, rs) ∧
     bsteps Demo.plenty move_assign 3 [] 0 bdemo_calls rs items k) ∧
  bdemo_run (bdemo_calls ++ [BWaitDequeue 0%nat]) = Err blocked ∧
  bdemo_run (bdemo_calls ++ [BWaitTimed 0%nat (Timespec 7 500000000) 500000]) = Err assert_failed.
Proof.
  split_and!; [|vm_compute; reflexivity..].
  destruct (blocking_queue_counts (X := nat) 4 Demo.four_ok ltac:(lia) false Demo.plenty 99%nat
    64 8 4 4 move_assign bdemo_expired bdemo_expired_ok 3 ltac:(lia) bdemo_calls eq_refl Demo.fresh
    ltac:(vm_compute; reflexivity))
    as [H|[(l1 & o & l2 & b & rs & items & _ & _ & _ & _ & He)|
           (l1 & r & now & t & l2 & b & rs & items & Hl & _ & _ & _ & Hts & _)]]; [exact H|..].
  - vm_compute in He. discriminate He.
  - assert (Hin : BWaitTimed r now t ∈ bdemo_calls) by (rewrite Hl; set_solver).
    repeat (apply elem_of_cons in Hin as [Hin|Hin]; [try discriminate Hin|]).
    + injection Hin as -> -> ->. exfalso. apply Hts. by apply (bool_decide_eq_true_1 _).
    + by apply elem_of_nil in Hin.
Defined.
