(* ===== verification/RwqConcurrent.v ===== *)
(** * ReaderWriterQueue: a producer and a consumer thread

    [inner_enqueue], [try_dequeue], [pop] and [peek] of readerwriterqueue.h, split at
    their accesses to the memory the threads share: the atomics [front], [tail], [next],
    [frontBlock], [tailBlock] and the slots.  A step is one such access, with what the
    thread does to its own data ([localTail] and [largestBlockSize], say) on the way.
    The accesses are sequentially consistent.  The guards against reentrance, a flag
    per thread in a debug build, are left out.

    [PIdle] and [CIdle] are threads outside the queue; the other constructors name the
    next access.  Their arguments are the local variables; [y], [x] and [nx] remember a
    value that has been stored or that is about to be. *)
From stdpp Require Import gmap.
From S2P Require Import Prelude Lifetime ReaderWriterQueue.

#[local] Open Scope Z_scope.

(** ** The producer *)
Inductive producer (X T : Type) : Type :=
  | PIdle
  | PStart (canAlloc : bool) (c : category)       (* tailBlock.load() *)
  | PTail (canAlloc : bool) (c : category) (tailBlock_ : nat)
                                                  (* tailBlock_->tail.load() *)
  | PFront (canAlloc : bool) (c : category) (tailBlock_ : nat) (blockTail nextBlockTail : Z)
                                                  (* tailBlock_->front.load() *)
  | PConstruct (c : category) (tailBlock_ : nat) (blockTail nextBlockTail : Z)
                                                  (* new (location) T *)
  | PPublish (tailBlock_ : nat) (blockTail nextBlockTail : Z) (y : T)
                                                  (* tailBlock_->tail = nextBlockTail *)
  | PNext (canAlloc : bool) (c : category) (tailBlock_ : nat)
                                                  (* tailBlock_->next.load() *)
  | PCompare (canAlloc : bool) (c : category) (tailBlock_ next_ : nat)
                                                  (* next_ != frontBlock *)
  | PNextAgain (c : category) (tailBlock_ : nat)  (* tailBlock_->next.load() *)
  | PNextFront (c : category) (tailBlockNext : nat)
                                                  (* tailBlockNext->front.load() *)
  | PNextTail (c : category) (tailBlockNext : nat) (nextBlockFront : Z)
                                                  (* tailBlockNext->tail.load() *)
  | PNextConstruct (c : category) (tailBlockNext : nat) (nextBlockTail : Z)
                                                  (* new (location) T *)
  | PNextStore (tailBlockNext : nat) (nextBlockTail : Z) (y : T)
                                                  (* tailBlockNext->tail = ... *)
  | PNextPublish (tailBlockNext : nat) (nextBlockTail : Z) (y : T)
                                                  (* tailBlock = tailBlockNext *)
  | PMake (c : category) (tailBlock_ : nat)       (* make_block(newBlockSize) *)
  | PNewConstruct (c : category) (tailBlock_ newBlock : nat)
                                                  (* new (newBlock->data) T *)
  | PNewStore (tailBlock_ newBlock : nat) (y : T) (* newBlock->tail = 1 *)
  | PNewNext (tailBlock_ newBlock : nat) (y : T)  (* newBlock->next = tailBlock_->next.load() *)
  | PLink (tailBlock_ newBlock nx : nat) (y : T)  (* tailBlock_->next = newBlock *)
  | PNewPublish (tailBlock_ newBlock nx : nat) (y : T)
                                                  (* tailBlock = newBlock *)
  | PDone (ok : bool)
  | PThrew (e : X).
Arguments PIdle {X T}.
Arguments PStart {X T} _ _.
Arguments PTail {X T} _ _ _.
Arguments PFront {X T} _ _ _ _ _.
Arguments PConstruct {X T} _ _ _ _.
Arguments PPublish {X T} _ _ _ _.
Arguments PNext {X T} _ _ _.
Arguments PCompare {X T} _ _ _ _.
Arguments PNextAgain {X T} _ _.
Arguments PNextFront {X T} _ _.
Arguments PNextTail {X T} _ _ _.
Arguments PNextConstruct {X T} _ _ _.
Arguments PNextStore {X T} _ _ _.
Arguments PNextPublish {X T} _ _ _.
Arguments PMake {X T} _ _.
Arguments PNewConstruct {X T} _ _ _.
Arguments PNewStore {X T} _ _ _.
Arguments PNewNext {X T} _ _ _.
Arguments PLink {X T} _ _ _ _.
Arguments PNewPublish {X T} _ _ _ _.
Arguments PDone {X T} _.
Arguments PThrew {X T} _.

Definition producing {X T} (p : producer X T) : bool :=
  match p with PIdle | PDone _ | PThrew _ => false | _ => true end.

Section producer_steps.
Context {X T : Type} `{!CppType X T}.
Context (MAX_BLOCK_SIZE : Z) (ndebug : bool) (malloc : nat → Z → bool).
Context (sizeof_Block alignof_Block sizeof_T alignof_T : Z).
#[local] Abbreviation Q := (ReaderWriterQueue T).

(** The object that has just been constructed, for the history. *)
Definition constructed_at (p : nat) (i : Z) : M X (Q * T) T := on_fst (element_at p i).

(** One access of [inner_enqueue]. *)
Definition producer_step (s : producer X T) : M X (Q * T) (producer X T) :=
  match s with
  | PStart canAlloc c =>
      tailBlock_ ← gets (fun '(q, _) => tailBlock q);
      mret (PTail canAlloc c tailBlock_)
  | PTail canAlloc c tailBlock_ =>
      b ← on_fst (load_block tailBlock_);
      let nextBlockTail := Z.land (u64 (tail b + 1)) (sizeMask b) in
      mret (if negb (nextBlockTail =? localFront b)
            then PConstruct c tailBlock_ (tail b) nextBlockTail
            else PFront canAlloc c tailBlock_ (tail b) nextBlockTail)
  | PFront canAlloc c tailBlock_ blockTail nextBlockTail =>
      b ← on_fst (load_block tailBlock_);
      on_fst (modify_block tailBlock_ (set_localFront (front b))) ;;
      mret (if negb (nextBlockTail =? front b)
            then PConstruct c tailBlock_ blockTail nextBlockTail
            else PNext canAlloc c tailBlock_)
  | PConstruct c tailBlock_ blockTail nextBlockTail =>
      construct_from c tailBlock_ blockTail ;;
      y ← constructed_at tailBlock_ blockTail;
      mret (PPublish tailBlock_ blockTail nextBlockTail y)
  | PPublish tailBlock_ _ nextBlockTail _ =>
      on_fst (modify_block tailBlock_ (set_tail nextBlockTail)) ;;
      mret (PDone true)
  | PNext canAlloc c tailBlock_ =>
      b ← on_fst (load_block tailBlock_);
      mret (PCompare canAlloc c tailBlock_ (next b))
  | PCompare canAlloc c tailBlock_ next_ =>
      frontBlock_ ← gets (fun '(q, _) => frontBlock q);
      mret (if bool_decide (next_ ≠ frontBlock_) then PNextAgain c tailBlock_
            else if (canAlloc : bool) then PMake c tailBlock_
            else PDone false)
  | PNextAgain c tailBlock_ =>
      b ← on_fst (load_block tailBlock_);
      mret (PNextFront c (next b))
  | PNextFront c tailBlockNext =>
      b ← on_fst (load_block tailBlockNext);
      on_fst (modify_block tailBlockNext (set_localFront (front b))) ;;
      mret (PNextTail c tailBlockNext (front b))
  | PNextTail c tailBlockNext nextBlockFront =>
      b ← on_fst (load_block tailBlockNext);
      on_fst (massert ndebug (nextBlockFront =? tail b)) ;;
      on_fst (modify_block tailBlockNext (set_localFront nextBlockFront)) ;;
      mret (PNextConstruct c tailBlockNext (tail b))
  | PNextConstruct c tailBlockNext nextBlockTail =>
      construct_from c tailBlockNext nextBlockTail ;;
      y ← constructed_at tailBlockNext nextBlockTail;
      mret (PNextStore tailBlockNext nextBlockTail y)
  | PNextStore tailBlockNext nextBlockTail y =>
      b ← on_fst (load_block tailBlockNext);
      on_fst (modify_block tailBlockNext
                (set_tail (Z.land (u64 (nextBlockTail + 1)) (sizeMask b)))) ;;
      mret (PNextPublish tailBlockNext nextBlockTail y)
  | PNextPublish tailBlockNext _ _ =>
      modify (fun '(q, x) => (set_tailBlock tailBlockNext q, x)) ;;
      mret (PDone true)
  | PMake c tailBlock_ =>
      largest ← gets (fun '(q, _) => largestBlockSize q);
      let newBlockSize := if MAX_BLOCK_SIZE <=? largest then largest else u64 (largest * 2) in
      newBlock ← on_fst (make_block malloc sizeof_Block alignof_Block sizeof_T alignof_T
                           newBlockSize);
      if bool_decide (newBlock = 0%nat) then mret (PDone false)
      else
        modify (fun '(q, x) => (set_largest newBlockSize q, x)) ;;
        mret (PNewConstruct c tailBlock_ newBlock)
  | PNewConstruct c tailBlock_ newBlock =>
      construct_from c newBlock 0 ;;
      y ← constructed_at newBlock 0;
      mret (PNewStore tailBlock_ newBlock y)
  | PNewStore tailBlock_ newBlock y =>
      b ← on_fst (load_block newBlock);
      on_fst (massert ndebug (front b =? 0)) ;;
      on_fst (modify_block newBlock (fun b => set_tail 1 (set_localTail 1 b))) ;;
      mret (PNewNext tailBlock_ newBlock y)
  | PNewNext tailBlock_ newBlock y =>
      b ← on_fst (load_block tailBlock_);
      on_fst (modify_block newBlock (set_next (next b))) ;;
      mret (PLink tailBlock_ newBlock (next b) y)
  | PLink tailBlock_ newBlock nx y =>
      on_fst (modify_block tailBlock_ (set_next newBlock)) ;;
      mret (PNewPublish tailBlock_ newBlock nx y)
  | PNewPublish _ newBlock _ _ =>
      modify (fun '(q, x) => (set_tailBlock newBlock q, x)) ;;
      mret (PDone true)
  | PIdle | PDone _ | PThrew _ => fail client_misuse
  end.

(** Enqueuing takes effect with the store that makes the element visible. *)
Definition newly_sent (s : producer X T) : list T :=
  match s with
  | PPublish _ _ _ y | PNextPublish _ _ y | PNewPublish _ _ _ y => [y]
  | _ => []
  end.
End producer_steps.

(** ** The consumer *)
Inductive request := TryDequeue | Pop | Peek.

Inductive consumer (X T : Type) : Type :=
  | CIdle
  | CStart (k : request)                          (* frontBlock.load() *)
  | CFront (k : request) (frontBlock_ : nat)      (* frontBlock_->front.load() *)
  | CReload (k : request) (frontBlock_ : nat) (blockFront : Z)
                                                  (* frontBlock_->tail.load() *)
  | CTake (k : request) (p : nat) (i : Z)         (* the element is read and destroyed *)
  | CStore (p : nat) (i : Z) (x : T)              (* frontBlock_->front = blockFront + 1 *)
  | CCompare (k : request) (frontBlock_ : nat)    (* frontBlock_ != tailBlock.load() *)
  | CAgain (k : request)                          (* frontBlock.load() *)
  | CAgainTail (k : request) (frontBlock_ : nat)  (* frontBlock_->tail.load() *)
  | CAgainFront (k : request) (frontBlock_ : nat) (blockTail : Z)
                                                  (* frontBlock_->front.load() *)
  | CNext (k : request) (frontBlock_ : nat)       (* frontBlock_->next *)
  | CNextFront (k : request) (nextBlock : nat)    (* nextBlock->front.load() *)
  | CNextTail (k : request) (nextBlock : nat) (nextBlockFront : Z)
                                                  (* nextBlock->tail.load() *)
  | CAdvance (k : request) (nextBlock : nat) (nextBlockFront : Z)
                                                  (* frontBlock = nextBlock *)
  | CDone (ok : bool)
  | CPeeked (a : option (nat * Z))
  | CThrew (e : X).
Arguments CIdle {X T}.
Arguments CStart {X T} _.
Arguments CFront {X T} _ _.
Arguments CReload {X T} _ _ _.
Arguments CTake {X T} _ _ _.
Arguments CStore {X T} _ _ _.
Arguments CCompare {X T} _ _.
Arguments CAgain {X T} _.
Arguments CAgainTail {X T} _ _.
Arguments CAgainFront {X T} _ _ _.
Arguments CNext {X T} _ _.
Arguments CNextFront {X T} _ _.
Arguments CNextTail {X T} _ _ _.
Arguments CAdvance {X T} _ _ _.
Arguments CDone {X T} _.
Arguments CPeeked {X T} _.
Arguments CThrew {X T} _.

Definition consuming {X T} (s : consumer X T) : bool :=
  match s with CIdle | CDone _ | CPeeked _ | CThrew _ => false | _ => true end.

Section consumer_steps.
Context {X T U : Type} (ndebug : bool) (assign_result : U → T → U * T * completion X unit).
#[local] Abbreviation Q := (ReaderWriterQueue T).

(** There is an element at this place: [peek] returns its address. *)
Definition found (k : request) (p : nat) (i : Z) : consumer X T :=
  match k with Peek => CPeeked (Some (p, i)) | _ => CTake k p i end.

(** There is none. *)
Definition found_none (k : request) : consumer X T :=
  match k with Peek => CPeeked None | _ => CDone false end.

(** One access of [try_dequeue], [pop] or [peek]. *)
Definition consumer_step (s : consumer X T) : M X (Q * U) (consumer X T) :=
  match s with
  | CStart k =>
      frontBlock_ ← gets (fun '(q, _) => frontBlock q);
      mret (CFront k frontBlock_)
  | CFront k frontBlock_ =>
      b ← on_fst (load_block frontBlock_);
      mret (if negb (front b =? localTail b) then found k frontBlock_ (front b)
            else CReload k frontBlock_ (front b))
  | CReload k frontBlock_ blockFront =>
      b ← on_fst (load_block frontBlock_);
      on_fst (modify_block frontBlock_ (set_localTail (tail b))) ;;
      mret (if negb (blockFront =? tail b) then found k frontBlock_ blockFront
            else CCompare k frontBlock_)
  | CTake k p i =>
      x ← on_fst (element_at p i);
      match k with
      | TryDequeue => move_result assign_result p i
      | _ => on_fst (destroy_at p i)
      end ;;
      mret (CStore p i x)
  | CStore p i _ =>
      advance_front p i ;;
      mret (CDone true)
  | CCompare k frontBlock_ =>
      tailBlock_ ← gets (fun '(q, _) => tailBlock q);
      mret (if bool_decide (frontBlock_ ≠ tailBlock_) then CAgain k else found_none k)
  | CAgain k =>
      frontBlock_ ← gets (fun '(q, _) => frontBlock q);
      mret (CAgainTail k frontBlock_)
  | CAgainTail k frontBlock_ =>
      b ← on_fst (load_block frontBlock_);
      on_fst (modify_block frontBlock_ (set_localTail (tail b))) ;;
      mret (CAgainFront k frontBlock_ (tail b))
  | CAgainFront k frontBlock_ blockTail =>
      b ← on_fst (load_block frontBlock_);
      mret (if negb (front b =? blockTail) then found k frontBlock_ (front b)
            else CNext k frontBlock_)
  | CNext k frontBlock_ =>
      b ← on_fst (load_block frontBlock_);
      mret (CNextFront k (next b))
  | CNextFront k nextBlock =>
      b ← on_fst (load_block nextBlock);
      mret (CNextTail k nextBlock (front b))
  | CNextTail k nextBlock nextBlockFront =>
      b ← on_fst (load_block nextBlock);
      match k with
      | Peek => mret tt
      | _ => on_fst (modify_block nextBlock (set_localTail (tail b)))
      end ;;
      on_fst (massert ndebug (negb (nextBlockFront =? tail b))) ;;
      mret (match k with
            | Peek => CPeeked (Some (nextBlock, nextBlockFront))
            | _ => CAdvance k nextBlock nextBlockFront
            end)
  | CAdvance k nextBlock nextBlockFront =>
      modify (fun '(q, r) => (set_frontBlock nextBlock q, r)) ;;
      mret (CTake k nextBlock nextBlockFront)
  | CIdle | CDone _ | CPeeked _ | CThrew _ => fail client_misuse
  end.
End consumer_steps.

(** ** The two threads

    [history] has what happened to the elements, in order; [p_since] and [c_since] say
    how long it was when the call a thread is in began, [can_alloc] whether the
    producer's call may allocate.  [throws] counts the calls of the producer that ended
    with an exception. *)
Inductive event (T : Type) :=
  | Sent (y : T)       (* an element was enqueued *)
  | Received (x : T)   (* the element was dequeued *)
  | Kept (x : T).      (* the front element stays, with this value: its assignment threw *)
Arguments Sent {T} _.
Arguments Received {T} _.
Arguments Kept {T} _.

(** A FIFO queue. *)
Inductive fifo_event {T} : list T → event T → list T → Prop :=
  | fifo_sent items y : fifo_event items (Sent y) (items ++ [y])
  | fifo_received x items : fifo_event (x :: items) (Received x) items
  | fifo_kept x x' items : fifo_event (x :: items) (Kept x') (x' :: items).

Inductive fifo {T} : list (event T) → list T → Prop :=
  | fifo_start : fifo [] []
  | fifo_more l items e items' : fifo l items → fifo_event items e items' → fifo (l ++ [e]) items'.

Record machine (X T U : Type) := Machine {
  queue : ReaderWriterQueue T;
  element : T;
  result_ : U;
  producer_ : producer X T;
  consumer_ : consumer X T;
  history : list (event T);
  p_since : nat;
  c_since : nat;
  can_alloc : bool;
  throws : nat
}.
Arguments Machine {X T U} _ _ _ _ _ _ _ _ _ _.
Arguments queue {X T U} _.
Arguments element {X T U} _.
Arguments result_ {X T U} _.
Arguments producer_ {X T U} _.
Arguments consumer_ {X T U} _.
Arguments history {X T U} _.
Arguments p_since {X T U} _.
Arguments c_since {X T U} _.
Arguments can_alloc {X T U} _.
Arguments throws {X T U} _.

(** At some moment since the history had length [since] the queue held elements of which
    [P] is true. *)
Definition happened {T} (l : list (event T)) (since : nat) (P : list T → Prop) : Prop :=
  ∃ n items, (since ≤ n ≤ length l)%nat ∧ fifo (take n l) items ∧ P items.

(** The slot the producer is about to construct an object in, and the one with the
    object that the consumer is about to take or has a pointer to. *)
Definition p_slot {X T} (s : producer X T) : option (nat * Z) :=
  match s with
  | PConstruct _ p i _ | PNextConstruct _ p i => Some (p, i)
  | PNewConstruct _ _ p => Some (p, 0)
  | _ => None
  end.

Definition c_slot {X T} (s : consumer X T) : option (nat * Z) :=
  match s with CTake _ p i => Some (p, i) | CPeeked a => a | _ => None end.

Section machine.
Context {X T U : Type} `{!CppType X T}.
Context (MAX_BLOCK_SIZE : Z) (ndebug : bool) (malloc : nat → Z → bool).
Context (sizeof_Block alignof_Block sizeof_T alignof_T : Z).
Context (assign_result : U → T → U * T * completion X unit).
#[local] Abbreviation producer_step :=
  (producer_step (X := X) (T := T) MAX_BLOCK_SIZE ndebug malloc sizeof_Block alignof_Block
     sizeof_T alignof_T).
#[local] Abbreviation consumer_step := (consumer_step ndebug assign_result).

(** What a step of the consumer adds to the history. *)
Definition newly_received (s : consumer X T) : list T :=
  match s with CStore _ _ x => [x] | _ => [] end.

Definition left_in_place (q : ReaderWriterQueue T) (s : consumer X T) : list T :=
  match s with CTake _ p i => option_list (pointee q (p, i)) | _ => [] end.

(** The producer calls [enqueue] or [try_enqueue], makes a step, and returns. *)
Inductive producer_moves (m : machine X T U) : machine X T U → Prop :=
  | step_call_enqueue a c x :
      producer_ m = PIdle →
      producer_moves m
        (Machine (queue m) x (result_ m) (PStart a c) (consumer_ m) (history m)
           (length (history m)) (c_since m) a (throws m))
  | step_produce q' x' s' :
      producer_step (producer_ m) (queue m, element m) = Ok ((q', x'), Returns s') →
      producer_moves m
        (Machine q' x' (result_ m) s' (consumer_ m)
           (history m ++ (Sent <$> newly_sent (producer_ m)))
           (p_since m) (c_since m) (can_alloc m) (throws m))
  | step_produce_throws q' x' e :
      producer_step (producer_ m) (queue m, element m) = Ok ((q', x'), Throws e) →
      producer_moves m
        (Machine q' x' (result_ m) (PThrew e) (consumer_ m) (history m)
           (p_since m) (c_since m) (can_alloc m) (S (throws m)))
  | step_enqueue_returns :
      producing (producer_ m) = false →
      producer_moves m
        (Machine (queue m) (element m) (result_ m) PIdle (consumer_ m) (history m)
           (p_since m) (c_since m) (can_alloc m) (throws m)).

(** The consumer calls [try_dequeue], [pop] or [peek], makes a step, and returns. *)
Inductive consumer_moves (m : machine X T U) : machine X T U → Prop :=
  | step_call_dequeue k r :
      consumer_ m = CIdle →
      consumer_moves m
        (Machine (queue m) (element m) r (producer_ m) (CStart k) (history m)
           (p_since m) (length (history m)) (can_alloc m) (throws m))
  | step_consume q' r' s' :
      consumer_step (consumer_ m) (queue m, result_ m) = Ok ((q', r'), Returns s') →
      consumer_moves m
        (Machine q' (element m) r' (producer_ m) s'
           (history m ++ (Received <$> newly_received (consumer_ m)))
           (p_since m) (c_since m) (can_alloc m) (throws m))
  | step_consume_throws q' r' e :
      consumer_step (consumer_ m) (queue m, result_ m) = Ok ((q', r'), Throws e) →
      consumer_moves m
        (Machine q' (element m) r' (producer_ m) (CThrew e)
           (history m ++ (Kept <$> left_in_place q' (consumer_ m)))
           (p_since m) (c_since m) (can_alloc m) (throws m))
  | step_dequeue_returns :
      consuming (consumer_ m) = false →
      consumer_moves m
        (Machine (queue m) (element m) (result_ m) (producer_ m) CIdle (history m)
           (p_since m) (c_since m) (can_alloc m) (throws m)).

Definition rwq_step (m m' : machine X T U) : Prop := producer_moves m m' ∨ consumer_moves m m'.

(** A queue that has been constructed, used by nobody yet. *)
Definition rwq_initial (q : ReaderWriterQueue T) (x : T) (r : U) : machine X T U :=
  Machine q x r PIdle CIdle [] 0 0 false 0.
End machine.
