(* ===== verification/RwqView.v ===== *)
(** * ReaderWriterQueue with two threads: the invariant

    A store that makes a change visible is the moment at which an operation takes
    effect.  [view] is the queue as it would be without the changes of the producer that
    are not visible yet, and with the element gone that the consumer is about to
    remove: it satisfies the invariant of the sequential queue.  [pinv] and [cinv] say
    what the two threads know. *)
From stdpp Require Import gmap.
From S2P Require Import Prelude Lifetime ReaderWriterQueue RwqBlocks RwqRing RwqConcurrent.

#[local] Open Scope Z_scope.

(** ** The view *)
Section view.
Context {X T : Type}.
#[local] Abbreviation Q := (ReaderWriterQueue T).
Implicit Types (ps : producer X T) (cs : consumer X T) (b : Block T) (h : gmap nat (Block T)).

Definition clear_slot (i : Z) b : Block T := set_data (<[Z.to_nat i := None]> (data b)) b.

Definition undone ps (p : nat) b : Block T :=
  match ps with
  | PPublish p' i _ _ | PNextStore p' i _ => if decide (p = p') then clear_slot i b else b
  | PNextPublish p' i _ => if decide (p = p') then set_tail i (clear_slot i b) else b
  | PNewPublish p' _ nx _ => if decide (p = p') then set_next nx b else b
  | _ => b
  end.

Definition completed cs (p : nat) b : Block T :=
  match cs with
  | CStore p' i _ =>
      if decide (p = p') then set_front (Z.land (u64 (i + 1)) (sizeMask b)) b else b
  | _ => b
  end.

Definition settled ps cs (p : nat) b : Block T := completed cs p (undone ps p b).

Definition settled_heap ps cs h : gmap nat (Block T) :=
  map_imap (λ p b, Some (settled ps cs p b)) h.

Definition view ps cs (q : Q) : Q := set_heap (settled_heap ps cs (heap q)) q.

Lemma lookup_settled ps cs h p : settled_heap ps cs h !! p = settled ps cs p <$> h !! p.
Proof. unfold settled_heap. rewrite map_lookup_imap. by destruct (h !! p). Qed.

Lemma view_lookup ps cs (q : Q) p b :
  heap q !! p = Some b → heap (view ps cs q) !! p = Some (settled ps cs p b).
Proof. intros Hb. simpl. by rewrite lookup_settled, Hb. Qed.

Lemma view_lookup_inv ps cs (q : Q) p b' :
  heap (view ps cs q) !! p = Some b' → ∃ b, heap q !! p = Some b ∧ b' = settled ps cs p b.
Proof. simpl. rewrite lookup_settled. destruct (heap q !! p) as [b|]; [|done]. naive_solver. Qed.

(** A step that changes the block [p] only. *)
Lemma settled_step ps cs ps' cs' h p b :
  (∀ r b', r ≠ p → settled ps' cs' r b' = settled ps cs r b') →
  settled_heap ps' cs' (<[p := b]> h) = <[p := settled ps' cs' p b]> (settled_heap ps cs h).
Proof.
  intros Heq. apply map_eq. intros r. rewrite lookup_settled. destruct (decide (r = p)) as [->|Hne].
  - by rewrite !lookup_insert_eq.
  - rewrite !lookup_insert_ne, lookup_settled by done. destruct (h !! r) as [b'|]; [|done].
    simpl. by rewrite Heq.
Qed.

(** A step that changes no block, as far as the view goes. *)
Lemma settled_same ps cs ps' cs' h h' :
  (∀ r, settled ps' cs' r <$> h' !! r = settled ps cs r <$> h !! r) →
  settled_heap ps' cs' h' = settled_heap ps cs h.
Proof. intros Heq. apply map_eq. intros r. by rewrite !lookup_settled, Heq. Qed.

(** A step that changes the block [p], which is not to be seen. *)
Lemma settled_hidden ps cs ps' cs' h p b b' :
  h !! p = Some b → settled ps' cs' p b' = settled ps cs p b →
  (∀ r b', r ≠ p → settled ps' cs' r b' = settled ps cs r b') →
  settled_heap ps' cs' (<[p := b']> h) = settled_heap ps cs h.
Proof.
  intros Hb Hp Heq. rewrite (settled_step ps cs) by done. apply insert_id.
  by rewrite lookup_settled, Hb, Hp.
Qed.

(** What the view leaves alone. *)
Lemma completed_tail cs p b : tail (completed cs p b) = tail b.
Proof. destruct cs; simpl; repeat case_decide; done. Qed.
Lemma completed_data cs p b : data (completed cs p b) = data b.
Proof. destruct cs; simpl; repeat case_decide; done. Qed.
Lemma completed_next cs p b : next (completed cs p b) = next b.
Proof. destruct cs; simpl; repeat case_decide; done. Qed.
Lemma completed_localFront cs p b : localFront (completed cs p b) = localFront b.
Proof. destruct cs; simpl; repeat case_decide; done. Qed.
Lemma completed_sizeMask cs p b : sizeMask (completed cs p b) = sizeMask b.
Proof. destruct cs; simpl; repeat case_decide; done. Qed.
Lemma undone_front ps p b : front (undone ps p b) = front b.
Proof. destruct ps; simpl; repeat case_decide; done. Qed.
Lemma undone_localTail ps p b : localTail (undone ps p b) = localTail b.
Proof. destruct ps; simpl; repeat case_decide; done. Qed.
Lemma undone_localFront ps p b : localFront (undone ps p b) = localFront b.
Proof. destruct ps; simpl; repeat case_decide; done. Qed.
Lemma undone_sizeMask ps p b : sizeMask (undone ps p b) = sizeMask b.
Proof. destruct ps; simpl; repeat case_decide; done. Qed.

(** The consumer's change commutes with those of the producer. *)
Lemma completed_set_tail cs p z b : completed cs p (set_tail z b) = set_tail z (completed cs p b).
Proof. destruct cs; simpl; repeat case_decide; done. Qed.
Lemma completed_set_data cs p d b : completed cs p (set_data d b) = set_data d (completed cs p b).
Proof. destruct cs; simpl; repeat case_decide; done. Qed.
Lemma completed_set_next cs p n b : completed cs p (set_next n b) = set_next n (completed cs p b).
Proof. destruct cs; simpl; repeat case_decide; done. Qed.
Lemma completed_set_localFront cs p z b :
  completed cs p (set_localFront z b) = set_localFront z (completed cs p b).
Proof. destruct cs; simpl; repeat case_decide; done. Qed.
Lemma undone_set_localTail ps p z b :
  undone ps p (set_localTail z b) = set_localTail z (undone ps p b).
Proof. destruct ps; simpl; repeat case_decide; done. Qed.
Lemma undone_set_front ps p z b : undone ps p (set_front z b) = set_front z (undone ps p b).
Proof. destruct ps; simpl; repeat case_decide; done. Qed.
Lemma completed_set_localTail cs p z b :
  completed cs p (set_localTail z b) = set_localTail z (completed cs p b).
Proof. destruct cs; simpl; repeat case_decide; done. Qed.

(** The element the consumer has taken, whose slot is not free yet. *)
Definition in_hand cs : list T := match cs with CStore _ _ x => [x] | _ => [] end.

(** The block the producer has made, which is in nobody's ring yet. *)
Definition pending ps : nat :=
  match ps with
  | PNewConstruct _ _ _ | PNewStore _ _ _ | PNewNext _ _ _ | PLink _ _ _ _
  | PNewPublish _ _ _ _ => 1
  | _ => 0
  end.
End view.

(** ** What the threads know *)
Section invariant.
Context {X T : Type} (malloc : nat → Z → bool) (c0 n0 : Z).
#[local] Abbreviation Q := (ReaderWriterQueue T).
Implicit Types (q : Q) (ps : producer X T) (cs : consumer X T) (b : Block T).
Implicit Types (pre idle : list (seg T)) (t : seg T).

Definition room b : Prop := (Z.land (u64 (tail b + 1)) (sizeMask b) =? localFront b) = false.

Definition at_block q (p : nat) (P : Block T → Prop) : Prop :=
  ∃ b, heap q !! p = Some b ∧ P b.

(** The tail block is full, or was when the consumer had not left the front block. *)
Definition tail_full pre t idle (was_full : Prop) : Prop :=
  (pre ≠ [] → full t) ∧ (idle = [] → was_full).

(** The next free block. *)
Definition next_idle idle (p : nat) : Prop := head (s_id <$> idle) = Some p.

(** A block without elements of which both ends are at [i]. *)
Definition empty_at (i : Z) b : Prop := tail b = i ∧ front b = i ∧ localFront b = i.

Definition not_in_ring pre t idle (p : nat) : Prop := p ∉ s_id <$> pre ++ t :: idle.

Definition new_block_with (cap : Z) (y : T) : Block T :=
  set_data (<[Z.to_nat 0 := Some y]> (data (Block_new cap))) (Block_new cap).

Definition no_memory : Prop := ∃ n size, malloc n size = false.

Definition pinv (can_alloc : bool) (was_full : Prop) q ps pre t idle : Prop :=
  match ps with
  | PIdle | PThrew _ => True
  | PDone ok => ok = false → was_full ∧ (can_alloc = true → no_memory)
  | PStart a _ => a = can_alloc
  | PTail a _ tb => a = can_alloc ∧ tb = tailBlock q
  | PFront a _ tb bt nbt =>
      a = can_alloc ∧ tb = tailBlock q ∧
      at_block q tb (λ b, bt = tail b ∧ nbt = Z.land (u64 (tail b + 1)) (sizeMask b))
  | PConstruct _ tb bt nbt =>
      tb = tailBlock q ∧
      at_block q tb (λ b, bt = tail b ∧ nbt = Z.land (u64 (tail b + 1)) (sizeMask b) ∧ room b)
  | PPublish tb bt nbt y =>
      tb = tailBlock q ∧
      at_block q tb (λ b, bt = tail b ∧ nbt = Z.land (u64 (tail b + 1)) (sizeMask b) ∧ room b ∧
                          slot_at bt b = Ok (Some y))
  | PNext a _ tb => a = can_alloc ∧ tb = tailBlock q ∧ tail_full pre t idle was_full
  | PCompare a _ tb nx =>
      a = can_alloc ∧ tb = tailBlock q ∧ tail_full pre t idle was_full ∧
      at_block q tb (λ b, next b = nx)
  | PNextAgain _ tb => tb = tailBlock q ∧ (pre ≠ [] → full t) ∧ idle ≠ []
  | PNextFront _ nb => (pre ≠ [] → full t) ∧ next_idle idle nb
  | PNextTail _ nb nf => (pre ≠ [] → full t) ∧ next_idle idle nb ∧ at_block q nb (λ b, front b = nf)
  | PNextConstruct _ nb nt => (pre ≠ [] → full t) ∧ next_idle idle nb ∧ at_block q nb (empty_at nt)
  | PNextStore nb nt y =>
      (pre ≠ [] → full t) ∧ next_idle idle nb ∧
      at_block q nb (λ b, empty_at nt b ∧ slot_at nt b = Ok (Some y))
  | PNextPublish nb nt y =>
      (pre ≠ [] → full t) ∧ next_idle idle nb ∧
      at_block q nb (λ b, empty_at nt (set_tail nt b) ∧ slot_at nt b = Ok (Some y) ∧
                          tail b = Z.land (u64 (nt + 1)) (sizeMask b))
  | PMake _ tb => can_alloc = true ∧ tb = tailBlock q ∧ (pre ≠ [] → full t) ∧ was_full
  | PNewConstruct _ tb nb =>
      tb = tailBlock q ∧ (pre ≠ [] → full t) ∧ not_in_ring pre t idle nb ∧
      at_block q nb (.= Block_new (largestBlockSize q))
  | PNewStore tb nb y =>
      tb = tailBlock q ∧ (pre ≠ [] → full t) ∧ not_in_ring pre t idle nb ∧
      at_block q nb (.= new_block_with (largestBlockSize q) y)
  | PNewNext tb nb y =>
      tb = tailBlock q ∧ (pre ≠ [] → full t) ∧ not_in_ring pre t idle nb ∧
      at_block q nb (.= set_tail 1 (set_localTail 1 (new_block_with (largestBlockSize q) y)))
  | PLink tb nb nx y =>
      tb = tailBlock q ∧ (pre ≠ [] → full t) ∧ not_in_ring pre t idle nb ∧
      at_block q nb
        (.= set_next nx (set_tail 1 (set_localTail 1 (new_block_with (largestBlockSize q) y)))) ∧
      at_block q tb (λ b, next b = nx)
  | PNewPublish tb nb nx y =>
      tb = tailBlock q ∧ (pre ≠ [] → full t) ∧ not_in_ring pre t idle nb ∧
      at_block q nb
        (.= set_next nx (set_tail 1 (set_localTail 1 (new_block_with (largestBlockSize q) y)))) ∧
      at_block q tb (λ b, next b = nb)
  end.

Definition cinv (was_empty : Prop) q cs pre t : Prop :=
  match cs with
  | CIdle | CThrew _ | CStart _ => True
  | CDone ok => ok = false → was_empty
  | CPeeked None => was_empty
  | CPeeked (Some a) => contents pre t ≠ [] ∧ pointee q a = head (contents pre t)
  | CFront _ fb => fb = frontBlock q
  | CReload _ fb bf => fb = frontBlock q ∧ at_block q fb (λ b, front b = bf)
  | CTake k p i =>
      k ≠ Peek ∧ p = frontBlock q ∧ at_block q p (λ b, front b = i ∧ (i =? localTail b) = false)
  | CStore p i _ =>
      p = frontBlock q ∧
      at_block q p (λ b, front b = i ∧ (Z.land (u64 (i + 1)) (sizeMask b) =? localFront b) = false ∧
                         (Z.land (u64 (i + 1)) (sizeMask b) =? i) = false ∧ 0 ≤ i ≤ sizeMask b)
  | CCompare _ fb => fb = frontBlock q ∧ (pre = [] → was_empty)
  | CAgain _ => pre ≠ []
  | CAgainTail _ fb => pre ≠ [] ∧ fb = frontBlock q
  | CAgainFront _ fb bt =>
      pre ≠ [] ∧ fb = frontBlock q ∧ at_block q fb (λ b, localTail b = bt ∧ tail b = bt)
  | CNext _ fb => pre ≠ [] ∧ fb = frontBlock q ∧ front_items pre t = []
  | CNextFront _ nb =>
      pre ≠ [] ∧ front_items pre t = [] ∧ nb = follows (list.tail pre) (s_id t)
  | CNextTail _ nb nf =>
      pre ≠ [] ∧ front_items pre t = [] ∧ nb = follows (list.tail pre) (s_id t) ∧
      at_block q nb (λ b, front b = nf)
  | CAdvance k nb nf =>
      k ≠ Peek ∧ pre ≠ [] ∧ front_items pre t = [] ∧ nb = follows (list.tail pre) (s_id t) ∧
      at_block q nb (λ b, front b = nf ∧ (nf =? localTail b) = false)
  end.

(** ** Moments in the past *)
Lemma happened_app (l l' : list (event T)) since P : happened l since P → happened (l ++ l') since P.
Proof.
  intros (n & items & Hn & Hf & HP). exists n, items. rewrite length_app.
  split_and!; [lia|lia| |done]. by rewrite take_app_le by lia.
Qed.

Lemma happened_now (l : list (event T)) since (P : list T → Prop) items :
  fifo l items → (since ≤ length l)%nat → P items → happened l since P.
Proof. intros Hf Hs HP. exists (length l), items. by rewrite take_ge by lia. Qed.

(** ** The invariant *)
Record sinv ps cs q leaked pre t idle : Prop := {
  s_ring : ring_at c0 n0 (view ps cs q) (leaked + pending ps) pre t idle;
  s_flags : enqueuing q = false ∧ dequeuing q = false
}.

Record minv {U} (m : machine X T U) leaked pre t idle : Prop := {
  i_state : sinv (producer_ m) (consumer_ m) (queue m) leaked pre t idle;
  i_leaked : (leaked ≤ throws m)%nat;
  i_fifo : fifo (history m) (in_hand (consumer_ m) ++ contents pre t);
  i_since : (p_since m ≤ length (history m))%nat ∧ (c_since m ≤ length (history m))%nat;
  i_producer :
    pinv (can_alloc m)
      (happened (history m) (p_since m) (λ items, (c0 - 1) * Z.max 1 (n0 - 1) ≤ zlen items))
      (queue m) (producer_ m) pre t idle;
  i_consumer : cinv (happened (history m) (c_since m) (.= [])) (queue m) (consumer_ m) pre t
}.
End invariant.

(** ** ReaderWriterQueue with two threads: non-interference

    What a step of one thread leaves alone ([pframe], [cframe]), and that what the
    other thread knows is still true after it. *)
Section frame.
Context {X T : Type}.
#[local] Abbreviation Q := (ReaderWriterQueue T).
Implicit Types (q : Q) (ps : producer X T) (cs : consumer X T) (b : Block T).
Implicit Types (pre idle : list (seg T)) (t : seg T).

(** ** Steps of the producer *)
Record pframe q pre t q' pre' t' : Prop := {
  pf_front : frontBlock q' = frontBlock q;
  pf_block p b : heap q !! p = Some b → p ∈ s_id <$> pre ++ [t] →
    ∃ b', heap q' !! p = Some b' ∧ front b' = front b ∧ localTail b' = localTail b ∧
      sizeMask b' = sizeMask b ∧ (localFront b' = localFront b ∨ localFront b' = front b) ∧
      (p ∈ s_id <$> pre → tail b' = tail b ∧ next b' = next b);
  pf_slot a x : pointee q a = Some x → pointee q' a = Some x;
  pf_pre : (pre' = pre ∧ s_id t' = s_id t) ∨ pre' = pre ++ [t]
}.

Lemma pframe_nonempty q pre t q' pre' t' :
  pframe q pre t q' pre' t' → pre ≠ [] →
  pre' ≠ [] ∧ front_items pre' t' = front_items pre t ∧
  follows (list.tail pre') (s_id t') = follows (list.tail pre) (s_id t).
Proof.
  intros Hf Hne. destruct pre as [|s pre]; [done|].
  destruct (pf_pre _ _ _ _ _ _ Hf) as [[-> Ht]| ->]; simpl; split_and!; try done.
  - by rewrite Ht.
  - by rewrite follows_snoc.
Qed.

Lemma pframe_empty q pre t q' pre' t' : pframe q pre t q' pre' t' → pre' = [] → pre = [].
Proof.
  intros Hf ->. destruct (pf_pre _ _ _ _ _ _ Hf) as [[<- _]|H]; [done|].
  by destruct pre.
Qed.

Lemma pframe_at q pre t q' pre' t' p (P P' : Block T → Prop) :
  pframe q pre t q' pre' t' → p ∈ s_id <$> pre ++ [t] → at_block q p P →
  (∀ b b', P b → front b' = front b → localTail b' = localTail b → sizeMask b' = sizeMask b →
     localFront b' = localFront b ∨ localFront b' = front b →
     (p ∈ s_id <$> pre → tail b' = tail b ∧ next b' = next b) → P' b') →
  at_block q' p P'.
Proof.
  intros Hf Hin (b & Hb & HP) Himp.
  destruct (pf_block _ _ _ _ _ _ Hf p b Hb Hin) as (b' & Hb' & ? & ? & ? & ? & ?).
  exists b'. eauto.
Qed.

Lemma follows_in pre t : follows pre (s_id t) ∈ s_id <$> pre ++ [t].
Proof. destruct pre; by left. Qed.

Lemma second_in pre t : follows (list.tail pre) (s_id t) ∈ s_id <$> pre ++ [t].
Proof.
  destruct pre as [|s pre]; [by left|]. rewrite fmap_app, elem_of_app. simpl.
  destruct pre; [right; by left|]. left. right. by left.
Qed.

Lemma front_in_pre q pre t :
  frontBlock q = follows pre (s_id t) → pre ≠ [] → frontBlock q ∈ s_id <$> pre.
Proof. intros ->. destruct pre; [done|]. intros _. by left. Qed.

Lemma cinv_frame (E E' : Prop) q pre t q' pre' t' cs l :
  pframe q pre t q' pre' t' → (E → E') → frontBlock q = follows pre (s_id t) →
  contents pre' t' = contents pre t ++ l → cinv E q cs pre t → cinv E' q' cs pre' t'.
Proof.
  intros Hf HE Hfr Hc. assert (Hin : frontBlock q ∈ s_id <$> pre ++ [t])
    by (rewrite Hfr; apply follows_in).
  pose proof (second_in pre t) as Hin2. pose proof (pf_front _ _ _ _ _ _ Hf) as Hfront.
  pose proof (pframe_nonempty _ _ _ _ _ _ Hf) as Hne.
  destruct cs; simpl; try rewrite Hfront; try tauto.
  - intros [-> Hb]. split; [done|]. eapply pframe_at; [done..|]. congruence.
  - intros (Hk & -> & Hb). split_and!; [done..|]. eapply pframe_at; [done..|].
    simpl. intros b b' [? ?] ? Hlt. rewrite Hlt. intuition congruence.
  - intros [-> Hb]. split; [done|]. eapply pframe_at; [done..|].
    simpl. intros b b' (Hi & Hlf & Hn & ?) ? _ Hm [Hl|Hl] _; rewrite Hm, Hl; [intuition congruence|].
    rewrite Hi. intuition congruence.
  - intros [-> He]. split; [done|]. intros ->. by apply HE, He, (pframe_empty _ _ _ _ _ _ Hf).
  - intros (Hp & -> & Hb). destruct (Hne Hp) as (? & _ & _). split_and!; [done..|].
    eapply pframe_at; [done..|]. simpl. intros b b' [? ?] _ ? _ _ Hnt.
    destruct (Hnt (front_in_pre _ _ _ Hfr Hp)). intuition congruence.
  - intros (Hp & -> & Hi). destruct (Hne Hp) as (? & ? & _). split_and!; congruence.
  - intros (Hp & Hi & ->). destruct (Hne Hp) as (? & ? & ?). split_and!; congruence.
  - intros (Hp & Hi & -> & Hb). destruct (Hne Hp) as (? & ? & Hfo).
    split_and!; [congruence..|]. eapply pframe_at; [done|done|exact Hb|]. congruence.
  - intros (Hk & Hp & Hi & -> & Hb). destruct (Hne Hp) as (? & ? & Hfo).
    split_and!; [congruence..|]. eapply pframe_at; [done|done|exact Hb|].
    simpl. intros b b' [? ?] ? Hlt. rewrite Hlt. intuition congruence.
  - destruct a as [a|]; [|done]. intros [Hnn Hx]. destruct (contents pre t) as [|x xs]; [done|].
    rewrite Hc. split; [done|]. simpl in *. by apply (pf_slot _ _ _ _ _ _ Hf).
Qed.

(** ** Steps of the consumer *)
Record cframe q pre t idle q' pre' t' idle' : Prop := {
  cf_tail : tailBlock q' = tailBlock q;
  cf_largest : largestBlockSize q' = largestBlockSize q;
  cf_block p b : heap q !! p = Some b →
    ∃ b', heap q' !! p = Some b' ∧ tail b' = tail b ∧ localFront b' = localFront b ∧
      next b' = next b ∧ sizeMask b' = sizeMask b ∧
      (p ≠ frontBlock q → front b' = front b ∧ data b' = data b) ∧
      (not_in_ring pre t idle p → b' = b) ∧
      (p = tailBlock q → slot_at (tail b) b' = slot_at (tail b) b);
  cf_pre : pre' ≠ [] → pre ≠ [];
  cf_full : pre' ≠ [] → full t → full t';
  cf_ids : s_id <$> pre' ++ t' :: idle' ≡ₚ s_id <$> pre ++ t :: idle;
  cf_idle : idle' = idle ∨ ∃ s, idle' = idle ++ [s]
}.

Lemma cframe_next_idle q pre t idle q' pre' t' idle' p :
  cframe q pre t idle q' pre' t' idle' → next_idle idle p → next_idle idle' p.
Proof.
  intros Hf. destruct (cf_idle _ _ _ _ _ _ _ _ Hf) as [->|[s ->]]; [done|].
  unfold next_idle. by destruct idle.
Qed.

Lemma cframe_no_idle q pre t idle q' pre' t' idle' :
  cframe q pre t idle q' pre' t' idle' → idle' = [] → idle = [].
Proof.
  intros Hf ->. destruct (cf_idle _ _ _ _ _ _ _ _ Hf) as [<-|[s H]]; [done|].
  by destruct idle.
Qed.

Lemma cframe_at q pre t idle q' pre' t' idle' p (P P' : Block T → Prop) :
  cframe q pre t idle q' pre' t' idle' → at_block q p P →
  (∀ b b', P b → tail b' = tail b → localFront b' = localFront b → next b' = next b →
     sizeMask b' = sizeMask b → (p ≠ frontBlock q → front b' = front b ∧ data b' = data b) →
     (not_in_ring pre t idle p → b' = b) →
     (p = tailBlock q → slot_at (tail b) b' = slot_at (tail b) b) → P' b') →
  at_block q' p P'.
Proof.
  intros Hf (b & Hb & HP) Himp.
  destruct (cf_block _ _ _ _ _ _ _ _ Hf p b Hb) as (b' & Hb' & ? & ? & ? & ? & ? & ? & ?).
  exists b'. split; [done|]. apply (Himp b b'); done.
Qed.

Lemma slot_at_data i b b' : data b' = data b → slot_at i b' = slot_at i b.
Proof. unfold slot_at. by intros ->. Qed.

Lemma pinv_frame (malloc : nat → Z → bool) (a : bool) (F F' : Prop) q pre t idle q' pre' t' idle' ps :
  cframe q pre t idle q' pre' t' idle' → (F → F') →
  (∀ p, next_idle idle p → p ≠ frontBlock q) →
  pinv malloc a F q ps pre t idle → pinv malloc a F' q' ps pre' t' idle'.
Proof.
  intros Hf HF Hnf. pose proof (cf_tail _ _ _ _ _ _ _ _ Hf) as Htail.
  pose proof (cf_largest _ _ _ _ _ _ _ _ Hf) as Hlarge.
  pose proof (cframe_no_idle _ _ _ _ _ _ _ _ Hf) as Hni.
  pose proof (λ p, cframe_next_idle _ _ _ _ _ _ _ _ p Hf) as Hnext.
  assert (Hfull : (pre ≠ [] → full t) → pre' ≠ [] → full t').
  { intros H Hp. apply (cf_full _ _ _ _ _ _ _ _ Hf Hp), H, (cf_pre _ _ _ _ _ _ _ _ Hf Hp). }
  assert (Hout : ∀ p, not_in_ring pre t idle p → not_in_ring pre' t' idle' p).
  { intros p Hp. unfold not_in_ring. by rewrite (cf_ids _ _ _ _ _ _ _ _ Hf). }
  assert (Hsame : ∀ p (P : Block T → Prop), not_in_ring pre t idle p →
    at_block q p P → at_block q' p P).
  { intros p P Hp HP. eapply cframe_at; [done..|]. intros b b' ? _ _ _ _ _ Heq _. by rewrite Heq. }
  destruct ps; simpl; unfold tail_full; rewrite ?Htail, ?Hlarge; try tauto.
  - intros (? & ? & Hb). split_and!; [done..|]. eapply cframe_at; [done..|]. simpl.
    intros b b' [-> ->] -> _ _ -> _ _ _. done.
  - intros (? & Hb). split; [done|]. eapply cframe_at; [done..|]. simpl. unfold room.
    intros b b' (-> & -> & Hr) -> -> _ -> _ _ _. done.
  - intros (-> & Hb). split; [done|]. eapply cframe_at; [done..|]. simpl. unfold room.
    intros b b' (-> & -> & Hr & Hs) -> -> _ -> _ _ Hslot. rewrite Hslot by done. done.
  - intros (? & ? & [? ?] & Hb). split_and!; [done|done|by apply Hfull|auto|].
    eapply cframe_at; [done..|]. simpl. congruence.
  - intros [? ?]. split; auto.
  - intros (? & Hn & Hb). split_and!; [auto|auto|]. eapply cframe_at; [done..|]. simpl.
    intros b b' <- _ _ _ _ Hfd _ _. apply Hfd. auto.
  - intros (? & Hn & Hb). split_and!; [auto|auto|]. eapply cframe_at; [done..|].
    unfold empty_at. intros b b' (? & ? & ?) -> -> _ _ Hfd _ _.
    destruct (Hfd (Hnf _ Hn)) as [-> _]. done.
  - intros (? & Hn & Hb). split_and!; [auto|auto|]. eapply cframe_at; [done..|].
    unfold empty_at. simpl. intros b b' [(? & ? & ?) Hs] -> -> _ _ Hfd _ _.
    destruct (Hfd (Hnf _ Hn)) as [-> Hd]. rewrite (slot_at_data _ _ _ Hd). done.
  - intros (? & Hn & Hb). split_and!; [auto|auto|]. eapply cframe_at; [done..|].
    unfold empty_at. simpl. intros b b' ((? & ? & ?) & Hs & Ht) -> -> _ -> Hfd _ _.
    destruct (Hfd (Hnf _ Hn)) as [-> Hd]. rewrite (slot_at_data _ _ _ Hd). done.
  - intros (? & ? & Hp & Hb). split_and!; auto.
  - intros (? & ? & Hp & Hb). split_and!; auto.
  - intros (? & ? & Hp & Hb). split_and!; auto.
  - intros (? & ? & Hp & Hb & Hl). split_and!; auto.
    eapply cframe_at; [done..|]. simpl. congruence.
  - intros (? & ? & Hp & Hb & Hl). split_and!; auto.
    eapply cframe_at; [done..|]. simpl. congruence.
Qed.
End frame.
