(* ===== verification/RwqProducer.v ===== *)
(** * ReaderWriterQueue with two threads: the steps of the producer *)
From stdpp Require Import gmap.
From S2P Require Import Prelude Lifetime ReaderWriterQueue RwqBlocks RwqRing.
From S2P Require Import RwqOps RwqConcurrent RwqView.

#[local] Open Scope Z_scope.

(** ** Looking through the view *)
Section state.
Context {X T : Type} (c0 n0 : Z).
#[local] Abbreviation Q := (ReaderWriterQueue T).
#[local] Abbreviation sinv := (sinv (X := X) (T := T) c0 n0).
Implicit Types (q : Q) (ps : producer X T) (cs : consumer X T) (b : Block T).
Implicit Types (pre idle : list (seg T)) (t : seg T).

Lemma s_front ps cs q leaked pre t idle :
  sinv ps cs q leaked pre t idle → frontBlock q = follows pre (s_id t).
Proof. intros Hs. exact (r_front _ _ _ _ _ _ _ (s_ring _ _ _ _ _ _ _ _ _ Hs)). Qed.

Lemma s_tail ps cs q leaked pre t idle :
  sinv ps cs q leaked pre t idle → tailBlock q = s_id t.
Proof. intros Hs. exact (r_tail _ _ _ _ _ _ _ (s_ring _ _ _ _ _ _ _ _ _ Hs)). Qed.

Lemma s_tail_block ps cs q leaked pre t idle :
  sinv ps cs q leaked pre t idle →
  ∃ b F LT LF, heap q !! tailBlock q = Some b ∧
    next (settled ps cs (tailBlock q) b) = follows idle (frontBlock q) ∧
    block_at (s_cap t) (s_items t) F LT LF (settled ps cs (tailBlock q) b).
Proof.
  intros Hs. destruct (r_tail_lookup _ _ _ _ _ _ _ (s_ring _ _ _ _ _ _ _ _ _ Hs))
    as (b' & F & LT & LF & Hb' & Hn & Hba).
  apply view_lookup_inv in Hb' as (b & Hb & ->). by exists b, F, LT, LF.
Qed.

Lemma s_idle_not_front ps cs q leaked pre t idle p :
  sinv ps cs q leaked pre t idle → next_idle idle p → p ≠ frontBlock q.
Proof.
  intros Hs Hp. destruct idle as [|s idle]; [done|]. injection Hp as <-.
  exact (r_idle_not_front _ _ _ _ _ _ _ _ (s_ring _ _ _ _ _ _ _ _ _ Hs)).
Qed.

(** Only the front block has an element in the hand of the consumer. *)
Lemma completed_other (E : Prop) q cs pre t p b :
  cinv E q cs pre t → p ≠ frontBlock q → completed cs p b = b.
Proof. destruct cs; simpl; try done. intros [-> _] Hne. by rewrite decide_False. Qed.

(** The front of a block as it is, and as it is in the view. *)
Lemma completed_front (E : Prop) q cs pre t cap xs F LT LF b :
  cinv E q cs pre t → heap q !! tailBlock q = Some b → frontBlock q = follows pre (s_id t) →
  tailBlock q = s_id t → (frontBlock q = tailBlock q → pre = []) →
  block_at cap xs F LT LF (completed cs (tailBlock q) b) →
  ∃ F', front b = F' mod cap ∧ LF ≤ F' ≤ F ∧ (pre ≠ [] → F' = F) ∧
    (pre = [] → F - F' = zlen (in_hand cs)).
Proof.
  intros Hc Hb Hf Ht Hft Hba. pose proof (block_at_bounds _ _ _ _ _ _ Hba).
  pose proof (ba_LF _ _ _ _ _ _ Hba) as HLF.
  assert (Hid : completed cs (tailBlock q) b = b → in_hand cs = [] ∨ pre ≠ [] →
    ∃ F', front b = F' mod cap ∧ LF ≤ F' ≤ F ∧ (pre ≠ [] → F' = F) ∧
      (pre = [] → F - F' = zlen (in_hand cs))).
  { intros Heq Hh. rewrite Heq in Hba. exists F. split_and!; [apply Hba|lia|lia|done|].
    intros Hp. destruct Hh as [->|]; [|done]. unfold zlen. simpl. lia. }
  destruct cs as [| | | | |p i x| | | | | | | | | | |]; try (apply Hid; by auto).
  simpl in Hc. destruct Hc as [-> (b' & Hb' & Hi & Hlf & _ & Hir)].
  destruct (decide (tailBlock q = frontBlock q)) as [Heq|Hne].
  2: { apply Hid; [simpl; by rewrite decide_False|right; intros ->; by rewrite Ht, Hf in Hne]. }
  assert (Hpre : pre = []) by auto. rewrite Heq, Hb' in Hb. injection Hb as ->.
  unfold completed in Hba. rewrite decide_True in Hba by done.
  pose proof (ba_front _ _ _ _ _ _ Hba) as HF. pose proof (ba_mask _ _ _ _ _ _ Hba) as Hm.
  pose proof (ba_localFront _ _ _ _ _ _ Hba) as HL. pose proof (ba_cap _ _ _ _ _ _ Hba) as Hcap.
  pose proof (ba_room _ _ _ _ _ _ Hba) as Hroom. pose proof (zlen_nonneg xs).
  simpl in HF, Hm, HL. rewrite HF, HL in Hlf. rewrite Hm, land_mask in HF by done.
  assert (LF ≠ F) by (intros ->; by rewrite Z.eqb_refl in Hlf). exists (F - 1). split_and!; [|lia|lia|done|].
  - rewrite Hi, Zminus_mod, <- HF, <- Zminus_mod, Z.add_simpl_r. symmetry. apply Z.mod_small. lia.
  - intros _. unfold zlen. simpl. lia.
Qed.
End state.

(** ** Small changes *)
Section changes.
Context {X T : Type} (c0 n0 : Z).
#[local] Abbreviation Q := (ReaderWriterQueue T).
#[local] Abbreviation sinv := (sinv (X := X) (T := T) c0 n0).
Implicit Types (q : Q) (ps : producer X T) (cs : consumer X T) (b : Block T).
Implicit Types (pre idle : list (seg T)) (t : seg T).

Lemma pframe_same q q' pre t pre' t' :
  heap q' = heap q → frontBlock q' = frontBlock q →
  (pre' = pre ∧ s_id t' = s_id t) ∨ pre' = pre ++ [t] → pframe q pre t q' pre' t'.
Proof.
  intros Hh Hf Hpre. constructor; try done.
  - intros p b Hb _. exists b. rewrite Hh. by auto 10.
  - intros a x. unfold pointee. by rewrite Hh.
Qed.

Lemma pframe_modify q q' pre t pre' t' p b b' :
  heap q !! p = Some b → heap q' = <[p := b']> (heap q) → frontBlock q' = frontBlock q →
  (p ∈ s_id <$> pre ++ [t] →
     front b' = front b ∧ localTail b' = localTail b ∧ sizeMask b' = sizeMask b ∧
     (localFront b' = localFront b ∨ localFront b' = front b)) →
  (p ∈ s_id <$> pre → tail b' = tail b ∧ next b' = next b) →
  (∀ i y, slot_at i b = Ok (Some y) → slot_at i b' = Ok (Some y)) →
  (pre' = pre ∧ s_id t' = s_id t) ∨ pre' = pre ++ [t] → pframe q pre t q' pre' t'.
Proof.
  intros Hb Hh Hf Hring Htn Hslot Hpre. constructor; try done.
  - intros r br Hbr Hin. rewrite Hh. destruct (decide (r = p)) as [->|Hne].
    + simplify_eq. exists b'. rewrite lookup_insert_eq. destruct (Hring Hin) as (? & ? & ? & ?). done.
    + exists br. rewrite lookup_insert_ne by done. by auto 10.
  - intros [r i] x. unfold pointee. rewrite Hh. simpl. destruct (decide (r = p)) as [->|Hne].
    + rewrite Hb, lookup_insert_eq. simpl. specialize (Hslot i).
      destruct (slot_at i b) as [[y|]|]; [|done..]. intros [= ->]. by rewrite (Hslot x).
    + by rewrite lookup_insert_ne.
Qed.

Lemma pframe_new q q' pre t p b' :
  heap q !! p = None → heap q' = <[p := b']> (heap q) → frontBlock q' = frontBlock q →
  pframe q pre t q' pre t.
Proof.
  intros Hb Hh Hf. constructor; auto.
  - intros r br Hbr _. exists br. rewrite Hh, lookup_insert_ne by congruence. by auto 10.
  - intros [r i] x. unfold pointee. rewrite Hh. simpl. destruct (decide (r = p)) as [->|Hne].
    + by rewrite Hb.
    + by rewrite lookup_insert_ne.
Qed.

Lemma s_same ps ps' cs q leaked pre t idle :
  sinv ps cs q leaked pre t idle → pending ps' = pending ps →
  (∀ r b, heap q !! r = Some b → undone ps' r b = undone ps r b) →
  sinv ps' cs q leaked pre t idle.
Proof.
  intros [Hr Hfl] Hp Hu. constructor; [|done]. rewrite Hp. unfold view in *.
  rewrite (settled_same ps cs _ _ (heap q)); [done|]. intros r. unfold settled.
  destruct (heap q !! r) as [b|] eqn:E; [|done]. simpl. by rewrite Hu.
Qed.

Lemma s_hidden ps ps' cs q leaked pre t idle p b b' :
  sinv ps cs q leaked pre t idle → heap q !! p = Some b → pending ps' = pending ps →
  undone ps' p b' = undone ps p b →
  (∀ r b, r ≠ p → undone ps' r b = undone ps r b) →
  sinv ps' cs (set_heap (<[p := b']> (heap q)) q) leaked pre t idle.
Proof.
  intros [Hr Hfl] Hb Hp Hu Ho. constructor; [|done]. rewrite Hp. unfold view in *. simpl.
  rewrite (settled_hidden ps cs _ _ _ _ b); [done..| |]; unfold settled.
  - by rewrite Hu.
  - intros r br Hne. by rewrite Ho.
Qed.

Lemma view_visible ps ps' cs q p b' :
  (∀ r b, r ≠ p → undone ps' r b = undone ps r b) →
  view ps' cs (set_heap (<[p := b']> (heap q)) q) =
  set_heap (<[p := settled ps' cs p b']> (heap (view ps cs q))) (view ps cs q).
Proof.
  intros Ho. unfold view. simpl. rewrite (settled_step ps cs); [done|].
  intros r b Hne. unfold settled. by rewrite Ho.
Qed.

Lemma s_visible ps ps' cs q leaked' pre t idle p b' :
  ring_at c0 n0 (set_heap (<[p := settled ps' cs p b']> (heap (view ps cs q))) (view ps cs q))
    (leaked' + pending ps') pre t idle →
  enqueuing q = false ∧ dequeuing q = false →
  (∀ r b, r ≠ p → undone ps' r b = undone ps r b) →
  sinv ps' cs (set_heap (<[p := b']> (heap q)) q) leaked' pre t idle.
Proof. intros Hr Hfl Ho. constructor; [|done]. by rewrite (view_visible ps). Qed.

(** Filling a slot leaves the objects in the others alone. *)
Lemma slot_at_fill i b y j z :
  slot_at i b = Ok None → slot_at j b = Ok (Some z) →
  slot_at j (set_data (<[Z.to_nat i := Some y]> (data b)) b) = Ok (Some z).
Proof.
  unfold slot_at, vector_at. simpl. intros Hi Hj.
  destruct (decide (Z.to_nat i = Z.to_nat j)) as [Heq|Hne].
  - rewrite Heq in Hi. destruct (data b !! Z.to_nat j) as [[?|]|]; simplify_eq.
  - by rewrite list_lookup_insert_ne.
Qed.

Lemma slot_at_lookup i b (o : option T) : slot_at i b = Ok o → data b !! Z.to_nat i = Some o.
Proof. unfold slot_at, vector_at. destruct (data b !! Z.to_nat i); congruence. Qed.

(** Taking back what has just been constructed. *)
Lemma clear_fill i b y :
  slot_at i b = Ok None →
  clear_slot i (set_data (<[Z.to_nat i := Some y]> (data b)) b) = b.
Proof.
  intros Hi%slot_at_lookup. unfold clear_slot. simpl. rewrite list_insert_insert_eq.
  rewrite list_insert_id by done. by destruct b.
Qed.

Lemma fill_clear i b y :
  slot_at i b = Ok (Some y) →
  set_data (<[Z.to_nat i := Some y]> (data (clear_slot i b))) (clear_slot i b) = b.
Proof.
  intros Hi%slot_at_lookup. unfold clear_slot. simpl. rewrite list_insert_insert_eq.
  rewrite list_insert_id by done. by destruct b.
Qed.

Lemma runs_construct_then `{!CppType X T} {A} (k : T → M X (Q * T) A) c q x p b i
    (P : A → Q * T → Prop) (Pt : X → Q * T → Prop) :
  heap q !! p = Some b → slot_at i b = Ok None →
  (∀ x' y, runs (k y)
     (set_heap (<[p := set_data (<[Z.to_nat i := Some y]> (data b)) b]> (heap q)) q, x') P Pt never) →
  (∀ x' e, Pt e (q, x')) →
  runs (construct_from c p i ;; y ← constructed_at p i; k y) (q, x) P Pt never.
Proof.
  intros Hb Hi HP HPt. apply runs_bind. eapply runs_construct; [done..| |by auto].
  intros x' y _. eapply runs_bind, runs_element_at; [apply lookup_insert_eq| |by auto].
  by eapply slot_at_set.
Qed.
End changes.

(** ** The steps *)
Section producer.
Context {X T : Type} `{!CppType X T}.
Context (MAX_BLOCK_SIZE : Z) (ndebug : bool) (malloc : nat → Z → bool).
Context (sizeof_Block alignof_Block sizeof_T alignof_T : Z).
Context (c0 n0 : Z) (Hmax : cap_ok MAX_BLOCK_SIZE) (Hc0 : 1 ≤ c0).
#[local] Abbreviation Q := (ReaderWriterQueue T).
#[local] Abbreviation sinv := (sinv (X := X) (T := T) c0 n0).
#[local] Abbreviation pinv := (pinv (X := X) (T := T) malloc).
#[local] Abbreviation producer_step :=
  (producer_step (X := X) (T := T) MAX_BLOCK_SIZE ndebug malloc sizeof_Block alignof_Block
     sizeof_T alignof_T).
Implicit Types (q : Q) (ps : producer X T) (cs : consumer X T) (b : Block T).
Implicit Types (pre idle : list (seg T)) (t : seg T).

(** The state when a step has returned, and when it has thrown. *)
Definition produced (a : bool) (F : Prop) cs ps q leaked pre t ps' q' : Prop :=
  ∃ pre' t' idle', sinv ps' cs q' leaked pre' t' idle' ∧ pframe q pre t q' pre' t' ∧
    contents pre' t' = contents pre t ++ newly_sent ps ∧ pinv a F q' ps' pre' t' idle'.

Definition produce_failed cs q leaked pre t idle q' : Prop :=
  ∃ leaked', (leaked' ≤ S leaked)%nat ∧ pframe q pre t q' pre t ∧
    ∀ e, sinv (PThrew e) cs q' leaked' pre t idle.

Section step.
Context (a : bool) (F E : Prop) cs q (leaked : nat) pre t idle (x : T).
Context (Hc : cinv E q cs pre t).
#[local] Abbreviation step_ok ps :=
  (sinv ps cs q leaked pre t idle → pinv a F q ps pre t idle →
   runs (producer_step ps) (q, x) (λ ps' s, produced a F cs ps q leaked pre t ps' s.1)
     (λ _ s, produce_failed cs q leaked pre t idle s.1) never).

(** Steps that change nothing that is shared. *)
Lemma produced_same ps ps' :
  sinv ps cs q leaked pre t idle → pending ps' = pending ps → newly_sent ps = [] →
  (∀ r b, heap q !! r = Some b → undone ps' r b = undone ps r b) →
  pinv a F q ps' pre t idle → produced a F cs ps q leaked pre t ps' q.
Proof.
  intros Hs Hp Hn Hu Hi. exists pre, t, idle. split_and!; [by eapply s_same| | |done].
  - apply pframe_same; auto.
  - by rewrite Hn, app_nil_r.
Qed.

Lemma step_start c : step_ok (PStart a c).
Proof.
  intros Hs _. apply runs_bind, runs_gets, runs_ret. by apply produced_same.
Qed.

Lemma step_tail c : step_ok (PTail a c (tailBlock q)).
Proof.
  intros Hs _. destruct (s_tail_block _ _ _ _ _ _ _ _ _ Hs) as (b & _ & _ & _ & Hb & _).
  eapply runs_bind, runs_load; [done|]. apply runs_ret.
  destruct (Z.land _ _ =? _) eqn:Hroom; apply produced_same; try done; simpl;
    split_and!; try done; exists b; done.
Qed.

Lemma step_next c : step_ok (PNext a c (tailBlock q)).
Proof.
  intros Hs (_ & _ & Hf). destruct (s_tail_block _ _ _ _ _ _ _ _ _ Hs) as (b & _ & _ & _ & Hb & _).
  eapply runs_bind, runs_load; [done|]. apply runs_ret. apply produced_same; try done.
  simpl. split_and!; [done..|]. by exists b.
Qed.

(** [next] of the tail block, and the free blocks. *)
Lemma tail_next ps nx :
  sinv ps cs q leaked pre t idle → at_block q (tailBlock q) (λ b, next b = nx) →
  (∀ b, next (undone ps (tailBlock q) b) = next b) → nx = follows idle (frontBlock q).
Proof.
  intros Hs (b & Hb & Hn) Hu. 
  destruct (s_tail_block _ _ _ _ _ _ _ _ _ Hs) as (b' & ? & ? & ? & Hb' & Hn' & _). simplify_eq.
  unfold settled in Hn'. by rewrite completed_next, Hu in Hn'.
Qed.

Lemma step_compare c nx : step_ok (PCompare a c (tailBlock q) nx).
Proof.
  intros Hs (_ & _ & [Hfull Hidle] & Hn). pose proof (tail_next _ _ Hs Hn ltac:(done)) as ->.
  apply runs_bind, runs_gets, runs_ret. destruct (decide (idle = [])) as [Hi|Hi].
  - rewrite bool_decide_eq_false_2 by (rewrite Hi; unfold follows; simpl; tauto).
    apply (produced_same _ (if a then PMake c (tailBlock q) else PDone false)); try done;
      destruct a; simpl; naive_solver.
  - rewrite bool_decide_eq_true_2.
    + by apply produced_same.
    + apply (s_idle_not_front _ _ _ _ _ _ _ _ _ _ Hs). by destruct idle.
Qed.

Lemma step_next_again c : step_ok (PNextAgain c (tailBlock q)).
Proof.
  intros Hs (_ & Hfull & Hidle).
  destruct (s_tail_block _ _ _ _ _ _ _ _ _ Hs) as (b & _ & _ & _ & Hb & Hn & _).
  unfold settled in Hn. rewrite completed_next in Hn. simpl in Hn.
  eapply runs_bind, runs_load; [done|]. apply runs_ret. apply produced_same; try done.
  simpl. split; [done|]. rewrite Hn. by destruct idle.
Qed.

(** A step that changes the tail block, but not what it holds. *)
Lemma s_tail_refresh ps ps' b b' :
  sinv ps cs q leaked pre t idle → heap q !! tailBlock q = Some b → pending ps' = pending ps →
  (∀ r b, r ≠ tailBlock q → undone ps' r b = undone ps r b) →
  next (settled ps' cs (tailBlock q) b') = next (settled ps cs (tailBlock q) b) →
  block_repr (s_cap t) (s_items t) (settled ps' cs (tailBlock q) b') →
  sinv ps' cs (set_heap (<[tailBlock q := b']> (heap q)) q) leaked pre t idle.
Proof.
  intros Hs Hb Hp Hu Hn Hrepr. apply (s_visible c0 n0 ps); [|apply Hs|done].
  rewrite Hp. rewrite (s_tail _ _ _ _ _ _ _ _ _ Hs) in *.
  apply (r_refresh c0 n0 _ _ pre t idle t (settled ps cs (s_id t) b)); [apply Hs| | |done|done].
  - apply elem_of_app. right. by left.
  - by apply view_lookup.
Qed.

Lemma s_front_is_tail ps :
  sinv ps cs q leaked pre t idle → frontBlock q = tailBlock q → pre = [].
Proof. intros Hs. apply (r_front_is_tail _ _ _ _ _ _ _ (s_ring _ _ _ _ _ _ _ _ _ Hs)). Qed.

(** How many elements there are if the producer finds no room. *)
Lemma full_capacity ps :
  sinv ps cs q leaked pre t idle → idle = [] → (pre ≠ [] → full t) →
  (pre = [] → zlen (in_hand cs) + zlen (s_items t) = s_cap t - 1) →
  capacity c0 n0 ≤ zlen (in_hand cs ++ contents pre t).
Proof using Hc0.
  intros Hs Hi Hfull Hone. pose proof (s_ring _ _ _ _ _ _ _ _ _ Hs) as Hr.
  rewrite Hi in Hr. rewrite zlen_app. pose proof (zlen_nonneg (in_hand cs)).
  destruct (decide (pre = [])) as [Hp|Hp].
  - pose proof (r_count _ _ _ _ _ _ _ Hr) as Hn. pose proof (r_caps _ _ _ _ _ _ _ Hr) as Hcaps.
    specialize (Hone Hp). rewrite Hp in Hn, Hcaps |- *. apply Forall_inv in Hcaps.
    unfold capacity, contents. simpl. unfold zlen in Hn. simpl in Hn.
    rewrite Z.max_l by lia. lia.
  - pose proof (full_ring _ _ _ _ _ _ Hr (Hfull Hp) Hc0). unfold capacity. lia.
Qed.

Lemma step_front c bt nbt :
  (capacity c0 n0 ≤ zlen (in_hand cs ++ contents pre t) → F) →
  step_ok (PFront a c (tailBlock q) bt nbt).
Proof using Hc0 Hc.
  intros HF Hs (_ & _ & b & Hb & -> & ->).
  destruct (s_tail_block _ _ _ _ _ _ _ _ _ Hs) as (b' & P & LT & LF & Hb' & _ & Hba).
  simplify_eq. unfold settled in Hba. simpl in Hba.
  destruct (completed_front E q cs pre t _ _ _ _ _ b Hc Hb (s_front _ _ _ _ _ _ _ _ _ Hs)
    (s_tail _ _ _ _ _ _ _ _ _ Hs) (s_front_is_tail _ Hs) Hba)
    as (P' & HP' & HP & Hpre & Hnopre).
  destruct (block_reload_past _ _ _ _ _ P' _ Hba HP) as [Hba' Htest].
  rewrite completed_tail, completed_sizeMask, <- HP' in Htest.
  rewrite <- HP', <- completed_set_localFront in Hba'.
  eapply runs_bind, runs_load; [done|]. eapply runs_bind, runs_modify_block; [done|].
  apply runs_ret. exists pre, t, idle. split_and!.
  - eapply s_tail_refresh; try done; destruct (negb _); try done; simpl; unfold settled; simpl;
      try (by rewrite !completed_next); by exists P, LT, P'.
  - eapply pframe_modify; try done; auto.
  - by rewrite app_nil_r.
  - rewrite Htest. destruct (Z.eqb_spec (P + zlen (s_items t) + 1 - P') (s_cap t)) as [He|He]; simpl.
    + assert (pre ≠ [] → full t) by (intros Hp; specialize (Hpre Hp); unfold full; lia).
      split_and!; [done|done|split; [done|]]. intros Hi. apply HF. eapply full_capacity; try done.
      intros Hp. specialize (Hnopre Hp). lia.
    + split; [done|]. eexists. split; [apply lookup_insert_eq|]. unfold room. simpl.
      split_and!; done.
Qed.

Lemma tail_not_in_pre ps :
  sinv ps cs q leaked pre t idle → tailBlock q ∉ s_id <$> pre.
Proof.
  intros Hs Hin. pose proof (r_nodup _ _ _ _ _ _ _ (s_ring _ _ _ _ _ _ _ _ _ Hs)) as Hnd.
  rewrite fmap_app in Hnd. apply NoDup_app in Hnd as (_ & Hd & _).
  apply (Hd _ Hin). rewrite (s_tail _ _ _ _ _ _ _ _ _ Hs). by left.
Qed.

(** A constructor has thrown. *)
Lemma construct_failed ps :
  sinv ps cs q leaked pre t idle → (∀ r b, undone ps r b = b) →
  produce_failed cs q leaked pre t idle q.
Proof.
  intros [Hr Hfl] Hu. exists (leaked + pending ps)%nat. split_and!.
  - destruct ps; simpl; lia.
  - apply pframe_same; auto.
  - intros e. constructor; [|done]. simpl. rewrite Nat.add_0_r. unfold view in *.
    rewrite (settled_same ps cs _ _ (heap q)); [done|]. intros r. unfold settled.
    destruct (heap q !! r) as [b|]; [|done]. simpl. by rewrite Hu.
Qed.

(** The next free block. *)
Lemma idle_block ps nb :
  sinv ps cs q leaked pre t idle → next_idle idle nb →
  ∃ s rest b P LT LF, idle = s :: rest ∧ nb = s_id s ∧ heap q !! nb = Some b ∧
    block_at (s_cap s) [] P LT LF (undone ps nb b) ∧ (∀ b', completed cs nb b' = b') ∧
    nb ∉ s_id <$> pre.
Proof using Hc.
  intros Hs Hi. pose proof (s_idle_not_front _ _ _ _ _ _ _ _ _ _ Hs Hi) as Hne.
  destruct Hs as [Hr _]. unfold next_idle in Hi. destruct idle as [|s rest]; [done|].
  injection Hi as <-. pose proof (r_nodup _ _ _ _ _ _ _ Hr) as Hnd.
  pose proof (r_chain _ _ _ _ _ _ _ Hr) as Hch. rewrite <- ring_shift in Hch.
  apply chain_middle, seg_block_at in Hch as (b' & P & LT & LF & Hb' & _ & Hba).
  apply view_lookup_inv in Hb' as (b & Hb & ->).
  rewrite (Forall_inv (r_idle _ _ _ _ _ _ _ Hr)) in Hba. unfold settled in Hba.
  assert (Hco : ∀ b', completed cs (s_id s) b' = b') by (intros; by eapply completed_other).
  rewrite Hco in Hba. exists s, rest, b, P, LT, LF. split_and!; try done.
  rewrite fmap_app in Hnd. apply NoDup_app in Hnd as (_ & Hd & _).
  intros Hin. apply (Hd _ Hin). right. by left.
Qed.

(** No object lives where the producer is about to construct one. *)
Lemma constructing ps p i :
  sinv ps cs q leaked pre t idle → pinv a F q ps pre t idle → p_slot ps = Some (p, i) →
  ∃ b, heap q !! p = Some b ∧ slot_at i b = Ok None.
Proof using Hc.
  intros Hs Hi Hp. pose proof (s_ring _ _ _ _ _ _ _ _ _ Hs) as Hr.
  destruct ps; try discriminate Hp; simpl in Hi; injection Hp as <- <-.
  - destruct Hi as (-> & b & Hb & -> & _). exists b. split; [done|].
    destruct (s_tail_block _ _ _ _ _ _ _ _ _ Hs) as (b' & P & LT & LF & Hb' & _ & Hba).
    assert (b' = b) as -> by congruence. unfold settled in Hba. simpl in Hba.
    rewrite <- (block_tail_slot _ _ _ _ _ _ Hba), completed_tail. symmetry.
    apply slot_at_data, completed_data.
  - destruct Hi as (_ & Hi & b & Hb & <- & _). exists b. split; [done|].
    destruct (idle_block _ _ Hs Hi) as (s & rest & b' & P & LT & LF & _ & _ & Hb' & Hba & _).
    assert (b' = b) as -> by congruence. by eapply block_tail_slot.
  - destruct Hi as (_ & _ & _ & b & Hb & ->). eexists. split; [done|].
    destruct (r_largest _ _ _ _ _ _ _ Hr) as [Hcap _].
    by pose proof (block_tail_slot _ _ _ _ _ _ (Block_new_repr (T := T) _ Hcap)).
Qed.

Lemma step_construct c bt nbt : step_ok (PConstruct c (tailBlock q) bt nbt).
Proof using Hc.
  intros Hs Hi. destruct (constructing _ _ _ Hs Hi eq_refl) as (b & Hb & Hslot).
  destruct Hi as (_ & b' & Hb' & -> & -> & Hroom). assert (b' = b) as -> by congruence.
  eapply runs_construct_then; [done..| |].
  - intros x' y. apply runs_ret. exists pre, t, idle. split_and!.
    + apply (s_hidden c0 n0 _ _ _ _ _ _ _ _ _ b _ Hs); try done; simpl.
      * rewrite decide_True by done. by apply clear_fill.
      * intros r br Hne. by rewrite decide_False.
    + eapply pframe_modify; try done; auto. intros i z. by apply slot_at_fill.
    + by rewrite app_nil_r.
    + split; [done|]. eexists. split; [apply lookup_insert_eq|]. simpl.
      split_and!; [done..|]. by eapply slot_at_set.
  - intros x' e. by eapply construct_failed.
Qed.

Lemma step_publish bt nbt y : step_ok (PPublish (tailBlock q) bt nbt y).
Proof.
  intros Hs (_ & b & Hb & -> & -> & Hroom & Hy).
  destruct (s_tail_block _ _ _ _ _ _ _ _ _ Hs) as (b' & P & LT & LF & Hb' & Hn & Hba).
  simplify_eq. unfold settled in Hba. simpl in Hba. rewrite decide_True in Hba by done.
  assert (Hfits : P + zlen (s_items t) + 1 - LF < s_cap t).
  { pose proof (block_seen_room _ _ _ _ _ _ Hba) as Htest.
    rewrite completed_tail, completed_sizeMask, completed_localFront in Htest. unfold room in Hroom. simpl in Htest. rewrite Hroom in Htest.
    pose proof (ba_room _ _ _ _ _ _ Hba). lia. }
  pose proof (block_push _ _ _ _ _ _ y Hba Hfits) as Hba'.
  rewrite completed_tail, completed_data, completed_sizeMask, <- completed_set_data in Hba'.
  change (tail (clear_slot (tail b) b)) with (tail b) in Hba'.
  rewrite fill_clear, <- completed_set_tail in Hba' by done.
  eapply runs_bind, runs_modify_block; [done|]. apply runs_ret.
  exists pre, (with_items (s_items t ++ [y]) t), idle. split_and!.
  - apply (s_visible c0 n0 (PPublish (tailBlock q) (tail b)
      (Z.land (u64 (tail b + 1)) (sizeMask b)) y)); [|apply Hs|].
    + apply (r_tail_update c0 n0 _ _ pre t idle _ _ (s_items t ++ [y]) (s_ring _ _ _ _ _ _ _ _ _ Hs)
        (view_lookup _ _ _ _ _ Hb)).
      * unfold settled. by rewrite !completed_next; simpl; rewrite decide_True.
      * by exists P, LT, LF.
      * intros _. by destruct (s_items t).
    + intros r br Hne. simpl. by rewrite decide_False.
  - eapply pframe_modify; try done; auto. intros Hin. by destruct (tail_not_in_pre _ Hs).
  - unfold contents. simpl. by rewrite app_assoc.
  - done.
Qed.

(** *** The next free block *)
Lemma s_idle_refresh ps ps' nb b b' s rest :
  sinv ps cs q leaked pre t idle → idle = s :: rest → nb = s_id s → heap q !! nb = Some b →
  pending ps' = pending ps → (∀ r b, r ≠ nb → undone ps' r b = undone ps r b) →
  next (settled ps' cs nb b') = next (settled ps cs nb b) →
  block_repr (s_cap s) [] (settled ps' cs nb b') →
  sinv ps' cs (set_heap (<[nb := b']> (heap q)) q) leaked pre t idle.
Proof.
  intros Hs Hi -> Hb Hp Hu Hn Hrepr. apply (s_visible c0 n0 ps); [|apply Hs|done]. rewrite Hp.
  apply (r_refresh c0 n0 _ _ pre t idle s (settled ps cs (s_id s) b)); [apply Hs| | |done|].
  - apply elem_of_app. right. rewrite Hi. right. by left.
  - by apply view_lookup.
  - pose proof (r_idle _ _ _ _ _ _ _ (s_ring _ _ _ _ _ _ _ _ _ Hs)) as Hidle.
    rewrite Hi in Hidle. by rewrite (Forall_inv Hidle).
Qed.

Lemma step_next_front c nb : step_ok (PNextFront c nb).
Proof using Hc.
  intros Hs (Hfull & Hi).
  destruct (idle_block _ _ Hs Hi) as (s & rest & b & P & LT & LF & Hil & Hnb & Hb & Hba & Hco & Hpre).
  simpl in Hba. destruct (block_reload_front _ _ _ _ _ _ Hba) as [Hba' _].
  eapply runs_bind, runs_load; [done|]. eapply runs_bind, runs_modify_block; [done|].
  apply runs_ret. exists pre, t, idle. split_and!.
  - eapply s_idle_refresh; try done; unfold settled; simpl; rewrite !Hco; [done|].
    by exists P, LT, P.
  - eapply pframe_modify; try done; auto.
  - by rewrite app_nil_r.
  - simpl. split_and!; [done..|]. eexists. by split; [apply lookup_insert_eq|].
Qed.

Lemma step_next_tail c nb nf : step_ok (PNextTail c nb nf).
Proof using Hc.
  intros Hs (Hfull & Hi & b & Hb & <-).
  destruct (idle_block _ _ Hs Hi) as (s & rest & b' & P & LT & LF & Hil & Hnb & Hb' & Hba & Hco & Hpre).
  assert (b' = b) as -> by congruence. simpl in Hba. destruct (block_reload_front _ _ _ _ _ _ Hba) as [Hba' _].
  pose proof (block_empty _ _ _ _ _ _ Hba) as Hempty. apply Z.eqb_eq in Hempty as Hft.
  eapply runs_bind, runs_load; [done|]. apply runs_bind, runs_massert; [done|].
  eapply runs_bind, runs_modify_block; [done|].
  apply runs_ret. exists pre, t, idle. split_and!.
  - eapply s_idle_refresh; try done; unfold settled; simpl; rewrite !Hco; [done|].
    by exists P, LT, P.
  - eapply pframe_modify; try done; auto.
  - by rewrite app_nil_r.
  - simpl. split_and!; [done..|]. eexists. by split; [apply lookup_insert_eq|].
Qed.

Lemma step_next_construct c nb nt : step_ok (PNextConstruct c nb nt).
Proof using Hc.
  intros Hs Hpi. destruct (constructing _ _ _ Hs Hpi eq_refl) as (b & Hb & Hslot).
  destruct Hpi as (Hfull & Hi & b' & Hb' & Hat). assert (b' = b) as -> by congruence.
  destruct (idle_block _ _ Hs Hi) as (s & rest & _ & _ & _ & _ & _ & _ & _ & _ & _ & Hpre).
  eapply runs_construct_then; [done..| |].
  - intros x' y. apply runs_ret. exists pre, t, idle. split_and!.
    + apply (s_hidden c0 n0 _ _ _ _ _ _ _ _ _ b _ Hs); try done; simpl.
      * rewrite decide_True by done. by apply clear_fill.
      * intros r br Hne. by rewrite decide_False.
    + eapply pframe_modify; try done; auto. intros i z. by apply slot_at_fill.
    + by rewrite app_nil_r.
    + simpl. split_and!; [done..|]. eexists. split; [apply lookup_insert_eq|].
      split; [done|]. by eapply slot_at_set.
  - intros x' e. by eapply construct_failed.
Qed.

Lemma step_next_store nb nt y : step_ok (PNextStore nb nt y).
Proof using Hc.
  intros Hs (Hfull & Hi & b & Hb & (<- & Hf & Hlf) & Hy).
  destruct (idle_block _ _ Hs Hi) as (s & rest & b' & P & LT & LF & Hil & Hnb & Hb' & _ & _ & Hpre).
  assert (b' = b) as -> by congruence. eapply runs_bind, runs_load; [done|]. eapply runs_bind, runs_modify_block; [done|].
  apply runs_ret. exists pre, t, idle. split_and!.
  - apply (s_hidden c0 n0 _ _ _ _ _ _ _ _ _ b _ Hs); try done; simpl.
    + by rewrite !decide_True.
    + intros r br Hne. by rewrite !decide_False.
  - eapply pframe_modify; try done; auto.
  - by rewrite app_nil_r.
  - simpl. split_and!; [done..|]. eexists. by split; [apply lookup_insert_eq|].
Qed.

Lemma step_next_publish nb nt y : step_ok (PNextPublish nb nt y).
Proof using Hc.
  intros Hs (Hfull & Hi & b & Hb & Hat & Hy & Ht).
  destruct (idle_block _ _ Hs Hi) as (s & rest & b' & P & LT & LF & Hil & Hnb & Hb' & Hba & Hco & Hpre).
  assert (b' = b) as -> by congruence. simpl in Hba. rewrite decide_True in Hba by done.
  pose proof (block_at_bounds _ _ _ _ _ _ Hba) as [? _].
  pose proof (ba_LF _ _ _ _ _ _ Hba) as HLF.
  assert (HLFP : LF = P).
  { destruct Hat as (_ & Hf & Hl). simpl in Hf, Hl.
    pose proof (ba_front _ _ _ _ _ _ Hba) as H1. pose proof (ba_localFront _ _ _ _ _ _ Hba) as H2.
    simpl in H1, H2. pose proof (ba_room _ _ _ _ _ _ Hba) as H3. unfold zlen in H3. simpl in H3.
    apply (index_inj (s_cap s)); [lia|lia|congruence]. }
  pose proof (block_push _ _ _ _ _ _ y Hba ltac:(unfold zlen; simpl; lia)) as Hba'.
  simpl in Hba'. rewrite <- Ht in Hba'.
  assert (Hb2 : set_tail (tail b) (set_data
    (<[Z.to_nat nt := Some y]> (<[Z.to_nat nt := None]> (data b))) (set_tail nt (clear_slot nt b))) = b).
  { transitivity (set_tail (tail b) (set_data (<[Z.to_nat nt := Some y]> (data (clear_slot nt b)))
      (clear_slot nt b))); [done|]. rewrite fill_clear by done. by destruct b. }
  eapply runs_bind, runs_modify. apply runs_ret.
  exists (pre ++ [t]), (with_items [y] s), rest. split_and!.
  - pose proof (s_ring _ _ _ _ _ _ _ _ _ Hs) as Hr. rewrite Hil in Hr. subst nb.
    assert (Hring := r_take_idle c0 n0 _ _ pre t s rest _ (settled (PDone true) cs (s_id s) b) [y]
      Hr Hfull (view_lookup _ _ _ _ _ Hb)).
    rewrite <- view_visible, insert_id, set_heap_id in Hring
      by first [done|intros r br Hne; simpl; by rewrite decide_False].
    constructor; [|apply Hs]. apply Hring; [| |done].
    + unfold settled. rewrite !Hco. simpl. by rewrite decide_True.
    + unfold settled. rewrite Hco. exists P, LT, LF. rewrite Hb2 in Hba'. exact Hba'.
  - apply pframe_same; auto.
  - by rewrite contents_snoc.
  - done.
Qed.

(** *** A new block *)
Lemma fresh_outside ps p :
  sinv ps cs q leaked pre t idle → heap q !! p = None → not_in_ring pre t idle p.
Proof.
  intros Hs Hp (s & -> & Hin)%list_elem_of_fmap.
  destruct (chain_lookup _ _ _ _ Hin (r_chain _ _ _ _ _ _ _ (s_ring _ _ _ _ _ _ _ _ _ Hs)))
    as [b Hb]. apply view_lookup_inv in Hb as (b' & Hb' & _). congruence.
Qed.

Lemma outside_not_used p :
  not_in_ring pre t idle p → (p ∉ s_id <$> pre ++ [t]) ∧ (p ∉ s_id <$> pre).
Proof.
  unfold not_in_ring. rewrite !fmap_app, !not_elem_of_app. simpl.
  rewrite !not_elem_of_cons. intros (? & ? & ?). split_and!; [done|done| |done].
  apply not_elem_of_nil.
Qed.

Lemma outside_not_front ps p :
  sinv ps cs q leaked pre t idle → not_in_ring pre t idle p → p ≠ frontBlock q ∧ p ≠ tailBlock q.
Proof.
  intros Hs [Hp _]%outside_not_used. rewrite (s_front _ _ _ _ _ _ _ _ _ Hs).
  rewrite (s_tail _ _ _ _ _ _ _ _ _ Hs). split; intros ->; apply Hp.
  - apply follows_in.
  - rewrite fmap_app, elem_of_app. right. by left.
Qed.

Lemma s_outside ps ps' nb b b' :
  sinv ps cs q leaked pre t idle → not_in_ring pre t idle nb → heap q !! nb = Some b →
  pending ps' = pending ps → (∀ r b, undone ps' r b = undone ps r b) →
  sinv ps' cs (set_heap (<[nb := b']> (heap q)) q) leaked pre t idle ∧
  (data b' = data b ∨ (∃ i y, slot_at i b = Ok None ∧ data b' = <[Z.to_nat i := Some y]> (data b)) →
   pframe q pre t (set_heap (<[nb := b']> (heap q)) q) pre t).
Proof.
  intros Hs Hout Hb Hp Hu. split.
  - apply (s_visible c0 n0 ps); [|apply Hs|done]. rewrite Hp.
    apply (r_outside c0 n0 _ _ pre t idle nb (settled ps cs nb b)); [apply Hs|done|].
    by apply view_lookup.
  - intros Hd. destruct (outside_not_used _ Hout) as [H1 H2].
    eapply pframe_modify; try done; auto. intros i z Hz. destruct Hd as [Hd|(j & y & Hj & Hd)].
    + by rewrite (slot_at_data _ _ _ Hd).
    + rewrite <- (slot_at_fill j b y i z Hj Hz). by apply slot_at_data.
Qed.

Lemma step_make c :
  a = true → step_ok (PMake c (tailBlock q)).
Proof using Hmax Hc0 Hc.
  intros Ha Hs (_ & _ & Hfull & HF). apply runs_bind, runs_gets.
  destruct (r_largest _ _ _ _ _ _ _ (s_ring _ _ _ _ _ _ _ _ _ Hs)) as [Hcap Hcl].
  destruct (new_size_ok MAX_BLOCK_SIZE c0 Hmax _ Hcap Hcl) as [Hcap' Hcl']. simpl in Hcap', Hcl'.
  set (size' := if _ <=? _ then _ else _) in *. cbv zeta. apply runs_bind, runs_make_block.
  - simpl. apply runs_bind, runs_modify, runs_ret.
    pose proof (s_ring _ _ _ _ _ _ _ _ _ Hs) as Hr.
    assert (Hnone : heap q !! S (mallocs q) = None).
    { pose proof (fresh_none _ _ _ _ _ _ _ (S (mallocs q)) Hr ltac:(simpl; lia)) as Hn.
      simpl in Hn. rewrite lookup_settled in Hn. by destruct (heap q !! S (mallocs q)). }
    exists pre, t, idle. split_and!.
    + constructor; [|apply Hs]. simpl. rewrite Nat.add_1_r, <- (Nat.add_0_r leaked).
      eapply ring_at_ext.
      * apply (r_leak c0 n0 _ _ pre t idle (S (mallocs q)) size' (Block_new size') 0 Hr); done.
      * done.
      * done.
      * done.
      * simpl. rewrite (settled_step (PMake c (tailBlock q)) cs) by done. f_equal.
        unfold settled. simpl. eapply completed_other; [done|].
        apply (outside_not_front _ _ Hs). by eapply fresh_outside.
      * done.
      * apply Hr.
    + by eapply pframe_new.
    + by rewrite app_nil_r.
    + simpl. split_and!; [done|done|by eapply fresh_outside|]. eexists.
      by split; [apply lookup_insert_eq|].
  - intros Hno. simpl. apply runs_ret. exists pre, t, idle. split_and!.
    + constructor; [|apply Hs].
      apply (r_mallocs c0 n0 (view (PMake c (tailBlock q)) cs q)); [apply Hs|simpl; lia].
    + apply pframe_same; auto.
    + by rewrite app_nil_r.
    + simpl. by intros _.
Qed.

Lemma step_new_construct c nb : step_ok (PNewConstruct c (tailBlock q) nb).
Proof using Hc.
  intros Hs Hpi. destruct (constructing _ _ _ Hs Hpi eq_refl) as (b' & Hb' & Hslot).
  destruct Hpi as (_ & Hfull & Hout & b & Hb & ->).
  assert (b' = Block_new (largestBlockSize q)) as -> by congruence.
  eapply runs_construct_then; [done|done| |].
  - intros x' y. apply runs_ret.
    destruct (s_outside _ (PNewStore (tailBlock q) nb y) nb _
      (new_block_with (largestBlockSize q) y) Hs Hout Hb) as [Hs' Hf]; [done..|].
    exists pre, t, idle. split_and!; [done|apply Hf; right; by exists 0, y|by rewrite app_nil_r|].
    simpl. split_and!; [done..|]. eexists. by split; [apply lookup_insert_eq|].
  - intros x' e. by eapply construct_failed.
Qed.

Lemma step_new_store nb y : step_ok (PNewStore (tailBlock q) nb y).
Proof.
  intros Hs (_ & Hfull & Hout & b & Hb & Heq). rewrite Heq in Hb.
  eapply runs_bind, runs_load; [done|]. apply runs_bind, runs_massert; [done|].
  eapply runs_bind, runs_modify_block; [done|]. apply runs_ret.
  destruct (s_outside _ (PNewNext (tailBlock q) nb y) nb _
    (set_tail 1 (set_localTail 1 (new_block_with (largestBlockSize q) y))) Hs Hout Hb)
    as [Hs' Hf]; [done..|].
  exists pre, t, idle. split_and!; [done|apply Hf; by left|by rewrite app_nil_r|].
  simpl. split_and!; [done..|]. eexists. by split; [apply lookup_insert_eq|].
Qed.

Lemma step_new_next nb y : step_ok (PNewNext (tailBlock q) nb y).
Proof.
  intros Hs (_ & Hfull & Hout & b & Hb & Heq). rewrite Heq in Hb.
  destruct (s_tail_block _ _ _ _ _ _ _ _ _ Hs) as (bt & _ & _ & _ & Hbt & _).
  destruct (outside_not_front _ _ Hs Hout) as [_ Hne].
  eapply runs_bind, runs_load; [done|]. eapply runs_bind, runs_modify_block; [done|]. apply runs_ret.
  destruct (s_outside _ (PLink (tailBlock q) nb (next bt) y) nb _
    (set_next (next bt) (set_tail 1 (set_localTail 1 (new_block_with (largestBlockSize q) y))))
    Hs Hout Hb) as [Hs' Hf]; [done..|].
  exists pre, t, idle. split_and!; [done|apply Hf; by left|by rewrite app_nil_r|].
  simpl. split_and!; [done..| |].
  - eexists. by split; [apply lookup_insert_eq|].
  - exists bt. simpl. by rewrite lookup_insert_ne.
Qed.

Lemma step_link nb nx y : step_ok (PLink (tailBlock q) nb nx y).
Proof.
  intros Hs (_ & Hfull & Hout & (b & Hb & Heq) & bt & Hbt & Hnx).
  destruct (outside_not_front _ _ Hs Hout) as [_ Hne].
  eapply runs_bind, runs_modify_block; [done|]. apply runs_ret. exists pre, t, idle. split_and!.
  - apply (s_hidden c0 n0 _ _ _ _ _ _ _ _ _ bt _ Hs); try done; simpl.
    + rewrite decide_True by done. by destruct bt; simpl in *; subst.
    + intros r br Hr. by rewrite decide_False.
  - eapply pframe_modify; try done; auto. intros Hin. by destruct (tail_not_in_pre _ Hs).
  - by rewrite app_nil_r.
  - simpl. split_and!; [done..| |].
    + exists b. simpl. by rewrite lookup_insert_ne.
    + eexists. by split; [apply lookup_insert_eq|].
Qed.

Lemma step_new_publish nb nx y : step_ok (PNewPublish (tailBlock q) nb nx y).
Proof using Hc.
  intros Hs (_ & Hfull & Hout & (b & Hb & Heq) & bt & Hbt & Hnx).
  destruct (outside_not_front _ _ Hs Hout) as [Hnf Hne].
  destruct (r_largest _ _ _ _ _ _ _ (s_ring _ _ _ _ _ _ _ _ _ Hs)) as [Hcap Hcl].
  pose proof (Block_new_push (largestBlockSize q) y nx Hcap) as Hrepr.
  eapply runs_bind, runs_modify. apply runs_ret.
  exists (pre ++ [t]), (Seg nb (largestBlockSize q) [y]), idle. split_and!.
  - pose proof (s_tail _ _ _ _ _ _ _ _ _ Hs) as Ht.
    pose proof (r_link_block c0 n0 _ leaked pre t idle _ _ nb (largestBlockSize q) [y]
      ltac:(rewrite <- Nat.add_1_r; exact (s_ring _ _ _ _ _ _ _ _ _ Hs)) Hfull Hout
      ltac:(rewrite <- Ht; exact (view_lookup _ _ _ _ _ Hbt)) (view_lookup _ _ _ _ _ Hb)) as Hring.
    rewrite <- Ht in Hring.
    assert (Hbt' : set_next nb (settled (PNewPublish (tailBlock q) nb nx y) cs (tailBlock q) bt) =
      settled (PDone true) cs (tailBlock q) bt).
    { unfold settled. rewrite <- completed_set_next. simpl. rewrite decide_True by done.
      f_equal. by destruct bt; simpl in *; subst. }
    rewrite Hbt', <- view_visible, insert_id, set_heap_id in Hring
      by first [done|intros r br Hr; simpl; by rewrite decide_False].
    constructor; [|apply Hs]. simpl. rewrite Nat.add_0_r.
    apply Hring; unfold settled; rewrite ?(completed_other E q cs pre t nb) by done; simpl;
      rewrite ?decide_False by done; try done.
    + rewrite completed_next, decide_True by done. by rewrite Heq.
    + by rewrite Heq.
  - apply pframe_same; auto.
  - by rewrite contents_snoc.
  - done.
Qed.

Lemma producer_step_runs ps :
  (capacity c0 n0 ≤ zlen (in_hand cs ++ contents pre t) → F) → producing ps = true → step_ok ps.
Proof using Hmax Hc0 Hc.
  intros HF Hp Hs Hi. destruct ps; try discriminate Hp; simpl in Hi.
  - subst. by apply step_start.
  - destruct Hi as [-> ->]. by apply step_tail.
  - destruct Hi as (-> & -> & ?). by apply step_front.
  - destruct Hi as (-> & ?). by apply step_construct.
  - destruct Hi as (-> & ?). by apply step_publish.
  - destruct Hi as (-> & -> & ?). by apply step_next.
  - destruct Hi as (-> & -> & ?). by apply step_compare.
  - destruct Hi as (-> & ?). by apply step_next_again.
  - by apply step_next_front.
  - by apply step_next_tail.
  - by apply step_next_construct.
  - by apply step_next_store.
  - by apply step_next_publish.
  - destruct Hi as (? & -> & ?). by apply step_make.
  - destruct Hi as (-> & ?). by apply step_new_construct.
  - destruct Hi as (-> & ?). by apply step_new_store.
  - destruct Hi as (-> & ?). by apply step_new_next.
  - destruct Hi as (-> & ?). by apply step_link.
  - destruct Hi as (-> & ?). by apply step_new_publish.
Qed.
End step.
End producer.
