(* ===== verification/RwqConsumerThread.v ===== *)
(** * ReaderWriterQueue with two threads: the steps of the consumer *)
From stdpp Require Import gmap.
From S2P Require Import Prelude Lifetime ReaderWriterQueue RwqBlocks RwqRing.
From S2P Require Import RwqOps RwqConsumer RwqConcurrent RwqView RwqProducer.

#[local] Open Scope Z_scope.

(** ** What the producer may be doing to a block the consumer looks at *)
Section undone.
Context {X T : Type}.
#[local] Abbreviation Q := (ReaderWriterQueue T).
Implicit Types (q : Q) (ps : producer X T) (cs : consumer X T) (b : Block T).
Implicit Types (pre idle : list (seg T)) (t : seg T).

Lemma undone_slot ps p b i x :
  slot_at i (undone ps p b) = Ok (Some x) → slot_at i b = Ok (Some x).
Proof.
  assert (Hclear : ∀ j, slot_at i (clear_slot j b) = Ok (Some x) → slot_at i b = Ok (Some x)).
  { intros j Hs%slot_at_lookup. simpl in Hs. unfold slot_at. apply vector_at_Some.
    apply list_lookup_insert_Some in Hs as [(_ & [=] & _)|[_ Hs]]. done. }
  destruct ps; simpl; repeat case_decide; try done; apply Hclear.
Qed.

Lemma clear_slot_comm i j b : clear_slot i (clear_slot j b) = clear_slot j (clear_slot i b).
Proof.
  unfold clear_slot, set_data. simpl. f_equal.
  destruct (decide (Z.to_nat i = Z.to_nat j)) as [->|Hne]; [done|by apply list_insert_insert_ne].
Qed.

Lemma undone_clear ps p b i : undone ps p (clear_slot i b) = clear_slot i (undone ps p b).
Proof.
  destruct ps; simpl; repeat case_decide; try done; by rewrite clear_slot_comm.
Qed.

Lemma undone_fill ps p b i x y :
  slot_at i (undone ps p b) = Ok (Some x) →
  undone ps p (set_data (<[Z.to_nat i := Some y]> (data b)) b) =
  set_data (<[Z.to_nat i := Some y]> (data (undone ps p b))) (undone ps p b).
Proof.
  assert (Hclear : ∀ j, slot_at i (clear_slot j b) = Ok (Some x) →
    clear_slot j (set_data (<[Z.to_nat i := Some y]> (data b)) b) =
    set_data (<[Z.to_nat i := Some y]> (data (clear_slot j b))) (clear_slot j b)).
  { intros j Hs%slot_at_lookup. simpl in Hs. unfold clear_slot, set_data. simpl. f_equal.
    apply list_insert_insert_ne. intros Heq. rewrite Heq in Hs.
    apply list_lookup_insert_Some in Hs as [(_ & [=] & _)|[Hne _]]. done. }
  destruct ps; simpl; repeat case_decide; try done; try apply Hclear.
  intros Hs. by rewrite Hclear.
Qed.

(** Only the tail of a free block and the link of the tail block are changed ahead of
    time. *)
Lemma undone_tail malloc (a : bool) (F : Prop) q ps pre t idle p b :
  pinv malloc a F q ps pre t idle → ¬ next_idle idle p → tail (undone ps p b) = tail b.
Proof.
  destruct ps; simpl; try (repeat case_decide; done).
  intros (_ & Hi & _) Hn. rewrite decide_False; [done|]. by intros ->.
Qed.

Lemma undone_next malloc (a : bool) (F : Prop) q ps pre t idle p b :
  pinv malloc a F q ps pre t idle → p ≠ tailBlock q → next (undone ps p b) = next b.
Proof.
  destruct ps; simpl; try (repeat case_decide; done).
  intros (-> & _) Hn. by rewrite decide_False.
Qed.
End undone.

(** ** Steps *)
Section consumer.
Context {X T U : Type} (malloc : nat → Z → bool) (ndebug : bool).
Context (assign_result : U → T → U * T * completion X unit) (c0 n0 : Z).
#[local] Abbreviation Q := (ReaderWriterQueue T).
#[local] Abbreviation sinv := (sinv (X := X) (T := T) c0 n0).
#[local] Abbreviation pinv := (pinv (X := X) (T := T) malloc).
#[local] Abbreviation cinv := (cinv (X := X) (T := T)).
#[local] Abbreviation consumer_step := (consumer_step ndebug assign_result).
Implicit Types (q : Q) (ps : producer X T) (cs : consumer X T) (b : Block T).
Implicit Types (pre idle : list (seg T)) (t : seg T).

Lemma view_visible_c ps cs cs' q p b' :
  (∀ r b, r ≠ p → completed cs' r b = completed cs r b) →
  view ps cs' (set_heap (<[p := b']> (heap q)) q) =
  set_heap (<[p := settled ps cs' p b']> (heap (view ps cs q))) (view ps cs q).
Proof.
  intros Ho. unfold view. simpl. rewrite (settled_step ps cs); [done|].
  intros r b Hne. unfold settled. by apply Ho.
Qed.

Lemma s_visible_c ps cs cs' q leaked pre t idle p b' :
  ring_at c0 n0 (set_heap (<[p := settled ps cs' p b']> (heap (view ps cs q))) (view ps cs q))
    (leaked + pending ps) pre t idle →
  enqueuing q = false ∧ dequeuing q = false →
  (∀ r b, r ≠ p → completed cs' r b = completed cs r b) →
  sinv ps cs' (set_heap (<[p := b']> (heap q)) q) leaked pre t idle.
Proof. intros Hr Hfl Ho. constructor; [|done]. by rewrite (view_visible_c ps cs). Qed.

Lemma s_same_c ps cs cs' q leaked pre t idle :
  sinv ps cs q leaked pre t idle → (∀ r b, completed cs' r b = completed cs r b) →
  sinv ps cs' q leaked pre t idle.
Proof.
  intros [Hr Hfl] Hu. constructor; [|done]. unfold view in *.
  rewrite (settled_same ps cs _ _ (heap q)); [done|]. intros r. unfold settled.
  destruct (heap q !! r) as [b|] eqn:E; [|done]. simpl. by rewrite Hu.
Qed.

Lemma cframe_refl q q' pre t idle :
  heap q' = heap q → tailBlock q' = tailBlock q → largestBlockSize q' = largestBlockSize q →
  cframe q pre t idle q' pre t idle.
Proof.
  intros Hh Ht Hl. constructor; auto.
  intros p b Hb. exists b. rewrite Hh. by auto 10.
Qed.

Lemma cframe_modify q q' pre t idle pre' t' p b b' :
  heap q !! p = Some b → heap q' = <[p := b']> (heap q) → tailBlock q' = tailBlock q →
  largestBlockSize q' = largestBlockSize q → p ∈ s_id <$> pre ++ t :: idle →
  tail b' = tail b → localFront b' = localFront b → next b' = next b →
  sizeMask b' = sizeMask b → (p ≠ frontBlock q → front b' = front b ∧ data b' = data b) →
  (p = tailBlock q → slot_at (tail b) b' = slot_at (tail b) b) →
  (pre' ≠ [] → pre ≠ []) → (pre' ≠ [] → full t → full t') →
  s_id <$> pre' ++ t' :: idle = s_id <$> pre ++ t :: idle →
  cframe q pre t idle q' pre' t' idle.
Proof.
  intros Hb Hh Ht Hl Hin H1 H2 H3 H4 H5 H6 H7 H8 Hids. constructor; auto.
  - intros r br Hbr. rewrite Hh. destruct (decide (r = p)) as [->|Hne].
    + simplify_eq. exists b'. rewrite lookup_insert_eq. by split_and!.
    + exists br. rewrite lookup_insert_ne by done. by auto 10.
  - by rewrite Hids.
Qed.

(** The state when a step has returned, and when it has thrown. *)
Definition consumed_step (E : Prop) ps cs q leaked pre t idle cs' q' : Prop :=
  ∃ pre' t' idle', sinv ps cs' q' leaked pre' t' idle' ∧ cframe q pre t idle q' pre' t' idle' ∧
    in_hand cs ++ contents pre t = newly_received cs ++ in_hand cs' ++ contents pre' t' ∧
    cinv E q' cs' pre' t'.

Definition consume_step_failed ps cs q leaked pre t idle q' : Prop :=
  ∃ pre' t' x x' rest, (∀ e, sinv ps (CThrew e) q' leaked pre' t' idle) ∧
    cframe q pre t idle q' pre' t' idle ∧ in_hand cs = [] ∧
    contents pre t = x :: rest ∧ contents pre' t' = x' :: rest ∧ left_in_place q' cs = [x'].

Section step.
Context (a : bool) (F E : Prop) ps q (leaked : nat) pre t idle (r : U).
Context (Hp : pinv a F q ps pre t idle).
#[local] Abbreviation step_ok cs :=
  (sinv ps cs q leaked pre t idle → cinv E q cs pre t →
   runs (consumer_step cs) (q, r) (λ cs' s, consumed_step E ps cs q leaked pre t idle cs' s.1)
     (λ _ s, consume_step_failed ps cs q leaked pre t idle s.1) never).

Lemma in_use_not_idle cs p :
  sinv ps cs q leaked pre t idle → p ∈ s_id <$> pre ++ [t] → ¬ next_idle idle p.
Proof.
  intros Hs Hin Hi. destruct idle as [|s rest] eqn:Hidle; [done|]. injection Hi as <-.
  pose proof (r_nodup _ _ _ _ _ _ _ (s_ring _ _ _ _ _ _ _ _ _ Hs)) as Hnd.
  rewrite <- ring_shift, fmap_app in Hnd. apply NoDup_app in Hnd as (_ & Hd & _).
  apply (Hd _ Hin). by left.
Qed.

(** The front block. *)
Lemma s_front_block cs :
  sinv ps cs q leaked pre t idle →
  ∃ b P LT LF, heap q !! frontBlock q = Some b ∧
    block_at (front_cap pre t) (front_items pre t) P LT LF (settled ps cs (frontBlock q) b) ∧
    next (settled ps cs (frontBlock q) b) = follows (list.tail (pre ++ t :: idle)) (frontBlock q) ∧
    (∀ b', tail (undone ps (frontBlock q) b') = tail b').
Proof using Hp.
  intros Hs. destruct (r_front_lookup _ _ _ _ _ _ _ (s_ring _ _ _ _ _ _ _ _ _ Hs))
    as (b' & P & LT & LF & Hb' & Hn & Hba).
  apply view_lookup_inv in Hb' as (b & Hb & ->). exists b, P, LT, LF. split_and!; [done..|].
  intros b'. eapply undone_tail; [done|]. eapply in_use_not_idle; [done|].
  rewrite (s_front _ _ _ _ _ _ _ _ _ Hs). apply follows_in.
Qed.

Lemma front_in_ring cs :
  sinv ps cs q leaked pre t idle → frontBlock q ∈ s_id <$> pre ++ t :: idle.
Proof.
  intros Hs. rewrite (s_front _ _ _ _ _ _ _ _ _ Hs), <- ring_shift, fmap_app, elem_of_app.
  left. apply follows_in.
Qed.

(** Steps that change nothing. *)
Lemma consumed_same cs cs' :
  sinv ps cs q leaked pre t idle → (∀ r b, completed cs' r b = completed cs r b) →
  newly_received cs = [] → in_hand cs' = in_hand cs → cinv E q cs' pre t →
  consumed_step E ps cs q leaked pre t idle cs' q.
Proof.
  intros Hs Hco Hn Hh Hc. exists pre, t, idle. split_and!; [by eapply s_same_c| | |done].
  - by apply cframe_refl.
  - by rewrite Hn, Hh.
Qed.

Lemma completed_found k p i : (∀ r b, completed (found (X := X) (T := T) k p i) r b = b) ∧
  in_hand (found (X := X) (T := T) k p i) = [].
Proof. by destruct k. Qed.

Lemma completed_none k : (∀ r b, completed (found_none (X := X) (T := T) k) r b = b) ∧
  in_hand (found_none (X := X) (T := T) k) = [].
Proof. by destruct k. Qed.

Lemma none_ok k : E → cinv E q (found_none k) pre t.
Proof. destruct k; simpl; auto. Qed.

Lemma step_cstart k : step_ok (CStart k).
Proof. intros Hs _. apply runs_bind, runs_gets, runs_ret. by apply consumed_same. Qed.

Lemma step_compare_c k : step_ok (CCompare k (frontBlock q)).
Proof.
  intros Hs (_ & Hempty). apply runs_bind, runs_gets, runs_ret.
  pose proof (r_front_is_tail _ _ _ _ _ _ _ (s_ring _ _ _ _ _ _ _ _ _ Hs)) as Hft.
  simpl in Hft. destruct (decide (frontBlock q = tailBlock q)) as [Heq|Hne].
  - rewrite bool_decide_eq_false_2 by tauto. destruct (completed_none k).
    apply consumed_same; try done. apply none_ok. tauto.
  - rewrite bool_decide_eq_true_2 by done. apply consumed_same; try done. simpl. tauto.
Qed.

Lemma step_again k : step_ok (CAgain k).
Proof. intros Hs Hc. apply runs_bind, runs_gets, runs_ret. by apply consumed_same. Qed.
End step.

(** What the consumer knows of the front block when its front is not the tail it has
    seen. *)
Lemma first_element a F ps cs q leaked pre t idle b :
  pinv a F q ps pre t idle → sinv ps cs q leaked pre t idle → (∀ r b, completed cs r b = b) →
  heap q !! frontBlock q = Some b → (front b =? localTail b) = false →
  ∃ x xs P LT LF, front_items pre t = x :: xs ∧ P < LT ∧
    block_at (front_cap pre t) (x :: xs) P LT LF (undone ps (frontBlock q) b) ∧
    slot_at (front b) (undone ps (frontBlock q) b) = Ok (Some x).
Proof.
  intros Hp Hs Hco Hb Hne.
  destruct (s_front_block a F ps q leaked pre t idle Hp cs Hs) as (b' & P & LT & LF & Hb' & Hba & _).
  assert (b' = b) as -> by congruence. unfold settled in Hba. rewrite Hco in Hba.
  pose proof (block_seen_nonempty _ _ _ _ _ _ Hba) as Hseen.
  rewrite undone_front, undone_localTail, Hne in Hseen. symmetry in Hseen. apply Z.eqb_neq in Hseen.
  pose proof (ba_LT _ _ _ _ _ _ Hba).
  destruct (front_items pre t) as [|x xs] eqn:Hx; [unfold zlen in *; simpl in *; lia|].
  pose proof (block_front_slot _ _ _ _ _ _ _ Hba) as Hslot. rewrite undone_front in Hslot.
  exists x, xs, P, LT, LF. split_and!; [done|lia|done|done].
Qed.

(** An element has been found in the front block. *)
Lemma found_ok a F E k ps cs q leaked pre t idle b :
  pinv a F q ps pre t idle → sinv ps cs q leaked pre t idle → (∀ r b, completed cs r b = b) →
  heap q !! frontBlock q = Some b → (front b =? localTail b) = false →
  cinv E q (found k (frontBlock q) (front b)) pre t.
Proof.
  intros Hp Hs Hco Hb Hne.
  destruct k; simpl; try (split_and!; [done|done|by exists b]).
  destruct (first_element _ _ _ _ _ _ _ _ _ _ Hp Hs Hco Hb Hne)
    as (x & xs & P & LT & LF & Hx & _ & _ & Hslot%undone_slot).
  rewrite contents_front, Hx. split; [done|]. unfold pointee. simpl. rewrite Hb. simpl.
  by rewrite Hslot.
Qed.

Section step2.
Context (a : bool) (F E : Prop) ps q (leaked : nat) pre t idle (r : U).
Context (Hp : pinv a F q ps pre t idle).
#[local] Abbreviation step_ok cs :=
  (sinv ps cs q leaked pre t idle → cinv E q cs pre t →
   runs (consumer_step cs) (q, r) (λ cs' s, consumed_step E ps cs q leaked pre t idle cs' s.1)
     (λ _ s, consume_step_failed ps cs q leaked pre t idle s.1) never).
#[local] Abbreviation front_block := (s_front_block a F ps q leaked pre t idle Hp).

Lemma step_front_c k : step_ok (CFront k (frontBlock q)).
Proof using Hp.
  intros Hs _. destruct (front_block _ Hs) as (b & _ & _ & _ & Hb & _).
  eapply runs_bind, runs_load; [done|]. apply runs_ret.
  destruct (front b =? localTail b) eqn:Hne; simpl.
  - apply consumed_same; try done. simpl. split; [done|]. by exists b.
  - destruct (completed_found k (frontBlock q) (front b)). apply consumed_same; try done.
    by eapply found_ok.
Qed.

(** The consumer looks at the tail of the front block. *)
Lemma s_reload cs cs' b :
  sinv ps cs q leaked pre t idle → heap q !! frontBlock q = Some b →
  (∀ r b, completed cs r b = b) → (∀ r b, completed cs' r b = b) →
  let q' := set_heap (<[frontBlock q := set_localTail (tail b) b]> (heap q)) q in
  sinv ps cs' q' leaked pre t idle ∧ cframe q pre t idle q' pre t idle ∧
  pinv a F q' ps pre t idle ∧
  (front b =? tail b) = bool_decide (front_items pre t = []).
Proof using Hp.
  intros Hs Hb Hco Hco' q'. destruct (front_block _ Hs) as (b' & P & LT & LF & Hb' & Hba & Hn & Ht).
  assert (b' = b) as -> by congruence. unfold settled in Hba, Hn. rewrite Hco in Hba, Hn.
  pose proof (block_reload_tail _ _ _ _ _ _ Hba) as Hba'.
  rewrite Ht, <- undone_set_localTail in Hba'.
  assert (Hf : cframe q pre t idle q' pre t idle).
  { eapply cframe_modify; try done. by eapply front_in_ring. }
  split_and!; [|done| |].
  - apply (s_visible_c ps cs); [|apply Hs|].
    + unfold settled. rewrite Hco'.
      apply (r_front_refresh c0 n0 _ _ pre t idle _ _ (s_ring _ _ _ _ _ _ _ _ _ Hs)
        (view_lookup _ _ _ _ _ Hb)).
      * by exists P, (P + zlen (front_items pre t)), LF.
      * unfold settled. rewrite Hco. by rewrite undone_set_localTail.
    + intros r' br _. by rewrite Hco, Hco'.
  - eapply pinv_frame; [done|done| |done]. intros p. by eapply s_idle_not_front.
  - rewrite <- (block_empty _ _ _ _ _ _ Hba), undone_front. by rewrite Ht.
Qed.

Lemma step_reload k bf :
  (front_items pre t = [] → pre = [] → E) → step_ok (CReload k (frontBlock q) bf).
Proof using Hp.
  intros HE Hs (_ & b & Hb & <-). eapply runs_bind, runs_load; [done|].
  eapply runs_bind, runs_modify_block; [done|]. apply runs_ret.
  destruct (completed_found k (frontBlock q) (front b)) as [Hco Hh].
  destruct (front b =? tail b) eqn:Hne; simpl.
  - destruct (s_reload _ (CCompare k (frontBlock q)) b Hs Hb) as (Hs' & Hf & _ & Hempty); [done..|].
    rewrite Hne in Hempty. symmetry in Hempty. apply bool_decide_eq_true_1 in Hempty.
    exists pre, t, idle. split_and!; [done..|]. simpl. split; [done|]. by apply HE.
  - destruct (s_reload _ (found k (frontBlock q) (front b)) b Hs Hb) as (Hs' & Hf & Hp' & _);
      [done..|].
    exists pre, t, idle. split_and!; [done|done|by rewrite Hh|].
    exact (found_ok a F E k ps _ _ _ _ _ _ (set_localTail (tail b) b) Hp' Hs' Hco
      (lookup_insert_eq _ _ _) Hne).
Qed.

Lemma step_again_tail k : step_ok (CAgainTail k (frontBlock q)).
Proof using Hp.
  intros Hs (Hpre & _). destruct (front_block _ Hs) as (b & _ & _ & _ & Hb & _).
  eapply runs_bind, runs_load; [done|]. eapply runs_bind, runs_modify_block; [done|].
  apply runs_ret.
  destruct (s_reload _ (CAgainFront k (frontBlock q) (tail b)) b Hs Hb) as (Hs' & Hf & _); [done..|].
  exists pre, t, idle. split_and!; [done..|]. simpl. split_and!; [done..|].
  eexists. by split; [apply lookup_insert_eq|].
Qed.

Lemma step_again_front k bt : step_ok (CAgainFront k (frontBlock q) bt).
Proof using Hp.
  intros Hs (Hpre & _ & b & Hb & <- & Ht).
  destruct (front_block _ Hs) as (b' & P & LT & LF & Hb' & Hba & _ & Htail).
  assert (b' = b) as -> by congruence.
  eapply runs_bind, runs_load; [done|]. apply runs_ret.
  destruct (front b =? localTail b) eqn:Hne; simpl.
  - apply consumed_same; try done. simpl. split_and!; [done..|].
    pose proof (block_empty _ _ _ _ _ _ Hba) as Hempty. unfold settled in Hempty. simpl in Hempty.
    rewrite undone_front, Htail, Ht, Hne in Hempty.
    symmetry in Hempty. by apply bool_decide_eq_true_1 in Hempty.
  - destruct (completed_found k (frontBlock q) (front b)). apply consumed_same; try done.
    by eapply found_ok.
Qed.

(** *** Taking an element out *)
Lemma set_front_shape xs :
  ((set_front_items xs pre t).1 ≠ [] → pre ≠ []) ∧
  ((set_front_items xs pre t).1 ≠ [] → full t → full (set_front_items xs pre t).2) ∧
  s_id <$> (set_front_items xs pre t).1 ++ (set_front_items xs pre t).2 :: idle =
    s_id <$> pre ++ t :: idle.
Proof. by destruct pre. Qed.

(** The slot of the first element gets another value. *)
Lemma front_slot_changes k b d x xs P LT LF :
  sinv ps (CTake k (frontBlock q) (front b)) q leaked pre t idle →
  heap q !! frontBlock q = Some b →
  block_at (front_cap pre t) (x :: xs) P LT LF (undone ps (frontBlock q) b) →
  slot_at (front b) (undone ps (frontBlock q) b) = Ok (Some x) →
  let b' := set_data (<[Z.to_nat (front b) := d]> (data b)) b in
  ∀ ys, cframe q pre t idle (set_heap (<[frontBlock q := b']> (heap q)) q)
    (set_front_items ys pre t).1 (set_front_items ys pre t).2 idle.
Proof using Hp.
  intros Hs Hb Hba Hslot b' ys. destruct (front_block _ Hs) as (b2 & _ & _ & _ & Hb2 & _ & _ & Ht).
  assert (b2 = b) as -> by congruence.
  destruct (set_front_shape ys) as (H1 & H2 & H3).
  eapply cframe_modify; try done; [by eapply front_in_ring|].
  intros _. pose proof (undone_slot _ _ _ _ _ Hslot) as Hreal%slot_at_lookup.
  pose proof (block_tail_slot _ _ _ _ _ _ Hba) as Htail. rewrite Ht in Htail.
  unfold slot_at, vector_at. simpl. rewrite list_lookup_insert_ne; [done|].
  intros Heq. apply slot_at_lookup in Hslot, Htail. rewrite Heq in Hslot. congruence.
Qed.

(** The element is in the hand of the consumer. *)
Lemma element_taken k b x xs P LT LF :
  sinv ps (CTake k (frontBlock q) (front b)) q leaked pre t idle →
  heap q !! frontBlock q = Some b → front_items pre t = x :: xs → P < LT →
  block_at (front_cap pre t) (x :: xs) P LT LF (undone ps (frontBlock q) b) →
  slot_at (front b) (undone ps (frontBlock q) b) = Ok (Some x) →
  consumed_step E ps (CTake k (frontBlock q) (front b)) q leaked pre t idle
    (CStore (frontBlock q) (front b) x)
    (set_heap (<[frontBlock q := clear_slot (front b) b]> (heap q)) q).
Proof using Hp.
  intros Hs Hb Hx Hlt Hba Hslot. pose proof (block_at_bounds _ _ _ _ _ _ Hba) as [? _].
  pose proof (block_pop _ _ _ _ _ _ _ Hba Hlt) as Hba'. rewrite undone_front in Hba'.
  exists (set_front_items xs pre t).1, (set_front_items xs pre t).2, idle. split_and!.
  - apply (s_visible_c ps (CTake k (frontBlock q) (front b))); [|apply Hs|].
    + pose proof (r_front_update c0 n0 _ _ pre t idle _
        (settled ps (CStore (frontBlock q) (front b) x) (frontBlock q) (clear_slot (front b) b)) xs
        (s_ring _ _ _ _ _ _ _ _ _ Hs) (view_lookup _ _ _ _ _ Hb)) as Hr.
      destruct (set_front_items xs pre t) as [pre' t']. apply Hr.
      * exists (P + 1), LT, LF. unfold settled. simpl. rewrite decide_True by done.
        by rewrite undone_clear.
      * unfold settled. simpl. rewrite decide_True by done. by rewrite undone_clear.
    + intros r' br Hne. simpl. by rewrite decide_False.
  - by eapply front_slot_changes.
  - simpl. rewrite contents_front, Hx, contents_set_front. done.
  - simpl. split; [done|]. eexists. split; [apply lookup_insert_eq|]. simpl.
    pose proof (ba_front _ _ _ _ _ _ Hba) as Hf. pose proof (ba_mask _ _ _ _ _ _ Hba) as Hm.
    pose proof (ba_localFront _ _ _ _ _ _ Hba) as Hl. pose proof (ba_LF _ _ _ _ _ _ Hba).
    pose proof (ba_room _ _ _ _ _ _ Hba) as Hroom. pose proof (zlen_nonneg xs).
    assert (Hz : zlen (x :: xs) = zlen xs + 1) by (unfold zlen; simpl; lia). rewrite Hz in Hroom.
    rewrite undone_sizeMask in Hm. rewrite undone_localFront in Hl. rewrite undone_front in Hf.
    rewrite Hm, Hl, Hf, next_index by apply Hba.
    pose proof (Z.mod_pos_bound P (front_cap pre t)).
    split_and!; [done| | |lia|lia]; rewrite Z.eqb_sym, index_eqb by lia; lia.
Qed.

Lemma assignment_failed k b x xs x' P LT LF :
  sinv ps (CTake k (frontBlock q) (front b)) q leaked pre t idle →
  heap q !! frontBlock q = Some b → front_items pre t = x :: xs →
  block_at (front_cap pre t) (x :: xs) P LT LF (undone ps (frontBlock q) b) →
  slot_at (front b) (undone ps (frontBlock q) b) = Ok (Some x) →
  consume_step_failed ps (CTake k (frontBlock q) (front b)) q leaked pre t idle
    (set_heap (<[frontBlock q := set_data (<[Z.to_nat (front b) := Some x']> (data b)) b]>
       (heap q)) q).
Proof using Hp.
  intros Hs Hb Hx Hba Hslot. pose proof (block_replace _ _ _ _ _ _ _ x' Hba) as Hba'.
  rewrite undone_front, <- (undone_fill _ _ _ _ _ _ Hslot) in Hba'.
  exists (set_front_items (x' :: xs) pre t).1, (set_front_items (x' :: xs) pre t).2, x, x',
    (xs ++ back_items pre t).
  split_and!; [| |done|by rewrite contents_front, Hx|by rewrite contents_set_front|].
  - intros e. apply (s_visible_c ps (CTake k (frontBlock q) (front b))); [|apply Hs|done].
    pose proof (r_front_update c0 n0 _ _ pre t idle _
      (settled ps (CThrew e) (frontBlock q)
         (set_data (<[Z.to_nat (front b) := Some x']> (data b)) b)) (x' :: xs)
      (s_ring _ _ _ _ _ _ _ _ _ Hs) (view_lookup _ _ _ _ _ Hb)) as Hr.
    destruct (set_front_items (x' :: xs) pre t) as [pre' t']. apply Hr.
    + by exists P, LT, LF.
    + unfold settled. simpl. by rewrite (undone_fill _ _ _ _ _ _ Hslot).
  - by eapply front_slot_changes.
  - simpl. unfold pointee. simpl. rewrite lookup_insert_eq. simpl.
    apply undone_slot in Hslot. by rewrite (slot_at_set _ _ _ _ Hslot).
Qed.

Lemma step_take k i : step_ok (CTake k (frontBlock q) i).
Proof using Hp.
  intros Hs (Hk & _ & b & Hb & <- & Hne).
  destruct (first_element _ _ _ _ _ _ _ _ _ _ Hp Hs (λ _ _, eq_refl) Hb Hne)
    as (x & xs & P & LT & LF & Hx & Hlt & Hba & Hslot).
  pose proof (undone_slot _ _ _ _ _ Hslot) as Hreal.
  eapply runs_bind, runs_element_at; [done..|]. apply runs_bind. destruct k; [| |done].
  - eapply runs_move_result; [done..| |].
    + intros r' _. apply runs_ret. by eapply element_taken.
    + intros r' x' e _. by eapply assignment_failed.
  - eapply runs_destroy_at; [done..|]. apply runs_ret. by eapply element_taken.
Qed.

Lemma step_store i x : step_ok (CStore (frontBlock q) i x).
Proof using Hp.
  intros Hs (_ & b & Hb & <- & _).
  eapply runs_bind. unfold advance_front. eapply runs_bind, runs_load; [done|].
  eapply runs_modify_block; [done|]. apply runs_ret. exists pre, t, idle. split_and!.
  - constructor; [|apply Hs]. unfold view.
    pose proof (s_ring _ _ _ _ _ _ _ _ _ Hs) as Hr. unfold view in Hr. simpl.
    rewrite (settled_hidden ps (CStore (frontBlock q) (front b) x) _ _ _ _ b); [done|done| |].
    + unfold settled. simpl. rewrite decide_True, undone_set_front by done.
      by rewrite undone_sizeMask.
    + intros r' br Hne. unfold settled. simpl. by rewrite decide_False.
  - eapply cframe_modify; try done. by eapply front_in_ring.
  - done.
  - done.
Qed.

(** *** Going on to the next block *)
Lemma step_next_c k : step_ok (CNext k (frontBlock q)).
Proof using Hp.
  intros Hs (Hpre & _ & Hx). destruct (front_block _ Hs) as (b & _ & _ & _ & Hb & _ & Hn & _).
  eapply runs_bind, runs_load; [done|]. apply runs_ret. apply consumed_same; try done.
  simpl. split_and!; [done..|].
  pose proof (r_front_is_tail _ _ _ _ _ _ _ (s_ring _ _ _ _ _ _ _ _ _ Hs)) as Hft. simpl in Hft.
  unfold settled in Hn. rewrite completed_next in Hn.
  rewrite (undone_next _ _ _ _ _ _ _ _ _ _ Hp) in Hn by tauto. rewrite Hn.
  destruct pre as [|s pre']; [done|]. simpl. by rewrite follows_app.
Qed.

Lemma second_block cs :
  sinv ps cs q leaked pre t idle → (∀ r b, completed cs r b = b) → pre ≠ [] →
  front_items pre t = [] →
  ∃ s pre' b P LT LF, pre = s :: pre' ∧ s_items s = [] ∧ contents pre t = contents pre' t ∧
    heap q !! follows (list.tail pre) (s_id t) = Some b ∧
    block_at (front_cap pre' t) (front_items pre' t) P LT LF
      (undone ps (follows (list.tail pre) (s_id t)) b) ∧
    front_items pre' t ≠ [] ∧
    (∀ b', tail (undone ps (follows (list.tail pre) (s_id t)) b') = tail b').
Proof using Hp.
  intros Hs Hco Hpre Hx. pose proof (s_ring _ _ _ _ _ _ _ _ _ Hs) as Hr.
  assert (Ht : ∀ b', tail (undone ps (follows (list.tail pre) (s_id t)) b') = tail b').
  { intros b'. eapply undone_tail; [done|]. intros Hi.
    exact (in_use_not_idle _ _ _ _ _ _ _ _ Hp _ _ Hs (second_in pre t) Hi). }
  destruct pre as [|s pre']; [done|]. simpl in *.
  pose proof (r_rotate _ _ _ _ _ _ _ _ Hr Hx) as Hrot.
  destruct (r_front_lookup _ _ _ _ _ _ _ Hrot) as (b' & P & LT & LF & Hb' & _ & Hba).
  apply (view_lookup_inv ps cs q) in Hb' as (b & Hb & ->). unfold settled in Hba.
  rewrite Hco in Hba. exists s, pre', b, P, LT, LF. split_and!; try done.
  - unfold contents. simpl. by rewrite Hx.
  - by apply (r_next_nonempty _ _ _ _ _ _ _ _ Hr).
Qed.

Lemma step_next_front_c k : step_ok (CNextFront k (follows (list.tail pre) (s_id t))).
Proof using Hp.
  intros Hs (Hpre & Hx & _).
  destruct (second_block _ Hs (λ _ _, eq_refl) Hpre Hx) as (_ & _ & b & _ & _ & _ & _ & _ & _ & Hb & _).
  eapply runs_bind, runs_load; [done|]. apply runs_ret. apply consumed_same; try done.
  simpl. split_and!; [done..|]. by exists b.
Qed.

(** The tail of the next block is looked at. *)
Lemma next_reload k nf b P LT LF s pre' :
  sinv ps (CNextTail k (follows (list.tail pre) (s_id t)) nf) q leaked pre t idle →
  pre = s :: pre' → heap q !! follows (list.tail pre) (s_id t) = Some b →
  block_at (front_cap pre' t) (front_items pre' t) P LT LF
    (undone ps (follows (list.tail pre) (s_id t)) b) →
  (∀ b', tail (undone ps (follows (list.tail pre) (s_id t)) b') = tail b') →
  let q' := set_heap (<[follows (list.tail pre) (s_id t) := set_localTail (tail b) b]> (heap q)) q in
  sinv ps (CAdvance k (follows (list.tail pre) (s_id t)) nf) q' leaked pre t idle ∧
  cframe q pre t idle q' pre t idle.
Proof.
  intros Hs Hl Hb Hba Ht. set (nb := follows (list.tail pre) (s_id t)) in *.
  assert (Hin : ∃ s', s' ∈ pre ++ t :: idle ∧ s_id s' = nb ∧ s_cap s' = front_cap pre' t ∧
    s_items s' = front_items pre' t).
  { unfold nb. rewrite Hl. destruct pre' as [|s' pre'].
    - exists t. split_and!; [|done..]. apply elem_of_app. right. by left.
    - exists s'. split_and!; [|done..]. apply elem_of_app. left. right. by left. }
  destruct Hin as (s' & Hin & Hid & Hcap & Hit).
  pose proof (block_reload_tail _ _ _ _ _ _ Hba) as Hba'.
  rewrite Ht, <- undone_set_localTail in Hba'. split.
  - apply (s_visible_c ps (CNextTail k nb nf)); [|apply Hs|done].
    rewrite <- Hid in *.
    apply (r_refresh c0 n0 _ _ pre t idle s' _ _ (s_ring _ _ _ _ _ _ _ _ _ Hs) Hin
      (view_lookup _ _ _ _ _ Hb)).
    + unfold settled. simpl. by rewrite undone_set_localTail.
    + rewrite Hcap, Hit. by exists P, (P + zlen (front_items pre' t)), LF.
  - eapply cframe_modify; try done. rewrite <- Hid. by apply list_elem_of_fmap_2.
Qed.

Lemma step_next_tail_c k nf : step_ok (CNextTail k (follows (list.tail pre) (s_id t)) nf).
Proof using Hp.
  intros Hs (Hpre & Hx & _ & b & Hb & <-).
  destruct (second_block _ Hs (λ _ _, eq_refl) Hpre Hx)
    as (s & pre' & b' & P & LT & LF & Hl & Hsi & Hc & Hb' & Hba & Hne & Ht).
  assert (b' = b) as -> by congruence.
  pose proof (block_empty _ _ _ _ _ _ Hba) as Hempty.
  rewrite undone_front, Ht, bool_decide_eq_false_2 in Hempty by done.
  assert (Hassert : negb (front b =? tail b) = true) by by rewrite Hempty.
  destruct (next_reload k (front b) b P LT LF s pre' Hs Hl Hb Hba Ht) as [Hs' Hf].
  eapply runs_bind, runs_load; [done|]. apply runs_bind. destruct k.
  1, 2: eapply runs_modify_block; [done|]; apply runs_bind, runs_massert; [done|]; apply runs_ret;
    exists pre, t, idle; split_and!; [done..|]; simpl; split_and!; [done..|];
    eexists; split; [apply lookup_insert_eq|done].
  apply runs_ret. apply runs_bind, runs_massert; [done|]. apply runs_ret.
  apply consumed_same; try done. simpl. rewrite Hc, contents_front.
  destruct (front_items pre' t) as [|x xs]; [done|]. split; [done|].
  pose proof (block_front_slot _ _ _ _ _ _ _ Hba) as Hslot%undone_slot.
  rewrite undone_front in Hslot. unfold pointee. simpl. rewrite Hb. simpl. by rewrite Hslot.
Qed.

Lemma step_advance k nf : step_ok (CAdvance k (follows (list.tail pre) (s_id t)) nf).
Proof using Hp.
  intros Hs (Hk & Hpre & Hx & _ & Hb).
  destruct (second_block _ Hs (λ _ _, eq_refl) Hpre Hx)
    as (s & pre' & b' & P & LT & LF & Hl & Hsi & Hc & _).
  pose proof (s_ring _ _ _ _ _ _ _ _ _ Hs) as Hr. rewrite Hl in Hr.
  pose proof (r_rotate _ _ _ _ _ _ _ _ Hr Hsi) as Hrot.
  eapply runs_bind, runs_modify. apply runs_ret. exists pre', t, (idle ++ [s]). split_and!.
  - constructor; [|apply Hs]. rewrite Hl. exact Hrot.
  - constructor; try done.
    + intros p b Hpb. exists b. by split_and!.
    + rewrite Hl. rewrite app_comm_cons, app_assoc. apply fmap_Permutation.
      apply (Permutation_app_comm _ [s]).
    + right. by exists s.
  - simpl. by rewrite Hc.
  - simpl. split_and!; [done|done|exact Hb].
Qed.

Lemma consumer_step_runs cs :
  (in_hand cs ++ contents pre t = [] → E) → consuming cs = true → step_ok cs.
Proof using Hp.
  intros HE Hk Hs Hi. destruct cs; try discriminate Hk; simpl in Hi.
  - by eapply step_cstart.
  - subst. by apply step_front_c.
  - destruct Hi as [-> ?]. apply step_reload; [|done..]. intros Hx Hpre. apply HE. simpl.
    rewrite contents_front, Hx. by rewrite Hpre.
  - destruct Hi as (? & -> & ?). by apply step_take.
  - destruct Hi as [-> ?]. by apply step_store.
  - destruct Hi as [-> ?]. by eapply step_compare_c.
  - by eapply step_again.
  - destruct Hi as [? ->]. by apply step_again_tail.
  - destruct Hi as (? & -> & ?). by apply step_again_front.
  - destruct Hi as (? & -> & ?). by apply step_next_c.
  - destruct Hi as (? & ? & ->). by apply step_next_front_c.
  - destruct Hi as (? & ? & -> & ?). by apply step_next_tail_c.
  - destruct Hi as (? & ? & ? & -> & ?). by apply step_advance.
Qed.
End step2.
End consumer.
