(* ===== verification/RwqThreads.v ===== *)
(** * ReaderWriterQueue with two threads: the invariant is preserved *)
From stdpp Require Import gmap.
From S2P Require Import Prelude Lifetime ReaderWriterQueue RwqBlocks RwqRing RwqOps.
From S2P Require Import RwqConcurrent RwqView RwqProducer RwqConsumerThread.

#[local] Open Scope Z_scope.

(** ** Histories *)
Section history.
Context {T : Type}.

Lemma fifo_sends (l : list (event T)) items ys :
  fifo l items → fifo (l ++ (Sent <$> ys)) (items ++ ys).
Proof.
  revert l items. induction ys as [|y ys IH]; intros l items Hf; [by rewrite !app_nil_r|].
  rewrite fmap_cons, (app_cons_assoc l), (app_cons_assoc items). apply IH.
  econstructor; [done|]. constructor.
Qed.

Lemma fifo_receives (l : list (event T)) xs items :
  fifo l (xs ++ items) → fifo (l ++ (Received <$> xs)) items.
Proof.
  revert l. induction xs as [|x xs IH]; intros l Hf; [by rewrite app_nil_r|].
  rewrite fmap_cons, (app_cons_assoc l). apply IH. econstructor; [done|]. constructor.
Qed.
End history.

(** ** The machine *)
Section machine.
Context {X T U : Type} `{!CppType X T}.
Context (MAX_BLOCK_SIZE : Z) (ndebug : bool) (malloc : nat → Z → bool).
Context (sizeof_Block alignof_Block sizeof_T alignof_T : Z).
Context (assign_result : U → T → U * T * completion X unit).
Context (c0 n0 : Z) (Hmax : cap_ok MAX_BLOCK_SIZE) (Hc0 : 1 ≤ c0).
#[local] Abbreviation producer_moves :=
  (producer_moves (X := X) (T := T) (U := U) MAX_BLOCK_SIZE ndebug malloc sizeof_Block
     alignof_Block sizeof_T alignof_T).
#[local] Abbreviation consumer_moves :=
  (consumer_moves (X := X) (T := T) (U := U) ndebug assign_result).
#[local] Abbreviation rwq_step :=
  (rwq_step (X := X) (T := T) (U := U) MAX_BLOCK_SIZE ndebug malloc sizeof_Block
     alignof_Block sizeof_T alignof_T assign_result).
#[local] Abbreviation producer_step :=
  (producer_step (X := X) (T := T) MAX_BLOCK_SIZE ndebug malloc sizeof_Block alignof_Block
     sizeof_T alignof_T).
#[local] Abbreviation consumer_step := (consumer_step (X := X) ndebug assign_result).
#[local] Abbreviation minv := (minv (X := X) (T := T) malloc c0 n0).
Implicit Types (m : machine X T U).

Definition good m : Prop := ∃ leaked pre t idle, minv m leaked pre t idle.

Lemma was_full_now m leaked pre t idle :
  minv m leaked pre t idle →
  capacity c0 n0 ≤ zlen (in_hand (consumer_ m) ++ contents pre t) →
  happened (history m) (p_since m) (λ items, (c0 - 1) * Z.max 1 (n0 - 1) ≤ zlen items).
Proof. intros Hi Hc. eapply happened_now; [apply Hi|apply Hi|exact Hc]. Qed.

Lemma was_empty_now m leaked pre t idle :
  minv m leaked pre t idle → in_hand (consumer_ m) ++ contents pre t = [] →
  happened (history m) (c_since m) (.= []).
Proof. intros Hi Hc. eapply happened_now; [apply Hi|apply Hi|exact Hc]. Qed.

(** What the steps of the threads do, from a good state. *)
Lemma producer_runs m leaked pre t idle :
  minv m leaked pre t idle → producing (producer_ m) = true →
  let F := happened (history m) (p_since m)
             (λ items, (c0 - 1) * Z.max 1 (n0 - 1) ≤ zlen items) in
  runs (producer_step (producer_ m)) (queue m, element m)
    (λ ps' s, produced malloc c0 n0 (can_alloc m) F (consumer_ m) (producer_ m) (queue m) leaked
       pre t ps' s.1)
    (λ _ s, produce_failed c0 n0 (consumer_ m) (queue m) leaked pre t idle s.1) never.
Proof using Hmax Hc0.
  intros Hi Hp F. destruct Hi as [Hs Hl Hf Hsince Hpi Hci] eqn:Hmi. clear Hmi.
  eapply producer_step_runs; try done.
  intros Hc. eapply was_full_now; [|done]. by constructor.
Qed.

Lemma consumer_runs m leaked pre t idle :
  minv m leaked pre t idle → consuming (consumer_ m) = true →
  runs (consumer_step (consumer_ m)) (queue m, result_ m)
    (λ cs' s, consumed_step c0 n0 (happened (history m) (c_since m) (.= [])) (producer_ m)
       (consumer_ m) (queue m) leaked pre t idle cs' s.1)
    (λ _ s, consume_step_failed c0 n0 (producer_ m) (consumer_ m) (queue m) leaked pre t idle s.1)
    never.
Proof.
  intros Hi Hp. eapply consumer_step_runs; try apply Hi; [|done].
  intros Hc. by eapply was_empty_now.
Qed.

(** The step relation only has steps of threads that are in a call. *)
Lemma producing_steps s q x q' x' c :
  producer_step s (q, x) = Ok ((q', x'), c) → producing s = true.
Proof. by destruct s. Qed.

Lemma consuming_steps s q (r : U) q' r' c :
  consumer_step s (q, r) = Ok ((q', r'), c) → consuming s = true.
Proof. by destruct s. Qed.

Lemma undone_idle (ps : producer X T) r (b : Block T) : producing ps = false → undone ps r b = b.
Proof. by destruct ps. Qed.
Lemma pending_idle (ps : producer X T) : producing ps = false → pending ps = 0%nat.
Proof. by destruct ps. Qed.
Lemma completed_idle (cs : consumer X T) r (b : Block T) :
  consuming cs = false → completed cs r b = b.
Proof. by destruct cs. Qed.
Lemma in_hand_idle (cs : consumer X T) : consuming cs = false → in_hand cs = [].
Proof. by destruct cs. Qed.

Lemma producer_moves_good m m' : good m → producer_moves m m' → good m'.
Proof using Hmax Hc0.
  intros (leaked & pre & t & idle & Hi) Hstep. pose proof Hi as [Hs Hl Hf [Hps Hcs] Hpi Hci].
  destruct Hstep as [a c x Hp|q' x' s' Hstep|q' x' e Hstep|Hp].
  - exists leaked, pre, t, idle. constructor; simpl; try done.
    eapply s_same; [done|by rewrite Hp|]. intros r b _. by rewrite Hp.
  - pose proof (producer_runs _ _ _ _ _ Hi (producing_steps _ _ _ _ _ _ Hstep)) as Hrun.
    unfold runs in Hrun. simpl in Hrun. rewrite Hstep in Hrun.
    destruct Hrun as (pre' & t' & idle' & Hs' & Hfr & Hc & Hpi').
    exists leaked, pre', t', idle'. constructor; simpl; try done.
    + rewrite Hc, app_assoc. by apply fifo_sends.
    + rewrite length_app. lia.
    + eapply pinv_frame; [by apply cframe_refl| | |exact Hpi'].
      * intros HF. by apply happened_app.
      * intros p. by eapply s_idle_not_front.
    + exact (cinv_frame _ _ _ _ _ _ _ _ _ _ Hfr (happened_app _ _ _ _)
        (s_front _ _ _ _ _ _ _ _ _ Hs) Hc Hci).
  - pose proof (producer_runs _ _ _ _ _ Hi (producing_steps _ _ _ _ _ _ Hstep)) as Hrun.
    unfold runs in Hrun. simpl in Hrun. rewrite Hstep in Hrun.
    destruct Hrun as (leaked' & Hle & Hfr & Hs'). exists leaked', pre, t, idle.
    constructor; simpl; try done; [lia|].
    exact (cinv_frame _ _ _ _ _ _ _ _ _ _ Hfr id (s_front _ _ _ _ _ _ _ _ _ Hs)
      (eq_sym (app_nil_r _)) Hci).
  - exists leaked, pre, t, idle. constructor; simpl; try done.
    eapply s_same; [done|by rewrite (pending_idle (producer_ m))|].
    intros r b _. by rewrite (undone_idle (producer_ m)).
Qed.

Lemma consumer_moves_good m m' : good m → consumer_moves m m' → good m'.
Proof.
  intros (leaked & pre & t & idle & Hi) Hstep. pose proof Hi as [Hs Hl Hf [Hps Hcs] Hpi Hci].
  destruct Hstep as [k r Hc|q' r' s' Hstep|q' r' e Hstep|Hc].
  - exists leaked, pre, t, idle. rewrite Hc in Hf. constructor; simpl; try done.
    eapply s_same_c; [done|]. by rewrite Hc.
  - pose proof (consumer_runs _ _ _ _ _ Hi (consuming_steps _ _ _ _ _ _ Hstep)) as Hrun.
    unfold runs in Hrun. simpl in Hrun. rewrite Hstep in Hrun.
    destruct Hrun as (pre' & t' & idle' & Hs' & Hfr & Hc & Hci').
    exists leaked, pre', t', idle'. rewrite Hc in Hf. constructor; simpl; try done.
    + by apply fifo_receives.
    + rewrite length_app. lia.
    + eapply pinv_frame; [done|apply happened_app| |done]. intros p. by eapply s_idle_not_front.
    + exact (cinv_frame _ _ _ _ _ _ _ _ _ _
        (pframe_same _ _ _ _ _ _ eq_refl eq_refl (or_introl (conj eq_refl eq_refl)))
        (happened_app _ _ _ _) (s_front _ _ _ _ _ _ _ _ _ Hs') (eq_sym (app_nil_r _)) Hci').
  - pose proof (consumer_runs _ _ _ _ _ Hi (consuming_steps _ _ _ _ _ _ Hstep)) as Hrun.
    unfold runs in Hrun. simpl in Hrun. rewrite Hstep in Hrun.
    destruct Hrun as (pre' & t' & x & x' & rest & Hs' & Hfr & Hh & Hc & Hc' & Hleft).
    exists leaked, pre', t', idle. rewrite Hh, Hc in Hf. constructor; simpl; try done.
    + simpl in Hleft. rewrite Hleft, Hc'. econstructor; [done|]. constructor.
    + rewrite length_app. lia.
    + eapply pinv_frame; [done|apply happened_app| |done]. intros p. by eapply s_idle_not_front.
  - exists leaked, pre, t, idle. rewrite in_hand_idle in Hf by done. constructor; simpl; try done.
    eapply s_same_c; [done|]. intros r b. by rewrite (completed_idle (consumer_ m)).
Qed.

Lemma steps_good m m' : good m → rtc rwq_step m m' → good m'.
Proof using Hmax Hc0.
  intros Hm. induction 1 as [|m m' m'' [Hp|Hc] _ IH]; [done| |]; apply IH.
  - by eapply producer_moves_good.
  - by eapply consumer_moves_good.
Qed.

(** ** Idle threads *)
Lemma view_idle (ps : producer X T) (cs : consumer X T) q :
  producing ps = false → consuming cs = false → view ps cs q = q.
Proof.
  intros Hp Hc. unfold view. rewrite <- (set_heap_id q) at 3. f_equal. apply map_eq. intros r.
  rewrite lookup_settled. destruct (heap q !! r) as [b|]; [|done]. simpl. f_equal.
  unfold settled. by rewrite undone_idle, completed_idle.
Qed.

Lemma initial_good q x (r : U) : ready c0 n0 q 0 [] → good (rwq_initial q x r).
Proof.
  intros ((pre & t & idle & Hr & Hc) & He & Hd). exists 0%nat, pre, t, idle.
  constructor; simpl; try done.
  - constructor; [|done]. simpl. by rewrite view_idle.
  - rewrite <- Hc. constructor.
Qed.

Lemma idle_ready m leaked pre t idle :
  minv m leaked pre t idle → producing (producer_ m) = false → consuming (consumer_ m) = false →
  ready c0 n0 (queue m) leaked (contents pre t) ∧ fifo (history m) (contents pre t).
Proof.
  intros Hi Hp Hc. pose proof (i_fifo _ _ _ _ _ _ _ _ Hi) as Hf. rewrite in_hand_idle in Hf by done.
  split; [|done]. destruct (i_state _ _ _ _ _ _ _ _ Hi) as [Hr Hfl]. split; [|done].
  rewrite view_idle, pending_idle, Nat.add_0_r in Hr by done. by exists pre, t, idle.
Qed.
End machine.
