(* ===== verification/RwqConcurrentTheorems.v ===== *)
(** * ReaderWriterQueue with two threads: the properties *)
From stdpp Require Import gmap.
From S2P Require Import Prelude Lifetime ReaderWriterQueue RwqBlocks RwqRing RwqOps.
From S2P Require Import RwqLifecycle RwqTheorems RwqConcurrent RwqView RwqProducer.
From S2P Require Import RwqConsumerThread RwqThreads.

#[local] Open Scope Z_scope.

(** ** Bounds on the length of a call

    How many accesses a thread has still to make, at most. *)
Definition p_rank {X T} (s : producer X T) : nat :=
  match s with
  | PIdle | PDone _ | PThrew _ => 0
  | PPublish _ _ _ _ | PNextPublish _ _ _ | PNewPublish _ _ _ _ => 1
  | PConstruct _ _ _ _ | PNextStore _ _ _ | PLink _ _ _ _ => 2
  | PNextConstruct _ _ _ | PNewNext _ _ _ => 3
  | PNextTail _ _ _ | PNewStore _ _ _ => 4
  | PNextFront _ _ | PNewConstruct _ _ _ => 5
  | PNextAgain _ _ | PMake _ _ => 6
  | PCompare _ _ _ _ => 7
  | PNext _ _ _ => 8
  | PFront _ _ _ _ _ => 9
  | PTail _ _ _ => 10
  | PStart _ _ => 11
  end.

Definition c_rank {X T} (s : consumer X T) : nat :=
  match s with
  | CIdle | CDone _ | CPeeked _ | CThrew _ => 0
  | CStore _ _ _ => 1
  | CTake _ _ _ => 2
  | CAdvance _ _ _ => 3
  | CNextTail _ _ _ => 4
  | CNextFront _ _ => 5
  | CNext _ _ => 6
  | CAgainFront _ _ _ => 7
  | CAgainTail _ _ => 8
  | CAgain _ => 9
  | CCompare _ _ => 10
  | CReload _ _ _ => 11
  | CFront _ _ => 12
  | CStart _ => 13
  end.

Lemma p_rank_bound {X T} (s : producer X T) : (p_rank s ≤ 11)%nat.
Proof. destruct s; simpl; lia. Qed.

Lemma c_rank_bound {X T} (s : consumer X T) : (c_rank s ≤ 13)%nat.
Proof. destruct s; simpl; lia. Qed.

(** The results a computation can return. *)
Definition yields {X S A} (m : M X S A) (P : A → Prop) : Prop :=
  ∀ s s' a, m s = Ok (s', Returns a) → P a.

Section yields.
Context {X S A B : Type}.

Lemma yields_ret (a : A) P : P a → yields (mret a : M X S A) P.
Proof. by intros HP s s' b [= _ <-]. Qed.

Lemma yields_fail f (P : A → Prop) : yields (fail f : M X S A) P.
Proof. done. Qed.

Lemma yields_bind (m : M X S A) (k : A → M X S B) P :
  (∀ a, yields (k a) P) → yields (mbind k m) P.
Proof.
  intros Hk s s' b. unfold mbind, M_bind.
  destruct (m s) as [[s1 [a|x]]|f]; [apply Hk|done|done].
Qed.
End yields.

Ltac yields_tac :=
  repeat first [apply yields_bind; intros ? | apply yields_ret | apply yields_fail | case_match].

(** Steps of one thread that stay in a call, between any steps of the other. *)
Inductive own_steps {A} (own other : A → A → Prop) : nat → A → A → Prop :=
  | own_none m : own_steps own other 0 m m
  | own_one n m m' m'' : own m m' → own_steps own other n m' m'' → own_steps own other (S n) m m''
  | own_wait n m m' m'' : other m m' → own_steps own other n m' m'' → own_steps own other n m m''.

Lemma own_steps_bound {A} (own other : A → A → Prop) (rank : A → nat) :
  (∀ m m', own m m' → (rank m' < rank m)%nat) → (∀ m m', other m m' → rank m' = rank m) →
  ∀ n m m', own_steps own other n m m' → (n ≤ rank m)%nat.
Proof.
  intros Hown Hother n m m'. induction 1 as [m|n m m' m'' Hm _ IH|n m m' m'' Hm _ IH]; [lia| |].
  - specialize (Hown _ _ Hm). lia.
  - rewrite <- (Hother _ _ Hm). lia.
Qed.

Section threads.
Context {X T U : Type} `{!CppType X T}.
Context (MAX_BLOCK_SIZE : Z) (ndebug : bool) (malloc : nat → Z → bool) (bad_alloc : X).
Context (sizeof_B alignof_B sizeof_T alignof_T : Z).
Context (assign_result : U → T → U * T * completion X unit).
#[local] Abbreviation producer_moves :=
  (producer_moves (X := X) (T := T) (U := U) MAX_BLOCK_SIZE ndebug malloc sizeof_B alignof_B
     sizeof_T alignof_T).
#[local] Abbreviation consumer_moves :=
  (consumer_moves (X := X) (T := T) (U := U) ndebug assign_result).
#[local] Abbreviation producer_step :=
  (producer_step (X := X) (T := T) MAX_BLOCK_SIZE ndebug malloc sizeof_B alignof_B
     sizeof_T alignof_T).
#[local] Abbreviation consumer_step := (consumer_step (X := X) ndebug assign_result).

(** A queue made for [maxSize] elements, and what two threads have done with it. *)
Definition rwq_reachable (maxSize : Z) (m : machine X T U) : Prop :=
  ∃ q x r,
    queue_ctor MAX_BLOCK_SIZE ndebug malloc bad_alloc sizeof_B alignof_B sizeof_T alignof_T
      maxSize raw_queue = Ok (q, Returns tt) ∧
    rtc (rwq_step MAX_BLOCK_SIZE ndebug malloc sizeof_B alignof_B sizeof_T alignof_T
           assign_result) (rwq_initial q x r) m.

Lemma reachable_good maxSize m :
  cap_ok MAX_BLOCK_SIZE → MAX_BLOCK_SIZE ≤ 2 ^ 61 → 1 ≤ maxSize ≤ 2 ^ 62 →
  rwq_reachable maxSize m →
  ∃ c0 n0, 1 ≤ c0 ∧ maxSize ≤ capacity c0 n0 ∧ good malloc c0 n0 m.
Proof.
  intros Hmax Hfits Hsize (q & x & r & Hmake & Hsteps).
  pose proof (queue_ctor_runs (T := T) MAX_BLOCK_SIZE ndebug malloc bad_alloc sizeof_B
    alignof_B sizeof_T alignof_T Hmax Hfits maxSize Hsize) as Hctor.
  unfold runs in Hctor. rewrite Hmake in Hctor. destruct Hctor as (c0 & n0 & Hc0 & Hroom & Hq).
  exists c0, n0. split_and!; [done..|]. eapply steps_good; [done..| |exact Hsteps].
  by apply initial_good.
Qed.

(** A step of a thread that is in a call and stays in it. *)
Definition producer_call (m m' : machine X T U) : Prop :=
  producing (producer_ m) = true ∧ producer_moves m m'.
Definition consumer_call (m m' : machine X T U) : Prop :=
  consuming (consumer_ m) = true ∧ consumer_moves m m'.

Lemma producer_step_rank (s : producer X T) :
  yields (producer_step s) (λ s', (p_rank s' < p_rank s)%nat).
Proof. destruct s; simpl; yields_tac; simpl; lia. Qed.

Lemma consumer_step_rank (s : consumer X T) :
  yields (consumer_step s) (λ s', (c_rank s' < c_rank s)%nat).
Proof. destruct s as [|k| | |k| |k| | |k| | |k| | | |]; simpl; yields_tac; simpl; try lia; destruct k; simpl; lia. Qed.

Lemma producer_call_rank m m' :
  producer_call m m' → (p_rank (producer_ m') < p_rank (producer_ m))%nat.
Proof.
  intros [Hp Hm]. destruct Hm as [a c x H|q' x' s' H|q' x' e H|H]; simpl.
  - by rewrite H in Hp.
  - by apply producer_step_rank in H.
  - destruct (producer_ m); simpl in *; try lia; done.
  - congruence.
Qed.

Lemma consumer_call_rank m m' :
  consumer_call m m' → (c_rank (consumer_ m') < c_rank (consumer_ m))%nat.
Proof.
  intros [Hp Hm]. destruct Hm as [k r H|q' r' s' H|q' r' e H|H]; simpl.
  - by rewrite H in Hp.
  - by apply consumer_step_rank in H.
  - destruct (consumer_ m); simpl in *; try lia; done.
  - congruence.
Qed.

Lemma consumer_keeps_producer m m' : consumer_moves m m' → producer_ m' = producer_ m.
Proof. by destruct 1. Qed.

Lemma producer_keeps_consumer m m' : producer_moves m m' → consumer_ m' = consumer_ m.
Proof. by destruct 1. Qed.
End threads.

(** ** The properties *)

(** The elements that are in the queue, and what the two threads are told about them. *)
Record fifo_answers {X T U} (malloc : nat → Z → bool) (maxSize : Z) (m : machine X T U)
    (items : list T) : Prop := {
  fa_history : fifo (history m) items;
  fa_take k p i : consumer_ m = CTake k p i →
    ∃ x rest, items = x :: rest ∧ pointee (queue m) (p, i) = Some x;
  fa_peek a : consumer_ m = CPeeked (Some a) →
    ∃ x rest, items = x :: rest ∧ pointee (queue m) a = Some x;
  fa_none : consumer_ m = CDone false ∨ consumer_ m = CPeeked None →
    happened (history m) (c_since m) (.= []);
  fa_full : producer_ m = PDone false →
    happened (history m) (p_since m) (λ items, maxSize ≤ zlen items) ∧
    (can_alloc m = true → out_of_memory malloc);
  fa_idle : producing (producer_ m) = false → consuming (consumer_ m) = false →
    size_approx (X := X) (queue m) = Ok (queue m, Returns (u64 (zlen items))) ∧
    ∃ q', queue_dtor (X := X) (queue m) = Ok (q', Returns tt) ∧ lost q' = 0%nat ∧
          (size (heap q') ≤ throws m)%nat
}.

Lemma happened_mono {T} (l : list (event T)) since (P P' : list T → Prop) :
  (∀ items, P items → P' items) → happened l since P → happened l since P'.
Proof. intros HP (n & items & ? & ? & ?). exists n, items. auto. Qed.

Section answers.
Context {X T U : Type} `{!CppType X T}.
Context (malloc : nat → Z → bool) (c0 n0 : Z).

(** The element the consumer is about to take. *)
Lemma taken_element (m : machine X T U) leaked pre t idle k p i :
  minv malloc c0 n0 m leaked pre t idle → consumer_ m = CTake k p i →
  ∃ x rest, contents pre t = x :: rest ∧ pointee (queue m) (p, i) = Some x.
Proof.
  intros Hi Hk. pose proof (i_consumer _ _ _ _ _ _ _ _ Hi) as Hc. rewrite Hk in Hc.
  destruct Hc as (_ & -> & b & Hb & <- & Hne).
  destruct (first_element malloc c0 n0 _ _ _ (consumer_ m) (queue m) leaked pre t idle b
    (i_producer _ _ _ _ _ _ _ _ Hi) (i_state _ _ _ _ _ _ _ _ Hi) ltac:(by rewrite Hk) Hb Hne)
    as (x & xs & _ & _ & _ & Hx & _ & _ & Hslot).
  exists x, (xs ++ back_items pre t). split; [by rewrite contents_front, Hx|].
  apply undone_slot in Hslot.
  unfold pointee. simpl. rewrite Hb. simpl. by rewrite Hslot.
Qed.

Lemma good_answers maxSize (m : machine X T U) :
  maxSize ≤ capacity c0 n0 → good malloc c0 n0 m → ∃ items, fifo_answers malloc maxSize m items.
Proof.
  intros Hroom (leaked & pre & t & idle & Hi).
  pose proof Hi as [Hs Hl Hf _ Hp Hc]. exists (in_hand (consumer_ m) ++ contents pre t).
  constructor; [done|..].
  - intros k p i Hk. rewrite Hk. simpl. by eapply taken_element.
  - intros a Ha. rewrite Ha in Hc |- *. destruct Hc as (Hne & Hx). rewrite Hx. simpl.
    destruct (contents pre t) as [|x rest]; [done|]. by exists x, rest.
  - intros [Ha|Ha]; rewrite Ha in Hc; auto.
  - intros Ha. rewrite Ha in Hp. destruct (Hp eq_refl) as [Hfull Hmem]. split; [|exact Hmem].
    revert Hfull. apply happened_mono. intros items. unfold capacity in Hroom. lia.
  - intros Hpi Hci. destruct (idle_ready malloc c0 n0 m _ _ _ _ Hi Hpi Hci) as [[Hq _] _].
    rewrite in_hand_idle by done. simpl. split; [by eapply size_approx_runs|].
    destruct (queue_dtor_runs (X := X) c0 n0 _ _ _ Hq) as (q' & Hd & Hsize & Hlost).
    exists q'. split_and!; [done..|lia].
Qed.
End answers.

Section safety.
Context {X T U : Type} `{!CppType X T}.
Context (MAX_BLOCK_SIZE : Z) (ndebug : bool) (malloc : nat → Z → bool).
Context (sizeof_B alignof_B sizeof_T alignof_T : Z).
Context (assign_result : U → T → U * T * completion X unit).
Context (c0 n0 : Z) (Hmax : cap_ok MAX_BLOCK_SIZE) (Hc0 : 1 ≤ c0).
#[local] Abbreviation producer_step :=
  (producer_step (X := X) (T := T) MAX_BLOCK_SIZE ndebug malloc sizeof_B alignof_B
     sizeof_T alignof_T).
#[local] Abbreviation consumer_step := (consumer_step (X := X) ndebug assign_result).
Implicit Types m : machine X T U.

Lemma runs_ok {S A} (c : M X S A) s Q Qt : runs c s Q Qt never → ∃ o, c s = Ok o.
Proof. unfold runs. destruct (c s) as [o|]; [by exists o|done]. Qed.

Lemma good_steps m :
  good malloc c0 n0 m →
  (producing (producer_ m) = true →
     ∃ o, producer_step (producer_ m) (queue m, element m) = Ok o) ∧
  (consuming (consumer_ m) = true →
     ∃ o, consumer_step (consumer_ m) (queue m, result_ m) = Ok o).
Proof using Hmax Hc0.
  intros (leaked & pre & t & idle & Hi). split; intros Hp; eapply runs_ok.
  - by eapply producer_runs.
  - by eapply consumer_runs.
Qed.

Lemma good_lost m : good malloc c0 n0 m → lost (queue m) = 0%nat.
Proof.
  intros (leaked & pre & t & idle & Hi).
  apply (r_lost _ _ _ _ _ _ _ (s_ring _ _ _ _ _ _ _ _ _ (i_state _ _ _ _ _ _ _ _ Hi))).
Qed.

Lemma good_slots m s s' :
  good malloc c0 n0 m → p_slot (producer_ m) = Some s → c_slot (consumer_ m) = Some s' → s ≠ s'.
Proof.
  intros (leaked & pre & t & idle & Hi) Hs Hs' <-. destruct s as [p i].
  assert (∃ b, heap (queue m) !! p = Some b ∧ slot_at i b = Ok None) as (b & Hb & Hslot).
  { eapply constructing; [apply Hi|apply Hi|apply Hi|exact Hs]. }
  assert (Hnone : pointee (queue m) (p, i) = None).
  { unfold pointee. simpl. rewrite Hb. simpl. by rewrite Hslot. }
  pose proof (i_consumer _ _ _ _ _ _ _ _ Hi) as Hc.
  destruct (consumer_ m) eqn:Hk; simpl in Hs'; try discriminate Hs'.
  - injection Hs' as -> ->. destruct (taken_element _ _ _ _ _ _ _ _ _ _ _ Hi Hk) as (x & _ & _ & Hx).
    congruence.
  - subst a. destruct Hc as (Hne & Hx). rewrite Hnone in Hx. by destruct (contents pre t).
Qed.
End safety.

(** C5: Two threads, one that enqueues and one that dequeues, pops and peeks, see a FIFO
    queue however their accesses to the memory interleave.  At any moment the history is
    that of a FIFO list; the element the consumer takes, and the one [peek] returns the
    address of, is the first of the list.  A consumer that is told that there is none, and
    a producer that is told that there is no room, was told so truly at some moment
    during the call: the list was empty, or had [maxSize] elements (and malloc refused,
    if the call could allocate).  When both threads are outside the queue [size_approx]
    is exact, and the destructor destroys every element and frees every block, up to one
    for each enqueue that ended with an exception. *)
Theorem rwq_threads_fifo {X T U : Type} `{!CppType X T} (MAX_BLOCK_SIZE : Z)
    (Hmax : cap_ok MAX_BLOCK_SIZE) (Hfits : MAX_BLOCK_SIZE ≤ 2 ^ 61) (ndebug : bool)
    (malloc : nat → Z → bool) (bad_alloc : X) (sizeof_B alignof_B sizeof_T alignof_T : Z)
    (assign_result : U → T → U * T * completion X unit) (maxSize : Z)
    (Hsize : 1 ≤ maxSize ≤ 2 ^ 62) (m : machine X T U)
    (Hm : rwq_reachable MAX_BLOCK_SIZE ndebug malloc bad_alloc sizeof_B alignof_B sizeof_T
            alignof_T assign_result maxSize m) :
  ∃ items, fifo_answers malloc maxSize m items.
Proof.
  destruct (reachable_good _ _ _ _ _ _ _ _ _ _ _ Hmax Hfits Hsize Hm)
    as (c0 & n0 & _ & Hroom & Hgood).
  by eapply good_answers.
Qed.

(** C7: Every access two such threads make is sound: a thread in a call can make its next
    step without fault (a block that does not exist, an index out of bounds, a slot
    without an object or with one already, an assertion that fails in a debug build), no
    object loses its memory, and the slot the producer constructs an object in is never
    the one the consumer reads. *)
Theorem rwq_threads_safe {X T U : Type} `{!CppType X T} (MAX_BLOCK_SIZE : Z)
    (Hmax : cap_ok MAX_BLOCK_SIZE) (Hfits : MAX_BLOCK_SIZE ≤ 2 ^ 61) (ndebug : bool)
    (malloc : nat → Z → bool) (bad_alloc : X) (sizeof_B alignof_B sizeof_T alignof_T : Z)
    (assign_result : U → T → U * T * completion X unit) (maxSize : Z)
    (Hsize : 1 ≤ maxSize ≤ 2 ^ 62) (m : machine X T U)
    (Hm : rwq_reachable MAX_BLOCK_SIZE ndebug malloc bad_alloc sizeof_B alignof_B sizeof_T
            alignof_T assign_result maxSize m) :
  (producing (producer_ m) = true →
     ∃ o, producer_step MAX_BLOCK_SIZE ndebug malloc sizeof_B alignof_B sizeof_T alignof_T
            (producer_ m) (queue m, element m) = Ok o) ∧
  (consuming (consumer_ m) = true →
     ∃ o, consumer_step ndebug assign_result (consumer_ m) (queue m, result_ m) = Ok o) ∧
  lost (queue m) = 0%nat ∧
  (∀ s s', p_slot (producer_ m) = Some s → c_slot (consumer_ m) = Some s' → s ≠ s').
Proof.
  destruct (reachable_good _ _ _ _ _ _ _ _ _ _ _ Hmax Hfits Hsize Hm)
    as (c0 & n0 & Hc0 & _ & Hgood).
  destruct (good_steps MAX_BLOCK_SIZE ndebug malloc sizeof_B alignof_B sizeof_T alignof_T
    assign_result c0 n0 Hmax Hc0 m Hgood).
  split_and!; [done..|by eapply good_lost|]. intros s s'. by eapply good_slots.
Qed.

(** C33: The queue is wait-free: whatever the other thread does in between, a call of
    the producer is over after at most 11 accesses of its own and one of the consumer
    after at most 13, and until then the thread has a step to make. *)
Theorem rwq_wait_free {X T U : Type} `{!CppType X T} (MAX_BLOCK_SIZE : Z)
    (Hmax : cap_ok MAX_BLOCK_SIZE) (Hfits : MAX_BLOCK_SIZE ≤ 2 ^ 61) (ndebug : bool)
    (malloc : nat → Z → bool) (bad_alloc : X) (sizeof_B alignof_B sizeof_T alignof_T : Z)
    (assign_result : U → T → U * T * completion X unit) (maxSize : Z)
    (Hsize : 1 ≤ maxSize ≤ 2 ^ 62) (m : machine X T U)
    (Hm : rwq_reachable MAX_BLOCK_SIZE ndebug malloc bad_alloc sizeof_B alignof_B sizeof_T
            alignof_T assign_result maxSize m) :
  let p_moves := producer_moves MAX_BLOCK_SIZE ndebug malloc sizeof_B alignof_B sizeof_T
                   alignof_T in
  let c_moves := consumer_moves ndebug assign_result in
  let p_call := producer_call MAX_BLOCK_SIZE ndebug malloc sizeof_B alignof_B sizeof_T
                  alignof_T in
  let c_call := consumer_call ndebug assign_result in
  (∀ n m', own_steps p_call c_moves n m m' → (n ≤ 11)%nat) ∧
  (∀ n m', own_steps c_call p_moves n m m' → (n ≤ 13)%nat) ∧
  (producing (producer_ m) = true → ∃ m', p_moves m m') ∧
  (consuming (consumer_ m) = true → ∃ m', c_moves m m').
Proof.
  cbv zeta. destruct (reachable_good _ _ _ _ _ _ _ _ _ _ _ Hmax Hfits Hsize Hm)
    as (c0 & n0 & Hc0 & _ & Hgood).
  destruct (good_steps MAX_BLOCK_SIZE ndebug malloc sizeof_B alignof_B sizeof_T alignof_T
    assign_result c0 n0 Hmax Hc0 m Hgood) as [Hp Hc].
  split_and!.
  - intros n m' Hs. etransitivity; [|by apply (p_rank_bound (producer_ m))].
    eapply own_steps_bound with (rank := λ m, p_rank (producer_ m)); [| |exact Hs].
    + intros. by eapply producer_call_rank.
    + intros ?? Hk. by erewrite consumer_keeps_producer.
  - intros n m' Hs. etransitivity; [|by apply (c_rank_bound (consumer_ m))].
    eapply own_steps_bound with (rank := λ m, c_rank (consumer_ m)); [| |exact Hs].
    + intros. by eapply consumer_call_rank.
    + intros ?? Hk. by erewrite producer_keeps_consumer.
  - intros Hb. destruct (Hp Hb) as [[[q' x'] [s'|e]] Hstep]; eexists.
    + by eapply step_produce.
    + by eapply step_produce_throws.
  - intros Hb. destruct (Hc Hb) as [[[q' r'] [s'|e]] Hstep]; eexists.
    + by eapply step_consume.
    + by eapply step_consume_throws.
Qed.

(** ** Schedules: the machine, executed *)
Inductive command (T U : Type) :=
  | CallEnqueue (a : bool) (c : category) (x : T)
  | CallDequeue (k : request) (r : U)
  | StepProducer
  | StepConsumer
  | ReturnProducer
  | ReturnConsumer.
Arguments CallEnqueue {T U} _ _ _.
Arguments CallDequeue {T U} _ _.
Arguments StepProducer {T U}.
Arguments StepConsumer {T U}.
Arguments ReturnProducer {T U}.
Arguments ReturnConsumer {T U}.

Section schedules.
Context {X T U : Type} `{!CppType X T}.
Context (MAX_BLOCK_SIZE : Z) (ndebug : bool) (malloc : nat → Z → bool).
Context (sizeof_B alignof_B sizeof_T alignof_T : Z).
Context (assign_result : U → T → U * T * completion X unit).

Definition with_producer (m : machine X T U) q x s (sent : list T) (thrown : nat) : machine X T U :=
  Machine q x (result_ m) s (consumer_ m) (history m ++ (Sent <$> sent)) (p_since m) (c_since m)
    (can_alloc m) (thrown + throws m).

Definition execute (o : command T U) (m : machine X T U) : option (machine X T U) :=
  match o with
  | CallEnqueue a c x =>
      match producer_ m with
      | PIdle => Some (Machine (queue m) x (result_ m) (PStart a c) (consumer_ m) (history m)
                         (length (history m)) (c_since m) a (throws m))
      | _ => None
      end
  | CallDequeue k r =>
      match consumer_ m with
      | CIdle => Some (Machine (queue m) (element m) r (producer_ m) (CStart k) (history m)
                         (p_since m) (length (history m)) (can_alloc m) (throws m))
      | _ => None
      end
  | StepProducer =>
      match producer_step MAX_BLOCK_SIZE ndebug malloc sizeof_B alignof_B sizeof_T alignof_T
              (producer_ m) (queue m, element m) with
      | Ok ((q', x'), Returns s') =>
          Some (Machine q' x' (result_ m) s' (consumer_ m)
                  (history m ++ (Sent <$> newly_sent (producer_ m))) (p_since m) (c_since m)
                  (can_alloc m) (throws m))
      | Ok ((q', x'), Throws e) =>
          Some (Machine q' x' (result_ m) (PThrew e) (consumer_ m) (history m)
                  (p_since m) (c_since m) (can_alloc m) (S (throws m)))
      | Err _ => None
      end
  | StepConsumer =>
      match consumer_step ndebug assign_result (consumer_ m) (queue m, result_ m) with
      | Ok ((q', r'), Returns s') =>
          Some (Machine q' (element m) r' (producer_ m) s'
                  (history m ++ (Received <$> newly_received (consumer_ m)))
                  (p_since m) (c_since m) (can_alloc m) (throws m))
      | Ok ((q', r'), Throws e) =>
          Some (Machine q' (element m) r' (producer_ m) (CThrew e)
                  (history m ++ (Kept <$> left_in_place q' (consumer_ m)))
                  (p_since m) (c_since m) (can_alloc m) (throws m))
      | Err _ => None
      end
  | ReturnProducer =>
      if producing (producer_ m) then None
      else Some (Machine (queue m) (element m) (result_ m) PIdle (consumer_ m) (history m)
                   (p_since m) (c_since m) (can_alloc m) (throws m))
  | ReturnConsumer =>
      if consuming (consumer_ m) then None
      else Some (Machine (queue m) (element m) (result_ m) (producer_ m) CIdle (history m)
                   (p_since m) (c_since m) (can_alloc m) (throws m))
  end.

Fixpoint execute_all (l : list (command T U)) (m : machine X T U) : option (machine X T U) :=
  match l with [] => Some m | o :: l => execute o m ≫= execute_all l end.

Lemma execute_step o m m' :
  execute o m = Some m' →
  rwq_step MAX_BLOCK_SIZE ndebug malloc sizeof_B alignof_B sizeof_T alignof_T assign_result m m'.
Proof.
  destruct o as [a c x|k r| | | |]; simpl; intros He.
  - left. destruct (producer_ m) eqn:Hp; try done. injection He as <-. by apply step_call_enqueue.
  - right. destruct (consumer_ m) eqn:Hc; try done. injection He as <-. by apply step_call_dequeue.
  - left. repeat case_match; try done; injection He as <-; [by eapply step_produce|].
    by eapply step_produce_throws.
  - right. repeat case_match; try done; injection He as <-; [by eapply step_consume|].
    by eapply step_consume_throws.
  - left. case_match; [done|]. injection He as <-. by apply step_enqueue_returns.
  - right. case_match; [done|]. injection He as <-. by apply step_dequeue_returns.
Qed.

Lemma execute_all_steps l m m' :
  execute_all l m = Some m' →
  rtc (rwq_step MAX_BLOCK_SIZE ndebug malloc sizeof_B alignof_B sizeof_T alignof_T
         assign_result) m m'.
Proof.
  revert m. induction l as [|o l IH]; simpl; intros m He; [by injection He as <-|].
  destruct (execute o m) as [m1|] eqn:Ho; [|done]. eapply rtc_l; [|by apply IH].
  by eapply execute_step.
Qed.
End schedules.

(** A queue of numbers with blocks of four slots, made for three elements. *)
#[local] Existing Instance Demo.number.

Module Threads.
#[local] Abbreviation state := (machine nat nat nat).

Definition run (l : list (command nat nat)) : option state :=
  execute_all 4 false Demo.plenty 64 8 4 4 move_assign l (rwq_initial Demo.fresh 0%nat 0%nat).

Definition reachable (m : state) : Prop :=
  rwq_reachable (X := nat) 4 false Demo.plenty 99%nat 64 8 4 4 move_assign 3 m.

Lemma run_reachable l m : run l = Some m → reachable m.
Proof.
  intros He. exists Demo.fresh, 0%nat, 0%nat. split; [vm_compute; reflexivity|].
  by eapply execute_all_steps.
Qed.

Definition stuck : state := rwq_initial raw_queue 0%nat 0%nat.
Definition after (l : list (command nat nat)) : state := default stuck (run l).

Definition produce (n : nat) : list (command nat nat) := replicate n StepProducer.
Definition consume (n : nat) : list (command nat nat) := replicate n StepConsumer.
Definition send (a : bool) (x : nat) (n : nat) : list (command nat nat) :=
  CallEnqueue a Lvalue x :: produce n ++ [ReturnProducer].

(** Three elements fill the block; the fourth goes into a new block, while the consumer
    dequeues. *)
Definition meanwhile : list (command nat nat) :=
  send false 1%nat 4 ++ send false 2%nat 4 ++ send false 3%nat 4 ++
  [CallDequeue TryDequeue 0%nat; CallEnqueue true Lvalue 4%nat] ++ consume 3 ++ produce 11.
Definition state1 : state := after meanwhile.

(** The block is full when [try_enqueue] looks, the consumer has taken the first element
    when it says so. *)
Definition refused : list (command nat nat) :=
  send false 1%nat 4 ++ send false 2%nat 4 ++ send false 3%nat 4 ++
  [CallDequeue Pop 0%nat; CallEnqueue false Lvalue 4%nat] ++ consume 3 ++ produce 3 ++
  consume 2 ++ produce 2.
Definition state2 : state := after refused.

(** One thread is about to construct an element, the other to read one. *)
Definition both_at_slots : list (command nat nat) :=
  send false 1%nat 4 ++ send false 2%nat 4 ++
  [CallDequeue TryDequeue 0%nat; CallEnqueue false Rvalue 3%nat; StepProducer; StepConsumer;
   StepProducer; StepConsumer; StepConsumer].
Definition state3 : state := after both_at_slots.
End Threads.

Lemma rwq_threads_fifo_witness :
  (∃ items, fifo_answers Demo.plenty 3 Threads.state1 items) ∧
  (∃ items, fifo_answers Demo.plenty 3 Threads.state2 items) ∧
  history Threads.state1 = [Sent 1; Sent 2; Sent 3; Sent 4]%nat ∧
  consumer_ Threads.state1 = CTake TryDequeue 1 0 ∧
  history Threads.state2 = [Sent 1; Sent 2; Sent 3; Received 1]%nat ∧
  producer_ Threads.state2 = PDone false.
Proof.
  split_and!; [| |vm_compute; reflexivity..].
  - apply (rwq_threads_fifo 4 Demo.four_ok ltac:(lia) false Demo.plenty 99%nat 64 8 4 4
      move_assign 3 ltac:(lia) Threads.state1).
    apply (Threads.run_reachable Threads.meanwhile). vm_compute. reflexivity.
  - apply (rwq_threads_fifo 4 Demo.four_ok ltac:(lia) false Demo.plenty 99%nat 64 8 4 4
      move_assign 3 ltac:(lia) Threads.state2).
    apply (Threads.run_reachable Threads.refused). vm_compute. reflexivity.
Defined.

Lemma rwq_threads_safe_witness :
  (∃ o, producer_step 4 false Demo.plenty 64 8 4 4 (producer_ Threads.state3)
          (queue Threads.state3, element Threads.state3) = Ok o) ∧
  lost (queue Threads.state3) = 0%nat ∧
  p_slot (producer_ Threads.state3) = Some (1%nat, 2) ∧
  c_slot (consumer_ Threads.state3) = Some (1%nat, 0).
Proof.
  destruct (rwq_threads_safe 4 Demo.four_ok ltac:(lia) false Demo.plenty 99%nat 64 8 4 4
    move_assign 3 ltac:(lia) Threads.state3) as (Hp & _ & Hl & _).
  { apply (Threads.run_reachable Threads.both_at_slots). vm_compute. reflexivity. }
  split_and!; [apply Hp; vm_compute; reflexivity|exact Hl|vm_compute; reflexivity..].
Defined.

Lemma rwq_wait_free_witness :
  (∀ n m', own_steps (consumer_call false move_assign)
             (producer_moves 4 false Demo.plenty 64 8 4 4) n Threads.state3 m' → (n ≤ 13)%nat) ∧
  (∃ m', consumer_moves false move_assign Threads.state3 m').
Proof.
  destruct (rwq_wait_free 4 Demo.four_ok ltac:(lia) false Demo.plenty 99%nat 64 8 4 4
    move_assign 3 ltac:(lia) Threads.state3) as (_ & Hc & _ & Hs).
  { apply (Threads.run_reachable Threads.both_at_slots). vm_compute. reflexivity. }
  split; [exact Hc|]. apply Hs. vm_compute. reflexivity.
Defined.
