(* ===== verification/FreeList.v ===== *)
(** * The free list of moodycamel::ConcurrentQueue

    [FreeList] of concurrentqueue.h, a stack of nodes for any number of threads.  A node
    carries the count of the threads that look at it, [freeListRefs], whose top bit
    says that it is to be put on the list, and its successor.  [add], [try_get] and
    [add_knowing_refcount_is_zero] as one thread executes them, then split at their
    accesses to memory; the accesses are sequentially consistent.  Nodes are never freed
    as long as the list is in use, so an address is a key of a map for good; 0 is the
    null pointer. *)
From stdpp Require Import gmap.
From S2P Require Import Prelude Lifetime.

#[local] Open Scope Z_scope.

(** [N] inherits from [FreeListNode] or has the same fields. *)
Class FreeListNode (N : Type) := {
  freeListRefs : N → Z;
  freeListNext : N → nat;
  set_refs : Z → N → N;
  set_free_next : nat → N → N;
  refs_set_refs r n : freeListRefs (set_refs r n) = r;
  refs_set_next p n : freeListRefs (set_free_next p n) = freeListRefs n;
  next_set_refs r n : freeListNext (set_refs r n) = freeListNext n;
  next_set_next p n : freeListNext (set_free_next p n) = p
}.

(** The nodes, and the member of the list. *)
Record FreeList (N : Type) := mkFreeList {
  nodes : gmap nat N;
  freeListHead : nat
}.
Arguments mkFreeList {N} _ _.
Arguments nodes {N} _.
Arguments freeListHead {N} _.

Definition REFS_MASK : Z := 0x7FFFFFFF.
Definition SHOULD_BE_ON_FREELIST : Z := 0x80000000.

Section accesses.
Context {X N : Type} `{!FreeListNode N}.
#[local] Abbreviation L := (FreeList N).

Definition load_head : M X L nat := gets freeListHead.

Definition load_node (p : nat) : M X L N := fun f =>
  match nodes f !! p with Some n => Ok (f, Returns n) | None => Err use_after_free end.

Definition store_node (p : nat) (n : N) : M X L unit :=
  modify (fun f => mkFreeList (<[p := n]> (nodes f)) (freeListHead f)).

(** [node->freeListRefs.fetch_add(d)] and [fetch_sub], on 32 bits. *)
Definition fetch_add_refs (p : nat) (d : Z) : M X L Z :=
  n ← load_node p;
  store_node p (set_refs (u32 (freeListRefs n + d)) n) ;;
  mret (freeListRefs n).

Definition store_refs (p : nat) (r : Z) : M X L unit :=
  n ← load_node p; store_node p (set_refs r n).

Definition store_next (p : nat) (q : nat) : M X L unit :=
  n ← load_node p; store_node p (set_free_next q n).

(** [freeListHead.compare_exchange_strong(expected, desired)]: whether it took place, and
    the value it found. *)
Definition cas_head (expected desired : nat) : M X L (bool * nat) :=
  head ← load_head;
  if bool_decide (head = expected) then
    modify (fun f => mkFreeList (nodes f) desired) ;; mret (true, head)
  else mret (false, head).

(** [head->freeListRefs.compare_exchange_strong(refs, refs + 1)] *)
Definition cas_refs (p : nat) (refs : Z) : M X L bool :=
  n ← load_node p;
  if freeListRefs n =? refs then store_node p (set_refs (u32 (refs + 1)) n) ;; mret true
  else mret false.

Definition check_taken (ndebug : bool) (p : nat) : M X L unit :=
  n ← load_node p;
  if cassert ndebug (Z.land (freeListRefs n) SHOULD_BE_ON_FREELIST =? 0) is Err f
  then fail f else mret tt.
End accesses.

(** ** One thread *)
Section members.
Context {X N : Type} `{!FreeListNode N} (ndebug : bool).
#[local] Abbreviation L := (FreeList N).

(** The loop; [head] is the value [freeListHead] was last seen with. *)
Fixpoint push_loop (fuel : nat) (node head : nat) : M X L unit :=
  match fuel with
  | O => fail out_of_fuel
  | S fuel =>
      store_next node head ;;
      store_refs node 1 ;;
      '(done, head') ← cas_head head node;
      if (done : bool) then mret tt
      else
        refs ← fetch_add_refs node (SHOULD_BE_ON_FREELIST - 1);
        if refs =? 1 then push_loop fuel node head' else mret tt
  end.

Definition add_knowing_refcount_is_zero (fuel : nat) (node : nat) : M X L unit :=
  head ← load_head; push_loop fuel node head.

Definition add (fuel : nat) (node : nat) : M X L unit :=
  refs ← fetch_add_refs node SHOULD_BE_ON_FREELIST;
  if refs =? 0 then add_knowing_refcount_is_zero fuel node else mret tt.

Fixpoint get_loop (fuel : nat) (head : nat) : M X L nat :=
  match fuel with
  | O => fail out_of_fuel
  | S fuel =>
      if bool_decide (head = 0%nat) then mret 0%nat
      else
        n ← load_node head;
        taken ← (if Z.land (freeListRefs n) REFS_MASK =? 0 then mret false
                 else cas_refs head (freeListRefs n));
        if negb taken then (head' ← load_head; get_loop fuel head')
        else
          n' ← load_node head;
          '(done, head') ← cas_head head (freeListNext n');
          if (done : bool) then
            check_taken ndebug head ;;
            fetch_add_refs head (-2) ;;
            mret head
          else
            refs ← fetch_add_refs head (-1);
            (if refs =? SHOULD_BE_ON_FREELIST + 1 then add_knowing_refcount_is_zero fuel head
             else mret tt) ;;
            get_loop fuel head'
  end.

Definition try_get (fuel : nat) : M X L nat :=
  head ← load_head; get_loop fuel head.

Definition head_unsafe : M X L nat := load_head.
End members.

(** ** Several threads

    A constructor names the next access.  [k] says what follows
    [add_knowing_refcount_is_zero]: the return of [add], or the next round of [try_get]
    with the [head] it has. *)
Inductive after := AfterAdd | AfterGet (head : nat).

Inductive fl_thread :=
  | FIdle
  | FAdd (node : nat)                        (* node->freeListRefs.fetch_add *)
  | FPushHead (k : after) (node : nat)       (* freeListHead.load() *)
  | FPushNext (k : after) (node head : nat)  (* node->freeListNext.store(head) *)
  | FPushRefs (k : after) (node head : nat)  (* node->freeListRefs.store(1) *)
  | FPushCas (k : after) (node head : nat)   (* freeListHead.compare_exchange_strong *)
  | FPushBack (k : after) (node head : nat)  (* node->freeListRefs.fetch_add *)
  | FGetHead                                 (* freeListHead.load() *)
  | FGetRefs (head : nat)                    (* head->freeListRefs.load() *)
  | FGetTake (head : nat) (refs : Z)         (* head->freeListRefs.compare_exchange_strong *)
  | FGetNext (head : nat)                    (* head->freeListNext.load() *)
  | FGetCas (head next : nat)                (* freeListHead.compare_exchange_strong *)
  | FGetCheck (head : nat)                   (* assert(head->freeListRefs.load() ...) *)
  | FGetRelease (head : nat)                 (* head->freeListRefs.fetch_sub(2) *)
  | FGetDrop (prevHead head : nat)           (* prevHead->freeListRefs.fetch_sub(1) *)
  | FAdded
  | FGot (node : nat).

(** [while (head != nullptr)] *)
Definition get_round (head : nat) : fl_thread :=
  if bool_decide (head = 0%nat) then FGot 0 else FGetRefs head.

Definition resume (k : after) : fl_thread :=
  match k with AfterAdd => FAdded | AfterGet head => get_round head end.

Section steps.
Context {X N : Type} `{!FreeListNode N} (ndebug : bool).
#[local] Abbreviation L := (FreeList N).

Definition fl_step (s : fl_thread) : M X L fl_thread :=
  match s with
  | FAdd node =>
      refs ← fetch_add_refs node SHOULD_BE_ON_FREELIST;
      mret (if refs =? 0 then FPushHead AfterAdd node else FAdded)
  | FPushHead k node => head ← load_head; mret (FPushNext k node head)
  | FPushNext k node head => store_next node head ;; mret (FPushRefs k node head)
  | FPushRefs k node head => store_refs node 1 ;; mret (FPushCas k node head)
  | FPushCas k node head =>
      '(done, head') ← cas_head head node;
      mret (if (done : bool) then resume k else FPushBack k node head')
  | FPushBack k node head =>
      refs ← fetch_add_refs node (SHOULD_BE_ON_FREELIST - 1);
      mret (if refs =? 1 then FPushNext k node head else resume k)
  | FGetHead => head ← load_head; mret (get_round head)
  | FGetRefs head =>
      n ← load_node head;
      mret (if Z.land (freeListRefs n) REFS_MASK =? 0 then FGetHead
            else FGetTake head (freeListRefs n))
  | FGetTake head refs =>
      taken ← cas_refs head refs;
      mret (if (taken : bool) then FGetNext head else FGetHead)
  | FGetNext head => n ← load_node head; mret (FGetCas head (freeListNext n))
  | FGetCas head next =>
      '(done, head') ← cas_head head next;
      mret (if (done : bool) then FGetCheck head else FGetDrop head head')
  | FGetCheck head => check_taken ndebug head ;; mret (FGetRelease head)
  | FGetRelease head => fetch_add_refs head (-2) ;; mret (FGot head)
  | FGetDrop prevHead head =>
      refs ← fetch_add_refs prevHead (-1);
      mret (if refs =? SHOULD_BE_ON_FREELIST + 1 then FPushHead (AfterGet head) prevHead
            else get_round head)
  | FIdle | FAdded | FGot _ => fail client_misuse
  end.
End steps.

Definition fl_running (s : fl_thread) : bool :=
  match s with FIdle | FAdded | FGot _ => false | _ => true end.

(** The threads, and the nodes that are in nobody's call and not on the list: the clients
    have them.  A thread adds one that the clients have, and what it gets is theirs. *)
Record fl_machine (N : Type) := FlMachine {
  free_list : FreeList N;
  threads : list fl_thread;
  held : gset nat
}.
Arguments FlMachine {N} _ _ _.
Arguments free_list {N} _.
Arguments threads {N} _.
Arguments held {N} _.

Definition fl_returned (s : fl_thread) : gset nat :=
  match s with FGot (S n) => {[S n]} | _ => ∅ end.

Inductive fl_moves {N : Type} `{!FreeListNode N} (ndebug : bool) (t : nat) (m : fl_machine N) :
    fl_machine N → Prop :=
  | fl_call_add node :
      threads m !! t = Some FIdle → node ∈ held m →
      fl_moves ndebug t m (FlMachine (free_list m) (<[t := FAdd node]> (threads m))
                             (held m ∖ {[node]}))
  | fl_call_get :
      threads m !! t = Some FIdle →
      fl_moves ndebug t m (FlMachine (free_list m) (<[t := FGetHead]> (threads m)) (held m))
  | fl_go s f' s' :
      threads m !! t = Some s →
      fl_step (X := Empty_set) ndebug s (free_list m) = Ok (f', Returns s') →
      fl_moves ndebug t m (FlMachine f' (<[t := s']> (threads m)) (held m))
  | fl_return s :
      threads m !! t = Some s → fl_running s = false →
      fl_moves ndebug t m (FlMachine (free_list m) (<[t := FIdle]> (threads m))
                             (held m ∪ fl_returned s)).

Definition fl_any {N : Type} `{!FreeListNode N} (ndebug : bool) (m m' : fl_machine N) : Prop :=
  ∃ t, fl_moves ndebug t m m'.

(** Nodes that have never been on the list, the list empty, the threads idle. *)
Definition fl_initial {N} `{!FreeListNode N} (ns : gmap nat N) (n : nat) : fl_machine N :=
  FlMachine (mkFreeList ns 0) (replicate n FIdle) (dom ns).
