(* ===== verification/FreeListInvariant.v ===== *)
(** * The free list of moodycamel::ConcurrentQueue: the invariant

    Every node has a [status]; the reference count of a node is what its status says
    plus the number of threads that are looking at it. *)
From stdpp Require Import gmap fin_maps.
From S2P Require Import Prelude Lifetime FreeList.

#[local] Open Scope Z_scope.

(** Where a node is; [t] is the thread it is in the hands of. *)
Inductive status :=
  | OnList
  | Held               (* the clients have it *)
  | Waiting            (* to be put on the list by the last thread that looks at it *)
  | Giving (t : nat)   (* [add] has been called *)
  | Adding (t : nat)   (* to be put on the list by [t], at which nobody looks *)
  | Linking (t : nat)  (* the same, but others may look at it *)
  | Taken (t : nat)    (* off the list *)
  | Gotten (t : nat).  (* to be returned by [try_get] *)

Definition in_hands_of (x : status) : option nat :=
  match x with
  | Giving t | Adding t | Linking t | Taken t | Gotten t => Some t
  | OnList | Held | Waiting => None
  end.

(** The node a thread has in its hands. *)
Definition stage (t : nat) (s : fl_thread) : option (nat * status) :=
  match s with
  | FAdd p => Some (p, Giving t)
  | FPushHead _ p | FPushNext _ p _ | FPushRefs _ p _ => Some (p, Adding t)
  | FPushCas _ p _ | FPushBack _ p _ => Some (p, Linking t)
  | FGetCheck p | FGetRelease p => Some (p, Taken t)
  | FGot (S p) => Some (S p, Gotten t)
  | _ => None
  end.

(** The node a thread holds a reference to. *)
Definition reading (s : fl_thread) : option nat :=
  match s with
  | FGetNext p | FGetCas p _ | FGetCheck p | FGetRelease p | FGetDrop p _ => Some p
  | _ => None
  end.

Definition sees (s : fl_thread) (p : nat) : Z := if decide (reading s = Some p) then 1 else 0.

Fixpoint readers (ths : list fl_thread) (p : nat) : Z :=
  match ths with [] => 0 | s :: ths => sees s p + readers ths p end.

Lemma sees_bound s p : 0 ≤ sees s p ≤ 1.
Proof. unfold sees. case_decide; lia. Qed.

Lemma readers_bound ths p : 0 ≤ readers ths p ≤ zlen ths.
Proof.
  induction ths as [|s ths IH]; unfold zlen in *; simpl; [lia|]. pose proof (sees_bound s p). lia.
Qed.

Lemma readers_insert ths t s s' p :
  ths !! t = Some s → readers (<[t := s']> ths) p = readers ths p - sees s p + sees s' p.
Proof.
  revert t. induction ths as [|s0 ths IH]; intros [|t] Ht; simplify_eq/=; [lia|].
  rewrite (IH t) by done. lia.
Qed.

Lemma readers_at ths t s p : ths !! t = Some s → reading s = Some p → 0 < readers ths p.
Proof.
  revert t. induction ths as [|s0 ths IH]; intros [|t] Ht Hr; simplify_eq/=.
  - pose proof (readers_bound ths p). unfold sees. rewrite decide_True by done. lia.
  - pose proof (sees_bound s0 p). specialize (IH t Ht Hr). lia.
Qed.

Lemma readers_idle ths p : (∀ s, s ∈ ths → reading s = None) → readers ths p = 0.
Proof.
  induction ths as [|s ths IH]; intros Hall; simpl; [done|]. unfold sees.
  rewrite (Hall s) by left. rewrite decide_False by done. rewrite IH; [done|].
  intros s' Hs. apply Hall. by right.
Qed.

Section invariant.
Context {N : Type} `{!FreeListNode N}.
#[local] Abbreviation L := (FreeList N).
Implicit Types (f : L) (m : fl_machine N) (l : list nat) (st : nat → status).

(** The nodes from [head] on. *)
Fixpoint linked f (head : nat) l : Prop :=
  match l with
  | [] => head = 0%nat
  | p :: l => head = p ∧ ∃ n, nodes f !! p = Some n ∧ linked f (freeListNext n) l
  end.

Definition valid f (p : nat) : Prop := p = 0%nat ∨ is_Some (nodes f !! p).

Definition next_is f (p q : nat) : Prop := ∃ n, nodes f !! p = Some n ∧ freeListNext n = q.

Definition valid_after f (k : after) : Prop :=
  match k with AfterAdd => True | AfterGet head => valid f head end.

(** What a thread knows. *)
Definition knows f (s : fl_thread) : Prop :=
  match s with
  | FPushHead k p => valid_after f k
  | FPushNext k p head => valid_after f k ∧ valid f head
  | FPushRefs k p head | FPushCas k p head => valid_after f k ∧ next_is f p head
  | FPushBack k p head => valid_after f k ∧ valid f head
  | FGetRefs head => is_Some (nodes f !! head)
  | FGetTake head refs => is_Some (nodes f !! head) ∧ Z.land refs REFS_MASK ≠ 0
  | FGetNext head => is_Some (nodes f !! head)
  | FGetCas head next => next_is f head next
  | FGetDrop p head => is_Some (nodes f !! p) ∧ valid f head
  | _ => True
  end.

(** The reference count of a node that [r] threads look at. *)
Definition refs_ok (x : status) (refs r : Z) : Prop :=
  match x with
  | OnList | Linking _ | Taken _ => refs = 1 + r
  | Held | Giving _ | Gotten _ => refs = r
  | Waiting => refs = SHOULD_BE_ON_FREELIST + r ∧ 0 < r
  | Adding _ => refs = SHOULD_BE_ON_FREELIST ∧ r = 0
  end.

Record fl_inv (D : gset nat) m l st : Prop := {
  fi_dom : dom (nodes (free_list m)) = D ∧ 0%nat ∉ D;
  fi_list : linked (free_list m) (freeListHead (free_list m)) l ∧ NoDup l;
  fi_on p : p ∈ l ↔ p ∈ D ∧ st p = OnList;
  fi_held p : p ∈ held m ↔ p ∈ D ∧ st p = Held;
  fi_refs p n : nodes (free_list m) !! p = Some n →
    refs_ok (st p) (freeListRefs n) (readers (threads m) p);
  fi_stage t p x : (∃ s, threads m !! t = Some s ∧ stage t s = Some (p, x)) ↔
    p ∈ D ∧ st p = x ∧ in_hands_of x = Some t;
  fi_knows t s : threads m !! t = Some s → knows (free_list m) s
}.

(** ** Frame lemmas *)
Lemma linked_ext f f' head l :
  (∀ p n, p ∈ l → nodes f !! p = Some n →
     ∃ n', nodes f' !! p = Some n' ∧ freeListNext n' = freeListNext n) →
  linked f head l → linked f' head l.
Proof.
  revert head. induction l as [|p l IH]; simpl; intros head Hsame Hl; [done|].
  destruct Hl as (-> & n & Hn & Hl). split; [done|].
  destruct (Hsame p n ltac:(left) Hn) as (n' & Hn' & Hnext). exists n'. split; [done|].
  rewrite Hnext. apply IH; [|done]. intros q n0 Hq. apply Hsame. by right.
Qed.

Definition sets f (p : nat) (n : N) (head : nat) : L := mkFreeList (<[p := n]> (nodes f)) head.

Lemma sets_is_Some f p n head q :
  is_Some (nodes f !! p) → is_Some (nodes f !! q) → is_Some (nodes (sets f p n head) !! q).
Proof.
  intros Hp Hq. simpl. destruct (decide (q = p)) as [->|Hne].
  - rewrite lookup_insert_eq. by eexists.
  - by rewrite lookup_insert_ne by done.
Qed.

Lemma sets_valid f p n head q :
  is_Some (nodes f !! p) → valid f q → valid (sets f p n head) q.
Proof. intros Hp [->|Hq]; [by left|right]. by apply sets_is_Some. Qed.

Lemma sets_valid_after f p n head k :
  is_Some (nodes f !! p) → valid_after f k → valid_after (sets f p n head) k.
Proof. intros Hp. destruct k; simpl; [done|]. by apply sets_valid. Qed.

Lemma sets_next_is f p n n' head q r :
  nodes f !! p = Some n → (q = p → freeListNext n' = freeListNext n) →
  next_is f q r → next_is (sets f p n' head) q r.
Proof.
  intros Hp Hsame (n0 & Hq & Hr). unfold next_is. simpl. destruct (decide (q = p)) as [->|Hne].
  - rewrite lookup_insert_eq. exists n'. split; [done|]. rewrite Hsame by done. congruence.
  - rewrite lookup_insert_ne by done. by exists n0.
Qed.

(** The node whose successor a thread relies on. *)
Definition watching (s : fl_thread) : option nat :=
  match s with
  | FPushRefs _ p _ | FPushCas _ p _ | FGetCas p _ => Some p
  | _ => None
  end.

Lemma knows_sets f p n n' head s :
  nodes f !! p = Some n → (watching s = Some p → freeListNext n' = freeListNext n) →
  knows f s → knows (sets f p n' head) s.
Proof.
  intros Hp Hsame. assert (is_Some (nodes f !! p)) by by eexists.
  destruct s; cbn [knows watching] in *; try done; intros Hk;
    repeat match goal with H : _ ∧ _ |- _ => destruct H end;
    split_and?; try done;
    by first [ apply sets_valid_after | apply sets_valid | apply sets_is_Some
             | eapply sets_next_is; [done| |done]; intros ->; apply Hsame ].
Qed.
End invariant.

(** ** Progress

    A measure that every access decreases.  First, how often the head of the list can
    still change if nobody calls: once for each node that is to be put on the list, and
    once for each thread that wants one.  Then, as long as the head [c] stays, how many
    more changes a thread makes to reference counts; and as long as those stay, how many
    more accesses.  A thread whose view of the head is out of date has a detour to make. *)
Definition pending (x : status) : bool :=
  match x with Giving _ | Waiting | Adding _ | Linking _ => true | _ => false end.

Definition pend (D : gset nat) (st : nat → status) : nat :=
  size (filter (λ p, pending (st p) = true) D).

Definition after_get (k : after) : nat := match k with AfterAdd => 0 | AfterGet _ => 1 end.

Definition getter (s : fl_thread) : nat :=
  match s with
  | FGetHead | FGetRefs _ | FGetTake _ _ | FGetNext _ | FGetCas _ _ | FGetDrop _ _ => 1
  | FPushHead k _ | FPushNext k _ _ | FPushRefs k _ _ | FPushCas k _ _ | FPushBack k _ _ =>
      after_get k
  | _ => 0
  end.

Definition late (c head : nat) (n : nat) : nat := if decide (head = c) then 0 else n.

Definition round_changes (c head : nat) : nat := 1 + late c head 4.

Definition after_changes (c : nat) (k : after) : nat :=
  match k with AfterAdd => 0 | AfterGet head => round_changes c head end.

Definition changes (c : nat) (s : fl_thread) : nat :=
  match s with
  | FAdd _ => 2
  | FPushHead _ _ => 1
  | FPushNext k _ head | FPushRefs k _ head => 1 + late c head (2 + after_changes c k)
  | FPushCas k _ head => late c head (2 + after_changes c k)
  | FPushBack k _ head => 2 + late c head (2 + after_changes c k) + after_changes c k
  | FGetHead => 1
  | FGetRefs head | FGetTake head _ => round_changes c head
  | FGetNext head | FGetCas head _ => late c head 4
  | FGetDrop _ head => 2 + round_changes c head
  | FGetCheck _ | FGetRelease _ => 1
  | FIdle | FAdded | FGot _ => 0
  end.

Section rest.
Context {N : Type} `{!FreeListNode N}.

Definition rest (f : FreeList N) (s : fl_thread) : nat :=
  match s with
  | FPushHead _ _ => 2
  | FPushNext _ _ _ => 1
  | FPushCas _ _ _ => 1
  | FGetHead => 2
  | FGetRefs head => 1 + late (freeListHead f) head 3
  | FGetTake head refs =>
      if decide (head = freeListHead f ∧ (freeListRefs <$> nodes f !! head) = Some refs)
      then 0 else 3
  | FGetNext _ => 2
  | FGetCas _ _ => 1
  | FGetCheck _ => 1
  | _ => 0
  end.
End rest.
