(* ===== verification/FreeListSteps.v ===== *)
(** * The free list of moodycamel::ConcurrentQueue: the steps preserve the invariant *)
From stdpp Require Import gmap fin_maps functions.
From S2P Require Import Prelude Lifetime FreeList FreeListInvariant.

#[local] Open Scope Z_scope.

Section steps.
Context {N : Type} `{!FreeListNode N}.
#[local] Abbreviation L := (FreeList N).
Context (D : gset nat).
Implicit Types (f : L) (m : fl_machine N) (l : list nat) (st : nat → status).
#[local] Abbreviation inv := (fl_inv (N := N) D).

Definition goes m (t : nat) f' s' : fl_machine N := FlMachine f' (<[t := s']> (threads m)) (held m).

Lemma node_in_D m l st p : inv m l st → is_Some (nodes (free_list m) !! p) ↔ p ∈ D.
Proof. intros Hi. destruct (fi_dom _ _ _ _ Hi) as [<- _]. by rewrite elem_of_dom. Qed.

(** A thread reads. *)
Lemma stage_same (ths : list fl_thread) t s s' :
  ths !! t = Some s → stage t s' = stage t s →
  ∀ t2 y, (∃ s0, <[t := s']> ths !! t2 = Some s0 ∧ stage t2 s0 = y) ↔
          (∃ s0, ths !! t2 = Some s0 ∧ stage t2 s0 = y).
Proof.
  intros Ht Hs t2 y. destruct (decide (t2 = t)) as [->|Hne].
  - rewrite list_lookup_insert_eq by (by eapply lookup_lt_Some).
    split; intros (s0 & [= <-] & Hy) || intros (s0 & Hs0 & Hy).
    + exists s. split; [done|congruence].
    + exists s'. split; [done|congruence].
  - by rewrite list_lookup_insert_ne by done.
Qed.

Lemma knows_insert m t f' s' :
  (∀ t2 s2, t2 ≠ t → threads m !! t2 = Some s2 → knows f' s2) → knows f' s' →
  ∀ t2 s2, <[t := s']> (threads m) !! t2 = Some s2 → knows f' s2.
Proof.
  intros Hother Hk t2 s2 Hl. apply list_lookup_insert_Some in Hl as [(-> & -> & _)|[Hne Hl]]; [done|].
  by eapply Hother.
Qed.

Lemma inv_thread m l st t s s' :
  inv m l st → threads m !! t = Some s → reading s' = reading s → stage t s' = stage t s →
  knows (free_list m) s' → inv (goes m t (free_list m) s') l st.
Proof.
  intros Hi Ht Hr Hs Hk. destruct Hi as [Hd Hl Hon Hh Hrefs Hst Hkn]. constructor; simpl; try done.
  - intros p n Hp. rewrite (readers_insert _ _ s) by done. unfold sees. rewrite Hr.
    replace (_ - _ + _) with (readers (threads m) p) by lia. by apply Hrefs.
  - intros t2 p x. rewrite <- Hst. by eapply stage_same.
  - apply knows_insert; [|done]. intros. by eapply Hkn.
Qed.

(** A thread changes the node [p], and perhaps its status. *)
Definition hand (p : nat) (x : status) : option (nat * status) :=
  match in_hands_of x with Some _ => Some (p, x) | None => None end.

Definition stage_moves (t : nat) (s s' : fl_thread) (p : nat) (x x' : status) : Prop :=
  (x' = x ∧ stage t s' = stage t s) ∨
  (stage t s = hand p x ∧ stage t s' = hand p x' ∧
   (in_hands_of x = None ∨ in_hands_of x = Some t) ∧
   (in_hands_of x' = None ∨ in_hands_of x' = Some t)).

Lemma fn_insert_same (st : nat → status) p q : (<[p := st p]> st) q = st q.
Proof. destruct (decide (q = p)) as [->|]; [by rewrite fn_lookup_insert|by rewrite fn_lookup_insert_ne]. Qed.

Lemma stage_move (ths : list fl_thread) st t s s' p x' :
  ths !! t = Some s → p ∈ D → stage_moves t s s' p (st p) x' →
  (∀ t2 q y, (∃ s0, ths !! t2 = Some s0 ∧ stage t2 s0 = Some (q, y)) ↔
     q ∈ D ∧ st q = y ∧ in_hands_of y = Some t2) →
  ∀ t2 q y, (∃ s0, <[t := s']> ths !! t2 = Some s0 ∧ stage t2 s0 = Some (q, y)) ↔
    q ∈ D ∧ (<[p := x']> st) q = y ∧ in_hands_of y = Some t2.
Proof.
  intros Ht Hp [[-> Hs]|(Hs & Hs' & Hx & Hx')] Hst t2 q y.
  - rewrite fn_insert_same, <- Hst. by eapply stage_same.
  - unfold hand in Hs, Hs'. destruct (decide (t2 = t)) as [->|Hne].
    + rewrite list_lookup_insert_eq by (by eapply lookup_lt_Some).
      destruct (decide (q = p)) as [->|Hq].
      * rewrite fn_lookup_insert. split.
        -- intros (s0 & [= <-] & Hs0). rewrite Hs0 in Hs'. destruct (in_hands_of x') eqn:Hi; [|done].
           injection Hs' as <-. split_and!; [done..|]. destruct Hx'; congruence.
        -- intros (_ & <- & Hy). exists s'. split; [done|]. by rewrite Hs', Hy.
      * rewrite fn_lookup_insert_ne by done. split.
        -- intros (s0 & [= <-] & Hs0). rewrite Hs0 in Hs'. destruct (in_hands_of x'); congruence.
        -- intros Hy. apply Hst in Hy as (s0 & Hs0 & Hy). assert (s0 = s) as -> by congruence.
           rewrite Hy in Hs. destruct (in_hands_of (st p)); congruence.
    + rewrite list_lookup_insert_ne by done. rewrite Hst. destruct (decide (q = p)) as [->|Hq].
      * rewrite fn_lookup_insert. split; intros (_ & <- & Hy); [destruct Hx|destruct Hx']; congruence.
      * by rewrite fn_lookup_insert_ne by done.
Qed.

Lemma inv_node m l st t s s' p n n' x' head' l' :
  inv m l st → threads m !! t = Some s → nodes (free_list m) !! p = Some n →
  (reading s = None ∨ reading s = Some p) → (reading s' = None ∨ reading s' = Some p) →
  refs_ok x' (freeListRefs n') (readers (threads m) p - sees s p + sees s' p) →
  stage_moves t s s' p (st p) x' →
  (∀ t2 s2, t2 ≠ t → threads m !! t2 = Some s2 → watching s2 = Some p →
     freeListNext n' = freeListNext n) →
  let f' := sets (free_list m) p n' head' in
  knows f' s' → linked f' head' l' ∧ NoDup l' →
  (∀ q, q ∈ l' ↔ q ∈ D ∧ (<[p := x']> st) q = OnList) →
  (st p = Held ↔ x' = Held) →
  inv (goes m t f' s') l' (<[p := x']> st).
Proof.
  intros Hi Ht Hn Hr Hr' Hok Hmove Hwatch f' Hk Hl' Hon' Hheld.
  assert (Hp : p ∈ D) by (apply (node_in_D _ _ _ _ Hi); by eexists).
  destruct Hi as [[Hd H0] Hl Hon Hh Hrefs Hst Hkn]. constructor; try done.
  - split; [|done]. simpl. rewrite dom_insert_L, Hd. set_solver.
  - intros q. simpl. rewrite Hh. destruct (decide (q = p)) as [->|Hne].
    + rewrite fn_lookup_insert. naive_solver.
    + by rewrite fn_lookup_insert_ne.
  - intros q n0. simpl. rewrite (readers_insert _ _ s) by done. destruct (decide (q = p)) as [->|Hne].
    + rewrite lookup_insert_eq, fn_lookup_insert. by intros [= <-].
    + rewrite lookup_insert_ne, fn_lookup_insert_ne by done. intros Hq.
      assert (Hz : ∀ s0, reading s0 = None ∨ reading s0 = Some p → sees s0 q = 0).
      { intros s0 Hs0. unfold sees. rewrite decide_False; [done|]. destruct Hs0; congruence. }
      rewrite (Hz s), (Hz s') by done. replace (_ - _ + _) with (readers (threads m) q) by lia.
      by apply Hrefs.
  - simpl. by eapply stage_move.
  - apply knows_insert; [|done]. intros t2 s2 Hne Hs2. apply (knows_sets (free_list m) p n).
    + done.
    + intros Hw. by eapply Hwatch.
    + by eapply Hkn.
Qed.

(** The same for a change that does not concern the list. *)
Lemma inv_off_list m l st t s s' p n n' x' :
  inv m l st → threads m !! t = Some s → nodes (free_list m) !! p = Some n →
  (reading s = None ∨ reading s = Some p) → (reading s' = None ∨ reading s' = Some p) →
  refs_ok x' (freeListRefs n') (readers (threads m) p - sees s p + sees s' p) →
  stage_moves t s s' p (st p) x' →
  (freeListNext n' = freeListNext n ∨ st p = Adding t ∧ stage t s = Some (p, Adding t)) →
  let f' := sets (free_list m) p n' (freeListHead (free_list m)) in
  knows f' s' → (st p = OnList ↔ x' = OnList) → (st p = Held ↔ x' = Held) →
  inv (goes m t f' s') l (<[p := x']> st).
Proof.
  intros Hi Ht Hn Hr Hr' Hok Hmove Hnext f' Hk Hon Hheld.
  eapply inv_node; try done.
  - intros t2 s2 Hne Hs2 Hw. destruct Hnext as [?|[Hp Hs]]; [done|exfalso].
    destruct Hi as [_ _ _ _ Hrefs Hst _].
    assert (Hstage : ∀ x, stage t2 s2 = Some (p, x) → False).
    { intros x Hx. assert (p ∈ D ∧ st p = x ∧ in_hands_of x = Some t2) as (_ & <- & Hin).
      { apply Hst. by exists s2. } rewrite Hp in Hin. by injection Hin. }
    destruct s2; simplify_eq/=; try (by eapply Hstage).
    pose proof (Hrefs p n Hn) as Hz. rewrite Hp in Hz. destruct Hz as [_ Hz].
    pose proof (readers_at _ _ _ p Hs2 eq_refl). lia.
  - destruct Hi as [_ [Hl Hnd] Honl _ _ _ _]. split; [|done].
    apply (linked_ext (free_list m)); [|done]. intros q n0 Hq Hn0. simpl.
    destruct (decide (q = p)) as [->|Hne].
    + rewrite lookup_insert_eq. exists n'. split; [done|]. apply Honl in Hq as [_ Hq].
      assert (n0 = n) as -> by congruence. destruct Hnext as [?|[Hp _]]; [done|congruence].
    + rewrite lookup_insert_ne by done. by exists n0.
  - intros q. destruct Hi as [_ _ Honl _ _ _ _]. rewrite Honl.
    destruct (decide (q = p)) as [->|Hne]; [rewrite fn_lookup_insert; naive_solver|].
    by rewrite fn_lookup_insert_ne.
Qed.

(** The node in the hands of a thread. *)
Lemma in_hand m l st t s p x :
  inv m l st → threads m !! t = Some s → stage t s = Some (p, x) →
  ∃ n, nodes (free_list m) !! p = Some n ∧ st p = x ∧
    refs_ok x (freeListRefs n) (readers (threads m) p).
Proof.
  intros Hi Ht Hs. pose proof (node_in_D _ _ _ p Hi) as HD. destruct Hi as [_ _ _ _ Hrefs Hst _].
  assert (p ∈ D ∧ st p = x ∧ in_hands_of x = Some t) as (Hp & <- & _) by (apply Hst; by exists s).
  apply HD in Hp as [n Hn]. exists n. split_and!; [done..|]. by apply Hrefs.
Qed.
End steps.

(** ** The measure *)
Lemma sum_insert (g : fl_thread → nat) ths t s s' :
  ths !! t = Some s →
  (sum_list_with g (<[t := s']> ths) + g s = sum_list_with g ths + g s')%nat.
Proof.
  revert t. induction ths as [|s0 ths IH]; intros [|t] Ht; simplify_eq/=; [lia|].
  specialize (IH t Ht). lia.
Qed.

Lemma sum_ext (g g' : fl_thread → nat) ths :
  (∀ s, g s = g' s) → sum_list_with g ths = sum_list_with g' ths.
Proof. intros Hg. induction ths as [|s ths IH]; simpl; [done|]. by rewrite Hg, IH. Qed.

Section measure.
Context {N : Type} `{!FreeListNode N} (D : gset nat).
Implicit Types (f : FreeList N) (m : fl_machine N) (st : nat → status).

Definition head_moves m st : nat := pend D st + sum_list_with getter (threads m).
Definition ref_moves m : nat :=
  sum_list_with (changes (freeListHead (free_list m))) (threads m).
Definition other_moves m : nat := sum_list_with (rest (free_list m)) (threads m).

(** [m'] with [st'] is closer to the end than [m] with [st]. *)
Definition closer m st m' st' : Prop :=
  (head_moves m' st' < head_moves m st)%nat ∨
  head_moves m' st' = head_moves m st ∧
  ((ref_moves m' < ref_moves m)%nat ∨
   ref_moves m' = ref_moves m ∧ (other_moves m' < other_moves m)%nat).

Definition same_refs f f' : Prop :=
  ∀ q, freeListRefs <$> nodes f' !! q = freeListRefs <$> nodes f !! q.

(** The thread that makes a step has less to do. *)
Definition lighter f f' s s' : Prop :=
  (getter s' < getter s)%nat ∨
  getter s' = getter s ∧
  ((changes (freeListHead f) s' < changes (freeListHead f) s)%nat ∨
   changes (freeListHead f) s' = changes (freeListHead f) s ∧ same_refs f f' ∧
   (rest f' s' < rest f s)%nat).

Lemma rest_same f f' s :
  freeListHead f' = freeListHead f → same_refs f f' → rest f' s = rest f s.
Proof. intros Hh Hr. destruct s; simpl; rewrite ?Hh, ?Hr; done. Qed.

Lemma pend_insert st p x :
  pending x = pending (st p) → pend D (<[p := x]> st) = pend D st.
Proof.
  intros Hx. unfold pend. f_equal. apply set_eq. intros q. rewrite !elem_of_filter.
  destruct (decide (q = p)) as [->|Hne]; [by rewrite fn_lookup_insert, Hx|].
  by rewrite fn_lookup_insert_ne.
Qed.

Lemma pend_done st p x :
  p ∈ D → pending (st p) = true → pending x = false → (pend D (<[p := x]> st) < pend D st)%nat.
Proof.
  intros Hp Hst Hx. unfold pend. apply subset_size. split.
  - intros q. rewrite !elem_of_filter. destruct (decide (q = p)) as [->|Hne].
    + rewrite fn_lookup_insert. intros [Hq _]. congruence.
    + by rewrite fn_lookup_insert_ne.
  - intros Hsub. specialize (Hsub p). rewrite !elem_of_filter, fn_lookup_insert in Hsub.
    destruct Hsub as [Hq _]; [done|congruence].
Qed.

Lemma closer_light m st t s s' f' st' :
  threads m !! t = Some s → freeListHead f' = freeListHead (free_list m) →
  pend D st' = pend D st → lighter (free_list m) f' s s' →
  closer m st (goes m t f' s') st'.
Proof.
  intros Ht Hh Hp Hl. unfold closer, head_moves, ref_moves, other_moves. simpl. rewrite Hh, Hp.
  pose proof (sum_insert getter _ _ _ s' Ht).
  pose proof (sum_insert (changes (freeListHead (free_list m))) _ _ _ s' Ht).
  pose proof (sum_insert (rest (free_list m)) _ _ _ s' Ht).
  destruct Hl as [?|(? & [?|(? & Hr & ?)])]; [lia|lia|].
  assert (Hrest : ∀ s, rest f' s = rest (free_list m) s) by (intros; by apply rest_same).
  rewrite Hrest in *. rewrite (sum_ext _ _ _ Hrest). lia.
Qed.

(** The head changes. *)
Lemma closer_head m st t s s' f' st' :
  threads m !! t = Some s → (pend D st' + getter s' < pend D st + getter s)%nat →
  closer m st (goes m t f' s') st'.
Proof.
  intros Ht Hl. left. unfold head_moves. simpl. pose proof (sum_insert getter _ _ _ s' Ht). lia.
Qed.
End measure.

(** ** The bits of a reference count *)
Lemma refs_mask r : 0 ≤ r < SHOULD_BE_ON_FREELIST → Z.land r REFS_MASK = r.
Proof. intros Hr. change REFS_MASK with (Z.ones 31). rewrite Z.land_ones by lia. by apply Z.mod_small. Qed.

Lemma refs_mask_should r :
  0 ≤ r < SHOULD_BE_ON_FREELIST → Z.land (SHOULD_BE_ON_FREELIST + r) REFS_MASK = r.
Proof.
  intros Hr. change REFS_MASK with (Z.ones 31). rewrite Z.land_ones by lia.
  change SHOULD_BE_ON_FREELIST with (1 * 2 ^ 31). rewrite Z.add_comm, Z.mod_add by lia.
  by apply Z.mod_small.
Qed.

Lemma refs_should r : 0 ≤ r < SHOULD_BE_ON_FREELIST → Z.land r SHOULD_BE_ON_FREELIST = 0.
Proof.
  intros Hr. apply Z.bits_inj'. intros i Hi. rewrite Z.land_spec, Z.bits_0.
  change SHOULD_BE_ON_FREELIST with (2 ^ 31). rewrite Z.pow2_bits_eqb by lia.
  destruct (Z.eqb_spec 31 i) as [<-|]; [|apply andb_false_r]. rewrite andb_true_r.
  destruct (decide (r = 0)) as [->|]; [apply Z.bits_0|]. apply Z.bits_above_log2; [lia|].
  apply Z.log2_lt_pow2; [lia|]. apply Hr.
Qed.

(** ** The free list of moodycamel::ConcurrentQueue: every access of every thread *)
(** ** What the accesses do *)
Section accesses.
Context {X N : Type} `{!FreeListNode N}.
#[local] Abbreviation L := (FreeList N).
Implicit Types (f : L).

Lemma runs_load_node p f n Q Qt F :
  nodes f !! p = Some n → Q n f → runs (load_node p : M X L N) f Q Qt F.
Proof. intros Hn HQ. unfold runs, load_node. by rewrite Hn. Qed.

Lemma runs_fetch_add p d f n Q Qt F :
  nodes f !! p = Some n →
  Q (freeListRefs n) (sets f p (set_refs (u32 (freeListRefs n + d)) n) (freeListHead f)) →
  runs (fetch_add_refs p d : M X L Z) f Q Qt F.
Proof. intros Hn HQ. eapply runs_bind, runs_load_node; [done|]. exact HQ. Qed.

Lemma runs_store_refs p r f n Q Qt F :
  nodes f !! p = Some n → Q tt (sets f p (set_refs r n) (freeListHead f)) →
  runs (store_refs p r : M X L unit) f Q Qt F.
Proof. intros Hn HQ. eapply runs_bind, runs_load_node; [done|]. exact HQ. Qed.

Lemma runs_store_next p q f n Q Qt F :
  nodes f !! p = Some n → Q tt (sets f p (set_free_next q n) (freeListHead f)) →
  runs (store_next p q : M X L unit) f Q Qt F.
Proof. intros Hn HQ. eapply runs_bind, runs_load_node; [done|]. exact HQ. Qed.

Lemma runs_cas_head expected desired f Q Qt F :
  (freeListHead f = expected → Q (true, expected) (mkFreeList (nodes f) desired)) →
  (freeListHead f ≠ expected → Q (false, freeListHead f) f) →
  runs (cas_head expected desired : M X L (bool * nat)) f Q Qt F.
Proof.
  intros Ht Hf. unfold cas_head. apply runs_bind, runs_gets. case_bool_decide as Heq.
  - rewrite Heq. by apply Ht.
  - by apply Hf.
Qed.

Lemma runs_cas_refs p r f n Q Qt F :
  nodes f !! p = Some n →
  (freeListRefs n = r → Q true (sets f p (set_refs (u32 (r + 1)) n) (freeListHead f))) →
  (freeListRefs n ≠ r → Q false f) →
  runs (cas_refs p r : M X L bool) f Q Qt F.
Proof.
  intros Hn Ht Hf. eapply runs_bind, runs_load_node; [done|].
  destruct (Z.eqb_spec (freeListRefs n) r) as [Heq|Hne]; [exact (Ht Heq)|exact (Hf Hne)].
Qed.

Lemma runs_check_taken ndebug p f n Q Qt F :
  nodes f !! p = Some n → Z.land (freeListRefs n) SHOULD_BE_ON_FREELIST = 0 → Q tt f →
  runs (check_taken ndebug p : M X L unit) f Q Qt F.
Proof.
  intros Hn Hz HQ. eapply runs_bind, runs_load_node; [done|]. rewrite Hz. by destruct ndebug.
Qed.

(** Writing back what is there. *)
Lemma sets_same f p n head : nodes f !! p = Some n → sets f p n head = mkFreeList (nodes f) head.
Proof. intros Hn. unfold sets. by rewrite insert_id. Qed.
End accesses.

Section preservation.
Context {N : Type} `{!FreeListNode N} (ndebug : bool) (D : gset nat).
#[local] Abbreviation L := (FreeList N).
#[local] Abbreviation inv := (fl_inv (N := N) D).
Context (m : fl_machine N) (l : list nat) (st : nat → status) (t : nat).
Context (Hi : inv m l st) (Hfew : zlen (threads m) < 2 ^ 31 - 1).
#[local] Abbreviation f := (free_list m).

(** From the thread state [s] the next access leads to a state with the invariant. *)
#[local] Abbreviation step_ok s :=
  (threads m !! t = Some s →
   runs (fl_step (X := Empty_set) ndebug s) f
     (λ s' f', ∃ l' st', inv (goes m t f' s') l' st' ∧ closer D m st (goes m t f' s') st') (λ _ _, False) (λ _, False)).

Lemma readers_few p : 0 ≤ readers (threads m) p < 2 ^ 31 - 1.
Proof using Hfew. pose proof (readers_bound (threads m) p). lia. Qed.

(** A count and its successors stay below 2^32. *)
Lemma refs_ok_range x r p : refs_ok x r (readers (threads m) p) → 0 ≤ r < 2 ^ 32 - 1.
Proof using Hfew.
  pose proof (readers_few p). unfold SHOULD_BE_ON_FREELIST in *. destruct x; simpl; unfold SHOULD_BE_ON_FREELIST; lia.
Qed.

(** A step that only reads. *)
Lemma reads s s' :
  threads m !! t = Some s → reading s' = reading s → stage t s' = stage t s → knows f s' →
  lighter f f s s' →
  ∃ l' st', inv (goes m t f s') l' st' ∧ closer D m st (goes m t f s') st'.
Proof using Hi. intros. exists l, st. split; [by eapply inv_thread|by eapply closer_light]. Qed.

(** A step that changes a node but not the list. *)
Lemma off_list s s' p n n' x' :
  threads m !! t = Some s → nodes f !! p = Some n →
  (reading s = None ∨ reading s = Some p) → (reading s' = None ∨ reading s' = Some p) →
  refs_ok x' (freeListRefs n') (readers (threads m) p - sees s p + sees s' p) →
  stage_moves t s s' p (st p) x' →
  (freeListNext n' = freeListNext n ∨ st p = Adding t ∧ stage t s = Some (p, Adding t)) →
  let f' := sets f p n' (freeListHead f) in
  knows f' s' → (st p = OnList ↔ x' = OnList) → (st p = Held ↔ x' = Held) →
  pending x' = pending (st p) → lighter f f' s s' →
  ∃ l' st', inv (goes m t f' s') l' st' ∧ closer D m st (goes m t f' s') st'.
Proof using Hi.
  intros. exists l, (<[p := x']> st). split; [by eapply inv_off_list|].
  eapply closer_light; [done..|by apply pend_insert|done].
Qed.

Lemma head_valid : valid f (freeListHead f).
Proof using Hi.
  destruct (fi_list _ _ _ _ Hi) as [Hl _]. destruct l as [|p l']; simpl in Hl; [by left|].
  destruct Hl as (-> & n & Hn & _). right. by eexists.
Qed.

Lemma resume_facts k f' :
  valid_after f' k →
  reading (resume k) = None ∧ stage t (resume k) = None ∧ knows f' (resume k).
Proof.
  destruct k as [|head]; simpl; [done|]. intros Hv. unfold get_round.
  case_bool_decide as Hz; [done|]. by destruct Hv.
Qed.

(** Steps that leave less to do. *)
Lemma lighter_rest f1 f2 s s' :
  getter s' = getter s → changes (freeListHead f1) s' = changes (freeListHead f1) s →
  same_refs f1 f2 → (rest f2 s' < rest f1 s)%nat → lighter f1 f2 s s'.
Proof. intros. right. auto. Qed.

Lemma lighter_changes f1 f2 s s' :
  getter s' = getter s → (changes (freeListHead f1) s' < changes (freeListHead f1) s)%nat →
  lighter f1 f2 s s'.
Proof. intros. right. auto. Qed.

Lemma lighter_resume f1 f2 s k :
  getter s = after_get k → (after_changes (freeListHead f1) k < changes (freeListHead f1) s)%nat →
  lighter f1 f2 s (resume k).
Proof.
  intros Hg Hc. destruct k as [|head]; simpl in *; [by apply lighter_changes|].
  unfold get_round. case_bool_decide; [left; simpl; lia|]. by apply lighter_changes.
Qed.

Lemma late_now c n : late c c n = 0%nat.
Proof. unfold late. by rewrite decide_True. Qed.

#[local] Ltac light :=
  simpl; unfold round_changes; rewrite ?late_now; unfold late; repeat case_decide; lia.

Lemma step_push_head k p : step_ok (FPushHead k p).
Proof using Hi.
  intros Ht. apply runs_bind, runs_gets, runs_ret. eapply reads; try done.
  - split; [exact (fi_knows _ _ _ _ Hi _ _ Ht)|apply head_valid].
  - apply lighter_rest; [done|light|done|light].
Qed.

Lemma step_get_head : step_ok FGetHead.
Proof using Hi.
  intros Ht. apply runs_bind, runs_gets, runs_ret.
  destruct (resume_facts (AfterGet (freeListHead f)) f head_valid) as (? & ? & ?).
  eapply reads; try done. simpl. unfold get_round. case_bool_decide; [left; simpl; lia|].
  apply lighter_rest; [done|light|done|light].
Qed.

(** A node that threads may look at has a count other than 0. *)
Lemma head_counted n :
  nodes f !! freeListHead f = Some n → Z.land (freeListRefs n) REFS_MASK ≠ 0.
Proof using Hi Hfew.
  intros Hn. destruct (fi_list _ _ _ _ Hi) as [Hl _].
  assert (HD : freeListHead f ∈ D) by (apply (node_in_D _ _ _ _ _ Hi); by eexists).
  assert (Hst : st (freeListHead f) = OnList).
  { apply (fi_on _ _ _ _ Hi). destruct l as [|p l']; simpl in Hl.
    - destruct (fi_dom _ _ _ _ Hi) as [_ H0]. by rewrite Hl in HD.
    - destruct Hl as [-> _]. by left. }
  pose proof (fi_refs _ _ _ _ Hi _ _ Hn) as Hok. rewrite Hst in Hok. simpl in Hok.
  pose proof (readers_few (freeListHead f)). rewrite refs_mask; unfold SHOULD_BE_ON_FREELIST; lia.
Qed.

Lemma step_get_refs head : step_ok (FGetRefs head).
Proof using Hi Hfew.
  intros Ht. pose proof (fi_knows _ _ _ _ Hi _ _ Ht) as [n Hn]. simpl in Hn.
  eapply runs_bind, runs_load_node; [done|]. apply runs_ret.
  destruct (Z.eqb_spec (Z.land (freeListRefs n) REFS_MASK) 0) as [Hz|Hnz]; eapply reads; try done.
  - apply lighter_changes; [done|]. assert (head ≠ freeListHead f).
    { intros ->. by apply head_counted in Hn. }
    light.
  - apply lighter_rest; [done..|]. simpl. rewrite Hn. simpl. unfold late.
    repeat case_decide; try lia. tauto.
Qed.

Lemma step_get_next head : step_ok (FGetNext head).
Proof using Hi.
  intros Ht. pose proof (fi_knows _ _ _ _ Hi _ _ Ht) as [n Hn]. simpl in Hn.
  eapply runs_bind, runs_load_node; [done|]. apply runs_ret. eapply reads; try done.
  - by exists n.
  - apply lighter_rest; [done..|light].
Qed.

Lemma step_get_check head : step_ok (FGetCheck head).
Proof using Hi Hfew.
  intros Ht. destruct (in_hand _ _ _ _ _ _ _ _ Hi Ht eq_refl) as (n & Hn & Hst & Hok).
  simpl in Hok. pose proof (readers_few head).
  eapply runs_bind, runs_check_taken; [done| |].
  - apply refs_should. unfold SHOULD_BE_ON_FREELIST. lia.
  - apply runs_ret. eapply reads; try done. apply lighter_rest; [done..|light].
Qed.

#[local] Ltac change_node Hst x :=
  eapply (off_list _ _ _ _ _ x);
    [eassumption|eassumption|by auto|by auto
    |rewrite ?refs_set_refs, ?refs_set_next
    |rewrite ?Hst; first [by left|right; split_and!; by auto]
    |rewrite ?Hst, ?next_set_refs; by auto
    |try done
    |rewrite ?Hst; by split
    |rewrite ?Hst; by split
    |by rewrite ?Hst
    |].

Lemma no_refs s p : reading s = None → sees s p = 0.
Proof. unfold sees. by intros ->. Qed.

Lemma one_ref s p : reading s = Some p → sees s p = 1.
Proof. unfold sees. intros ->. by rewrite decide_True. Qed.

Lemma step_add p : step_ok (FAdd p).
Proof using Hi Hfew.
  intros Ht. destruct (in_hand _ _ _ _ _ _ _ _ Hi Ht eq_refl) as (n & Hn & Hst & Hok).
  simpl in Hok. pose proof (readers_few p).
  eapply runs_bind, runs_fetch_add; [done|]. apply runs_ret.
  rewrite u32_small by (unfold SHOULD_BE_ON_FREELIST; lia).
  destruct (Z.eqb_spec (freeListRefs n) 0) as [Hz|Hnz].
  - change_node Hst (Adding t).
    + simpl. rewrite !no_refs by done. lia.
    + apply lighter_changes; [done|light].
  - change_node Hst Waiting.
    + simpl. rewrite !no_refs by done. lia.
    + apply lighter_changes; [done|light].
Qed.

Lemma step_push_next k p head : step_ok (FPushNext k p head).
Proof using Hi.
  intros Ht. destruct (in_hand _ _ _ _ _ _ _ _ Hi Ht eq_refl) as (n & Hn & Hst & Hok).
  pose proof (fi_knows _ _ _ _ Hi _ _ Ht) as [Hk Hv].
  eapply runs_bind, runs_store_next; [done|]. apply runs_ret.
  change_node Hst (Adding t).
  - destruct Hok. simpl. rewrite !no_refs by done. lia.
  - split.
    + apply sets_valid_after; [by eexists|done].
    + exists (set_free_next head n). simpl. by rewrite lookup_insert_eq, next_set_next.
  - apply lighter_rest; [done..| |light]. intros q. simpl. destruct (decide (q = p)) as [->|Hne].
    + by rewrite lookup_insert_eq, Hn; simpl; rewrite refs_set_next.
    + by rewrite lookup_insert_ne.
Qed.

Lemma step_push_refs k p head : step_ok (FPushRefs k p head).
Proof using Hi.
  intros Ht. destruct (in_hand _ _ _ _ _ _ _ _ Hi Ht eq_refl) as (n & Hn & Hst & Hok).
  pose proof (fi_knows _ _ _ _ Hi _ _ Ht) as Hk.
  eapply runs_bind, runs_store_refs; [done|]. apply runs_ret.
  change_node Hst (Linking t).
  - destruct Hok. simpl. rewrite !no_refs by done. lia.
  - apply (knows_sets f p n _ _ (FPushCas k p head)); [done| |exact Hk]. by rewrite next_set_refs.
  - apply lighter_changes; [done|light].
Qed.

Lemma step_push_back k p head : step_ok (FPushBack k p head).
Proof using Hi Hfew.
  intros Ht. destruct (in_hand _ _ _ _ _ _ _ _ Hi Ht eq_refl) as (n & Hn & Hst & Hok).
  simpl in Hok. pose proof (readers_few p). pose proof (fi_knows _ _ _ _ Hi _ _ Ht) as [Hk Hv].
  assert (Hp : is_Some (nodes f !! p)) by by eexists.
  eapply runs_bind, runs_fetch_add; [done|]. apply runs_ret.
  rewrite u32_small by (unfold SHOULD_BE_ON_FREELIST; lia).
  destruct (Z.eqb_spec (freeListRefs n) 1) as [Hz|Hnz].
  - change_node Hst (Adding t).
    + simpl. rewrite !no_refs by done. lia.
    + split; [by apply sets_valid_after|by apply sets_valid].
    + apply lighter_changes; [done|light].
  - destruct (resume_facts k (sets f p (set_refs (freeListRefs n + (SHOULD_BE_ON_FREELIST - 1)) n)
      (freeListHead f))) as (Hr & Hs & Hk'); [by apply sets_valid_after|].
    change_node Hst Waiting.
    + simpl. rewrite !no_refs by done. lia.
    + apply lighter_resume; [done|light].
Qed.

Lemma step_push_cas k p head : step_ok (FPushCas k p head).
Proof using Hi.
  intros Ht. destruct (in_hand _ _ _ _ _ _ _ _ Hi Ht eq_refl) as (n & Hn & Hst & Hok).
  pose proof (fi_knows _ _ _ _ Hi _ _ Ht) as (Hk & n' & Hn' & Hnext).
  assert (n' = n) as -> by congruence. apply runs_bind, runs_cas_head; intros Hhead; apply runs_ret.
  - assert (Hp : is_Some (nodes f !! p)) by by eexists.
    assert (HD : p ∈ D) by by apply (node_in_D _ _ _ _ p Hi).
    rewrite <- (sets_same f p n) by done.
    destruct (resume_facts k (sets f p n p)) as (Hr & Hs & Hk'); [by apply sets_valid_after|].
    destruct (fi_list _ _ _ _ Hi) as [Hl Hnd].
    assert (Hpl : p ∉ l) by (rewrite (fi_on _ _ _ _ Hi); intros [_ ?]; congruence).
    exists (p :: l), (<[p := OnList]> st). split.
    + eapply inv_node; [exact Hi|eassumption|eassumption|by auto|by auto| | | | | | |].
      * rewrite !no_refs by done. simpl in Hok |- *. lia.
      * right. rewrite Hst. split_and!; by auto.
      * done.
      * done.
      * split; [|by constructor]. simpl. split; [done|]. exists n. rewrite lookup_insert_eq.
        split; [done|]. rewrite Hnext, <- Hhead. apply (linked_ext f); [|done].
        intros q n0 Hq Hn0. exists n0. simpl. rewrite lookup_insert_ne; [done|]. by intros ->.
      * intros q. rewrite elem_of_cons, (fi_on _ _ _ _ Hi). destruct (decide (q = p)) as [->|Hne].
        -- rewrite fn_lookup_insert. split; [done|by left].
        -- rewrite fn_lookup_insert_ne by done. naive_solver.
      * rewrite Hst. done.
    + eapply closer_head; [done|].
      assert (pend D (<[p := OnList]> st) < pend D st)%nat by (apply pend_done; by rewrite ?Hst).
      assert (getter (resume k) ≤ getter (FPushCas k p head))%nat; [|lia].
      destruct k as [|h]; simpl; [lia|]. unfold get_round. case_bool_decide; simpl; lia.
  - eapply reads; try done; [split; [done|apply head_valid]|].
    apply lighter_rest; [done| |done|light]. simpl. rewrite late_now. unfold late.
    rewrite decide_False by done. lia.
Qed.

Lemma step_get_take head refs : step_ok (FGetTake head refs).
Proof using Hi Hfew.
  intros Ht. pose proof (fi_knows _ _ _ _ Hi _ _ Ht) as [[n Hn] Hmask].
  eapply runs_bind, runs_cas_refs; [done| |]; intros Hrefs; apply runs_ret.
  - pose proof (fi_refs _ _ _ _ Hi _ _ Hn) as Hok. rewrite Hrefs in Hok.
    rewrite u32_small by (pose proof (refs_ok_range _ _ _ Hok); lia).
    change_node (eq_refl (st head)) (st head).
    + rewrite no_refs, one_ref by done.
      destruct (st head); simpl in *; try lia. destruct Hok as [-> _]. by destruct Hmask.
    + apply sets_is_Some; by eexists.
    + apply lighter_changes; [done|light].
  - eapply reads; try done. destruct (decide (head = freeListHead f)) as [Hh|Hne].
    + apply lighter_rest; [done|light|done|]. simpl. rewrite decide_False; [lia|].
      intros [_ Hr]. rewrite Hn in Hr. simpl in Hr. congruence.
    + apply lighter_changes; [done|light].
Qed.

Lemma step_get_cas head next : step_ok (FGetCas head next).
Proof using Hi.
  intros Ht. pose proof (fi_knows _ _ _ _ Hi _ _ Ht) as (n & Hn & Hnext).
  assert (HD : head ∈ D) by (apply (node_in_D _ _ _ _ head Hi); by eexists).
  apply runs_bind, runs_cas_head; intros Hhead; apply runs_ret.
  - rewrite <- (sets_same f head n) by done. destruct (fi_list _ _ _ _ Hi) as [Hl Hnd].
    destruct l as [|p l2] eqn:Hll; simpl in Hl.
    { destruct (fi_dom _ _ _ _ Hi) as [_ H0]. congruence. }
    destruct Hl as (Hp & n' & Hn' & Hl). rewrite Hhead in Hp. subst p.
    assert (n' = n) as -> by congruence. rewrite Hnext in Hl.
    apply NoDup_cons in Hnd as [Hnot Hnd].
    assert (Hst : st head = OnList) by (apply (fi_on _ _ _ _ Hi); by left).
    exists l2, (<[head := Taken t]> st). split.
    + eapply inv_node; [exact Hi|eassumption|eassumption|by auto|by auto| | | | | | |].
      * pose proof (fi_refs _ _ _ _ Hi _ _ Hn) as Hok. rewrite Hst in Hok. simpl in Hok |- *.
        rewrite !one_ref by done. lia.
      * right. rewrite Hst. split_and!; by auto.
      * done.
      * done.
      * split; [|done]. apply (linked_ext f); [|done]. intros q n0 Hq Hn0. exists n0. simpl.
        rewrite lookup_insert_ne; [done|]. by intros ->.
      * intros q. destruct (decide (q = head)) as [->|Hne].
        -- rewrite fn_lookup_insert. split; [done|]. by intros [_ ?].
        -- rewrite fn_lookup_insert_ne, <- (fi_on _ _ _ _ Hi), elem_of_cons by done. naive_solver.
      * rewrite Hst. done.
    + eapply closer_head; [done|]. rewrite pend_insert by (by rewrite Hst). simpl. lia.
  - eapply reads; try done; [split; [by eexists|apply head_valid]|].
    apply lighter_changes; [done|]. simpl. unfold round_changes. rewrite late_now. unfold late.
    rewrite decide_False by done. lia.
Qed.

Lemma step_get_release head : step_ok (FGetRelease head).
Proof using Hi Hfew.
  intros Ht. destruct (in_hand _ _ _ _ _ _ _ _ Hi Ht eq_refl) as (n & Hn & Hst & Hok).
  simpl in Hok. pose proof (readers_few head). pose proof (readers_at _ _ _ _ Ht eq_refl).
  assert (HD : head ∈ D) by (apply (node_in_D _ _ _ _ head Hi); by eexists).
  destruct head as [|h]; [destruct (fi_dom _ _ _ _ Hi); done|].
  eapply runs_bind, runs_fetch_add; [done|]. apply runs_ret. rewrite u32_small by lia.
  change_node Hst (Gotten t).
  - simpl. rewrite one_ref, no_refs by done. lia.
  - apply lighter_changes; [done|light].
Qed.

Lemma step_get_drop p head : step_ok (FGetDrop p head).
Proof using Hi Hfew.
  intros Ht. pose proof (fi_knows _ _ _ _ Hi _ _ Ht) as [[n Hn] Hv].
  pose proof (readers_few p). pose proof (readers_at _ _ _ p Ht eq_refl).
  pose proof (fi_refs _ _ _ _ Hi _ _ Hn) as Hok. pose proof (refs_ok_range _ _ _ Hok).
  assert (Hp : is_Some (nodes f !! p)) by by eexists.
  assert (Hr1 : 0 < freeListRefs n) by (destruct (st p); simpl in Hok; unfold SHOULD_BE_ON_FREELIST in *; lia).
  eapply runs_bind, runs_fetch_add; [done|]. apply runs_ret. rewrite u32_small by lia.
  destruct (Z.eqb_spec (freeListRefs n) (SHOULD_BE_ON_FREELIST + 1)) as [Hz|Hnz].
  - assert (Hst : st p = Waiting).
    { destruct (st p); simpl in Hok; unfold SHOULD_BE_ON_FREELIST in *; try lia; done. }
    rewrite Hst in Hok. simpl in Hok. change_node Hst (Adding t).
    + simpl. rewrite one_ref, no_refs by done. lia.
    + by apply sets_valid.
    + apply lighter_changes; [done|light].
  - destruct (resume_facts (AfterGet head) (sets f p (set_refs (freeListRefs n + -1) n) (freeListHead f)))
      as (Hr & Hs & Hk); [by apply sets_valid|]. simpl in Hr, Hs, Hk.
    change_node (eq_refl (st p)) (st p).
    + rewrite one_ref, no_refs by done. destruct (st p); simpl in *; lia.
    + apply (lighter_resume _ _ _ (AfterGet head)); [done|light].
Qed.

(** Every access. *)
Lemma step_preserves s :
  threads m !! t = Some s → fl_running s = true →
  runs (fl_step (X := Empty_set) ndebug s) f
    (λ s' f', ∃ l' st', inv (goes m t f' s') l' st' ∧ closer D m st (goes m t f' s') st')
    (λ _ _, False) (λ _, False).
Proof using Hi Hfew.
  destruct s; try discriminate; intros Ht _; revert Ht.
  - apply step_add.
  - apply step_push_head.
  - apply step_push_next.
  - apply step_push_refs.
  - apply step_push_cas.
  - apply step_push_back.
  - apply step_get_head.
  - apply step_get_refs.
  - apply step_get_take.
  - apply step_get_next.
  - apply step_get_cas.
  - apply step_get_check.
  - apply step_get_release.
  - apply step_get_drop.
Qed.
End preservation.
