(* ===== verification/FreeListTheorems.v ===== *)
(** * The free list of moodycamel::ConcurrentQueue: its properties *)
From stdpp Require Import gmap fin_maps functions.
From S2P Require Import Prelude Lifetime FreeList FreeListInvariant FreeListSteps.

#[local] Open Scope Z_scope.

Section machine.
Context {N : Type} `{!FreeListNode N} (ndebug : bool) (D : gset nat).
#[local] Abbreviation inv := (fl_inv (N := N) D).
Implicit Types (m : fl_machine N) (l : list nat) (st : nat → status).

(** A node changes hands between a thread and the clients. *)
Lemma inv_client m l st t s s' p x' h' :
  inv m l st → threads m !! t = Some s → p ∈ D →
  reading s = None → reading s' = None → knows (free_list m) s' →
  stage_moves t s s' p (st p) x' →
  (∀ refs r, refs_ok (st p) refs r → refs_ok x' refs r) →
  st p ≠ OnList → x' ≠ OnList →
  (∀ q, q ∈ h' ↔ q ∈ D ∧ (<[p := x']> st) q = Held) →
  inv (FlMachine (free_list m) (<[t := s']> (threads m)) h') l (<[p := x']> st).
Proof.
  intros Hi Ht Hp Hr Hr' Hk Hmove Hok Hon Hon' Hh'.
  destruct Hi as [[Hd H0] Hl Honl Hh Hrefs Hst Hkn]. constructor; simpl; try done.
  - intros q. rewrite Honl. destruct (decide (q = p)) as [->|Hne].
    + rewrite fn_lookup_insert. naive_solver.
    + by rewrite fn_lookup_insert_ne.
  - intros q n Hq. rewrite (readers_insert _ _ s), !no_refs by done.
    replace (_ - _ + _) with (readers (threads m) q) by lia.
    destruct (decide (q = p)) as [->|Hne].
    + rewrite fn_lookup_insert. by apply Hok, Hrefs.
    + rewrite fn_lookup_insert_ne by done. by apply Hrefs.
  - by eapply stage_move.
  - apply knows_insert; [|done]. intros. by eapply Hkn.
Qed.

(** The clients and a thread that has returned. *)
Lemma inv_idle m l st t s s' :
  inv m l st → threads m !! t = Some s → reading s = None → reading s' = None →
  stage t s = None → stage t s' = None → knows (free_list m) s' →
  inv (FlMachine (free_list m) (<[t := s']> (threads m)) (held m)) l st.
Proof. intros. eapply inv_thread; try done; congruence. Qed.

Lemma moves_preserve t m m' l st :
  zlen (threads m) < 2 ^ 31 - 1 → inv m l st → fl_moves ndebug t m m' →
  ∃ l' st', inv m' l' st'.
Proof.
  intros Hfew Hi Hm. destruct Hm as [p Ht Hp|Ht|s f' s' Ht Hs|s Ht Hs].
  - apply (fi_held _ _ _ _ Hi) in Hp as [HD Hst]. exists l, (<[p := Giving t]> st).
    eapply inv_client; try done; rewrite ?Hst; try done.
    + right. split_and!; by auto.
    + intros q. rewrite elem_of_difference, elem_of_singleton, (fi_held _ _ _ _ Hi).
      destruct (decide (q = p)) as [->|Hne]; [rewrite fn_lookup_insert; naive_solver|].
      rewrite fn_lookup_insert_ne by done. naive_solver.
  - exists l, st. by eapply inv_idle.
  - destruct (fl_running s) eqn:Hrun; [|by destruct s].
    pose proof (step_preserves ndebug D m l st t Hi Hfew s Ht Hrun) as Hstep.
    unfold runs in Hstep. rewrite Hs in Hstep. destruct Hstep as (l' & st' & Hi' & _).
    by exists l', st'.
  - destruct (stage t s) as [[p x]|] eqn:Hst.
    + destruct s as [| | | | | | | | | | | | | | | |[|p']]; simplify_eq/=.
      destruct (in_hand _ _ _ _ _ _ _ _ Hi Ht eq_refl) as (n & Hn & Hst & _).
      assert (HD : S p' ∈ D) by (apply (node_in_D _ _ _ _ _ Hi); by eexists).
      exists l, (<[S p' := Held]> st). eapply inv_client; try done; rewrite ?Hst; try done.
      * right. split_and!; by auto.
      * intros q. rewrite elem_of_union, elem_of_singleton, (fi_held _ _ _ _ Hi).
        destruct (decide (q = S p')) as [->|Hne]; [rewrite fn_lookup_insert; naive_solver|].
        rewrite fn_lookup_insert_ne by done. naive_solver.
    + exists l, st. assert (fl_returned s = ∅) as ->.
      { destruct s as [| | | | | | | | | | | | | | | |[|p']]; done. }
      rewrite (right_id_L ∅ (∪)). eapply inv_idle; try done. by destruct s.
Qed.

Lemma moves_threads t m m' : fl_moves ndebug t m m' → zlen (threads m') = zlen (threads m).
Proof. unfold zlen. destruct 1; simpl; by rewrite length_insert. Qed.

Definition fl_good m : Prop := zlen (threads m) < 2 ^ 31 - 1 ∧ ∃ l st, inv m l st.

Lemma any_good m m' : fl_good m → fl_any ndebug m m' → fl_good m'.
Proof.
  intros (Hfew & l & st & Hi) [t Hm]. split; [by rewrite (moves_threads _ _ _ Hm)|].
  by eapply moves_preserve.
Qed.

Lemma fl_steps_good m m' : fl_good m → rtc (fl_any ndebug) m m' → fl_good m'.
Proof. intros Hg. induction 1 as [|m m1 m' Hm _ IH]; [done|]. by apply IH, (any_good m). Qed.
End machine.

(** Nodes as [Block] makes them. *)
Definition fresh_nodes {N} `{!FreeListNode N} (ns : gmap nat N) : Prop :=
  ns !! 0%nat = None ∧ ∀ p n, ns !! p = Some n → freeListRefs n = 0.

(** What [n] threads can do with a list and the nodes [ns]. *)
Definition fl_reachable {N} `{!FreeListNode N} (ndebug : bool) (ns : gmap nat N) (n : nat)
    (m : fl_machine N) : Prop :=
  rtc (fl_any ndebug) (fl_initial ns n) m.

Section reachable.
Context {N : Type} `{!FreeListNode N} (ndebug : bool) (ns : gmap nat N) (n : nat).
Context (Hns : fresh_nodes ns) (Hn : Z.of_nat n < 2 ^ 31 - 1).
Implicit Types (m : fl_machine N).

Lemma initial_inv : fl_inv (dom ns) (fl_initial ns n) [] (λ _, Held).
Proof using Hns.
  destruct Hns as [H0 Hz]. constructor; simpl; try done.
  - split; [done|]. rewrite not_elem_of_dom. exact H0.
  - split; [done|constructor].
  - intros p. split; [by intros ?%not_elem_of_nil|]. by intros [_ ?].
  - intros p. naive_solver.
  - intros p nd Hp. simpl. rewrite readers_idle; [by apply Hz in Hp|].
    intros s Hs. apply elem_of_replicate in Hs as [-> _]. done.
  - intros t p x. split.
    + intros (s & Hs & Hst). apply lookup_replicate in Hs as [-> _]. done.
    + by intros (_ & <- & ?).
  - intros t s Hs. apply lookup_replicate in Hs as [-> _]. done.
Qed.

Lemma fl_reachable_good m : fl_reachable ndebug ns n m → fl_good (dom ns) m.
Proof using Hns Hn.
  apply fl_steps_good. split; [|exists [], (λ _, Held); apply initial_inv].
  unfold zlen. simpl. by rewrite length_replicate.
Qed.
End reachable.

(** ** The properties *)

(** The nodes on the list, from the head on. *)
Definition on_list {N} `{!FreeListNode N} (f : FreeList N) (l : list nat) : Prop :=
  linked f (freeListHead f) l.

Lemma on_list_unique {N} `{!FreeListNode N} (f : FreeList N) head l l' :
  nodes f !! 0%nat = None → linked f head l → linked f head l' → l = l'.
Proof.
  intros H0. revert head l'. induction l as [|p l IH]; intros head [|p' l'] Hl Hl'; simpl in *; [done|..].
  - destruct Hl' as (<- & n & Hn & _). congruence.
  - destruct Hl as (<- & n & Hn & _). congruence.
  - destruct Hl as (-> & n & Hn & Hl), Hl' as (<- & n' & Hn' & Hl').
    assert (n' = n) as -> by congruence. f_equal. by eapply IH.
Qed.

(** Whose hands a node is in. *)
Definition in_flight {N} (m : fl_machine N) (p : nat) : Prop :=
  ∃ t s, threads m !! t = Some s ∧ fl_running s = true ∧
    ((∃ x, stage t s = Some (p, x)) ∨ reading s = Some p).

Section properties.
Context {N : Type} `{!FreeListNode N} (D : gset nat).
Implicit Types (m : fl_machine N) (l : list nat) (st : nat → status).

Lemma reading_runs s p : reading s = Some p → fl_running s = true.
Proof. by destruct s. Qed.

Lemma readers_pos (ths : list fl_thread) p :
  0 < readers ths p → ∃ t s, ths !! t = Some s ∧ reading s = Some p.
Proof.
  induction ths as [|s ths IH]; simpl; [lia|]. destruct (decide (reading s = Some p)) as [Hs|Hs].
  - intros _. by exists 0%nat, s.
  - unfold sees. rewrite decide_False by done. intros Hr. destruct (IH ltac:(lia)) as (t & s' & ? & ?).
    by exists (S t), s'.
Qed.

(** Every node is somewhere. *)
Lemma inv_where m l st p :
  fl_inv D m l st → p ∈ D →
  p ∈ l ∨ p ∈ held m ∨ (∃ t, threads m !! t = Some (FGot p)) ∨ in_flight m p.
Proof.
  intros Hi Hp. destruct (in_hands_of (st p)) as [t|] eqn:Hh.
  - destruct (proj2 (fi_stage _ _ _ _ Hi t p (st p))) as (s & Hs & Hst); [done|].
    destruct (fl_running s) eqn:Hrun.
    + right. right. right. exists t, s. split_and!; [done..|]. left. by eexists.
    + right. right. left. exists t. rewrite Hs.
      destruct s as [| | | | | | | | | | | | | | | |[|p']]; simplify_eq/=. done.
  - destruct (st p) eqn:Hst; try discriminate.
    + left. by apply (fi_on _ _ _ _ Hi).
    + right. left. by apply (fi_held _ _ _ _ Hi).
    + right. right. right. destruct (proj2 (node_in_D _ _ _ _ p Hi) Hp) as [n Hn].
      pose proof (fi_refs _ _ _ _ Hi p n Hn) as Hok. rewrite Hst in Hok. destruct Hok as [_ Hr].
      destruct (readers_pos _ _ Hr) as (t & s & Hs & Hrd). exists t, s.
      split_and!; [done|by eapply reading_runs|by right].
Qed.

(** What a thread has got. *)
Lemma inv_got m l st t p :
  fl_inv D m l st → threads m !! t = Some (FGot p) → p ≠ 0%nat →
  p ∈ D ∧ st p = Gotten t.
Proof.
  intros Hi Ht Hp. destruct p as [|p]; [done|].
  destruct (in_hand _ _ _ _ _ _ _ _ Hi Ht eq_refl) as (n & Hn & Hst & _). split; [|done].
  apply (node_in_D _ _ _ _ _ Hi). by eexists.
Qed.
End properties.

(** C4: Several threads that add nodes and get nodes never do anything wrong, and never get
    the same node: each access a thread in a call is about to make succeeds, the
    assertion of [try_get] included; a node that is returned is one of the nodes,
    is not on the list, is not among those the clients have already, and no other
    thread is given it. *)
Theorem free_list_safe {N : Type} `{!FreeListNode N} (ndebug : bool) (ns : gmap nat N) (n : nat)
    (Hns : fresh_nodes ns) (Hn : Z.of_nat n < 2 ^ 31 - 1) (m : fl_machine N)
    (Hm : fl_reachable ndebug ns n m) :
  (∀ t s, threads m !! t = Some s → fl_running s = true →
     ∃ f' s', fl_step (X := Empty_set) ndebug s (free_list m) = Ok (f', Returns s')) ∧
  (∀ t p, threads m !! t = Some (FGot p) → p ≠ 0%nat →
     p ∈ dom ns ∧ (p ∉ held m) ∧ (∀ l, on_list (free_list m) l → p ∉ l) ∧
     (∀ t', threads m !! t' = Some (FGot p) → t' = t)).
Proof.
  destruct (fl_reachable_good ndebug ns n Hns Hn m Hm) as (Hfew & l & st & Hi). split.
  - intros t s Ht Hrun. pose proof (step_preserves ndebug _ m l st t Hi Hfew s Ht Hrun) as Hstep.
    unfold runs in Hstep. destruct (fl_step _ _ _) as [[f' [s'|[]]]|]; [|done..]. by exists f', s'.
  - intros t p Ht Hp. destruct (inv_got _ _ _ _ _ _ Hi Ht Hp) as [HD Hst].
    split_and!; [done| | |].
    + rewrite (fi_held _ _ _ _ Hi). intros [_ ?]. congruence.
    + intros l' Hl'. assert (l' = l) as ->.
      { destruct (fi_list _ _ _ _ Hi) as [Hl _], (fi_dom _ _ _ _ Hi) as [Hd H0].
        eapply on_list_unique; [|done..]. apply not_elem_of_dom. by rewrite Hd. }
      rewrite (fi_on _ _ _ _ Hi). intros [_ ?]. congruence.
    + intros t' Ht'. destruct (inv_got _ _ _ _ _ _ Hi Ht' Hp) as [_ Hst']. congruence.
Qed.

(** C8: No node is lost: when no thread is in a call, every node is on the list or with the
    clients (or just being returned to them), in one place only, and only the list holds
    references. *)
Theorem free_list_conserves {N : Type} `{!FreeListNode N} (ndebug : bool) (ns : gmap nat N)
    (n : nat) (Hns : fresh_nodes ns) (Hn : Z.of_nat n < 2 ^ 31 - 1) (m : fl_machine N)
    (Hm : fl_reachable ndebug ns n m)
    (Hidle : ∀ t s, threads m !! t = Some s → fl_running s = false) :
  ∃ l, on_list (free_list m) l ∧ NoDup l ∧
    (∀ p, p ∈ dom ns ↔ p ∈ l ∨ p ∈ held m ∨ (p ≠ 0%nat ∧ ∃ t, threads m !! t = Some (FGot p))) ∧
    (∀ p, p ∈ l → (p ∉ held m) ∧ (∀ t, threads m !! t ≠ Some (FGot p))) ∧
    (∀ p nd, nodes (free_list m) !! p = Some nd → freeListRefs nd = if decide (p ∈ l) then 1 else 0).
Proof.
  destruct (fl_reachable_good ndebug ns n Hns Hn m Hm) as (Hfew & l & st & Hi).
  destruct (fi_list _ _ _ _ Hi) as [Hl Hnd]. destruct (fi_dom _ _ _ _ Hi) as [Hd H0].
  assert (Hflight : ∀ p, ¬ in_flight m p).
  { intros p (t & s & Hs & Hrun & _). by rewrite (Hidle t s Hs) in Hrun. }
  exists l. split_and!; [done..| | |].
  - intros p. split.
    + intros Hp. destruct (inv_where _ _ _ _ _ Hi Hp) as [?|[?|[?|?]]]; [by auto..| |by destruct (Hflight p)].
      right. right. split; [|done]. by intros ->.
    + rewrite (fi_on _ _ _ _ Hi), (fi_held _ _ _ _ Hi). intros [[? _]|[[? _]|[Hp [t Ht]]]]; [done..|].
      by apply (inv_got _ _ _ _ _ _ Hi Ht).
  - intros p Hp. rewrite (fi_held _ _ _ _ Hi). apply (fi_on _ _ _ _ Hi) in Hp as [Hp Hst]. split.
    + intros [_ ?]. congruence.
    + intros t Ht. assert (p ≠ 0%nat) as Hp0 by (by intros ->).
      destruct (inv_got _ _ _ _ _ _ Hi Ht Hp0). congruence.
  - intros p nd Hp. pose proof (fi_refs _ _ _ _ Hi _ _ Hp) as Hok.
    assert (HD : p ∈ dom ns) by (apply (node_in_D _ _ _ _ _ Hi); by eexists).
    rewrite readers_idle in Hok.
    2: { intros s (t & Ht)%list_elem_of_lookup. destruct (reading s) as [q|] eqn:Hr; [|done].
         apply reading_runs in Hr. by rewrite (Hidle t s Ht) in Hr. }
    destruct (inv_where _ _ _ _ _ Hi HD) as [Hon|[Hh|[[t Ht]|Hf]]].
    + rewrite decide_True by done. apply (fi_on _ _ _ _ Hi) in Hon as [_ Hst].
      by rewrite Hst in Hok.
    + apply (fi_held _ _ _ _ Hi) in Hh as [_ Hst]. rewrite Hst in Hok. rewrite decide_False; [done|].
      rewrite (fi_on _ _ _ _ Hi). intros [_ ?]. congruence.
    + assert (p ≠ 0%nat) as Hp0 by (by intros ->). destruct (inv_got _ _ _ _ _ _ Hi Ht Hp0) as [_ Hst].
      rewrite Hst in Hok. rewrite decide_False; [done|].
      rewrite (fi_on _ _ _ _ Hi). intros [_ ?]. congruence.
    + by destruct (Hflight p).
Qed.

(** ** Progress *)
Section progress.
Context {N : Type} `{!FreeListNode N} (ndebug : bool) (D : gset nat).
Implicit Types (m : fl_machine N) (l : list nat) (st : nat → status).

(** A thread that is in a call makes an access. *)
Definition fl_internal m m' : Prop :=
  ∃ t s f' s', threads m !! t = Some s ∧
    fl_step (X := Empty_set) ndebug s (free_list m) = Ok (f', Returns s') ∧
    m' = FlMachine f' (<[t := s']> (threads m)) (held m).

Lemma internal_any m m' : fl_internal m m' → fl_any ndebug m m'.
Proof. intros (t & s & f' & s' & Ht & Hs & ->). exists t. by eapply fl_go. Qed.

Lemma internal_closer m m' l st :
  zlen (threads m) < 2 ^ 31 - 1 → fl_inv D m l st → fl_internal m m' →
  zlen (threads m') < 2 ^ 31 - 1 ∧ ∃ l' st', fl_inv D m' l' st' ∧ closer D m st m' st'.
Proof.
  intros Hfew Hi (t & s & f' & s' & Ht & Hs & ->).
  split; [unfold zlen in *; simpl; by rewrite length_insert|].
  destruct (fl_running s) eqn:Hrun; [|by destruct s].
  pose proof (step_preserves ndebug D m l st t Hi Hfew s Ht Hrun) as Hstep.
  unfold runs in Hstep. by rewrite Hs in Hstep.
Qed.

Lemma internal_acc a b c m l st :
  head_moves D m st = a → ref_moves m = b → other_moves m = c →
  zlen (threads m) < 2 ^ 31 - 1 → fl_inv D m l st → Acc (λ m2 m1, fl_internal m1 m2) m.
Proof.
  revert b c m l st. induction a as [a IHa] using lt_wf_ind.
  induction b as [b IHb] using lt_wf_ind. induction c as [c IHc] using lt_wf_ind.
  intros m l st Ha Hb Hc Hfew Hi. constructor. intros m' Hm.
  destruct (internal_closer _ _ _ _ Hfew Hi Hm) as (Hfew' & l' & st' & Hi' & [Hlt|[Heq [Hlt|[Heq' Hlt]]]]).
  - rewrite Ha in Hlt. by eapply IHa.
  - rewrite Ha in Heq. rewrite Hb in Hlt. by eapply IHb.
  - rewrite Ha in Heq. rewrite Hb in Heq'. rewrite Hc in Hlt. by eapply IHc.
Qed.

Lemma fl_good_steps m t s :
  fl_good D m → threads m !! t = Some s → fl_running s = true → ∃ m', fl_internal m m'.
Proof.
  intros (Hfew & l & st & Hi) Ht Hrun.
  pose proof (step_preserves ndebug D m l st t Hi Hfew s Ht Hrun) as Hstep.
  unfold runs in Hstep. destruct (fl_step _ _ _) as [[f' [s'|[]]]|] eqn:Hs; [|done..].
  eexists. by exists t, s, f', s'.
Qed.

(** Steps of all threads while the thread [t] is in a call. *)
Definition fl_within (t : nat) m m' : Prop :=
  fl_any ndebug m m' ∧ ∃ s, threads m !! t = Some s ∧ fl_running s = true.

(** A thread that has seen the list empty. *)
Definition nil_seen (s : fl_thread) : bool :=
  match s with
  | FGot 0 | FGetDrop _ 0 | FPushHead (AfterGet 0) _ | FPushNext (AfterGet 0) _ _
  | FPushRefs (AfterGet 0) _ _ | FPushCas (AfterGet 0) _ _ | FPushBack (AfterGet 0) _ _ => true
  | _ => false
  end.

Lemma nil_seen_round head : nil_seen (get_round head) = true → head = 0%nat.
Proof. unfold get_round. case_bool_decide; [done|]. by intros. Qed.

Lemma nil_seen_step s f f' s' :
  fl_step (X := Empty_set) ndebug s f = Ok (f', Returns s') → s ≠ FGetRelease 0 →
  nil_seen s' = true → nil_seen s = true ∨ freeListHead f = 0%nat.
Proof.
  assert (Hres : ∀ k, nil_seen (resume k) = true → k = AfterGet 0).
  { intros [|head]; simpl; [done|]. by intros ->%nil_seen_round. }
  destruct s; simpl; unfold fetch_add_refs, store_next, store_refs, cas_refs, cas_head, check_taken,
    load_head, load_node, store_node, mbind, M_bind, mret, M_ret, gets, modify; simpl; intros Hs H0 Hn;
    repeat case_match; simplify_eq/=; try done; auto;
    try (by apply Hres in Hn as ->; left);
    try (by right; apply nil_seen_round).
  all: try (apply nil_seen_round in Hn as ->; by left).
  - destruct (freeListHead f'); [by right|done].
  - by destruct head.
Qed.

Lemma good_within t m m' : fl_good D m → rtc (fl_within t) m m' → fl_good D m'.
Proof. intros Hg. induction 1 as [|m m1 m' [Hm _] _ IH]; [done|]. by apply IH, (any_good ndebug D m). Qed.

(** A list without nodes: all of them are elsewhere. *)
Lemma empty_where m :
  fl_good D m → freeListHead (free_list m) = 0%nat →
  ∀ p, p ∈ D → p ∈ held m ∨ (∃ t, threads m !! t = Some (FGot p)) ∨ in_flight m p.
Proof.
  intros (_ & l & st & Hi) Hz p Hp. destruct (fi_list _ _ _ _ Hi) as [Hl _].
  destruct (fi_dom _ _ _ _ Hi) as [Hd H0]. destruct l as [|q l]; simpl in Hl.
  - destruct (inv_where _ _ _ _ _ Hi Hp) as [?%not_elem_of_nil|?]; [done|done].
  - destruct Hl as (Hq & n & Hn & _). destruct H0. rewrite <- Hd, elem_of_dom.
    exists n. congruence.
Qed.

Definition sees_nil t m : Prop := ∃ s, threads m !! t = Some s ∧ nil_seen s = true.

Lemma nil_seen_within t m m' :
  fl_good D m → fl_within t m m' → sees_nil t m' →
  sees_nil t m ∨ freeListHead (free_list m) = 0%nat.
Proof.
  intros (_ & l & st & Hi) ([t2 Hm] & s & Ht & Hrun) (s' & Ht' & Hnil).
  destruct (decide (t2 = t)) as [->|Hne].
  - destruct Hm as [p Hidle _|Hidle|s0 f' s1 Hs0 Hstep|s0 Hs0 Hr].
    + rewrite Ht in Hidle. injection Hidle as ->. discriminate.
    + rewrite Ht in Hidle. injection Hidle as ->. discriminate.
    + rewrite Ht in Hs0. injection Hs0 as <-. simpl in Ht'. rewrite list_lookup_insert_eq in Ht' by (by eapply lookup_lt_Some). injection Ht' as ->.
      apply nil_seen_step in Hstep as [?|?]; [left; by exists s|by right| |done].
      intros ->. destruct (in_hand _ _ _ _ _ _ _ _ Hi Ht eq_refl) as (n & Hn & _).
      destruct (fi_dom _ _ _ _ Hi) as [Hd H0]. destruct H0. rewrite <- Hd, elem_of_dom. by exists n.
    + rewrite Ht in Hs0. injection Hs0 as <-. congruence.
  - left. exists s. split; [done|]. enough (s' = s) by congruence.
    destruct Hm; simpl in Ht'; rewrite list_lookup_insert_ne in Ht' by done; congruence.
Qed.

Lemma nil_seen_when t m m' :
  fl_good D m → rtc (fl_within t) m m' → sees_nil t m' →
  sees_nil t m ∨
  ∃ m1, rtc (fl_within t) m m1 ∧ rtc (fl_within t) m1 m' ∧ freeListHead (free_list m1) = 0%nat.
Proof.
  intros Hg Hsteps Hnil. induction Hsteps as [|m m1 m' Hm Hsteps IH]; [by left|].
  assert (Hg1 : fl_good D m1) by (eapply any_good; [exact Hg|apply Hm]).
  destruct (IH Hg1 Hnil) as [Hnil1|(m2 & ? & ? & ?)].
  - destruct (nil_seen_within _ _ _ Hg Hm Hnil1) as [?|?]; [by left|]. right. exists m.
    split_and!; [done|by eapply rtc_l|done].
  - right. exists m2. split_and!; [by eapply rtc_l|done|done].
Qed.
End progress.

(** When [try_get] returns null, the list was empty at some moment during the call: all
    nodes were with the clients or in the hands of threads that were adding or getting
    them. *)
Theorem free_list_null_is_empty {N : Type} `{!FreeListNode N} (ndebug : bool)
    (ns : gmap nat N) (n : nat) (Hns : fresh_nodes ns) (Hn : Z.of_nat n < 2 ^ 31 - 1)
    (t : nat) (m m' : fl_machine N) (Hm : fl_reachable ndebug ns n m)
    (Hcall : threads m !! t = Some FGetHead) (Hsteps : rtc (fl_within ndebug t) m m')
    (Hnull : threads m' !! t = Some (FGot 0)) :
  ∃ m1, rtc (fl_within ndebug t) m m1 ∧ rtc (fl_within ndebug t) m1 m' ∧
    on_list (free_list m1) [] ∧
    ∀ p, p ∈ dom ns → p ∈ held m1 ∨ (∃ t', threads m1 !! t' = Some (FGot p)) ∨ in_flight m1 p.
Proof.
  pose proof (fl_reachable_good ndebug ns n Hns Hn m Hm) as Hg.
  destruct (nil_seen_when ndebug (dom ns) t m m' Hg Hsteps) as [(s & Hs & ?)|(m1 & H1 & H2 & Hz)].
  - by exists (FGot 0).
  - rewrite Hcall in Hs. by simplify_eq.
  - exists m1. split_and!; [done..|]. eapply empty_where; [|done]. by eapply good_within.
Qed.

(** C6: The free list is lock-free: if no thread begins another call every execution
    comes to an end, whatever the order of the steps, and the end is that all calls
    have been completed. *)
Theorem free_list_lock_free {N : Type} `{!FreeListNode N} (ndebug : bool) (ns : gmap nat N)
    (n : nat) (Hns : fresh_nodes ns) (Hn : Z.of_nat n < 2 ^ 31 - 1) (m : fl_machine N)
    (Hm : fl_reachable ndebug ns n m) :
  Acc (λ m2 m1, fl_internal ndebug m1 m2) m ∧
  (∀ m' t s, rtc (fl_internal ndebug) m m' → threads m' !! t = Some s → fl_running s = true →
     ∃ m'', fl_internal ndebug m' m'').
Proof.
  pose proof (fl_reachable_good ndebug ns n Hns Hn m Hm) as Hg. split.
  - destruct Hg as (Hfew & l & st & Hi). by eapply internal_acc.
  - intros m' t s Hsteps Ht Hrun. eapply fl_good_steps; [|done..].
    eapply fl_steps_good; [exact Hg|]. clear Ht. induction Hsteps as [|m1 m2 m3 Hs _ IH]; [done|].
    eapply rtc_l; [by apply internal_any|]. apply IH.
    + eapply rtc_r; [exact Hm|by apply internal_any].
    + eapply any_good; [exact Hg|by apply internal_any].
Qed.

(** ** Schedules: the machine, executed *)
Inductive fl_command := CallAdd (t p : nat) | CallGet (t : nat) | Step (t : nat) | Return (t : nat).

Section schedules.
Context {N : Type} `{!FreeListNode N} (ndebug : bool).
Implicit Types (m : fl_machine N).

Definition fl_execute (o : fl_command) m : option (fl_machine N) :=
  match o with
  | CallAdd t p =>
      match threads m !! t with
      | Some FIdle =>
          if decide (p ∈ held m)
          then Some (FlMachine (free_list m) (<[t := FAdd p]> (threads m)) (held m ∖ {[p]}))
          else None
      | _ => None
      end
  | CallGet t =>
      match threads m !! t with
      | Some FIdle => Some (FlMachine (free_list m) (<[t := FGetHead]> (threads m)) (held m))
      | _ => None
      end
  | Step t =>
      s ← threads m !! t;
      match fl_step (X := Empty_set) ndebug s (free_list m) with
      | Ok (f', Returns s') => Some (FlMachine f' (<[t := s']> (threads m)) (held m))
      | _ => None
      end
  | Return t =>
      s ← threads m !! t;
      if fl_running s then None
      else Some (FlMachine (free_list m) (<[t := FIdle]> (threads m)) (held m ∪ fl_returned s))
  end.

Fixpoint fl_execute_all (l : list fl_command) m : option (fl_machine N) :=
  match l with [] => Some m | o :: l => fl_execute o m ≫= fl_execute_all l end.

Definition is_step (t : nat) (o : fl_command) : Prop :=
  match o with Step _ => True | CallAdd t' _ | CallGet t' | Return t' => t' ≠ t end.

Lemma fl_execute_moves o m m' : fl_execute o m = Some m' → fl_any ndebug m m'.
Proof.
  destruct o as [t p|t|t|t]; simpl; intros He; exists t.
  - repeat case_match; simplify_eq. by apply fl_call_add.
  - repeat case_match; simplify_eq. by apply fl_call_get.
  - destruct (threads m !! t) as [s|] eqn:Ht; simplify_eq/=.
    repeat case_match; simplify_eq. by eapply fl_go.
  - destruct (threads m !! t) as [s|] eqn:Ht; simplify_eq/=.
    repeat case_match; simplify_eq. by eapply fl_return.
Qed.

Lemma fl_execute_all_moves l m m' : fl_execute_all l m = Some m' → rtc (fl_any ndebug) m m'.
Proof.
  revert m. induction l as [|o l IH]; simpl; intros m He; [by injection He as <-|].
  destruct (fl_execute o m) as [m1|] eqn:Ho; [|done].
  eapply rtc_l; [by eapply fl_execute_moves|by apply IH].
Qed.

(** While [t] is in its call. *)
Fixpoint fl_execute_within (t : nat) (l : list fl_command) m : option (fl_machine N) :=
  match l with
  | [] => Some m
  | o :: l =>
      s ← threads m !! t;
      if fl_running s then fl_execute o m ≫= fl_execute_within t l else None
  end.

Lemma fl_execute_within_moves t l m m' :
  fl_execute_within t l m = Some m' → rtc (fl_within ndebug t) m m'.
Proof.
  revert m. induction l as [|o l IH]; simpl; intros m He; [by injection He as <-|].
  destruct (threads m !! t) as [s|] eqn:Ht; simplify_eq/=.
  destruct (fl_running s) eqn:Hrun; [|done].
  destruct (fl_execute o m) as [m1|] eqn:Ho; [|done].
  eapply rtc_l; [|by apply IH]. split; [by eapply fl_execute_moves|by exists s].
Qed.
End schedules.

(** Two threads and three nodes. *)
Module Nodes.
#[export] Instance pair_node : FreeListNode (Z * nat) := {
  freeListRefs := fst;
  freeListNext := snd;
  set_refs r n := (r, n.2);
  set_free_next p n := (n.1, p);
  refs_set_refs _ _ := eq_refl;
  refs_set_next _ _ := eq_refl;
  next_set_refs _ _ := eq_refl;
  next_set_next _ _ := eq_refl
}.

Definition fresh : gmap nat (Z * nat) := {[1%nat := (0, 0%nat); 2%nat := (0, 0%nat); 3%nat := (0, 0%nat)]}.
Definition start : fl_machine (Z * nat) := fl_initial fresh 2.
Definition after (l : list fl_command) : fl_machine (Z * nat) :=
  default start (fl_execute_all false l start).

Definition steps (t n : nat) : list fl_command := replicate n (Step t).
Definition put (t p : nat) : list fl_command := CallAdd t p :: steps t 5 ++ [Return t].
Definition take (t : nat) : list fl_command := CallGet t :: steps t 7 ++ [Return t].

Lemma fresh_ok : fresh_nodes fresh.
Proof.
  split; [reflexivity|]. intros p n. unfold fresh. rewrite !lookup_insert_Some, lookup_singleton_Some.
  intros [[_ <-]|[_ [[_ <-]|[_ [_ <-]]]]]; reflexivity.
Qed.

Lemma after_reachable l m :
  fl_execute_all false l start = Some m → fl_reachable false fresh 2 m.
Proof. apply fl_execute_all_moves. Qed.

(** Nodes 1 and 2 are put on the list, and thread 0 calls [try_get]. *)
Definition before : list fl_command := put 0 1 ++ put 0 2 ++ [CallGet 0].
Definition calling : fl_machine (Z * nat) := after before.

(** It sees that 1 follows 2; thread 1 takes both and adds 2 again.  Thread 0 has a
    reference to 2, so it is left to it to put 2 back.  It does when its compare-and-swap
    has failed, and returns null: the list was empty. *)
Definition meanwhile : list fl_command :=
  steps 0 4 ++ take 1 ++ take 1 ++ CallAdd 1 2 :: steps 1 1.
Definition crossed : fl_machine (Z * nat) := after (before ++ meanwhile).
Definition till_null : list fl_command := before ++ meanwhile ++ steps 0 6.
Definition null : fl_machine (Z * nat) := after till_null.

(** Thread 1 gets 2 while thread 0 adds 1. *)
Definition till_shared : list fl_command :=
  till_null ++ [Return 0; Return 1; CallAdd 0 1; CallGet 1] ++ steps 1 7.
Definition shared : fl_machine (Z * nat) := after till_shared.
End Nodes.
#[local] Existing Instance Nodes.pair_node.

Lemma free_list_safe_witness :
  (∃ f' s', fl_step (X := Empty_set) false (FGetCas 2 1) (free_list Nodes.crossed) = Ok (f', Returns s')) ∧
  threads Nodes.crossed !! 0%nat = Some (FGetCas 2 1) ∧
  2%nat ∈ dom Nodes.fresh ∧ (2%nat ∉ held Nodes.shared) ∧
  threads Nodes.shared = [FAdd 1; FGot 2].
Proof.
  destruct (free_list_safe false Nodes.fresh 2 Nodes.fresh_ok ltac:(lia) Nodes.crossed
    (Nodes.after_reachable (Nodes.before ++ Nodes.meanwhile) _ ltac:(vm_compute; reflexivity))) as [Hgo _].
  destruct (free_list_safe false Nodes.fresh 2 Nodes.fresh_ok ltac:(lia) Nodes.shared
    (Nodes.after_reachable Nodes.till_shared _ ltac:(vm_compute; reflexivity))) as [_ Hgot].
  destruct (Hgot 1%nat 2%nat ltac:(vm_compute; reflexivity) ltac:(discriminate)) as (Hd & Hh & _).
  split_and!; [| |exact Hd|exact Hh|vm_compute; reflexivity].
  - exact (Hgo 0%nat (FGetCas 2 1) ltac:(vm_compute; reflexivity) eq_refl).
  - vm_compute. reflexivity.
Defined.

Lemma free_list_conserves_witness :
  ∃ l, on_list (free_list Nodes.null) l ∧ NoDup l ∧
    (∀ p, p ∈ dom Nodes.fresh ↔
       p ∈ l ∨ p ∈ held Nodes.null ∨ (p ≠ 0%nat ∧ ∃ t, threads Nodes.null !! t = Some (FGot p))).
Proof.
  destruct (free_list_conserves false Nodes.fresh 2 Nodes.fresh_ok ltac:(lia) Nodes.null
    (Nodes.after_reachable Nodes.till_null _ ltac:(vm_compute; reflexivity))) as (l & Hl & Hnd & Hd & _).
  - intros [|[|t]] s; vm_compute; [intros [= <-]; reflexivity..|discriminate].
  - exists l. split_and!; assumption.
Defined.

Lemma free_list_null_is_empty_witness :
  threads Nodes.null !! 0%nat = Some (FGot 0) ∧
  ∃ m1, rtc (fl_within false 0) Nodes.calling m1 ∧ rtc (fl_within false 0) m1 Nodes.null ∧
    on_list (free_list m1) [].
Proof.
  split; [vm_compute; reflexivity|].
  destruct (free_list_null_is_empty false Nodes.fresh 2 Nodes.fresh_ok ltac:(lia) 0
    Nodes.calling Nodes.null
    (Nodes.after_reachable Nodes.before _ ltac:(vm_compute; reflexivity))
    ltac:(vm_compute; reflexivity)
    ltac:(apply (fl_execute_within_moves false 0 (Nodes.meanwhile ++ Nodes.steps 0 6)); vm_compute; reflexivity)
    ltac:(vm_compute; reflexivity)) as (m1 & H1 & H2 & H3 & _).
  exists m1. split_and!; assumption.
Defined.

Lemma free_list_lock_free_witness :
  Acc (λ m2 m1, fl_internal false m1 m2) Nodes.crossed ∧ (∃ m'', fl_internal false Nodes.crossed m'').
Proof.
  destruct (free_list_lock_free false Nodes.fresh 2 Nodes.fresh_ok ltac:(lia) Nodes.crossed
    (Nodes.after_reachable (Nodes.before ++ Nodes.meanwhile) _ ltac:(vm_compute; reflexivity))) as [Hacc Hstep].
  split; [exact Hacc|]. exact (Hstep Nodes.crossed 0%nat (FGetCas 2 1) (rtc_refl _ _) ltac:(vm_compute; reflexivity) eq_refl).
Defined.
