(* ===== verification/FreeListStack.v ===== *)
(** * The free list of moodycamel::ConcurrentQueue: one thread

    The members as one thread calls them are schedules of the thread of FreeList.v, and
    without other threads the list is a stack. *)
From stdpp Require Import gmap fin_maps.
From S2P Require Import Prelude Lifetime FreeList FreeListInvariant FreeListSteps.

#[local] Open Scope Z_scope.

(** ** Schedules *)
Section alone.
Context {N : Type} `{!FreeListNode N} (ndebug : bool).
#[local] Abbreviation L := (FreeList N).
#[local] Abbreviation M := (M Empty_set L).
Implicit Types (f : L).

(** The accesses of a thread that is alone. *)
Definition alone (a b : fl_thread * L) : Prop :=
  fl_step (X := Empty_set) ndebug a.1 a.2 = Ok (b.2, Returns b.1).

Lemma M_bind_inv {A B} (c : M A) (k : A → M B) f f' b :
  mbind k c f = Ok (f', Returns b) → ∃ f1 a, c f = Ok (f1, Returns a) ∧ k a f1 = Ok (f', Returns b).
Proof. unfold mbind, M_bind. destruct (c f) as [[f1 [a|[]]]|]; [|done]. intros Hk. by exists f1, a. Qed.

Lemma M_bind_eq {A B} (c : M A) (k : A → M B) f f1 a :
  c f = Ok (f1, Returns a) → mbind k c f = k a f1.
Proof. intros Hc. unfold mbind, M_bind. by rewrite Hc. Qed.

(** A step that is one access and a decision. *)
Lemma alone_step {A} (c : M A) (g : A → fl_thread) s f f1 a :
  fl_step ndebug s = (x ← c; mret (g x)) → c f = Ok (f1, Returns a) → alone (s, f) (g a, f1).
Proof. intros Hs Hc. unfold alone. simpl. rewrite Hs. by rewrite (M_bind_eq _ _ _ _ _ Hc). Qed.

#[local] Ltac access g :=
  eapply rtc_l; [eapply (alone_step _ g); [reflexivity|eassumption]|].

Lemma push_loop_alone fuel k p head f f' :
  push_loop (X := Empty_set) fuel p head f = Ok (f', Returns tt) → rtc alone (FPushNext k p head, f) (resume k, f').
Proof.
  revert head f. induction fuel as [|fuel IH]; intros head f; simpl; [done|].
  intros (f1 & [] & H1 & H2)%M_bind_inv. apply M_bind_inv in H2 as (f2 & [] & H2 & H3).
  apply M_bind_inv in H3 as (f3 & [done head'] & H3 & H4).
  access (λ _ : unit, FPushRefs k p head).
  access (λ _ : unit, FPushCas k p head).
  destruct done.
  - injection H4 as ->. apply rtc_once.
    unfold alone. simpl. by rewrite (M_bind_eq _ _ _ _ _ H3).
  - apply M_bind_inv in H4 as (f4 & refs & H4 & H5).
    apply (rtc_l _ _ (FPushBack k p head', f3)).
    { unfold alone. simpl. by rewrite (M_bind_eq _ _ _ _ _ H3). }
    access (λ refs : Z, if refs =? 1 then FPushNext k p head' else resume k).
    simpl. destruct (refs =? 1); [by apply IH|]. by injection H5 as ->.
Qed.

Lemma zero_alone fuel k p f f' :
  add_knowing_refcount_is_zero (X := Empty_set) fuel p f = Ok (f', Returns tt) →
  rtc alone (FPushHead k p, f) (resume k, f').
Proof.
  intros (f1 & head & H1 & H2)%M_bind_inv.
  access (λ head : nat, FPushNext k p head). by eapply push_loop_alone.
Qed.

Lemma add_alone fuel p f f' :
  add (X := Empty_set) fuel p f = Ok (f', Returns tt) → rtc alone (FAdd p, f) (FAdded, f').
Proof.
  intros (f1 & refs & H1 & H2)%M_bind_inv.
  access (λ refs : Z, if refs =? 0 then FPushHead AfterAdd p else FAdded).
  simpl. destruct (refs =? 0); [|by injection H2 as ->].
  apply (zero_alone _ AfterAdd _ _ _ H2).
Qed.

Lemma get_loop_alone fuel head f f' p :
  get_loop (X := Empty_set) ndebug fuel head f = Ok (f', Returns p) → rtc alone (get_round head, f) (FGot p, f').
Proof.
  revert head f. induction fuel as [|fuel IH]; intros head f; simpl; [done|]. unfold get_round.
  case_bool_decide as Hz; [by intros [= -> <-]|].
  intros (f1 & n & H1 & H2)%M_bind_inv. apply M_bind_inv in H2 as (f2 & taken & H2 & H3).
  access (λ n : N, if Z.land (freeListRefs n) REFS_MASK =? 0
    then FGetHead else FGetTake head (freeListRefs n)). simpl.
  destruct (Z.land (freeListRefs n) REFS_MASK =? 0).
  { injection H2 as <- <-. simpl in H3. apply M_bind_inv in H3 as (f3 & head' & H3 & H4).
    access get_round. by apply IH. }
  access (λ taken : bool, if taken then FGetNext head else FGetHead).
  simpl. destruct taken; simpl in H3.
  2: { apply M_bind_inv in H3 as (f3 & head' & H3 & H4).
       access get_round. by apply IH. }
  apply M_bind_inv in H3 as (f3 & n' & H3 & H4).
  access (λ n' : N, FGetCas head (freeListNext n')).
  apply M_bind_inv in H4 as (f4 & [done head'] & H4 & H5).
  apply (rtc_l _ _ (if done then FGetCheck head else FGetDrop head head', f4)).
  { unfold alone. simpl. by rewrite (M_bind_eq _ _ _ _ _ H4). }
  destruct done; simpl.
  - apply M_bind_inv in H5 as (f5 & [] & H5 & H6). apply M_bind_inv in H6 as (f6 & r & H6 & H7).
    access (λ _ : unit, FGetRelease head).
    access (λ _ : Z, FGot head). by injection H7 as -> <-.
  - apply M_bind_inv in H5 as (f5 & refs & H5 & H6). apply M_bind_inv in H6 as (f6 & [] & H6 & H7).
    access (λ refs : Z, if refs =? SHOULD_BE_ON_FREELIST + 1
      then FPushHead (AfterGet head') head else get_round head').
    simpl. destruct (refs =? SHOULD_BE_ON_FREELIST + 1).
    + etrans; [exact (zero_alone _ (AfterGet head') _ _ _ H6)|]. by apply IH.
    + injection H6 as ->. by apply IH.
Qed.
End alone.

(** ** A stack *)
Section stack.
Context {X N : Type} `{!FreeListNode N} (ndebug : bool).
#[local] Abbreviation L := (FreeList N).
Implicit Types (f : L) (l : list nat).

(** A list that no thread is using. *)
Record stack f l : Prop := {
  sk_null : nodes f !! 0%nat = None;
  sk_linked : linked f (freeListHead f) l;
  sk_nodup : NoDup l;
  sk_refs p n : nodes f !! p = Some n → freeListRefs n = if decide (p ∈ l) then 1 else 0
}.

(** What is left of a node when the list has been at it. *)
Definition put_back (head : nat) (n : N) : N :=
  set_refs 1 (set_free_next head (set_refs SHOULD_BE_ON_FREELIST n)).

Definition pushed f (p : nat) (n : N) : L :=
  sets f p (put_back (freeListHead f) n) p.

Lemma runs_sets p n' f head Q Qt F (c : M X L unit) :
  runs c (sets f p n' head) Q Qt F → runs c (mkFreeList (<[p := n']> (nodes f)) head) Q Qt F.
Proof. done. Qed.

Lemma add_runs fuel f p n :
  nodes f !! p = Some n → freeListRefs n = 0 →
  add (X := X) (S fuel) p f = Ok (pushed f p n, Returns tt).
Proof.
  intros Hn Hz.
  assert (Hrun : runs (add (X := X) (S fuel) p) f (λ _ f', f' = pushed f p n) (λ _ _, False) (λ _, False)).
  { eapply runs_bind, runs_fetch_add; [exact Hn|]. rewrite Hz. simpl.
    apply runs_bind, runs_gets. eapply runs_bind, runs_store_next; [apply lookup_insert_eq|].
    eapply runs_bind, runs_store_refs; [apply lookup_insert_eq|].
    apply runs_bind, runs_cas_head; [|done]. intros _. apply runs_ret.
    unfold pushed, sets. simpl. by rewrite !insert_insert_eq. }
  unfold runs in Hrun. destruct (add _ _ _) as [[f' [[]|]]|]; [by rewrite Hrun|done..].
Qed.

Lemma pushed_stack f l p n :
  stack f l → nodes f !! p = Some n → p ∉ l → stack (pushed f p n) (p :: l).
Proof.
  intros [H0 Hl Hnd Hr] Hn Hp. assert (Hp0 : p ≠ 0%nat) by congruence. constructor; simpl.
  - by rewrite lookup_insert_ne.
  - split; [done|]. eexists. split; [apply lookup_insert_eq|].
    unfold put_back. rewrite next_set_refs, next_set_next. apply (linked_ext f); [|done].
    intros q n' Hq Hn'. exists n'. simpl. rewrite lookup_insert_ne; [done|]. by intros ->.
  - by constructor.
  - intros q n'. destruct (decide (q = p)) as [->|Hne].
    + rewrite lookup_insert_eq. intros [= <-]. unfold put_back. rewrite refs_set_refs.
      rewrite decide_True; [done|by left].
    + rewrite lookup_insert_ne by done. intros Hq. rewrite (Hr _ _ Hq).
      apply decide_ext. rewrite elem_of_cons. naive_solver.
Qed.

(** The node that [try_get] takes, with and without the reference of the thread. *)
Definition taken (n : N) : N := set_refs 0 (set_refs 2 n).

Lemma try_get_empty fuel f :
  stack f [] → try_get (X := X) ndebug (S fuel) f = Ok (f, Returns 0%nat).
Proof. intros [_ Hl _ _]. simpl in Hl. unfold try_get, load_head, mbind, M_bind, gets. by rewrite Hl. Qed.

Lemma try_get_runs fuel f p l :
  stack f (p :: l) →
  ∃ n, nodes f !! p = Some n ∧ linked f (freeListNext n) l ∧
    try_get (X := X) ndebug (S fuel) f = Ok (sets f p (taken n) (freeListNext n), Returns p).
Proof.
  intros [H0 Hl Hnd Hr]. destruct Hl as (Hp & n & Hn & Hl). exists n. split_and!; [done..|].
  assert (Hr1 : freeListRefs n = 1) by (rewrite (Hr _ _ Hn), decide_True; [done|by left]).
  assert (Hp0 : p ≠ 0%nat) by congruence.
  assert (Hrun : runs (try_get (X := X) ndebug (S fuel)) f
    (λ p' f', p' = p ∧ f' = sets f p (taken n) (freeListNext n)) (λ _ _, False) (λ _, False)).
  { apply runs_bind, runs_gets. rewrite Hp. simpl. rewrite bool_decide_eq_false_2 by done.
    eapply runs_bind, runs_load_node; [done|]. rewrite Hr1.
    apply runs_bind. eapply runs_cas_refs; [done| |done]. intros _. simpl.
    eapply runs_bind, runs_load_node; [apply lookup_insert_eq|]. rewrite next_set_refs.
    apply runs_bind, runs_cas_head; [|done]. intros _. simpl.
    eapply runs_bind, runs_check_taken; [apply lookup_insert_eq|by rewrite refs_set_refs|].
    eapply runs_bind, runs_fetch_add; [apply lookup_insert_eq|]. apply runs_ret.
    split; [done|]. unfold sets, taken. simpl. by rewrite insert_insert_eq, refs_set_refs. }
  unfold runs in Hrun. destruct (try_get _ _ _) as [[f' [p'|]]|]; [|done..].
  by destruct Hrun as [-> ->].
Qed.

Lemma taken_stack f l p n :
  stack f (p :: l) → nodes f !! p = Some n → stack (sets f p (taken n) (freeListNext n)) l.
Proof.
  intros [H0 Hl Hnd Hr] Hn. apply NoDup_cons in Hnd as [Hp Hnd].
  destruct Hl as (_ & n' & Hn' & Hl). assert (n' = n) as -> by congruence.
  assert (Hp0 : p ≠ 0%nat) by congruence. constructor; simpl; [|..|done|].
  - by rewrite lookup_insert_ne.
  - apply (linked_ext f); [|done]. intros q n' Hq Hq'. exists n'. simpl.
    rewrite lookup_insert_ne; [done|]. by intros ->.
  - intros q n0. destruct (decide (q = p)) as [->|Hne].
    + rewrite lookup_insert_eq. intros [= <-]. unfold taken. rewrite refs_set_refs.
      by rewrite decide_False.
    + rewrite lookup_insert_ne by done. intros Hq. rewrite (Hr _ _ Hq).
      apply decide_ext. rewrite elem_of_cons. naive_solver.
Qed.
End stack.

(** Without other threads the list is a stack: [add] puts a node on top, [try_get] takes
    the top one off, or returns null if there is none; one round of the loops is enough.
    Both do what a thread of the machine does if no other one makes a step. *)
Theorem free_list_is_a_stack {N : Type} `{!FreeListNode N} (ndebug : bool) (fuel : nat)
    (f : FreeList N) (l : list nat) (Hf : stack f l) :
  (∀ p, is_Some (nodes f !! p) → p ∉ l →
     ∃ f', add (X := Empty_set) (S fuel) p f = Ok (f', Returns tt) ∧ stack f' (p :: l) ∧
       rtc (alone ndebug) (FAdd p, f) (FAdded, f')) ∧
  (∃ f', try_get (X := Empty_set) ndebug (S fuel) f = Ok (f', Returns (hd 0%nat l)) ∧
     stack f' (list.tail l) ∧ rtc (alone ndebug) (FGetHead, f) (FGot (hd 0%nat l), f')).
Proof.
  split.
  - intros p [n Hn] Hp.
    assert (Hz : freeListRefs n = 0) by (rewrite (sk_refs _ _ Hf _ _ Hn); by rewrite decide_False).
    pose proof (add_runs (X := Empty_set) fuel f p n Hn Hz) as Hadd.
    eexists. split_and!; [done|by apply pushed_stack|by eapply add_alone].
  - assert (Hget : ∃ f', try_get (X := Empty_set) ndebug (S fuel) f = Ok (f', Returns (hd 0%nat l)) ∧
      stack f' (list.tail l)).
    { destruct l as [|p l].
      - exists f. split; [by apply try_get_empty|done].
      - destruct (try_get_runs (X := Empty_set) ndebug fuel f p l Hf) as (n & Hn & _ & Hget).
        eexists. split; [done|]. by apply taken_stack. }
    destruct Hget as (f' & Hget & Hstack). exists f'. split_and!; [done..|].
    pose proof Hget as Hget'. unfold try_get in Hget'.
    apply M_bind_inv in Hget' as (f1 & head & H1 & H2).
    eapply rtc_l; [eapply (alone_step _ _ get_round); [reflexivity|eassumption]|].
    by eapply get_loop_alone.
Qed.

#[local] Instance pair_node : FreeListNode (Z * nat) := {
  freeListRefs := fst;
  freeListNext := snd;
  set_refs r n := (r, n.2);
  set_free_next p n := (n.1, p);
  refs_set_refs _ _ := eq_refl;
  refs_set_next _ _ := eq_refl;
  next_set_refs _ _ := eq_refl;
  next_set_next _ _ := eq_refl
}.

Lemma free_list_is_a_stack_witness :
  let f : FreeList (Z * nat) := mkFreeList {[1%nat := (0, 0%nat); 2%nat := (1, 0%nat)]} 2 in
  (∃ f', add (X := Empty_set) 1 1 f = Ok (f', Returns tt) ∧ stack f' [1%nat; 2%nat]) ∧
  (∃ f', try_get (X := Empty_set) false 1 f = Ok (f', Returns 2%nat) ∧ stack f' []).
Proof.
  intros f. assert (Hf : stack f [2%nat]).
  { constructor; [reflexivity| |repeat constructor; set_solver|].
    - split; [reflexivity|]. eexists. split; [vm_compute; reflexivity|reflexivity].
    - intros p n. unfold f. simpl. rewrite lookup_insert_Some, lookup_singleton_Some.
      intros [[<- <-]|[_ [<- <-]]]; reflexivity. }
  destruct (free_list_is_a_stack false 0 f [2%nat] Hf) as [Hadd (f2 & Hget & Hs2 & _)]. split.
  - destruct (Hadd 1%nat) as (f1 & Hf1 & Hs1 & _); [by eexists|set_solver|]. exists f1. split; assumption.
  - exists f2. split; assumption.
Defined.
