(* ===== verification/CqBlock.v ===== *)
(** * Blocks of moodycamel::ConcurrentQueue (src/externals/include/moodycamel/concurrentqueue.h)

    The traits, the functions of namespace details, and [Block]: room for [BLOCK_SIZE]
    elements, and how many of them have been dequeued, as a flag for each or as a
    counter.  A slot is [None] when no object lives in it; a flag is [None] as long as
    nothing has been stored in it, since the constructor of [Block] stores nothing. *)
From stdpp Require Import gmap.
From S2P Require Import Prelude Lifetime FreeList.

#[local] Open Scope Z_scope.

(** ** Arithmetic

    Both [size_t] and [index_t] are [std::size_t], 64 bits. *)
Definition const_numeric_max : Z := u64 (-1).

(** [_hash_32_or_64], the finalizers of MurmurHash3. *)
Definition hash_32 (h : Z) : Z :=
  let h := Z.lxor h (Z.shiftr h 16) in
  let h := u32 (h * 0x85ebca6b) in
  let h := Z.lxor h (Z.shiftr h 13) in
  let h := u32 (h * 0xc2b2ae35) in
  Z.lxor h (Z.shiftr h 16).

Definition hash_64 (h : Z) : Z :=
  let h := Z.lxor h (Z.shiftr h 33) in
  let h := u64 (h * 0xff51afd7ed558ccd) in
  let h := Z.lxor h (Z.shiftr h 33) in
  let h := u64 (h * 0xc4ceb9fe1a85ec53) in
  Z.lxor h (Z.shiftr h 33).

Definition circular_less_than (a b : Z) : bool := Z.shiftl 1 63 <? u64 (a - b).

(** The loop of [ceil_to_pow_2]: for (i = 1; i < sizeof(T); i <<= 1). *)
Fixpoint spread (fuel : nat) (i x : Z) : Z :=
  match fuel with
  | O => x
  | S fuel =>
      if i <? 8 then spread fuel (u64 (Z.shiftl i 1)) (Z.lor x (Z.shiftr x (Z.shiftl i 3))) else x
  end.

Definition ceil_to_pow_2 (x : Z) : Z :=
  let x := u64 (x - 1) in
  let x := Z.lor x (Z.shiftr x 1) in
  let x := Z.lor x (Z.shiftr x 2) in
  let x := Z.lor x (Z.shiftr x 4) in
  let x := spread 4 1 x in
  u64 (x + 1).

(** i & ~static_cast<index_t>(BLOCK_SIZE - 1) *)
Definition clear_bits (i mask : Z) : Z := Z.land i (u64 (Z.lnot mask)).

(** ** The traits

    [malloc allocated n bytes] says whether the [n]-th request, for that many bytes, is
    granted when [allocated] bytes are in use.  The sizes are those the compiler chooses;
    [ndebug] is the build. *)
Class Traits := {
  BLOCK_SIZE : Z;
  EXPLICIT_BLOCK_EMPTY_COUNTER_THRESHOLD : Z;
  EXPLICIT_INITIAL_INDEX_SIZE : Z;
  IMPLICIT_INITIAL_INDEX_SIZE : Z;
  INITIAL_IMPLICIT_PRODUCER_HASH_SIZE : Z;
  EXPLICIT_CONSUMER_CONSUMPTION_QUOTA_BEFORE_ROTATE : Z;
  Traits_MAX_SUBQUEUE_SIZE : Z;
  Traits_malloc : Z → nat → Z → bool;
  sizeof_Block : Z;
  sizeof_BlockIndexHeader : Z;
  sizeof_BlockIndexEntry : Z;
  alignof_BlockIndexEntry : Z;
  sizeof_ImplicitHeader : Z;   (* BlockIndexHeader and BlockIndexEntry of ImplicitProducer *)
  sizeof_ImplicitEntry : Z;
  alignof_ImplicitEntry : Z;
  sizeof_ExplicitProducer : Z;
  sizeof_ImplicitProducer : Z;
  sizeof_ImplicitProducerHash : Z;
  sizeof_ImplicitProducerKVP : Z;
  alignof_ImplicitProducerKVP : Z;
  ndebug : bool
}.

Definition MAX_SUBQUEUE_SIZE `{Traits} : Z :=
  if u64 (const_numeric_max - Traits_MAX_SUBQUEUE_SIZE) <? BLOCK_SIZE then const_numeric_max
  else u64 (u64 (Traits_MAX_SUBQUEUE_SIZE + (BLOCK_SIZE - 1)) / BLOCK_SIZE * BLOCK_SIZE).

(** [static_assert((n > 1) && !(n & (n - 1)))] and the others. *)
Definition power_of_2 (n : Z) : bool := Z.land n (u64 (n - 1)) =? 0.

Definition static_asserts `{Traits} : bool :=
  (1 <? BLOCK_SIZE) && power_of_2 BLOCK_SIZE &&
  (1 <? EXPLICIT_BLOCK_EMPTY_COUNTER_THRESHOLD) &&
  power_of_2 EXPLICIT_BLOCK_EMPTY_COUNTER_THRESHOLD &&
  (1 <? EXPLICIT_INITIAL_INDEX_SIZE) && power_of_2 EXPLICIT_INITIAL_INDEX_SIZE &&
  (1 <? IMPLICIT_INITIAL_INDEX_SIZE) && power_of_2 IMPLICIT_INITIAL_INDEX_SIZE &&
  ((INITIAL_IMPLICIT_PRODUCER_HASH_SIZE =? 0) || power_of_2 INITIAL_IMPLICIT_PRODUCER_HASH_SIZE).

(** ** Block *)
Inductive InnerQueueContext := implicit_context | explicit_context.

Record Block (T : Type) := mkBlock {
  elements : list (option T);
  next : nat;
  elementsCompletelyDequeued : Z;
  emptyFlags : list (option bool);
  block_freeListRefs : Z;
  block_freeListNext : nat;
  shouldBeOnFreeList : bool;
  dynamicallyAllocated : bool
}.
Arguments mkBlock {T} _ _ _ _ _ _ _ _.
Arguments elements {T} _.
Arguments next {T} _.
Arguments elementsCompletelyDequeued {T} _.
Arguments emptyFlags {T} _.
Arguments block_freeListRefs {T} _.
Arguments block_freeListNext {T} _.
Arguments shouldBeOnFreeList {T} _.
Arguments dynamicallyAllocated {T} _.

Definition set_elements {T} (l : list (option T)) (b : Block T) : Block T :=
  mkBlock l (next b) (elementsCompletelyDequeued b) (emptyFlags b) (block_freeListRefs b)
    (block_freeListNext b) (shouldBeOnFreeList b) (dynamicallyAllocated b).
Definition set_next {T} (p : nat) (b : Block T) : Block T :=
  mkBlock (elements b) p (elementsCompletelyDequeued b) (emptyFlags b) (block_freeListRefs b)
    (block_freeListNext b) (shouldBeOnFreeList b) (dynamicallyAllocated b).
Definition set_dequeued {T} (z : Z) (b : Block T) : Block T :=
  mkBlock (elements b) (next b) z (emptyFlags b) (block_freeListRefs b)
    (block_freeListNext b) (shouldBeOnFreeList b) (dynamicallyAllocated b).
Definition set_flags {T} (l : list (option bool)) (b : Block T) : Block T :=
  mkBlock (elements b) (next b) (elementsCompletelyDequeued b) l (block_freeListRefs b)
    (block_freeListNext b) (shouldBeOnFreeList b) (dynamicallyAllocated b).
Definition set_dynamic {T} (d : bool) (b : Block T) : Block T :=
  mkBlock (elements b) (next b) (elementsCompletelyDequeued b) (emptyFlags b)
    (block_freeListRefs b) (block_freeListNext b) (shouldBeOnFreeList b) d.

(** [Block] has the fields of a [FreeListNode]. *)
#[export] Instance Block_node {T} : FreeListNode (Block T) := {
  freeListRefs := block_freeListRefs;
  freeListNext := block_freeListNext;
  set_refs r b := mkBlock (elements b) (next b) (elementsCompletelyDequeued b) (emptyFlags b) r
    (block_freeListNext b) (shouldBeOnFreeList b) (dynamicallyAllocated b);
  set_free_next p b := mkBlock (elements b) (next b) (elementsCompletelyDequeued b) (emptyFlags b)
    (block_freeListRefs b) p (shouldBeOnFreeList b) (dynamicallyAllocated b);
  refs_set_refs _ _ := eq_refl;
  refs_set_next _ _ := eq_refl;
  next_set_refs _ _ := eq_refl;
  next_set_next _ _ := eq_refl
}.

Section block.
Context `{Traits} {T : Type}.
Implicit Types (b : Block T) (c : InnerQueueContext) (i : Z).

(** context == explicit_context && BLOCK_SIZE <= EXPLICIT_BLOCK_EMPTY_COUNTER_THRESHOLD *)
Definition uses_flags c : bool :=
  match c with
  | explicit_context => BLOCK_SIZE <=? EXPLICIT_BLOCK_EMPTY_COUNTER_THRESHOLD
  | implicit_context => false
  end.

(** [Block::Block] in raw memory. *)
Definition Block_new : Block T :=
  mkBlock (replicate (Z.to_nat BLOCK_SIZE) None) 0 0
    (replicate (if BLOCK_SIZE <=? EXPLICIT_BLOCK_EMPTY_COUNTER_THRESHOLD
                then Z.to_nat BLOCK_SIZE else 1) None)
    0 0 false true.

(** emptyFlags[i].load() *)
Definition flag_at (l : list (option bool)) (i : nat) : result bool :=
  match l !! i with
  | Some (Some f) => Ok f
  | Some None => Err dead_object
  | None => Err out_of_bounds
  end.

(** emptyFlags[i].store(f) *)
Definition store_flag (f : bool) (i : nat) (l : list (option bool)) : result (list (option bool)) :=
  match l !! i with
  | Some _ => Ok (<[i := Some f]> l)
  | None => Err out_of_bounds
  end.

(** The loop of [is_empty] over the [n] flags from [i] on. *)
Fixpoint check_flags (l : list (option bool)) (i n : nat) : result bool :=
  match n with
  | O => Ok true
  | S n => f ← flag_at l i; if (f : bool) then check_flags l (S i) n else Ok false
  end.

(** The loops of [set_all_empty] and [reset_empty]. *)
Fixpoint store_flags (f : bool) (i n : nat) (l : list (option bool)) :
    result (list (option bool)) :=
  match n with
  | O => Ok l
  | S n => l ← store_flag f i l; store_flags f (S i) n l
  end.

(** The loop of [set_many_empty], which asserts that the flags are not set. *)
Fixpoint raise_flags (i n : nat) (l : list (option bool)) : result (list (option bool)) :=
  match n with
  | O => Ok l
  | S n =>
      (if ndebug then Ok tt else f ← flag_at l i; cassert ndebug (negb f)) ≫= fun _ : () =>
      l ← store_flag true i l; raise_flags (S i) n l
  end.

Definition is_empty c b : result bool :=
  if uses_flags c then check_flags (emptyFlags b) 0 (Z.to_nat BLOCK_SIZE)
  else if elementsCompletelyDequeued b =? BLOCK_SIZE then Ok true
  else '() ← cassert ndebug (elementsCompletelyDequeued b <=? BLOCK_SIZE); Ok false.

(** Index [i] modulo the size of the block. *)
Definition offset_of i : Z := Z.land i (BLOCK_SIZE - 1).

Definition set_empty c i b : result (Block T * bool) :=
  if uses_flags c then
    l ← raise_flags (Z.to_nat (u64 (BLOCK_SIZE - 1 - offset_of i))) 1 (emptyFlags b);
    Ok (set_flags l b, false)
  else
    let prevVal := elementsCompletelyDequeued b in
    '() ← cassert ndebug (prevVal <? BLOCK_SIZE);
    Ok (set_dequeued (u64 (prevVal + 1)) b, prevVal =? BLOCK_SIZE - 1).

Definition set_many_empty c i (count : Z) b : result (Block T * bool) :=
  if uses_flags c then
    let i := u64 (BLOCK_SIZE - 1 - offset_of i - count + 1) in
    l ← raise_flags (Z.to_nat i) (Z.to_nat count) (emptyFlags b);
    Ok (set_flags l b, false)
  else
    let prevVal := elementsCompletelyDequeued b in
    '() ← cassert ndebug (u64 (prevVal + count) <=? BLOCK_SIZE);
    Ok (set_dequeued (u64 (prevVal + count)) b, u64 (prevVal + count) =? BLOCK_SIZE).

Definition set_all_empty c b : result (Block T) :=
  if uses_flags c then
    l ← store_flags true 0 (Z.to_nat BLOCK_SIZE) (emptyFlags b); Ok (set_flags l b)
  else Ok (set_dequeued BLOCK_SIZE b).

Definition reset_empty c b : result (Block T) :=
  if uses_flags c then
    l ← store_flags false 0 (Z.to_nat BLOCK_SIZE) (emptyFlags b); Ok (set_flags l b)
  else Ok (set_dequeued 0 b).
End block.
