(* ===== verification/CqPool.v ===== *)
(** * The memory of moodycamel::ConcurrentQueue, and its pool of blocks

    [Memory] holds the blocks by address, 0 being nullptr, and the chunks that
    [Traits::malloc] has given out, with their sizes.  Addresses are not reused.  [lost]
    counts the objects whose memory was used for another one or freed while they lived,
    unless their destructor is trivial.
    [BlockPool] are the members of the queue that deal with blocks: the array it was
    constructed with and the free list. *)
From stdpp Require Import gmap.
From S2P Require Import Prelude Lifetime FreeList CqBlock.

#[local] Open Scope Z_scope.

Record Memory (T : Type) := mkMemory {
  blocks : gmap nat (Block T);
  chunks : gmap nat Z;
  next_address : nat;
  requests : nat;
  allocated : Z;
  lost : nat
}.
Arguments mkMemory {T} _ _ _ _ _ _.
Arguments blocks {T} _.
Arguments chunks {T} _.
Arguments next_address {T} _.
Arguments requests {T} _.
Arguments allocated {T} _.
Arguments lost {T} _.

Definition no_memory_used {T} : Memory T := mkMemory ∅ ∅ 1 0 0 0.

Definition set_blocks {T} (h : gmap nat (Block T)) (m : Memory T) : Memory T :=
  mkMemory h (chunks m) (next_address m) (requests m) (allocated m) (lost m).
Definition lose {T} (n : nat) (m : Memory T) : Memory T :=
  mkMemory (blocks m) (chunks m) (next_address m) (requests m) (allocated m) (lost m + n).

Record BlockPool := mkPool {
  pool_freeListHead : nat;
  initialBlockPoolIndex : Z;
  initialBlockPool : nat;
  initialBlockPoolSize : Z
}.

Definition set_freeListHead (p : nat) (q : BlockPool) : BlockPool :=
  mkPool p (initialBlockPoolIndex q) (initialBlockPool q) (initialBlockPoolSize q).
Definition set_poolIndex (i : Z) (q : BlockPool) : BlockPool :=
  mkPool (pool_freeListHead q) i (initialBlockPool q) (initialBlockPoolSize q).
Definition set_pool (p : nat) (n : Z) (q : BlockPool) : BlockPool :=
  mkPool (pool_freeListHead q) (initialBlockPoolIndex q) p n.

Section memory.
Context `{Traits} {X T : Type} `{!CppType X T}.
#[local] Abbreviation Mem := (Memory T).

(** [assert] *)
Definition massert {S} (b : bool) : M X S unit := fun s =>
  match cassert ndebug b with Ok _ => Ok (s, Returns tt) | Err f => Err f end.

(** [Traits::malloc] for an array of [units] objects. *)
Definition malloc (bytes : Z) (units : nat) : M X Mem nat := fun m =>
  if Traits_malloc (allocated m) (requests m) bytes then
    Ok (mkMemory (blocks m) (<[next_address m := bytes]> (chunks m)) (next_address m + units)
          (S (requests m)) (allocated m + bytes) (lost m),
        Returns (next_address m))
  else
    Ok (mkMemory (blocks m) (chunks m) (next_address m) (S (requests m)) (allocated m) (lost m),
        Returns 0%nat).

(** [Traits::free] *)
Definition free (p : nat) : M X Mem unit := fun m =>
  if bool_decide (p = 0%nat) then Ok (m, Returns tt)
  else
    match chunks m !! p with
    | Some bytes =>
        Ok (mkMemory (blocks m) (delete p (chunks m)) (next_address m) (requests m)
              (allocated m - bytes) (lost m), Returns tt)
    | None => Err use_after_free
    end.

Definition load_block (p : nat) : M X Mem (Block T) := fun m =>
  match blocks m !! p with
  | Some b => Ok (m, Returns b)
  | None => Err use_after_free
  end.

(** ptr->f(...), for a member function of [Block]. *)
Definition on_block {A} (p : nat) (f : Block T → result (Block T * A)) : M X Mem A := fun m =>
  match blocks m !! p with
  | Some b =>
      match f b with
      | Ok (b', a) => Ok (set_blocks (<[p := b']> (blocks m)) m, Returns a)
      | Err e => Err e
      end
  | None => Err use_after_free
  end.

Definition modify_block (p : nat) (f : Block T → Block T) : M X Mem unit :=
  on_block p (fun b => Ok (f b, tt)).

Definition block_is_empty (c : InnerQueueContext) (p : nat) : M X Mem bool :=
  on_block p (fun b => e ← is_empty c b; Ok (b, e)).
Definition block_set_empty (c : InnerQueueContext) (p : nat) (i : Z) : M X Mem bool :=
  on_block p (set_empty c i).
Definition block_set_many_empty (c : InnerQueueContext) (p : nat) (i count : Z) : M X Mem bool :=
  on_block p (set_many_empty c i count).
Definition block_set_all_empty (c : InnerQueueContext) (p : nat) : M X Mem unit :=
  on_block p (fun b => b ← set_all_empty c b; Ok (b, tt)).
Definition block_reset_empty (c : InnerQueueContext) (p : nat) : M X Mem unit :=
  on_block p (fun b => b ← reset_empty c b; Ok (b, tt)).

(** The object at ( *ptr)[i] *)
Definition element_at (p : nat) (i : Z) : M X Mem T := fun m =>
  match blocks m !! p with
  | None => Err use_after_free
  | Some b =>
      match vector_at (elements b) (offset_of i) with
      | Ok (Some x) => Ok (m, Returns x)
      | Ok None => Err dead_object
      | Err f => Err f
      end
  end.

(** The object there has a new value, or has been destroyed. *)
Definition set_element (p : nat) (i : Z) (o : option T) : M X Mem unit :=
  modify_block p (fun b => set_elements (<[Z.to_nat (offset_of i) := o]> (elements b)) b).

(** ( *ptr)[i]->~T() *)
Definition destroy_element (p : nat) (i : Z) : M X Mem unit :=
  element_at p i ;; set_element p i None.

(** The objects that are lost with what is in their place. *)
Definition losses (l : list (option T)) : nat :=
  if trivially_destructible (traits (X := X) T) then 0 else length (omap id l).

(** An object has been constructed at ( *ptr)[i]. *)
Definition place (p : nat) (i : Z) (x : T) : M X Mem unit := fun m =>
  match blocks m !! p with
  | None => Err use_after_free
  | Some b =>
      match vector_at (elements b) (offset_of i) with
      | Ok o =>
          set_element p i (Some x) (lose (losses [o]) m)
      | Err f => Err f
      end
  end.

(** ** [create_array], [destroy_array], [create] and [destroy] for blocks *)

(** The constructors of the [n] blocks from the [i]-th on, in a chunk of [bytes] bytes. *)
Fixpoint construct_blocks (p : nat) (bytes : Z) (i n : nat) : M X Mem unit :=
  match n with
  | O => mret tt
  | S n =>
      if bytes <? sizeof_Block * Z.of_nat (S i) then fail out_of_bounds
      else
        modify (fun m => set_blocks (<[(p + i)%nat := Block_new]> (blocks m)) m) ;;
        construct_blocks p bytes (S i) n
  end.

Definition create_array (count : Z) : M X Mem nat :=
  massert (0 <? count) ;;
  let bytes := u64 (sizeof_Block * count) in
  p ← malloc bytes (Z.to_nat count);
  if bool_decide (p = 0%nat) then mret 0%nat
  else construct_blocks p bytes 0 (Z.to_nat count) ;; mret p.

(** ptr->~Block(): the memory of the elements goes with it. *)
Definition end_block (p : nat) : M X Mem unit := fun m =>
  match blocks m !! p with
  | Some b => Ok (lose (losses (elements b)) (set_blocks (delete p (blocks m)) m), Returns tt)
  | None => Err use_after_free
  end.

(** for (i = count; i != 0; ) (p + --i)->~Block(); *)
Fixpoint end_blocks (p : nat) (n : nat) : M X Mem unit :=
  match n with
  | O => mret tt
  | S n => end_block (p + n) ;; end_blocks p n
  end.

Definition destroy_array (p : nat) (count : Z) : M X Mem unit :=
  if bool_decide (p = 0%nat) then mret tt
  else massert (0 <? count) ;; end_blocks p (Z.to_nat count) ;; free p.

Definition create_block : M X Mem nat :=
  p ← malloc sizeof_Block 1;
  if bool_decide (p = 0%nat) then mret 0%nat
  else modify (fun m => set_blocks (<[p := Block_new]> (blocks m)) m) ;; mret p.

Definition destroy_block (p : nat) : M X Mem unit :=
  (if bool_decide (p = 0%nat) then mret tt else end_block p) ;; free p.
End memory.

(** ** The pool *)
Section pool.
Context `{Traits} {X T : Type} `{!CppType X T}.
#[local] Abbreviation Q := (Memory T * BlockPool)%type.

(** freeList.f(...) *)
Definition on_free_list {A} (f : M X (FreeList (Block T)) A) : M X Q A := fun '(m, q) =>
  match f (mkFreeList (blocks m) (pool_freeListHead q)) with
  | Ok (l, c) => Ok ((set_blocks (nodes l) m, set_freeListHead (freeListHead l) q), c)
  | Err e => Err e
  end.

(** for (i = 0; i < initialBlockPoolSize; ++i) initialBlockPool[i].dynamicallyAllocated = false; *)
Fixpoint mark_static (p : nat) (i n : nat) : M X (Memory T) unit :=
  match n with
  | O => mret tt
  | S n => modify_block (p + i) (set_dynamic false) ;; mark_static p (S i) n
  end.

Definition populate_initial_block_list (blockCount : Z) : M X Q unit :=
  if blockCount =? 0 then on_snd (modify (set_pool 0 blockCount))
  else
    p ← on_fst (create_array blockCount);
    let n := if bool_decide (p = 0%nat) then 0 else blockCount in
    on_snd (modify (set_pool p n)) ;;
    on_fst (mark_static p 0 (Z.to_nat n)).

Definition try_get_block_from_initial_pool : M X Q nat :=
  q ← on_snd (gets id);
  if initialBlockPoolSize q <=? initialBlockPoolIndex q then mret 0%nat
  else
    let index := initialBlockPoolIndex q in
    on_snd (modify (set_poolIndex (u64 (index + 1)))) ;;
    mret (if index <? initialBlockPoolSize q then (initialBlockPool q + Z.to_nat index)%nat
          else 0%nat).

(** One thread: the loops of the free list run once. *)
Definition add_block_to_free_list (p : nat) : M X Q unit := on_free_list (add 1 p).

(** while (block != nullptr), a unit of fuel for each block of the chain. *)
Fixpoint add_blocks_to_free_list (fuel : nat) (block : nat) : M X Q unit :=
  if bool_decide (block = 0%nat) then mret tt
  else
    match fuel with
    | O => fail out_of_fuel
    | S fuel =>
        b ← on_fst (load_block block);
        add_block_to_free_list block ;;
        add_blocks_to_free_list fuel (next b)
    end.

Definition try_get_block_from_free_list : M X Q nat := on_free_list (try_get ndebug 1).

(** [canAlloc] is [AllocationMode]. *)
Definition requisition_block (canAlloc : bool) : M X Q nat :=
  block ← try_get_block_from_initial_pool;
  if bool_decide (block ≠ 0%nat) then mret block
  else
    block ← try_get_block_from_free_list;
    if bool_decide (block ≠ 0%nat) then mret block
    else if canAlloc then on_fst create_block
    else mret 0%nat.

(** ~ConcurrentQueue: "Destroy global free list", the blocks from [block] on. *)
Fixpoint destroy_free_list (fuel : nat) (block : nat) : M X (Memory T) unit :=
  if bool_decide (block = 0%nat) then mret tt
  else
    match fuel with
    | O => fail out_of_fuel
    | S fuel =>
        b ← load_block block;
        (if dynamicallyAllocated b then destroy_block block else mret tt) ;;
        destroy_free_list fuel (block_freeListNext b)
    end.

Definition destroy_pool : M X Q unit :=
  head ← on_free_list head_unsafe;
  n ← on_fst (gets (fun m => size (blocks m)));
  on_fst (destroy_free_list n head) ;;
  q ← on_snd (gets id);
  on_fst (destroy_array (initialBlockPool q) (initialBlockPoolSize q)).
End pool.
