(* ===== verification/CqExplicit.v ===== *)
(** * The explicit producers of moodycamel::ConcurrentQueue

    A producer with a token: a ring of blocks linked by [next], of which [tailBlock] is
    the one being filled, and the block index, a circular array of entries that say
    where the elements from an index on are.  When the index is full a larger one takes
    its place; the old ones are kept until the end, so [blockIndex] is the list of
    all of them, the latest first.  An entry that has not been written is [None].

    The members as one thread executes them.  The state is the producer, the memory and
    the pool of its parent. *)
From stdpp Require Import gmap.
From S2P Require Import Prelude Lifetime FreeList CqBlock CqPool.

#[local] Open Scope Z_scope.

(** ** Producers *)
Record ProducerBase := mkProducerBase {
  tailIndex : Z;
  headIndex : Z;
  dequeueOptimisticCount : Z;
  dequeueOvercommit : Z;
  tailBlock : nat
}.

(** [ProducerBase::size_approx] *)
Definition producer_size_approx (p : ProducerBase) : Z :=
  if circular_less_than (headIndex p) (tailIndex p) then u64 (tailIndex p - headIndex p) else 0.

Record BlockIndexEntry := mkEntry {
  base : Z;
  entry_block : nat
}.

Record BlockIndexHeader := mkHeader {
  header_raw : nat;   (* where it is *)
  index_size : Z;
  index_front : Z;    (* the current slot *)
  entries : list (option BlockIndexEntry)
}.

Record ExplicitProducer := mkExplicit {
  producer_base :> ProducerBase;
  blockIndex : list BlockIndexHeader;
  pr_blockIndexSlotsUsed : Z;
  pr_blockIndexSize : Z;
  pr_blockIndexFront : Z   (* the next slot *)
}.

Definition set_tailIndex (z : Z) (e : ExplicitProducer) : ExplicitProducer :=
  mkExplicit (mkProducerBase z (headIndex e) (dequeueOptimisticCount e) (dequeueOvercommit e)
    (tailBlock e)) (blockIndex e) (pr_blockIndexSlotsUsed e) (pr_blockIndexSize e)
    (pr_blockIndexFront e).
Definition set_headIndex (z : Z) (e : ExplicitProducer) : ExplicitProducer :=
  mkExplicit (mkProducerBase (tailIndex e) z (dequeueOptimisticCount e) (dequeueOvercommit e)
    (tailBlock e)) (blockIndex e) (pr_blockIndexSlotsUsed e) (pr_blockIndexSize e)
    (pr_blockIndexFront e).
Definition set_optimistic (z : Z) (e : ExplicitProducer) : ExplicitProducer :=
  mkExplicit (mkProducerBase (tailIndex e) (headIndex e) z (dequeueOvercommit e) (tailBlock e))
    (blockIndex e) (pr_blockIndexSlotsUsed e) (pr_blockIndexSize e) (pr_blockIndexFront e).
Definition set_overcommit (z : Z) (e : ExplicitProducer) : ExplicitProducer :=
  mkExplicit (mkProducerBase (tailIndex e) (headIndex e) (dequeueOptimisticCount e) z
    (tailBlock e)) (blockIndex e) (pr_blockIndexSlotsUsed e) (pr_blockIndexSize e)
    (pr_blockIndexFront e).
Definition set_tailBlock (p : nat) (e : ExplicitProducer) : ExplicitProducer :=
  mkExplicit (mkProducerBase (tailIndex e) (headIndex e) (dequeueOptimisticCount e)
    (dequeueOvercommit e) p) (blockIndex e) (pr_blockIndexSlotsUsed e) (pr_blockIndexSize e)
    (pr_blockIndexFront e).
Definition set_blockIndex (l : list BlockIndexHeader) (e : ExplicitProducer) : ExplicitProducer :=
  mkExplicit e l (pr_blockIndexSlotsUsed e) (pr_blockIndexSize e) (pr_blockIndexFront e).
Definition set_slotsUsed (z : Z) (e : ExplicitProducer) : ExplicitProducer :=
  mkExplicit e (blockIndex e) z (pr_blockIndexSize e) (pr_blockIndexFront e).
Definition set_indexSize (z : Z) (e : ExplicitProducer) : ExplicitProducer :=
  mkExplicit e (blockIndex e) (pr_blockIndexSlotsUsed e) z (pr_blockIndexFront e).
Definition set_indexFront (z : Z) (e : ExplicitProducer) : ExplicitProducer :=
  mkExplicit e (blockIndex e) (pr_blockIndexSlotsUsed e) (pr_blockIndexSize e) z.

Section explicit.
Context `{Traits} {X T U : Type} `{!CppType X T}.
(** element = std::move(el), and whether that is noexcept. *)
Context (assign_result : U → T → U * T * completion X unit) (nothrow_assign : bool).
#[local] Abbreviation Mem := (Memory T).
#[local] Abbreviation Q := (ExplicitProducer * (Memory T * BlockPool))%type.

Definition get {A} (f : ExplicitProducer → A) : M X Q A := on_fst (gets f).
Definition put (f : ExplicitProducer → ExplicitProducer) : M X Q unit := on_fst (modify f).
Definition self : M X Q ExplicitProducer := get id.
Definition on_memory {P A} (m : M X Mem A) : M X (P * (Mem * BlockPool)) A := on_snd (on_fst m).

(** ** The block index *)

(** blockIndex.load(), which is also where pr_blockIndexRaw and pr_blockIndexEntries
    point; members of nullptr cannot be accessed. *)
Definition current_index : M X Q BlockIndexHeader :=
  l ← get blockIndex;
  match l with h :: _ => mret h | [] => fail use_after_free end.

Definition entry_at (h : BlockIndexHeader) (i : Z) : result BlockIndexEntry :=
  match vector_at (entries h) i with
  | Ok (Some n) => Ok n
  | Ok None => Err dead_object
  | Err f => Err f
  end.

Definition lift {S A} (r : result A) : M X S A := fun s =>
  match r with Ok a => Ok (s, Returns a) | Err f => Err f end.

(** The copying loop of [new_block_index]; it ends when it is back at the front. *)
Fixpoint copy_entries (fuel : nat) (h : BlockIndexHeader) (mask front i : Z) (j : nat)
    (l : list (option BlockIndexEntry)) : result (list (option BlockIndexEntry) * nat) :=
  match fuel with
  | O => Err out_of_fuel
  | S fuel =>
      n ← entry_at h i;
      if decide (j < length l)%nat then
        let l := <[j := Some n]> l in
        let i := Z.land (u64 (i + 1)) mask in
        if i =? front then Ok (l, S j) else copy_entries fuel h mask front i (S j) l
      else Err out_of_bounds
  end.

Definition index_bytes (n : Z) : Z :=
  u64 (sizeof_BlockIndexHeader + alignof_BlockIndexEntry - 1 + u64 (sizeof_BlockIndexEntry * n)).

(** What there is room for behind the header. *)
Definition index_room (bytes : Z) : nat :=
  Z.to_nat ((bytes - sizeof_BlockIndexHeader - (alignof_BlockIndexEntry - 1))
              / sizeof_BlockIndexEntry).

Definition new_block_index (numberOfFilledSlotsToExpose : Z) : M X Q bool :=
  e ← self;
  let prevBlockSizeMask := u64 (pr_blockIndexSize e - 1) in
  let n := u64 (Z.shiftl (pr_blockIndexSize e) 1) in
  put (set_indexSize n) ;;
  newRawPtr ← on_memory (malloc (index_bytes n) 1);
  if bool_decide (newRawPtr = 0%nat) then put (set_indexSize (Z.shiftr n 1)) ;; mret false
  else
    let raw := replicate (index_room (index_bytes n)) None in
    '(newBlockIndexEntries, j) ←
      (if negb (pr_blockIndexSlotsUsed e =? 0) then
         h ← current_index;
         lift (copy_entries (S (length (entries h))) h prevBlockSizeMask (pr_blockIndexFront e)
                 (Z.land (u64 (pr_blockIndexFront e - pr_blockIndexSlotsUsed e)) prevBlockSizeMask)
                 0 raw)
       else mret (raw, 0%nat));
    let header := mkHeader newRawPtr n (u64 (numberOfFilledSlotsToExpose - 1))
                    newBlockIndexEntries in
    put (set_blockIndex (header :: blockIndex e)) ;;
    put (set_indexFront (Z.of_nat j)) ;;
    mret true.

(** blockIndex.load()->front.store(z) *)
Definition store_front (z : Z) : M X Q unit :=
  l ← get blockIndex;
  match l with
  | h :: l => put (set_blockIndex (mkHeader (header_raw h) (index_size h) z (entries h) :: l))
  | [] => fail use_after_free
  end.

(** The entry at pr_blockIndexFront says that the tail block has the elements from
    [currentTailIndex] on. *)
Definition write_entry (currentTailIndex : Z) : M X Q unit :=
  e ← self;
  match blockIndex e with
  | h :: l =>
      if decide (Z.to_nat (pr_blockIndexFront e) < length (entries h))%nat then
        put (set_blockIndex
          (mkHeader (header_raw h) (index_size h) (index_front h)
             (<[Z.to_nat (pr_blockIndexFront e) := Some (mkEntry currentTailIndex (tailBlock e))]>
                (entries h)) :: l))
      else fail out_of_bounds
  | [] => fail use_after_free
  end.

(** pr_blockIndexFront = (pr_blockIndexFront + 1) & (pr_blockIndexSize - 1) *)
Definition advance_front : M X Q unit :=
  put (fun e => set_indexFront
    (Z.land (u64 (pr_blockIndexFront e + 1)) (u64 (pr_blockIndexSize e - 1))) e).

(** The slot of the index for the block an element is in.  The offset is converted to a
    signed type, and back by the division, since [BLOCK_SIZE] is unsigned. *)
Definition slot_for (h : BlockIndexHeader) (index : Z) : result Z :=
  let localBlockIndexHead := index_front h in
  n ← entry_at h localBlockIndexHead;
  let blockBaseIndex := clear_bits index (BLOCK_SIZE - 1) in
  let offset := u64 (blockBaseIndex - base n) / BLOCK_SIZE in
  Ok (Z.land (u64 (localBlockIndexHead + offset)) (u64 (index_size h - 1))).

(** ** Construction *)
Definition raw_explicit : ExplicitProducer := mkExplicit (mkProducerBase 0 0 0 0 0) [] 0 0 0.

Definition explicit_ctor : M X Q unit :=
  put (set_indexSize (Z.shiftr EXPLICIT_INITIAL_INDEX_SIZE 1)) ;;
  pool ← on_snd (on_snd (gets id));
  let poolBasedIndexSize := Z.shiftr (ceil_to_pow_2 (initialBlockPoolSize pool)) 1 in
  n ← get pr_blockIndexSize;
  (if n <? poolBasedIndexSize then put (set_indexSize poolBasedIndexSize) else mret tt) ;;
  new_block_index 0 ;;
  mret tt.

(** ** Enqueuing *)

(** There is not enough leeway for another block, or the size limit would be exceeded. *)
Definition is_full (head currentTailIndex : Z) : bool :=
  negb (circular_less_than head (u64 (currentTailIndex + BLOCK_SIZE))) ||
  (negb (MAX_SUBQUEUE_SIZE =? const_numeric_max) &&
   ((MAX_SUBQUEUE_SIZE =? 0) ||
    (u64 (MAX_SUBQUEUE_SIZE - BLOCK_SIZE) <? u64 (currentTailIndex - head)))).

(** Insert a new block in the circular linked list. *)
Definition insert_block (newBlock : nat) : M X Q unit :=
  tailBlock_ ← get tailBlock;
  (if bool_decide (tailBlock_ = 0%nat) then on_memory (modify_block newBlock (set_next newBlock))
   else
     b ← on_memory (load_block tailBlock_);
     on_memory (modify_block newBlock (set_next (next b))) ;;
     on_memory (modify_block tailBlock_ (set_next newBlock))) ;;
  put (set_tailBlock newBlock).

(** Whether the block ahead can be used again. *)
Definition next_is_empty : M X Q bool :=
  tailBlock_ ← get tailBlock;
  if bool_decide (tailBlock_ = 0%nat) then mret false
  else
    b ← on_memory (load_block tailBlock_);
    on_memory (block_is_empty explicit_context (next b)).

(** this->tailBlock = this->tailBlock->next *)
Definition advance_block : M X Q nat :=
  tailBlock_ ← get tailBlock;
  b ← on_memory (load_block tailBlock_);
  put (set_tailBlock (next b)) ;;
  mret (next b).

(** The first part of [enqueue] at the end of a block: [tailBlock] is a block for the
    elements from [currentTailIndex] on, or the answer is false. *)
Definition start_block (canAlloc : bool) (currentTailIndex : Z) : M X Q bool :=
  reuse ← next_is_empty;
  if (reuse : bool) then
    block ← advance_block;
    on_memory (block_reset_empty explicit_context block) ;;
    mret true
  else
    head ← get headIndex;
    massert (negb (circular_less_than currentTailIndex head)) ;;
    if is_full head currentTailIndex then mret false
    else
      e ← self;
      room ← (if bool_decide (blockIndex e = [])
                 || (pr_blockIndexSlotsUsed e =? pr_blockIndexSize e) then
                if negb canAlloc then mret false
                else new_block_index (pr_blockIndexSlotsUsed e)
              else mret true);
      if negb room then mret false
      else
        newBlock ← on_snd (requisition_block canAlloc);
        if bool_decide (newBlock = 0%nat) then mret false
        else
          on_memory (block_reset_empty explicit_context newBlock) ;;
          insert_block newBlock ;;
          put (fun e => set_slotsUsed (u64 (pr_blockIndexSlotsUsed e + 1)) e) ;;
          mret true.

(** MOODYCAMEL_NOEXCEPT_CTOR *)
Definition nothrow_ctor (c : category) : bool :=
  match c with
  | Lvalue => nothrow_copy_constructible (traits T)
  | Rvalue => nothrow_move_constructible (traits T)
  end.

(** new (( *block)[index]) T(std::forward<U>(element)) *)
Definition construct_at {P} (c : category) (block : nat) (index : Z) :
    M X (P * (Mem * BlockPool) * T) unit := fun '(q, x) =>
  match forward_ctor c x with
  | (x', Returns y) =>
      match on_memory (place block index y) q with
      | Ok (q', r) => Ok ((q', x'), r)
      | Err f => Err f
      end
  | (x', Throws e) => Ok ((q, x'), Throws e)
  end.

(** new (( *this->tailBlock)[index]) T(std::forward<U>(element)) *)
Definition construct_at_tail (c : category) (index : Z) : M X (Q * T) unit :=
  block ← on_fst (get tailBlock); construct_at c block index.

(** The handler of [enqueue]. *)
Definition revert_block (startBlock : nat) (originalBlockIndexSlotsUsed : Z) : M X Q unit :=
  put (set_slotsUsed originalBlockIndexSlotsUsed) ;;
  if bool_decide (startBlock = 0%nat) then mret tt else put (set_tailBlock startBlock).

(** Add the tail block to the block index. *)
Definition add_to_index (currentTailIndex : Z) : M X Q unit :=
  write_entry currentTailIndex ;;
  front ← get pr_blockIndexFront;
  store_front front ;;
  advance_front.

Definition explicit_enqueue (canAlloc : bool) (c : category) : M X (Q * T) bool :=
  currentTailIndex ← on_fst (get tailIndex);
  let newTailIndex := u64 (1 + currentTailIndex) in
  let enqueue_here :=
    construct_at_tail c currentTailIndex ;;
    on_fst (put (set_tailIndex newTailIndex)) ;;
    mret true in
  if Z.land currentTailIndex (BLOCK_SIZE - 1) =? 0 then
    startBlock ← on_fst (get tailBlock);
    originalBlockIndexSlotsUsed ← on_fst (get pr_blockIndexSlotsUsed);
    started ← on_fst (start_block canAlloc currentTailIndex);
    if negb started then mret false
    else if nothrow_ctor c then
      on_fst (add_to_index currentTailIndex) ;;
      enqueue_here
    else
      on_throw (on_fst (revert_block startBlock originalBlockIndexSlotsUsed))
        (construct_at_tail c currentTailIndex) ;;
      on_fst (add_to_index currentTailIndex) ;;
      on_fst (put (set_tailIndex newTailIndex)) ;;
      mret true
  else enqueue_here.

(** ** Dequeuing *)

(** element = std::move( *( *block)[index]) *)
Definition move_out {P} (block : nat) (index : Z) : M X (P * (Mem * BlockPool) * U) unit := fun '(q, r) =>
  match on_memory (element_at block index) q with
  | Ok (q, Returns x) =>
      let '(r', x', a) := assign_result r x in
      match on_memory (set_element (X := X) block index (Some x')) q with
      | Ok (q, _) => Ok ((q, r'), a)
      | Err f => Err f
      end
  | Ok (q, Throws e) => Ok ((q, r), Throws e)
  | Err f => Err f
  end.

(** What follows the assignment, whether it throws ([~Guard]) or not. *)
Definition finish_element (block : nat) (index : Z) : M X Q unit :=
  on_memory (destroy_element block index) ;;
  on_memory (block_set_empty explicit_context block index) ;;
  mret tt.

Definition explicit_dequeue : M X (Q * U) bool :=
  tail ← on_fst (get tailIndex);
  overcommit ← on_fst (get dequeueOvercommit);
  count ← on_fst (get dequeueOptimisticCount);
  if circular_less_than (u64 (count - overcommit)) tail then
    myDequeueCount ← on_fst (get dequeueOptimisticCount);
    on_fst (put (set_optimistic (u64 (myDequeueCount + 1)))) ;;
    massert (overcommit <=? myDequeueCount) ;;
    tail ← on_fst (get tailIndex);
    if circular_less_than (u64 (myDequeueCount - overcommit)) tail then
      index ← on_fst (get headIndex);
      on_fst (put (set_headIndex (u64 (index + 1)))) ;;
      localBlockIndex ← on_fst current_index;
      slot ← on_fst (lift (slot_for localBlockIndex index));
      n ← on_fst (lift (entry_at localBlockIndex slot));
      let block := entry_block n in
      (if nothrow_assign then noexcept (move_out block index)
       else on_throw (on_fst (finish_element block index)) (move_out block index)) ;;
      on_fst (finish_element block index) ;;
      mret true
    else
      on_fst (put (fun e => set_overcommit (u64 (dequeueOvercommit e + 1)) e)) ;;
      mret false
  else mret false.

(** ** Destruction *)

(** while (circular_less_than(pr_blockIndexEntries[i].base + BLOCK_SIZE, headIndex)) *)
Fixpoint skip_dequeued (fuel : nat) (h : BlockIndexHeader) (mask head i : Z) : result Z :=
  match fuel with
  | O => Err out_of_fuel
  | S fuel =>
      n ← entry_at h i;
      if circular_less_than (u64 (base n + BLOCK_SIZE)) head
      then skip_dequeued fuel h mask head (Z.land (u64 (i + 1)) mask)
      else Ok i
  end.

(** The block that is partially dequeued, if any. *)
Definition half_dequeued_block : M X Q nat :=
  head ← get headIndex;
  if Z.land head (BLOCK_SIZE - 1) =? 0 then mret 0%nat
  else
    h ← current_index;
    e ← self;
    let mask := u64 (pr_blockIndexSize e - 1) in
    i ← lift (skip_dequeued (S (length (entries h))) h mask head
                (Z.land (u64 (pr_blockIndexFront e - pr_blockIndexSlotsUsed e)) mask));
    n ← lift (entry_at h i);
    massert (circular_less_than (base n) head) ;;
    mret (entry_block n).

(** while (i != BLOCK_SIZE && (block != this->tailBlock || i != lastValidIndex))
      ( *block)[i++]->~T(); *)
Fixpoint destroy_elements (fuel : nat) (block : nat) (is_tail : bool) (i lastValidIndex : Z) :
    M X Mem unit :=
  if (i =? BLOCK_SIZE) || (is_tail && (i =? lastValidIndex)) then mret tt
  else
    match fuel with
    | O => fail out_of_fuel
    | S fuel =>
        destroy_element block i ;;
        destroy_elements fuel block is_tail (u64 (i + 1)) lastValidIndex
    end.

(** The loop over the blocks; [block] is the one before the next to look at. *)
Fixpoint destroy_all_elements (fuel : nat) (e : ExplicitProducer) (halfDequeuedBlock block : nat) :
    M X Mem unit :=
  match fuel with
  | O => fail out_of_fuel
  | S fuel =>
      b ← load_block block;
      let block := next b in
      e_ ← block_is_empty explicit_context block;
      (if (e_ : bool) then mret tt
       else
         let i := if bool_decide (block = halfDequeuedBlock)
                  then Z.land (headIndex e) (BLOCK_SIZE - 1) else 0 in
         let lastValidIndex :=
           if Z.land (tailIndex e) (BLOCK_SIZE - 1) =? 0 then BLOCK_SIZE
           else Z.land (tailIndex e) (BLOCK_SIZE - 1) in
         destroy_elements (Z.to_nat BLOCK_SIZE) block (bool_decide (block = tailBlock e)) i
           lastValidIndex) ;;
      if bool_decide (block = tailBlock e) then mret tt
      else destroy_all_elements fuel e halfDequeuedBlock block
  end.

(** do { ... } while (block != this->tailBlock) *)
Fixpoint release_blocks (fuel : nat) (block tailBlock_ : nat) : M X (Memory T * BlockPool) unit :=
  match fuel with
  | O => fail out_of_fuel
  | S fuel =>
      b ← on_fst (load_block block);
      (if dynamicallyAllocated b then on_fst (destroy_block block)
       else add_block_to_free_list block) ;;
      if bool_decide (next b = tailBlock_) then mret tt else release_blocks fuel (next b) tailBlock_
  end.

Fixpoint free_headers (l : list BlockIndexHeader) : M X Mem unit :=
  match l with
  | [] => mret tt
  | h :: l => free (header_raw h) ;; free_headers l
  end.

(** The loops run over the ring, with a unit of fuel for every block there is. *)
Definition explicit_dtor : M X Q unit :=
  tailBlock_ ← get tailBlock;
  n ← on_memory (gets (fun m => size (blocks m)));
  (if bool_decide (tailBlock_ = 0%nat) then mret tt
   else
     halfDequeuedBlock ← half_dequeued_block;
     e ← self;
     on_memory (destroy_all_elements n e halfDequeuedBlock tailBlock_) ;;
     on_snd (release_blocks n tailBlock_ tailBlock_)) ;;
  l ← get blockIndex;
  on_memory (free_headers l).
End explicit.
