(* ===== verification/CqExplicitBulk.v ===== *)
(** * Explicit producers: the bulk operations

    [enqueue_bulk] makes room for all elements before it constructs the first one; an
    exception takes everything back.  [dequeue_bulk] takes elements block by block.  An
    iterator is a position in an array of the caller's; going past its end is
    [client_misuse]. *)
From stdpp Require Import gmap.
From S2P Require Import Prelude Lifetime FreeList CqBlock CqPool CqExplicit.

#[local] Open Scope Z_scope.

Section bulk.
Context `{Traits} {X T U : Type} `{!CppType X T}.
Context (assign_result : U → T → U * T * completion X unit) (nothrow_assign : bool).
#[local] Abbreviation Mem := (Memory T).
#[local] Abbreviation Q := (ExplicitProducer * (Memory T * BlockPool))%type.

(** The first index of a block. *)
Definition block_start (i : Z) : Z := clear_bits i (BLOCK_SIZE - 1).

(** The index at which to stop in the block that [index] is in, on the way to [last]. *)
Definition stop_index (index last : Z) : Z :=
  let stopIndex := u64 (block_start index + BLOCK_SIZE) in
  if circular_less_than last stopIndex then last else stopIndex.

(** ** enqueue_bulk *)

(** "Allocate as many blocks as possible from ahead": what is left of [blockBaseDiff], the
    new [currentTailIndex] and [firstAllocatedBlock]. *)
Fixpoint reuse_blocks (fuel : nat) (blockBaseDiff currentTailIndex : Z)
    (firstAllocatedBlock : nat) : M X Q (Z * Z * nat) :=
  match fuel with
  | O => fail out_of_fuel
  | S fuel =>
      tailBlock_ ← get tailBlock;
      ahead ←
        (if (blockBaseDiff =? 0) || bool_decide (tailBlock_ = 0%nat) then mret false
         else
           b ← on_memory (load_block tailBlock_);
           if bool_decide (next b = firstAllocatedBlock) then mret false
           else on_memory (block_is_empty explicit_context (next b)));
      if negb ahead then mret (blockBaseDiff, currentTailIndex, firstAllocatedBlock)
      else
        let currentTailIndex := u64 (currentTailIndex + BLOCK_SIZE) in
        block ← advance_block;
        let firstAllocatedBlock :=
          if bool_decide (firstAllocatedBlock = 0%nat) then block else firstAllocatedBlock in
        write_entry currentTailIndex ;;
        advance_front ;;
        reuse_blocks fuel (u64 (blockBaseDiff - BLOCK_SIZE)) currentTailIndex firstAllocatedBlock
  end.

(** What [enqueue_bulk] remembers to be able to take everything back. *)
Record bulk_start := mkBulkStart {
  startBlock : nat;
  originalBlockIndexFront : Z;
  originalBlockIndexSlotsUsed : Z;
  firstAllocated : nat
}.

(** Undo changes, but keep injected blocks. *)
Definition undo_blocks (o : bulk_start) : M X Q unit :=
  put (set_indexFront (originalBlockIndexFront o)) ;;
  put (set_slotsUsed (originalBlockIndexSlotsUsed o)) ;;
  put (set_tailBlock (if bool_decide (startBlock o = 0%nat) then firstAllocated o
                      else startBlock o)).

(** "Now allocate as many blocks as necessary from the block pool": whether there were
    enough. *)
Fixpoint allocate_blocks (fuel : nat) (canAlloc : bool) (blockBaseDiff currentTailIndex : Z)
    (o : bulk_start) : M X Q (bool * bulk_start) :=
  match fuel with
  | O => fail out_of_fuel
  | S fuel =>
      if blockBaseDiff =? 0 then mret (true, o)
      else
        let currentTailIndex := u64 (currentTailIndex + BLOCK_SIZE) in
        head ← get headIndex;
        massert (negb (circular_less_than currentTailIndex head)) ;;
        let full := is_full head currentTailIndex in
        e ← self;
        '(room, o) ←
          (if bool_decide (blockIndex e = []) || (pr_blockIndexSlotsUsed e =? pr_blockIndexSize e)
              || full then
             if negb canAlloc || full then mret (false, o)
             else
               grown ← new_block_index (originalBlockIndexSlotsUsed o);
               mret (if (grown : bool) then
                       (true, mkBulkStart (startBlock o) (originalBlockIndexSlotsUsed o)
                                (originalBlockIndexSlotsUsed o) (firstAllocated o))
                     else (false, o))
           else mret (true, o));
        if negb room then undo_blocks o ;; mret (false, o)
        else
          newBlock ← on_snd (requisition_block canAlloc);
          if bool_decide (newBlock = 0%nat) then undo_blocks o ;; mret (false, o)
          else
            on_memory (block_set_all_empty explicit_context newBlock) ;;
            insert_block newBlock ;;
            let o := mkBulkStart (startBlock o) (originalBlockIndexFront o)
                       (originalBlockIndexSlotsUsed o)
                       (if bool_decide (firstAllocated o = 0%nat) then newBlock
                        else firstAllocated o) in
            put (fun e => set_slotsUsed (u64 (pr_blockIndexSlotsUsed e + 1)) e) ;;
            write_entry currentTailIndex ;;
            advance_front ;;
            allocate_blocks fuel canAlloc (u64 (blockBaseDiff - BLOCK_SIZE)) currentTailIndex o
  end.

(** "Reset each block's emptiness before we fill them up" *)
Fixpoint reset_blocks (fuel : nat) (block last : nat) : M X Mem unit :=
  match fuel with
  | O => fail out_of_fuel
  | S fuel =>
      block_reset_empty explicit_context block ;;
      if bool_decide (block = last) then mret tt
      else b ← load_block block; reset_blocks fuel (next b) last
  end.

(** The slot before pr_blockIndexFront becomes the current one. *)
Definition expose_front : M X Q unit :=
  e ← self;
  store_front (Z.land (u64 (pr_blockIndexFront e - 1)) (u64 (pr_blockIndexSize e - 1))).

(** while (currentTailIndex != stopIndex) ( *block)[currentTailIndex++]->~T(); *)
Fixpoint destroy_range (fuel : nat) (block : nat) (index stop : Z) : M X Mem unit :=
  if index =? stop then mret tt
  else
    match fuel with
    | O => fail out_of_fuel
    | S fuel => destroy_element block index ;; destroy_range fuel block (u64 (index + 1)) stop
    end.

(** The elements from [index] to [stop], of the blocks from [block] to [last]. *)
Fixpoint destroy_constructed (fuel : nat) (block last : nat) (index stop : Z) : M X Mem unit :=
  match fuel with
  | O => fail out_of_fuel
  | S fuel =>
      let stopIndex := stop_index index stop in
      destroy_range (Z.to_nat BLOCK_SIZE) block index stopIndex ;;
      if bool_decide (block = last) then mret tt
      else b ← load_block block; destroy_constructed fuel (next b) last stopIndex stop
  end.

(** "Oh dear, an exception's been thrown": [constructedStopIndex] is where. *)
Definition revert_bulk (o : bulk_start) (startTailIndex constructedStopIndex : Z) : M X Q unit :=
  lastBlockEnqueued ← get tailBlock;
  undo_blocks o ;;
  if trivially_destructible (traits T) then mret tt
  else
    let block := if Z.land startTailIndex (BLOCK_SIZE - 1) =? 0 then firstAllocated o
                 else startBlock o in
    n ← on_memory (gets (fun m => size (blocks m)));
    on_memory (destroy_constructed n block lastBlockEnqueued startTailIndex constructedStopIndex).

(** Constructing an element from *itemFirst. *)
Definition construct_item_at {P} (c : category) (i : nat) (block : nat) (index : Z) :
    M X (P * (Mem * BlockPool) * list T) unit := fun '(q, items) =>
  match items !! i with
  | None => Err client_misuse
  | Some x =>
      match construct_at c block index (q, x) with
      | Ok ((q', x'), r) => Ok ((q', <[i := x']> items), r)
      | Err f => Err f
      end
  end.

Definition construct_item (c : category) (i : nat) (index : Z) : M X (Q * list T) unit :=
  block ← on_fst (get tailBlock); construct_item_at c i block index.

(** The elements for one block; unless moving cannot throw they are copied. *)
Fixpoint fill_block (fuel : nat) (c : category) (o : bulk_start) (startTailIndex : Z) (i : nat)
    (index stopIndex : Z) : M X (Q * list T) nat :=
  if index =? stopIndex then mret i
  else
    match fuel with
    | O => fail out_of_fuel
    | S fuel =>
        (if nothrow_ctor (T := T) c then construct_item c i index
         else on_throw (on_fst (revert_bulk o startTailIndex index))
                (construct_item Lvalue i index)) ;;
        fill_block fuel c o startTailIndex (S i) (u64 (index + 1)) stopIndex
    end.

(** "Enqueue, one block at a time" *)
Fixpoint fill_blocks (fuel : nat) (c : category) (o : bulk_start) (startTailIndex newTailIndex : Z)
    (endBlock i : nat) (index : Z) : M X (Q * list T) unit :=
  match fuel with
  | O => fail out_of_fuel
  | S fuel =>
      let stopIndex := stop_index index newTailIndex in
      i ← fill_block (Z.to_nat BLOCK_SIZE) c o startTailIndex i index stopIndex;
      tailBlock_ ← on_fst (get tailBlock);
      if bool_decide (tailBlock_ = endBlock) then massert (stopIndex =? newTailIndex)
      else
        on_fst advance_block ;;
        fill_blocks fuel c o startTailIndex newTailIndex endBlock i stopIndex
  end.

(** How much further the last block reaches than the one before the first element. *)
Definition block_base_diff (startTailIndex count : Z) : Z :=
  u64 (block_start (u64 (startTailIndex + count - 1)) - block_start (u64 (startTailIndex - 1))).

Definition explicit_enqueue_bulk (canAlloc : bool) (c : category) (count : Z) :
    M X (Q * list T) bool :=
  startTailIndex ← on_fst (get tailIndex);
  startBlock ← on_fst (get tailBlock);
  front ← on_fst (get pr_blockIndexFront);
  slots ← on_fst (get pr_blockIndexSlotsUsed);
  let blockBaseDiff := block_base_diff startTailIndex count in
  let currentTailIndex := block_start (u64 (startTailIndex - 1)) in
  let n := S (Z.to_nat (blockBaseDiff / BLOCK_SIZE)) in
  '(ok, o) ←
    (if blockBaseDiff =? 0 then mret (true, mkBulkStart startBlock front slots 0)
     else
       '(blockBaseDiff, currentTailIndex, first) ←
         on_fst (reuse_blocks n blockBaseDiff currentTailIndex 0);
       '(ok, o) ← on_fst (allocate_blocks n canAlloc blockBaseDiff currentTailIndex
                            (mkBulkStart startBlock front slots first));
       if negb ok then mret (false, o)
       else
         tailBlock_ ← on_fst (get tailBlock);
         on_fst (on_memory (reset_blocks n (firstAllocated o) tailBlock_)) ;;
         (if nothrow_ctor (T := T) c then on_fst expose_front else mret tt) ;;
         mret (true, o));
  if negb ok then mret false
  else
    let newTailIndex := u64 (startTailIndex + count) in
    let aligned := Z.land startTailIndex (BLOCK_SIZE - 1) =? 0 in
    let first := firstAllocated o in
    endBlock ← on_fst (get tailBlock);
    on_fst (put (set_tailBlock startBlock)) ;;
    massert (negb aligned || negb (bool_decide (first = 0%nat)) || (count =? 0)) ;;
    (if aligned && negb (bool_decide (first = 0%nat)) then on_fst (put (set_tailBlock first))
     else mret tt) ;;
    fill_blocks (S n) c o startTailIndex newTailIndex endBlock 0 startTailIndex ;;
    (if negb (nothrow_ctor (T := T) c) && negb (bool_decide (first = 0%nat)) then
       on_fst expose_front
     else mret tt) ;;
    on_fst (put (set_tailIndex newTailIndex)) ;;
    mret true.

(** ** dequeue_bulk *)

(** *itemFirst = std::move(el), where the iterator is at position [i]. *)
Definition move_out_item {P} (block : nat) (index : Z) (i : nat) :
    M X (P * (Mem * BlockPool) * list U) unit :=
  fun '(q, items) =>
    match items !! i with
    | None => Err client_misuse
    | Some r =>
        match move_out assign_result block index (q, r) with
        | Ok ((q', r'), a) => Ok ((q', <[i := r']> items), a)
        | Err f => Err f
        end
    end.

(** "Iterate the blocks": the elements of a block have been dealt with; the next slot. *)
Definition finish_block (h : BlockIndexHeader) (slot : Z) (block : nat) (firstIndexInBlock
    endIndex : Z) : M X Q Z :=
  on_memory (block_set_many_empty explicit_context block firstIndexInBlock
               (u64 (endIndex - firstIndexInBlock))) ;;
  mret (Z.land (u64 (slot + 1)) (u64 (index_size h - 1))).

(** "It's too late to revert the dequeue": the elements from [index] on are destroyed. *)
Fixpoint abandon (fuel : nat) (h : BlockIndexHeader) (slot firstIndexInBlock index last : Z) :
    M X Q unit :=
  match fuel with
  | O => fail out_of_fuel
  | S fuel =>
      let endIndex := stop_index firstIndexInBlock last in
      n ← lift (entry_at h slot);
      let block := entry_block n in
      on_memory (destroy_range (Z.to_nat BLOCK_SIZE) block index endIndex) ;;
      slot ← finish_block h slot block firstIndexInBlock endIndex;
      if endIndex =? last then mret tt else abandon fuel h slot endIndex endIndex last
  end.

(** The elements of one block. *)
Fixpoint take_block (fuel : nat) (h : BlockIndexHeader) (slot : Z) (block : nat)
    (firstIndexInBlock index endIndex last : Z) (i : nat) : M X (Q * list U) nat :=
  if index =? endIndex then mret i
  else
    match fuel with
    | O => fail out_of_fuel
    | S fuel =>
        (if nothrow_assign then noexcept (move_out_item block index i)
         else
           n ← on_fst (on_memory (gets (fun m => size (blocks m))));
           on_throw (on_fst (abandon n h slot firstIndexInBlock index last))
             (move_out_item block index i)) ;;
        on_fst (on_memory (destroy_element block index)) ;;
        take_block fuel h slot block firstIndexInBlock (u64 (index + 1)) endIndex last (S i)
    end.

Fixpoint take_blocks (fuel : nat) (h : BlockIndexHeader) (slot index last : Z) (i : nat) :
    M X (Q * list U) unit :=
  match fuel with
  | O => fail out_of_fuel
  | S fuel =>
      let endIndex := stop_index index last in
      n ← on_fst (lift (entry_at h slot));
      let block := entry_block n in
      i ← take_block (Z.to_nat BLOCK_SIZE) h slot block index index endIndex last i;
      slot ← on_fst (finish_block h slot block index endIndex);
      if endIndex =? last then mret tt else take_blocks fuel h slot endIndex last i
  end.

Definition explicit_dequeue_bulk (max : Z) (i : nat) : M X (Q * list U) Z :=
  tail ← on_fst (get tailIndex);
  overcommit ← on_fst (get dequeueOvercommit);
  count ← on_fst (get dequeueOptimisticCount);
  let desiredCount := u64 (tail - u64 (count - overcommit)) in
  if circular_less_than 0 desiredCount then
    let desiredCount := if desiredCount <? max then desiredCount else max in
    myDequeueCount ← on_fst (get dequeueOptimisticCount);
    on_fst (put (set_optimistic (u64 (myDequeueCount + desiredCount)))) ;;
    massert (overcommit <=? myDequeueCount) ;;
    tail ← on_fst (get tailIndex);
    let actualCount := u64 (tail - u64 (myDequeueCount - overcommit)) in
    if circular_less_than 0 actualCount then
      let actualCount := if desiredCount <? actualCount then desiredCount else actualCount in
      (if actualCount <? desiredCount then
         on_fst (put (fun e => set_overcommit
           (u64 (dequeueOvercommit e + u64 (desiredCount - actualCount))) e))
       else mret tt) ;;
      firstIndex ← on_fst (get headIndex);
      on_fst (put (set_headIndex (u64 (firstIndex + actualCount)))) ;;
      localBlockIndex ← on_fst current_index;
      slot ← on_fst (lift (slot_for localBlockIndex firstIndex));
      take_blocks (S (Z.to_nat (actualCount / BLOCK_SIZE + 1))) localBlockIndex slot firstIndex
        (u64 (firstIndex + actualCount)) i ;;
      mret actualCount
    else
      on_fst (put (fun e => set_overcommit (u64 (dequeueOvercommit e + desiredCount)) e)) ;;
      mret 0
  else mret 0.
End bulk.
