(* ===== verification/CqImplicit.v ===== *)
(** * The implicit producers of moodycamel::ConcurrentQueue

    The producer of a thread that enqueues without a token.  Its blocks go back to the
    free list as soon as all their elements have been dequeued.  The block index is a
    circular array of pointers to entries; [tail] is the slot of the last block.  When it
    is full, an index of twice the size takes its place, with pointers to the same entries
    and as many new ones.  The old ones are kept until the end: [implicit_blockIndex] is the
    list of all of them, the latest first, and [index_entries] are the entries of all of
    them, the oldest first.  A pointer to an entry is its position in this list.  The value
    of an entry is [None] as long as nothing has been stored in it. *)
From stdpp Require Import gmap.
From S2P Require Import Prelude Lifetime FreeList CqBlock CqPool CqExplicit CqExplicitBulk.

#[local] Open Scope Z_scope.

Definition INVALID_BLOCK_BASE : Z := 1.

Record ImplicitIndexEntry := mkIndexEntry {
  key : Z;
  value : option nat
}.

Record ImplicitIndexHeader := mkImplicitHeader {
  implicit_raw : nat;   (* where it is *)
  capacity : Z;
  index_tail : Z;
  index : list (option nat)
}.

Record ImplicitProducer := mkImplicit {
  implicit_base :> ProducerBase;
  nextBlockIndexCapacity : Z;
  implicit_blockIndex : list ImplicitIndexHeader;
  index_entries : list ImplicitIndexEntry
}.

Definition base_tailIndex (z : Z) (p : ProducerBase) : ProducerBase :=
  mkProducerBase z (headIndex p) (dequeueOptimisticCount p) (dequeueOvercommit p) (tailBlock p).
Definition base_headIndex (z : Z) (p : ProducerBase) : ProducerBase :=
  mkProducerBase (tailIndex p) z (dequeueOptimisticCount p) (dequeueOvercommit p) (tailBlock p).
Definition base_optimistic (z : Z) (p : ProducerBase) : ProducerBase :=
  mkProducerBase (tailIndex p) (headIndex p) z (dequeueOvercommit p) (tailBlock p).
Definition base_overcommit (z : Z) (p : ProducerBase) : ProducerBase :=
  mkProducerBase (tailIndex p) (headIndex p) (dequeueOptimisticCount p) z (tailBlock p).
Definition base_tailBlock (b : nat) (p : ProducerBase) : ProducerBase :=
  mkProducerBase (tailIndex p) (headIndex p) (dequeueOptimisticCount p) (dequeueOvercommit p) b.

Definition on_base (f : ProducerBase → ProducerBase) (e : ImplicitProducer) : ImplicitProducer :=
  mkImplicit (f e) (nextBlockIndexCapacity e) (implicit_blockIndex e) (index_entries e).
Definition set_headers (l : list ImplicitIndexHeader) (e : ImplicitProducer) : ImplicitProducer :=
  mkImplicit e (nextBlockIndexCapacity e) l (index_entries e).
Definition set_entries (l : list ImplicitIndexEntry) (e : ImplicitProducer) : ImplicitProducer :=
  mkImplicit e (nextBlockIndexCapacity e) (implicit_blockIndex e) l.

Section implicit.
Context `{Traits} {X T U : Type} `{!CppType X T}.
Context (assign_result : U → T → U * T * completion X unit) (nothrow_assign : bool).
#[local] Abbreviation Mem := (Memory T).
#[local] Abbreviation Q := (ImplicitProducer * (Memory T * BlockPool))%type.

Definition iget {A} (f : ImplicitProducer → A) : M X Q A := on_fst (gets f).
Definition iput (f : ImplicitProducer → ImplicitProducer) : M X Q unit := on_fst (modify f).

(** ** The block index *)

(** blockIndex.load(), where it is going to be dereferenced. *)
Definition implicit_index : M X Q ImplicitIndexHeader :=
  l ← iget implicit_blockIndex;
  match l with h :: _ => mret h | [] => fail use_after_free end.

(** blockIndex->tail.store(z) *)
Definition store_index_tail (z : Z) : M X Q unit :=
  l ← iget implicit_blockIndex;
  match l with
  | h :: l => iput (set_headers (mkImplicitHeader (implicit_raw h) (capacity h) z (index h) :: l))
  | [] => fail use_after_free
  end.

(** The pointer index[i]. *)
Definition index_slot (h : ImplicitIndexHeader) (i : Z) : result nat :=
  match vector_at (index h) i with
  | Ok (Some k) => Ok k
  | Ok None => Err dead_object
  | Err f => Err f
  end.

Definition load_entry (k : nat) : M X Q ImplicitIndexEntry :=
  l ← iget index_entries;
  match l !! k with Some n => mret n | None => fail out_of_bounds end.

(** entry->value.load() *)
Definition load_value (k : nat) : M X Q nat :=
  n ← load_entry k;
  match value n with Some p => mret p | None => fail dead_object end.

Definition store_key (k : nat) (z : Z) : M X Q unit :=
  n ← load_entry k;
  iput (fun e => set_entries (<[k := mkIndexEntry z (value n)]> (index_entries e)) e).

Definition store_value (k : nat) (p : nat) : M X Q unit :=
  n ← load_entry k;
  iput (fun e => set_entries (<[k := mkIndexEntry (key n) (Some p)]> (index_entries e)) e).

(** The bytes of a header, [n] entries and [slots] pointers, which take 8 bytes each. *)
Definition implicit_index_bytes (n slots : Z) : Z :=
  u64 (sizeof_ImplicitHeader + alignof_ImplicitEntry - 1 + u64 (sizeof_ImplicitEntry * n)
         + 8 - 1 + u64 (8 * slots)).

(** How many entries there is room for, and how many pointers behind [n] entries. *)
Definition entry_room (bytes : Z) : nat :=
  Z.to_nat ((bytes - sizeof_ImplicitHeader - (alignof_ImplicitEntry - 1)) / sizeof_ImplicitEntry).
Definition pointer_room (bytes n : Z) : nat :=
  Z.to_nat ((bytes - sizeof_ImplicitHeader - (alignof_ImplicitEntry - 1)
               - sizeof_ImplicitEntry * n - (8 - 1)) / 8).

(** index[i++] = prev->index[prevPos] until prevPos is prevTail. *)
Fixpoint copy_index (fuel : nat) (h : ImplicitIndexHeader) (prevPos : Z) (i : nat)
    (l : list (option nat)) : result (list (option nat) * nat) :=
  match fuel with
  | O => Err out_of_fuel
  | S fuel =>
      let prevPos := Z.land (u64 (prevPos + 1)) (u64 (capacity h - 1)) in
      k ← index_slot h prevPos;
      if decide (i < length l)%nat then
        let l := <[i := Some k]> l in
        if prevPos =? index_tail h then Ok (l, S i) else copy_index fuel h prevPos (S i) l
      else Err out_of_bounds
  end.

(** The [n] entries from the [i]-th on, in a chunk with [room] for entries; [j] pointers
    have been copied. *)
Fixpoint make_entries (n i room j : nat) (es : list ImplicitIndexEntry) (l : list (option nat)) :
    result (list ImplicitIndexEntry * list (option nat)) :=
  match n with
  | O => Ok (es, l)
  | S n =>
      if decide (i < room ∧ j + i < length l)%nat then
        make_entries n (S i) room j (es ++ [mkIndexEntry INVALID_BLOCK_BASE None])
          (<[(j + i)%nat := Some (length es)]> l)
      else Err out_of_bounds
  end.

Definition new_implicit_index : M X Q bool :=
  e ← iget id;
  let prev := hd_error (implicit_blockIndex e) in
  let prevCapacity := match prev with Some h => capacity h | None => 0 end in
  let newCapacity := nextBlockIndexCapacity e in
  let entryCount := match prev with Some _ => prevCapacity | None => newCapacity end in
  let bytes := implicit_index_bytes entryCount newCapacity in
  raw ← on_memory (malloc bytes 1);
  if bool_decide (raw = 0%nat) then mret false
  else
    let l := replicate (pointer_room bytes entryCount) None in
    l ← (match prev with
         | Some h =>
             '(l, i) ← lift (copy_index (S (length (index h))) h (index_tail h) 0 l);
             massert (Z.of_nat i =? prevCapacity) ;;
             mret l
         | None => mret l
         end);
    '(es, l) ← lift (make_entries (Z.to_nat entryCount) 0 (entry_room bytes)
                       (Z.to_nat prevCapacity) (index_entries e) l);
    let header := mkImplicitHeader raw newCapacity
                    (Z.land (u64 (prevCapacity - 1)) (u64 (newCapacity - 1))) l in
    iput (fun e => mkImplicit e (u64 (Z.shiftl newCapacity 1)) (header :: implicit_blockIndex e) es) ;;
    mret true.

(** (tail + 1) & (capacity - 1) *)
Definition slot_after (h : ImplicitIndexHeader) : Z :=
  Z.land (u64 (index_tail h + 1)) (u64 (capacity h - 1)).

(** The entry for a block whose first index is [blockStartIndex]; [None] stands for false. *)
Definition insert_block_index_entry (canAlloc : bool) (blockStartIndex : Z) : M X Q (option nat) :=
  l ← iget implicit_blockIndex;
  match l with
  | [] => mret None
  | h :: _ =>
      idxEntry ← lift (index_slot h (slot_after h));
      n ← load_entry idxEntry;
      room ← (if key n =? INVALID_BLOCK_BASE then mret true
              else p ← load_value idxEntry; mret (bool_decide (p = 0%nat)));
      if (room : bool) then
        store_key idxEntry blockStartIndex ;;
        store_index_tail (slot_after h) ;;
        mret (Some idxEntry)
      else if negb canAlloc then mret None
      else
        grown ← new_implicit_index;
        if negb grown then mret None
        else
          h ← implicit_index;
          idxEntry ← lift (index_slot h (slot_after h));
          n ← load_entry idxEntry;
          massert (key n =? INVALID_BLOCK_BASE) ;;
          store_key idxEntry blockStartIndex ;;
          store_index_tail (slot_after h) ;;
          mret (Some idxEntry)
  end.

Definition rewind_block_index_tail : M X Q unit :=
  h ← implicit_index;
  store_index_tail (Z.land (u64 (index_tail h - 1)) (u64 (capacity h - 1))).

(** The offset is converted to a signed type, and back by the division, since
    [BLOCK_SIZE] is unsigned. *)
Definition get_block_index_index_for_index (i : Z) : M X Q (Z * ImplicitIndexHeader) :=
  let i := block_start i in
  h ← implicit_index;
  k ← lift (index_slot h (index_tail h));
  n ← load_entry k;
  let tailBase := key n in
  massert (negb (tailBase =? INVALID_BLOCK_BASE)) ;;
  let offset := u64 (i - tailBase) / BLOCK_SIZE in
  let idx := Z.land (u64 (index_tail h + offset)) (u64 (capacity h - 1)) in
  (if ndebug then mret tt
   else
     k ← lift (index_slot h idx);
     n ← load_entry k;
     massert (key n =? i) ;;
     p ← load_value k;
     massert (negb (bool_decide (p = 0%nat)))) ;;
  mret (idx, h).

Definition get_block_index_entry_for_index (i : Z) : M X Q nat :=
  '(idx, h) ← get_block_index_index_for_index i;
  lift (index_slot h idx).

(** ** Construction *)
Definition raw_implicit : ImplicitProducer := mkImplicit (mkProducerBase 0 0 0 0 0) 0 [] [].

Definition implicit_ctor : M X Q unit :=
  iput (fun e => mkImplicit e IMPLICIT_INITIAL_INDEX_SIZE [] []) ;;
  new_implicit_index ;;
  mret tt.

(** ** Enqueuing *)

(** There will be no block in the entry. *)
Definition forget_entry (idxEntry : nat) : M X Q unit :=
  rewind_block_index_tail ;; store_value idxEntry 0.

Definition implicit_enqueue (canAlloc : bool) (c : category) : M X (Q * T) bool :=
  currentTailIndex ← on_fst (iget tailIndex);
  let newTailIndex := u64 (1 + currentTailIndex) in
  let enqueue_here :=
    block ← on_fst (iget tailBlock);
    construct_at c block currentTailIndex ;;
    on_fst (iput (on_base (base_tailIndex newTailIndex))) ;;
    mret true in
  if Z.land currentTailIndex (BLOCK_SIZE - 1) =? 0 then
    head ← on_fst (iget headIndex);
    massert (negb (circular_less_than currentTailIndex head)) ;;
    if is_full head currentTailIndex then mret false
    else
      entry ← on_fst (insert_block_index_entry canAlloc currentTailIndex);
      match entry with
      | None => mret false
      | Some idxEntry =>
          newBlock ← on_fst (on_snd (requisition_block canAlloc));
          if bool_decide (newBlock = 0%nat) then
            on_fst (forget_entry idxEntry) ;; mret false
          else
            on_fst (on_memory (block_reset_empty implicit_context newBlock)) ;;
            (if nothrow_ctor (T := T) c then mret tt
             else
               on_throw
                 (on_fst (forget_entry idxEntry ;; on_snd (add_block_to_free_list newBlock)))
                 (construct_at c newBlock currentTailIndex)) ;;
            on_fst (store_value idxEntry newBlock) ;;
            on_fst (iput (on_base (base_tailBlock newBlock))) ;;
            if nothrow_ctor (T := T) c then enqueue_here
            else on_fst (iput (on_base (base_tailIndex newTailIndex))) ;; mret true
      end
  else enqueue_here.

(** ** Dequeuing *)

(** All elements of the block are gone: it leaves the index. *)
Definition release_block (entry block : nat) : M X Q unit :=
  store_value entry 0 ;; on_snd (add_block_to_free_list block).

(** What follows the assignment, whether it throws ([~Guard]) or not. *)
Definition finish_implicit (entry block : nat) (i : Z) : M X Q unit :=
  on_memory (destroy_element block i) ;;
  e_ ← on_memory (block_set_empty implicit_context block i);
  if (e_ : bool) then release_block entry block else mret tt.

Definition implicit_dequeue : M X (Q * U) bool :=
  tail ← on_fst (iget tailIndex);
  overcommit ← on_fst (iget dequeueOvercommit);
  count ← on_fst (iget dequeueOptimisticCount);
  if circular_less_than (u64 (count - overcommit)) tail then
    myDequeueCount ← on_fst (iget dequeueOptimisticCount);
    on_fst (iput (on_base (base_optimistic (u64 (myDequeueCount + 1))))) ;;
    massert (overcommit <=? myDequeueCount) ;;
    tail ← on_fst (iget tailIndex);
    if circular_less_than (u64 (myDequeueCount - overcommit)) tail then
      i ← on_fst (iget headIndex);
      on_fst (iput (on_base (base_headIndex (u64 (i + 1))))) ;;
      entry ← on_fst (get_block_index_entry_for_index i);
      block ← on_fst (load_value entry);
      (if nothrow_assign then noexcept (move_out assign_result block i)
       else on_throw (on_fst (finish_implicit entry block i)) (move_out assign_result block i)) ;;
      on_fst (finish_implicit entry block i) ;;
      mret true
    else
      on_fst (iput (on_base (fun p => base_overcommit (u64 (dequeueOvercommit p + 1)) p))) ;;
      mret false
  else mret false.

(** ** Destruction *)

(** while (index != tail); [block] is the one the elements before [i] were in. *)
Fixpoint destroy_remaining (fuel : nat) (i tail : Z) (block : nat) : M X Q unit :=
  if i =? tail then mret tt
  else
    match fuel with
    | O => fail out_of_fuel
    | S fuel =>
        block ←
          (if (Z.land i (BLOCK_SIZE - 1) =? 0) || bool_decide (block = 0%nat) then
             (if bool_decide (block = 0%nat) then mret tt
              else on_snd (add_block_to_free_list block)) ;;
             entry ← get_block_index_entry_for_index i;
             load_value entry
           else mret block);
        on_memory (destroy_element block i) ;;
        destroy_remaining fuel (u64 (i + 1)) tail block
    end.

Fixpoint free_implicit_headers (l : list ImplicitIndexHeader) : M X Mem unit :=
  match l with
  | [] => mret tt
  | h :: l => free (implicit_raw h) ;; free_implicit_headers l
  end.

(** The loop runs once for each element.  The entries have trivial destructors. *)
Definition implicit_dtor : M X Q unit :=
  tail ← iget tailIndex;
  i ← iget headIndex;
  massert ((i =? tail) || circular_less_than i tail) ;;
  let forceFreeLastBlock := negb (i =? tail) in
  destroy_remaining (Z.to_nat (u64 (tail - i))) i tail 0 ;;
  tailBlock_ ← iget tailBlock;
  (if negb (bool_decide (tailBlock_ = 0%nat)) &&
      (forceFreeLastBlock || negb (Z.land tail (BLOCK_SIZE - 1) =? 0))
   then on_snd (add_block_to_free_list tailBlock_) else mret tt) ;;
  l ← iget implicit_blockIndex;
  on_memory (free_implicit_headers l).

(** ** enqueue_bulk *)

(** The blocks from [block] on leave the index. *)
Fixpoint unindex_blocks (fuel : nat) (block : nat) (currentTailIndex : Z) : M X Q unit :=
  if bool_decide (block = 0%nat) then mret tt
  else
    match fuel with
    | O => fail out_of_fuel
    | S fuel =>
        let currentTailIndex := u64 (currentTailIndex + BLOCK_SIZE) in
        idxEntry ← get_block_index_entry_for_index currentTailIndex;
        store_value idxEntry 0 ;;
        rewind_block_index_tail ;;
        b ← on_memory (load_block block);
        unindex_blocks fuel (next b) currentTailIndex
    end.

(** "revert any other allocations and index insertions done so far for this operation" *)
Definition revert_allocations (startTailIndex : Z) (startBlock first : nat) : M X Q unit :=
  n ← on_memory (gets (fun m => size (blocks m)));
  unindex_blocks n first (block_start (u64 (startTailIndex - 1))) ;;
  on_snd (add_blocks_to_free_list n first) ;;
  iput (on_base (base_tailBlock startBlock)).

(** The loop that takes the blocks: whether there were enough, and the first of them. *)
Fixpoint allocate_implicit (fuel : nat) (canAlloc : bool) (startTailIndex : Z) (startBlock : nat)
    (blockBaseDiff currentTailIndex : Z) (first : nat) : M X Q (bool * nat) :=
  if blockBaseDiff =? 0 then mret (true, first)
  else
    match fuel with
    | O => fail out_of_fuel
    | S fuel =>
        let currentTailIndex := u64 (currentTailIndex + BLOCK_SIZE) in
        head ← iget headIndex;
        massert (negb (circular_less_than currentTailIndex head)) ;;
        entry ← (if is_full head currentTailIndex then mret None
                 else insert_block_index_entry canAlloc currentTailIndex);
        newBlock ← (match entry with
                    | Some _ => on_snd (requisition_block canAlloc)
                    | None => mret 0%nat
                    end);
        match entry with
        | Some idxEntry =>
            if bool_decide (newBlock = 0%nat) then
              forget_entry idxEntry ;;
              revert_allocations startTailIndex startBlock first ;;
              mret (false, first)
            else
              on_memory (block_reset_empty implicit_context newBlock) ;;
              on_memory (modify_block newBlock (set_next 0)) ;;
              store_value idxEntry newBlock ;;
              tailBlock_ ← iget tailBlock;
              (if negb (Z.land startTailIndex (BLOCK_SIZE - 1) =? 0)
                  || negb (bool_decide (first = 0%nat)) then
                 massert (negb (bool_decide (tailBlock_ = 0%nat))) ;;
                 on_memory (modify_block tailBlock_ (set_next newBlock))
               else mret tt) ;;
              iput (on_base (base_tailBlock newBlock)) ;;
              allocate_implicit fuel canAlloc startTailIndex startBlock
                (u64 (blockBaseDiff - BLOCK_SIZE)) currentTailIndex
                (if bool_decide (first = 0%nat) then newBlock else first)
        | None =>
            revert_allocations startTailIndex startBlock first ;; mret (false, first)
        end
    end.

(** The handler: [constructedStopIndex] is where the exception was thrown. *)
Definition revert_implicit_bulk (startTailIndex : Z) (startBlock first : nat)
    (constructedStopIndex : Z) : M X Q unit :=
  lastBlockEnqueued ← iget tailBlock;
  (if trivially_destructible (traits T) then mret tt
   else
     let block := if Z.land startTailIndex (BLOCK_SIZE - 1) =? 0 then first else startBlock in
     n ← on_memory (gets (fun m => size (blocks m)));
     on_memory (destroy_constructed n block lastBlockEnqueued startTailIndex
                  constructedStopIndex)) ;;
  revert_allocations startTailIndex startBlock first.

(** The elements for one block; unless moving cannot throw they are copied. *)
Fixpoint fill_implicit_block (fuel : nat) (c : category) (startTailIndex : Z)
    (startBlock first : nat) (i : nat) (currentTailIndex stopIndex : Z) : M X (Q * list T) nat :=
  if currentTailIndex =? stopIndex then mret i
  else
    match fuel with
    | O => fail out_of_fuel
    | S fuel =>
        block ← on_fst (iget tailBlock);
        (if nothrow_ctor (T := T) c then construct_item_at c i block currentTailIndex
         else
           on_throw
             (on_fst (revert_implicit_bulk startTailIndex startBlock first currentTailIndex))
             (construct_item_at Lvalue i block currentTailIndex)) ;;
        fill_implicit_block fuel c startTailIndex startBlock first (S i)
          (u64 (currentTailIndex + 1)) stopIndex
    end.

(** "Enqueue, one block at a time" *)
Fixpoint fill_implicit_blocks (fuel : nat) (c : category) (startTailIndex newTailIndex : Z)
    (startBlock first endBlock : nat) (i : nat) (currentTailIndex : Z) : M X (Q * list T) unit :=
  match fuel with
  | O => fail out_of_fuel
  | S fuel =>
      let stopIndex := stop_index currentTailIndex newTailIndex in
      i ← fill_implicit_block (Z.to_nat BLOCK_SIZE) c startTailIndex startBlock first i
            currentTailIndex stopIndex;
      tailBlock_ ← on_fst (iget tailBlock);
      if bool_decide (tailBlock_ = endBlock) then massert (stopIndex =? newTailIndex)
      else
        b ← on_fst (on_memory (load_block tailBlock_));
        on_fst (iput (on_base (base_tailBlock (next b)))) ;;
        fill_implicit_blocks fuel c startTailIndex newTailIndex startBlock first endBlock i stopIndex
  end.

Definition implicit_enqueue_bulk (canAlloc : bool) (c : category) (count : Z) :
    M X (Q * list T) bool :=
  startTailIndex ← on_fst (iget tailIndex);
  startBlock ← on_fst (iget tailBlock);
  let blockBaseDiff := block_base_diff startTailIndex count in
  let n := Z.to_nat (blockBaseDiff / BLOCK_SIZE) in
  '(ok, first) ← on_fst (allocate_implicit n canAlloc startTailIndex startBlock blockBaseDiff
                           (block_start (u64 (startTailIndex - 1))) 0);
  if negb ok then mret false
  else
    endBlock ← on_fst (iget tailBlock);
    let newTailIndex := u64 (startTailIndex + count) in
    let aligned := Z.land startTailIndex (BLOCK_SIZE - 1) =? 0 in
    on_fst (iput (on_base (base_tailBlock startBlock))) ;;
    massert (negb aligned || negb (bool_decide (first = 0%nat)) || (count =? 0)) ;;
    (if aligned && negb (bool_decide (first = 0%nat))
     then on_fst (iput (on_base (base_tailBlock first))) else mret tt) ;;
    fill_implicit_blocks (S n) c startTailIndex newTailIndex startBlock first endBlock 0
      startTailIndex ;;
    on_fst (iput (on_base (base_tailIndex newTailIndex))) ;;
    mret true.

(** ** dequeue_bulk *)

(** The elements of a block have been dealt with; the next slot. *)
Definition finish_implicit_block (h : ImplicitIndexHeader) (slot : Z) (entry block : nat)
    (blockStartIndex endIndex : Z) : M X Q Z :=
  e_ ← on_memory (block_set_many_empty implicit_context block blockStartIndex
                    (u64 (endIndex - blockStartIndex)));
  (if (e_ : bool) then release_block entry block else mret tt) ;;
  mret (Z.land (u64 (slot + 1)) (u64 (capacity h - 1))).

(** The handler: the elements from [i] to [last] are destroyed. *)
Fixpoint abandon_implicit (fuel : nat) (h : ImplicitIndexHeader) (slot blockStartIndex i endIndex
    last : Z) : M X Q unit :=
  match fuel with
  | O => fail out_of_fuel
  | S fuel =>
      entry ← lift (index_slot h slot);
      block ← load_value entry;
      on_memory (destroy_range (Z.to_nat BLOCK_SIZE) block i endIndex) ;;
      slot ← finish_implicit_block h slot entry block blockStartIndex endIndex;
      if endIndex =? last then mret tt
      else abandon_implicit fuel h slot endIndex endIndex (stop_index endIndex last) last
  end.

(** The elements of one block. *)
Fixpoint take_implicit_block (fuel : nat) (h : ImplicitIndexHeader) (slot : Z) (block : nat)
    (blockStartIndex i endIndex last : Z) (j : nat) : M X (Q * list U) nat :=
  if i =? endIndex then mret j
  else
    match fuel with
    | O => fail out_of_fuel
    | S fuel =>
        (if nothrow_assign then noexcept (move_out_item assign_result block i j)
         else
           n ← on_fst (on_memory (gets (fun m => size (blocks m))));
           on_throw (on_fst (abandon_implicit n h slot blockStartIndex i endIndex last))
             (move_out_item assign_result block i j)) ;;
        on_fst (on_memory (destroy_element block i)) ;;
        take_implicit_block fuel h slot block blockStartIndex (u64 (i + 1)) endIndex last (S j)
    end.

Fixpoint take_implicit_blocks (fuel : nat) (h : ImplicitIndexHeader) (slot i last : Z) (j : nat) :
    M X (Q * list U) unit :=
  match fuel with
  | O => fail out_of_fuel
  | S fuel =>
      let endIndex := stop_index i last in
      entry ← on_fst (lift (index_slot h slot));
      block ← on_fst (load_value entry);
      j ← take_implicit_block (Z.to_nat BLOCK_SIZE) h slot block i i endIndex last j;
      slot ← on_fst (finish_implicit_block h slot entry block i endIndex);
      if endIndex =? last then mret tt else take_implicit_blocks fuel h slot endIndex last j
  end.

Definition implicit_dequeue_bulk (max : Z) (j : nat) : M X (Q * list U) Z :=
  tail ← on_fst (iget tailIndex);
  overcommit ← on_fst (iget dequeueOvercommit);
  count ← on_fst (iget dequeueOptimisticCount);
  let desiredCount := u64 (tail - u64 (count - overcommit)) in
  if circular_less_than 0 desiredCount then
    let desiredCount := if desiredCount <? max then desiredCount else max in
    myDequeueCount ← on_fst (iget dequeueOptimisticCount);
    on_fst (iput (on_base (base_optimistic (u64 (myDequeueCount + desiredCount))))) ;;
    massert (overcommit <=? myDequeueCount) ;;
    tail ← on_fst (iget tailIndex);
    let actualCount := u64 (tail - u64 (myDequeueCount - overcommit)) in
    if circular_less_than 0 actualCount then
      let actualCount := if desiredCount <? actualCount then desiredCount else actualCount in
      (if actualCount <? desiredCount then
         on_fst (iput (on_base (fun p => base_overcommit
           (u64 (dequeueOvercommit p + u64 (desiredCount - actualCount))) p)))
       else mret tt) ;;
      firstIndex ← on_fst (iget headIndex);
      on_fst (iput (on_base (base_headIndex (u64 (firstIndex + actualCount))))) ;;
      '(slot, h) ← on_fst (get_block_index_index_for_index firstIndex);
      take_implicit_blocks (S (Z.to_nat (actualCount / BLOCK_SIZE + 1))) h slot firstIndex
        (u64 (firstIndex + actualCount)) j ;;
      mret actualCount
    else
      on_fst (iput (on_base (fun p => base_overcommit (u64 (dequeueOvercommit p + desiredCount)) p))) ;;
      mret 0
  else mret 0.
End implicit.
