(* ===== verification/CqFacts.v ===== *)
(** * Facts about the blocks of a ConcurrentQueue

    Powers of two and indices that wrap, what the compiler and the allocator promise
    ([TraitsOk]), and the members of [Block]: [emptied_in c b d] says that [b] knows of its
    first [d] elements that they have been dequeued. *)
From stdpp Require Import gmap.
From S2P Require Import Prelude Lifetime FreeList CqBlock.

#[local] Open Scope Z_scope.

(** ** Powers of two *)
Definition pow2 (n : Z) : Prop := ∃ k, 0 ≤ k ≤ 64 ∧ n = 2 ^ k.

Lemma pow2_bounds n : pow2 n → 1 ≤ n ≤ 2 ^ 64.
Proof.
  intros (k & Hk & ->). split; [|apply Z.pow_le_mono_r; lia].
  change 1 with (2 ^ 0). apply Z.pow_le_mono_r; lia.
Qed.

(** What the static assertions say. *)
Lemma power_of_2_pow2 n : 0 < n < 2 ^ 64 → power_of_2 n = true → pow2 n.
Proof.
  intros Hn Hp. unfold power_of_2 in Hp. apply Z.eqb_eq in Hp.
  rewrite u64_small in Hp by lia. exists (Z.log2 n).
  pose proof (Z.log2_spec n ltac:(lia)) as [Hlo Hhi].
  pose proof (Z.log2_nonneg n).
  split; [split; [done|]; apply Z.lt_succ_r, Z.log2_lt_pow2; lia|].
  destruct (decide (n = 2 ^ Z.log2 n)) as [|Hne]; [done|exfalso].
  assert (Hlog : Z.log2 (n - 1) = Z.log2 n) by (apply Z.log2_unique; lia).
  assert (Hbit : Z.testbit (Z.land n (n - 1)) (Z.log2 n) = true).
  { rewrite Z.land_spec, Z.bit_log2 by lia. rewrite <- Hlog, Z.bit_log2; [done|].
    assert (2 ^ Z.log2 n > 0) by lia. lia. }
  by rewrite Hp, Z.testbit_0_l in Hbit.
Qed.

Lemma pow2_divide a b : pow2 a → pow2 b → a ≤ b → (a | b).
Proof.
  intros (j & Hj & ->) (k & Hk & ->) Hle.
  apply Z.pow_le_mono_r_iff in Hle; [|lia..]. exists (2 ^ (k - j)).
  rewrite <- Z.pow_add_r by lia. f_equal. lia.
Qed.

Lemma pow2_double c : pow2 c → c ≤ 2 ^ 60 → pow2 (2 * c).
Proof.
  intros (k & Hk & ->) Hle. exists (k + 1). rewrite Z.pow_add_r by lia. split; [|lia].
  apply Z.pow_le_mono_r_iff in Hle; lia.
Qed.

Lemma pow2_mul a b : pow2 a → pow2 b → a * b < 2 ^ 64 → a * b * 2 ≤ 2 ^ 64.
Proof.
  intros (j & Hj & ->) (k & Hk & ->) Hlt. rewrite <- Z.pow_add_r in * by lia.
  apply Z.pow_lt_mono_r_iff in Hlt; [|lia..].
  replace (2 ^ (j + k) * 2) with (2 ^ (j + k + 1)) by (rewrite Z.pow_add_r by lia; lia).
  apply Z.pow_le_mono_r; lia.
Qed.

(** ** Indices *)
Lemma u64_mod n z : pow2 n → u64 z mod n = z mod n.
Proof.
  intros Hn. pose proof (pow2_bounds n Hn). unfold u64. apply Z.mod_mod_divide.
  apply pow2_divide; [done|exists 64; split; [lia|done]|lia].
Qed.

Lemma mask_mod n z : pow2 n → Z.land (u64 z) (u64 (n - 1)) = z mod n.
Proof.
  intros Hn. pose proof (pow2_bounds n Hn). rewrite (u64_small (n - 1)) by lia.
  rewrite <- (u64_mod n z Hn). destruct Hn as (k & Hk & ->).
  replace (2 ^ k - 1) with (Z.ones k) by (rewrite Z.ones_equiv; lia).
  by rewrite Z.land_ones by lia.
Qed.

Lemma mask_mod' n z : pow2 n → Z.land (u64 z) (n - 1) = z mod n.
Proof.
  intros Hn. rewrite <- (mask_mod n z Hn). pose proof (pow2_bounds n Hn).
  by rewrite (u64_small (n - 1)) by lia.
Qed.

Lemma mod_window n a b : 0 < n → a ≤ b < a + n → a mod n = b mod n → a = b.
Proof.
  intros Hn Hb Hm. pose proof (Z.div_mod a n ltac:(lia)). pose proof (Z.div_mod b n ltac:(lia)).
  assert (b / n = a / n) by nia. nia.
Qed.

Lemma clear_bits_block n i : pow2 n → clear_bits (u64 i) (n - 1) = u64 (i / n * n).
Proof.
  intros (k & Hk & ->). unfold clear_bits. pose proof (u64_bound i) as Hi.
  assert (Hland : Z.land (u64 i) (u64 (Z.lnot (2 ^ k - 1))) = Z.ldiff (u64 i) (Z.ones k)).
  { replace (2 ^ k - 1) with (Z.ones k) by (rewrite Z.ones_equiv; lia).
    unfold u64 at 2. rewrite <- Z.land_ones by lia. rewrite (Z.land_comm (Z.lnot _)), Z.land_assoc.
    rewrite Z.land_ones by lia. rewrite Z.mod_small by done. symmetry. apply Z.ldiff_land. }
  rewrite Hland, Z.ldiff_ones_r by lia. rewrite Z.shiftl_mul_pow2, Z.shiftr_div_pow2 by lia.
  unfold u64. replace (2 ^ 64) with (2 ^ k * 2 ^ (64 - k)) by
    (rewrite <- Z.pow_add_r by lia; f_equal; lia).
  assert (0 < 2 ^ k) by (apply Z.pow_pos_nonneg; lia).
  assert (0 < 2 ^ (64 - k)) by (apply Z.pow_pos_nonneg; lia).
  rewrite (Z.mul_comm (i / 2 ^ k)), Z.mul_mod_distr_l by lia.
  rewrite (Z.mul_comm (2 ^ k) (_ mod _)). f_equal. rewrite Z.rem_mul_r by lia.
  rewrite Z.mul_comm, Z.div_add by lia. rewrite Z.div_small; [lia|].
  apply Z.mod_pos_bound. lia.
Qed.

(** Indices that are not too far apart are compared as if they did not wrap. *)
Lemma circular_less_than_spec a b :
  - 2 ^ 63 ≤ b - a < 2 ^ 63 → circular_less_than (u64 a) (u64 b) = (a <? b).
Proof.
  intros Hd. unfold circular_less_than. rewrite Z.shiftl_1_l.
  assert (Hu : u64 (u64 a - u64 b) = u64 (a - b)) by (unfold u64; by rewrite <- Zminus_mod).
  rewrite Hu. destruct (Z.ltb_spec a b).
  - apply Z.ltb_lt. unfold u64. rewrite <- (Z_mod_plus_full _ 1), Z.mod_small by lia. lia.
  - apply Z.ltb_ge. rewrite u64_small by lia. lia.
Qed.

Lemma circular_less_than_far a b :
  2 ^ 63 ≤ b - a < 2 ^ 64 → circular_less_than (u64 a) (u64 b) = false.
Proof.
  intros Hd. unfold circular_less_than. rewrite Z.shiftl_1_l. apply Z.ltb_ge.
  assert (Hu : u64 (u64 a - u64 b) = u64 (a - b)) by (unfold u64; by rewrite <- Zminus_mod).
  rewrite Hu. unfold u64. rewrite <- (Z_mod_plus_full _ 1), Z.mod_small by lia. lia.
Qed.

Lemma circular_less_than_0 z : 0 ≤ z < 2 ^ 63 → circular_less_than 0 z = (0 <? z).
Proof.
  intros Hz. rewrite <- (circular_less_than_spec 0 z) by lia. by rewrite !u64_small by lia.
Qed.

Lemma u64_idem z : u64 (u64 z) = u64 z.
Proof. apply u64_small, u64_bound. Qed.

Lemma u64_add_r a b : u64 (a + u64 b) = u64 (a + b).
Proof. unfold u64. by rewrite Zplus_mod_idemp_r. Qed.

Lemma u64_sub_l a b : u64 (u64 a - b) = u64 (a - b).
Proof. unfold u64. by rewrite Zminus_mod_idemp_l. Qed.

Lemma u64_sub_r a b : u64 (a - u64 b) = u64 (a - b).
Proof. unfold u64. by rewrite Zminus_mod_idemp_r. Qed.

Lemma u64_eqb a b : - 2 ^ 64 < a - b < 2 ^ 64 → (u64 a =? u64 b) = (a =? b).
Proof.
  intros Hd. destruct (Z.eqb_spec a b) as [->|Hne]; [by rewrite Z.eqb_refl|].
  apply Z.eqb_neq. intros Heq. apply Hne. unfold u64 in Heq.
  pose proof (Z.div_mod a (2 ^ 64) ltac:(lia)). pose proof (Z.div_mod b (2 ^ 64) ltac:(lia)).
  assert (a / 2 ^ 64 = b / 2 ^ 64) by nia. lia.
Qed.

(** ** What the traits promise

    All constants are of type [size_t].  A block is larger than its elements and than two
    entries of an index, or one with two pointers to it; what is allocated at the same time fits half the address space. *)
Class TraitsOk `{Traits} : Prop := {
  ok_asserts : static_asserts = true;
  ok_block_size : 0 ≤ BLOCK_SIZE < 2 ^ 64;
  ok_max : 0 ≤ Traits_MAX_SUBQUEUE_SIZE < 2 ^ 64;
  ok_index_size : 0 ≤ EXPLICIT_INITIAL_INDEX_SIZE < 2 ^ 64;
  ok_index_blocks : EXPLICIT_INITIAL_INDEX_SIZE * BLOCK_SIZE ≤ 2 ^ 64;
  ok_index_bytes : EXPLICIT_INITIAL_INDEX_SIZE * sizeof_BlockIndexEntry ≤ 2 ^ 63;
  ok_entry : 0 < sizeof_BlockIndexEntry;
  ok_header : 0 ≤ sizeof_BlockIndexHeader ∧ 1 ≤ alignof_BlockIndexEntry ∧
    sizeof_BlockIndexHeader + alignof_BlockIndexEntry ≤ 2 ^ 62;
  ok_block : BLOCK_SIZE < sizeof_Block ∧ 2 * sizeof_BlockIndexEntry ≤ sizeof_Block;
  ok_implicit_size : 0 ≤ IMPLICIT_INITIAL_INDEX_SIZE ∧ IMPLICIT_INITIAL_INDEX_SIZE * BLOCK_SIZE ≤ 2 ^ 64;
  ok_implicit_bytes : IMPLICIT_INITIAL_INDEX_SIZE * (sizeof_ImplicitEntry + 16) ≤ 2 ^ 63;
  ok_implicit_entry : 0 < sizeof_ImplicitEntry ∧ sizeof_ImplicitEntry + 16 ≤ sizeof_Block;
  ok_implicit_header : 0 ≤ sizeof_ImplicitHeader ∧ 1 ≤ alignof_ImplicitEntry ∧
    sizeof_ImplicitHeader + alignof_ImplicitEntry + 8 ≤ 2 ^ 62;
  ok_producers : 0 ≤ sizeof_ExplicitProducer ∧ 0 ≤ sizeof_ImplicitProducer;
  ok_hash_size : 0 ≤ INITIAL_IMPLICIT_PRODUCER_HASH_SIZE < 2 ^ 64;
  ok_hash : 0 ≤ sizeof_ImplicitProducerHash ∧ 1 ≤ alignof_ImplicitProducerKVP ∧
    sizeof_ImplicitProducerHash + alignof_ImplicitProducerKVP ≤ 2 ^ 62;
  ok_kvp : 0 < sizeof_ImplicitProducerKVP ≤ 2 ^ 24;
  ok_malloc a n b : Traits_malloc a n b = true → a + b ≤ 2 ^ 63
}.

Section facts.
Context `{TraitsOk} {T : Type}.
Implicit Types (b : Block T) (d i : Z).

Lemma block_size_pow2 : pow2 BLOCK_SIZE ∧ 2 ≤ BLOCK_SIZE ≤ 2 ^ 63.
Proof.
  pose proof ok_asserts as Ha. unfold static_asserts in Ha. rewrite !andb_true_iff in Ha.
  destruct Ha as ((((((((Hlt & Hp) & _) & _) & _) & _) & _) & _) & _).
  apply Z.ltb_lt in Hlt. pose proof ok_block_size.
  assert (Hpow : pow2 BLOCK_SIZE) by (apply power_of_2_pow2; [lia|done]).
  split; [done|]. split; [lia|]. destruct Hpow as (k & Hk & Heq).
  assert (k ≠ 64) by (intros ->; lia). rewrite Heq. apply Z.pow_le_mono_r; lia.
Qed.

Lemma index_size_pow2 : pow2 EXPLICIT_INITIAL_INDEX_SIZE ∧ 2 ≤ EXPLICIT_INITIAL_INDEX_SIZE.
Proof.
  pose proof ok_asserts as Ha. unfold static_asserts in Ha. rewrite !andb_true_iff in Ha.
  destruct Ha as ((((((((_ & _) & _) & _) & Hlt) & Hp) & _) & _) & _).
  apply Z.ltb_lt in Hlt. pose proof ok_index_size.
  split; [apply power_of_2_pow2; [lia|done]|lia].
Qed.

Lemma hash_size_pow2 : INITIAL_IMPLICIT_PRODUCER_HASH_SIZE ≠ 0 → pow2 INITIAL_IMPLICIT_PRODUCER_HASH_SIZE.
Proof.
  intros Hne. pose proof ok_asserts as Ha. unfold static_asserts in Ha. rewrite !andb_true_iff in Ha.
  destruct Ha as [_ [Hz|Hp]%orb_true_iff]; [by apply Z.eqb_eq in Hz|].
  pose proof ok_hash_size. by apply power_of_2_pow2; [lia|].
Qed.

Lemma block_size_pos : 0 < BLOCK_SIZE.
Proof. pose proof block_size_pow2. lia. Qed.

Lemma block_size_ne : BLOCK_SIZE ≠ 0.
Proof. pose proof block_size_pos. lia. Qed.

Lemma offset_of_mod i : offset_of (u64 i) = i mod BLOCK_SIZE.
Proof. apply mask_mod', block_size_pow2. Qed.

Lemma aligned_mod i : (Z.land (u64 i) (BLOCK_SIZE - 1) =? 0) = (i mod BLOCK_SIZE =? 0).
Proof. by rewrite mask_mod' by apply block_size_pow2. Qed.

(** The limit is a whole number of blocks. *)
Lemma max_subqueue_size : MAX_SUBQUEUE_SIZE = const_numeric_max ∨
  ∃ k, 0 ≤ k ∧ MAX_SUBQUEUE_SIZE = k * BLOCK_SIZE ∧ k * BLOCK_SIZE < 2 ^ 64.
Proof.
  pose proof ok_max. pose proof block_size_pow2 as [_ Hb]. unfold MAX_SUBQUEUE_SIZE.
  change const_numeric_max with (2 ^ 64 - 1) in *. rewrite u64_small by lia.
  destruct (Z.ltb_spec (2 ^ 64 - 1 - Traits_MAX_SUBQUEUE_SIZE) BLOCK_SIZE); [by left|right].
  rewrite (u64_small (_ + _)) by lia. set (s := Traits_MAX_SUBQUEUE_SIZE + (BLOCK_SIZE - 1)).
  exists (s / BLOCK_SIZE). pose proof (Z.div_mod s BLOCK_SIZE block_size_ne).
  pose proof (Z.mod_pos_bound s BLOCK_SIZE block_size_pos).
  assert (0 ≤ s / BLOCK_SIZE) by (apply Z.div_pos; lia).
  assert (s / BLOCK_SIZE * BLOCK_SIZE < 2 ^ 64) by lia.
  rewrite u64_small by nia. auto.
Qed.

(** ** The flags *)
Lemma check_flags_true p n : check_flags (p ++ replicate n (Some true)) (length p) n = Ok true.
Proof.
  revert p. induction n as [|n IH]; intros p; [done|]. simpl. unfold flag_at.
  rewrite lookup_app_r, Nat.sub_diag by done. simpl.
  specialize (IH (p ++ [Some true])). rewrite length_app in IH. simpl in IH.
  rewrite <- app_assoc, Nat.add_1_r in IH. exact IH.
Qed.

Lemma store_flags_run f p k l :
  store_flags f (length p) (length k) (p ++ k ++ l)
    = Ok (p ++ replicate (length k) (Some f) ++ l).
Proof.
  revert p. induction k as [|a k IH]; intros p; [done|].
  assert (Hs : store_flag f (length p) (p ++ (a :: k) ++ l) = Ok ((p ++ [Some f]) ++ k ++ l)).
  { unfold store_flag. rewrite lookup_app_r, Nat.sub_diag by done. simpl.
    rewrite insert_app_r_alt, Nat.sub_diag by done. simpl. by rewrite <- app_assoc. }
  cbn [store_flags length]. rewrite Hs. specialize (IH (p ++ [Some f])).
  rewrite length_app, Nat.add_1_r in IH.
  rewrite <- (app_assoc p [Some f] (replicate (length k) (Some f) ++ l)) in IH. exact IH.
Qed.

Lemma raise_flags_run p n l :
  raise_flags (length p) n (p ++ replicate n (Some false) ++ l)
    = Ok (p ++ replicate n (Some true) ++ l).
Proof.
  revert p. induction n as [|n IH]; intros p; [done|].
  assert (Hl : (p ++ replicate (S n) (Some false) ++ l) !! length p = Some (Some false))
    by (by rewrite lookup_app_r, Nat.sub_diag).
  assert (Hs : store_flag true (length p) (p ++ replicate (S n) (Some false) ++ l)
    = Ok ((p ++ [Some true]) ++ replicate n (Some false) ++ l)).
  { unfold store_flag. rewrite Hl. rewrite insert_app_r_alt, Nat.sub_diag by done. simpl.
    by rewrite <- app_assoc. }
  cbn [raise_flags]. rewrite Hs. unfold flag_at, cassert. rewrite Hl.
  specialize (IH (p ++ [Some true])). rewrite length_app, Nat.add_1_r in IH.
  rewrite <- (app_assoc p [Some true] (replicate n (Some true) ++ l)) in IH.
  destruct ndebug; exact IH.
Qed.

(** The first [d] elements of the block have been dequeued. *)
Definition emptied_in c b d : Prop :=
  if uses_flags c
  then emptyFlags b = replicate (Z.to_nat (BLOCK_SIZE - d)) (Some false)
                        ++ replicate (Z.to_nat d) (Some true)
  else elementsCompletelyDequeued b = d.

(** There is a flag for every element, if flags are used. *)
Definition flags_ok b : Prop :=
  uses_flags explicit_context = true → length (emptyFlags b) = Z.to_nat BLOCK_SIZE.

(** Only what the block knows of its elements has changed. *)
Definition recounted b b' : Prop := ∃ z l, b' = set_dequeued z (set_flags l b).

Lemma recounted_flags b l : recounted b (set_flags l b).
Proof. by exists (elementsCompletelyDequeued b), l. Qed.

Lemma recounted_dequeued b z : recounted b (set_dequeued z b).
Proof. exists z, (emptyFlags b). by destruct b. Qed.
#[local] Hint Resolve recounted_flags recounted_dequeued : core.

Lemma emptied_flags_ok b d :
  0 ≤ d ≤ BLOCK_SIZE → emptied_in explicit_context b d → flags_ok b.
Proof.
  intros Hd He Hu. unfold emptied_in in He. rewrite Hu in He. rewrite He.
  rewrite length_app, !length_replicate. lia.
Qed.

Lemma Block_new_flags_ok : flags_ok (Block_new : Block T).
Proof. unfold flags_ok. simpl. intros ->. by rewrite length_replicate. Qed.

Lemma uses_flags_explicit c : uses_flags c = true → uses_flags explicit_context = true.
Proof. by destruct c. Qed.

Lemma is_empty_run c b d :
  0 ≤ d ≤ BLOCK_SIZE → emptied_in c b d → is_empty c b = Ok (d =? BLOCK_SIZE).
Proof.
  intros Hd He. pose proof block_size_pos. unfold is_empty, emptied_in in *.
  destruct (uses_flags _); [rewrite He|].
  - destruct (Z.eqb_spec d BLOCK_SIZE) as [->|Hne].
    + rewrite Z.sub_diag. exact (check_flags_true [] _).
    + destruct (Z.to_nat BLOCK_SIZE) as [|n] eqn:En; [lia|].
      destruct (Z.to_nat (BLOCK_SIZE - d)) as [|k] eqn:Ek; [lia|]. done.
  - rewrite He. destruct (Z.eqb_spec d BLOCK_SIZE); [done|].
    unfold cassert. rewrite (proj2 (Z.leb_le _ _)) by lia. by rewrite orb_true_r.
Qed.

Lemma reset_empty_run c b :
  flags_ok b → ∃ b', reset_empty c b = Ok b' ∧ emptied_in c b' 0 ∧ recounted b b'.
Proof.
  intros Hf. unfold reset_empty, emptied_in, flags_ok in *. pose proof block_size_pos.
  destruct (uses_flags c) eqn:Eu.
  - specialize (Hf (uses_flags_explicit c Eu)). rewrite <- Hf. pose proof (store_flags_run false [] (emptyFlags b) []) as Hs.
    simpl in Hs. rewrite !app_nil_r in Hs. rewrite Hs. eexists. split; [done|]. simpl.
    rewrite app_nil_r, Z.sub_0_r, <- Hf. by split.
  - eexists. split; [done|]. by split.
Qed.

Lemma set_all_empty_run c b :
  flags_ok b → ∃ b', set_all_empty c b = Ok b' ∧ emptied_in c b' BLOCK_SIZE ∧ recounted b b'.
Proof.
  intros Hf. unfold set_all_empty, emptied_in, flags_ok in *. pose proof block_size_pos.
  destruct (uses_flags c) eqn:Eu.
  - specialize (Hf (uses_flags_explicit c Eu)). rewrite <- Hf. pose proof (store_flags_run true [] (emptyFlags b) []) as Hs.
    simpl in Hs. rewrite !app_nil_r in Hs. rewrite Hs. eexists. split; [done|]. simpl.
    rewrite Z.sub_diag. by split.
  - eexists. split; [done|]. by split.
Qed.

Lemma emptied_replicate (d n : Z) : 0 ≤ d → 0 ≤ n → d + n ≤ BLOCK_SIZE →
  replicate (Z.to_nat (BLOCK_SIZE - d)) (Some false) =
    replicate (Z.to_nat (BLOCK_SIZE - (d + n))) (Some false)
      ++ replicate (Z.to_nat n) (Some false).
Proof. intros. rewrite <- replicate_add. f_equal. lia. Qed.

Lemma set_many_empty_run c b d n i :
  emptied_in c b d → 0 ≤ n → d + n ≤ BLOCK_SIZE → i mod BLOCK_SIZE = d →
  ∃ b', set_many_empty c (u64 i) n b = Ok (b', negb (uses_flags c) && (d + n =? BLOCK_SIZE)) ∧
    emptied_in c b' (d + n) ∧ recounted b b'.
Proof.
  intros He Hn Hb Hi. pose proof block_size_pow2 as [_ Hbs].
  pose proof (Z.mod_pos_bound i BLOCK_SIZE block_size_pos) as Hd. rewrite Hi in Hd.
  unfold set_many_empty, emptied_in in *. destruct (uses_flags _).
  - rewrite offset_of_mod, Hi, He. rewrite (emptied_replicate d n) by lia.
    rewrite u64_small by lia.
    pose proof (raise_flags_run (replicate (Z.to_nat (BLOCK_SIZE - (d + n))) (Some false))
      (Z.to_nat n) (replicate (Z.to_nat d) (Some true))) as Hr.
    rewrite length_replicate in Hr. rewrite <- app_assoc.
    replace (BLOCK_SIZE - 1 - d - n + 1) with (BLOCK_SIZE - (d + n)) by lia. rewrite Hr.
    eexists. split; [done|]. split; [|done].
    simpl. f_equal. rewrite <- replicate_add. f_equal. lia.
  - rewrite He, u64_small by lia. unfold cassert. rewrite (proj2 (Z.leb_le _ _)) by lia.
    rewrite orb_true_r. eexists. by split.
Qed.

Lemma set_empty_run c b d i :
  emptied_in c b d → i mod BLOCK_SIZE = d →
  ∃ b', set_empty c (u64 i) b = Ok (b', negb (uses_flags c) && (d + 1 =? BLOCK_SIZE)) ∧
    emptied_in c b' (d + 1) ∧ recounted b b'.
Proof.
  intros He Hi. pose proof block_size_pow2 as [_ Hbs].
  pose proof (Z.mod_pos_bound i BLOCK_SIZE block_size_pos) as Hd. rewrite Hi in Hd.
  destruct (set_many_empty_run c b d 1 i He) as (b' & Hr & He' & Hb'); [lia..|done|].
  unfold set_empty, set_many_empty, emptied_in in *. destruct (uses_flags _).
  - replace (BLOCK_SIZE - 1 - offset_of (u64 i) - 1 + 1) with (BLOCK_SIZE - 1 - offset_of (u64 i))
      in Hr by lia. exists b'. by destruct (raise_flags _ _ _).
  - rewrite He in *. rewrite (u64_small (d + 1)) in * by lia. unfold cassert in *.
    rewrite (proj2 (Z.ltb_lt _ _)) by lia. rewrite (proj2 (Z.leb_le _ _)) in Hr by lia.
    rewrite orb_true_r in *. cbn in Hr. simplify_eq. eexists. split; [|by split].
    cbn. do 2 f_equal. lia.
Qed.
End facts.

(** What a block of an explicit producer knows. *)
Abbreviation emptied := (emptied_in explicit_context).
