(* ===== verification/CqPoolFacts.v ===== *)
(** * The pool of blocks of a ConcurrentQueue: its invariant

    [pool_inv m q owned hdrs fl]: of the blocks that exist, the producers have those in
    [owned], [fl] is the free list, and the others are the rest of the initial array;
    [hdrs] are the chunks of memory that hold block indices.  [requisition_block] makes one
    block more owned, and touches no other. *)
From stdpp Require Import gmap.
From S2P Require Import Prelude Lifetime FreeList FreeListInvariant FreeListStack.
From S2P Require Import CqBlock CqPool CqFacts.

#[local] Open Scope Z_scope.

(** ** The sizes of the chunks *)
Definition total (c : gmap nat Z) : Z := map_fold (λ _ z a, z + a) 0 c.

Lemma total_insert c p z : c !! p = None → total (<[p := z]> c) = z + total c.
Proof. intros Hp. apply map_fold_insert_L; [intros; lia|done]. Qed.

Lemma total_delete c p z : c !! p = Some z → total (delete p c) = total c - z.
Proof.
  intros Hp. rewrite <- (insert_delete_id c p z Hp) at 2.
  rewrite total_insert by apply lookup_delete_eq. lia.
Qed.

Lemma total_nonneg c : (∀ p z, c !! p = Some z → 0 ≤ z) → 0 ≤ total c.
Proof.
  induction c as [|p z c Hp IH] using map_ind; intros Hc; [done|].
  rewrite total_insert by done.
  assert (0 ≤ z) by (apply (Hc p), lookup_insert_eq).
  assert (0 ≤ total c); [|lia]. apply IH. intros p' z' Hz'. apply (Hc p').
  rewrite lookup_insert_ne; [done|congruence].
Qed.

(** Some of them. *)
Lemma total_some c (l : list nat) n : (∀ p z, c !! p = Some z → 0 ≤ z) → NoDup l →
  (∀ p, p ∈ l → c !! p = Some n) → n * Z.of_nat (length l) ≤ total c.
Proof.
  revert c. induction l as [|p l IH]; intros c Hc Hnd Hl; simpl.
  { rewrite Z.mul_0_r. by apply total_nonneg. }
  apply NoDup_cons in Hnd as [Hp Hnd].
  assert (Hrest : n * Z.of_nat (length l) ≤ total (delete p c)).
  { apply IH; [|done|].
    - intros p' z' [_ Hz']%lookup_delete_Some. by eapply Hc.
    - intros p' Hp'. rewrite lookup_delete_ne by (intros ->; done). apply Hl. by right. }
  rewrite (total_delete c p n) in Hrest by (apply Hl; by left). lia.
Qed.

Lemma linked_elem {N} `{!FreeListNode N} (f : FreeList N) head l p :
  linked f head l → p ∈ l → is_Some (nodes f !! p).
Proof.
  revert head. induction l as [|p' l IH]; intros head Hl Hp; [by apply elem_of_nil in Hp|].
  destruct Hl as (_ & n & Hn & Hl). apply elem_of_cons in Hp as [->|Hp]; [by eexists|by eapply IH].
Qed.

Section pool.
Context `{TraitsOk} {X T : Type} `{!CppType X T}.
#[local] Abbreviation Mem := (Memory T).
#[local] Abbreviation free_list m q := (mkFreeList (blocks m) (pool_freeListHead q)).
Implicit Types (m : Memory T) (q : BlockPool) (b : Block T) (p : nat) (owned hdrs : gset nat).

(** Nothing has to be destroyed before an object is constructed here. *)
Definition vacant (o : option T) : Prop :=
  o = None ∨ trivially_destructible (traits (X := X) T) = true.

(** A block of the right size without elements. *)
Definition unused b : Prop :=
  length (elements b) = Z.to_nat BLOCK_SIZE ∧ flags_ok b ∧ Forall vacant (elements b).

(** The part of the initial array that has not been handed out. *)
Definition in_range q p : Prop :=
  ∃ i, initialBlockPoolIndex q ≤ i < initialBlockPoolSize q ∧
    p = (initialBlockPool q + Z.to_nat i)%nat.

Definition in_array q p : Prop :=
  ∃ i, 0 ≤ i < initialBlockPoolSize q ∧ p = (initialBlockPool q + Z.to_nat i)%nat.

(** Chunks account for all that is allocated; a block that is not part of the array fills one. *)
Record accounted m q : Prop := {
  ac_total : allocated m = total (chunks m);
  ac_max : allocated m ≤ 2 ^ 63;
  ac_size p z : chunks m !! p = Some z → 0 ≤ z;
  ac_block p b : blocks m !! p = Some b → dynamicallyAllocated b = true →
    chunks m !! p = Some sizeof_Block;
  ac_pool : initialBlockPool q ≠ 0%nat →
    chunks m !! initialBlockPool q = Some (sizeof_Block * initialBlockPoolSize q)
}.

(** What memory there is: the initial array, the blocks made since, the block indices. *)
Record pool_memory m q hdrs : Prop := {
  pm_array p : in_array q p → ∃ b, blocks m !! p = Some b ∧ dynamicallyAllocated b = false;
  pm_static p b : blocks m !! p = Some b → dynamicallyAllocated b = false → in_array q p;
  pm_fresh p : (next_address m ≤ p)%nat → blocks m !! p = None ∧ chunks m !! p = None;
  pm_next : (0 < next_address m)%nat;
  pm_pool : initialBlockPool q = 0%nat ∧ initialBlockPoolSize q = 0 ∧ chunks m !! 0%nat = None ∨
    initialBlockPool q ≠ 0%nat ∧ 0 < initialBlockPoolSize q ∧
    is_Some (chunks m !! initialBlockPool q) ∧ initialBlockPool q ∉ hdrs;
  pm_dynamic p b : blocks m !! p = Some b → dynamicallyAllocated b = true →
    is_Some (chunks m !! p) ∧ (p ∉ hdrs) ∧ p ≠ initialBlockPool q;
  pm_hdrs p : p ∈ hdrs → is_Some (chunks m !! p) ∧ p ≠ 0%nat;
  pm_chunks p : is_Some (chunks m !! p) →
    (p ∈ hdrs) ∨ p = initialBlockPool q ∨
    ∃ b, blocks m !! p = Some b ∧ dynamicallyAllocated b = true;
  pm_accounted : accounted m q
}.

(** Every block takes up memory. *)
Record pool_bytes m q : Prop := {
  pb_bytes : sizeof_Block * Z.of_nat (size (blocks m)) ≤ allocated m ≤ 2 ^ 63;
  pb_count : initialBlockPoolSize q ≤ Z.of_nat (size (blocks m))
}.

(** Who has which block. *)
Record pool_inv m q owned hdrs (fl : list nat) : Prop := {
  pi_stack : stack (free_list m q) fl;
  pi_where p b : blocks m !! p = Some b →
    (p ∈ owned) ∨ (((p ∈ fl) ∨ in_range q p) ∧ unused b);
  pi_owned p : p ∈ owned → is_Some (blocks m !! p) ∧ (p ∉ fl) ∧ (¬ in_range q p);
  pi_fl p : (p ∈ fl) → (¬ in_range q p);
  pi_index : 0 ≤ initialBlockPoolIndex q ≤ initialBlockPoolSize q;
  pi_memory : pool_memory m q hdrs
}.

(** The blocks that are not [owned] have nothing to do with those that are. *)
Definition frame owned m m' : Prop :=
  (∀ p, p ∈ owned → blocks m' !! p = blocks m !! p) ∧ lost m' = lost m.

Definition out_of_memory : Prop := ∃ a n bytes, Traits_malloc a n bytes = false.

(** A block may change. *)
Lemma accounted_update m q p b b' :
  accounted m q → blocks m !! p = Some b → dynamicallyAllocated b' = dynamicallyAllocated b →
  accounted (set_blocks (<[p := b']> (blocks m)) m) q.
Proof.
  intros [] Hb Hd. constructor; simpl; try done. intros p' b0.
  destruct (decide (p' = p)) as [->|Hne]; [|rewrite lookup_insert_ne by done; by eauto].
  rewrite lookup_insert_eq. intros [= <-]. rewrite Hd. by eauto.
Qed.

Lemma pool_memory_update m q hdrs p b b' :
  pool_memory m q hdrs → blocks m !! p = Some b →
  dynamicallyAllocated b' = dynamicallyAllocated b →
  pool_memory (set_blocks (<[p := b']> (blocks m)) m) q hdrs.
Proof.
  intros [Ha Hst Hfr Hn Hpl Hdy Hh Hc Hac] Hb Hd.
  assert (Hsame : ∀ p' d, (∃ b0, <[p := b']> (blocks m) !! p' = Some b0 ∧ dynamicallyAllocated b0 = d)
    ↔ ∃ b0, blocks m !! p' = Some b0 ∧ dynamicallyAllocated b0 = d).
  { intros p' d. destruct (decide (p' = p)) as [->|Hne].
    - rewrite lookup_insert_eq, Hb. split; intros (b0 & [= <-] & Hd0); (eexists; split; [done|congruence]).
    - by rewrite lookup_insert_ne. }
  constructor; simpl; try done.
  - intros p' Hp'. by apply Hsame, Ha.
  - intros p' b0 Hb0 Hd0. destruct (proj1 (Hsame p' false)) as (b1 & Hb1 & Hd1); eauto.
  - intros p' Hp'. destruct (Hfr _ Hp'). split; [|done]. rewrite lookup_insert_ne; [done|].
    intros ->. congruence.
  - intros p' b0 Hb0 Hd0. destruct (proj1 (Hsame p' true)) as (b1 & Hb1 & Hd1); eauto.
  - intros p' Hp'. destruct (Hc _ Hp') as [|[|]]; [by auto..|]. right; right. by apply Hsame.
  - by eapply accounted_update.
Qed.

Definition array_of q : list nat := seq (initialBlockPool q) (Z.to_nat (initialBlockPoolSize q)).

Lemma array_of_spec q p : p ∈ array_of q ↔ in_array q p.
Proof.
  unfold array_of. rewrite elem_of_seq. split.
  - intros Hp. exists (Z.of_nat (p - initialBlockPool q)). lia.
  - intros (i & Hi & ->). lia.
Qed.

(** The blocks fit into what is allocated. *)
Lemma pool_memory_bytes m q hdrs : pool_memory m q hdrs → pool_bytes m q.
Proof.
  intros [Ha Hst Hfr Hn Hpl Hdy Hh Hc [Htot Hmax Hsz Hbl Hpo]].
  pose proof block_size_pos as Hbs. pose proof ok_block as [Hbb _].
  set (arr := array_of q). assert (Harr : ∀ p, p ∈ arr ↔ in_array q p) by apply array_of_spec.
  assert (Hnd : NoDup arr) by apply NoDup_seq.
  assert (Hlen : Z.of_nat (length arr) = Z.max 0 (initialBlockPoolSize q))
    by (unfold arr, array_of; rewrite length_seq; lia).
  set (dyn := base.elements (dom (filter (λ x, dynamicallyAllocated x.2 = true) (blocks m)) : gset nat)).
  assert (Hdyn : ∀ p, p ∈ dyn ↔ ∃ b, blocks m !! p = Some b ∧ dynamicallyAllocated b = true).
  { intros p. unfold dyn. rewrite elem_of_elements, elem_of_dom. split.
    - intros [b [Hb Hd]%map_lookup_filter_Some]. by exists b.
    - intros (b & Hb & Hd). exists b. by apply map_lookup_filter_Some. }
  assert (Hdom : (dom (blocks m) : gset nat) = list_to_set (arr ++ dyn)).
  { apply set_eq. intros p. rewrite elem_of_dom, elem_of_list_to_set, elem_of_app, Harr, Hdyn. split.
    - intros [b Hb]. destruct (dynamicallyAllocated b) eqn:Ed; [right; by exists b|left; by eapply Hst].
    - intros [(b & Hb & _)%Ha|(b & Hb & _)]; by eexists. }
  assert (Hnd' : NoDup (arr ++ dyn)).
  { apply NoDup_app. split_and!; [done| |apply NoDup_elements].
    intros p (b & Hb & Hd)%Harr%Ha (b' & Hb' & Hd')%Hdyn. congruence. }
  assert (Hsize : size (blocks m) = (length arr + length dyn)%nat)
    by (rewrite <- (size_dom (D := gset nat)), Hdom, size_list_to_set by done; apply length_app).
  assert (Hd0 : sizeof_Block * Z.of_nat (length dyn) ≤ total (chunks m)).
  { apply total_some; [done|apply NoDup_elements|]. intros p (b & Hb & Hd)%Hdyn. by eapply Hbl. }
  constructor; rewrite Hsize; [|lia]. split; [|done].
  destruct Hpl as [(_ & Hs & _)|(Hp & Hs & _)]; [rewrite Hs in Hlen; lia|].
  assert (Hd : sizeof_Block * Z.of_nat (length dyn) ≤ total (delete (initialBlockPool q) (chunks m))).
  { apply total_some; [|apply NoDup_elements|].
    - intros p z [_ Hz]%lookup_delete_Some. by eapply Hsz.
    - intros p (b & Hb & Hd)%Hdyn. rewrite lookup_delete_ne; [by eapply Hbl|].
      apply not_eq_sym. by eapply (Hdy p b). }
  rewrite (total_delete _ _ _ (Hpo Hp)) in Hd. lia.
Qed.

Lemma pool_inv_bytes m q owned hdrs fl : pool_inv m q owned hdrs fl → pool_bytes m q.
Proof. intros []. by eapply pool_memory_bytes. Qed.

(** Only where the array is matters. *)
Lemma pool_memory_same m q q' hdrs :
  initialBlockPool q' = initialBlockPool q → initialBlockPoolSize q' = initialBlockPoolSize q →
  pool_memory m q hdrs → pool_memory m q' hdrs.
Proof.
  intros Hp Hs [Ha Hst Hfr Hn Hpl Hdy Hh Hc [? ? ? ? ?]].
  constructor; unfold in_array in *; rewrite ?Hp, ?Hs; try done.
  constructor; rewrite ?Hp, ?Hs; done.
Qed.

Lemma pool_bytes_update m q p b b' :
  pool_bytes m q → blocks m !! p = Some b →
  pool_bytes (set_blocks (<[p := b']> (blocks m)) m) q.
Proof.
  intros [] Hb. by constructor; simpl; rewrite map_size_insert_Some by eauto.
Qed.

Lemma pool_blocks_bound m q : pool_bytes m q → Z.of_nat (size (blocks m)) * BLOCK_SIZE ≤ 2 ^ 63.
Proof. intros []. destruct ok_block as [Hb _]. nia. Qed.

Section inv.
Context m q owned hdrs fl (Hinv : pool_inv m q owned hdrs fl).

Lemma pool_null : blocks m !! 0%nat = None.
Proof. apply (sk_null _ _ (pi_stack _ _ _ _ _ Hinv)). Qed.

Lemma owned_not_null p : p ∈ owned → p ≠ 0%nat.
Proof.
  intros Hp ->. destruct (pi_owned _ _ _ _ _ Hinv _ Hp) as [[b Hb] _].
  by rewrite pool_null in Hb.
Qed.

Lemma owned_refs p b : p ∈ owned → blocks m !! p = Some b → block_freeListRefs b = 0.
Proof.
  intros Hp Hb. destruct (pi_owned _ _ _ _ _ Hinv _ Hp) as (_ & Hfl & _).
  pose proof (sk_refs _ _ (pi_stack _ _ _ _ _ Hinv) p b Hb) as Hr. simpl in Hr.
  by rewrite decide_False in Hr.
Qed.

(** A block that is owned may change. *)
Lemma pool_inv_update p b b' :
  p ∈ owned → blocks m !! p = Some b → block_freeListRefs b' = block_freeListRefs b →
  dynamicallyAllocated b' = dynamicallyAllocated b →
  pool_inv (set_blocks (<[p := b']> (blocks m)) m) q owned hdrs fl.
Proof.
  intros Hp Hb Hr Hd. pose proof (owned_not_null p Hp) as Hp0.
  pose proof (pi_owned _ _ _ _ _ Hinv p Hp) as (_ & Hfl & Hrange).
  destruct Hinv as [Hs Hw Ho Hf Hi Hm].
  constructor; simpl; [| | |done..|by eapply pool_memory_update].
  - destruct Hs as [Hz Hl Hnd Hrefs]. constructor; simpl in *; [|..|done|].
    + by rewrite lookup_insert_ne.
    + apply (linked_ext (free_list m q)); [|done]. intros p' n' Hp' Hn'. exists n'. simpl in *.
      rewrite lookup_insert_ne; [done|]. by intros ->.
    + intros p' n'. destruct (decide (p' = p)) as [->|Hne].
      * rewrite lookup_insert_eq. intros [= <-]. rewrite Hr. by apply (Hrefs p b).
      * rewrite lookup_insert_ne by done. apply Hrefs.
  - intros p' b0. destruct (decide (p' = p)) as [->|Hne]; [by left|].
    rewrite lookup_insert_ne by done. apply Hw.
  - intros p' Hp'. destruct (decide (p' = p)) as [->|Hne].
    + rewrite lookup_insert_eq. split; [by eexists|done].
    + rewrite lookup_insert_ne by done. by apply Ho.
Qed.
End inv.

(** ** Running the members *)
Lemma runs_on_free_list {A} (f : M X (FreeList (Block T)) A) m q Q Qt F :
  runs f (free_list m q)
    (λ a l, Q a (set_blocks (nodes l) m, set_freeListHead (freeListHead l) q))
    (λ x l, Qt x (set_blocks (nodes l) m, set_freeListHead (freeListHead l) q)) F →
  runs (on_free_list f) (m, q) Q Qt F.
Proof. unfold runs, on_free_list. by destruct (f _) as [[l [a|x]]|]. Qed.

Lemma runs_on_snd {S R A} (c : M X S A) (r : R) s Q Qt F :
  runs c s (λ a s', Q a (r, s')) (λ x s', Qt x (r, s')) F → runs (on_snd c) (r, s) Q Qt F.
Proof. unfold runs, on_snd. by destruct (c s) as [[s' [a|x]]|]. Qed.

Lemma runs_equal {S A} (c : M X S A) s s' (a : A) Q Qt F :
  c s = Ok (s', Returns a) → Q a s' → runs c s Q Qt F.
Proof. unfold runs. by intros ->. Qed.

(** The top of the free list is handed out. *)
Lemma pool_inv_taken m q owned hdrs fl p n :
  pool_inv m q owned hdrs (p :: fl) → blocks m !! p = Some n →
  pool_inv (set_blocks (<[p := taken n]> (blocks m)) m)
    (set_freeListHead (block_freeListNext n) q) ({[p]} ∪ owned) hdrs fl.
Proof.
  intros Hinv Hp. pose proof (pi_stack _ _ _ _ _ Hinv) as Hs.
  pose proof (taken_stack _ _ _ _ Hs Hp) as Hs'.
  pose proof (sk_nodup _ _ Hs) as Hnd. apply NoDup_cons in Hnd as [Hpfl _].
  pose proof (pi_fl _ _ _ _ _ Hinv p ltac:(by left)) as Hrange.
  destruct Hinv as [_ Hw Ho Hf Hi Hm].
  constructor; simpl; try done.
  - intros p' b0. destruct (decide (p' = p)) as [->|Hne]; [left; set_solver|].
    rewrite lookup_insert_ne by done. intros Hb0. destruct (Hw _ _ Hb0) as [|[[Hin|] Hu]].
    + left. set_solver.
    + right. apply elem_of_cons in Hin as [|]; [done|]. by auto.
    + right. by auto.
  - intros p' [->%elem_of_singleton|Hp']%elem_of_union.
    + rewrite lookup_insert_eq. by split; [eexists|].
    + destruct (Ho _ Hp') as (? & Hnot & ?). rewrite not_elem_of_cons in Hnot.
      rewrite lookup_insert_ne by naive_solver. naive_solver.
  - intros p' Hp'. apply Hf. by right.
  - apply (pool_memory_same _ q); [done..|]. by eapply pool_memory_update.
Qed.

(** A block is put on the free list. *)
Lemma pool_inv_pushed m q owned hdrs fl p n :
  pool_inv m q owned hdrs fl → blocks m !! p = Some n → p ∈ owned → unused n →
  pool_inv (set_blocks (<[p := put_back (pool_freeListHead q) n]> (blocks m)) m)
    (set_freeListHead p q) (owned ∖ {[p]}) hdrs (p :: fl).
Proof.
  intros Hinv Hp Hown Hu. destruct (pi_owned _ _ _ _ _ Hinv p Hown) as (_ & Hpfl & Hrange).
  pose proof (pushed_stack _ _ _ _ (pi_stack _ _ _ _ _ Hinv) Hp Hpfl) as Hs'.
  destruct Hinv as [_ Hw Ho Hf Hi Hm].
  constructor; simpl; try done.
  - intros p' b0. destruct (decide (p' = p)) as [->|Hne].
    + rewrite lookup_insert_eq. intros [= <-]. right. split; [left; by left|done].
    + rewrite lookup_insert_ne by done. intros Hb0. destruct (Hw _ _ Hb0) as [|[[Hin|] ?]].
      * left. set_solver.
      * right. split; [left; by right|done].
      * by auto.
  - intros p' [Hp' Hne]%elem_of_difference. rewrite elem_of_singleton in Hne.
    rewrite lookup_insert_ne by done. destruct (Ho _ Hp') as (? & ? & ?).
    split_and!; [done| |done]. rewrite not_elem_of_cons. by split.
  - intros p' [->|Hp']%elem_of_cons; [done|by apply Hf].
  - apply (pool_memory_same _ q); [done..|]. by eapply pool_memory_update.
Qed.

(** *** Memory *)
Definition never {A S} : A → S → Prop := λ _ _, False.
Definition no_fault : fault → Prop := λ _, False.

Lemma pool_memory_grow m q hdrs p bytes n :
  pool_memory m q hdrs → p = next_address m → (0 < n)%nat →
  0 ≤ bytes → allocated m + bytes ≤ 2 ^ 63 →
  pool_memory (mkMemory (blocks m) (<[p := bytes]> (chunks m)) (next_address m + n)
    (S (requests m)) (allocated m + bytes) (lost m)) q ({[p]} ∪ hdrs).
Proof.
  intros [Ha Hst Hfr Hn Hpl Hdy Hh Hc [Htot Hmax Hsz Hbl Hpo]] Hp Hpos Hby Hle.
  destruct (Hfr p ltac:(lia)) as [Hpb Hpc].
  assert (Hother : ∀ p', is_Some (chunks m !! p') → p' ≠ p) by (intros ? [? ?] ->; congruence).
  constructor; simpl; try done.
  - intros p' Hp'. destruct (Hfr p' ltac:(lia)). split; [done|].
    rewrite lookup_insert_ne by lia. done.
  - lia.
  - destruct Hpl as [(? & ? & ?)|(? & ? & Hs & ?)].
    { left. by rewrite lookup_insert_ne by lia. }
    right. pose proof (Hother _ Hs).
    rewrite lookup_insert_ne by done. split_and!; [done..|set_solver].
  - intros p' b Hb Hd. destruct (Hdy p' b Hb Hd) as (Hs & ? & ?). pose proof (Hother _ Hs).
    rewrite lookup_insert_ne by done. split_and!; [done|set_solver|done].
  - intros p' [->%elem_of_singleton|Hp']%elem_of_union.
    + rewrite lookup_insert_eq. split; [by eexists|lia].
    + destruct (Hh p' Hp') as [Hs ?]. pose proof (Hother _ Hs).
      by rewrite lookup_insert_ne by done.
  - intros p'. destruct (decide (p' = p)) as [->|Hne]; [left; set_solver|].
    rewrite lookup_insert_ne by done. intros Hp'. destruct (Hc _ Hp') as [|[|]]; [|by auto..].
    left. set_solver.
  - constructor; simpl; [rewrite total_insert by done; lia|done|..].
    + intros p' z [[-> ->]|[? Hz]]%lookup_insert_Some; [done|by eapply Hsz].
    + intros p' b Hb Hd. rewrite lookup_insert_ne; [by eapply Hbl|].
      apply not_eq_sym, Hother. rewrite (Hbl _ _ Hb Hd). by eexists.
    + intros Hne. rewrite lookup_insert_ne; [by apply Hpo|].
      apply not_eq_sym, Hother. rewrite (Hpo Hne). by eexists.
Qed.

Lemma malloc_runs bytes m q owned hdrs fl (Q : nat → Mem → Prop) :
  pool_inv m q owned hdrs fl → pool_bytes m q → 0 ≤ bytes →
  (∀ p m', blocks m' = blocks m → lost m' = lost m → pool_bytes m' q →
     (p = 0%nat ∧ out_of_memory ∧ pool_inv m' q owned hdrs fl) ∨
     (p ≠ 0%nat ∧ (p ∉ hdrs) ∧ blocks m' !! p = None ∧ (p < next_address m')%nat ∧
      pool_inv m' q owned ({[p]} ∪ hdrs) fl ∧
      sizeof_Block * Z.of_nat (size (blocks m')) + bytes ≤ allocated m' ∧ bytes ≤ 2 ^ 63 ∧
      chunks m' !! p = Some bytes) →
     Q p m') →
  runs (malloc (X := X) bytes 1) m Q never no_fault.
Proof.
  intros Hinv [Hby Hct] Hb HQ. destruct Hinv as [Hs Hw Ho Hf Hi Hm].
  pose proof block_size_pos. pose proof ok_block as [Hbs _].
  assert (0 ≤ allocated m) by nia.
  unfold runs, malloc. pose proof (pm_fresh _ _ _ Hm) as Hfr. pose proof (pm_next _ _ _ Hm).
  destruct (Traits_malloc _ _ _) eqn:Em.
  - pose proof (ok_malloc _ _ _ Em). apply HQ; [done..|by constructor; simpl; lia|]. right.
    destruct (Hfr (next_address m) ltac:(lia)) as [Hfb Hfc].
    split_and!; [lia| |done|simpl; lia| |simpl; lia|lia|apply lookup_insert_eq].
    + intros Hp. destruct (pm_hdrs _ _ _ Hm _ Hp) as [[? ?] _]. congruence.
    + constructor; simpl; [done..|]. apply pool_memory_grow; [done..|lia|done|lia].
  - apply HQ; [done..|by constructor|]. left. split_and!; [done|by do 3 eexists|].
    constructor; simpl; [done..|]. destruct Hm as [????????[]]. by constructor; [..|constructor].
Qed.

Lemma Block_new_unused : unused Block_new.
Proof.
  split_and!; [by apply length_replicate|apply Block_new_flags_ok|].
  apply Forall_replicate. by left.
Qed.

Lemma in_range_array q p : 0 ≤ initialBlockPoolIndex q → in_range q p → in_array q p.
Proof. intros Hi (i & Hb & ->). exists i. split; [lia|done]. Qed.

(** A chunk that has just been allocated becomes a block. *)
Lemma pool_inv_new_block m q owned hdrs fl p b :
  pool_inv m q owned ({[p]} ∪ hdrs) fl → p ≠ 0%nat → p ∉ hdrs → blocks m !! p = None →
  (p < next_address m)%nat → chunks m !! p = Some sizeof_Block →
  dynamicallyAllocated b = true → block_freeListRefs b = 0 →
  pool_inv (set_blocks (<[p := b]> (blocks m)) m) q ({[p]} ∪ owned) hdrs fl.
Proof.
  intros [[Hz Hl Hnd Hr] Hw Ho Hf Hi [Ha Hst Hfr Hn Hpl Hdy Hh Hc Hac]] Hp0 Hph Hpb Hlt Hchunk Hd Hrefs.
  simpl in *.
  assert (Hother : ∀ p' b', blocks m !! p' = Some b' → p' ≠ p) by (intros ? ? ? ->; congruence).
  assert (Harr : ¬ in_array q p) by (intros (b' & Hb' & _)%Ha; congruence).
  assert (Hfl : p ∉ fl).
  { intros Hin. destruct (linked_elem _ _ _ p Hl Hin) as [b' Hb']. simpl in Hb'. congruence. }
  constructor; simpl.
  - constructor; simpl; [by rewrite lookup_insert_ne| |done|].
    + apply (linked_ext (free_list m q)); [|done]. intros p' n' _ Hn'. exists n'. simpl in *.
      rewrite lookup_insert_ne; [done|]. by eapply not_eq_sym, Hother.
    + intros p' n'. destruct (decide (p' = p)) as [->|Hne].
      * rewrite lookup_insert_eq. intros [= <-]. by rewrite decide_False.
      * rewrite lookup_insert_ne by done. apply Hr.
  - intros p' b'. destruct (decide (p' = p)) as [->|Hne]; [left; set_solver|].
    rewrite lookup_insert_ne by done. intros Hb'. destruct (Hw _ _ Hb'); [left; set_solver|auto].
  - intros p' [->%elem_of_singleton|Hp']%elem_of_union.
    + rewrite lookup_insert_eq. split_and!; [by eexists|done|].
      intros Hrange. apply Harr, in_range_array; [lia|done].
    + destruct (Ho _ Hp') as ([b' Hb'] & ?). pose proof (Hother _ _ Hb').
      rewrite lookup_insert_ne by done. split; [by eexists|done].
  - done.
  - done.
  - constructor; simpl; [| | |done|..].
    + intros p' Hp'. destruct (Ha _ Hp') as (b' & Hb' & ?). exists b'.
      pose proof (Hother _ _ Hb'). by rewrite lookup_insert_ne by done.
    + intros p' b'. destruct (decide (p' = p)) as [->|Hne].
      * rewrite lookup_insert_eq. intros [= <-]. congruence.
      * rewrite lookup_insert_ne by done. apply Hst.
    + intros p' Hp'. rewrite lookup_insert_ne by lia. by apply Hfr.
    + destruct Hpl as [|(? & ? & ? & ?)]; [by left|right]. split_and!; [done..|set_solver].
    + intros p' b'. destruct (decide (p' = p)) as [->|Hne].
      * rewrite lookup_insert_eq. intros [= <-] _. split_and!; [|done|].
        -- by apply Hh; set_solver.
        -- intros ->. destruct Hpl as [(? & _)|(_ & _ & _ & Hnot)]; [done|]. apply Hnot. set_solver.
      * rewrite lookup_insert_ne by done. intros Hb' Hd'. destruct (Hdy _ _ Hb' Hd') as (?&?&?).
        split_and!; [done|set_solver|done].
    + intros p' Hp'. apply Hh. set_solver.
    + intros p' Hp'. destruct (decide (p' = p)) as [->|Hne].
      * right; right. rewrite lookup_insert_eq. by eexists.
      * rewrite lookup_insert_ne by done. destruct (Hc _ Hp') as [|[|]]; [left; set_solver|auto..].
    + destruct Hac. constructor; simpl; try done.
      intros p' b' [[-> <-]|[? Hb']]%lookup_insert_Some; [done|by eauto].
Qed.

Lemma create_block_runs m q owned hdrs fl :
  pool_inv m q owned hdrs fl → pool_bytes m q →
  runs (create_block (X := X)) m
    (λ p m', lost m' = lost m ∧ pool_bytes m' q ∧
      (p = 0%nat ∧ out_of_memory ∧ blocks m' = blocks m ∧ pool_inv m' q owned hdrs fl ∨
       p ≠ 0%nat ∧ (p ∉ owned) ∧ blocks m' = <[p := Block_new]> (blocks m) ∧
       pool_inv m' q ({[p]} ∪ owned) hdrs fl)) never no_fault.
Proof.
  intros Hinv Hby. apply runs_bind. eapply malloc_runs; [done..| |].
  { pose proof block_size_pos. destruct ok_block. lia. }
  intros p m' Hb Hl Hby' [(-> & Hmem & Hinv')|(Hp & Hph & Hpb & Hlt & Hinv' & Hbytes & _ & Hchunk)].
  - apply runs_ret. split_and!; [done..|]. left. by split_and!.
  - rewrite bool_decide_eq_false_2 by done. apply runs_bind, runs_modify, runs_ret. simpl.
    split_and!; [done| |].
    + destruct Hby' as [Hby1 Hby2]. constructor; simpl; rewrite map_size_insert_None by done; lia.
    + right. split_and!; [done| |by rewrite Hb|by apply pool_inv_new_block].
      intros Hp'. destruct (pi_owned _ _ _ _ _ Hinv _ Hp') as [[? ?] _]. congruence.
Qed.

(** The next block of the initial array is handed out. *)
Lemma pool_inv_range m q owned hdrs fl :
  pool_inv m q owned hdrs fl → initialBlockPoolIndex q < initialBlockPoolSize q →
  let p := (initialBlockPool q + Z.to_nat (initialBlockPoolIndex q))%nat in
  pool_inv m (set_poolIndex (initialBlockPoolIndex q + 1) q) ({[p]} ∪ owned) hdrs fl ∧
  p ≠ 0%nat ∧ (p ∉ owned) ∧ ∃ b, blocks m !! p = Some b ∧ unused b.
Proof.
  intros Hinv Hlt p. assert (Hp0 : p ≠ 0%nat).
  { destruct (pm_pool _ _ _ (pi_memory _ _ _ _ _ Hinv)) as [(_ & Hz & _)|[Hz _]];
      pose proof (pi_index _ _ _ _ _ Hinv); lia. }
  destruct Hinv as [Hs Hw Ho Hf Hi Hm].
  assert (Hrange : in_range q p) by (exists (initialBlockPoolIndex q); split; [lia|done]).
  assert (Hsub : ∀ p', in_range q p' ↔ p' = p ∨
    in_range (set_poolIndex (initialBlockPoolIndex q + 1) q) p').
  { intros p'. split.
    - intros (i & Hb & ->). destruct (decide (i = initialBlockPoolIndex q)) as [->|]; [by left|].
      right. exists i. simpl. split; [lia|done].
    - intros [->|(i & Hb & ->)]; [done|]. exists i. simpl in *. split; [lia|done]. }
  assert (Hgone : ¬ in_range (set_poolIndex (initialBlockPoolIndex q + 1) q) p).
  { intros (i & Hb & Hp). simpl in *. unfold p in Hp. lia. }
  assert (Hown : p ∉ owned) by (intros Hp; by destruct (Ho _ Hp) as (_ & _ & [])).
  assert (Hb : ∃ b, blocks m !! p = Some b ∧ unused b).
  { destruct (pm_array _ _ _ Hm p) as (b & Hb & _); [by apply in_range_array; [lia|]|].
    exists b. split; [done|]. by destruct (Hw _ _ Hb) as [|[_ ?]]. }
  split_and!; [|done..]. constructor; simpl.
  - done.
  - intros p' b0 Hb0. destruct (Hw _ _ Hb0) as [|[[|[->|]%Hsub] ?]]; set_solver.
  - intros p' [->%elem_of_singleton|Hp']%elem_of_union.
    + destruct Hb as (b & Hb & _). split_and!; [by eexists| |done].
      intros Hfl. by apply (Hf _ Hfl).
    + destruct (Ho _ Hp') as (? & ? & Hnot). rewrite Hsub in Hnot. naive_solver.
  - intros p' Hp' Hin. apply (Hf _ Hp'), Hsub. by right.
  - lia.
  - by apply (pool_memory_same _ q).
Qed.

Lemma requisition_block_runs canAlloc m q owned hdrs fl :
  pool_inv m q owned hdrs fl → pool_bytes m q →
  runs (requisition_block (X := X) canAlloc) (m, q)
    (λ p '(m', q'), frame owned m m' ∧ pool_bytes m' q' ∧ ∃ fl',
      p = 0%nat ∧ (canAlloc = true → out_of_memory) ∧ pool_inv m' q' owned hdrs fl' ∨
      p ≠ 0%nat ∧ (p ∉ owned) ∧ pool_inv m' q' ({[p]} ∪ owned) hdrs fl' ∧
      ∃ b, blocks m' !! p = Some b ∧ unused b) never no_fault.
Proof.
  intros Hinv Hby. unfold requisition_block, try_get_block_from_initial_pool.
  apply runs_bind, runs_bind, runs_on_snd, runs_gets. simpl.
  destruct (Z.leb_spec (initialBlockPoolSize q) (initialBlockPoolIndex q)) as [Hle|Hlt].
  - apply runs_ret. rewrite bool_decide_eq_false_2 by auto.
    apply runs_bind, runs_on_free_list. pose proof (pi_stack _ _ _ _ _ Hinv) as Hs.
    destruct fl as [|p fl].
    + eapply runs_equal; [by apply try_get_empty|]. simpl.
      assert (Hsame : (set_blocks (blocks m) m, set_freeListHead (pool_freeListHead q) q) = (m, q))
        by (by destruct m, q).
      rewrite Hsame. destruct canAlloc.
      * apply runs_on_fst. eapply runs_mono; [by apply create_block_runs|..]; [|done..].
        intros p m' (Hl & Hby' & [(-> & Hmem & Hb & Hinv')|(Hp & Hown & Hb & Hinv')]).
        -- split_and!; [by split; [rewrite Hb|]|done|]. exists []. left. by split_and!.
        -- split_and!; [|done|].
           { split; [|done]. intros p' Hp'. rewrite Hb, lookup_insert_ne; [done|]. by intros ->. }
           exists []. right. split_and!; [done..|]. exists Block_new.
           by rewrite Hb, lookup_insert_eq; split; [|apply Block_new_unused].
      * apply runs_ret. split_and!; [by split|done|]. exists []. by left.
    + destruct (try_get_runs (X := X) ndebug 0 _ _ _ Hs) as (n & Hn & _ & Hget). simpl in Hn.
      eapply runs_equal; [exact Hget|]. simpl.
      assert (Hp0 : p ≠ 0%nat) by (intros ->; by rewrite (pool_null _ _ _ _ _ Hinv) in Hn).
      assert (Hown : p ∉ owned).
      { intros Hp. destruct (pi_owned _ _ _ _ _ Hinv _ Hp) as (_ & Hnot & _). apply Hnot.
        by left. }
      rewrite bool_decide_eq_true_2 by done. apply runs_ret. split_and!.
      * split; [|done]. intros p' Hp'. simpl. rewrite lookup_insert_ne; [done|]. by intros ->.
      * destruct Hby. constructor; simpl; rewrite map_size_insert_Some by eauto; done.
      * exists fl. right. split_and!; [done..|by apply pool_inv_taken|].
        exists (taken n). simpl. rewrite lookup_insert_eq. split; [done|].
        destruct (pi_where _ _ _ _ _ Hinv _ _ Hn) as [|[_ Hu]]; [done|]. exact Hu.
  - apply runs_bind, runs_on_snd, runs_modify, runs_ret.
    destruct (pool_inv_range _ _ _ _ _ Hinv Hlt) as (Hinv' & Hp0 & Hown & b & Hb & Hu).
    rewrite (proj2 (Z.ltb_lt _ _)) by done. rewrite bool_decide_eq_true_2 by done.
    pose proof (pi_index _ _ _ _ _ Hinv).
    pose proof (pb_count _ _ Hby). pose proof (pool_blocks_bound _ _ Hby).
    pose proof block_size_pow2.
    rewrite u64_small by nia. apply runs_ret. split_and!; [by split| |].
    + destruct Hby. by constructor.
    + exists fl. right. split_and!; [done..|]. by exists b.
Qed.
End pool.
