(* ===== verification/CqRing.v ===== *)
(** * The blocks of an explicit producer and their index

    [links h l stop]: the blocks of [l] are linked in this order, and the last one to
    [stop].  [block_at_in c b n H xs]: [b] is the [n]-th block of a queue whose first element
    has the index [H] and whose elements are [xs]; indices are counted without wrapping.
    [header_at]: the block index, a circular array of the first index of each block. *)
From stdpp Require Import gmap.
From S2P Require Import Prelude Lifetime FreeList CqBlock CqPool CqFacts CqPoolFacts CqExplicit.

#[local] Open Scope Z_scope.

(** ** Links *)
Section links.
Context {T : Type}.
Implicit Types (h : gmap nat (Block T)) (l k : list nat).

Fixpoint links h l (stop : nat) : Prop :=
  match l with
  | [] => True
  | p :: l => (∃ b, h !! p = Some b ∧ next b = hd stop l) ∧ links h l stop
  end.

Lemma links_app h l k stop : links h (l ++ k) stop ↔ links h l (hd stop k) ∧ links h k stop.
Proof.
  induction l as [|p l IH]; simpl; [naive_solver|]. rewrite IH.
  replace (hd stop (l ++ k)) with (hd (hd stop k) l) by by destruct l. naive_solver.
Qed.

Lemma links_ext h h' l stop :
  links h l stop → (∀ p b, p ∈ l → h !! p = Some b → ∃ b', h' !! p = Some b' ∧ next b' = next b) →
  links h' l stop.
Proof.
  induction l as [|p l IH]; [done|]. intros [(b & Hb & Hn) Hl] Hsame. split.
  - destruct (Hsame p b) as (b' & Hb' & Hn'); [by left|done|]. exists b'. split; [done|congruence].
  - apply IH; [done|]. intros p' b' Hp'. apply Hsame. by right.
Qed.

(** A block may change if it stays linked to the same one. *)
Lemma links_update h l stop p b b' :
  links h l stop → h !! p = Some b → next b' = next b → links (<[p := b']> h) l stop.
Proof.
  intros Hl Hb Hn. eapply links_ext; [done|]. intros p' b0 _ Hb0.
  destruct (decide (p' = p)) as [->|Hne].
  - rewrite lookup_insert_eq. eexists. split; [done|]. congruence.
  - rewrite lookup_insert_ne by done. by exists b0.
Qed.

Lemma links_update_ne h l stop p b' :
  links h l stop → p ∉ l → links (<[p := b']> h) l stop.
Proof.
  intros Hl Hp. eapply links_ext; [done|]. intros p' b0 Hp' Hb0.
  rewrite lookup_insert_ne by (by intros ->). by exists b0.
Qed.

Lemma links_lookup h l stop p : links h l stop → p ∈ l → is_Some (h !! p).
Proof.
  induction l as [|p' l IH]; [by intros _ ?%elem_of_nil|].
  intros [(b & Hb & _) Hl] [->|Hp]%elem_of_cons; [by eexists|by apply IH].
Qed.

(** A ring: the last block is linked to the first. *)
Definition ring h l : Prop := links h l (hd 0%nat l).

Lemma ring_rotate h p l : ring h (p :: l) → ring h (l ++ [p]).
Proof.
  unfold ring. intros [(b & Hb & Hn) Hl]. apply links_app. split.
  - destruct l; [done|]. exact Hl.
  - split; [|done]. exists b. split; [done|]. rewrite Hn. by destruct l.
Qed.

Lemma ring_rotate_back h p l : ring h (l ++ [p]) → ring h (p :: l).
Proof.
  unfold ring. intros [Hl [(b & Hb & Hn) _]]%links_app. split.
  - exists b. split; [done|]. rewrite Hn. by destruct l.
  - exact Hl.
Qed.

(** The block after the last one. *)
Lemma ring_next h l p b : ring h (l ++ [p]) → h !! p = Some b → next b = hd p l.
Proof.
  unfold ring. intros [_ [(b' & Hb' & Hn) _]]%links_app Hb. assert (b' = b) as -> by congruence.
  rewrite Hn. by destruct l.
Qed.

(** A block is inserted between the last and the first. *)
Lemma ring_insert h l p b p' b' :
  ring h (l ++ [p]) → h !! p = Some b → h !! p' = Some b' → p' ∉ l ++ [p] → p ∉ l →
  ring (<[p := set_next p' b]> (<[p' := set_next (next b) b']> h)) (l ++ [p] ++ [p']).
Proof.
  intros Hr Hb Hb' Hp' Hp. pose proof (ring_next _ _ _ _ Hr Hb) as Hn.
  rewrite not_elem_of_app, not_elem_of_cons in Hp'. destruct Hp' as (Hp'l & Hne & _).
  unfold ring in *. apply links_app in Hr as [Hl _]. apply links_app. split; [|split; [|split; [|done]]].
  - apply links_update_ne; [|done]. apply links_update_ne; [|done]. destruct l; exact Hl.
  - exists (set_next p' b). rewrite lookup_insert_eq. by split.
  - exists (set_next (next b) b'). rewrite lookup_insert_ne, lookup_insert_eq by done.
    split; [done|]. simpl. rewrite Hn. by destruct l.
Qed.

Lemma ring_alone h p b : h !! p = Some b → ring (<[p := set_next p b]> h) [p].
Proof. intros Hb. split; [|done]. exists (set_next p b). by rewrite lookup_insert_eq. Qed.

(** The blocks of a ring are blocks there are. *)
Lemma links_size h l stop : links h l stop → NoDup l → (length l ≤ size h)%nat.
Proof.
  intros Hl Hnd. rewrite <- size_dom, <- (size_list_to_set (C := gset nat) l Hnd).
  apply subseteq_size. intros p Hp. apply elem_of_dom. rewrite elem_of_list_to_set in Hp.
  by eapply links_lookup.
Qed.
End links.

(** ** Elements *)
Section elements.
Context {TR : Traits} {OK : TraitsOk} {X T : Type} `{!CppType X T}.
Context {c : InnerQueueContext}.
#[local] Abbreviation vacant := (vacant (X := X) (T := T)).
#[local] Abbreviation unused := (unused (X := X) (T := T)).
Implicit Types (b : Block T) (n d H i j : Z) (xs : list T).

(** The element with index [i]. *)
Definition item H xs i : option T := if i <? H then None else xs !! Z.to_nat (i - H).

Definition slot_ok (o x : option T) : Prop :=
  match x with Some x => o = Some x | None => vacant o end.

Record block_at_in (c : InnerQueueContext) b n H xs : Prop := {
  ba_length : length (elements b) = Z.to_nat BLOCK_SIZE;
  ba_slots j : 0 ≤ j < BLOCK_SIZE →
    ∃ o, elements b !! Z.to_nat j = Some o ∧ slot_ok o (item H xs (n * BLOCK_SIZE + j));
  ba_emptied : emptied_in c b (Z.max 0 (H - n * BLOCK_SIZE))
}.

Lemma item_None H xs i : i < H ∨ H + zlen xs ≤ i → item H xs i = None.
Proof.
  unfold item, zlen. intros Hi. destruct (Z.ltb_spec i H); [done|].
  apply lookup_ge_None. lia.
Qed.

Lemma item_head H x xs : item H (x :: xs) H = Some x.
Proof. unfold item. by rewrite Z.ltb_irrefl, Z.sub_diag. Qed.

(** The first element is gone. *)
Lemma item_tail H x xs i : item (H + 1) xs i = if i =? H then None else item H (x :: xs) i.
Proof.
  unfold item. destruct (Z.eqb_spec i H), (Z.ltb_spec i (H + 1)), (Z.ltb_spec i H); try lia; try done.
  replace (Z.to_nat (i - H)) with (S (Z.to_nat (i - (H + 1)))) by lia. done.
Qed.

(** An element has been added. *)
Lemma item_snoc H x xs i :
  item H (xs ++ [x]) i = if i =? H + zlen xs then Some x else item H xs i.
Proof.
  unfold item, zlen. destruct (Z.eqb_spec i (H + Z.of_nat (length xs))) as [->|Hne].
  - rewrite (proj2 (Z.ltb_ge _ _)) by lia.
    replace (Z.to_nat (H + Z.of_nat (length xs) - H)) with (length xs) by lia.
    by rewrite lookup_app_r, Nat.sub_diag by done.
  - destruct (Z.ltb_spec i H); [done|]. destruct (decide (Z.to_nat (i - H) < length xs)%nat).
    + by rewrite lookup_app_l.
    + rewrite (lookup_ge_None_2 xs), lookup_ge_None_2; [done| |lia]. rewrite length_app. simpl. lia.
Qed.

Lemma block_at_flags b n H xs :
  H < (n + 1) * BLOCK_SIZE → block_at_in explicit_context b n H xs → flags_ok b.
Proof. intros Hn [_ _ He]. eapply emptied_flags_ok, He. pose proof block_size_pos. lia. Qed.

(** A block that is ready for elements. *)
Lemma block_at_fresh b n H xs :
  length (elements b) = Z.to_nat BLOCK_SIZE → Forall vacant (elements b) → emptied_in c b 0 →
  H ≤ n * BLOCK_SIZE → H + zlen xs ≤ n * BLOCK_SIZE → block_at_in c b n H xs.
Proof.
  intros Hl Hv He Hn Hx. constructor; [done| |by rewrite Z.max_l by lia]. intros j Hj.
  destruct (lookup_lt_is_Some_2 (elements b) (Z.to_nat j)) as [o Ho]; [lia|]. exists o.
  split; [done|]. rewrite item_None by lia. exact (Forall_lookup_1 _ _ _ _ Hv Ho).
Qed.

(** An element is constructed behind the last one. *)
Lemma block_at_place b n H xs x :
  block_at_in c b n H xs → H + zlen xs - n * BLOCK_SIZE < BLOCK_SIZE → n * BLOCK_SIZE ≤ H + zlen xs →
  block_at_in c (set_elements (<[Z.to_nat (H + zlen xs - n * BLOCK_SIZE) := Some x]> (elements b)) b)
    n H (xs ++ [x]).
Proof.
  intros [Hl Hs He] Hi Hn. constructor; simpl; [by rewrite length_insert| |done]. intros j Hj.
  rewrite item_snoc. destruct (Z.eqb_spec (n * BLOCK_SIZE + j) (H + zlen xs)) as [Heq|Hne].
  - exists (Some x). split; [|done]. replace (H + zlen xs - n * BLOCK_SIZE) with j by lia.
    apply list_lookup_insert_eq. lia.
  - rewrite list_lookup_insert_ne by lia. by apply Hs.
Qed.

(** Nothing changes for the blocks that the new element is not in. *)
Lemma block_at_snoc b n H xs x :
  block_at_in c b n H xs → (n + 1) * BLOCK_SIZE ≤ H + zlen xs → block_at_in c b n H (xs ++ [x]).
Proof.
  intros [Hl Hs He] Hn. constructor; [done| |done]. intros j Hj. rewrite item_snoc.
  destruct (Z.eqb_spec (n * BLOCK_SIZE + j) (H + zlen xs)); [lia|by apply Hs].
Qed.

(** What is in the slot for an element. *)
Lemma block_at_slot b n H xs i :
  block_at_in c b n H xs → n * BLOCK_SIZE ≤ i < (n + 1) * BLOCK_SIZE →
  ∃ o, vector_at (elements b) (i - n * BLOCK_SIZE) = Ok o ∧ slot_ok o (item H xs i).
Proof.
  intros [_ Hs _] Hi. destruct (Hs (i - n * BLOCK_SIZE)) as (o & Ho & Hok); [lia|].
  exists o. split; [by apply vector_at_Some|].
  by replace (n * BLOCK_SIZE + (i - n * BLOCK_SIZE)) with i in Hok by lia.
Qed.

(** Other blocks do not notice that the first element goes. *)
Lemma block_at_later b n H x xs :
  block_at_in c b n H (x :: xs) → H < n * BLOCK_SIZE → block_at_in c b n (H + 1) xs.
Proof.
  intros [Hl Hs He] Hn. constructor; [done| |by rewrite Z.max_l in * by lia]. intros j Hj.
  rewrite (item_tail H x). destruct (Z.eqb_spec (n * BLOCK_SIZE + j) H); [lia|by apply Hs].
Qed.

(** Its slot is empty now, and the block knows. *)
Lemma block_at_dequeued b b' n H x xs :
  block_at_in c b n H (x :: xs) → n * BLOCK_SIZE ≤ H < (n + 1) * BLOCK_SIZE →
  elements b' = <[Z.to_nat (H - n * BLOCK_SIZE) := None]> (elements b) →
  emptied_in c b' (H - n * BLOCK_SIZE + 1) → block_at_in c b' n (H + 1) xs.
Proof.
  intros [Hl Hs He] Hn Heq He'. constructor; [by rewrite Heq, length_insert| |].
  - intros j Hj. rewrite (item_tail H x), Heq.
    destruct (Z.eqb_spec (n * BLOCK_SIZE + j) H) as [Hi|Hi].
    + exists None. split; [|by left]. replace (H - n * BLOCK_SIZE) with j by lia.
      apply list_lookup_insert_eq. lia.
    + rewrite list_lookup_insert_ne by lia. by apply Hs.
  - by replace (Z.max 0 (H + 1 - n * BLOCK_SIZE)) with (H - n * BLOCK_SIZE + 1) by lia.
Qed.

(** A block all of whose elements have been dequeued. *)
Lemma block_at_unused b n H xs :
  block_at_in c b n H xs → (n + 1) * BLOCK_SIZE = H → flags_ok b →
  unused b ∧ emptied_in c b BLOCK_SIZE.
Proof.
  intros [Hl Hs He] Hn Hf. pose proof block_size_pos.
  replace (Z.max 0 (H - n * BLOCK_SIZE)) with BLOCK_SIZE in He by lia. split; [|done].
  split_and!; [done|done|].
  apply Forall_lookup. intros j o Ho. pose proof (lookup_lt_Some _ _ _ Ho).
  destruct (Hs (Z.of_nat j) ltac:(lia)) as (o' & Ho' & Hok). rewrite Nat2Z.id in Ho'.
  assert (o' = o) as -> by congruence. rewrite item_None in Hok by lia. exact Hok.
Qed.

Lemma recounted_elements b b' : recounted b b' →
  elements b' = elements b ∧ next b' = next b ∧ block_freeListRefs b' = block_freeListRefs b ∧
  dynamicallyAllocated b' = dynamicallyAllocated b.
Proof. by intros (z & l & ->). Qed.

Lemma losses_vacant (l : list (option T)) : Forall vacant l → losses (X := X) l = 0%nat.
Proof.
  intros Hv. unfold losses. destruct (trivially_destructible _) eqn:Et; [done|].
  induction Hv as [|o l [->|] _ IH]; [done|exact IH|congruence].
Qed.
End elements.

(** The blocks of explicit producers. *)
Abbreviation block_at := (block_at_in explicit_context).

(** ** The block index of an explicit producer

    [header_at clean e h n used]: the index [h] has an entry for each block of [used],
    which are the [n]-th, [n+1]-st, ... blocks of the queue, in the slots before
    [pr_blockIndexFront]; the slots in use that come before those have been written, and
    if the producer is [clean] they describe the blocks before the [n]-th. *)
Section index.
Context {TR : Traits} {OK : TraitsOk} {X T : Type} `{!CppType X T}.
#[local] Abbreviation Q := (ExplicitProducer * (Memory T * BlockPool))%type.
Implicit Types (e : ExplicitProducer) (h : BlockIndexHeader) (n i : Z) (used : list nat).
Implicit Types (l : list (option BlockIndexEntry)) (m : Memory T) (q : BlockPool).

Record header_at (clean : bool) e h n used : Prop := {
  hd_size : index_size h = pr_blockIndexSize e ∧
    length (entries h) = Z.to_nat (pr_blockIndexSize e);
  hd_pow : pow2 (pr_blockIndexSize e) ∧ pr_blockIndexSize e * BLOCK_SIZE ≤ 2 ^ 64;
  hd_front : 0 ≤ pr_blockIndexFront e < pr_blockIndexSize e;
  hd_slots : zlen used ≤ pr_blockIndexSlotsUsed e ≤ pr_blockIndexSize e;
  hd_written k : 1 ≤ k ≤ pr_blockIndexSlotsUsed e →
    ∃ a, entries h !! Z.to_nat ((pr_blockIndexFront e - k) mod pr_blockIndexSize e) = Some (Some a) ∧
      (clean = true → base a = u64 ((n + zlen used - k) * BLOCK_SIZE));
  hd_used (j p : nat) : used !! j = Some p →
    entries h !! Z.to_nat ((pr_blockIndexFront e - zlen used + Z.of_nat j) mod pr_blockIndexSize e)
      = Some (Some (mkEntry (u64 ((n + Z.of_nat j) * BLOCK_SIZE)) p))
}.

(** The index may still have to be allocated. *)
Definition index_at (clean : bool) e n used : Prop :=
  match blockIndex e with
  | [] => used = [] ∧ pr_blockIndexSlotsUsed e = 0 ∧ pow2 (pr_blockIndexSize e) ∧
      2 * pr_blockIndexSize e * BLOCK_SIZE ≤ 2 ^ 64 ∧
      2 * pr_blockIndexSize e * sizeof_BlockIndexEntry ≤ 2 ^ 63
  | h :: _ => header_at clean e h n used
  end.

(** The current slot is that of the last block. *)
Definition exposed e h used : Prop :=
  used ≠ [] → index_front h = (pr_blockIndexFront e - 1) mod pr_blockIndexSize e.

Lemma entry_at_Some h i a : entries h !! Z.to_nat i = Some (Some a) → entry_at h i = Ok a.
Proof. intros Ha. unfold entry_at. by rewrite (vector_at_Some _ _ _ Ha). Qed.

(** Blocks are found counting backwards from the current one.  The difference of the
    indices wraps, and so does that of the slots, in step since the size of the index
    divides the number of blocks with different indices. *)
Lemma offset_wraps s k : pow2 s → s * BLOCK_SIZE ≤ 2 ^ 64 → 0 ≤ k < s →
  (u64 (- (k * BLOCK_SIZE)) / BLOCK_SIZE) mod s = (- k) mod s.
Proof.
  intros Hs Hle Hk. destruct block_size_pow2 as [Hb Hbs]. pose proof (pow2_bounds s Hs).
  destruct (decide (k = 0)) as [->|Hne].
  { rewrite Z.mul_0_l, u64_small by lia. rewrite Z.div_0_l by lia. done. }
  assert (Hu : u64 (- (k * BLOCK_SIZE)) = 2 ^ 64 - k * BLOCK_SIZE).
  { unfold u64. rewrite <- (Z_mod_plus_full _ 1), Z.mod_small by nia. lia. }
  assert (Hdiv : (s * BLOCK_SIZE | 2 ^ 64)).
  { destruct Hs as (a & Ha & ->), Hb as (b & Hb & Hb'). rewrite Hb' in *.
    rewrite <- Z.pow_add_r in * by lia. apply Z.pow_le_mono_r_iff in Hle; [|lia..].
    exists (2 ^ (64 - (a + b))). rewrite <- Z.pow_add_r by lia. f_equal. lia. }
  destruct Hdiv as [z Hz]. rewrite Hu, Hz.
  replace (z * (s * BLOCK_SIZE) - k * BLOCK_SIZE) with ((z * s - k) * BLOCK_SIZE) by lia.
  rewrite Z.div_mul by lia. replace (z * s - k) with (- k + z * s) by lia.
  apply Z_mod_plus_full.
Qed.

Lemma slot_for_run clean e h n used i (j p : nat) :
  header_at clean e h n used → exposed e h used → used !! j = Some p →
  i / BLOCK_SIZE = n + Z.of_nat j →
  let slot := (pr_blockIndexFront e - zlen used + Z.of_nat j) mod pr_blockIndexSize e in
  slot_for h (u64 i) = Ok slot ∧ entry_at h slot = Ok (mkEntry (u64 (i / BLOCK_SIZE * BLOCK_SIZE)) p).
Proof.
  intros [[Hsz Hlen] [Hpow Hle] Hf Hs Hw Hu] Hex Hj Hi slot.
  set (s := pr_blockIndexSize e) in *. set (f := pr_blockIndexFront e) in *.
  pose proof (pow2_bounds s Hpow). pose proof (lookup_lt_Some _ _ _ Hj) as Hjl.
  split; [|by rewrite Hi; apply entry_at_Some, Hu].
  assert (Hne : used ≠ []) by by intros ->. specialize (Hex Hne).
  destruct (lookup_lt_is_Some_2 used (length used - 1)) as [q Hq]; [lia|].
  pose proof (Hu _ _ Hq) as Hlast.
  replace (Z.of_nat (length used - 1)) with (zlen used - 1) in Hlast by (unfold zlen; lia).
  replace (f - zlen used + (zlen used - 1)) with (f - 1) in Hlast by lia.
  unfold slot_for. rewrite Hex. fold s f. rewrite (entry_at_Some _ _ _ Hlast). rewrite bind_Ok. simpl.
  rewrite clear_bits_block by apply block_size_pow2. rewrite u64_sub_l, u64_sub_r, Hi, Hsz. fold s.
  rewrite mask_mod by done. f_equal. unfold slot.
  set (k := zlen used - 1 - Z.of_nat j).
  replace ((n + Z.of_nat j) * BLOCK_SIZE - (n + (zlen used - 1)) * BLOCK_SIZE)
    with (- (k * BLOCK_SIZE)) by (unfold k; lia).
  rewrite Zplus_mod_idemp_l. rewrite <- Zplus_mod_idemp_r, offset_wraps; [|done|done|].
  - rewrite Zplus_mod_idemp_r. f_equal. unfold k. lia.
  - unfold k, zlen in *. lia.
Qed.

(** The first of the blocks is left behind. *)
Lemma header_at_later clean e h n p used :
  header_at clean e h n (p :: used) → header_at clean e h (n + 1) used.
Proof.
  intros [Hsz Hpow Hf Hs Hw Hu]. constructor; try done.
  - unfold zlen in *. simpl in *. lia.
  - intros k Hk. destruct (Hw k Hk) as (a & Ha & Hb). exists a. split; [done|].
    intros Hc. rewrite (Hb Hc). do 2 f_equal. unfold zlen in *. simpl. lia.
  - intros j p' Hj. specialize (Hu (S j) p' Hj). unfold zlen in *. simpl in *.

    replace (pr_blockIndexFront e - Z.of_nat (S (length used)) + Z.of_nat (S j))
      with (pr_blockIndexFront e - Z.of_nat (length used) + Z.of_nat j) in Hu by lia.
    rewrite Hu. do 4 f_equal. lia.
Qed.

(** An entry for another block is written. *)
Lemma header_at_add clean e e' h n used i p :
  header_at clean e h n used → i = u64 ((n + zlen used) * BLOCK_SIZE) →
  pr_blockIndexSize e' = pr_blockIndexSize e →
  pr_blockIndexFront e' = (pr_blockIndexFront e + 1) mod pr_blockIndexSize e →
  pr_blockIndexSlotsUsed e' ≤ pr_blockIndexSlotsUsed e + 1 →
  zlen used + 1 ≤ pr_blockIndexSlotsUsed e' ≤ pr_blockIndexSize e →
  ∀ z, header_at clean e' (mkHeader (header_raw h) (index_size h) z
    (<[Z.to_nat (pr_blockIndexFront e) := Some (mkEntry i p)]> (entries h))) n (used ++ [p]).
Proof.
  intros [[Hsz Hlen] [Hpow Hle] Hf Hs Hw Hu] -> Hsize Hfront Hslots Hroom z.
  set (s := pr_blockIndexSize e) in *. set (f := pr_blockIndexFront e) in *.
  pose proof (pow2_bounds s Hpow). pose proof (zlen_nonneg used).
  assert (Hzlen : zlen (used ++ [p]) = zlen used + 1) by by rewrite zlen_app.
  assert (Hnew : ∀ v, <[Z.to_nat f := v]> (entries h) !! Z.to_nat (f mod s) = Some v).
  { intros v. rewrite (Z.mod_small f) by lia. apply list_lookup_insert_eq. lia. }
  assert (Hold : ∀ v k, 1 ≤ k < s →
    <[Z.to_nat f := v]> (entries h) !! Z.to_nat ((f - k) mod s) = entries h !! Z.to_nat ((f - k) mod s)).
  { intros v k Hk. apply list_lookup_insert_ne. intros Heq.
    pose proof (Z.mod_pos_bound (f - k) s ltac:(lia)).
    assert (f mod s = (f - k) mod s) by (rewrite (Z.mod_small f); lia).
    assert (f - k = f); [|lia]. apply (mod_window s); [lia..|done]. }
  constructor; simpl; rewrite ?Hsize, ?Hfront, ?Hzlen; fold s f; [|done|..].
  - by rewrite length_insert.
  - apply Z.mod_pos_bound. lia.
  - lia.
  - intros k Hk. rewrite Zminus_mod_idemp_l. destruct (decide (k = 1)) as [->|Hk1].
    + replace (f + 1 - 1) with f by lia. rewrite Hnew. eexists. split; [done|]. intros _. simpl.
      do 2 f_equal. lia.
    + replace (f + 1 - k) with (f - (k - 1)) by lia. rewrite Hold by lia.
      destruct (Hw (k - 1)) as (a & Ha & Hb); [lia|]. exists a. split; [done|].
      intros Hc. rewrite (Hb Hc). do 2 f_equal. lia.
  - intros j p' Hj.
    replace ((f + 1) mod s - (zlen used + 1) + Z.of_nat j)
      with ((f + 1) mod s - (zlen used + 1 - Z.of_nat j)) by lia.
    rewrite Zminus_mod_idemp_l. apply lookup_app_Some in Hj as [Hj|[Hge Hj]].
    + pose proof (lookup_lt_Some _ _ _ Hj) as Hjl. unfold zlen in *.
      replace (f + 1 - (Z.of_nat (length used) + 1 - Z.of_nat j))
        with (f - (Z.of_nat (length used) - Z.of_nat j)) by lia.
      rewrite Hold by lia. rewrite <- (Hu j p' Hj). do 3 f_equal. lia.
    + assert (Hj0 : (j - length used = 0)%nat).
      { destruct (j - length used)%nat; [done|]. by rewrite lookup_cons in Hj. }
      rewrite Hj0 in Hj. simpl in Hj. injection Hj as ->. unfold zlen in *.
      replace (f + 1 - (Z.of_nat (length used) + 1 - Z.of_nat j)) with f by lia.
      rewrite Hnew. do 5 f_equal. lia.
Qed.

(** ** A larger index *)

(** The copying loop copies the [r] entries before the front. *)
Lemma copy_entries_run h s f (r : nat) : ∀ fuel j l,
  pow2 s → length (entries h) = Z.to_nat s → (0 < r)%nat → Z.of_nat r ≤ s → 0 ≤ f < s →
  (∀ k, 1 ≤ k ≤ Z.of_nat r → ∃ a, entries h !! Z.to_nat ((f - k) mod s) = Some (Some a)) →
  (r ≤ fuel)%nat → (j + r ≤ length l)%nat →
  ∃ l', copy_entries fuel h (u64 (s - 1)) f ((f - Z.of_nat r) mod s) j l = Ok (l', (j + r)%nat) ∧
    length l' = length l ∧ (∀ i : nat, (i < j)%nat → l' !! i = l !! i) ∧
    ∀ i : nat, (i < r)%nat → l' !! (j + i)%nat = entries h !! Z.to_nat ((f - Z.of_nat r + Z.of_nat i) mod s).
Proof.
  induction r as [|r IH]; intros [|fuel] j l Hs Hlen Hr Hle Hf Hw Hfuel Hj; [lia..|].
  pose proof (pow2_bounds s Hs). simpl.
  destruct (Hw (Z.of_nat (S r))) as [a Ha]; [lia|]. rewrite (entry_at_Some _ _ _ Ha), bind_Ok.
  rewrite decide_True by lia. set (l1 := <[j := Some a]> l).
  rewrite mask_mod, Zplus_mod_idemp_l by done.
  replace (f - Z.of_nat (S r) + 1) with (f - Z.of_nat r) by lia.
  assert (Hl1 : length l1 = length l) by apply length_insert.
  assert (Hj1 : l1 !! j = Some (Some a)) by (apply list_lookup_insert_eq; lia).
  assert (Hother : ∀ i : nat, i ≠ j → l1 !! i = l !! i) by (intros; by apply list_lookup_insert_ne).
  destruct (Z.eqb_spec ((f - Z.of_nat r) mod s) f) as [Heq|Hne].
  - assert (Hr0 : r = 0%nat).
    { assert (f - Z.of_nat r = f); [|lia].
      apply (mod_window s); [lia..|]. by rewrite Heq, Z.mod_small by lia. }
    subst r. exists l1. replace (j + 1)%nat with (S j) by lia. split_and!; [done..| |].
    + intros i Hi. apply Hother. lia.
    + intros i Hi. replace i with 0%nat by lia. rewrite Nat.add_0_r, Z.add_0_r. by rewrite Ha.
  - destruct r as [|r'].
    { exfalso. apply Hne. rewrite Z.sub_0_r. by apply Z.mod_small. }
    destruct (IH fuel (S j) l1) as (l' & Hrun & Hlen' & Hlow & Hhigh); [done|done|lia|lia|done| |lia|lia|].
    { intros k Hk. apply Hw. lia. }
    exists l'. replace (j + S (S r'))%nat with (S j + S r')%nat by lia.
    split_and!; [done|congruence| |].
    + intros i Hi. rewrite Hlow, Hother by lia. done.
    + intros [|i] Hi.
      * rewrite Nat.add_0_r, Z.add_0_r, Hlow, Hj1 by lia. by rewrite Ha.
      * replace (j + S i)%nat with (S j + i)%nat by lia. rewrite Hhigh by lia.
        do 3 f_equal. lia.
Qed.

(** The slots in use move to the beginning of an index of twice the size. *)
Lemma header_at_moved clean e e' h n used raw z l :
  header_at clean e h n used →
  pr_blockIndexSize e' = 2 * pr_blockIndexSize e → pow2 (2 * pr_blockIndexSize e) →
  2 * pr_blockIndexSize e * BLOCK_SIZE ≤ 2 ^ 64 →
  pr_blockIndexSlotsUsed e' = pr_blockIndexSlotsUsed e →
  pr_blockIndexFront e' = pr_blockIndexSlotsUsed e →
  length l = Z.to_nat (2 * pr_blockIndexSize e) →
  (∀ i : nat, (i < Z.to_nat (pr_blockIndexSlotsUsed e))%nat → l !! i = entries h !! Z.to_nat
    ((pr_blockIndexFront e - pr_blockIndexSlotsUsed e + Z.of_nat i) mod pr_blockIndexSize e)) →
  header_at clean e' (mkHeader raw (2 * pr_blockIndexSize e) z l) n used.
Proof.
  intros [[Hsz Hlen] [Hpow Hle] Hf Hs Hw Hu] Hsize Hpow' Hle' Hslots Hfront Hl Hcopy.
  pose proof (pow2_bounds _ Hpow). pose proof (zlen_nonneg used).
  constructor; simpl; rewrite ?Hsize, ?Hfront, ?Hslots; [done|done|lia|lia|..].
  - intros k Hk. destruct (Hw k Hk) as (a & Ha & Hb). exists a. split; [|done].
    rewrite Z.mod_small by lia. rewrite Hcopy by lia. rewrite <- Ha. do 3 f_equal. lia.
  - intros j p Hj. pose proof (lookup_lt_Some _ _ _ Hj). rewrite <- (Hu j p Hj).
    unfold zlen in *. rewrite Z.mod_small by lia. rewrite Hcopy by lia. do 3 f_equal. lia.
Qed.

(** ** Running the members of a producer *)
Section runs.
Context {P A : Type} (e : P) (m : Memory T) (q : BlockPool).
#[local] Abbreviation S := (P * (Memory T * BlockPool))%type.
Context (Qr : A → S → Prop) (Qt : X → S → Prop) (F : fault → Prop).

Lemma runs_on_memory (c : M X (Memory T) A) :
  runs c m (λ a m', Qr a (e, (m', q))) (λ x m', Qt x (e, (m', q))) F →
  runs (on_memory c) (e, (m, q)) Qr Qt F.
Proof. unfold runs, on_memory, on_snd, on_fst. by destruct (c m) as [[m' [a|x]]|]. Qed.

Lemma runs_on_pool (c : M X (Memory T * BlockPool) A) :
  runs c (m, q) (λ a s, Qr a (e, s)) (λ x s, Qt x (e, s)) F →
  runs (on_snd c) (e, (m, q)) Qr Qt F.
Proof. apply runs_on_snd. Qed.

Lemma runs_lift (r : result A) a :
  r = Ok a → Qr a (e, (m, q)) → runs (lift r) (e, (m, q)) Qr Qt F.
Proof. by intros ->. Qed.
End runs.

Lemma runs_get {A} e (m : Memory T) (q : BlockPool) (f : ExplicitProducer → A)
    (Qr : A → Q → Prop) (Qt : X → Q → Prop) F :
  Qr (f e) (e, (m, q)) → runs (get f) (e, (m, q)) Qr Qt F.
Proof. done. Qed.

Lemma runs_self e (s : Memory T * BlockPool) (Qr : ExplicitProducer → Q → Prop)
    (Qt : X → Q → Prop) F :
  Qr e (e, s) → runs self (e, s) Qr Qt F.
Proof. done. Qed.

Lemma runs_put e (s : Memory T * BlockPool) f (Qr : () → Q → Prop) (Qt : X → Q → Prop) F :
  Qr tt (f e, s) → runs (put f) (e, s) Qr Qt F.
Proof. done. Qed.

Lemma cq_runs_massert {S} b (s : S) (Qr : () → S → Prop) (Qt : X → S → Prop) F :
  b = true → Qr tt s → runs (massert b) s Qr Qt F.
Proof. intros ->. unfold runs, massert, cassert. by rewrite orb_true_r. Qed.

Lemma runs_on_block {A} (m : Memory T) p b b' (a : A) f (Qr : A → Memory T → Prop)
    (Qt : X → Memory T → Prop) F :
  blocks m !! p = Some b → f b = Ok (b', a) → Qr a (set_blocks (<[p := b']> (blocks m)) m) →
  runs (on_block p f) m Qr Qt F.
Proof. unfold runs, on_block. by intros -> ->. Qed.

Lemma runs_load_block (m : Memory T) p b (Qr : Block T → Memory T → Prop)
    (Qt : X → Memory T → Prop) F :
  blocks m !! p = Some b → Qr b m → runs (load_block p) m Qr Qt F.
Proof. unfold runs, load_block. by intros ->. Qed.

Lemma index_bytes_ok s : 0 < s → s * sizeof_BlockIndexEntry ≤ 2 ^ 63 →
  0 ≤ index_bytes s ∧ index_room (index_bytes s) = Z.to_nat s.
Proof.
  intros Hs Hb. pose proof ok_header as (? & ? & ?). pose proof ok_entry.
  unfold index_room, index_bytes. rewrite (u64_small (sizeof_BlockIndexEntry * s)) by lia.
  rewrite u64_small by lia. split; [nia|]. f_equal.
  replace (_ - _ - _) with (s * sizeof_BlockIndexEntry) by lia. apply Z.div_mul. lia.
Qed.

Lemma new_block_index_runs clean z e m q owned hdrs fl n used :
  pool_inv (X := X) m q owned hdrs fl → pool_bytes m q → index_at clean e n used →
  2 * pr_blockIndexSize e * BLOCK_SIZE ≤ 2 ^ 64 →
  2 * pr_blockIndexSize e * sizeof_BlockIndexEntry ≤ 2 ^ 63 →
  runs (new_block_index (X := X) z) (e, (m, q))
    (λ ok '(e', (m', q')), q' = q ∧ blocks m' = blocks m ∧ lost m' = lost m ∧ pool_bytes m' q ∧
      (ok = false ∧ e' = e ∧ out_of_memory ∧ pool_inv (X := X) m' q owned hdrs fl ∨
       ok = true ∧ ∃ h', blockIndex e' = h' :: blockIndex e ∧ (header_raw h' ∉ hdrs) ∧
         pool_inv (X := X) m' q owned ({[header_raw h']} ∪ hdrs) fl ∧
         header_at clean e' h' n used ∧ index_front h' = u64 (z - 1) ∧
         producer_base e' = producer_base e ∧
         pr_blockIndexSlotsUsed e' = pr_blockIndexSlotsUsed e ∧
         pr_blockIndexSize e' = 2 * pr_blockIndexSize e ∧
         pr_blockIndexFront e' = pr_blockIndexSlotsUsed e)) never no_fault.
Proof.
  intros Hinv Hby Hix Hle Hent. pose proof block_size_pow2 as [_ Hbs].
  assert (Hs : pow2 (pr_blockIndexSize e)).
  { unfold index_at in Hix. destruct (blockIndex e); [naive_solver|by apply Hix]. }
  pose proof (pow2_bounds _ Hs).
  assert (Hs2 : pow2 (2 * pr_blockIndexSize e)).
  { destruct Hs as (k & Hk & Hk'). exists (k + 1). rewrite Z.pow_add_r, Hk' by lia.
    split; [|lia]. split; [lia|]. assert (k ≠ 64); [|lia]. intros ->. nia. }
  unfold new_block_index. apply runs_bind, runs_self.
  assert (Hshl : u64 (Z.shiftl (pr_blockIndexSize e) 1) = 2 * pr_blockIndexSize e).
  { rewrite Z.shiftl_mul_pow2, u64_small by nia. lia. }
  rewrite Hshl. destruct (index_bytes_ok (2 * pr_blockIndexSize e)) as [Hb0 Hroom]; [lia..|].
  rewrite Hroom. apply runs_bind, runs_put, runs_bind, runs_on_memory.
  eapply malloc_runs; [done..|]. intros p m' Hb Hlost Hby' Hcase.
  destruct Hcase as [(-> & Hmem & Hinv')|(Hp & Hph & _ & _ & Hinv' & _)].
  { simpl. apply runs_bind, runs_put, runs_ret. split_and!; [done..|]. left.
    split_and!; [done| |done..]. rewrite Z.shiftr_div_pow2 by lia.
    replace (2 * pr_blockIndexSize e / 2 ^ 1) with (pr_blockIndexSize e)
      by (rewrite Z.mul_comm; symmetry; by apply Z.div_mul). by destruct e as [[]]. }
  rewrite bool_decide_eq_false_2 by done.
  destruct (blockIndex e) as [|h tl] eqn:Eb; unfold index_at in Hix; rewrite Eb in Hix.
  - destruct Hix as (-> & Hslots & _). rewrite Hslots. simpl.
    apply runs_bind, runs_ret, runs_bind, runs_put, runs_bind, runs_put, runs_ret.
    split_and!; [done..|]. right. split; [done|]. eexists. split_and!; [done..| |done|done|done|done|done].
    constructor; simpl; rewrite ?length_replicate; unfold zlen; simpl; try lia; try done.
  - pose proof Hix as [[Hsz Hlen] _ Hf Hsl Hw _]. pose proof (zlen_nonneg used).
    set (raw := replicate _ None).
    assert (Hcopy : ∃ l, length l = Z.to_nat (2 * pr_blockIndexSize e) ∧
      (∀ i : nat, (i < Z.to_nat (pr_blockIndexSlotsUsed e))%nat → l !! i = entries h !! Z.to_nat
        ((pr_blockIndexFront e - pr_blockIndexSlotsUsed e + Z.of_nat i) mod pr_blockIndexSize e)) ∧
      ((pr_blockIndexSlotsUsed e = 0 ∧ l = raw) ∨ (pr_blockIndexSlotsUsed e ≠ 0 ∧
       copy_entries (S (length (entries h))) h (u64 (pr_blockIndexSize e - 1)) (pr_blockIndexFront e)
         (Z.land (u64 (pr_blockIndexFront e - pr_blockIndexSlotsUsed e))
            (u64 (pr_blockIndexSize e - 1))) 0 raw
         = Ok (l, Z.to_nat (pr_blockIndexSlotsUsed e))))).
    { assert (Hraw : length raw = Z.to_nat (2 * pr_blockIndexSize e)) by apply length_replicate.
      destruct (decide (pr_blockIndexSlotsUsed e = 0)) as [Hz|Hz].
      { exists raw. split_and!; [done| |by left]. intros i Hi. lia. }
      rewrite mask_mod by done.
      destruct (copy_entries_run h (pr_blockIndexSize e) (pr_blockIndexFront e)
        (Z.to_nat (pr_blockIndexSlotsUsed e)) (S (length (entries h))) 0 raw)
        as (l & Hrun & Hl & _ & Hcp); [done|done|lia|lia|lia| |lia|lia|].
      { intros k Hk. destruct (Hw k) as (a & Ha & _); [lia|by exists a]. }
      rewrite Z2Nat.id in * by lia. exists l. split_and!; [congruence|exact Hcp|by right]. }
    destruct Hcopy as (l & Hl & Hcp & Hrun).
    apply runs_bind.
    assert (Hdone : runs (if negb (pr_blockIndexSlotsUsed e =? 0) then
         h ← current_index;
         lift (copy_entries (S (length (entries h))) h (u64 (pr_blockIndexSize e - 1))
                 (pr_blockIndexFront e)
                 (Z.land (u64 (pr_blockIndexFront e - pr_blockIndexSlotsUsed e))
                    (u64 (pr_blockIndexSize e - 1))) 0 raw)
       else mret (raw, 0%nat) : M X Q _)
      (set_indexSize (2 * pr_blockIndexSize e) e, (m', q))
      (λ r s, r = (l, Z.to_nat (pr_blockIndexSlotsUsed e)) ∧
         s = (set_indexSize (2 * pr_blockIndexSize e) e, (m', q))) never no_fault).
    { destruct Hrun as [[Hz ->]|[Hz Hrun]].
      - rewrite Hz. by apply runs_ret.
      - rewrite (proj2 (Z.eqb_neq _ _)) by done. apply runs_bind. unfold current_index.
        apply runs_bind, runs_get. simpl. rewrite Eb. apply runs_ret.
        by eapply runs_lift. }
    eapply runs_mono; [exact Hdone| |done..]. intros ? ? [-> ->].
    apply runs_bind, runs_put, runs_bind, runs_put, runs_ret.
    split_and!; [done..|]. right. split; [done|]. eexists. split_and!; [done..| |done|done|done|done|].
    + apply (header_at_moved clean e _ h); simpl; [done..|lia|done|done].
    + simpl. lia.
Qed.
End index.
