(* ===== verification/CqExplicitInv.v ===== *)
(** * Explicit producers: the invariant

    The ring of a producer, from the block after the tail block on: [idle] blocks, which
    have no elements and are empty or, after an exception, only look as if they were not;
    the blocks in [use]; and [extra] blocks that have been prepared for elements to come.
    [producer_at] describes the producer and its blocks, [memory_at] the memory. *)
From stdpp Require Import gmap.
From S2P Require Import Prelude Lifetime FreeList CqBlock CqPool CqFacts CqPoolFacts CqExplicit.
From S2P Require Import CqRing.

#[local] Open Scope Z_scope.

Section invariant.
Context {TR : Traits} {OK : TraitsOk} {X T : Type} `{!CppType X T}.
#[local] Abbreviation unused := (unused (X := X) (T := T)).
#[local] Abbreviation block_at := (block_at_in (X := X) (T := T) explicit_context).
#[local] Abbreviation pool_inv := (pool_inv (X := X) (T := T)).
Implicit Types (e : ExplicitProducer) (h : gmap nat (Block T)) (m : Memory T) (q : BlockPool).
Implicit Types (idle : list (nat * bool)) (used extra ring raws : list nat) (xs : list T).
Implicit Types (owned hdrs : gset nat) (H : Z) (b : Block T).

(** The idle blocks that can be used again. *)
Definition empties idle : Z := zlen (filter (λ x, x.2 = true) idle).

(** How many blocks it takes for the elements. *)
Definition blocks_in_use H (n : Z) : Z := (H + n + BLOCK_SIZE - 1) / BLOCK_SIZE - H / BLOCK_SIZE.

(** The size limit allows for [n] blocks. *)
Definition within_limit (n : Z) : Prop :=
  MAX_SUBQUEUE_SIZE = const_numeric_max ∨ n * BLOCK_SIZE ≤ MAX_SUBQUEUE_SIZE.

(** No block will be used again: the next one looks as if it were in use. *)
Definition stuck idle : Prop := ∃ p l, idle = (p, false) :: l.

Definition prepared h p : Prop :=
  ∃ b d, h !! p = Some b ∧ unused b ∧ 0 ≤ d ≤ BLOCK_SIZE ∧ emptied b d.

Record producer_at (clean : bool) e h idle used extra H xs : Prop := {
  pa_tail : tailIndex e = u64 (H + zlen xs);
  pa_head : headIndex e = u64 H;
  pa_count : dequeueOptimisticCount e = u64 H ∧ dequeueOvercommit e = 0;
  pa_pos : 0 ≤ H;
  pa_tailBlock : tailBlock e = List.last (idle.*1 ++ used ++ extra) 0%nat;
  pa_ring : ring h (idle.*1 ++ used ++ extra);
  pa_nodup : NoDup (idle.*1 ++ used ++ extra);
  pa_idle p f : (p, f) ∈ idle →
    ∃ b d, h !! p = Some b ∧ unused b ∧ 0 ≤ d ≤ BLOCK_SIZE ∧ emptied b d ∧
      (f = true ↔ d = BLOCK_SIZE);
  pa_used (j p : nat) : used !! j = Some p →
    ∃ b, h !! p = Some b ∧ block_at b (H / BLOCK_SIZE + Z.of_nat j) H xs;
  pa_extra p : p ∈ extra → prepared h p;
  pa_length : zlen used = blocks_in_use H (zlen xs);
  pa_slots : empties idle + zlen used + zlen extra ≤ pr_blockIndexSlotsUsed e
    ≤ zlen (idle.*1 ++ used ++ extra);
  pa_clean : clean = true → Forall (λ x, x.2 = true) idle;
  pa_index : blockIndex e = [] → idle.*1 ++ used ++ extra = [];
  pa_limit : within_limit (zlen used + zlen extra) ∧
    (within_limit (empties idle + zlen used + zlen extra) ∨ stuck idle)
}.

Record memory_at m q ring raws owned hdrs : Prop := {
  ma_pool : ∃ fl, pool_inv m q (list_to_set ring ∪ owned) (list_to_set raws ∪ hdrs) fl;
  ma_bytes : pool_bytes m q;
  ma_ring p : p ∈ ring → p ∉ owned;
  ma_raws p : p ∈ raws → p ∉ hdrs;
  ma_nodup : NoDup raws
}.

Definition raws_of e : list nat := header_raw <$> blockIndex e.

(** A producer between two calls. *)
Definition explicit_at (clean : bool) e m q owned hdrs idle used H xs : Prop :=
  producer_at clean e (blocks m) idle used [] H xs ∧
  index_at clean e (H / BLOCK_SIZE) used ∧
  (∀ i l, blockIndex e = i :: l → exposed e i used) ∧
  memory_at m q (idle.*1 ++ used) (raws_of e) owned hdrs.

(** ** Arithmetic *)
Lemma in_use_div H n : 0 ≤ n →
  (H / BLOCK_SIZE + blocks_in_use H n) * BLOCK_SIZE - BLOCK_SIZE < H + n
    ≤ (H / BLOCK_SIZE + blocks_in_use H n) * BLOCK_SIZE.
Proof.
  intros Hn. pose proof block_size_pos as Hb. unfold blocks_in_use.
  pose proof (Z.div_mod (H + n + BLOCK_SIZE - 1) BLOCK_SIZE block_size_ne).
  pose proof (Z.mod_pos_bound (H + n + BLOCK_SIZE - 1) BLOCK_SIZE Hb). nia.
Qed.

Lemma in_use_unique H n k : 0 ≤ n →
  (H / BLOCK_SIZE + k) * BLOCK_SIZE - BLOCK_SIZE < H + n ≤ (H / BLOCK_SIZE + k) * BLOCK_SIZE →
  blocks_in_use H n = k.
Proof.
  intros Hn Hk. pose proof (in_use_div H n Hn). pose proof block_size_pos.
  assert (blocks_in_use H n < k + 1) by nia. assert (k < blocks_in_use H n + 1) by nia. lia.
Qed.

Lemma head_div H : H / BLOCK_SIZE * BLOCK_SIZE ≤ H < (H / BLOCK_SIZE + 1) * BLOCK_SIZE.
Proof.
  pose proof block_size_pos as Hb. pose proof (Z.div_mod H BLOCK_SIZE block_size_ne).
  pose proof (Z.mod_pos_bound H BLOCK_SIZE Hb). nia.
Qed.

Lemma in_use_nonneg H n : 0 ≤ n → 0 ≤ blocks_in_use H n.
Proof.
  intros Hn. pose proof (in_use_div H n Hn). pose proof (head_div H). pose proof block_size_pos.
  nia.
Qed.

Lemma in_use_bound H n : 0 ≤ n → n ≤ blocks_in_use H n * BLOCK_SIZE.
Proof. intros Hn. pose proof (in_use_div H n Hn). pose proof (head_div H). nia. Qed.

(** Another element takes another block if those in use end where the elements do. *)
Lemma in_use_succ H n : 0 ≤ n →
  blocks_in_use H (n + 1) =
    blocks_in_use H n + (if (H + n) mod BLOCK_SIZE =? 0 then 1 else 0).
Proof.
  intros Hn. pose proof block_size_pos as Hb. apply in_use_unique; [lia|].
  pose proof (in_use_div H n Hn). pose proof (Z.div_mod (H + n) BLOCK_SIZE block_size_ne).
  pose proof (Z.mod_pos_bound (H + n) BLOCK_SIZE Hb).
  set (c := (H / BLOCK_SIZE + blocks_in_use H n)) in *.
  set (d := (H + n) / BLOCK_SIZE) in *. set (r := (H + n) mod BLOCK_SIZE) in *.
  destruct (Z.eqb_spec r 0).
  - assert (c = d) by nia. nia.
  - assert (c = d + 1) by nia. nia.
Qed.

(** Where the elements end with a block, so do the blocks in use; if the size limit allows
    for the elements of one more, it allows for the block. *)
Lemma in_use_end H n : 0 ≤ n → (H + n) mod BLOCK_SIZE = 0 →
  (H / BLOCK_SIZE + blocks_in_use H n) * BLOCK_SIZE = H + n.
Proof.
  intros Hn Hal. pose proof (in_use_div H n Hn) as Hd. pose proof block_size_pos.
  pose proof (Z.div_mod (H + n) BLOCK_SIZE block_size_ne) as Hdm. rewrite Hal in Hdm.
  set (c := H / BLOCK_SIZE + blocks_in_use H n) in *. set (d := (H + n) / BLOCK_SIZE) in *.
  assert (d ≤ c) by nia. assert (c - 1 < d) by nia. nia.
Qed.

Lemma within_limit_next H n : 0 ≤ n → (H + n) mod BLOCK_SIZE = 0 →
  (MAX_SUBQUEUE_SIZE = const_numeric_max ∨ n + BLOCK_SIZE ≤ MAX_SUBQUEUE_SIZE) →
  within_limit (blocks_in_use H n + 1).
Proof.
  intros Hn Hal [|Hle]; [by left|]. pose proof (in_use_end H n Hn Hal).
  pose proof (head_div H). pose proof block_size_pos.
  destruct max_subqueue_size as [Heq|(k & Hk & Heq & _)]; [by left|right].
  rewrite Heq in *. assert (blocks_in_use H n < k) by nia. nia.
Qed.

(** Elements that do not end with a block end in the last of the blocks in use. *)
Lemma in_use_last H n : 0 ≤ n → (H + n) mod BLOCK_SIZE ≠ 0 →
  (H + n) / BLOCK_SIZE = H / BLOCK_SIZE + blocks_in_use H n - 1 ∧ 1 ≤ blocks_in_use H n.
Proof.
  intros Hn Hal. pose proof (in_use_div H n Hn) as Hd. pose proof block_size_pos as Hb.
  pose proof (Z.div_mod (H + n) BLOCK_SIZE block_size_ne) as Hdm.
  pose proof (Z.mod_pos_bound (H + n) BLOCK_SIZE Hb). pose proof (head_div H).
  set (c := H / BLOCK_SIZE + blocks_in_use H n) in *. set (d := (H + n) / BLOCK_SIZE) in *.
  assert (d = c - 1) by nia. split; [lia|]. assert (H / BLOCK_SIZE < d + 1) by nia. lia.
Qed.

Lemma within_limit_mono n k : within_limit n → k ≤ n → within_limit k.
Proof. pose proof block_size_pos. intros [|] ?; [by left|right; nia]. Qed.

Lemma last_app_ne {A} (l k : list A) d : k ≠ [] → List.last (l ++ k) d = List.last k d.
Proof.
  intros Hk. induction l as [|a l IH]; [done|]. simpl. rewrite <- IH.
  destruct (l ++ k) eqn:E; [|done]. apply app_eq_nil in E. naive_solver.
Qed.

Lemma last_snoc' {A} (l : list A) a d : List.last (l ++ [a]) d = a.
Proof. by rewrite last_app_ne. Qed.

Lemma empties_nonneg idle : 0 ≤ empties idle.
Proof. apply zlen_nonneg. Qed.

Lemma empties_cons p f idle : empties ((p, f) :: idle) = (if f then 1 else 0) + empties idle.
Proof.
  unfold empties, zlen. destruct f.
  - rewrite filter_cons_True by done. cbn [length]. lia.
  - by rewrite filter_cons_False by done.
Qed.

Lemma empties_snoc p idle : empties (idle ++ [(p, true)]) = empties idle + 1.
Proof.
  unfold empties, zlen. rewrite filter_app, length_app, filter_cons_True by done. simpl. lia.
Qed.
End invariant.

(** ** Explicit producers: what the steps of the members do to the invariant *)
Section steps.
Context {TR : Traits} {OK : TraitsOk} {X T : Type} `{!CppType X T}.
#[local] Abbreviation unused := (unused (X := X) (T := T)).
#[local] Abbreviation vacant := (vacant (X := X) (T := T)).
#[local] Abbreviation block_at := (block_at_in (X := X) (T := T) explicit_context).
#[local] Abbreviation pool_inv := (pool_inv (X := X) (T := T)).
#[local] Abbreviation producer_at := (producer_at (X := X) (T := T)).
#[local] Abbreviation memory_at := (memory_at (X := X) (T := T)).
Implicit Types (e : ExplicitProducer) (h : gmap nat (Block T)) (m : Memory T) (q : BlockPool).
Implicit Types (idle : list (nat * bool)) (used extra ring raws : list nat) (xs : list T).
Implicit Types (owned hdrs : gset nat) (H : Z) (b : Block T).

(** ** Memory *)
Lemma memory_at_update m q ring raws owned hdrs p b b' :
  memory_at m q ring raws owned hdrs → p ∈ ring → blocks m !! p = Some b →
  block_freeListRefs b' = block_freeListRefs b →
  dynamicallyAllocated b' = dynamicallyAllocated b →
  memory_at (set_blocks (<[p := b']> (blocks m)) m) q ring raws owned hdrs.
Proof.
  intros [[fl Hpool] Hby Hr Hraw Hnd] Hp Hb Hrefs Hd. constructor; [|by eapply pool_bytes_update|done..].
  exists fl. eapply pool_inv_update; [done| |done..]. set_solver.
Qed.

Lemma memory_at_ring m q ring ring' raws owned hdrs :
  memory_at m q ring raws owned hdrs → ring ≡ₚ ring' → memory_at m q ring' raws owned hdrs.
Proof.
  intros [[fl Hpool] Hby Hr Hraw Hnd] Hperm. constructor; [|done| |done..].
  - exists fl. by replace (list_to_set ring' : gset nat) with (list_to_set ring : gset nat)
      by (apply leibniz_equiv; by rewrite Hperm).
  - intros p Hp. apply Hr. by rewrite Hperm.
Qed.

Lemma memory_at_lookup m q ring raws owned hdrs p :
  memory_at m q ring raws owned hdrs → p ∈ ring → is_Some (blocks m !! p) ∧ p ≠ 0%nat.
Proof.
  intros [[fl Hpool] _ _ _ _] Hp. assert (Hin : p ∈ list_to_set ring ∪ owned) by set_solver. split.
  - by apply (pi_owned _ _ _ _ _ Hpool).
  - by eapply owned_not_null.
Qed.

(** ** The blocks of a producer *)
Lemma idle_elem p f idle : (p, f) ∈ idle → p ∈ idle.*1.
Proof. intros Hp. apply list_elem_of_fmap. by exists (p, f). Qed.

Lemma ring_nonempty_last l p : p ∈ l → List.last l 0%nat ∈ l.
Proof.
  destruct l as [|a l _] using rev_ind; [by intros ?%elem_of_nil|].
  intros _. rewrite last_snoc'. set_solver.
Qed.

(** The blocks of [l] are the same but for their links. *)
Definition relinked h h' (l : list nat) : Prop :=
  ∀ p b, p ∈ l → h !! p = Some b → ∃ n, h' !! p = Some (set_next n b).

Lemma relinked_refl h l : relinked h h l.
Proof. intros p b _ Hb. exists (next b). rewrite Hb. by destruct b. Qed.

Lemma relinked_insert h h' p b l : relinked h h' l → p ∉ l → relinked h (<[p := b]> h') l.
Proof.
  intros Hs Hp p' b' Hp' Hb'. rewrite lookup_insert_ne by (by intros ->). by apply Hs.
Qed.

Lemma relinked_sub h h' l k : relinked h h' l → k ⊆ l → relinked h h' k.
Proof. intros Hs Hk p b Hp. by apply Hs, Hk. Qed.

Lemma idle_relinked h h' idle :
  relinked h h' (idle.*1) →
  (∀ p f, (p, f) ∈ idle → ∃ b d, h !! p = Some b ∧ unused b ∧ 0 ≤ d ≤ BLOCK_SIZE ∧
    emptied b d ∧ (f = true ↔ d = BLOCK_SIZE)) →
  ∀ p f, (p, f) ∈ idle → ∃ b d, h' !! p = Some b ∧ unused b ∧ 0 ≤ d ≤ BLOCK_SIZE ∧
    emptied b d ∧ (f = true ↔ d = BLOCK_SIZE).
Proof.
  intros Hs Hi p f Hp. destruct (Hi p f Hp) as (b & d & Hb & Hrest).
  destruct (Hs p b) as [n Hn]; [by eapply idle_elem|done|]. by exists (set_next n b), d.
Qed.

Lemma used_relinked h h' used H xs :
  relinked h h' used →
  (∀ j p : nat, used !! j = Some p →
    ∃ b, h !! p = Some b ∧ block_at b (H / BLOCK_SIZE + Z.of_nat j) H xs) →
  ∀ j p : nat, used !! j = Some p →
    ∃ b, h' !! p = Some b ∧ block_at b (H / BLOCK_SIZE + Z.of_nat j) H xs.
Proof.
  intros Hs Hu j p Hj. destruct (Hu j p Hj) as (b & Hb & [? ? ?]).
  destruct (Hs p b) as [n Hn]; [by eapply list_elem_of_lookup_2|done|].
  by exists (set_next n b).
Qed.

Lemma extra_relinked h h' extra :
  relinked h h' extra → (∀ p, p ∈ extra → prepared (X := X) h p) →
  ∀ p, p ∈ extra → prepared (X := X) h' p.
Proof.
  intros Hs He p Hp. destruct (He p Hp) as (b & d & Hb & Hrest).
  destruct (Hs p b Hp Hb) as [n Hn]. by exists (set_next n b), d.
Qed.

(** The block ahead is taken for new elements. *)
Lemma producer_at_reuse clean e h p idle used extra H xs b b' d :
  producer_at clean e h ((p, true) :: idle) used extra H xs →
  h !! p = Some b → next b' = next b → unused b' → 0 ≤ d ≤ BLOCK_SIZE → emptied b' d →
  producer_at clean (set_tailBlock p e) (<[p := b']> h) idle used (extra ++ [p]) H xs.
Proof.
  intros [Ht Hh Hc Hpos Htb Hring Hnd Hi Hu He Hlen Hs Hcl Hix Hlim] Hb Hn Hun Hd Hem.
  rewrite empties_cons in *. csimpl in *. apply NoDup_cons in Hnd as [Hp Hnd].
  rewrite !not_elem_of_app in Hp. destruct Hp as (Hpi & Hpu & Hpe).
  assert (Hshape : idle.*1 ++ used ++ extra ++ [p] = (idle.*1 ++ used ++ extra) ++ [p])
    by by rewrite <- !app_assoc.
  constructor; simpl; rewrite ?Hshape; try done.
  - by rewrite last_snoc'.
  - apply (ring_rotate (<[p := b']> h)). by eapply links_update.
  - apply NoDup_app. split_and!; [done| |by apply NoDup_singleton].
    intros p' Hp' ->%list_elem_of_singleton. rewrite !elem_of_app in Hp'. naive_solver.
  - eapply idle_relinked; [by apply relinked_insert; [apply relinked_refl|]|].
    intros p' f Hp'. apply Hi. by right.
  - eapply used_relinked; [by apply relinked_insert; [apply relinked_refl|]|done].
  - intros p' [Hp'| ->%list_elem_of_singleton]%elem_of_app.
    + eapply extra_relinked; [by apply relinked_insert; [apply relinked_refl|]|done..].
    + exists b', d. by rewrite lookup_insert_eq.
  - unfold zlen in *. csimpl in *. rewrite !length_app in *. csimpl in *. lia.
  - intros Hc'. specialize (Hcl Hc'). by inversion Hcl.
  - intros Hn'. specialize (Hix Hn'). done.
  - rewrite zlen_app. replace (zlen [p]) with 1 by done.
    destruct Hlim as [_ [Hw|(? & ? & ?)]]; [|done]. pose proof (empties_nonneg idle).
    split; [|left]; (eapply within_limit_mono; [done|lia]).
Qed.

(** A block from the pool is inserted behind the tail block. *)
Lemma producer_at_new clean e h h' p idle used extra H xs b d n :
  producer_at clean e h idle used extra H xs →
  ring h' ((idle.*1 ++ used ++ extra) ++ [p]) → relinked h h' (idle.*1 ++ used ++ extra) →
  p ∉ idle.*1 ++ used ++ extra → h' !! p = Some b → unused b → 0 ≤ d ≤ BLOCK_SIZE → emptied b d →
  within_limit (zlen used + zlen extra + 1) → (idle = [] ∨ stuck idle) → blockIndex e ≠ [] →
  n = pr_blockIndexSlotsUsed e + 1 →
  producer_at clean (set_slotsUsed n (set_tailBlock p e)) h' idle used (extra ++ [p]) H xs.
Proof.
  intros [Ht Hh Hc Hpos Htb Hring Hnd Hi Hu He Hlen Hs Hcl Hix Hlim] Hr Hrel Hp Hb Hun Hd Hem Hlim'
    Hidle Hne ->.
  assert (Hshape : idle.*1 ++ used ++ extra ++ [p] = (idle.*1 ++ used ++ extra) ++ [p])
    by by rewrite <- !app_assoc.
  constructor; simpl; rewrite ?Hshape; try done.
  - by rewrite last_snoc'.
  - apply NoDup_app. split_and!; [done| |by apply NoDup_singleton].
    by intros p' Hp' ->%list_elem_of_singleton.
  - eapply idle_relinked; [|done]. eapply relinked_sub; [done|]. set_solver.
  - eapply used_relinked; [|done]. eapply relinked_sub; [done|]. set_solver.
  - intros p' [Hp'| ->%list_elem_of_singleton]%elem_of_app; [|by exists b, d].
    eapply extra_relinked; [|done..]. eapply relinked_sub; [done|]. set_solver.
  - rewrite !zlen_app in *. replace (zlen [p]) with 1 by done. lia.
  - rewrite zlen_app. replace (zlen [p]) with 1 by done. rewrite Z.add_assoc.
    split; [done|]. destruct Hidle as [->|]; [left|by right].
    eapply within_limit_mono; [done|]. unfold empties, zlen. simpl. lia.
Qed.

(** An exception: the block that was taken stays in the ring and looks as if in use. *)
Lemma producer_at_revert clean e e' h p idle used H xs b d :
  producer_at clean e h idle used [p] H xs → h !! p = Some b → emptied b d → 0 ≤ d < BLOCK_SIZE →
  tailIndex e' = tailIndex e → headIndex e' = headIndex e →
  dequeueOptimisticCount e' = dequeueOptimisticCount e →
  dequeueOvercommit e' = dequeueOvercommit e → blockIndex e' = blockIndex e →
  tailBlock e' = List.last (p :: idle.*1 ++ used) 0%nat →
  empties idle + zlen used ≤ pr_blockIndexSlotsUsed e' ≤ pr_blockIndexSlotsUsed e →
  producer_at false e' h ((p, false) :: idle) used [] H xs.
Proof.
  intros [Ht Hh Hc Hpos Htb Hring Hnd Hi Hu He Hlen Hs Hcl Hix Hlim] Hb Hem Hd Et Eh Ec Eo Eb Etb Esl.
  assert (Hshape : idle.*1 ++ used ++ [p] = (idle.*1 ++ used) ++ [p]) by by rewrite <- app_assoc.
  rewrite Hshape in *. apply NoDup_app in Hnd as (Hnd & Hp & _).
  assert (Hpn : p ∉ idle.*1 ++ used) by (intros Hin; by apply (Hp p Hin), list_elem_of_singleton).
  constructor; simpl; rewrite ?app_nil_r; try congruence; try done.
  - by apply ring_rotate_back.
  - by apply NoDup_cons.
  - intros p' f [[= -> ->]|Hp']%elem_of_cons; [|by apply Hi]. exists b, d.
    destruct (He p) as (b0 & d0 & Hb0 & Hun & _); [set_solver|]. assert (b0 = b) as -> by congruence.
    split_and!; [done|done|lia|lia|done|]. split; [done|lia].
  - intros ? ?%elem_of_nil. done.
  - rewrite empties_cons. unfold zlen in *. csimpl in *. rewrite !length_app in *. csimpl in *. lia.
  - rewrite Eb. intros Hn. specialize (Hix Hn). by destruct (idle.*1 ++ used).
  - split; [|right; by exists p, idle]. destruct Hlim as [Hlim _].
    eapply within_limit_mono; [done|]. unfold zlen. simpl. lia.
Qed.

(** ** An element is added *)
Definition put_element (i : Z) (o : option T) b : Block T :=
  set_elements (<[Z.to_nat (offset_of (u64 i)) := o]> (elements b)) b.

Lemma used_end clean e h idle used extra H xs :
  producer_at clean e h idle used extra H xs →
  (H + zlen xs) mod BLOCK_SIZE = 0 → (H / BLOCK_SIZE + zlen used) * BLOCK_SIZE = H + zlen xs.
Proof.
  intros Hpa Hal. rewrite (pa_length _ _ _ _ _ _ _ _ Hpa). by apply in_use_end, Hal; apply zlen_nonneg.
Qed.

(** ... as the first one of a block that has been prepared. *)
Lemma producer_at_first clean e e' h p idle used extra H xs b y :
  producer_at clean e h idle used (p :: extra) H xs → (H + zlen xs) mod BLOCK_SIZE = 0 →
  h !! p = Some b → emptied b 0 →
  tailIndex e' = u64 (H + zlen xs + 1) → headIndex e' = headIndex e →
  dequeueOptimisticCount e' = dequeueOptimisticCount e →
  dequeueOvercommit e' = dequeueOvercommit e → (blockIndex e' = [] → blockIndex e = []) →
  tailBlock e' = tailBlock e → pr_blockIndexSlotsUsed e' = pr_blockIndexSlotsUsed e →
  producer_at clean e' (<[p := put_element (H + zlen xs) (Some y) b]> h) idle (used ++ [p]) extra H
    (xs ++ [y]).
Proof.
  intros Hpa Hal Hb Hem Et Eh Ec Eo Eb Etb Esl. pose proof (used_end _ _ _ _ _ _ _ _ Hpa Hal) as Hend.
  destruct Hpa as [Ht Hh Hc Hpos Htb Hring Hnd Hi Hu He Hlen Hs Hcl Hix Hlim].
  assert (Hshape : idle.*1 ++ (used ++ [p]) ++ extra = idle.*1 ++ used ++ p :: extra)
    by by rewrite <- app_assoc.
  pose proof Hnd as (_ & Hpi & Hnd')%NoDup_app. apply NoDup_app in Hnd' as (_ & Hpu & Hpe).
  apply NoDup_cons in Hpe as [Hpe _].
  assert (p ∉ idle.*1) by (intros Hp; apply (Hpi _ Hp); set_solver).
  assert (p ∉ used) by (intros Hp; apply (Hpu _ Hp); set_solver).
  destruct (He p) as (b0 & d0 & Hb0 & (Hl & Hf & Hv) & _ & _); [by left|].
  assert (b0 = b) as -> by congruence.
  pose proof (zlen_nonneg xs). pose proof block_size_pos.
  constructor; rewrite ?Hshape; try done; try congruence.
  - rewrite zlen_app. by rewrite Z.add_assoc.
  - eapply links_update; [done..|done].
  - eapply idle_relinked; [by apply relinked_insert; [apply relinked_refl|]|done].
  - intros j p' [Hj|[Hge Hj]]%lookup_app_Some.
    + pose proof (list_elem_of_lookup_2 _ _ _ Hj) as Hp'. pose proof (lookup_lt_Some _ _ _ Hj).
      destruct (Hu j p' Hj) as (b' & Hb' & Hat). exists b'.
      rewrite lookup_insert_ne by (intros ->; done). split; [done|].
      apply block_at_snoc; [done|]. unfold zlen in *. nia.
    + assert (Hj0 : (j - length used = 0)%nat).
      { destruct (j - length used)%nat; [done|]. by rewrite lookup_cons in Hj. }
      rewrite Hj0 in Hj. injection Hj as <-. rewrite lookup_insert_eq. eexists. split; [done|].
      replace (H / BLOCK_SIZE + Z.of_nat j) with (H / BLOCK_SIZE + zlen used) by (unfold zlen; lia).
      unfold put_element. rewrite offset_of_mod, Hal.
      replace 0 with (H + zlen xs - (H / BLOCK_SIZE + zlen used) * BLOCK_SIZE) at 1 by lia.
      apply block_at_place; [|lia..]. apply block_at_fresh; [done..|lia|lia].
  - apply (extra_relinked h); [by apply relinked_insert; [apply relinked_refl|]|].
    intros p0 Hp0. apply He. by right.
  - rewrite !zlen_app. replace (zlen [p]) with 1 by done. replace (zlen [y]) with 1 by done.
    rewrite in_use_succ, Hal by done. simpl. lia.
  - rewrite Esl, !zlen_app in *. unfold zlen in *. csimpl in *. lia.
  - intros Hn. by apply Hix, Eb.
  - assert (Hz : zlen (used ++ [p]) + zlen extra = zlen used + zlen (p :: extra))
      by (unfold zlen; rewrite length_app; csimpl; lia).
    by rewrite <- Z.add_assoc, Hz, Z.add_assoc.
Qed.

(** ... to a block that has some. *)
Lemma producer_at_more clean e e' h p idle used extra H xs b y :
  producer_at clean e h idle (used ++ [p]) extra H xs → (H + zlen xs) mod BLOCK_SIZE ≠ 0 →
  h !! p = Some b →
  tailIndex e' = u64 (H + zlen xs + 1) → headIndex e' = headIndex e →
  dequeueOptimisticCount e' = dequeueOptimisticCount e →
  dequeueOvercommit e' = dequeueOvercommit e → blockIndex e' = blockIndex e →
  tailBlock e' = tailBlock e → pr_blockIndexSlotsUsed e' = pr_blockIndexSlotsUsed e →
  producer_at clean e' (<[p := put_element (H + zlen xs) (Some y) b]> h) idle (used ++ [p]) extra H
    (xs ++ [y]).
Proof.
  intros [Ht Hh Hc Hpos Htb Hring Hnd Hi Hu He Hlen Hs Hcl Hix Hlim] Hal Hb Et Eh Ec Eo Eb Etb Esl.
  pose proof Hnd as (_ & Hpi & Hnd')%NoDup_app. apply NoDup_app in Hnd' as (Hpu & Hpe & _).
  assert (p ∉ idle.*1) by (intros Hp; apply (Hpi _ Hp); set_solver).
  assert (p ∉ extra) by (apply Hpe; set_solver).
  apply NoDup_app in Hpu as (_ & Hpu & _).
  assert (p ∉ used) by (intros Hp; apply (Hpu _ Hp); set_solver).
  pose proof (zlen_nonneg xs). pose proof block_size_pos as Hbs.
  pose proof (in_use_div H (zlen xs) (zlen_nonneg xs)) as Hd. rewrite <- Hlen in Hd.
  pose proof (Z.div_mod (H + zlen xs) BLOCK_SIZE block_size_ne) as Hdm.
  pose proof (Z.mod_pos_bound (H + zlen xs) BLOCK_SIZE Hbs).
  assert (Hn : H / BLOCK_SIZE + zlen used = (H + zlen xs) / BLOCK_SIZE).
  { rewrite zlen_app in Hd. replace (zlen [p]) with 1 in Hd by done. nia. }
  constructor; try done; try congruence.
  - rewrite zlen_app. by rewrite Z.add_assoc.
  - eapply links_update; [done..|done].
  - eapply idle_relinked; [by apply relinked_insert; [apply relinked_refl|]|done].
  - intros j p' Hj. pose proof (Hu j p' Hj) as (b' & Hb' & Hat).
    apply lookup_app_Some in Hj as [Hj|[Hge Hj]].
    + pose proof (list_elem_of_lookup_2 _ _ _ Hj) as Hp'. pose proof (lookup_lt_Some _ _ _ Hj).
      exists b'. rewrite lookup_insert_ne by (intros ->; done). split; [done|].
      apply block_at_snoc; [done|]. unfold zlen in *. nia.
    + assert (Hj0 : (j - length used = 0)%nat).
      { destruct (j - length used)%nat; [done|]. by rewrite lookup_cons in Hj. }
      rewrite Hj0 in Hj. injection Hj as <-. rewrite lookup_insert_eq. eexists. split; [done|].
      assert (b' = b) as -> by congruence.
      replace (H / BLOCK_SIZE + Z.of_nat j) with ((H + zlen xs) / BLOCK_SIZE) in *
        by (unfold zlen in *; lia).
      unfold put_element. rewrite offset_of_mod.
      replace ((H + zlen xs) mod BLOCK_SIZE)
        with (H + zlen xs - (H + zlen xs) / BLOCK_SIZE * BLOCK_SIZE) by lia.
      apply block_at_place; [done|lia..].
  - by apply (extra_relinked h); [apply relinked_insert; [apply relinked_refl|]|].
  - rewrite Hlen, zlen_app. replace (zlen [y]) with 1 by done. rewrite in_use_succ by done.
    rewrite (proj2 (Z.eqb_neq _ _)) by done. lia.
  - by rewrite Eb.
Qed.

(** ** The first element is gone *)

(** What has become of the ring: a block with no elements left is idle. *)
Definition after_dequeue H idle used : list (nat * bool) * list nat :=
  if (H + 1) mod BLOCK_SIZE =? 0 then
    match used with p :: used => (idle ++ [(p, true)], used) | [] => (idle, []) end
  else (idle, used).

Lemma after_dequeue_ring H idle used :
  (after_dequeue H idle used).1.*1 ++ (after_dequeue H idle used).2 = idle.*1 ++ used.
Proof.
  unfold after_dequeue. destruct (_ =? 0); [|done]. destruct used as [|p used]; [done|].
  csimpl. by rewrite fmap_app, <- app_assoc.
Qed.

Lemma succ_div H : (H + 1) / BLOCK_SIZE =
  H / BLOCK_SIZE + (if (H + 1) mod BLOCK_SIZE =? 0 then 1 else 0).
Proof.
  pose proof block_size_pos as Hb. pose proof (head_div H).
  pose proof (Z.div_mod (H + 1) BLOCK_SIZE block_size_ne).
  pose proof (Z.mod_pos_bound (H + 1) BLOCK_SIZE Hb).
  set (c := H / BLOCK_SIZE) in *. set (d := (H + 1) / BLOCK_SIZE) in *.
  destruct (Z.eqb_spec ((H + 1) mod BLOCK_SIZE) 0).
  - assert (d ≤ c + 1) by nia. assert (c < d) by nia. lia.
  - assert (d ≤ c) by nia. assert (c - 1 < d) by nia. lia.
Qed.

Lemma in_use_later H n : 0 ≤ n → blocks_in_use (H + 1) n =
  blocks_in_use H (n + 1) - (if (H + 1) mod BLOCK_SIZE =? 0 then 1 else 0).
Proof.
  intros Hn. unfold blocks_in_use. rewrite succ_div.
  replace (H + 1 + n + BLOCK_SIZE - 1) with (H + (n + 1) + BLOCK_SIZE - 1) by lia. lia.
Qed.

(** The first element is in the first of the blocks in use. *)
Lemma first_block clean e h idle used extra H x xs :
  producer_at clean e h idle used extra H (x :: xs) →
  ∃ p used' b, used = p :: used' ∧ h !! p = Some b ∧ block_at b (H / BLOCK_SIZE) H (x :: xs).
Proof.
  intros Hpa. pose proof (pa_length _ _ _ _ _ _ _ _ Hpa) as Hlen.
  pose proof (in_use_bound H (zlen (x :: xs)) (zlen_nonneg _)) as Hb. rewrite <- Hlen in Hb.
  destruct used as [|p used]; [unfold zlen in *; simpl in *; lia|].
  destruct (pa_used _ _ _ _ _ _ _ _ Hpa 0%nat p eq_refl) as (b & Hp & Hat). rewrite Z.add_0_r in Hat.
  by exists p, used, b.
Qed.

Lemma producer_at_dequeue clean e e' h p idle used extra H x xs b b' :
  producer_at clean e h idle (p :: used) extra H (x :: xs) → h !! p = Some b →
  elements b' = <[Z.to_nat (H - H / BLOCK_SIZE * BLOCK_SIZE) := None]> (elements b) →
  emptied b' (H - H / BLOCK_SIZE * BLOCK_SIZE + 1) → next b' = next b →
  tailIndex e' = tailIndex e → headIndex e' = u64 (H + 1) →
  dequeueOptimisticCount e' = u64 (H + 1) → dequeueOvercommit e' = 0 →
  blockIndex e' = blockIndex e → tailBlock e' = tailBlock e →
  pr_blockIndexSlotsUsed e' = pr_blockIndexSlotsUsed e →
  producer_at clean e' (<[p := b']> h) (after_dequeue H idle (p :: used)).1
    (after_dequeue H idle (p :: used)).2 extra (H + 1) xs.
Proof.
  intros [Ht Hh Hc Hpos Htb Hring Hnd Hi Hu He Hlen Hs Hcl Hix Hlim] Hb Hel Hem Hnx Et Eh Ec Eo Eb
    Etb Esl.
  assert (Hshape : (after_dequeue H idle (p :: used)).1.*1 ++ (after_dequeue H idle (p :: used)).2
    ++ extra = idle.*1 ++ (p :: used) ++ extra).
  { by rewrite app_assoc, after_dequeue_ring, <- app_assoc. }
  destruct (Hu 0%nat p eq_refl) as (b0 & Hb0 & Hat). assert (b0 = b) as -> by congruence.
  rewrite Z.add_0_r in Hat. pose proof (head_div H) as Hhd.
  pose proof (block_at_dequeued b b' _ H x xs Hat Hhd Hel Hem) as Hat'.
  pose proof Hnd as (_ & Hpi & Hnd')%NoDup_app. apply NoDup_app in Hnd' as (Hpu & Hpe & _).
  apply NoDup_cons in Hpu as [Hpu _].
  assert (p ∉ idle.*1) by (intros Hp; apply (Hpi _ Hp); set_solver).
  assert (p ∉ extra) by (apply Hpe; set_solver).
  assert (Hidle : ∀ p0 f, (p0, f) ∈ idle → ∃ b0 d, <[p := b']> h !! p0 = Some b0 ∧ unused b0 ∧
    0 ≤ d ≤ BLOCK_SIZE ∧ emptied b0 d ∧ (f = true ↔ d = BLOCK_SIZE)).
  { eapply idle_relinked; [by apply relinked_insert; [apply relinked_refl|]|done]. }
  assert (Hused : ∀ j p0 : nat, used !! j = Some p0 → ∃ b0, <[p := b']> h !! p0 = Some b0 ∧
    block_at b0 (H / BLOCK_SIZE + 1 + Z.of_nat j) (H + 1) xs).
  { intros j p0 Hj. destruct (Hu (S j) p0 Hj) as (b0 & Hb0' & Hat0). exists b0.
    rewrite lookup_insert_ne by (intros ->; by apply Hpu, (list_elem_of_lookup_2 _ j)).
    split; [done|]. replace (H / BLOCK_SIZE + 1 + Z.of_nat j)
      with (H / BLOCK_SIZE + Z.of_nat (S j)) by lia. eapply block_at_later; [done|].
    pose proof block_size_pos. nia. }
  pose proof (zlen_nonneg xs). pose proof block_size_pos.
  assert (Hz : zlen (x :: xs) = zlen xs + 1) by (unfold zlen; simpl; lia).
  assert (Hzp : zlen (p :: used) = zlen used + 1) by (unfold zlen; simpl; lia).
  constructor; rewrite ?Hshape; try done; try congruence.
  - rewrite Et, Ht, Hz. f_equal. lia.
  - lia.
  - eapply links_update; [done..|done].
  - intros p0 f. unfold after_dequeue. destruct (Z.eqb_spec ((H + 1) mod BLOCK_SIZE) 0) as [Hm|]; [|apply Hidle].
    simpl. intros [|[= -> ->]%list_elem_of_singleton]%elem_of_app; [by apply Hidle|].
    pose proof (Z.div_mod (H + 1) BLOCK_SIZE block_size_ne) as Hdm. rewrite succ_div, Hm in Hdm. simpl in Hdm.
    destruct (block_at_unused b' _ _ _ Hat') as [Hun He']; [lia|eapply emptied_flags_ok, Hem; lia|].
    exists b', BLOCK_SIZE. rewrite lookup_insert_eq. split_and!; [done|done|lia|lia|done|done].
  - rewrite succ_div. unfold after_dequeue. destruct (_ =? 0); simpl; [exact Hused|].
    rewrite Z.add_0_r. intros [|j] p0 Hj; simpl in Hj.
    + injection Hj as <-. exists b'. by rewrite lookup_insert_eq, Z.add_0_r.
    + destruct (Hused j p0 Hj) as (b0 & Hb0' & Hat0). exists b0. split; [done|].
      by replace (H / BLOCK_SIZE + Z.of_nat (S j)) with (H / BLOCK_SIZE + 1 + Z.of_nat j) by lia.
  - apply (extra_relinked h); [|done]. by apply relinked_insert; [apply relinked_refl|].
  - rewrite in_use_later, <- Hz, <- Hlen by done. unfold after_dequeue.
    destruct (_ =? 0); simpl; lia.
  - rewrite Esl. split; [|by apply Hs]. unfold after_dequeue.
    destruct (_ =? 0); simpl; [rewrite empties_snoc|]; lia.
  - intros Hc'. specialize (Hcl Hc'). unfold after_dequeue. destruct (_ =? 0); simpl; [|done].
    apply Forall_app. split; [done|]. by apply Forall_singleton.
  - by rewrite Eb.
  - unfold after_dequeue. destruct (_ =? 0); simpl; [|done]. rewrite empties_snoc.
    destruct Hlim as [Hl1 Hl2]. split; [eapply within_limit_mono; [done|lia]|].
    destruct Hl2 as [Hl2|(p0 & l & ->)]; [left; eapply within_limit_mono; [done|lia]|right].
    by exists p0, (l ++ [(p, true)]).
Qed.
End steps.
