(* ===== verification/CqExplicitOps.v ===== *)
(** * Explicit producers: the members keep the invariant *)
From stdpp Require Import gmap.
From S2P Require Import Prelude Lifetime FreeList CqBlock CqPool CqFacts CqPoolFacts CqExplicit CqRing.
From S2P Require Import CqExplicitInv.

#[local] Open Scope Z_scope.

Section operations.
Context {TR : Traits} {OK : TraitsOk} {X T U : Type} `{!CppType X T} `{!CppLaws X T}.
#[local] Abbreviation Q := (ExplicitProducer * (Memory T * BlockPool))%type.
#[local] Abbreviation unused := (unused (X := X) (T := T)).
#[local] Abbreviation producer_at := (producer_at (X := X) (T := T)).
#[local] Abbreviation memory_at := (memory_at (X := X) (T := T)).
#[local] Abbreviation explicit_at := (explicit_at (X := X) (T := T)).
#[local] Abbreviation never := (never (A := X)).
Implicit Types (e : ExplicitProducer) (h : gmap nat (Block T)) (m : Memory T) (q : BlockPool).
Implicit Types (idle : list (nat * bool)) (used extra : list nat) (xs : list T).
Implicit Types (owned hdrs : gset nat) (H : Z) (b : Block T).

(** ** The size limit *)
Definition limit_reached (n : Z) : Prop :=
  2 ^ 63 ≤ n + BLOCK_SIZE ∨
  MAX_SUBQUEUE_SIZE ≠ const_numeric_max ∧ MAX_SUBQUEUE_SIZE < n + BLOCK_SIZE.

Lemma is_full_spec H n : 0 ≤ n < 2 ^ 63 →
  if is_full (u64 H) (u64 (H + n)) then limit_reached n
  else n + BLOCK_SIZE < 2 ^ 63 ∧
    (MAX_SUBQUEUE_SIZE = const_numeric_max ∨ n + BLOCK_SIZE ≤ MAX_SUBQUEUE_SIZE).
Proof.
  intros Hn. pose proof block_size_pow2 as [_ Hb]. unfold is_full, limit_reached. rewrite u64_add.
  rewrite u64_sub_l, u64_sub_r. replace (H + n - H) with n by lia. rewrite (u64_small n) by lia.
  destruct (Z.ltb_spec (n + BLOCK_SIZE) (2 ^ 63)) as [Hlt|Hge].
  - rewrite circular_less_than_spec by lia. rewrite (proj2 (Z.ltb_lt _ _)) by lia. simpl.
    destruct (Z.eqb_spec MAX_SUBQUEUE_SIZE const_numeric_max) as [|Hne]; simpl; [auto|].
    destruct max_subqueue_size as [|(k & Hk & Heq & Hlt')]; [done|].
    destruct (Z.eqb_spec MAX_SUBQUEUE_SIZE 0) as [Hz|Hz]; simpl; [right; split; [done|lia]|].
    assert (1 ≤ k) by nia. assert (BLOCK_SIZE ≤ k * BLOCK_SIZE) by nia.
    rewrite u64_small by lia. destruct (Z.ltb_spec (MAX_SUBQUEUE_SIZE - BLOCK_SIZE) n).
    + right. split; [done|lia].
    + split; [done|right; lia].
  - rewrite circular_less_than_far by lia. simpl. by left.
Qed.

(** There may be another block, if the elements fit the blocks in use exactly. *)
Lemma within_limit_succ clean e h idle used extra H xs :
  producer_at clean e h idle used extra H xs → (H + zlen xs) mod BLOCK_SIZE = 0 →
  (MAX_SUBQUEUE_SIZE = const_numeric_max ∨ zlen xs + BLOCK_SIZE ≤ MAX_SUBQUEUE_SIZE) →
  within_limit (zlen used + 1).
Proof.
  intros Hpa Hal Hle. rewrite (pa_length _ _ _ _ _ _ _ _ Hpa). apply within_limit_next; [apply zlen_nonneg|done..].
Qed.

(** ** Blocks *)
Lemma frame_refl owned m : frame owned m m.
Proof. done. Qed.

Lemma frame_trans owned m1 m2 m3 : frame owned m1 m2 → frame owned m2 m3 → frame owned m1 m3.
Proof. intros [H1 H2] [H3 H4]. split; [intros p Hp; by rewrite H3, H1|congruence]. Qed.

Lemma frame_sub owned owned' m m' : owned' ⊆ owned → frame owned m m' → frame owned' m m'.
Proof. intros Hs [Hb Hl]. split; [|done]. intros p Hp. by apply Hb, Hs. Qed.

Lemma frame_update owned m p b : p ∉ owned → frame owned m (set_blocks (<[p := b]> (blocks m)) m).
Proof. intros Hp. split; [|done]. intros p' Hp'. apply lookup_insert_ne. by intros ->. Qed.

Lemma frame_blocks owned m m' : blocks m' = blocks m → lost m' = lost m → frame owned m m'.
Proof. intros Hb Hl. split; [by rewrite Hb|done]. Qed.

Section on_block.
Context (m : Memory T) (p : nat) (b : Block T) (Hb : blocks m !! p = Some b).

Lemma set_blocks_same : set_blocks (<[p := b]> (blocks m)) m = m.
Proof. rewrite insert_id by done. by destruct m. Qed.

Lemma runs_block_is_empty {c} d (Qr : bool → Memory T → Prop) (Qt : X → Memory T → Prop) F :
  0 ≤ d ≤ BLOCK_SIZE → emptied_in c b d → Qr (d =? BLOCK_SIZE) m →
  runs (block_is_empty c p) m Qr Qt F.
Proof.
  intros Hd He HQ. eapply runs_on_block; [done|by rewrite (is_empty_run _ b d)|].
  by rewrite set_blocks_same.
Qed.

Lemma runs_block_reset {c} (Qr : () → Memory T → Prop) (Qt : X → Memory T → Prop) F :
  flags_ok b →
  (∀ b', emptied_in c b' 0 → recounted b b' → Qr tt (set_blocks (<[p := b']> (blocks m)) m)) →
  runs (block_reset_empty c p) m Qr Qt F.
Proof.
  intros Hf HQ. destruct (reset_empty_run c b Hf) as (b' & Hr & He & Hrec).
  eapply runs_on_block; [done|by rewrite Hr|]. by apply HQ.
Qed.

Lemma cq_runs_modify_block (f : Block T → Block T) (Qr : () → Memory T → Prop)
    (Qt : X → Memory T → Prop) F :
  Qr tt (set_blocks (<[p := f b]> (blocks m)) m) → runs (modify_block p f) m Qr Qt F.
Proof. intros HQ. by eapply runs_on_block. Qed.
End on_block.

(** ** Starting a block *)
Lemma tail_is_last clean e h idle used extra H xs p l :
  producer_at clean e h idle used extra H xs → idle.*1 ++ used ++ extra = l ++ [p] →
  tailBlock e = p.
Proof. intros Hpa Hl. rewrite (pa_tailBlock _ _ _ _ _ _ _ _ Hpa), Hl. apply last_snoc'. Qed.

Lemma next_block clean e h idle used H xs b :
  producer_at clean e h idle used [] H xs → idle.*1 ++ used ≠ [] → h !! tailBlock e = Some b →
  next b = hd 0%nat (idle.*1 ++ used).
Proof.
  intros Hpa Hne Hb. pose proof (pa_ring _ _ _ _ _ _ _ _ Hpa) as Hr.
  destruct (idle.*1 ++ used) as [|p l _] eqn:E using rev_ind; [done|].
  rewrite app_nil_r in Hr. rewrite E in Hr.
  rewrite (tail_is_last _ _ _ _ _ _ _ _ p l Hpa) in Hb by (by rewrite app_nil_r).
  rewrite (ring_next _ _ _ _ Hr Hb). by destruct l.
Qed.

Definition can_reuse idle : bool := match idle with (_, f) :: _ => f | [] => false end.

Lemma next_is_empty_runs clean e m q owned hdrs idle used H xs (Qr : bool → Q → Prop) Qt F :
  explicit_at clean e m q owned hdrs idle used H xs →
  Qr (can_reuse idle) (e, (m, q)) → runs (next_is_empty (X := X)) (e, (m, q)) Qr Qt F.
Proof.
  intros (Hpa & _ & _ & Hma) HQ. unfold next_is_empty. apply runs_bind, runs_get.
  assert (Hring : idle.*1 ++ used = [] ∨ tailBlock e ∈ idle.*1 ++ used).
  { rewrite (pa_tailBlock _ _ _ _ _ _ _ _ Hpa), app_nil_r.
    destruct (idle.*1 ++ used) as [|p l] eqn:E; [by left|right].
    apply (ring_nonempty_last _ p). by left. }
  destruct Hring as [Hnil|Hin].
  - pose proof (pa_tailBlock _ _ _ _ _ _ _ _ Hpa) as Ht. rewrite app_nil_r, Hnil in Ht.
    rewrite Ht. simpl. apply runs_ret. apply app_eq_nil in Hnil as [Hnil _].
    by destruct idle as [|[] ?].
  - destruct (memory_at_lookup _ _ _ _ _ _ _ Hma Hin) as [[b Hb] Hne].
    rewrite bool_decide_eq_false_2 by done.
    apply runs_bind, runs_on_memory. eapply runs_load_block; [done|]. apply runs_on_memory.
    rewrite (next_block _ _ _ _ _ _ _ _ Hpa) by (done || (intros E; rewrite E in Hin; set_solver)).
    destruct idle as [|[p f] idle].
    + simpl in *. destruct used as [|p used]; [set_solver|].
      destruct (pa_used _ _ _ _ _ _ _ _ Hpa 0%nat p eq_refl) as (b' & Hb' & [_ _ He]).
      rewrite Z.add_0_r in He. pose proof (head_div H). simpl.
      eapply runs_block_is_empty; [done| |done|]; [lia|].
      rewrite (proj2 (Z.eqb_neq _ _)) by lia. done.
    + destruct (pa_idle _ _ _ _ _ _ _ _ Hpa p f) as (b' & d & Hb' & _ & Hd & He & Hf); [by left|].
      simpl. eapply runs_block_is_empty; [done..|].
      destruct (Z.eqb_spec d BLOCK_SIZE) as [Heq|Hneq].
      * apply Hf in Heq as ->. done.
      * destruct f; [by rewrite (proj1 Hf eq_refl) in Hneq|done].
Qed.

(** ** Bounds *)
Lemma ring_bound clean e m q owned hdrs idle used H xs :
  explicit_at clean e m q owned hdrs idle used H xs →
  sizeof_Block * zlen (idle.*1 ++ used) ≤ 2 ^ 63.
Proof.
  intros (Hpa & _ & _ & [_ [Hby _] _ _ _]). pose proof (pa_ring _ _ _ _ _ _ _ _ Hpa) as Hr.
  pose proof (pa_nodup _ _ _ _ _ _ _ _ Hpa) as Hnd. rewrite app_nil_r in Hr, Hnd.
  pose proof (links_size _ _ _ Hr Hnd). pose proof block_size_pos. pose proof ok_block as [? _].
  unfold zlen. nia.
Qed.

Lemma elements_bound clean e m q owned hdrs idle used H xs :
  explicit_at clean e m q owned hdrs idle used H xs → 0 ≤ zlen xs < 2 ^ 63.
Proof.
  intros Hat. pose proof (ring_bound _ _ _ _ _ _ _ _ _ _ Hat) as Hb. destruct Hat as (Hpa & _).
  pose proof (zlen_nonneg xs). pose proof (in_use_bound H (zlen xs) (zlen_nonneg xs)) as Hu.
  rewrite <- (pa_length _ _ _ _ _ _ _ _ Hpa) in Hu. rewrite zlen_app in Hb.
  pose proof (zlen_nonneg (idle.*1)). pose proof (zlen_nonneg used).
  pose proof block_size_pos. pose proof ok_block as [? _]. split; [done|].
  destruct (decide (zlen used = 0)); nia.
Qed.

(** An index that is full can be doubled. *)
Lemma growth_bound clean e m q owned hdrs idle used H xs :
  explicit_at clean e m q owned hdrs idle used H xs →
  blockIndex e = [] ∨ pr_blockIndexSlotsUsed e = pr_blockIndexSize e →
  2 * pr_blockIndexSize e * BLOCK_SIZE ≤ 2 ^ 64 ∧
  2 * pr_blockIndexSize e * sizeof_BlockIndexEntry ≤ 2 ^ 63.
Proof.
  intros Hat Hfull. pose proof (ring_bound _ _ _ _ _ _ _ _ _ _ Hat) as Hb.
  destruct Hat as (Hpa & Hix & _). unfold index_at in Hix.
  destruct (blockIndex e); [naive_solver|]. destruct Hfull as [|Hfull]; [done|].
  pose proof (pa_slots _ _ _ _ _ _ _ _ Hpa) as [_ Hs]. rewrite app_nil_r in Hs.
  pose proof (hd_front _ _ _ _ _ Hix). pose proof block_size_pos. pose proof ok_block as [? ?].
  pose proof ok_entry. split; nia.
Qed.

(** ** Insertion *)
Lemma insert_block_runs e m q l raws owned hdrs p b (Qr : () → Q → Prop) Qt F :
  memory_at m q (l ++ [p]) raws owned hdrs → ring (blocks m) l → NoDup (l ++ [p]) →
  tailBlock e = List.last l 0%nat → blocks m !! p = Some b →
  (∀ h n, ring h (l ++ [p]) → relinked (blocks m) h l → h !! p = Some (set_next n b) →
     memory_at (set_blocks h m) q (l ++ [p]) raws owned hdrs → frame owned m (set_blocks h m) →
     Qr tt (set_tailBlock p e, (set_blocks h m, q))) →
  runs (insert_block (X := X) p) (e, (m, q)) Qr Qt F.
Proof.
  intros Hma Hring Hnd Ht Hb HQ. unfold insert_block. apply runs_bind, runs_get, runs_bind.
  assert (Hp : p ∉ owned) by (apply (ma_ring _ _ _ _ _ _ Hma); set_solver).
  rewrite Ht. destruct l as [|t l _] using rev_ind.
  - simpl. apply runs_on_memory, cq_runs_modify_block with b; [done|]. apply runs_put.
    eapply HQ; [by apply ring_alone|by intros ? ? ?%elem_of_nil|by rewrite lookup_insert_eq| |].
    + by eapply memory_at_update; [done|set_solver|..].
    + by apply frame_update.
  - rewrite last_snoc'.
    assert (Hin : t ∈ (l ++ [t]) ++ [p]) by set_solver.
    destruct (memory_at_lookup _ _ _ _ _ _ _ Hma Hin) as [[c Hc] Hne].
    rewrite bool_decide_eq_false_2 by done.
    apply NoDup_app in Hnd as (Hnd & Hpl & _). apply NoDup_app in Hnd as (_ & Htl & _).
    assert (Hpn : p ∉ l ++ [t]) by (intros Hx; by apply (Hpl p Hx), list_elem_of_singleton).
    assert (p ≠ t) by set_solver. assert (t ∉ l) by (intros Hx; apply (Htl t Hx); set_solver).
    pose proof (ring_insert _ _ _ _ _ _ Hring Hc Hb Hpn) as Hr'. rewrite app_assoc in Hr'.
    apply runs_bind, runs_on_memory. eapply runs_load_block; [done|].
    apply runs_bind, runs_on_memory, cq_runs_modify_block with b; [done|].
    apply runs_on_memory, cq_runs_modify_block with c; [simpl; by rewrite lookup_insert_ne|].
    apply runs_put. assert (Ht' : t ∉ owned) by by apply (ma_ring _ _ _ _ _ _ Hma).
    eapply (HQ (<[t := set_next p c]> (<[p := set_next (next c) b]> (blocks m)))); [by apply Hr'|..].
    + intros p' b' Hp' Hb'. destruct (decide (p' = t)) as [->|].
      * rewrite lookup_insert_eq. exists p. congruence.
      * rewrite !lookup_insert_ne by set_solver. exists (next b'). rewrite Hb'. by destruct b'.
    + by rewrite lookup_insert_ne, lookup_insert_eq.
    + set (m1 := set_blocks (<[p := set_next (next c) b]> (blocks m)) m).
      assert (Hma' : memory_at m1 q ((l ++ [t]) ++ [p]) raws owned hdrs)
        by (eapply memory_at_update; [done|set_solver|done..]).
      assert (Hc' : blocks m1 !! t = Some c) by (simpl; by rewrite lookup_insert_ne).
      exact (memory_at_update _ _ _ _ _ _ _ _ (set_next p c) Hma' Hin Hc' eq_refl eq_refl).
    + split; [|done]. intros p' Hp'. simpl. by rewrite !lookup_insert_ne by (by intros ->).
Qed.

(** ** [start_block] *)
Definition refused (canAlloc : bool) (n : Z) : Prop :=
  canAlloc = false ∨ out_of_memory ∨ limit_reached n.

(** A block [p] is ready; [slots] slots of the index are in use without it, and
    [tail] was the tail block. *)
Record started (clean : bool) e m q owned hdrs idle used H xs p (slots : Z) (tail : nat) : Prop := {
  sb_producer : producer_at clean e (blocks m) idle used [p] H xs;
  sb_index : ∃ i l, blockIndex e = i :: l ∧
    header_at clean (set_slotsUsed slots e) i (H / BLOCK_SIZE) used ∧ exposed e i used;
  sb_slots : slots ≤ pr_blockIndexSlotsUsed e ≤ slots + 1 ∧
    zlen used + 1 ≤ pr_blockIndexSlotsUsed e ≤ pr_blockIndexSize e ∧
    empties idle + zlen used ≤ slots;
  sb_memory : memory_at m q (idle.*1 ++ used ++ [p]) (raws_of e) owned hdrs;
  sb_block : ∃ b, blocks m !! p = Some b ∧ emptied b 0;
  sb_tail : tail = 0%nat ∧ idle = [] ∧ used = [] ∨
    tail ≠ 0%nat ∧ tail = List.last (p :: idle.*1 ++ used) 0%nat
}.

Lemma set_slotsUsed_same e : set_slotsUsed (pr_blockIndexSlotsUsed e) e = e.
Proof. by destruct e. Qed.

Lemma producer_at_index clean e e' h idle used extra H xs :
  producer_at clean e h idle used extra H xs → producer_base e' = producer_base e →
  pr_blockIndexSlotsUsed e' = pr_blockIndexSlotsUsed e → blockIndex e' ≠ [] →
  producer_at clean e' h idle used extra H xs.
Proof.
  intros [] Hb Hs Hi. constructor; rewrite ?Hb, ?Hs; try done.
Qed.

Lemma index_at_some clean e i l n used :
  blockIndex e = i :: l → index_at clean e n used → header_at clean e i n used.
Proof. unfold index_at. by intros ->. Qed.

(** The block ahead is empty. *)
Lemma start_reused clean e m q owned hdrs p idle used H xs (Qr : bool → Q → Prop) Qt F :
  explicit_at clean e m q owned hdrs ((p, true) :: idle) used H xs →
  (∀ e' m', frame owned m m' → tailIndex e' = tailIndex e →
     started clean e' m' q owned hdrs idle used H xs p (pr_blockIndexSlotsUsed e) (tailBlock e) →
     Qr true (e', (m', q))) →
  runs (block ← advance_block (X := X); on_memory (block_reset_empty explicit_context block) ;; mret true)
    (e, (m, q)) Qr Qt F.
Proof.
  intros (Hpa & Hix & Hex & Hma) HQ. pose proof (pa_tailBlock _ _ _ _ _ _ _ _ Hpa) as Ht.
  rewrite app_nil_r in Ht.
  assert (Hin : tailBlock e ∈ ((p, true) :: idle).*1 ++ used)
    by (rewrite Ht; apply (ring_nonempty_last _ p); by left).
  destruct (memory_at_lookup _ _ _ _ _ _ _ Hma Hin) as [[c Hc] Hne].
  apply runs_bind. unfold advance_block. apply runs_bind, runs_get, runs_bind, runs_on_memory.
  eapply runs_load_block; [done|].
  rewrite (next_block _ _ _ _ _ _ _ _ Hpa ltac:(done) Hc). apply runs_bind, runs_put, runs_ret.
  simpl. destruct (pa_idle _ _ _ _ _ _ _ _ Hpa p true) as (b & d & Hb & (Hl & Hf & Hv) & _); [by left|].
  apply runs_bind, runs_on_memory. apply runs_block_reset with b; [done..|].
  intros b' He Hrec. destruct (recounted_elements _ _ Hrec) as (Hel & Hn & Hrefs & Hd). apply runs_ret.
  pose proof block_size_pos. apply HQ; [|done|].
  - apply frame_update. apply (ma_ring _ _ _ _ _ _ Hma). csimpl. by left.
  - destruct (blockIndex e) as [|i l] eqn:Ei; [by pose proof (pa_index _ _ _ _ _ _ _ _ Hpa Ei)|].
    pose proof (index_at_some _ _ _ l _ _ Ei Hix) as Hhd.
    pose proof (pa_slots _ _ _ _ _ _ _ _ Hpa) as [Hs _]. rewrite empties_cons in Hs.
    replace (zlen ([] : list nat)) with 0 in Hs by done.
    constructor; simpl.
    + eapply (producer_at_reuse _ _ _ _ _ _ [] _ _ b b' 0); [done..| |lia|done].
      split_and!; [congruence|by eapply emptied_flags_ok; [|done]; lia|by rewrite Hel].
    + exists i, l. split_and!; [done| |by apply (Hex i l)].
      destruct Hhd. by constructor.
    + pose proof (hd_slots _ _ _ _ _ Hhd). pose proof (empties_nonneg idle). lia.
    + eapply memory_at_ring; [eapply memory_at_update; [exact Hma|by left|done..]|].
      csimpl. rewrite (app_assoc _ used). by rewrite <- Permutation_cons_append.
    + exists b'. by rewrite lookup_insert_eq.
    + right. by split.
Qed.

(** The index may have to grow first. *)
Lemma explicit_at_grown clean e e' i m m' q owned hdrs fl idle used H xs :
  explicit_at clean e m q owned hdrs idle used H xs →
  blocks m' = blocks m → pool_bytes m' q →
  pool_inv (X := X) m' q (list_to_set (idle.*1 ++ used) ∪ owned)
    ({[header_raw i]} ∪ (list_to_set (raws_of e) ∪ hdrs)) fl →
  header_raw i ∉ list_to_set (raws_of e) ∪ hdrs →
  blockIndex e' = i :: blockIndex e → header_at clean e' i (H / BLOCK_SIZE) used →
  index_front i = u64 (pr_blockIndexSlotsUsed e - 1) →
  producer_base e' = producer_base e → pr_blockIndexSlotsUsed e' = pr_blockIndexSlotsUsed e →
  pr_blockIndexFront e' = pr_blockIndexSlotsUsed e →
  explicit_at clean e' m' q owned hdrs idle used H xs.
Proof.
  intros (Hpa & Hix & Hex & [_ Hby Hr Hraw Hnd]) Hb Hby' Hinv Hnew Ei Hhd Hfront Hbase Hslots Hf.
  split_and!.
  - rewrite Hb. eapply producer_at_index; [done..|]. by rewrite Ei.
  - unfold index_at. by rewrite Ei.
  - intros i' l Ei'. assert (i' = i) as -> by congruence. intros Hne. rewrite Hfront, Hf.
    pose proof (hd_slots _ _ _ _ _ Hhd) as Hs. rewrite Hslots in Hs.
    assert (1 ≤ zlen used) by (unfold zlen; destruct used; [done|simpl; lia]).
    pose proof (pow2_bounds _ (proj1 (hd_pow _ _ _ _ _ Hhd))).
    rewrite u64_small, Z.mod_small by lia. done.
  - assert (Hraws : raws_of e' = header_raw i :: raws_of e) by (unfold raws_of; by rewrite Ei).
    rewrite Hraws. constructor; [|done|done|..].
    + exists fl. by rewrite list_to_set_cons, <- (assoc_L _).
    + intros p [->|Hp]%elem_of_cons; [set_solver|by apply Hraw].
    + apply NoDup_cons. split; [set_solver|done].
Qed.

Lemma index_has_room_runs canAlloc clean e m q owned hdrs idle used H xs :
  explicit_at clean e m q owned hdrs idle used H xs →
  runs (if bool_decide (blockIndex e = [])
           || (pr_blockIndexSlotsUsed e =? pr_blockIndexSize e) then
          if negb canAlloc then mret false
          else new_block_index (X := X) (pr_blockIndexSlotsUsed e)
        else mret true) (e, (m, q))
    (λ r '(e', (m', q')), q' = q ∧ blocks m' = blocks m ∧ lost m' = lost m ∧
      explicit_at clean e' m' q owned hdrs idle used H xs ∧
      producer_base e' = producer_base e ∧ pr_blockIndexSlotsUsed e' = pr_blockIndexSlotsUsed e ∧
      if (r : bool) then blockIndex e' ≠ [] ∧ pr_blockIndexSlotsUsed e < pr_blockIndexSize e'
      else refused canAlloc (zlen xs)) never no_fault.
Proof.
  intros Hat. pose proof (growth_bound _ _ _ _ _ _ _ _ _ _ Hat) as Hgrow.
  pose proof Hat as (Hpa & Hix & _ & [[fl Hinv] Hby _ _ _]).
  destruct (bool_decide (blockIndex e = []) || _) eqn:Efull.
  - apply orb_true_iff in Efull. rewrite bool_decide_eq_true, Z.eqb_eq in Efull.
    destruct (Hgrow Efull) as [Hle Hent].
    destruct canAlloc; [|apply runs_ret; by split_and!; [..|left]]. simpl.
    eapply runs_mono; [by eapply (new_block_index_runs clean)|..]; [|done..].
    intros ok [e' [m' q']] (-> & Hb & Hl & Hby' & [(-> & -> & Hmem & Hinv')|
      (-> & i & Ei & Hnew & Hinv' & Hhd & Hfr & Hbase & Hslots & Hsize & Hf)]).
    + split_and!; [done..| |done|done|right; by left].
      destruct Hat as (? & ? & ? & [_ _ ? ? ?]). split_and!; [by rewrite Hb|done..|].
      constructor; [by exists fl|done..].
    + split_and!; [done..| |done|done| |].
      * by eapply explicit_at_grown.
      * by rewrite Ei.
      * rewrite Hsize. unfold index_at in Hix.
        pose proof (hd_front _ _ _ _ _ Hhd). destruct (blockIndex e); [destruct Hix as (_ & -> & _); lia|].
        pose proof (hd_slots _ _ _ _ _ Hix). pose proof (hd_front _ _ _ _ _ Hix). lia.
  - apply orb_false_iff in Efull. rewrite bool_decide_eq_false, Z.eqb_neq in Efull.
    destruct Efull as [Hne Hsz]. apply runs_ret. split_and!; [done..|].
    unfold index_at in Hix. destruct (blockIndex e); [done|].
    pose proof (hd_slots _ _ _ _ _ Hix). lia.
Qed.

(** The pool gives out a block, if there is one, and leaves the others alone. *)
Lemma producer_at_ext clean e h h' idle used extra H xs :
  producer_at clean e h idle used extra H xs →
  (∀ p, p ∈ idle.*1 ++ used ++ extra → h' !! p = h !! p) →
  producer_at clean e h' idle used extra H xs.
Proof.
  intros [Ht Hh Hc Hpos Htb Hring Hnd Hi Hu He Hlen Hs Hcl Hix Hlim] Hsame. constructor; try done.
  - eapply links_ext; [done|]. intros p b Hp Hb. exists b. by rewrite Hsame.
  - intros p f Hp. rewrite Hsame; [by apply Hi|].
    rewrite elem_of_app. left. by eapply idle_elem.
  - intros j p Hj. rewrite Hsame; [by apply Hu|].
    rewrite !elem_of_app. right; left. by eapply list_elem_of_lookup_2.
  - intros p Hp. unfold prepared. rewrite Hsame by (rewrite !elem_of_app; by right; right).
    by apply He.
Qed.

(** Another block. *)
Lemma requisition_memory {P} canAlloc (e : P) m q ring raws owned hdrs :
  memory_at m q ring raws owned hdrs →
  runs (on_snd (requisition_block (X := X) canAlloc)) (e, (m, q))
    (λ p '(e', (m', q')), e' = e ∧ frame (list_to_set ring ∪ owned) m m' ∧
      (p = 0%nat ∧ (canAlloc = true → out_of_memory) ∧ memory_at m' q' ring raws owned hdrs ∨
       p ≠ 0%nat ∧ (p ∉ ring) ∧ memory_at m' q' (ring ++ [p]) raws owned hdrs ∧
       ∃ b, blocks m' !! p = Some b ∧ unused b)) never no_fault.
Proof.
  intros [[fl Hinv] Hby Hr Hraw Hnd]. apply runs_on_pool.
  eapply runs_mono; [by eapply (requisition_block_runs canAlloc m q _ _ fl)|..]; [|done..].
  intros p [m' q'] (Hfr & Hby' & fl' & Hcase). split_and!; [done|exact Hfr|].
  destruct Hcase as [(-> & Hc & Hinv')|(Hp & Hown & Hinv' & Hb)]; [left|right]; split_and!; try done.
  - constructor; [by exists fl'|done..].
  - set_solver.
  - constructor; [|done| |done..].
    + exists fl'. rewrite list_to_set_app_L. simpl.
      by replace (list_to_set ring ∪ ({[p]} ∪ ∅) ∪ owned)
        with ({[p]} ∪ (list_to_set ring ∪ owned)) by set_solver.
    + intros p' [Hp'| ->%list_elem_of_singleton]%elem_of_app; [by apply Hr|set_solver].
Qed.

Lemma requisition_runs canAlloc clean e m q owned hdrs idle used H xs :
  explicit_at clean e m q owned hdrs idle used H xs →
  runs (on_snd (requisition_block (X := X) canAlloc)) (e, (m, q))
    (λ p '(e', (m', q')), e' = e ∧ frame owned m m' ∧
      explicit_at clean e m' q' owned hdrs idle used H xs ∧ (p = 0%nat ∧ refused canAlloc (zlen xs)) ∨
      e' = e ∧ frame owned m m' ∧ p ≠ 0%nat ∧ producer_at clean e (blocks m') idle used [] H xs ∧
      memory_at m' q' (idle.*1 ++ used ++ [p]) (raws_of e) owned hdrs ∧ (p ∉ idle.*1 ++ used) ∧
      ∃ b, blocks m' !! p = Some b ∧ unused b) never no_fault.
Proof.
  intros (Hpa & Hix & Hex & Hma).
  eapply runs_mono; [by apply requisition_memory|..]; [|done..].
  intros p [e' [m' q']] (-> & Hfr & Hcase).
  assert (Hpa' : producer_at clean e (blocks m') idle used [] H xs).
  { eapply producer_at_ext; [done|]. intros p' Hp'. rewrite app_nil_r in Hp'. apply Hfr. set_solver. }
  assert (Hframe : frame owned m m') by (eapply frame_sub; [|done]; set_solver).
  destruct Hcase as [(-> & Hc & Hma')|(Hp & Hnew & Hma' & Hb)]; [left|right]; split_and!; try done.
  - destruct canAlloc; [right; left; exact (Hc eq_refl)|by left].
  - by rewrite app_assoc.
Qed.

Lemma can_reuse_false clean e h idle used extra H xs :
  producer_at clean e h idle used extra H xs → can_reuse idle = false → idle = [] ∨ stuck idle.
Proof.
  intros _. destruct idle as [|[p f] idle]; [by left|]. simpl. intros ->. right. by exists p, idle.
Qed.

Lemma start_new_block canAlloc clean e m q owned hdrs idle used H xs :
  explicit_at clean e m q owned hdrs idle used H xs → can_reuse idle = false →
  within_limit (zlen used + 1) → blockIndex e ≠ [] →
  pr_blockIndexSlotsUsed e < pr_blockIndexSize e →
  runs (newBlock ← on_snd (requisition_block (X := X) canAlloc);
        if bool_decide (newBlock = 0%nat) then mret false
        else
          on_memory (block_reset_empty explicit_context newBlock) ;;
          insert_block newBlock ;;
          put (fun e => set_slotsUsed (u64 (pr_blockIndexSlotsUsed e + 1)) e) ;;
          mret true) (e, (m, q))
    (λ r '(e', (m', q')), frame owned m m' ∧ tailIndex e' = tailIndex e ∧
      if (r : bool) then ∃ p, started clean e' m' q' owned hdrs idle used H xs p
                                (pr_blockIndexSlotsUsed e) (tailBlock e)
      else explicit_at clean e' m' q' owned hdrs idle used H xs ∧ refused canAlloc (zlen xs))
    never no_fault.
Proof.
  intros Hat Hre Hlim Hne Hroom. apply runs_bind.
  eapply runs_mono; [by apply requisition_runs|..]; [|done..]. destruct Hat as (Hpa0 & Hix & Hex & _).
  intros p [e0 [m1 q1]] [(-> & Hfr & Hat1 & -> & Hrf)|(-> & Hfr & Hp & Hpa & Hma & Hnew & b & Hb & Hl & Hf & Hv)].
  { by apply runs_ret. }
  rewrite bool_decide_eq_false_2 by done. apply runs_bind, runs_on_memory.
  apply runs_block_reset with b; [done..|]. intros b' He Hrec.
  destruct (recounted_elements _ _ Hrec) as (Hel & _ & Hrefs & Hd).
  pose proof block_size_pos.
  pose proof (pa_ring _ _ _ _ _ _ _ _ Hpa) as Hring. pose proof (pa_nodup _ _ _ _ _ _ _ _ Hpa) as Hnd.
  pose proof (pa_tailBlock _ _ _ _ _ _ _ _ Hpa) as Ht. rewrite app_nil_r in Hring, Hnd, Ht.
  set (m2 := set_blocks (<[p := b']> (blocks m1)) m1).
  assert (Hma2 : memory_at m2 q1 ((idle.*1 ++ used) ++ [p]) (raws_of e) owned hdrs).
  { rewrite <- app_assoc. eapply memory_at_update; [exact Hma|set_solver|done..]. }
  assert (Hpo : p ∉ owned) by (apply (ma_ring _ _ _ _ _ _ Hma2); set_solver).
  destruct (blockIndex e) as [|i l] eqn:Ei; [done|]. pose proof (index_at_some _ _ _ l _ _ Ei Hix) as Hhd.
  pose proof (hd_slots _ _ _ _ _ Hhd). pose proof (hd_pow _ _ _ _ _ Hhd) as [_ Hle].
  pose proof block_size_pow2 as [_ Hbs]. pose proof (zlen_nonneg used).
  apply runs_bind. eapply (insert_block_runs _ m2 _ _ _ _ _ _ b'); [exact Hma2| | |done|by apply lookup_insert_eq|].
  { by apply links_update_ne. }
  { apply NoDup_app. split_and!; [done| |by apply NoDup_singleton]. by intros x Hx ->%list_elem_of_singleton. }
  intros h n Hr' Hrel Hhp Hma3 Hfr3. apply runs_bind, runs_put, runs_ret.
  split_and!; [|done|].
  { eapply frame_trans; [done|]. eapply frame_trans; [by apply frame_update|exact Hfr3]. }
  exists p. simpl. rewrite u64_small by nia.
  pose proof (pa_slots _ _ _ _ _ _ _ _ Hpa) as [Hs _]. replace (zlen ([] : list nat)) with 0 in Hs by done.
  constructor; simpl.
  - eapply (producer_at_new _ _ (blocks m1) h p idle used [] _ _ (set_next n b') 0);
      rewrite ?app_nil_r; try done.
    + intros x c Hx Hc. apply Hrel; [done|]. simpl. by rewrite lookup_insert_ne by (by intros ->).
    + split_and!; [simpl; congruence|by eapply (emptied_flags_ok b' 0); [lia|]|simpl; by rewrite Hel].
    + lia.
    + eapply within_limit_mono; [done|]. unfold zlen. simpl. lia.
    + by eapply can_reuse_false.
    + by rewrite Ei.
  - exists i, l. split_and!; [done| |by apply (Hex i l)]. destruct Hhd. by constructor.
  - pose proof (empties_nonneg idle). lia.
  - by rewrite app_assoc.
  - by exists (set_next n b').
  - rewrite Ht. destruct (idle.*1 ++ used) as [|t k] eqn:Er.
    + left. by apply app_eq_nil in Er as [->%fmap_nil_inv ->].
    + right. split; [|done]. eapply (memory_at_lookup _ _ _ _ _ _ _ Hma2).
      rewrite elem_of_app. left. apply (ring_nonempty_last _ t). by left.
Qed.

Lemma start_block_runs canAlloc clean e m q owned hdrs idle used H xs :
  explicit_at clean e m q owned hdrs idle used H xs → (H + zlen xs) mod BLOCK_SIZE = 0 →
  runs (start_block (X := X) canAlloc (tailIndex e)) (e, (m, q))
    (λ r '(e', (m', q')), frame owned m m' ∧ tailIndex e' = tailIndex e ∧
      if (r : bool) then
        ∃ idle' p, (idle' = idle ∨ idle = (p, true) :: idle') ∧
          started clean e' m' q' owned hdrs idle' used H xs p
            (pr_blockIndexSlotsUsed e) (tailBlock e)
      else explicit_at clean e' m' q' owned hdrs idle used H xs ∧ refused canAlloc (zlen xs))
    never no_fault.
Proof.
  intros Hat Hal. unfold start_block. apply runs_bind. eapply next_is_empty_runs; [done|].
  pose proof (elements_bound _ _ _ _ _ _ _ _ _ _ Hat) as Hn. pose proof Hat as (Hpa & _).
  destruct (can_reuse idle) eqn:Hre.
  - destruct idle as [|[p f] idle]; [done|]. simpl in Hre. subst f.
    eapply start_reused; [done|]. intros e' m' Hfr Et Hst. split_and!; [done..|].
    exists idle, p. split; [by right|done].
  - apply runs_bind, runs_get, runs_bind.
    rewrite (pa_head _ _ _ _ _ _ _ _ Hpa), (pa_tail _ _ _ _ _ _ _ _ Hpa).
    apply cq_runs_massert.
    { rewrite circular_less_than_spec by lia. apply negb_true_iff, Z.ltb_ge. lia. }
    pose proof (is_full_spec H (zlen xs) Hn) as Hfull. destruct (is_full _ _).
    { apply runs_ret. split_and!; [done..|by rewrite (pa_tail _ _ _ _ _ _ _ _ Hpa)|done|by right; right]. }
    destruct Hfull as [_ Hlim].
    pose proof (within_limit_succ _ _ _ _ _ _ _ _ Hpa Hal Hlim) as Hlim'.
    apply runs_bind, runs_self, runs_bind.
    eapply runs_mono; [by eapply index_has_room_runs|..]; [|done..].
    intros r [e1 [m1 q1]] (-> & Hb & Hl & Hat1 & Hbase & Hslots & Hr).
    assert (Ht1 : tailIndex e1 = u64 (H + zlen xs))
      by (rewrite Hbase; by rewrite (pa_tail _ _ _ _ _ _ _ _ Hpa)).
    pose proof (frame_blocks owned m m1 Hb Hl) as Hfr1.
    destruct r; simpl; [|apply runs_ret; by split_and!].
    destruct Hr as [Hne Hroom]. rewrite <- Hslots in Hroom.
    eapply runs_mono; [by eapply start_new_block|..]; [|done..].
    intros r [e2 [m2 q2]] (Hfr2 & Ht2 & Hr).
    split_and!; [by eapply frame_trans|congruence|]. destruct r; [|done].
    destruct Hr as [p Hst]. exists idle, p. split; [by left|]. rewrite Hbase, Hslots in Hst. exact Hst.
Qed.
End operations.
