(* ===== verification/CqCalls.v ===== *)
(** * Explicit producers: [enqueue] and [dequeue]

    [enqueue] adds the element at the end, or refuses, or the constructor throws.  In the
    last two cases the elements are the same as before; if the constructor throws where a
    block begins, the block that was taken for the element looks as if it were in use, and
    the producer is no longer [clean]. *)
From stdpp Require Import gmap.
From S2P Require Import Prelude Lifetime FreeList CqBlock CqPool CqFacts CqPoolFacts CqExplicit.
From S2P Require Import CqRing CqExplicitInv CqExplicitOps.

#[local] Open Scope Z_scope.

Section enqueue.
Context {TR : Traits} {OK : TraitsOk} {X T : Type} `{!CppType X T} `{!CppLaws X T}.
#[local] Abbreviation Q := (ExplicitProducer * (Memory T * BlockPool))%type.
#[local] Abbreviation producer_at := (producer_at (X := X) (T := T)).
#[local] Abbreviation memory_at := (memory_at (X := X) (T := T)).
#[local] Abbreviation explicit_at := (explicit_at (X := X) (T := T)).
#[local] Abbreviation started := (started (X := X) (T := T)).
#[local] Abbreviation vacant := (vacant (X := X) (T := T)).
#[local] Abbreviation never := (never (A := X)).
Implicit Types (e : ExplicitProducer) (h : gmap nat (Block T)) (m : Memory T) (q : BlockPool).
Implicit Types (idle : list (nat * bool)) (used extra : list nat) (xs : list T).
Implicit Types (owned hdrs : gset nat) (H : Z) (b : Block T).

(** ** The element *)
Lemma construct_at_runs {P} c (e : P) m q x p b o (i : Z) (Qr : () → P * _ * T → Prop)
    (Qt : X → P * _ * T → Prop) F :
  blocks m !! p = Some b → elements b !! Z.to_nat (offset_of (u64 i)) = Some o → vacant o →
  (∀ x', forward_ctor c x = (x', Returns x) →
     Qr tt ((e, (set_blocks (<[p := put_element i (Some x) b]> (blocks m)) m, q)), x')) →
  (∀ x' ex, forward_ctor c x = (x', Throws ex) → Qt ex ((e, (m, q)), x')) →
  runs (construct_at c p (u64 i)) ((e, (m, q)), x) Qr Qt F.
Proof.
  intros Hb Ho Hv HQr HQt. unfold runs, construct_at.
  destruct (forward_ctor c x) as [x' [y|ex]] eqn:Ef; [|by apply HQt].
  pose proof (forward_ctor_eq _ _ _ _ Ef) as ->.
  pose proof (losses_vacant [o] (proj2 (Forall_singleton _ _) Hv)) as Hls.
  unfold on_memory, on_snd, on_fst, place. simpl. rewrite Hb, (vector_at_Some _ _ _ Ho).
  rewrite Hls. unfold set_element, modify_block, on_block. simpl. rewrite Hb.
  specialize (HQr x' eq_refl). unfold set_blocks, lose in *. simpl in *.
  by rewrite Nat.add_0_r.
Qed.

Lemma construct_runs c e m q x b o (i : Z) (Qr : () → Q * T → Prop) (Qt : X → Q * T → Prop) F :
  blocks m !! tailBlock e = Some b → elements b !! Z.to_nat (offset_of (u64 i)) = Some o →
  vacant o →
  (∀ x', forward_ctor c x = (x', Returns x) →
     Qr tt ((e, (set_blocks (<[tailBlock e := put_element i (Some x) b]> (blocks m)) m, q)), x')) →
  (∀ x' ex, forward_ctor c x = (x', Throws ex) → Qt ex ((e, (m, q)), x')) →
  runs (construct_at_tail c (u64 i)) ((e, (m, q)), x) Qr Qt F.
Proof. intros. apply runs_bind, runs_on_fst, runs_get. by eapply construct_at_runs. Qed.

(** ** The block index *)
Definition indexed e (i : BlockIndexHeader) l (z : Z) : ExplicitProducer :=
  set_indexFront ((pr_blockIndexFront e + 1) mod pr_blockIndexSize e)
    (set_blockIndex (mkHeader (header_raw i) (index_size i) (pr_blockIndexFront e)
       (<[Z.to_nat (pr_blockIndexFront e) := Some (mkEntry z (tailBlock e))]> (entries i)) :: l) e).

Lemma add_to_index_runs e i l z clean slots n used (s : Memory T * BlockPool)
    (Qr : () → Q → Prop) (Qt : X → Q → Prop) F :
  blockIndex e = i :: l → header_at clean (set_slotsUsed slots e) i n used →
  Qr tt (indexed e i l z, s) → runs (add_to_index z) (e, s) Qr Qt F.
Proof.
  intros Ei Hhd HQ. pose proof (hd_front _ _ _ _ _ Hhd) as Hf. simpl in Hf.
  pose proof (hd_size _ _ _ _ _ Hhd) as [_ Hlen]. simpl in Hlen.
  pose proof (hd_pow _ _ _ _ _ Hhd) as [Hpow _]. simpl in Hpow.
  unfold add_to_index, write_entry. apply runs_bind, runs_bind, runs_self. rewrite Ei.
  rewrite decide_True by lia. apply runs_put, runs_bind. destruct s as [m q]. apply runs_get, runs_bind.
  unfold store_front. apply runs_bind, runs_get. simpl. apply runs_put. unfold advance_front.
  apply runs_put. simpl. rewrite mask_mod by done. exact HQ.
Qed.

Lemma indexed_fields e i l z :
  producer_base (indexed e i l z) = producer_base e ∧
  pr_blockIndexSlotsUsed (indexed e i l z) = pr_blockIndexSlotsUsed e ∧
  raws_of (indexed e i l z) = header_raw i :: (header_raw <$> l).
Proof. done. Qed.

(** The first element of a block that has been started. *)
Lemma explicit_at_first clean e e' m q owned hdrs idle used H xs p slots tail b i l y :
  started clean e m q owned hdrs idle used H xs p slots tail →
  (H + zlen xs) mod BLOCK_SIZE = 0 → blocks m !! p = Some b → blockIndex e = i :: l →
  e' = set_tailIndex (u64 (H + zlen xs + 1)) (indexed e i l (u64 (H + zlen xs))) →
  explicit_at clean e' (set_blocks (<[p := put_element (H + zlen xs) (Some y) b]> (blocks m)) m) q
    owned hdrs idle (used ++ [p]) H (xs ++ [y]).
Proof.
  intros [Hpa (i' & l' & Ei' & Hhd & Hex) Hs Hma (b' & Hb' & He) _] Hal Hb Ei ->.
  rewrite Ei in Ei'. injection Ei' as <- <-. assert (b' = b) as -> by congruence.
  pose proof (used_end _ _ _ _ _ _ _ _ Hpa Hal) as Hend.
  assert (Htail : tailBlock e = p).
  { eapply (tail_is_last _ _ _ _ _ _ _ _ _ (idle.*1 ++ used)); [done|by rewrite app_assoc]. }
  pose proof (hd_front _ _ _ _ _ Hhd) as Hf. simpl in Hf.
  split_and!.
  - eapply producer_at_first; [done..|]. done.
  - unfold index_at. simpl. rewrite Htail.
    eapply (header_at_add clean (set_slotsUsed slots e)); [done|by rewrite <- Hend|done..|simpl; lia|simpl; lia].
  - intros i' l' [= <- <-] _. simpl. rewrite Zminus_mod_idemp_l, Z.mod_small; lia.
  - rewrite app_assoc. rewrite <- app_assoc.
    assert (Hraws : raws_of e = header_raw i :: (header_raw <$> l)) by (unfold raws_of; by rewrite Ei).
    rewrite Hraws in Hma. eapply memory_at_update; [exact Hma|set_solver|done..].
Qed.

(** The slot for it is vacant. *)
Lemma slot_first h p b (i : Z) : prepared (X := X) h p → h !! p = Some b →
  ∃ o, elements b !! Z.to_nat (offset_of (u64 i)) = Some o ∧ vacant o.
Proof.
  intros (b' & d & Hb' & (Hl & _ & Hv) & _) Hb. assert (b' = b) as -> by congruence.
  rewrite offset_of_mod. pose proof (Z.mod_pos_bound i BLOCK_SIZE block_size_pos).
  destruct (lookup_lt_is_Some_2 (elements b) (Z.to_nat (i mod BLOCK_SIZE))) as [o Ho]; [lia|].
  exists o. split; [done|]. by eapply Forall_lookup_1.
Qed.

(** Where the elements end within a block, that is the last one, which is the tail block. *)
Lemma last_block clean e h idle used H xs :
  producer_at clean e h idle used [] H xs → (H + zlen xs) mod BLOCK_SIZE ≠ 0 →
  ∃ used' b o, used = used' ++ [tailBlock e] ∧ h !! tailBlock e = Some b ∧
    elements b !! Z.to_nat (offset_of (u64 (H + zlen xs))) = Some o ∧ vacant o.
Proof.
  intros Hpa Hal. pose proof (pa_length _ _ _ _ _ _ _ _ Hpa) as Hlen.
  pose proof (in_use_div H (zlen xs) (zlen_nonneg xs)) as Hd. rewrite <- Hlen in Hd.
  pose proof (Z.div_mod (H + zlen xs) BLOCK_SIZE block_size_ne) as Hdm.
  pose proof (Z.mod_pos_bound (H + zlen xs) BLOCK_SIZE block_size_pos) as Hm.
  pose proof (head_div H). pose proof (zlen_nonneg xs).
  destruct used as [|p used _] using rev_ind.
  { exfalso. apply Hal. replace (zlen ([] : list nat)) with 0 in Hd by done.
    replace (H + zlen xs) with (H / BLOCK_SIZE * BLOCK_SIZE) by lia. apply Z.mod_mul, block_size_ne. }
  rewrite (tail_is_last _ _ _ _ _ _ _ _ p (idle.*1 ++ used) Hpa) by (by rewrite app_nil_r, app_assoc).
  assert (Hp : (used ++ [p]) !! length used = Some p) by (by rewrite lookup_app_r, Nat.sub_diag).
  destruct (pa_used _ _ _ _ _ _ _ _ Hpa _ _ Hp) as (b & Hb & [Hl Hs _]).
  destruct (Hs ((H + zlen xs) mod BLOCK_SIZE)) as (o & Ho & Hok); [lia|].
  exists used, b, o. rewrite offset_of_mod. split_and!; [done..|].
  rewrite zlen_app in Hd. replace (zlen [p]) with 1 in Hd by done.
  change (Z.of_nat (length used)) with (zlen used) in Hok.
  rewrite item_None in Hok; [done|right].
  assert ((H + zlen xs) / BLOCK_SIZE = H / BLOCK_SIZE + zlen used) by nia. nia.
Qed.

Lemma explicit_at_more clean e e' m q owned hdrs idle used H xs b y :
  explicit_at clean e m q owned hdrs idle used H xs → (H + zlen xs) mod BLOCK_SIZE ≠ 0 →
  blocks m !! tailBlock e = Some b → e' = set_tailIndex (u64 (H + zlen xs + 1)) e →
  explicit_at clean e' (set_blocks (<[tailBlock e := put_element (H + zlen xs) (Some y) b]> (blocks m)) m)
    q owned hdrs idle used H (xs ++ [y]).
Proof.
  intros (Hpa & Hix & Hex & Hma) Hal Hb ->.
  destruct (last_block _ _ _ _ _ _ _ Hpa Hal) as (used' & _ & _ & Hu & _).
  split_and!.
  - rewrite Hu in *. by eapply producer_at_more.
  - unfold index_at in *. simpl. destruct (blockIndex e); [done|]. destruct Hix. by constructor.
  - done.
  - eapply memory_at_update; [exact Hma| |done..]. rewrite Hu. set_solver.
Qed.

(** The handler takes everything back but the block. *)
Lemma explicit_at_reverted clean e m q owned hdrs idle used H xs p slots tail :
  started clean e m q owned hdrs idle used H xs p slots tail →
  runs (revert_block (X := X) tail slots) (e, (m, q))
    (λ _ '(e', s'), s' = (m, q) ∧
      explicit_at false e' m q owned hdrs ((p, false) :: idle) used H xs) never no_fault.
Proof.
  intros [Hpa (i & l & Ei & Hhd & Hex) Hs Hma (b & Hb & He) Ht].
  assert (Htail : tailBlock e = p).
  { eapply (tail_is_last _ _ _ _ _ _ _ _ _ (idle.*1 ++ used)); [done|by rewrite app_assoc]. }
  pose proof block_size_pos.
  assert (Hdone : ∀ e', e' = set_slotsUsed slots (set_tailBlock (List.last (p :: idle.*1 ++ used) 0%nat) e) →
    explicit_at false e' m q owned hdrs ((p, false) :: idle) used H xs).
  { intros ? ->. split_and!.
    - eapply producer_at_revert; try done. simpl. lia.
    - unfold index_at. simpl. rewrite Ei. destruct Hhd as [? ? ? ? Hw ?]. constructor; [done..| |done].
      intros k Hk. destruct (Hw k Hk) as (a & Ha & _). by exists a.
    - simpl. rewrite Ei. intros i' l' [= <- <-]. exact Hex.
    - eapply memory_at_ring; [exact Hma|]. csimpl. rewrite (app_assoc _ used).
      by rewrite <- Permutation_cons_append. }
  unfold revert_block. apply runs_bind, runs_put. destruct Ht as [(-> & -> & ->)|(Hne & ->)].
  - simpl. apply runs_ret. split; [done|]. apply Hdone. rewrite <- Htail. by destruct e as [[]].
  - rewrite bool_decide_eq_false_2 by done. apply runs_put. split; [done|]. by apply Hdone.
Qed.

(** ** [enqueue] *)
Definition at_boundary H xs : Prop := (H + zlen xs) mod BLOCK_SIZE = 0.

Definition enqueue_returns clean canAlloc (c : category) m owned hdrs H xs (x : T) (r : bool)
    (s : Q * T) : Prop :=
  let '((e', (m', q')), x') := s in
  frame owned m m' ∧ ∃ idle used,
    if r then
      explicit_at clean e' m' q' owned hdrs idle used H (xs ++ [x]) ∧
      forward_ctor (X := X) c x = (x', Returns x)
    else
      explicit_at clean e' m' q' owned hdrs idle used H xs ∧ x' = x ∧
      at_boundary H xs ∧ refused canAlloc (zlen xs).

Definition enqueue_throws clean (c : category) m owned hdrs H xs (x : T) (ex : X) (s : Q * T) : Prop :=
  let '((e', (m', q')), x') := s in
  frame owned m m' ∧ nothrow_ctor (X := X) (T := T) c = false ∧
  forward_ctor c x = (x', Throws ex) ∧
  ∃ clean' idle used, explicit_at clean' e' m' q' owned hdrs idle used H xs ∧
    (¬ at_boundary H xs → clean' = clean).

Lemma nothrow_ctor_ok c (x x' : T) (ex : X) :
  forward_ctor c x = (x', Throws ex) → nothrow_ctor (X := X) (T := T) c = false.
Proof.
  intros Hf. destruct (nothrow_ctor c) eqn:En; [exfalso|done]. destruct c; simpl in *.
  - destruct (nothrow_copy_ok x En) as [b Hb]. congruence.
  - destruct (nothrow_move_ok x En) as (a' & b & Hb). congruence.
Qed.

(** The element goes where there is room in the tail block. *)
Lemma cq_enqueue_here_runs clean canAlloc c e m q x owned hdrs idle used H xs :
  explicit_at clean e m q owned hdrs idle used H xs → ¬ at_boundary H xs →
  runs (construct_at_tail c (u64 (H + zlen xs)) ;;
        on_fst (put (set_tailIndex (u64 (H + zlen xs + 1)))) ;;
        mret true) ((e, (m, q)), x)
    (enqueue_returns clean canAlloc c m owned hdrs H xs x)
    (enqueue_throws clean c m owned hdrs H xs x) no_fault.
Proof.
  intros Hat Hal. pose proof Hat as (Hpa & _ & _ & Hma).
  destruct (last_block _ _ _ _ _ _ _ Hpa Hal) as (used' & b & o & Hu & Hb & Ho & Hv).
  apply runs_bind. eapply construct_runs; [done..| |].
  - intros x' Hf. apply runs_bind, runs_on_fst, runs_put, runs_ret. split.
    { apply frame_update. apply (ma_ring _ _ _ _ _ _ Hma). rewrite Hu. set_solver. }
    exists idle, used. split; [by eapply explicit_at_more|done].
  - intros x' ex Hf. split_and!; [done|by eapply nothrow_ctor_ok|done|]. by exists clean, idle, used.
Qed.

(** ... or in the block that has been started; the entry of the index is written first if
    the constructor cannot throw, and last otherwise. *)
Section first.
Context (clean canAlloc : bool) (c : category) (e : ExplicitProducer) (m : Memory T) (q : BlockPool).
Context (x : T) (owned hdrs : gset nat) (idle : list (nat * bool)) (used : list nat) (H : Z).
Context (xs : list T) (p : nat) (slots : Z) (tail : nat).
Context (Hst : started clean e m q owned hdrs idle used H xs p slots tail).
Context (Hal : at_boundary H xs).

Lemma enqueue_first_nothrow :
  nothrow_ctor (X := X) (T := T) c = true →
  runs (on_fst (add_to_index (u64 (H + zlen xs))) ;;
        construct_at_tail c (u64 (H + zlen xs)) ;;
        on_fst (put (set_tailIndex (u64 (H + zlen xs + 1)))) ;;
        mret true) ((e, (m, q)), x)
    (enqueue_returns clean canAlloc c m owned hdrs H xs x)
    (enqueue_throws clean c m owned hdrs H xs x) no_fault.
Proof.
  intros Hnt. pose proof Hst as [Hpa (i & l & Ei & Hhd & _) _ Hma (b & Hb & _) _].
  assert (Htail : tailBlock e = p).
  { eapply (tail_is_last _ _ _ _ _ _ _ _ _ (idle.*1 ++ used)); [done|by rewrite app_assoc]. }
  destruct (slot_first (blocks m) p b (H + zlen xs)) as (o & Ho & Hv); [|done|].
  { apply (pa_extra _ _ _ _ _ _ _ _ Hpa). by left. }
  apply runs_bind, runs_on_fst. eapply add_to_index_runs; [done..|].
  apply runs_bind. eapply construct_runs; [by simpl; rewrite Htail|done..| |].
  - intros x' Hf. apply runs_bind, runs_on_fst, runs_put, runs_ret. simpl. rewrite Htail. split.
    { apply frame_update, (ma_ring _ _ _ _ _ _ Hma). set_solver. }
    exists idle, (used ++ [p]). split; [by eapply explicit_at_first|done].
  - intros x' ex Hf. apply nothrow_ctor_ok in Hf. congruence.
Qed.

Lemma enqueue_first :
  runs (on_throw (on_fst (revert_block tail slots)) (construct_at_tail c (u64 (H + zlen xs))) ;;
        on_fst (add_to_index (u64 (H + zlen xs))) ;;
        on_fst (put (set_tailIndex (u64 (H + zlen xs + 1)))) ;;
        mret true) ((e, (m, q)), x)
    (enqueue_returns clean canAlloc c m owned hdrs H xs x)
    (enqueue_throws clean c m owned hdrs H xs x) no_fault.
Proof.
  pose proof Hst as [Hpa (i & l & Ei & Hhd & _) _ Hma (b & Hb & _) _].
  assert (Htail : tailBlock e = p).
  { eapply (tail_is_last _ _ _ _ _ _ _ _ _ (idle.*1 ++ used)); [done|by rewrite app_assoc]. }
  destruct (slot_first (blocks m) p b (H + zlen xs)) as (o & Ho & Hv); [|done|].
  { apply (pa_extra _ _ _ _ _ _ _ _ Hpa). by left. }
  apply runs_bind, runs_on_throw. eapply construct_runs; [by rewrite Htail|done..| |].
  - intros x' Hf. apply runs_bind, runs_on_fst. eapply add_to_index_runs; [done..|].
    apply runs_bind, runs_on_fst, runs_put, runs_ret. rewrite Htail. split.
    { apply frame_update, (ma_ring _ _ _ _ _ _ Hma). set_solver. }
    exists idle, (used ++ [p]). split; [by eapply explicit_at_first|done].
  - intros x' ex Hf. apply runs_on_fst.
    eapply runs_mono; [by eapply explicit_at_reverted|..]; [|done..].
    intros _ [e' s'] [-> Hat]. split_and!; [done|by eapply nothrow_ctor_ok|done|].
    by exists false, ((p, false) :: idle), used.
Qed.
End first.

Lemma frame_returns clean canAlloc c m m' owned hdrs H xs x r s :
  frame owned m m' → enqueue_returns clean canAlloc c m' owned hdrs H xs x r s →
  enqueue_returns clean canAlloc c m owned hdrs H xs x r s.
Proof.
  destruct s as [[e1 [m1 q1]] x1]. intros Hf [Hf' Hr]. split; [by eapply frame_trans|done].
Qed.

Lemma frame_throws clean c m m' owned hdrs H xs x ex s :
  frame owned m m' → enqueue_throws clean c m' owned hdrs H xs x ex s →
  enqueue_throws clean c m owned hdrs H xs x ex s.
Proof.
  destruct s as [[e1 [m1 q1]] x1]. intros Hf [Hf' Hr]. split; [by eapply frame_trans|done].
Qed.

Lemma explicit_enqueue_runs clean canAlloc c e m q x owned hdrs idle used H xs :
  explicit_at clean e m q owned hdrs idle used H xs →
  runs (explicit_enqueue canAlloc c) ((e, (m, q)), x)
    (enqueue_returns clean canAlloc c m owned hdrs H xs x)
    (enqueue_throws clean c m owned hdrs H xs x) no_fault.
Proof.
  intros Hat. pose proof Hat as (Hpa & _). pose proof (pa_tail _ _ _ _ _ _ _ _ Hpa) as Ht.
  unfold explicit_enqueue. apply runs_bind, runs_on_fst, runs_get. rewrite Ht, aligned_mod, u64_add_r.
  replace (1 + (H + zlen xs)) with (H + zlen xs + 1) by lia.
  destruct (Z.eqb_spec ((H + zlen xs) mod BLOCK_SIZE) 0) as [Hal|Hal]; [|by eapply cq_enqueue_here_runs].
  apply runs_bind, runs_on_fst, runs_get, runs_bind, runs_on_fst, runs_get, runs_bind, runs_on_fst.
  rewrite <- Ht. eapply runs_mono; [by eapply start_block_runs|..]; [|done..].
  intros r [e' [m' q']] (Hfr & Ht' & Hr). rewrite Ht.
  destruct r; simpl.
  - destruct Hr as (idle' & p & _ & Hst).
    destruct (nothrow_ctor c) eqn:En.
    + eapply runs_mono; [by eapply (enqueue_first_nothrow clean canAlloc)|..]; [..|done];
        intros *; [by apply frame_returns|by apply frame_throws].
    + eapply runs_mono; [by eapply (enqueue_first clean canAlloc)|..]; [..|done];
        intros *; [by apply frame_returns|by apply frame_throws].
  - apply runs_ret. destruct Hr as [Hat' Href]. split; [done|]. by exists idle, used.
Qed.
End enqueue.

(** ** Explicit producers: [dequeue]

    [dequeue] takes the first element, if there is one.  If the assignment throws, the
    element is destroyed all the same. *)
Section dequeue.
Context {TR : Traits} {OK : TraitsOk} {X T U : Type} `{!CppType X T}.
Context (assign_result : U → T → U * T * completion X unit) (nothrow_assign : bool).
#[local] Abbreviation Q := (ExplicitProducer * (Memory T * BlockPool))%type.
#[local] Abbreviation producer_at := (producer_at (X := X) (T := T)).
#[local] Abbreviation memory_at := (memory_at (X := X) (T := T)).
#[local] Abbreviation explicit_at := (explicit_at (X := X) (T := T)).
#[local] Abbreviation move_out := (move_out assign_result).
Implicit Types (e : ExplicitProducer) (h : gmap nat (Block T)) (m : Memory T) (q : BlockPool).
Implicit Types (idle : list (nat * bool)) (used extra : list nat) (xs : list T).
Implicit Types (owned hdrs : gset nat) (H : Z) (b : Block T).

(** ** An element *)
Definition slot_of (i : Z) : nat := Z.to_nat (offset_of (u64 i)).

Lemma cq_runs_element_at m p b x i (Qr : T → Memory T → Prop) (Qt : X → Memory T → Prop) F :
  blocks m !! p = Some b → elements b !! slot_of i = Some (Some x) → Qr x m →
  runs (element_at p (u64 i)) m Qr Qt F.
Proof. intros Hb Hx HQ. unfold runs, element_at. by rewrite Hb, (vector_at_Some _ _ _ Hx). Qed.

Lemma insert_blocks m p b b' :
  set_blocks (<[p := b']> (blocks (set_blocks (<[p := b]> (blocks m)) m)))
    (set_blocks (<[p := b]> (blocks m)) m) = set_blocks (<[p := b']> (blocks m)) m.
Proof. simpl. by rewrite insert_insert_eq. Qed.

Lemma finish_element_runs e m q p b x i d (Qr : () → Q → Prop) Qt F :
  blocks m !! p = Some b → elements b !! slot_of i = Some (Some x) →
  emptied b d → i mod BLOCK_SIZE = d →
  (∀ b', elements b' = <[slot_of i := None]> (elements b) → emptied b' (d + 1) →
     next b' = next b → block_freeListRefs b' = block_freeListRefs b →
     dynamicallyAllocated b' = dynamicallyAllocated b →
     Qr tt (e, (set_blocks (<[p := b']> (blocks m)) m, q))) →
  runs (finish_element (X := X) p (u64 i)) (e, (m, q)) Qr Qt F.
Proof.
  intros Hb Hx He Hi HQ. unfold finish_element, destroy_element.
  apply runs_bind, runs_on_memory, runs_bind. eapply cq_runs_element_at; [done..|].
  apply cq_runs_modify_block with b; [done|].
  destruct (set_empty_run _ (put_element i None b) d i He Hi) as (b' & Hr & He' & Hrec).
  destruct (recounted_elements _ _ Hrec) as (Hel & Hn & Hrefs & Hd).
  apply runs_bind, runs_on_memory. eapply runs_on_block; [by apply lookup_insert_eq|exact Hr|].
  rewrite insert_blocks. apply runs_ret. by apply HQ.
Qed.

Lemma move_out_runs {P} (e : P) m q u p b x i (Qr : () → P * _ * U → Prop) (Qt : X → P * _ * U → Prop) F :
  blocks m !! p = Some b → elements b !! slot_of i = Some (Some x) →
  (∀ u' x', assign_result u x = (u', x', Returns tt) →
     Qr tt ((e, (set_blocks (<[p := put_element i (Some x') b]> (blocks m)) m, q)), u')) →
  (∀ u' x' ex, assign_result u x = (u', x', Throws ex) →
     Qt ex ((e, (set_blocks (<[p := put_element i (Some x') b]> (blocks m)) m, q)), u')) →
  runs (move_out p (u64 i)) ((e, (m, q)), u) Qr Qt F.
Proof.
  intros Hb Hx HQr HQt. unfold runs, CqExplicit.move_out, on_memory, on_snd, on_fst, element_at.
  rewrite Hb, (vector_at_Some _ _ _ Hx).
  destruct (assign_result u x) as [[u' x'] [[]|ex]] eqn:Ea;
    unfold set_element, modify_block, on_block; simpl; rewrite Hb; [by apply (HQr u' x')|by apply (HQt u' x')].
Qed.

(** The element is assigned to the result, and is gone. *)
Lemma take_element_runs e m q u p b x i d (Qr : bool → Q * U → Prop) (Qt : X → Q * U → Prop) F :
  (∀ u' x' ex, nothrow_assign = true → assign_result u x ≠ (u', x', Throws ex)) →
  blocks m !! p = Some b → elements b !! slot_of i = Some (Some x) →
  emptied b d → i mod BLOCK_SIZE = d →
  (∀ b' u' x' r, elements b' = <[slot_of i := None]> (elements b) → emptied b' (d + 1) →
     next b' = next b → block_freeListRefs b' = block_freeListRefs b →
     dynamicallyAllocated b' = dynamicallyAllocated b → assign_result u x = (u', x', r) →
     match r with
     | Returns _ => Qr true ((e, (set_blocks (<[p := b']> (blocks m)) m, q)), u')
     | Throws ex => Qt ex ((e, (set_blocks (<[p := b']> (blocks m)) m, q)), u')
     end) →
  runs ((if nothrow_assign then noexcept (move_out p (u64 i))
         else on_throw (on_fst (finish_element p (u64 i))) (move_out p (u64 i))) ;;
        on_fst (finish_element p (u64 i)) ;;
        mret true) ((e, (m, q)), u) Qr Qt F.
Proof.
  intros Hnt Hb Hx He Hi HQ.
  assert (Hput : ∀ x', elements (put_element i (Some x') b) !! slot_of i = Some (Some x')).
  { intros x'. apply list_lookup_insert_eq. by eapply lookup_lt_Some. }
  assert (Hfinish : ∀ x' (Qr' : () → Q → Prop) Qt' F',
    (∀ b', elements b' = <[slot_of i := None]> (elements b) → emptied b' (d + 1) →
      next b' = next b → block_freeListRefs b' = block_freeListRefs b →
      dynamicallyAllocated b' = dynamicallyAllocated b →
      Qr' tt (e, (set_blocks (<[p := b']> (blocks m)) m, q))) →
    runs (finish_element (X := X) p (u64 i))
      (e, (set_blocks (<[p := put_element i (Some x') b]> (blocks m)) m, q)) Qr' Qt' F').
  { intros x' Qr' Qt' F' HQ'. eapply finish_element_runs; [by apply lookup_insert_eq|by apply Hput|done|done|].
    intros b' Hel He' Hn Hrefs Hd. rewrite insert_blocks. apply HQ'; try done.
    rewrite Hel. apply list_insert_insert_eq. }
  assert (Hrest : ∀ u' x', assign_result u x = (u', x', Returns tt) →
    runs (on_fst (finish_element p (u64 i)) ;; mret true)
      ((e, (set_blocks (<[p := put_element i (Some x') b]> (blocks m)) m, q)), u') Qr Qt F).
  { intros u' x' Ha. apply runs_bind, runs_on_fst, Hfinish. intros b' **.
    apply runs_ret. by apply (HQ b' u' x' (Returns tt)). }
  apply runs_bind. destruct nothrow_assign.
  - apply runs_noexcept with (Qt := λ _ _, False); [|done].
    eapply move_out_runs; [done..|exact Hrest|]. intros u' x' ex Ha. by eapply Hnt.
  - apply runs_on_throw. eapply move_out_runs; [done..|exact Hrest|].
    intros u' x' ex Ha. apply runs_on_fst, Hfinish. intros b' **.
    by apply (HQ b' u' x' (Throws ex)).
Qed.

(** ** The producer *)
Lemma explicit_at_dequeued clean e m q owned hdrs idle used H x xs p b b' :
  explicit_at clean e m q owned hdrs idle (p :: used) H (x :: xs) → blocks m !! p = Some b →
  elements b' = <[slot_of H := None]> (elements b) → emptied b' (H mod BLOCK_SIZE + 1) →
  next b' = next b → block_freeListRefs b' = block_freeListRefs b →
  dynamicallyAllocated b' = dynamicallyAllocated b →
  explicit_at clean (set_headIndex (u64 (H + 1)) (set_optimistic (u64 (H + 1)) e))
    (set_blocks (<[p := b']> (blocks m)) m) q owned hdrs
    (after_dequeue H idle (p :: used)).1 (after_dequeue H idle (p :: used)).2 (H + 1) xs.
Proof.
  intros (Hpa & Hix & Hex & Hma) Hb Hel He Hn Hrefs Hd.
  assert (Hmod : H mod BLOCK_SIZE = H - H / BLOCK_SIZE * BLOCK_SIZE)
    by (pose proof (Z.div_mod H BLOCK_SIZE block_size_ne); lia).
  pose proof (pa_count _ _ _ _ _ _ _ _ Hpa) as [_ Hov].
  split_and!.
  - unfold slot_of in Hel. rewrite offset_of_mod, Hmod in Hel. rewrite Hmod in He.
    by eapply producer_at_dequeue.
  - unfold index_at in *. simpl in *. destruct (blockIndex e) as [|i l] eqn:Ei.
    { by destruct Hix. }
    rewrite succ_div. unfold after_dequeue. destruct (_ =? 0); simpl.
    + apply header_at_later in Hix. destruct Hix. by constructor.
    + rewrite Z.add_0_r. destruct Hix. by constructor.
  - intros i l Ei _. apply (Hex i l Ei). done.
  - rewrite after_dequeue_ring. eapply memory_at_update; [exact Hma|set_solver|done..].
Qed.

(** The first element, and how it is found. *)
Lemma find_first clean e m q owned hdrs idle used H x xs :
  explicit_at clean e m q owned hdrs idle used H (x :: xs) →
  ∃ p used' i l slot b, used = p :: used' ∧ blockIndex e = i :: l ∧
    slot_for i (u64 H) = Ok slot ∧ entry_at i slot = Ok (mkEntry (u64 (H / BLOCK_SIZE * BLOCK_SIZE)) p) ∧
    blocks m !! p = Some b ∧ elements b !! slot_of H = Some (Some x) ∧
    emptied b (H mod BLOCK_SIZE).
Proof.
  intros (Hpa & Hix & Hex & Hma).
  destruct (first_block _ _ _ _ _ _ _ _ _ Hpa) as (p & used' & b & -> & Hb & Hat).
  destruct (blockIndex e) as [|i l] eqn:Ei.
  { pose proof (pa_index _ _ _ _ _ _ _ _ Hpa Ei) as Hn. by destruct (idle.*1). }
  pose proof (index_at_some _ _ _ _ _ _ Ei Hix) as Hhd.
  destruct (slot_for_run _ _ _ _ _ H 0 p Hhd (Hex i l eq_refl) eq_refl) as [Hs He]; [lia|].
  pose proof (Z.div_mod H BLOCK_SIZE block_size_ne) as Hdm.
  pose proof (Z.mod_pos_bound H BLOCK_SIZE block_size_pos).
  destruct Hat as [Hl Hsl Hem]. destruct (Hsl (H mod BLOCK_SIZE)) as (o & Ho & Hok); [lia|].
  replace (H / BLOCK_SIZE * BLOCK_SIZE + H mod BLOCK_SIZE) with H in Hok by lia.
  rewrite item_head in Hok. simpl in Hok. subst o.
  replace (Z.max 0 (H - H / BLOCK_SIZE * BLOCK_SIZE)) with (H mod BLOCK_SIZE) in Hem by lia.
  eexists p, used', i, l, _, b. unfold slot_of. rewrite offset_of_mod. by split_and!.
Qed.

(** ** [dequeue] *)
Definition dequeue_returns clean owned hdrs (m : Memory T) H xs (u : U) (r : bool) (s : Q * U) : Prop :=
  let '((e', (m', q')), u') := s in
  frame owned m m' ∧ ∃ idle used,
    match xs with
    | [] => r = false ∧ u' = u ∧ explicit_at clean e' m' q' owned hdrs idle used H []
    | x :: xs => r = true ∧ (∃ x', assign_result u x = (u', x', Returns tt)) ∧
        explicit_at clean e' m' q' owned hdrs idle used (H + 1) xs
    end.

Definition dequeue_throws clean owned hdrs (m : Memory T) H xs (u : U) (ex : X) (s : Q * U) : Prop :=
  let '((e', (m', q')), u') := s in
  frame owned m m' ∧ ∃ idle used x xs' x', xs = x :: xs' ∧
    nothrow_assign = false ∧ assign_result u x = (u', x', Throws ex) ∧
    explicit_at clean e' m' q' owned hdrs idle used (H + 1) xs'.

Lemma explicit_dequeue_runs clean e m q u owned hdrs idle used H xs :
  (∀ u x u' x' ex, nothrow_assign = true → assign_result u x ≠ (u', x', Throws ex)) →
  explicit_at clean e m q owned hdrs idle used H xs →
  runs (explicit_dequeue assign_result nothrow_assign) ((e, (m, q)), u)
    (dequeue_returns clean owned hdrs m H xs u) (dequeue_throws clean owned hdrs m H xs u) no_fault.
Proof.
  intros Hnt Hat. pose proof (elements_bound _ _ _ _ _ _ _ _ _ _ Hat) as Hn.
  pose proof Hat as (Hpa & _). pose proof (pa_tail _ _ _ _ _ _ _ _ Hpa) as Ht.
  pose proof (pa_head _ _ _ _ _ _ _ _ Hpa) as Hh. pose proof (pa_count _ _ _ _ _ _ _ _ Hpa) as [Hc Ho].
  unfold explicit_dequeue.
  do 3 (apply runs_bind, runs_on_fst, runs_get). rewrite Hc, Ho, Ht, u64_sub_l, Z.sub_0_r.
  rewrite circular_less_than_spec by lia. destruct (Z.ltb_spec H (H + zlen xs)) as [Hlt|Hge].
  2:{ apply runs_ret. split; [done|]. exists idle, used. destruct xs; [done|unfold zlen in *; simpl in *; lia]. }
  destruct xs as [|x xs]; [unfold zlen in *; simpl in *; lia|].
  destruct (find_first _ _ _ _ _ _ _ _ _ _ _ Hat) as (p & used' & i & l & slot & b & -> & Ei & Hs & He & Hb & Hx & Hem).
  apply runs_bind, runs_on_fst, runs_get. rewrite Hc. apply runs_bind, runs_on_fst, runs_put.
  apply runs_bind, cq_runs_massert; [apply Z.leb_le, u64_bound|].
  apply runs_bind, runs_on_fst, runs_get. simpl. rewrite Ht, u64_sub_l, Z.sub_0_r.
  rewrite circular_less_than_spec by lia. rewrite (proj2 (Z.ltb_lt _ _)) by lia.
  apply runs_bind, runs_on_fst, runs_get. simpl. rewrite Hh. apply runs_bind, runs_on_fst, runs_put.
  apply runs_bind, runs_on_fst. unfold current_index. apply runs_bind, runs_get. simpl. rewrite Ei.
  apply runs_ret, runs_bind, runs_on_fst. eapply runs_lift; [exact Hs|].
  apply runs_bind, runs_on_fst. eapply runs_lift; [exact He|]. simpl. rewrite !u64_add.
  eapply take_element_runs; [by intros; apply Hnt|done..|].
  intros b' u' x' r Hel He' Hnx Hrefs Hd Ha.
  pose proof (explicit_at_dequeued _ _ _ _ _ _ _ _ _ _ _ _ _ _ Hat Hb Hel He' Hnx Hrefs Hd) as Hat'.
  assert (Hfr : frame owned m (set_blocks (<[p := b']> (blocks m)) m)).
  { apply frame_update. destruct Hat as (_ & _ & _ & Hma). apply (ma_ring _ _ _ _ _ _ Hma). set_solver. }
  destruct r as [[]|ex]; (split; [exact Hfr|]).
  - do 2 eexists. split_and!; [done|by exists x'|exact Hat'].
  - eexists _, _, x, xs, x'. split_and!; [done| |done|exact Hat'].
    destruct nothrow_assign; [|done]. by destruct (Hnt u x u' x' ex).
Qed.
End dequeue.
