(* ===== verification/CqLifecycle.v ===== *)
(** * Explicit producers and the pool: construction and destruction

    The destructor of a producer finds the block that is partly dequeued, goes round the
    ring and destroys exactly the elements there are, provided that the producer is
    [clean].  What the constructors make satisfies the invariants; the destructors give back
    every block and every chunk of memory, and no element is lost. *)
From stdpp Require Import gmap.
From S2P Require Import Prelude Lifetime ReaderWriterQueue RwqBlocks FreeList FreeListInvariant.
From S2P Require Import FreeListStack CqBlock CqPool CqFacts CqPoolFacts CqExplicit CqRing.
From S2P Require Import CqExplicitInv CqExplicitOps CqCalls.

#[local] Open Scope Z_scope.

Section sweep.
Context {TR : Traits} {OK : TraitsOk} {X T : Type} `{!CppType X T}.
#[local] Abbreviation Q := (ExplicitProducer * (Memory T * BlockPool))%type.
#[local] Abbreviation unused := (unused (X := X) (T := T)).
#[local] Abbreviation vacant := (vacant (X := X) (T := T)).
#[local] Abbreviation producer_at := (producer_at (X := X) (T := T)).
#[local] Abbreviation memory_at := (memory_at (X := X) (T := T)).
#[local] Abbreviation explicit_at := (explicit_at (X := X) (T := T)).
#[local] Abbreviation block_at := (block_at_in (X := X) (T := T) explicit_context).
#[local] Abbreviation never := (never (A := X)).
Implicit Types (e : ExplicitProducer) (h : gmap nat (Block T)) (m : Memory T) (q : BlockPool).
Implicit Types (idle : list (nat * bool)) (used extra ring : list nat) (xs : list T).
Implicit Types (owned hdrs : gset nat) (H : Z) (b : Block T).

(** ** The block that is partly dequeued *)
Lemma skip_dequeued_runs e i n used H mask (k : nat) : ∀ fuel,
  header_at true e i n used → mask = u64 (pr_blockIndexSize e - 1) →
  n = H / BLOCK_SIZE → H mod BLOCK_SIZE ≠ 0 → 1 ≤ zlen used →
  zlen used + Z.of_nat k ≤ pr_blockIndexSlotsUsed e →
  pr_blockIndexSlotsUsed e * BLOCK_SIZE < 2 ^ 63 → (k < fuel)%nat →
  skip_dequeued fuel i mask (u64 H)
    ((pr_blockIndexFront e - zlen used - Z.of_nat k) mod pr_blockIndexSize e)
    = Ok ((pr_blockIndexFront e - zlen used) mod pr_blockIndexSize e).
Proof.
  intros fuel Hhd -> Hn Hal Hu Hk Hbound Hfuel. revert fuel Hk Hfuel.
  pose proof (head_div H) as Hhead. pose proof block_size_pow2 as [_ Hbs].
  pose proof (Z.div_mod H BLOCK_SIZE block_size_ne) as Hdm.
  pose proof (Z.mod_pos_bound H BLOCK_SIZE block_size_pos) as Hm.
  induction k as [|k IH]; intros [|fuel] Hk Hfuel; [lia| |lia|]; simpl.
  - destruct (hd_written _ _ _ _ _ Hhd (zlen used)) as (a & Ha & Hb); [lia|].
    rewrite Z.sub_0_r. rewrite (entry_at_Some _ _ _ Ha), bind_Ok, (Hb eq_refl), u64_add.
    rewrite circular_less_than_spec by nia. by rewrite (proj2 (Z.ltb_ge _ _)) by nia.
  - destruct (hd_written _ _ _ _ _ Hhd (zlen used + Z.of_nat (S k))) as (a & Ha & Hb); [lia|].
    rewrite <- Z.sub_add_distr. rewrite (entry_at_Some _ _ _ Ha), bind_Ok, (Hb eq_refl), u64_add.
    rewrite circular_less_than_spec by nia. rewrite (proj2 (Z.ltb_lt _ _)) by nia.
    rewrite mask_mod, Zplus_mod_idemp_l by apply (hd_pow _ _ _ _ _ Hhd).
    replace (pr_blockIndexFront e - (zlen used + Z.of_nat (S k)) + 1)
      with (pr_blockIndexFront e - zlen used - Z.of_nat k) by lia.
    apply IH; lia.
Qed.

Lemma half_dequeued_runs e m q owned hdrs idle used H xs (Qr : nat → Q → Prop) Qt F :
  explicit_at true e m q owned hdrs idle used H xs →
  Qr (if H mod BLOCK_SIZE =? 0 then 0%nat else hd 0%nat used) (e, (m, q)) →
  runs (half_dequeued_block (X := X)) (e, (m, q)) Qr Qt F.
Proof.
  intros Hat HQ. pose proof (ring_bound _ _ _ _ _ _ _ _ _ _ Hat) as Hrb.
  destruct Hat as (Hpa & Hix & _ & _). unfold half_dequeued_block. apply runs_bind, runs_get.
  rewrite (pa_head _ _ _ _ _ _ _ _ Hpa), aligned_mod.
  destruct (Z.eqb_spec (H mod BLOCK_SIZE) 0) as [|Hal]; [by apply runs_ret|].
  assert (Hu : 1 ≤ zlen used).
  { rewrite (pa_length _ _ _ _ _ _ _ _ Hpa).
    pose proof (in_use_div H (zlen xs) (zlen_nonneg xs)). pose proof (zlen_nonneg xs).
    pose proof (Z.div_mod H BLOCK_SIZE block_size_ne).
    pose proof (Z.mod_pos_bound H BLOCK_SIZE block_size_pos). nia. }
  destruct (blockIndex e) as [|i l] eqn:Ei.
  { pose proof (pa_index _ _ _ _ _ _ _ _ Hpa Ei) as Hn. rewrite app_nil_r in Hn.
    apply app_eq_nil in Hn as [_ ->]. by unfold zlen in Hu. }
  pose proof (index_at_some _ _ _ _ _ _ Ei Hix) as Hhd.
  pose proof (hd_slots _ _ _ _ _ Hhd) as Hsl. pose proof (hd_pow _ _ _ _ _ Hhd) as [Hpow _].
  pose proof (pa_slots _ _ _ _ _ _ _ _ Hpa) as [_ Hs]. rewrite app_nil_r in Hs.
  pose proof (hd_size _ _ _ _ _ Hhd) as [_ Hlen]. pose proof block_size_pos.
  pose proof ok_block as [? _].
  apply runs_bind. unfold current_index. apply runs_bind, runs_get. rewrite Ei. apply runs_ret.
  apply runs_bind, runs_self, runs_bind. rewrite mask_mod by done.
  pose proof (skip_dequeued_runs e i _ used H _ (Z.to_nat (pr_blockIndexSlotsUsed e - zlen used))
    (S (length (entries i))) Hhd eq_refl eq_refl Hal Hu) as Hskip.
  rewrite Z2Nat.id in Hskip by lia.
  replace (pr_blockIndexFront e - zlen used - (pr_blockIndexSlotsUsed e - zlen used))
    with (pr_blockIndexFront e - pr_blockIndexSlotsUsed e) in Hskip by lia.
  eapply runs_lift; [apply Hskip; [lia|nia|lia]|].
  destruct used as [|p used]; [by unfold zlen in Hu|].
  pose proof (hd_used _ _ _ _ _ Hhd 0%nat p eq_refl) as He. rewrite Z.add_0_r in He.
  apply runs_bind. eapply runs_lift; [by apply entry_at_Some|]. apply runs_bind, cq_runs_massert.
  - pose proof (head_div H). pose proof block_size_pow2 as [_ Hbs].
    rewrite Z.add_0_r. simpl. rewrite circular_less_than_spec by lia. apply Z.ltb_lt.
    pose proof (Z.div_mod H BLOCK_SIZE block_size_ne).
    pose proof (Z.mod_pos_bound H BLOCK_SIZE block_size_pos). lia.
  - by apply runs_ret.
Qed.

(** ** The elements of a block *)

Lemma runs_destroy_element m p b x i (Qr : () → Memory T → Prop) Qt F :
  blocks m !! p = Some b → elements b !! Z.to_nat (offset_of i) = Some (Some x) →
  Qr tt (set_blocks (<[p := set_elements (<[Z.to_nat (offset_of i) := None]> (elements b)) b]> (blocks m)) m) →
  runs (destroy_element (X := X) p i) m Qr Qt F.
Proof.
  intros Hb Hx HQ. apply runs_bind. unfold runs at 1, element_at.
  rewrite Hb, (vector_at_Some _ _ _ Hx). by apply cq_runs_modify_block with b.
Qed.

(** The elements from [i] to [stop] are gone. *)
Definition swept b b' (i stop : Z) : Prop :=
  next b' = next b ∧ block_freeListRefs b' = block_freeListRefs b ∧
  dynamicallyAllocated b' = dynamicallyAllocated b ∧ emptyFlags b' = emptyFlags b ∧
  length (elements b') = length (elements b) ∧
  ∀ j, 0 ≤ j < BLOCK_SIZE → elements b' !! Z.to_nat j =
    if (i <=? j) && (j <? stop) then Some None else elements b !! Z.to_nat j.

Lemma cq_destroy_elements_runs m p b is_tail last i (n : nat) (Qr : () → Memory T → Prop) Qt F : ∀ fuel,
  blocks m !! p = Some b → 0 ≤ i → length (elements b) = Z.to_nat BLOCK_SIZE →
  let stop := if (is_tail : bool) then Z.min last BLOCK_SIZE else BLOCK_SIZE in
  stop = i + Z.of_nat n → (n ≤ fuel)%nat →
  (∀ j, i ≤ j < stop → ∃ x, elements b !! Z.to_nat j = Some (Some x)) →
  (∀ b', swept b b' i stop → Qr tt (set_blocks (<[p := b']> (blocks m)) m)) →
  runs (destroy_elements (X := X) fuel p is_tail i last) m Qr Qt F.
Proof.
  intros fuel Hb Hi Hlen stop Hstop Hfuel Hx HQ.
  pose proof block_size_pow2 as [_ Hbs]. assert (Hle : stop ≤ BLOCK_SIZE) by (unfold stop; destruct is_tail; lia).
  revert fuel m b i Hb Hi Hlen Hstop Hfuel Hx HQ.
  induction n as [|n IH]; intros fuel m b i Hb Hi Hlen Hstop Hfuel Hx HQ.
  - assert (Hend : (i =? BLOCK_SIZE) || is_tail && (i =? last) = true).
    { apply orb_true_iff. rewrite andb_true_iff, !Z.eqb_eq. unfold stop in Hstop.
      destruct is_tail; [|left; lia]. destruct (Z.min_spec last BLOCK_SIZE) as [[? ?]|[? ?]]; [right|left]; lia. }
    assert (Hq : Qr tt m).
    { rewrite <- (set_blocks_same m p b Hb). apply HQ. split_and!; [done..|].
      intros j Hj. destruct (Z.leb_spec i j), (Z.ltb_spec j stop); try done; lia. }
    destruct fuel; simpl; rewrite Hend; by apply runs_ret.
  - destruct fuel as [|fuel]; [lia|]. simpl.
    assert (Hend : (i =? BLOCK_SIZE) || is_tail && (i =? last) = false).
    { apply orb_false_iff. rewrite andb_false_iff, !Z.eqb_neq. unfold stop in Hstop.
      split; [lia|]. destruct is_tail; [right; lia|by left]. }
    rewrite Hend. destruct (Hx i) as [x Hxi]; [lia|].
    assert (Hslot : offset_of i = i)
      by (rewrite <- (u64_small i) at 1 by lia; rewrite offset_of_mod; apply Z.mod_small; lia).
    apply runs_bind. eapply runs_destroy_element; [done|by rewrite Hslot|]. rewrite Hslot, u64_small by lia.
    eapply (IH fuel _ (set_elements (<[Z.to_nat i := None]> (elements b)) b));
      [by apply lookup_insert_eq|lia|by simpl; rewrite length_insert|lia|lia| |].
    + intros j Hj. simpl. rewrite list_lookup_insert_ne by lia. apply Hx. lia.
    + intros b' (Hn & Hr & Hd & Hf & Hl & He). rewrite insert_blocks. apply HQ.
      simpl in Hl. rewrite length_insert in Hl. split_and!; [done..|].
      intros j Hj. rewrite He by done. simpl.
      destruct (decide (j = i)) as [->|Hne].
      * rewrite list_lookup_insert_eq by (rewrite Hlen; lia).
        by rewrite Z.leb_refl, (proj2 (Z.leb_gt (i + 1) i)), (proj2 (Z.ltb_lt i stop)) by lia.
      * rewrite list_lookup_insert_ne by lia.
        destruct (Z.leb_spec (i + 1) j), (Z.leb_spec i j), (Z.ltb_spec j stop); try done; lia.
Qed.

(** Nothing is left of the elements of a block that is in use. *)
Lemma sweep_block_runs m p b n H xs (is_tail : bool) (Qr : () → Memory T → Prop) Qt F :
  blocks m !! p = Some b → block_at b n H xs → H < (n + 1) * BLOCK_SIZE →
  n * BLOCK_SIZE ≤ H + zlen xs →
  (if is_tail then n * BLOCK_SIZE < H + zlen xs ≤ (n + 1) * BLOCK_SIZE
   else (n + 1) * BLOCK_SIZE ≤ H + zlen xs) →
  (∀ b', next b' = next b → block_freeListRefs b' = block_freeListRefs b →
     dynamicallyAllocated b' = dynamicallyAllocated b → unused b' →
     Qr tt (set_blocks (<[p := b']> (blocks m)) m)) →
  runs (destroy_elements (X := X) (Z.to_nat BLOCK_SIZE) p is_tail (Z.max 0 (H - n * BLOCK_SIZE))
    (if (H + zlen xs) mod BLOCK_SIZE =? 0 then BLOCK_SIZE else (H + zlen xs) mod BLOCK_SIZE)) m Qr Qt F.
Proof.
  intros Hb Hat Hlo Hhi Htail HQ. pose proof block_size_pos. pose proof (zlen_nonneg xs).
  set (last := if (H + zlen xs) mod BLOCK_SIZE =? 0 then _ else _).
  set (i := Z.max 0 (H - n * BLOCK_SIZE)).
  set (stop := if is_tail then Z.min last BLOCK_SIZE else BLOCK_SIZE).
  assert (Hstop : stop = Z.min (H + zlen xs - n * BLOCK_SIZE) BLOCK_SIZE ∧ i ≤ stop).
  { unfold stop, last, i. pose proof (Z.div_mod (H + zlen xs) BLOCK_SIZE block_size_ne) as Hdm.
    pose proof (Z.mod_pos_bound (H + zlen xs) BLOCK_SIZE block_size_pos) as Hm.
    destruct is_tail; [|lia]. set (d := (H + zlen xs) / BLOCK_SIZE) in *.
    set (r := (H + zlen xs) mod BLOCK_SIZE) in *.
    destruct (Z.eqb_spec r 0).
    - assert (d = n + 1) by nia. lia.
    - assert (d = n) by nia. lia. }
  destruct Hstop as [Hstop Hle]. pose proof Hat as [Hl Hs He].
  eapply (cq_destroy_elements_runs m p b is_tail last i (Z.to_nat (stop - i)));
    [done|lia|done|fold stop; lia|lia|..].
  - fold stop. intros j Hj. destruct (Hs j) as (o & Ho & Hok); [lia|].
    unfold item in Hok. rewrite (proj2 (Z.ltb_ge _ _)) in Hok by lia.
    destruct (lookup_lt_is_Some_2 xs (Z.to_nat (n * BLOCK_SIZE + j - H))) as [x Hx];
      [unfold zlen in *; lia|]. rewrite Hx in Hok. simpl in Hok. subst o. by exists x.
  - fold stop. intros b' (Hn & Hr & Hd & Hf & Hlen & Hsw). apply HQ; [done..|]. split_and!.
    + congruence.
    + intros Hu. rewrite Hf. by apply (block_at_flags b n H xs).
    + apply Forall_lookup. intros k o Hk. pose proof (lookup_lt_Some _ _ _ Hk) as Hlt.
      rewrite <- (Nat2Z.id k) in Hk. rewrite Hsw in Hk by lia.
      destruct ((i <=? Z.of_nat k) && (Z.of_nat k <? stop)) eqn:Er; [injection Hk as <-; by left|].
      destruct (Hs (Z.of_nat k)) as (o' & Ho' & Hok); [lia|]. assert (o' = o) as -> by congruence.
      rewrite item_None in Hok; [done|].
      apply andb_false_iff in Er. rewrite Z.leb_gt, Z.ltb_ge in Er. lia.
Qed.

(** ** The ring *)
Section ring.
Context (e : ExplicitProducer) (m0 : Memory T) (q : BlockPool) (owned hdrs : gset nat).
Context (idle : list (nat * bool)) (used : list nat) (H : Z) (xs : list T).
Context (Hat : explicit_at true e m0 q owned hdrs idle used H xs).
#[local] Abbreviation all := (idle.*1 ++ used).

Definition half : nat := if H mod BLOCK_SIZE =? 0 then 0%nat else hd 0%nat used.

(** What the loop does with one block. *)
Definition sweep (p : nat) : M X (Memory T) unit :=
  e_ ← block_is_empty explicit_context p;
  if (e_ : bool) then mret tt
  else
    let i := if bool_decide (p = half) then Z.land (headIndex e) (BLOCK_SIZE - 1) else 0 in
    let lastValidIndex :=
      if Z.land (tailIndex e) (BLOCK_SIZE - 1) =? 0 then BLOCK_SIZE
      else Z.land (tailIndex e) (BLOCK_SIZE - 1) in
    destroy_elements (Z.to_nat BLOCK_SIZE) p (bool_decide (p = tailBlock e)) i lastValidIndex.

Lemma sweep_start (j p : nat) : used !! j = Some p →
  (if bool_decide (p = half) then Z.land (headIndex e) (BLOCK_SIZE - 1) else 0)
    = Z.max 0 (H - (H / BLOCK_SIZE + Z.of_nat j) * BLOCK_SIZE).
Proof.
  intros Hj. destruct Hat as (Hpa & _ & _ & Hma). pose proof (pa_nodup _ _ _ _ _ _ _ _ Hpa) as Hnd.
  rewrite app_nil_r in Hnd. apply NoDup_app in Hnd as (_ & _ & Hnd).
  assert (Hp0 : p ≠ 0%nat).
  { eapply (memory_at_lookup _ _ _ _ _ _ _ Hma). rewrite elem_of_app. right. by eapply list_elem_of_lookup_2. }
  pose proof (Z.div_mod H BLOCK_SIZE block_size_ne). pose proof block_size_pos.
  pose proof (Z.mod_pos_bound H BLOCK_SIZE block_size_pos).
  rewrite (pa_head _ _ _ _ _ _ _ _ Hpa), mask_mod' by apply block_size_pow2. unfold half.
  destruct j as [|j].
  - destruct used as [|p' used']; [done|]. injection Hj as ->. rewrite Z.add_0_r. simpl.
    destruct (Z.eqb_spec (H mod BLOCK_SIZE) 0).
    + rewrite bool_decide_eq_false_2 by done. lia.
    + rewrite bool_decide_eq_true_2 by done. lia.
  - rewrite bool_decide_eq_false_2; [nia|]. destruct (_ =? 0); [done|]. intros ->.
    destruct used as [|p' used']; [done|]. simpl in Hj. apply NoDup_cons in Hnd as [Hnd _].
    apply Hnd. by eapply list_elem_of_lookup_2.
Qed.

Lemma sweep_end (j p : nat) : used !! j = Some p →
  let n := H / BLOCK_SIZE + Z.of_nat j in
  if bool_decide (p = tailBlock e) then n * BLOCK_SIZE < H + zlen xs ≤ (n + 1) * BLOCK_SIZE
  else (n + 1) * BLOCK_SIZE ≤ H + zlen xs.
Proof.
  intros Hj n. destruct Hat as (Hpa & _ & _ & _). pose proof (pa_nodup _ _ _ _ _ _ _ _ Hpa) as Hnd.
  rewrite app_nil_r in Hnd. apply NoDup_app in Hnd as (_ & _ & Hnd). pose proof block_size_pos.
  pose proof (in_use_div H (zlen xs) (zlen_nonneg xs)) as Hd. pose proof (lookup_lt_Some _ _ _ Hj) as Hlt.
  rewrite <- (pa_length _ _ _ _ _ _ _ _ Hpa) in Hd.
  destruct used as [|t used' _] using rev_ind; [done|].
  rewrite (tail_is_last _ _ _ _ _ _ _ _ t (idle.*1 ++ used') Hpa) by (by rewrite app_nil_r, app_assoc).
  rewrite zlen_app in Hd. replace (zlen [t]) with 1 in Hd by done.
  assert (Hz : zlen used' = Z.of_nat (length used')) by done.
  rewrite length_app in Hlt. simpl in Hlt.
  assert (Hlast : (used' ++ [t]) !! length used' = Some t) by (by rewrite lookup_app_r, Nat.sub_diag).
  destruct (decide (p = t)) as [->|Hne].
  - rewrite bool_decide_eq_true_2 by done. assert (j = length used') as -> by (by eapply NoDup_lookup).
    unfold n. rewrite <- Hz. lia.
  - rewrite bool_decide_eq_false_2 by done. assert (j ≠ length used') by congruence. unfold n.
    assert (Z.of_nat j + 1 ≤ zlen used') by lia. nia.
Qed.

Lemma sweep_runs m p (Qr : () → Memory T → Prop) Qt F :
  p ∈ all → blocks m !! p = blocks m0 !! p →
  (∀ b b', blocks m !! p = Some b → next b' = next b → block_freeListRefs b' = block_freeListRefs b →
     dynamicallyAllocated b' = dynamicallyAllocated b → unused b' →
     Qr tt (set_blocks (<[p := b']> (blocks m)) m)) →
  runs (sweep p) m Qr Qt F.
Proof.
  intros Hp Hsame HQ. pose proof Hat as (Hpa & _ & _ & _). unfold sweep. apply runs_bind.
  pose proof block_size_pos.
  apply elem_of_app in Hp as [Hp|Hp].
  - apply list_elem_of_fmap in Hp as ([p' f] & -> & Hp). simpl in *.
    pose proof (pa_clean _ _ _ _ _ _ _ _ Hpa eq_refl) as Hcl.
    pose proof (proj1 (Forall_forall _ _) Hcl _ Hp) as Hf. simpl in Hf. subst f.
    destruct (pa_idle _ _ _ _ _ _ _ _ Hpa p' true Hp) as (b & d & Hb & Hun & Hd & He & Hf).
    rewrite <- Hsame in Hb. eapply runs_block_is_empty; [done..|].
    rewrite (proj1 Hf eq_refl), Z.eqb_refl. apply runs_ret.
    rewrite <- (set_blocks_same m p' b Hb). by apply (HQ b).
  - apply list_elem_of_lookup in Hp as [j Hj].
    destruct (pa_used _ _ _ _ _ _ _ _ Hpa j p Hj) as (b & Hb & Hba). rewrite <- Hsame in Hb.
    pose proof (head_div H). pose proof (sweep_end j p Hj) as Hend. cbv zeta in Hend.
    eapply runs_block_is_empty; [done| |eapply ba_emptied, Hba|]; [nia|].
    rewrite (proj2 (Z.eqb_neq _ _)) by nia. rewrite (sweep_start j p Hj).
    rewrite (pa_tail _ _ _ _ _ _ _ _ Hpa), mask_mod' by apply block_size_pow2.
    eapply sweep_block_runs; [exact Hb|exact Hba|nia| |exact Hend|intros b' **; by apply (HQ b)].
    destruct (bool_decide _); nia.
Qed.

(** All around the ring: [l] has been done, [k] is to do, and [p] is before [k]. *)
Definition done_with m (l : list nat) : Prop := ∀ p, p ∈ l → ∃ b, blocks m !! p = Some b ∧ unused b.

Lemma destroy_all_runs (Qr : () → Memory T → Prop) Qt F k : ∀ l p fuel m,
  l ++ k = all → k ≠ [] → (length k ≤ fuel)%nat → p = List.last (all ++ l) 0%nat → 
  memory_at m q all (raws_of e) owned hdrs → ring (blocks m) all →
  frame owned m0 m → done_with m l → (∀ p, p ∈ k → blocks m !! p = blocks m0 !! p) →
  (∀ m', memory_at m' q all (raws_of e) owned hdrs → ring (blocks m') all →
     frame owned m0 m' → done_with m' all → Qr tt m') →
  runs (destroy_all_elements (X := X) fuel e half p) m Qr Qt F.
Proof.
  pose proof Hat as (Hpa & _ & _ & _). pose proof (pa_nodup _ _ _ _ _ _ _ _ Hpa) as Hnd.
  pose proof (pa_tailBlock _ _ _ _ _ _ _ _ Hpa) as Ht. rewrite app_nil_r in Hnd, Ht.
  induction k as [|a k IH]; intros l p fuel m Hall Hk Hfuel Hp Hma Hring Hfr Hdone Hsame HQ; [done|].
  destruct fuel as [|fuel]; [simpl in Hfuel; lia|]. simpl.
  assert (Hpin : p ∈ all ∧ (∀ c, blocks m !! p = Some c → next c = a)).
  { destruct l as [|l0 l' _] using rev_ind.
    - simpl in Hall. rewrite app_nil_r in Hp. subst p. split; [apply (ring_nonempty_last _ a); rewrite <- Hall; by left|].
      intros c Hc. destruct (exists_last (l := all)) as (r & t & Er); [by rewrite <- Hall|].
      rewrite Er in Hring, Hc. rewrite last_snoc' in Hc. rewrite (ring_next _ _ _ _ Hring Hc).
      rewrite Er in Hall. destruct r; simpl in *; congruence.
    - rewrite app_assoc, last_snoc' in Hp. subst p. split; [rewrite <- Hall; set_solver|].
      intros c Hc. unfold ring in Hring. rewrite <- Hall, <- app_assoc in Hring at 1.
      apply links_app in Hring as [_ [(c' & Hc' & Hn) _]]. simpl in Hn. congruence. }
  destruct Hpin as [Hpin Hnext]. destruct (memory_at_lookup _ _ _ _ _ _ _ Hma Hpin) as [[c Hc] _].
  apply runs_bind. eapply runs_load_block; [done|]. rewrite (Hnext c Hc).
  assert (Ha : a ∈ all) by (rewrite <- Hall; set_solver).
  apply (runs_bind_assoc (block_is_empty explicit_context a)), runs_bind.
  eapply (sweep_runs m a); [done|by apply Hsame; left|]. intros b b' Hb Hn Hr Hd Hun.
  set (m' := set_blocks (<[a := b']> (blocks m)) m).
  assert (Hma' : memory_at m' q all (raws_of e) owned hdrs) by by eapply memory_at_update.
  assert (Hring' : ring (blocks m') all) by by eapply links_update.
  assert (Hfr' : frame owned m0 m').
  { eapply frame_trans; [done|]. by apply frame_update, (ma_ring _ _ _ _ _ _ Hma). }
  assert (Hdone' : done_with m' (l ++ [a])).
  { intros p' [Hp'| ->%list_elem_of_singleton]%elem_of_app; unfold m'; simpl.
    - rewrite <- Hall in Hnd. apply NoDup_app in Hnd as (_ & Hla & _).
      rewrite lookup_insert_ne by (intros <-; apply (Hla _ Hp'); by left). by apply Hdone.
    - exists b'. by rewrite lookup_insert_eq. }
  rewrite (app_assoc l [a] k : l ++ a :: k = _) in Hall.
  destruct k as [|c' k].
  - rewrite app_nil_r in Hall. rewrite bool_decide_eq_true_2 by (by rewrite Ht, <- Hall, last_snoc').
    apply runs_ret, HQ; [done..|by rewrite <- Hall].
  - assert (a ≠ tailBlock e).
    { rewrite Ht, <- Hall, last_app_ne by done. intros Heq. rewrite <- Hall in Hnd.
      apply NoDup_app in Hnd as (_ & Hla & _). apply (Hla a); [set_solver|].
      rewrite Heq. apply (ring_nonempty_last _ c'). by left. }
    rewrite bool_decide_eq_false_2 by done.
    eapply (IH (l ++ [a])); [done|done|simpl in *; lia| |done..| |done].
    + by rewrite app_assoc, last_snoc'.
    + intros p' Hp'. unfold m'. simpl. rewrite <- Hall in Hnd.
      apply NoDup_app in Hnd as (_ & Hla & _).
      rewrite lookup_insert_ne by (intros <-; apply (Hla a); [set_solver|done]).
      apply Hsame. by right.
Qed.
End ring.
End sweep.

(** ** Chunks and blocks that are given back *)
Section lifecycle.
Context {TR : Traits} {OK : TraitsOk} {X T : Type} `{!CppType X T}.
#[local] Abbreviation Q := (ExplicitProducer * (Memory T * BlockPool))%type.
#[local] Abbreviation unused := (unused (X := X) (T := T)).
#[local] Abbreviation vacant := (vacant (X := X) (T := T)).
#[local] Abbreviation pool_inv := (pool_inv (X := X) (T := T)).
#[local] Abbreviation explicit_at := (explicit_at (X := X) (T := T)).
#[local] Abbreviation never := (never (A := X)).
#[local] Abbreviation free_list m q := (mkFreeList (blocks m) (pool_freeListHead q)).
Implicit Types (e : ExplicitProducer) (m : Memory T) (q : BlockPool) (p : nat) (b : Block T).
Implicit Types (owned hdrs : gset nat).

(** ** Memory that is given back *)
Definition freed m (c : gmap nat Z) (h : gmap nat (Block T)) m' : Prop :=
  blocks m' = h ∧ chunks m' = c ∧ lost m' = lost m ∧ next_address m' = next_address m ∧
  allocated m' - total c = allocated m - total (chunks m).

Lemma free_runs m p (Qr : () → Memory T → Prop) Qt F :
  is_Some (chunks m !! p) → p ≠ 0%nat →
  (∀ m', freed m (delete p (chunks m)) (blocks m) m' → Qr tt m') →
  runs (free (X := X) p) m Qr Qt F.
Proof.
  intros [n Hn] Hp HQ. unfold runs, free. rewrite bool_decide_eq_false_2, Hn by done. apply HQ.
  split_and!; [done..|]. simpl. rewrite (total_delete _ _ _ Hn). lia.
Qed.

Lemma cq_destroy_block_runs m p b (Qr : () → Memory T → Prop) Qt F :
  blocks m !! p = Some b → is_Some (chunks m !! p) → p ≠ 0%nat → Forall vacant (elements b) →
  (∀ m', freed m (delete p (chunks m)) (delete p (blocks m)) m' → Qr tt m') →
  runs (destroy_block (X := X) p) m Qr Qt F.
Proof.
  intros Hb Hc Hp Hv HQ. unfold destroy_block. rewrite bool_decide_eq_false_2 by done.
  apply runs_bind. unfold runs at 1, end_block. rewrite Hb, (losses_vacant _ Hv).
  apply free_runs; [done..|]. intros m' (Hbl & Hch & Hl & Hn & Hal). apply HQ.
  split_and!; [done|done|simpl in Hl; lia|done|exact Hal].
Qed.

Lemma accounted_freed m m' q h p :
  accounted m q → freed m (delete p (chunks m)) h m' → is_Some (chunks m !! p) →
  (initialBlockPool q = 0%nat ∨ p ≠ initialBlockPool q) →
  (∀ p' b, h !! p' = Some b → dynamicallyAllocated b = true → p' ≠ p ∧ blocks m !! p' = Some b) →
  accounted m' q.
Proof.
  intros [Htot Hmax Hsz Hbl Hpo] (Hh & Hch & _ & _ & Hal) [z Hz] Hp Hblocks.
  pose proof (total_delete _ _ _ Hz). pose proof (Hsz _ _ Hz).
  constructor; rewrite ?Hh, ?Hch; [lia|lia|..].
  - intros p' z' [_ Hz']%lookup_delete_Some. by eapply Hsz.
  - intros p' b Hb Hd. destruct (Hblocks p' b Hb Hd) as [Hne Hb'].
    rewrite lookup_delete_ne by done. by eapply Hbl.
  - intros Hne. rewrite lookup_delete_ne by naive_solver. by apply Hpo.
Qed.

Lemma pool_memory_destroyed m m' q hdrs p b :
  pool_memory m q hdrs → blocks m !! p = Some b → dynamicallyAllocated b = true →
  freed m (delete p (chunks m)) (delete p (blocks m)) m' → pool_memory m' q hdrs.
Proof.
  intros [Ha Hst Hfr Hn Hpl Hdy Hh Hc Hac] Hb Hd Hfreed. pose proof Hfreed as (Hbl & Hch & _ & Hnx & _).
  destruct (Hdy p b Hb Hd) as (Hs & Hph & Hpi).
  constructor; rewrite ?Hbl, ?Hch, ?Hnx; try done.
  - intros p' Hp'. destruct (Ha p' Hp') as (b' & Hb' & Hd'). exists b'.
    rewrite lookup_delete_ne by (intros ->; congruence). done.
  - intros p' b' [_ Hb']%lookup_delete_Some. by apply Hst.
  - intros p' Hp'. destruct (Hfr p' Hp') as [H1 H2]. by rewrite !lookup_delete_None; auto.
  - destruct Hpl as [(? & ? & ?)|(? & ? & ? & ?)]; [left|right].
    + by rewrite lookup_delete_None; auto.
    + by rewrite lookup_delete_ne by done.
  - intros p' b' [Hne Hb']%lookup_delete_Some Hd'. rewrite lookup_delete_ne by done. by eapply Hdy.
  - intros p' Hp'. rewrite lookup_delete_ne by (by intros ->). by apply Hh.
  - intros p' [n [Hne Hp']%lookup_delete_Some]. rewrite lookup_delete_ne by done.
    apply Hc. by exists n.
  - eapply accounted_freed; [done..|by right|]. by intros p' b' [? ?]%lookup_delete_Some.
Qed.

Lemma pool_memory_freed m m' q hdrs p :
  pool_memory m q ({[p]} ∪ hdrs) → p ∉ hdrs →
  freed m (delete p (chunks m)) (blocks m) m' → pool_memory m' q hdrs.
Proof.
  intros [Ha Hst Hfr Hn Hpl Hdy Hh Hc Hac] Hp Hfreed. pose proof Hfreed as (Hbl & Hch & _ & Hnx & _).
  constructor; rewrite ?Hbl, ?Hch, ?Hnx; try done.
  - intros p' Hp'. destruct (Hfr p' Hp') as [H1 H2]. by rewrite lookup_delete_None; auto.
  - destruct Hpl as [(? & ? & ?)|(? & ? & ? & ?)]; [left; by rewrite lookup_delete_None; auto|right].
    rewrite lookup_delete_ne by set_solver. split_and!; [done..|set_solver].
  - intros p' b' Hb' Hd'. destruct (Hdy p' b' Hb' Hd') as (? & ? & ?).
    rewrite lookup_delete_ne by set_solver. split_and!; [done|set_solver|done].
  - intros p' Hp'. rewrite lookup_delete_ne by (by intros ->). apply Hh. set_solver.
  - intros p' [n [Hne Hp']%lookup_delete_Some]. destruct (Hc p') as [Hin|[|]]; [by exists n| |by auto..].
    left. set_solver.
  - eapply accounted_freed; [done..|apply Hh; set_solver| |].
    + destruct Hpl as [(? & _)|(_ & _ & _ & Hnot)]; [by left|right]. intros ->. apply Hnot. set_solver.
    + intros p' b' Hb' Hd'. split; [|done]. intros ->. destruct (Hdy p b' Hb' Hd') as (_ & Hnot & _). set_solver.
Qed.

(** A producer gives up a block. *)
Lemma pool_inv_destroyed m m' q owned hdrs fl p b :
  pool_inv m q owned hdrs fl → p ∈ owned → blocks m !! p = Some b → dynamicallyAllocated b = true →
  freed m (delete p (chunks m)) (delete p (blocks m)) m' → pool_inv m' q (owned ∖ {[p]}) hdrs fl.
Proof.
  intros [Hs Hw Ho Hf Hi Hm] Hp Hb Hd Hfreed. pose proof (pool_memory_destroyed _ _ _ _ _ _ Hm Hb Hd Hfreed).
  destruct Hfreed as (Hbl & _). destruct (Ho p Hp) as (_ & Hpf & _).
  constructor; rewrite ?Hbl; try done.
  - destruct Hs as [Hz Hl Hnd Hr]. constructor; simpl in *; [| |done|].
    + by rewrite lookup_delete_None; auto.
    + eapply (linked_ext (free_list m q)); [|done]. intros p' n Hp' Hn. exists n.
      simpl in *. by rewrite lookup_delete_ne by (by intros ->).
    + intros p' n [_ Hn]%lookup_delete_Some. by apply Hr.
  - intros p' b' [Hne Hb']%lookup_delete_Some. destruct (Hw p' b' Hb'); [left; set_solver|by right].
  - intros p' [Hp' Hne]%elem_of_difference. rewrite lookup_delete_ne by set_solver. by apply Ho.
Qed.

Lemma pool_inv_freed m m' q owned hdrs fl p :
  pool_inv m q owned ({[p]} ∪ hdrs) fl → p ∉ hdrs →
  freed m (delete p (chunks m)) (blocks m) m' → pool_inv m' q owned hdrs fl.
Proof.
  intros [Hs Hw Ho Hf Hi Hm] Hp Hfreed. pose proof (pool_memory_freed _ _ _ _ _ Hm Hp Hfreed).
  destruct Hfreed as (Hbl & _). constructor; rewrite ?Hbl; done.
Qed.

(** ** [release_blocks] *)
Lemma release_blocks_runs (Qr : () → Memory T * BlockPool → Prop) Qt F owned hdrs t : ∀ fuel k a fl m q,
  (t ∉ k) → NoDup (a :: k) → (length (a :: k) ≤ fuel)%nat →
  pool_inv m q (list_to_set (a :: k) ∪ owned) hdrs fl → (∀ p, p ∈ a :: k → p ∉ owned) →
  links (blocks m) (a :: k) t → (∀ p, p ∈ a :: k → ∃ b, blocks m !! p = Some b ∧ unused b) →
  (∀ m' q' fl', frame owned m m' → pool_inv m' q' owned hdrs fl' → Qr tt (m', q')) →
  runs (release_blocks (X := X) fuel a t) (m, q) Qr Qt F.
Proof.
  induction fuel as [|fuel IH]; intros k a fl m q Ht Hnd Hfuel Hinv Hown Hlinks Hun HQ; [simpl in *; lia|].
  simpl. destruct (Hun a) as (b & Hb & Hub); [by left|].
  apply runs_bind, runs_on_fst. eapply runs_load_block; [done|].
  assert (Hao : a ∈ list_to_set (a :: k) ∪ owned) by set_solver.
  assert (Hrest : (list_to_set (a :: k) ∪ owned) ∖ {[a]} = list_to_set k ∪ owned).
  { apply NoDup_cons in Hnd as [Hnd _]. pose proof (Hown a ltac:(by left)). simpl. set_solver. }
  assert (Hnext : next b = hd t k).
  { destruct Hlinks as [(b' & Hb' & Hn) _]. congruence. }
  apply runs_bind.
  assert (Hdone : ∀ m' q' fl', frame (list_to_set k ∪ owned) m m' →
    pool_inv m' q' (list_to_set k ∪ owned) hdrs fl' →
    runs (if bool_decide (next b = t) then mret tt else release_blocks (X := X) fuel (next b) t)
      (m', q') Qr Qt F).
  { intros m' q' fl' Hfr Hinv'. rewrite Hnext. destruct k as [|c k]; simpl.
    - rewrite bool_decide_eq_true_2 by done. apply runs_ret.
      eapply HQ; [eapply frame_sub; [|done]; set_solver|].
      by replace owned with (list_to_set [] ∪ owned) by set_solver.
    - assert (c ≠ t) by set_solver. rewrite bool_decide_eq_false_2 by done.
      apply NoDup_cons in Hnd as [Hak Hnd]. destruct Hlinks as [_ Hlinks].
      assert (Hsame : ∀ p, p ∈ c :: k → blocks m' !! p = blocks m !! p) by (intros p Hp; apply Hfr; set_solver).
      eapply (IH k c fl' m' q'); [set_solver|done|simpl in *; lia|done|..].
      + intros p Hp. apply Hown. by right.
      + eapply links_ext; [exact Hlinks|]. intros p b' Hp Hb'. exists b'. by rewrite Hsame.
      + intros p Hp. rewrite Hsame by done. apply Hun. by right.
      + intros m2 q2 fl2 Hfr2. apply HQ. eapply frame_trans; [|done]. eapply frame_sub; [|done]. set_solver. }
  destruct (dynamicallyAllocated b) eqn:Ed.
  - apply runs_on_fst. destruct (pm_dynamic _ _ _ (pi_memory _ _ _ _ _ Hinv) a b Hb Ed) as (Hc & _ & _).
    destruct Hub as (Hl & Hf & Hv).
    eapply cq_destroy_block_runs; [done..|by eapply owned_not_null|done|].
    intros m' Hfreed. pose proof (pool_inv_destroyed _ _ _ _ _ _ _ _ Hinv Hao Hb Ed Hfreed) as Hinv'.
    rewrite Hrest in Hinv'. eapply Hdone; [|done]. destruct Hfreed as (Hbl & _ & Hls & _).
    split; [|done]. intros p Hp. rewrite Hbl, lookup_delete_ne; [done|]. rewrite <- Hrest in Hp. set_solver.
  - apply runs_on_free_list. eapply runs_equal.
    { apply (add_runs (X := X) 0 (free_list m q) a b Hb). by eapply owned_refs. }
    pose proof (pool_inv_pushed _ _ _ _ _ _ _ Hinv Hb Hao Hub) as Hinv'. rewrite Hrest in Hinv'.
    eapply Hdone; [|exact Hinv']. split; [|done]. intros p Hp. simpl.
    rewrite lookup_insert_ne; [done|]. rewrite <- Hrest in Hp. set_solver.
Qed.

(** ** The destructor of a producer *)
Fixpoint free_all (l : list nat) : M X (Memory T) unit :=
  match l with
  | [] => mret tt
  | p :: l => free p ;; free_all l
  end.

Lemma free_headers_all l : free_headers (X := X) (T := T) l = free_all (header_raw <$> l).
Proof. induction l as [|h l IH]; [done|]. simpl. by rewrite IH. Qed.

Lemma free_all_runs (l : list nat) owned hdrs fl q (Qr : () → Memory T → Prop) Qt F : ∀ m,
  pool_inv m q owned (list_to_set l ∪ hdrs) fl → NoDup l → (∀ p, p ∈ l → p ∉ hdrs) →
  (∀ m', frame owned m m' → pool_inv m' q owned hdrs fl → Qr tt m') →
  runs (free_all l) m Qr Qt F.
Proof.
  induction l as [|h l IH]; intros m Hinv Hnd Hout HQ; simpl.
  - apply runs_ret, HQ; [done|]. by replace hdrs with (list_to_set [] ∪ hdrs) by set_solver.
  - simpl in *. apply NoDup_cons in Hnd as [Hh Hnd].
    destruct (pm_hdrs _ _ _ (pi_memory _ _ _ _ _ Hinv) h) as [Hc Hne]; [set_solver|].
    apply runs_bind. eapply free_runs; [done..|]. intros m' Hfreed.
    rewrite <- (assoc_L _) in Hinv.
    pose proof (pool_inv_freed _ _ _ _ _ _ _ Hinv ltac:(set_solver) Hfreed) as Hinv'.
    destruct Hfreed as (Hb & _ & Hl & _).
    apply IH; [done..|set_solver|]. intros m2 Hfr2. apply HQ.
    eapply frame_trans; [by apply frame_blocks|done].
Qed.

Lemma explicit_dtor_runs e m q owned hdrs idle used H xs (Qr : () → Q → Prop) Qt F :
  explicit_at true e m q owned hdrs idle used H xs →
  (∀ e' m' q' fl, frame owned m m' → pool_inv m' q' owned hdrs fl → Qr tt (e', (m', q'))) →
  runs (explicit_dtor (X := X)) (e, (m, q)) Qr Qt F.
Proof.
  intros Hat HQ. pose proof Hat as (Hpa & _ & _ & Hma). unfold explicit_dtor.
  apply runs_bind, runs_get, runs_bind, runs_on_memory, runs_gets, runs_bind.
  assert (Hheaders : ∀ m' q' fl, frame owned m m' →
    pool_inv m' q' owned (list_to_set (raws_of e) ∪ hdrs) fl →
    runs (l ← get blockIndex; on_memory (free_headers l)) (e, (m', q')) Qr Qt F).
  { intros m' q' fl Hfr Hinv. apply runs_bind, runs_get, runs_on_memory.
    rewrite free_headers_all. eapply free_all_runs; [done|apply (ma_nodup _ _ _ _ _ _ Hma)|apply (ma_raws _ _ _ _ _ _ Hma)|].
    intros m2 Hfr2 Hinv2. eapply HQ; [|done]. by eapply frame_trans. }
  pose proof (pa_tailBlock _ _ _ _ _ _ _ _ Hpa) as Ht. pose proof (pa_ring _ _ _ _ _ _ _ _ Hpa) as Hring.
  pose proof (pa_nodup _ _ _ _ _ _ _ _ Hpa) as Hnd. rewrite app_nil_r in Ht, Hring, Hnd.
  destruct (decide (idle.*1 ++ used = [])) as [Hnil|Hne].
  - rewrite Ht, Hnil. apply runs_ret. destruct (ma_pool _ _ _ _ _ _ Hma) as [fl Hinv]. rewrite Hnil in Hinv.
    eapply Hheaders; [done|]. by replace owned with (list_to_set [] ∪ owned) by set_solver.
  - assert (Hin : tailBlock e ∈ idle.*1 ++ used).
    { rewrite Ht. destruct (idle.*1 ++ used) as [|a r] eqn:Er; [done|]. apply (ring_nonempty_last _ a). by left. }
    rewrite bool_decide_eq_false_2 by by eapply memory_at_lookup.
    pose proof (links_size _ _ _ Hring Hnd) as Hsize.
    apply runs_bind. eapply half_dequeued_runs; [done|]. apply runs_bind, runs_self, runs_bind, runs_on_memory.
    eapply (destroy_all_runs e m q owned hdrs idle used H xs Hat _ _ _ (idle.*1 ++ used) []);
      [done|done|done|by rewrite app_nil_r|done|done|done|by intros ? ?%elem_of_nil|done|].
    intros m' Hma' Hring' Hfr' Hdone'. apply runs_on_pool.
    destruct (exists_last Hne) as (r & t & Er). rewrite Er in *. rewrite last_snoc' in Ht. rewrite Ht.
    destruct (ma_pool _ _ _ _ _ _ Hma') as [fl Hinv'].
    apply NoDup_app in Hnd as (Hnd & Hrt & _).
    eapply (release_blocks_runs _ _ _ owned _ t _ r t fl).
    + intros Hx. apply (Hrt t Hx). set_solver.
    + apply NoDup_cons. split; [intros Hx; apply (Hrt t Hx); set_solver|done].
    + rewrite length_app in Hsize. simpl in *. lia.
    + replace (list_to_set (t :: r) : gset nat) with (list_to_set (r ++ [t]) : gset nat) by set_solver.
      exact Hinv'.
    + intros p Hp. apply (ma_ring _ _ _ _ _ _ Hma'). set_solver.
    + pose proof (ring_rotate_back _ _ _ Hring') as Hl. exact Hl.
    + intros p Hp. apply Hdone'. set_solver.
    + intros m2 q2 fl2 Hfr2 Hinv2. eapply Hheaders; [|done]. by eapply frame_trans.
Qed.

(** ** The constructor of a producer *)
Lemma ceil_to_pow_2_eq x : 1 ≤ x ≤ 2 ^ 63 → ceil_to_pow_2 x = 2 ^ Z.log2_up x.
Proof. intros Hx. rewrite <- ceilToPow2_eq by done. reflexivity. Qed.

(** Half of the size of the first index. *)
Definition initial_index (n : Z) : Z :=
  Z.max (EXPLICIT_INITIAL_INDEX_SIZE / 2) (ceil_to_pow_2 n / 2).

Lemma initial_index_ok n : 0 ≤ n → n * sizeof_Block ≤ 2 ^ 63 →
  pow2 (initial_index n) ∧ 2 * initial_index n * BLOCK_SIZE ≤ 2 ^ 64 ∧
  2 * initial_index n * sizeof_BlockIndexEntry ≤ 2 ^ 63.
Proof.
  intros Hn Hle. pose proof index_size_pow2 as [(k & Hk & Hi) Hi2]. pose proof ok_index_blocks.
  pose proof ok_index_bytes. pose proof block_size_pos. pose proof ok_block as [? ?]. pose proof ok_entry.
  pose proof ok_index_size as [_ Hi64].
  assert (Hk1 : 1 ≤ k) by (destruct (decide (k = 0)) as [->|]; simpl in *; lia).
  assert (Hhalf : EXPLICIT_INITIAL_INDEX_SIZE / 2 = 2 ^ (k - 1)).
  { rewrite Hi. replace k with (1 + (k - 1)) at 1 by lia. rewrite Z.pow_add_r by lia.
    rewrite Z.mul_comm. by apply Z.div_mul. }
  assert (Hdouble : 2 * 2 ^ (k - 1) = EXPLICIT_INITIAL_INDEX_SIZE).
  { rewrite Hi. replace k with (1 + (k - 1)) at 2 by lia. by rewrite Z.pow_add_r by lia. }
  assert (Hfirst : pow2 (EXPLICIT_INITIAL_INDEX_SIZE / 2)) by (rewrite Hhalf; exists (k - 1); split; [lia|done]).
  unfold initial_index. destruct (decide (n ≤ 1)) as [Hsmall|Hbig].
  - assert (Hz : ceil_to_pow_2 n / 2 = 0) by (assert (n = 0 ∨ n = 1) as [-> | ->] by lia; reflexivity).
    rewrite Hz, Z.max_l by lia. rewrite Hhalf at 2 3. rewrite Hdouble. by split_and!.
  - rewrite ceil_to_pow_2_eq by nia. pose proof (Z.log2_up_spec n ltac:(lia)) as [Hlo Hhi].
    pose proof (Z.log2_up_pos n ltac:(lia)) as Hpos. set (j := Z.log2_up n) in *.
    assert (Hj : 2 ^ j = 2 * 2 ^ (j - 1)).
    { replace j with (1 + (j - 1)) at 1 by lia. by rewrite Z.pow_add_r by lia. }
    assert (Hj2 : 2 ^ j / 2 = 2 ^ (j - 1)) by (rewrite Hj, Z.mul_comm; by apply Z.div_mul).
    rewrite <- Z.sub_1_r in Hlo. rewrite Hj2.
    assert (Hpow : pow2 (2 ^ (j - 1))).
    { exists (j - 1). split; [|done]. split; [lia|]. apply (Z.pow_le_mono_r_iff 2); [lia..|]. nia. }
    destruct (Z.max_spec (EXPLICIT_INITIAL_INDEX_SIZE / 2) (2 ^ (j - 1))) as [[_ ->]|[_ ->]].
    + split_and!; [done|nia|nia].
    + rewrite Hhalf at 2 3. rewrite Hdouble. by split_and!.
Qed.

Lemma within_limit_0 : within_limit 0.
Proof.
  destruct max_subqueue_size as [Hm|(n & Hn & Hm & _)]; [by left|right]. rewrite Hm.
  pose proof block_size_pos. nia.
Qed.

Lemma explicit_ctor_runs m q owned hdrs fl :
  pool_inv m q owned hdrs fl → pool_bytes m q →
  runs (explicit_ctor (X := X)) (raw_explicit, (m, q))
    (λ _ '(e, (m', q')), q' = q ∧ frame owned m m' ∧ explicit_at true e m' q owned hdrs [] [] 0 [])
    never no_fault.
Proof.
  intros Hinv Hby. pose proof (pi_index _ _ _ _ _ Hinv) as Hi.
  destruct (initial_index_ok (initialBlockPoolSize q)) as (Hpow & Hblk & Hent); [lia|destruct Hby; pose proof ok_block; pose proof block_size_pos; nia|].
  unfold explicit_ctor. apply runs_bind, runs_put, runs_bind, runs_on_pool, runs_on_snd, runs_gets.
  apply runs_bind, runs_get. simpl. rewrite !Z.shiftr_div_pow2 by lia. change (2 ^ 1) with 2.
  set (e0 := set_indexSize (initial_index (initialBlockPoolSize q)) raw_explicit).
  apply runs_bind.
  assert (Hstart : runs (new_block_index (X := X) 0 ;; mret tt) (e0, (m, q))
    (λ _ '(e, (m', q')), q' = q ∧ frame owned m m' ∧ explicit_at true e m' q owned hdrs [] [] 0 [])
    never no_fault).
  { apply runs_bind.
    assert (Hix : index_at true e0 (0 / BLOCK_SIZE) []) by (unfold index_at; simpl; by split_and!).
    assert (Hpa : ∀ e, producer_base e = producer_base raw_explicit → pr_blockIndexSlotsUsed e = 0 →
      producer_at (X := X) (T := T) true e (blocks m) [] [] [] 0 []).
    { intros e Hb Hs. constructor; rewrite ?Hb, ?Hs; try done.
      - constructor.
      - by intros ? ? ?%elem_of_nil.
      - by intros ? ?%elem_of_nil.
      - unfold blocks_in_use. simpl. pose proof block_size_pos. symmetry.
        rewrite (Z.div_0_l BLOCK_SIZE) by lia. rewrite Z.div_small; [done|lia].
      - split; [|left]; exact within_limit_0. }
    eapply runs_mono; [by eapply (new_block_index_runs true)|..]; [|done..].
    intros ok [e' [m' q']] (-> & Hb & Hl & Hby' & Hcase). apply runs_ret.
    split_and!; [done|by apply frame_blocks|].
    destruct Hcase as [(-> & -> & Hmem & Hinv')|(-> & i & Ei & Hnew & Hinv' & Hhd & Hfr & Hbase & Hslots & Hsize & Hf)].
    - split_and!; [by rewrite Hb; apply Hpa|done|done|].
      constructor; [|done|by intros ? ?%elem_of_nil..|constructor].
      exists fl. simpl. by rewrite !(left_id_L ∅ (∪)).
    - split_and!; [by rewrite Hb; apply Hpa| | |].
      + unfold index_at. by rewrite Ei.
      + by intros ? ? _ [].
      + constructor; [|done|by intros ? ?%elem_of_nil|..]; unfold raws_of; rewrite Ei; simpl.
        * exists fl. by rewrite (left_id_L ∅ (∪)), (right_id_L ∅ (∪)).
        * by intros p ->%list_elem_of_singleton.
        * apply NoDup_singleton. }
  destruct (Z.ltb_spec (EXPLICIT_INITIAL_INDEX_SIZE / 2) (ceil_to_pow_2 (initialBlockPoolSize q) / 2)).
  - apply runs_put. unfold e0, initial_index in Hstart. rewrite Z.max_r in Hstart by lia. exact Hstart.
  - apply runs_ret. unfold e0, initial_index in Hstart. rewrite Z.max_l in Hstart by lia. exact Hstart.
Qed.
End lifecycle.

(** ** The pool: the initial array of blocks, and the end

    What [populate_initial_block_list] makes satisfies the invariant of the pool, and when
    the producers have given back their blocks [destroy_pool] frees everything there is. *)
Section pool.
Context {TR : Traits} {OK : TraitsOk} {X T : Type} `{!CppType X T}.
#[local] Abbreviation Mem := (Memory T).
#[local] Abbreviation unused := (unused (X := X) (T := T)).
#[local] Abbreviation vacant := (vacant (X := X) (T := T)).
#[local] Abbreviation pool_inv := (pool_inv (X := X) (T := T)).
#[local] Abbreviation never := (never (A := X)).
Implicit Types (m : Mem) (q : BlockPool) (p : nat) (b : Block T).

(** ** Construction *)
Definition same_chunks m m' : Prop :=
  chunks m' = chunks m ∧ next_address m' = next_address m ∧ allocated m' = allocated m ∧
  lost m' = lost m.

(** Whether [p'] is one of the [n] blocks from [p] on. *)
Definition among p (n : nat) (p' : nat) : bool := bool_decide (p ≤ p')%nat && bool_decide (p' < p + n)%nat.

Lemma among_spec p n p' : among p n p' = true ↔ (p ≤ p' < p + n)%nat.
Proof. unfold among. rewrite andb_true_iff, !bool_decide_eq_true. lia. Qed.

Lemma among_S p n p' : among p (S n) p' = bool_decide (p' = p) || among (S p) n p'.
Proof.
  apply eq_true_iff_eq. rewrite orb_true_iff, !among_spec, bool_decide_eq_true. lia.
Qed.

Lemma construct_blocks_runs p bytes n (Qr : () → Mem → Prop) Qt F : ∀ i m,
  (∀ p', among (p + i) n p' = true → blocks m !! p' = None) →
  sizeof_Block * Z.of_nat (i + n) ≤ bytes → 0 ≤ sizeof_Block →
  (∀ m', (∀ p', blocks m' !! p' = if among (p + i) n p' then Some Block_new else blocks m !! p') →
     size (blocks m') = (size (blocks m) + n)%nat → same_chunks m m' → Qr tt m') →
  runs (construct_blocks (X := X) p bytes i n) m Qr Qt F.
Proof.
  induction n as [|n IH]; intros i m Hfresh Hby Hs HQ.
  - apply runs_ret, HQ; [|lia|done]. intros p'. destruct (among _ _ _) eqn:E; [|done].
    apply among_spec in E. lia.
  - cbn [construct_blocks]. rewrite (proj2 (Z.ltb_ge _ _)) by nia. apply runs_bind, runs_modify.
    assert (Hp : blocks m !! (p + i)%nat = None) by (apply Hfresh, among_spec; lia).
    apply IH; [|by replace (S i + n)%nat with (i + S n)%nat by lia|done|].
    + intros p' Hp'. apply among_spec in Hp'. simpl. rewrite lookup_insert_ne by lia.
      apply Hfresh, among_spec. lia.
    + intros m' Hb Hsz Hsame. apply HQ; [| |done].
      * intros p'. rewrite among_S, Hb. replace (p + S i)%nat with (S (p + i)) by lia.
        destruct (among (S (p + i)) n p') eqn:E; [by rewrite orb_true_r|]. rewrite orb_false_r. simpl.
        destruct (decide (p' = (p + i)%nat)) as [->|].
        -- by rewrite bool_decide_eq_true_2, lookup_insert_eq.
        -- by rewrite bool_decide_eq_false_2, lookup_insert_ne by done.
      * rewrite Hsz. simpl. rewrite map_size_insert_None by done. lia.
Qed.

Lemma mark_static_runs p n (Qr : () → Mem → Prop) Qt F : ∀ i m,
  (∀ p', among (p + i) n p' = true → is_Some (blocks m !! p')) →
  (∀ m', (∀ p', blocks m' !! p' =
       if among (p + i) n p' then set_dynamic false <$> blocks m !! p' else blocks m !! p') →
     size (blocks m') = size (blocks m) → same_chunks m m' → Qr tt m') →
  runs (mark_static (X := X) p i n) m Qr Qt F.
Proof.
  induction n as [|n IH]; intros i m Hthere HQ.
  - apply runs_ret, HQ; [|done|done]. intros p'. destruct (among _ _ _) eqn:E; [|done].
    apply among_spec in E. lia.
  - cbn [mark_static]. destruct (Hthere (p + i)%nat) as [b Hb]; [apply among_spec; lia|].
    apply runs_bind, cq_runs_modify_block with b; [done|]. apply IH.
    + intros p' Hp'. apply among_spec in Hp'. simpl. rewrite lookup_insert_ne by lia.
      apply Hthere, among_spec. lia.
    + intros m' Hbl Hsz Hsame. apply HQ; [| |done].
      * intros p'. rewrite among_S, Hbl. replace (p + S i)%nat with (S (p + i)) by lia. simpl.
        destruct (decide (p' = (p + i)%nat)) as [->|].
        -- rewrite bool_decide_eq_true_2, lookup_insert_eq, Hb by done. simpl.
           destruct (among _ _ _) eqn:E; [|done]. apply among_spec in E. lia.
        -- by rewrite bool_decide_eq_false_2, lookup_insert_ne by done.
      * rewrite Hsz. simpl. by rewrite map_size_insert_Some by eauto.
Qed.

(** The pool of a queue that has just been constructed. *)
Lemma pool_inv_initial m (n : nat) :
  (∀ p, blocks m !! p = if among 1 n p then Some (set_dynamic false Block_new) else None) →
  chunks m = (if decide (n = 0%nat) then ∅ else {[1%nat := sizeof_Block * Z.of_nat n]}) →
  next_address m = S n → allocated m = (if decide (n = 0%nat) then 0 else sizeof_Block * Z.of_nat n) →
  allocated m ≤ 2 ^ 63 →
  pool_inv m (mkPool 0 0 (if decide (n = 0%nat) then 0%nat else 1%nat) (Z.of_nat n)) ∅ ∅ [].
Proof.
  intros Hb Hc Hn Hal Hmax. pose proof (Block_new_unused (X := X) (T := T)) as (Hl & Hf & Hv).
  assert (Hsome : ∀ p b, blocks m !! p = Some b → b = set_dynamic false Block_new ∧ (1 ≤ p < 1 + n)%nat).
  { intros p b Hpb. rewrite Hb in Hpb. destruct (among 1 n p) eqn:E; [|done].
    apply among_spec in E. by injection Hpb as <-. }
  set (p0 := if decide (n = 0%nat) then 0%nat else 1%nat).
  assert (Harr : ∀ p, (1 ≤ p < 1 + n)%nat ↔ in_array (mkPool 0 0 p0 (Z.of_nat n)) p).
  { intros p. unfold in_array, p0. simpl. destruct (decide (n = 0%nat)); split.
    - lia.
    - intros (i & ? & ?). lia.
    - intros Hp. exists (Z.of_nat (p - 1)). lia.
    - intros (i & ? & ?). lia. }
  assert (Hch : ∀ p, is_Some (chunks m !! p) → p = 1%nat ∧ n ≠ 0%nat).
  { intros p [z Hz]. rewrite Hc in Hz. destruct (decide (n = 0%nat)); [by rewrite lookup_empty in Hz|].
    by apply lookup_singleton_Some in Hz as [<- _]. }
  constructor; simpl.
  - constructor; simpl; [|done|constructor|].
    + rewrite Hb. destruct (among 1 n 0) eqn:E; [apply among_spec in E; lia|done].
    + intros p b Hpb. by destruct (Hsome p b Hpb) as [-> _].
  - intros p b Hpb. right. destruct (Hsome p b Hpb) as [-> Hp]. split; [|done]. right.
    by apply Harr in Hp.
  - by intros p ?%elem_of_empty.
  - by intros p ?%elem_of_nil.
  - lia.
  - constructor; simpl.
    + intros p Hp%Harr. eexists. rewrite Hb. by rewrite (proj2 (among_spec 1 n p)).
    + intros p b Hpb _. apply Harr. by apply (Hsome p b).
    + intros p Hp. split; [|].
      * rewrite Hb. destruct (among 1 n p) eqn:E; [apply among_spec in E; lia|done].
      * apply eq_None_not_Some. intros [-> ?]%Hch. lia.
    + lia.
    + unfold p0. destruct (decide (n = 0%nat)) as [->|Hne]; [left|right].
      * split_and!; [done|done|]. apply eq_None_not_Some. by intros [? _]%Hch.
      * split_and!; [done|lia| |by intros ?%elem_of_empty]. rewrite Hc.
        destruct (decide (n = 0%nat)); [done|]. by rewrite lookup_singleton_eq.
    + intros p b Hpb Hd. by destruct (Hsome p b Hpb) as [-> _].
    + by intros p ?%elem_of_empty.
    + intros p [-> Hne]%Hch. right; left. unfold p0.
      by destruct (decide (n = 0%nat)).
    + pose proof block_size_pos. pose proof ok_block as [? _].
      constructor; simpl; rewrite ?Hc, ?Hal in *; [|done|..].
      * destruct (decide _); [done|]. rewrite <- insert_empty, total_insert by done. unfold total.
        rewrite map_fold_empty. lia.
      * intros p z. destruct (decide _); [by rewrite lookup_empty|]. intros [_ <-]%lookup_singleton_Some. nia.
      * intros p b Hpb Hd. by destruct (Hsome p b Hpb) as [-> _].
      * unfold p0. destruct (decide _); [done|]. intros _. apply lookup_singleton_eq.
Qed.

(** The array, or nothing if it cannot be allocated. *)
Definition raw_pool : BlockPool := mkPool 0 0 0 0.

Definition populated (count : Z) (s : Mem * BlockPool) : Prop :=
  pool_inv s.1 s.2 ∅ ∅ [] ∧ pool_bytes s.1 s.2 ∧ lost s.1 = 0%nat ∧
  (initialBlockPoolSize s.2 = count ∨ initialBlockPoolSize s.2 = 0 ∧ out_of_memory).

Lemma populated_empty m count :
  blocks m = ∅ → chunks m = ∅ → next_address m = 1%nat → lost m = 0%nat → allocated m = 0 →
  count = 0 ∨ out_of_memory → populated count (m, raw_pool).
Proof.
  intros Hb Hc Hn Hl Ha Hcount. split_and!; [| |done|].
  - apply (pool_inv_initial m 0); [|done..|simpl; lia]. intros p. rewrite Hb, lookup_empty.
    destruct (among _ _ _) eqn:E; [apply among_spec in E; lia|done].
  - constructor; simpl; rewrite Hb, map_size_empty; lia.
  - simpl. destruct Hcount; [left|right]; done.
Qed.

Lemma populate_runs count : 0 ≤ count → sizeof_Block * count < 2 ^ 64 →
  runs (populate_initial_block_list (X := X) count) (no_memory_used, raw_pool)
    (λ _ s, populated count s) never no_fault.
Proof.
  intros Hc Hbytes. pose proof ok_block as [Hsz _]. pose proof block_size_pos.
  unfold populate_initial_block_list.
  destruct (Z.eqb_spec count 0) as [->|Hne].
  { apply runs_on_snd, runs_modify. apply populated_empty; auto. }
  apply runs_bind, runs_on_fst. unfold create_array. apply runs_bind, cq_runs_massert; [apply Z.ltb_lt; lia|].
  rewrite u64_small by nia. apply runs_bind. unfold runs at 1, malloc. simpl.
  destruct (Traits_malloc _ _ _) eqn:Em; simpl.
  - pose proof (ok_malloc _ _ _ Em) as Hle. set (n := Z.to_nat count).
    apply runs_bind, construct_blocks_runs; [|lia|lia|].
    { intros p' _. simpl. apply lookup_empty. }
    intros m1 Hb1 Hs1 (Hc1 & Hn1 & Ha1 & Hl1). apply runs_ret. simpl in *.
    apply runs_bind, runs_on_snd, runs_modify, runs_on_fst. simpl.
    apply mark_static_runs.
    { intros p' Hp'. rewrite Hb1. simpl. fold n in Hp'. simpl in Hp'. rewrite Hp'. by eexists. }
    intros m2 Hb2 Hs2 (Hc2 & Hn2 & Ha2 & Hl2). fold n in Hb2. simpl in *.
    rewrite map_size_empty in Hs1. unfold populated. simpl.
    replace count with (Z.of_nat n) in * by lia.
    assert (Hn0 : n ≠ 0%nat) by lia.
    split_and!; [| |congruence|by left].
    + pose proof (pool_inv_initial m2 n) as Hinit. destruct (decide (n = 0%nat)); [done|].
      apply Hinit; [|by rewrite Hc2, Hc1|by rewrite Hn2, Hn1|by rewrite Ha2, Ha1|lia]. intros p'. rewrite Hb2, Hb1. by destruct (among 1 n p').
    + constructor; simpl; rewrite Hs2, Hs1; [rewrite Ha2, Ha1; lia|lia].
  - apply runs_bind, runs_on_snd, runs_modify, runs_on_fst, runs_ret. apply populated_empty; try done.
    right. by do 3 eexists.
Qed.

(** ** Destruction *)

(** What is left to destroy: the blocks of [l] and the array. *)
Record remaining m q (l : list nat) : Prop := {
  rm_memory : pool_memory m q ∅;
  rm_null : blocks m !! 0%nat = None;
  rm_there p : p ∈ l → is_Some (blocks m !! p);
  rm_dynamic p b : blocks m !! p = Some b → dynamicallyAllocated b = true → p ∈ l;
  rm_vacant p b : blocks m !! p = Some b → Forall vacant (elements b)
}.

Fixpoint free_linked (h : gmap nat (Block T)) (p : nat) (l : list nat) : Prop :=
  match l with
  | [] => p = 0%nat
  | p' :: l => p = p' ∧ ∃ b, h !! p = Some b ∧ free_linked h (block_freeListNext b) l
  end.

Lemma free_linked_ext h h' l : ∀ p,
  free_linked h p l → (∀ p', p' ∈ l → h' !! p' = h !! p') → free_linked h' p l.
Proof.
  induction l as [|p' l IH]; intros p; simpl; [done|]. intros (-> & b & Hb & Hl) Hsame.
  split; [done|]. exists b. rewrite Hsame by (by left). split; [done|]. apply IH; [done|].
  intros p Hp. apply Hsame. by right.
Qed.

Lemma free_linked_linked m q l : ∀ p,
  linked (mkFreeList (blocks m) (pool_freeListHead q)) p l → free_linked (blocks m) p l.
Proof.
  induction l as [|p' l IH]; intros p; [done|]. intros (-> & b & Hb & Hl). split; [done|].
  exists b. split; [done|by apply IH].
Qed.

Lemma destroy_free_list_runs q (Qr : () → Mem → Prop) Qt F l : ∀ fuel p m,
  remaining m q l → free_linked (blocks m) p l → NoDup l → (length l ≤ fuel)%nat →
  (∀ m', remaining m' q [] → lost m' = lost m → Qr tt m') →
  runs (destroy_free_list (X := X) fuel p) m Qr Qt F.
Proof.
  induction l as [|p' l IH]; intros fuel p m Hrm Hl Hnd Hfuel HQ.
  { simpl in Hl. subst p. destruct fuel; apply runs_ret, HQ; done. }
  destruct Hl as (-> & b & Hb & Hl). destruct fuel as [|fuel]; [simpl in Hfuel; lia|].
  apply NoDup_cons in Hnd as [Hp Hnd]. destruct Hrm as [Hm Hz Hth Hdy Hv].
  assert (Hne : p' ≠ 0%nat) by (intros ->; congruence). cbn [destroy_free_list].
  rewrite bool_decide_eq_false_2 by done. apply runs_bind. eapply runs_load_block; [done|].
  apply runs_bind. destruct (dynamicallyAllocated b) eqn:Ed.
  - destruct (pm_dynamic _ _ _ Hm p' b Hb Ed) as (Hc & _ & _).
    eapply cq_destroy_block_runs; [done..|by eapply Hv|]. intros m' Hfreed.
    pose proof (pool_memory_destroyed _ _ _ _ _ _ Hm Hb Ed Hfreed) as Hm'.
    destruct Hfreed as (Hbl & _ & Hls & _).
    apply IH; [| |done|simpl in *; lia|intros m2 ? ?; apply HQ; [done|congruence]].
    + constructor; rewrite ?Hbl; [done|by rewrite lookup_delete_ne by done|..].
      * intros p Hp'. rewrite lookup_delete_ne by (by intros ->). apply Hth. by right.
      * intros p c [Hne' Hc']%lookup_delete_Some Hd'. pose proof (Hdy p c Hc' Hd') as Hin.
        by apply elem_of_cons in Hin as [->|].
      * intros p c [_ Hc']%lookup_delete_Some. by eapply Hv.
    + eapply free_linked_ext; [exact Hl|]. intros p Hp'. rewrite Hbl, lookup_delete_ne; [done|by intros ->].
  - apply runs_ret, IH; [|done|done|simpl in *; lia|done]. constructor; [done|done| |  |done].
    + intros p Hp'. apply Hth. by right.
    + intros p c Hc Hd. pose proof (Hdy p c Hc Hd) as Hin. apply elem_of_cons in Hin as [->|]; [congruence|done].
Qed.

Lemma end_blocks_runs p n (Qr : () → Mem → Prop) Qt F : ∀ m,
  (∀ p', among p n p' = true → ∃ b, blocks m !! p' = Some b ∧ Forall vacant (elements b)) →
  (∀ m', (∀ p', blocks m' !! p' = if among p n p' then None else blocks m !! p') →
     same_chunks m m' → Qr tt m') →
  runs (end_blocks (X := X) p n) m Qr Qt F.
Proof.
  induction n as [|n IH]; intros m Hth HQ.
  - apply runs_ret, HQ; [|done]. intros p'. destruct (among p 0 p') eqn:E; [apply among_spec in E; lia|done].
  - cbn [end_blocks]. apply runs_bind. unfold runs at 1, end_block.
    destruct (Hth (p + n)%nat) as (b & Hb & Hv); [apply among_spec; lia|].
    rewrite Hb, (losses_vacant _ Hv). apply IH.
    + intros p' Hp'. apply among_spec in Hp'. simpl. rewrite lookup_delete_ne by lia.
      apply Hth, among_spec. lia.
    + intros m' Hbl (Hc & Hn & Ha & Hl). apply HQ.
      * intros p'. rewrite Hbl. simpl.
        assert (among p (S n) p' = bool_decide (p' = (p + n)%nat) || among p n p') as ->.
        { apply eq_true_iff_eq. rewrite orb_true_iff, !among_spec, bool_decide_eq_true. lia. }
        destruct (decide (p' = (p + n)%nat)) as [->|].
        -- rewrite bool_decide_eq_true_2, lookup_delete_eq by done. by destruct (among _ _ _).
        -- by rewrite bool_decide_eq_false_2, lookup_delete_ne by done.
      * split_and!; simpl in *; [done|done|done|lia].
Qed.

(** Only the array is left. *)
Lemma destroy_array_runs m q :
  remaining m q [] →
  runs (destroy_array (X := X) (initialBlockPool q) (initialBlockPoolSize q)) m
    (λ _ m', blocks m' = ∅ ∧ chunks m' = ∅ ∧ lost m' = lost m) never no_fault.
Proof.
  intros [Hm Hz' _ Hdy Hv].
  unfold destroy_array.
  assert (Harr : ∀ p b, blocks m !! p = Some b → in_array q p).
  { intros p b Hb. apply (pm_static _ _ _ Hm p b Hb).
    destruct (dynamicallyAllocated b) eqn:Ed; [|done]. destruct (proj1 (elem_of_nil p) (Hdy p b Hb Ed)). }
  destruct (pm_pool _ _ _ Hm) as [(Hp & Hs & Hc)|(Hp & Hs & Hc & _)].
  + rewrite Hp, bool_decide_eq_true_2 by done. apply runs_ret. split_and!; [| |done].
    * apply map_empty. intros p. apply eq_None_not_Some. intros [b Hb].
      destruct (Harr p b Hb) as (i & ? & _). lia.
    * apply map_empty. intros p. apply eq_None_not_Some. intros Hcp.
      destruct (pm_chunks _ _ _ Hm p Hcp) as [?%elem_of_empty|[->|(b & Hb & Hd)]]; [done| |].
      -- rewrite Hp, Hc in Hcp. by destruct Hcp.
      -- destruct (proj1 (elem_of_nil p) (Hdy p b Hb Hd)).
  + rewrite bool_decide_eq_false_2 by done. apply runs_bind, cq_runs_massert; [by apply Z.ltb_lt|].
    apply runs_bind, end_blocks_runs.
    { intros p Hp'. apply among_spec in Hp'. destruct (pm_array _ _ _ Hm p) as (b & Hb & _).
      { exists (Z.of_nat (p - initialBlockPool q)). lia. }
      exists b. split; [done|by eapply Hv]. }
    intros m2 Hb2 (Hc2 & Hn2 & Ha2 & Hl2). apply free_runs; [by rewrite Hc2|done|].
    intros m3 (Hb3 & Hc3 & Hl3 & _). split_and!; [| |congruence].
    * rewrite Hb3. apply map_empty. intros p. rewrite Hb2. destruct (among _ _ _) eqn:E; [done|].
      apply eq_None_not_Some. intros [b Hb]. destruct (Harr p b Hb) as (i & ? & ->).
      assert (among (initialBlockPool q) (Z.to_nat (initialBlockPoolSize q))
        (initialBlockPool q + Z.to_nat i) = true) by (apply among_spec; lia). congruence.
    * rewrite Hc3, Hc2. apply map_empty. intros p. apply eq_None_not_Some.
      intros [z [Hne Hcp]%lookup_delete_Some].
      destruct (pm_chunks _ _ _ Hm p) as [?%elem_of_empty|[->|(b & Hb & Hd)]]; [by exists z|done|done|].
      destruct (proj1 (elem_of_nil p) (Hdy p b Hb Hd)).
Qed.

Lemma destroy_pool_runs m q fl :
  pool_inv m q ∅ ∅ fl →
  runs (destroy_pool (X := X)) (m, q)
    (λ _ '(m', _), blocks m' = ∅ ∧ chunks m' = ∅ ∧ lost m' = lost m) never no_fault.
Proof.
  intros Hinv. pose proof Hinv as [[Hz Hl Hnd _] Hw _ _ Hi Hm]. simpl in Hz.
  unfold destroy_pool. apply runs_bind, runs_on_free_list. unfold head_unsafe. apply runs_gets. simpl.
  assert (Hsame : (set_blocks (blocks m) m, set_freeListHead (pool_freeListHead q) q) = (m, q))
    by by destruct m, q.
  rewrite Hsame. apply runs_bind, runs_on_fst, runs_gets, runs_bind, runs_on_fst.
  assert (Hunused : ∀ p b, blocks m !! p = Some b → ((p ∈ fl) ∨ in_range q p) ∧ unused b).
  { intros p b Hb. destruct (Hw p b Hb) as [Hin|]; [by apply elem_of_empty in Hin|done]. }
  eapply (destroy_free_list_runs q _ _ _ fl).
  - constructor; [done|done| | |].
    + intros p Hp. eapply (linked_elem _ _ _ _ Hl Hp).
    + intros p b Hb Hd. destruct (Hunused p b Hb) as [[|Hr] _]; [done|].
      destruct (pm_array _ _ _ Hm p) as (b' & Hb' & Hd'); [by apply in_range_array; [lia|]|]. congruence.
    + intros p b Hb. by apply (Hunused p b Hb).
  - by apply (free_linked_linked _ q).
  - done.
  - rewrite <- size_dom, <- (size_list_to_set (C := gset nat) fl Hnd). apply subseteq_size.
    intros p Hp. apply elem_of_dom. rewrite elem_of_list_to_set in Hp.
    exact (linked_elem _ _ _ _ Hl Hp).
  - intros m' Hrm Hlost. apply runs_bind, runs_on_snd, runs_gets, runs_on_fst. simpl.
    eapply runs_mono; [by apply destroy_array_runs|..]; [|done..].
    intros _ m2 (Hb & Hc & Hl2). split_and!; [done..|congruence].
Qed.
End pool.
