(* ===== verification/CqProducer.v ===== *)
(** * ConcurrentQueue: what a producer promises

    [ProducerOps]: the members of a producer that a queue calls; ProducerBase chooses those
    of ExplicitProducer or ImplicitProducer.  [ProducerLaws]: in terms of the list of the
    elements, what they promise.  One thread creates a queue and a producer, uses it and
    destroys both: what follows from the laws is proved here, for both kinds of producers. *)
From stdpp Require Import gmap.
From S2P Require Import Prelude Lifetime FreeList CqBlock CqPool CqFacts CqPoolFacts CqExplicit CqRing.
From S2P Require Import CqExplicitInv CqExplicitOps CqLifecycle.

#[local] Open Scope Z_scope.

(** ** The operations *)
Record ProducerOps `{TR : Traits} (X T U P : Type) := {
  no_producer : P;
  base_of : P → ProducerBase;
  do_construct : M X (P * (Memory T * BlockPool)) unit;
  do_enqueue : bool → category → M X (P * (Memory T * BlockPool) * T) bool;
  do_dequeue : M X (P * (Memory T * BlockPool) * U) bool;
  do_destroy : M X (P * (Memory T * BlockPool)) unit
}.
Arguments no_producer {TR X T U P} _.
Arguments base_of {TR X T U P} _ _.
Arguments do_construct {TR X T U P} _.
Arguments do_enqueue {TR X T U P} _ _ _.
Arguments do_dequeue {TR X T U P} _.
Arguments do_destroy {TR X T U P} _.

Section calls.
Context {TR : Traits} {X T U P : Type} `{!CppType X T} (ops : ProducerOps X T U P).
#[local] Abbreviation Q := (P * (Memory T * BlockPool))%type.

(** Calls, with the arguments that are passed by reference; and what comes back, with what
    has become of the arguments. *)
Inductive call :=
  | Enqueue (canAlloc : bool) (c : category) (x : T)
  | Dequeue (u : U)
  | SizeApprox.

Inductive reply :=
  | Enqueued (x' : T) (r : completion X bool)
  | Dequeued (u' : U) (r : completion X bool)
  | Counted (n : Z).

Definition run_call (o : call) : M X Q reply := fun q =>
  match o with
  | Enqueue canAlloc c x =>
      match do_enqueue ops canAlloc c (q, x) with
      | Ok ((q', x'), r) => Ok (q', Returns (Enqueued x' r))
      | Err f => Err f
      end
  | Dequeue u =>
      match do_dequeue ops (q, u) with
      | Ok ((q', u'), r) => Ok (q', Returns (Dequeued u' r))
      | Err f => Err f
      end
  | SizeApprox => Ok (q, Returns (Counted (producer_size_approx (base_of ops q.1))))
  end.

Fixpoint run_calls (l : list call) : M X Q (list reply) :=
  match l with
  | [] => mret []
  | o :: l => r ← run_call o; rs ← run_calls l; mret (r :: rs)
  end.

(** A queue for [blockCount] blocks, and a producer. *)
Definition beginning (blockCount : Z) : M X Q unit :=
  on_snd (populate_initial_block_list blockCount) ;; do_construct ops.

(** The destructor of the queue. *)
Definition ending : M X Q unit := do_destroy ops ;; on_snd destroy_pool.

Definition before : Q := (no_producer ops, (no_memory_used, raw_pool)).

Definition session (blockCount : Z) (l : list call) : M X Q (list reply) :=
  beginning blockCount ;; run_calls l.

Definition life (blockCount : Z) (l : list call) : M X Q (list reply) :=
  beginning blockCount ;; rs ← run_calls l; ending ;; mret rs.
End calls.
Arguments call : clear implicits.
Arguments reply : clear implicits.

(** ** The specification *)
Section specification.
Context {TR : Traits} {X T U : Type} `{!CppType X T}.
Context (assign_result : U → T → U * T * completion X unit).

Inductive fifo_step : list T → call T U → reply X T U → list T → Prop :=
  | fifo_accepted xs canAlloc c x x' :
      forward_ctor c x = (x', Returns x) →
      fifo_step xs (Enqueue canAlloc c x) (Enqueued x' (Returns true)) (xs ++ [x])
  | fifo_refused xs canAlloc c x :
      refused canAlloc (zlen xs) →
      fifo_step xs (Enqueue canAlloc c x) (Enqueued x (Returns false)) xs
  | fifo_ctor_throws xs canAlloc c x x' ex :
      forward_ctor c x = (x', Throws ex) →
      fifo_step xs (Enqueue canAlloc c x) (Enqueued x' (Throws ex)) xs
  | fifo_empty u : fifo_step [] (Dequeue u) (Dequeued u (Returns false)) []
  | fifo_dequeued x xs u u' x' :
      assign_result u x = (u', x', Returns tt) →
      fifo_step (x :: xs) (Dequeue u) (Dequeued u' (Returns true)) xs
  | fifo_assign_throws x xs u u' x' ex :
      assign_result u x = (u', x', Throws ex) →
      fifo_step (x :: xs) (Dequeue u) (Dequeued u' (Throws ex)) xs
  | fifo_size xs : fifo_step xs SizeApprox (Counted (zlen xs)) xs.

Inductive fifo_steps : list T → list (call T U) → list (reply X T U) → list T → Prop :=
  | fifo_nil xs : fifo_steps xs [] [] xs
  | fifo_cons xs o r xs1 l rs xs' :
      fifo_step xs o r xs1 → fifo_steps xs1 l rs xs' → fifo_steps xs (o :: l) (r :: rs) xs'.

(** The constructor of the element does not throw. *)
Definition no_throw (o : call T U) : Prop :=
  match o with
  | Enqueue _ c x => ∀ x' ex, forward_ctor c x ≠ (x', Throws ex)
  | _ => True
  end.

Definition within_size (xs : list T) : Prop :=
  MAX_SUBQUEUE_SIZE = const_numeric_max ∨ zlen xs ≤ MAX_SUBQUEUE_SIZE.
End specification.

(** ** The laws

    [holds clean e h ring raws xs]: the elements of the producer are [xs]; it owns the
    blocks of [ring] and the chunks [raws] of memory, and depends on no other block.  The
    blocks [owned] and the chunks [hdrs] are those of others.  The destructor works
    for producers that are [clean]; where the class does not [survive] exceptions, one that
    a constructor throws may end that. *)
Definition owning {TR : Traits} {X T P : Type} `{!CppType X T}
    (holds : bool → P → gmap nat (Block T) → list nat → list nat → list T → Prop)
    (clean : bool) (e : P) (m : Memory T) (q : BlockPool) (owned hdrs : gset nat) (xs : list T) : Prop :=
  ∃ ring raws, holds clean e (blocks m) ring raws xs ∧ memory_at (X := X) m q ring raws owned hdrs.

Class ProducerLaws {TR : Traits} {X T U P : Type} `{!CppType X T}
    (assign_result : U → T → U * T * completion X unit) (ops : ProducerOps X T U P) := {
  holds : bool → P → gmap nat (Block T) → list nat → list nat → list T → Prop;
  survives : bool;
  holds_nodup clean e h ring raws xs : holds clean e h ring raws xs → NoDup ring;
  holds_local clean e h h' ring raws xs :
    (∀ p, p ∈ ring → h' !! p = h !! p) → holds clean e h ring raws xs → holds clean e h' ring raws xs;
  law_construct m q owned hdrs fl :
    pool_inv (X := X) m q owned hdrs fl → pool_bytes m q →
    runs (do_construct ops) (no_producer ops, (m, q))
      (λ _ '(e, (m', q')), frame owned m m' ∧ owning (X := X) holds true e m' q' owned hdrs []) never no_fault;
  law_enqueue canAlloc c clean e m q x owned hdrs xs :
    owning (X := X) holds clean e m q owned hdrs xs →
    runs (do_enqueue ops canAlloc c) ((e, (m, q)), x)
      (λ r '((e', (m', q')), x'), frame owned m m' ∧
         if r then owning (X := X) holds clean e' m' q' owned hdrs (xs ++ [x]) ∧ forward_ctor c x = (x', Returns x)
         else owning (X := X) holds clean e' m' q' owned hdrs xs ∧ x' = x ∧ refused canAlloc (zlen xs))
      (λ ex '((e', (m', q')), x'), frame owned m m' ∧ forward_ctor c x = (x', Throws ex) ∧
         ∃ clean', owning (X := X) holds clean' e' m' q' owned hdrs xs ∧ (survives = true → clean' = clean)) no_fault;
  law_dequeue clean e m q u owned hdrs xs :
    owning (X := X) holds clean e m q owned hdrs xs →
    runs (do_dequeue ops) ((e, (m, q)), u)
      (λ r '((e', (m', q')), u'), frame owned m m' ∧
         match xs with
         | [] => r = false ∧ u' = u ∧ owning (X := X) holds clean e' m' q' owned hdrs []
         | x :: xs => r = true ∧ (∃ x', assign_result u x = (u', x', Returns tt)) ∧
             owning (X := X) holds clean e' m' q' owned hdrs xs
         end)
      (λ ex '((e', (m', q')), u'), frame owned m m' ∧ ∃ x xs' x', xs = x :: xs' ∧
         assign_result u x = (u', x', Throws ex) ∧ owning (X := X) holds clean e' m' q' owned hdrs xs') no_fault;
  law_size clean e m q owned hdrs xs :
    owning (X := X) holds clean e m q owned hdrs xs →
    producer_size_approx (base_of ops e) = zlen xs ∧ within_size xs;
  law_destroy e m q owned hdrs xs :
    owning (X := X) holds true e m q owned hdrs xs →
    runs (do_destroy ops) (e, (m, q))
      (λ _ '(_, (m', q')), frame owned m m' ∧ ∃ fl, pool_inv (X := X) m' q' owned hdrs fl) never no_fault
}.

(** ** What follows *)
Section proofs.
Context {TR : Traits} {OK : TraitsOk} {X T U P : Type} `{!CppType X T}.
Context (assign_result : U → T → U * T * completion X unit) (ops : ProducerOps X T U P).
Context {LAWS : ProducerLaws assign_result ops}.
#[local] Abbreviation Q := (P * (Memory T * BlockPool))%type.
#[local] Abbreviation fifo_step := (fifo_step assign_result).
#[local] Abbreviation fifo_steps := (fifo_steps assign_result).
#[local] Abbreviation never := (never (A := X)).
#[local] Abbreviation represents := (owning (X := X) holds).
Implicit Types (xs : list T) (owned hdrs : gset nat).

(** A call is a step of the specification, and the blocks of others are left alone. *)
Lemma run_call_runs o clean e m q owned hdrs xs :
  represents clean e m q owned hdrs xs →
  runs (run_call ops o) (e, (m, q))
    (λ r '(e', (m', q')), frame owned m m' ∧ ∃ clean' xs', fifo_step xs o r xs' ∧
       represents clean' e' m' q' owned hdrs xs' ∧
       (survives = true ∨ no_throw (X := X) o → clean' = clean)) never no_fault.
Proof.
  intros Hat. destruct o as [canAlloc c x|u|]; unfold runs, run_call.
  - pose proof (law_enqueue canAlloc c _ _ _ _ x _ _ _ Hat) as Hrun. unfold runs in Hrun.
    destruct (do_enqueue _ _ _ _) as [[[[e' [m' q']] x'] [r|ex]]|f]; [..|done].
    + destruct Hrun as (Hfr & Hr). split; [done|]. destruct r.
      * destruct Hr as [Hat' Hf]. exists clean, (xs ++ [x]). split_and!; [by constructor|done..].
      * destruct Hr as (Hat' & -> & Hr). exists clean, xs. split_and!; [by constructor|done..].
    + destruct Hrun as (Hfr & Hf & clean' & Hat' & Hc). split; [done|].
      exists clean', xs. split_and!; [by constructor|done|]. intros [|Hno]; [by apply Hc|].
      by destruct (Hno x' ex).
  - pose proof (law_dequeue _ _ _ _ u _ _ _ Hat) as Hrun. unfold runs in Hrun.
    destruct (do_dequeue _ _) as [[[[e' [m' q']] u'] [r|ex]]|f]; [..|done].
    + destruct Hrun as (Hfr & Hr). split; [done|]. destruct xs as [|x xs].
      * destruct Hr as (-> & -> & Hat'). exists clean, []. split_and!; [by constructor|done..].
      * destruct Hr as (-> & (x' & Ha) & Hat'). exists clean, xs. split_and!; [by econstructor|done..].
    + destruct Hrun as (Hfr & x & xs' & x' & -> & Ha & Hat'). split; [done|].
      exists clean, xs'. split_and!; [by econstructor|done..].
  - split; [done|]. exists clean, xs.
    simpl. rewrite (proj1 (law_size _ _ _ _ _ _ _ Hat)). split_and!; [by constructor|done..].
Qed.

Lemma run_calls_runs l clean e m q owned hdrs xs :
  represents clean e m q owned hdrs xs →
  runs (run_calls ops l) (e, (m, q))
    (λ rs '(e', (m', q')), frame owned m m' ∧ ∃ clean' xs',
      fifo_steps xs l rs xs' ∧ represents clean' e' m' q' owned hdrs xs' ∧
      (survives = true ∨ Forall (no_throw (X := X)) l → clean' = clean)) never no_fault.
Proof.
  revert clean e m q xs. induction l as [|o l IH]; intros clean e m q xs Hat.
  - apply runs_ret. split; [done|]. exists clean, xs. split_and!; [constructor|done..].
  - simpl. apply runs_bind. eapply runs_mono; [by eapply run_call_runs|..]; [|done..].
    intros r [e1 [m1 q1]] (Hfr & clean1 & xs1 & Hstep & Hat1 & Hc1).
    apply runs_bind. eapply runs_mono; [by eapply IH|..]; [|done..].
    intros rs [e2 [m2 q2]] (Hfr2 & clean2 & xs2 & Hsteps & Hat2 & Hc2).
    apply runs_ret. split; [by eapply frame_trans|]. exists clean2, xs2.
    split_and!; [by econstructor|done|]. intros [Hs|Hall]; [rewrite Hc2, Hc1; auto|].
    inversion Hall; subst. rewrite Hc2, Hc1; auto.
Qed.

Lemma beginning_runs blockCount :
  0 ≤ blockCount → sizeof_Block * blockCount < 2 ^ 64 →
  runs (beginning ops blockCount) (before ops)
    (λ _ '(e, (m, q)), represents true e m q ∅ ∅ [] ∧ lost m = 0%nat) never no_fault.
Proof.
  intros Hc Hb. unfold beginning, before. apply runs_bind, runs_on_pool.
  eapply runs_mono; [by apply populate_runs|..]; [|done..].
  intros _ [m q] (Hinv & Hby & Hl & _). simpl in *.
  eapply runs_mono; [by eapply law_construct|..]; [|done..].
  intros _ [e [m' q']] ([_ Hl'] & Hat). split; [done|congruence].
Qed.

(** The replies are those of the list of the elements. *)
Lemma session_fifo blockCount l :
  0 ≤ blockCount → sizeof_Block * blockCount < 2 ^ 64 →
  ∃ e m q rs xs,
    session ops blockCount l (before ops) = Ok ((e, (m, q)), Returns rs) ∧
    fifo_steps [] l rs xs ∧ producer_size_approx (base_of ops e) = zlen xs ∧ within_size xs.
Proof.
  intros Hc Hb.
  assert (Hrun : runs (session ops blockCount l) (before ops)
    (λ rs '(e, (m, q)), ∃ xs, fifo_steps [] l rs xs ∧
       producer_size_approx (base_of ops e) = zlen xs ∧ within_size xs) never no_fault).
  { apply runs_bind. eapply runs_mono; [by apply beginning_runs|..]; [|done..].
    intros _ [e [m q]] [Hat _]. eapply runs_mono; [by eapply run_calls_runs|..]; [|done..].
    intros rs [e' [m' q']] (_ & clean & xs & Hsteps & Hat' & _).
    exists xs. split; [done|by eapply law_size]. }
  unfold runs in Hrun. destruct (session _ _ _ _) as [[[e [m q]] [rs|ex]]|f]; [|done..].
  destruct Hrun as (xs & Hx). by exists e, m, q, rs, xs.
Qed.

(** At the end nothing is left. *)
Lemma life_ends blockCount l :
  0 ≤ blockCount → sizeof_Block * blockCount < 2 ^ 64 → survives = true ∨ Forall (no_throw (X := X)) l →
  ∃ e m q rs,
    life ops blockCount l (before ops) = Ok ((e, (m, q)), Returns rs) ∧
    (∃ xs, fifo_steps [] l rs xs) ∧ blocks m = ∅ ∧ chunks m = ∅ ∧ lost m = 0%nat.
Proof.
  intros Hc Hb Hno.
  assert (Hrun : runs (life ops blockCount l) (before ops)
    (λ rs '(_, (m, _)), (∃ xs, fifo_steps [] l rs xs) ∧ blocks m = ∅ ∧ chunks m = ∅ ∧ lost m = 0%nat)
    never no_fault).
  { apply runs_bind. eapply runs_mono; [by apply beginning_runs|..]; [|done..].
    intros _ [e [m q]] [Hat Hl0]. apply runs_bind. eapply runs_mono; [by eapply run_calls_runs|..]; [|done..].
    intros rs [e1 [m1 q1]] ([_ Hl1] & clean & xs & Hsteps & Hat1 & Hclean).
    rewrite (Hclean Hno) in Hat1. apply runs_bind. unfold ending. apply runs_bind.
    eapply runs_mono; [by eapply law_destroy|..]; [|done..].
    intros _ [e2 [m2 q2]] ([_ Hl2] & fl & Hinv). apply runs_on_pool.
    eapply runs_mono; [by eapply destroy_pool_runs|..]; [|done..].
    intros _ [m3 q3] (Hb3 & Hc3 & Hl3). apply runs_ret. split_and!; [by exists xs|done|done|congruence]. }
  unfold runs in Hrun. destruct (life _ _ _ _) as [[[e [m q]] [rs|ex]]|f]; [|done..].
  by exists e, m, q, rs.
Qed.
End proofs.

(** ** An instance: numbers, of which 13 cannot be copied *)
Module Demo.
#[local] Open Scope nat_scope.
Definition copy (x : nat) : completion nat nat :=
  if bool_decide (x = 13) then Throws 13 else Returns x.

#[export] Instance number : CppType nat nat := {|
  traits := Build_type_traits false true true true true true false false true true false false
              false false true;
  copy_ctor := copy;
  move_ctor x := (x, copy x);
  copy_assign _ y := (y, Returns tt);
  move_assign _ y := (y, 0, Returns tt);
  swap_objects x y := (y, x, Returns tt)
|}.

#[export] Instance number_laws : CppLaws nat nat.
Proof.
  assert (Hc : ∀ a b, copy a = Returns b → b = a).
  { intros a b. unfold copy. destruct (bool_decide _); [done|]. congruence. }
  constructor; simpl; intros *; try (by intros ?); intros; simplify_eq; eauto.
Qed.

#[export] Instance small_blocks : Traits := {|
  BLOCK_SIZE := 2; EXPLICIT_BLOCK_EMPTY_COUNTER_THRESHOLD := 2; EXPLICIT_INITIAL_INDEX_SIZE := 2;
  IMPLICIT_INITIAL_INDEX_SIZE := 2; INITIAL_IMPLICIT_PRODUCER_HASH_SIZE := 2;
  EXPLICIT_CONSUMER_CONSUMPTION_QUOTA_BEFORE_ROTATE := 3; Traits_MAX_SUBQUEUE_SIZE := 6;
  Traits_malloc a n b := (a + b <=? 4096)%Z; sizeof_Block := 64; sizeof_BlockIndexHeader := 32;
  sizeof_BlockIndexEntry := 16; alignof_BlockIndexEntry := 8;
  sizeof_ImplicitHeader := 40; sizeof_ImplicitEntry := 16; alignof_ImplicitEntry := 8;
  sizeof_ExplicitProducer := 128; sizeof_ImplicitProducer := 96; sizeof_ImplicitProducerHash := 24;
  sizeof_ImplicitProducerKVP := 16; alignof_ImplicitProducerKVP := 8; ndebug := false
|}.

#[export] Instance small_blocks_ok : TraitsOk.
Proof.
  constructor; try (cbn; lia). reflexivity.
Qed.

Definition calls : list (call nat nat) :=
  [Enqueue true Lvalue 1; Enqueue true Rvalue 2; Enqueue true Lvalue 3; Dequeue 0; Dequeue 0;
   Enqueue true Lvalue 4; Enqueue true Lvalue 5; SizeApprox; Dequeue 0; Enqueue false Lvalue 6;
   Enqueue true Lvalue 7; Enqueue true Lvalue 8; Enqueue true Lvalue 9; Enqueue true Lvalue 10].
End Demo.
