(* ===== verification/CqExplicitTheorems.v ===== *)
(** * ConcurrentQueue: a producer with a token, from construction to destruction

    An explicit producer satisfies the laws of CqProducer. *)
From stdpp Require Import gmap.
From S2P Require Import Prelude Lifetime FreeList CqBlock CqPool CqFacts CqPoolFacts CqExplicit.
From S2P Require Import CqRing CqExplicitInv CqExplicitOps CqCalls CqLifecycle.
From S2P Require Import CqProducer CqExplicitBulk.

#[local] Open Scope Z_scope.

Section proofs.
Context {TR : Traits} {OK : TraitsOk} {X T U : Type} `{!CppType X T}.
Context (assign_result : U → T → U * T * completion X unit) (nothrow_assign : bool).

Definition explicit_ops : ProducerOps X T U ExplicitProducer := {|
  no_producer := raw_explicit;
  base_of := producer_base;
  do_construct := explicit_ctor;
  do_enqueue := explicit_enqueue;
  do_dequeue := explicit_dequeue assign_result nothrow_assign;
  do_destroy := explicit_dtor
|}.

Context `{!CppLaws X T}.
Context (assign_ok : ∀ u x u' x' ex, nothrow_assign = true → assign_result u x ≠ (u', x', Throws ex)).
#[local] Abbreviation explicit_at := (explicit_at (X := X) (T := T)).
#[local] Abbreviation fifo_steps := (fifo_steps assign_result).

Lemma size_approx_spec clean e m q owned hdrs idle used H xs :
  explicit_at clean e m q owned hdrs idle used H xs →
  producer_size_approx e = zlen xs ∧ within_size xs.
Proof.
  intros Hat. pose proof (elements_bound _ _ _ _ _ _ _ _ _ _ Hat) as Hn. destruct Hat as (Hpa & _). split.
  - unfold producer_size_approx. rewrite (pa_head _ _ _ _ _ _ _ _ Hpa), (pa_tail _ _ _ _ _ _ _ _ Hpa).
    rewrite circular_less_than_spec by lia. destruct (Z.ltb_spec H (H + zlen xs)); [|lia].
    rewrite u64_sub_l, u64_sub_r, u64_small; lia.
  - destruct (pa_limit _ _ _ _ _ _ _ _ Hpa) as [[|Hlim] _]; [by left|right].
    pose proof (in_use_bound H (zlen xs) (zlen_nonneg xs)) as Hu.
    rewrite <- (pa_length _ _ _ _ _ _ _ _ Hpa) in Hu.
    replace (zlen ([] : list nat)) with 0 in Hlim by done. lia.
Qed.

(** What a producer knows of its blocks. *)
Definition explicit_holds (clean : bool) (e : ExplicitProducer) (h : gmap nat (Block T))
    (ring raws : list nat) (xs : list T) : Prop :=
  ∃ idle used H, ring = idle.*1 ++ used ∧ raws = raws_of e ∧
    producer_at (X := X) clean e h idle used [] H xs ∧ index_at clean e (H / BLOCK_SIZE) used ∧
    (∀ i l, blockIndex e = i :: l → exposed e i used).

Lemma explicit_owning clean e m q owned hdrs xs :
  owning (X := X) explicit_holds clean e m q owned hdrs xs ↔
  ∃ idle used H, explicit_at clean e m q owned hdrs idle used H xs.
Proof.
  split.
  - intros (ring & raws & (idle & used & H & -> & -> & ? & ? & ?) & ?). by exists idle, used, H.
  - intros (idle & used & H & ? & ? & ? & ?). exists (idle.*1 ++ used), (raws_of e).
    split; [|done]. by exists idle, used, H.
Qed.

Lemma explicit_local clean e h h' ring raws xs :
  (∀ p, p ∈ ring → h' !! p = h !! p) → explicit_holds clean e h ring raws xs →
  explicit_holds clean e h' ring raws xs.
Proof.
  intros Hsame (idle & used & H & -> & -> & [] & Hix & Hex). exists idle, used, H.
  rewrite app_nil_r in *. split_and!; [done..| |done|done].
  constructor; rewrite ?app_nil_r; try done.
  - eapply links_ext; [done|]. intros p b Hp Hb. exists b. by rewrite Hsame.
  - intros p f Hp. rewrite Hsame by (apply elem_of_app; left; by eapply idle_elem). by apply pa_idle.
  - intros j p Hj. rewrite Hsame by (apply elem_of_app; right; by eapply list_elem_of_lookup_2).
    by apply pa_used.
  - by intros p ?%elem_of_nil.
Qed.

#[local] Instance explicit_laws : ProducerLaws assign_result explicit_ops.
Proof.
  refine {| holds := explicit_holds; survives := false |}.
  - intros clean e h ring raws xs (idle & used & H & -> & _ & [] & _). by rewrite app_nil_r in *.
  - intros *. apply explicit_local.
  - intros m q owned hdrs fl Hinv Hby. eapply runs_mono; [by eapply explicit_ctor_runs|..]; [|done..].
    intros _ [e [m' q']] (-> & Hfr & Hat). split; [done|]. apply explicit_owning. by exists [], [], 0.
  - intros canAlloc c clean e m q x owned hdrs xs (idle & used & H & Hat)%explicit_owning.
    eapply runs_mono; [by eapply explicit_enqueue_runs|..]; [..|done].
    + intros r [[e' [m' q']] x'] (Hfr & idle' & used' & Hr). split; [done|]. destruct r.
      * destruct Hr as [Hat' Hf]. split; [apply explicit_owning; by exists idle', used', H|done].
      * destruct Hr as (Hat' & -> & _ & Hr). split; [apply explicit_owning; by exists idle', used', H|done].
    + intros ex [[e' [m' q']] x'] (Hfr & _ & Hf & clean' & idle' & used' & Hat' & _).
      split_and!; [done..|]. exists clean'. split; [apply explicit_owning; by exists idle', used', H|done].
  - intros clean e m q u owned hdrs xs (idle & used & H & Hat)%explicit_owning.
    eapply runs_mono; [by eapply explicit_dequeue_runs|..]; [..|done].
    + intros r [[e' [m' q']] u'] (Hfr & idle' & used' & Hr). split; [done|]. destruct xs as [|x xs].
      * destruct Hr as (-> & -> & Hat'). split_and!; [done..|]. apply explicit_owning. by exists idle', used', H.
      * destruct Hr as (-> & Ha & Hat'). split_and!; [done..|]. apply explicit_owning. by exists idle', used', (H + 1).
    + intros ex [[e' [m' q']] u'] (Hfr & idle' & used' & x & xs' & x' & -> & _ & Ha & Hat').
      split; [done|]. exists x, xs', x'. split_and!; [done..|]. apply explicit_owning. by exists idle', used', (H + 1).
  - intros clean e m q owned hdrs xs (idle & used & H & Hat)%explicit_owning. by eapply size_approx_spec.
  - intros e m q owned hdrs xs (idle & used & H & Hat)%explicit_owning.
    eapply explicit_dtor_runs; [exact Hat|]. intros e' m' q' fl Hfr Hinv. split; [done|by exists fl].
Defined.

(** ** The theorems *)

(** C27: An explicit producer is a FIFO queue: whatever is called, and whatever throws, the
    replies are those of the list of the elements, which is never longer than
    MAX_SUBQUEUE_SIZE; an element is refused only if no memory may be or can be allocated,
    or if the limit is reached. *)
Theorem explicit_producer_fifo blockCount l :
  0 ≤ blockCount → sizeof_Block * blockCount < 2 ^ 64 →
  ∃ e m q rs xs,
    session explicit_ops blockCount l (before explicit_ops) = Ok ((e, (m, q)), Returns rs) ∧
    fifo_steps [] l rs xs ∧ producer_size_approx e = zlen xs ∧
    (MAX_SUBQUEUE_SIZE = const_numeric_max ∨ zlen xs ≤ MAX_SUBQUEUE_SIZE).
Proof. exact (session_fifo assign_result explicit_ops blockCount l). Qed.

(** The destructor destroys the elements that are left, no others, and frees all memory, if
    no constructor of an element has thrown. *)
Theorem explicit_producer_destroyed blockCount l :
  0 ≤ blockCount → sizeof_Block * blockCount < 2 ^ 64 → Forall (no_throw (X := X)) l →
  ∃ e m q rs,
    life explicit_ops blockCount l (before explicit_ops) = Ok ((e, (m, q)), Returns rs) ∧
    (∃ xs, fifo_steps [] l rs xs) ∧ blocks m = ∅ ∧ chunks m = ∅ ∧ lost m = 0%nat.
Proof. intros Hc Hb Hno. apply (life_ends assign_result explicit_ops); auto. Qed.
End proofs.

Section witnesses.
#[local] Open Scope nat_scope.
#[local] Existing Instances Demo.number Demo.number_laws Demo.small_blocks Demo.small_blocks_ok.

#[local] Abbreviation demo_ops := (explicit_ops (X := nat) (T := nat) move_assign false).

Lemma explicit_producer_fifo_witness :
  (∃ e m q rs xs, session demo_ops 2 Demo.calls (before demo_ops) = Ok ((e, (m, q)), Returns rs) ∧
     fifo_steps move_assign [] Demo.calls rs xs ∧ producer_size_approx e = zlen xs ∧
     (MAX_SUBQUEUE_SIZE = const_numeric_max ∨ (zlen xs ≤ MAX_SUBQUEUE_SIZE)%Z)) ∧
  match session demo_ops 2 Demo.calls (before demo_ops) with
  | Ok (_, Returns rs) => rs =
      [Enqueued 1 (Returns true); Enqueued 2 (Returns true); Enqueued 3 (Returns true);
       Dequeued 1 (Returns true); Dequeued 2 (Returns true); Enqueued 4 (Returns true);
       Enqueued 5 (Returns true); Counted 3; Dequeued 3 (Returns true); Enqueued 6 (Returns true);
       Enqueued 7 (Returns true); Enqueued 8 (Returns true); Enqueued 9 (Returns false);
       Enqueued 10 (Returns false)]
  | _ => False
  end.
Proof.
  split; [|vm_compute; reflexivity].
  apply (explicit_producer_fifo (X := nat) (T := nat) move_assign false); [done|cbn; lia|cbn; lia].
Defined.

Lemma explicit_producer_destroyed_witness :
  ∃ e m q rs, life demo_ops 2 Demo.calls (before demo_ops) = Ok ((e, (m, q)), Returns rs) ∧
    (∃ xs, fifo_steps move_assign [] Demo.calls rs xs) ∧ blocks m = ∅ ∧ chunks m = ∅ ∧ lost m = 0.
Proof.
  apply (explicit_producer_destroyed (X := nat) (T := nat) move_assign false); [done|cbn; lia|cbn; lia|].
  repeat constructor; intros x' ex; cbn; unfold Demo.copy; (rewrite bool_decide_eq_false_2; [congruence|lia]).
Defined.

(** A constructor that throws where a block begins: [enqueue] leaves the block it has taken
    in the ring, with its flags reset as if it had elements.  The destructor destroys
    elements that have never been there. *)
Lemma throwing_constructor_breaks_destructor :
  match session demo_ops 2
    [Enqueue true Lvalue 1; Enqueue true Lvalue 2; Enqueue true Lvalue 13] (before demo_ops) with
  | Ok (_, Returns rs) =>
      rs = [Enqueued 1 (Returns true); Enqueued 2 (Returns true); Enqueued 13 (Throws 13)]
  | _ => False
  end ∧
  life demo_ops 2
    [Enqueue true Lvalue 1; Enqueue true Lvalue 2; Enqueue true Lvalue 13] (before demo_ops) = Err dead_object.
Proof. split; vm_compute; reflexivity. Qed.
End witnesses.

(** ** ConcurrentQueue: bulk operations that fail

    If [enqueue_bulk] fails after it has taken blocks, what it restores of the block index
    does not fit the ring any more; later calls of the same producer go wrong. *)
Module BulkDemo.
#[local] Existing Instances Demo.number.

(** Numbers, of which 13 cannot be copied, in blocks of two; [granted n] says whether the
    [n]-th request for memory succeeds. *)
Definition traits_for (granted : nat → bool) : Traits := {|
  BLOCK_SIZE := 2; EXPLICIT_BLOCK_EMPTY_COUNTER_THRESHOLD := 2; EXPLICIT_INITIAL_INDEX_SIZE := 2;
  IMPLICIT_INITIAL_INDEX_SIZE := 2; INITIAL_IMPLICIT_PRODUCER_HASH_SIZE := 2;
  EXPLICIT_CONSUMER_CONSUMPTION_QUOTA_BEFORE_ROTATE := 3; Traits_MAX_SUBQUEUE_SIZE := 2 ^ 64 - 1;
  Traits_malloc a n b := granted n && (a + b <=? 4096); sizeof_Block := 64;
  sizeof_BlockIndexHeader := 32; sizeof_BlockIndexEntry := 16; alignof_BlockIndexEntry := 8;
  sizeof_ImplicitHeader := 40; sizeof_ImplicitEntry := 16; alignof_ImplicitEntry := 8;
  sizeof_ExplicitProducer := 128; sizeof_ImplicitProducer := 96; sizeof_ImplicitProducerHash := 24;
  sizeof_ImplicitProducerKVP := 16; alignof_ImplicitProducerKVP := 8;
  ndebug := false
|}.

Section scenario.
Context `{Traits}.
#[local] Abbreviation Q := (ExplicitProducer * (Memory nat * BlockPool))%type.

Definition bulk (l : list nat) : M nat Q (completion nat bool) := fun q =>
  match explicit_enqueue_bulk true Lvalue (zlen l) (q, l) with
  | Ok ((q', _), r) => Ok (q', Returns r)
  | Err f => Err f
  end.

(** Calls, a bulk, and calls; what the bulk and the last calls return, or what goes wrong. *)
Definition scenario (l1 : list (call nat nat)) (l : list nat) (l2 : list (call nat nat)) :
    result (completion nat bool * list (reply nat nat nat)) :=
  let ops := explicit_ops move_assign false in
  match (beginning ops 2 ;; run_calls ops l1 ;; r ← bulk l;
         rs ← run_calls ops l2; mret (r, rs) : M nat Q _) (before ops) with
  | Ok (_, Returns a) => Ok a
  | Ok (_, Throws _) => Err terminated
  | Err f => Err f
  end.
End scenario.
End BulkDemo.

Section examples.
#[local] Open Scope nat_scope.
#[local] Existing Instances Demo.number.

(** The bulk takes the two blocks of the pool, needs a third one and a larger index, for
    which there is no memory.  The two blocks stay in the ring, but [pr_blockIndexSlotsUsed]
    is 0 again: when they are full the fifth element takes the entry of the first one in an
    index that is full: 5 is dequeued instead of 1, and then an object that does not exist. *)
Lemma failed_bulk_overflows_index :
  let calls := [Enqueue true Lvalue 1; Enqueue true Lvalue 2; Enqueue true Lvalue 3;
                Enqueue true Lvalue 4; Enqueue true Lvalue 5] in
  BulkDemo.scenario (H := BulkDemo.traits_for (λ n, negb (n =? 2))) [] (seq 1 6)
    (calls ++ [Dequeue 0]) =
    Ok (Returns false, [Enqueued 1 (Returns true); Enqueued 2 (Returns true);
      Enqueued 3 (Returns true); Enqueued 4 (Returns true); Enqueued 5 (Returns true);
      Dequeued 5 (Returns true)]) ∧
  BulkDemo.scenario (H := BulkDemo.traits_for (λ n, negb (n =? 2))) [] (seq 1 6)
    (calls ++ [Dequeue 0; Dequeue 0]) = Err dead_object.
Proof. split; vm_compute; reflexivity. Qed.

(** The bulk uses a block of the ring again, which moves [pr_blockIndexFront], and then a
    larger index; the constructor of its last element throws.  The handler restores a front
    for which the block that was used again does not count: the entry of the next block is
    written one slot too far, and elements are looked up in the wrong block: 2, which never
    was in the queue, is dequeued instead of 23. *)
Lemma throwing_bulk_confuses_blocks :
  BulkDemo.scenario (H := BulkDemo.traits_for (λ _, true))
    [Enqueue true Lvalue 20; Enqueue true Lvalue 21; Enqueue true Lvalue 22; Enqueue true Lvalue 23;
     Dequeue 0; Dequeue 0]
    [1; 2; 3; 13]
    [Dequeue 0; Enqueue true Lvalue 30; Dequeue 0; Dequeue 0; Dequeue 0] =
  Ok (Throws 13, [Dequeued 22 (Returns true); Enqueued 30 (Returns true); Dequeued 2 (Returns true);
                  Dequeued 30 (Returns true); Dequeued 0 (Returns false)]).
Proof. vm_compute; reflexivity. Qed.
End examples.
