(* ===== verification/CqImplicitIndex.v ===== *)
(** * The block index of an implicit producer

    [index_ok es i n used]: the slots of the index [i] up to its tail point to the entries
    of the blocks of [used], which are the [n]-th, [n+1]-st, ... blocks of the queue; all
    other slots point to entries that are free, and no two slots to the same entry.
    [es] are the entries. *)
From stdpp Require Import gmap.
From S2P Require Import Prelude Lifetime FreeList CqBlock CqPool CqExplicit CqExplicitBulk CqImplicit.
From S2P Require Import CqFacts CqPoolFacts CqRing.

#[local] Open Scope Z_scope.

Section index.
Context {TR : Traits} {OK : TraitsOk} {X T : Type} `{!CppType X T}.
#[local] Abbreviation Q := (ImplicitProducer * (Memory T * BlockPool))%type.
Implicit Types (e : ImplicitProducer) (i : ImplicitIndexHeader) (es : list ImplicitIndexEntry).
Implicit Types (n z j : Z) (used : list nat) (m : Memory T) (q : BlockPool).

(** Slot [z], counted without wrapping, points to entry [k]. *)
Definition points i z (k : nat) : Prop :=
  index i !! Z.to_nat (z mod capacity i) = Some (Some k).

Definition is_free (a : ImplicitIndexEntry) : Prop :=
  key a = INVALID_BLOCK_BASE ∨ value a = Some 0%nat.

(** The entry of a block. *)
Definition entry_for n (p : nat) : ImplicitIndexEntry :=
  mkIndexEntry (u64 (n * BLOCK_SIZE)) (Some p).

Record index_ok es i n used : Prop := {
  ix_capacity : pow2 (capacity i) ∧ capacity i * BLOCK_SIZE ≤ 2 ^ 64 ∧ capacity i ≤ 2 ^ 60;
  ix_tail : 0 ≤ index_tail i < capacity i;
  ix_length : length (index i) = Z.to_nat (capacity i);
  ix_nodup : NoDup (index i);
  ix_room : zlen used ≤ capacity i;
  ix_points z : ∃ k, points i z k ∧ is_Some (es !! k);
  ix_used (j p : nat) : used !! j = Some p →
    ∃ k, points i (index_tail i - zlen used + 1 + Z.of_nat j) k ∧
      es !! k = Some (entry_for (n + Z.of_nat j) p);
  ix_free j : 1 ≤ j ≤ capacity i - zlen used →
    ∃ k a, points i (index_tail i + j) k ∧ es !! k = Some a ∧ is_free a
}.

Definition at_tail z i : ImplicitIndexHeader :=
  mkImplicitHeader (implicit_raw i) (capacity i) (z mod capacity i) (index i).

(** ** Slots *)
Lemma points_inj i z z' k :
  NoDup (index i) → 0 < capacity i → points i z k → points i z' k →
  z mod capacity i = z' mod capacity i.
Proof.
  unfold points. intros Hnd Hc Hz Hz'. pose proof (NoDup_lookup _ _ _ _ Hnd Hz Hz') as Heq.
  pose proof (Z.mod_pos_bound z (capacity i) Hc). pose proof (Z.mod_pos_bound z' (capacity i) Hc). lia.
Qed.

Lemma points_mod i z k : 0 < capacity i → points i (z mod capacity i) k ↔ points i z k.
Proof. intros Hc. unfold points. by rewrite Z.mod_mod by lia. Qed.

Lemma points_shift i z k d : capacity i ≠ 0 → points i (z + d * capacity i) k ↔ points i z k.
Proof. intros Hc. unfold points. by rewrite Z.mod_add. Qed.

Lemma index_slot_run i z k : points i z k → index_slot i (z mod capacity i) = Ok k.
Proof. unfold points, index_slot. intros Hz. by rewrite (vector_at_Some _ _ _ Hz). Qed.

Lemma capacity_pos es i n used : index_ok es i n used → 0 < capacity i.
Proof. intros [[Hp _] _ _ _ _ _ _ _]. pose proof (pow2_bounds _ Hp). lia. Qed.

(** Writing one entry leaves the other slots alone. *)
Lemma points_other i es z z' k k' a b :
  NoDup (index i) → 0 < capacity i → points i z k → points i z' k' → es !! k' = Some a →
  z mod capacity i ≠ z' mod capacity i → <[k := b]> es !! k' = Some a.
Proof.
  intros Hnd Hc Hz Hz' Ha Hne. rewrite list_lookup_insert_ne; [done|]. intros ->. apply Hne.
  by eapply points_inj.
Qed.

Lemma entry_there es i z k :
  (∀ z, ∃ k, points i z k ∧ is_Some (es !! k)) → points i z k → (k < length es)%nat.
Proof.
  intros Hp Hk. destruct (Hp z) as (k' & Hk' & Hs). unfold points in *.
  assert (k' = k) as -> by congruence. by apply lookup_lt_is_Some.
Qed.

Lemma points_kept es i k a :
  (∀ z, ∃ k, points i z k ∧ is_Some (es !! k)) →
  ∀ z, ∃ k', points i z k' ∧ is_Some (<[k := a]> es !! k').
Proof.
  intros Hp z. destruct (Hp z) as (k' & Hk' & Hs). exists k'. split; [done|].
  apply lookup_lt_is_Some. rewrite length_insert. by apply lookup_lt_is_Some.
Qed.

Lemma near_mod c z z' : 0 < c → z < z' < z + c → z mod c ≠ z' mod c.
Proof. intros Hc Hz Heq. assert (z = z'); [|lia]. apply (mod_window c); [lia..|done]. Qed.

Lemma block_base_ne n : u64 (n * BLOCK_SIZE) ≠ INVALID_BLOCK_BASE.
Proof.
  destruct block_size_pow2 as [Hp Hb]. intros Heq.
  pose proof (u64_mod BLOCK_SIZE (n * BLOCK_SIZE) Hp) as Hm. rewrite Heq in Hm.
  rewrite Z.mod_mul, Z.mod_small in Hm by (unfold INVALID_BLOCK_BASE; lia). done.
Qed.

(** ** A block is added *)

(** There is an entry for another block: whether it is given up or used, the index is as
    it should be. *)
Record claimed e i n used (k : nat) : Prop := {
  cl_index : ∃ l, implicit_blockIndex e = i :: l;
  cl_next : nextBlockIndexCapacity e = 2 * capacity i;
  cl_entry : ∃ v, index_entries e !! k = Some (mkIndexEntry (u64 ((n + zlen used) * BLOCK_SIZE)) v);
  cl_publish p : index_ok (<[k := entry_for (n + zlen used) p]> (index_entries e)) i n (used ++ [p]);
  cl_forget : index_ok (<[k := entry_for (n + zlen used) 0]> (index_entries e))
    (at_tail (index_tail i - 1) i) n used
}.

Lemma index_ok_published es i n used k p :
  index_ok es i n used → zlen used < capacity i → points i (index_tail i + 1) k →
  index_ok (<[k := entry_for (n + zlen used) p]> es) (at_tail (index_tail i + 1) i) n (used ++ [p]).
Proof.
  intros Hok Hroom Hk. pose proof (capacity_pos _ _ _ _ Hok) as Hc. pose proof (zlen_nonneg used).
  destruct Hok as [Hcap Ht Hl Hnd Hr Hp Hu Hf].
  assert (Hz : zlen (used ++ [p]) = zlen used + 1) by by rewrite zlen_app.
  pose proof (entry_there es i _ k Hp Hk) as Hkl.
  assert (Hpt : ∀ d (k' : nat), points (at_tail (index_tail i + 1) i) ((index_tail i + 1) mod capacity i + d) k'
    ↔ points i (index_tail i + 1 + d) k').
  { intros d k'. unfold points. simpl. by rewrite Zplus_mod_idemp_l. }
  constructor; rewrite ?Hz; simpl; try done.
  - by apply Z.mod_pos_bound.
  - lia.
  - by apply points_kept.
  - intros j p' Hj.
    replace ((index_tail i + 1) mod capacity i - (zlen used + 1) + 1 + Z.of_nat j)
      with ((index_tail i + 1) mod capacity i + (Z.of_nat j - zlen used)) by lia.
    apply lookup_app_Some in Hj as [Hj|[Hge Hj]].
    + pose proof (lookup_lt_Some _ _ _ Hj). destruct (Hu j p' Hj) as (k' & Hk' & He).
      exists k'. rewrite Hpt.
      replace (index_tail i + 1 + (Z.of_nat j - zlen used))
        with (index_tail i - zlen used + 1 + Z.of_nat j) by lia.
      split; [done|]. eapply points_other; [done..|]. apply not_eq_sym, near_mod; unfold zlen in *; lia.
    + assert (Hj0 : (j - length used = 0)%nat).
      { destruct (j - length used)%nat; [done|]. by rewrite lookup_cons in Hj. }
      rewrite Hj0 in Hj. injection Hj as <-. exists k. rewrite Hpt.
      replace (Z.of_nat j) with (zlen used) by (unfold zlen; lia). rewrite Z.sub_diag, Z.add_0_r.
      split; [done|]. by rewrite list_lookup_insert_eq.
  - intros j Hj. destruct (Hf (j + 1)) as (k' & a & Hk' & Ha & Hfr); [lia|]. exists k', a.
    rewrite Hpt. replace (index_tail i + 1 + j) with (index_tail i + (j + 1)) by lia.
    split_and!; [done| |done]. eapply points_other; [done..|]. apply near_mod; lia.
Qed.

Lemma index_ok_forgotten es i n used k b :
  index_ok es i n used → zlen used < capacity i → points i (index_tail i + 1) k →
  index_ok (<[k := mkIndexEntry b (Some 0%nat)]> es) i n used.
Proof.
  intros Hok Hroom Hk. pose proof (capacity_pos _ _ _ _ Hok) as Hc. pose proof (zlen_nonneg used).
  destruct Hok as [Hcap Ht Hl Hnd Hr Hp Hu Hf].
  pose proof (entry_there es i _ k Hp Hk) as Hkl.
  constructor; try done.
  - by apply points_kept.
  - intros j p' Hj. pose proof (lookup_lt_Some _ _ _ Hj). destruct (Hu j p' Hj) as (k' & Hk' & He).
    exists k'. split; [done|]. eapply points_other; [done..|].
    apply not_eq_sym, near_mod; unfold zlen in *; lia.
  - intros j Hj. destruct (decide (j = 1)) as [->|Hne].
    + eexists k, _. rewrite list_lookup_insert_eq by done. split_and!; [done..|by right].
    + destruct (Hf j Hj) as (k' & a & Hk' & Ha & Hfr). exists k', a.
      split_and!; [done| |done]. eapply points_other; [done..|]. apply near_mod; lia.
Qed.

Lemma at_tail_back i : 0 ≤ index_tail i < capacity i →
  at_tail ((index_tail i + 1) mod capacity i - 1) (at_tail (index_tail i + 1) i) = i.
Proof.
  intros Ht. unfold at_tail. simpl. rewrite Zminus_mod_idemp_l.
  replace (index_tail i + 1 - 1) with (index_tail i) by lia. rewrite Z.mod_small by done. by destruct i.
Qed.

(** ** A block leaves: the first one, ... *)
Lemma index_ok_left es i n p used k :
  index_ok es i n (p :: used) → points i (index_tail i - zlen used) k →
  index_ok (<[k := entry_for n 0]> es) i (n + 1) used.
Proof.
  intros Hok Hk. pose proof (capacity_pos _ _ _ _ Hok) as Hc. pose proof (zlen_nonneg used).
  destruct Hok as [Hcap Ht Hl Hnd Hr Hp Hu Hf].
  assert (Hz : zlen (p :: used) = zlen used + 1) by (unfold zlen; simpl; lia). rewrite Hz in *.
  pose proof (entry_there es i _ k Hp Hk) as Hkl.
  constructor; try done.
  - lia.
  - by apply points_kept.
  - intros j p' Hj. pose proof (lookup_lt_Some _ _ _ Hj). destruct (Hu (S j) p' Hj) as (k' & Hk' & He).
    replace (index_tail i - (zlen used + 1) + 1 + Z.of_nat (S j))
      with (index_tail i - zlen used + 1 + Z.of_nat j) in Hk' by lia.
    replace (n + Z.of_nat (S j)) with (n + 1 + Z.of_nat j) in He by lia.
    exists k'. split; [done|]. eapply points_other; [done..|]. apply near_mod; unfold zlen in *; lia.
  - intros j Hj. destruct (decide (j = capacity i - zlen used)) as [->|Hne].
    + eexists k, _. rewrite list_lookup_insert_eq by done. split_and!; [|done|by right].
      replace (index_tail i + (capacity i - zlen used)) with (index_tail i - zlen used + 1 * capacity i)
        by lia. apply points_shift; [lia|done].
    + destruct (Hf j) as (k' & a & Hk' & Ha & Hfr); [lia|]. exists k', a.
      split_and!; [done| |done]. eapply points_other; [done..|]. apply near_mod; lia.
Qed.

(** ... or the last one, when a bulk operation is taken back. *)
Lemma index_ok_dropped es i n p used k b :
  index_ok es i n (used ++ [p]) → points i (index_tail i) k →
  index_ok (<[k := mkIndexEntry b (Some 0%nat)]> es) (at_tail (index_tail i - 1) i) n used.
Proof.
  intros Hok Hk. pose proof (capacity_pos _ _ _ _ Hok) as Hc. pose proof (zlen_nonneg used).
  destruct Hok as [Hcap Ht Hl Hnd Hr Hp Hu Hf].
  assert (Hz : zlen (used ++ [p]) = zlen used + 1) by by rewrite zlen_app. rewrite Hz in *.
  pose proof (entry_there es i _ k Hp Hk) as Hkl.
  assert (Hpt : ∀ d (k' : nat), points (at_tail (index_tail i - 1) i) ((index_tail i - 1) mod capacity i + d) k'
    ↔ points i (index_tail i - 1 + d) k').
  { intros d k'. unfold points. simpl. by rewrite Zplus_mod_idemp_l. }
  constructor; simpl; try done.
  - by apply Z.mod_pos_bound.
  - lia.
  - by apply points_kept.
  - intros j p' Hj. pose proof (lookup_lt_Some _ _ _ Hj).
    destruct (Hu j p') as (k' & Hk' & He); [by apply lookup_app_l_Some|].
    exists k'. replace ((index_tail i - 1) mod capacity i - zlen used + 1 + Z.of_nat j)
      with ((index_tail i - 1) mod capacity i + (Z.of_nat j - zlen used + 1)) by lia. rewrite Hpt.
    replace (index_tail i - 1 + (Z.of_nat j - zlen used + 1))
      with (index_tail i - (zlen used + 1) + 1 + Z.of_nat j) by lia.
    split; [done|]. eapply points_other; [done..|].
    apply not_eq_sym, near_mod; unfold zlen in *; lia.
  - intros j Hj. destruct (decide (j = 1)) as [->|Hne].
    + eexists k, _. rewrite Hpt. replace (index_tail i - 1 + 1) with (index_tail i) by lia.
      rewrite list_lookup_insert_eq by done. split_and!; [done..|by right].
    + destruct (Hf (j - 1)) as (k' & a & Hk' & Ha & Hfr); [lia|]. exists k', a.
      rewrite Hpt. replace (index_tail i - 1 + j) with (index_tail i + (j - 1)) by lia.
      split_and!; [done| |done]. eapply points_other; [done..|]. apply near_mod; lia.
Qed.
End index.

(** ** Running the members *)
Section runs.
Context {TR : Traits} {OK : TraitsOk} {X T : Type} `{!CppType X T}.
#[local] Abbreviation Q := (ImplicitProducer * (Memory T * BlockPool))%type.
Implicit Types (i : ImplicitIndexHeader) (n z : Z) (used : list nat).

Section members.
Context (e : ImplicitProducer) (s : Memory T * BlockPool).

Lemma runs_iget {A} (f : ImplicitProducer → A) (Qr : A → Q → Prop) (Qt : X → Q → Prop) F :
  Qr (f e) (e, s) → runs (iget f) (e, s) Qr Qt F.
Proof. done. Qed.

Lemma runs_iput f (Qr : () → Q → Prop) (Qt : X → Q → Prop) F :
  Qr tt (f e, s) → runs (iput f) (e, s) Qr Qt F.
Proof. done. Qed.

Lemma runs_pure {A} (r : result A) a (Qr : A → Q → Prop) (Qt : X → Q → Prop) F :
  r = Ok a → Qr a (e, s) → runs (lift r) (e, s) Qr Qt F.
Proof. by intros ->. Qed.

Lemma runs_load_entry k a (Qr : ImplicitIndexEntry → Q → Prop) (Qt : X → Q → Prop) F :
  index_entries e !! k = Some a → Qr a (e, s) → runs (load_entry k) (e, s) Qr Qt F.
Proof. intros Ha HQ. unfold load_entry. apply runs_bind, runs_iget. by rewrite Ha. Qed.

Lemma runs_load_value k a p (Qr : nat → Q → Prop) (Qt : X → Q → Prop) F :
  index_entries e !! k = Some a → value a = Some p → Qr p (e, s) →
  runs (load_value k) (e, s) Qr Qt F.
Proof.
  intros Ha Hp HQ. unfold load_value. apply runs_bind. eapply runs_load_entry; [done|].
  rewrite Hp. by apply runs_ret.
Qed.

Definition with_entry (k : nat) (a : ImplicitIndexEntry) : ImplicitProducer :=
  set_entries (<[k := a]> (index_entries e)) e.

Lemma runs_store_value k a p (Qr : () → Q → Prop) (Qt : X → Q → Prop) F :
  index_entries e !! k = Some a → Qr tt (with_entry k (mkIndexEntry (key a) (Some p)), s) →
  runs (store_value k p) (e, s) Qr Qt F.
Proof.
  intros Ha HQ. unfold store_value. apply runs_bind. eapply runs_load_entry; [done|].
  by apply runs_iput.
Qed.

Lemma runs_store_key k a z (Qr : () → Q → Prop) (Qt : X → Q → Prop) F :
  index_entries e !! k = Some a → Qr tt (with_entry k (mkIndexEntry z (value a)), s) →
  runs (store_key k z) (e, s) Qr Qt F.
Proof.
  intros Ha HQ. unfold store_key. apply runs_bind. eapply runs_load_entry; [done|].
  by apply runs_iput.
Qed.

Lemma runs_implicit_index i l (Qr : ImplicitIndexHeader → Q → Prop) (Qt : X → Q → Prop) F :
  implicit_blockIndex e = i :: l → Qr i (e, s) → runs implicit_index (e, s) Qr Qt F.
Proof. intros Ei HQ. unfold implicit_index. apply runs_bind, runs_iget. by rewrite Ei. Qed.

(** The tail of the index moves to slot [z], counted without wrapping. *)
Lemma runs_store_index_tail i l z (Qr : () → Q → Prop) (Qt : X → Q → Prop) F :
  implicit_blockIndex e = i :: l → pow2 (capacity i) → Qr tt (set_headers (at_tail z i :: l) e, s) →
  runs (store_index_tail (Z.land (u64 z) (u64 (capacity i - 1)))) (e, s) Qr Qt F.
Proof.
  intros Ei Hp HQ. unfold store_index_tail. apply runs_bind, runs_iget. rewrite Ei.
  apply runs_iput. by rewrite mask_mod.
Qed.

Lemma runs_rewind i l (Qr : () → Q → Prop) (Qt : X → Q → Prop) F :
  implicit_blockIndex e = i :: l → pow2 (capacity i) →
  Qr tt (set_headers (at_tail (index_tail i - 1) i :: l) e, s) →
  runs rewind_block_index_tail (e, s) Qr Qt F.
Proof.
  intros Ei Hp HQ. unfold rewind_block_index_tail. apply runs_bind.
  eapply runs_implicit_index; [done|]. by eapply runs_store_index_tail.
Qed.
End members.

(** *** Looking up a block *)
Section lookup.
Context (e : ImplicitProducer) (i : ImplicitIndexHeader) (l : list ImplicitIndexHeader).
Context (n : Z) (used : list nat) (Ei : implicit_blockIndex e = i :: l).
Context (Hok : index_ok (index_entries e) i n used).
Context (j p : nat) (Hj : used !! j = Some p) (Hp : p ≠ 0%nat).
Context (z : Z) (Hz : z / BLOCK_SIZE = n + Z.of_nat j).

Definition slot_of_block : Z := index_tail i - zlen used + 1 + Z.of_nat j.

Lemma get_index_runs s (Qr : Z * ImplicitIndexHeader → Q → Prop) (Qt : X → Q → Prop) F :
  Qr (slot_of_block mod capacity i, i) (e, s) →
  runs (get_block_index_index_for_index (u64 z)) (e, s) Qr Qt F.
Proof.
  intros HQ. pose proof (capacity_pos _ _ _ _ Hok) as Hc. pose proof (lookup_lt_Some _ _ _ Hj) as Hlt.
  pose proof Hok as [(Hpow & Hle & _) Ht _ _ Hr _ Hu _].
  destruct (lookup_lt_is_Some_2 used (length used - 1)) as [t Hlast]; [lia|].
  destruct (Hu _ _ Hlast) as (kt & Hkt & Het). destruct (Hu _ _ Hj) as (k & Hk & He).
  replace (Z.of_nat (length used - 1)) with (zlen used - 1) in * by (unfold zlen; lia).
  replace (index_tail i - zlen used + 1 + (zlen used - 1)) with (index_tail i) in Hkt by lia.
  unfold get_block_index_index_for_index. apply runs_bind. eapply runs_implicit_index; [done|].
  apply runs_bind. eapply runs_pure.
  { rewrite <- (Z.mod_small (index_tail i) (capacity i)) by done. by apply index_slot_run. }
  apply runs_bind. eapply runs_load_entry; [done|]. apply runs_bind, cq_runs_massert.
  { apply negb_true_iff, Z.eqb_neq, block_base_ne. }
  unfold block_start. rewrite clear_bits_block by apply block_size_pow2.
  cbn [key entry_for]. rewrite u64_sub_l, u64_sub_r, Hz, mask_mod by done.
  set (d := zlen used - 1 - Z.of_nat j).
  assert (Hslot : (index_tail i + u64 ((n + Z.of_nat j) * BLOCK_SIZE
    - (n + (zlen used - 1)) * BLOCK_SIZE) / BLOCK_SIZE) mod capacity i
    = slot_of_block mod capacity i).
  { replace ((n + Z.of_nat j) * BLOCK_SIZE - (n + (zlen used - 1)) * BLOCK_SIZE)
      with (- (d * BLOCK_SIZE)) by (unfold d; lia).
    rewrite <- Zplus_mod_idemp_r, offset_wraps; [|done|done|unfold d, zlen in *; lia].
    rewrite Zplus_mod_idemp_r. unfold slot_of_block. f_equal. unfold d. lia. }
  rewrite Hslot. apply runs_bind. destruct ndebug; [by do 2 apply runs_ret|].
  apply runs_bind. eapply runs_pure; [by apply index_slot_run|]. apply runs_bind.
  eapply runs_load_entry; [done|]. apply runs_bind, cq_runs_massert; [by apply Z.eqb_refl|].
  apply runs_bind. eapply runs_load_value; [done..|]. apply cq_runs_massert; [|by apply runs_ret].
  by rewrite bool_decide_eq_false_2.
Qed.

Lemma get_entry_runs s (Qr : nat → Q → Prop) (Qt : X → Q → Prop) F :
  (∀ k, points i slot_of_block k → index_entries e !! k = Some (entry_for (n + Z.of_nat j) p) →
     Qr k (e, s)) →
  runs (get_block_index_entry_for_index (u64 z)) (e, s) Qr Qt F.
Proof.
  intros HQ. destruct (ix_used _ _ _ _ Hok _ _ Hj) as (k & Hk & He).
  unfold get_block_index_entry_for_index. apply runs_bind, get_index_runs.
  eapply runs_pure; [by apply index_slot_run|]. by apply HQ.
Qed.
End lookup.
End runs.

(** ** A larger index *)
Section growth.
Context {TR : Traits} {OK : TraitsOk} {X T : Type} `{!CppType X T}.
#[local] Abbreviation Q := (ImplicitProducer * (Memory T * BlockPool))%type.
Implicit Types (e : ImplicitProducer) (i : ImplicitIndexHeader) (es : list ImplicitIndexEntry).
Implicit Types (n z : Z) (used : list nat) (m : Memory T) (q : BlockPool) (l : list (option nat)).

Lemma implicit_bytes_ok n slots : 0 ≤ n → 0 ≤ slots →
  n * sizeof_ImplicitEntry + slots * 8 ≤ 2 ^ 63 →
  0 ≤ implicit_index_bytes n slots ∧ (Z.to_nat n ≤ entry_room (implicit_index_bytes n slots))%nat ∧
  pointer_room (implicit_index_bytes n slots) n = Z.to_nat slots.
Proof.
  intros Hn Hs Hb. pose proof ok_implicit_header as (? & ? & ?). pose proof ok_implicit_entry as [? _].
  unfold implicit_index_bytes. rewrite (u64_small (sizeof_ImplicitEntry * n)), (u64_small (8 * slots)) by lia.
  rewrite u64_small by lia. unfold entry_room, pointer_room. split_and!; [lia| |].
  - apply Z2Nat.inj_le; [done|apply Z.div_pos; lia|]. apply Z.div_le_lower_bound; lia.
  - f_equal. replace (_ - _ - _ - _ - _) with (slots * 8) by lia. by apply Z.div_mul.
Qed.

(** The pointers are copied, from the one behind the tail to that of the tail. *)
Lemma copy_index_run i (r : nat) : ∀ fuel (j : nat) l,
  pow2 (capacity i) → (0 < r)%nat → Z.of_nat r ≤ capacity i → 0 ≤ index_tail i < capacity i →
  (∀ z, ∃ k, points i z k) → (r ≤ fuel)%nat → (j + r ≤ length l)%nat →
  ∃ l', copy_index fuel i ((index_tail i - Z.of_nat r) mod capacity i) j l = Ok (l', (j + r)%nat) ∧
    length l' = length l ∧ (∀ x : nat, (x < j)%nat → l' !! x = l !! x) ∧
    ∀ x : nat, (x < r)%nat → l' !! (j + x)%nat
      = index i !! Z.to_nat ((index_tail i - Z.of_nat r + 1 + Z.of_nat x) mod capacity i).
Proof.
  induction r as [|r IH]; intros [|fuel] j l Hs Hr Hle Ht Hp Hfuel Hj; [lia..|].
  pose proof (pow2_bounds _ Hs). cbn [copy_index]. rewrite mask_mod, Zplus_mod_idemp_l by done.
  replace (index_tail i - Z.of_nat (S r) + 1) with (index_tail i - Z.of_nat r) by lia.
  destruct (Hp (index_tail i - Z.of_nat r)) as [k Hk]. rewrite (index_slot_run _ _ _ Hk), bind_Ok.
  rewrite decide_True by lia. set (l1 := <[j := Some k]> l).
  assert (Hl1 : length l1 = length l) by apply length_insert.
  assert (Hj1 : l1 !! j = Some (Some k)) by (apply list_lookup_insert_eq; lia).
  assert (Hother : ∀ x : nat, x ≠ j → l1 !! x = l !! x) by (intros; by apply list_lookup_insert_ne).
  destruct (Z.eqb_spec ((index_tail i - Z.of_nat r) mod capacity i) (index_tail i)) as [Heq|Hne].
  - assert (Hr0 : r = 0%nat).
    { assert (index_tail i - Z.of_nat r = index_tail i); [|lia].
      apply (mod_window (capacity i)); [lia..|]. by rewrite Heq, Z.mod_small. }
    subst r. exists l1. replace (j + 1)%nat with (S j) by lia. split_and!; [done..| |].
    + intros x Hx. apply Hother. lia.
    + intros x Hx. replace x with 0%nat by lia. rewrite Nat.add_0_r, Z.add_0_r, Hj1. exact (eq_sym Hk).
  - destruct r as [|r'].
    { exfalso. apply Hne. rewrite Z.sub_0_r. by apply Z.mod_small. }
    destruct (IH fuel (S j) l1) as (l' & Hrun & Hlen' & Hlow & Hhigh); [try done; lia..|].
    exists l'. replace (j + S (S r'))%nat with (S j + S r')%nat by lia.
    split_and!; [done|congruence| |].
    + intros x Hx. rewrite Hlow, Hother by lia. done.
    + intros [|x] Hx.
      * rewrite Nat.add_0_r, Z.add_0_r, Hlow, Hj1 by lia. exact (eq_sym Hk).
      * replace (j + S x)%nat with (S j + x)%nat by lia. rewrite Hhigh by lia.
        do 3 f_equal. lia.
Qed.

Definition fresh_entry : ImplicitIndexEntry := mkIndexEntry INVALID_BLOCK_BASE None.

Lemma make_entries_run (n : nat) : ∀ (x room j : nat) es l,
  (x + n ≤ room)%nat → (j + x + n ≤ length l)%nat →
  ∃ l', make_entries n x room j es l = Ok (es ++ replicate n fresh_entry, l') ∧
    length l' = length l ∧ (∀ y : nat, (y < j + x)%nat → l' !! y = l !! y) ∧
    ∀ y : nat, (y < n)%nat → l' !! (j + x + y)%nat = Some (Some (length es + y)%nat).
Proof.
  induction n as [|n IH]; intros x room j es l Hx Hl.
  { exists l. simpl. rewrite app_nil_r. split_and!; [done..|lia]. }
  cbn [make_entries]. rewrite decide_True by lia.
  destruct (IH (S x) room j (es ++ [fresh_entry]) (<[(j + x)%nat := Some (length es)]> l))
    as (l' & Hrun & Hlen & Hlow & Hhigh); [lia|rewrite length_insert; lia|].
  exists l'. rewrite <- app_assoc in Hrun. rewrite length_insert in Hlen.
  split_and!; [done|done| |].
  - intros y Hy. rewrite Hlow, list_lookup_insert_ne by lia. done.
  - intros [|y] Hy.
    + rewrite !Nat.add_0_r, Hlow by lia. apply list_lookup_insert_eq. lia.
    + replace (j + x + S y)%nat with (j + S x + y)%nat by lia. rewrite Hhigh by lia.
      rewrite length_app. simpl. do 2 f_equal. lia.
Qed.

(** The index that results from copying: the old pointers, and then the new ones. *)
Record grown es i raw c' l' : Prop := {
  gr_length : length l' = Z.to_nat (2 * capacity i);
  gr_old (x : nat) : Z.of_nat x < capacity i →
    l' !! x = index i !! Z.to_nat ((index_tail i + 1 + Z.of_nat x) mod capacity i);
  gr_new (x : nat) : Z.of_nat x < capacity i →
    l' !! (Z.to_nat (capacity i) + x)%nat = Some (Some (length es + x)%nat);
  gr_header : c' = mkImplicitHeader raw (2 * capacity i) (capacity i - 1) l'
}.

Lemma grown_pointer es i raw c' l' used n z k :
  grown es i raw c' l' → index_ok es i n used → points c' z k →
  let x := z mod (2 * capacity i) in
  x < capacity i ∧ points i (index_tail i + 1 + x) k ∧ (k < length es)%nat ∨
  capacity i ≤ x ∧ k = (length es + Z.to_nat (x - capacity i))%nat.
Proof.
  intros [Hl Ho Hn ->] Hok Hk x. pose proof (capacity_pos _ _ _ _ Hok) as Hc.
  unfold points in Hk. simpl in Hk. fold x in Hk.
  pose proof (Z.mod_pos_bound z (2 * capacity i) ltac:(lia)) as Hx. fold x in Hx.
  destruct (decide (x < capacity i)) as [Hlt|Hge]; [left|right].
  - rewrite Ho, Z2Nat.id in Hk by lia. split_and!; [done|done|].
    eapply entry_there; [by eapply ix_points|done].
  - split; [lia|]. replace (Z.to_nat x) with (Z.to_nat (capacity i) + Z.to_nat (x - capacity i))%nat
      in Hk by lia. rewrite Hn in Hk by lia. congruence.
Qed.

Lemma grown_nodup es i raw c' l' used n :
  grown es i raw c' l' → index_ok es i n used → NoDup l'.
Proof.
  intros Hg Hok. pose proof (capacity_pos _ _ _ _ Hok) as Hc. pose proof (ix_nodup _ _ _ _ Hok) as Hnd.
  apply NoDup_alt. intros x y o Hx Hy.
  pose proof (lookup_lt_Some _ _ _ Hx) as Hxl. pose proof (lookup_lt_Some _ _ _ Hy) as Hyl.
  rewrite (gr_length _ _ _ _ _ Hg) in Hxl, Hyl.
  assert (Hmod : ∀ x : nat, (x < Z.to_nat (2 * capacity i))%nat → Z.of_nat x mod (2 * capacity i) = Z.of_nat x)
    by (intros; apply Z.mod_small; lia).
  assert (Hp : ∀ x : nat, l' !! x = Some o → (x < Z.to_nat (2 * capacity i))%nat →
    ∃ k, o = Some k ∧ points c' (Z.of_nat x) k).
  { intros x' Hx' Hxl'. pose proof (Hmod _ Hxl') as Hm.
    assert (Hs : ∃ k, o = Some k).
    { destruct (decide (Z.of_nat x' < capacity i)).
      - rewrite (gr_old _ _ _ _ _ Hg) in Hx' by done.
        destruct (ix_points _ _ _ _ Hok (index_tail i + 1 + Z.of_nat x')) as (k & Hk & _).
        unfold points in Hk. exists k. congruence.
      - replace x' with (Z.to_nat (capacity i) + (x' - Z.to_nat (capacity i)))%nat in Hx' by lia.
        rewrite (gr_new _ _ _ _ _ Hg) in Hx' by lia. injection Hx' as <-. by eexists. }
    destruct Hs as [k ->]. exists k. split; [done|]. unfold points.
    rewrite (gr_header _ _ _ _ _ Hg). simpl. by rewrite Hm, Nat2Z.id. }
  destruct (Hp x Hx Hxl) as (k & -> & Hkx). destruct (Hp y Hy Hyl) as (k' & [= <-] & Hky).
  pose proof (grown_pointer _ _ _ _ _ _ _ _ _ Hg Hok Hkx) as Hcx.
  pose proof (grown_pointer _ _ _ _ _ _ _ _ _ Hg Hok Hky) as Hcy.
  simpl in Hcx, Hcy. rewrite (Hmod _ Hxl) in Hcx. rewrite (Hmod _ Hyl) in Hcy.
  destruct Hcx as [(? & Hpx & ?)|[? ->]], Hcy as [(? & Hpy & ?)|[? ?]]; [|lia..].
  pose proof (points_inj _ _ _ _ Hnd Hc Hpx Hpy) as Heq.
  destruct (decide (x ≤ y)%nat).
  - assert (index_tail i + 1 + Z.of_nat x = index_tail i + 1 + Z.of_nat y); [|lia].
    apply (mod_window (capacity i)); [lia|lia|done].
  - assert (index_tail i + 1 + Z.of_nat y = index_tail i + 1 + Z.of_nat x); [|lia].
    apply (mod_window (capacity i)); [lia|lia|done].
Qed.

Lemma index_ok_grown es i raw c' l' n used :
  grown es i raw c' l' → index_ok es i n used →
  2 * capacity i * BLOCK_SIZE ≤ 2 ^ 64 → 2 * capacity i ≤ 2 ^ 60 →
  index_ok (es ++ replicate (Z.to_nat (capacity i)) fresh_entry) c' n used.
Proof.
  intros Hg Hok Hle Hle2. pose proof (capacity_pos _ _ _ _ Hok) as Hc.
  pose proof (grown_nodup _ _ _ _ _ _ _ Hg Hok) as Hnd'. pose proof (zlen_nonneg used).
  destruct Hok as [(Hpow & _ & Hc60) Ht Hl Hnd Hr Hp Hu Hf].
  destruct Hg as [Hl' Ho Hn ->].
  assert (Hold : ∀ x k, 0 ≤ x < capacity i → points i (index_tail i + 1 + x) k →
    l' !! Z.to_nat x = Some (Some k)) by (intros x k Hx Hk; by rewrite Ho, Z2Nat.id by lia).
  constructor; simpl; [|lia|done|done|lia|..].
  - split_and!; [by apply pow2_double|done..].
  - intros z. unfold points. simpl. pose proof (Z.mod_pos_bound z (2 * capacity i) ltac:(lia)) as Hx.
    set (x := z mod (2 * capacity i)) in *. destruct (decide (x < capacity i)) as [Hlt|Hge].
    + destruct (Hp (index_tail i + 1 + x)) as (k & Hk & Hs). exists k.
      split; [apply Hold; [lia|done]|]. rewrite lookup_app_l; [done|by apply lookup_lt_is_Some].
    + exists (length es + Z.to_nat (x - capacity i))%nat. split.
      * replace (Z.to_nat x) with (Z.to_nat (capacity i) + Z.to_nat (x - capacity i))%nat by lia.
        apply Hn. lia.
      * apply lookup_lt_is_Some. rewrite length_app, length_replicate. lia.
  - intros j p Hj. pose proof (lookup_lt_Some _ _ _ Hj) as Hjl. destruct (Hu j p Hj) as (k & Hk & He).
    exists k. split; [|by apply lookup_app_l_Some]. unfold points. simpl. unfold zlen in *.
    rewrite Z.mod_small by lia. apply Hold; [lia|].
    replace (index_tail i + 1 + _) with (index_tail i - Z.of_nat (length used) + 1 + Z.of_nat j + 1 * capacity i)
      by lia. by apply points_shift; [lia|].
  - intros j Hj. unfold points. simpl. destruct (decide (j ≤ capacity i)).
    + exists (length es + Z.to_nat (j - 1))%nat, fresh_entry. split_and!; [..|by left].
      * rewrite Z.mod_small by lia.
        replace (Z.to_nat (capacity i - 1 + j)) with (Z.to_nat (capacity i) + Z.to_nat (j - 1))%nat by lia.
        apply Hn. lia.
      * rewrite lookup_app_r by lia. apply lookup_replicate. split; [done|lia].
    + destruct (Hf (j - capacity i)) as (k & a & Hk & Ha & Hfr); [lia|]. exists k, a.
      split_and!; [|by apply lookup_app_l_Some|done].
      replace (capacity i - 1 + j) with (j - capacity i - 1 + 1 * (2 * capacity i)) by lia.
      rewrite Z.mod_add, Z.mod_small by lia. apply Hold; [lia|].
      by replace (index_tail i + 1 + (j - capacity i - 1)) with (index_tail i + (j - capacity i)) by lia.
Qed.
End growth.

Section new_index.
Context {TR : Traits} {OK : TraitsOk} {X T : Type} `{!CppType X T}.
#[local] Abbreviation Q := (ImplicitProducer * (Memory T * BlockPool))%type.
#[local] Abbreviation pool_inv := (pool_inv (X := X) (T := T)).
Implicit Types (e : ImplicitProducer) (i : ImplicitIndexHeader) (n : Z) (used : list nat).
Implicit Types (m : Memory T) (q : BlockPool) (owned hdrs : gset nat).

Definition with_index i es e : ImplicitProducer :=
  mkImplicit e (2 * capacity i) (i :: implicit_blockIndex e) es.

(** What [new_block_index] does: nothing, or there is an index [i'], which satisfies
    [good] with the entries [es]. *)
Definition new_index_post e m q owned hdrs fl
    (good : ImplicitIndexHeader → list ImplicitIndexEntry → Prop) (ok : bool) (s : Q) : Prop :=
  let '(e', (m', q')) := s in
  q' = q ∧ blocks m' = blocks m ∧ lost m' = lost m ∧ pool_bytes m' q ∧
  if ok then
    ∃ i' es, (implicit_raw i' ∉ hdrs) ∧ pool_inv m' q owned ({[implicit_raw i']} ∪ hdrs) fl ∧
      e' = with_index i' es e ∧ good i' es
  else e' = e ∧ out_of_memory ∧ pool_inv m' q owned hdrs fl.

Lemma grown_index_runs e m q owned hdrs fl i l n used :
  implicit_blockIndex e = i :: l → index_ok (index_entries e) i n used →
  nextBlockIndexCapacity e = 2 * capacity i →
  2 * capacity i * BLOCK_SIZE ≤ 2 ^ 64 → 2 * capacity i ≤ 2 ^ 60 →
  capacity i * (sizeof_ImplicitEntry + 16) ≤ 2 ^ 63 →
  pool_inv m q owned hdrs fl → pool_bytes m q →
  runs (new_implicit_index (X := X)) (e, (m, q))
    (new_index_post e m q owned hdrs fl (λ i' es, index_ok es i' n used ∧
       capacity i' = 2 * capacity i ∧
       ∀ k, points i' (index_tail i' + 1) k → es !! k = Some fresh_entry)) never no_fault.
Proof.
  intros Ei Hok Hnext Hle Hle2 Hbytes Hinv Hby. pose proof (capacity_pos _ _ _ _ Hok) as Hc.
  pose proof Hok as [(Hpow & _ & _) Ht Hlen _ _ Hp _ _].
  unfold new_implicit_index. apply runs_bind, runs_iget. unfold id. rewrite Ei, Hnext. cbn [hd_error].
  destruct (implicit_bytes_ok (capacity i) (2 * capacity i)) as (Hb0 & Hroom & Hslots); [lia..|].
  rewrite Hslots. apply runs_bind, runs_on_memory.
  eapply malloc_runs; [done..|]. intros raw m' Hb Hlost Hby' Hcase.
  destruct Hcase as [(-> & Hmem & Hinv')|(Hraw & Hrh & _ & _ & Hinv' & _)].
  { apply runs_ret. by split_and!. }
  rewrite bool_decide_eq_false_2 by done. apply runs_bind, runs_bind.
  destruct (copy_index_run i (Z.to_nat (capacity i)) (S (length (index i))) 0
    (replicate (Z.to_nat (2 * capacity i)) None)) as (l1 & Hcopy & Hl1 & _ & Hold);
    [done|lia|lia|done| |lia|rewrite length_replicate; lia|].
  { intros z. destruct (Hp z) as (k & Hk & _). by exists k. }
  rewrite length_replicate in Hl1. rewrite Z2Nat.id in * by lia.
  replace ((index_tail i - capacity i) mod capacity i) with (index_tail i) in Hcopy.
  2: { replace (index_tail i - capacity i) with (index_tail i + (-1) * capacity i) by lia.
       rewrite Z.mod_add by lia. symmetry. by apply Z.mod_small. }
  eapply runs_pure; [exact Hcopy|]. simpl. apply runs_bind, cq_runs_massert.
  { rewrite Z2Nat.id by lia. apply Z.eqb_refl. }
  apply runs_ret, runs_bind.
  destruct (make_entries_run (Z.to_nat (capacity i)) 0 (entry_room (implicit_index_bytes (capacity i)
    (2 * capacity i))) (Z.to_nat (capacity i)) (index_entries e) l1) as (l2 & Hmake & Hl2 & Hlow & Hnew);
    [lia|lia|].
  eapply runs_pure; [exact Hmake|]. apply runs_bind, runs_iput, runs_ret.
  assert (Hg : grown (index_entries e) i raw (mkImplicitHeader raw (2 * capacity i)
    (Z.land (u64 (capacity i - 1)) (u64 (2 * capacity i - 1))) l2) l2).
  { constructor.
    - congruence.
    - intros x Hx. rewrite Hlow by lia. specialize (Hold x). rewrite Nat.add_0_l in Hold.
      rewrite Hold by lia. f_equal. f_equal.
      replace (index_tail i - capacity i + 1 + Z.of_nat x)
        with (index_tail i + 1 + Z.of_nat x + (-1) * capacity i) by lia. apply Z.mod_add. lia.
    - intros x Hx. specialize (Hnew x). rewrite Nat.add_0_r in Hnew. apply Hnew. lia.
    - f_equal. rewrite mask_mod by (by apply pow2_double; [|lia]). apply Z.mod_small. lia. }
  pose proof (index_ok_grown _ _ _ _ _ _ _ Hg Hok Hle Hle2) as Hok'.
  destruct Hg as [_ _ Hgn Hgh]. rewrite Hgh in *.
  split_and!; [done..|]. eexists (mkImplicitHeader raw (2 * capacity i) (capacity i - 1) l2), _.
  split_and!; [exact Hrh|exact Hinv'| |exact Hok'|done|].
  - unfold with_index. simpl. rewrite Z.shiftl_mul_pow2, u64_small by lia. f_equal. lia.
  - intros k. unfold points. simpl. rewrite Z.mod_small by lia.
    replace (Z.to_nat (capacity i - 1 + 1)) with (Z.to_nat (capacity i) + 0)%nat by lia.
    rewrite Hgn by lia. intros [= <-]. rewrite Nat.add_0_r, lookup_app_r, Nat.sub_diag by done.
    apply lookup_replicate. split; [done|lia].
Qed.

(** The first index. *)
Lemma first_index_ok c raw l n :
  pow2 c → c * BLOCK_SIZE ≤ 2 ^ 64 → c ≤ 2 ^ 60 → length l = Z.to_nat c →
  (∀ x : nat, (x < Z.to_nat c)%nat → l !! x = Some (Some x)) →
  index_ok (replicate (Z.to_nat c) fresh_entry) (mkImplicitHeader raw c (c - 1) l) n [].
Proof.
  intros Hpow Hle Hle2 Hl Hx. pose proof (pow2_bounds c Hpow).
  assert (Hp : ∀ z, points (mkImplicitHeader raw c (c - 1) l) z (Z.to_nat (z mod c)) ∧
    replicate (Z.to_nat c) fresh_entry !! Z.to_nat (z mod c) = Some fresh_entry).
  { intros z. pose proof (Z.mod_pos_bound z c ltac:(lia)). split.
    - unfold points. simpl. apply Hx. lia.
    - apply lookup_replicate. split; [done|lia]. }
  constructor; simpl; [done|lia|done| |unfold zlen; simpl; lia|..].
  - apply NoDup_alt. intros x y o Hox Hoy. pose proof (lookup_lt_Some _ _ _ Hox).
    pose proof (lookup_lt_Some _ _ _ Hoy). rewrite Hx in Hox, Hoy by lia. congruence.
  - intros z. destruct (Hp z) as [? Ha]. eexists. split; [done|by eexists].
  - intros j p Hj. done.
  - intros j _. destruct (Hp (c - 1 + j)) as [? Ha]. eexists _, _. split_and!; [done..|by left].
Qed.

Lemma implicit_index_size_ok :
  pow2 IMPLICIT_INITIAL_INDEX_SIZE ∧ IMPLICIT_INITIAL_INDEX_SIZE * BLOCK_SIZE ≤ 2 ^ 64 ∧
  IMPLICIT_INITIAL_INDEX_SIZE ≤ 2 ^ 60 ∧
  IMPLICIT_INITIAL_INDEX_SIZE * sizeof_ImplicitEntry + IMPLICIT_INITIAL_INDEX_SIZE * 8 ≤ 2 ^ 63.
Proof.
  pose proof ok_asserts as Ha. unfold static_asserts in Ha. rewrite !andb_true_iff in Ha.
  destruct Ha as (((_ & Hlt) & Hp) & _). apply Z.ltb_lt in Hlt.
  pose proof ok_implicit_size as [? ?]. pose proof ok_implicit_bytes. pose proof ok_implicit_entry as [? _].
  assert (0 ≤ IMPLICIT_INITIAL_INDEX_SIZE * sizeof_ImplicitEntry) by (apply Z.mul_nonneg_nonneg; lia).
  split_and!; [|done|lia..]. apply power_of_2_pow2; [lia|done].
Qed.

Lemma first_index_runs e m q owned hdrs fl n :
  implicit_blockIndex e = [] → index_entries e = [] →
  nextBlockIndexCapacity e = IMPLICIT_INITIAL_INDEX_SIZE →
  pool_inv m q owned hdrs fl → pool_bytes m q →
  runs (new_implicit_index (X := X)) (e, (m, q))
    (new_index_post e m q owned hdrs fl (λ i' es, index_ok es i' n [])) never no_fault.
Proof.
  intros Ei Ee Hnext Hinv Hby. destruct implicit_index_size_ok as (Hpow & Hle & Hle2 & Hbytes).
  pose proof (pow2_bounds _ Hpow). set (c := IMPLICIT_INITIAL_INDEX_SIZE) in *.
  unfold new_implicit_index. apply runs_bind, runs_iget. unfold id. rewrite Ei, Hnext. cbn [hd_error].
  destruct (implicit_bytes_ok c c) as (Hb0 & Hroom & Hslots); [lia|lia|exact Hbytes|].
  rewrite Hslots. apply runs_bind, runs_on_memory.
  eapply malloc_runs; [done..|]. intros raw m' Hb Hlost Hby' Hcase.
  destruct Hcase as [(-> & Hmem & Hinv')|(Hraw & Hrh & _ & _ & Hinv' & _)].
  { apply runs_ret. by split_and!. }
  rewrite bool_decide_eq_false_2 by done. apply runs_bind, runs_ret, runs_bind. rewrite Ee.
  destruct (make_entries_run (Z.to_nat c) 0 (entry_room (implicit_index_bytes c c)) 0 []
    (replicate (Z.to_nat c) None)) as (l2 & Hmake & Hl2 & _ & Hnew); [lia|rewrite length_replicate; lia|].
  rewrite length_replicate in Hl2.
  eapply runs_pure; [exact Hmake|]. apply runs_bind, runs_iput, runs_ret.
  split_and!; [done..|]. eexists (mkImplicitHeader raw c (c - 1) l2), _.
  split_and!; [exact Hrh|exact Hinv'| |by apply first_index_ok].
  unfold with_index. simpl. rewrite Z.shiftl_mul_pow2, u64_small by lia. f_equal; [lia|].
  do 2 f_equal. rewrite mask_mod by done. replace (0 - 1) with (c - 1 + (-1) * c) by lia.
  rewrite Z.mod_add by lia. apply Z.mod_small. lia.
Qed.
End new_index.
