(* ===== verification/CqImplicitOps.v ===== *)
(** * Implicit producers: the invariant, and that the members keep it

    [implicit_at e m q owned hdrs used H xs]: the elements are [xs], the first of them has
    the index [H]; they are in the blocks [used], which the block index knows.  A block
    whose last element has been dequeued is not the producer's any more. *)
From stdpp Require Import gmap.
From S2P Require Import Prelude Lifetime FreeList FreeListInvariant FreeListStack CqBlock CqPool.
From S2P Require Import CqExplicit CqExplicitBulk CqImplicit CqFacts CqPoolFacts CqRing.
From S2P Require Import CqExplicitInv CqExplicitOps CqCalls CqLifecycle CqImplicitIndex.

#[local] Open Scope Z_scope.

Section invariant.
Context {TR : Traits} {OK : TraitsOk} {X T : Type} `{!CppType X T}.
#[local] Abbreviation unused := (unused (X := X) (T := T)).
#[local] Abbreviation block_at := (block_at_in (X := X) (T := T) implicit_context).
#[local] Abbreviation memory_at := (memory_at (X := X) (T := T)).
#[local] Abbreviation pool_inv := (pool_inv (X := X) (T := T)).
#[local] Abbreviation never := (never (A := X)).
#[local] Abbreviation Q := (ImplicitProducer * (Memory T * BlockPool))%type.
Implicit Types (e : ImplicitProducer) (h : gmap nat (Block T)) (m : Memory T) (q : BlockPool).
Implicit Types (used ring raws : list nat) (xs : list T) (owned hdrs : gset nat) (H n : Z).
Implicit Types (b : Block T) (p : nat) (pb : ProducerBase).

(** The indices and the blocks. *)
Record implicit_blocks_at pb h used H xs : Prop := {
  ib_tail : tailIndex pb = u64 (H + zlen xs);
  ib_head : headIndex pb = u64 H;
  ib_count : dequeueOptimisticCount pb = u64 H ∧ dequeueOvercommit pb = 0;
  ib_tailBlock : used ≠ [] → tailBlock pb = List.last used 0%nat;
  ib_nodup : NoDup used;
  ib_used (j p : nat) : used !! j = Some p →
    ∃ b, h !! p = Some b ∧ block_at b (H / BLOCK_SIZE + Z.of_nat j) H xs ∧ flags_ok b;
  ib_length : zlen used = blocks_in_use H (zlen xs);
  ib_limit : within_limit (zlen used)
}.

(** The first index may not have been allocated; then nothing can be enqueued. *)
Definition implicit_index_at e n used : Prop :=
  match implicit_blockIndex e with
  | [] => used = [] ∧ out_of_memory
  | i :: _ => index_ok (index_entries e) i n used ∧ nextBlockIndexCapacity e = 2 * capacity i
  end.

Definition index_raws e : list nat := implicit_raw <$> implicit_blockIndex e.

Definition implicit_at e m q owned hdrs used H xs : Prop :=
  implicit_blocks_at e (blocks m) used H xs ∧ implicit_index_at e (H / BLOCK_SIZE) used ∧
  memory_at m q used (index_raws e) owned hdrs.

(** ** Bounds *)
Lemma memory_bound m q ring raws owned hdrs :
  memory_at m q ring raws owned hdrs → NoDup ring → sizeof_Block * zlen ring ≤ 2 ^ 63.
Proof.
  intros Hma Hnd. pose proof (ma_bytes _ _ _ _ _ _ Hma) as [Hby _].
  assert (Hlen : (length ring ≤ size (blocks m))%nat).
  { rewrite <- size_dom, <- (size_list_to_set (C := gset nat) ring Hnd).
    apply subseteq_size. intros p Hp. apply elem_of_dom. rewrite elem_of_list_to_set in Hp.
    by apply (memory_at_lookup _ _ _ _ _ _ _ Hma). }
  pose proof block_size_pos. pose proof ok_block as [? _]. unfold zlen. nia.
Qed.

Lemma implicit_bound pb m q used raws owned hdrs H xs :
  implicit_blocks_at pb (blocks m) used H xs → memory_at m q used raws owned hdrs →
  0 ≤ zlen xs < 2 ^ 63.
Proof.
  intros Hib Hma. pose proof (memory_bound _ _ _ _ _ _ Hma (ib_nodup _ _ _ _ _ Hib)) as Hb.
  pose proof (zlen_nonneg xs). pose proof (in_use_bound H (zlen xs) (zlen_nonneg xs)) as Hu.
  rewrite <- (ib_length _ _ _ _ _ Hib) in Hu. pose proof (zlen_nonneg used).
  pose proof block_size_pos. pose proof ok_block as [? _]. split; [done|].
  destruct (decide (zlen used = 0)); nia.
Qed.

(** ** The blocks *)
Lemma implicit_blocks_ext pb h h' used H xs :
  implicit_blocks_at pb h used H xs → (∀ p, p ∈ used → h' !! p = h !! p) →
  implicit_blocks_at pb h' used H xs.
Proof.
  intros [Ht Hh Hc Htb Hnd Hu Hlen Hlim] Hsame. constructor; try done.
  intros j p Hj. rewrite Hsame by (by eapply list_elem_of_lookup_2). by apply Hu.
Qed.

Lemma implicit_not_null pb m q used raws owned hdrs H xs :
  implicit_blocks_at pb (blocks m) used H xs → memory_at m q used raws owned hdrs →
  (H + zlen xs) mod BLOCK_SIZE ≠ 0 →
  ∃ used' b, used = used' ++ [tailBlock pb] ∧ blocks m !! tailBlock pb = Some b ∧ tailBlock pb ≠ 0%nat ∧
    block_at b ((H + zlen xs) / BLOCK_SIZE) H xs ∧ flags_ok b.
Proof.
  intros Hib Hma Hal. pose proof (ib_length _ _ _ _ _ Hib) as Hlen.
  destruct (in_use_last H (zlen xs) (zlen_nonneg xs) Hal) as [Hd Hpos]. rewrite <- Hlen in Hd, Hpos.
  destruct used as [|p used _] using rev_ind; [by unfold zlen in Hpos|].
  rewrite (ib_tailBlock _ _ _ _ _ Hib) by (by destruct used). rewrite last_snoc'.
  assert (Hp : (used ++ [p]) !! length used = Some p) by (by rewrite lookup_app_r, Nat.sub_diag).
  destruct (ib_used _ _ _ _ _ Hib _ _ Hp) as (b & Hb & Hat & Hf). exists used, b.
  split_and!; [done|done| | |done].
  - apply (memory_at_lookup _ _ _ _ _ _ _ Hma). set_solver.
  - rewrite Hd, zlen_app. replace (zlen [p]) with 1 by done.
    by replace (H / BLOCK_SIZE + (zlen used + 1) - 1) with (H / BLOCK_SIZE + Z.of_nat (length used))
      by (unfold zlen; lia).
Qed.

(** An element is added: as the first one of a block, ... *)
Lemma implicit_blocks_first pb pb' h used H xs p b y :
  implicit_blocks_at pb h used H xs → (H + zlen xs) mod BLOCK_SIZE = 0 → p ∉ used →
  h !! p = Some b → unused b → emptied_in implicit_context b 0 → within_limit (zlen used + 1) →
  tailIndex pb' = u64 (H + zlen xs + 1) → headIndex pb' = headIndex pb →
  dequeueOptimisticCount pb' = dequeueOptimisticCount pb →
  dequeueOvercommit pb' = dequeueOvercommit pb → tailBlock pb' = p →
  implicit_blocks_at pb' (<[p := put_element (H + zlen xs) (Some y) b]> h) (used ++ [p]) H (xs ++ [y]).
Proof.
  intros Hib Hal Hp Hb (Hl & Hf & Hv) He Hlim' Et Eh Ec Eo Etb.
  pose proof (in_use_end H (zlen xs) (zlen_nonneg xs) Hal) as Hend.
  destruct Hib as [Ht Hh Hc Htb Hnd Hu Hlen Hlim]. rewrite <- Hlen in Hend.
  pose proof (zlen_nonneg xs). pose proof block_size_pos. pose proof (zlen_nonneg used).
  assert (Hz : zlen (used ++ [p]) = zlen used + 1) by by rewrite zlen_app.
  constructor; rewrite ?Hz; try done; try congruence.
  - rewrite zlen_app. by rewrite Z.add_assoc.
  - intros _. by rewrite last_snoc'.
  - apply NoDup_app. split_and!; [done| |by apply NoDup_singleton]. by intros x Hx ->%list_elem_of_singleton.
  - intros j p' [Hj|[Hge Hj]]%lookup_app_Some.
    + pose proof (list_elem_of_lookup_2 _ _ _ Hj) as Hp'. pose proof (lookup_lt_Some _ _ _ Hj).
      destruct (Hu j p' Hj) as (b' & Hb' & Hat & Hf'). exists b'.
      rewrite lookup_insert_ne by (intros ->; done). split_and!; [done| |done].
      apply block_at_snoc; [done|]. unfold zlen in *. nia.
    + assert (Hj0 : (j - length used = 0)%nat).
      { destruct (j - length used)%nat; [done|]. by rewrite lookup_cons in Hj. }
      rewrite Hj0 in Hj. injection Hj as <-. rewrite lookup_insert_eq. eexists. split_and!; [done| |exact Hf].
      replace (H / BLOCK_SIZE + Z.of_nat j) with (H / BLOCK_SIZE + zlen used) by (unfold zlen; lia).
      unfold put_element. rewrite offset_of_mod, Hal.
      replace 0 with (H + zlen xs - (H / BLOCK_SIZE + zlen used) * BLOCK_SIZE) at 1 by lia.
      apply block_at_place; [|lia..]. apply block_at_fresh; [done..|lia|lia].
  - rewrite zlen_app. replace (zlen [y]) with 1 by done. rewrite in_use_succ, Hal by done. simpl. lia.
Qed.

(** ... or where there is room in the tail block. *)
Lemma implicit_blocks_more pb pb' h used p H xs b y :
  implicit_blocks_at pb h (used ++ [p]) H xs → (H + zlen xs) mod BLOCK_SIZE ≠ 0 → h !! p = Some b →
  tailIndex pb' = u64 (H + zlen xs + 1) → headIndex pb' = headIndex pb →
  dequeueOptimisticCount pb' = dequeueOptimisticCount pb →
  dequeueOvercommit pb' = dequeueOvercommit pb → tailBlock pb' = tailBlock pb →
  implicit_blocks_at pb' (<[p := put_element (H + zlen xs) (Some y) b]> h) (used ++ [p]) H (xs ++ [y]).
Proof.
  intros [Ht Hh Hc Htb Hnd Hu Hlen Hlim] Hal Hb Et Eh Ec Eo Etb.
  destruct (in_use_last H (zlen xs) (zlen_nonneg xs) Hal) as [Hd _]. rewrite <- Hlen, zlen_app in Hd.
  replace (zlen [p]) with 1 in Hd by done.
  pose proof Hnd as (_ & Hpu & _)%NoDup_app. pose proof (zlen_nonneg xs). pose proof block_size_pos as Hbs.
  pose proof (Z.div_mod (H + zlen xs) BLOCK_SIZE block_size_ne) as Hdm.
  pose proof (Z.mod_pos_bound (H + zlen xs) BLOCK_SIZE Hbs).
  constructor; try done; try congruence.
  - rewrite zlen_app. by rewrite Z.add_assoc.
  - intros Hne. rewrite Etb. by apply Htb.
  - intros j p' Hj. pose proof (Hu j p' Hj) as (b' & Hb' & Hat & Hf).
    apply lookup_app_Some in Hj as [Hj|[Hge Hj]].
    + pose proof (list_elem_of_lookup_2 _ _ _ Hj) as Hp'. pose proof (lookup_lt_Some _ _ _ Hj).
      exists b'. rewrite lookup_insert_ne by (intros ->; apply (Hpu _ Hp'); set_solver).
      split_and!; [done| |done]. apply block_at_snoc; [done|]. unfold zlen in *. nia.
    + assert (Hj0 : (j - length used = 0)%nat).
      { destruct (j - length used)%nat; [done|]. by rewrite lookup_cons in Hj. }
      rewrite Hj0 in Hj. injection Hj as <-. rewrite lookup_insert_eq. assert (b' = b) as -> by congruence.
      eexists. split_and!; [done| |exact Hf].
      replace (H / BLOCK_SIZE + Z.of_nat j) with ((H + zlen xs) / BLOCK_SIZE) in *
        by (unfold zlen in *; lia).
      unfold put_element. rewrite offset_of_mod.
      replace ((H + zlen xs) mod BLOCK_SIZE)
        with (H + zlen xs - (H + zlen xs) / BLOCK_SIZE * BLOCK_SIZE) by lia.
      apply block_at_place; [done|lia..].
  - rewrite Hlen, zlen_app. replace (zlen [y]) with 1 by done. rewrite in_use_succ by done.
    rewrite (proj2 (Z.eqb_neq _ _)) by done. lia.
Qed.

(** The first element is in the first block. *)
Lemma implicit_first pb h used H x xs :
  implicit_blocks_at pb h used H (x :: xs) →
  ∃ p used' b, used = p :: used' ∧ h !! p = Some b ∧ block_at b (H / BLOCK_SIZE) H (x :: xs) ∧
    flags_ok b ∧ elements b !! slot_of H = Some (Some x) ∧
    emptied_in implicit_context b (H mod BLOCK_SIZE).
Proof.
  intros Hib. pose proof (ib_length _ _ _ _ _ Hib) as Hlen.
  pose proof (in_use_bound H (zlen (x :: xs)) (zlen_nonneg _)) as Hb. rewrite <- Hlen in Hb.
  destruct used as [|p used]; [unfold zlen in *; simpl in *; lia|].
  destruct (ib_used _ _ _ _ _ Hib 0%nat p eq_refl) as (b & Hp & Hat & Hf). rewrite Z.add_0_r in Hat.
  pose proof (Z.div_mod H BLOCK_SIZE block_size_ne) as Hdm.
  pose proof (Z.mod_pos_bound H BLOCK_SIZE block_size_pos).
  pose proof Hat as [Hl Hsl Hem]. destruct (Hsl (H mod BLOCK_SIZE)) as (o & Ho & Hok); [lia|].
  replace (H / BLOCK_SIZE * BLOCK_SIZE + H mod BLOCK_SIZE) with H in Hok by lia.
  rewrite item_head in Hok. simpl in Hok. subst o.
  replace (Z.max 0 (H - H / BLOCK_SIZE * BLOCK_SIZE)) with (H mod BLOCK_SIZE) in Hem by lia.
  exists p, used, b. unfold slot_of. rewrite offset_of_mod. by split_and!.
Qed.

(** When it is gone the block may be given back. *)
Definition after_release H p used : list nat :=
  if (H + 1) mod BLOCK_SIZE =? 0 then used else p :: used.

Lemma implicit_blocks_dequeue pb pb' h p used H x xs b b' :
  implicit_blocks_at pb h (p :: used) H (x :: xs) → h !! p = Some b →
  elements b' = <[slot_of H := None]> (elements b) →
  emptied_in implicit_context b' (H mod BLOCK_SIZE + 1) → flags_ok b' →
  tailIndex pb' = tailIndex pb → headIndex pb' = u64 (H + 1) →
  dequeueOptimisticCount pb' = u64 (H + 1) → dequeueOvercommit pb' = 0 →
  tailBlock pb' = tailBlock pb →
  implicit_blocks_at pb' (<[p := b']> h) (after_release H p used) (H + 1) xs ∧
  ((H + 1) mod BLOCK_SIZE = 0 → unused b').
Proof.
  intros [Ht Hh Hc Htb Hnd Hu Hlen Hlim] Hb Hel Hem Hf Et Eh Ec Eo Etb.
  assert (Hmod : H mod BLOCK_SIZE = H - H / BLOCK_SIZE * BLOCK_SIZE)
    by (pose proof (Z.div_mod H BLOCK_SIZE block_size_ne); lia).
  unfold slot_of in Hel. rewrite offset_of_mod in Hel. rewrite Hmod in Hel, Hem.
  destruct (Hu 0%nat p eq_refl) as (b0 & Hb0 & Hat & _). assert (b0 = b) as -> by congruence.
  rewrite Z.add_0_r in Hat. pose proof (head_div H) as Hhd.
  pose proof (block_at_dequeued b b' _ H x xs Hat Hhd Hel Hem) as Hat'.
  pose proof Hnd as [Hpu Hnd']%NoDup_cons. pose proof (zlen_nonneg xs). pose proof block_size_pos.
  assert (Hz : zlen (x :: xs) = zlen xs + 1) by (unfold zlen; simpl; lia).
  assert (Hzp : zlen (p :: used) = zlen used + 1) by (unfold zlen; simpl; lia).
  assert (Hused : ∀ j p0 : nat, used !! j = Some p0 → ∃ b0, <[p := b']> h !! p0 = Some b0 ∧
    block_at b0 (H / BLOCK_SIZE + 1 + Z.of_nat j) (H + 1) xs ∧ flags_ok b0).
  { intros j p0 Hj. destruct (Hu (S j) p0 Hj) as (b0 & Hb0' & Hat0 & Hf0). exists b0.
    rewrite lookup_insert_ne by (intros ->; by apply Hpu, (list_elem_of_lookup_2 _ j)).
    split_and!; [done| |done]. replace (H / BLOCK_SIZE + 1 + Z.of_nat j)
      with (H / BLOCK_SIZE + Z.of_nat (S j)) by lia. eapply block_at_later; [done|nia]. }
  split.
  - constructor; try done; try congruence.
    + rewrite Et, Ht, Hz. f_equal. lia.
    + rewrite Etb, Htb by done. unfold after_release. destruct (_ =? 0); [|done]. by destruct used.
    + unfold after_release. by destruct (_ =? 0).
    + rewrite succ_div. unfold after_release. destruct (_ =? 0); [exact Hused|].
      rewrite Z.add_0_r. intros [|j] p0 Hj; simpl in Hj.
      * injection Hj as <-. exists b'. by rewrite lookup_insert_eq, Z.add_0_r.
      * destruct (Hused j p0 Hj) as (b0 & Hb0' & Hat0). exists b0. split; [done|].
        by replace (H / BLOCK_SIZE + Z.of_nat (S j)) with (H / BLOCK_SIZE + 1 + Z.of_nat j) by lia.
    + rewrite in_use_later, <- Hz, <- Hlen by done. unfold after_release. destruct (_ =? 0); lia.
    + unfold after_release. destruct (_ =? 0); [|done]. eapply within_limit_mono; [done|lia].
  - intros Hm. pose proof (Z.div_mod (H + 1) BLOCK_SIZE block_size_ne) as Hdm.
    rewrite succ_div, Hm in Hdm. simpl in Hdm.
    apply (block_at_unused b' _ _ _ Hat'); [lia|done].
Qed.

(** ** The block index *)
Lemma index_raws_base f e : index_raws (on_base f e) = index_raws e.
Proof. done. Qed.

(** An entry that is free is claimed. *)
Lemma claim_runs e s i l n used k :
  implicit_blockIndex e = i :: l → index_ok (index_entries e) i n used →
  nextBlockIndexCapacity e = 2 * capacity i → zlen used < capacity i →
  points i (index_tail i + 1) k →
  runs (store_key (X := X) k (u64 ((n + zlen used) * BLOCK_SIZE)) ;;
        store_index_tail (slot_after i) ;; mret (Some k)) ((e, s) : Q)
    (λ r '(e', s'), s' = s ∧ implicit_base e' = implicit_base e ∧ index_raws e' = index_raws e ∧
       r = Some k ∧ ∃ i', claimed e' i' n used k) never no_fault.
Proof.
  intros Ei Hok Hnext Hroom Hk. destruct (ix_points _ _ _ _ Hok (index_tail i + 1)) as (k' & Hk' & [a Ha]).
  assert (k' = k) as -> by (unfold points in *; congruence).
  pose proof Hok as [(Hpow & _) Ht _ _ _ _ _ _].
  apply runs_bind. eapply runs_store_key; [done|]. apply runs_bind. unfold slot_after.
  eapply runs_store_index_tail; [exact Ei|done|]. apply runs_ret.
  split_and!; [done|done| |done|].
  { unfold index_raws. simpl. by rewrite Ei. }
  pose proof (lookup_lt_Some _ _ _ Ha). exists (at_tail (index_tail i + 1) i). constructor; simpl.
  - by eexists.
  - done.
  - rewrite list_lookup_insert_eq by done. by eexists.
  - intros p. rewrite list_insert_insert_eq. by apply index_ok_published.
  - rewrite list_insert_insert_eq, at_tail_back by done. by apply index_ok_forgotten.
Qed.

Lemma memory_at_chunk m q ring raws owned hdrs fl r :
  pool_inv m q (list_to_set ring ∪ owned) ({[r]} ∪ (list_to_set raws ∪ hdrs)) fl → pool_bytes m q →
  (∀ p, p ∈ ring → p ∉ owned) → (∀ p, p ∈ raws → p ∉ hdrs) → NoDup raws →
  r ∉ (list_to_set raws ∪ hdrs : gset nat) → memory_at m q ring (r :: raws) owned hdrs.
Proof.
  intros Hinv Hby Hring Hraws Hnd Hr. constructor; [|done|done| |].
  - exists fl. simpl. by rewrite <- (assoc_L (∪)).
  - intros p [->|Hp]%elem_of_cons; [set_solver|by apply Hraws].
  - apply NoDup_cons. split; [set_solver|done].
Qed.

(** An index that is full can be doubled. *)
Lemma implicit_growth_bound m q used raws owned hdrs es i n :
  memory_at m q used raws owned hdrs → NoDup used → index_ok es i n used → zlen used = capacity i →
  2 * capacity i * BLOCK_SIZE ≤ 2 ^ 64 ∧ 2 * capacity i ≤ 2 ^ 60 ∧
  capacity i * (sizeof_ImplicitEntry + 16) ≤ 2 ^ 63.
Proof.
  intros Hma Hnd Hok Hfull. pose proof (memory_bound _ _ _ _ _ _ Hma Hnd) as Hb. rewrite Hfull in Hb.
  pose proof (capacity_pos _ _ _ _ Hok). pose proof ok_block as [? _]. pose proof block_size_pos.
  pose proof ok_implicit_entry as [? ?].
  assert (capacity i * (sizeof_ImplicitEntry + 16) ≤ capacity i * sizeof_Block)
    by (apply Z.mul_le_mono_nonneg_l; lia).
  assert (0 < capacity i * sizeof_ImplicitEntry) by (apply Z.mul_pos_pos; lia).
  split_and!; [nia|lia|lia].
Qed.

(** There is an entry for the next block, or memory is needed for a larger index. *)
Lemma insert_entry_runs canAlloc e m q used owned hdrs n :
  implicit_index_at e n used → NoDup used → memory_at m q used (index_raws e) owned hdrs →
  runs (insert_block_index_entry (X := X) canAlloc (u64 ((n + zlen used) * BLOCK_SIZE))) (e, (m, q))
    (λ r '(e', (m', q')), q' = q ∧ blocks m' = blocks m ∧ lost m' = lost m ∧
      implicit_base e' = implicit_base e ∧ memory_at m' q used (index_raws e') owned hdrs ∧
      match r with
      | Some k => ∃ i, claimed e' i n used k
      | None => implicit_index_at e' n used ∧ (canAlloc = false ∨ out_of_memory)
      end) never no_fault.
Proof.
  intros Hix Hnd Hma. unfold insert_block_index_entry. apply runs_bind, runs_iget.
  destruct (implicit_blockIndex e) as [|i l] eqn:Ei.
  { apply runs_ret. split_and!; try done. right. unfold implicit_index_at in Hix. rewrite Ei in Hix. by apply Hix. }
  unfold implicit_index_at in Hix. rewrite Ei in Hix. destruct Hix as [Hok Hnext].
  pose proof (capacity_pos _ _ _ _ Hok) as Hc. pose proof Hok as [(Hpow & _) Ht _ _ Hroom Hp Hu Hf].
  assert (Hslot : slot_after i = (index_tail i + 1) mod capacity i) by by apply mask_mod.
  destruct (Hp (index_tail i + 1)) as (k & Hk & [a Ha]).
  apply runs_bind. eapply runs_pure; [rewrite Hslot; by apply index_slot_run|].
  apply runs_bind. eapply runs_load_entry; [done|]. apply runs_bind.
  destruct (decide (zlen used < capacity i)) as [Hlt|Hge].
  - destruct (Hf 1) as (k' & a' & Hk' & Ha' & Hfree); [lia|].
    assert (k' = k) as -> by (unfold points in *; congruence). assert (a' = a) as -> by congruence.
    assert (Hclaim := claim_runs e (m, q) i l n used k Ei Hok Hnext Hlt Hk).
    destruct (Z.eqb_spec (key a) INVALID_BLOCK_BASE) as [Hkey|Hkey].
    + apply runs_ret. eapply runs_mono; [exact Hclaim|..]; [|done..].
      intros ? [e' [m' q']] ([= -> ->] & Hb & Hr & -> & Hcl). split_and!; try done. by rewrite Hr.
    + destruct Hfree as [|Hv]; [done|]. apply runs_bind. eapply runs_load_value; [done..|]. apply runs_ret.
      eapply runs_mono; [exact Hclaim|..]; [|done..].
      intros ? [e' [m' q']] ([= -> ->] & Hb & Hr & -> & Hcl). split_and!; try done. by rewrite Hr.
  - assert (Hfull : zlen used = capacity i) by lia.
    destruct used as [|p used']; [unfold zlen in *; simpl in *; lia|]. set (used := p :: used') in *.
    destruct (Hu 0%nat p eq_refl) as (k' & Hk' & Hk0). rewrite Hfull, Z.add_0_r in Hk'. rewrite Z.add_0_r in Hk0.
    replace (index_tail i - capacity i + 1) with (index_tail i + 1 + (-1) * capacity i) in Hk' by lia.
    apply points_shift in Hk'; [|lia]. assert (k' = k) as -> by (unfold points in *; congruence).
    rewrite Ha in Hk0. injection Hk0 as ->. simpl.
    rewrite (proj2 (Z.eqb_neq _ _)) by apply block_base_ne.
    apply runs_bind. eapply runs_load_value; [done..|]. apply runs_ret.
    assert (Hp0 : p ≠ 0%nat) by (eapply (memory_at_lookup _ _ _ _ _ _ _ Hma); by left).
    rewrite bool_decide_eq_false_2 by done.
    destruct canAlloc; simpl.
    2:{ apply runs_ret. split_and!; try done; [|by left]. unfold implicit_index_at. by rewrite Ei. }
    destruct (implicit_growth_bound _ _ _ _ _ _ _ _ _ Hma Hnd Hok Hfull) as (Hg1 & Hg2 & Hg3).
    destruct Hma as [[fl Hinv] Hby Hring Hraws Hrnd].
    apply runs_bind. eapply runs_mono; [by eapply grown_index_runs|..]; [|done..].
    intros ok [e1 [m1 q1]] (-> & Hb1 & Hl1 & Hby1 & Hcase). destruct ok; simpl.
    2:{ destruct Hcase as (-> & Hmem & Hinv1). apply runs_ret. split_and!; try done.
        - constructor; [by exists fl|done..].
        - unfold implicit_index_at. by rewrite Ei.
        - by right. }
    destruct Hcase as (i' & es & Hraw & Hinv1 & -> & Hok1 & Hc1 & Hfresh).
    assert (Hma1 : memory_at m1 q used (implicit_raw i' :: index_raws e) owned hdrs)
      by by eapply memory_at_chunk.
    apply runs_bind. eapply runs_implicit_index; [done|].
    destruct (ix_points _ _ _ _ Hok1 (index_tail i' + 1)) as (k1 & Hk1 & _).
    assert (Hslot1 : slot_after i' = (index_tail i' + 1) mod capacity i')
      by (apply mask_mod; apply (ix_capacity _ _ _ _ Hok1)).
    apply runs_bind. eapply runs_pure; [rewrite Hslot1; by apply index_slot_run|].
    apply runs_bind. eapply runs_load_entry; [by apply Hfresh|]. apply runs_bind, cq_runs_massert; [done|].
    eapply runs_mono; [eapply (claim_runs (with_index i' es e) (m1, q) i' _ n used k1); try done; lia|..]; [|done..].
    intros ? [e' [m' q']] ([= -> ->] & Hb & Hr & -> & Hcl). split_and!; try done. rewrite Hr. exact Hma1.
Qed.

(** It is given up. *)
Lemma forget_entry_runs e s i n used k (Qr : () → Q → Prop) (Qt : X → Q → Prop) F :
  claimed e i n used k →
  (∀ e', implicit_base e' = implicit_base e → index_raws e' = index_raws e →
     implicit_index_at e' n used → Qr tt (e', s)) →
  runs (forget_entry k) (e, s) Qr Qt F.
Proof.
  intros [[l Ei] Hnext [v He] _ Hok] HQ. unfold forget_entry. apply runs_bind.
  eapply runs_rewind; [done|by apply (ix_capacity _ _ _ _ Hok)|]. 
  eapply runs_store_value; [exact He|]. simpl. apply HQ; [done| |].
  - unfold index_raws. simpl. by rewrite Ei.
  - split; [exact Hok|done].
Qed.

(** The block is published. *)
Lemma publish_runs e s i n used k p (Qr : () → Q → Prop) (Qt : X → Q → Prop) F :
  claimed e i n used k →
  (∀ e', implicit_base e' = implicit_base e → index_raws e' = index_raws e →
     implicit_index_at e' n (used ++ [p]) → Qr tt (e', s)) →
  runs (store_value k p) (e, s) Qr Qt F.
Proof.
  intros [[l Ei] Hnext [v He] Hok _] HQ. eapply runs_store_value; [exact He|]. apply HQ; [done|done|].
  unfold implicit_index_at. simpl. rewrite Ei. split; [apply Hok|done].
Qed.
End invariant.

(** ** Blocks that are taken and given back *)
Section operations.
Context {TR : Traits} {OK : TraitsOk} {X T : Type} `{!CppType X T}.
#[local] Abbreviation unused := (unused (X := X) (T := T)).
#[local] Abbreviation memory_at := (memory_at (X := X) (T := T)).
#[local] Abbreviation implicit_at := (implicit_at (X := X) (T := T)).
#[local] Abbreviation implicit_blocks_at := (implicit_blocks_at (X := X) (T := T)).
#[local] Abbreviation vacant := (vacant (X := X) (T := T)).
#[local] Abbreviation never := (never (A := X)).
#[local] Abbreviation Q := (ImplicitProducer * (Memory T * BlockPool))%type.
Implicit Types (e : ImplicitProducer) (h : gmap nat (Block T)) (m : Memory T) (q : BlockPool).
Implicit Types (used ring raws : list nat) (xs : list T) (owned hdrs : gset nat) (H n : Z).
Implicit Types (b : Block T) (p : nat).

Lemma release_memory {P} (e : P) m q ring ring' raws owned hdrs p b
    (Qr : () → P * (Memory T * BlockPool) → Prop) Qt F :
  memory_at m q ring raws owned hdrs → ring ≡ₚ p :: ring' → p ∉ ring' →
  blocks m !! p = Some b → unused b →
  (∀ m' q', frame (list_to_set ring' ∪ owned) m m' → memory_at m' q' ring' raws owned hdrs →
     Qr tt (e, (m', q'))) →
  runs (on_snd (add_block_to_free_list (X := X) p)) (e, (m, q)) Qr Qt F.
Proof.
  intros [[fl Hinv] Hby Hr Hraw Hnd] Hperm Hp Hb Hu HQ. apply runs_on_pool, runs_on_free_list.
  assert (Hown : p ∈ list_to_set ring ∪ owned) by (rewrite Hperm; set_solver).
  eapply runs_equal.
  { apply (add_runs (X := X) 0 (mkFreeList (blocks m) (pool_freeListHead q)) p b Hb). by eapply owned_refs. }
  pose proof (pool_inv_pushed _ _ _ _ _ _ _ Hinv Hb Hown Hu) as Hinv'.
  assert (Hpo : p ∉ owned) by (apply Hr; rewrite Hperm; by left).
  assert (Hrest : (list_to_set ring ∪ owned) ∖ {[p]} = list_to_set ring' ∪ owned).
  { rewrite Hperm. set_solver. }
  rewrite Hrest in Hinv'. apply HQ.
  - split; [|done]. intros p' Hp'. simpl. rewrite lookup_insert_ne; [done|]. intros ->.
    rewrite elem_of_union, elem_of_list_to_set in Hp'. naive_solver.
  - constructor; [by exists (p :: fl)| | |done..].
    + destruct (pool_bytes_update _ _ _ _ (put_back (pool_freeListHead q) b) Hby Hb). by constructor.
    + intros p' Hp'. apply Hr. rewrite Hperm. by right.
Qed.

(** Blocks in the context of an implicit producer have a counter, and no flags. *)
Lemma reset_empty_implicit b : reset_empty implicit_context b = Ok (set_dequeued 0 b).
Proof. done. Qed.

Lemma set_empty_implicit b d i : emptied_in implicit_context b d → 0 ≤ d < BLOCK_SIZE →
  set_empty implicit_context i b = Ok (set_dequeued (d + 1) b, d + 1 =? BLOCK_SIZE).
Proof.
  intros He Hd. pose proof block_size_pow2 as [_ Hb]. unfold set_empty, emptied_in in *. simpl in *.
  rewrite He. unfold cassert. rewrite (proj2 (Z.ltb_lt _ _)) by lia. rewrite orb_true_r.
  rewrite u64_small by lia. cbn. do 2 f_equal. lia.
Qed.

(** ** [enqueue] *)
Section enqueue.
Context `{!CppLaws X T}.

Definition implicit_enqueue_returns canAlloc (c : category) m owned hdrs H xs (x : T) (r : bool)
    (s : Q * T) : Prop :=
  let '((e', (m', q')), x') := s in
  frame owned m m' ∧ ∃ used,
    if r then
      implicit_at e' m' q' owned hdrs used H (xs ++ [x]) ∧ forward_ctor (X := X) c x = (x', Returns x)
    else implicit_at e' m' q' owned hdrs used H xs ∧ x' = x ∧ refused canAlloc (zlen xs).

Definition implicit_enqueue_throws (c : category) m owned hdrs H xs (x : T) (ex : X) (s : Q * T) : Prop :=
  let '((e', (m', q')), x') := s in
  frame owned m m' ∧ forward_ctor c x = (x', Throws ex) ∧
  ∃ used, implicit_at e' m' q' owned hdrs used H xs.

Lemma runs_iget_fst {A B} e (s : Memory T * BlockPool) (x : B) (f : ImplicitProducer → A)
    (Qr : A → Q * B → Prop) (Qt : X → Q * B → Prop) F :
  Qr (f e) ((e, s), x) → runs (on_fst (iget f)) ((e, s), x) Qr Qt F.
Proof. done. Qed.

(** ... in the tail block *)
Lemma implicit_enqueue_more canAlloc c e m q x owned hdrs used H xs :
  implicit_at e m q owned hdrs used H xs → (H + zlen xs) mod BLOCK_SIZE ≠ 0 →
  runs (block ← on_fst (iget tailBlock);
        construct_at c block (u64 (H + zlen xs)) ;;
        on_fst (iput (on_base (base_tailIndex (u64 (H + zlen xs + 1))))) ;;
        mret true) ((e, (m, q)), x)
    (implicit_enqueue_returns canAlloc c m owned hdrs H xs x)
    (implicit_enqueue_throws c m owned hdrs H xs x) no_fault.
Proof.
  intros Hat Hal. pose proof Hat as (Hib & Hix & Hma).
  destruct (implicit_not_null _ _ _ _ _ _ _ _ _ Hib Hma Hal) as (used' & b & Hu & Hb & _ & Hbl & _).
  apply runs_bind, runs_iget_fst.
  assert (Hslot : ∃ o, elements b !! Z.to_nat (offset_of (u64 (H + zlen xs))) = Some o ∧ vacant o).
  { destruct Hbl as [_ Hs _]. pose proof (Z.mod_pos_bound (H + zlen xs) BLOCK_SIZE block_size_pos).
    destruct (Hs ((H + zlen xs) mod BLOCK_SIZE)) as (o & Ho & Hok); [lia|]. rewrite offset_of_mod.
    exists o. split; [done|]. pose proof (Z.div_mod (H + zlen xs) BLOCK_SIZE block_size_ne).
    rewrite item_None in Hok by lia. exact Hok. }
  destruct Hslot as (o & Ho & Hv). apply runs_bind. eapply construct_at_runs; [done..| |].
  - intros x' Hf. apply runs_bind, runs_on_fst, runs_iput, runs_ret. split.
    { apply frame_update. apply (ma_ring _ _ _ _ _ _ Hma). rewrite Hu. set_solver. }
    exists used. split; [|done]. split_and!.
    + rewrite Hu in Hib |- *. by eapply implicit_blocks_more.
    + exact Hix.
    + eapply memory_at_update; [exact Hma| |done..]. rewrite Hu. set_solver.
  - intros x' ex Hf. split_and!; [done|done|]. by exists used.
Qed.

(** ... or in a block that has been taken *)
Section first.
Context (e : ImplicitProducer) (m : Memory T) (q : BlockPool) (owned hdrs : gset nat).
Context (i : ImplicitIndexHeader) (used : list nat) (H : Z) (xs : list T) (k p : nat) (b : Block T).
Context (Hib : implicit_blocks_at e (blocks m) used H xs) (Hcl : claimed e i (H / BLOCK_SIZE) used k).
Context (Hma : memory_at m q (used ++ [p]) (index_raws e) owned hdrs) (Hp : p ∉ used).
Context (Hb : blocks m !! p = Some b) (Hun : unused b) (He : emptied_in implicit_context b 0).
Context (Hlim : within_limit (zlen used + 1)) (Hal : (H + zlen xs) mod BLOCK_SIZE = 0).

(** The element is there, and the producer knows. *)
Lemma implicit_at_first e' y : 
  index_raws e' = index_raws e → implicit_index_at e' (H / BLOCK_SIZE) (used ++ [p]) →
  tailIndex e' = u64 (H + zlen xs + 1) → headIndex e' = headIndex e →
  dequeueOptimisticCount e' = dequeueOptimisticCount e →
  dequeueOvercommit e' = dequeueOvercommit e → tailBlock e' = p →
  implicit_at e' (set_blocks (<[p := put_element (H + zlen xs) (Some y) b]> (blocks m)) m) q
    owned hdrs (used ++ [p]) H (xs ++ [y]).
Proof.
  intros Hr Hix Et Eh Ec Eo Etb. split_and!; [by eapply implicit_blocks_first|done|].
  rewrite Hr. eapply memory_at_update; [exact Hma|set_solver|done..].
Qed.

Lemma first_slot : ∃ o, elements b !! Z.to_nat (offset_of (u64 (H + zlen xs))) = Some o ∧ vacant o.
Proof.
  destruct Hun as (Hl & _ & Hv). rewrite offset_of_mod.
  pose proof (Z.mod_pos_bound (H + zlen xs) BLOCK_SIZE block_size_pos).
  destruct (lookup_lt_is_Some_2 (elements b) (Z.to_nat ((H + zlen xs) mod BLOCK_SIZE))) as [o Ho]; [lia|].
  exists o. split; [done|]. by eapply Forall_lookup_1.
Qed.

Lemma first_frame b' : frame owned m (set_blocks (<[p := b']> (blocks m)) m).
Proof. apply frame_update, (ma_ring _ _ _ _ _ _ Hma). set_solver. Qed.

Lemma implicit_enqueue_first canAlloc c x :
  runs ((if nothrow_ctor (T := T) c then mret tt
         else
           on_throw (on_fst (forget_entry k ;; on_snd (add_block_to_free_list p)))
             (construct_at c p (u64 (H + zlen xs)))) ;;
        on_fst (store_value k p) ;;
        on_fst (iput (on_base (base_tailBlock p))) ;;
        if nothrow_ctor (T := T) c then
          block ← on_fst (iget tailBlock);
          construct_at c block (u64 (H + zlen xs)) ;;
          on_fst (iput (on_base (base_tailIndex (u64 (H + zlen xs + 1))))) ;;
          mret true
        else on_fst (iput (on_base (base_tailIndex (u64 (H + zlen xs + 1))))) ;; mret true)
    ((e, (m, q)), x)
    (implicit_enqueue_returns canAlloc c m owned hdrs H xs x)
    (implicit_enqueue_throws c m owned hdrs H xs x) no_fault.
Proof.
  destruct first_slot as (o & Ho & Hv). destruct (nothrow_ctor c) eqn:En.
  - apply runs_bind, runs_ret, runs_bind, runs_on_fst. eapply publish_runs; [exact Hcl|].
    intros e' Hbase Hraws Hix. apply runs_bind, runs_on_fst, runs_iput, runs_bind, runs_iget_fst. simpl.
    apply runs_bind. eapply construct_at_runs; [done..| |].
    + intros x' Hf. apply runs_bind, runs_on_fst, runs_iput, runs_ret. split; [apply first_frame|].
      exists (used ++ [p]). split; [|done]. apply implicit_at_first; simpl; rewrite ?Hbase; done.
    + intros x' ex Hf. apply nothrow_ctor_ok in Hf. congruence.
  - apply runs_bind, runs_on_throw. eapply construct_at_runs; [done..| |].
    + intros x' Hf. apply runs_bind, runs_on_fst. eapply publish_runs; [exact Hcl|].
      intros e' Hbase Hraws Hix. apply runs_bind, runs_on_fst, runs_iput, runs_bind, runs_on_fst, runs_iput, runs_ret.
      split; [apply first_frame|].
      exists (used ++ [p]). split; [|done]. apply implicit_at_first; simpl; rewrite ?Hbase; done.
    + intros x' ex Hf. apply runs_on_fst, runs_bind. eapply forget_entry_runs; [exact Hcl|].
      intros e' Hbase Hraws Hix. eapply release_memory;
        [exact Hma|by rewrite <- Permutation_cons_append|done|done|done|].
      intros m' q' Hfr Hma'. split_and!; [eapply frame_sub; [|exact Hfr]; set_solver|done|].
      exists used. split_and!; [|done|by rewrite Hraws]. rewrite Hbase.
      eapply implicit_blocks_ext; [done|]. intros p' Hp'. apply Hfr. set_solver.
Qed.
End first.

Lemma implicit_frame_returns canAlloc c m m' owned hdrs H xs x r s :
  frame owned m m' → implicit_enqueue_returns canAlloc c m' owned hdrs H xs x r s →
  implicit_enqueue_returns canAlloc c m owned hdrs H xs x r s.
Proof.
  destruct s as [[e1 [m1 q1]] x1]. intros Hf [Hf' Hr]. split; [by eapply frame_trans|done].
Qed.

Lemma implicit_frame_throws c m m' owned hdrs H xs x ex s :
  frame owned m m' → implicit_enqueue_throws c m' owned hdrs H xs x ex s →
  implicit_enqueue_throws c m owned hdrs H xs x ex s.
Proof.
  destruct s as [[e1 [m1 q1]] x1]. intros Hf [Hf' Hr]. split; [by eapply frame_trans|done].
Qed.

Lemma implicit_enqueue_runs canAlloc c e m q x owned hdrs used H xs :
  implicit_at e m q owned hdrs used H xs →
  runs (implicit_enqueue canAlloc c) ((e, (m, q)), x)
    (implicit_enqueue_returns canAlloc c m owned hdrs H xs x)
    (implicit_enqueue_throws c m owned hdrs H xs x) no_fault.
Proof.
  intros Hat. pose proof Hat as (Hib & Hix & Hma). pose proof (implicit_bound _ _ _ _ _ _ _ _ _ Hib Hma) as Hn.
  pose proof Hib as [Ht Hh _ _ Hnd _ Hlen _].
  unfold implicit_enqueue. apply runs_bind, runs_iget_fst. rewrite Ht, aligned_mod, u64_add_r.
  replace (1 + (H + zlen xs)) with (H + zlen xs + 1) by lia.
  destruct (Z.eqb_spec ((H + zlen xs) mod BLOCK_SIZE) 0) as [Hal|Hal]; [|by eapply implicit_enqueue_more].
  apply runs_bind, runs_iget_fst. rewrite Hh. apply runs_bind, cq_runs_massert.
  { rewrite circular_less_than_spec by lia. apply negb_true_iff, Z.ltb_ge. lia. }
  pose proof (is_full_spec H (zlen xs) Hn) as Hfull. destruct (is_full _ _).
  { apply runs_ret. split; [done|]. exists used. split_and!; [done..|]. by right; right. }
  destruct Hfull as [_ Hlim]. apply (within_limit_next H) in Hlim; [|lia|done]. rewrite <- Hlen in Hlim.
  pose proof (in_use_end H (zlen xs) (zlen_nonneg xs) Hal) as Hend. rewrite <- Hlen in Hend.
  apply runs_bind, runs_on_fst. rewrite <- Hend.
  eapply runs_mono; [by eapply insert_entry_runs|..]; [|done..].
  intros r [e1 [m1 q1]] (-> & Hb1 & Hl1 & Hbase & Hma1 & Hr).
  pose proof (frame_blocks owned m m1 Hb1 Hl1) as Hfr1.
  assert (Hib1 : implicit_blocks_at e1 (blocks m1) used H xs) by by rewrite Hb1, Hbase.
  destruct r as [k|].
  2:{ destruct Hr as [Hix1 Hwhy]. apply runs_ret. split; [done|]. exists used. split_and!; [done..|].
      destruct Hwhy; [by left|by right; left]. }
  destruct Hr as [i Hcl]. apply runs_bind, runs_on_fst.
  eapply runs_mono; [by apply requisition_memory|..]; [|done..].
  intros p [e2 [m2 q2]] (-> & Hfr2 & Hcase).
  assert (Hfr : frame owned m m2) by (eapply frame_trans; [done|]; eapply frame_sub; [|done]; set_solver).
  assert (Hib2 : implicit_blocks_at e1 (blocks m2) used H xs).
  { eapply implicit_blocks_ext; [done|]. intros p' Hp'. apply Hfr2. set_solver. }
  destruct Hcase as [(-> & Hwhy & Hma2)|(Hp & Hnew & Hma2 & b & Hb & Hun)].
  - simpl. apply runs_bind, runs_on_fst. eapply forget_entry_runs; [done|].
    intros e' Hbase' Hraws Hix'. apply runs_ret. split; [done|]. exists used.
    split; [split_and!; [by rewrite Hbase'|done|by rewrite Hraws]|]. split; [done|].
    destruct canAlloc; [right; left; by apply Hwhy|by left].
  - rewrite bool_decide_eq_false_2 by done. apply runs_bind, runs_on_fst, runs_on_memory.
    eapply runs_on_block; [exact Hb|by rewrite reset_empty_implicit|].
    set (m3 := set_blocks (<[p := set_dequeued 0 b]> (blocks m2)) m2).
    assert (Hfr3 : frame owned m m3).
    { eapply frame_trans; [done|]. apply frame_update, (ma_ring _ _ _ _ _ _ Hma2). set_solver. }
    rewrite Hend. eapply runs_mono.
    + eapply (implicit_enqueue_first e1 m3 q2 owned hdrs i used H xs k p (set_dequeued 0 b)); try done.
      * eapply implicit_blocks_ext; [done|]. intros p' Hp'. simpl. by rewrite lookup_insert_ne by (by intros ->).
      * eapply memory_at_update; [exact Hma2|set_solver|done..].
      * by apply lookup_insert_eq.
    + intros *. by eapply implicit_frame_returns.
    + intros *. by eapply implicit_frame_throws.
    + done.
Qed.
End enqueue.
End operations.

(** ** [dequeue] *)
Section dequeue.
Context {TR : Traits} {OK : TraitsOk} {X T U : Type} `{!CppType X T}.
Context (assign_result : U → T → U * T * completion X unit) (nothrow_assign : bool).
#[local] Abbreviation memory_at := (memory_at (X := X) (T := T)).
#[local] Abbreviation implicit_at := (implicit_at (X := X) (T := T)).
#[local] Abbreviation implicit_blocks_at := (implicit_blocks_at (X := X) (T := T)).
#[local] Abbreviation Q := (ImplicitProducer * (Memory T * BlockPool))%type.
Implicit Types (e : ImplicitProducer) (m : Memory T) (q : BlockPool) (used : list nat) (xs : list T).
Implicit Types (owned hdrs : gset nat) (H : Z) (b : Block T) (p k : nat).

(** The indices, when the first element is about to be taken. *)
Definition taking H e : ImplicitProducer :=
  on_base (base_headIndex (u64 (H + 1))) (on_base (base_optimistic (u64 (H + 1))) e).

Section first.
Context e m q owned hdrs (i : ImplicitIndexHeader) (l : list ImplicitIndexHeader) p used H (x : T) xs b k.
Context (Hib : implicit_blocks_at e (blocks m) (p :: used) H (x :: xs)).
Context (Ei : implicit_blockIndex e = i :: l) (Hok : index_ok (index_entries e) i (H / BLOCK_SIZE) (p :: used)).
Context (Hnext : nextBlockIndexCapacity e = 2 * capacity i).
Context (Hma : memory_at m q (p :: used) (index_raws e) owned hdrs).
Context (Hb : blocks m !! p = Some b) (Hf : flags_ok b) (Hx : elements b !! slot_of H = Some (Some x)).
Context (Hem : emptied_in implicit_context b (H mod BLOCK_SIZE)).
Context (Hk : points i (index_tail i - zlen used) k).
Context (He : index_entries e !! k = Some (entry_for (H / BLOCK_SIZE) p)).

(** The element is destroyed, and the block given back if it was the last one. *)
Lemma finish_implicit_runs x' (Qr : () → Q → Prop) (Qt : X → Q → Prop) F :
  (∀ e' m' q', frame owned m m' →
     implicit_at e' m' q' owned hdrs (after_release H p used) (H + 1) xs → Qr tt (e', (m', q'))) →
  runs (finish_implicit (X := X) k p (u64 H))
    (taking H e, (set_blocks (<[p := put_element H (Some x') b]> (blocks m)) m, q)) Qr Qt F.
Proof.
  intros HQ. pose proof (Z.mod_pos_bound H BLOCK_SIZE block_size_pos) as Hm.
  set (b' := set_dequeued (H mod BLOCK_SIZE + 1) (put_element H None b)).
  set (m' := set_blocks (<[p := b']> (blocks m)) m).
  assert (Hpo : p ∉ owned) by (apply (ma_ring _ _ _ _ _ _ Hma); by left).
  destruct (implicit_blocks_dequeue e (taking H e) (blocks m) p used H x xs b b' Hib Hb) as [Hib' Hun];
    try done; [apply (ib_count _ _ _ _ _ Hib)|].
  assert (Hma' : memory_at m' q (p :: used) (index_raws e) owned hdrs)
    by (eapply memory_at_update; [exact Hma|by left|done..]).
  unfold finish_implicit. apply runs_bind, runs_on_memory. eapply runs_destroy_element;
    [by apply lookup_insert_eq|by apply list_lookup_insert_eq; eapply lookup_lt_Some|].
  rewrite insert_blocks. apply runs_bind, runs_on_memory.
  eapply runs_on_block; [by apply lookup_insert_eq|by apply set_empty_implicit|].
  rewrite insert_blocks.
  assert (Hsame : set_dequeued (H mod BLOCK_SIZE + 1) (set_elements (<[Z.to_nat (offset_of (u64 H)) := None]>
    (elements (put_element H (Some x') b))) (put_element H (Some x') b)) = b').
  { unfold b', put_element, set_elements, set_dequeued. simpl. by rewrite list_insert_insert_eq. }
  rewrite Hsame. fold m'.
  assert (Hlast : (H mod BLOCK_SIZE + 1 =? BLOCK_SIZE) = ((H + 1) mod BLOCK_SIZE =? 0)).
  { pose proof (Z.div_mod H BLOCK_SIZE block_size_ne).
    pose proof (Z.div_mod (H + 1) BLOCK_SIZE block_size_ne) as Hdm. rewrite succ_div in Hdm.
    pose proof (Z.mod_pos_bound (H + 1) BLOCK_SIZE block_size_pos).
    apply eq_true_iff_eq. rewrite !Z.eqb_eq. revert Hdm.
    destruct (Z.eqb_spec ((H + 1) mod BLOCK_SIZE) 0); split; lia. }
  rewrite Hlast. unfold after_release in *. pose proof (succ_div H) as Hdiv.
  destruct (Z.eqb_spec ((H + 1) mod BLOCK_SIZE) 0) as [Hal|Hal].
  - unfold release_block. apply runs_bind. eapply runs_store_value; [exact He|]. simpl.
    eapply release_memory; [exact Hma'|done| |by apply lookup_insert_eq|by apply Hun|].
    { pose proof (ib_nodup _ _ _ _ _ Hib) as Hnd. by apply NoDup_cons in Hnd as [? _]. }
    intros m2 q2 Hfr Hma2. apply HQ.
    { eapply frame_trans; [by apply (frame_update _ _ p b')|]. eapply frame_sub; [|exact Hfr]. set_solver. }
    split_and!; [|rewrite Hdiv|exact Hma2].
    + eapply implicit_blocks_ext; [exact Hib'|]. intros p' Hp'. apply Hfr. set_solver.
    + unfold implicit_index_at. simpl. rewrite Ei. split; [|done]. by apply (index_ok_left _ _ _ p).
  - apply runs_ret, HQ; [by apply frame_update|]. split_and!; [exact Hib'|rewrite Hdiv, Z.add_0_r|exact Hma'].
    unfold implicit_index_at. simpl. by rewrite Ei.
Qed.

(** The element is assigned to the result, and is gone. *)
Lemma take_implicit_runs u (Qr : bool → Q * U → Prop) (Qt : X → Q * U → Prop) F :
  (∀ u' x' ex, nothrow_assign = true → assign_result u x ≠ (u', x', Throws ex)) →
  (∀ e' m' q' u' x' r, frame owned m m' → assign_result u x = (u', x', r) →
     implicit_at e' m' q' owned hdrs (after_release H p used) (H + 1) xs →
     match r with
     | Returns _ => Qr true ((e', (m', q')), u')
     | Throws ex => Qt ex ((e', (m', q')), u')
     end) →
  runs ((if nothrow_assign then noexcept (move_out assign_result p (u64 H))
         else on_throw (on_fst (finish_implicit k p (u64 H))) (move_out assign_result p (u64 H))) ;;
        on_fst (finish_implicit k p (u64 H)) ;;
        mret true) ((taking H e, (m, q)), u) Qr Qt F.
Proof.
  intros Hnt HQ.
  assert (Hrest : ∀ u' x', assign_result u x = (u', x', Returns tt) →
    runs (on_fst (finish_implicit k p (u64 H)) ;; mret true)
      ((taking H e, (set_blocks (<[p := put_element H (Some x') b]> (blocks m)) m, q)), u') Qr Qt F).
  { intros u' x' Ha. apply runs_bind, runs_on_fst, finish_implicit_runs. intros e' m' q' Hfr Hat.
    apply runs_ret. by apply (HQ e' m' q' u' x' (Returns tt)). }
  apply runs_bind. destruct nothrow_assign.
  - apply runs_noexcept with (Qt := λ _ _, False); [|done].
    eapply move_out_runs; [done..|exact Hrest|]. intros u' x' ex Ha. by eapply Hnt.
  - apply runs_on_throw. eapply move_out_runs; [done..|exact Hrest|].
    intros u' x' ex Ha. apply runs_on_fst, finish_implicit_runs. intros e' m' q' Hfr Hat.
    by apply (HQ e' m' q' u' x' (Throws ex)).
Qed.
End first.

Definition implicit_dequeue_returns owned hdrs m H xs (u : U) (r : bool) (s : Q * U) : Prop :=
  let '((e', (m', q')), u') := s in
  frame owned m m' ∧ ∃ used,
    match xs with
    | [] => r = false ∧ u' = u ∧ implicit_at e' m' q' owned hdrs used H []
    | x :: xs => r = true ∧ (∃ x', assign_result u x = (u', x', Returns tt)) ∧
        implicit_at e' m' q' owned hdrs used (H + 1) xs
    end.

Definition implicit_dequeue_throws owned hdrs m H xs (u : U) (ex : X) (s : Q * U) : Prop :=
  let '((e', (m', q')), u') := s in
  frame owned m m' ∧ ∃ used x xs' x', xs = x :: xs' ∧ assign_result u x = (u', x', Throws ex) ∧
    implicit_at e' m' q' owned hdrs used (H + 1) xs'.

Lemma implicit_dequeue_runs e m q u owned hdrs used H xs :
  (∀ u x u' x' ex, nothrow_assign = true → assign_result u x ≠ (u', x', Throws ex)) →
  implicit_at e m q owned hdrs used H xs →
  runs (implicit_dequeue assign_result nothrow_assign) ((e, (m, q)), u)
    (implicit_dequeue_returns owned hdrs m H xs u) (implicit_dequeue_throws owned hdrs m H xs u) no_fault.
Proof.
  intros Hnt (Hib & Hix & Hma). pose proof (implicit_bound _ _ _ _ _ _ _ _ _ Hib Hma) as Hn.
  pose proof Hib as [Ht Hh [Hc Ho] _ _ _ _ _].
  unfold implicit_dequeue. do 3 (apply runs_bind, runs_iget_fst). rewrite Hc, Ho, Ht, u64_sub_l, Z.sub_0_r.
  rewrite circular_less_than_spec by lia. destruct (Z.ltb_spec H (H + zlen xs)) as [Hlt|Hge].
  2:{ apply runs_ret. split; [done|]. exists used. destruct xs; [done|unfold zlen in *; simpl in *; lia]. }
  destruct xs as [|x xs]; [unfold zlen in *; simpl in *; lia|].
  destruct (implicit_first _ _ _ _ _ _ Hib) as (p & used' & b & -> & Hb & _ & Hf & Hx & Hem).
  apply runs_bind, runs_iget_fst. rewrite Hc. apply runs_bind, runs_on_fst, runs_iput.
  apply runs_bind, cq_runs_massert; [apply Z.leb_le, u64_bound|].
  apply runs_bind, runs_iget_fst. simpl. rewrite Ht, u64_sub_l, Z.sub_0_r.
  rewrite circular_less_than_spec by lia. rewrite (proj2 (Z.ltb_lt _ _)) by lia.
  apply runs_bind, runs_iget_fst. simpl. rewrite Hh. apply runs_bind, runs_on_fst, runs_iput.
  rewrite !u64_add. fold (taking H e). unfold implicit_index_at in Hix.
  destruct (implicit_blockIndex e) as [|i l] eqn:Ei; [by destruct Hix|]. destruct Hix as [Hok Hnext].
  assert (Hp0 : p ≠ 0%nat) by (eapply (memory_at_lookup _ _ _ _ _ _ _ Hma); by left).
  apply runs_bind, runs_on_fst.
  eapply (get_entry_runs (taking H e) i l (H / BLOCK_SIZE) (p :: used') Ei Hok 0 p eq_refl Hp0 H);
    [lia|]. intros k Hk He. rewrite Z.add_0_r in He.
  apply runs_bind, runs_on_fst. eapply runs_load_value; [exact He|done|].
  assert (Hk' : points i (index_tail i - zlen used') k).
  { unfold slot_of_block in Hk. replace (zlen (p :: used')) with (zlen used' + 1) in Hk
      by (unfold zlen; simpl; lia).
    by replace (index_tail i - zlen used') with (index_tail i - (zlen used' + 1) + 1 + Z.of_nat 0) by lia. }
  eapply take_implicit_runs; [done..|by intros; apply Hnt|].
  intros e' m' q' u' x' r Hfr Ha Hat. destruct r as [[]|ex]; (split; [exact Hfr|]).
  - eexists. split_and!; [done|by exists x'|exact Hat].
  - eexists _, x, xs, x'. split_and!; [done|done|exact Hat].
Qed.
End dequeue.
