(* ===== verification/CqImplicitTheorems.v ===== *)
(** * Implicit producers: from construction to destruction

    The constructor, the destructor, and that an implicit producer is a queue as described
    in CqProducer. *)
From stdpp Require Import gmap.
From S2P Require Import Prelude Lifetime FreeList CqBlock CqPool CqExplicit CqImplicit CqFacts.
From S2P Require Import CqPoolFacts CqRing CqExplicitInv CqExplicitOps CqCalls CqLifecycle.
From S2P Require Import CqProducer CqImplicitIndex CqImplicitOps.

#[local] Open Scope Z_scope.

(** ** Construction *)
Section construction.
Context {TR : Traits} {OK : TraitsOk} {X T : Type} `{!CppType X T}.
#[local] Abbreviation implicit_at := (implicit_at (X := X) (T := T)).
#[local] Abbreviation pool_inv := (pool_inv (X := X) (T := T)).
Implicit Types (m : Memory T) (q : BlockPool) (owned hdrs : gset nat).

Lemma implicit_blocks_none (pb : ProducerBase) (h : gmap nat (Block T)) :
  tailIndex pb = 0 → headIndex pb = 0 → dequeueOptimisticCount pb = 0 → dequeueOvercommit pb = 0 →
  implicit_blocks_at (X := X) pb h [] 0 [].
Proof.
  intros Ht Hh Hc Ho. constructor; try done.
  - constructor.
  - unfold blocks_in_use. simpl. pose proof block_size_pos. symmetry.
    rewrite (Z.div_0_l BLOCK_SIZE) by lia. rewrite Z.div_small; [done|lia].
  - exact within_limit_0.
Qed.

Lemma implicit_ctor_runs m q owned hdrs fl :
  pool_inv m q owned hdrs fl → pool_bytes m q →
  runs (implicit_ctor (X := X)) (raw_implicit, (m, q))
    (λ _ '(e, (m', q')), frame owned m m' ∧ implicit_at e m' q' owned hdrs [] 0 []) never no_fault.
Proof.
  intros Hinv Hby. unfold implicit_ctor. apply runs_bind, runs_iput, runs_bind.
  set (e0 := mkImplicit _ IMPLICIT_INITIAL_INDEX_SIZE [] []).
  eapply runs_mono; [by apply (first_index_runs e0 m q owned hdrs fl (0 / BLOCK_SIZE))|..]; [|done..].
  intros ok [e' [m' q']] (-> & Hb & Hl & Hby' & Hcase). apply runs_ret.
  split; [by apply frame_blocks|]. destruct ok.
  - destruct Hcase as (i & es & Hnew & Hinv' & -> & Hok).
    split_and!; [by apply implicit_blocks_none|by split|].
    eapply memory_at_chunk; [|done|by intros ? ?%elem_of_nil..|constructor|set_solver].
    simpl. rewrite !(left_id_L ∅ (∪)). exact Hinv'.
  - destruct Hcase as (-> & Hmem & Hinv'). split_and!; [by apply implicit_blocks_none|by split|].
    constructor; [|done|by intros ? ?%elem_of_nil..|constructor].
    exists fl. simpl. by rewrite !(left_id_L ∅ (∪)).
Qed.
End construction.

(** ** Destruction *)
Section destruction.
Context {TR : Traits} {OK : TraitsOk} {X T : Type} `{!CppType X T}.
#[local] Abbreviation unused := (unused (X := X) (T := T)).
#[local] Abbreviation memory_at := (memory_at (X := X) (T := T)).
#[local] Abbreviation implicit_at := (implicit_at (X := X) (T := T)).
#[local] Abbreviation implicit_blocks_at := (implicit_blocks_at (X := X) (T := T)).
#[local] Abbreviation slot_ok := (slot_ok (X := X) (T := T)).
#[local] Abbreviation pool_inv := (pool_inv (X := X) (T := T)).
#[local] Abbreviation Q := (ImplicitProducer * (Memory T * BlockPool))%type.
Implicit Types (m : Memory T) (q : BlockPool) (owned hdrs : gset nat) (b : Block T) (xs : list T).
Implicit Types (n H j : Z) (left gone : list nat) (p block : nat).

(** What is in a block; how many elements have been dequeued is not of interest any more. *)
Record slots_at b n H xs : Prop := {
  sl_length : length (elements b) = Z.to_nat BLOCK_SIZE;
  sl_slots j : 0 ≤ j < BLOCK_SIZE →
    ∃ o, elements b !! Z.to_nat j = Some o ∧ slot_ok o (item H xs (n * BLOCK_SIZE + j));
  sl_flags : flags_ok b
}.

Lemma slots_at_unused b n H xs :
  slots_at b n H xs → (n + 1) * BLOCK_SIZE ≤ H ∨ xs = [] → unused b.
Proof.
  intros [Hl Hs Hf] Hn. split_and!; [done|done|]. pose proof block_size_pos.
  apply Forall_lookup. intros j o Ho. pose proof (lookup_lt_Some _ _ _ Ho).
  destruct (Hs (Z.of_nat j) ltac:(lia)) as (o' & Ho' & Hok). rewrite Nat2Z.id in Ho'.
  assert (o' = o) as -> by congruence.
  destruct Hn as [Hn| ->]; [by rewrite item_None in Hok by lia|].
  unfold item in Hok. destruct (_ <? _); exact Hok.
Qed.

(** The first element is gone: blocks that it is not in, and the one that it was in. *)
Lemma slots_at_later b n H x xs :
  slots_at b n H (x :: xs) → H / BLOCK_SIZE ≠ n → slots_at b n (H + 1) xs.
Proof.
  intros [Hl Hs Hf] Hn. constructor; [done| |done]. intros j Hj. rewrite (item_tail H x).
  destruct (Z.eqb_spec (n * BLOCK_SIZE + j) H) as [<-|]; [|by apply Hs]. exfalso. apply Hn.
  rewrite Z.div_add_l by apply block_size_ne. rewrite Z.div_small by done. lia.
Qed.

Lemma slots_at_destroyed b H x xs :
  slots_at b (H / BLOCK_SIZE) H (x :: xs) →
  elements b !! slot_of H = Some (Some x) ∧
  slots_at (put_element H None b) (H / BLOCK_SIZE) (H + 1) xs.
Proof.
  intros [Hl Hs Hf]. pose proof (Z.div_mod H BLOCK_SIZE block_size_ne) as Hdm.
  pose proof (Z.mod_pos_bound H BLOCK_SIZE block_size_pos). unfold slot_of, put_element.
  rewrite offset_of_mod. split.
  - destruct (Hs (H mod BLOCK_SIZE)) as (o & Ho & Hok); [lia|].
    replace (H / BLOCK_SIZE * BLOCK_SIZE + H mod BLOCK_SIZE) with H in Hok by lia.
    rewrite item_head in Hok. simpl in Hok. by subst o.
  - constructor; simpl; [by rewrite length_insert| |done]. intros j Hj. rewrite (item_tail H x).
    destruct (Z.eqb_spec (H / BLOCK_SIZE * BLOCK_SIZE + j) H) as [Heq|Hne].
    + exists None. split; [|by left]. replace (H mod BLOCK_SIZE) with j by lia.
      apply list_lookup_insert_eq. lia.
    + rewrite list_lookup_insert_ne by lia. by apply Hs.
Qed.

Section loop.
Context (e : ImplicitProducer) (i : ImplicitIndexHeader) (l : list ImplicitIndexHeader).
Context (H0 E : Z) (used : list nat) (owned hdrs : gset nat).
Context (Ei : implicit_blockIndex e = i :: l) (Hok : index_ok (index_entries e) i (H0 / BLOCK_SIZE) used).
Context (Hlen : zlen used = blocks_in_use H0 (E - H0)) (Hnd : NoDup used).

(** The blocks [gone] have been given back, the next element is the [H]-th, and [block] is
    the one that the element before it was in. *)
Record draining gone left block m q H xs : Prop := {
  dr_used : used = gone ++ left;
  dr_index : H0 ≤ H ∧ H + zlen xs = E;
  dr_blocks (j p : nat) : left !! j = Some p →
    ∃ b, blocks m !! p = Some b ∧ slots_at b (H0 / BLOCK_SIZE + zlen gone + Z.of_nat j) H xs;
  dr_memory : memory_at m q left (index_raws e) owned hdrs;
  dr_block : block = 0%nat ∧ gone = [] ∧ H = H0 ∨
    (∃ k, left = block :: k) ∧ H0 / BLOCK_SIZE + zlen gone = (H - 1) / BLOCK_SIZE
}.

(** The next element is in one of the blocks. *)
Lemma draining_next H : H0 ≤ H < E → ∃ j p : nat,
  used !! j = Some p ∧ H / BLOCK_SIZE = H0 / BLOCK_SIZE + Z.of_nat j.
Proof.
  intros HH. pose proof (in_use_div H0 (E - H0) ltac:(lia)) as Hd. rewrite <- Hlen in Hd.
  pose proof (head_div H). pose proof (head_div H0). pose proof block_size_pos.
  assert (H0 / BLOCK_SIZE ≤ H / BLOCK_SIZE) by (apply Z.div_le_mono; lia).
  assert (H / BLOCK_SIZE < H0 / BLOCK_SIZE + zlen used) by nia.
  destruct (lookup_lt_is_Some_2 used (Z.to_nat (H / BLOCK_SIZE - H0 / BLOCK_SIZE))) as [p Hp];
    [unfold zlen in *; lia|].
  exists (Z.to_nat (H / BLOCK_SIZE - H0 / BLOCK_SIZE)), p. split; [done|lia].
Qed.

(** The block that the next element is in, ... *)
Record entered gone left p m q H xs : Prop := {
  en_used : used = gone ++ left;
  en_index : H0 ≤ H ∧ H + zlen xs = E;
  en_blocks (j p : nat) : left !! j = Some p →
    ∃ b, blocks m !! p = Some b ∧ slots_at b (H0 / BLOCK_SIZE + zlen gone + Z.of_nat j) H xs;
  en_memory : memory_at m q left (index_raws e) owned hdrs;
  en_block : (∃ k, left = p :: k) ∧ H0 / BLOCK_SIZE + zlen gone = H / BLOCK_SIZE
}.

Lemma enter_entry gone left m q H x xs (Qr : nat → Q → Prop) Qt F :
  used = gone ++ left → H0 ≤ H → H + zlen (x :: xs) = E →
  H0 / BLOCK_SIZE + zlen gone = H / BLOCK_SIZE →
  (∀ j p : nat, left !! j = Some p →
    ∃ b, blocks m !! p = Some b ∧ slots_at b (H0 / BLOCK_SIZE + zlen gone + Z.of_nat j) H (x :: xs)) →
  memory_at m q left (index_raws e) owned hdrs →
  (∀ p, entered gone left p m q H (x :: xs) → Qr p (e, (m, q))) →
  runs (entry ← get_block_index_entry_for_index (X := X) (u64 H); load_value entry) (e, (m, q)) Qr Qt F.
Proof.
  intros Hu HH HE Hg Hbl Hma HQ. unfold zlen in HE. simpl in HE.
  destruct (draining_next H) as (j & p & Hj & Hdiv); [lia|].
  assert (j = length gone) as -> by (unfold zlen in Hg; lia).
  rewrite Hu, lookup_app_r, Nat.sub_diag in Hj by done.
  destruct left as [|p' k]; [done|]. injection Hj as ->.
  assert (Hp0 : p ≠ 0%nat) by (eapply (memory_at_lookup _ _ _ _ _ _ _ Hma); by left).
  apply runs_bind. eapply (get_entry_runs e i l _ used Ei Hok (length gone) p); [|done|exact Hdiv|].
  { by rewrite Hu, lookup_app_r, Nat.sub_diag. }
  intros k' _ He. eapply runs_load_value; [exact He|done|]. apply HQ. constructor; try done.
  split; [by exists k|done].
Qed.

Lemma enter_block gone left block m q H x xs (Qr : nat → Q → Prop) Qt F :
  draining gone left block m q H (x :: xs) →
  (∀ gone' left' p m' q', frame owned m m' → entered gone' left' p m' q' H (x :: xs) →
     Qr p (e, (m', q'))) →
  runs (if (Z.land (u64 H) (BLOCK_SIZE - 1) =? 0) || bool_decide (block = 0%nat) then
          (if bool_decide (block = 0%nat) then mret tt
           else on_snd (add_block_to_free_list (X := X) block)) ;;
          entry ← get_block_index_entry_for_index (X := X) (u64 H);
          load_value entry
        else mret block) (e, (m, q)) Qr Qt F.
Proof.
  intros [Hu [HH HE] Hbl Hma Hb] HQ. rewrite aligned_mod.
  destruct Hb as [(-> & -> & ->)|[[k ->] Hdiv]].
  { rewrite bool_decide_eq_true_2, orb_true_r by done. apply runs_bind, runs_ret.
    eapply enter_entry; [exact Hu|done|done|unfold zlen; simpl; lia|exact Hbl|done|].
    intros p Hen. by eapply HQ. }
  assert (Hin : block ∈ block :: k) by by left.
  destruct (memory_at_lookup _ _ _ _ _ _ _ Hma Hin) as [_ Hne].
  rewrite bool_decide_eq_false_2, orb_false_r by done.
  pose proof (Z.div_mod H BLOCK_SIZE block_size_ne). pose proof (succ_div (H - 1)) as Hs.
  replace (H - 1 + 1) with H in Hs by lia.
  destruct (Z.eqb_spec (H mod BLOCK_SIZE) 0) as [Hal|Hal].
  - destruct (Hbl 0%nat block eq_refl) as (b & Hb & Hsl). rewrite Z.add_0_r in Hsl.
    assert (Hdrop : used = (gone ++ [block]) ++ k) by by rewrite <- app_assoc.
    assert (Hz : zlen (gone ++ [block]) = zlen gone + 1) by by rewrite zlen_app.
    assert (Hk : block ∉ k).
    { rewrite Hu in Hnd. apply NoDup_app in Hnd as (_ & _ & Hnd'). by apply NoDup_cons in Hnd' as [? _]. }
    apply runs_bind. eapply release_memory; [exact Hma|done|done|exact Hb| |].
    { eapply slots_at_unused; [exact Hsl|left]. rewrite Hdiv. lia. }
    intros m' q' Hfr Hma'. eapply enter_entry; [exact Hdrop|done|done|lia| |exact Hma'|].
    + intros j p Hj. destruct (Hbl (S j) p Hj) as (b' & Hb' & Hsl'). exists b'. split.
      * destruct Hfr as [Hfr _]. rewrite Hfr; [done|]. apply elem_of_union_l, elem_of_list_to_set.
        by eapply list_elem_of_lookup_2.
      * rewrite Hz. by replace (H0 / BLOCK_SIZE + (zlen gone + 1) + Z.of_nat j)
          with (H0 / BLOCK_SIZE + zlen gone + Z.of_nat (S j)) by lia.
    + intros p Hen. eapply HQ; [|exact Hen]. eapply frame_sub; [|exact Hfr]. set_solver.
  - apply runs_ret. eapply HQ; [done|]. constructor; try done. split; [by exists k|]. lia.
Qed.

(** ... and the element is destroyed. *)
Lemma destroy_next gone left p m q H x xs (Qr : () → Q → Prop) Qt F :
  entered gone left p m q H (x :: xs) →
  (∀ m', frame owned m m' → draining gone left p m' q (H + 1) xs → Qr tt (e, (m', q))) →
  runs (on_memory (destroy_element (X := X) p (u64 H))) (e, (m, q)) Qr Qt F.
Proof.
  intros [Hu [HH HE] Hbl Hma [[k ->] Hdiv]] HQ.
  destruct (Hbl 0%nat p eq_refl) as (b & Hb & Hsl). rewrite Z.add_0_r, Hdiv in Hsl.
  destruct (slots_at_destroyed _ _ _ _ Hsl) as [Hx Hsl'].
  assert (Hk : p ∉ k).
  { rewrite Hu in Hnd. apply NoDup_app in Hnd as (_ & _ & Hnd'). by apply NoDup_cons in Hnd' as [? _]. }
  apply runs_on_memory. eapply runs_destroy_element; [exact Hb|exact Hx|]. apply HQ.
  { apply frame_update, (ma_ring _ _ _ _ _ _ Hma). by left. }
  unfold zlen in HE. simpl in HE. constructor; [done|unfold zlen; lia| | |].
  - intros [|j] p' Hj.
    + injection Hj as <-. eexists. simpl. rewrite lookup_insert_eq. split; [done|].
      rewrite Z.add_0_r, Hdiv. exact Hsl'.
    + destruct (Hbl (S j) p' Hj) as (b' & Hb' & Hsl2). exists b'. simpl.
      rewrite lookup_insert_ne by (intros ->; by apply Hk, (list_elem_of_lookup_2 _ j)).
      split; [done|]. eapply slots_at_later; [exact Hsl2|]. lia.
  - eapply memory_at_update; [exact Hma|by left|exact Hb|done..].
  - right. split; [by exists k|]. by replace (H + 1 - 1) with H by lia.
Qed.

Lemma destroy_remaining_runs xs (Qr : () → Q → Prop) Qt F : ∀ fuel gone left block m q H,
  (length xs ≤ fuel)%nat → zlen xs < 2 ^ 63 → draining gone left block m q H xs →
  (∀ gone' left' block' m' q', frame owned m m' → draining gone' left' block' m' q' E [] →
     Qr tt (e, (m', q'))) →
  runs (destroy_remaining (X := X) fuel (u64 H) (u64 E) block) (e, (m, q)) Qr Qt F.
Proof.
  induction xs as [|x xs IH]; intros fuel gone left block m q H Hfuel Hz Hdr HQ;
    destruct (dr_index _ _ _ _ _ _ _ Hdr) as [HH HE]; unfold zlen in HE, Hz; simpl in HE, Hz.
  - replace H with E in * by lia.
    assert (Hend : runs (mret tt : M X Q _) (e, (m, q)) Qr Qt F) by by eapply runs_ret, HQ.
    destruct fuel; simpl; by rewrite Z.eqb_refl.
  - destruct fuel as [|fuel]; [simpl in Hfuel; lia|]. simpl.
    rewrite u64_eqb by lia. rewrite (proj2 (Z.eqb_neq _ _)) by lia.
    apply runs_bind. eapply enter_block; [exact Hdr|]. intros gone1 left1 p m1 q1 Hfr1 Hen.
    apply runs_bind. eapply destroy_next; [exact Hen|]. intros m2 Hfr2 Hdr2. rewrite u64_add.
    eapply (IH fuel gone1 left1 p m2 q1); [simpl in Hfuel; lia|unfold zlen; lia|exact Hdr2|].
    intros gone' left' block' m' q' Hfr'. eapply HQ.
    eapply frame_trans; [exact Hfr1|]. by eapply frame_trans.
Qed.
End loop.

Lemma free_implicit_headers_all l :
  free_implicit_headers (X := X) (T := T) l = free_all (implicit_raw <$> l).
Proof. induction l as [|h l IH]; [done|]. simpl. by rewrite IH. Qed.

(** The rest of the destructor, when the elements are gone: at most one block is left. *)
Lemma last_block_runs e m q owned hdrs left (cond : bool) (Qr : () → Q → Prop) Qt F :
  memory_at m q left (index_raws e) owned hdrs →
  (∀ p, p ∈ left → ∃ b, blocks m !! p = Some b ∧ unused b) →
  left = (if cond then [tailBlock e] else []) →
  (∀ m' q' fl, frame owned m m' → pool_inv m' q' owned hdrs fl → Qr tt (e, (m', q'))) →
  runs ((if negb (bool_decide (tailBlock e = 0%nat)) && cond
         then on_snd (add_block_to_free_list (X := X) (tailBlock e)) else mret tt) ;;
        l ← iget implicit_blockIndex;
        on_memory (free_implicit_headers l)) (e, (m, q)) Qr Qt F.
Proof.
  intros Hma Hun Hleft HQ. apply runs_bind.
  assert (Hrest : ∀ m' q', frame owned m m' → memory_at m' q' [] (index_raws e) owned hdrs →
    runs (l ← iget implicit_blockIndex; on_memory (free_implicit_headers (X := X) l)) (e, (m', q')) Qr Qt F).
  { intros m' q' Hfr Hma'. destruct Hma' as [[fl Hinv] _ _ Hraws Hnd]. simpl in Hinv. rewrite (left_id_L ∅ (∪)) in Hinv.
    apply runs_bind, runs_iget, runs_on_memory. rewrite free_implicit_headers_all.
    eapply free_all_runs; [exact Hinv|done|done|]. intros m2 Hfr2 Hinv2. eapply HQ; [|exact Hinv2].
    by eapply frame_trans. }
  destruct cond; subst left.
  - assert (Hin : tailBlock e ∈ [tailBlock e]) by by left.
    destruct (memory_at_lookup _ _ _ _ _ _ _ Hma Hin) as [_ Hne]. rewrite bool_decide_eq_false_2 by done.
    destruct (Hun _ Hin) as (b & Hb & Hu). simpl.
    eapply release_memory; [exact Hma|done|by apply not_elem_of_nil|exact Hb|exact Hu|].
    intros m' q' Hfr Hma'. apply Hrest; [|exact Hma']. eapply frame_sub; [|exact Hfr]. set_solver.
  - rewrite andb_false_r. by apply runs_ret, Hrest.
Qed.

Lemma last_left H E used gone left block tb :
  H ≤ E → zlen used = blocks_in_use H (E - H) → used = gone ++ left →
  (used ≠ [] → tb = List.last used 0%nat) →
  block = 0%nat ∧ gone = [] ∧ E = H ∨
    (∃ k, left = block :: k) ∧ H / BLOCK_SIZE + zlen gone = (E - 1) / BLOCK_SIZE →
  left = if negb (H =? E) || negb (E mod BLOCK_SIZE =? 0) then [tb] else [].
Proof.
  intros HE Hlen Hu Htb Hb. pose proof (in_use_div H (E - H) ltac:(lia)) as Hd. rewrite <- Hlen in Hd.
  replace (H + (E - H)) with E in Hd by lia. pose proof block_size_pos as Hbs.
  pose proof (succ_div (E - 1)) as Hs. replace (E - 1 + 1) with E in Hs by lia.
  pose proof (Z.div_mod E BLOCK_SIZE block_size_ne). pose proof (Z.mod_pos_bound E BLOCK_SIZE Hbs).
  assert (Hone : ∀ p, left = [p] → left = [tb]).
  { intros p Hp. rewrite Hp in Hu. rewrite Htb, Hu, last_snoc' by (rewrite Hu; by destruct gone). done. }
  destruct Hb as [(-> & -> & ->)|[[k Hk] Hg]].
  - simpl in Hu. subst left. rewrite Z.eqb_refl. simpl.
    destruct (Z.eqb_spec (H mod BLOCK_SIZE) 0) as [Hal|Hal]; simpl.
    + assert (zlen used = 0) by nia. destruct used; [done|unfold zlen in *; simpl in *; lia].
    + assert (zlen used = 1) by nia. destruct used as [|p [|]]; unfold zlen in *; simpl in *; try lia.
      by eapply Hone.
  - assert (Hz : zlen used = zlen gone + zlen left) by by rewrite Hu, zlen_app.
    pose proof (zlen_nonneg gone). assert (Hcond : negb (H =? E) || negb (E mod BLOCK_SIZE =? 0) = true).
    { destruct (Z.eqb_spec H E) as [->|]; [|done]. destruct (Z.eqb_spec (E mod BLOCK_SIZE) 0); [|done]. lia. }
    rewrite Hcond. assert (Hleft : zlen left = 1).
    { destruct (Z.eqb_spec (E mod BLOCK_SIZE) 0) as [Hal|Hal]; nia. }
    rewrite Hk in Hleft. destruct k; [|unfold zlen in *; simpl in *; lia]. by eapply Hone.
Qed.

Lemma implicit_dtor_runs e m q owned hdrs used H xs (Qr : () → Q → Prop) Qt F :
  implicit_at e m q owned hdrs used H xs →
  (∀ m' q' fl, frame owned m m' → pool_inv m' q' owned hdrs fl → Qr tt (e, (m', q'))) →
  runs (implicit_dtor (X := X)) (e, (m, q)) Qr Qt F.
Proof.
  intros (Hib & Hix & Hma) HQ. pose proof (implicit_bound _ _ _ _ _ _ _ _ _ Hib Hma) as Hn.
  pose proof Hib as [Ht Hh _ Htb Hnd Hu Hlen _].
  unfold implicit_dtor. apply runs_bind, runs_iget, runs_bind, runs_iget. rewrite Ht, Hh.
  rewrite u64_eqb by lia. apply runs_bind, cq_runs_massert.
  { rewrite circular_less_than_spec by lia. apply orb_true_iff. rewrite Z.eqb_eq, Z.ltb_lt. lia. }
  rewrite u64_sub_l, u64_sub_r. replace (H + zlen xs - H) with (zlen xs) by lia. rewrite (u64_small (zlen xs)) by lia.
  rewrite aligned_mod. apply runs_bind. unfold implicit_index_at in Hix.
  set (E := H + zlen xs). assert (Hlen' : zlen used = blocks_in_use H (E - H))
    by (unfold E; by replace (H + zlen xs - H) with (zlen xs) by lia).
  assert (Hend : ∀ gone left block m' q', frame owned m m' → used = gone ++ left →
    (∀ p, p ∈ left → ∃ b, blocks m' !! p = Some b ∧ unused b) →
    memory_at m' q' left (index_raws e) owned hdrs →
    (block = 0%nat ∧ gone = [] ∧ E = H ∨
     (∃ k, left = block :: k) ∧ H / BLOCK_SIZE + zlen gone = (E - 1) / BLOCK_SIZE) →
    runs (tailBlock_ ← iget tailBlock;
      (if negb (bool_decide (tailBlock_ = 0%nat)) && (negb (H =? E) || negb (E mod BLOCK_SIZE =? 0))
       then on_snd (add_block_to_free_list (X := X) tailBlock_) else mret tt) ;;
      l ← iget implicit_blockIndex;
      on_memory (free_implicit_headers l)) (e, (m', q')) Qr Qt F).
  { intros gone left block m' q' Hfr Hused Hun Hma' Hdr. apply runs_bind, runs_iget.
    eapply last_block_runs; [exact Hma'|exact Hun| |].
    - eapply (last_left H E used gone); [unfold E; lia|done|done|exact Htb|exact Hdr].
    - intros m2 q2 fl Hfr2. eapply HQ. by eapply frame_trans. }
  destruct (implicit_blockIndex e) as [|i l] eqn:Ei.
  - destruct Hix as [-> _]. assert (xs = []) as ->.
    { pose proof (in_use_bound H (zlen xs) ltac:(lia)) as Hb. rewrite <- Hlen in Hb.
      destruct xs; [done|]. unfold zlen in Hb. simpl in Hb. lia. }
    assert (HE : E = H) by (unfold E, zlen; simpl; lia). rewrite HE in *. simpl. rewrite (Z.eqb_refl (u64 H)).
    apply runs_ret. eapply (Hend [] [] 0%nat); try done; [by intros ? ?%elem_of_nil|by left].
  - destruct Hix as [Hok _].
    eapply (destroy_remaining_runs e i l H E used owned hdrs Ei Hok Hlen' Hnd xs _ _ _ _ [] used);
      [unfold zlen; lia|lia| |].
    + constructor; [done|unfold E; lia| |exact Hma|by left].
      intros j p Hj. destruct (Hu j p Hj) as (b & Hb & [Hl Hs _] & Hf). exists b. split; [done|].
      replace (H / BLOCK_SIZE + zlen ([] : list nat)) with (H / BLOCK_SIZE) by (unfold zlen; simpl; lia).
      by constructor.
    + intros gone left block m' q' Hfr [Hused _ Hbl Hma' Hdr]. eapply (Hend gone left block); try done.
      intros p [j Hj]%list_elem_of_lookup. destruct (Hbl j p Hj) as (b & Hb & Hsl). exists b.
      split; [done|]. eapply slots_at_unused; [exact Hsl|by right].
Qed.
End destruction.

(** ** The laws *)
Section proofs.
Context {TR : Traits} {OK : TraitsOk} {X T U : Type} `{!CppType X T}.
Context (assign_result : U → T → U * T * completion X unit) (nothrow_assign : bool).

Definition implicit_ops : ProducerOps X T U ImplicitProducer := {|
  no_producer := raw_implicit;
  base_of := implicit_base;
  do_construct := implicit_ctor;
  do_enqueue := implicit_enqueue;
  do_dequeue := implicit_dequeue assign_result nothrow_assign;
  do_destroy := implicit_dtor
|}.

Context `{!CppLaws X T}.
Context (assign_ok : ∀ u x u' x' ex, nothrow_assign = true → assign_result u x ≠ (u', x', Throws ex)).
#[local] Abbreviation implicit_at := (implicit_at (X := X) (T := T)).
#[local] Abbreviation fifo_steps := (fifo_steps assign_result).

Lemma implicit_size_spec e m q owned hdrs used H xs :
  implicit_at e m q owned hdrs used H xs → producer_size_approx e = zlen xs ∧ within_size xs.
Proof.
  intros (Hib & _ & Hma). pose proof (implicit_bound _ _ _ _ _ _ _ _ _ Hib Hma) as Hn. split.
  - unfold producer_size_approx. rewrite (ib_head _ _ _ _ _ Hib), (ib_tail _ _ _ _ _ Hib).
    rewrite circular_less_than_spec by lia. destruct (Z.ltb_spec H (H + zlen xs)); [|lia].
    rewrite u64_sub_l, u64_sub_r, u64_small; lia.
  - destruct (ib_limit _ _ _ _ _ Hib) as [|Hlim]; [by left|right].
    pose proof (in_use_bound H (zlen xs) (zlen_nonneg xs)) as Hu.
    rewrite <- (ib_length _ _ _ _ _ Hib) in Hu. lia.
Qed.

(** What a producer knows of its blocks. *)
Definition implicit_holds (clean : bool) (e : ImplicitProducer) (h : gmap nat (Block T))
    (ring raws : list nat) (xs : list T) : Prop :=
  ∃ H, raws = index_raws e ∧ implicit_blocks_at (X := X) e h ring H xs ∧
    implicit_index_at e (H / BLOCK_SIZE) ring.

Lemma implicit_owning clean e m q owned hdrs xs :
  owning (X := X) implicit_holds clean e m q owned hdrs xs ↔
  ∃ used H, implicit_at e m q owned hdrs used H xs.
Proof.
  split.
  - intros (used & raws & (H & -> & ? & ?) & ?). by exists used, H.
  - intros (used & H & ? & ? & ?). exists used, (index_raws e). split; [|done]. by exists H.
Qed.

Lemma implicit_local clean e h h' ring raws xs :
  (∀ p, p ∈ ring → h' !! p = h !! p) → implicit_holds clean e h ring raws xs →
  implicit_holds clean e h' ring raws xs.
Proof.
  intros Hsame (H & -> & [] & Hix). exists H. split_and!; [done| |done]. constructor; try done.
  intros j p Hj. rewrite Hsame by by eapply list_elem_of_lookup_2. by apply ib_used.
Qed.

(** An exception does no harm. *)
#[local] Instance implicit_laws : ProducerLaws assign_result implicit_ops.
Proof.
  refine {| holds := implicit_holds; survives := true |}.
  - intros clean e h ring raws xs (H & _ & [] & _). done.
  - intros *. apply implicit_local.
  - intros m q owned hdrs fl Hinv Hby. eapply runs_mono; [by eapply implicit_ctor_runs|..]; [|done..].
    intros _ [e [m' q']] (Hfr & Hat). split; [done|]. apply implicit_owning. by exists [], 0.
  - intros canAlloc c clean e m q x owned hdrs xs (used & H & Hat)%implicit_owning.
    eapply runs_mono; [by eapply implicit_enqueue_runs|..]; [..|done].
    + intros r [[e' [m' q']] x'] (Hfr & used' & Hr). split; [done|]. destruct r.
      * destruct Hr as [Hat' Hf]. split; [apply implicit_owning; by exists used', H|done].
      * destruct Hr as (Hat' & -> & Hr). split; [apply implicit_owning; by exists used', H|done].
    + intros ex [[e' [m' q']] x'] (Hfr & Hf & used' & Hat').
      split_and!; [done..|]. exists clean. split; [apply implicit_owning; by exists used', H|done].
  - intros clean e m q u owned hdrs xs (used & H & Hat)%implicit_owning.
    eapply runs_mono; [by eapply implicit_dequeue_runs|..]; [..|done].
    + intros r [[e' [m' q']] u'] (Hfr & used' & Hr). split; [done|]. destruct xs as [|x xs].
      * destruct Hr as (-> & -> & Hat'). split_and!; [done..|]. apply implicit_owning. by exists used', H.
      * destruct Hr as (-> & Ha & Hat'). split_and!; [done..|]. apply implicit_owning. by exists used', (H + 1).
    + intros ex [[e' [m' q']] u'] (Hfr & used' & x & xs' & x' & -> & Ha & Hat').
      split; [done|]. exists x, xs', x'. split_and!; [done..|]. apply implicit_owning. by exists used', (H + 1).
  - intros clean e m q owned hdrs xs (used & H & Hat)%implicit_owning. by eapply implicit_size_spec.
  - intros e m q owned hdrs xs (used & H & Hat)%implicit_owning.
    eapply implicit_dtor_runs; [exact Hat|]. intros m' q' fl Hfr Hinv. split; [done|by exists fl].
Defined.

(** ** The theorems *)

(** C20: An implicit producer is a FIFO queue: whatever is called, and whatever throws, the
    replies are those of the list of the elements, which is never longer than
    MAX_SUBQUEUE_SIZE; an element is refused only if no memory may be or can be allocated,
    or if the limit is reached. *)
Theorem implicit_producer_fifo blockCount l :
  0 ≤ blockCount → sizeof_Block * blockCount < 2 ^ 64 →
  ∃ e m q rs xs,
    session implicit_ops blockCount l (before implicit_ops) = Ok ((e, (m, q)), Returns rs) ∧
    fifo_steps [] l rs xs ∧ producer_size_approx e = zlen xs ∧
    (MAX_SUBQUEUE_SIZE = const_numeric_max ∨ zlen xs ≤ MAX_SUBQUEUE_SIZE).
Proof. exact (session_fifo assign_result implicit_ops blockCount l). Qed.

(** The destructor of an implicit producer destroys the elements that are left, no others,
    and all memory is freed, even if constructors of elements have thrown. *)
Theorem implicit_producer_destroyed blockCount l :
  0 ≤ blockCount → sizeof_Block * blockCount < 2 ^ 64 →
  ∃ e m q rs,
    life implicit_ops blockCount l (before implicit_ops) = Ok ((e, (m, q)), Returns rs) ∧
    (∃ xs, fifo_steps [] l rs xs) ∧ blocks m = ∅ ∧ chunks m = ∅ ∧ lost m = 0%nat.
Proof. intros Hc Hb. apply (life_ends assign_result implicit_ops); auto. Qed.
End proofs.

Section witnesses.
#[local] Open Scope nat_scope.
#[local] Existing Instances Demo.number Demo.number_laws Demo.small_blocks Demo.small_blocks_ok.
#[local] Abbreviation demo_ops := (implicit_ops (X := nat) (T := nat) move_assign false).

(** 13 cannot be copied; the index grows when the third block is needed. *)
Definition implicit_calls : list (call nat nat) :=
  Demo.calls ++ [Dequeue 0; Dequeue 0; Dequeue 0; Enqueue true Lvalue 13; Enqueue true Lvalue 11].

Lemma implicit_producer_fifo_witness :
  (∃ e m q rs xs, session demo_ops 2 implicit_calls (before demo_ops) = Ok ((e, (m, q)), Returns rs) ∧
     fifo_steps move_assign [] implicit_calls rs xs ∧ producer_size_approx e = zlen xs ∧
     (MAX_SUBQUEUE_SIZE = const_numeric_max ∨ (zlen xs ≤ MAX_SUBQUEUE_SIZE)%Z)) ∧
  match session demo_ops 2 implicit_calls (before demo_ops) with
  | Ok ((e, _), Returns rs) => (capacity <$> implicit_blockIndex e) = [4; 2]%Z ∧ rs =
      [Enqueued 1 (Returns true); Enqueued 2 (Returns true); Enqueued 3 (Returns true);
       Dequeued 1 (Returns true); Dequeued 2 (Returns true); Enqueued 4 (Returns true);
       Enqueued 5 (Returns true); Counted 3; Dequeued 3 (Returns true); Enqueued 6 (Returns true);
       Enqueued 7 (Returns true); Enqueued 8 (Returns true); Enqueued 9 (Returns false);
       Enqueued 10 (Returns false); Dequeued 4 (Returns true); Dequeued 5 (Returns true);
       Dequeued 6 (Returns true); Enqueued 13 (Throws 13); Enqueued 11 (Returns true)]
  | _ => False
  end.
Proof.
  split; [|vm_compute; split; reflexivity].
  apply (implicit_producer_fifo (X := nat) (T := nat) move_assign false); [done|cbn; lia|cbn; lia].
Defined.

Lemma implicit_producer_destroyed_witness :
  ∃ e m q rs, life demo_ops 2 implicit_calls (before demo_ops) = Ok ((e, (m, q)), Returns rs) ∧
    (∃ xs, fifo_steps move_assign [] implicit_calls rs xs) ∧ blocks m = ∅ ∧ chunks m = ∅ ∧ lost m = 0.
Proof.
  apply (implicit_producer_destroyed (X := nat) (T := nat) move_assign false); [done|cbn; lia|cbn; lia].
Defined.
End witnesses.
