(* ===== verification/CqQueue.v ===== *)
(** * moodycamel::ConcurrentQueue: the queue (src/externals/include/moodycamel/concurrentqueue.h)

    What puts the producers together: the list of producers, the tokens, and the hash table
    that finds the producer of a thread.  The members as one thread executes them, for a
    platform on which a thread identifies itself by an address.  [Store] holds the objects
    by address: the memory of CqPool, the producers, the hash tables, the queues and the
    tokens.  Where the address of a queue or of a token is, is up to the client. *)
From stdpp Require Import gmap.
From S2P Require Import Prelude Lifetime FreeList CqBlock CqPool CqExplicit CqExplicitBulk CqImplicit.

#[local] Open Scope Z_scope.

(** ** Data *)

(** [ProducerBase] with its virtual destructor. *)
Inductive Subqueue :=
  | Explicit (e : ExplicitProducer)
  | Implicit (e : ImplicitProducer).

(** The rest of it, and [ConcurrentQueueProducerTypelessBase]. *)
Record Producer := mkProducer {
  subqueue : Subqueue;
  next_prod : nat;
  inactive : bool;
  token : nat;
  parent : nat
}.

Definition isExplicit (n : Producer) : bool :=
  match subqueue n with Explicit _ => true | Implicit _ => false end.

Definition base_of_producer (n : Producer) : ProducerBase :=
  match subqueue n with Explicit e => producer_base e | Implicit e => implicit_base e end.

Definition set_subqueue (s : Subqueue) (n : Producer) : Producer :=
  mkProducer s (next_prod n) (inactive n) (token n) (parent n).
Definition set_next_prod (p : nat) (n : Producer) : Producer :=
  mkProducer (subqueue n) p (inactive n) (token n) (parent n).
Definition set_inactive (b : bool) (n : Producer) : Producer :=
  mkProducer (subqueue n) (next_prod n) b (token n) (parent n).
Definition set_token (p : nat) (n : Producer) : Producer :=
  mkProducer (subqueue n) (next_prod n) (inactive n) p (parent n).
Definition set_parent (p : nat) (n : Producer) : Producer :=
  mkProducer (subqueue n) (next_prod n) (inactive n) (token n) p.

(** A key is [None] until something is stored in it. *)
Record ImplicitProducerKVP := mkKVP {
  kvp_key : option Z;
  kvp_value : nat
}.

(** The table that is a member of the queue at an address, or one that was allocated. *)
Inductive hash_ref :=
  | initialImplicitProducerHash (queue : nat)
  | new_hash (p : nat).

#[export] Instance hash_ref_eq_dec : EqDecision hash_ref.
Proof. solve_decision. Defined.

#[export] Instance hash_ref_countable : Countable hash_ref.
Proof.
  apply (inj_countable' (λ r, match r with initialImplicitProducerHash a => inl a | new_hash p => inr p end)
    (λ s, match s with inl a => initialImplicitProducerHash a | inr p => new_hash p end)).
  by intros [].
Defined.

Record ImplicitProducerHash := mkHash {
  hash_capacity : Z;
  hash_entries : list ImplicitProducerKVP;
  hash_prev : option hash_ref
}.

Record ConcurrentQueue := mkQueue {
  producerListTail : nat;
  producerCount : Z;
  pool : BlockPool;
  implicitProducerHash : option hash_ref;
  implicitProducerHashCount : Z;
  implicitProducerHashResizeInProgress : bool;
  nextExplicitConsumerId : Z;
  globalExplicitConsumerOffset : Z
}.

Definition set_producers_of (tail : nat) (count : Z) (q : ConcurrentQueue) : ConcurrentQueue :=
  mkQueue tail count (pool q) (implicitProducerHash q) (implicitProducerHashCount q)
    (implicitProducerHashResizeInProgress q) (nextExplicitConsumerId q) (globalExplicitConsumerOffset q).
Definition set_pool_of (b : BlockPool) (q : ConcurrentQueue) : ConcurrentQueue :=
  mkQueue (producerListTail q) (producerCount q) b (implicitProducerHash q) (implicitProducerHashCount q)
    (implicitProducerHashResizeInProgress q) (nextExplicitConsumerId q) (globalExplicitConsumerOffset q).
Definition set_hash (r : option hash_ref) (q : ConcurrentQueue) : ConcurrentQueue :=
  mkQueue (producerListTail q) (producerCount q) (pool q) r (implicitProducerHashCount q)
    (implicitProducerHashResizeInProgress q) (nextExplicitConsumerId q) (globalExplicitConsumerOffset q).
Definition set_hashCount (n : Z) (q : ConcurrentQueue) : ConcurrentQueue :=
  mkQueue (producerListTail q) (producerCount q) (pool q) (implicitProducerHash q) n
    (implicitProducerHashResizeInProgress q) (nextExplicitConsumerId q) (globalExplicitConsumerOffset q).
Definition set_resizing (b : bool) (q : ConcurrentQueue) : ConcurrentQueue :=
  mkQueue (producerListTail q) (producerCount q) (pool q) (implicitProducerHash q)
    (implicitProducerHashCount q) b (nextExplicitConsumerId q) (globalExplicitConsumerOffset q).
Definition set_consumers_of (id offset : Z) (q : ConcurrentQueue) : ConcurrentQueue :=
  mkQueue (producerListTail q) (producerCount q) (pool q) (implicitProducerHash q)
    (implicitProducerHashCount q) (implicitProducerHashResizeInProgress q) id offset.

Record ConsumerToken := mkConsumerToken {
  initialOffset : Z;
  lastKnownGlobalOffset : Z;
  itemsConsumedFromCurrent : Z;
  currentProducer : nat;
  desiredProducer : nat
}.

Definition set_consumed (z : Z) (t : ConsumerToken) : ConsumerToken :=
  mkConsumerToken (initialOffset t) (lastKnownGlobalOffset t) z (currentProducer t) (desiredProducer t).

(** A producer token is the pointer to its producer. *)
Record Store (T : Type) := mkStore {
  memory : Memory T;
  producers : gmap nat Producer;
  hashes : gmap hash_ref ImplicitProducerHash;
  queues : gmap nat ConcurrentQueue;
  producer_tokens : gmap nat nat;
  consumer_tokens : gmap nat ConsumerToken
}.
Arguments mkStore {T} _ _ _ _ _ _.
Arguments memory {T} _.
Arguments producers {T} _.
Arguments hashes {T} _.
Arguments queues {T} _.
Arguments producer_tokens {T} _.
Arguments consumer_tokens {T} _.

Definition set_memory {T} (m : Memory T) (w : Store T) : Store T :=
  mkStore m (producers w) (hashes w) (queues w) (producer_tokens w) (consumer_tokens w).
Definition set_producers {T} (h : gmap nat Producer) (w : Store T) : Store T :=
  mkStore (memory w) h (hashes w) (queues w) (producer_tokens w) (consumer_tokens w).
Definition set_hashes {T} (h : gmap hash_ref ImplicitProducerHash) (w : Store T) : Store T :=
  mkStore (memory w) (producers w) h (queues w) (producer_tokens w) (consumer_tokens w).
Definition set_queues {T} (h : gmap nat ConcurrentQueue) (w : Store T) : Store T :=
  mkStore (memory w) (producers w) (hashes w) h (producer_tokens w) (consumer_tokens w).
Definition set_producer_tokens {T} (h : gmap nat nat) (w : Store T) : Store T :=
  mkStore (memory w) (producers w) (hashes w) (queues w) h (consumer_tokens w).
Definition set_consumer_tokens {T} (h : gmap nat ConsumerToken) (w : Store T) : Store T :=
  mkStore (memory w) (producers w) (hashes w) (queues w) (producer_tokens w) h.

Definition nothing_yet {T} : Store T := mkStore no_memory_used ∅ ∅ ∅ ∅ ∅.

(** A computation on a part of the state. *)
Definition zoom {X S S' A} (get : S → result S') (put : S' → S → S) (m : M X S' A) : M X S A :=
  fun s =>
    match get s with
    | Ok s' => match m s' with Ok (s'', c) => Ok (put s'' s, c) | Err f => Err f end
    | Err f => Err f
    end.

(** What is at an address. *)
Definition there {A} (o : option A) : result A :=
  match o with Some a => Ok a | None => Err use_after_free end.

Section queue.
Context `{Traits} {X T U : Type} `{!CppType X T}.
Context (assign_result : U → T → U * T * completion X unit) (nothrow_assign : bool).
#[local] Abbreviation Mem := (Memory T).
#[local] Abbreviation W := (Store T).

(** ** Access to the objects *)
Definition on_mem {A} (m : M X Mem A) : M X W A := zoom (fun w => Ok (memory w)) set_memory m.

Definition on_queue {A} (this : nat) (m : M X ConcurrentQueue A) : M X W A :=
  zoom (fun w => there (queues w !! this)) (fun q w => set_queues (<[this := q]> (queues w)) w) m.
Definition on_prod {A} (p : nat) (m : M X Producer A) : M X W A :=
  zoom (fun w => there (producers w !! p)) (fun n w => set_producers (<[p := n]> (producers w)) w) m.
Definition on_hash {A} (r : hash_ref) (m : M X ImplicitProducerHash A) : M X W A :=
  zoom (fun w => there (hashes w !! r)) (fun h w => set_hashes (<[r := h]> (hashes w)) w) m.
Definition on_ptoken {A} (t : nat) (m : M X nat A) : M X W A :=
  zoom (fun w => there (producer_tokens w !! t))
    (fun p w => set_producer_tokens (<[t := p]> (producer_tokens w)) w) m.
Definition on_ctoken {A} (t : nat) (m : M X ConsumerToken A) : M X W A :=
  zoom (fun w => there (consumer_tokens w !! t))
    (fun c w => set_consumer_tokens (<[t := c]> (consumer_tokens w)) w) m.

Definition queue_of (this : nat) : M X W ConcurrentQueue := on_queue this (gets id).
Definition load_producer (p : nat) : M X W Producer := on_prod p (gets id).
Definition load_hash (r : hash_ref) : M X W ImplicitProducerHash := on_hash r (gets id).
Definition producer_of (t : nat) : M X W nat := on_ptoken t (gets id).
Definition ctoken_at (t : nat) : M X W ConsumerToken := on_ctoken t (gets id).

(** The memory and the pool of a queue. *)
Definition on_pool {A} (this : nat) (m : M X (Mem * BlockPool) A) : M X W A :=
  zoom (fun w => q ← there (queues w !! this); Ok (memory w, pool q))
    (fun '(m, b) w => set_memory m (set_queues (alter (set_pool_of b) this (queues w)) w)) m.

(** static_cast<ExplicitProducer*>(p)->f(...), with the pool of the parent. *)
Definition focus {P} (cast : Subqueue → option P) (p : nat) (w : W) :
    result (P * (Mem * BlockPool)) :=
  n ← there (producers w !! p);
  match cast (subqueue n) with
  | Some e => q ← there (queues w !! parent n); Ok (e, (memory w, pool q))
  | None => Err dead_object
  end.

Definition unfocus {P} (wrap : P → Subqueue) (p : nat) (s : P * (Mem * BlockPool)) (w : W) : W :=
  let '(e, (m, b)) := s in
  match producers w !! p with
  | Some n =>
      mkStore m (<[p := set_subqueue (wrap e) n]> (producers w)) (hashes w)
        (alter (set_pool_of b) (parent n) (queues w)) (producer_tokens w) (consumer_tokens w)
  | None => w
  end.

Definition as_explicit (s : Subqueue) : option ExplicitProducer :=
  match s with Explicit e => Some e | Implicit _ => None end.
Definition as_implicit (s : Subqueue) : option ImplicitProducer :=
  match s with Implicit e => Some e | Explicit _ => None end.

Definition on_explicit {A} (p : nat) (m : M X (ExplicitProducer * (Mem * BlockPool)) A) : M X W A :=
  zoom (focus as_explicit p) (unfocus Explicit p) m.
Definition on_implicit {A} (p : nat) (m : M X (ImplicitProducer * (Mem * BlockPool)) A) : M X W A :=
  zoom (focus as_implicit p) (unfocus Implicit p) m.

(** The same for a member that is given something by reference. *)
Definition explicit_with {R A} (p : nat) (m : M X (ExplicitProducer * (Mem * BlockPool) * R) A) :
    M X (W * R) A :=
  zoom (fun '(w, r) => s ← focus as_explicit p w; Ok (s, r))
    (fun '(s, r) '(w, _) => (unfocus Explicit p s w, r)) m.
Definition implicit_with {R A} (p : nat) (m : M X (ImplicitProducer * (Mem * BlockPool) * R) A) :
    M X (W * R) A :=
  zoom (fun '(w, r) => s ← focus as_implicit p w; Ok (s, r))
    (fun '(s, r) '(w, _) => (unfocus Implicit p s w, r)) m.

(** ** ProducerBase *)
Definition producer_dequeue (p : nat) : M X (W * U) bool :=
  n ← on_fst (load_producer p);
  if isExplicit n then explicit_with p (explicit_dequeue assign_result nothrow_assign)
  else implicit_with p (implicit_dequeue assign_result nothrow_assign).

(** The iterator is at position [i]. *)
Definition producer_dequeue_bulk (p : nat) (max : Z) (i : nat) : M X (W * list U) Z :=
  n ← on_fst (load_producer p);
  if isExplicit n then explicit_with p (explicit_dequeue_bulk assign_result nothrow_assign max i)
  else implicit_with p (implicit_dequeue_bulk assign_result nothrow_assign max i).

(** create<ExplicitProducer>(this) and create<ImplicitProducer>(this) *)
Definition create_explicit (this : nat) : M X W nat :=
  p ← on_mem (malloc sizeof_ExplicitProducer 1);
  if bool_decide (p = 0%nat) then mret 0%nat
  else
    modify (fun w => set_producers
      (<[p := mkProducer (Explicit raw_explicit) 0 false 0 this]> (producers w)) w) ;;
    on_explicit p explicit_ctor ;;
    mret p.

Definition create_implicit (this : nat) : M X W nat :=
  p ← on_mem (malloc sizeof_ImplicitProducer 1);
  if bool_decide (p = 0%nat) then mret 0%nat
  else
    modify (fun w => set_producers
      (<[p := mkProducer (Implicit raw_implicit) 0 false 0 this]> (producers w)) w) ;;
    on_implicit p implicit_ctor ;;
    mret p.

(** destroy(ptr): the virtual destructor, then free. *)
Definition destroy_producer (p : nat) : M X W unit :=
  n ← load_producer p;
  (if isExplicit n then on_explicit p explicit_dtor else on_implicit p implicit_dtor) ;;
  modify (fun w => set_producers (delete p (producers w)) w) ;;
  on_mem (free p).

(** ** The list of producers

    A loop over the list has a unit of fuel for every producer there is. *)
Definition list_fuel : M X W nat := gets (fun w => size (producers w)).

Definition add_producer (this p : nat) : M X W nat :=
  if bool_decide (p = 0%nat) then mret 0%nat
  else
    on_queue this (modify (fun q => set_producers_of (producerListTail q) (u32 (producerCount q + 1)) q)) ;;
    q ← queue_of this;
    on_prod p (modify (set_next_prod (producerListTail q))) ;;
    on_queue this (modify (fun q => set_producers_of p (producerCount q) q)) ;;
    mret p.

(** "Try to re-use one first": 0 if there is none. *)
Fixpoint recycle_producer (fuel : nat) (isExplicit_ : bool) (ptr : nat) : M X W nat :=
  if bool_decide (ptr = 0%nat) then mret 0%nat
  else
    match fuel with
    | O => fail out_of_fuel
    | S fuel =>
        n ← load_producer ptr;
        if inactive n && eqb (isExplicit n) isExplicit_ then
          on_prod ptr (modify (set_inactive false)) ;; mret ptr
        else recycle_producer fuel isExplicit_ (next_prod n)
    end.

(** The producer, and [recycled]. *)
Definition recycle_or_create_producer (this : nat) (isExplicit_ : bool) : M X W (nat * bool) :=
  q ← queue_of this;
  fuel ← list_fuel;
  ptr ← recycle_producer fuel isExplicit_ (producerListTail q);
  if bool_decide (ptr ≠ 0%nat) then mret (ptr, true)
  else
    p ← (if isExplicit_ then create_explicit this else create_implicit this);
    p ← add_producer this p;
    mret (p, false).

Fixpoint reown_loop (fuel : nat) (this ptr : nat) : M X W unit :=
  if bool_decide (ptr = 0%nat) then mret tt
  else
    match fuel with
    | O => fail out_of_fuel
    | S fuel =>
        on_prod ptr (modify (set_parent this)) ;;
        n ← load_producer ptr;
        reown_loop fuel this (next_prod n)
    end.

Definition reown_producers (this : nat) : M X W unit :=
  q ← queue_of this; fuel ← list_fuel; reown_loop fuel this (producerListTail q).

(** ** ProducerToken *)
Definition ProducerToken_ctor (this t : nat) : M X W unit :=
  '(p, _) ← recycle_or_create_producer this true;
  modify (fun w => set_producer_tokens (<[t := p]> (producer_tokens w)) w) ;;
  if bool_decide (p ≠ 0%nat) then on_prod p (modify (set_token t)) else mret tt.

(** The token at [t] is made from the one at [other]. *)
Definition ProducerToken_move (t other : nat) : M X W unit :=
  p ← producer_of other;
  modify (fun w => set_producer_tokens (<[t := p]> (producer_tokens w)) w) ;;
  on_ptoken other (modify (fun _ => 0%nat)) ;;
  if bool_decide (p ≠ 0%nat) then on_prod p (modify (set_token t)) else mret tt.

Definition ProducerToken_swap (t other : nat) : M X W unit :=
  p ← producer_of t;
  p' ← producer_of other;
  on_ptoken t (modify (fun _ => p')) ;;
  on_ptoken other (modify (fun _ => p)) ;;
  mine ← producer_of t;
  (if bool_decide (mine ≠ 0%nat) then on_prod mine (modify (set_token t)) else mret tt) ;;
  theirs ← producer_of other;
  if bool_decide (theirs ≠ 0%nat) then on_prod theirs (modify (set_token other)) else mret tt.

Definition valid (t : nat) : M X W bool := p ← producer_of t; mret (bool_decide (p ≠ 0%nat)).

Definition ProducerToken_dtor (t : nat) : M X W unit :=
  p ← producer_of t;
  (if bool_decide (p ≠ 0%nat) then
     on_prod p (modify (set_token 0)) ;; on_prod p (modify (set_inactive true))
   else mret tt) ;;
  modify (fun w => set_producer_tokens (delete t (producer_tokens w)) w).

(** ** ConsumerToken *)
Definition ConsumerToken_ctor (this t : nat) : M X W unit :=
  q ← queue_of this;
  on_queue this (modify (fun q => set_consumers_of (u32 (nextExplicitConsumerId q + 1))
                                    (globalExplicitConsumerOffset q) q)) ;;
  modify (fun w => set_consumer_tokens
    (<[t := mkConsumerToken (nextExplicitConsumerId q) (u32 (-1)) 0 0 0]> (consumer_tokens w)) w).

Definition ConsumerToken_move (t other : nat) : M X W unit :=
  c ← ctoken_at other;
  modify (fun w => set_consumer_tokens (<[t := c]> (consumer_tokens w)) w).

Definition ConsumerToken_swap (t other : nat) : M X W unit :=
  c ← ctoken_at t;
  c' ← ctoken_at other;
  on_ctoken t (modify (fun _ => c')) ;;
  on_ctoken other (modify (fun _ => c)).

(** ** The hash table of threads

    A thread is identified by the address of a variable of its own. *)
Definition invalid_thread_id : Z := 0.

Definition hash_thread_id (id : Z) : Z := hash_64 id.

Definition KVP_new : ImplicitProducerKVP := mkKVP None 0.

(** initialImplicitProducerHashEntries[i].key.store(invalid_thread_id), for all i *)
Definition clear_key (e : ImplicitProducerKVP) : ImplicitProducerKVP :=
  mkKVP (Some invalid_thread_id) (kvp_value e).

Definition populate_initial_implicit_producer_hash (this : nat) : M X W unit :=
  if INITIAL_IMPLICIT_PRODUCER_HASH_SIZE =? 0 then mret tt
  else
    on_queue this (modify (set_hashCount 0)) ;;
    let hash := initialImplicitProducerHash this in
    on_hash hash (modify (fun h => mkHash INITIAL_IMPLICIT_PRODUCER_HASH_SIZE
                                     (clear_key <$> hash_entries h) None)) ;;
    on_queue this (modify (set_hash (Some hash))).

(** for (hash = implicitProducerHash; hash->prev != old; hash = hash->prev) continue;
    hash->prev = own; *)
Fixpoint replace_last (fuel : nat) (hash old own : hash_ref) : M X W unit :=
  match fuel with
  | O => fail out_of_fuel
  | S fuel =>
      h ← load_hash hash;
      if bool_decide (hash_prev h = Some old) then
        on_hash hash (modify (fun h => mkHash (hash_capacity h) (hash_entries h) (Some own)))
      else
        match hash_prev h with
        | Some hash => replace_last fuel hash old own
        | None => fail use_after_free
        end
  end.

(** The initial table of [other] is not ours. *)
Definition adopt_hashes (this other : nat) : M X W unit :=
  q ← queue_of this;
  n ← gets (fun w => size (hashes w));
  if bool_decide (implicitProducerHash q = Some (initialImplicitProducerHash other)) then
    on_queue this (modify (set_hash (Some (initialImplicitProducerHash this))))
  else
    match implicitProducerHash q with
    | Some hash =>
        replace_last n hash (initialImplicitProducerHash other) (initialImplicitProducerHash this)
    | None => fail use_after_free
    end.

Definition swap_implicit_producer_hashes (this other : nat) : M X W unit :=
  if INITIAL_IMPLICIT_PRODUCER_HASH_SIZE =? 0 then mret tt
  else
    h ← load_hash (initialImplicitProducerHash this);
    h' ← load_hash (initialImplicitProducerHash other);
    on_hash (initialImplicitProducerHash this)
      (modify (fun _ => mkHash (hash_capacity h) (hash_entries h') (hash_prev h))) ;;
    on_hash (initialImplicitProducerHash other)
      (modify (fun _ => mkHash (hash_capacity h') (hash_entries h) (hash_prev h'))) ;;
    q ← queue_of this;
    q' ← queue_of other;
    on_queue this (modify (fun q => set_hash (implicitProducerHash q')
                                      (set_hashCount (implicitProducerHashCount q') q))) ;;
    on_queue other (modify (fun q' => set_hash (implicitProducerHash q)
                                        (set_hashCount (implicitProducerHashCount q) q'))) ;;
    adopt_hashes this other ;;
    adopt_hashes other this.

(** hash->entries[index].key.load(), and the value *)
Definition load_key (h : ImplicitProducerHash) (index : Z) : result Z :=
  e ← vector_at (hash_entries h) index;
  match kvp_key e with Some k => Ok k | None => Err dead_object end.

Definition load_kvp_value (h : ImplicitProducerHash) (index : Z) : result nat :=
  e ← vector_at (hash_entries h) index; Ok (kvp_value e).

(** Where in a table the id is, if it is there.  One slot at least is free. *)
Fixpoint probe (fuel : nat) (h : ImplicitProducerHash) (id index : Z) : result (option Z) :=
  match fuel with
  | O => Err out_of_fuel
  | S fuel =>
      let index := Z.land index (u64 (hash_capacity h - 1)) in
      probedKey ← load_key h index;
      if probedKey =? id then Ok (Some index)
      else if probedKey =? invalid_thread_id then Ok None
      else probe fuel h id (u64 (index + 1))
  end.

(** The id and its producer are put into the first slot that is free. *)
Fixpoint claim_slot (fuel : nat) (hash : hash_ref) (id index : Z) (value : nat) : M X W unit :=
  match fuel with
  | O => fail out_of_fuel
  | S fuel =>
      h ← load_hash hash;
      let index := Z.land index (u64 (hash_capacity h - 1)) in
      probedKey ← lift (load_key h index);
      if probedKey =? invalid_thread_id then
        on_hash hash (modify (fun h => mkHash (hash_capacity h)
          (<[Z.to_nat index := mkKVP (Some id) value]> (hash_entries h)) (hash_prev h)))
      else claim_slot fuel hash id (u64 (index + 1)) value
  end.

(** The tables from [hash] on; what is found in an older one is added to [mainHash]. *)
Fixpoint find_producer (fuel : nat) (mainHash : hash_ref) (id : Z) (hash : option hash_ref) :
    M X W (option nat) :=
  match hash with
  | None => mret None
  | Some hash =>
      match fuel with
      | O => fail out_of_fuel
      | S fuel =>
          h ← load_hash hash;
          found ← lift (probe (Z.to_nat (hash_capacity h)) h id (hash_thread_id id));
          match found with
          | Some index =>
              value ← lift (load_kvp_value h index);
              (if bool_decide (hash = mainHash) then mret tt
               else
                 main ← load_hash mainHash;
                 claim_slot (Z.to_nat (hash_capacity main)) mainHash id (hash_thread_id id) value) ;;
              mret (Some value)
          | None => find_producer fuel mainHash id (hash_prev h)
          end
      end
  end.

(** while (newCount >= (newCapacity >> 1)) newCapacity <<= 1; at most 64 times *)
Fixpoint double_capacity (fuel : nat) (newCount newCapacity : Z) : result Z :=
  match fuel with
  | O => Err out_of_fuel
  | S fuel =>
      if Z.shiftr newCapacity 1 <=? newCount then
        double_capacity fuel newCount (u64 (Z.shiftl newCapacity 1))
      else Ok newCapacity
  end.

Definition hash_bytes (newCapacity : Z) : Z :=
  u64 (sizeof_ImplicitProducerHash + alignof_ImplicitProducerKVP - 1
         + u64 (sizeof_ImplicitProducerKVP * newCapacity)).

(** What there is room for behind the header. *)
Definition hash_room (bytes : Z) : Z :=
  (bytes - sizeof_ImplicitProducerHash - (alignof_ImplicitProducerKVP - 1)) / sizeof_ImplicitProducerKVP.

(** new (newHash->entries + i) ImplicitProducerKVP, and its key, for all i *)
Definition new_entries (bytes newCapacity : Z) : result (list ImplicitProducerKVP) :=
  if newCapacity <=? hash_room bytes then
    Ok (replicate (Z.to_nat newCapacity) (clear_key KVP_new))
  else Err out_of_bounds.

(** "We've acquired the resize lock": the main table that follows, [None] if there is no
    memory for a larger one. *)
Definition grow_hash (this : nat) (newCount : Z) : M X W (option hash_ref) :=
  q ← queue_of this;
  match implicitProducerHash q with
  | None => fail use_after_free
  | Some mainHash =>
      h ← load_hash mainHash;
      if Z.shiftr (hash_capacity h) 1 <=? newCount then
        newCapacity ← lift (double_capacity 64 newCount (u64 (Z.shiftl (hash_capacity h) 1)));
        raw ← on_mem (malloc (hash_bytes newCapacity) 1);
        if bool_decide (raw = 0%nat) then
          on_queue this (modify (fun q => set_hashCount (u64 (implicitProducerHashCount q - 1)) q)) ;;
          on_queue this (modify (set_resizing false)) ;;
          mret None
        else
          l ← lift (new_entries (hash_bytes newCapacity) newCapacity);
          modify (fun w => set_hashes
            (<[new_hash raw := mkHash newCapacity l (Some mainHash)]> (hashes w)) w) ;;
          on_queue this (modify (set_hash (Some (new_hash raw)))) ;;
          on_queue this (modify (set_resizing false)) ;;
          mret (Some (new_hash raw))
      else
        on_queue this (modify (set_resizing false)) ;;
        mret (Some mainHash)
  end.

(** "Insert!": on one thread, once round the loop is enough.  0 is nullptr. *)
Fixpoint insert_producer (fuel : nat) (this : nat) (id newCount : Z) (mainHash : hash_ref) : M X W nat :=
  match fuel with
  | O => fail out_of_fuel
  | S fuel =>
      h ← load_hash mainHash;
      q ← queue_of this;
      grown ←
        (if Z.shiftr (hash_capacity h) 1 <=? newCount then
           on_queue this (modify (set_resizing true)) ;;
           if implicitProducerHashResizeInProgress q then mret (Some mainHash)
           else grow_hash this newCount
         else mret (Some mainHash));
      match grown with
      | None => mret 0%nat
      | Some mainHash =>
          h ← load_hash mainHash;
          if newCount <? u64 (Z.shiftr (hash_capacity h) 1 + Z.shiftr (hash_capacity h) 2) then
            '(producer, recycled) ← recycle_or_create_producer this false;
            if bool_decide (producer = 0%nat) then
              on_queue this (modify (fun q => set_hashCount (u64 (implicitProducerHashCount q - 1)) q)) ;;
              mret 0%nat
            else
              (if (recycled : bool) then
                 on_queue this (modify (fun q => set_hashCount (u64 (implicitProducerHashCount q - 1)) q))
               else mret tt) ;;
              claim_slot (Z.to_nat (hash_capacity h)) mainHash id (hash_thread_id id) producer ;;
              mret producer
          else
            q ← queue_of this;
            match implicitProducerHash q with
            | Some mainHash => insert_producer fuel this id newCount mainHash
            | None => fail use_after_free
            end
      end
  end.

(** The thread [id] calls. *)
Definition get_or_add_implicit_producer (this : nat) (id : Z) : M X W nat :=
  q ← queue_of this;
  match implicitProducerHash q with
  | None => fail use_after_free
  | Some mainHash =>
      n ← gets (fun w => size (hashes w));
      found ← find_producer n mainHash id (Some mainHash);
      match found with
      | Some value => mret value
      | None =>
          let newCount := u64 (1 + implicitProducerHashCount q) in
          on_queue this (modify (set_hashCount (u64 (implicitProducerHashCount q + 1)))) ;;
          insert_producer 1 this id newCount mainHash
      end
  end.

(** ** Construction *)

(** The members before the body of the constructor runs. *)
Definition raw_queue : ConcurrentQueue := mkQueue 0 0 (mkPool 0 0 0 0) None 0 false 0 0.

Definition raw_hash : ImplicitProducerHash :=
  mkHash 0 (replicate (Z.to_nat INITIAL_IMPLICIT_PRODUCER_HASH_SIZE) KVP_new) None.

Definition new_queue (this : nat) (q : ConcurrentQueue) : M X W unit :=
  modify (fun w => set_hashes (<[initialImplicitProducerHash this := raw_hash]> (hashes w))
                     (set_queues (<[this := q]> (queues w)) w)).

Definition blocks_for_capacity (capacity : Z) : Z :=
  u64 (capacity / BLOCK_SIZE + (if Z.land capacity (BLOCK_SIZE - 1) =? 0 then 0 else 1)).

Definition ConcurrentQueue_ctor (this : nat) (capacity : Z) : M X W unit :=
  new_queue this raw_queue ;;
  populate_initial_implicit_producer_hash this ;;
  on_pool this (populate_initial_block_list (blocks_for_capacity capacity)).

(** In [size_t], like all of it. *)
Definition blocks_for_producers (minCapacity maxExplicitProducers maxImplicitProducers : Z) : Z :=
  u64 (u64 (u64 (u64 (u64 (minCapacity + BLOCK_SIZE) - 1) / BLOCK_SIZE - 1) * u64 (maxExplicitProducers + 1))
       + u64 (2 * u64 (maxExplicitProducers + maxImplicitProducers))).

Definition ConcurrentQueue_ctor3 (this : nat)
    (minCapacity maxExplicitProducers maxImplicitProducers : Z) : M X W unit :=
  new_queue this raw_queue ;;
  populate_initial_implicit_producer_hash this ;;
  on_pool this (populate_initial_block_list
    (blocks_for_producers minCapacity maxExplicitProducers maxImplicitProducers)).

(** Everything but the hash tables. *)
Definition ConcurrentQueue_move (this other : nat) : M X W unit :=
  o ← queue_of other;
  new_queue this (mkQueue (producerListTail o) (producerCount o) (pool o) None 0 false
                    (nextExplicitConsumerId o) (globalExplicitConsumerOffset o)) ;;
  on_queue other (modify (fun o => set_pool_of (set_freeListHead 0 (pool o)) o)) ;;
  populate_initial_implicit_producer_hash this ;;
  swap_implicit_producer_hashes this other ;;
  on_queue other (modify (set_producers_of 0 0)) ;;
  on_queue other (modify (set_consumers_of 0 0)) ;;
  on_queue other (modify (fun o => set_pool_of (set_pool 0 0 (set_poolIndex 0 (pool o))) o)) ;;
  reown_producers this.

Definition swap_internal (this other : nat) : M X W unit :=
  if bool_decide (this = other) then mret tt
  else
    q ← queue_of this;
    o ← queue_of other;
    let exchange q o :=
      mkQueue (producerListTail o) (producerCount o) (pool o) (implicitProducerHash q)
        (implicitProducerHashCount q) (implicitProducerHashResizeInProgress q)
        (nextExplicitConsumerId o) (globalExplicitConsumerOffset o) in
    on_queue this (modify (fun _ => exchange q o)) ;;
    on_queue other (modify (fun _ => exchange o q)) ;;
    swap_implicit_producer_hashes this other ;;
    reown_producers this ;;
    reown_producers other.

(** ** Destruction *)
Fixpoint destroy_producers (fuel : nat) (ptr : nat) : M X W unit :=
  if bool_decide (ptr = 0%nat) then mret tt
  else
    match fuel with
    | O => fail out_of_fuel
    | S fuel =>
        n ← load_producer ptr;
        (if bool_decide (token n ≠ 0%nat) then on_ptoken (token n) (modify (fun _ => 0%nat))
         else mret tt) ;;
        destroy_producer ptr ;;
        destroy_producers fuel (next_prod n)
    end.

(** "The last hash is part of this object and was not allocated dynamically" *)
Fixpoint destroy_hashes (fuel : nat) (hash : option hash_ref) : M X W unit :=
  match hash with
  | None => mret tt
  | Some hash =>
      match fuel with
      | O => fail out_of_fuel
      | S fuel =>
          h ← load_hash hash;
          match hash_prev h, hash with
          | None, _ => mret tt
          | Some _, initialImplicitProducerHash _ => fail use_after_free   (* it was not allocated *)
          | Some _, new_hash raw =>
              modify (fun w => set_hashes (delete hash (hashes w)) w) ;; on_mem (free raw)
          end ;;
          destroy_hashes fuel (hash_prev h)
      end
  end.

Definition ConcurrentQueue_dtor (this : nat) : M X W unit :=
  q ← queue_of this;
  fuel ← list_fuel;
  destroy_producers fuel (producerListTail q) ;;
  (if INITIAL_IMPLICIT_PRODUCER_HASH_SIZE =? 0 then mret tt
   else
     q ← queue_of this;
     n ← gets (fun w => size (hashes w));
     destroy_hashes n (implicitProducerHash q)) ;;
  on_pool this destroy_pool ;;
  modify (fun w => set_hashes (delete (initialImplicitProducerHash this) (hashes w))
                     (set_queues (delete this (queues w)) w)).

(** ** Enqueuing

    [canAlloc] distinguishes [enqueue] from [try_enqueue]; [c] is the category of the argument. *)
Definition inner_enqueue_token (canAlloc : bool) (c : category) (t : nat) : M X (W * T) bool :=
  p ← on_fst (producer_of t);
  explicit_with p (explicit_enqueue canAlloc c).

Definition inner_enqueue (this : nat) (id : Z) (canAlloc : bool) (c : category) : M X (W * T) bool :=
  p ← on_fst (get_or_add_implicit_producer this id);
  if bool_decide (p = 0%nat) then mret false
  else implicit_with p (implicit_enqueue canAlloc c).

Definition inner_enqueue_bulk_token (canAlloc : bool) (c : category) (t : nat) (count : Z) :
    M X (W * list T) bool :=
  p ← on_fst (producer_of t);
  explicit_with p (explicit_enqueue_bulk canAlloc c count).

Definition inner_enqueue_bulk (this : nat) (id : Z) (canAlloc : bool) (c : category) (count : Z) :
    M X (W * list T) bool :=
  p ← on_fst (get_or_add_implicit_producer this id);
  if bool_decide (p = 0%nat) then mret false
  else implicit_with p (implicit_enqueue_bulk canAlloc c count).

(** The public members; the two overloads for a value differ in [c]. *)
Definition enqueue (this : nat) (id : Z) (c : category) : M X (W * T) bool :=
  if INITIAL_IMPLICIT_PRODUCER_HASH_SIZE =? 0 then mret false else inner_enqueue this id true c.

Definition enqueue_token (c : category) (t : nat) : M X (W * T) bool := inner_enqueue_token true c t.

Definition enqueue_bulk (this : nat) (id : Z) (c : category) (count : Z) : M X (W * list T) bool :=
  if INITIAL_IMPLICIT_PRODUCER_HASH_SIZE =? 0 then mret false else inner_enqueue_bulk this id true c count.

Definition enqueue_bulk_token (c : category) (t : nat) (count : Z) : M X (W * list T) bool :=
  inner_enqueue_bulk_token true c t count.

Definition try_enqueue (this : nat) (id : Z) (c : category) : M X (W * T) bool :=
  if INITIAL_IMPLICIT_PRODUCER_HASH_SIZE =? 0 then mret false else inner_enqueue this id false c.

Definition try_enqueue_token (c : category) (t : nat) : M X (W * T) bool := inner_enqueue_token false c t.

Definition try_enqueue_bulk (this : nat) (id : Z) (c : category) (count : Z) : M X (W * list T) bool :=
  if INITIAL_IMPLICIT_PRODUCER_HASH_SIZE =? 0 then mret false else inner_enqueue_bulk this id false c count.

Definition try_enqueue_bulk_token (c : category) (t : nat) (count : Z) : M X (W * list T) bool :=
  inner_enqueue_bulk_token false c t count.

(** ** Dequeuing *)

(** [nonEmptyCount] and [best] *)
Fixpoint score (fuel : nat) (ptr : nat) (nonEmptyCount : Z) (best : nat) (bestSize : Z) :
    M X W (Z * nat) :=
  if (nonEmptyCount <? 3) && negb (bool_decide (ptr = 0%nat)) then
    match fuel with
    | O => fail out_of_fuel
    | S fuel =>
        n ← load_producer ptr;
        let size := producer_size_approx (base_of_producer n) in
        if 0 <? size then
          if bestSize <? size then score fuel (next_prod n) (nonEmptyCount + 1) ptr size
          else score fuel (next_prod n) (nonEmptyCount + 1) best bestSize
        else score fuel (next_prod n) nonEmptyCount best bestSize
    end
  else mret (nonEmptyCount, best).

(** All producers but [best], in order. *)
Fixpoint try_others (fuel : nat) (best ptr : nat) : M X (W * U) bool :=
  if bool_decide (ptr = 0%nat) then mret false
  else
    match fuel with
    | O => fail out_of_fuel
    | S fuel =>
        done ← (if bool_decide (ptr = best) then mret false else producer_dequeue ptr);
        if (done : bool) then mret true
        else n ← on_fst (load_producer ptr); try_others fuel best (next_prod n)
    end.

Definition try_dequeue (this : nat) : M X (W * U) bool :=
  q ← on_fst (queue_of this);
  fuel ← on_fst list_fuel;
  '(nonEmptyCount, best) ← on_fst (score fuel (producerListTail q) 0 0 0);
  if 0 <? nonEmptyCount then
    done ← producer_dequeue best;
    if (done : bool) then mret true
    else q ← on_fst (queue_of this); try_others fuel best (producerListTail q)
  else mret false.

(** There is no producer at nullptr. *)
Definition try_dequeue_non_interleaved (this : nat) : M X (W * U) bool :=
  q ← on_fst (queue_of this);
  fuel ← on_fst list_fuel;
  try_others fuel 0 (producerListTail q).

(** The producer after [ptr], around the list [n] times. *)
Fixpoint rotate_by (n : nat) (tail ptr : nat) : M X W nat :=
  match n with
  | O => mret ptr
  | S n =>
      d ← load_producer ptr;
      rotate_by n tail (if bool_decide (next_prod d = 0%nat) then tail else next_prod d)
  end.

(** x % y *)
Definition modulo (x y : Z) : result Z := if y =? 0 then Err division_by_zero else Ok (x mod y).

Definition update_current_producer_after_rotation (this t : nat) : M X W bool :=
  q ← queue_of this;
  let tail := producerListTail q in
  c ← ctoken_at t;
  if bool_decide (desiredProducer c = 0%nat) && bool_decide (tail = 0%nat) then mret false
  else
    let prodCount := producerCount q in
    let globalOffset := globalExplicitConsumerOffset q in
    desired ←
      (if bool_decide (desiredProducer c = 0%nat) then
         r ← lift (modulo (initialOffset c) prodCount);
         rotate_by (Z.to_nat (u32 (prodCount - 1 - r))) tail tail
       else mret (desiredProducer c));
    let delta := u32 (globalOffset - lastKnownGlobalOffset c) in
    delta ← (if prodCount <=? delta then lift (modulo delta prodCount) else mret delta);
    desired ← rotate_by (Z.to_nat delta) tail desired;
    on_ctoken t (modify (fun c => mkConsumerToken (initialOffset c) globalOffset 0 desired desired)) ;;
    mret true.

(** token.desiredProducer == nullptr || token.lastKnownGlobalOffset != globalExplicitConsumerOffset *)
Definition rotated (this t : nat) : M X W bool :=
  c ← ctoken_at t;
  q ← queue_of this;
  mret (bool_decide (desiredProducer c = 0%nat)
          || negb (lastKnownGlobalOffset c =? globalExplicitConsumerOffset q)).

Definition rotate_all (this : nat) : M X W unit :=
  on_queue this (modify (fun q => set_consumers_of (nextExplicitConsumerId q)
                                    (u32 (globalExplicitConsumerOffset q + 1)) q)).

(** The producers from [ptr] on, around the list to [current]. *)
Fixpoint try_around (fuel : nat) (t tail current ptr : nat) : M X (W * U) bool :=
  if bool_decide (ptr = current) then mret false
  else
    match fuel with
    | O => fail out_of_fuel
    | S fuel =>
        done ← producer_dequeue ptr;
        if (done : bool) then
          on_fst (on_ctoken t (modify (fun c => mkConsumerToken (initialOffset c)
            (lastKnownGlobalOffset c) 1 ptr (desiredProducer c)))) ;;
          mret true
        else
          n ← on_fst (load_producer ptr);
          try_around fuel t tail current (if bool_decide (next_prod n = 0%nat) then tail else next_prod n)
    end.

(** What follows the rotation. *)
Definition try_from_current (this t : nat) : M X (W * U) bool :=
  c ← on_fst (ctoken_at t);
  done ← producer_dequeue (currentProducer c);
  if (done : bool) then
    let consumed := u32 (itemsConsumedFromCurrent c + 1) in
    on_fst (on_ctoken t (modify (set_consumed consumed))) ;;
    (if consumed =? EXPLICIT_CONSUMER_CONSUMPTION_QUOTA_BEFORE_ROTATE then on_fst (rotate_all this)
     else mret tt) ;;
    mret true
  else
    q ← on_fst (queue_of this);
    let tail := producerListTail q in
    n ← on_fst (load_producer (currentProducer c));
    fuel ← on_fst list_fuel;
    try_around fuel t tail (currentProducer c)
      (if bool_decide (next_prod n = 0%nat) then tail else next_prod n).

Definition try_dequeue_token (this t : nat) : M X (W * U) bool :=
  rot ← on_fst (rotated this t);
  ready ← (if (rot : bool) then on_fst (update_current_producer_after_rotation this t) else mret true);
  if negb ready then mret false else try_from_current this t.

Fixpoint dequeue_bulk_loop (fuel : nat) (ptr : nat) (max count : Z) (i : nat) : M X (W * list U) Z :=
  if bool_decide (ptr = 0%nat) then mret count
  else
    match fuel with
    | O => fail out_of_fuel
    | S fuel =>
        d ← producer_dequeue_bulk ptr (u64 (max - count)) i;
        let count := u64 (count + d) in
        if count =? max then mret count
        else
          n ← on_fst (load_producer ptr);
          dequeue_bulk_loop fuel (next_prod n) max count (i + Z.to_nat d)
    end.

Definition try_dequeue_bulk (this : nat) (max : Z) : M X (W * list U) Z :=
  q ← on_fst (queue_of this);
  fuel ← on_fst list_fuel;
  dequeue_bulk_loop fuel (producerListTail q) max 0 0.

(** The end of the round moves along with the token: there may be another. *)
Fixpoint bulk_around (fuel : nat) (t tail current ptr : nat) (max count : Z) (i : nat) :
    M X (W * list U) Z :=
  if bool_decide (ptr = current) then mret count
  else
    match fuel with
    | O => fail out_of_fuel
    | S fuel =>
        dequeued ← producer_dequeue_bulk ptr max i;
        let count := u64 (count + dequeued) in
        (if dequeued =? 0 then mret tt
         else on_fst (on_ctoken t (modify (fun c => mkConsumerToken (initialOffset c)
                (lastKnownGlobalOffset c) (u32 dequeued) ptr (desiredProducer c))))) ;;
        if dequeued =? max then mret count
        else
          n ← on_fst (load_producer ptr);
          c ← on_fst (ctoken_at t);
          bulk_around fuel t tail (currentProducer c)
            (if bool_decide (next_prod n = 0%nat) then tail else next_prod n)
            (u64 (max - dequeued)) count (i + Z.to_nat dequeued)
    end.

Definition try_dequeue_bulk_token (this t : nat) (max : Z) : M X (W * list U) Z :=
  rot ← on_fst (rotated this t);
  ready ← (if (rot : bool) then on_fst (update_current_producer_after_rotation this t) else mret true);
  if negb ready then mret 0
  else
    c ← on_fst (ctoken_at t);
    count ← producer_dequeue_bulk (currentProducer c) max 0;
    if count =? max then
      let consumed := u32 (itemsConsumedFromCurrent c + max) in
      on_fst (on_ctoken t (modify (set_consumed consumed))) ;;
      (if EXPLICIT_CONSUMER_CONSUMPTION_QUOTA_BEFORE_ROTATE <=? consumed then on_fst (rotate_all this)
       else mret tt) ;;
      mret max
    else
      on_fst (on_ctoken t (modify (set_consumed (u32 (itemsConsumedFromCurrent c + count))))) ;;
      q ← on_fst (queue_of this);
      let tail := producerListTail q in
      n ← on_fst (load_producer (currentProducer c));
      fuel ← on_fst list_fuel;
      bulk_around (2 * fuel) t tail (currentProducer c)
        (if bool_decide (next_prod n = 0%nat) then tail else next_prod n)
        (u64 (max - count)) count (Z.to_nat count).

Definition try_dequeue_from_producer (t : nat) : M X (W * U) bool :=
  p ← on_fst (producer_of t);
  explicit_with p (explicit_dequeue assign_result nothrow_assign).

Definition try_dequeue_bulk_from_producer (t : nat) (max : Z) : M X (W * list U) Z :=
  p ← on_fst (producer_of t);
  explicit_with p (explicit_dequeue_bulk assign_result nothrow_assign max 0).

Fixpoint size_loop (fuel : nat) (ptr : nat) (size : Z) : M X W Z :=
  if bool_decide (ptr = 0%nat) then mret size
  else
    match fuel with
    | O => fail out_of_fuel
    | S fuel =>
        n ← load_producer ptr;
        size_loop fuel (next_prod n) (u64 (size + producer_size_approx (base_of_producer n)))
    end.

Definition size_approx (this : nat) : M X W Z :=
  q ← queue_of this; fuel ← list_fuel; size_loop fuel (producerListTail q) 0.
End queue.
