(* ===== verification/CqHash.v ===== *)
(** * ConcurrentQueue: the hash tables of threads

    A table is an array of pairs of a key and a value, 0 being the key of a free slot, with
    linear probing: [table_ok h kvs m] says that it represents the map [m]. *)
From stdpp Require Import gmap.
From S2P Require Import Prelude Lifetime FreeList CqBlock CqPool CqFacts CqExplicit CqImplicit CqQueue.

#[local] Open Scope Z_scope.

(** The first number with a property. *)
Lemma first_with (P : nat → Prop) `{!∀ n, Decision (P n)} N :
  (∃ d, (d < N)%nat ∧ P d) → ∃ n, (n < N)%nat ∧ P n ∧ ∀ d, (d < n)%nat → ¬ P d.
Proof.
  induction N as [|N IH]; [intros (? & ? & _); lia|]. intros (d & Hd & HP).
  destruct (decide (Exists P (seq 0 N))) as [Hex|Hno].
  - apply Exists_exists in Hex as (d' & [_ Hd']%elem_of_seq & HP').
    destruct IH as (n & Hn & HPn & Hfirst); [by exists d'|]. exists n. split; [lia|done].
  - assert (Hless : ∀ d', (d' < N)%nat → ¬ P d').
    { intros d' Hd' HP'. apply Hno, Exists_exists. exists d'. split; [apply elem_of_seq; lia|done]. }
    assert (d = N) as -> by (destruct (decide (d < N)%nat) as [Hlt|]; [by destruct (Hless d Hlt)|lia]).
    exists N. split_and!; [lia|done|done].
Qed.

Section tables.
Context {TR : Traits} {OK : TraitsOk}.
Implicit Types (h : ImplicitProducerHash) (kvs : list (Z * nat)) (id : Z) (m : gmap Z nat) (i d n : nat).

(** The slot that is looked at after [d] others. *)
Definition slot_at (capacity id : Z) d : nat := Z.to_nat ((hash_thread_id id + Z.of_nat d) mod capacity).

Definition stored (x : Z * nat) : ImplicitProducerKVP := mkKVP (Some x.1) x.2.

Record table_ok h kvs m : Prop := {
  to_pow : pow2 (hash_capacity h);
  to_entries : hash_entries h = stored <$> kvs;
  to_length : Z.of_nat (length kvs) = hash_capacity h;
  to_map id v : m !! id = Some v ↔ id ≠ 0 ∧ (id, v) ∈ kvs;
  to_reach i id v : kvs !! i = Some (id, v) → id ≠ 0 → ∃ d, i = slot_at (hash_capacity h) id d ∧
    ∀ d' k v', (d' < d)%nat → kvs !! slot_at (hash_capacity h) id d' = Some (k, v') → k ≠ id ∧ k ≠ 0
}.

Section table.
Context h kvs m (Hok : table_ok h kvs m).

Lemma table_capacity_pos : 0 < hash_capacity h.
Proof. pose proof (pow2_bounds _ (to_pow _ _ _ Hok)). lia. Qed.

Lemma slot_bound id d : (slot_at (hash_capacity h) id d < length kvs)%nat.
Proof.
  pose proof table_capacity_pos as Hc. pose proof (to_length _ _ _ Hok).
  pose proof (Z.mod_pos_bound (hash_thread_id id + Z.of_nat d) _ Hc). unfold slot_at. lia.
Qed.

Lemma slot_lookup id d : ∃ k v, kvs !! slot_at (hash_capacity h) id d = Some (k, v).
Proof. destruct (lookup_lt_is_Some_2 _ _ (slot_bound id d)) as [[k v] ?]. by exists k, v. Qed.

(** Every slot is looked at. *)
Lemma slot_reached id i : (i < length kvs)%nat →
  ∃ d, (d < length kvs)%nat ∧ i = slot_at (hash_capacity h) id d.
Proof.
  intros Hi. pose proof table_capacity_pos as Hc. pose proof (to_length _ _ _ Hok) as Hl.
  pose proof (Z.mod_pos_bound (Z.of_nat i - hash_thread_id id) _ Hc).
  exists (Z.to_nat ((Z.of_nat i - hash_thread_id id) mod hash_capacity h)). split; [lia|].
  unfold slot_at. rewrite Z2Nat.id by lia. rewrite Z.add_mod_idemp_r by lia.
  replace (hash_thread_id id + (Z.of_nat i - hash_thread_id id)) with (Z.of_nat i) by lia.
  rewrite Z.mod_small by lia. lia.
Qed.

(** A key is in one slot. *)
Lemma key_unique i j id v v' :
  kvs !! i = Some (id, v) → kvs !! j = Some (id, v') → id ≠ 0 → i = j.
Proof.
  intros Hi Hj Hne. destruct (to_reach _ _ _ Hok _ _ _ Hi Hne) as (d & -> & Hd).
  destruct (to_reach _ _ _ Hok _ _ _ Hj Hne) as (d' & -> & Hd').
  destruct (lt_eq_lt_dec d d') as [[Hlt|]|Hlt]; [|by f_equal|].
  - by destruct (Hd' _ _ _ Hlt Hi).
  - by destruct (Hd _ _ _ Hlt Hj).
Qed.

(** A table with fewer keys than slots has a free slot. *)
Lemma free_slot : Z.of_nat (size m) < hash_capacity h → ∃ i v, kvs !! i = Some (0, v).
Proof.
  intros Hsize. destruct (decide (0 ∈ kvs.*1)) as [Hin|Hnot].
  { apply list_elem_of_fmap in Hin as ([k v] & Hk & Hin). simpl in Hk. subst k.
    apply list_elem_of_lookup in Hin as [i Hi]. by exists i, v. }
  exfalso. assert (Hnd : NoDup (kvs.*1)).
  { apply NoDup_alt. intros i j k (x & -> & Hi)%list_lookup_fmap_Some (y & Hxy & Hj)%list_lookup_fmap_Some.
    destruct x as [k v], y as [k' v']. simpl in Hxy. subst k'.
    eapply key_unique; [done..|]. intros ->. apply Hnot, list_elem_of_fmap. exists (0, v).
    split; [done|by eapply list_elem_of_lookup_2]. }
  assert (Hle : (length (kvs.*1) ≤ size m)%nat).
  { rewrite <- (size_list_to_set (C := gset Z) _ Hnd), <- (size_dom (D := gset Z) m). apply subseteq_size.
    intros k Hk%elem_of_list_to_set. apply elem_of_dom.
    assert (k ≠ 0) by (intros ->; done).
    apply list_elem_of_fmap in Hk as ([k' v] & -> & Hin). exists v. by apply (to_map _ _ _ Hok). }
  rewrite length_fmap in Hle. pose proof (to_length _ _ _ Hok). lia.
Qed.

(** ** Looking for a key *)

Definition stops id d : bool :=
  match kvs !! slot_at (hash_capacity h) id d with
  | Some x => (x.1 =? id) || (x.1 =? 0)
  | None => false
  end.

Lemma stops_spec id d x : kvs !! slot_at (hash_capacity h) id d = Some x →
  stops id d = true ↔ x.1 = id ∨ x.1 = 0.
Proof. intros Hx. unfold stops. by rewrite Hx, orb_true_iff, !Z.eqb_eq. Qed.

(** Where probing stops. *)
Lemma probing_stops id : Z.of_nat (size m) < hash_capacity h ∨ is_Some (m !! id) →
  ∃ n k v, (n < length kvs)%nat ∧ kvs !! slot_at (hash_capacity h) id n = Some (k, v) ∧ (k = id ∨ k = 0) ∧
    ∀ d k' v', (d < n)%nat → kvs !! slot_at (hash_capacity h) id d = Some (k', v') → k' ≠ id ∧ k' ≠ 0.
Proof.
  intros Hroom.
  destruct (first_with (λ d, stops id d = true) (length kvs)) as (n & Hn & Hst & Hfirst).
  { assert (Hi : ∃ i x, kvs !! i = Some x ∧ (x.1 = id ∨ x.1 = 0)).
    { destruct Hroom as [(i & v & Hi)%free_slot|[v [_ Hv]%(to_map _ _ _ Hok)]].
      - exists i, (0, v). auto.
      - apply list_elem_of_lookup in Hv as [i Hi]. exists i, (id, v). auto. }
    destruct Hi as (i & x & Hi & Hx). destruct (slot_reached id i) as (d & Hd & ->); [by eapply lookup_lt_Some|].
    exists d. split; [done|]. by apply (stops_spec id d x). }
  destruct (slot_lookup id n) as (k & v & Hk). exists n, k, v.
  split_and!; [done|done|by apply (stops_spec id n (k, v))|]. intros d k' v' Hd Hlook.
  split; intros ->; apply (Hfirst d Hd), (stops_spec id d _ Hlook); auto.
Qed.

Lemma load_key_at i k v : kvs !! i = Some (k, v) → load_key h (Z.of_nat i) = Ok k.
Proof.
  intros Hi. unfold load_key. rewrite (vector_at_Some _ _ (stored (k, v))); [done|].
  rewrite Nat2Z.id, (to_entries _ _ _ Hok), list_lookup_fmap, Hi. done.
Qed.

Lemma load_value_at i k v : kvs !! i = Some (k, v) → load_kvp_value h (Z.of_nat i) = Ok v.
Proof.
  intros Hi. unfold load_kvp_value. rewrite (vector_at_Some _ _ (stored (k, v))); [done|].
  rewrite Nat2Z.id, (to_entries _ _ _ Hok), list_lookup_fmap, Hi. done.
Qed.

(** index &= capacity - 1; an index that has been incremented *)
Lemma index_masked x id d : x mod hash_capacity h = (hash_thread_id id + Z.of_nat d) mod hash_capacity h →
  Z.land x (u64 (hash_capacity h - 1)) = Z.of_nat (slot_at (hash_capacity h) id d).
Proof.
  intros Hx. pose proof table_capacity_pos as Hc. pose proof (pow2_bounds _ (to_pow _ _ _ Hok)).
  destruct (to_pow _ _ _ Hok) as (k & Hk & Heq). unfold slot_at.
  rewrite <- Hx. pose proof (Z.mod_pos_bound x _ Hc). rewrite Z2Nat.id by lia. rewrite (u64_small (_ - 1)) by lia.
  rewrite Heq, Z.sub_1_r, <- Z.ones_equiv. apply Z.land_ones. lia.
Qed.

Lemma index_next id d : u64 (Z.of_nat (slot_at (hash_capacity h) id d) + 1) mod hash_capacity h =
  (hash_thread_id id + Z.of_nat (S d)) mod hash_capacity h.
Proof.
  pose proof table_capacity_pos as Hc. rewrite u64_mod by apply (to_pow _ _ _ Hok). unfold slot_at.
  pose proof (Z.mod_pos_bound (hash_thread_id id + Z.of_nat d) _ Hc).
  rewrite Z2Nat.id by lia. rewrite Z.add_mod_idemp_l by lia. f_equal. lia.
Qed.

Lemma probe_from id k v : ∀ n fuel x d,
  (n < fuel)%nat → x mod hash_capacity h = (hash_thread_id id + Z.of_nat d) mod hash_capacity h →
  kvs !! slot_at (hash_capacity h) id (d + n) = Some (k, v) → (k = id ∨ k = 0) →
  (∀ d' k' v', (d ≤ d' < d + n)%nat → kvs !! slot_at (hash_capacity h) id d' = Some (k', v') →
     k' ≠ id ∧ k' ≠ 0) →
  probe fuel h id x =
    Ok (if k =? id then Some (Z.of_nat (slot_at (hash_capacity h) id (d + n))) else None).
Proof.
  induction n as [|n IH]; intros fuel x d Hfuel Hx Hk Hstop Hfirst;
    (destruct fuel as [|fuel]; [lia|]); cbn [probe]; rewrite (index_masked x id d Hx).
  - rewrite Nat.add_0_r in *. rewrite (load_key_at _ _ _ Hk), bind_Ok.
    destruct (Z.eqb_spec k id) as [|Hne]; [done|]. destruct Hstop as [| ->]; [done|]. done.
  - destruct (slot_lookup id d) as (k' & v' & Hd). rewrite (load_key_at _ _ _ Hd), bind_Ok.
    destruct (Hfirst d k' v') as [Hid Hz]; [lia|done|].
    rewrite (proj2 (Z.eqb_neq _ _) Hid). unfold invalid_thread_id. rewrite (proj2 (Z.eqb_neq _ _) Hz).
    rewrite Nat.add_succ_r in *. apply (IH fuel _ (S d)); [lia|apply index_next|done|done|].
    intros d' k2 v2 Hd'. apply Hfirst. lia.
Qed.

(** The key is found if it is there. *)
Lemma probe_spec id : id ≠ 0 → Z.of_nat (size m) < hash_capacity h →
  match m !! id with
  | Some v => ∃ i : Z, probe (Z.to_nat (hash_capacity h)) h id (hash_thread_id id) = Ok (Some i) ∧
      load_kvp_value h i = Ok v
  | None => probe (Z.to_nat (hash_capacity h)) h id (hash_thread_id id) = Ok None
  end.
Proof.
  intros Hid Hroom. destruct (probing_stops id (or_introl Hroom)) as (n & k & v & Hn & Hk & Hstop & Hfirst).
  pose proof (to_length _ _ _ Hok) as Hl.
  pose proof (probe_from id k v n (Z.to_nat (hash_capacity h)) (hash_thread_id id) 0) as Hp.
  rewrite Hp; [|lia|by rewrite Z.add_0_r|done|done|by intros d' k' v' Hd'; apply Hfirst; lia].
  simpl. destruct (m !! id) as [v0|] eqn:Em.
  - destruct (proj1 (to_map _ _ _ Hok _ _) Em) as [_ [i Hi]%list_elem_of_lookup].
    destruct (to_reach _ _ _ Hok _ _ _ Hi Hid) as (d & -> & Hd).
    assert (d = n) as ->.
    { destruct (lt_eq_lt_dec d n) as [[Hlt|]|Hlt]; [|done|].
      - by destruct (Hfirst _ _ _ Hlt Hi).
      - destruct (Hd _ _ _ Hlt Hk). naive_solver. }
    rewrite Hi in Hk. injection Hk as -> ->. rewrite Z.eqb_refl. eexists. split; [done|].
    by eapply load_value_at.
  - destruct (Z.eqb_spec k id) as [->|]; [|done]. exfalso.
    assert (m !! id = Some v) by (apply (to_map _ _ _ Hok); split; [done|by eapply list_elem_of_lookup_2]).
    congruence.
Qed.

(** ** Adding a key *)
Lemma table_insert id v n v0 : id ≠ 0 → m !! id = None →
  kvs !! slot_at (hash_capacity h) id n = Some (0, v0) →
  (∀ d k' v', (d < n)%nat → kvs !! slot_at (hash_capacity h) id d = Some (k', v') → k' ≠ id ∧ k' ≠ 0) →
  table_ok (mkHash (hash_capacity h)
      (<[slot_at (hash_capacity h) id n := stored (id, v)]> (hash_entries h)) (hash_prev h))
    (<[slot_at (hash_capacity h) id n := (id, v)]> kvs) (<[id := v]> m).
Proof.
  intros Hid Hm Hfree Hfirst. destruct Hok as [Hp He Hl Hmap Hreach].
  set (i := slot_at (hash_capacity h) id n) in *. pose proof (lookup_lt_Some _ _ _ Hfree) as Hi.
  assert (Hnot : ∀ j w, kvs !! j ≠ Some (id, w)).
  { intros j w Hj. assert (m !! id = Some w) by (apply Hmap; split; [done|by eapply list_elem_of_lookup_2]).
    congruence. }
  constructor; simpl; [done|by rewrite He, list_fmap_insert|by rewrite length_insert|..].
  - intros id' v'. split.
    + intros [[<- <-]|[Hne Hm']]%lookup_insert_Some.
      * split; [done|]. apply (list_elem_of_lookup_2 _ i). by apply list_lookup_insert_eq.
      * apply Hmap in Hm' as [Hz [j Hj]%list_elem_of_lookup]. split; [done|].
        apply (list_elem_of_lookup_2 _ j). rewrite list_lookup_insert_ne; [done|]. intros <-. congruence.
    + intros [Hz [j Hj]%list_elem_of_lookup]. destruct (decide (j = i)) as [->|Hne].
      * rewrite list_lookup_insert_eq in Hj by done. injection Hj as <- <-. apply lookup_insert_eq.
      * rewrite list_lookup_insert_ne in Hj by done. rewrite lookup_insert_ne.
        -- apply Hmap. split; [done|by eapply list_elem_of_lookup_2].
        -- intros <-. by eapply Hnot.
  - intros j id' v' Hj Hz. destruct (decide (j = i)) as [->|Hne].
    + rewrite list_lookup_insert_eq in Hj by done. injection Hj as <- <-. exists n. split; [done|].
      intros d k' w Hd Hlook. rewrite list_lookup_insert_ne in Hlook; [by eapply Hfirst|].
      intros Heq. rewrite <- Heq in Hlook. unfold i in Heq, Hlook.
      assert (Hd0 : kvs !! slot_at (hash_capacity h) id d = Some (0, v0)) by (rewrite <- Heq; exact Hfree).
      by destruct (Hfirst d _ _ Hd Hd0).
    + rewrite list_lookup_insert_ne in Hj by done. destruct (Hreach _ _ _ Hj Hz) as (d & -> & Hd).
      exists d. split; [done|]. intros d' k' w Hd' Hlook.
      destruct (decide (slot_at (hash_capacity h) id' d' = i)) as [Heq|Hneq].
      * rewrite Heq, list_lookup_insert_eq in Hlook by done. injection Hlook as <- <-.
        rewrite <- Heq in Hfree. by destruct (Hd _ _ _ Hd' Hfree).
      * rewrite list_lookup_insert_ne in Hlook by done. by eapply Hd.
Qed.
End table.

(** A new table is empty. *)
Lemma table_new capacity prev n v : pow2 capacity → Z.of_nat n = capacity →
  table_ok (mkHash capacity (replicate n (mkKVP (Some invalid_thread_id) v)) prev)
    (replicate n (0, v)) ∅.
Proof.
  intros Hp Hn. constructor; simpl; [done|by rewrite fmap_replicate|by rewrite length_replicate|..].
  - intros id w. rewrite lookup_empty. split; [done|]. intros [Hz Hin%elem_of_replicate]. naive_solver.
  - intros i id w Hi%lookup_replicate_1. naive_solver.
Qed.
End tables.

(** ** Access to the objects *)
Section accesses.
Context `{Traits} {X T : Type} `{!CppType X T}.
#[local] Abbreviation W := (Store T).
Implicit Types (w : W).

Lemma runs_zoom {S S' A} get put (c : M X S' A) (s : S) s' Q Qt F :
  get s = Ok s' → runs c s' (λ a s'', Q a (put s'' s)) (λ x s'', Qt x (put s'' s)) F →
  runs (zoom get put c) s Q Qt F.
Proof. unfold runs, zoom. intros ->. by destruct (c s') as [[s'' [a|x]]|]. Qed.

Lemma runs_queue_of this w q (Q : ConcurrentQueue → W → Prop) Qt F :
  queues w !! this = Some q → Q q w → runs (queue_of (X := X) this) w Q Qt F.
Proof.
  intros Hq HQ. eapply runs_zoom; [by rewrite Hq|]. apply runs_gets. unfold set_queues.
  rewrite insert_id by done. by destruct w.
Qed.

Lemma runs_modify_queue this w q f (Q : () → W → Prop) Qt F :
  queues w !! this = Some q → Q tt (set_queues (<[this := f q]> (queues w)) w) →
  runs (on_queue (X := X) this (modify f)) w Q Qt F.
Proof. intros Hq HQ. eapply runs_zoom; [by rewrite Hq|]. by apply runs_modify. Qed.

Lemma runs_load_producer p w n (Q : Producer → W → Prop) Qt F :
  producers w !! p = Some n → Q n w → runs (load_producer (X := X) p) w Q Qt F.
Proof.
  intros Hn HQ. eapply runs_zoom; [by rewrite Hn|]. apply runs_gets. unfold set_producers.
  rewrite insert_id by done. by destruct w.
Qed.

Lemma runs_modify_producer p w n f (Q : () → W → Prop) Qt F :
  producers w !! p = Some n → Q tt (set_producers (<[p := f n]> (producers w)) w) →
  runs (on_prod (X := X) p (modify f)) w Q Qt F.
Proof. intros Hn HQ. eapply runs_zoom; [by rewrite Hn|]. by apply runs_modify. Qed.

Lemma runs_load_hash r w h (Q : ImplicitProducerHash → W → Prop) Qt F :
  hashes w !! r = Some h → Q h w → runs (load_hash (X := X) r) w Q Qt F.
Proof.
  intros Hh HQ. eapply runs_zoom; [by rewrite Hh|]. apply runs_gets. unfold set_hashes.
  rewrite insert_id by done. by destruct w.
Qed.

Lemma runs_modify_hash r w h f (Q : () → W → Prop) Qt F :
  hashes w !! r = Some h → Q tt (set_hashes (<[r := f h]> (hashes w)) w) →
  runs (on_hash (X := X) r (modify f)) w Q Qt F.
Proof. intros Hh HQ. eapply runs_zoom; [by rewrite Hh|]. by apply runs_modify. Qed.

Lemma runs_on_mem {A} (c : M X (Memory T) A) w Q Qt F :
  runs c (memory w) (λ a m, Q a (set_memory m w)) (λ x m, Qt x (set_memory m w)) F →
  runs (on_mem c) w Q Qt F.
Proof. intros Hc. by eapply runs_zoom. Qed.

Lemma runs_lift' {S A} (r : result A) (s : S) a Q (Qt : X → S → Prop) F :
  r = Ok a → Q a s → runs (lift r) s Q Qt F.
Proof. by intros ->. Qed.
End accesses.

(** ** The tables of a queue *)
Section threads.
Context {TR : Traits} {OK : TraitsOk} {X T : Type} `{!CppType X T}.
#[local] Abbreviation W := (Store T).
Implicit Types (w : W) (h : ImplicitProducerHash) (id : Z) (m threads : gmap Z nat) (v : nat).
Implicit Types (hs : gmap hash_ref ImplicitProducerHash) (ts : list (hash_ref * gmap Z nat)).

(** The tables linked by [prev], from the one at [r] on, and what they represent. *)
Fixpoint chain hs (r : option hash_ref) ts : Prop :=
  match ts with
  | [] => r = None
  | (r', m) :: ts => r = Some r' ∧ ∃ h kvs, hs !! r' = Some h ∧ table_ok h kvs m ∧
      Z.of_nat (size m) < hash_capacity h ∧ chain hs (hash_prev h) ts
  end.

(** Together they represent [threads]; in the first one there is room for all. *)
Record threads_ok hs (r : option hash_ref) ts threads : Prop := {
  th_chain : chain hs r ts;
  th_nodup : NoDup (ts.*1);
  th_sub r m : (r, m) ∈ ts → m ⊆ threads;
  th_complete id v : threads !! id = Some v → ∃ r m, (r, m) ∈ ts ∧ m !! id = Some v;
  th_room r m ts' h : ts = (r, m) :: ts' → hs !! r = Some h →
    threads = ∅ ∨ 2 * Z.of_nat (size threads) < hash_capacity h
}.

Lemma chain_ext hs hs' r ts : chain hs r ts → (∀ r, r ∈ ts.*1 → hs' !! r = hs !! r) → chain hs' r ts.
Proof.
  revert r. induction ts as [|[r' m] ts IH]; intros r; [done|]. csimpl.
  intros (-> & h & kvs & Hh & Hok & Hsize & Hc) Hsame. split; [done|]. exists h, kvs.
  rewrite Hsame by set_solver. split_and!; [done..|]. apply IH; [done|]. intros r Hr. apply Hsame. set_solver.
Qed.

Lemma chain_size hs r ts : chain hs r ts → NoDup (ts.*1) → (length ts ≤ size hs)%nat.
Proof.
  intros Hc Hnd. rewrite <- (length_fmap fst), <- (size_list_to_set (C := gset hash_ref) _ Hnd).
  rewrite <- (size_dom (D := gset hash_ref)). apply subseteq_size.
  intros r' Hr'%elem_of_list_to_set. apply elem_of_dom. revert r Hc Hr'. clear Hnd.
  induction ts as [|[r1 m] ts IH]; intros r; csimpl; [by intros _ ?%elem_of_nil|].
  intros (-> & h & kvs & Hh & _ & _ & Hc) [->|Hr']%elem_of_cons; [by eexists|by eapply IH].
Qed.

(** A table takes a new key. *)
Lemma claim_slot_runs r id v w h kvs m (Q : () → W → Prop) Qt F :
  hashes w !! r = Some h → table_ok h kvs m → id ≠ 0 → m !! id = None →
  Z.of_nat (size m) < hash_capacity h →
  (∀ h' kvs', hash_capacity h' = hash_capacity h → hash_prev h' = hash_prev h →
     table_ok h' kvs' (<[id := v]> m) → Q tt (set_hashes (<[r := h']> (hashes w)) w)) →
  runs (claim_slot (X := X) (Z.to_nat (hash_capacity h)) r id (hash_thread_id id) v) w Q Qt F.
Proof.
  intros Hh Hok Hid Hm Hsize HQ.
  destruct (probing_stops h kvs m Hok id (or_introl Hsize)) as (n & k & v0 & Hn & Hk & Hstop & Hfirst).
  assert (k = 0) as ->.
  { destruct Hstop as [->|]; [|done]. exfalso.
    assert (m !! id = Some v0); [|congruence].
    apply (to_map _ _ _ Hok). split; [done|by eapply list_elem_of_lookup_2]. }
  assert (Hloop : ∀ k fuel x d, (k < fuel)%nat → (d + k = n)%nat →
    x mod hash_capacity h = (hash_thread_id id + Z.of_nat d) mod hash_capacity h →
    runs (claim_slot (X := X) fuel r id x v) w Q Qt F).
  { induction k as [|k IH]; intros fuel x d Hfuel Hd Hx; (destruct fuel as [|fuel]; [lia|]); cbn [claim_slot];
      apply runs_bind; (eapply runs_load_hash; [exact Hh|]); rewrite (index_masked h kvs m Hok x id d Hx).
    - assert (d = n) as -> by lia. apply runs_bind. eapply runs_lift'; [by eapply load_key_at|].
      simpl. eapply runs_modify_hash; [exact Hh|]. rewrite Nat2Z.id.
      eapply HQ; [..|by eapply table_insert]; done.
    - destruct (slot_lookup h kvs m Hok id d) as (k' & v' & Hk'). apply runs_bind.
      eapply runs_lift'; [by eapply load_key_at|]. destruct (Hfirst d k' v') as [_ Hz]; [lia|done|].
      unfold invalid_thread_id. rewrite (proj2 (Z.eqb_neq _ _) Hz).
      apply (IH _ _ (S d)); [lia|lia|]. by eapply index_next. }
  pose proof (to_length _ _ _ Hok). apply (Hloop n _ _ 0%nat); [lia|lia|by rewrite Z.add_0_r].
Qed.

(** The first table takes a key that it does not have; [threads'] has it. *)
Lemma threads_claim hs r m ts h m' threads threads' h' kvs' :
  threads_ok hs (Some r) ((r, m) :: ts) threads → hs !! r = Some h →
  hash_prev h' = hash_prev h → table_ok h' kvs' m' →
  threads ⊆ threads' → m ⊆ m' → m' ⊆ threads' →
  (∀ id v, threads' !! id = Some v → threads !! id = Some v ∨ m' !! id = Some v) →
  2 * Z.of_nat (size threads') < hash_capacity h' →
  threads_ok (<[r := h']> hs) (Some r) ((r, m') :: ts) threads'.
Proof.
  intros [Hc Hnd Hsub Hcomp Hroom] Hh Hprev Hok' Hthr Hmm Hm' Hnew Hsize.
  destruct Hc as (_ & h0 & kvs0 & Hh0 & Hok & Hs & Hc). assert (h0 = h) as -> by congruence.
  pose proof (map_subseteq_size _ _ Hm'). csimpl in *. pose proof Hnd as [Hr _]%NoDup_cons.
  constructor; csimpl; [|done|..].
  - split; [done|]. exists h', kvs'. rewrite lookup_insert_eq, Hprev. split_and!; [done..|lia|].
    eapply chain_ext; [exact Hc|]. intros r' Hr'. by rewrite lookup_insert_ne by (intros ->; done).
  - intros r' m0 [[= -> ->]|Hin]%elem_of_cons; [done|]. transitivity threads; [|done]. apply (Hsub r'). by right.
  - intros id v Hv. destruct (Hnew id v Hv) as [Hv'|Hv'].
    + destruct (Hcomp id v Hv') as (r' & m0 & [[= -> ->]|Hin]%elem_of_cons & Hm0).
      * exists r, m'. split; [by left|]. by eapply lookup_weaken.
      * exists r', m0. split; [by right|done].
    + exists r, m'. split; [by left|done].
  - intros r' m0 ts' h0 [= -> -> ->]. rewrite lookup_insert_eq. intros [= <-]. by right.
Qed.

(** A thread that is known is found; the first table knows it from then on. *)
Lemma find_producer_runs main m1 ts1 id threads fuel w (Q : option nat → W → Prop) Qt F : id ≠ 0 →
  threads_ok (hashes w) (Some main) ((main, m1) :: ts1) threads → (length ts1 < fuel)%nat →
  match threads !! id with
  | Some v => ∀ hs' m', threads_ok hs' (Some main) ((main, m') :: ts1) threads →
      Q (Some v) (set_hashes hs' w)
  | None => Q None w
  end →
  runs (find_producer (X := X) fuel main id (Some main)) w Q Qt F.
Proof.
  intros Hid Hok Hfuel HQ.
  assert (Hloop : ∀ ts2 ts0 fuel r, (main, m1) :: ts1 = ts0 ++ ts2 → (length ts2 ≤ fuel)%nat →
    chain (hashes w) r ts2 → (∀ r m, (r, m) ∈ ts0 → m !! id = None) →
    runs (find_producer (X := X) fuel main id r) w Q Qt F).
  { induction ts2 as [|[r m] ts2 IH]; intros ts0 fuel' r' Hts Hf Hc Hnone.
    - simpl in Hc. subst r'. destruct fuel'; apply runs_ret; (destruct (threads !! id) as [v|] eqn:Et; [|done]);
        destruct (th_complete _ _ _ _ Hok id v Et) as (r & m & Hin & Hm);
        rewrite Hts, app_nil_r in Hin; rewrite (Hnone r m Hin) in Hm; done.
    - destruct Hc as (-> & h & kvs & Hh & Htab & Hsize & Hc). destruct fuel' as [|fuel']; [simpl in Hf; lia|].
      cbn [find_producer]. apply runs_bind. eapply runs_load_hash; [exact Hh|].
      apply runs_bind. pose proof (probe_spec h kvs m Htab id Hid Hsize) as Hprobe.
      assert (Hsub : m ⊆ threads) by (apply (th_sub _ _ _ _ Hok r); rewrite Hts; set_solver).
      destruct (m !! id) as [v|] eqn:Em.
      + destruct Hprobe as (i & Hprobe & Hval). eapply runs_lift'; [exact Hprobe|].
        apply runs_bind. eapply runs_lift'; [exact Hval|]. apply runs_bind.
        rewrite (lookup_weaken _ _ _ _ Em Hsub) in HQ.
        destruct (decide (r = main)) as [->|Hne].
        * rewrite bool_decide_eq_true_2 by done. apply runs_ret, runs_ret.
          replace w with (set_hashes (hashes w) w) by by destruct w. by eapply HQ.
        * rewrite bool_decide_eq_false_2 by done.
          destruct ts0 as [|[r0 m0] ts0]; [by injection Hts as <- _ _|].
          injection Hts as <- <- Hts. pose proof (Hnone main m1 ltac:(by left)) as Hm1.
          pose proof (th_chain _ _ _ _ Hok) as (_ & h1 & kvs1 & Hh1 & Htab1 & Hs1 & _).
          apply runs_bind. eapply runs_load_hash; [exact Hh1|].
          assert (Hthr : threads ≠ ∅).
          { intros ->. apply (lookup_weaken _ _ _ _ Em) in Hsub. by rewrite lookup_empty in Hsub. }
          destruct (th_room _ _ _ _ Hok _ _ _ _ eq_refl Hh1) as [|Hroom]; [done|].
          eapply claim_slot_runs; [exact Hh1|exact Htab1|done|done|done|].
          intros h' kvs' Hcap Hprev Htab'. apply runs_ret.
          assert (Hm1sub : m1 ⊆ threads) by (apply (th_sub _ _ _ _ Hok main); by left).
          eapply HQ, threads_claim; [exact Hok|exact Hh1|exact Hprev|exact Htab'|done|..].
          -- by apply insert_subseteq.
          -- apply insert_subseteq_l; [|done]. by eapply lookup_weaken.
          -- by left.
          -- by rewrite Hcap.
      + eapply runs_lift'; [exact Hprobe|].
        apply (IH (ts0 ++ [(r, m)])); [by rewrite <- app_assoc|simpl in Hf; lia|done|].
        intros r0 m0 [Hin|[= -> ->]%list_elem_of_singleton]%elem_of_app; [by eapply Hnone|done]. }
  apply (Hloop ((main, m1) :: ts1) []); [done|simpl; lia|by destruct Hok|by intros ? ? ?%elem_of_nil].
Qed.
End threads.
