(* ===== verification/CqQueueInv.v ===== *)
(** * ConcurrentQueue: the invariant of a queue

    A queue is the list of its producers, each with the blocks and chunks of memory that
    are its own ([slot]); what is left of the memory is the pool and the hash tables.  A
    member of one producer leaves the others alone ([producer_call_runs]). *)
From stdpp Require Import gmap.
From S2P Require Import Prelude Lifetime FreeList CqBlock CqPool CqFacts CqPoolFacts CqExplicit CqImplicit.
From S2P Require Import CqRing CqExplicitInv CqExplicitOps CqLifecycle CqProducer CqExplicitTheorems.
From S2P Require Import CqImplicitOps CqImplicitTheorems CqQueue CqHash.

#[local] Open Scope Z_scope.

(** ** Memory that is shared out *)
Section memory.
Context {TR : Traits} {OK : TraitsOk} {X T : Type} `{!CppType X T}.
#[local] Abbreviation memory_at := (memory_at (X := X) (T := T)).
Implicit Types (m : Memory T) (q : BlockPool) (ring raws R W : list nat) (owned hdrs : gset nat).

Lemma memory_at_perm m q ring ring' raws raws' owned hdrs :
  memory_at m q ring raws owned hdrs → ring ≡ₚ ring' → raws ≡ₚ raws' →
  memory_at m q ring' raws' owned hdrs.
Proof.
  intros Hma Hr Hw. eapply memory_at_ring in Hr; [|exact Hma]. destruct Hr as [[fl Hinv] Hby Hring Hraws Hnd].
  constructor; [|done|done| |by rewrite <- Hw].
  - exists fl. by replace (list_to_set raws' : gset nat) with (list_to_set raws : gset nat)
      by (apply leibniz_equiv; by rewrite Hw).
  - intros p Hp. apply Hraws. by rewrite Hw.
Qed.

(** What one has, and what the others have. *)
Lemma memory_at_split m q ring R raws W :
  memory_at m q (ring ++ R) (raws ++ W) ∅ ∅ → NoDup (ring ++ R) →
  memory_at m q ring raws (list_to_set R) (list_to_set W).
Proof.
  intros [[fl Hinv] Hby _ _ Hnd] Hnr. apply NoDup_app in Hnd as (Hnd & Hdis & _).
  apply NoDup_app in Hnr as (_ & Hdisr & _).
  constructor; [|done|..|done].
  - exists fl. rewrite !list_to_set_app_L in Hinv. by rewrite !(right_id_L ∅ (∪)) in Hinv.
  - intros p Hp Hin. eapply Hdisr; [exact Hp|]. by apply elem_of_list_to_set in Hin.
  - intros p Hp Hin. eapply Hdis; [exact Hp|]. by apply elem_of_list_to_set in Hin.
Qed.

Lemma memory_at_join m q ring R raws W :
  memory_at m q ring raws (list_to_set R) (list_to_set W) → NoDup ring → NoDup R → NoDup W →
  memory_at m q (ring ++ R) (raws ++ W) ∅ ∅ ∧ NoDup (ring ++ R).
Proof.
  intros [[fl Hinv] Hby Hr Hw Hnd] Hnr HnR HnW. split.
  - constructor; [|done|by intros ? _ ?%elem_of_empty|by intros ? _ ?%elem_of_empty|].
    + exists fl. rewrite !list_to_set_app_L. by rewrite !(right_id_L ∅ (∪)).
    + apply NoDup_app. split_and!; [done| |done]. intros p Hp Hin. apply (Hw p Hp).
      by apply elem_of_list_to_set.
  - apply NoDup_app. split_and!; [done| |done]. intros p Hp Hin. apply (Hr p Hp).
    by apply elem_of_list_to_set.
Qed.

Lemma memory_at_nodup m q ring raws W owned hdrs :
  memory_at m q ring (raws ++ W) owned hdrs → NoDup W.
Proof. intros [_ _ _ _ Hnd]. by apply NoDup_app in Hnd as (_ & _ & ?). Qed.
End memory.

(** ** Producers *)
Section producers.
Context {TR : Traits} {OK : TraitsOk} {X T : Type} `{!CppType X T}.
Implicit Types (h : gmap nat (Block T)) (ring raws : list nat) (xs : list T).

Definition subqueue_holds (clean : bool) (s : Subqueue) h ring raws xs : Prop :=
  match s with
  | Explicit e => explicit_holds (X := X) clean e h ring raws xs
  | Implicit e => implicit_holds (X := X) clean e h ring raws xs
  end.

Lemma subqueue_nodup clean s h ring raws xs : subqueue_holds clean s h ring raws xs → NoDup ring.
Proof.
  destruct s.
  - intros (idle & used & H & -> & _ & [] & _). by rewrite app_nil_r in *.
  - by intros (H & _ & [] & _).
Qed.

Lemma subqueue_local clean s h h' ring raws xs :
  (∀ p, p ∈ ring → h' !! p = h !! p) → subqueue_holds clean s h ring raws xs →
  subqueue_holds clean s h' ring raws xs.
Proof. destruct s; [by apply explicit_local|by apply implicit_local]. Qed.

Record slot := mkSlot {
  s_addr : nat;
  s_node : Producer;
  s_ring : list nat;
  s_raws : list nat;
  s_items : list T;
  s_clean : bool
}.
Implicit Types (s : slot) (l : list slot).

Definition rings l : list nat := l ≫= s_ring.
Definition addresses l : list nat := s_addr <$> l.

(** The chunks that are not blocks: [extra] are those of the hash tables. *)
Definition all_raws l (extra : list nat) : list nat := (l ≫= s_raws) ++ addresses l ++ extra.

Fixpoint listed (ps : gmap nat Producer) (p : nat) l : Prop :=
  match l with
  | [] => p = 0%nat
  | s :: l => p = s_addr s ∧ p ≠ 0%nat ∧ ps !! p = Some (s_node s) ∧ listed ps (next_prod (s_node s)) l
  end.

Lemma listed_ext ps ps' p l : listed ps p l → (∀ a, a ∈ addresses l → ps' !! a = ps !! a) → listed ps' p l.
Proof.
  revert p. induction l as [|s l IH]; intros p; [done|]. csimpl. intros (-> & Hne & Hs & Hl) Hsame.
  split_and!; [done|done|by rewrite Hsame by set_solver|]. apply IH; [done|]. intros a Ha. apply Hsame. set_solver.
Qed.

Lemma listed_lookup ps p l s : listed ps p l → s ∈ l → s_addr s ≠ 0%nat ∧ ps !! s_addr s = Some (s_node s).
Proof.
  revert p. induction l as [|s' l IH]; intros p; [by intros _ ?%elem_of_nil|].
  intros (-> & Hne & Hs & Hl) [->|Hin]%elem_of_cons; [done|by eapply IH].
Qed.

Lemma listed_size ps p l : listed ps p l → NoDup (addresses l) → (length l ≤ size ps)%nat.
Proof.
  intros Hl Hnd. assert (length l = length (addresses l)) as -> by (symmetry; apply length_fmap).
  rewrite <- (size_list_to_set (C := gset nat) _ Hnd).
  rewrite <- (size_dom (D := gset nat)). apply subseteq_size.
  intros a Ha%elem_of_list_to_set. apply elem_of_dom. apply list_elem_of_fmap in Ha as (s & -> & Hs).
  eexists. by eapply listed_lookup.
Qed.

(** The same list with another producer at the address. *)
Lemma listed_update ps p l1 s l2 n :
  listed ps p (l1 ++ s :: l2) → NoDup (addresses (l1 ++ s :: l2)) → next_prod n = next_prod (s_node s) →
  ∀ ring raws xs clean,
  listed (<[s_addr s := n]> ps) p (l1 ++ mkSlot (s_addr s) n ring raws xs clean :: l2).
Proof.
  intros Hl Hnd Hn ring raws xs clean. revert p Hl Hnd.
  induction l1 as [|s1 l1 IH]; intros p; unfold addresses; csimpl.
  - intros (-> & Hne & Hs & Hl) [Hnot _]%NoDup_cons. rewrite lookup_insert_eq.
    split_and!; [done|done|done|]. rewrite Hn. eapply listed_ext; [exact Hl|].
    intros a Ha. rewrite lookup_insert_ne; [done|]. by intros <-.
  - intros (-> & Hne & Hs & Hl) [Hnot Hnd]%NoDup_cons. split_and!; [done|done| |by apply IH].
    rewrite lookup_insert_ne; [done|]. intros Heq. apply Hnot. rewrite fmap_app. csimpl. set_solver.
Qed.

(** The producer at an address of the list. *)
Lemma address_slot l p : p ∈ addresses l → ∃ l1 s l2, l = l1 ++ s :: l2 ∧ s_addr s = p.
Proof.
  intros (s & -> & Hs)%list_elem_of_fmap. apply list_elem_of_split in Hs as (l1 & l2 & ->).
  by exists l1, s, l2.
Qed.

Lemma slot_of_address l1 s l2 A1 A2 : addresses (l1 ++ s :: l2) = A1 ++ s_addr s :: A2 →
  NoDup (addresses (l1 ++ s :: l2)) → A1 = addresses l1 ∧ A2 = addresses l2.
Proof.
  assert (Hmid : addresses (l1 ++ s :: l2) = addresses l1 ++ s_addr s :: addresses l2)
    by (unfold addresses; by rewrite fmap_app).
  intros Heq Hnd. assert (Hlen : length A1 = length (addresses l1)).
  { eapply (NoDup_lookup _ _ _ (s_addr s) Hnd); [rewrite Heq|rewrite Hmid]; by apply list_lookup_middle. }
  rewrite Hmid in Heq. apply app_inj_1 in Heq as [-> Heq]; [|done]. by injection Heq as ->.
Qed.

Lemma listed_next ps p l A1 a A2 : listed ps p l → NoDup (addresses l) → addresses l = A1 ++ a :: A2 →
  ∃ s, s ∈ l ∧ s_addr s = a ∧ a ≠ 0%nat ∧ ps !! a = Some (s_node s) ∧ next_prod (s_node s) = hd 0%nat A2.
Proof.
  intros Hl Hnd Ha. destruct (address_slot l a) as (l1 & s & l2 & -> & Hs); [rewrite Ha; set_solver|].
  subst a. destruct (slot_of_address _ _ _ _ _ Ha Hnd) as [_ ->].
  exists s. destruct (listed_lookup _ _ _ s Hl) as [Hne Hlook]; [set_solver|].
  split_and!; [set_solver|done|done|done|]. clear Ha Hnd Hne Hlook. revert p Hl.
  induction l1 as [|s1 l1 IH]; intros p; csimpl.
  - intros (_ & _ & _ & Hl). destruct l2; [done|]. by destruct Hl.
  - intros (_ & _ & _ & Hl). by eapply IH.
Qed.

Lemma listed_head ps p l : listed ps p l → p = hd 0%nat (addresses l).
Proof. destruct l; [done|]. by intros (-> & _). Qed.

(** [this] is the queue [q], with the producers [l] and hash tables in the chunks [extra]. *)
Record heap_at (w : Store T) (this : nat) (q : ConcurrentQueue) l (extra : list nat) : Prop := {
  hp_queue : queues w !! this = Some q;
  hp_list : listed (producers w) (producerListTail q) l;
  hp_nodup : NoDup (addresses l);
  hp_holds s : s ∈ l → parent (s_node s) = this ∧
    subqueue_holds (s_clean s) (subqueue (s_node s)) (blocks (memory w)) (s_ring s) (s_raws s) (s_items s);
  hp_memory : memory_at (X := X) (memory w) (pool q) (rings l) (all_raws l extra) ∅ ∅;
  hp_rings : NoDup (rings l)
}.

Lemma rings_middle l1 s l2 : rings (l1 ++ s :: l2) ≡ₚ s_ring s ++ rings (l1 ++ l2).
Proof.
  unfold rings. rewrite !bind_app. csimpl. rewrite !(assoc_L (++)). apply Permutation_app; [|done].
  apply Permutation_app_comm.
Qed.

Lemma all_raws_middle l1 s l2 extra : all_raws (l1 ++ s :: l2) extra ≡ₚ
  s_raws s ++ ((l1 ++ l2) ≫= s_raws) ++ addresses (l1 ++ s :: l2) ++ extra.
Proof.
  unfold all_raws. rewrite (assoc_L (++) (s_raws s)). apply Permutation_app; [|done].
  rewrite !bind_app. csimpl. rewrite !(assoc_L (++)). apply Permutation_app; [|done].
  apply Permutation_app_comm.
Qed.

(** What is the same after a call of a producer. *)
Record same_but (w w' : Store T) : Prop := {
  sb_hashes : hashes w' = hashes w;
  sb_ptokens : producer_tokens w' = producer_tokens w;
  sb_ctokens : consumer_tokens w' = consumer_tokens w;
  sb_lost : lost (memory w') = lost (memory w)
}.

Section heap.
Context (w : Store T) (this : nat) (q : ConcurrentQueue) (l1 l2 : list slot) (s : slot) (extra : list nat).
Context (Hheap : heap_at w this q (l1 ++ s :: l2) extra).

Definition others_blocks : gset nat := list_to_set (rings (l1 ++ l2)).
Definition others_chunks : gset nat :=
  list_to_set (((l1 ++ l2) ≫= s_raws) ++ addresses (l1 ++ s :: l2) ++ extra).

Lemma heap_focus : producers w !! s_addr s = Some (s_node s) ∧ parent (s_node s) = this ∧
  subqueue_holds (s_clean s) (subqueue (s_node s)) (blocks (memory w)) (s_ring s) (s_raws s) (s_items s) ∧
  memory_at (X := X) (memory w) (pool q) (s_ring s) (s_raws s) others_blocks others_chunks.
Proof.
  destruct Hheap as [Hq Hl Hnd Hh Hm Hr]. destruct (listed_lookup _ _ _ s Hl) as [_ Hs]; [set_solver|].
  destruct (Hh s) as [Hp Hhs]; [set_solver|]. split_and!; [done..|].
  apply memory_at_split; [|by rewrite <- rings_middle].
  eapply memory_at_perm; [exact Hm|apply rings_middle|apply all_raws_middle].
Qed.

(** The producer has changed, the others have not. *)
Lemma heap_unfocus m' b' sub' ring' raws' xs' clean' :
  frame others_blocks (memory w) m' →
  subqueue_holds clean' sub' (blocks m') ring' raws' xs' →
  memory_at (X := X) m' b' ring' raws' others_blocks others_chunks →
  heap_at (mkStore m' (<[s_addr s := set_subqueue sub' (s_node s)]> (producers w)) (hashes w)
      (alter (set_pool_of b') this (queues w)) (producer_tokens w) (consumer_tokens w))
    this (set_pool_of b' q)
    (l1 ++ mkSlot (s_addr s) (set_subqueue sub' (s_node s)) ring' raws' xs' clean' :: l2) extra.
Proof.
  intros [Hfr _] Hh' Hm'. destruct Hheap as [Hq Hl Hnd Hh Hm Hr].
  assert (Haddr : addresses (l1 ++ mkSlot (s_addr s) (set_subqueue sub' (s_node s)) ring' raws' xs' clean' :: l2)
    = addresses (l1 ++ s :: l2)) by (unfold addresses; by rewrite !fmap_app).
  assert (HndW : NoDup (((l1 ++ l2) ≫= s_raws) ++ addresses (l1 ++ s :: l2) ++ extra)).
  { pose proof (ma_nodup _ _ _ _ _ _ Hm) as Hnw. rewrite all_raws_middle in Hnw.
    by apply NoDup_app in Hnw as (_ & _ & ?). }
  assert (HndR : NoDup (rings (l1 ++ l2))).
  { rewrite rings_middle in Hr. by apply NoDup_app in Hr as (_ & _ & ?). }
  destruct (memory_at_join _ _ _ _ _ _ Hm' (subqueue_nodup _ _ _ _ _ _ Hh') HndR HndW) as [Hj Hjr].
  constructor; simpl; rewrite ?Haddr.
  - by rewrite lookup_alter_eq, Hq.
  - by apply listed_update.
  - done.
  - intros s0 [Hin|[->|Hin]%elem_of_cons]%elem_of_app; simpl.
    1,3: destruct (Hh s0) as [Hp Hhs]; [set_solver|]; split; [done|];
      (eapply subqueue_local; [|exact Hhs]); intros p Hp0; apply Hfr; unfold others_blocks;
      rewrite elem_of_list_to_set; unfold rings; rewrite list_elem_of_bind; exists s0; set_solver.
    split; [|done]. apply (Hh s). set_solver.
  - eapply memory_at_perm; [exact Hj|by rewrite rings_middle|]. rewrite all_raws_middle. by rewrite Haddr.
  - by rewrite rings_middle.
Qed.
End heap.

(** What is the same of the queue and of the producer. *)
Record touched (w w' : Store T) (q q' : ConcurrentQueue) (s s' : slot) : Prop := {
  tc_same : same_but w w';
  tc_pool : ∃ b, q' = set_pool_of b q;
  tc_addr : s_addr s' = s_addr s;
  tc_node : ∃ sub, s_node s' = set_subqueue sub (s_node s);
  tc_explicit : isExplicit (s_node s') = isExplicit (s_node s)
}.

(** What is the same after every member to dequeue. *)
Record kept (w w' : Store T) : Prop := {
  kp_ptokens : producer_tokens w' = producer_tokens w;
  kp_ctokens : dom (consumer_tokens w') = dom (consumer_tokens w);
  kp_lost : lost (memory w') = lost (memory w)
}.

Lemma kept_trans (w1 w2 w3 : Store T) : kept w1 w2 → kept w2 w3 → kept w1 w3.
Proof. intros [] []. constructor; congruence. Qed.

(** ** A call of one producer *)
Section calls.
Context {P : Type} (cast : Subqueue → option P) (wrap : P → Subqueue).
Context (holdsP : bool → P → gmap nat (Block T) → list nat → list nat → list T → Prop).
Context (Hcast : ∀ e, cast (wrap e) = Some e).
Context (Hholds : ∀ clean e h ring raws xs, subqueue_holds clean (wrap e) h ring raws xs = holdsP clean e h ring raws xs).
Context (Hkind : ∀ e e' n, isExplicit (set_subqueue (wrap e) n) = isExplicit (set_subqueue (wrap e') n)).

Lemma producer_call_runs {R A} (c : M X (P * (Memory T * BlockPool) * R) A) w this q l1 s l2 extra e r
    (Φ : A → R → bool → list T → Prop) (Ψ : X → R → bool → list T → Prop) :
  heap_at w this q (l1 ++ s :: l2) extra → subqueue (s_node s) = wrap e →
  (∀ owned hdrs, owning (X := X) holdsP (s_clean s) e (memory w) (pool q) owned hdrs (s_items s) →
    runs c ((e, (memory w, pool q)), r)
      (λ a '((e', (m', b')), r'), frame owned (memory w) m' ∧
         ∃ clean' xs', owning (X := X) holdsP clean' e' m' b' owned hdrs xs' ∧ Φ a r' clean' xs')
      (λ x '((e', (m', b')), r'), frame owned (memory w) m' ∧
         ∃ clean' xs', owning (X := X) holdsP clean' e' m' b' owned hdrs xs' ∧ Ψ x r' clean' xs') no_fault) →
  runs (zoom (λ '(w, r), s ← focus cast (s_addr s) w; Ok (s, r))
          (λ '(s', r) '(w, _), (unfocus wrap (s_addr s) s' w, r)) c) (w, r)
    (λ a '(w', r'), ∃ q' s', heap_at w' this q' (l1 ++ s' :: l2) extra ∧ touched w w' q q' s s' ∧
       Φ a r' (s_clean s') (s_items s'))
    (λ x '(w', r'), ∃ q' s', heap_at w' this q' (l1 ++ s' :: l2) extra ∧ touched w w' q q' s s' ∧
       Ψ x r' (s_clean s') (s_items s')) no_fault.
Proof.
  intros Hheap He Hrun. destruct (heap_focus _ _ _ _ _ _ _ Hheap) as (Hs & Hp & Hh & Hm).
  rewrite He, Hholds in Hh. specialize (Hrun _ _ ltac:(by eexists _, _)).
  assert (Hback : ∀ m' b' e' clean' xs',
    frame (others_blocks l1 l2) (memory w) m' →
    owning (X := X) holdsP clean' e' m' b' (others_blocks l1 l2) (others_chunks l1 l2 s extra) xs' →
    ∃ q' s', heap_at (unfocus wrap (s_addr s) (e', (m', b')) w) this q' (l1 ++ s' :: l2) extra ∧
      touched w (unfocus wrap (s_addr s) (e', (m', b')) w) q q' s s' ∧ s_clean s' = clean' ∧ s_items s' = xs').
  { intros m' b' e' clean' xs' Hfr (ring & raws & Hh' & Hm'). rewrite <- Hholds in Hh'.
    exists (set_pool_of b' q), (mkSlot (s_addr s) (set_subqueue (wrap e') (s_node s)) ring raws xs' clean').
    unfold unfocus. rewrite Hs, Hp. split_and!; [by eapply heap_unfocus| |done|done].
    constructor; simpl; [|by eexists|done|by eexists|].
    - destruct Hfr as [_ Hl]. by constructor.
    - rewrite (Hkind e' e). unfold isExplicit. simpl. by rewrite He. }
  eapply runs_zoom; [by unfold focus; rewrite Hs; simpl; rewrite He, Hcast; simpl; rewrite Hp, (hp_queue _ _ _ _ _ Hheap)|].
  eapply runs_mono; [exact Hrun|..]; [..|done]; intros a [[e' [m' b']] r'] (Hfr & clean' & xs' & Hown & HΦ);
    destruct (Hback _ _ _ _ _ Hfr Hown) as (q' & s' & Hheap' & Ht & <- & <-); by exists q', s'.
Qed.
End calls.

(** ** Tokens and threads

    What the rest of the queue knows of a producer. *)
Record tag := mkTag {
  t_addr : nat;
  t_explicit : bool;
  t_inactive : bool;
  t_token : nat
}.

Definition tag_of s : tag :=
  mkTag (s_addr s) (isExplicit (s_node s)) (inactive (s_node s)) (token (s_node s)).

(** The tables of a queue: those in the chunks [extra], and the one that is part of it. *)
Definition table_refs (this : nat) (extra : list nat) : list hash_ref :=
  if INITIAL_IMPLICIT_PRODUCER_HASH_SIZE =? 0 then []
  else (new_hash <$> extra) ++ [initialImplicitProducerHash this].

Record desk_at (w : Store T) (this : nat) (q : ConcurrentQueue) (tags : list tag) (extra : list nat)
    (ts : list (hash_ref * gmap Z nat)) (threads : gmap Z nat) : Prop := {
  dk_count : producerCount q = u32 (Z.of_nat (length tags));
  dk_resizing : implicitProducerHashResizeInProgress q = false;
  dk_threads : threads_ok (hashes w) (implicitProducerHash q) ts threads;
  dk_hashCount : implicitProducerHashCount q = Z.of_nat (size threads);
  dk_refs : ts.*1 = table_refs this extra;
  dk_extra : INITIAL_IMPLICIT_PRODUCER_HASH_SIZE = 0 → extra = [];
  dk_thread id v : threads !! id = Some v → mkTag v false false 0 ∈ tags;
  dk_writer t : t ∈ tags → t_explicit t = false → ∃ id, threads !! id = Some (t_addr t);
  dk_own id id' v : threads !! id = Some v → threads !! id' = Some v → id = id';
  dk_implicit t : t ∈ tags → t_explicit t = false → t_inactive t = false ∧ t_token t = 0%nat;
  dk_explicit t : t ∈ tags → t_explicit t = true → t_inactive t = bool_decide (t_token t = 0%nat);
  dk_token t : t ∈ tags → t_token t ≠ 0%nat → producer_tokens w !! t_token t = Some (t_addr t);
  dk_held k p : producer_tokens w !! k = Some p → p ≠ 0%nat →
    k ≠ 0%nat ∧ mkTag p true false k ∈ tags;
  dk_consumer k c : consumer_tokens w !! k = Some c → desiredProducer c ≠ 0%nat →
    (desiredProducer c ∈ t_addr <$> tags) ∧ (currentProducer c ∈ t_addr <$> tags)
}.

(** The queue, all of it. *)
Definition queue_at (w : Store T) (this : nat) (q : ConcurrentQueue) l extra ts threads : Prop :=
  heap_at w this q l extra ∧ desk_at w this q (tag_of <$> l) extra ts threads.

Lemma queue_at_ctoken (w : Store T) this q l extra ts threads t c : queue_at w this q l extra ts threads →
  (desiredProducer c ≠ 0%nat → desiredProducer c ∈ addresses l ∧ currentProducer c ∈ addresses l) →
  queue_at (set_consumer_tokens (<[t := c]> (consumer_tokens w)) w) this q l extra ts threads.
Proof.
  intros [[] []] Hc. split; [by constructor|]. constructor; simpl; try done.
  intros k c' [[<- <-]|[_ Hk]]%lookup_insert_Some Hd; [|by eauto]. rewrite <- list_fmap_compose. by apply Hc.
Qed.

Lemma queue_at_offset (w : Store T) this q l extra ts threads id offset : queue_at w this q l extra ts threads →
  queue_at (set_queues (<[this := set_consumers_of id offset q]> (queues w)) w) this
    (set_consumers_of id offset q) l extra ts threads.
Proof.
  intros [[] []]. split; [|by constructor]. constructor; simpl; try done. apply lookup_insert_eq.
Qed.

Lemma desk_touched w w' this q q' l1 l2 s s' extra ts threads :
  desk_at w this q (tag_of <$> l1 ++ s :: l2) extra ts threads → touched w w' q q' s s' →
  desk_at w' this q' (tag_of <$> l1 ++ s' :: l2) extra ts threads.
Proof.
  intros [] [[Hh Hp Hc _] [b ->] Ha [sub Hn] He].
  assert (Htags : tag_of <$> l1 ++ s' :: l2 = tag_of <$> l1 ++ s :: l2).
  { rewrite !fmap_app. csimpl. unfold tag_of at 2 5. by rewrite Ha, He, Hn. }
  constructor; rewrite ?Htags, ?Hh, ?Hp, ?Hc; done.
Qed.
End producers.
Arguments slot : clear implicits.
