(* ===== verification/CqQueueOps.v ===== *)
(** * ConcurrentQueue: what the members of the queue do

    Dequeuing takes the first element of a producer and fails only if all are empty; the
    list of producers, the tokens and the hash tables keep the invariant of CqQueueInv. *)
From stdpp Require Import gmap.
From S2P Require Import Prelude Lifetime FreeList CqBlock CqPool CqFacts CqPoolFacts CqExplicit CqImplicit.
From S2P Require Import CqRing CqExplicitInv CqExplicitOps CqLifecycle CqProducer CqExplicitTheorems.
From S2P Require Import CqImplicitOps CqImplicitTheorems CqQueue CqHash CqQueueInv.

#[local] Open Scope Z_scope.

(** ** Elements go in and out *)
Section elements.
Context {TR : Traits} {OK : TraitsOk} {X T U : Type} `{!CppType X T, !CppLaws X T}.
Context (assign_result : U → T → U * T * completion X unit) (nothrow_assign : bool).
Context (assign_ok : ∀ u x u' x' ex, nothrow_assign = true → assign_result u x ≠ (u', x', Throws ex)).
#[local] Instance explicit_instance : ProducerLaws assign_result (explicit_ops assign_result nothrow_assign) :=
  explicit_laws assign_result nothrow_assign assign_ok.
#[local] Instance implicit_instance : ProducerLaws assign_result (implicit_ops assign_result nothrow_assign) :=
  implicit_laws assign_result nothrow_assign assign_ok.
#[local] Abbreviation fifo_step := (fifo_step assign_result).
#[local] Abbreviation producer_dequeue := (producer_dequeue assign_result nothrow_assign).
#[local] Abbreviation W := (Store T).
#[local] Abbreviation slot := (slot T).
Implicit Types (w : W) (q : ConcurrentQueue) (s : slot) (l : list slot) (xs : list T) (u : U).
Implicit Types (this p tail : nat) (extra : list nat) (ts : list (hash_ref * gmap Z nat)) (threads : gmap Z nat).

(** What a client can tell of a producer, and whether its destructor works. *)
Definition brief s : tag * list T * bool := (tag_of s, s_items s, s_clean s).

(** A producer of the list has replied [r] to [o]. *)
Inductive brief_step (o : call T U) (r : reply X T U) : relation (list (tag * list T * bool)) :=
  | brief_step_intro b1 t xs c b2 xs' :
      fifo_step xs o r xs' → brief_step o r (b1 ++ (t, xs, c) :: b2) (b1 ++ (t, xs', c) :: b2).

(** Only producers and the pool have changed. *)
Record after w w' q q' : Prop := {
  af_same : same_but w w';
  af_pool : ∃ b, q' = set_pool_of b q
}.

Lemma same_but_refl w : same_but w w.
Proof. done. Qed.

Lemma after_refl w q : after w w q q.
Proof. split; [done|]. exists (pool q). by destruct q. Qed.

Lemma after_trans w1 w2 w3 q1 q2 q3 : after w1 w2 q1 q2 → after w2 w3 q2 q3 → after w1 w3 q1 q3.
Proof.
  intros [[] [b ->]] [[] [b' ->]]. split; [constructor; congruence|]. by exists b'.
Qed.

Lemma touched_after w w' q q' s s' : touched w w' q q' s s' → after w w' q q'.
Proof. by intros []. Qed.

Lemma touched_tag w w' q q' s s' : touched w w' q q' s s' → tag_of s' = tag_of s.
Proof. intros [_ _ Ha [sub Hn] He]. unfold tag_of. by rewrite Ha, He, Hn. Qed.

Lemma fifo_dequeue_inv xs u u' r xs' : fifo_step xs (Dequeue u) (Dequeued u' (Returns r)) xs' →
  r = false ∧ u' = u ∧ xs = [] ∧ xs' = [] ∨
  r = true ∧ ∃ x x', xs = x :: xs' ∧ assign_result u x = (u', x', Returns tt).
Proof. inversion 1; subst; [by left|right]. split; [done|]. by eexists _, _. Qed.

Lemma brief_eq s s' : brief s = brief s' →
  tag_of s = tag_of s' ∧ s_items s = s_items s' ∧ s_clean s = s_clean s'.
Proof.
  intros Hb. split_and!; [exact (f_equal (λ b, b.1.1) Hb)|exact (f_equal (λ b, b.1.2) Hb)|exact (f_equal snd Hb)].
Qed.

Lemma brief_addresses l l' : brief <$> l' = brief <$> l → addresses l' = addresses l.
Proof.
  intros Hb. assert (Ha : ∀ k, addresses k = (λ b, t_addr b.1.1) <$> (brief <$> k))
    by (intros k; unfold addresses; by rewrite <- list_fmap_compose).
  by rewrite !Ha, Hb.
Qed.

Lemma brief_length l l' : brief <$> l' = brief <$> l → length l' = length l.
Proof. intros Hb. by rewrite <- (length_fmap brief), Hb, length_fmap. Qed.

Section one.
Context w this q l1 s l2 extra ts threads (Hat : queue_at (X := X) w this q (l1 ++ s :: l2) extra ts threads).

(** A call of the producer, in terms of the list of its elements. *)
Definition stepped (o : call T U) (r : reply X T U) (safe : Prop) w' : Prop :=
  ∃ q' s', queue_at (X := X) w' this q' (l1 ++ s' :: l2) extra ts threads ∧ after w w' q q' ∧
    tag_of s' = tag_of s ∧ fifo_step (s_items s) o r (s_items s') ∧ (safe → s_clean s' = s_clean s).

Section kind.
Context {P : Type} (cast : Subqueue → option P) (wrap : P → Subqueue).
Context (ops : ProducerOps X T U P) {LAWS : ProducerLaws assign_result ops}.
Context (Hcast : ∀ e, cast (wrap e) = Some e).
Context (Hholds : ∀ clean e h ring raws xs,
  subqueue_holds (X := X) clean (wrap e) h ring raws xs = holds clean e h ring raws xs).
Context (Hkind : ∀ e e' n, isExplicit (set_subqueue (wrap e) n) = isExplicit (set_subqueue (wrap e') n)).
Context (e : P) (He : subqueue (s_node s) = wrap e).
#[local] Abbreviation call_with c :=
  (zoom (λ '(w, r), s ← focus cast (s_addr s) w; Ok (s, r))
     (λ '(s', r) '(w, _), (unfocus wrap (s_addr s) s' w, r)) c).

Lemma put_runs canAlloc c x :
  runs (call_with (do_enqueue ops canAlloc c)) (w, x)
    (λ r '(w', x'), stepped (Enqueue canAlloc c x) (Enqueued x' (Returns r)) True w')
    (λ ex '(w', x'), stepped (Enqueue canAlloc c x) (Enqueued x' (Throws ex)) (survives = true) w') no_fault.
Proof.
  destruct Hat as [Hheap Hdesk].
  eapply runs_mono; [eapply (producer_call_runs cast wrap holds Hcast Hholds Hkind) with
    (Φ := λ r x' clean' xs', fifo_step (s_items s) (Enqueue canAlloc c x) (Enqueued x' (Returns r)) xs' ∧
       clean' = s_clean s)
    (Ψ := λ ex x' clean' xs', fifo_step (s_items s) (Enqueue canAlloc c x) (Enqueued x' (Throws ex)) xs' ∧
       (survives = true → clean' = s_clean s)); [exact Hheap|exact He|]|..]; [..|done].
  - intros owned hdrs Hown. eapply runs_mono; [exact (law_enqueue canAlloc c _ _ _ _ x _ _ _ Hown)|..]; [..|done].
    + intros r [[e' [m' b']] x'] (Hfr & Hr). split; [done|]. destruct r.
      * destruct Hr as [Hown' Hf]. eexists _, _. split_and!; [exact Hown'|by constructor|done].
      * destruct Hr as (Hown' & -> & Hr). eexists _, _. split_and!; [exact Hown'|by constructor|done].
    + intros ex [[e' [m' b']] x'] (Hfr & Hf & clean' & Hown' & Hc). split; [done|].
      eexists _, _. split_and!; [exact Hown'|by constructor|done].
  - intros r [w' x'] (q' & s' & Hheap' & Ht & Hstep & Hc). exists q', s'.
    split_and!; [split; [done|by eapply desk_touched]|by eapply touched_after|by eapply touched_tag|done|done].
  - intros ex [w' x'] (q' & s' & Hheap' & Ht & Hstep & Hc). exists q', s'.
    split_and!; [split; [done|by eapply desk_touched]|by eapply touched_after|by eapply touched_tag|done|done].
Qed.

Lemma take_runs u :
  runs (call_with (do_dequeue ops)) (w, u)
    (λ r '(w', u'), stepped (Dequeue u) (Dequeued u' (Returns r)) True w')
    (λ ex '(w', u'), stepped (Dequeue u) (Dequeued u' (Throws ex)) True w') no_fault.
Proof.
  destruct Hat as [Hheap Hdesk].
  eapply runs_mono; [eapply (producer_call_runs cast wrap holds Hcast Hholds Hkind) with
    (Φ := λ r u' clean' xs', fifo_step (s_items s) (Dequeue u) (Dequeued u' (Returns r)) xs' ∧ clean' = s_clean s)
    (Ψ := λ ex u' clean' xs', fifo_step (s_items s) (Dequeue u) (Dequeued u' (Throws ex)) xs' ∧ clean' = s_clean s);
    [exact Hheap|exact He|]|..]; [..|done].
  - intros owned hdrs Hown. eapply runs_mono; [exact (law_dequeue _ _ _ _ u _ _ _ Hown)|..]; [..|done].
    + intros r [[e' [m' b']] u'] (Hfr & Hr). split; [done|]. destruct (s_items s) as [|x xs].
      * destruct Hr as (-> & -> & Hown'). eexists _, _. split_and!; [exact Hown'|by constructor|done].
      * destruct Hr as (-> & (x' & Ha) & Hown'). eexists _, _. split_and!; [exact Hown'|by econstructor|done].
    + intros ex [[e' [m' b']] u'] (Hfr & x & xs' & x' & -> & Ha & Hown'). split; [done|].
      eexists _, _. split_and!; [exact Hown'|by econstructor|done].
  - intros r [w' x'] (q' & s' & Hheap' & Ht & Hstep & Hc). exists q', s'.
    split_and!; [split; [done|by eapply desk_touched]|by eapply touched_after|by eapply touched_tag|done|done].
  - intros ex [w' x'] (q' & s' & Hheap' & Ht & Hstep & Hc). exists q', s'.
    split_and!; [split; [done|by eapply desk_touched]|by eapply touched_after|by eapply touched_tag|done|done].
Qed.

Lemma size_known : producer_size_approx (base_of ops e) = zlen (s_items s).
Proof.
  destruct Hat as [Hheap _]. destruct (heap_focus _ _ _ _ _ _ _ Hheap) as (_ & _ & Hh & Hm).
  rewrite He, Hholds in Hh. eapply law_size. by eexists _, _.
Qed.
End kind.

Lemma explicit_put_runs canAlloc c x : isExplicit (s_node s) = true →
  runs (explicit_with (X := X) (s_addr s) (explicit_enqueue canAlloc c)) (w, x)
    (λ r '(w', x'), stepped (Enqueue canAlloc c x) (Enqueued x' (Returns r)) True w')
    (λ ex '(w', x'), stepped (Enqueue canAlloc c x) (Enqueued x' (Throws ex)) False w') no_fault.
Proof.
  unfold isExplicit. destruct (subqueue (s_node s)) as [e|] eqn:He; [intros _|done].
  eapply runs_mono; [by apply (put_runs as_explicit Explicit (explicit_ops assign_result nothrow_assign))
    with (e := e)|done| |done].
  intros ex [w' x'] (q' & s' & ? & ? & ? & ? & _). by exists q', s'.
Qed.

Lemma implicit_put_runs canAlloc c x : isExplicit (s_node s) = false →
  runs (implicit_with (X := X) (s_addr s) (implicit_enqueue canAlloc c)) (w, x)
    (λ r '(w', x'), stepped (Enqueue canAlloc c x) (Enqueued x' (Returns r)) True w')
    (λ ex '(w', x'), stepped (Enqueue canAlloc c x) (Enqueued x' (Throws ex)) True w') no_fault.
Proof.
  unfold isExplicit. destruct (subqueue (s_node s)) as [|e] eqn:He; [done|intros _].
  eapply runs_mono; [by apply (put_runs as_implicit Implicit (implicit_ops assign_result nothrow_assign))
    with (e := e)|done| |done].
  intros ex [w' x'] (q' & s' & ? & ? & ? & ? & Hc). exists q', s'. split_and!; [done..|]. intros _. by apply Hc.
Qed.

Lemma slot_lookup_producer : producers w !! s_addr s = Some (s_node s).
Proof. destruct Hat as [Hheap _]. by apply (heap_focus _ _ _ _ _ _ _ Hheap). Qed.

Lemma dequeue_one_runs u :
  runs (producer_dequeue (s_addr s)) (w, u)
    (λ r '(w', u'), stepped (Dequeue u) (Dequeued u' (Returns r)) True w')
    (λ ex '(w', u'), stepped (Dequeue u) (Dequeued u' (Throws ex)) True w') no_fault.
Proof.
  apply runs_bind, runs_on_fst. eapply runs_load_producer; [exact slot_lookup_producer|].
  unfold isExplicit. destruct (subqueue (s_node s)) as [e|e] eqn:He.
  - by apply (take_runs as_explicit Explicit (explicit_ops assign_result nothrow_assign)) with (e := e).
  - by apply (take_runs as_implicit Implicit (implicit_ops assign_result nothrow_assign)) with (e := e).
Qed.

Lemma explicit_take_runs u : isExplicit (s_node s) = true →
  runs (explicit_with (X := X) (s_addr s) (explicit_dequeue assign_result nothrow_assign)) (w, u)
    (λ r '(w', u'), stepped (Dequeue u) (Dequeued u' (Returns r)) True w')
    (λ ex '(w', u'), stepped (Dequeue u) (Dequeued u' (Throws ex)) True w') no_fault.
Proof.
  unfold isExplicit. destruct (subqueue (s_node s)) as [e|] eqn:He; [intros _|done].
  by apply (take_runs as_explicit Explicit (explicit_ops assign_result nothrow_assign)) with (e := e).
Qed.

Lemma size_one : producer_size_approx (base_of_producer (s_node s)) = zlen (s_items s).
Proof.
  unfold base_of_producer. destruct (subqueue (s_node s)) as [e|e] eqn:He.
  - by apply (size_known Explicit (explicit_ops assign_result nothrow_assign)).
  - by apply (size_known Implicit (implicit_ops assign_result nothrow_assign)).
Qed.
End one.

(** ** All producers

    As long as nothing has been found, the elements are those of [l0]. *)
Section whole.
Context this extra ts threads w0 q0 l0 (Hat0 : queue_at (X := X) w0 this q0 l0 extra ts threads).

Definition same_as w : Prop :=
  ∃ q l, queue_at (X := X) w this q l extra ts threads ∧ after w0 w q0 q ∧ brief <$> l = brief <$> l0.

Definition empty_at (a : nat) : Prop := ∀ s, s ∈ l0 → s_addr s = a → s_items s = [].

(** One of the producers has replied to [Dequeue u]. *)
Definition got u (r : completion X bool) u' w : Prop :=
  ∃ q l, queue_at (X := X) w this q l extra ts threads ∧ after w0 w q0 q ∧
    brief_step (Dequeue u) (Dequeued u' r) (brief <$> l0) (brief <$> l).

Definition answered u (r : bool) (s : W * U) : Prop :=
  if r then got u (Returns true) s.2 s.1
  else s.2 = u ∧ same_as s.1 ∧ ∀ s, s ∈ l0 → s_items s = [].

Definition interrupted u (ex : X) (s : W * U) : Prop := got u (Throws ex) s.2 s.1.

Lemma same_as_start : same_as w0.
Proof. exists q0, l0. split_and!; [done|apply after_refl|done]. Qed.

Lemma same_as_addresses w : same_as w → ∃ q l, queue_at (X := X) w this q l extra ts threads ∧
  addresses l = addresses l0 ∧ after w0 w q0 q.
Proof. intros (q & l & Hat & Haf & Hb). exists q, l. split_and!; [done|by apply brief_addresses|done]. Qed.

Lemma same_as_tail w : same_as w → ∃ q l, queue_at (X := X) w this q l extra ts threads ∧
  queues w !! this = Some q ∧ producerListTail q = hd 0%nat (addresses l0) ∧
  (length (addresses l0) ≤ size (producers w))%nat.
Proof.
  intros (q & l & Hat & Ha & _)%same_as_addresses. exists q, l. destruct Hat as [Hheap ?].
  split_and!; [done|by destruct Hheap|rewrite <- Ha; eapply listed_head; by destruct Hheap|].
  rewrite <- Ha. unfold addresses. rewrite length_fmap.
  eapply listed_size; by destruct Hheap.
Qed.

(** The producer at an address, and the one that follows. *)
Lemma same_as_next w A1 a A2 : same_as w → addresses l0 = A1 ++ a :: A2 →
  ∃ n, a ≠ 0%nat ∧ producers w !! a = Some n ∧ next_prod n = hd 0%nat A2.
Proof.
  intros (q & l & [Hheap _] & Ha & _)%same_as_addresses Heq. rewrite <- Ha in Heq.
  destruct (listed_next _ _ _ _ _ _ (hp_list _ _ _ _ _ Hheap) (hp_nodup _ _ _ _ _ Hheap) Heq)
    as (s & _ & _ & Hne & Hs & Hn). by exists (s_node s).
Qed.

(** A slot of the list, in the list as it was. *)
Lemma same_slot l l1 s l2 : brief <$> l = brief <$> l0 → l = l1 ++ s :: l2 →
  ∃ k1 s0 k2, l0 = k1 ++ s0 :: k2 ∧ brief s0 = brief s ∧ brief <$> k1 = brief <$> l1 ∧
    brief <$> k2 = brief <$> l2.
Proof.
  intros Hb ->. rewrite fmap_app in Hb. csimpl in Hb. symmetry in Hb.
  apply fmap_app_inv in Hb as (k1 & k & H1 & Hk & ->). symmetry in Hk.
  apply fmap_cons_inv in Hk as (s0 & k2 & -> & H2 & ->). by exists k1, s0, k2.
Qed.

Lemma unique_slot s s' : s ∈ l0 → s' ∈ l0 → s_addr s = s_addr s' → s = s'.
Proof.
  destruct Hat0 as [Hheap _]. pose proof (hp_nodup _ _ _ _ _ Hheap) as Hnd.
  intros [i Hi]%list_elem_of_lookup [j Hj]%list_elem_of_lookup Heq.
  assert (i = j) as ->; [|congruence].
  eapply (NoDup_lookup _ _ _ (s_addr s) Hnd); unfold addresses; rewrite list_lookup_fmap; [by rewrite Hi|].
  by rewrite Hj, Heq.
Qed.

(** One producer is asked. *)
Lemma visit_runs a u w : same_as w → a ∈ addresses l0 →
  runs (producer_dequeue a) (w, u)
    (λ r '(w', u'), if r then got u (Returns true) u' w' else u' = u ∧ same_as w' ∧ empty_at a)
    (interrupted u) no_fault.
Proof.
  intros (q & l & Hat & Haf & Hb) Ha. rewrite <- (brief_addresses _ _ Hb) in Ha.
  destruct (address_slot l a Ha) as (l1 & s & l2 & Hl & <-).
  destruct (same_slot _ _ _ _ Hb Hl) as (k1 & s0 & k2 & Hl0 & Hs & H1 & H2).
  destruct (brief_eq _ _ Hs) as (Ht & Hi & Hc). subst l.
  assert (Hgot : ∀ w' q' s' r u', queue_at (X := X) w' this q' (l1 ++ s' :: l2) extra ts threads →
    after w w' q q' → tag_of s' = tag_of s → s_clean s' = s_clean s →
    fifo_step (s_items s) (Dequeue u) (Dequeued u' r) (s_items s') → got u r u' w').
  { intros w' q' s' r u' Hat' Haf' Ht' Hc' Hstep. exists q', (l1 ++ s' :: l2).
    split_and!; [done|by eapply after_trans|]. rewrite <- Hb, !fmap_app. csimpl.
    unfold brief at 2 5. rewrite Ht', Hc'. by constructor. }
  eapply runs_mono; [by eapply dequeue_one_runs|..]; [..|done].
  - intros r [w' u'] (q' & s' & Hat' & Haf' & Ht' & Hstep & Hc'). specialize (Hc' I).
    pose proof Hstep as [(-> & -> & Hnil & Hnil')|[-> _]]%fifo_dequeue_inv; [|by eapply Hgot].
    + split_and!; [done| |].
      * exists q', (l1 ++ s' :: l2). split_and!; [done|by eapply after_trans|]. rewrite <- Hb, !fmap_app. csimpl.
        do 2 f_equal. unfold brief. congruence.
      * intros s1 Hin Heq. assert (s1 = s0) as ->; [|congruence].
        apply unique_slot; [done|rewrite Hl0; set_solver|]. rewrite Heq. by injection Ht.
  - intros ex [w' u'] (q' & s' & Hat' & Haf' & Ht' & Hstep & Hc'). eapply Hgot; [done..|by apply Hc'|done].
Qed.

Lemma try_others_runs u best fuel A2 : ∀ A1 w ptr, addresses l0 = A1 ++ A2 → ptr = hd 0%nat A2 →
  (length A2 ≤ fuel)%nat → same_as w → (∀ a, a ∈ A1 → empty_at a) → empty_at best →
  runs (try_others assign_result nothrow_assign fuel best ptr) (w, u) (answered u) (interrupted u) no_fault.
Proof.
  revert fuel. induction A2 as [|a A2 IH]; intros fuel A1 w ptr Ha -> Hfuel Hw Hempty Hbest.
  - destruct fuel; apply runs_ret; (split_and!; [done|done|]); intros s Hs;
      (apply (Hempty (s_addr s)); [|done|done]); rewrite app_nil_r in Ha; rewrite <- Ha; apply list_elem_of_fmap; by exists s.
  - destruct fuel as [|fuel]; [simpl in Hfuel; lia|]. cbn [try_others hd].
    destruct (same_as_next w A1 a A2 Hw Ha) as (_ & Hne & _). rewrite bool_decide_eq_false_2 by done.
    apply runs_bind.
    assert (Hrest : ∀ w', same_as w' → empty_at a →
      runs (n ← on_fst (load_producer a); try_others assign_result nothrow_assign fuel best (next_prod n)) (w', u)
        (answered u) (interrupted u) no_fault).
    { intros w' Hw' Hae. destruct (same_as_next w' A1 a A2 Hw' Ha) as (n & _ & Hn & Hnext).
      apply runs_bind, runs_on_fst. eapply runs_load_producer; [exact Hn|].
      apply (IH fuel (A1 ++ [a])); [by rewrite <- app_assoc|done|simpl in Hfuel; lia|done| |done].
      intros a' [Hin| ->%list_elem_of_singleton]%elem_of_app; [by apply Hempty|done]. }
    destruct (decide (a = best)) as [->|Hnb].
    + rewrite bool_decide_eq_true_2 by done. apply runs_ret. by apply Hrest.
    + rewrite bool_decide_eq_false_2 by done.
      eapply runs_mono; [apply visit_runs; [done|rewrite Ha; set_solver]|..]; [|done..].
      intros [] [w' u']; [intros Hgot; by apply runs_ret|]. intros (-> & Hw' & Hae). by apply Hrest.
Qed.

Lemma no_null_address : empty_at 0.
Proof.
  intros s Hs Hz. destruct Hat0 as [Hheap _].
  by destruct (listed_lookup _ _ _ s (hp_list _ _ _ _ _ Hheap) Hs) as [? _].
Qed.

Lemma try_dequeue_non_interleaved_runs u :
  runs (try_dequeue_non_interleaved assign_result nothrow_assign this) (w0, u) (answered u) (interrupted u) no_fault.
Proof.
  destruct (same_as_tail w0 same_as_start) as (q & l & _ & Hq & Ht & Hsize).
  unfold try_dequeue_non_interleaved.
  apply runs_bind, runs_on_fst. eapply runs_queue_of; [exact Hq|]. apply runs_bind, runs_on_fst, runs_gets.
  apply (try_others_runs _ _ _ (addresses l0) []); [done|done|done|apply same_as_start|by intros ? ?%elem_of_nil|].
  apply no_null_address.
Qed.
(** *** The producer that seems to have most elements *)
Definition scored (n : Z) (best : nat) : Prop :=
  0 ≤ n ∧ if 0 <? n then ∃ s, s ∈ l0 ∧ s_addr s = best ∧ s_items s ≠ [] else ∀ s, s ∈ l0 → s_items s = [].

Lemma size_of_address l1 s l2 : l0 = l1 ++ s :: l2 →
  producers w0 !! s_addr s = Some (s_node s) ∧
  producer_size_approx (base_of_producer (s_node s)) = zlen (s_items s) ∧
  next_prod (s_node s) = hd 0%nat (addresses l2) ∧ s_addr s ≠ 0%nat.
Proof.
  intros Hl. rewrite Hl in Hat0. pose proof Hat0 as [Hheap _].
  destruct (listed_next _ _ _ (addresses l1) (s_addr s) (addresses l2) (hp_list _ _ _ _ _ Hheap)
    (hp_nodup _ _ _ _ _ Hheap)) as (s' & _ & _ & Hne & Hs' & Hn); [unfold addresses; by rewrite fmap_app|].
  pose proof (slot_lookup_producer _ _ _ _ _ _ _ _ _ Hat0) as Hs. assert (s_node s' = s_node s) as Heq by congruence.
  rewrite Heq in Hn. split_and!; [done|by eapply size_one|done|done].
Qed.

Lemma score_runs k2 : ∀ k1 fuel n best bestSize, l0 = k1 ++ k2 → (length k2 ≤ fuel)%nat → 0 ≤ n →
  (if 0 <? n then ∃ s, s ∈ l0 ∧ s_addr s = best ∧ s_items s ≠ []
   else bestSize = 0 ∧ ∀ s, s ∈ k1 → s_items s = []) →
  runs (score fuel (hd 0%nat (addresses k2)) n best bestSize) w0
    (λ '(n', best') w', w' = w0 ∧ scored n' best') (never (A := X)) no_fault.
Proof.
  induction k2 as [|s k2 IH]; intros k1 fuel n best bestSize Hl Hfuel Hn Hbest.
  { assert (Hdone : scored n best).
    { split; [done|]. destruct (0 <? n); [done|]. rewrite Hl, app_nil_r. by apply Hbest. }
    destruct fuel; cbn [score hd addresses fmap list_fmap]; rewrite andb_false_r; by apply runs_ret. }
  destruct (size_of_address _ _ _ Hl) as (Hs & Hsize & Hnext & Hne). destruct fuel as [|fuel]; [simpl in Hfuel; lia|].
  change (hd 0%nat (addresses (s :: k2))) with (s_addr s). cbn [score]. rewrite bool_decide_eq_false_2, andb_true_r by done.
  destruct (Z.ltb_spec n 3) as [Hlt|Hge].
  - apply runs_bind. eapply runs_load_producer; [exact Hs|]. rewrite Hsize, Hnext.
    assert (Hl' : l0 = (k1 ++ [s]) ++ k2) by by rewrite <- app_assoc.
    assert (Hzero : s_items s = [] ↔ zlen (s_items s) = 0) by (destruct (s_items s); unfold zlen; simpl; split; intros ?; (done || lia)).
    destruct (Z.ltb_spec 0 (zlen (s_items s))) as [Hpos|Hz].
    + assert (s_items s ≠ []) by (rewrite Hzero; lia).
      destruct (bestSize <? zlen (s_items s)) eqn:Eb; (apply (IH (k1 ++ [s])); [done|simpl in Hfuel; lia|lia|]);
        rewrite (proj2 (Z.ltb_lt 0 (n + 1))) by lia.
      * exists s. rewrite Hl. split_and!; [set_solver|done|done].
      * destruct (Z.ltb_spec 0 n); [done|]. destruct Hbest as [-> _]. apply Z.ltb_ge in Eb. lia.
    + apply (IH (k1 ++ [s])); [done|simpl in Hfuel; lia|done|]. destruct (0 <? n); [done|].
      destruct Hbest as [-> Hk1]. split; [done|]. intros s1 [Hin| ->%list_elem_of_singleton]%elem_of_app; [by apply Hk1|].
      apply Hzero. pose proof (zlen_nonneg (s_items s)). lia.
  - apply runs_ret. split; [done|]. split; [done|]. rewrite (proj2 (Z.ltb_lt 0 n)) in * by lia. done.
Qed.

Lemma queue_try_dequeue_runs u :
  runs (try_dequeue assign_result nothrow_assign this) (w0, u) (answered u) (interrupted u) no_fault.
Proof.
  destruct (same_as_tail w0 same_as_start) as (q & l & _ & Hq & Ht & Hsize).
  apply runs_bind, runs_on_fst. eapply runs_queue_of; [exact Hq|]. apply runs_bind, runs_on_fst, runs_gets.
  rewrite Ht. apply runs_bind, runs_on_fst.
  eapply runs_mono; [apply (score_runs l0 [])|..]; [done|by rewrite <- (length_fmap s_addr)|done| |..|done].
  { split; [done|]. by intros ? ?%elem_of_nil. }
  - intros [n best] w' [-> [Hn Hbest]]. destruct (0 <? n).
    + destruct Hbest as (s & Hs & <- & Hitems). apply runs_bind.
      eapply runs_mono; [apply visit_runs; [apply same_as_start|apply list_elem_of_fmap; by exists s]|..]; [|done..].
      intros [] [w1 u1]; [intros Hgot; by apply runs_ret|]. intros (_ & _ & He). by destruct Hitems; apply He.
    + apply runs_ret. split_and!; [done|apply same_as_start|done].
  - done.
Qed.

(** *** The number of elements *)
Lemma subqueue_bound clean sub h ring raws xs :
  subqueue_holds (X := X) clean sub h ring raws xs → zlen xs ≤ zlen ring * BLOCK_SIZE.
Proof.
  pose proof block_size_pos. destruct sub.
  - intros (idle & used & H' & -> & _ & Hpa & _). pose proof (in_use_bound H' (zlen xs) (zlen_nonneg xs)) as Hb.
    rewrite <- (pa_length _ _ _ _ _ _ _ _ Hpa) in Hb. rewrite zlen_app. pose proof (zlen_nonneg (idle.*1)). nia.
  - intros (H' & _ & Hib & _). pose proof (in_use_bound H' (zlen xs) (zlen_nonneg xs)) as Hb.
    by rewrite <- (ib_length _ _ _ _ _ Hib) in Hb.
Qed.

Lemma items_fit_rings h l :
  (∀ s, s ∈ l → subqueue_holds (X := X) (s_clean s) (subqueue (s_node s)) h (s_ring s) (s_raws s) (s_items s)) →
  zlen (l ≫= s_items) ≤ zlen (rings l) * BLOCK_SIZE.
Proof.
  unfold rings. induction l as [|s l IH]; intros Hh; [unfold zlen; simpl; lia|]. csimpl. rewrite !zlen_app.
  pose proof (subqueue_bound _ _ _ _ _ _ (Hh s ltac:(by left))).
  assert (zlen (l ≫= s_items) ≤ zlen (l ≫= s_ring) * BLOCK_SIZE); [|lia]. apply IH. intros s1 Hs1. apply Hh. by right.
Qed.

Lemma elements_fit : zlen (l0 ≫= s_items) ≤ 2 ^ 63.
Proof.
  destruct Hat0 as [[_ _ _ Hh Hm Hr] _].
  assert (Hle : zlen (l0 ≫= s_items) ≤ zlen (rings l0) * BLOCK_SIZE).
  { apply (items_fit_rings (blocks (memory w0))). intros s Hs. by apply Hh. }
  assert (Hsize : (length (rings l0) ≤ size (blocks (memory w0)))%nat).
  { rewrite <- (size_dom (D := gset nat)), <- (size_list_to_set (C := gset nat) _ Hr). apply subseteq_size.
    intros p Hp%elem_of_list_to_set. apply elem_of_dom. by apply (memory_at_lookup _ _ _ _ _ _ _ Hm). }
  pose proof (pool_blocks_bound _ _ (ma_bytes _ _ _ _ _ _ Hm)). pose proof block_size_pos. unfold zlen in *. nia.
Qed.

Lemma size_loop_runs k2 : ∀ k1 fuel, l0 = k1 ++ k2 → (length k2 ≤ fuel)%nat →
  runs (size_loop fuel (hd 0%nat (addresses k2)) (zlen (k1 ≫= s_items))) w0
    (λ n w', w' = w0 ∧ n = zlen (l0 ≫= s_items)) (never (A := X)) no_fault.
Proof.
  induction k2 as [|s k2 IH]; intros k1 fuel Hl Hfuel.
  - rewrite app_nil_r in Hl. destruct fuel; apply runs_ret; by rewrite Hl.
  - destruct (size_of_address _ _ _ Hl) as (Hs & Hsize & Hnext & Hne). destruct fuel as [|fuel]; [simpl in Hfuel; lia|].
    change (hd 0%nat (addresses (s :: k2))) with (s_addr s). cbn [size_loop]. rewrite bool_decide_eq_false_2 by done.
    apply runs_bind. eapply runs_load_producer; [exact Hs|]. rewrite Hsize, Hnext.
    assert (Hacc : zlen ((k1 ++ [s]) ≫= s_items) = zlen (k1 ≫= s_items) + zlen (s_items s))
      by (rewrite bind_app, zlen_app; csimpl; by rewrite app_nil_r).
    pose proof elements_fit as Hfit. rewrite Hl, bind_app, zlen_app in Hfit. csimpl in Hfit. rewrite zlen_app in Hfit.
    pose proof (zlen_nonneg (k1 ≫= s_items)). pose proof (zlen_nonneg (s_items s)).
    pose proof (zlen_nonneg (k2 ≫= s_items)). rewrite u64_small by lia. rewrite <- Hacc.
    apply IH; [by rewrite <- app_assoc|simpl in Hfuel; lia].
Qed.

Lemma queue_size_runs :
  runs (size_approx this) w0 (λ n w', w' = w0 ∧ n = zlen (l0 ≫= s_items)) (never (A := X)) no_fault.
Proof.
  destruct (same_as_tail w0 same_as_start) as (q & l & _ & Hq & Ht & Hsize).
  apply runs_bind. eapply runs_queue_of; [exact Hq|]. apply runs_bind, runs_gets. rewrite Ht.
  apply (size_loop_runs l0 []); [done|by rewrite <- (length_fmap s_addr)].
Qed.

(** *** Around the list *)
Lemma next_around w B1 a B2 : same_as w → addresses l0 = B1 ++ a :: B2 →
  ∃ n, producers w !! a = Some n ∧
    (if bool_decide (next_prod n = 0%nat) then hd 0%nat (addresses l0) else next_prod n) =
      hd (hd 0%nat (addresses l0)) B2.
Proof.
  intros Hw Ha. destruct (same_as_next w B1 a B2 Hw Ha) as (n & _ & Hn & Hnext). exists n. split; [done|].
  rewrite Hnext. destruct B2 as [|b B2]; [done|]. simpl.
  destruct (same_as_next w (B1 ++ [a]) b B2 Hw) as (_ & Hb & _); [by rewrite <- app_assoc|].
  by rewrite bool_decide_eq_false_2.
Qed.

Lemma around_start (A1 A2 : list nat) c : hd (hd 0%nat (A1 ++ c :: A2)) A2 = hd 0%nat (A2 ++ A1 ++ [c]).
Proof. destruct A2; [|done]. by destruct A1. Qed.

Lemma around_step (A1 A2 V R : list nat) c a b : A2 ++ A1 ++ [c] = V ++ a :: b :: R →
  ∃ B1 B2, A1 ++ c :: A2 = B1 ++ a :: B2 ∧ b = hd (hd 0%nat (A1 ++ c :: A2)) B2.
Proof.
  assert (Hrest : ∀ k, A1 ++ [c] = k ++ a :: b :: R →
    ∃ B1 B2, A1 ++ c :: A2 = B1 ++ a :: B2 ∧ b = hd (hd 0%nat (A1 ++ c :: A2)) B2).
  { intros k Hk. exists k, (b :: R ++ A2). split; [|done].
    replace (A1 ++ c :: A2) with ((A1 ++ [c]) ++ A2) by by rewrite <- app_assoc. by rewrite Hk, <- app_assoc. }
  intros [(k & -> & Hk)|(k & -> & Hk)]%app_eq_inv; [|by eapply Hrest].
  destruct k as [|a' [|b' k]]; simpl in Hk.
  - apply (Hrest []). by rewrite Hk.
  - injection Hk as <- Hk. exists (A1 ++ c :: V), []. split; [by rewrite <- app_assoc|].
    destruct A1; simpl in *; by injection Hk.
  - injection Hk as <- <- _. exists (A1 ++ c :: V), (b :: k). split; [by rewrite <- app_assoc|done].
Qed.

Lemma rotate_by_runs n : ∀ ptr, ptr ∈ addresses l0 →
  runs (rotate_by n (hd 0%nat (addresses l0)) ptr) w0 (λ p w', w' = w0 ∧ p ∈ addresses l0)
    (never (A := X)) no_fault.
Proof.
  induction n as [|n IH]; intros ptr Hin; [by apply runs_ret|]. simpl.
  apply list_elem_of_split in Hin as (B1 & B2 & Heq).
  destruct (next_around w0 B1 ptr B2 same_as_start Heq) as (d & Hd & Hnext).
  apply runs_bind. eapply runs_load_producer; [exact Hd|]. rewrite Hnext. apply IH.
  destruct B2; rewrite Heq; [destruct B1|]; set_solver.
Qed.

Lemma update_runs t c : consumer_tokens w0 !! t = Some c → zlen l0 < 2 ^ 32 →
  runs (update_current_producer_after_rotation this t) w0
    (λ r w', if r : bool then ∃ c', w' = set_consumer_tokens (<[t := c']> (consumer_tokens w0)) w0 ∧
         desiredProducer c' ∈ addresses l0 ∧ currentProducer c' ∈ addresses l0
       else w' = w0 ∧ l0 = []) (never (A := X)) no_fault.
Proof.
  intros Hc Hlen. destruct (same_as_tail w0 same_as_start) as (q & l & _ & Hq & Ht & _).
  pose proof Hat0 as [Hheap Hdesk].
  assert (q = q0) as -> by (pose proof (hp_queue _ _ _ _ _ Hheap); congruence).
  apply runs_bind. eapply runs_queue_of; [exact Hq|]. apply runs_bind.
  eapply runs_zoom; [by rewrite Hc|]. apply runs_gets.
  replace (set_consumer_tokens (<[t := id c]> (consumer_tokens w0)) w0) with w0
    by (unfold id, set_consumer_tokens; rewrite insert_id by done; by destruct w0).
  rewrite Ht. unfold id. destruct (decide (l0 = [])) as [Hnil|Hne].
  { assert (desiredProducer c = 0%nat) as ->.
    { destruct (decide (desiredProducer c = 0%nat)) as [|Hd]; [done|].
      destruct (dk_consumer _ _ _ _ _ _ _ Hdesk t c Hc Hd) as [Hin _]. rewrite Hnil in Hin. by apply elem_of_nil in Hin. }
    rewrite Hnil. simpl. by apply runs_ret. }
  assert (Hhd : hd 0%nat (addresses l0) ∈ addresses l0) by (destruct l0; [done|]; simpl; set_solver).
  assert (Hhd0 : hd 0%nat (addresses l0) ≠ 0%nat).
  { apply list_elem_of_fmap in Hhd as (s & -> & Hs).
    by eapply listed_lookup; [exact (hp_list _ _ _ _ _ Hheap)|]. }
  rewrite (bool_decide_eq_false_2 _ Hhd0), andb_false_r.
  assert (Hcount : producerCount q0 = zlen l0).
  { rewrite (dk_count _ _ _ _ _ _ _ Hdesk), length_fmap. apply u32_small. unfold zlen in *. lia. }
  assert (Hpos : 0 < producerCount q0) by (rewrite Hcount; destruct l0; [done|]; unfold zlen; simpl; lia).
  assert (Hmod : ∀ x, modulo x (producerCount q0) = Ok (x mod producerCount q0)).
  { intros x. unfold modulo. destruct (Z.eqb_spec (producerCount q0) 0); [lia|done]. }
  apply runs_bind.
  eapply runs_mono with (Q := λ d w', w' = w0 ∧ d ∈ addresses l0) (Qt := never (A := X)) (F := no_fault); [|intros desired w' [-> Hd]|done..].
  - destruct (decide (desiredProducer c = 0%nat)) as [Hz|Hd].
    + rewrite bool_decide_eq_true_2 by done. apply runs_bind. eapply runs_lift'; [apply Hmod|]. by apply rotate_by_runs.
    + rewrite bool_decide_eq_false_2 by done. apply runs_ret. split; [done|].
      destruct (dk_consumer _ _ _ _ _ _ _ Hdesk t c Hc Hd) as [Hin _]. by rewrite <- list_fmap_compose in Hin.
  - apply runs_bind.
    eapply runs_mono with (Q := λ _ w', w' = w0) (Qt := never (A := X)) (F := no_fault); [|intros delta w' ->|done..].
    { destruct (_ <=? _); [|by apply runs_ret]. by eapply runs_lift'; [apply Hmod|]. }
    apply runs_bind. eapply runs_mono; [by apply rotate_by_runs|..]; [|done..]. intros d w' [-> Hd'].
    apply runs_bind. eapply runs_zoom; [by rewrite Hc|]. apply runs_modify. apply runs_ret. by eexists.
Qed.

(** What a call to dequeue may do, whichever. *)
Definition outcome u (r : completion X bool) u' w : Prop :=
  ∃ q l, queue_at (X := X) w this q l extra ts threads ∧ kept w0 w ∧
    match r with
    | Returns false => u' = u ∧ brief <$> l = brief <$> l0 ∧ ∀ s, s ∈ l0 → s_items s = []
    | _ => brief_step (Dequeue u) (Dequeued u' r) (brief <$> l0) (brief <$> l)
    end.

Lemma after_kept w q : after w0 w q0 q → kept w0 w.
Proof. intros [[Hh Hp Hc Hl] _]. constructor; congruence. Qed.

Lemma got_outcome u r u' w : got u r u' w → r ≠ Returns false → outcome u r u' w.
Proof.
  intros (q & l & Hat & Haf & Hstep) Hr. exists q, l. split_and!; [done|by eapply after_kept|].
  by destruct r as [[]|].
Qed.

Lemma answered_outcome u r w u' : answered u r (w, u') → outcome u (Returns r) u' w.
Proof.
  destruct r; [by intros ?%got_outcome|]. intros (Hu & (q & l & Hat & Haf & Hb) & Hempty).
  exists q, l. split_and!; [done|by eapply after_kept|done..].
Qed.

Lemma interrupted_outcome u ex w u' : interrupted u ex (w, u') → outcome u (Throws ex) u' w.
Proof. by intros ?%got_outcome. Qed.

Lemma brief_step_addresses o r l l' : brief_step o r (brief <$> l) (brief <$> l') → addresses l' = addresses l.
Proof.
  assert (Ha : ∀ k, addresses k = (λ b, t_addr b.1.1) <$> (brief <$> k))
    by (intros k; unfold addresses; by rewrite <- list_fmap_compose).
  rewrite !Ha. generalize (brief <$> l), (brief <$> l'). intros b b' []. by rewrite !fmap_app.
Qed.

(** The token remembers where something was found. *)
Lemma found_runs u u' w t c (f : ConsumerToken → ConsumerToken) :
  got u (Returns true) u' w → consumer_tokens w0 !! t = Some c →
  desiredProducer (f c) = desiredProducer c → currentProducer (f c) ∈ addresses l0 →
  runs (on_ctoken (X := X) t (modify f)) w (λ _ w', outcome u (Returns true) u' w') never no_fault.
Proof.
  intros (q & l & Hat & Haf & Hstep) Hc Hf Hcur. pose proof (sb_ctokens _ _ (af_same _ _ _ _ Haf)) as Hsame.
  eapply runs_zoom; [by rewrite Hsame, Hc|]. apply runs_modify.
  pose proof (brief_step_addresses _ _ _ _ Hstep) as Haddr.
  exists q, l. split_and!; [|destruct (after_kept _ _ Haf)|done].
  - apply queue_at_ctoken; [done|]. rewrite Hf, Haddr. intros Hd. split; [|done].
    destruct Hat0 as [_ Hdesk]. destruct (dk_consumer _ _ _ _ _ _ _ Hdesk t c Hc Hd) as [Hin _].
    by rewrite <- list_fmap_compose in Hin.
  - constructor; simpl; [done| |done]. rewrite dom_insert_L, Hsame. apply elem_of_dom_2 in Hc. set_solver.
Qed.

Lemma try_around_runs A1 cur A2 t c u fuel R : addresses l0 = A1 ++ cur :: A2 →
  consumer_tokens w0 !! t = Some c → empty_at cur → ∀ V ptr w,
  A2 ++ A1 ++ [cur] = V ++ ptr :: R → (length R ≤ fuel)%nat → same_as w → (∀ a, a ∈ V → empty_at a) →
  runs (try_around assign_result nothrow_assign fuel t (hd 0%nat (addresses l0)) cur ptr) (w, u)
    (λ r '(w', u'), outcome u (Returns r) u' w') (λ ex '(w', u'), outcome u (Throws ex) u' w') no_fault.
Proof.
  intros Ha Hc Hcur. assert (Hnd : NoDup (A2 ++ A1 ++ [cur])).
  { destruct Hat0 as [Hheap _]. pose proof (hp_nodup _ _ _ _ _ Hheap) as Hnd. rewrite Ha in Hnd.
    by rewrite (Permutation_app_comm A2), <- app_assoc. }
  revert fuel. induction R as [|b R IH]; intros fuel V ptr w Heq Hfuel Hw Hempty.
  - assert (V = A2 ++ A1 ∧ ptr = cur) as [-> ->].
    { rewrite (assoc_L (++)) in Heq. by apply app_inj_tail in Heq as [<- <-]. }
    assert (Hall : ∀ s, s ∈ l0 → s_items s = []).
    { intros s Hs. assert (Hin : s_addr s ∈ addresses l0) by (apply list_elem_of_fmap; by exists s).
      rewrite Ha in Hin. apply elem_of_app in Hin as [Hin|[Heqc|Hin]%elem_of_cons].
      1,3: apply (Hempty (s_addr s)); [set_solver|done|done]. by apply Hcur. }
    destruct fuel; cbn [try_around]; rewrite bool_decide_eq_true_2 by done; apply runs_ret;
      by apply answered_outcome.
  - destruct fuel as [|fuel]; [simpl in Hfuel; lia|]. cbn [try_around].
    assert (Hin : ptr ∈ addresses l0).
    { rewrite Ha. assert (ptr ∈ A2 ++ A1 ++ [cur]) by (rewrite Heq; set_solver). set_solver. }
    assert (Hne : ptr ≠ cur).
    { intros ->. destruct (exists_last (l := b :: R)) as (R' & z & HR); [done|]. rewrite HR in Heq.
      rewrite !(assoc_L (++)) in Heq. pose proof Heq as Heq'.
      replace (V ++ cur :: R' ++ [z]) with ((V ++ cur :: R') ++ [z]) in Heq' by by rewrite <- app_assoc.
      apply app_inj_tail in Heq' as [Heq' _]. rewrite (assoc_L (++)), Heq' in Hnd.
      apply NoDup_app in Hnd as (_ & Hdis & _). apply (Hdis cur); set_solver. }
    rewrite bool_decide_eq_false_2 by done. apply runs_bind.
    eapply runs_mono; [by apply visit_runs|..]; [|intros ex [w' u']; apply interrupted_outcome|done].
    intros [] [w' u']; simpl.
    + intros Hgot. apply runs_bind, runs_on_fst.
      eapply runs_mono; [by eapply found_runs|..]; [|done..]. intros [] w2 Hout. by apply runs_ret.
    + intros (-> & Hw' & Hae). destruct (around_step _ _ _ _ _ _ _ Heq) as (B1 & B2 & HB & Hb).
      rewrite <- Ha in HB, Hb. destruct (next_around w' B1 ptr B2 Hw' HB) as (n & Hn & Hnext).
      apply runs_bind, runs_on_fst. eapply runs_load_producer; [exact Hn|]. rewrite Hnext, <- Hb.
      apply (IH fuel (V ++ [ptr])); [by rewrite <- app_assoc|simpl in Hfuel; lia|done|].
      intros a [Hin'| ->%list_elem_of_singleton]%elem_of_app; [by apply Hempty|done].
Qed.

Lemma rotate_all_runs u r u' w : outcome u r u' w →
  runs (rotate_all (X := X) this) w (λ _ w', outcome u r u' w') never no_fault.
Proof.
  intros (q & l & Hat & [] & Hr). pose proof Hat as [Hheap _].
  eapply runs_modify_queue; [exact (hp_queue _ _ _ _ _ Hheap)|].
  eexists _, l. split_and!; [by apply queue_at_offset|by constructor|done].
Qed.

Lemma load_ctoken_runs t c w (Q : ConsumerToken → W → Prop) Qt F : consumer_tokens w !! t = Some c →
  Q c w → runs (ctoken_at (X := X) t) w Q Qt F.
Proof.
  intros Hc HQ. eapply runs_zoom; [by rewrite Hc|]. apply runs_gets. unfold set_consumer_tokens, id.
  rewrite insert_id by done. by destruct w.
Qed.

Lemma try_from_current_runs t c u : consumer_tokens w0 !! t = Some c → currentProducer c ∈ addresses l0 →
  runs (try_from_current assign_result nothrow_assign this t) (w0, u)
    (λ r '(w', u'), outcome u (Returns r) u' w') (λ ex '(w', u'), outcome u (Throws ex) u' w') no_fault.
Proof.
  intros Hc Hcur. apply runs_bind, runs_on_fst. eapply load_ctoken_runs; [exact Hc|]. apply runs_bind.
  eapply runs_mono; [by apply visit_runs; [apply same_as_start|]|..];
    [|intros ex [w' u']; apply interrupted_outcome|done].
  intros [] [w' u']; cbn beta iota.
  - intros Hgot. apply runs_bind, runs_on_fst. eapply runs_mono; [by eapply found_runs|..]; [|done..].
    intros [] w2 Hout. apply runs_bind. destruct (_ =? _).
    + apply runs_on_fst. eapply runs_mono; [by apply rotate_all_runs|..]; [|done..]. intros [] w3 Hout'. by apply runs_ret.
    + apply runs_ret. by apply runs_ret.
  - intros (-> & Hw' & Hempty). pose proof Hcur as (A1 & A2 & Ha)%list_elem_of_split.
    destruct (same_as_tail w' Hw') as (q & l & _ & Hq & Ht & Hsize).
    destruct (next_around w' A1 (currentProducer c) A2 Hw' Ha) as (n & Hn & Hnext).
    apply runs_bind, runs_on_fst. eapply runs_queue_of; [exact Hq|].
    apply runs_bind, runs_on_fst. eapply runs_load_producer; [exact Hn|].
    apply runs_bind, runs_on_fst, runs_gets. rewrite Ht, Hnext, Ha, around_start, <- Ha.
    destruct (A2 ++ A1 ++ [currentProducer c]) as [|p R] eqn:Heq; [by destruct A2, A1|].
    eapply (try_around_runs A1 _ A2) with (V := []); [done|done|done|exact Heq| |done|by intros ? ?%elem_of_nil].
    apply (f_equal length) in Heq. rewrite !length_app in Heq. rewrite Ha, length_app in Hsize. simpl in *. lia.
Qed.
End whole.

Lemma outcome_from this extra ts threads w0 w1 l0 u r u' w : kept w0 w1 →
  outcome this extra ts threads w1 l0 u r u' w → outcome this extra ts threads w0 l0 u r u' w.
Proof. intros Hk (q & l & Hat & Hk' & Hr). exists q, l. split_and!; [done|by eapply kept_trans|done]. Qed.

Lemma try_dequeue_token_runs this extra ts threads w0 q0 l0 t c u :
  queue_at (X := X) w0 this q0 l0 extra ts threads → zlen l0 < 2 ^ 32 → consumer_tokens w0 !! t = Some c →
  runs (try_dequeue_token assign_result nothrow_assign this t) (w0, u)
    (λ r '(w', u'), outcome this extra ts threads w0 l0 u (Returns r) u' w')
    (λ ex '(w', u'), outcome this extra ts threads w0 l0 u (Throws ex) u' w') no_fault.
Proof.
  intros Hat Hlen Hc. pose proof Hat as [Hheap Hdesk].
  apply runs_bind, runs_on_fst. apply runs_bind. eapply load_ctoken_runs; [exact Hc|].
  apply runs_bind. eapply runs_queue_of; [exact (hp_queue _ _ _ _ _ Hheap)|]. apply runs_ret. apply runs_bind.
  assert (Hself : kept w0 w0) by by constructor.
  destruct (bool_decide _ || _) eqn:Erot.
  - apply runs_on_fst. eapply runs_mono; [by eapply update_runs|..]; [|done..]. intros [] w1; simpl.
    + intros (c' & -> & Hd & Hcur). pose proof (queue_at_ctoken _ _ _ _ _ _ _ t c' Hat (λ _, conj Hd Hcur)) as Hat'.
      assert (Hk : kept w0 (set_consumer_tokens (<[t := c']> (consumer_tokens w0)) w0)).
      { constructor; simpl; [done| |done]. rewrite dom_insert_L. apply elem_of_dom_2 in Hc. set_solver. }
      eapply runs_mono; [eapply (try_from_current_runs _ _ _ _ _ _ _ Hat' t c'); [apply lookup_insert_eq|done]|..];
        [intros r [w2 u2]|intros ex [w2 u2]|done]; by apply outcome_from.
    + intros [-> ->]. apply runs_ret. exists q0, []. split_and!; [done..|]. by intros s ?%elem_of_nil.
  - apply orb_false_iff in Erot as [Hd%bool_decide_eq_false _]. apply runs_ret. simpl.
    eapply try_from_current_runs; [exact Hat|exact Hc|].
    destruct (dk_consumer _ _ _ _ _ _ _ Hdesk t c Hc Hd) as [_ Hin]. by rewrite <- list_fmap_compose in Hin.
Qed.
End elements.
