(* ===== verification/CqQueueSetup.v ===== *)
(** * ConcurrentQueue: what is added to a queue

    Producers, tokens and hash tables are made as they are needed; if there is no memory
    for one the queue is as before. *)
From stdpp Require Import gmap.
From S2P Require Import Prelude Lifetime FreeList CqBlock CqPool CqFacts CqPoolFacts CqExplicit CqImplicit.
From S2P Require Import CqRing CqExplicitInv CqExplicitOps CqLifecycle CqProducer CqExplicitTheorems.
From S2P Require Import CqImplicitOps CqImplicitTheorems CqQueue CqHash CqQueueInv CqQueueOps.

#[local] Open Scope Z_scope.

Section setup.
Context {TR : Traits} {OK : TraitsOk} {X T U : Type} `{!CppType X T, !CppLaws X T}.
Context (assign_result : U → T → U * T * completion X unit) (nothrow_assign : bool).
Context (assign_ok : ∀ u x u' x' ex, nothrow_assign = true → assign_result u x ≠ (u', x', Throws ex)).
#[local] Instance explicit_instance' : ProducerLaws assign_result (explicit_ops assign_result nothrow_assign) :=
  explicit_laws assign_result nothrow_assign assign_ok.
#[local] Instance implicit_instance' : ProducerLaws assign_result (implicit_ops assign_result nothrow_assign) :=
  implicit_laws assign_result nothrow_assign assign_ok.
#[local] Abbreviation W := (Store T).
#[local] Abbreviation slot := (slot T).
#[local] Abbreviation heap_at := (heap_at (X := X)).
Implicit Types (w : W) (q : ConcurrentQueue) (s : slot) (l : list slot) (m : Memory T).
Implicit Types (this p : nat) (extra : list nat) (ts : list (hash_ref * gmap Z nat)) (threads : gmap Z nat).

(** ** Memory *)
Lemma heap_pool w this q l extra : heap_at w this q l extra →
  (∃ fl, pool_inv (X := X) (memory w) (pool q) (list_to_set (rings l)) (list_to_set (all_raws l extra)) fl) ∧
  pool_bytes (memory w) (pool q).
Proof.
  intros [_ _ _ _ [[fl Hinv] Hby _ _ _] _]. rewrite !(right_id_L ∅ (∪)) in Hinv. eauto.
Qed.

(** A chunk of memory more, which is a hash table for now. *)
Lemma heap_malloc w this q l extra bytes (Q : nat → W → Prop) : heap_at w this q l extra → 0 ≤ bytes →
  (∀ m', out_of_memory → blocks m' = blocks (memory w) → lost m' = lost (memory w) →
     heap_at (set_memory m' w) this q l extra → Q 0%nat (set_memory m' w)) →
  (∀ p m', blocks m' = blocks (memory w) → lost m' = lost (memory w) → p ≠ 0%nat → p ∉ all_raws l extra →
     heap_at (set_memory m' w) this q l (p :: extra) → Q p (set_memory m' w)) →
  runs (on_mem (malloc (X := X) bytes 1)) w Q (never (A := X)) no_fault.
Proof.
  intros Hheap Hb Hno Hyes. destruct (heap_pool _ _ _ _ _ Hheap) as [[fl Hinv] Hby].
  pose proof Hheap as [Hq Hl Hnd Hh Hm Hr]. apply runs_on_mem. eapply malloc_runs; [exact Hinv|exact Hby|done|].
  intros p m' Hbl Hlost Hby' [(-> & Hfull & Hinv')|(Hp & Hnot & _ & _ & Hinv' & _)].
  - apply Hno; [done..|]. constructor; simpl; try done; [by rewrite Hbl|].
    destruct Hm as [_ _ Hm1 Hm2 Hm3]. constructor; [|done..]. exists fl. by rewrite !(right_id_L ∅ (∪)).
  - assert (Hnot' : p ∉ all_raws l extra) by (intros Hin; apply Hnot; by apply elem_of_list_to_set).
    apply Hyes; [done..|]. constructor; simpl; try done; [by rewrite Hbl|].
    assert (Hperm : all_raws l (p :: extra) ≡ₚ p :: all_raws l extra).
    { unfold all_raws. by rewrite !(assoc_L (++)), <- Permutation_middle. }
    eapply memory_at_perm; [|reflexivity|symmetry; exact Hperm]. destruct Hm as [_ _ Hm1 Hm2 Hm3].
    constructor; [|done|done|by intros ? _ ?%elem_of_empty|by constructor].
    exists fl. by rewrite !(right_id_L ∅ (∪)).
Qed.

(** ** A producer is made *)
Section kind.
Context {P : Type} (cast : Subqueue → option P) (wrap : P → Subqueue).
Context (ops : ProducerOps X T U P) {LAWS : ProducerLaws assign_result ops} (bytes : Z) (Hbytes : 0 ≤ bytes).
Context (Hcast : ∀ e, cast (wrap e) = Some e).
Context (Hholds : ∀ clean e h ring raws xs,
  subqueue_holds (X := X) clean (wrap e) h ring raws xs = holds clean e h ring raws xs).

Definition create_with this : M X W nat :=
  p ← on_mem (malloc bytes 1);
  if bool_decide (p = 0%nat) then mret 0%nat
  else
    modify (λ w, set_producers (<[p := mkProducer (wrap (no_producer ops)) 0 false 0 this]> (producers w)) w) ;;
    zoom (focus cast p) (unfocus wrap p) (do_construct ops) ;;
    mret p.

(** The producer [p], which has no elements. *)
Definition added this q l extra (e : P) p w' : Prop :=
  ∃ b ring raws, heap_at w' this (set_producers_of p (u32 (producerCount q + 1)) (set_pool_of b q))
    (mkSlot p (mkProducer (wrap e) (producerListTail q) false 0 this) ring raws [] true :: l) extra.

Lemma construct_producer_runs w this q l extra p : p ≠ 0%nat → p ∉ all_raws l extra →
  heap_at w this q l (p :: extra) →
  producers w !! p = Some (mkProducer (wrap (no_producer ops)) 0 false 0 this) →
  runs (zoom (focus cast p) (unfocus wrap p) (do_construct ops)) w
    (λ _ w', same_but w w' ∧ ∃ b e ring raws, queues w' !! this = Some (set_pool_of b q) ∧
       producers w' = <[p := mkProducer (wrap e) 0 false 0 this]> (producers w) ∧
       ∀ count, let n := mkProducer (wrap e) (producerListTail q) false 0 this in
         let q' := set_producers_of p count (set_pool_of b q) in
         heap_at (set_queues (<[this := q']> (queues w')) (set_producers (<[p := n]> (producers w')) w'))
           this q' (mkSlot p n ring raws [] true :: l) extra) (never (A := X)) no_fault.
Proof.
  intros Hp Hnot Hheap Hprod. pose proof Hheap as [Hq Hl Hnd Hh Hm Hr].
  destruct (heap_pool _ _ _ _ _ Hheap) as [[fl Hinv] Hby].
  eapply runs_zoom; [by unfold focus; rewrite Hprod; simpl; rewrite Hcast; simpl; rewrite Hq|].
  eapply runs_mono; [by eapply law_construct|..]; [|done..].
  intros _ [e [m' b]] ([Hfr Hlost] & ring & raws & Hhs & Hm'). unfold unfocus. rewrite Hprod. simpl.
  split; [by constructor|]. exists b, e, ring, raws.
  split; [by rewrite lookup_alter_eq, Hq|]. split; [done|]. intros count.
  assert (Hpa : p ∉ addresses l).
  { intros Hin. apply Hnot. unfold all_raws. set_solver. }
  destruct (memory_at_join _ _ _ _ _ _ Hm' (holds_nodup _ _ _ _ _ _ Hhs) Hr) as [Hj Hjr];
    [by destruct Hm|].
  constructor; simpl.
  - apply lookup_insert_eq.
  - rewrite lookup_insert_eq. split_and!; [done..|]. eapply listed_ext; [exact Hl|].
    intros a Ha. by rewrite !lookup_insert_ne by (intros ->; done).
  - unfold addresses. csimpl. by constructor.
  - intros s [->|Hs]%elem_of_cons; simpl; [by rewrite Hholds|]. destruct (Hh s Hs) as [? Hhs'].
    split; [done|]. eapply subqueue_local; [|exact Hhs']. intros p' Hp'. apply Hfr, elem_of_list_to_set.
    unfold rings. apply list_elem_of_bind. by exists s.
  - eapply memory_at_perm; [exact Hj|done|]. unfold all_raws, addresses. csimpl.
    rewrite <- !(assoc_L (++)). apply Permutation_app; [done|]. apply Permutation_app; [done|].
    by rewrite <- Permutation_middle.
  - done.
Qed.

Lemma add_new_runs w this q l extra : heap_at w this q l extra →
  runs (create_with this ≫= add_producer this) w
    (λ p w', same_but w w' ∧
       if bool_decide (p = 0%nat) then out_of_memory ∧ heap_at w' this q l extra
       else (p ∉ addresses l) ∧ ∃ e, added this q l extra e p w')
    (never (A := X)) no_fault.
Proof.
  intros Hheap. apply runs_bind. unfold create_with. apply runs_bind. eapply heap_malloc; [exact Hheap|done|..].
  - intros m' Hfull _ Hlost Hheap'. rewrite bool_decide_eq_true_2 by done. apply runs_ret.
    unfold add_producer. rewrite bool_decide_eq_true_2 by done. apply runs_ret.
    rewrite bool_decide_eq_true_2 by done. by split.
  - intros p m' _ Hlost Hp Hnot Hheap'. rewrite bool_decide_eq_false_2 by done.
    apply runs_bind, runs_modify, runs_bind.
    assert (Hpa : p ∉ addresses l) by (intros Hin; apply Hnot; unfold all_raws; set_solver).
    eapply runs_mono; [eapply (construct_producer_runs _ this q l extra p Hp Hnot); [|apply lookup_insert_eq]|..]; [|..|done|done].
    { destruct Hheap' as []. constructor; simpl in *; try done. eapply listed_ext; [done|].
      intros a Ha. rewrite lookup_insert_ne; [done|]. by intros ->. }
    intros [] w' ([Hh1 Hp1 Hc1 Hl1] & b & e & ring & raws & Hq' & Hprods & Hadd). simpl in *. apply runs_ret.
    unfold add_producer. rewrite bool_decide_eq_false_2 by done.
    apply runs_bind. eapply runs_modify_queue; [exact Hq'|].
    apply runs_bind. eapply runs_queue_of; [apply lookup_insert_eq|]. simpl.
    apply runs_bind. eapply runs_modify_producer; [simpl; rewrite Hprods; apply lookup_insert_eq|].
    apply runs_bind. eapply runs_modify_queue; [simpl; apply lookup_insert_eq|]. apply runs_ret.
    rewrite bool_decide_eq_false_2 by done. split; [by constructor; simpl; congruence|]. split; [done|].
    exists e, b, ring, raws. pose proof (Hadd (u32 (producerCount q + 1))) as Hadd'. clear Hadd. unfold set_queues, set_producers, set_producers_of, set_next_prod in *. simpl in *.
    by rewrite insert_insert_eq.
Qed.
End kind.

(** ** Tables *)
Lemma shiftr_half c : Z.shiftr c 1 = c / 2.
Proof. by rewrite Z.shiftr_div_pow2. Qed.

Lemma shiftl_double c : Z.shiftl c 1 = 2 * c.
Proof. rewrite Z.shiftl_mul_pow2 by done. lia. Qed.

Lemma pow2_half c : pow2 c → 2 ≤ c → c = 2 * (c / 2).
Proof.
  intros (k & Hk & ->) H2. assert (k ≠ 0) by (intros ->; simpl in H2; lia).
  replace k with (1 + (k - 1)) by lia. rewrite Z.pow_add_r by lia.
  rewrite (Z.mul_comm (2 ^ 1)), Z.div_mul by done. lia.
Qed.

(** The loop ends with a capacity of at least twice the count, and at most about four times. *)
Lemma double_capacity_spec n : 0 ≤ n ≤ 2 ^ 32 → ∀ k fuel c, (k < fuel)%nat → pow2 c → 2 ≤ c ≤ 4 * n + 2 →
  2 * n + 2 ≤ c * 2 ^ Z.of_nat k →
  ∃ c', double_capacity fuel n c = Ok c' ∧ pow2 c' ∧ 2 * n < c' ≤ 4 * n + 2.
Proof.
  intros Hn. induction k as [|k IH]; intros fuel c Hfuel Hp Hc Hk; (destruct fuel as [|fuel]; [lia|]);
    cbn [double_capacity]; rewrite shiftr_half; pose proof (pow2_half c Hp ltac:(lia));
    destruct (Z.leb_spec (c / 2) n) as [Hle|]; [|by exists c; split_and!; [|done|lia..]| |by exists c; split_and!; [|done|lia..]].
  - simpl in Hk. lia.
  - rewrite shiftl_double, u64_small by lia. apply IH; [lia|by apply pow2_double; [|lia]|lia|].
    rewrite Nat2Z.inj_succ, Z.pow_succ_r in Hk by lia. lia.
Qed.

Lemma threads_bound w this q l extra ts threads :
  desk_at w this q (tag_of (T := T) <$> l) extra ts threads → (size threads ≤ length l)%nat.
Proof.
  intros Hdesk. rewrite <- (length_fmap s_addr l). change (s_addr <$> l) with (addresses l).
  replace (size threads) with (length ((map_to_list threads).*2))
    by by rewrite length_fmap, length_map_to_list.
  apply submseteq_length, NoDup_submseteq.
  - apply NoDup_fmap_2_strong; [|apply NoDup_map_to_list].
    intros [id v] [id' v'] Hx%elem_of_map_to_list Hy%elem_of_map_to_list Heq. simpl in Heq. subst v'.
    by rewrite (dk_own _ _ _ _ _ _ _ Hdesk id id' v).
  - intros v ([id v'] & -> & Hx%elem_of_map_to_list)%list_elem_of_fmap. simpl.
    apply (dk_thread _ _ _ _ _ _ _ Hdesk) in Hx. apply list_elem_of_fmap in Hx as (s & Hs & Hin).
    apply list_elem_of_fmap. exists s. split; [|done]. exact (f_equal t_addr Hs).
Qed.

(** Members of the queue that the producers and the memory do not depend on. *)
Lemma heap_queue w this q q' l extra : heap_at w this q l extra →
  producerListTail q' = producerListTail q → pool q' = pool q →
  heap_at (set_queues (<[this := q']> (queues w)) w) this q' l extra.
Proof.
  intros [Hq Hl Hnd Hh Hm Hr] Ht Hp. constructor; simpl; rewrite ?Ht, ?Hp; try done. apply lookup_insert_eq.
Qed.

Lemma heap_hashes w this q l extra hs : heap_at w this q l extra → heap_at (set_hashes hs w) this q l extra.
Proof. by intros []. Qed.

(** The first table has room for one more thread. *)
Definition room_in (hs : gmap hash_ref ImplicitProducerHash) (main : hash_ref) ts threads (n : Z) : Prop :=
  threads_ok hs (Some main) ts threads ∧
  ∃ known ts' h, ts = (main, known) :: ts' ∧ hs !! main = Some h ∧ 2 * n < hash_capacity h.

Record same_desk w w' : Prop := {
  sd_producers : producers w' = producers w;
  sd_ptokens : producer_tokens w' = producer_tokens w;
  sd_ctokens : consumer_tokens w' = consumer_tokens w;
  sd_lost : lost (memory w') = lost (memory w)
}.

Lemma new_table (hs : gmap hash_ref ImplicitProducerHash) main ts threads p capacity :
  threads_ok hs (Some main) ts threads → new_hash p ∉ ts.*1 → pow2 capacity →
  2 * Z.of_nat (size threads) < capacity →
  threads_ok (<[new_hash p := mkHash capacity (replicate (Z.to_nat capacity) (clear_key KVP_new)) (Some main)]> hs)
    (Some (new_hash p)) ((new_hash p, ∅) :: ts) threads.
Proof.
  intros [Hc Hnd Hsub Hcomp Hroom] Hnot Hp Hcap. pose proof (pow2_bounds _ Hp).
  constructor; csimpl.
  - split; [done|]. eexists _, _. rewrite lookup_insert_eq. split_and!; [done|by apply table_new; [|lia]|rewrite map_size_empty; simpl; lia|].
    simpl. eapply chain_ext; [exact Hc|]. intros r Hr. rewrite lookup_insert_ne; [done|]. by intros <-.
  - by constructor.
  - intros r m [[= -> ->]|Hin]%elem_of_cons; [apply map_empty_subseteq|by eapply Hsub].
  - intros id v Hv. destruct (Hcomp id v Hv) as (r & m & Hin & Hm). exists r, m. split; [by right|done].
  - intros r m ts' h [= <- <- <-]. rewrite lookup_insert_eq. intros [= <-]. by right.
Qed.

(** A larger table is made unless there is room for [newCount]; it has no entries yet. *)
Lemma grow_hash_runs w this q l extra ts threads main newCount :
  heap_at w this q l extra → implicitProducerHash q = Some main → threads_ok (hashes w) (Some main) ts threads →
  ts.*1 = table_refs this extra → INITIAL_IMPLICIT_PRODUCER_HASH_SIZE ≠ 0 →
  newCount = Z.of_nat (size threads) + 1 → newCount ≤ 2 ^ 32 →
  runs (grow_hash this newCount) w
    (λ r w', same_desk w w' ∧
       match r with
       | None => out_of_memory ∧ hashes w' = hashes w ∧ heap_at w' this
           (set_resizing false (set_hashCount (u64 (implicitProducerHashCount q - 1)) q)) l extra
       | Some main' => ∃ extra' ts',
           heap_at w' this (set_resizing false (set_hash (Some main') q)) l extra' ∧
           ts'.*1 = table_refs this extra' ∧ room_in (hashes w') main' ts' threads newCount
       end) (never (A := X)) no_fault.
Proof.
  intros Hheap Hmain Hthr Hrefs Hsize Hn Hmax. pose proof (hp_queue _ _ _ _ _ Hheap) as Hq.
  apply runs_bind. eapply runs_queue_of; [exact Hq|]. rewrite Hmain.
  pose proof (th_chain _ _ _ _ Hthr) as Hc. destruct ts as [|[r known] ts]; [done|].
  destruct Hc as ([= <-] & h & kvs & Hh & Htab & Hsz & Hc).
  pose proof (to_pow _ _ _ Htab) as Hpow. pose proof (pow2_bounds _ Hpow).
  apply runs_bind. eapply runs_load_hash; [exact Hh|]. rewrite shiftr_half.
  destruct (Z.leb_spec (hash_capacity h / 2) newCount) as [Hle|Hroom].
  - assert (Hcap : hash_capacity h ≤ 2 * newCount + 1) by (pose proof (Z.mul_succ_div_gt (hash_capacity h) 2 eq_refl); lia).
    rewrite shiftl_double, u64_small by lia.
    destruct (double_capacity_spec newCount ltac:(lia) 40 64 (2 * hash_capacity h)) as (c & Hdc & Hcp & Hcb);
      [lia|by apply pow2_double; [|lia]|lia|simpl; lia|].
    apply runs_bind. eapply runs_lift'; [exact Hdc|]. apply runs_bind. clear Hdc.
    pose proof ok_hash as (Hh0 & Hh1 & Hh2). pose proof ok_kvp as [Hk0 Hk1].
    assert (Hbytes : hash_bytes c = sizeof_ImplicitProducerHash + alignof_ImplicitProducerKVP - 1 + sizeof_ImplicitProducerKVP * c).
    { unfold hash_bytes. rewrite (u64_small (_ * c)) by nia. apply u64_small. nia. }
    eapply heap_malloc; [exact Hheap|rewrite Hbytes; nia|..].
    + intros m' Hfull _ Hlost Hheap'. rewrite bool_decide_eq_true_2 by done.
      apply runs_bind. eapply runs_modify_queue; [exact Hq|].
      apply runs_bind. eapply runs_modify_queue; [simpl; apply lookup_insert_eq|]. apply runs_ret.
      split; [by constructor|]. split; [done|]. split; [done|]. unfold set_queues. simpl. rewrite insert_insert_eq.
      by apply (heap_queue _ _ _ _ _ _ Hheap').
    + intros p m' _ Hlost Hp Hnot Hheap'. rewrite bool_decide_eq_false_2 by done.
      assert (new_entries (hash_bytes c) c = Ok (replicate (Z.to_nat c) (clear_key KVP_new))) as ->.
      { unfold new_entries, hash_room. rewrite Hbytes, (proj2 (Z.leb_le _ _)); [done|].
        apply Z.div_le_lower_bound; lia. }
      apply runs_bind. eapply runs_lift'; [done|]. apply runs_bind, runs_modify, runs_bind.
      eapply runs_modify_queue; [exact Hq|]. apply runs_bind.
      eapply runs_modify_queue; [simpl; apply lookup_insert_eq|]. apply runs_ret.
      split; [by constructor|]. exists (p :: extra), ((new_hash p, ∅) :: (main, known) :: ts).
      assert (Hrefs' : table_refs this (p :: extra) = new_hash p :: table_refs this extra)
        by (unfold table_refs; by rewrite (proj2 (Z.eqb_neq _ _) Hsize)).
      assert (Hfresh : new_hash p ∉ ((main, known) :: ts).*1).
      { rewrite Hrefs. unfold table_refs. rewrite (proj2 (Z.eqb_neq _ _) Hsize).
        intros [(a & [= <-] & Ha)%list_elem_of_fmap|[=]%list_elem_of_singleton]%elem_of_app.
        apply Hnot. unfold all_raws. set_solver. }
      split_and!.
      * unfold set_queues. simpl. rewrite insert_insert_eq.
        exact (heap_hashes _ _ _ _ _ (<[new_hash p := _]> (hashes w)) (heap_queue _ _ _
          (set_resizing false (set_hash (Some (new_hash p)) q)) _ _ Hheap' eq_refl eq_refl)).
      * csimpl in *. by rewrite Hrefs', <- Hrefs.
      * split; [by apply new_table; [..|lia]|]. simpl. eexists _, _, _. rewrite lookup_insert_eq.
        split_and!; [done..|simpl; lia].
  - apply runs_bind. eapply runs_modify_queue; [exact Hq|]. apply runs_ret. split; [by constructor|].
    exists extra, ((main, known) :: ts). split_and!; [|done|].
    + replace (set_hash (Some main) q) with q by (rewrite <- Hmain; by destruct q). by apply (heap_queue _ _ q).
    + split; [done|]. eexists _, _, _. split_and!; [done..|]. pose proof (Z.mul_div_le (hash_capacity h) 2 eq_refl). lia.
Qed.

(** ** A producer that nobody uses, or a new one *)
Definition idle (k : bool) s : Prop := inactive (s_node s) = true ∧ isExplicit (s_node s) = k.

Definition new_slot (k : bool) p s : Prop :=
  tag_of s = mkTag p k false 0 ∧ s_items s = [] ∧ s_clean s = true.

Definition gained this q l extra (k : bool) p w' : Prop :=
  ∃ b s, new_slot k p s ∧ (p ∉ addresses l) ∧
    heap_at w' this (set_producers_of p (u32 (producerCount q + 1)) (set_pool_of b q)) (s :: l) extra.

Lemma recycle_runs w this q l extra k : heap_at w this q l extra → ∀ l2 l1 fuel, l = l1 ++ l2 →
  (length l2 ≤ fuel)%nat → (∀ s, s ∈ l1 → ¬ idle k s) →
  runs (recycle_producer (X := X) fuel k (hd 0%nat (addresses l2))) w
    (λ p w', (p = 0%nat ∧ w' = w ∧ ∀ s, s ∈ l → ¬ idle k s) ∨
       ∃ l1 s l2, l = l1 ++ s :: l2 ∧ p = s_addr s ∧ p ≠ 0%nat ∧ idle k s ∧
         w' = set_producers (<[p := set_inactive false (s_node s)]> (producers w)) w)
    (never (A := X)) no_fault.
Proof.
  intros Hheap. induction l2 as [|s l2 IH]; intros l1 fuel Hl Hfuel Hnone.
  { rewrite app_nil_r in Hl. subst l1. destruct fuel; apply runs_ret; left; done. }
  destruct (listed_next _ _ _ (addresses l1) (s_addr s) (addresses l2) (hp_list _ _ _ _ _ Hheap)
    (hp_nodup _ _ _ _ _ Hheap)) as (s' & Hs' & Heq & Hne & Hlook & Hnext);
    [rewrite Hl; unfold addresses; by rewrite fmap_app|].
  assert (Hlook' : producers w !! s_addr s = Some (s_node s)).
  { eapply listed_lookup; [exact (hp_list _ _ _ _ _ Hheap)|]. rewrite Hl. set_solver. }
  assert (s_node s' = s_node s) as Hsame by congruence. rewrite Hsame in Hnext.
  destruct fuel as [|fuel]; [simpl in Hfuel; lia|]. change (hd 0%nat (addresses (s :: l2))) with (s_addr s).
  cbn [recycle_producer]. rewrite bool_decide_eq_false_2 by done.
  apply runs_bind. eapply runs_load_producer; [exact Hlook'|].
  destruct (inactive (s_node s) && eqb (isExplicit (s_node s)) k) eqn:E.
  - apply andb_prop in E as [Hi Hk%eqb_prop]. apply runs_bind. eapply runs_modify_producer; [exact Hlook'|].
    apply runs_ret. right. by exists l1, s, l2.
  - rewrite Hnext. apply (IH (l1 ++ [s])); [by rewrite <- app_assoc|simpl in Hfuel; lia|].
    intros s1 [Hin| ->%list_elem_of_singleton]%elem_of_app; [by apply Hnone|]. intros [Hi Hk].
    rewrite Hi, Hk, eqb_reflx in E. done.
Qed.

Lemma create_new_runs w this q l extra (k : bool) : heap_at w this q l extra →
  runs ((if k then create_explicit (X := X) this else create_implicit this) ≫= add_producer this) w
    (λ p w', same_but w w' ∧ if bool_decide (p = 0%nat) then out_of_memory ∧ heap_at w' this q l extra
       else gained this q l extra k p w') (never (A := X)) no_fault.
Proof.
  intros Hheap. pose proof ok_producers as [He Hi].
  destruct k.
  - eapply runs_mono; [by eapply (add_new_runs as_explicit Explicit (explicit_ops assign_result nothrow_assign) _ He)|..]; [|done..].
    intros p w' [Hs Hp]. split; [done|]. destruct (bool_decide _); [done|].
    destruct Hp as (Hp & e & b & ring & raws & Hheap').
    exists b. eexists. split; [|by split; [exact Hp|exact Hheap']]. by split_and!.
  - eapply runs_mono; [by eapply (add_new_runs as_implicit Implicit (implicit_ops assign_result nothrow_assign) _ Hi)|..]; [|done..].
    intros p w' [Hs Hp]. split; [done|]. destruct (bool_decide _); [done|].
    destruct Hp as (Hp & e & b & ring & raws & Hheap').
    exists b. eexists. split; [|by split; [exact Hp|exact Hheap']]. by split_and!.
Qed.

Lemma recycle_or_create_runs w this q l extra k : heap_at w this q l extra →
  runs (recycle_or_create_producer (X := X) this k) w
    (λ '(p, recycled) w', if recycled : bool then
         ∃ l1 s l2, l = l1 ++ s :: l2 ∧ p = s_addr s ∧ p ≠ 0%nat ∧ idle k s ∧
           w' = set_producers (<[p := set_inactive false (s_node s)]> (producers w)) w
       else same_but w w' ∧ (∀ s, s ∈ l → ¬ idle k s) ∧
         if bool_decide (p = 0%nat) then out_of_memory ∧ heap_at w' this q l extra else gained this q l extra k p w')
    (never (A := X)) no_fault.
Proof.
  intros Hheap. unfold recycle_or_create_producer.
  apply runs_bind. eapply runs_queue_of; [exact (hp_queue _ _ _ _ _ Hheap)|].
  apply runs_bind, runs_gets, runs_bind. rewrite (listed_head _ _ _ (hp_list _ _ _ _ _ Hheap)).
  eapply runs_mono; [apply (recycle_runs w this q l extra k Hheap l []); [done| |by intros ? ?%elem_of_nil]|..]; [| |done..].
  - eapply listed_size; [exact (hp_list _ _ _ _ _ Hheap)|exact (hp_nodup _ _ _ _ _ Hheap)].
  - intros p w' [(-> & -> & Hnone)|(l1 & s & l2 & Hl & Hp & Hne & Hidle & ->)].
    + rewrite bool_decide_eq_false_2 by (intros []; done). apply runs_bind_assoc, runs_bind.
      eapply runs_mono; [by apply create_new_runs|..]; [|done..]. intros p w' [Hs Hp]. apply runs_ret. done.
    + rewrite bool_decide_eq_true_2 by done. apply runs_ret. by exists l1, s, l2.
Qed.

(** ** The producer of a thread *)
Lemma desk_tables w w' this q q' (tags : list tag) extra extra' ts ts' threads :
  desk_at w this q tags extra ts threads →
  producer_tokens w' = producer_tokens w → consumer_tokens w' = consumer_tokens w →
  producerCount q' = producerCount q → implicitProducerHashResizeInProgress q' = false →
  implicitProducerHashCount q' = implicitProducerHashCount q →
  threads_ok (hashes w') (implicitProducerHash q') ts' threads → ts'.*1 = table_refs this extra' →
  (INITIAL_IMPLICIT_PRODUCER_HASH_SIZE = 0 → extra' = []) →
  desk_at w' this q' tags extra' ts' threads.
Proof.
  intros [] Hp Hc Hcount Hres Hhc Hthr Hrefs Hex. constructor; rewrite ?Hp, ?Hc; try done; congruence.
Qed.

Lemma desk_new_thread w w' this q q' (tags : list tag) extra extra' ts ts' threads id p :
  desk_at w this q tags extra ts threads →
  producer_tokens w' = producer_tokens w → consumer_tokens w' = consumer_tokens w →
  producerCount q' = u32 (producerCount q + 1) → implicitProducerHashResizeInProgress q' = false →
  implicitProducerHashCount q' = Z.of_nat (size threads) + 1 →
  threads_ok (hashes w') (implicitProducerHash q') ts' (<[id := p]> threads) → ts'.*1 = table_refs this extra' →
  INITIAL_IMPLICIT_PRODUCER_HASH_SIZE ≠ 0 → p ∉ t_addr <$> tags → threads !! id = None →
  desk_at w' this q' (mkTag p false false 0 :: tags) extra' ts' (<[id := p]> threads).
Proof.
  intros [Dc _ _ _ _ _ Dthr Dwr Down Dim Dex Dtok Dheld Dcon] Hp Hc Hcount Hres Hhc Hthr Hrefs Hsz Hnot Hnone.
  assert (Hother : ∀ id' v, threads !! id' = Some v → v ≠ p).
  { intros id' v Hv ->. apply Hnot. apply list_elem_of_fmap. eexists. split; [|by eapply Dthr]. done. }
  constructor; rewrite ?Hp, ?Hc; try done.
  - rewrite Hcount, Dc, u32_succ. f_equal. simpl. lia.
  - rewrite Hhc, map_size_insert_None by done. lia.
  - intros id' v [[-> ->]|[Hne Hv]]%lookup_insert_Some; [by left|right; by eapply Dthr].
  - intros t [->|Ht]%elem_of_cons He; [exists id; apply lookup_insert_eq|].
    destruct (Dwr t Ht He) as [id' Hid']. exists id'. rewrite lookup_insert_ne; [done|]. intros ->. congruence.
  - intros id1 id2 v [[-> ->]|[? Hv]]%lookup_insert_Some [[-> Hp']|[? Hv']]%lookup_insert_Some; [done|..].
    + by destruct (Hother _ _ Hv').
    + subst v. by destruct (Hother _ _ Hv).
    + by eapply Down.
  - intros t [->|Ht]%elem_of_cons; [done|by apply Dim].
  - intros t [->|Ht]%elem_of_cons; [done|by apply Dex].
  - intros t [->|Ht]%elem_of_cons; [done|by apply Dtok].
  - intros k p' Hk Hp'. destruct (Dheld k p' Hk Hp'). split; [done|by right].
  - intros k c Hk Hd. destruct (Dcon k c Hk Hd). csimpl. set_solver.
Qed.

(** What becomes of the table before the producer is put into it. *)
Definition widened w this q l extra threads newCount (r : option hash_ref) w' : Prop :=
  same_desk w w' ∧
  match r with
  | None => out_of_memory ∧ hashes w' = hashes w ∧ heap_at w' this
      (set_resizing false (set_hashCount (u64 (implicitProducerHashCount q - 1)) q)) l extra
  | Some main' => ∃ extra' ts', heap_at w' this (set_resizing false (set_hash (Some main') q)) l extra' ∧
      ts'.*1 = table_refs this extra' ∧ room_in (hashes w') main' ts' threads newCount
  end.

Lemma widen_runs w this q l extra ts threads main known ts1 h newCount :
  heap_at w this q l extra → implicitProducerHash q = Some main → threads_ok (hashes w) (Some main) ts threads →
  ts.*1 = table_refs this extra → INITIAL_IMPLICIT_PRODUCER_HASH_SIZE ≠ 0 →
  newCount = Z.of_nat (size threads) + 1 → newCount ≤ 2 ^ 32 →
  implicitProducerHashResizeInProgress q = false → ts = (main, known) :: ts1 → hashes w !! main = Some h →
  runs (if Z.shiftr (hash_capacity h) 1 <=? newCount then
          on_queue (X := X) this (modify (set_resizing true)) ;;
          if implicitProducerHashResizeInProgress q then mret (Some main) else grow_hash this newCount
        else mret (Some main)) w
    (widened w this q l extra threads newCount) (never (A := X)) no_fault.
Proof.
  intros Hheap Hmain Hthr Hrefs Hsize Hn Hmax Hres Hts Hh. rewrite shiftr_half.
  destruct (Z.leb_spec (hash_capacity h / 2) newCount) as [Hle|Hlt].
  - apply runs_bind. eapply runs_modify_queue; [exact (hp_queue _ _ _ _ _ Hheap)|]. rewrite Hres.
    eapply runs_mono; [eapply (grow_hash_runs _ this (set_resizing true q) l extra ts threads main newCount);
      [by apply (heap_queue _ _ q)|done..]|..]; [|done..].
    intros r w' [[] Hr]. split; [by constructor|]. by destruct r.
  - apply runs_ret. split; [by constructor|]. exists extra, ts. split_and!; [|done|].
    + assert (set_resizing false (set_hash (Some main) q) = q) as -> by (rewrite <- Hmain, <- Hres; by destruct q).
      done.
    + split; [done|]. eexists _, _, _. split_and!; [done..|]. pose proof (Z.mul_div_le (hash_capacity h) 2 eq_refl). lia.
Qed.

Lemma room_below c n : pow2 c → 1 ≤ n → 2 * n < c → n < u64 (Z.shiftr c 1 + Z.shiftr c 2).
Proof.
  intros Hp Hn Hc. pose proof (pow2_bounds _ Hp). rewrite shiftr_half, (Z.shiftr_div_pow2 c 2) by done.
  pose proof (Z.div_pos c (2 ^ 2)). pose proof (Z.mul_div_le c 2 eq_refl). pose proof (Z.mul_div_le c (2 ^ 2) eq_refl).
  pose proof (Z.mul_succ_div_gt c 2 eq_refl). pose proof (Z.mul_succ_div_gt c (2 ^ 2) eq_refl).
  rewrite u64_small by lia. pose proof (pow2_half c Hp). lia.
Qed.

(** The producer that thread [id] uses from then on; 0 if there was no memory. *)
Definition assigned w this l threads (id : Z) p w' : Prop :=
  ∃ q' extra' ts', kept w w' ∧
    (threads !! id = Some p ∧ queue_at (X := X) w' this q' l extra' ts' threads ∨
     threads !! id = None ∧ p = 0%nat ∧ out_of_memory ∧ queue_at (X := X) w' this q' l extra' ts' threads ∨
     threads !! id = None ∧ ∃ s, new_slot false p s ∧ p ≠ 0%nat ∧ (p ∉ addresses l) ∧
       queue_at (X := X) w' this q' (s :: l) extra' ts' (<[id := p]> threads)).

Lemma insert_producer_runs w this q l extra ts threads id main newCount :
  queue_at (X := X) w this q l extra ts threads → zlen l < 2 ^ 32 →
  INITIAL_IMPLICIT_PRODUCER_HASH_SIZE ≠ 0 → implicitProducerHash q = Some main →
  id ≠ 0 → threads !! id = None → newCount = Z.of_nat (size threads) + 1 →
  runs (insert_producer (X := X) 1 this id newCount main)
    (set_queues (<[this := set_hashCount newCount q]> (queues w)) w)
    (assigned w this l threads id) (never (A := X)) no_fault.
Proof.
  intros [Hheap Hdesk] Hlen Hsize Hmain Hid Hnone Hn. pose proof (threads_bound _ _ _ _ _ _ _ Hdesk) as Hbound.
  assert (Hmax : newCount ≤ 2 ^ 32) by (unfold zlen in Hlen; lia).
  pose proof (dk_threads _ _ _ _ _ _ _ Hdesk) as Hthr. rewrite Hmain in Hthr.
  pose proof (th_chain _ _ _ _ Hthr) as Hc. destruct ts as [|[r known] ts1] eqn:Ets; [done|].
  destruct Hc as ([= <-] & h & kvs & Hh & _). rewrite <- Ets in *.
  cbn [insert_producer]. apply runs_bind. eapply runs_load_hash; [exact Hh|].
  apply runs_bind. eapply runs_queue_of; [simpl; apply lookup_insert_eq|]. apply runs_bind.
  eapply runs_mono; [eapply (widen_runs _ this (set_hashCount newCount q) l extra ts threads main known ts1 h newCount);
    [by apply (heap_queue _ _ q)|done|done|by apply (dk_refs _ _ _ _ _ _ _ Hdesk)|done..|
     exact (dk_resizing _ _ _ _ _ _ _ Hdesk)|done|done]|..]; [|done..].
  intros grown w1 [[Hp1 Ht1 Hc1 Hl1] Hg]. simpl in *. destruct grown as [main'|].
  2: { destruct Hg as (Hfull & Hh1 & Hheap1). apply runs_ret. eexists _, extra, ts. split; [by constructor; congruence|].
    right; left. split; [done|]. split; [done|]. split; [done|]. split; [exact Hheap1|].
    eapply desk_tables; [exact Hdesk|done..| |by rewrite Hh1; simpl; rewrite Hmain|by apply (dk_refs _ _ _ _ _ _ _ Hdesk)|done].
    simpl. rewrite (dk_hashCount _ _ _ _ _ _ _ Hdesk). rewrite u64_small; lia. }
  destruct Hg as (extra' & ts' & Hheap1 & Hrefs' & Hthr' & known' & ts1' & h' & Hts' & Hh' & Hroom).
  pose proof (th_chain _ _ _ _ Hthr') as Hc'. rewrite Hts' in Hc'. destruct Hc' as (_ & h2 & kvs' & Hh2 & Htab' & _).
  assert (h2 = h') as -> by congruence.
  apply runs_bind. eapply runs_load_hash; [exact Hh'|].
  rewrite (proj2 (Z.ltb_lt _ _)) by (apply room_below; [by eapply to_pow|lia|done]).
  assert (Hextra : INITIAL_IMPLICIT_PRODUCER_HASH_SIZE = 0 → extra' = []) by done.
  apply runs_bind. eapply runs_mono; [by eapply recycle_or_create_runs|..]; [|done..].
  intros [p recycled] w2 Hp. destruct recycled.
  { destruct Hp as (l1 & s & l2 & -> & _ & _ & [Hi Hk] & _).
    destruct (dk_implicit _ _ _ _ _ _ _ Hdesk (tag_of s)) as [Hi' _]; [|exact Hk|simpl in Hi'; congruence].
    rewrite fmap_app. csimpl. set_solver. }
  destruct Hp as ([Hh3 Hp3 Hc3 Hl3] & _ & Hp). destruct (decide (p = 0%nat)) as [->|Hne].
  - rewrite bool_decide_eq_true_2 in Hp by done. destruct Hp as [Hfull Hp].
    rewrite bool_decide_eq_true_2 by done. apply runs_bind.
    eapply runs_modify_queue; [exact (hp_queue _ _ _ _ _ Hp)|]. apply runs_ret. eexists _, extra', ts'.
    split; [by constructor; simpl; congruence|]. right; left. split; [done|]. split; [done|]. split; [done|].
    split; [by apply (heap_queue _ _ _ _ _ _ Hp)|].
    eapply desk_tables; [exact Hdesk|simpl; congruence|simpl; congruence|done|done| |by simpl; rewrite Hh3|done|done].
    simpl. rewrite (dk_hashCount _ _ _ _ _ _ _ Hdesk). rewrite u64_small; lia.
  - rewrite bool_decide_eq_false_2 in Hp by done. rewrite bool_decide_eq_false_2 by done.
    destruct Hp as (b & s & (Htag & Hitems & Hclean) & Hpa & Hheap2).
    apply runs_bind, runs_ret, runs_bind.
    assert (Hk : known' ⊆ threads) by (apply (th_sub _ _ _ _ Hthr' main'); rewrite Hts'; by left).
    assert (Hkid : known' !! id = None).
    { destruct (known' !! id) eqn:E; [|done]. by rewrite (lookup_weaken _ _ _ _ E Hk) in Hnone. }
    pose proof (map_subseteq_size _ _ Hk).
    eapply claim_slot_runs; [by rewrite Hh3|exact Htab'|done|done|lia|].
    intros h3 kvs3 Hcap Hprev Htab3. apply runs_ret. eexists _, extra', ((main', <[id := p]> known') :: ts1').
    split; [by constructor; simpl; congruence|]. right; right. split; [done|]. exists s.
    split; [by split_and!|]. split; [done|]. split; [done|]. split; [by apply heap_hashes|]. csimpl. rewrite Htag.
    eapply desk_new_thread; [exact Hdesk|simpl; congruence|simpl; congruence|done|done|by rewrite <- Hn| | |done| |done].
    + simpl. rewrite Hh3. rewrite Hts' in Hthr'.
      eapply threads_claim; [exact Hthr'|exact Hh'|exact Hprev|exact Htab3|..].
      * by apply insert_subseteq.
      * by apply insert_subseteq.
      * by apply insert_mono.
      * intros id' v [[-> ->]|[? Hv]]%lookup_insert_Some; [right; apply lookup_insert_eq|by left].
      * rewrite map_size_insert_None by done. rewrite Hcap. lia.
    + by rewrite Hts' in Hrefs'.
    + by rewrite <- list_fmap_compose.
Qed.

Lemma get_or_add_runs w this q l extra ts threads id :
  queue_at (X := X) w this q l extra ts threads → zlen l < 2 ^ 32 →
  INITIAL_IMPLICIT_PRODUCER_HASH_SIZE ≠ 0 → id ≠ 0 →
  runs (get_or_add_implicit_producer (X := X) this id) w (assigned w this l threads id) (never (A := X)) no_fault.
Proof.
  intros Hat Hlen Hsize Hid. pose proof Hat as [Hheap Hdesk].
  pose proof (threads_bound _ _ _ _ _ _ _ Hdesk) as Hbound.
  pose proof (dk_threads _ _ _ _ _ _ _ Hdesk) as Hthr. pose proof (dk_refs _ _ _ _ _ _ _ Hdesk) as Hrefs.
  destruct ts as [|[main known] ts1].
  { unfold table_refs in Hrefs. rewrite (proj2 (Z.eqb_neq _ _) Hsize) in Hrefs. by destruct extra. }
  pose proof (th_chain _ _ _ _ Hthr) as Hc. destruct Hc as (Hmain & _). rewrite Hmain in Hthr.
  apply runs_bind. eapply runs_queue_of; [exact (hp_queue _ _ _ _ _ Hheap)|]. rewrite Hmain.
  apply runs_bind, runs_gets, runs_bind.
  eapply find_producer_runs; [exact Hid|exact Hthr| |].
  { pose proof (chain_size _ _ _ (th_chain _ _ _ _ Hthr) (th_nodup _ _ _ _ Hthr)) as Hs. simpl in Hs. lia. }
  destruct (threads !! id) as [v|] eqn:Ev.
  - intros hs' m' Hthr'. apply runs_ret. exists q, extra, ((main, m') :: ts1).
    split; [by constructor|]. left. split; [done|]. split; [by apply heap_hashes|].
    eapply desk_tables; [exact Hdesk|done..|exact (dk_resizing _ _ _ _ _ _ _ Hdesk)|done|by rewrite Hmain|done|].
    exact (dk_extra _ _ _ _ _ _ _ Hdesk).
  - assert (Hcount : implicitProducerHashCount q = Z.of_nat (size threads)) by exact (dk_hashCount _ _ _ _ _ _ _ Hdesk).
    apply runs_bind. eapply runs_modify_queue; [exact (hp_queue _ _ _ _ _ Hheap)|].
    rewrite Hcount, (Z.add_comm 1), u64_small by (unfold zlen in Hlen; lia).
    by eapply insert_producer_runs.
Qed.

(** ** Tokens *)
Definition with_node (n : Producer) s : slot := mkSlot (s_addr s) n (s_ring s) (s_raws s) (s_items s) (s_clean s).

Lemma heap_retag w this q l1 s l2 extra n : heap_at w this q (l1 ++ s :: l2) extra →
  subqueue n = subqueue (s_node s) → next_prod n = next_prod (s_node s) → parent n = parent (s_node s) →
  heap_at (set_producers (<[s_addr s := n]> (producers w)) w) this q (l1 ++ with_node n s :: l2) extra.
Proof.
  intros [Hq Hl Hnd Hh Hm Hr] Hsub Hnext Hpar.
  assert (Ha : addresses (l1 ++ with_node n s :: l2) = addresses (l1 ++ s :: l2))
    by (unfold addresses; by rewrite !fmap_app).
  assert (Hrings : rings (l1 ++ with_node n s :: l2) = rings (l1 ++ s :: l2))
    by (unfold rings; by rewrite !bind_app).
  assert (Hraws : all_raws (l1 ++ with_node n s :: l2) extra = all_raws (l1 ++ s :: l2) extra)
    by (unfold all_raws; rewrite Ha; by rewrite !bind_app).
  constructor; simpl; rewrite ?Ha, ?Hrings, ?Hraws; try done.
  - by apply listed_update.
  - intros s0 [Hin|[->|Hin]%elem_of_cons]%elem_of_app; [apply Hh; set_solver| |apply Hh; set_solver].
    simpl. rewrite Hsub, Hpar. apply Hh. set_solver.
Qed.

(** The tag [x] of a producer with a token, or without one, is replaced by [mkTag _ true _ k]. *)
Lemma desk_retag w w' this q (T1 T2 : list tag) x k extra ts threads :
  desk_at w this q (T1 ++ x :: T2) extra ts threads → NoDup (t_addr <$> T1 ++ x :: T2) →
  0%nat ∉ t_addr <$> T1 ++ x :: T2 → t_explicit x = true →
  hashes w' = hashes w → consumer_tokens w' = consumer_tokens w →
  (k ≠ 0%nat → producer_tokens w' !! k = Some (t_addr x)) →
  (∀ k' p, p ≠ 0%nat → producer_tokens w' !! k' = Some p →
     k' = k ∧ k ≠ 0%nat ∧ p = t_addr x ∨ k' ≠ t_token x ∧ producer_tokens w !! k' = Some p) →
  (∀ k' p, k' ≠ t_token x → p ≠ 0%nat → producer_tokens w !! k' = Some p → producer_tokens w' !! k' = Some p) →
  desk_at w' this q (T1 ++ mkTag (t_addr x) true (bool_decide (k = 0%nat)) k :: T2) extra ts threads.
Proof.
  intros Hdesk Hnd Hnull Hx Hh Hc Hk Hnew Hold. set (y := mkTag _ _ _ _).
  assert (Hout : ∀ z, z ∈ T1 ++ y :: T2 → z = y ∨ z ∈ T1 ++ x :: T2 ∧ t_addr z ≠ t_addr x).
  { intros z Hz. rewrite fmap_app in Hnd. csimpl in Hnd. apply NoDup_app in Hnd as (_ & H1 & [H2 _]%NoDup_cons).
    apply elem_of_app in Hz as [Hz|[->|Hz]%elem_of_cons]; [right|by left|right].
    - split; [set_solver|]. intros Heq. apply (H1 (t_addr z)); [by apply list_elem_of_fmap_2|rewrite Heq; by left].
    - split; [set_solver|]. intros Heq. apply H2. rewrite <- Heq. by apply list_elem_of_fmap_2. }
  assert (Hin : ∀ z, z ∈ T1 ++ x :: T2 → z ≠ x → z ∈ T1 ++ y :: T2) by (intros z; set_solver).
  assert (Haddr : t_addr <$> T1 ++ y :: T2 = t_addr <$> T1 ++ x :: T2) by by rewrite !fmap_app.
  assert (Hxin : x ∈ T1 ++ x :: T2) by set_solver.
  destruct Hdesk as [Dc Dr Dth Dhc Dre Dxt Dthr Dwr Down Dim Dex Dtok Dheld Dcon].
  constructor; rewrite ?Hh, ?Hc, ?Haddr; try done.
  - by rewrite Dc, !length_app.
  - intros id v Hv. apply Hin; [by eapply Dthr|]. intros <-. done.
  - intros z [->|[Hz _]]%Hout He; [done|]. by apply Dwr.
  - intros z [->|[Hz _]]%Hout He; [done|]. by apply Dim.
  - intros z [->|[Hz _]]%Hout He; [done|]. by apply Dex.
  - intros z [->|[Hz Hne]]%Hout He; [by apply Hk|]. pose proof (Dtok z Hz He) as Hp.
    apply Hold; [|by intros Hz0; apply Hnull, list_elem_of_fmap; exists z|done]. intros Heq. apply Hne. pose proof (Dtok x Hxin) as Hpx. rewrite <- Heq in Hpx.
    specialize (Hpx He). congruence.
  - intros k' p Hp Hp0. destruct (Hnew k' p Hp0 Hp) as [(-> & Hk0 & ->)|[Hne Hp']].
    + split; [done|]. assert (mkTag (t_addr x) true false k = y) as -> by (unfold y; by rewrite bool_decide_eq_false_2).
      set_solver.
    + destruct (Dheld k' p Hp' Hp0) as [Hk0 Hz]. split; [done|]. apply Hin; [done|]. intros <-. by apply Hne.
Qed.

Lemma heap_ptokens w this q l extra pt : heap_at w this q l extra → heap_at (set_producer_tokens pt w) this q l extra.
Proof. by intros []. Qed.

Lemma desk_new_idle w w' this q q' (tags : list tag) extra ts threads p :
  desk_at w this q tags extra ts threads → hashes w' = hashes w → producer_tokens w' = producer_tokens w →
  consumer_tokens w' = consumer_tokens w → producerCount q' = u32 (producerCount q + 1) →
  implicitProducerHash q' = implicitProducerHash q → implicitProducerHashCount q' = implicitProducerHashCount q →
  implicitProducerHashResizeInProgress q' = implicitProducerHashResizeInProgress q →
  desk_at w' this q' (mkTag p true true 0 :: tags) extra ts threads.
Proof.
  intros [Dc Dr Dth Dhc Dre Dxt Dthr Dwr Down Dim Dex Dtok Dheld Dcon] Hh Hp Hc Hcount Hhash Hhc Hres.
  constructor; rewrite ?Hh, ?Hp, ?Hc, ?Hhash, ?Hhc, ?Hres; try done.
  - rewrite Hcount, Dc, u32_succ. f_equal. simpl. lia.
  - intros id v Hv. right. by eapply Dthr.
  - intros t [->|Ht]%elem_of_cons; [done|by apply Dwr].
  - intros t [->|Ht]%elem_of_cons; [done|by apply Dim].
  - intros t [->|Ht]%elem_of_cons; [done|by apply Dex].
  - intros t [->|Ht]%elem_of_cons; [done|by apply Dtok].
  - intros k p' Hk Hp'. destruct (Dheld k p' Hk Hp'). split; [done|by right].
  - intros k c Hk Hd. destruct (Dcon k c Hk Hd). csimpl. set_solver.
Qed.

Lemma addresses_tags l : t_addr <$> (tag_of (T := T) <$> l) = addresses l.
Proof. by rewrite <- list_fmap_compose. Qed.

Lemma heap_not_null w this q l extra : heap_at w this q l extra → 0%nat ∉ addresses l.
Proof.
  intros Hheap (s & Hs & Hin)%list_elem_of_fmap.
  destruct (listed_lookup _ _ _ s (hp_list _ _ _ _ _ Hheap) Hin) as [Hne _]. by destruct Hne.
Qed.

(** The token [t] has been made, for the producer [p]. *)
Definition token_made w this l extra ts threads t p w' : Prop :=
  ∃ q', lost (memory w') = lost (memory w) ∧ consumer_tokens w' = consumer_tokens w ∧
    producer_tokens w' = <[t := p]> (producer_tokens w) ∧
    ((∃ l1 s l2 s', l = l1 ++ s :: l2 ∧ idle true s ∧ p = s_addr s ∧
        brief s' = (mkTag p true false t, s_items s, s_clean s) ∧
        queue_at (X := X) w' this q' (l1 ++ s' :: l2) extra ts threads) ∨
     (∀ s, s ∈ l → ¬ idle true s) ∧
       (p = 0%nat ∧ out_of_memory ∧ queue_at (X := X) w' this q' l extra ts threads ∨
        p ≠ 0%nat ∧ (p ∉ addresses l) ∧ ∃ s', brief s' = (mkTag p true false t, [], true) ∧
          queue_at (X := X) w' this q' (s' :: l) extra ts threads)).

(** A token for a producer that has none. *)
Lemma take_token w w' this q l1 s l2 n extra ts threads t :
  heap_at w this q (l1 ++ s :: l2) extra →
  desk_at w this q (tag_of <$> l1 ++ with_node n s :: l2) extra ts threads →
  isExplicit n = true → token n = 0%nat → t ≠ 0%nat → producer_tokens w !! t = None →
  subqueue n = subqueue (s_node s) → next_prod n = next_prod (s_node s) → parent n = parent (s_node s) →
  w' = set_producers (<[s_addr s := set_token t (set_inactive false n)]> (producers w))
         (set_producer_tokens (<[t := s_addr s]> (producer_tokens w)) w) →
  queue_at (X := X) w' this q (l1 ++ with_node (set_token t (set_inactive false n)) s :: l2) extra ts threads.
Proof.
  intros Hheap Hdesk He Htok Ht Hfresh Hsub Hnext Hpar ->. split.
  - exact (heap_ptokens _ _ _ _ _ _ (heap_retag _ _ _ _ _ _ _ (set_token t (set_inactive false n)) Hheap Hsub Hnext Hpar)).
  - assert (Haddr : t_addr <$> (tag_of <$> l1 ++ with_node n s :: l2) = addresses (l1 ++ s :: l2))
      by (rewrite addresses_tags; unfold addresses; by rewrite !fmap_app).
    pose proof (hp_nodup _ _ _ _ _ Hheap) as Hnd. pose proof (heap_not_null _ _ _ _ _ Hheap) as Hnull.
    rewrite <- Haddr in Hnd, Hnull. rewrite !(fmap_app tag_of) in *. csimpl in *.
    pose proof (desk_retag w (set_producers (<[s_addr s := set_token t (set_inactive false n)]> (producers w))
      (set_producer_tokens (<[t := s_addr s]> (producer_tokens w)) w)) this q _ _ _ t
      extra ts threads Hdesk Hnd Hnull) as Hre.
    rewrite bool_decide_eq_false_2 in Hre by done.
    assert (Htag : tag_of (with_node (set_token t (set_inactive false n)) s) = mkTag (s_addr s) true false t)
      by (unfold tag_of; simpl; f_equal; exact He).
    rewrite Htag. apply Hre; simpl; try done.
    + intros _. apply lookup_insert_eq.
    + intros k' p Hp [[-> ->]|[Hne Hk']]%lookup_insert_Some; [by left|right]. rewrite Htok.
      by destruct (dk_held _ _ _ _ _ _ _ Hdesk k' p Hk' Hp).
    + intros k' p _ _ Hk'. rewrite lookup_insert_ne; [done|]. intros ->. congruence.
Qed.

Lemma ProducerToken_ctor_runs w this q l extra ts threads t :
  queue_at (X := X) w this q l extra ts threads → t ≠ 0%nat → producer_tokens w !! t = None →
  runs (ProducerToken_ctor (X := X) this t) w (λ _ w', ∃ p, token_made w this l extra ts threads t p w')
    (never (A := X)) no_fault.
Proof.
  intros [Hheap Hdesk] Ht Hfresh. apply runs_bind.
  eapply runs_mono; [by eapply recycle_or_create_runs|..]; [|done..].
  intros [p recycled] w1 Hp. apply runs_bind, runs_modify. destruct recycled.
  - destruct Hp as (l1 & s & l2 & -> & -> & Hne & [Hi Hk] & ->). rewrite bool_decide_eq_true_2 by done.
    eapply runs_modify_producer; [simpl; apply lookup_insert_eq|]. exists (s_addr s), q.
    split; [done|]. split; [done|]. split; [done|]. left.
    assert (Hex : t_explicit (tag_of s) = true) by done.
    assert (Htok : token (s_node s) = 0%nat).
    { apply (bool_decide_eq_true (token (s_node s) = 0%nat)). rewrite <- Hi. symmetry.
      apply (dk_explicit _ _ _ _ _ _ _ Hdesk (tag_of s)); [|done]. rewrite fmap_app. csimpl. set_solver. }
    eexists l1, s, l2, _. split; [done|]. split; [done|]. split; [done|]. split; cycle 1.
    + eapply (take_token w _ this q l1 s l2 (s_node s) extra ts threads t); [exact Hheap| |done..|].
      * by replace (with_node (s_node s) s) with s by by destruct s.
      * unfold set_producers, set_producer_tokens. simpl. by rewrite insert_insert_eq.
    + unfold brief, tag_of. simpl. do 3 f_equal. exact Hk.
  - destruct Hp as ([Hh1 Hp1 Hc1 Hl1] & Hnone & Hp). destruct (decide (p = 0%nat)) as [->|Hne].
    + rewrite bool_decide_eq_true_2 in Hp by done. destruct Hp as [Hfull Hp].
      rewrite bool_decide_eq_false_2 by (intros []; done). apply runs_ret. exists 0%nat, q. split; [done|]. split; [done|]. split; [simpl; by rewrite Hp1|]. right.
      split; [done|]. left. split; [done|]. split; [done|]. split; [by apply heap_ptokens|].
      destruct Hdesk as [Dc Dr Dth Dhc Dre Dxt Dthr Dwr Down Dim Dex Dtok Dheld Dcon].
      constructor; simpl; rewrite ?Hh1, ?Hp1, ?Hc1; try done.
      * intros z Hz Hz0. rewrite lookup_insert_ne; [by apply Dtok|]. intros ->. by rewrite Dtok in Hfresh.
      * intros k p [[-> ->]|[? Hk]]%lookup_insert_Some; [done|]. by apply Dheld.
    + rewrite bool_decide_eq_false_2 in Hp by done. rewrite bool_decide_eq_true_2 by done.
      destruct Hp as (b & s & (Htag & Hitems & Hclean) & Hpa & Hheap1).
      assert (p = s_addr s) as -> by exact (eq_sym (f_equal t_addr Htag)).
      eapply runs_modify_producer.
      { simpl. eapply listed_lookup; [exact (hp_list _ _ _ _ _ Hheap1)|by left]. }
      eexists (s_addr s), _. split; [done|]. split; [done|]. split; [simpl; by rewrite Hp1|]. right.
      split; [done|]. right. split; [done|]. split; [done|].
      assert (Hin : inactive (s_node s) = false) by exact (f_equal t_inactive Htag).
      assert (Htok : token (s_node s) = 0%nat) by exact (f_equal t_token Htag).
      assert (Hex : isExplicit (s_node s) = true) by exact (f_equal t_explicit Htag).
      eexists. split; cycle 1.
      * eapply (take_token w1 _ this _ [] s l (set_inactive true (s_node s)) extra ts threads t); [exact Hheap1| |done|done|done|by rewrite Hp1|done|done|done|].
        -- simpl. assert (tag_of (with_node (set_inactive true (s_node s)) s) = mkTag (s_addr s) true true 0) as ->
             by (unfold tag_of; simpl; by f_equal).
           by eapply desk_new_idle.
        -- unfold set_producers, set_producer_tokens. simpl. do 2 f_equal. unfold set_inactive, set_token. simpl.
           by rewrite Hin.
      * unfold brief, tag_of. simpl. rewrite Hitems, Hclean. do 3 f_equal. exact Hex.
Qed.

(** *** Tokens that are moved, swapped or destroyed *)
Definition content s : nat * list T * bool := (s_addr s, s_items s, s_clean s).

Lemma held_slot w this q l extra ts threads t p : queue_at (X := X) w this q l extra ts threads →
  producer_tokens w !! t = Some p → p ≠ 0%nat →
  ∃ l1 s l2, l = l1 ++ s :: l2 ∧ tag_of s = mkTag p true false t ∧ producers w !! p = Some (s_node s).
Proof.
  intros [Hheap Hdesk] Ht Hp. destruct (dk_held _ _ _ _ _ _ _ Hdesk t p Ht Hp) as [_ Hin].
  apply list_elem_of_fmap in Hin as (s & Hs & Hin). pose proof Hin as (l1 & l2 & ->)%list_elem_of_split.
  exists l1, s, l2. split; [done|]. split; [done|]. assert (p = s_addr s) as -> by exact (f_equal t_addr Hs).
  by eapply listed_lookup; [exact (hp_list _ _ _ _ _ Hheap)|].
Qed.

(** Token [t] gives its producer to token [k], or to none. *)
Lemma retoken w this q l extra ts threads t p k (f : Producer → Producer) pt : queue_at (X := X) w this q l extra ts threads →
  producer_tokens w !! t = Some p → p ≠ 0%nat →
  (∀ n, subqueue (f n) = subqueue n ∧ next_prod (f n) = next_prod n ∧ parent (f n) = parent n ∧ token (f n) = k) →
  (∀ n, inactive n = false → inactive (f n) = bool_decide (k = 0%nat)) →
  (k ≠ 0%nat → pt !! k = Some p) →
  (∀ k' p', p' ≠ 0%nat → pt !! k' = Some p' → k' = k ∧ k ≠ 0%nat ∧ p' = p ∨ k' ≠ t ∧ producer_tokens w !! k' = Some p') →
  (∀ k' p', k' ≠ t → p' ≠ 0%nat → producer_tokens w !! k' = Some p' → pt !! k' = Some p') →
  ∃ n l', producers w !! p = Some n ∧ content <$> l' = content <$> l ∧
    queue_at (X := X) (set_producers (<[p := f n]> (producers w)) (set_producer_tokens pt w)) this q l' extra ts threads.
Proof.
  intros Hat Ht Hp Hf Hi Hk Hnew Hold. pose proof Hat as [Hheap Hdesk].
  destruct (held_slot _ _ _ _ _ _ _ _ _ Hat Ht Hp) as (l1 & s & l2 & -> & Hs & Hn).
  assert (p = s_addr s) as -> by exact (eq_sym (f_equal t_addr Hs)).
  exists (s_node s), (l1 ++ with_node (f (s_node s)) s :: l2). split; [done|].
  split; [by rewrite !fmap_app|]. destruct (Hf (s_node s)) as (Hf1 & Hf2 & Hf3 & Hf4). split.
  - exact (heap_ptokens _ _ _ _ _ _ (heap_retag _ _ _ _ _ _ _ (f (s_node s)) Hheap Hf1 Hf2 Hf3)).
  - pose proof (hp_nodup _ _ _ _ _ Hheap) as Hnd. pose proof (heap_not_null _ _ _ _ _ Hheap) as Hnull.
    rewrite <- addresses_tags in Hnd, Hnull. rewrite !(fmap_app tag_of) in *. csimpl in *. rewrite Hs in *.
    assert (Hin : inactive (s_node s) = false) by exact (f_equal t_inactive Hs).
    assert (tag_of (with_node (f (s_node s)) s) = mkTag (s_addr s) true (bool_decide (k = 0%nat)) k) as ->.
    { unfold tag_of. simpl. rewrite Hf4, (Hi _ Hin). f_equal. unfold isExplicit. rewrite Hf1.
      exact (f_equal t_explicit Hs). }
    by eapply (desk_retag w _ this q _ _ (mkTag (s_addr s) true false t) k).
Qed.

(** All of it is there, only that [pt] are the tokens. *)
Definition tokens_now w this l extra ts threads (pt : gmap nat nat) w' : Prop :=
  ∃ q' l', lost (memory w') = lost (memory w) ∧ consumer_tokens w' = consumer_tokens w ∧
    producer_tokens w' = pt ∧ content <$> l' = content <$> l ∧
    queue_at (X := X) w' this q' l' extra ts threads.

(** A token that is not valid matters to nobody. *)
Lemma blank_tokens w this q l extra ts threads pt : queue_at (X := X) w this q l extra ts threads →
  (∀ k p, p ≠ 0%nat → pt !! k = Some p ↔ producer_tokens w !! k = Some p) →
  queue_at (X := X) (set_producer_tokens pt w) this q l extra ts threads.
Proof.
  intros [Hheap Hdesk] Hpt. pose proof (heap_not_null _ _ _ _ _ Hheap) as Hnull. split; [by apply heap_ptokens|].
  destruct Hdesk as [Dc Dr Dth Dhc Dre Dxt Dthr Dwr Down Dim Dex Dtok Dheld Dcon]. constructor; simpl; try done.
  - intros z Hz Hz0. apply Hpt; [|by apply Dtok]. intros Heq. apply Hnull. rewrite <- Heq, <- addresses_tags.
    by apply list_elem_of_fmap_2.
  - intros k p Hk Hp. apply Dheld; [|done]. by apply Hpt.
Qed.

Lemma runs_producer_of t w p (Q : nat → W → Prop) Qt F : producer_tokens w !! t = Some p → Q p w →
  runs (producer_of (X := X) t) w Q Qt F.
Proof.
  intros Hp HQ. eapply runs_zoom; [by rewrite Hp|]. apply runs_gets. unfold set_producer_tokens, id.
  rewrite insert_id by done. by destruct w.
Qed.

Lemma ProducerToken_dtor_runs w this q l extra ts threads t p :
  queue_at (X := X) w this q l extra ts threads → producer_tokens w !! t = Some p →
  runs (ProducerToken_dtor (X := X) t) w
    (λ _ w', tokens_now w this l extra ts threads (delete t (producer_tokens w)) w') (never (A := X)) no_fault.
Proof.
  intros Hat Ht. apply runs_bind. eapply runs_producer_of; [exact Ht|]. apply runs_bind.
  destruct (decide (p = 0%nat)) as [->|Hp].
  - rewrite bool_decide_eq_false_2 by (intros []; done). apply runs_ret, runs_modify.
    exists q, l. split_and!; [done..|]. apply blank_tokens; [done|]. intros k p Hp.
    rewrite lookup_delete_Some. split; [by intros []|]. intros Hk. split; [|done]. intros ->. congruence.
  - rewrite bool_decide_eq_true_2 by done.
    destruct (retoken w this q l extra ts threads t p 0 (λ n, set_inactive true (set_token 0 n)) (delete t (producer_tokens w)))
      as (n & l' & Hn & Hc & Hat'); [done..| | |].
    { intros k p' Hp' [Hne Hk]%lookup_delete_Some. by right. }
    { intros k p' Hne _ Hk. by rewrite lookup_delete_ne. }
    apply runs_bind. eapply runs_modify_producer; [exact Hn|].
    eapply runs_modify_producer; [simpl; apply lookup_insert_eq|]. apply runs_modify.
    exists q, l'. split_and!; [done..|]. revert Hat'. unfold set_producers, set_producer_tokens. simpl.
    by rewrite insert_insert_eq.
Qed.

Lemma ProducerToken_move_runs w this q l extra ts threads t other p :
  queue_at (X := X) w this q l extra ts threads → producer_tokens w !! other = Some p →
  t ≠ 0%nat → producer_tokens w !! t = None →
  runs (ProducerToken_move (X := X) t other) w
    (λ _ w', tokens_now w this l extra ts threads (<[other := 0%nat]> (<[t := p]> (producer_tokens w))) w')
    (never (A := X)) no_fault.
Proof.
  intros Hat Ho Ht Hfresh. assert (Hne : t ≠ other) by congruence.
  apply runs_bind. eapply runs_producer_of; [exact Ho|]. apply runs_bind, runs_modify, runs_bind.
  eapply runs_zoom; [simpl; by rewrite lookup_insert_ne, Ho|]. apply runs_modify. simpl.
  destruct (decide (p = 0%nat)) as [->|Hp].
  - rewrite bool_decide_eq_false_2 by (intros []; done). apply runs_ret.
    exists q, l. split_and!; [done..|]. apply (blank_tokens w); [done|]. intros k p Hp.
    rewrite !lookup_insert_Some. split.
    + intros [[_ Hz]|[_ [[_ Hz]|[_ Hk]]]]; [by destruct Hp|by destruct Hp|done].
    + intros Hk. right. split; [intros ->; congruence|]. right. split; [intros ->; congruence|done].
  - rewrite bool_decide_eq_true_2 by done.
    destruct (retoken w this q l extra ts threads other p t (set_token t) (<[other := 0%nat]> (<[t := p]> (producer_tokens w))))
      as (n & l' & Hn & Hc & Hat'); [done..| | | | |].
    { intros n Hi. by rewrite bool_decide_eq_false_2. }
    { intros _. rewrite lookup_insert_ne by done. apply lookup_insert_eq. }
    { intros k p' Hp' [[_ <-]|[? [[-> <-]|[? ?]]%lookup_insert_Some]]%lookup_insert_Some; [done|by left|by right]. }
    { intros k p' Hk Hp' Hk'. rewrite lookup_insert_ne by done. rewrite lookup_insert_ne; [done|]. intros ->. congruence. }
    eapply runs_modify_producer; [exact Hn|]. by exists q, l'.
Qed.

Lemma held_apart w this q l extra ts threads t t' p : queue_at (X := X) w this q l extra ts threads →
  producer_tokens w !! t = Some p → producer_tokens w !! t' = Some p → p ≠ 0%nat → t = t'.
Proof.
  intros Hat Ht Ht' Hp. pose proof Hat as [Hheap Hdesk]. pose proof (hp_nodup _ _ _ _ _ Hheap) as Hnd.
  destruct (dk_held _ _ _ _ _ _ _ Hdesk t p Ht Hp) as [_ [i Hi]%list_elem_of_lookup].
  destruct (dk_held _ _ _ _ _ _ _ Hdesk t' p Ht' Hp) as [_ [j Hj]%list_elem_of_lookup].
  rewrite <- addresses_tags in Hnd. assert (i = j) as ->; [|congruence].
  eapply (NoDup_lookup _ _ _ p Hnd); rewrite list_lookup_fmap; [by rewrite Hi|by rewrite Hj].
Qed.

(** Two tokens with producers: a third one, which does not exist, takes part in the proof. *)
Lemma swap_held w this q l extra ts threads t t' p p' :
  queue_at (X := X) w this q l extra ts threads → t ≠ t' →
  producer_tokens w !! t = Some p → producer_tokens w !! t' = Some p' → p ≠ 0%nat → p' ≠ 0%nat →
  ∃ n n' l', producers w !! p = Some n ∧ producers w !! p' = Some n' ∧ p ≠ p' ∧ content <$> l' = content <$> l ∧
    queue_at (X := X) (set_producers (<[p := set_token t' n]> (<[p' := set_token t n']> (producers w)))
      (set_producer_tokens (<[t' := p]> (<[t := p']> (producer_tokens w))) w)) this q l' extra ts threads.
Proof.
  intros Hat Hne Ht Ht' Hp Hp'. assert (Hpp : p ≠ p') by (intros <-; apply Hne; by eapply held_apart).
  set (k := fresh (dom (producer_tokens w) ∪ {[0%nat]})). pose proof (is_fresh (dom (producer_tokens w) ∪ {[0%nat]})) as Hk. fold k in Hk.
  assert (Hk0 : k ≠ 0%nat) by set_solver. assert (Hkpt : (producer_tokens w) !! k = None) by (apply not_elem_of_dom; set_solver).
  assert (t ≠ k ∧ t' ≠ k) as [Hkt Hkt'] by (split; congruence). clear Hk. clearbody k.
  assert (t ≠ 0%nat ∧ t' ≠ 0%nat) as [Ht0 Ht0'].
  { pose proof Hat as [_ Hdesk]. split; by eapply dk_held. }
  destruct (retoken w this q l extra ts threads t p k (set_token k) (<[t := 0%nat]> (<[k := p]> (producer_tokens w))))
    as (n & l1 & Hn & Hc1 & Hat1); [done..| | | | |].
  { intros n Hi. by rewrite bool_decide_eq_false_2. }
  { intros _. by rewrite lookup_insert_ne, lookup_insert_eq. }
  { intros x y Hy. rewrite !lookup_insert_Some. naive_solver. }
  { intros x y Hx Hy Hxy. rewrite !lookup_insert_Some. right. split; [by intros <-|]. right. split; [intros <-; congruence|exact Hxy]. }
  destruct (retoken _ this q l1 extra ts threads t' p' t (set_token t) (<[t' := 0%nat]> (<[t := p']> (<[k := p]> (producer_tokens w)))) Hat1)
    as (n' & l2 & Hn' & Hc2 & Hat2); [simpl; by rewrite !lookup_insert_ne by congruence|done|done|..].
  { intros n' Hi. by rewrite bool_decide_eq_false_2. }
  { intros _. by rewrite lookup_insert_ne, lookup_insert_eq. }
  { simpl. intros x y Hy. rewrite !lookup_insert_Some. naive_solver. }
  { simpl. intros x y Hx Hy. rewrite !lookup_insert_Some. naive_solver. }
  simpl in Hn'. rewrite lookup_insert_ne in Hn' by done.
  destruct (retoken _ this q l2 extra ts threads k p t' (set_token t') (<[t' := p]> (<[t := p']> (producer_tokens w))) Hat2)
    as (n2 & l3 & Hn2 & Hc3 & Hat3); [simpl; by rewrite !lookup_insert_ne, lookup_insert_eq by congruence|done|done|..].
  { intros n2 Hi. by rewrite bool_decide_eq_false_2. }
  { intros _. apply lookup_insert_eq. }
  { simpl. intros x y Hy. rewrite !lookup_insert_Some. naive_solver. }
  { simpl. intros x y Hx Hy. rewrite !lookup_insert_Some. naive_solver. }
  simpl in Hn2. rewrite lookup_insert_ne, lookup_insert_eq in Hn2 by done. injection Hn2 as <-.
  exists n, n', l3. split_and!; [done..|congruence|]. revert Hat3. unfold set_producers, set_producer_tokens. simpl.
  by rewrite (insert_insert_ne _ p' p), insert_insert_eq by done.
Qed.

(** From one token to another that is not valid. *)
Lemma pass_token w this q l extra ts threads t t' p : queue_at (X := X) w this q l extra ts threads →
  producer_tokens w !! t = Some p → producer_tokens w !! t' = Some 0%nat → p ≠ 0%nat → t' ≠ 0%nat →
  ∃ n l', producers w !! p = Some n ∧ content <$> l' = content <$> l ∧
    queue_at (X := X) (set_producers (<[p := set_token t' n]> (producers w))
      (set_producer_tokens (<[t' := p]> (<[t := 0%nat]> (producer_tokens w))) w)) this q l' extra ts threads.
Proof.
  intros Hat Ht Ht' Hp Ht0. assert (Hne : t ≠ t') by congruence. eapply (retoken w this q l extra ts threads t p t' (set_token t')); [exact Hat|exact Ht|done|done|..].
  - intros n Hi. by rewrite bool_decide_eq_false_2.
  - intros _. apply lookup_insert_eq.
  - intros x y Hy. rewrite !lookup_insert_Some. naive_solver.
  - intros x y Hx Hy Hxy. rewrite lookup_insert_ne by (intros <-; congruence). by rewrite lookup_insert_ne.
Qed.

Lemma ProducerToken_swap_runs w this q l extra ts threads t t' p p' :
  queue_at (X := X) w this q l extra ts threads →
  producer_tokens w !! t = Some p → producer_tokens w !! t' = Some p' → t ≠ 0%nat → t' ≠ 0%nat →
  runs (ProducerToken_swap (X := X) t t') w
    (λ _ w', tokens_now w this l extra ts threads (<[t' := p]> (<[t := p']> (producer_tokens w))) w')
    (never (A := X)) no_fault.
Proof.
  intros Hat Ht Ht' Ht0 Ht0'. apply runs_bind. eapply runs_producer_of; [exact Ht|]. apply runs_bind.
  eapply runs_producer_of; [exact Ht'|]. apply runs_bind. eapply runs_zoom; [by rewrite Ht|]. apply runs_modify, runs_bind.
  assert (Hthere : ∃ z, <[t := p']> (producer_tokens w) !! t' = Some z).
  { destruct (decide (t = t')) as [->|]; [rewrite lookup_insert_eq|rewrite lookup_insert_ne by done]; eauto. }
  destruct Hthere as (z & Hz). eapply runs_zoom; [simpl; by rewrite Hz|]. apply runs_modify. clear z Hz. simpl.
  assert (Hmine : <[t' := p]> (<[t := p']> (producer_tokens w)) !! t = Some p').
  { destruct (decide (t = t')) as [->|]; [|by rewrite lookup_insert_ne, lookup_insert_eq by done].
    rewrite lookup_insert_eq. congruence. }
  apply runs_bind. eapply runs_producer_of; [exact Hmine|].
  destruct (decide (p' = 0%nat)) as [->|Hp'], (decide (p = 0%nat)) as [->|Hp].
  - rewrite bool_decide_eq_false_2 by (intros []; done). apply runs_bind, runs_ret, runs_bind.
    eapply runs_producer_of; [apply lookup_insert_eq|]. rewrite bool_decide_eq_false_2 by (intros []; done).
    apply runs_ret. exists q, l. split_and!; [done..|]. apply (blank_tokens w); [done|]. intros k y Hy.
    rewrite !lookup_insert_Some. split.
    + intros [[_ Hz]|[_ [[_ Hz]|[_ Hk]]]]; [by destruct Hy|by destruct Hy|done].
    + intros Hk. right. split; [intros ->; congruence|]. right. split; [intros ->; congruence|done].
  - rewrite bool_decide_eq_false_2 by (intros []; done). apply runs_bind, runs_ret, runs_bind.
    eapply runs_producer_of; [apply lookup_insert_eq|]. rewrite bool_decide_eq_true_2 by done.
    destruct (pass_token w this q l extra ts threads t t' p) as (n & l' & Hn & Hc & Hat'); [done..|].
    eapply runs_modify_producer; [exact Hn|]. by exists q, l'.
  - rewrite bool_decide_eq_true_2 by done.
    destruct (pass_token w this q l extra ts threads t' t p') as (n & l' & Hn & Hc & Hat'); [done..|].
    apply runs_bind. eapply runs_modify_producer; [exact Hn|]. apply runs_bind.
    eapply runs_producer_of; [apply lookup_insert_eq|]. rewrite bool_decide_eq_false_2 by (intros []; done).
    apply runs_ret. exists q, l'. split_and!; [done..|]. revert Hat'. unfold set_producers, set_producer_tokens. simpl.
    by rewrite insert_insert_ne by congruence.
  - rewrite bool_decide_eq_true_2 by done. destruct (decide (t = t')) as [<-|Hne].
    + assert (p' = p) as -> by congruence. rewrite insert_insert_eq.
      destruct (retoken w this q l extra ts threads t p t (set_token t) (<[t := p]> (producer_tokens w)))
        as (n & l' & Hn & Hc & Hat'); [done..| | | | |].
      { intros n Hi. by rewrite bool_decide_eq_false_2. }
      { intros _. apply lookup_insert_eq. }
      { intros x y Hy. rewrite !lookup_insert_Some. naive_solver. }
      { intros x y Hx Hy Hxy. by rewrite lookup_insert_ne. }
      apply runs_bind. eapply runs_modify_producer; [exact Hn|]. apply runs_bind.
      eapply runs_producer_of; [simpl; apply lookup_insert_eq|]. rewrite bool_decide_eq_true_2 by done.
      eapply runs_modify_producer; [simpl; apply lookup_insert_eq|].
      exists q, l'. split_and!; [done..|]. revert Hat'. unfold set_producers, set_producer_tokens. simpl.
      by rewrite insert_insert_eq.
    + destruct (swap_held w this q l extra ts threads t t' p p') as (n & n' & l' & Hn & Hn' & Hpp & Hc & Hat'); [done..|].
      apply runs_bind. eapply runs_modify_producer; [exact Hn'|]. apply runs_bind.
      eapply runs_producer_of; [simpl; apply lookup_insert_eq|]. rewrite bool_decide_eq_true_2 by done.
      eapply runs_modify_producer; [simpl; by rewrite lookup_insert_ne|]. by exists q, l'.
Qed.

(** *** Consumer tokens *)
Lemma ConsumerToken_ctor_runs w this q l extra ts threads t : queue_at (X := X) w this q l extra ts threads →
  runs (ConsumerToken_ctor (X := X) this t) w
    (λ _ w', ∃ q' c, lost (memory w') = lost (memory w) ∧ producer_tokens w' = producer_tokens w ∧
       consumer_tokens w' = <[t := c]> (consumer_tokens w) ∧ queue_at (X := X) w' this q' l extra ts threads)
    (never (A := X)) no_fault.
Proof.
  intros Hat. pose proof Hat as [Hheap _]. pose proof (hp_queue _ _ _ _ _ Hheap) as Hq.
  apply runs_bind. eapply runs_queue_of; [exact Hq|]. apply runs_bind. eapply runs_modify_queue; [exact Hq|].
  apply runs_modify. eexists _, _. split_and!; [done..|].
  eapply queue_at_ctoken; [by apply queue_at_offset|]. by intros [].
Qed.

(** ** Enqueuing *)

(** The producer [p] has been called. *)
Definition called w this l extra ts threads p (o : call T U) (r : reply X T U) (safe : Prop) w' : Prop :=
  ∃ q' l1 s s' l2, l = l1 ++ s :: l2 ∧ s_addr s = p ∧ kept w w' ∧ tag_of s' = tag_of s ∧
    fifo_step assign_result (s_items s) o r (s_items s') ∧ (safe → s_clean s' = s_clean s) ∧
    queue_at (X := X) w' this q' (l1 ++ s' :: l2) extra ts threads.

Lemma stepped_called w this q l1 s l2 extra ts threads o r safe w' :
  stepped assign_result w this q l1 s l2 extra ts threads o r safe w' →
  called w this (l1 ++ s :: l2) extra ts threads (s_addr s) o r safe w'.
Proof.
  intros (q' & s' & Hat & [[Hh Hp Hc Hl] _] & Htag & Hstep & Hclean). exists q', l1, s, s', l2.
  split_and!; [done|done| |done|done|done|done]. constructor; congruence.
Qed.

Lemma held_explicit w this q l extra ts threads t p : queue_at (X := X) w this q l extra ts threads →
  producer_tokens w !! t = Some p → p ≠ 0%nat →
  ∃ l1 s l2, l = l1 ++ s :: l2 ∧ s_addr s = p ∧ isExplicit (s_node s) = true.
Proof.
  intros Hat Ht Hp. destruct (held_slot _ _ _ _ _ _ _ _ _ Hat Ht Hp) as (l1 & s & l2 & Hl & Hs & _).
  exists l1, s, l2. split; [done|]. split; [exact (f_equal t_addr Hs)|exact (f_equal t_explicit Hs)].
Qed.

Lemma enqueue_token_runs w this q l extra ts threads t p canAlloc c x :
  queue_at (X := X) w this q l extra ts threads → producer_tokens w !! t = Some p → p ≠ 0%nat →
  runs (inner_enqueue_token canAlloc c t) (w, x)
    (λ r '(w', x'), called w this l extra ts threads p (Enqueue canAlloc c x) (Enqueued x' (Returns r)) True w')
    (λ ex '(w', x'), called w this l extra ts threads p (Enqueue canAlloc c x) (Enqueued x' (Throws ex)) False w') no_fault.
Proof.
  intros Hat Ht Hp. destruct (held_explicit _ _ _ _ _ _ _ _ _ Hat Ht Hp) as (l1 & s & l2 & -> & <- & He).
  apply runs_bind, runs_on_fst. eapply runs_producer_of; [exact Ht|].
  eapply runs_mono; [by eapply explicit_put_runs|..]; [..|done]; intros r [w' x']; apply stepped_called.
Qed.

Lemma dequeue_from_runs w this q l extra ts threads t p u :
  queue_at (X := X) w this q l extra ts threads → producer_tokens w !! t = Some p → p ≠ 0%nat →
  runs (try_dequeue_from_producer assign_result nothrow_assign t) (w, u)
    (λ r '(w', u'), called w this l extra ts threads p (Dequeue u) (Dequeued u' (Returns r)) True w')
    (λ ex '(w', u'), called w this l extra ts threads p (Dequeue u) (Dequeued u' (Throws ex)) True w') no_fault.
Proof.
  intros Hat Ht Hp. destruct (held_explicit _ _ _ _ _ _ _ _ _ Hat Ht Hp) as (l1 & s & l2 & -> & <- & He).
  apply runs_bind, runs_on_fst. eapply runs_producer_of; [exact Ht|].
  eapply runs_mono; [by eapply explicit_take_runs|..]; [..|done]; intros r [w' x']; apply stepped_called.
Qed.

(** A thread enqueues; the producer that it is given has no elements if it is new. *)
Definition put_by w this l threads id (o : call T U) (r : reply X T U) w' : Prop :=
  ∃ extra' ts' w1, kept w w1 ∧
    (∃ p, threads !! id = Some p ∧ called w1 this l extra' ts' threads p o r True w' ∨
       threads !! id = None ∧ ∃ s, new_slot false p s ∧ p ≠ 0%nat ∧ (p ∉ addresses l) ∧
         called w1 this (s :: l) extra' ts' (<[id := p]> threads) p o r True w').

Definition not_put w this l threads (id : Z) w' : Prop :=
  threads !! id = None ∧ out_of_memory ∧ ∃ q' extra' ts', kept w w' ∧ queue_at (X := X) w' this q' l extra' ts' threads.

Lemma enqueue_from_runs w this q l extra ts threads id canAlloc c x :
  queue_at (X := X) w this q l extra ts threads → zlen l < 2 ^ 32 →
  INITIAL_IMPLICIT_PRODUCER_HASH_SIZE ≠ 0 → id ≠ 0 →
  runs (inner_enqueue this id canAlloc c) (w, x)
    (λ r '(w', x'), put_by w this l threads id (Enqueue canAlloc c x) (Enqueued x' (Returns r)) w' ∨
       r = false ∧ x' = x ∧ not_put w this l threads id w')
    (λ ex '(w', x'), put_by w this l threads id (Enqueue canAlloc c x) (Enqueued x' (Throws ex)) w') no_fault.
Proof.
  intros Hat Hlen Hsize Hid. apply runs_bind, runs_on_fst.
  eapply runs_mono; [by eapply get_or_add_runs|..]; [|done..].
  intros p w1 (q1 & extra1 & ts1 & Hk & [[Hp Hat1]|[(Hnone & -> & Hfull & Hat1)|(Hnone & s & Hs & Hp & Hnot & Hat1)]]).
  - pose proof Hat1 as [Hheap1 Hdesk1]. pose proof (dk_thread _ _ _ _ _ _ _ Hdesk1 id p Hp) as Hin.
    apply list_elem_of_fmap in Hin as (s & Hs & (l1 & l2 & ->)%list_elem_of_split).
    assert (p = s_addr s) as -> by exact (f_equal t_addr Hs).
    rewrite bool_decide_eq_false_2.
    2: { intros H0. apply (heap_not_null _ _ _ _ _ Hheap1). rewrite <- H0. apply list_elem_of_fmap_2. set_solver. }
    eapply runs_mono; [eapply (implicit_put_runs assign_result nothrow_assign assign_ok _ _ _ _ _ _ _ _ _ Hat1);
      exact (eq_sym (f_equal t_explicit Hs))|..]; [..|done]; intros r [w' x'] Hst%stepped_called; [left|];
      exists extra1, ts1, w1; (split; [done|]); exists (s_addr s); by left.
  - rewrite bool_decide_eq_true_2 by done. apply runs_ret. right. split; [done|]. split; [done|]. split; [done|]. split; [done|]. by exists q1, extra1, ts1.
  - rewrite bool_decide_eq_false_2 by done. pose proof Hs as (Htag & _).
    assert (p = s_addr s) as -> by exact (eq_sym (f_equal t_addr Htag)).
    eapply runs_mono; [eapply (implicit_put_runs assign_result nothrow_assign assign_ok _ _ _ [] _ _ _ _ _ Hat1);
      exact (f_equal t_explicit Htag)|..]; [..|done]; intros r [w' x'] Hst%stepped_called; [left|];
      exists extra1, ts1, w1; (split; [done|]); exists (s_addr s); right; (split; [done|]); by exists s.
Qed.
End setup.
