(* ===== verification/CqQueueTheorems.v ===== *)
(** * ConcurrentQueue: a queue is its streams

    The specification ([Queue], [queue_step]): every producer is a FIFO, a stream; a token
    or a thread has a stream to write to; who reads gets the oldest element of some stream,
    and nothing only if all are empty.  What one thread does with a queue by the members for
    single elements, sizes and tokens follows it, from construction to destruction; what it
    sees adds up. *)
From stdpp Require Import gmap.
From S2P Require Import Prelude Lifetime FreeList CqBlock CqPool CqFacts CqPoolFacts CqExplicit CqImplicit.
From S2P Require Import CqRing CqExplicitInv CqExplicitOps CqLifecycle CqProducer CqExplicitTheorems.
From S2P Require Import CqImplicitOps CqImplicitTheorems CqQueue CqHash CqQueueInv CqQueueOps CqQueueSetup.

#[local] Open Scope Z_scope.

(** ** What a client does

    Tokens are where the client has put them; threads have numbers.  The members that
    enqueue and dequeue in bulk and those that move or swap whole queues are not here. *)
Inductive op (T U : Type) :=
  | NewToken (t : nat)
  | MoveToken (t other : nat)
  | SwapTokens (t other : nat)
  | DropToken (t : nat)
  | NewConsumer (t : nat)
  | Produce (thread : positive) (canAlloc : bool) (c : category) (x : T)
  | ProduceWith (t : nat) (canAlloc : bool) (c : category) (x : T)
  | Consume (u : U)
  | ConsumeInOrder (u : U)
  | ConsumeWith (t : nat) (u : U)
  | ConsumeFrom (t : nat) (u : U)
  | Size.
Arguments NewToken {T U} _.
Arguments MoveToken {T U} _ _.
Arguments SwapTokens {T U} _ _.
Arguments DropToken {T U} _.
Arguments NewConsumer {T U} _.
Arguments Produce {T U} _ _ _ _.
Arguments ProduceWith {T U} _ _ _ _.
Arguments Consume {T U} _.
Arguments ConsumeInOrder {T U} _.
Arguments ConsumeWith {T U} _ _.
Arguments ConsumeFrom {T U} _ _.
Arguments Size {T U}.

(** What comes back; a call for which the tokens are not there is not made. *)
Inductive answer (X T U : Type) :=
  | Skipped
  | Done
  | Made (is_valid : bool)
  | Replied (r : reply X T U).
Arguments Skipped {X T U}.
Arguments Done {X T U}.
Arguments Made {X T U} _.
Arguments Replied {X T U} _.

Section client.
Context {TR : Traits} {X T U : Type} `{!CppType X T}.
Context (assign_result : U → T → U * T * completion X unit) (nothrow_assign : bool).
#[local] Abbreviation W := (Store T).
#[local] Abbreviation op := (op T U).
#[local] Abbreviation answer := (answer X T U).

Definition usable (tokens : gmap nat nat) (readers : gset nat) (o : op) : bool :=
  match o with
  | NewToken t => bool_decide (t ≠ 0%nat ∧ tokens !! t = None)
  | MoveToken t other => bool_decide (t ≠ 0%nat ∧ tokens !! t = None ∧ is_Some (tokens !! other))
  | SwapTokens t other =>
      bool_decide (t ≠ 0%nat ∧ other ≠ 0%nat ∧ is_Some (tokens !! t) ∧ is_Some (tokens !! other))
  | DropToken t => bool_decide (is_Some (tokens !! t))
  | NewConsumer t => bool_decide (t ∉ readers)
  | ProduceWith t _ _ _ | ConsumeFrom t _ => bool_decide (is_Some (tokens !! t) ∧ tokens !! t ≠ Some 0%nat)
  | ConsumeWith t _ => bool_decide (t ∈ readers)
  | Produce _ _ _ _ | Consume _ | ConsumeInOrder _ | Size => true
  end.

(** A member with an argument that is passed by reference. *)
Definition given {R} (c : M X (W * R) bool) (r : R) (back : R → completion X bool → reply X T U) : M X W answer :=
  λ w, match c (w, r) with
       | Ok ((w', r'), a) => Ok (w', Returns (Replied (back r' a)))
       | Err f => Err f
       end.

Definition perform (this : nat) (o : op) : M X W answer :=
  match o with
  | NewToken t => ProducerToken_ctor this t ;; v ← valid t; mret (Made v)
  | MoveToken t other => ProducerToken_move t other ;; mret Done
  | SwapTokens t other => ProducerToken_swap t other ;; mret Done
  | DropToken t => ProducerToken_dtor t ;; mret Done
  | NewConsumer t => ConsumerToken_ctor this t ;; mret Done
  | Produce thread canAlloc c x =>
      given ((if canAlloc then enqueue else try_enqueue) this (Z.pos thread) c) x Enqueued
  | ProduceWith t canAlloc c x => given ((if canAlloc then enqueue_token else try_enqueue_token) c t) x Enqueued
  | Consume u => given (try_dequeue assign_result nothrow_assign this) u Dequeued
  | ConsumeInOrder u => given (try_dequeue_non_interleaved assign_result nothrow_assign this) u Dequeued
  | ConsumeWith t u => given (try_dequeue_token assign_result nothrow_assign this t) u Dequeued
  | ConsumeFrom t u => given (try_dequeue_from_producer assign_result nothrow_assign t) u Dequeued
  | Size => n ← size_approx this; mret (Replied (Counted n))
  end.

Definition run_op (this : nat) (o : op) : M X W answer :=
  λ w, if usable (producer_tokens w) (dom (consumer_tokens w)) o then perform this o w
       else Ok (w, Returns Skipped).

Fixpoint run_ops (this : nat) (l : list op) : M X W (list answer) :=
  match l with
  | [] => mret []
  | o :: l => r ← run_op this o; rs ← run_ops this l; mret (r :: rs)
  end.

(** A queue is made and used; then it is destroyed. *)
Definition queue_session (this : nat) (capacity : Z) (l : list op) : M X W (list answer) :=
  ConcurrentQueue_ctor this capacity ;; run_ops this l.

Definition queue_life (this : nat) (capacity : Z) (l : list op) : M X W (list answer) :=
  ConcurrentQueue_ctor this capacity ;; rs ← run_ops this l; ConcurrentQueue_dtor this ;; mret rs.

(** ** The specification *)
Record Queue := mkSpec {
  streams : gmap nat (list T);
  tokens : gmap nat nat;
  writers : gmap Z nat;
  readers : gset nat
}.

Definition no_streams : Queue := mkSpec ∅ ∅ ∅ ∅.

Definition set_stream (p : nat) (xs : list T) (S : Queue) : Queue :=
  mkSpec (<[p := xs]> (streams S)) (tokens S) (writers S) (readers S).
Definition set_tokens (pt : gmap nat nat) (S : Queue) : Queue := mkSpec (streams S) pt (writers S) (readers S).
Definition set_writer (id : Z) (p : nat) (S : Queue) : Queue :=
  mkSpec (streams S) (tokens S) (<[id := p]> (writers S)) (readers S).
Definition add_reader (t : nat) (S : Queue) : Queue :=
  mkSpec (streams S) (tokens S) (writers S) ({[t]} ∪ readers S).

(** Nobody writes to the stream any more. *)
Definition unused_stream (S : Queue) (p : nat) : Prop :=
  is_Some (streams S !! p) ∧ (∀ k, tokens S !! k ≠ Some p) ∧ ∀ id, writers S !! id ≠ Some p.

Definition new_stream (S : Queue) (p : nat) : Prop := p ≠ 0%nat ∧ streams S !! p = None.

Definition all_empty (S : Queue) : Prop := ∀ p xs, streams S !! p = Some xs → xs = [].

Definition number_of_elements (S : Queue) : Z := map_fold (λ _ xs n, zlen xs + n) 0 (streams S).

(** Which stream an operation on any of them takes an element from is not specified. *)
Definition reads (o : op) (u : U) : Prop :=
  match o with Consume u' | ConsumeInOrder u' | ConsumeWith _ u' => u = u' | _ => False end.

#[local] Abbreviation fifo_step := (fifo_step assign_result).

Inductive queue_step (S : Queue) : op → answer → Queue → Prop :=
  | step_skipped o : usable (tokens S) (readers S) o = false → queue_step S o Skipped S
  | step_token_reuses t p :
      t ≠ 0%nat → tokens S !! t = None → unused_stream S p →
      queue_step S (NewToken t) (Made true) (set_tokens (<[t := p]> (tokens S)) S)
  | step_token_new t p :
      t ≠ 0%nat → tokens S !! t = None → (∀ p', ¬ unused_stream S p') → new_stream S p →
      queue_step S (NewToken t) (Made true) (set_tokens (<[t := p]> (tokens S)) (set_stream p [] S))
  | step_token_no_memory t :
      t ≠ 0%nat → tokens S !! t = None → (∀ p', ¬ unused_stream S p') → out_of_memory →
      queue_step S (NewToken t) (Made false) (set_tokens (<[t := 0%nat]> (tokens S)) S)
  | step_move t other p :
      tokens S !! t = None → tokens S !! other = Some p →
      queue_step S (MoveToken t other) Done (set_tokens (<[other := 0%nat]> (<[t := p]> (tokens S))) S)
  | step_swap t other p p' :
      tokens S !! t = Some p → tokens S !! other = Some p' →
      queue_step S (SwapTokens t other) Done (set_tokens (<[other := p]> (<[t := p']> (tokens S))) S)
  | step_drop t : is_Some (tokens S !! t) → queue_step S (DropToken t) Done (set_tokens (delete t (tokens S)) S)
  | step_reader t : queue_step S (NewConsumer t) Done (add_reader t S)
  | step_produce thread canAlloc c x p xs xs' r :
      writers S !! Z.pos thread = Some p → streams S !! p = Some xs →
      fifo_step xs (Enqueue canAlloc c x) r xs' →
      queue_step S (Produce thread canAlloc c x) (Replied r) (set_stream p xs' S)
  | step_produce_new thread canAlloc c x p xs' r :
      writers S !! Z.pos thread = None → new_stream S p → fifo_step [] (Enqueue canAlloc c x) r xs' →
      queue_step S (Produce thread canAlloc c x) (Replied r) (set_writer (Z.pos thread) p (set_stream p xs' S))
  | step_produce_no_memory thread canAlloc c x :
      writers S !! Z.pos thread = None → INITIAL_IMPLICIT_PRODUCER_HASH_SIZE = 0 ∨ out_of_memory →
      queue_step S (Produce thread canAlloc c x) (Replied (Enqueued x (Returns false))) S
  | step_produce_with t canAlloc c x p xs xs' r :
      tokens S !! t = Some p → streams S !! p = Some xs → fifo_step xs (Enqueue canAlloc c x) r xs' →
      queue_step S (ProduceWith t canAlloc c x) (Replied r) (set_stream p xs' S)
  | step_consume o u p xs xs' u' r :
      reads o u → streams S !! p = Some xs → xs ≠ [] → fifo_step xs (Dequeue u) (Dequeued u' r) xs' →
      queue_step S o (Replied (Dequeued u' r)) (set_stream p xs' S)
  | step_consume_nothing o u :
      reads o u → all_empty S → queue_step S o (Replied (Dequeued u (Returns false))) S
  | step_consume_from t u p xs xs' r :
      tokens S !! t = Some p → streams S !! p = Some xs → fifo_step xs (Dequeue u) r xs' →
      queue_step S (ConsumeFrom t u) (Replied r) (set_stream p xs' S)
  | step_size : queue_step S Size (Replied (Counted (number_of_elements S))) S.

Inductive queue_steps : Queue → list op → list answer → Queue → Prop :=
  | steps_nil S : queue_steps S [] [] S
  | steps_cons S o r S' l rs S'' :
      queue_step S o r S' → queue_steps S' l rs S'' → queue_steps S (o :: l) (r :: rs) S''.
End client.
Arguments Queue : clear implicits.

(** ** The queue follows it *)
Section refinement.
Context {TR : Traits} {OK : TraitsOk} {X T U : Type} `{!CppType X T, !CppLaws X T}.
Context (assign_result : U → T → U * T * completion X unit) (nothrow_assign : bool).
Context (assign_ok : ∀ u x u' x' ex, nothrow_assign = true → assign_result u x ≠ (u', x', Throws ex)).
#[local] Abbreviation W := (Store T).
#[local] Abbreviation slot := (slot T).
#[local] Abbreviation queue_at := (queue_at (X := X)).
#[local] Abbreviation queue_step := (queue_step assign_result (X := X)).
#[local] Abbreviation never := (never (A := X)).
Implicit Types (w : W) (q : ConcurrentQueue) (s : slot) (l : list slot) (S : Queue T) (clean : Prop) (n : Z).
Implicit Types (this p t : nat) (extra : list nat) (ts : list (hash_ref * gmap Z nat)) (threads : gmap Z nat).

Definition streams_of l : gmap nat (list T) := list_to_map ((content <$> l).*1).

Lemma streams_put l1 s s' l2 : NoDup (addresses (l1 ++ s :: l2)) → s_addr s' = s_addr s →
  streams_of (l1 ++ s' :: l2) = <[s_addr s := s_items s']> (streams_of (l1 ++ s :: l2)).
Proof.
  intros Hnd Ha. unfold streams_of. rewrite !fmap_app. csimpl. rewrite Ha, !list_to_map_app. simpl.
  rewrite insert_union_r, insert_insert_eq; [done|]. apply not_elem_of_list_to_map_1.
  unfold addresses in Hnd. rewrite fmap_app in Hnd. csimpl in Hnd. apply NoDup_app in Hnd as (_ & Hdis & _).
  intros Hin. apply (Hdis (s_addr s)); [|by left]. revert Hin. by rewrite <- !list_fmap_compose.
Qed.

Lemma streams_lookup l1 s l2 : NoDup (addresses (l1 ++ s :: l2)) →
  streams_of (l1 ++ s :: l2) !! s_addr s = Some (s_items s).
Proof. intros Hnd. rewrite (streams_put _ s s) by done. apply lookup_insert_eq. Qed.

Lemma streams_there l p xs : NoDup (addresses l) →
  streams_of l !! p = Some xs ↔ ∃ s, s ∈ l ∧ s_addr s = p ∧ s_items s = xs.
Proof.
  intros Hnd. split.
  - intros Hp%elem_of_list_to_map_2. apply list_elem_of_fmap in Hp as ([c b] & Hc & Hin). simpl in Hc. subst c.
    apply list_elem_of_fmap in Hin as (s & [= -> -> ->] & Hin). by exists s.
  - intros (s & (l1 & l2 & ->)%list_elem_of_split & <- & <-). by apply streams_lookup.
Qed.

Lemma streams_none l p : p ∉ addresses l → streams_of l !! p = None.
Proof.
  intros Hp. apply not_elem_of_list_to_map_1. intros Hin. apply Hp. revert Hin. by rewrite <- !list_fmap_compose.
Qed.

Lemma streams_size l : NoDup (addresses l) →
  map_fold (λ _ xs k, zlen xs + k) 0 (streams_of l) = zlen (l ≫= s_items).
Proof.
  unfold addresses. induction l as [|s l IH]; [done|]. csimpl. intros [Hs Hnd]%NoDup_cons.
  unfold streams_of in *. csimpl. rewrite zlen_app, <- IH by done. rewrite map_fold_insert_L; [done|intros; lia|].
  by apply streams_none.
Qed.

Definition all_clean l : Prop := ∀ s, s ∈ l → s_clean s = true.

(** The store holds the queue [S], which has at most [n] streams. *)
Definition holds_queue clean w this S n : Prop :=
  ∃ q l extra ts, queue_at w this q l extra ts (writers S) ∧ streams S = streams_of l ∧
    tokens S = producer_tokens w ∧ readers S = dom (consumer_tokens w) ∧ zlen l ≤ n ∧
    lost (memory w) = 0%nat ∧ (clean → all_clean l).

(** The answers are those of the specification. *)
Definition follows clean this S n (o : op T U) (r : answer X T U) w' : Prop :=
  ∃ S', queue_step S o r S' ∧ holds_queue clean w' this S' (n + 1).

Lemma holds_more clean w this S n n' : n ≤ n' → holds_queue clean w this S n → holds_queue clean w this S n'.
Proof. intros Hn (q & l & extra & ts & ? & ? & ? & ? & ? & ? & ?). exists q, l, extra, ts. split_and!; [done..|lia|done|done]. Qed.

(** A call of one producer is a step of one stream. *)
Lemma called_holds clean w this S n l extra ts p (o : call T U) r safe w' :
  NoDup (addresses l) → streams S = streams_of l → tokens S = producer_tokens w →
  readers S = dom (consumer_tokens w) → zlen l ≤ n → lost (memory w) = 0%nat →
  (clean → all_clean l) → (clean → safe) →
  called assign_result w this l extra ts (writers S) p o r safe w' →
  ∃ xs xs', streams S !! p = Some xs ∧ fifo_step assign_result xs o r xs' ∧
    holds_queue clean w' this (set_stream p xs' S) n.
Proof.
  intros Hnd Hst Htok Hrd Hn Hlost Hcl Hsafe (q' & l1 & s & s' & l2 & -> & <- & [] & Htag & Hstep & Hclean & Hat').
  pose proof (f_equal t_addr Htag) as Ha. simpl in Ha.
  exists (s_items s), (s_items s'). split_and!; [rewrite Hst; by apply streams_lookup|done|].
  exists q', (l1 ++ s' :: l2), extra, ts. split_and!; simpl; [done| |congruence|congruence| |congruence|].
  - by rewrite Hst, (streams_put _ s s').
  - unfold zlen in *. rewrite length_app in *. simpl in *. lia.
  - intros Hc s0 Hin. assert (s_clean s = true) by (apply Hcl; [done|set_solver]).
    apply elem_of_app in Hin as [Hin|[->|Hin]%elem_of_cons]; [apply Hcl; [done|set_solver]|rewrite Hclean; auto|apply Hcl; [done|set_solver]].
Qed.

(** *** Calls to dequeue *)
Lemma content_clean l l' : content <$> l' = content <$> l → all_clean l → all_clean l'.
Proof.
  intros Hc Hl s Hs. assert (Hin : content s ∈ content <$> l) by (rewrite <- Hc; by apply list_elem_of_fmap_2).
  apply list_elem_of_fmap in Hin as (s0 & Heq & Hin). rewrite <- (Hl s0 Hin). exact (f_equal snd Heq).
Qed.

Lemma content_streams l l' : content <$> l' = content <$> l → streams_of l' = streams_of l.
Proof. unfold streams_of. by intros ->. Qed.

Lemma content_length l l' : content <$> l' = content <$> l → zlen l' = zlen l.
Proof. intros Hc. unfold zlen. by rewrite <- (length_fmap content), Hc, length_fmap. Qed.

Lemma brief_content l l' : brief <$> l' = brief <$> l → content <$> l' = content <$> l.
Proof.
  assert (Hb : ∀ k : list slot, content <$> k = (λ b, (t_addr b.1.1, b.1.2, b.2)) <$> (brief <$> k))
    by (intros k; by rewrite <- list_fmap_compose).
  intros Heq. by rewrite !Hb, Heq.
Qed.

Lemma streams_cons s l p (xs : list T) c : content s = (p, xs, c) → streams_of (s :: l) = <[p := xs]> (streams_of l).
Proof. by intros [= <- <- _]. Qed.

Lemma content_brief s (z : tag) (xs : list T) c : brief s = (z, xs, c) → content s = (t_addr z, xs, c).
Proof. intros Hb. exact (f_equal (λ b, (t_addr b.1.1, b.1.2, b.2)) Hb). Qed.

Lemma brief_step_inv (o : call T U) r l l' : brief_step assign_result o r (brief <$> l) (brief <$> l') →
  ∃ l1 s l2 xs', l = l1 ++ s :: l2 ∧ fifo_step assign_result (s_items s) o r xs' ∧
    content <$> l' = content <$> (l1 ++ mkSlot (s_addr s) (s_node s) (s_ring s) (s_raws s) xs' (s_clean s) :: l2).
Proof.
  inversion 1 as [b1 t xs c b2 xs' Hstep Hl Hl']. symmetry in Hl, Hl'.
  apply fmap_app_inv in Hl as (l1 & l12 & -> & Hl & ->). symmetry in Hl.
  apply fmap_cons_inv in Hl as (s & l2 & Hs & -> & ->). injection Hs as -> -> ->.
  exists l1, s, l2, xs'. split; [done|]. split; [done|].
  set (s2 := mkSlot _ _ _ _ _ _). apply brief_content. rewrite Hl', fmap_app. csimpl. done.
Qed.

Lemma outcome_follows clean w this S n q l extra ts o u r u' w' :
  queue_at w this q l extra ts (writers S) → streams S = streams_of l → tokens S = producer_tokens w →
  readers S = dom (consumer_tokens w) → zlen l ≤ n → lost (memory w) = 0%nat → (clean → all_clean l) →
  reads o u → outcome assign_result this extra ts (writers S) w l u r u' w' →
  follows clean this S n o (Replied (Dequeued u' r)) w'.
Proof.
  intros [Hheap _] Hst Htok Hrd Hn Hlost Hcl Hreads (q' & l' & Hat' & [] & Hr).
  pose proof (hp_nodup _ _ _ _ _ Hheap) as Hnd.
  assert (Hsome : brief_step assign_result (Dequeue u) (Dequeued u' r) (brief <$> l) (brief <$> l') → r ≠ Returns false →
    follows clean this S n o (Replied (Dequeued u' r)) w').
  { intros (l1 & s & l2 & xs' & -> & Hstep & Hc)%brief_step_inv Hne. exists (set_stream (s_addr s) xs' S). split.
    - eapply step_consume; [done|rewrite Hst; by apply streams_lookup| |exact Hstep].
      intros Hnil. rewrite Hnil in Hstep. by inversion Hstep; subst.
    - exists q', l', extra, ts. split_and!; simpl; [done| |congruence|congruence| |congruence|].
      + rewrite (content_streams _ _ Hc), Hst. symmetry. by apply (streams_put _ s).
      + rewrite (content_length _ _ Hc). unfold zlen in *. rewrite length_app in *. simpl in *. lia.
      + intros Hcc. apply (content_clean _ _ Hc). intros s0 [Hin|[->|Hin]%elem_of_cons]%elem_of_app;
          [apply Hcl; [done|set_solver]|apply (Hcl Hcc s); set_solver|apply Hcl; [done|set_solver]]. }
  destruct r as [[]|]; [by apply Hsome| |by apply Hsome]. destruct Hr as (-> & Hb & Hempty).
  apply brief_content in Hb. exists S. split.
  - apply step_consume_nothing; [done|]. intros p xs Hp. rewrite Hst in Hp.
    apply (streams_there _ _ _ Hnd) in Hp as (s & Hs & _ & <-). by apply Hempty.
  - exists q', l', extra, ts. split_and!; [done|by rewrite (content_streams _ _ Hb)|congruence|congruence| |congruence|].
    + rewrite (content_length _ _ Hb). lia.
    + intros Hc. by apply (content_clean _ _ Hb), Hcl.
Qed.

Lemma runs_given {R} (c : M X (W * R) bool) (r : R) back w (Q : answer X T U → W → Prop) F :
  runs c (w, r) (λ a '(w', r'), Q (Replied (back r' (Returns a))) w') (λ ex '(w', r'), Q (Replied (back r' (Throws ex))) w') F →
  runs (given c r back) w Q never F.
Proof. unfold runs, given. by destruct (c (w, r)) as [[[w' r'] [a|ex]]|]. Qed.

(** *** One call *)

(** If an element of a producer with a token cannot be constructed, its destructor may not work. *)
Definition survivable (o : op T U) : Prop :=
  match o with ProduceWith _ _ c x => ∀ x' ex, forward_ctor c x ≠ (x', Throws ex) | _ => True end.

Section calls.
Context clean w this S n q l extra ts (Hat : queue_at w this q l extra ts (writers S)).
Context (Hst : streams S = streams_of l) (Htok : tokens S = producer_tokens w).
Context (Hrd : readers S = dom (consumer_tokens w)) (Hn : zlen l ≤ n) (Hmax : n < 2 ^ 32).
Context (Hlost : lost (memory w) = 0%nat) (Hcl : clean → all_clean l).
#[local] Abbreviation follows := (follows clean this S n).

Lemma nodup_here : NoDup (addresses l).
Proof. destruct Hat as [Hheap _]. by apply (hp_nodup _ _ _ _ _ Hheap). Qed.

Lemma slot_unique s s' : s ∈ l → s' ∈ l → s_addr s = s_addr s' → s = s'.
Proof.
  intros [i Hi]%list_elem_of_lookup [j Hj]%list_elem_of_lookup Ha. assert (i = j) as ->; [|congruence].
  eapply (NoDup_lookup _ _ _ (s_addr s) nodup_here); unfold addresses; rewrite list_lookup_fmap; [by rewrite Hi|by rewrite Hj, Ha].
Qed.

Lemma tag_unique s (z : tag) : s ∈ l → z ∈ tag_of <$> l → s_addr s = t_addr z → tag_of s = z.
Proof. intros Hs (s' & -> & Hs')%list_elem_of_fmap Ha. by rewrite (slot_unique s s'). Qed.

Lemma idle_unused s : s ∈ l → idle true s → unused_stream S (s_addr s).
Proof.
  intros Hs [Hi He]. destruct Hat as [Hheap Hdesk]. split_and!.
  - rewrite Hst. exists (s_items s). apply (streams_there _ _ _ nodup_here). by exists s.
  - intros k Hk. rewrite Htok in Hk.
    destruct (dk_held _ _ _ _ _ _ _ Hdesk k _ Hk) as [_ Hin];
      [intros H0; apply (heap_not_null _ _ _ _ _ Hheap); rewrite <- H0; by apply list_elem_of_fmap_2|].
    pose proof (f_equal t_inactive (tag_unique _ _ Hs Hin eq_refl)) as Hx. simpl in Hx. congruence.
  - intros id Hid. pose proof (dk_thread _ _ _ _ _ _ _ Hdesk id _ Hid) as Hin.
    pose proof (f_equal t_explicit (tag_unique _ _ Hs Hin eq_refl)) as Hx. simpl in Hx. congruence.
Qed.

Lemma none_unused : (∀ s, s ∈ l → ¬ idle true s) → ∀ p, ¬ unused_stream S p.
Proof.
  intros Hnone p ([xs Hp] & Hnt & Hnw). destruct Hat as [_ Hdesk]. rewrite Hst in Hp.
  apply (streams_there _ _ _ nodup_here) in Hp as (s & Hs & <- & _).
  pose proof (list_elem_of_fmap_2 tag_of _ _ Hs) as Hin. destruct (isExplicit (s_node s)) eqn:He.
  - pose proof (dk_explicit _ _ _ _ _ _ _ Hdesk _ Hin He) as Hx. simpl in Hx.
    destruct (decide (token (s_node s) = 0%nat)) as [Hz|Hz].
    + apply (Hnone s Hs). split; [|done]. by rewrite Hx, bool_decide_eq_true_2.
    + pose proof (dk_token _ _ _ _ _ _ _ Hdesk _ Hin Hz) as Hk. simpl in Hk. rewrite <- Htok in Hk. by apply (Hnt (token (s_node s))).
  - destruct (dk_writer _ _ _ _ _ _ _ Hdesk _ Hin He) as [id Hid]. by apply (Hnw id).
Qed.

Lemma new_address p : p ≠ 0%nat → p ∉ addresses l → new_stream S p.
Proof. intros Hp Hnot. split; [done|]. rewrite Hst. by apply streams_none. Qed.

Lemma more_slots s : zlen (s :: l) ≤ n + 1.
Proof. unfold zlen in *. simpl. lia. Qed.

Lemma new_token_follows t : usable (tokens S) (readers S) (NewToken t : op T U) = true →
  runs (perform assign_result nothrow_assign this (NewToken t)) w (follows (NewToken t)) never no_fault.
Proof.
  intros [Ht0 Hfresh]%bool_decide_eq_true. simpl. apply runs_bind. rewrite Htok in Hfresh.
  eapply runs_mono; [by eapply ProducerToken_ctor_runs|..]; [|done..].
  intros _ w' (p & q' & Hl & Hc & Hpt & Hp). apply runs_bind.
  unfold valid. apply runs_bind. eapply runs_producer_of; [rewrite Hpt; apply lookup_insert_eq|]. apply runs_ret, runs_ret.
  destruct Hp as [(l1 & s & l2 & s' & Hll & Hidle & -> & Hs' & Hat')|[Hnone [(-> & Hfull & Hat')|(Hp & Hnot & s' & Hs' & Hat')]]].
  - assert (Hin : s ∈ l) by (rewrite Hll; set_solver). rewrite bool_decide_eq_true_2.
    2: { destruct Hat as [Hheap _]. intros H0. apply (heap_not_null _ _ _ _ _ Hheap). rewrite <- H0. by apply list_elem_of_fmap_2. }
    eexists. split; [apply step_token_reuses; [done|by rewrite Htok|by apply idle_unused]|].
    assert (Hcon : content <$> l1 ++ s' :: l2 = content <$> l).
    { rewrite Hll, !fmap_app. csimpl. do 2 f_equal. exact (content_brief _ _ _ _ Hs'). }
    exists q', (l1 ++ s' :: l2), extra, ts. split_and!; simpl; [done|by rewrite (content_streams _ _ Hcon)|congruence|congruence| |congruence|].
    + rewrite (content_length _ _ Hcon). lia.
    + intros Hcc. by apply (content_clean _ _ Hcon), Hcl.
  - rewrite bool_decide_eq_false_2 by (intros []; done). eexists.
    split; [apply step_token_no_memory; [done|by rewrite Htok|by apply none_unused|done]|].
    exists q', l, extra, ts. split_and!; simpl; [done|done|congruence|congruence|lia|congruence|done].
  - rewrite bool_decide_eq_true_2 by done. eexists.
    split; [apply (step_token_new _ _ _ p); [done|by rewrite Htok|by apply none_unused|by apply new_address]|].
    exists q', (s' :: l), extra, ts.
    pose proof (content_brief _ _ _ _ Hs') as Hcon. simpl in Hcon.
    split_and!; simpl; [done| |congruence|congruence|apply more_slots|congruence|].
    + rewrite (streams_cons _ _ _ _ _ Hcon). by rewrite Hst.
    + intros Hcc s0 [->|Hin]%elem_of_cons; [exact (f_equal snd Hcon)|by apply Hcl].
Qed.

Lemma tokens_follow o pt w' : tokens_now w this l extra ts (writers S) pt w' →
  queue_step S o Done (set_tokens pt S) → follows o Done w'.
Proof.
  intros (q' & l' & Hl & Hc & Hpt & Hcon & Hat') Hstep. exists (set_tokens pt S). split; [done|].
  exists q', l', extra, ts. split_and!; simpl; [done|by rewrite (content_streams _ _ Hcon)|congruence|congruence| |congruence|].
  - rewrite (content_length _ _ Hcon). lia.
  - intros Hcc. by apply (content_clean _ _ Hcon), Hcl.
Qed.

Lemma token_ops_follow o : usable (tokens S) (readers S) o = true →
  match o with MoveToken _ _ | SwapTokens _ _ | DropToken _ => True | _ => False end →
  runs (perform assign_result nothrow_assign this o) w (follows o) never no_fault.
Proof.
  destruct o as [|t other|t other|t|? |? ? ? ?|? ? ? ?|?|?|? ?|? ?|]; intros Hus [];
    apply bool_decide_eq_true in Hus; apply runs_bind.
  - destruct Hus as (Ht0 & Hfresh & p & Ho). rewrite Htok in Hfresh, Ho.
    eapply runs_mono; [by eapply ProducerToken_move_runs|..]; [|done..]. intros [] w' Hnow. apply runs_ret.
    rewrite <- Htok in Hnow, Hfresh, Ho. eapply tokens_follow; [exact Hnow|by apply step_move].
  - destruct Hus as (Ht0 & Ho0 & [p Ht] & [p' Ho]). rewrite Htok in Ht, Ho.
    eapply runs_mono; [by eapply ProducerToken_swap_runs|..]; [|done..]. intros [] w' Hnow. apply runs_ret.
    rewrite <- Htok in Hnow, Ht, Ho. eapply tokens_follow; [exact Hnow|by apply step_swap].
  - destruct Hus as (p & Ht). pose proof Ht as Ht'. rewrite Htok in Ht'.
    eapply runs_mono; [by eapply ProducerToken_dtor_runs|..]; [|done..]. intros [] w' Hnow. apply runs_ret.
    rewrite <- Htok in Hnow. eapply tokens_follow; [exact Hnow|by apply step_drop; exists p].
Qed.

Lemma new_consumer_follows t :
  runs (perform assign_result nothrow_assign this (NewConsumer t)) w (follows (NewConsumer t)) never no_fault.
Proof.
  apply runs_bind. eapply runs_mono; [by eapply ConsumerToken_ctor_runs|..]; [|done..].
  intros [] w' (q' & c & Hl & Hpt & Hct & Hat'). apply runs_ret. eexists. split; [apply step_reader|].
  exists q', l, extra, ts. split_and!; simpl; [done|done|congruence| |lia|congruence|done].
  rewrite Hct, dom_insert_L. by rewrite Hrd.
Qed.

(** A call of the producer of a token. *)
Lemma called_follows o p (c : call T U) r safe w' : (clean → safe) →
  (∀ xs xs', streams S !! p = Some xs → fifo_step assign_result xs c r xs' →
     queue_step S o (Replied r) (set_stream p xs' S)) →
  called assign_result w this l extra ts (writers S) p c r safe w' → follows o (Replied r) w'.
Proof.
  intros Hsafe Hstep Hcalled.
  destruct (called_holds clean w this S n l extra ts p c r safe w' nodup_here Hst Htok Hrd Hn Hlost Hcl Hsafe Hcalled)
    as (xs & xs' & Hxs & Hf & Hholds). eexists. split; [by eapply Hstep|]. eapply holds_more; [|exact Hholds]. lia.
Qed.

Lemma produce_with_follows t canAlloc c x :
  usable (U := U) (tokens S) (readers S) (ProduceWith t canAlloc c x) = true →
  (clean → survivable (ProduceWith t canAlloc c x)) →
  runs (perform assign_result nothrow_assign this (ProduceWith t canAlloc c x)) w
    (follows (ProduceWith t canAlloc c x)) never no_fault.
Proof.
  intros [[p Hp] Hne]%bool_decide_eq_true Hsurv. assert (Hp0 : p ≠ 0%nat) by (intros ->; by apply Hne).
  pose proof Hp as Hp'. rewrite Htok in Hp'. apply runs_given.
  replace ((if canAlloc then enqueue_token else try_enqueue_token) c t)
    with (inner_enqueue_token (X := X) (T := T) canAlloc c t) by by destruct canAlloc.
  eapply runs_mono; [by eapply (enqueue_token_runs assign_result nothrow_assign assign_ok)|..]; [..|done].
  - intros r [w' x']. apply called_follows; [done|]. intros xs xs' Hxs Hf. by eapply step_produce_with.
  - intros ex [w' x'] Hc. eapply (called_follows _ p _ _ False); [|intros xs xs' Hxs Hf; by eapply step_produce_with|exact Hc].
    intros Hcc. destruct Hc as (q' & l1 & s & s' & l2 & _ & _ & _ & _ & Hf & _). apply (Hsurv Hcc x' ex).
    by inversion Hf.
Qed.

Lemma consume_from_follows t u : usable (T := T) (tokens S) (readers S) (ConsumeFrom t u) = true →
  runs (perform assign_result nothrow_assign this (ConsumeFrom t u)) w (follows (ConsumeFrom t u)) never no_fault.
Proof.
  intros [[p Hp] Hne]%bool_decide_eq_true. assert (Hp0 : p ≠ 0%nat) by (intros ->; by apply Hne).
  pose proof Hp as Hp'. rewrite Htok in Hp'. apply runs_given.
  eapply runs_mono; [by eapply (dequeue_from_runs assign_result nothrow_assign assign_ok)|..]; [..|done];
    intros r [w' x']; (apply called_follows; [done|]); intros xs xs' Hxs Hf; by eapply step_consume_from.
Qed.

Lemma size_follows : runs (perform assign_result nothrow_assign this Size) w (follows Size) never no_fault.
Proof.
  apply runs_bind. eapply runs_mono; [by eapply (queue_size_runs assign_result nothrow_assign assign_ok)|..]; [|done..].
  intros k w' [-> ->]. apply runs_ret. exists S. split.
  - rewrite <- (streams_size l nodup_here), <- Hst. apply step_size.
  - exists q, l, extra, ts. split_and!; [done..|lia|done|done].
Qed.

Lemma consume_follows o : usable (tokens S) (readers S) o = true →
  match o with Consume _ | ConsumeInOrder _ | ConsumeWith _ _ => True | _ => False end →
  runs (perform assign_result nothrow_assign this o) w (follows o) never no_fault.
Proof.
  assert (Hout : ∀ o u r u' w', reads o u → outcome assign_result this extra ts (writers S) w l u r u' w' →
    follows o (Replied (Dequeued u' r)) w') by (intros; by eapply outcome_follows).
  destruct o as [| | | | |? ? ? ?|? ? ? ?|u|u|t u|? ?|]; intros Hus []; apply runs_given.
  - eapply runs_mono; [by eapply (queue_try_dequeue_runs assign_result nothrow_assign assign_ok)|..]; [..|done].
    + intros r [w' u'] Ha. apply (Hout _ u); [done|]. by eapply answered_outcome.
    + intros r [w' u'] Ha. apply (Hout _ u); [done|]. by eapply interrupted_outcome.
  - eapply runs_mono; [by eapply (try_dequeue_non_interleaved_runs assign_result nothrow_assign assign_ok)|..]; [..|done].
    + intros r [w' u'] Ha. apply (Hout _ u); [done|]. by eapply answered_outcome.
    + intros r [w' u'] Ha. apply (Hout _ u); [done|]. by eapply interrupted_outcome.
  - apply bool_decide_eq_true in Hus. rewrite Hrd in Hus. apply elem_of_dom in Hus as [c Hc].
    eapply runs_mono; [eapply (try_dequeue_token_runs assign_result nothrow_assign assign_ok); [exact Hat|lia|exact Hc]|..];
      [intros r [w' u']|intros r [w' u']|done]; by apply Hout.
Qed.

Lemma no_table_no_writers : INITIAL_IMPLICIT_PRODUCER_HASH_SIZE = 0 → ∀ id, writers S !! id = None.
Proof.
  intros Hz id. destruct Hat as [_ Hdesk]. pose proof (dk_refs _ _ _ _ _ _ _ Hdesk) as Hrefs.
  unfold table_refs in Hrefs. rewrite Hz in Hrefs. apply fmap_nil_inv in Hrefs. destruct (writers S !! id) as [p|] eqn:E; [|done].
  destruct (th_complete _ _ _ _ (dk_threads _ _ _ _ _ _ _ Hdesk) id p E) as (r & m & Hin & _).
  rewrite Hrefs in Hin. by apply elem_of_nil in Hin.
Qed.

Lemma put_follows thread canAlloc c x r w' :
  put_by assign_result w this l (writers S) (Z.pos thread) (Enqueue canAlloc c x) r w' →
  follows (Produce thread canAlloc c x) (Replied r) w'.
Proof.
  intros (extra' & ts' & w1 & [Hpt Hct Hl1] & p & [[Hp Hcalled]|(Hnone & s & (Htag & Hitems & Hclean) & Hp & Hnot & Hcalled)]).
  - destruct (called_holds clean w1 this S n l extra' ts' p (Enqueue canAlloc c x) r True w' nodup_here Hst) as (xs & xs' & Hxs & Hf & Hholds);
      [congruence|congruence|done|congruence|done|done|done|].
    eexists. split; [by eapply step_produce|]. eapply holds_more; [|exact Hholds]. lia.
  - set (S1 := set_writer (Z.pos thread) p (set_stream p [] S)).
    assert (Ha : s_addr s = p) by exact (f_equal t_addr Htag).
    assert (Hcon : content s = (p, [], true)) by (unfold content; congruence).
    destruct (called_holds clean w1 this S1 (n + 1) (s :: l) extra' ts' p (Enqueue canAlloc c x) r True w') as (xs & xs' & Hxs & Hf & Hholds);
      [| |simpl; congruence|simpl; congruence|apply more_slots|congruence| |done|exact Hcalled|].
    + unfold addresses. csimpl. apply NoDup_cons. split; [by rewrite Ha|exact nodup_here].
    + simpl. by rewrite (streams_cons _ _ _ _ _ Hcon), Hst.
    + intros Hcc s0 [->|Hin]%elem_of_cons; [exact (f_equal snd Hcon)|by apply Hcl].
    + simpl in Hxs. rewrite lookup_insert_eq in Hxs. injection Hxs as <-.
      exists (set_writer (Z.pos thread) p (set_stream p xs' S)). split.
      * apply step_produce_new; [done|by apply new_address|done].
      * revert Hholds. unfold S1, set_writer, set_stream. simpl. by rewrite insert_insert_eq.
Qed.

Lemma not_put_follows thread canAlloc c x w' : not_put w this l (writers S) (Z.pos thread) w' →
  follows (Produce thread canAlloc c x) (Replied (Enqueued x (Returns false))) w'.
Proof.
  intros (Hnone & Hfull & q' & extra' & ts' & [] & Hat'). exists S.
  split; [apply step_produce_no_memory; [done|by right]|].
  exists q', l, extra', ts'. split_and!; [done|done|congruence|congruence|lia|congruence|done].
Qed.

Lemma produce_follows thread canAlloc c x :
  runs (perform (U := U) assign_result nothrow_assign this (Produce thread canAlloc c x)) w
    (follows (Produce thread canAlloc c x)) never no_fault.
Proof.
  apply runs_given. replace ((if canAlloc then enqueue else try_enqueue) this (Z.pos thread) c)
    with (if INITIAL_IMPLICIT_PRODUCER_HASH_SIZE =? 0 then mret false
          else inner_enqueue (X := X) (T := T) this (Z.pos thread) canAlloc c) by by destruct canAlloc.
  destruct (Z.eqb_spec INITIAL_IMPLICIT_PRODUCER_HASH_SIZE 0) as [Hz|Hz].
  - apply runs_ret. exists S. split; [apply step_produce_no_memory; [by apply no_table_no_writers|by left]|].
    exists q, l, extra, ts. split_and!; [done..|lia|done|done].
  - eapply runs_mono; [eapply (enqueue_from_runs assign_result nothrow_assign assign_ok); [exact Hat|lia|done|done]|..]; [..|done].
    + intros r [w' x'] [Hput|(-> & -> & Hnot)]; [by apply put_follows|by apply not_put_follows].
    + intros ex [w' x']. apply put_follows.
Qed.
End calls.

Lemma run_op_follows clean w this S n o : holds_queue clean w this S n → n < 2 ^ 32 → (clean → survivable o) →
  runs (run_op assign_result nothrow_assign this o) w (follows clean this S n o) never no_fault.
Proof.
  intros (q & l & extra & ts & Hat & Hst & Htok & Hrd & Hn & Hlost & Hcl) Hmax Hsurv.
  unfold runs, run_op. rewrite <- Htok, <- Hrd. destruct (usable _ _ o) eqn:Hus.
  - change (runs (perform assign_result nothrow_assign this o) w (follows clean this S n o) never no_fault).
    destruct o as [t|t t'|t t'|t|t|thread canAlloc c x|t canAlloc c x|u|u|t u|t u|].
    + by eapply new_token_follows.
    + by eapply token_ops_follow.
    + by eapply token_ops_follow.
    + by eapply token_ops_follow.
    + by eapply new_consumer_follows.
    + by eapply produce_follows.
    + by eapply produce_with_follows.
    + by eapply consume_follows.
    + by eapply consume_follows.
    + by eapply consume_follows.
    + by eapply consume_from_follows.
    + by eapply size_follows.
  - exists S. split; [by apply step_skipped|].
    exists q, l, extra, ts. split_and!; [done..|lia|done|done].
Qed.

Lemma holds_bound clean w this S n : holds_queue clean w this S n → 0 ≤ number_of_elements S ≤ 2 ^ 63.
Proof.
  intros (q & l & extra & ts & Hat & Hst & _). pose proof Hat as [Hheap _]. unfold number_of_elements.
  rewrite Hst, streams_size by exact (hp_nodup _ _ _ _ _ Hheap). split; [apply zlen_nonneg|].
  by eapply elements_fit.
Qed.

(** No number that is reported has wrapped. *)
Definition sensible (r : answer X T U) : Prop :=
  match r with Replied (Counted k) => 0 ≤ k ≤ 2 ^ 63 | _ => True end.

Lemma step_sensible clean w this S n o r S' : holds_queue clean w this S n → queue_step S o r S' → sensible r.
Proof.
  intros Hholds Hstep. destruct Hstep; simpl; try done;
    try (match goal with H : fifo_step _ _ _ _ _ |- _ => by inversion H end).
  by eapply holds_bound.
Qed.

Lemma run_ops_follow clean this ops : ∀ w S n, holds_queue clean w this S n → n + zlen ops < 2 ^ 32 →
  (clean → Forall survivable ops) →
  runs (run_ops assign_result nothrow_assign this ops) w
    (λ rs w', Forall sensible rs ∧ ∃ S', queue_steps assign_result S ops rs S' ∧
       holds_queue clean w' this S' (n + zlen ops)) never no_fault.
Proof.
  induction ops as [|o ops IH]; intros w S n Hholds Hn Hsurv.
  - apply runs_ret. split; [constructor|]. exists S. split; [constructor|]. eapply holds_more; [|exact Hholds].
    unfold zlen. simpl. lia.
  - assert (Hlen : zlen (o :: ops) = 1 + zlen ops) by (unfold zlen; simpl; lia). rewrite Hlen in *.
    pose proof (zlen_nonneg ops). apply runs_bind.
    assert (Hfirst : clean → survivable o ∧ Forall survivable ops) by (intros Hc; by apply Forall_cons, Hsurv).
    eapply runs_mono; [apply (run_op_follows clean); [exact Hholds|lia|intros Hc; apply Hfirst, Hc]|..]; [|done..].
    intros r w1 (S1 & Hstep & Hholds1). apply runs_bind.
    eapply runs_mono; [apply (IH w1 S1 (n + 1)); [exact Hholds1|lia|intros Hc; apply Hfirst, Hc]|..]; [|done..].
    intros rs w2 (Hrs & S2 & Hsteps & Hholds2). apply runs_ret.
    split; [constructor; [eapply step_sensible; [exact Hholds|exact Hstep]|done]|]. exists S2.
    split; [by eapply steps_cons|]. eapply holds_more; [|exact Hholds2]. lia.
Qed.

(** ** Construction *)
Lemma populate_hash_runs w this q (Q : () → W → Prop) Qt F :
  queues w !! this = Some q → hashes w !! initialImplicitProducerHash this = Some raw_hash →
  implicitProducerHash q = None → implicitProducerHashCount q = 0 →
  (∀ hs r ts, threads_ok hs r ts ∅ → ts.*1 = table_refs this [] →
     Q tt (set_hashes hs (set_queues (<[this := set_hash r (set_hashCount 0 q)]> (queues w)) w))) →
  runs (populate_initial_implicit_producer_hash (X := X) this) w Q Qt F.
Proof.
  intros Hq Hh Hnone Hcount HQ. unfold populate_initial_implicit_producer_hash.
  destruct (Z.eqb_spec INITIAL_IMPLICIT_PRODUCER_HASH_SIZE 0) as [Hz|Hz].
  - apply runs_ret. specialize (HQ (hashes w) None []). unfold set_queues, set_hashes in HQ. simpl in HQ.
    replace (set_hash None (set_hashCount 0 q)) with q in HQ by (rewrite <- Hnone, <- Hcount; by destruct q).
    rewrite insert_id in HQ by done. destruct w. apply HQ; [|by unfold table_refs; rewrite Hz].
    constructor; [done|constructor|by intros ? ? ?%elem_of_nil|by intros ? ?|done].
  - pose proof (hash_size_pow2 Hz) as Hp. pose proof (pow2_bounds _ Hp).
    apply runs_bind. eapply runs_modify_queue; [exact Hq|]. apply runs_bind.
    eapply runs_modify_hash; [exact Hh|]. eapply runs_modify_queue; [simpl; apply lookup_insert_eq|].
    unfold raw_hash. simpl. rewrite fmap_replicate, insert_insert_eq.
    apply (HQ _ (Some (initialImplicitProducerHash this)) [(initialImplicitProducerHash this, ∅)]).
    + constructor; csimpl.
      * split; [done|]. eexists _, _. rewrite lookup_insert_eq.
        split_and!; [done|by apply table_new; [|lia]|rewrite map_size_empty; simpl; lia|done].
      * apply NoDup_singleton.
      * intros r m [= -> ->]%list_elem_of_singleton. done.
      * intros id v Hv. by rewrite lookup_empty in Hv.
      * intros r m ts' h [= <- <- <-] _. by left.
    + unfold table_refs. by rewrite (proj2 (Z.eqb_neq _ _) Hz).
Qed.

Lemma ctor_runs this capacity :
  sizeof_Block * blocks_for_capacity capacity < 2 ^ 64 →
  runs (ConcurrentQueue_ctor (X := X) (T := T) this capacity) nothing_yet
    (λ _ w, holds_queue True w this no_streams 0) never no_fault.
Proof.
  intros Hb. apply runs_bind, runs_modify, runs_bind.
  eapply populate_hash_runs; [apply lookup_insert_eq|apply lookup_insert_eq|done|done|].
  intros hs r ts Hthr Hrefs. eapply runs_zoom; [simpl; by rewrite insert_insert_eq, lookup_insert_eq|].
  eapply runs_mono; [apply populate_runs; [by apply u64_bound|exact Hb]|..]; [|done..].
  intros _ [m b] (Hinv & Hby & Hl & _). simpl in *.
  exists (set_pool_of b (set_hash r (set_hashCount 0 raw_queue))), [], [], ts. split; [split|].
  - constructor; simpl; [by rewrite insert_insert_eq, lookup_alter_eq, lookup_insert_eq|done|constructor|by intros ? ?%elem_of_nil| |constructor].
    constructor; [|done|by intros ? ?%elem_of_nil|by intros ? ?%elem_of_nil|constructor].
    exists []. by rewrite !(right_id_L ∅ (∪)).
  - constructor; simpl; try done; by intros ? ?%elem_of_nil.
  - split_and!; [done|done|symmetry; apply dom_empty_L|done|done|]. by intros _ s ?%elem_of_nil.
Qed.

(** ** Destruction *)
#[local] Instance explicit_instance3 : ProducerLaws assign_result (explicit_ops assign_result nothrow_assign) :=
  explicit_laws assign_result nothrow_assign assign_ok.
#[local] Instance implicit_instance3 : ProducerLaws assign_result (implicit_ops assign_result nothrow_assign) :=
  implicit_laws assign_result nothrow_assign assign_ok.

(** The producers from [p] on are left. *)
Definition doomed w this q p l extra : Prop :=
  queues w !! this = Some q ∧ all_clean l ∧
  heap_at (X := X) (set_queues (<[this := set_producers_of p 0 q]> (queues w)) w) this (set_producers_of p 0 q) l extra.

(** The elements and the blocks of the producer [s] are gone. *)
Definition emptied w this s l extra w' : Prop :=
  ∃ m' b fl (n' : Producer), frame (others_blocks [] l) (memory w) m' ∧
    pool_inv (X := X) m' b (others_blocks [] l) (others_chunks [] l s extra) fl ∧
    w' = mkStore m' (<[s_addr s := n']> (producers w)) (hashes w) (alter (set_pool_of b) this (queues w))
           (producer_tokens w) (consumer_tokens w).

Section kind.
Context {P : Type} (cast : Subqueue → option P) (wrap : P → Subqueue).
Context (ops : ProducerOps X T U P) {LAWS : ProducerLaws assign_result ops}.
Context (Hcast : ∀ e, cast (wrap e) = Some e).
Context (Hholds : ∀ b e h ring raws xs,
  subqueue_holds (X := X) b (wrap e) h ring raws xs = holds b e h ring raws xs).

Lemma emptied_runs w this q s l extra e : doomed w this q (s_addr s) (s :: l) extra → subqueue (s_node s) = wrap e →
  runs (zoom (focus cast (s_addr s)) (unfocus wrap (s_addr s)) (do_destroy ops)) w
    (λ _ w', emptied w this s l extra w') never no_fault.
Proof.
  intros (Hq & Hcl & Hheap) He. destruct (heap_focus _ _ _ [] l s _ Hheap) as (Hs & Hp & Hh & Hm). simpl in *.
  rewrite He, Hholds, (Hcl s ltac:(by left)) in Hh.
  eapply runs_zoom; [by unfold focus; rewrite Hs; simpl; rewrite He, Hcast; simpl; rewrite Hp, Hq|].
  eapply runs_mono; [eapply (law_destroy e _ _ _ _ (s_items s)); by eexists _, _|..]; [|done..].
  intros [] [e' [m' b]] (Hfr & fl & Hinv). exists m', b, fl, (set_subqueue (wrap e') (s_node s)).
  split; [done|]. split; [done|]. unfold unfocus. by rewrite Hs, Hp.
Qed.
End kind.

Lemma destroy_producer_runs w this q s l extra : doomed w this q (s_addr s) (s :: l) extra →
  runs (destroy_producer (X := X) (s_addr s)) w
    (λ _ w', same_but w w' ∧ ∃ b, doomed w' this (set_pool_of b q) (next_prod (s_node s)) l extra) never no_fault.
Proof.
  intros Hd. pose proof Hd as (Hq & Hcl & Hheap). destruct (heap_focus _ _ _ [] l s _ Hheap) as (Hs & _).
  pose proof Hheap as [_ (_ & Hne & _ & Hlist) Hnd Hh Hm Hr]. simpl in *.
  apply runs_bind. eapply runs_load_producer; [exact Hs|]. apply runs_bind.
  eapply runs_mono with (Q := λ _ w', emptied w this s l extra w') (Qt := never) (F := no_fault); [|intros [] w1|done..].
  { unfold isExplicit. destruct (subqueue (s_node s)) as [e|e] eqn:He.
    - by eapply (emptied_runs as_explicit Explicit (explicit_ops assign_result nothrow_assign)).
    - by eapply (emptied_runs as_implicit Implicit (implicit_ops assign_result nothrow_assign)). }
  intros (m & b & fl & n & [Hfr Hlost] & Hinv & ->). apply runs_bind, runs_modify. simpl.
  assert (Hchunk : is_Some (chunks m !! s_addr s)).
  { apply (pm_hdrs _ _ _ (pi_memory _ _ _ _ _ Hinv)). unfold others_chunks. apply elem_of_list_to_set.
    unfold addresses. csimpl. set_solver. }
  apply runs_on_mem, free_runs; [exact Hchunk|done|]. intros m' Hfreed. pose proof Hfreed as (Hbl & _ & Hl' & _).
  split; [constructor; simpl in *; [done|done|done|by rewrite Hl', Hlost]|]. exists b.
  assert (Hraws : NoDup (s_addr s :: all_raws l extra)).
  { pose proof (ma_nodup _ _ _ _ _ _ Hm) as Hnw. unfold all_raws, addresses in *. csimpl in Hnw.
    rewrite <- (assoc_L (++)) in Hnw. apply NoDup_app in Hnw as (_ & _ & Hnw).
    by rewrite <- Permutation_middle in Hnw. }
  apply NoDup_cons in Hraws as [Hnot Hraws].
  assert (Hinv' : pool_inv (X := X) m' b (list_to_set (rings l)) (list_to_set (all_raws l extra)) fl).
  { eapply pool_inv_freed; [|by rewrite elem_of_list_to_set|exact Hfreed].
    replace ({[s_addr s]} ∪ list_to_set (all_raws l extra) : gset nat) with (others_chunks [] l s extra); [exact Hinv|].
    unfold others_chunks, all_raws, addresses. csimpl. rewrite !list_to_set_app_L. simpl. set_solver. }
  assert (Hrings : NoDup (rings l)).
  { unfold rings in *. csimpl in Hr. by apply NoDup_app in Hr as (_ & _ & ?). }
  pose proof Hnd as [Hsa Hnd']%NoDup_cons.
  split; [simpl; by rewrite lookup_alter_eq, Hq|]. split; [intros s0 Hs0; apply Hcl; by right|].
  constructor; simpl.
  - apply lookup_insert_eq.
  - eapply listed_ext; [exact Hlist|]. intros a Ha. rewrite lookup_delete_ne by (intros <-; done).
    by rewrite lookup_insert_ne by (intros <-; done).
  - done.
  - intros s0 Hs0. destruct (Hh s0) as [Hp0 Hhs0]; [by right|]. split; [done|]. rewrite Hbl.
    eapply subqueue_local; [|exact Hhs0]. intros a Ha. apply Hfr. unfold others_blocks.
    apply elem_of_list_to_set. unfold rings. apply list_elem_of_bind. by exists s0.
  - constructor; [|by eapply pool_inv_bytes|by intros ? _ ?%elem_of_empty|by intros ? _ ?%elem_of_empty|done].
    exists fl. by rewrite !(right_id_L ∅ (∪)).
  - done.
Qed.

(** The tokens of producers that are left are there, and all others are not valid. *)
Definition tokens_left w l : Prop :=
  (∀ s, s ∈ l → token (s_node s) ≠ 0%nat → is_Some (producer_tokens w !! token (s_node s))) ∧
  ∀ k p, producer_tokens w !! k = Some p → p ≠ 0%nat → k ≠ 0%nat ∧ ∃ s, s ∈ l ∧ token (s_node s) = k.

Lemma destroy_producers_runs this extra l : ∀ fuel w q p, doomed w this q p l extra → (length l ≤ fuel)%nat →
  tokens_left w l →
  runs (destroy_producers (X := X) fuel p) w
    (λ _ w', hashes w' = hashes w ∧ lost (memory w') = lost (memory w) ∧ tokens_left w' [] ∧
       ∃ b, doomed w' this (set_pool_of b q) 0 [] extra) never no_fault.
Proof.
  induction l as [|s l IH]; intros fuel w q p Hd Hfuel [Ht1 Ht2].
  - pose proof Hd as (_ & _ & [_ Hp _ _ _ _]). simpl in Hp. subst p.
    destruct fuel; apply runs_ret; (split_and!; [done|done|done|]); exists (pool q); by destruct q.
  - pose proof Hd as (Hq & Hcl & [_ (Hp & Hne & Hs & _) _ _ _ _]). simpl in Hp, Hne, Hs. subst p.
    destruct fuel as [|fuel]; [simpl in Hfuel; lia|]. cbn [destroy_producers].
    rewrite bool_decide_eq_false_2 by done. apply runs_bind. eapply runs_load_producer; [exact Hs|]. apply runs_bind.
    set (cleared := if bool_decide (token (s_node s) ≠ 0%nat) then set_producer_tokens (<[token (s_node s) := 0%nat]> (producer_tokens w)) w else w).
    assert (Hsame : hashes cleared = hashes w ∧ lost (memory cleared) = lost (memory w) ∧ tokens_left cleared l ∧
      doomed cleared this q (s_addr s) (s :: l) extra).
    { unfold cleared. destruct (bool_decide_reflect (token (s_node s) ≠ 0%nat)) as [Hz|Hz].
      - split_and!; [done|done| |].
        + split; simpl.
          * intros s' Hin Hz'. destruct (decide (token (s_node s') = token (s_node s))) as [->|];
              [rewrite lookup_insert_eq; eauto|rewrite lookup_insert_ne by done; apply Ht1; [by right|done]].
          * intros k p [[_ <-]|[Hk Hp]]%lookup_insert_Some Hp0; [by destruct Hp0|].
            destruct (Ht2 k p Hp Hp0) as (Hk0 & s' & [->|Hin]%elem_of_cons & <-); [done|]. split; [done|by exists s'].
        + destruct Hd as (_ & _ & Hheap). split_and!; [done|done|]. exact (heap_ptokens _ _ _ _ _ _ Hheap).
      - split_and!; [done|done| |done]. split; [intros s' Hin; apply Ht1; by right|].
        intros k p Hp Hp0. destruct (Ht2 k p Hp Hp0) as (Hk0 & s' & [->|Hin]%elem_of_cons & <-); [done|].
        split; [done|by exists s']. }
    eapply runs_mono with (Q := λ _ w', w' = cleared) (Qt := never) (F := no_fault); [|intros [] w1 ->|done..].
    { unfold cleared. destruct (bool_decide_reflect (token (s_node s) ≠ 0%nat)) as [Hz|Hz]; [|by apply runs_ret].
      destruct (Ht1 s ltac:(by left) Hz) as [t Ht]. eapply runs_zoom; [by rewrite Ht|]. by apply runs_modify. }
    clearbody cleared. destruct Hsame as (Hh & Hl & Hleft & Hd'). apply runs_bind.
    eapply runs_mono; [by eapply destroy_producer_runs|..]; [|done..].
    intros [] w1 ([Hh1 Hp1 Hc1 Hl1] & b & Hd1).
    eapply runs_mono; [eapply IH; [exact Hd1|simpl in Hfuel; lia|]|..]; [..|done|done].
    { destruct Hleft as [Hleft1 Hleft2]. split; intros *; rewrite Hp1; [apply Hleft1|apply Hleft2]. }
    intros [] w2 (Hh2 & Hl2 & Hleft2 & b2 & Hd2). split_and!; [congruence|congruence|done|]. by exists b2.
Qed.

Lemma destroy_hashes_runs this (b : BlockPool) fl : ∀ extra ts w fuel r,
  pool_inv (X := X) (memory w) b ∅ (list_to_set extra) fl → NoDup extra →
  chain (hashes w) r ts → ts.*1 = (new_hash <$> extra) ++ [initialImplicitProducerHash this] →
  (length ts ≤ fuel)%nat →
  runs (destroy_hashes (X := X) fuel r) w
    (λ _ w', pool_inv (X := X) (memory w') b ∅ ∅ fl ∧ queues w' = queues w ∧ lost (memory w') = lost (memory w) ∧
       producer_tokens w' = producer_tokens w) never no_fault.
Proof.
  induction extra as [|raw extra IH]; intros ts w fuel r Hinv Hnd Hc Hrefs Hfuel.
  - destruct ts as [|[r1 m1] [|x ts]]; [done| |done]. injection Hrefs as ->.
    destruct Hc as (-> & h & kvs & Hh & _ & _ & Hprev). simpl in Hprev. destruct fuel as [|fuel]; [simpl in Hfuel; lia|].
    cbn [destroy_hashes]. apply runs_bind. eapply runs_load_hash; [exact Hh|]. rewrite Hprev. apply runs_bind, runs_ret.
    by destruct fuel; apply runs_ret.
  - destruct ts as [|[r1 m1] ts]; [done|]. csimpl in Hrefs. injection Hrefs as -> Hrefs.
    destruct Hc as (-> & h & kvs & Hh & _ & _ & Hc). destruct fuel as [|fuel]; [simpl in Hfuel; lia|].
    apply NoDup_cons in Hnd as [Hnot Hnd].
    cbn [destroy_hashes]. apply runs_bind. eapply runs_load_hash; [exact Hh|]. apply runs_bind.
    destruct (hash_prev h) as [prev|] eqn:Hprev; [|destruct ts as [|[r2 m2] ts]; [by destruct extra|by destruct Hc]].
    apply runs_bind, runs_modify, runs_on_mem. simpl in Hinv.
    destruct (pm_hdrs _ _ _ (pi_memory _ _ _ _ _ Hinv) raw) as [Hchunk Hne]; [set_solver|].
    apply free_runs; [exact Hchunk|done|]. intros m' Hfreed. pose proof Hfreed as (_ & _ & Hl & _).
    assert (Hinv' : pool_inv (X := X) m' b ∅ (list_to_set extra) fl)
      by (eapply pool_inv_freed; [exact Hinv|by rewrite elem_of_list_to_set|exact Hfreed]).
    eapply runs_mono; [apply (IH ts); [exact Hinv'|exact Hnd| |exact Hrefs|simpl in Hfuel; lia]|..]; [| |done..].
    + eapply chain_ext; [exact Hc|]. intros r Hr. simpl. rewrite lookup_delete_ne; [done|]. intros <-.
      rewrite Hrefs in Hr. apply elem_of_app in Hr as [(a & [= <-] & Ha)%list_elem_of_fmap|[=]%list_elem_of_singleton]. done.
    + intros [] w' (Hinv2 & Hq2 & Hl2 & Hp2). simpl in *. split_and!; [done|done|congruence|done].
Qed.

Definition nothing_left w this : Prop :=
  blocks (memory w) = ∅ ∧ chunks (memory w) = ∅ ∧ lost (memory w) = 0%nat ∧ queues w !! this = None ∧
  ∀ k p, producer_tokens w !! k = Some p → p = 0%nat.

Lemma dtor_runs w this S n : holds_queue True w this S n →
  runs (ConcurrentQueue_dtor (X := X) this) w (λ _ w', nothing_left w' this) never no_fault.
Proof.
  intros (q & l & extra & ts & [Hheap Hdesk] & _ & _ & _ & _ & Hlost & Hcl).
  pose proof (hp_queue _ _ _ _ _ Hheap) as Hq. apply runs_bind. eapply runs_queue_of; [exact Hq|].
  apply runs_bind, runs_gets, runs_bind.
  eapply runs_mono; [eapply (destroy_producers_runs this extra l _ w q (producerListTail q))|..]; [..|done|done].
  { split_and!; [done|by apply Hcl|]. by apply (heap_queue w this q). }
  { eapply listed_size; [exact (hp_list _ _ _ _ _ Hheap)|exact (hp_nodup _ _ _ _ _ Hheap)]. }
  { split.
    - intros s Hs Hz. pose proof (dk_token _ _ _ _ _ _ _ Hdesk _ (list_elem_of_fmap_2 tag_of _ _ Hs) Hz). by eexists.
    - intros k p Hk Hp. destruct (dk_held _ _ _ _ _ _ _ Hdesk k p Hk Hp) as [Hk0 Hin].
      apply list_elem_of_fmap in Hin as (s & Hs & Hin). split; [done|]. exists s. split; [done|]. exact (eq_sym (f_equal t_token Hs)). }
  intros [] w1 (Hh1 & Hl1 & [_ Hleft] & b & Hq1 & _ & Hheap1). apply runs_bind.
  assert (Htok : ∀ k p, producer_tokens w1 !! k = Some p → p = 0%nat).
  { intros k p Hk. destruct (decide (p = 0%nat)) as [|Hp]; [done|].
    destruct (Hleft k p Hk Hp) as (_ & s & Hs%elem_of_nil & _). done. }
  destruct (heap_pool _ _ _ _ _ Hheap1) as [[fl Hinv] _]. simpl in Hinv.
  assert (Hraws : NoDup extra) by exact (ma_nodup _ _ _ _ _ _ (hp_memory _ _ _ _ _ Hheap1)).
  assert (Hend : ∀ w2, pool_inv (X := X) (memory w2) b ∅ ∅ fl → queues w2 = queues w1 → lost (memory w2) = 0%nat →
    producer_tokens w2 = producer_tokens w1 →
    runs (X := X) (on_pool this destroy_pool ;; modify (λ w, set_hashes (delete (initialImplicitProducerHash this) (hashes w))
      (set_queues (delete this (queues w)) w))) w2 (λ _ w', nothing_left w' this) never no_fault).
  { intros w2 Hinv2 Hq2 Hl2 Hp2. apply runs_bind. eapply runs_zoom; [by rewrite Hq2, Hq1|].
    eapply runs_mono; [by eapply destroy_pool_runs|..]; [|done..]. intros [] [m' b'] (Hb & Hc & Hl'). apply runs_modify.
    split_and!; simpl; [done|done|congruence|apply lookup_delete_eq|]. by rewrite Hp2. }
  destruct (Z.eqb_spec INITIAL_IMPLICIT_PRODUCER_HASH_SIZE 0) as [Hz|Hz].
  - apply runs_ret. rewrite (dk_extra _ _ _ _ _ _ _ Hdesk Hz) in *. apply Hend; [exact Hinv|done|congruence|done].
  - apply runs_bind. eapply runs_queue_of; [exact Hq1|]. apply runs_bind, runs_gets.
    pose proof (dk_threads _ _ _ _ _ _ _ Hdesk) as Hthr. rewrite <- Hh1 in Hthr.
    pose proof (dk_refs _ _ _ _ _ _ _ Hdesk) as Hrefs. unfold table_refs in Hrefs. rewrite (proj2 (Z.eqb_neq _ _) Hz) in Hrefs.
    eapply runs_mono; [eapply (destroy_hashes_runs this b fl extra ts); [exact Hinv|exact Hraws| |exact Hrefs|]|..]; [| | |done..].
    + exact (th_chain _ _ _ _ Hthr).
    + by eapply chain_size; [exact (th_chain _ _ _ _ Hthr)|exact (th_nodup _ _ _ _ Hthr)].
    + intros [] w2 (Hinv2 & Hq2 & Hl2 & Hp2). apply Hend; [done|done|congruence|done].
Qed.

(** ** Counting

    The balance of a list of answers: the elements that were enqueued less those that were
    taken, by a call that answers true or by one whose assignment throws. *)
Definition change (r : answer X T U) : Z :=
  match r with
  | Replied (Enqueued _ (Returns true)) => 1
  | Replied (Dequeued _ (Returns true)) | Replied (Dequeued _ (Throws _)) => -1
  | _ => 0
  end.

Definition balance (rs : list (answer X T U)) : Z := foldr (λ r n, change r + n) 0 rs.

Lemma number_put S p xs : number_of_elements (set_stream p xs S) =
  number_of_elements S - default 0 (zlen <$> streams S !! p) + zlen xs.
Proof.
  unfold number_of_elements. simpl. rewrite <- insert_delete_eq, map_fold_insert_L; [|intros; lia|apply lookup_delete_eq].
  destruct (streams S !! p) as [ys|] eqn:E; simpl.
  - rewrite <- (insert_delete_id (streams S) p ys) at 2 by done.
    rewrite map_fold_insert_L; [lia|intros; lia|apply lookup_delete_eq].
  - rewrite delete_id by done. lia.
Qed.

Lemma number_empty S : number_of_elements S = 0 ↔ all_empty S.
Proof.
  unfold number_of_elements, all_empty. generalize (streams S) as m.
  assert (Hpos : ∀ m : gmap nat (list T), 0 ≤ map_fold (λ _ xs n, zlen xs + n) 0 m).
  { intros m. apply (map_fold_weak_ind (λ n _, 0 ≤ n)); [done|]. intros _ xs _ n _ Hn. pose proof (zlen_nonneg xs). lia. }
  induction m as [|p xs m Hp IH] using map_ind; [by split; [intros _ ? ? ?|]|].
  rewrite map_fold_insert_L by (done || (intros; lia)). pose proof (Hpos m). pose proof (zlen_nonneg xs). split.
  - intros Hsum p' ys [[_ <-]|[_ Hy]]%lookup_insert_Some; [destruct xs; [done|unfold zlen in *; simpl in *; lia]|]. apply IH in Hy; [done|lia].
  - intros Hall. rewrite (Hall p xs) by apply lookup_insert_eq.
    rewrite (proj2 IH); [done|]. intros p' ys Hy. apply (Hall p'). rewrite lookup_insert_ne; [done|]. congruence.
Qed.

Lemma fifo_change xs (o : call T U) r xs' : fifo_step assign_result xs o r xs' → zlen xs' = zlen xs + change (Replied r).
Proof. destruct 1; unfold zlen; rewrite ?length_app; simpl; lia. Qed.

Lemma step_change S o r S' : queue_step S o r S' → number_of_elements S' = number_of_elements S + change r.
Proof.
  assert (Hput : ∀ p xs xs' (c : call T U) r, default [] (streams S !! p) = xs →
    fifo_step assign_result xs c r xs' →
    number_of_elements (set_stream p xs' S) = number_of_elements S + change (Replied r)).
  { intros p xs xs' c r' Hxs Hf. rewrite number_put, (fifo_change _ _ _ _ Hf), <- Hxs.
    destruct (streams S !! p); simpl; unfold zlen; simpl; lia. }
  assert (Hno : number_of_elements S = number_of_elements S + 0) by lia.
  destruct 1 as [| |t p Ht Hf Hno' [Hp Hnew]| | | | | |? ? ? ? ? ? ? ? _ Hxs Hf|? ? ? ? p xs' ? _ [_ Hnew] Hf
    | |? ? ? ? ? ? ? ? _ Hxs Hf|? ? ? ? ? ? ? _ Hxs _ Hf| |? ? ? ? ? ? _ Hxs Hf|]; try exact Hno.
  - change (number_of_elements (set_stream p [] S) = number_of_elements S + 0). rewrite number_put, Hnew. unfold zlen. simpl. lia.
  - eapply Hput; [by rewrite Hxs|exact Hf].
  - apply (Hput p [] xs' _ _ ltac:(by rewrite Hnew) Hf).
  - eapply Hput; [by rewrite Hxs|exact Hf].
  - eapply Hput; [by rewrite Hxs|exact Hf].
  - eapply Hput; [by rewrite Hxs|exact Hf].
Qed.

(** What is known of the answer [r] to [o] if [k] elements are in the queue. *)
Definition found (k : Z) (r : answer X T U) : Prop :=
  ∃ u' a, r = Replied (Dequeued u' a) ∧ (a = Returns false ↔ k = 0).

Definition counted (k : Z) (o : op T U) (r : answer X T U) : Prop :=
  match o with
  | Size => r = Replied (Counted k) ∧ 0 ≤ k ≤ 2 ^ 63
  | Consume _ | ConsumeInOrder _ => found k r
  | ConsumeWith _ _ => r = Skipped ∨ found k r
  | _ => True
  end.

Lemma step_counted S o r S' : queue_step S o r S' → sensible r → counted (number_of_elements S) o r.
Proof.
  assert (Hreads : ∀ o u r, reads o u → found (number_of_elements S) r → counted (number_of_elements S) o r)
    by (intros [] ? ? [] ?; simpl; auto).
  destruct 1 as [o Hus| | | | | | | | | | | |o u p xs xs' u' r Hr Hxs Hne Hf|o u Hr Hall| |]; try done; intros _.
  - destruct o; try done. by left.
  - eapply Hreads; [exact Hr|]. exists u', r. split; [done|]. split; [by intros ->; inversion Hf; subst|].
    intros Hk%number_empty. by destruct (Hne (Hk p xs Hxs)).
  - eapply Hreads; [exact Hr|]. exists u, (Returns false). split; [done|]. split; [|done].
    intros _. by apply number_empty.
Qed.

Lemma steps_counted ops : ∀ S rs S', queue_steps assign_result S ops rs S' → Forall sensible rs →
  ∀ i o, ops !! i = Some o →
    ∃ r, rs !! i = Some r ∧ counted (number_of_elements S + balance (take i rs)) o r.
Proof.
  induction ops as [|o ops IH]; intros S rs S' Hsteps Hrs i o' Hi; [done|].
  inversion Hsteps as [|? ? r S1 ? rs1 ? Hstep Hsteps1]; subst. apply Forall_cons in Hrs as [Hr Hrs].
  destruct i as [|i]; simpl in *.
  - injection Hi as <-. exists r. split; [done|]. rewrite Z.add_0_r. by eapply step_counted.
  - destruct (IH _ _ _ Hsteps1 Hrs i o' Hi) as (r' & Hlook & Hc). exists r'. split; [done|].
    rewrite (step_change _ _ _ _ Hstep) in Hc. by rewrite Z.add_assoc.
Qed.

(** ** What follows *)
Lemma session_runs clean this capacity ops :
  sizeof_Block * blocks_for_capacity capacity < 2 ^ 64 → zlen ops < 2 ^ 32 → (clean → Forall survivable ops) →
  runs (queue_session assign_result nothrow_assign this capacity ops) nothing_yet
    (λ rs w, Forall sensible rs ∧ ∃ S, queue_steps assign_result no_streams ops rs S ∧
       holds_queue clean w this S (zlen ops)) never no_fault.
Proof.
  intros Hb Hlen Hsurv. apply runs_bind. eapply runs_mono; [by apply ctor_runs|..]; [|done..].
  intros [] w (q & l & extra & ts & Hat & Hst & Htok & Hrd & Hn & Hlost & Hcl).
  apply (run_ops_follow clean this ops w no_streams 0); [|lia|done].
  exists q, l, extra, ts. split_and!; [done..|]. intros _. by apply Hcl.
Qed.

(** C9: Whatever calls of the members that take single elements (with and without tokens), of
    the size, and of the tokens themselves one thread makes, on behalf of any number of threads, no
    call goes wrong, and the answers are those of the streams: every token and every thread writes
    to a stream of its own, in order; a token that is made takes over a stream that nobody writes
    to; a stream is only refused if there is no memory; a call to dequeue fails only if all streams
    are empty; the size is the number of elements.  Members that enqueue or dequeue in bulk, and
    those that move or swap whole queues, are not among the calls. *)
Theorem queue_follows_streams this capacity ops :
  sizeof_Block * blocks_for_capacity capacity < 2 ^ 64 → zlen ops < 2 ^ 32 →
  ∃ w rs S, queue_session assign_result nothrow_assign this capacity ops nothing_yet = Ok (w, Returns rs) ∧
    queue_steps assign_result no_streams ops rs S ∧ tokens S = producer_tokens w.
Proof.
  intros Hb Hlen. pose proof (session_runs False this capacity ops Hb Hlen ltac:(done)) as Hrun.
  unfold runs in Hrun. destruct (queue_session _ _ _ _ _ _) as [[w [rs|ex]]|f]; [|done..].
  destruct Hrun as (_ & S & Hsteps & q & l & extra & ts & _ & _ & Htok & _). by exists w, rs, S.
Qed.

(** C32: The destructor destroys the elements that are left, no others, frees all memory, that of
    producers and hash tables included, and invalidates the tokens, if no constructor of an
    element has thrown in an enqueue with a token. *)
Theorem queue_destroyed this capacity ops :
  sizeof_Block * blocks_for_capacity capacity < 2 ^ 64 → zlen ops < 2 ^ 32 → Forall survivable ops →
  ∃ w rs S, queue_life assign_result nothrow_assign this capacity ops nothing_yet = Ok (w, Returns rs) ∧
    queue_steps assign_result no_streams ops rs S ∧ nothing_left w this.
Proof.
  intros Hb Hlen Hsurv.
  assert (Hrun : runs (queue_life assign_result nothrow_assign this capacity ops) nothing_yet
    (λ rs w, ∃ S, queue_steps assign_result no_streams ops rs S ∧ nothing_left w this) never no_fault).
  { apply runs_bind_assoc, runs_bind.
    eapply runs_mono; [apply (session_runs True this capacity ops Hb Hlen ltac:(done))|..]; [|done..].
    intros rs w (_ & S & Hsteps & Hholds). apply runs_bind. eapply runs_mono; [by eapply dtor_runs|..]; [|done..].
    intros [] w' Hleft. apply runs_ret. by exists S. }
  unfold runs in Hrun. destruct (queue_life _ _ _ _ _ _) as [[w [rs|ex]]|f]; [|done..].
  destruct Hrun as (S & Hsteps & Hleft). by exists w, rs, S.
Qed.

(** C37: What one thread sees adds up.  A size is the number of calls to enqueue
    that have answered true, less the number of calls that have taken an element; it never
    wraps, being at most 2^63.  A call that reads from any stream fails if and only if
    that number is 0. *)
Theorem queue_sizes_add_up this capacity ops :
  sizeof_Block * blocks_for_capacity capacity < 2 ^ 64 → zlen ops < 2 ^ 32 →
  ∃ w rs, queue_session assign_result nothrow_assign this capacity ops nothing_yet = Ok (w, Returns rs) ∧
    ∀ i o, ops !! i = Some o → ∃ r, rs !! i = Some r ∧ counted (balance (take i rs)) o r.
Proof.
  intros Hb Hlen. pose proof (session_runs False this capacity ops Hb Hlen ltac:(done)) as Hrun.
  unfold runs in Hrun. destruct (queue_session _ _ _ _ _ _) as [[w [rs|ex]]|f]; [|done..].
  destruct Hrun as (Hall & S & Hsteps & _). exists w, rs. split; [done|]. exact (steps_counted _ _ _ _ Hsteps Hall).
Qed.
End refinement.

(** ** A session of three threads and a few tokens, in a table of two entries that has to grow *)
Section witnesses.
#[local] Open Scope nat_scope.
#[local] Existing Instances Demo.number Demo.number_laws Demo.small_blocks Demo.small_blocks_ok.

Definition queue_calls (last : nat) : list (op nat nat) :=
  [Produce 1 true Lvalue 10; Produce 2 true Rvalue 20; Produce 3 false Lvalue 30; Produce 3 true Lvalue 30;
   Produce 1 true Lvalue last; NewToken 1; ProduceWith 1 true Rvalue 40; ProduceWith 1 true Lvalue 41;
   ProduceWith 2 true Lvalue 9; NewConsumer 5; NewConsumer 5; Size; ConsumeWith 5 0; ConsumeWith 5 0;
   ConsumeInOrder 0; Consume 0; NewToken 2; ProduceWith 2 true Lvalue 50; SwapTokens 1 2;
   ProduceWith 1 true Lvalue 51; MoveToken 3 1; ProduceWith 1 true Lvalue 9; ConsumeFrom 3 0;
   DropToken 3; NewToken 4; ConsumeFrom 4 0; ConsumeFrom 4 0; Produce 2 true Lvalue 21; Size;
   Consume 0; Consume 0; Consume 0; Produce 3 true Lvalue 31].

#[local] Abbreviation demo_session l := (queue_session (X := nat) move_assign false 0 4 l nothing_yet).
#[local] Abbreviation demo_life l := (queue_life (X := nat) move_assign false 0 4 l nothing_yet).

Lemma queue_follows_streams_witness :
  (∃ w rs S, demo_session (queue_calls 13) = Ok (w, Returns rs) ∧
     queue_steps move_assign no_streams (queue_calls 13) rs S ∧ tokens S = producer_tokens w) ∧
  match demo_session (queue_calls 13) with
  | Ok (_, Returns rs) => rs =
      [Replied (Enqueued 10 (Returns true)); Replied (Enqueued 20 (Returns true));
       Replied (Enqueued 30 (Returns false)); Replied (Enqueued 30 (Returns true));
       Replied (Enqueued 13 (Throws 13)); Made true; Replied (Enqueued 40 (Returns true));
       Replied (Enqueued 41 (Returns true)); Skipped; Done; Skipped; Replied (Counted 5);
       Replied (Dequeued 40 (Returns true)); Replied (Dequeued 41 (Returns true));
       Replied (Dequeued 30 (Returns true)); Replied (Dequeued 20 (Returns true)); Made true;
       Replied (Enqueued 50 (Returns true)); Done; Replied (Enqueued 51 (Returns true)); Done; Skipped;
       Replied (Dequeued 50 (Returns true)); Done; Made true; Replied (Dequeued 51 (Returns true));
       Replied (Dequeued 0 (Returns false)); Replied (Enqueued 21 (Returns true)); Replied (Counted 2);
       Replied (Dequeued 21 (Returns true)); Replied (Dequeued 10 (Returns true));
       Replied (Dequeued 0 (Returns false)); Replied (Enqueued 31 (Returns true))]
  | _ => False
  end.
Proof.
  split; [|vm_compute; reflexivity].
  apply (queue_follows_streams (X := nat) (T := nat) move_assign false); [done|vm_compute; reflexivity|vm_compute; reflexivity].
Defined.

Lemma queue_destroyed_witness :
  ∃ w rs S, demo_life (queue_calls 11) = Ok (w, Returns rs) ∧
    queue_steps move_assign no_streams (queue_calls 11) rs S ∧ nothing_left w 0.
Proof.
  apply (queue_destroyed (X := nat) (T := nat) move_assign false); [done|vm_compute; reflexivity|vm_compute; reflexivity|].
  repeat constructor; intros x' ex; cbn; unfold Demo.copy; (rewrite bool_decide_eq_false_2; [congruence|lia]).
Defined.

Lemma queue_sizes_add_up_witness :
  (∃ w rs, demo_session (queue_calls 13) = Ok (w, Returns rs) ∧
     ∀ i o, queue_calls 13 !! i = Some o → ∃ r, rs !! i = Some r ∧ counted (balance (take i rs)) o r) ∧
  match demo_session (queue_calls 13) with
  | Ok (_, Returns rs) => rs !! 11 = Some (Replied (Counted 5)) ∧ balance (take 11 rs) = 5%Z ∧
      rs !! 31 = Some (Replied (Dequeued 0 (Returns false))) ∧ balance (take 31 rs) = 0%Z
  | _ => False
  end.
Proof.
  split; [|vm_compute; by split_and!].
  apply (queue_sizes_add_up (X := nat) (T := nat) move_assign false); [done|vm_compute; reflexivity|vm_compute; reflexivity].
Defined.
End witnesses.
